(* ===== verification/_CoqProject ===== *)
-Q . S2P
Prelude.v
StarknetApi.v
Collections.v
TransactionPool.v
TransactionQueue.v
Mempool.v
MempoolProofs.v
MempoolTheorems.v
StateMachine.v
TendermintRules.v
StateMachineProofs.v
StateMachineSafety.v
StateMachineLiveness.v
SingleHeightConsensus.v
ShcProofs.v
Agreement.v
ConsensusTheorems.v
Manager.v
ManagerTheorems.v
StreamHandler.v
StreamTheorems.v
PatriciaTypes.v
PatriciaTree.v
PatriciaNode.v
PatriciaSkeleton.v
PatriciaUpdate.v
PatriciaFilled.v
PatriciaOriginal.v
PatriciaStorage.v
PatriciaFlow.v
CommitterLeaf.v
CommitterInstances.v
PatriciaTheorems.v
Committer.v
CommitterSpec.v
CommitterProofs.v
CommitterTheorems.v
StateApi.v
CachedState.v
CachedStateProofs.v
VersionedState.v
VersionedProofs.v
CachedStateSpec.v
StatefulCompression.v
Scheduler.v
WorkerLogic.v
Bouncer.v
ConcurrencySpec.v
ConcurrencyInv.v
ConcurrencySteps.v
ConcurrencyScheduling.v
ConcurrencyExecution.v
ConcurrencyCommit.v
ConcurrencyTheorems.v
TransactionExecutor.v
ExecutorTheorems.v
FeeMarket.v
L1Provider.v
BlockBuilder.v
BuilderTheorems.v
Batcher.v
BatcherTheorems.v
ConsensusContext.v
ContextTheorems.v
EndToEnd.v
