(* ===== verification/Prelude.v ===== *)
(** * Verification of the Starknet sequencer

    This library models parts of the sequencer in Rocq and proves them correct. The model is
    a translation of the Rust sources under [crates/]: a pure function becomes a function, code
    that changes state becomes a function in the monad [M St E A := St → result E A * St] of
    this file, whose results are a value ([Ok]), an error ([Err]) or a panic ([Panic]).
    Definitions keep the names of the source and are executable.

    ** The program

    Users send transactions, which the _mempool_ holds until a block is built from them. The
    _batcher_ builds the block a node proposes, from the mempool and from the messages of L1,
    and validates the blocks of others; its builder hands the transactions to the _executor_ of
    the blockifier, which executes chunks of them concurrently on the block state. The nodes
    agree on the block of each height by _consensus_, whose messages travel over _streams_; its
    _context_ has the batcher build and validate proposals, and commit the decided one to
    storage. The state after a block is committed
    to by the roots of _Patricia-Merkle_ tries, which the _committer_ updates by the state diff
    of the block.

    ** Mempool (crates/starknet_mempool, with types of crates/starknet_api)

    - [StarknetApi]: nonces, fees, gas, resource bounds and version 3 account transactions of
      crates/starknet_api, with the arithmetic at its machine width.
    - [Collections]: the [BTreeSet] and [BTreeMap] operations the sources use.
    - [TransactionPool], [TransactionQueue]: transaction_pool.rs and transaction_queue.rs, one
      definition per method.
    - [Mempool]: mempool.rs: the account state ([State]), fee escalation, and the entry points
      [add_tx], [get_txs], [commit_block] and [update_gas_price_threshold].
    - [MempoolProofs]: the invariant that couples the pool, the queue and the staged nonces.
    - [MempoolTheorems]: no sequence of calls panics or breaks the invariant; a transaction is
      proposed once between two commits; what each entry point returns and leaves behind, with
      the bids that replace a transaction as exact fractions ([outbids]); no transaction is lost;
      a replacement of a later transaction of an account takes the eligible one off the queue.

    ** Consensus (crates/sequencing/papyrus_consensus)

    - [StateMachine]: state_machine.rs, the Tendermint state machine of one height.
    - [TendermintRules]: the abstract specification: the rules of the Tendermint paper as a
      transition relation, each with all its guards and with the event that it answers; how an
      event is handled by rules ([sm_handle], [sm_handles]), and the invariants that follow.
    - [StateMachineProofs]: every event is handled by rules (the refinement), no event is dropped
      or handled twice, the fuel is enough.
    - [StateMachineSafety]: no panic as long as the caller keeps its contract.
    - [StateMachineLiveness]: a quorum of precommits makes the machine decide.
    - [SingleHeightConsensus], [ShcProofs]: single_height_consensus.rs, what a node records,
      votes and broadcasts.
    - [Agreement]: the proof of agreement for a system of nodes over an arbitrary network with
      fewer than a third of the validators faulty.
    - [ConsensusTheorems]: agreement of honest nodes, certified decisions, consistent
      broadcasts, justified and ordered votes, refinement, termination, progress and the
      absence of panics.
    - [Manager], [ManagerTheorems]: manager.rs: the heights one after the other, with caches
      for messages of later heights; a height is driven only through calls that consensus
      allows, each for something that arrived or was cached, and ends as these calls end; nothing
      that arrives early is lost, decided heights increase; a message that is refused as faulty
      ends consensus on the node.
    - [StreamHandler], [StreamTheorems]: stream_handler.rs: whatever the order in which the
      messages of a stream arrive, the application reads them in the order they were sent.

    ** Patricia-Merkle tries (crates/starknet_patricia)

    - [PatriciaTypes]: node indices, paths, slices of sorted leaf indices (types.rs,
      node_data/inner_node.rs, original_skeleton_tree/utils.rs).
    - [PatriciaTree]: the abstract specification: the tree of a set of leaves by recursion on
      the height ([canonical]).
    - [PatriciaNode]: nodes, their hashes and bytes in storage (filled_tree/node_serde.rs). The
      traits [Leaf] and [TreeHashFunction] are classes, with laws that the instances of
      [CommitterLeaf] discharge.
    - [PatriciaOriginal]: the original skeleton read from storage (original_skeleton_tree).
    - [PatriciaSkeleton], [PatriciaUpdate]: the updated skeleton and its correctness
      (updated_skeleton_tree).
    - [PatriciaFilled]: the hashes and data of the modified nodes (filled_tree/tree.rs).
    - [PatriciaStorage], [PatriciaFlow]: trees in storage, and an update from end to end.
    - [PatriciaTheorems]: an update of a stored tree yields the root hash of the tree of the
      updated leaves, and writing the filled nodes stores that tree; each step on its own;
      the round trips of nodes through their bytes and of paths.

    ** Commitment of blocks (crates/starknet_committer)

    - [CommitterLeaf]: the leaves of the three kinds of tries, their bytes and hashes.
    - [CommitterInstances]: concrete hash functions, digits and a JSON parser, which show that
      the laws asked of the libraries can hold.
    - [Committer]: block_committer and forest: [commit_block].
    - [CommitterSpec]: the state of the chain as maps, and the tries that represent it.
    - [CommitterProofs], [CommitterTheorems]: committing a block over a forest that represents
      a state yields the roots of the state updated by the diff, and writing it to storage
      yields a forest that represents that state; so for every sequence of blocks.

    ** Execution of blocks (crates/blockifier)

    - [StateApi]: the queries of [StateReader], and code on a state as a tree of queries.
    - [CachedState], [CachedStateProofs], [CachedStateSpec]: cached_state.rs. A cached state,
      and any nesting of transactional states in it, behaves like one state that is updated in
      place, and its state diff is what has changed.
    - [VersionedState], [VersionedProofs]: versioned_storage.rs and versioned_state.rs, the
      state that the workers share, with validation of read sets.
    - [StatefulCompression]: stateful_compression.rs; a compressed state diff can be read back.
    - [Scheduler], [WorkerLogic]: scheduler.rs, worker_logic.rs and fee_utils.rs. A thread is
      a tree of atomic steps on shared memory, and a run of the workers follows a schedule, any
      list of threads.
    - [Bouncer]: bouncer.rs with the costs it counts; the weights of a block are exactly the sums
      over its transactions, and stay within the capacity.
    - [ConcurrencySpec]: the specification, executing the transactions one after the other.
      [ConcurrencyInv], [ConcurrencySteps], [ConcurrencyScheduling], [ConcurrencyExecution] and
      [ConcurrencyCommit]: the invariant of the workers, by roles, and that every step keeps it.
    - [ConcurrencyTheorems]: every schedule that completes yields the results and the state of
      the sequential execution; in a chunk without declarations the workers do not panic and
      some worker can always go on; a declaration that is aborted after its class was used makes
      later validations panic, and an interleaving in which this happens.
    - [TransactionExecutor], [ExecutorTheorems]: transaction_executor.rs and block.rs; executing
      a block in chunks is executing it one by one, which is the specification.

    ** Building blocks (crates/starknet_batcher, crates/starknet_l1_provider)

    - [L1Provider]: the messages of L1 are proposed once and in order.
    - [BlockBuilder], [BuilderTheorems]: block_builder.rs and transaction_provider.rs: what is
      streamed out is what is in the block, in order; a proposal has at most the allowed
      number of messages of L1; a full block is not noticed.
    - [Batcher], [BatcherTheorems]: batcher.rs: for every order of requests and of the steps of
      the building tasks, a result is kept under the proposal it was built for, and nothing
      panics; a proposal that fails to start blocks its height.

    ** The context of consensus (crates/sequencing/papyrus_consensus_orchestrator)

    - [FeeMarket]: fee_market; the base gas price changes by at most 1/48 a block, in the right
      direction.
    - [ConsensusContext], [ContextTheorems]: sequencer_consensus_context.rs with the batcher it
      calls. The context keeps to the protocol of the batcher, and the state diff that is
      committed for a decision is the one whose hash was decided; proposals that are queued for
      later rounds are lost, and one that is invalid at its end stops consensus.
    - [EndToEnd]: consensus of all nodes with the context and the batcher of each node, as one
      system ([joint_reachable]): the blocks of a height that honest nodes commit have the same
      state diff hash.

    The components meet in interfaces: the classes [StateReaderLaws] and [UpdatableStateLaws],
    which the cached and the versioned state discharge; [BlockBouncer], which [Bouncer]
    implements for the workers; [BlockExecutor], which [blockifier_executor] implements for the
    builder; and [TransactionProvider], with the two providers as instances.

    ** Conventions

    - Integers keep their width: sums and products of [u32], [u64], [u128] and field elements
      wrap, saturate, fail or panic as in the source.
    - A [HashMap] is a [gmap]. Where the code iterates over one, the order is given by the class
      [HashOrder], any permutation of the entries, and the theorems hold for each of them.
    - Code outside the repository is a parameter: the hash functions Pedersen and Poseidon, the
      parser of serde_json, the format of field elements ([CommitterLeaf]); the context of
      consensus, which builds and validates blocks and chooses leaders
      ([SingleHeightConsensus]); the network and the order in which [select!] serves its
      branches (sequences of inputs in [Manager] and [StreamHandler]); the code of a transaction
      ([execute_raw], any program on a state), the address of a balance ([FeeTokenVar]), the sum
      of resources of the Cairo virtual machine ([ResourcesSum]) and its estimate for the hash
      of a class; the clients of the builder ([ProviderClients]), the storage of the batcher
      ([BatcherStorage]) and the hash of a state diff. What is relied on is stated as laws of
      these classes, and witnesses instantiate them.
    - What the environment decides is an input: the schedule of the workers, what an iteration
      of the builder sees ([Moment]), the events of the batcher, and what the tasks of the
      context see ([StepInput]) and do while a call waits. The memory of the workers is
      sequentially consistent.
    - Hypotheses on transactions: [chunk_ok] and [block_ok] (a class is declared under its own
      hash, and the read set keeps every answer), [quiet] (nothing is declared and no execution
      panics). [allowed] is what the batcher expects of its callers: an identifier is used once,
      the decided proposal is not still streamed; [ContextTheorems] shows that the context does.
    - Tasks that the source spawns and joins are run one after the other where they write to
      disjoint places ([PatriciaFilled], [Committer]).

    ** Fuel

    Recursion that is not structural is bounded by fuel, and the theorems show that the bound
    is enough: [current_round_upons] recurses at most twice after a step of the round is taken,
    so that 3 levels suffice; the event loop of [handle_event] gets six iterations for each
    queued event and five more, which [handle_event_terminates] proves to be enough;
    [get_txs] pops at least one transaction an iteration;
    [tree_fuel] is 252, one more than the height of a tree; [current_height_loop] and
    [process_buffer_loop] remove an entry of a map an iteration and get its size;
    [commit_loop] commits a transaction an iteration and gets one more than the length of the
    chunk; [chunks_of] gets the length of the list it cuts. A run of the workers, of the builder
    or of the executor that its schedule does not complete is [Unfinished]; the theorems on
    progress and on panics of the workers hold for these runs too.

    ** Not modelled

    - Of the blockifier: the execution of entry points, system calls and the flow of a single
      transaction run in the Cairo virtual machine and in Cairo native, which are libraries
      outside the repository; versioned constants are read from files, and the class manager
      caches compiled classes.
    - Of the batcher and the L1 provider: the factory of builders, which opens storage, and the
      methods of the provider that the code does not implement yet.
    - The gateway calls the blockifier and the Sierra compiler to validate a transaction. The
      archive of blobs and the broadcast of votes are calls to other services.
    - Storage (crates/papyrus_storage) is a layer over libmdbx and serialization macros;
      networking (crates/papyrus_network, the p2p crates) is built on libp2p; the RPC,
      HTTP and monitoring servers, the infrastructure of remote components, configuration
      loading and the command line tools are I/O over external frameworks.
    - Logging and metrics of the modelled components; older transaction versions; the
      communication wrappers of the components. *)

From Stdlib Require Export NArith Lia.
From stdpp Require Export prelude sorting gmap fin_maps fin_sets list.

#[global] Open Scope N_scope.

(** ** Results of fallible code

    A Rust function returns a value, returns an [Err], or panics ([assert!],
    [expect], [unwrap], [panic!], [unimplemented!]). *)
Inductive result (E A : Type) : Type :=
| Ok (a : A)
| Err (e : E)
| Panic.
Arguments Ok {E A} a.
Arguments Err {E A} e.
Arguments Panic {E A}.

Lemma result_panics {E A} (r : result E A) : r = Panic ∨ r ≠ Panic.
Proof. destruct r; auto. Qed.

(** Methods taking [&mut self]: the state is returned whatever the result, since
    the changes made before an early [return Err(_)] persist. *)
Definition M (St E A : Type) : Type := St → result E A * St.

#[global] Instance M_ret {S E} : MRet (M S E) := λ A a s, (Ok a, s).
#[global] Instance M_bind {S E} : MBind (M S E) := λ A B f m s,
  match m s with
  | (Ok a, s') => f a s'
  | (Err e, s') => (Err e, s')
  | (Panic, s') => (Panic, s')
  end.

Definition get_st {S E} : M S E S := λ s, (Ok s, s).
Definition gets {S E A} (f : S → A) : M S E A := λ s, (Ok (f s), s).
Definition modify {S E} (f : S → S) : M S E unit := λ s, (Ok tt, f s).
Definition throw {S E A} (e : E) : M S E A := λ s, (Err e, s).
Definition panic {S E A} : M S E A := λ s, (Panic, s).
Definition lift_result {S E A} (r : result E A) : M S E A := λ s, (r, s).
Definition assert_ {S E} (b : bool) : M S E unit := if b then mret tt else panic.
Definition expect {S E A} (o : option A) : M S E A :=
  match o with Some a => mret a | None => panic end.

(** A method of a field of the state: [self.field.method(..)]. *)
Definition zoom {S T E A} (get : S → T) (set : T → S → S) (m : M T E A) : M S E A :=
  λ s, let '(r, t) := m (get s) in (r, set t s).

(** [m.expect(..)] and [let Ok(_) = m else { continue }] on a [Result]. *)
Definition expect_ok {S E A} (m : M S E A) : M S E A := λ s,
  match m s with (Err _, s') => (Panic, s') | r => r end.
Definition ignore_err {S E A} (m : M S E A) : M S E unit := λ s,
  match m s with (Panic, s') => (Panic, s') | (_, s') => (Ok tt, s') end.

(** [for x in xs { f(x)?; }]. *)
Fixpoint mfor {S E A} (f : A → M S E unit) (xs : list A) : M S E unit :=
  match xs with
  | [] => mret tt
  | x :: xs => f x ;; mfor f xs
  end.

(** [xs.iter().map(f).collect()] for a fallible [f] that does not change the state. *)
Fixpoint mcollect {S E A B} (f : A → M S E B) (xs : list A) : M S E (list B) :=
  match xs with
  | [] => mret []
  | x :: xs => y ← f x; ys ← mcollect f xs; mret (y :: ys)
  end.

(** ** Running a method: postconditions *)

Definition wp {S E A} (m : M S E A) (s : S) (Q : result E A → S → Prop) : Prop :=
  Q (m s).1 (m s).2.

(** The method returns [Ok] and its value and final state satisfy [Q]. *)
Definition wp_ok {S E A} (m : M S E A) (s : S) (Q : A → S → Prop) : Prop :=
  wp m s (λ r s', match r with Ok a => Q a s' | _ => False end).

Section wp_rules.
Context {St E : Type}.
Implicit Types s : St.

Lemma wp_mono {A} (m : M St E A) s (Q Q' : result E A → St → Prop) :
  wp m s Q → (∀ r s', Q r s' → Q' r s') → wp m s Q'.
Proof. unfold wp; auto. Qed.

Lemma wp_bind {A B} (m : M St E A) (f : A → M St E B) s (Q : result E B → St → Prop) :
  wp m s (λ r s', match r with
                  | Ok a => wp (f a) s' Q
                  | Err e => Q (Err e) s'
                  | Panic => Q Panic s'
                  end) →
  wp (m ≫= f) s Q.
Proof. unfold wp, mbind, M_bind. destruct (m s) as [[] ?]; auto. Qed.

Lemma wp_ok_bind {A B} (m : M St E A) (f : A → M St E B) s (Q : B → St → Prop) :
  wp_ok m s (λ a s', wp_ok (f a) s' Q) → wp_ok (m ≫= f) s Q.
Proof.
  unfold wp_ok, wp, mbind, M_bind. destruct (m s) as [[] ?]; naive_solver.
Qed.

Lemma wp_ok_mono {A} (m : M St E A) s (Q Q' : A → St → Prop) :
  wp_ok m s Q → (∀ a s', Q a s' → Q' a s') → wp_ok m s Q'.
Proof. unfold wp_ok, wp. destruct (m s).1; naive_solver. Qed.

Lemma wp_ok_iff {A} (m : M St E A) s (Q : A → St → Prop) :
  wp_ok m s Q ↔ ∃ a s', m s = (Ok a, s') ∧ Q a s'.
Proof.
  unfold wp_ok, wp. destruct (m s) as [[a|e|] s']; simpl; split; try done;
  [eauto|intros (?&?&?&?)..]; by simplify_eq.
Qed.

Lemma wp_zoom {T A} (get : St → T) (set : T → St → St) (m : M T E A) s
    (Q : result E A → St → Prop) :
  wp m (get s) (λ r t, Q r (set t s)) → wp (zoom get set m) s Q.
Proof. unfold wp, zoom. by destruct (m (get s)). Qed.

Lemma wp_ok_zoom {T A} (get : St → T) (set : T → St → St) (m : M T E A) s
    (Q : A → St → Prop) :
  wp_ok m (get s) (λ a t, Q a (set t s)) → wp_ok (zoom get set m) s Q.
Proof. unfold wp_ok, wp, zoom. by destruct (m (get s)). Qed.

(** Loop rule: [I done s] relates the elements already processed to the state. *)
Lemma wp_ok_mfor_prefix {A} (f : A → M St E unit) (I : list A → St → Prop) xs pre s :
  I pre s →
  (∀ pre' x post s', pre ++ xs = pre' ++ x :: post → I pre' s' →
     wp_ok (f x) s' (λ _ s'', I (pre' ++ [x]) s'')) →
  wp_ok (mfor f xs) s (λ _ s', I (pre ++ xs) s').
Proof.
  revert pre s. induction xs as [|x xs IH]; intros pre s HI Hf; simpl.
  { by rewrite app_nil_r. }
  apply wp_ok_bind. eapply wp_ok_mono; [by eapply Hf|]. simpl. intros _ s' HI'.
  rewrite cons_middle, app_assoc. apply IH; [done|].
  intros pre' y post s'' Heq. apply (Hf pre' y post). by rewrite cons_middle, app_assoc.
Qed.

Lemma wp_ok_mfor {A} (f : A → M St E unit) (I : list A → St → Prop) xs s :
  I [] s →
  (∀ pre x post s', xs = pre ++ x :: post → I pre s' →
     wp_ok (f x) s' (λ _ s'', I (pre ++ [x]) s'')) →
  wp_ok (mfor f xs) s (λ _ s', I xs s').
Proof. intros HI Hf. by apply (wp_ok_mfor_prefix f I xs []). Qed.

(** Loop rule for an invariant that does not mention the progress made. *)
Lemma wp_ok_mfor_inv {A} (f : A → M St E unit) (I : St → Prop) xs s :
  I s →
  (∀ x s', x ∈ xs → I s' → wp_ok (f x) s' (λ _ s'', I s'')) →
  wp_ok (mfor f xs) s (λ _ s', I s').
Proof.
  intros HI Hf. apply (wp_ok_mfor f (λ _, I)); [done|].
  intros pre x post s' -> HI'. apply Hf; [set_solver|done].
Qed.
End wp_rules.

(** ** Symbolic execution

    [mstep] runs the leading operations of a method on a state. *)

Create Rewrite HintDb mstep.

Section mstep.
Context {St E A B : Type}.
Implicit Types (s : St) (f : A → M St E B).

Lemma bind_ret a f s : (mret a ≫= f) s = f a s.
Proof. done. Qed.
Lemma bind_get_st (f : St → M St E B) s : (get_st ≫= f) s = f s s.
Proof. done. Qed.
Lemma bind_gets (g : St → A) f s : (gets g ≫= f) s = f (g s) s.
Proof. done. Qed.
Lemma bind_modify g (f : unit → M St E B) s : (modify g ≫= f) s = f tt (g s).
Proof. done. Qed.
Lemma bind_assert_true (f : unit → M St E B) s : (assert_ true ≫= f) s = f tt s.
Proof. done. Qed.
Lemma bind_assert_false (f : unit → M St E B) s : (assert_ false ≫= f) s = (Panic, s).
Proof. done. Qed.
Lemma bind_expect_Some a f s : (expect (Some a) ≫= f) s = f a s.
Proof. done. Qed.
Lemma bind_expect_None f s : (expect None ≫= f) s = (Panic, s).
Proof. done. Qed.
Lemma bind_throw e f s : (throw e ≫= f) s = (Err e, s).
Proof. done. Qed.
Lemma bind_lift_Ok a f s : (lift_result (Ok a) ≫= f) s = f a s.
Proof. done. Qed.
Lemma bind_lift_Err e f s : (lift_result (Err e) ≫= f) s = (Err e, s).
Proof. done. Qed.
Lemma bind_run (m : M St E A) f s a s' : m s = (Ok a, s') → (m ≫= f) s = f a s'.
Proof. unfold mbind, M_bind. by intros ->. Qed.
Lemma bind_run_err (m : M St E A) f s e s' : m s = (Err e, s') → (m ≫= f) s = (Err e, s').
Proof. unfold mbind, M_bind. by intros ->. Qed.
Lemma bind_assoc {C} (m : M St E C) (g : C → M St E A) f s :
  ((m ≫= g) ≫= f) s = (m ≫= λ x, g x ≫= f) s.
Proof. unfold mbind, M_bind. by destruct (m s) as [[] ?]. Qed.
End mstep.

#[export] Hint Rewrite @bind_ret @bind_get_st @bind_gets @bind_modify @bind_assert_true
  @bind_assert_false @bind_expect_Some @bind_expect_None @bind_throw @bind_lift_Ok
  @bind_lift_Err @bind_assoc : mstep.

(** The same on postconditions. *)
Section wp_steps.
Context {St E A B : Type}.
Implicit Types (s : St) (f : A → M St E B) (Q : result E B → St → Prop).

Lemma wp_get_st (f : St → M St E B) s Q : wp (f s) s Q → wp (get_st ≫= f) s Q.
Proof. done. Qed.
Lemma wp_modify g (f : unit → M St E B) s Q : wp (f tt) (g s) Q → wp (modify g ≫= f) s Q.
Proof. done. Qed.
Lemma wp_lift_Ok a f s Q : wp (f a) s Q → wp (lift_result (Ok a) ≫= f) s Q.
Proof. done. Qed.
Lemma wp_lift_Err e f s Q : Q (Err e) s → wp (lift_result (Err e) ≫= f) s Q.
Proof. done. Qed.
Lemma wp_run_ok (m : M St E B) s (Q : B → St → Prop) (Q' : result E B → St → Prop) :
  wp_ok m s Q → (∀ b s', Q b s' → Q' (Ok b) s') → wp m s Q'.
Proof. unfold wp_ok, wp. destruct (m s) as [[] ?]; simpl; auto; done. Qed.
Lemma wp_bind_ok (m : M St E A) f s (Q : A → St → Prop) Q' :
  wp_ok m s Q → (∀ a s', Q a s' → wp (f a) s' Q') → wp (m ≫= f) s Q'.
Proof.
  unfold wp_ok, wp, mbind, M_bind. destruct (m s) as [[] ?]; simpl; auto; done.
Qed.
End wp_steps.

Ltac mstep := autorewrite with mstep; cbn beta iota.

(** ** Hash maps

    The iteration order of [HashMap] and [HashSet] is unspecified: the definitions
    that iterate over one take an arbitrary enumeration of its entries. *)
Class HashOrder := {
  hash_iter : ∀ {K V : Type} `{Countable K}, gmap K V → list (K * V);
  hash_iter_perm : ∀ {K V : Type} `{Countable K} (m : gmap K V),
    hash_iter m ≡ₚ map_to_list m;
}.

Definition canonical_order : HashOrder :=
  {| hash_iter := λ K V _ _ m, map_to_list m; hash_iter_perm := λ K V _ _ m, reflexivity _ |}.

Definition hash_keys `{HashOrder} {K V} `{Countable K} (m : gmap K V) : list K :=
  (hash_iter m).*1.

Lemma elem_of_hash_iter `{HashOrder} {K V} `{Countable K} (m : gmap K V) k v :
  (k, v) ∈ hash_iter m ↔ m !! k = Some v.
Proof. by rewrite hash_iter_perm, elem_of_map_to_list. Qed.

Lemma elem_of_hash_keys `{HashOrder} {K V} `{Countable K} (m : gmap K V) k :
  k ∈ hash_keys m ↔ is_Some (m !! k).
Proof.
  unfold hash_keys. rewrite list_elem_of_fmap. split.
  - intros ([k' v] & -> & Hin%elem_of_hash_iter). by exists v.
  - intros [v Hv]. exists (k, v). by rewrite elem_of_hash_iter.
Qed.

Lemma NoDup_hash_keys `{HashOrder} {K V} `{Countable K} (m : gmap K V) :
  NoDup (hash_keys m).
Proof. unfold hash_keys. rewrite hash_iter_perm. apply NoDup_fst_map_to_list. Qed.

(** ** Lists *)

Lemma filter_all {A} (P : A → Prop) `{∀ x, Decision (P x)} (l : list A) :
  (∀ x, x ∈ l → P x) → filter P l = l.
Proof.
  induction l as [|x l IH]; intros Hl; [done|].
  rewrite filter_cons_True by set_solver. f_equal. set_solver.
Qed.

Lemma filter_none {A} (P : A → Prop) `{∀ x, Decision (P x)} (l : list A) :
  (∀ x, x ∈ l → ¬ P x) → filter P l = [].
Proof.
  induction l as [|x l IH]; intros Hl; [done|].
  rewrite filter_cons_False by set_solver. set_solver.
Qed.
