(* ===== verification/StarknetApi.v ===== *)
(** Data types and machine arithmetic of [crates/starknet_api]: field elements, nonces,
    fees, gas amounts and prices, resource bounds, and the version 3 account transactions
    that the gateway hands to the mempool.

    The newtypes over [Felt], [u64] and [u128] are numbers; what their operations do at
    the width of the type is written out. *)

From S2P Require Import Prelude.

Abbreviation Felt := N (only parsing).
Abbreviation Nonce := N (only parsing).
Abbreviation ContractAddress := N (only parsing).
Abbreviation TransactionHash := N (only parsing).
Abbreviation ClassHash := N (only parsing).
Abbreviation CompiledClassHash := N (only parsing).
Abbreviation StorageKey := N (only parsing).
Abbreviation Tip := N (only parsing).
Abbreviation Fee := N (only parsing).
Abbreviation GasAmount := N (only parsing).
Abbreviation GasPrice := N (only parsing).

(** ** Machine integers *)

Definition u64_max : N := 2 ^ 64 - 1.
Definition u128_max : N := 2 ^ 128 - 1.

Definition checked_add (max a b : N) : option N :=
  if decide (a + b ≤ max) then Some (a + b) else None.
Definition checked_sub (a b : N) : option N :=
  if decide (b ≤ a) then Some (a - b) else None.
Definition checked_mul (max a b : N) : option N :=
  if decide (a * b ≤ max) then Some (a * b) else None.
Definition saturating_add (max a b : N) : N := N.min max (a + b).
Definition saturating_mul (max a b : N) : N := N.min max (a * b).

(** ** Field elements and nonces *)

(** The order of the field, 2^251 + 17 * 2^192 + 1. *)
Definition felt_prime : N := 2 ^ 251 + 17 * 2 ^ 192 + 1.
Definition felt_add (a b : Felt) : Felt := (a + b) mod felt_prime.
Definition felt_sub (a b : Felt) : Felt := (a + (felt_prime - b)) mod felt_prime.

Inductive StarknetApiError := OutOfRange | ZeroGasPrice | InvalidResourceMappingInitializer.

Definition Nonce_try_increment (self : Nonce) : result StarknetApiError Nonce :=
  let incremented := felt_add self 1 in
  if decide (incremented = 0) then Err OutOfRange else Ok incremented.

Definition Nonce_try_decrement (self : Nonce) : result StarknetApiError Nonce :=
  if decide (self = 0) then Err OutOfRange else Ok (felt_sub self 1).

(** ** Fees and gas *)

Definition GasPrice_saturating_mul (self : GasPrice) (rhs : GasAmount) : Fee :=
  saturating_mul u128_max self rhs.
Definition GasPrice_checked_mul (self : GasPrice) (rhs : GasAmount) : option Fee :=
  checked_mul u128_max self rhs.

Definition NonzeroGasPrice_new (price : GasPrice) : result StarknetApiError GasPrice :=
  if decide (price = 0) then Err ZeroGasPrice else Ok price.

Definition GasAmount_checked_add (self rhs : GasAmount) : option GasAmount :=
  checked_add u64_max self rhs.
Definition GasAmount_checked_sub (self rhs : GasAmount) : option GasAmount :=
  checked_sub self rhs.
Definition GasAmount_saturating_mul (self : GasAmount) (rhs : GasPrice) : Fee :=
  GasPrice_saturating_mul rhs self.
Definition GasAmount_checked_mul (self : GasAmount) (rhs : GasPrice) : option Fee :=
  GasPrice_checked_mul rhs self.
Definition GasAmount_checked_factor_mul (self : GasAmount) (factor : N) : option GasAmount :=
  checked_mul u64_max self factor.

Definition Fee_checked_add (self rhs : Fee) : option Fee := checked_add u128_max self rhs.
Definition Fee_saturating_add (self rhs : Fee) : Fee := saturating_add u128_max self rhs.

Definition Fee_checked_div (self : Fee) (rhs : GasPrice) : option GasAmount :=
  if decide (self / rhs ≤ u64_max) then Some (self / rhs) else None.

Definition Fee_saturating_div (self : Fee) (rhs : GasPrice) : GasAmount :=
  default u64_max (Fee_checked_div self rhs).

(** [value.0 + 1] is unchecked [u64] addition: it panics on overflow (with overflow
    checks, the default of the development profile). *)
Definition Fee_checked_div_ceil (self : Fee) (rhs : GasPrice) : result unit (option GasAmount) :=
  match Fee_checked_div self rhs with
  | None => Ok None
  | Some value =>
      match GasAmount_checked_mul value rhs with
      | None => Panic
      | Some floor_cost =>
          if decide (floor_cost < self)
          then match checked_add u64_max value 1 with
               | Some v => Ok (Some v)
               | None => Panic
               end
          else Ok (Some value)
      end
  end.

Record GasVector := { gv_l1_gas : GasAmount; gv_l1_data_gas : GasAmount; gv_l2_gas : GasAmount }.

Record GasPriceVector := {
  l1_gas_price : GasPrice;
  l1_data_gas_price : GasPrice;
  l2_gas_price : GasPrice;
}.

Definition GasVector_checked_add (self rhs : GasVector) : option GasVector :=
  match GasAmount_checked_add self.(gv_l1_gas) rhs.(gv_l1_gas),
        GasAmount_checked_add self.(gv_l1_data_gas) rhs.(gv_l1_data_gas),
        GasAmount_checked_add self.(gv_l2_gas) rhs.(gv_l2_gas) with
  | Some l1, Some l1d, Some l2 =>
      Some {| gv_l1_gas := l1; gv_l1_data_gas := l1d; gv_l2_gas := l2 |}
  | _, _, _ => None
  end.

Definition GasVector_checked_scalar_mul (self : GasVector) (factor : N) : option GasVector :=
  match GasAmount_checked_factor_mul self.(gv_l1_gas) factor,
        GasAmount_checked_factor_mul self.(gv_l1_data_gas) factor,
        GasAmount_checked_factor_mul self.(gv_l2_gas) factor with
  | Some l1, Some l1d, Some l2 =>
      Some {| gv_l1_gas := l1; gv_l1_data_gas := l1d; gv_l2_gas := l2 |}
  | _, _, _ => None
  end.

(** [None] is the panic on overflow. *)
Definition GasVector_cost (self : GasVector) (gas_prices : GasPriceVector) : option Fee :=
  foldl (λ sum '(gas, price),
      sum ← sum; cost ← GasAmount_checked_mul gas price; Fee_checked_add sum cost)
    (Some 0)
    [(self.(gv_l1_gas), gas_prices.(l1_gas_price));
     (self.(gv_l1_data_gas), gas_prices.(l1_data_gas_price));
     (self.(gv_l2_gas), gas_prices.(l2_gas_price))].

(** A positive [l2_gas] reaches [todo!()]. *)
Definition GasVector_to_discounted_l1_gas (self : GasVector) (gas_prices : GasPriceVector)
  : result unit GasAmount :=
  if decide (0 < self.(gv_l2_gas)) then Panic else
  match GasAmount_checked_mul self.(gv_l1_data_gas) gas_prices.(l1_data_gas_price) with
  | None => Panic
  | Some l1_data_gas_fee =>
      match Fee_checked_div_ceil l1_data_gas_fee gas_prices.(l1_gas_price) with
      | Ok (Some l1_data_gas_in_l1_gas_units) =>
          match GasAmount_checked_add self.(gv_l1_gas) l1_data_gas_in_l1_gas_units with
          | Some r => Ok r
          | None => Panic
          end
      | _ => Panic
      end
  end.

(** ** Resource bounds *)

Record ResourceBounds := { max_amount : GasAmount; max_price_per_unit : GasPrice }.

Definition ResourceBounds_default : ResourceBounds :=
  {| max_amount := 0; max_price_per_unit := 0 |}.

Definition ResourceBounds_is_zero (self : ResourceBounds) : bool :=
  bool_decide (self.(max_amount) = 0) && bool_decide (self.(max_price_per_unit) = 0).

Record AllResourceBounds := {
  rb_l1_gas : ResourceBounds;
  rb_l2_gas : ResourceBounds;
  rb_l1_data_gas : ResourceBounds;
}.

Inductive ValidResourceBounds :=
| L1Gas (l1_bounds : ResourceBounds)
| AllResources (all : AllResourceBounds).

Definition get_l1_bounds (self : ValidResourceBounds) : ResourceBounds :=
  match self with L1Gas l1_bounds => l1_bounds | AllResources all => all.(rb_l1_gas) end.

Definition get_l2_bounds (self : ValidResourceBounds) : ResourceBounds :=
  match self with L1Gas _ => ResourceBounds_default | AllResources all => all.(rb_l2_gas) end.

Definition max_possible_fee (self : ValidResourceBounds) : Fee :=
  match self with
  | L1Gas l1_bounds =>
      GasAmount_saturating_mul l1_bounds.(max_amount) l1_bounds.(max_price_per_unit)
  | AllResources {| rb_l1_gas := l1; rb_l2_gas := l2; rb_l1_data_gas := l1d |} =>
      Fee_saturating_add
        (Fee_saturating_add
           (GasAmount_saturating_mul l1.(max_amount) l1.(max_price_per_unit))
           (GasAmount_saturating_mul l2.(max_amount) l2.(max_price_per_unit)))
        (GasAmount_saturating_mul l1d.(max_amount) l1d.(max_price_per_unit))
  end.

Inductive GasVectorComputationMode := GasMode_All | GasMode_NoL2Gas.

Definition get_gas_vector_computation_mode (self : ValidResourceBounds) : GasVectorComputationMode :=
  match self with AllResources _ => GasMode_All | L1Gas _ => GasMode_NoL2Gas end.

Inductive Resource := Resource_L1Gas | Resource_L2Gas | Resource_L1DataGas.

#[global] Instance Resource_eq_dec : EqDecision Resource.
Proof. solve_decision. Defined.

#[global] Instance Resource_countable : Countable Resource.
Proof.
  refine (inj_countable'
    (λ r, match r with Resource_L1Gas => 0 | Resource_L2Gas => 1 | Resource_L1DataGas => 2 end)
    (λ n, match n with 0 => Resource_L1Gas | 1 => Resource_L2Gas | _ => Resource_L1DataGas end) _).
  by intros [].
Defined.

Definition AllResourceBounds_get_bound (self : AllResourceBounds) (resource : Resource)
  : ResourceBounds :=
  match resource with
  | Resource_L1Gas => self.(rb_l1_gas)
  | Resource_L2Gas => self.(rb_l2_gas)
  | Resource_L1DataGas => self.(rb_l1_data_gas)
  end.

(** The mapping in which resource bounds are serialized. *)
Abbreviation DeprecatedResourceBoundsMapping := (gmap Resource ResourceBounds) (only parsing).

Definition ValidResourceBounds_serialize (self : ValidResourceBounds)
  : DeprecatedResourceBoundsMapping :=
  match self with
  | L1Gas l1_bounds =>
      <[Resource_L1Gas := l1_bounds]> {[Resource_L2Gas := ResourceBounds_default]}
  | AllResources {| rb_l1_gas := l1_gas; rb_l2_gas := l2_gas; rb_l1_data_gas := l1_data_gas |} =>
      <[Resource_L1Gas := l1_gas]> (<[Resource_L2Gas := l2_gas]>
        {[Resource_L1DataGas := l1_data_gas]})
  end.

Definition ValidResourceBounds_try_from (m : DeprecatedResourceBoundsMapping)
  : result StarknetApiError ValidResourceBounds :=
  match m !! Resource_L1Gas, m !! Resource_L2Gas with
  | Some l1_bounds, Some l2_bounds =>
      match m !! Resource_L1DataGas with
      | Some data_bounds =>
          Ok (AllResources {| rb_l1_gas := l1_bounds; rb_l2_gas := l2_bounds;
                              rb_l1_data_gas := data_bounds |})
      | None =>
          if ResourceBounds_is_zero l2_bounds then Ok (L1Gas l1_bounds)
          else Err InvalidResourceMappingInitializer
      end
  | _, _ => Err InvalidResourceMappingInitializer
  end.

(** ** Account transactions (version 3) *)

Inductive DataAvailabilityMode := DA_L1 | DA_L2.

Record InvokeTransactionV3 := {
  inv_resource_bounds : ValidResourceBounds;
  inv_tip : Tip;
  inv_signature : list Felt;
  inv_nonce : Nonce;
  inv_sender_address : ContractAddress;
  inv_calldata : list Felt;
  inv_nonce_data_availability_mode : DataAvailabilityMode;
  inv_fee_data_availability_mode : DataAvailabilityMode;
  inv_paymaster_data : list Felt;
  inv_account_deployment_data : list Felt;
}.

Record DeclareTransactionV3 := {
  dec_resource_bounds : ValidResourceBounds;
  dec_tip : Tip;
  dec_signature : list Felt;
  dec_nonce : Nonce;
  dec_class_hash : ClassHash;
  dec_compiled_class_hash : CompiledClassHash;
  dec_sender_address : ContractAddress;
  dec_nonce_data_availability_mode : DataAvailabilityMode;
  dec_fee_data_availability_mode : DataAvailabilityMode;
  dec_paymaster_data : list Felt;
  dec_account_deployment_data : list Felt;
}.

Record DeployAccountTransactionV3 := {
  dep_resource_bounds : ValidResourceBounds;
  dep_tip : Tip;
  dep_signature : list Felt;
  dep_nonce : Nonce;
  dep_class_hash : ClassHash;
  dep_contract_address_salt : Felt;
  dep_constructor_calldata : list Felt;
  dep_nonce_data_availability_mode : DataAvailabilityMode;
  dep_fee_data_availability_mode : DataAvailabilityMode;
  dep_paymaster_data : list Felt;
}.

(** The executable transactions carry their hash; a deploy-account transaction also
    carries the address it deploys to. *)
Inductive AccountTransaction :=
| Declare_ (tx : DeclareTransactionV3) (hash : TransactionHash)
| DeployAccount (tx : DeployAccountTransactionV3) (hash : TransactionHash)
    (contract_address : ContractAddress)
| Invoke (tx : InvokeTransactionV3) (hash : TransactionHash).

Definition AccountTransaction_resource_bounds (self : AccountTransaction) : ValidResourceBounds :=
  match self with
  | Declare_ tx _ => tx.(dec_resource_bounds)
  | DeployAccount tx _ _ => tx.(dep_resource_bounds)
  | Invoke tx _ => tx.(inv_resource_bounds)
  end.

Definition AccountTransaction_tip (self : AccountTransaction) : Tip :=
  match self with
  | Declare_ tx _ => tx.(dec_tip)
  | DeployAccount tx _ _ => tx.(dep_tip)
  | Invoke tx _ => tx.(inv_tip)
  end.

Definition AccountTransaction_nonce (self : AccountTransaction) : Nonce :=
  match self with
  | Declare_ tx _ => tx.(dec_nonce)
  | DeployAccount tx _ _ => tx.(dep_nonce)
  | Invoke tx _ => tx.(inv_nonce)
  end.

Definition contract_address (self : AccountTransaction) : ContractAddress :=
  match self with
  | Declare_ tx _ => tx.(dec_sender_address)
  | DeployAccount _ _ contract_address => contract_address
  | Invoke tx _ => tx.(inv_sender_address)
  end.

Definition AccountTransaction_tx_hash (self : AccountTransaction) : TransactionHash :=
  match self with
  | Declare_ _ hash => hash
  | DeployAccount _ hash _ => hash
  | Invoke _ hash => hash
  end.

(** ** Properties *)

(** Incrementing a nonce succeeds exactly below the largest field element, and decrementing
    undoes it. *)
Theorem nonce_increment_decrement n n' :
  n < felt_prime →
  Nonce_try_increment n = Ok n' ↔ n' < felt_prime ∧ Nonce_try_decrement n' = Ok n.
Proof.
  intros Hn. unfold Nonce_try_increment, Nonce_try_decrement, felt_add, felt_sub.
  assert (1 < felt_prime) by done.
  destruct (decide (n + 1 = felt_prime)) as [Hp|Hp].
  { rewrite Hp, N.Div0.mod_same, decide_True by done. split; [done|]. intros [Hn' Hd].
    case_decide; [done|]. injection Hd as Hd.
    replace (n' + (felt_prime - 1)) with (n' - 1 + 1 * felt_prime) in Hd by lia.
    rewrite N.Div0.mod_add, N.mod_small in Hd by lia. lia. }
  rewrite (N.mod_small (n + 1)) by lia. rewrite decide_False by lia.
  split; [intros [= <-]|intros [Hn' Hd]].
  - split; [lia|]. rewrite decide_False by lia. f_equal.
    replace (n + 1 + (felt_prime - 1)) with (n + 1 * felt_prime) by lia.
    by rewrite N.Div0.mod_add, N.mod_small.
  - case_decide; [done|]. injection Hd as Hd.
    replace (n' + (felt_prime - 1)) with (n' - 1 + 1 * felt_prime) in Hd by lia.
    rewrite N.Div0.mod_add, N.mod_small in Hd by lia. f_equal. lia.
Qed.

(** C37: for a nonzero price, [checked_div_ceil] is the exact ceiling of the quotient when the
    floor is below [u64::MAX] or the division is exact, [None] when the floor does not fit [u64],
    and a panic on the addition in the one case left, a floor of [u64::MAX] with a remainder. *)
Theorem checked_div_ceil_correct fee price :
  fee ≤ u128_max → 0 < price →
  Fee_checked_div_ceil fee price =
    if decide (u64_max < fee / price) then Ok None
    else if decide (fee mod price = 0) then Ok (Some (fee / price))
    else if decide (fee / price = u64_max) then Panic
    else Ok (Some (fee / price + 1)).
Proof.
  intros Hf Hp. unfold Fee_checked_div_ceil, Fee_checked_div.
  pose proof (N.div_mod fee price ltac:(lia)) as Hdm.
  pose proof (N.mod_lt fee price ltac:(lia)) as Hlt.
  set (d := fee / price) in *. set (r := fee mod price) in *.
  repeat case_decide; try lia; try done;
    unfold GasAmount_checked_mul, GasPrice_checked_mul, checked_mul, checked_add;
    repeat (case_decide; try lia; try done).
Qed.

Lemma checked_div_ceil_correct_witness :
  Fee_checked_div_ceil 10 3 = Ok (Some 4) ∧
  Fee_checked_div_ceil (2 * u64_max + 1) 2 = Panic.
Proof.
  split.
  - rewrite (checked_div_ceil_correct 10 3); [reflexivity|vm_compute; discriminate|reflexivity].
  - rewrite (checked_div_ceil_correct (2 * u64_max + 1) 2);
      [reflexivity|vm_compute; discriminate|reflexivity].
Defined.

(** The exact sum of the bounds, over the integers. *)
Definition exact_max_fee (b : ValidResourceBounds) : N :=
  let cost r := r.(max_amount) * r.(max_price_per_unit) in
  match b with
  | L1Gas l1 => cost l1
  | AllResources all => cost all.(rb_l1_gas) + cost all.(rb_l2_gas) + cost all.(rb_l1_data_gas)
  end.

(** the maximal fee of a transaction is the exact sum over its resources of amount times
    price, cut off at [u128::MAX]: the intermediate saturations lose nothing else. *)
Theorem max_possible_fee_exact b : max_possible_fee b = N.min u128_max (exact_max_fee b).
Proof.
  destruct b as [[a p]|[[] [] []]]; unfold max_possible_fee, exact_max_fee,
    Fee_saturating_add, saturating_add, GasAmount_saturating_mul, GasPrice_saturating_mul,
    saturating_mul; simpl; rewrite ?(N.mul_comm (max_price_per_unit _)); lia.
Qed.

(** Resource bounds survive serialization to the resource mapping and back. *)
Theorem resource_bounds_roundtrip b :
  ValidResourceBounds_try_from (ValidResourceBounds_serialize b) = Ok b.
Proof. by destruct b as [?|[]]. Qed.

(** the cost of a gas vector is the exact inner product of amounts and prices when it fits
    [u128], and overflows (panics) otherwise. *)
Theorem gas_vector_cost_exact v p :
  GasVector_cost v p =
    let total := v.(gv_l1_gas) * p.(l1_gas_price) + v.(gv_l1_data_gas) * p.(l1_data_gas_price) +
                 v.(gv_l2_gas) * p.(l2_gas_price) in
    if decide (total ≤ u128_max) then Some total else None.
Proof.
  unfold GasVector_cost, GasAmount_checked_mul, GasPrice_checked_mul, Fee_checked_add,
    checked_mul, checked_add. destruct v, p. simpl.
  rewrite (N.mul_comm l1_gas_price0), (N.mul_comm l1_data_gas_price0), (N.mul_comm l2_gas_price0).
  repeat (case_decide; simpl; try lia; try done).
Qed.
