(* ===== verification/Collections.v ===== *)
(** Ordered collections of the Rust standard library, as the node uses them.

    [BTreeSet] is a list sorted strictly by a key in [N * N] (the element types of the
    node order by one number and break ties with another); [BTreeMap] with a numeric
    key is a [gmap] together with the ordered views [values], [split_off] and
    [range(..=i).next_back()]. *)

From S2P Require Import Prelude.

(** ** Lexicographic keys *)

Definition key_lt (p q : N * N) : Prop := p.1 < q.1 ∨ (p.1 = q.1 ∧ p.2 < q.2).

#[global] Instance key_lt_dec p q : Decision (key_lt p q).
Proof. unfold key_lt. apply _. Defined.

#[global] Instance key_lt_strict : StrictOrder key_lt.
Proof.
  unfold key_lt. split; [intros [a b] H | intros [a b] [c d] [e f] H1 H2]; simpl in *; lia.
Qed.

Lemma key_lt_total p q : key_lt p q ∨ p = q ∨ key_lt q p.
Proof.
  destruct p as [p1 p2], q as [q1 q2]; unfold key_lt; simpl.
  destruct (N.lt_trichotomy p1 q1) as [|[->|]], (N.lt_trichotomy p2 q2) as [|[->|]];
    naive_solver lia.
Qed.

(** ** [BTreeSet] *)
Module BTreeSet.
Section btreeset.
Context {A : Type} (key : A → N * N).
Implicit Types (x y : A) (l : list A).

Definition sorted l : Prop := StronglySorted (λ x y, key_lt (key x) (key y)) l.

(** [insert]: [false], and no change, when an element comparing equal is present. *)
Fixpoint insert x l : bool * list A :=
match l with
| [] => (true, [x])
| y :: l' =>
    if decide (key_lt (key x) (key y)) then (true, x :: l)
    else if decide (key x = key y) then (false, l)
    else let '(b, l'') := insert x l' in (b, y :: l'')
end.

(** [remove]: whether an element comparing equal was present. *)
Definition remove x l : bool * list A :=
(bool_decide (Exists (λ y, key y = key x) l), filter (λ y, key y ≠ key x) l).

Definition pop_last l : option A * list A :=
match last l with
| Some x => (Some x, take (pred (length l)) l)
| None => (None, l)
end.

(** [split_off k]: what stays, and the elements not below [k]. *)
Definition split_off (k : N * N) l : list A * list A :=
(filter (λ y, key_lt (key y) k) l, filter (λ y, ¬ key_lt (key y) k) l).

Definition extend l xs : list A := foldl (λ l x, (insert x l).2) l xs.

Lemma sorted_nil : sorted [].
Proof. constructor. Qed.

Lemma elem_of_insert x y l : y ∈ (insert x l).2 → y = x ∨ y ∈ l.
Proof.
induction l as [|z l IH]; simpl; [set_solver|].
repeat case_decide; simpl; [set_solver..|].
destruct (insert x l); simpl in *; set_solver.
Qed.

Lemma elem_of_insert_old x y l : y ∈ l → y ∈ (insert x l).2.
Proof.
induction l as [|z l IH]; simpl; [set_solver|].
repeat case_decide; simpl; [set_solver..|].
destruct (insert x l); simpl in *; set_solver.
Qed.

Lemma insert_sorted x l : sorted l → sorted (insert x l).2.
Proof.
unfold sorted. induction l as [|z l IH]; simpl; intros Hl.
{ repeat constructor. }
inversion Hl as [|?? Hs Hall]; subst.
repeat case_decide; simpl; [|done|].
- constructor; [done|]. constructor; [done|].
  eapply Forall_impl; [exact Hall|]. simpl. intros; by etrans.
- destruct (insert x l) as [b l''] eqn:E; simpl in *.
  constructor; [by apply IH|]. rewrite Forall_forall in *. intros y Hy.
  destruct (elem_of_insert x y l) as [->|?]; [by rewrite E| |by auto].
  destruct (key_lt_total (key x) (key z)) as [?|[?|?]]; naive_solver.
Qed.

Lemma insert_fresh x l :
sorted l → (∀ y, y ∈ l → key y ≠ key x) →
(insert x l).1 = true ∧ ∀ y, y ∈ (insert x l).2 ↔ y = x ∨ y ∈ l.
Proof.
intros Hs Hf. split.
- clear Hs. induction l as [|z l IH]; simpl; [done|]. repeat case_decide; simpl.
  + done.
  + exfalso. eapply (Hf z); [set_solver|done].
  + destruct (insert x l); simpl in *. apply IH. set_solver.
- intros y. split; [apply elem_of_insert|]. intros [->|]; [|by apply elem_of_insert_old].
  clear Hs. induction l as [|z l IH]; simpl; [set_solver|]. repeat case_decide; simpl.
  + set_solver.
  + exfalso. eapply (Hf z); [set_solver|done].
  + destruct (insert x l); simpl in *. set_solver.
Qed.

Lemma insert_dup x l : sorted l → (∃ y, y ∈ l ∧ key y = key x) → insert x l = (false, l).
Proof.
unfold sorted. intros Hs (y & Hy & Hk). induction Hs as [|z l Hs IH Hall]; [set_solver|].
simpl. apply elem_of_cons in Hy as [->|Hy].
- rewrite <-Hk. rewrite decide_False by apply irreflexivity, _. by rewrite decide_True.
- rewrite Forall_forall in Hall. specialize (Hall y Hy). simpl in Hall.
  rewrite <-Hk. rewrite decide_False by (intros ?; by eapply (asymmetry (R := key_lt))).
  rewrite decide_False by (intros Heq; rewrite Heq in Hall;
    by apply (irreflexivity key_lt) in Hall).
  rewrite Hk in *. by rewrite IH.
Qed.

Lemma filter_sorted (P : A → Prop) `{∀ x, Decision (P x)} l : sorted l → sorted (filter P l).
Proof.
unfold sorted. induction 1 as [|z l Hs IH Hall]; [constructor|].
rewrite filter_cons. case_decide; [|done]. constructor; [done|].
rewrite Forall_forall in *. intros y [??]%list_elem_of_filter. auto.
Qed.

Lemma sorted_key_inj l x y : sorted l → x ∈ l → y ∈ l → key x = key y → x = y.
Proof.
unfold sorted. induction 1 as [|z l Hs IH Hall]; [set_solver|].
rewrite Forall_forall in Hall.
intros [->|Hx]%elem_of_cons [->|Hy]%elem_of_cons Hk; auto.
- specialize (Hall y Hy). simpl in Hall. rewrite Hk in Hall.
  by apply (irreflexivity key_lt) in Hall.
- specialize (Hall x Hx). simpl in Hall. rewrite Hk in Hall.
  by apply (irreflexivity key_lt) in Hall.
Qed.

Lemma sorted_NoDup l : sorted l → NoDup l.
Proof.
unfold sorted. induction 1 as [|z l Hs IH Hall]; constructor; [|done].
intros Hz. rewrite Forall_forall in Hall. specialize (Hall z Hz).
by apply (irreflexivity key_lt) in Hall.
Qed.

Lemma remove_present x l :
sorted l → x ∈ l →
(remove x l).1 = true ∧ ∀ y, y ∈ (remove x l).2 ↔ y ∈ l ∧ y ≠ x.
Proof.
intros Hs Hx. unfold remove; simpl. split.
- apply bool_decide_eq_true. rewrite Exists_exists. eauto.
- intros y. rewrite list_elem_of_filter. split.
  + intros [Hk Hy]. split; [done|]. by intros ->.
  + intros [Hy Hne]. split; [|done]. intros Hk. by apply Hne, (sorted_key_inj l).
Qed.

Lemma remove_absent x l :
(∀ y, y ∈ l → key y ≠ key x) → remove x l = (false, l).
Proof.
intros Hf. unfold remove. f_equal.
- apply bool_decide_eq_false. rewrite Exists_exists. naive_solver.
- by apply filter_all.
Qed.

Lemma remove_sorted x l : sorted l → sorted (remove x l).2.
Proof. apply filter_sorted. Qed.

Lemma pop_last_nil : pop_last [] = (None, []).
Proof. done. Qed.

Lemma pop_last_snoc l x : pop_last (l ++ [x]) = (Some x, l).
Proof.
unfold pop_last. rewrite last_snoc. f_equal.
rewrite length_app; simpl. rewrite Nat.add_1_r; simpl. apply take_app_length.
Qed.

Lemma sorted_app l1 l2 :
sorted (l1 ++ l2) ↔
sorted l1 ∧ sorted l2 ∧ ∀ x y, x ∈ l1 → y ∈ l2 → key_lt (key x) (key y).
Proof.
unfold sorted. induction l1 as [|z l1 IH]; simpl.
{ split; [|naive_solver]. intros; split_and!; [constructor|done|set_solver]. }
split.
- inversion 1 as [|?? Hs Hall]; subst. apply IH in Hs as (?&?&?).
  apply Forall_app in Hall as [? Hall]. rewrite Forall_forall in Hall.
  split_and!; [by constructor|done|]. set_solver.
- intros (Hs&?&Hlt). inversion Hs; subst. constructor; [set_solver|].
  apply Forall_app; split; [done|]. rewrite Forall_forall. set_solver.
Qed.

Lemma extend_sorted xs l : sorted l → sorted (extend l xs).
Proof. revert l. induction xs; simpl; auto using insert_sorted. Qed.

Lemma elem_of_extend xs l y :
sorted l → NoDup (key <$> xs) → (∀ x z, x ∈ xs → z ∈ l → key x ≠ key z) →
y ∈ extend l xs ↔ y ∈ xs ∨ y ∈ l.
Proof.
revert l. induction xs as [|x xs IH]; simpl; intros l Hs Hnd Hf; [set_solver|].
apply NoDup_cons in Hnd as [Hx Hnd].
destruct (insert_fresh x l Hs) as [_ Hin].
{ intros z Hz. intros Hk. by apply (Hf x z); [set_solver..|]. }
rewrite IH; [|by apply insert_sorted|done|].
- rewrite Hin. set_solver.
- intros x' z Hx' [->|Hz]%Hin; [|set_solver]. intros Hk. apply Hx.
  rewrite <-Hk. by apply list_elem_of_fmap_2.
Qed.
End btreeset.
End BTreeSet.

(** ** [BTreeMap] with a numeric key *)
Module BTreeMap.
Section btreemap.
Context {V : Type}.
Implicit Types (m : gmap N V) (k : N).

Definition entry_le (x y : N * V) : Prop := x.1 ≤ y.1.

#[local] Instance entry_le_dec x y : Decision (entry_le x y).
Proof. unfold entry_le. apply _. Defined.

(** The entries by ascending key. *)
Definition iter m : list (N * V) := merge_sort entry_le (map_to_list m).
Definition values m : list V := (iter m).*2.

(** What stays in the map, and the entries with key at least [k]. *)
Definition split_off k m : gmap N V * gmap N V :=
(filter (λ kv, kv.1 < k) m, filter (λ kv, k ≤ kv.1) m).

(** [range(..=k).next_back()]. *)
Definition range_last k m : option (N * V) := last (filter (λ kv, kv.1 ≤ k) (iter m)).

Lemma iter_perm m : iter m ≡ₚ map_to_list m.
Proof. apply merge_sort_Permutation. Qed.

Lemma elem_of_iter m k v : (k, v) ∈ iter m ↔ m !! k = Some v.
Proof. by rewrite iter_perm, elem_of_map_to_list. Qed.

Lemma elem_of_values m v : v ∈ values m ↔ ∃ k, m !! k = Some v.
Proof.
unfold values. rewrite list_elem_of_fmap. setoid_rewrite <-elem_of_iter. split.
- intros ([k v'] & -> & ?). eauto.
- intros [k ?]. by exists (k, v).
Qed.

#[local] Instance entry_le_total : Total entry_le.
Proof. intros [??] [??]; unfold entry_le; simpl; lia. Qed.
#[local] Instance entry_le_trans : Transitive entry_le.
Proof. intros [??] [??] [??]; unfold entry_le; simpl; lia. Qed.

Lemma iter_sorted m : StronglySorted entry_le (iter m).
Proof. apply (StronglySorted_merge_sort entry_le). Qed.

(** The first entry has the smallest key. *)
Lemma iter_head m k v l :
iter m = (k, v) :: l → m !! k = Some v ∧ ∀ k' v', m !! k' = Some v' → k ≤ k'.
Proof.
intros Hl. split.
- apply elem_of_iter. rewrite Hl. set_solver.
- intros k' v' H%elem_of_iter. pose proof (iter_sorted m) as Hs. rewrite Hl in *.
  inversion Hs as [|?? _ Hall]; subst. rewrite Forall_forall in Hall.
  apply elem_of_cons in H as [?|H]; [by simplify_eq|]. apply (Hall _ H).
Qed.

Lemma iter_nil m : iter m = [] ↔ m = ∅.
Proof.
split.
- intros Hn. apply map_empty. intros k. destruct (m !! k) as [v|] eqn:E; [|done].
  apply elem_of_iter in E. rewrite Hn in E. set_solver.
- intros ->. unfold iter. by rewrite map_to_list_empty.
Qed.

(** [range(..=k).next_back()] is the entry with the largest key that is at most [k]. *)
Lemma range_last_Some m k k' v :
range_last k m = Some (k', v) ↔
m !! k' = Some v ∧ k' ≤ k ∧ ∀ j w, m !! j = Some w → j ≤ k → j ≤ k'.
Proof.
unfold range_last. assert (StronglySorted entry_le (filter (λ kv, kv.1 ≤ k) (iter m))) as Hs.
{ pose proof (iter_sorted m) as Hs. induction Hs as [|z l Hs IH Hall]; [constructor|].
  rewrite filter_cons. case_decide; [|done]. constructor; [done|].
  rewrite Forall_forall in *. intros y [??]%list_elem_of_filter. auto. }
assert (∀ j w, (j, w) ∈ filter (λ kv, kv.1 ≤ k) (iter m) ↔ m !! j = Some w ∧ j ≤ k) as Hin.
{ intros j w. rewrite list_elem_of_filter, elem_of_iter. naive_solver. }
set (l := filter _ _) in *. clearbody l.
assert (∀ l' x, l = l' ++ [x] → ∀ y, y ∈ l → entry_le y x) as Hlast.
{ intros l' x ->. clear Hin. induction l' as [|z l' IH]; simpl in *.
  - intros y ->%list_elem_of_singleton. unfold entry_le. lia.
  - inversion Hs as [|?? Hs' Hall]; subst. rewrite Forall_forall in Hall.
    intros y [->|Hy]%elem_of_cons; [|by apply IH]. apply Hall. set_solver. }
destruct l as [|x l' _] using rev_ind.
- simpl. split; [done|]. intros (?&?&_). exfalso.
  apply (not_elem_of_nil (k', v)). by apply Hin.
- rewrite last_snoc. split.
  + intros [= ->]. destruct (Hin k' v) as [[??] _]; [set_solver|].
    split_and!; [done..|]. intros j w ??.
    apply (Hlast l' (k', v) eq_refl (j, w)). by apply Hin.
  + intros (Hk&?&Hmax). destruct x as [k'' v'].
    destruct (Hin k'' v') as [[Hk''?] _]; [set_solver|].
    assert (k'' ≤ k') by eauto.
    assert (k' ≤ k'') by (apply (Hlast l' (k'', v') eq_refl (k', v)), Hin; auto).
    assert (k' = k'') as -> by lia. congruence.
Qed.

Lemma range_last_None m k :
range_last k m = None ↔ ∀ j w, m !! j = Some w → k < j.
Proof.
unfold range_last. rewrite last_None. split.
- intros Hn j w Hj. apply N.lt_nge. intros Hle. apply (not_elem_of_nil (j, w)).
  rewrite <-Hn, list_elem_of_filter, elem_of_iter. auto.
- intros Hall. apply filter_none. intros [j w] Hj%elem_of_iter. simpl.
  specialize (Hall _ _ Hj). lia.
Qed.

Lemma NoDup_fmap_values {B} (f : V → B) m :
(∀ k1 k2 v1 v2, m !! k1 = Some v1 → m !! k2 = Some v2 → f v1 = f v2 → k1 = k2) →
NoDup (f <$> values m).
Proof.
intros Hinj. unfold values. rewrite <-list_fmap_compose.
apply NoDup_fmap_2_strong.
- intros [k1 v1] [k2 v2] H1%elem_of_iter H2%elem_of_iter Hf.
  assert (k1 = k2) as -> by eauto. congruence.
- rewrite iter_perm. apply NoDup_map_to_list.
Qed.

Lemma lookup_split_off_lo k m j :
(split_off k m).1 !! j = if decide (j < k) then m !! j else None.
Proof.
unfold split_off; simpl. rewrite map_lookup_filter.
destruct (m !! j); simpl; repeat case_guard; repeat case_decide; done.
Qed.

Lemma lookup_split_off_hi k m j :
(split_off k m).2 !! j = if decide (j < k) then None else m !! j.
Proof.
unfold split_off; simpl. rewrite map_lookup_filter.
destruct (m !! j); simpl; repeat case_guard; repeat case_decide; try done; lia.
Qed.
End btreemap.
End BTreeMap.
