(* ===== verification/TransactionPool.v ===== *)
(** The transaction pool: [crates/starknet_mempool/src/transaction_pool.rs], the
    transaction references of [mempool.rs], the error type of
    [crates/starknet_mempool_types/src/errors.rs] and the (unused) suspended pool. *)

From S2P Require Import Prelude StarknetApi Collections.

Inductive MempoolError :=
| DuplicateNonce (address : ContractAddress) (nonce : Nonce)
| DuplicateTransaction (tx_hash : TransactionHash)
| NonceTooLarge (nonce : Nonce)
| NonceTooOld (address : ContractAddress) (nonce : Nonce)
| P2pPropagatorClientError (tx_hash : TransactionHash)
| TransactionNotFound (tx_hash : TransactionHash).

Record AccountState := { as_address : ContractAddress; as_nonce : Nonce }.

Definition try_increment_nonce (nonce : Nonce) : result MempoolError Nonce :=
  match Nonce_try_increment nonce with
  | Ok n => Ok n
  | Err _ => Err (NonceTooLarge nonce)
  | Panic => Panic
  end.

(** ** Transaction references *)

Record TransactionReference := {
  address : ContractAddress;
  nonce : Nonce;
  tx_hash : TransactionHash;
  tip : Tip;
  max_l2_gas_price : GasPrice;
}.

#[global] Instance TransactionReference_eq_dec : EqDecision TransactionReference.
Proof. solve_decision. Defined.

Definition tx_max_l2_gas_price (tx : AccountTransaction) : GasPrice :=
  (get_l2_bounds (AccountTransaction_resource_bounds tx)).(max_price_per_unit).

Definition TransactionReference_new (tx : AccountTransaction) : TransactionReference := {|
  address := contract_address tx;
  nonce := AccountTransaction_nonce tx;
  tx_hash := AccountTransaction_tx_hash tx;
  tip := AccountTransaction_tip tx;
  max_l2_gas_price := tx_max_l2_gas_price tx;
|}.

(** ** The account index *)

Abbreviation AccountTransactionIndex :=
  (gmap ContractAddress (gmap Nonce TransactionReference)) (only parsing).

Module Index.
Implicit Types self : AccountTransactionIndex.

(** [self.0.entry(tx.address).or_default().insert(tx.nonce, tx)] *)
Definition insert (tx : TransactionReference) self
  : option TransactionReference * AccountTransactionIndex :=
  let account_txs := default ∅ (self !! tx.(address)) in
  (account_txs !! tx.(nonce),
   <[tx.(address) := <[tx.(nonce) := tx]> account_txs]> self).

Definition remove (tx : TransactionReference) self
  : option TransactionReference * AccountTransactionIndex :=
  match self !! tx.(address) with
  | None => (None, self)
  | Some account_txs =>
      let removed_tx := account_txs !! tx.(nonce) in
      let account_txs := delete tx.(nonce) account_txs in
      (removed_tx,
       if bool_decide (is_Some removed_tx) && bool_decide (account_txs = ∅)
       then delete tx.(address) self
       else <[tx.(address) := account_txs]> self)
  end.

Definition get self (address : ContractAddress) (nonce : Nonce) : option TransactionReference :=
  account_txs ← self !! address; account_txs !! nonce.

Definition account_txs_sorted_by_nonce self (address : ContractAddress)
  : list TransactionReference :=
  match self !! address with
  | Some nonce_to_tx_ref => BTreeMap.values nonce_to_tx_ref
  | None => []
  end.

Definition remove_up_to_nonce (address : ContractAddress) (nonce : Nonce) self
  : list TransactionReference * AccountTransactionIndex :=
  match self !! address with
  | None => ([], self)
  | Some account_txs =>
      let '(txs_with_lower_nonce, txs_with_higher_or_equal_nonce) :=
        BTreeMap.split_off nonce account_txs in
      (BTreeMap.values txs_with_lower_nonce,
       if bool_decide (txs_with_higher_or_equal_nonce = ∅)
       then delete address self
       else <[address := txs_with_higher_or_equal_nonce]> self)
  end.

Definition contains self (address : ContractAddress) : bool :=
  bool_decide (is_Some (self !! address)).
End Index.

(** ** The pool *)

Record TransactionPool := {
  tx_pool : gmap TransactionHash AccountTransaction;
  txs_by_account : AccountTransactionIndex;
  n_txs : N;
}.

Definition TransactionPool_default : TransactionPool :=
  {| tx_pool := ∅; txs_by_account := ∅; n_txs := 0 |}.

Abbreviation PoolM := (M TransactionPool MempoolError) (only parsing).

Definition set_tx_pool (p : gmap TransactionHash AccountTransaction) (s : TransactionPool) :=
  {| tx_pool := p; txs_by_account := s.(txs_by_account); n_txs := s.(n_txs) |}.
Definition set_txs_by_account (i : AccountTransactionIndex) (s : TransactionPool) :=
  {| tx_pool := s.(tx_pool); txs_by_account := i; n_txs := s.(n_txs) |}.

Definition capacity_add : PoolM unit :=
  modify (λ s, {| tx_pool := s.(tx_pool); txs_by_account := s.(txs_by_account);
                  n_txs := s.(n_txs) + 1 |}).

(** [checked_sub(1).expect(..)] *)
Definition capacity_remove : PoolM unit :=
  s ← get_st;
  n ← expect (checked_sub s.(n_txs) 1);
  modify (λ s, {| tx_pool := s.(tx_pool); txs_by_account := s.(txs_by_account); n_txs := n |}).

Module Pool.
Definition insert (tx : AccountTransaction) : PoolM unit :=
  let tx_reference := TransactionReference_new tx in
  let hash := tx_reference.(tx_hash) in
  s ← get_st;
  match s.(tx_pool) !! hash with
  | Some _ => throw (DuplicateTransaction hash)
  | None =>
      modify (set_tx_pool (<[hash := tx]> s.(tx_pool)));;
      let '(unexpected_existing_tx, index) := Index.insert tx_reference s.(txs_by_account) in
      modify (set_txs_by_account index);;
      assert_ (bool_decide (unexpected_existing_tx = None));;
      capacity_add
  end.

Definition remove (hash : TransactionHash) : PoolM AccountTransaction :=
  s ← get_st;
  match s.(tx_pool) !! hash with
  | None => throw (TransactionNotFound hash)
  | Some tx =>
      modify (set_tx_pool (delete hash s.(tx_pool)));;
      let '(removed, index) := Index.remove (TransactionReference_new tx) s.(txs_by_account) in
      modify (set_txs_by_account index);;
      expect removed;;
      capacity_remove;;
      mret tx
  end.

Definition remove_up_to_nonce (address : ContractAddress) (nonce : Nonce) : PoolM unit :=
  s ← get_st;
  let '(removed_txs, index) := Index.remove_up_to_nonce address nonce s.(txs_by_account) in
  modify (set_txs_by_account index);;
  mfor (λ removed_tx : TransactionReference,
      s ← get_st;
      expect (s.(tx_pool) !! removed_tx.(tx_hash));;
      modify (set_tx_pool (delete removed_tx.(tx_hash) s.(tx_pool)));;
      capacity_remove)
    removed_txs.

Definition account_txs_sorted_by_nonce (s : TransactionPool) (address : ContractAddress)
  : list TransactionReference :=
  Index.account_txs_sorted_by_nonce s.(txs_by_account) address.

Definition get_by_tx_hash (s : TransactionPool) (hash : TransactionHash)
  : result MempoolError AccountTransaction :=
  match s.(tx_pool) !! hash with
  | Some tx => Ok tx
  | None => Err (TransactionNotFound hash)
  end.

Definition get_by_address_and_nonce (s : TransactionPool) (address : ContractAddress)
    (nonce : Nonce) : option TransactionReference :=
  Index.get s.(txs_by_account) address nonce.

Definition get_next_eligible_tx (s : TransactionPool) (current_account_state : AccountState)
  : result MempoolError (option TransactionReference) :=
  match try_increment_nonce current_account_state.(as_nonce) with
  | Ok next_nonce =>
      Ok (get_by_address_and_nonce s current_account_state.(as_address) next_nonce)
  | Err e => Err e
  | Panic => Panic
  end.

Definition contains_account (s : TransactionPool) (address : ContractAddress) : bool :=
  Index.contains s.(txs_by_account) address.
End Pool.

(** ** Lookups in the index *)

Section index.
Implicit Types (self : AccountTransactionIndex) (r : TransactionReference).

Lemma index_get_insert self r a n :
  Index.get (Index.insert r self).2 a n =
  if decide (a = r.(address) ∧ n = r.(nonce)) then Some r else Index.get self a n.
Proof.
  unfold Index.get, Index.insert; simpl. rewrite lookup_insert.
  case_decide as Ha; simpl; subst.
  - rewrite lookup_insert. repeat case_decide; try naive_solver.
    by destruct (self !! address r).
  - rewrite decide_False by naive_solver. done.
Qed.

Lemma index_insert_old self r :
  (Index.insert r self).1 = Index.get self r.(address) r.(nonce).
Proof. unfold Index.get, Index.insert; simpl. by destruct (self !! _). Qed.

Lemma index_remove_old self r :
  (Index.remove r self).1 = Index.get self r.(address) r.(nonce).
Proof. unfold Index.get, Index.remove. by destruct (self !! _). Qed.

Lemma index_get_remove self r a n :
  Index.get (Index.remove r self).2 a n =
  if decide (a = r.(address) ∧ n = r.(nonce)) then None else Index.get self a n.
Proof.
  unfold Index.get, Index.remove. destruct (self !! address r) as [m|] eqn:Hm; simpl.
  - destruct (bool_decide (is_Some _) && bool_decide (_ = ∅)) eqn:Hb.
    + apply andb_true_iff in Hb as [_ Hd%bool_decide_eq_true].
      rewrite lookup_delete. case_decide; simpl; subst.
      * rewrite Hm; simpl. case_decide; [done|].
        assert (delete (nonce r) m !! n = None) as Hn by (by rewrite Hd).
        rewrite lookup_delete in Hn. case_decide; naive_solver.
      * by rewrite decide_False by naive_solver.
    + clear Hb. rewrite lookup_insert. case_decide; simpl; subst.
      * rewrite Hm, lookup_delete; simpl. repeat case_decide; naive_solver.
      * by rewrite decide_False by naive_solver.
  - case_decide as Ha; [|done]. destruct Ha as [-> _]. by rewrite Hm.
Qed.

Lemma index_get_remove_up_to self a n a' n' :
  Index.get (Index.remove_up_to_nonce a n self).2 a' n' =
  if decide (a' = a ∧ n' < n) then None else Index.get self a' n'.
Proof.
  unfold Index.get, Index.remove_up_to_nonce.
  destruct (self !! a) as [m|] eqn:Hm; simpl.
  - pose proof (BTreeMap.lookup_split_off_hi n m n') as Hhi.
    unfold BTreeMap.split_off in *; simpl in *. case_bool_decide as He; simpl.
    + rewrite lookup_delete. destruct (decide (a = a')) as [<-|]; simpl.
      * rewrite Hm; simpl. rewrite He, lookup_empty in Hhi.
        repeat case_decide; naive_solver.
      * by rewrite decide_False by naive_solver.
    + rewrite lookup_insert. destruct (decide (a = a')) as [<-|]; simpl.
      * rewrite Hm, Hhi; simpl. repeat case_decide; naive_solver.
      * by rewrite decide_False by naive_solver.
  - case_decide as Ha; [|done]. destruct Ha as [-> _]. by rewrite Hm.
Qed.

Lemma index_removed_up_to self a n r :
  (∀ n' r', Index.get self a n' = Some r' → r'.(nonce) = n') →
  r ∈ (Index.remove_up_to_nonce a n self).1 ↔
  Index.get self a r.(nonce) = Some r ∧ r.(nonce) < n.
Proof.
  intros Hk. unfold Index.get, Index.remove_up_to_nonce in *.
  destruct (self !! a) as [m|] eqn:Hm; simpl in *.
  - rewrite BTreeMap.elem_of_values.
    pose proof (BTreeMap.lookup_split_off_lo n m) as Hlo.
    unfold BTreeMap.split_off in Hlo; simpl in Hlo. split.
    + intros [j Hj]. rewrite Hlo in Hj. case_decide; [|done].
      assert (nonce r = j) as -> by eauto. done.
    + intros [Hj Hlt]. exists (nonce r). by rewrite Hlo, decide_True.
  - set_solver.
Qed.

Lemma index_account_txs self a r :
  r ∈ Index.account_txs_sorted_by_nonce self a ↔ ∃ n, Index.get self a n = Some r.
Proof.
  unfold Index.account_txs_sorted_by_nonce, Index.get.
  destruct (self !! a) as [m|]; simpl; [|set_solver]. apply BTreeMap.elem_of_values.
Qed.
End index.

(** ** The pool invariant

    The two maps hold the same transactions, the index is keyed by account and nonce, no
    account without transactions stays in it, and the counter is the number of
    transactions. *)
Record pool_inv (p : TransactionPool) : Prop := {
  pool_keyed : ∀ h tx, p.(tx_pool) !! h = Some tx → AccountTransaction_tx_hash tx = h;
  pool_indexed : ∀ h tx, p.(tx_pool) !! h = Some tx →
    Index.get p.(txs_by_account) (contract_address tx) (AccountTransaction_nonce tx) =
    Some (TransactionReference_new tx);
  pool_backed : ∀ a n r, Index.get p.(txs_by_account) a n = Some r →
    r.(address) = a ∧ r.(nonce) = n ∧
    ∃ tx, p.(tx_pool) !! r.(tx_hash) = Some tx ∧ TransactionReference_new tx = r;
  pool_no_empty_account : ∀ a m, p.(txs_by_account) !! a = Some m → m ≠ ∅;
  pool_count : p.(n_txs) = N.of_nat (size p.(tx_pool));
}.

(** The pool after a successful [insert] or [remove] of [tx]. *)
Definition pool_after_insert (tx : AccountTransaction) (p : TransactionPool) : TransactionPool := {|
  tx_pool := <[AccountTransaction_tx_hash tx := tx]> p.(tx_pool);
  txs_by_account := (Index.insert (TransactionReference_new tx) p.(txs_by_account)).2;
  n_txs := p.(n_txs) + 1;
|}.

Definition pool_after_remove (tx : AccountTransaction) (p : TransactionPool) : TransactionPool := {|
  tx_pool := delete (AccountTransaction_tx_hash tx) p.(tx_pool);
  txs_by_account := (Index.remove (TransactionReference_new tx) p.(txs_by_account)).2;
  n_txs := p.(n_txs) - 1;
|}.

Ltac pool_simpl :=
  cbn [pool_after_insert pool_after_remove tx_pool txs_by_account n_txs TransactionReference_new address nonce tx_hash
       tip max_l2_gas_price].

Section pool.
Implicit Types (p : TransactionPool) (r : TransactionReference) (tx : AccountTransaction).

Lemma pool_inv_default : pool_inv TransactionPool_default.
Proof.
  split; unfold Index.get; simpl; intros *; rewrite ?lookup_empty; done.
Qed.

(** The pool determines a transaction by its hash and by its account and nonce. *)
Lemma pool_hash_inj p a1 n1 r1 a2 n2 r2 :
  pool_inv p →
  Index.get p.(txs_by_account) a1 n1 = Some r1 →
  Index.get p.(txs_by_account) a2 n2 = Some r2 →
  r1.(tx_hash) = r2.(tx_hash) → r1 = r2.
Proof.
  intros Hp H1 H2 Hh.
  apply (pool_backed p Hp) in H1 as (_&_&tx1&Ht1&<-).
  apply (pool_backed p Hp) in H2 as (_&_&tx2&Ht2&<-). congruence.
Qed.

(** *** [insert] on its three branches *)

Lemma pool_insert_dup p tx tx' :
  p.(tx_pool) !! AccountTransaction_tx_hash tx = Some tx' →
  Pool.insert tx p = (Err (DuplicateTransaction (AccountTransaction_tx_hash tx)), p).
Proof. intros H. unfold Pool.insert, get_st, mbind, M_bind; simpl. by rewrite H. Qed.

Lemma pool_insert_clash p tx r :
  p.(tx_pool) !! AccountTransaction_tx_hash tx = None →
  Index.get p.(txs_by_account) (contract_address tx) (AccountTransaction_nonce tx) = Some r →
  (Pool.insert tx p).1 = Panic.
Proof.
  intros H Hr. unfold Pool.insert, get_st, mbind, M_bind; simpl. rewrite H; simpl.
  pose proof (index_insert_old (txs_by_account p) (TransactionReference_new tx)) as Ho.
  simpl in Ho. rewrite Hr in Ho. unfold Index.insert in *; simpl in *. by rewrite Ho.
Qed.

Lemma pool_insert_fresh p tx :
  p.(tx_pool) !! AccountTransaction_tx_hash tx = None →
  Index.get p.(txs_by_account) (contract_address tx) (AccountTransaction_nonce tx) = None →
  Pool.insert tx p = (Ok tt, pool_after_insert tx p).
Proof.
  intros H Hr. unfold Pool.insert, get_st, mbind, M_bind; simpl. rewrite H; simpl.
  pose proof (index_insert_old (txs_by_account p) (TransactionReference_new tx)) as Ho.
  simpl in Ho. rewrite Hr in Ho. unfold Index.insert in *; simpl in *. by rewrite Ho.
Qed.

Lemma pool_after_insert_inv p tx :
  pool_inv p →
  p.(tx_pool) !! AccountTransaction_tx_hash tx = None →
  Index.get p.(txs_by_account) (contract_address tx) (AccountTransaction_nonce tx) = None →
  pool_inv (pool_after_insert tx p).
Proof.
  intros Hp Hh Hs. split.
  - intros h tx'; simpl. rewrite lookup_insert. case_decide; [naive_solver|].
    apply (pool_keyed p Hp).
  - intros h tx'; pool_simpl. rewrite index_get_insert, lookup_insert. pool_simpl.
    case_decide as Hd.
    + intros [= <-]. by rewrite decide_True.
    + intros Ht. pose proof (pool_indexed p Hp h tx' Ht) as Hi.
      rewrite decide_False; [done|]. intros [Ha Hn]. by rewrite Ha, Hn, Hs in Hi.
  - intros a n r; pool_simpl. rewrite index_get_insert; pool_simpl. case_decide as Hd.
    + intros [= <-]. destruct Hd as [-> ->]. split_and!; [done..|].
      exists tx. by rewrite lookup_insert_eq.
    + intros Hr. apply (pool_backed p Hp) in Hr as (->&->&tx'&Ht&Hn).
      split_and!; [done..|]. exists tx'. split; [|done].
      rewrite lookup_insert_ne; [done|]. intros Heq. rewrite Heq in Hh. congruence.
  - intros a m; simpl. unfold Index.insert; simpl. rewrite lookup_insert.
    case_decide; [|apply (pool_no_empty_account p Hp)].
    intros [= <-] Hm%(f_equal (.!! AccountTransaction_nonce tx)).
    by rewrite lookup_insert_eq in Hm.
  - simpl. rewrite map_size_insert_None by done. rewrite (pool_count p Hp). lia.
Qed.

(** *** [remove] *)

Lemma pool_remove_unknown p h :
  p.(tx_pool) !! h = None → Pool.remove h p = (Err (TransactionNotFound h), p).
Proof. intros H. unfold Pool.remove, get_st, mbind, M_bind; simpl. by rewrite H. Qed.

Lemma pool_size_pos p h tx : pool_inv p → p.(tx_pool) !! h = Some tx → 1 ≤ p.(n_txs).
Proof.
  intros Hp H. rewrite (pool_count p Hp).
  pose proof (map_size_non_empty_iff (tx_pool p)) as [_ Hs].
  assert (size (tx_pool p) ≠ 0%nat); [|lia].
  apply Hs. intros He. by rewrite He, lookup_empty in H.
Qed.

Lemma pool_remove_known p h tx :
  pool_inv p → p.(tx_pool) !! h = Some tx →
  Pool.remove h p = (Ok tx, pool_after_remove tx p).
Proof.
  intros Hp H. unfold Pool.remove, get_st, mbind, M_bind; simpl. rewrite H; simpl.
  pose proof (pool_keyed p Hp h tx H) as Hk.
  pose proof (index_remove_old (txs_by_account p) (TransactionReference_new tx)) as Ho.
  simpl in Ho. rewrite (pool_indexed p Hp h tx H) in Ho. subst h.
  unfold pool_after_remove.
  destruct (Index.remove (TransactionReference_new tx) (txs_by_account p)) as [o i].
  simpl in *. subst o. simpl. unfold capacity_remove, mbind, M_bind, get_st, checked_sub.
  simpl. by rewrite decide_True by (by eapply pool_size_pos).
Qed.

Lemma pool_after_remove_inv p h tx :
  pool_inv p → p.(tx_pool) !! h = Some tx → pool_inv (pool_after_remove tx p).
Proof.
  intros Hp H. pose proof (pool_keyed p Hp h tx H) as Hk. subst h.
  pose proof (pool_indexed p Hp _ tx H) as Hi. split.
  - intros h' tx'; simpl. rewrite lookup_delete. case_decide; [done|].
    apply (pool_keyed p Hp).
  - intros h' tx'; pool_simpl. rewrite index_get_remove, lookup_delete. pool_simpl.
    case_decide as Hd; [done|]. intros Ht.
    pose proof (pool_indexed p Hp h' tx' Ht) as Hi'.
    rewrite decide_False; [done|]. intros [Ha Hn]. rewrite Ha, Hn, Hi in Hi'.
    apply Hd. rewrite <-(pool_keyed p Hp h' tx' Ht).
    injection Hi'. congruence.
  - intros a n r; pool_simpl. rewrite index_get_remove; pool_simpl. case_decide as Hd; [done|].
    intros Hr. pose proof (pool_backed p Hp a n r Hr) as (Ha&Hn&tx'&Ht&Hnew).
    split_and!; [done..|]. exists tx'. split; [|done]. rewrite lookup_delete_ne; [done|].
    intros Heq. apply Hd. rewrite <-Heq in Ht. assert (tx' = tx) as -> by congruence.
    subst r. simpl in *. naive_solver.
  - intros a m; simpl. unfold Index.remove; simpl.
    destruct (txs_by_account p !! contract_address tx) as [m'|] eqn:Hm; simpl;
      [|apply (pool_no_empty_account p Hp)].
    assert (m' !! AccountTransaction_nonce tx = Some (TransactionReference_new tx)) as Hm'.
    { unfold Index.get in Hi. by rewrite Hm in Hi. }
    rewrite Hm', bool_decide_true by eauto; simpl. case_bool_decide as He.
    + rewrite lookup_delete. case_decide; [done|]. apply (pool_no_empty_account p Hp).
    + rewrite lookup_insert. case_decide; [naive_solver|].
      apply (pool_no_empty_account p Hp).
  - simpl. rewrite (pool_count p Hp). rewrite map_size_delete_Some by eauto. lia.
Qed.

(** *** [remove_up_to_nonce] *)

Lemma removed_hashes_NoDup p a n :
  pool_inv p →
  NoDup (tx_hash <$> (Index.remove_up_to_nonce a n p.(txs_by_account)).1).
Proof.
  intros Hp. unfold Index.remove_up_to_nonce.
  destruct (txs_by_account p !! a) as [m|] eqn:Hm; [|constructor]. simpl.
  assert (∀ k r, (BTreeMap.split_off n m).1 !! k = Some r →
    Index.get (txs_by_account p) a k = Some r) as Hg.
  { intros k r. rewrite BTreeMap.lookup_split_off_lo. case_decide; [|done].
    unfold Index.get. by rewrite Hm. }
  apply (BTreeMap.NoDup_fmap_values tx_hash (BTreeMap.split_off n m).1).
  intros k1 k2 v1 v2 H1%Hg H2%Hg Hh.
  assert (v1 = v2) as -> by (by eapply pool_hash_inj).
  apply (pool_backed p Hp) in H1 as (_&<-&_). by apply (pool_backed p Hp) in H2 as (_&<-&_).
Qed.

(** One iteration of the loop of [remove_up_to_nonce]. *)
Lemma pool_drop_hash p h tx :
  p.(tx_pool) !! h = Some tx → p.(n_txs) = N.of_nat (size p.(tx_pool)) →
  (s ← get_st;
   expect (s.(tx_pool) !! h);;
   modify (set_tx_pool (delete h s.(tx_pool)));;
   capacity_remove : PoolM unit) p =
  (Ok tt, {| tx_pool := delete h p.(tx_pool); txs_by_account := p.(txs_by_account);
             n_txs := N.of_nat (size (delete h p.(tx_pool))) |}).
Proof.
  intros Hh Hc. mstep. rewrite Hh. unfold capacity_remove. mstep.
  assert (size (tx_pool p) ≠ 0%nat).
  { apply map_size_non_empty_iff. intros He. by rewrite He, lookup_empty in Hh. }
  unfold checked_sub; simpl. rewrite decide_True by lia. mstep.
  unfold modify; simpl. repeat f_equal.
  rewrite map_size_delete_Some by eauto. lia.
Qed.

Lemma pool_remove_up_to p a n :
  pool_inv p →
  wp_ok (Pool.remove_up_to_nonce a n) p (λ _ p',
    pool_inv p' ∧
    (∀ a' n', Index.get p'.(txs_by_account) a' n' =
       if decide (a' = a ∧ n' < n) then None else Index.get p.(txs_by_account) a' n') ∧
    (∀ h tx, p'.(tx_pool) !! h = Some tx ↔
       p.(tx_pool) !! h = Some tx ∧
       ¬ (contract_address tx = a ∧ AccountTransaction_nonce tx < n))).
Proof.
  intros Hp. unfold Pool.remove_up_to_nonce. apply wp_ok_bind, wp_ok_iff.
  eexists _, p. split; [done|].
  pose proof (index_get_remove_up_to (txs_by_account p) a n) as Hget.
  pose proof (removed_hashes_NoDup p a n Hp) as Hnd.
  assert (∀ r, r ∈ (Index.remove_up_to_nonce a n (txs_by_account p)).1 ↔
    Index.get (txs_by_account p) a (nonce r) = Some r ∧ nonce r < n) as Hrem.
  { intros r. apply index_removed_up_to. intros n' r' Hr.
    by apply (pool_backed p Hp) in Hr as (_&?&_). }
  assert (∀ a' m, (Index.remove_up_to_nonce a n (txs_by_account p)).2 !! a' = Some m →
    m ≠ ∅) as Hne.
  { intros a' m. unfold Index.remove_up_to_nonce.
    destruct (txs_by_account p !! a) as [m'|] eqn:Hm; simpl;
      [|apply (pool_no_empty_account p Hp)].
    case_bool_decide.
    - rewrite lookup_delete. case_decide; [done|]. apply (pool_no_empty_account p Hp).
    - rewrite lookup_insert. case_decide; [naive_solver|].
      apply (pool_no_empty_account p Hp). }
  destruct (Index.remove_up_to_nonce a n (txs_by_account p)) as [removed idx]; simpl in *.
  apply wp_ok_bind, wp_ok_iff. eexists _, _. split; [done|].
  eapply wp_ok_mono.
  - apply (wp_ok_mfor _ (λ done s, txs_by_account s = idx ∧
      n_txs s = N.of_nat (size (tx_pool s)) ∧
      ∀ h, tx_pool s !! h = if decide (h ∈ tx_hash <$> done) then None else tx_pool p !! h)).
    + split_and!; [done|apply (pool_count p Hp)|]. intros h.
      by case_decide; [set_solver|].
    + intros pre r post s -> (Hi&Hc&Hl).
      assert (Index.get (txs_by_account p) a (nonce r) = Some r) as Hr.
      { apply Hrem. set_solver. }
      apply (pool_backed p Hp) in Hr as (_&_&tx&Htx&_).
      assert (tx_hash r ∉ tx_hash <$> pre).
      { rewrite fmap_app, fmap_cons, NoDup_app in Hnd. intros Hin.
        destruct Hnd as (_&Hd&_). apply (Hd _ Hin). set_solver. }
      apply wp_ok_iff. eexists _, _. split.
      { eapply pool_drop_hash; [|done]. rewrite Hl, decide_False by done. exact Htx. }
      simpl. split_and!; [done..|]. intros h. rewrite lookup_delete, Hl.
      rewrite fmap_app; simpl. repeat case_decide; set_solver.
  - intros _ p' (Hi&Hc&Hl); simpl in *.
    assert (∀ h tx, tx_pool p' !! h = Some tx ↔ tx_pool p !! h = Some tx ∧
      ¬ (contract_address tx = a ∧ AccountTransaction_nonce tx < n)) as Hchar.
    { intros h tx. rewrite Hl. case_decide as Hin.
      - split; [done|]. intros [Htx Hno]. exfalso. apply Hno.
        apply list_elem_of_fmap in Hin as (r&->&Hr%Hrem). destruct Hr as [Hr Hlt].
        apply (pool_backed p Hp) in Hr as (Ha&_&tx'&Htx'&Hnew).
        rewrite Htx in Htx'. simplify_eq. done.
      - split; [|by intros [? _]]. intros Htx. split; [done|]. intros [<- Hlt]. apply Hin.
        rewrite <-(pool_keyed p Hp h tx Htx).
        apply (list_elem_of_fmap_2' tx_hash removed (TransactionReference_new tx)); [|done].
        apply Hrem. split; [|done]. by apply (pool_indexed p Hp h). }
    split_and!; [|by rewrite Hi|done]. split; [..|by rewrite Hi|done].
    + intros h tx [Ht _]%Hchar. by apply (pool_keyed p Hp).
    + intros h tx [Ht Hno]%Hchar. rewrite Hi, Hget, decide_False by done.
      by apply (pool_indexed p Hp h).
    + intros a' n' r. rewrite Hi, Hget. case_decide as Hd; [done|]. intros Hr.
      apply (pool_backed p Hp) in Hr as (<-&<-&tx&Htx&Hnew).
      split_and!; [done..|]. exists tx. split; [|done]. apply Hchar. split; [done|].
      subst r. exact Hd.
Qed.
End pool.
