(* ===== verification/TransactionQueue.v ===== *)
(** The queue of transactions eligible for sequencing:
    [crates/starknet_mempool/src/transaction_queue.rs]. *)

From S2P Require Import Prelude StarknetApi Collections TransactionPool.

(** [Ord for PriorityTransaction]: by tip, then by hash. *)
Definition priority_key (r : TransactionReference) : N * N := (r.(tip), r.(tx_hash)).
(** [Ord for PendingTransaction]: by gas price, then by hash. *)
Definition pending_key (r : TransactionReference) : N * N := (r.(max_l2_gas_price), r.(tx_hash)).

Record TransactionQueue := {
  gas_price_threshold : GasPrice;
  priority_queue : list TransactionReference;
  pending_queue : list TransactionReference;
  address_to_tx : gmap ContractAddress TransactionReference;
}.

Definition TransactionQueue_default : TransactionQueue :=
  {| gas_price_threshold := 0; priority_queue := []; pending_queue := []; address_to_tx := ∅ |}.

Abbreviation QueueM := (M TransactionQueue MempoolError) (only parsing).

Definition set_threshold t (s : TransactionQueue) := {|
  gas_price_threshold := t; priority_queue := s.(priority_queue);
  pending_queue := s.(pending_queue); address_to_tx := s.(address_to_tx) |}.
Definition set_priority q (s : TransactionQueue) := {|
  gas_price_threshold := s.(gas_price_threshold); priority_queue := q;
  pending_queue := s.(pending_queue); address_to_tx := s.(address_to_tx) |}.
Definition set_pending q (s : TransactionQueue) := {|
  gas_price_threshold := s.(gas_price_threshold); priority_queue := s.(priority_queue);
  pending_queue := q; address_to_tx := s.(address_to_tx) |}.
Definition set_address_to_tx m (s : TransactionQueue) := {|
  gas_price_threshold := s.(gas_price_threshold); priority_queue := s.(priority_queue);
  pending_queue := s.(pending_queue); address_to_tx := m |}.

(** [(0..n).filter_map(|_| set.pop_last())] *)
Fixpoint pop_last_n (n : nat) (l : list TransactionReference)
  : list TransactionReference * list TransactionReference :=
  match n with
  | O => ([], l)
  | S n =>
      match BTreeSet.pop_last l with
      | (Some x, l') => let '(xs, l'') := pop_last_n n l' in (x :: xs, l'')
      | (None, l') => pop_last_n n l'
      end
  end.

Module Queue.
Definition insert (tx_reference : TransactionReference) : QueueM unit :=
  s ← get_st;
  modify (set_address_to_tx (<[tx_reference.(address) := tx_reference]> s.(address_to_tx)));;
  assert_ (bool_decide (s.(address_to_tx) !! tx_reference.(address) = None));;
  new_tx_successfully_inserted ←
    (if decide (tx_reference.(max_l2_gas_price) < s.(gas_price_threshold))
     then
       let '(inserted, q) := BTreeSet.insert pending_key tx_reference s.(pending_queue) in
       modify (set_pending q);; mret inserted
     else
       let '(inserted, q) := BTreeSet.insert priority_key tx_reference s.(priority_queue) in
       modify (set_priority q);; mret inserted);
  assert_ new_tx_successfully_inserted.

Definition pop_ready_chunk (n_txs : nat) : QueueM (list TransactionReference) :=
  s ← get_st;
  let '(txs, q) := pop_last_n n_txs s.(priority_queue) in
  modify (set_priority q);;
  modify (λ s, set_address_to_tx
    (foldl (λ m tx, delete tx.(address) m) s.(address_to_tx) txs) s);;
  mret txs.

Definition iter_over_ready_txs (s : TransactionQueue) : list TransactionReference :=
  reverse s.(priority_queue).

Definition get_nonce (s : TransactionQueue) (a : ContractAddress) : option Nonce :=
  nonce <$> s.(address_to_tx) !! a.

Definition remove (a : ContractAddress) : QueueM bool :=
  s ← get_st;
  match s.(address_to_tx) !! a with
  | None => mret false
  | Some tx_reference =>
      modify (set_address_to_tx (delete a s.(address_to_tx)));;
      let '(removed, q) := BTreeSet.remove priority_key tx_reference s.(priority_queue) in
      modify (set_priority q);;
      if removed then mret true
      else
        let '(removed, q) := BTreeSet.remove pending_key tx_reference s.(pending_queue) in
        modify (set_pending q);; mret removed
  end.

Definition has_ready_txs (s : TransactionQueue) : bool :=
  negb (bool_decide (s.(priority_queue) = [])).

(** The probe transaction compares by [(threshold, TransactionHash::default())]. *)
Definition promote_txs_to_priority (threshold : GasPrice) (s : TransactionQueue)
  : TransactionQueue :=
  let '(rest, txs_over_threshold) :=
    BTreeSet.split_off pending_key (threshold, 0) s.(pending_queue) in
  set_priority (BTreeSet.extend priority_key s.(priority_queue) txs_over_threshold)
    (set_pending rest s).

Definition demote_txs_to_pending (threshold : GasPrice) (s : TransactionQueue)
  : TransactionQueue :=
  let txs_to_remove := filter (λ tx, tx.(max_l2_gas_price) < threshold) s.(priority_queue) in
  let q := foldl (λ q tx, (BTreeSet.remove priority_key tx q).2)
             s.(priority_queue) txs_to_remove in
  set_pending (BTreeSet.extend pending_key s.(pending_queue) txs_to_remove)
    (set_priority q s).

Definition update_gas_price_threshold (threshold : GasPrice) (s : TransactionQueue)
  : TransactionQueue :=
  set_threshold threshold
    match threshold ?= s.(gas_price_threshold) with
    | Lt => promote_txs_to_priority threshold s
    | Gt => demote_txs_to_pending threshold s
    | Eq => s
    end.
End Queue.

(** ** The queue invariant

    [address_to_tx] and the threshold determine the two ordered sets. *)
Record queue_inv (q : TransactionQueue) : Prop := {
  queue_priority_sorted : BTreeSet.sorted priority_key q.(priority_queue);
  queue_pending_sorted : BTreeSet.sorted pending_key q.(pending_queue);
  queue_priority : ∀ r, r ∈ q.(priority_queue) ↔
    q.(address_to_tx) !! r.(address) = Some r ∧ q.(gas_price_threshold) ≤ r.(max_l2_gas_price);
  queue_pending : ∀ r, r ∈ q.(pending_queue) ↔
    q.(address_to_tx) !! r.(address) = Some r ∧ r.(max_l2_gas_price) < q.(gas_price_threshold);
  queue_keyed : ∀ a r, q.(address_to_tx) !! a = Some r → r.(address) = a;
  queue_hash_inj : ∀ a1 a2 r1 r2, q.(address_to_tx) !! a1 = Some r1 →
    q.(address_to_tx) !! a2 = Some r2 → r1.(tx_hash) = r2.(tx_hash) → r1 = r2;
}.

Section queue.
Implicit Types (q : TransactionQueue) (r : TransactionReference).

Lemma queue_inv_default : queue_inv TransactionQueue_default.
Proof.
  split; simpl; try (by constructor); intros *; rewrite ?lookup_empty; try done;
    rewrite elem_of_nil; naive_solver.
Qed.

Lemma queue_insert_spec q r :
  queue_inv q → q.(address_to_tx) !! r.(address) = None →
  (∀ a r', q.(address_to_tx) !! a = Some r' → r'.(tx_hash) ≠ r.(tx_hash)) →
  wp_ok (Queue.insert r) q (λ _ q', queue_inv q' ∧
    q'.(address_to_tx) = <[r.(address) := r]> q.(address_to_tx) ∧
    q'.(gas_price_threshold) = q.(gas_price_threshold)).
Proof.
  intros Hq Ha Hh. unfold Queue.insert, wp_ok, wp. mstep.
  rewrite bool_decide_true by done. mstep.
  assert (∀ a1 a2 r1 r2, <[r.(address) := r]> q.(address_to_tx) !! a1 = Some r1 →
    <[r.(address) := r]> q.(address_to_tx) !! a2 = Some r2 → tx_hash r1 = tx_hash r2 →
    r1 = r2) as Hinj.
  { intros a1 a2 r1 r2. rewrite !lookup_insert. repeat case_decide; subst.
    - congruence.
    - intros [= <-] H2 Heq. by destruct (Hh _ _ H2).
    - intros H1 [= <-] Heq. by destruct (Hh _ _ H1).
    - apply (queue_hash_inj q Hq). }
  assert (∀ a r', <[r.(address) := r]> q.(address_to_tx) !! a = Some r' → address r' = a)
    as Hk.
  { intros a r'. rewrite lookup_insert. case_decide; [congruence|]. apply (queue_keyed q Hq). }
  assert (∀ r', r' ≠ r → <[r.(address) := r]> q.(address_to_tx) !! address r' = Some r' ↔
    q.(address_to_tx) !! address r' = Some r') as Hold.
  { intros r' Hne. rewrite lookup_insert. case_decide as Hd; [|done].
    rewrite <-Hd, Ha. naive_solver. }
  case_decide as Hp.
  - assert (∀ r', r' ∈ pending_queue q → pending_key r' ≠ pending_key r) as Hfresh.
    { intros r' [Hr' _]%(queue_pending q Hq) [= _ Heq]. by eapply Hh. }
    destruct (BTreeSet.insert_fresh pending_key r (pending_queue q)) as [Hb Hin];
      [apply (queue_pending_sorted q Hq)|done|].
    pose proof (BTreeSet.insert_sorted pending_key r _ (queue_pending_sorted q Hq)) as Hs.
    destruct (BTreeSet.insert pending_key r (pending_queue q)) as [b l]; simpl in *. subst b.
    split_and!; [|done..]. split; simpl; [apply (queue_priority_sorted q Hq)|done| | |done..].
    + intros r'. rewrite (queue_priority q Hq). destruct (decide (r' = r)) as [->|Hne].
      * rewrite Ha, lookup_insert_eq. split; [naive_solver|]. intros [_ ?]. lia.
      * by rewrite (Hold r' Hne).
    + intros r'. rewrite Hin, (queue_pending q Hq). destruct (decide (r' = r)) as [->|Hne].
      * rewrite lookup_insert_eq. naive_solver.
      * rewrite (Hold r' Hne). naive_solver.
  - assert (∀ r', r' ∈ priority_queue q → priority_key r' ≠ priority_key r) as Hfresh.
    { intros r' [Hr' _]%(queue_priority q Hq) [= _ Heq]. by eapply Hh. }
    destruct (BTreeSet.insert_fresh priority_key r (priority_queue q)) as [Hb Hin];
      [apply (queue_priority_sorted q Hq)|done|].
    pose proof (BTreeSet.insert_sorted priority_key r _ (queue_priority_sorted q Hq)) as Hs.
    destruct (BTreeSet.insert priority_key r (priority_queue q)) as [b l]; simpl in *. subst b.
    split_and!; [|done..]. split; simpl; [done|apply (queue_pending_sorted q Hq)| | |done..].
    + intros r'. rewrite Hin, (queue_priority q Hq). destruct (decide (r' = r)) as [->|Hne].
      * rewrite lookup_insert_eq. split; [|naive_solver]. intros _. split; [done|lia].
      * rewrite (Hold r' Hne). naive_solver.
    + intros r'. rewrite (queue_pending q Hq). destruct (decide (r' = r)) as [->|Hne].
      * rewrite Ha, lookup_insert_eq. split; [naive_solver|]. intros [_ ?]. lia.
      * by rewrite (Hold r' Hne).
Qed.

Lemma queue_remove_spec q a :
  queue_inv q →
  wp_ok (Queue.remove a) q (λ b q', queue_inv q' ∧
    b = bool_decide (is_Some (q.(address_to_tx) !! a)) ∧
    q'.(address_to_tx) = delete a q.(address_to_tx) ∧
    q'.(gas_price_threshold) = q.(gas_price_threshold)).
Proof.
  intros Hq. unfold Queue.remove, wp_ok, wp. mstep.
  destruct (address_to_tx q !! a) as [r|] eqn:Hr.
  2: { simpl. rewrite delete_id by done. done. }
  mstep. pose proof (queue_keyed q Hq a r Hr) as Hk. subst a.
  assert (∀ r', r' ≠ r → delete (address r) (address_to_tx q) !! address r' = Some r' ↔
    address_to_tx q !! address r' = Some r') as Hold.
  { intros r' Hne. rewrite lookup_delete. case_decide as Hd; [|done].
    rewrite <-Hd, Hr. naive_solver. }
  assert (∀ a r', delete (address r) (address_to_tx q) !! a = Some r' →
    address_to_tx q !! a = Some r') as Hsub.
  { intros a r' [_ ?]%lookup_delete_Some. done. }
  destruct (decide (gas_price_threshold q ≤ max_l2_gas_price r)) as [Hp|Hp].
  - destruct (BTreeSet.remove_present priority_key r (priority_queue q)) as [Hb Hin];
      [apply (queue_priority_sorted q Hq)|by apply (queue_priority q Hq)|].
    pose proof (BTreeSet.remove_sorted priority_key r _ (queue_priority_sorted q Hq)) as Hs.
    destruct (BTreeSet.remove priority_key r (priority_queue q)) as [b l]; simpl in *. subst b.
    split_and!; [|done..].
    split; simpl; [done|apply (queue_pending_sorted q Hq)| | | |].
    + intros r'. rewrite Hin, (queue_priority q Hq). destruct (decide (r' = r)) as [->|Hne].
      * rewrite lookup_delete_eq. naive_solver.
      * rewrite (Hold r' Hne). naive_solver.
    + intros r'. rewrite (queue_pending q Hq). destruct (decide (r' = r)) as [->|Hne].
      * rewrite lookup_delete_eq. split; [intros [_ ?]; lia|naive_solver].
      * by rewrite (Hold r' Hne).
    + intros a r' H%Hsub. by apply (queue_keyed q Hq).
    + intros a1 a2 r1 r2 H1%Hsub H2%Hsub. by apply (queue_hash_inj q Hq a1 a2).
  - rewrite (BTreeSet.remove_absent priority_key r (priority_queue q)).
    2: { intros r' [Hr' Hge]%(queue_priority q Hq) [= _ Heq].
         assert (r' = r) as -> by (by eapply (queue_hash_inj q Hq)). done. }
    destruct (BTreeSet.remove_present pending_key r (pending_queue q)) as [Hb Hin];
      [apply (queue_pending_sorted q Hq)|apply (queue_pending q Hq); split; [done|lia]|].
    pose proof (BTreeSet.remove_sorted pending_key r _ (queue_pending_sorted q Hq)) as Hs.
    mstep.
    destruct (BTreeSet.remove pending_key r (pending_queue q)) as [b l]; simpl in *. subst b.
    split_and!; [|done..].
    split; simpl; [apply (queue_priority_sorted q Hq)|done| | | |].
    + intros r'. rewrite (queue_priority q Hq). destruct (decide (r' = r)) as [->|Hne].
      * rewrite lookup_delete_eq. split; [intros [_ ?]; lia|naive_solver].
      * by rewrite (Hold r' Hne).
    + intros r'. rewrite Hin, (queue_pending q Hq). destruct (decide (r' = r)) as [->|Hne].
      * rewrite lookup_delete_eq. naive_solver.
      * rewrite (Hold r' Hne). naive_solver.
    + intros a r' H%Hsub. by apply (queue_keyed q Hq).
    + intros a1 a2 r1 r2 H1%Hsub H2%Hsub. by apply (queue_hash_inj q Hq a1 a2).
Qed.

(** *** Popping the transactions of highest priority *)

Lemma pop_last_n_spec n l :
  pop_last_n n l = (take n (reverse l), take (length l - n) l).
Proof.
  revert n. induction l as [|x l IH] using rev_ind; intros n.
  { assert (pop_last_n n [] = ([], [])) as ->; [|by rewrite reverse_nil, !take_nil].
    by induction n as [|n IHn]. }
  destruct n as [|n].
  { simpl. by rewrite Nat.sub_0_r, firstn_all. }
  simpl. rewrite BTreeSet.pop_last_snoc, IH, reverse_snoc; simpl. f_equal.
  rewrite length_app; simpl.
  replace (length l + 1 - S n)%nat with (length l - n)%nat by lia.
  rewrite take_app_le by lia. done.
Qed.

Lemma foldl_delete_lookup (m : gmap N TransactionReference) xs a :
  foldl (λ m tx, delete tx.(address) m) m xs !! a =
  if decide (a ∈ address <$> xs) then None else m !! a.
Proof.
  revert m. induction xs as [|x xs IH]; intros m; cbn [foldl].
  { by case_decide; [set_solver|]. }
  rewrite IH, lookup_delete. repeat case_decide; set_solver.
Qed.

Lemma queue_pop_spec q n :
  queue_inv q →
  wp_ok (Queue.pop_ready_chunk n) q (λ txs q', queue_inv q' ∧
    txs = take n (Queue.iter_over_ready_txs q) ∧
    q'.(priority_queue) = take (length q.(priority_queue) - n) q.(priority_queue) ∧
    (∀ a, q'.(address_to_tx) !! a =
      if decide (a ∈ address <$> txs) then None else q.(address_to_tx) !! a) ∧
    q'.(gas_price_threshold) = q.(gas_price_threshold)).
Proof.
  intros Hq. unfold Queue.pop_ready_chunk, wp_ok, wp, Queue.iter_over_ready_txs. mstep.
  rewrite pop_last_n_spec. mstep. simpl. rewrite take_reverse.
  set (l := priority_queue q). set (k := (length l - n)%nat). fold l.
  split_and!; [|done..|apply foldl_delete_lookup|done].
  assert (∀ r, r ∈ l ↔ r ∈ take k l ∨ r ∈ drop k l) as Hl.
  { intros r. by rewrite <-(take_drop k l) at 1; rewrite elem_of_app. }
  assert (∀ r, r ∈ take k l → r ∉ drop k l) as Hdisj.
  { pose proof (BTreeSet.sorted_NoDup _ _ (queue_priority_sorted q Hq)) as Hnd.
    fold l in Hnd. rewrite <-(take_drop k l), NoDup_app in Hnd. by destruct Hnd as (_&?&_). }
  assert (∀ a, foldl (λ m tx, delete (address tx) m) (address_to_tx q) (reverse (drop k l))
    !! a = if decide (a ∈ address <$> drop k l) then None else address_to_tx q !! a) as Hm.
  { intros a. rewrite foldl_delete_lookup, fmap_reverse.
    repeat case_decide; rewrite ?elem_of_reverse in *; done. }
  assert (∀ r, address_to_tx q !! address r = Some r →
    address r ∈ address <$> drop k l ↔ r ∈ drop k l) as Haddr.
  { intros r Hr. rewrite list_elem_of_fmap. split; [|naive_solver].
    intros (r' & Heq & Hr'). assert (r' ∈ l) as [Hq' _]%(queue_priority q Hq) by (apply Hl; auto).
    rewrite <-Heq, Hr in Hq'. by simplify_eq. }
  split; cbn [set_address_to_tx set_priority priority_queue pending_queue address_to_tx
    gas_price_threshold].
  - pose proof (queue_priority_sorted q Hq) as Hs. fold l in Hs.
    rewrite <-(take_drop k l), BTreeSet.sorted_app in Hs. by destruct Hs.
  - apply (queue_pending_sorted q Hq).
  - intros r. rewrite Hm. split.
    + intros Hr. assert (r ∈ l) as [H1 H2]%(queue_priority q Hq) by (apply Hl; auto).
      split; [|done]. rewrite decide_False; [done|]. rewrite Haddr by done. by apply Hdisj.
    + intros [Hr Hge]. case_decide as Hd; [done|]. rewrite Haddr in Hd by done.
      assert (r ∈ l) as [|]%Hl by (by apply (queue_priority q Hq)); done.
  - intros r. rewrite (queue_pending q Hq), Hm. split.
    + intros [Hr Hlt]. rewrite decide_False; [done|]. rewrite Haddr by done. intros Hd.
      assert (r ∈ l) as [_ ?]%(queue_priority q Hq) by (apply Hl; auto). lia.
    + intros [Hr Hlt]. by case_decide.
  - intros a r. rewrite Hm. case_decide; [done|]. apply (queue_keyed q Hq).
  - intros a1 a2 r1 r2. rewrite !Hm. do 2 (case_decide; [done|]). apply (queue_hash_inj q Hq).
Qed.

(** *** Changing the gas price threshold *)

(** Two queued transactions comparing equal in either order are the same. *)
Lemma queue_key_inj q (key : TransactionReference → N * N) r1 r2 :
  queue_inv q → (∀ r, (key r).2 = r.(tx_hash)) →
  q.(address_to_tx) !! r1.(address) = Some r1 → q.(address_to_tx) !! r2.(address) = Some r2 →
  key r1 = key r2 → r1 = r2.
Proof.
  intros Hq Hkey H1 H2 Hk. apply (queue_hash_inj q Hq _ _ _ _ H1 H2).
  rewrite <-!Hkey. by rewrite Hk.
Qed.

Lemma NoDup_fmap_key (key : TransactionReference → N * N) l :
  NoDup l → (∀ r1 r2, r1 ∈ l → r2 ∈ l → key r1 = key r2 → r1 = r2) → NoDup (key <$> l).
Proof. intros. apply NoDup_fmap_2_strong; [|done]. naive_solver. Qed.

Lemma promote_inv q t :
  queue_inv q → t < q.(gas_price_threshold) →
  queue_inv (set_threshold t (Queue.promote_txs_to_priority t q)).
Proof.
  intros Hq Ht. unfold Queue.promote_txs_to_priority, BTreeSet.split_off.
  set (over := filter (λ y, ¬ key_lt (pending_key y) (t, 0)) (pending_queue q)).
  assert (∀ r, key_lt (pending_key r) (t, 0) ↔ max_l2_gas_price r < t) as Hkey.
  { intros r. unfold key_lt, pending_key; simpl. lia. }
  assert (∀ r, r ∈ over ↔ address_to_tx q !! address r = Some r ∧
    t ≤ max_l2_gas_price r < gas_price_threshold q) as Hover.
  { intros r. unfold over. rewrite list_elem_of_filter, Hkey, (queue_pending q Hq).
    naive_solver lia. }
  assert (∀ r, r ∈ BTreeSet.extend priority_key (priority_queue q) over ↔
    r ∈ over ∨ r ∈ priority_queue q) as Hext.
  { intros r. apply BTreeSet.elem_of_extend; [apply (queue_priority_sorted q Hq)| |].
    - apply NoDup_fmap_key.
      + apply NoDup_filter, (BTreeSet.sorted_NoDup pending_key), (queue_pending_sorted q Hq).
      + intros r1 r2 [H1 _]%Hover [H2 _]%Hover. by apply (queue_key_inj q).
    - intros r1 r2 [H1 Hp1]%Hover [H2 Hp2]%(queue_priority q Hq) Heq.
      assert (r1 = r2) as -> by (by apply (queue_key_inj q priority_key)). lia. }
  split; cbn [set_threshold set_priority set_pending priority_queue pending_queue
    gas_price_threshold address_to_tx].
  - apply BTreeSet.extend_sorted, (queue_priority_sorted q Hq).
  - apply BTreeSet.filter_sorted, (queue_pending_sorted q Hq).
  - intros r. rewrite Hext, Hover, (queue_priority q Hq).
    split; [intros [[??]|[??]]; split; [done|lia|done|lia]|].
    intros [??]. destruct (N.lt_ge_cases (max_l2_gas_price r) (gas_price_threshold q));
      [left|right]; auto.
  - intros r. rewrite list_elem_of_filter, Hkey, (queue_pending q Hq).
    split; [by intros [? [? _]]|]. intros [??]. split_and!; [done..|lia].
  - apply (queue_keyed q Hq).
  - apply (queue_hash_inj q Hq).
Qed.

Lemma foldl_remove_sorted (l xs : list TransactionReference) :
  BTreeSet.sorted priority_key l →
  BTreeSet.sorted priority_key
    (foldl (λ l tx, (BTreeSet.remove priority_key tx l).2) l xs).
Proof.
  revert l. induction xs as [|x xs IH]; intros l Hs; cbn [foldl]; [done|].
  by apply IH, BTreeSet.remove_sorted.
Qed.

Lemma elem_of_foldl_remove (l xs : list TransactionReference) r :
  r ∈ foldl (λ l tx, (BTreeSet.remove priority_key tx l).2) l xs ↔
  r ∈ l ∧ ∀ x, x ∈ xs → priority_key r ≠ priority_key x.
Proof.
  revert l. induction xs as [|x xs IH]; intros l; cbn [foldl]; [set_solver|].
  rewrite IH. unfold BTreeSet.remove; cbn [snd]. rewrite list_elem_of_filter.
  setoid_rewrite elem_of_cons. split.
  - intros [[??] Hxs]. split; [done|]. intros y [->|?]; auto.
  - intros [? Hxs]. split_and!; [by apply Hxs; left|done|]. intros y ?. by apply Hxs; right.
Qed.

Lemma demote_inv q t :
  queue_inv q → q.(gas_price_threshold) < t →
  queue_inv (set_threshold t (Queue.demote_txs_to_pending t q)).
Proof.
  intros Hq Ht. unfold Queue.demote_txs_to_pending.
  set (low := filter (λ tx, max_l2_gas_price tx < t) (priority_queue q)).
  assert (∀ r, r ∈ low ↔ address_to_tx q !! address r = Some r ∧
    gas_price_threshold q ≤ max_l2_gas_price r < t) as Hlow.
  { intros r. unfold low. rewrite list_elem_of_filter, (queue_priority q Hq). naive_solver. }
  assert (∀ r, r ∈ BTreeSet.extend pending_key (pending_queue q) low ↔
    r ∈ low ∨ r ∈ pending_queue q) as Hext.
  { intros r. apply BTreeSet.elem_of_extend; [apply (queue_pending_sorted q Hq)| |].
    - apply NoDup_fmap_key.
      + apply NoDup_filter, (BTreeSet.sorted_NoDup priority_key), (queue_priority_sorted q Hq).
      + intros r1 r2 [H1 _]%Hlow [H2 _]%Hlow. by apply (queue_key_inj q).
    - intros r1 r2 [H1 Hp1]%Hlow [H2 Hp2]%(queue_pending q Hq) Heq.
      assert (r1 = r2) as -> by (by apply (queue_key_inj q pending_key)). lia. }
  split; cbn [set_threshold set_priority set_pending priority_queue pending_queue
    gas_price_threshold address_to_tx].
  - apply foldl_remove_sorted, (queue_priority_sorted q Hq).
  - apply BTreeSet.extend_sorted, (queue_pending_sorted q Hq).
  - intros r. rewrite elem_of_foldl_remove, (queue_priority q Hq). split.
    + intros [[Hr Hge] Hno]. split; [done|]. apply N.nlt_ge. intros Hlt.
      by apply (Hno r); [apply Hlow|].
    + intros [Hr Hge]. split; [split; [done|lia]|]. intros x [Hx Hp]%Hlow Heq.
      assert (r = x) as -> by (by apply (queue_key_inj q priority_key)). lia.
  - intros r. rewrite Hext, Hlow, (queue_pending q Hq).
    split; [intros [[??]|[??]]; split; [done|lia|done|lia]|].
    intros [??]. destruct (N.lt_ge_cases (max_l2_gas_price r) (gas_price_threshold q));
      [right|left]; auto.
  - apply (queue_keyed q Hq).
  - apply (queue_hash_inj q Hq).
Qed.

Lemma update_threshold_spec q t :
  queue_inv q →
  let q' := Queue.update_gas_price_threshold t q in
  queue_inv q' ∧ q'.(address_to_tx) = q.(address_to_tx) ∧ q'.(gas_price_threshold) = t.
Proof.
  intros Hq. unfold Queue.update_gas_price_threshold. simpl.
  destruct (N.compare_spec t (gas_price_threshold q)) as [->|Hlt|Hgt].
  - split_and!; [|done..]. destruct Hq; by split.
  - split; [by apply promote_inv|done].
  - split; [by apply demote_inv|done].
Qed.
End queue.
