(* ===== verification/Mempool.v ===== *)
(** The mempool: [crates/starknet_mempool/src/mempool.rs]. This file holds the model; its
    properties are in [MempoolProofs]. *)

From S2P Require Import Prelude StarknetApi Collections TransactionPool TransactionQueue.

Record MempoolConfig := {
  enable_fee_escalation : bool;
  fee_escalation_percentage : N;
}.

Definition MempoolConfig_default : MempoolConfig :=
  {| enable_fee_escalation := true; fee_escalation_percentage := 10 |}.

(** ** Account nonces *)

Record MempoolState := {
  committed : gmap ContractAddress Nonce;
  staged : gmap ContractAddress Nonce;
  tentative : gmap ContractAddress Nonce;
}.

Definition MempoolState_default : MempoolState :=
  {| committed := ∅; staged := ∅; tentative := ∅ |}.

Definition set_staged m (s : MempoolState) :=
  {| committed := s.(committed); staged := m; tentative := s.(tentative) |}.
Definition set_tentative m (s : MempoolState) :=
  {| committed := s.(committed); staged := s.(staged); tentative := m |}.

(** [self.0.or_else(|| other)] *)
Definition or_else {A} (o : option A) (o' : option A) : option A :=
  match o with Some a => Some a | None => o' end.

Module State.
Definition get (s : MempoolState) (a : ContractAddress) : option Nonce :=
  or_else (or_else (s.(staged) !! a) (s.(committed) !! a)) (s.(tentative) !! a).

Definition get_or_insert (a : ContractAddress) (n : Nonce) (s : MempoolState)
  : Nonce * MempoolState :=
  match or_else (s.(staged) !! a) (s.(committed) !! a) with
  | Some staged_or_committed_nonce => (staged_or_committed_nonce, s)
  | None =>
      let tentative_nonce :=
        match s.(tentative) !! a with
        | Some t => if decide (t < n) then n else t
        | None => n
        end in
      (tentative_nonce, set_tentative (<[a := tentative_nonce]> s.(tentative)) s)
  end.

Definition stage (tx_reference : TransactionReference) : M MempoolState MempoolError unit :=
  next_nonce ← lift_result (try_increment_nonce tx_reference.(nonce));
  s ← get_st;
  modify (set_staged (<[tx_reference.(address) := next_nonce]> s.(staged)));;
  match s.(staged) !! tx_reference.(address) with
  | Some existing_nonce =>
      n ← lift_result (try_increment_nonce existing_nonce);
      assert_ (bool_decide (n = next_nonce))
  | None => mret tt
  end.

Definition commit `{HashOrder} (address_to_nonce : gmap ContractAddress Nonce)
    (s : MempoolState) : list ContractAddress * MempoolState :=
  let addresses_to_rewind :=
    filter (λ a, address_to_nonce !! a = None) (hash_keys s.(staged)) in
  (addresses_to_rewind,
   {| tentative := filter (λ kv, address_to_nonce !! kv.1 = None) s.(tentative);
      committed := address_to_nonce ∪ s.(committed);
      staged := ∅ |}).

Definition validate_incoming_tx (s : MempoolState) (tx_reference : TransactionReference)
  : result MempoolError unit :=
  match get s tx_reference.(address) with
  | Some existing_nonce =>
      if decide (tx_reference.(nonce) < existing_nonce)
      then Err (NonceTooOld tx_reference.(address) tx_reference.(nonce))
      else Ok tt
  | None => Ok tt
  end.

(** [assert!(committed_nonce <= next_nonce)] *)
Definition validate_commitment (s : MempoolState) (a : ContractAddress) (next_nonce : Nonce)
  : result MempoolError unit :=
  match s.(committed) !! a with
  | Some committed_nonce => if decide (committed_nonce ≤ next_nonce) then Ok tt else Panic
  | None => Ok tt
  end.
End State.

(** ** The mempool *)

Record Mempool := {
  config : MempoolConfig;
  mp_pool : TransactionPool;
  mp_queue : TransactionQueue;
  mp_state : MempoolState;
}.

Definition Mempool_default : Mempool := {|
  config := MempoolConfig_default;
  mp_pool := TransactionPool_default;
  mp_queue := TransactionQueue_default;
  mp_state := MempoolState_default;
|}.

Definition set_pool p (s : Mempool) :=
  {| config := s.(config); mp_pool := p; mp_queue := s.(mp_queue); mp_state := s.(mp_state) |}.
Definition set_queue q (s : Mempool) :=
  {| config := s.(config); mp_pool := s.(mp_pool); mp_queue := q; mp_state := s.(mp_state) |}.
Definition set_state st (s : Mempool) :=
  {| config := s.(config); mp_pool := s.(mp_pool); mp_queue := s.(mp_queue); mp_state := st |}.

Abbreviation MempoolM := (M Mempool MempoolError) (only parsing).

Definition on_pool {A} (m : M TransactionPool MempoolError A) : MempoolM A :=
  zoom mp_pool set_pool m.
Definition on_queue {A} (m : M TransactionQueue MempoolError A) : MempoolM A :=
  zoom mp_queue set_queue m.
Definition on_state {A} (m : M MempoolState MempoolError A) : MempoolM A :=
  zoom mp_state set_state m.

Record AddTransactionArgs := { add_tx_tx : AccountTransaction; add_tx_account_state : AccountState }.
Record CommitBlockArgs := {
  address_to_nonce : gmap ContractAddress Nonce;
  tx_hashes : gset TransactionHash;
}.

(** *** Fee escalation *)

Definition increased_enough (c : MempoolConfig) (existing_value incoming_value : N) : bool :=
  match (v ← checked_mul u128_max existing_value c.(fee_escalation_percentage);
         checked_add u128_max existing_value (v / 100)) with
  | None => false
  | Some escalation_qualified_value => bool_decide (escalation_qualified_value ≤ incoming_value)
  end.

Definition should_replace_tx (c : MempoolConfig) (existing_tx incoming_tx : TransactionReference)
  : bool :=
  increased_enough c existing_tx.(tip) incoming_tx.(tip) &&
  increased_enough c existing_tx.(max_l2_gas_price) incoming_tx.(max_l2_gas_price).

Definition handle_fee_escalation (incoming_tx : AccountTransaction) : MempoolM unit :=
  let incoming_tx_reference := TransactionReference_new incoming_tx in
  let a := incoming_tx_reference.(address) in
  let n := incoming_tx_reference.(nonce) in
  s ← get_st;
  if negb s.(config).(enable_fee_escalation) then
    match Pool.get_by_address_and_nonce s.(mp_pool) a n with
    | Some _ => throw (DuplicateNonce a n)
    | None => mret tt
    end
  else
    match Pool.get_by_address_and_nonce s.(mp_pool) a n with
    | None => mret tt
    | Some existing_tx_reference =>
        if negb (should_replace_tx s.(config) existing_tx_reference incoming_tx_reference)
        then throw (DuplicateNonce a n)
        else
          on_queue (Queue.remove a);;
          on_pool (expect_ok (Pool.remove existing_tx_reference.(tx_hash)));;
          mret tt
    end.

(** *** Entry points *)

Definition add_tx (args : AddTransactionArgs) : MempoolM unit :=
  let tx := args.(add_tx_tx) in
  let tx_reference := TransactionReference_new tx in
  s ← get_st;
  lift_result (State.validate_incoming_tx s.(mp_state) tx_reference);;
  handle_fee_escalation tx;;
  on_pool (Pool.insert tx);;
  let a := args.(add_tx_account_state).(as_address) in
  let incoming_account_nonce := args.(add_tx_account_state).(as_nonce) in
  s ← get_st;
  let '(stored_account_nonce, st) :=
    State.get_or_insert a incoming_account_nonce s.(mp_state) in
  modify (set_state st);;
  if decide (tx_reference.(nonce) = stored_account_nonce)
  then on_queue (Queue.remove a);; on_queue (Queue.insert tx_reference)
  else mret tt.

(** The body of the loop of [enqueue_next_eligible_txs]. *)
Definition enqueue_next_eligible_tx (tx : TransactionReference) : MempoolM unit :=
  s ← get_st;
  next ← lift_result (Pool.get_next_eligible_tx s.(mp_pool)
           {| as_address := tx.(address); as_nonce := tx.(nonce) |});
  match next with
  | Some next_tx_reference => on_queue (Queue.insert next_tx_reference)
  | None => mret tt
  end.

Definition enqueue_next_eligible_txs (txs : list TransactionReference) : MempoolM unit :=
  mfor enqueue_next_eligible_tx txs.

(** The [while] loop of [get_txs]; [fuel] bounds its iterations, each of which returns at
    least one transaction. *)
Fixpoint get_txs_loop (fuel n_remaining_txs : nat) (eligible : list TransactionReference)
  : MempoolM (list TransactionReference) :=
  s ← get_st;
  if (0 <? n_remaining_txs)%nat && Queue.has_ready_txs s.(mp_queue) then
    match fuel with
    | O => panic
    | S fuel =>
        chunk ← on_queue (Queue.pop_ready_chunk n_remaining_txs);
        enqueue_next_eligible_txs chunk;;
        get_txs_loop fuel (n_remaining_txs - length chunk)%nat (eligible ++ chunk)
    end
  else mret eligible.

Definition get_txs (n_txs : nat) : MempoolM (list AccountTransaction) :=
  eligible_tx_references ← get_txs_loop n_txs n_txs [];
  mfor (λ tx_reference, on_state (State.stage tx_reference)) eligible_tx_references;;
  s ← get_st;
  mcollect (λ tx_reference : TransactionReference,
      match Pool.get_by_tx_hash s.(mp_pool) tx_reference.(tx_hash) with
      | Ok tx => mret tx
      | _ => panic
      end)
    eligible_tx_references.

(** Aligns the pool and the queue to the committed nonce of one account. *)
Definition align_account (a : ContractAddress) (next_nonce : Nonce) : MempoolM unit :=
  s ← get_st;
  lift_result (State.validate_commitment s.(mp_state) a next_nonce);;
  (match Queue.get_nonce s.(mp_queue) a with
   | Some queued_nonce =>
       if decide (queued_nonce ≠ next_nonce)
       then removed ← on_queue (Queue.remove a); assert_ removed
       else mret tt
   | None => mret tt
   end);;
  on_pool (Pool.remove_up_to_nonce a next_nonce);;
  s ← get_st;
  match Queue.get_nonce s.(mp_queue) a with
  | Some _ => mret tt
  | None =>
      match Pool.get_by_address_and_nonce s.(mp_pool) a next_nonce with
      | Some tx_reference => on_queue (Queue.insert tx_reference)
      | None => mret tt
      end
  end.

(** An account that was proposed but not included goes back to its lowest nonce. *)
Definition rewind_account (a : ContractAddress) : MempoolM unit :=
  s ← get_st;
  tx_reference ← expect (head (Pool.account_txs_sorted_by_nonce s.(mp_pool) a));
  on_queue (Queue.remove a);;
  on_queue (Queue.insert tx_reference).

(** [let Ok(_tx) = self.tx_pool.remove(tx_hash) else { continue }] *)
Definition remove_committed (hash : TransactionHash) : MempoolM unit :=
  on_pool (ignore_err (Pool.remove hash)).

Definition commit_block `{HashOrder} (args : CommitBlockArgs) : MempoolM unit :=
  mfor (λ '(a, next_nonce), align_account a next_nonce) (hash_iter args.(address_to_nonce));;
  s ← get_st;
  let '(addresses_to_rewind, st) := State.commit args.(address_to_nonce) s.(mp_state) in
  modify (set_state st);;
  mfor rewind_account addresses_to_rewind;;
  mfor remove_committed (hash_keys (gset_to_gmap tt args.(tx_hashes))).

Definition update_gas_price_threshold (threshold : GasPrice) : MempoolM unit :=
  modify (λ s, set_queue (Queue.update_gas_price_threshold threshold s.(mp_queue)) s).
