(* ===== verification/MempoolProofs.v ===== *)
(** Properties of the mempool: the invariant that couples the pool, the queue and the staged
    nonces, its preservation by every entry point, the absence of panics, and what each
    entry point does. *)

From S2P Require Import Prelude StarknetApi Collections TransactionPool TransactionQueue Mempool.

Implicit Types (p : TransactionPool) (q : TransactionQueue) (r : TransactionReference)
  (m : Mempool) (tx : AccountTransaction).

(** ** Nonces *)

Lemma felt_prime_gt_1 : 1 < felt_prime.
Proof. done. Qed.

Lemma try_increment_nonce_ok n :
  n < felt_prime - 1 → try_increment_nonce n = Ok (n + 1).
Proof.
  intros Hn. pose proof felt_prime_gt_1. unfold try_increment_nonce, Nonce_try_increment, felt_add.
  rewrite N.mod_small by lia. by rewrite decide_False by lia.
Qed.

Lemma try_increment_nonce_max : try_increment_nonce (felt_prime - 1) = Err (NonceTooLarge (felt_prime - 1)).
Proof. vm_compute. done. Qed.

(** ** The invariant *)

Record minv (p : TransactionPool) (q : TransactionQueue) (sg : gmap ContractAddress Nonce)
  : Prop := {
  mi_pool : pool_inv p;
  mi_queue : queue_inv q;
  (** Queued transactions are in the pool. *)
  mi_queued : ∀ a r, q.(address_to_tx) !! a = Some r →
    Index.get p.(txs_by_account) a r.(nonce) = Some r;
  mi_nonce : ∀ a n r, Index.get p.(txs_by_account) a n = Some r → n < felt_prime - 1;
  (** The queued transaction of a staged account has the staged nonce. *)
  mi_staged_queue : ∀ a s r, sg !! a = Some s → q.(address_to_tx) !! a = Some r → r.(nonce) = s;
  (** The transactions that were staged are still in the pool. *)
  mi_staged_pool : ∀ a s, sg !! a = Some s →
    ∃ n r, n < s ∧ Index.get p.(txs_by_account) a n = Some r;
}.

Definition mempool_inv (m : Mempool) : Prop :=
  minv m.(mp_pool) m.(mp_queue) m.(mp_state).(staged).

Lemma mempool_inv_default : mempool_inv Mempool_default.
Proof.
  split; simpl; [apply pool_inv_default|apply queue_inv_default|..]; unfold Index.get; simpl;
    intros *; by rewrite ?lookup_empty.
Qed.

(** Rejected transactions and thresholds leave the invariant. *)
Lemma minv_queue_shrink p q q' sg :
  minv p q sg → queue_inv q' →
  (∀ a r, q'.(address_to_tx) !! a = Some r → q.(address_to_tx) !! a = Some r) →
  minv p q' sg.
Proof. intros [] Hq' Hsub. split; eauto. Qed.

(** ** Queue operations under the invariant *)

Lemma minv_queue_insert p q sg r :
  minv p q sg →
  Index.get p.(txs_by_account) r.(address) r.(nonce) = Some r →
  q.(address_to_tx) !! r.(address) = None →
  (∀ s, sg !! r.(address) = Some s → s = r.(nonce)) →
  wp_ok (Queue.insert r) q (λ _ q', minv p q' sg ∧
    q'.(address_to_tx) = <[r.(address) := r]> q.(address_to_tx) ∧
    q'.(gas_price_threshold) = q.(gas_price_threshold)).
Proof.
  intros Hm Hr Ha Hs. eapply wp_ok_mono.
  { apply queue_insert_spec; [apply (mi_queue _ _ _ Hm)|done|].
    intros a r' Hr' Heq. pose proof (mi_queued _ _ _ Hm a r' Hr') as Hp'.
    assert (r' = r) as -> by (by eapply pool_hash_inj; [apply (mi_pool _ _ _ Hm)|..]).
    pose proof (queue_keyed q (mi_queue _ _ _ Hm) a r Hr') as Hk. congruence. }
  intros _ q' (Hq'&Hmap&Hthr). split_and!; [|done..]. destruct Hm. split; try done.
  - intros a r'. rewrite Hmap, lookup_insert. case_decide; [|eauto]. by intros [= <-]; subst.
  - intros a s r' Hsg. rewrite Hmap, lookup_insert. case_decide; [|eauto].
    intros [= <-]; subst. symmetry. eauto.
Qed.

Lemma minv_queue_remove p q sg a :
  minv p q sg →
  wp_ok (Queue.remove a) q (λ b q', minv p q' sg ∧
    b = bool_decide (is_Some (q.(address_to_tx) !! a)) ∧
    q'.(address_to_tx) = delete a q.(address_to_tx) ∧
    q'.(gas_price_threshold) = q.(gas_price_threshold)).
Proof.
  intros Hm. eapply wp_ok_mono; [apply queue_remove_spec, (mi_queue _ _ _ Hm)|].
  intros b q' (Hq'&Hb&Hmap&Hthr). split_and!; [|done..].
  apply (minv_queue_shrink p q); [done..|]. intros a' r'.
  rewrite Hmap. by intros [_ ?]%lookup_delete_Some.
Qed.

(** ** [add_tx] *)

(** Removing from the pool a transaction of an account without queued transaction, above
    its staged nonce. *)
Lemma minv_pool_remove p q sg h tx :
  minv p q sg → p.(tx_pool) !! h = Some tx →
  q.(address_to_tx) !! contract_address tx = None →
  (∀ s, sg !! contract_address tx = Some s → s ≤ AccountTransaction_nonce tx) →
  minv (pool_after_remove tx p) q sg.
Proof.
  intros Hm Htx Hq Hs. destruct Hm as [Hp Hqi Hqd Hn Hsq Hsp]. split; try done.
  - by eapply pool_after_remove_inv.
  - intros a r Hr. pool_simpl. rewrite index_get_remove. pool_simpl.
    rewrite decide_False; [eauto|]. intros [-> _]. congruence.
  - intros a n r. pool_simpl. rewrite index_get_remove. case_decide; [done|]. eauto.
  - intros a s Hsg. destruct (Hsp a s Hsg) as (n&r&Hlt&Hr). exists n, r. split; [done|].
    pool_simpl. rewrite index_get_remove. pool_simpl. rewrite decide_False; [done|].
    intros [-> ->]. specialize (Hs s Hsg). lia.
Qed.

Definition tx_slot tx : ContractAddress * Nonce :=
  (contract_address tx, AccountTransaction_nonce tx).

Definition tx_slot_free tx p : Prop :=
  Index.get p.(txs_by_account) (contract_address tx) (AccountTransaction_nonce tx) = None.

(** In a well-formed pool a slot holds one transaction. *)
Lemma pool_slot_inj p h1 h2 tx1 tx2 :
  pool_inv p → p.(tx_pool) !! h1 = Some tx1 → p.(tx_pool) !! h2 = Some tx2 →
  tx_slot tx1 = tx_slot tx2 → h1 = h2.
Proof.
  intros Hp H1 H2 [= Ha Hn].
  pose proof (pool_indexed p Hp _ _ H1) as Hi1. pose proof (pool_indexed p Hp _ _ H2) as Hi2.
  rewrite Ha, Hn, Hi2 in Hi1.
  rewrite <-(pool_keyed p Hp _ _ H1), <-(pool_keyed p Hp _ _ H2). injection Hi1. done.
Qed.

(** A value is raised enough: to the existing one plus the configured percentage of it, rounded
    down, where both the product and the sum fit [u128]. *)
Definition raised_enough (c : MempoolConfig) (existing incoming : N) : Prop :=
  existing * c.(fee_escalation_percentage) ≤ u128_max ∧
  existing * (100 + c.(fee_escalation_percentage)) / 100 ≤ N.min incoming u128_max.

(** A transaction may take the place of another: replacing is enabled, and it raises both the tip
    and the L2 gas price enough. *)
Definition outbids (c : MempoolConfig) (existing incoming : TransactionReference) : Prop :=
  c.(enable_fee_escalation) = true ∧ raised_enough c existing.(tip) incoming.(tip) ∧
  raised_enough c existing.(max_l2_gas_price) incoming.(max_l2_gas_price).

Lemma increased_enough_spec c existing incoming :
  increased_enough c existing incoming = true ↔ raised_enough c existing incoming.
Proof.
  unfold increased_enough, checked_mul, checked_add, raised_enough.
  replace (existing * (100 + fee_escalation_percentage c))
    with (existing * fee_escalation_percentage c + existing * 100) by lia.
  rewrite N.div_add by done.
  case_decide; simpl; [|split; [done|lia]].
  case_decide; [rewrite bool_decide_eq_true|]; split; try done; lia.
Qed.

Lemma should_replace_tx_spec c existing incoming :
  c.(enable_fee_escalation) = true →
  should_replace_tx c existing incoming = true ↔ outbids c existing incoming.
Proof.
  intros Hen. unfold should_replace_tx, outbids.
  rewrite andb_true_iff, !increased_enough_spec. naive_solver.
Qed.

(** What [handle_fee_escalation] leaves: the slot of [tx] is free, everything else is as
    before, except that the account has no queued transaction when one was replaced. *)
Record escalated tx m m' : Prop := {
  es_inv : mempool_inv m';
  es_state : m'.(mp_state) = m.(mp_state);
  es_config : m'.(config) = m.(config);
  es_free : tx_slot_free tx m'.(mp_pool);
  es_pool : ∀ h tx', m'.(mp_pool).(tx_pool) !! h = Some tx' ↔
    m.(mp_pool).(tx_pool) !! h = Some tx' ∧ tx_slot tx' ≠ tx_slot tx;
  es_queue : ∀ a, m'.(mp_queue).(address_to_tx) !! a =
    if decide (tx_slot_free tx m.(mp_pool) ∨ a ≠ contract_address tx)
    then m.(mp_queue).(address_to_tx) !! a else None;
  (** A replacement is enabled and pays enough. *)
  es_paid : ∀ r, Index.get m.(mp_pool).(txs_by_account) (contract_address tx)
      (AccountTransaction_nonce tx) = Some r → outbids m.(config) r (TransactionReference_new tx);
}.

#[global] Instance tx_slot_free_dec tx p : Decision (tx_slot_free tx p).
Proof. unfold tx_slot_free. apply _. Defined.

Lemma escalated_refl m tx : mempool_inv m → tx_slot_free tx m.(mp_pool) → escalated tx m m.
Proof.
  intros Hm Hf. split; try done.
  - intros h tx'. split; [|by intros [? _]]. intros Htx'. split; [done|]. intros [= Ha Hn].
    pose proof (pool_indexed _ (mi_pool _ _ _ Hm) _ _ Htx') as Hi.
    unfold tx_slot_free in Hf. rewrite Ha, Hn in Hi. congruence.
  - intros a. by rewrite decide_True by auto.
  - intros r Hr. unfold tx_slot_free in Hf. congruence.
Qed.

Lemma escalated_replaced m tx tx' h q b :
  outbids m.(config) (TransactionReference_new tx') (TransactionReference_new tx) →
  mempool_inv m → m.(mp_pool).(tx_pool) !! h = Some tx' → tx_slot tx' = tx_slot tx →
  (∀ s, m.(mp_state).(staged) !! contract_address tx = Some s → s ≤ AccountTransaction_nonce tx) →
  minv m.(mp_pool) q m.(mp_state).(staged) ∧
    b = bool_decide (is_Some (m.(mp_queue).(address_to_tx) !! contract_address tx)) ∧
    q.(address_to_tx) = delete (contract_address tx) m.(mp_queue).(address_to_tx) ∧
    q.(gas_price_threshold) = m.(mp_queue).(gas_price_threshold) →
  escalated tx m (set_pool (pool_after_remove tx' m.(mp_pool)) (set_queue q m)).
Proof.
  intros Hrep Hm Htx' Hslot Hs (Hq&_&Hmap&_). pose proof Hslot as [= Ha Hn].
  pose proof (mi_pool _ _ _ Hm) as Hp. split; simpl; try done.
  - apply (minv_pool_remove _ _ _ h); simpl; [done..| |].
    + rewrite Hmap, Ha. apply lookup_delete_eq.
    + rewrite Ha, Hn. done.
  - unfold tx_slot_free. pool_simpl. rewrite index_get_remove. pool_simpl.
    by rewrite decide_True.
  - intros h1 tx1. rewrite lookup_delete_Some, (pool_keyed _ Hp _ _ Htx'). split.
    + intros [Hne H1]. split; [done|]. intros Heq. apply Hne.
      eapply pool_slot_inj; [done..|]. congruence.
    + intros [H1 Hne]. split; [|done]. intros ->. congruence.
  - intros a. rewrite Hmap, lookup_delete. destruct (decide (contract_address tx = a)) as [<-|].
    + rewrite decide_False; [done|]. intros [Hf|?]; [|done].
      pose proof (pool_indexed _ Hp _ _ Htx') as Hi. rewrite Ha, Hn in Hi.
      unfold tx_slot_free in Hf. congruence.
    + by rewrite decide_True by auto.
  - intros r Hr. pose proof (pool_indexed _ Hp _ _ Htx') as Hi. rewrite Ha, Hn, Hr in Hi.
    injection Hi as ->. done.
Qed.

Lemma fee_escalation_spec m tx :
  mempool_inv m →
  (∀ s, m.(mp_state).(staged) !! contract_address tx = Some s → s ≤ AccountTransaction_nonce tx) →
  wp (handle_fee_escalation tx) m (λ res m',
    match res with
    | Ok _ => escalated tx m m'
    | Err e => m' = m ∧ e = DuplicateNonce (contract_address tx) (AccountTransaction_nonce tx) ∧
        ∃ r, Index.get m.(mp_pool).(txs_by_account) (contract_address tx)
               (AccountTransaction_nonce tx) = Some r ∧
             ¬ outbids m.(config) r (TransactionReference_new tx)
    | Panic => False
    end).
Proof.
  intros Hm Hs. unfold handle_fee_escalation, wp. mstep.
  unfold Pool.get_by_address_and_nonce. pool_simpl.
  destruct (Index.get (txs_by_account (mp_pool m)) (contract_address tx)
    (AccountTransaction_nonce tx)) as [r|] eqn:Hr.
  2: { by destruct (negb (enable_fee_escalation (config m))); apply escalated_refl. }
  destruct (enable_fee_escalation (config m)) eqn:Hen; cbn [negb].
  2: { cbn. split_and!; [done..|]. exists r. split; [done|]. intros [Hen' _]. congruence. }
  destruct (should_replace_tx _ _ _) eqn:Hrep; cbn [negb].
  2: { cbn. split_and!; [done..|]. exists r. split; [done|].
       rewrite <-should_replace_tx_spec by done. congruence. }
  apply should_replace_tx_spec in Hrep; [|done].
  destruct (pool_backed _ (mi_pool _ _ _ Hm) _ _ _ Hr) as (Ha&Hn&tx'&Htx'&Hnew).
  destruct (proj1 (wp_ok_iff _ _ _) (minv_queue_remove _ _ _ (contract_address tx) Hm))
    as (b&q'&Hrun&Hq').
  unfold on_queue, on_pool. erewrite bind_run; [|unfold zoom; by rewrite Hrun].
  erewrite bind_run.
  2: { unfold zoom, expect_ok. cbn [set_queue mp_pool].
       by rewrite (pool_remove_known _ _ tx') by (done || apply (mi_pool _ _ _ Hm)). }
  subst r. eapply escalated_replaced; try done. unfold tx_slot. simpl in *. congruence.
Qed.

Lemma minv_pool_insert p q sg tx :
  minv p q sg → p.(tx_pool) !! AccountTransaction_tx_hash tx = None → tx_slot_free tx p →
  AccountTransaction_nonce tx < felt_prime - 1 →
  minv (pool_after_insert tx p) q sg.
Proof.
  unfold tx_slot_free. intros [Hp Hqi Hqd Hn Hsq Hsp] Hh Hf Hb. split; try done.
  - by apply pool_after_insert_inv.
  - intros a r Hr. pool_simpl. rewrite index_get_insert. pool_simpl.
    rewrite decide_False; [eauto|]. intros [-> Heq]. rewrite <-Heq in Hf.
    by rewrite (Hqd _ _ Hr) in Hf.
  - intros a n r. pool_simpl. rewrite index_get_insert. pool_simpl.
    case_decide as Hd; [|eauto]. by destruct Hd as [-> ->].
  - intros a s Hsg. destruct (Hsp a s Hsg) as (n&r&Hlt&Hr). exists n, r. split; [done|].
    pool_simpl. rewrite index_get_insert. pool_simpl. rewrite decide_False; [done|].
    intros [-> ->]. congruence.
Qed.

(** What the caller of [add_tx] guarantees: the account state is that of the sender, and
    the nonce is not the last field element (it can be incremented). *)
Definition add_tx_pre (args : AddTransactionArgs) : Prop :=
  args.(add_tx_account_state).(as_address) = contract_address args.(add_tx_tx) ∧
  AccountTransaction_nonce args.(add_tx_tx) < felt_prime - 1.

Lemma get_or_insert_staged a n (s : MempoolState) :
  (State.get_or_insert a n s).2.(staged) = s.(staged) ∧
  ∀ sn, s.(staged) !! a = Some sn → (State.get_or_insert a n s).1 = sn.
Proof.
  unfold State.get_or_insert, or_else. destruct (staged s !! a) eqn:Hs; [naive_solver|].
  destruct (committed s !! a); naive_solver.
Qed.

(** The nonce of a known account is the stored one, unless the caller knows a later one. *)
Lemma get_or_insert_get (s : MempoolState) a n k :
  State.get s a = Some k → n ≤ k →
  (State.get_or_insert a n s).1 = k ∧ State.get (State.get_or_insert a n s).2 a = Some k.
Proof.
  unfold State.get, State.get_or_insert, or_else.
  destruct (staged s !! a) eqn:Hs; [by intros [= ->]; simpl; rewrite Hs|].
  destruct (committed s !! a) eqn:Hc; [by intros [= ->]; simpl; rewrite Hs, Hc|].
  intros Ht Hle. rewrite Ht. simpl. rewrite Hs, Hc, lookup_insert_eq.
  rewrite decide_False by lia. done.
Qed.

(** The last part of [add_tx]: the transaction enters the queue when its nonce is the
    account's. *)
Lemma enqueue_new_tx_spec m tx n :
  mempool_inv m →
  Index.get m.(mp_pool).(txs_by_account) (contract_address tx) (AccountTransaction_nonce tx) =
    Some (TransactionReference_new tx) →
  let '(stored, st) := State.get_or_insert (contract_address tx) n m.(mp_state) in
  wp_ok (modify (set_state st);;
         if decide (AccountTransaction_nonce tx = stored)
         then on_queue (Queue.remove (contract_address tx));;
              on_queue (Queue.insert (TransactionReference_new tx))
         else mret tt : MempoolM unit) m
    (λ _ m', mempool_inv m' ∧ m'.(mp_state) = st ∧ m'.(mp_pool) = m.(mp_pool) ∧
       m'.(mp_queue).(address_to_tx) =
         if decide (AccountTransaction_nonce tx = stored)
         then <[contract_address tx := TransactionReference_new tx]> m.(mp_queue).(address_to_tx)
         else m.(mp_queue).(address_to_tx)).
Proof.
  intros Hm Hi. pose proof (get_or_insert_staged (contract_address tx) n (mp_state m)) as [Hsg Hst].
  destruct (State.get_or_insert _ _ _) as [stored st]; simpl in *.
  apply wp_ok_bind, wp_ok_iff. eexists _, _. split; [done|].
  assert (mempool_inv (set_state st m)) as Hm' by (unfold mempool_inv; simpl; by rewrite Hsg).
  case_decide as Hn; [|by apply wp_ok_iff; eexists _, _].
  apply wp_ok_bind, wp_ok_zoom.
  eapply wp_ok_mono; [apply minv_queue_remove, Hm'|]. simpl. intros b q (Hq&_&Hmap&_).
  apply wp_ok_zoom. simpl. eapply wp_ok_mono; [apply minv_queue_insert; [exact Hq|..]|].
  - done.
  - rewrite Hmap. apply lookup_delete_eq.
  - rewrite Hsg. intros s Hs. simpl. rewrite Hn. symmetry. by apply Hst.
  - simpl. intros _ q' (Hq'&Hmap'&_). split_and!; [done..|].
    rewrite Hmap', Hmap. by rewrite insert_delete_eq.
Qed.

(** What an accepted transaction changes. *)
Record accepted (args : AddTransactionArgs) m m' : Prop := {
  acc_inv : mempool_inv m';
  acc_state : m'.(mp_state) =
    (State.get_or_insert (contract_address args.(add_tx_tx))
       args.(add_tx_account_state).(as_nonce) m.(mp_state)).2;
  (** It takes its slot in the pool. *)
  acc_pool : ∀ h tx', m'.(mp_pool).(tx_pool) !! h = Some tx' ↔
    (h = AccountTransaction_tx_hash args.(add_tx_tx) ∧ tx' = args.(add_tx_tx)) ∨
    (m.(mp_pool).(tx_pool) !! h = Some tx' ∧ tx_slot tx' ≠ tx_slot args.(add_tx_tx));
  (** It is queued when its nonce is the account's; then it is the only one of the account.
      Otherwise the queue keeps the account's transaction unless one was replaced. *)
  acc_queue : ∀ a, m'.(mp_queue).(address_to_tx) !! a =
    if decide (a = contract_address args.(add_tx_tx)) then
      if decide (AccountTransaction_nonce args.(add_tx_tx) =
        (State.get_or_insert (contract_address args.(add_tx_tx))
           args.(add_tx_account_state).(as_nonce) m.(mp_state)).1)
      then Some (TransactionReference_new args.(add_tx_tx))
      else if decide (tx_slot_free args.(add_tx_tx) m.(mp_pool))
      then m.(mp_queue).(address_to_tx) !! a else None
    else m.(mp_queue).(address_to_tx) !! a;
  acc_paid : ∀ r, Index.get m.(mp_pool).(txs_by_account) (contract_address args.(add_tx_tx))
      (AccountTransaction_nonce args.(add_tx_tx)) = Some r →
    outbids m.(config) r (TransactionReference_new args.(add_tx_tx));
}.

(** The three ways to be rejected. *)
Definition rejected (args : AddTransactionArgs) m (e : MempoolError) m' : Prop :=
  let tx := args.(add_tx_tx) in
  (m' = m ∧ e = NonceTooOld (contract_address tx) (AccountTransaction_nonce tx) ∧
   ∃ s, State.get m.(mp_state) (contract_address tx) = Some s ∧ AccountTransaction_nonce tx < s) ∨
  (m' = m ∧ e = DuplicateNonce (contract_address tx) (AccountTransaction_nonce tx) ∧
   ∃ r, Index.get m.(mp_pool).(txs_by_account) (contract_address tx)
          (AccountTransaction_nonce tx) = Some r ∧
        ¬ outbids m.(config) r (TransactionReference_new tx)) ∨
  (e = DuplicateTransaction (AccountTransaction_tx_hash tx) ∧ escalated tx m m' ∧
   ∃ tx', m.(mp_pool).(tx_pool) !! AccountTransaction_tx_hash tx = Some tx' ∧
          tx_slot tx' ≠ tx_slot tx).

Lemma validate_incoming_tx_cases (s : MempoolState) r :
  (State.validate_incoming_tx s r = Err (NonceTooOld r.(address) r.(nonce)) ∧
   ∃ e, State.get s r.(address) = Some e ∧ r.(nonce) < e) ∨
  (State.validate_incoming_tx s r = Ok tt ∧
   ∀ e, State.get s r.(address) = Some e → e ≤ r.(nonce)).
Proof.
  unfold State.validate_incoming_tx. destruct (State.get s (address r)); [|by right].
  case_decide; [by left; eauto|right]. split; [done|]. intros ? [= <-]. lia.
Qed.

Lemma state_get_staged (s : MempoolState) a e :
  s.(staged) !! a = Some e → State.get s a = Some e.
Proof. intros Hs. unfold State.get, or_else. by rewrite Hs. Qed.

Lemma add_tx_spec m args :
  mempool_inv m → add_tx_pre args →
  wp (add_tx args) m (λ res m',
    match res with
    | Ok _ => accepted args m m'
    | Err e => rejected args m e m'
    | Panic => False
    end).
Proof.
  intros Hm [Ha Hb]. destruct args as [tx [a n]]; simpl in *. subst a.
  unfold add_tx. cbn [add_tx_tx add_tx_account_state as_address as_nonce].
  apply wp_get_st.
  destruct (validate_incoming_tx_cases (mp_state m) (TransactionReference_new tx))
    as [[-> Hold]|[-> Hold]]; [apply wp_lift_Err; by left|]. apply wp_lift_Ok.
  apply wp_bind. eapply wp_mono.
  { apply fee_escalation_spec; [done|]. intros s Hs%state_get_staged. by apply Hold. }
  intros res m1. destruct res as [u|e|]; [|intros (->&->&?); by right; left|done].
  intros Hes. pose proof Hes as [Hm1 Hst _ Hfree Hpool Hqueue Hpaid].
  apply wp_bind. unfold on_pool. apply wp_zoom. unfold wp at 1.
  destruct (tx_pool (mp_pool m1) !! AccountTransaction_tx_hash tx) as [tx'|] eqn:Htx.
  { rewrite (pool_insert_dup _ _ _ Htx). cbn [fst snd]. right; right. apply Hpool in Htx.
    destruct m1. split_and!; [done..|by eauto]. }
  rewrite pool_insert_fresh by done. cbn [fst snd]. apply wp_get_st.
  pose proof (enqueue_new_tx_spec (set_pool (pool_after_insert tx (mp_pool m1)) m1) tx n) as He.
  cbn [set_pool mp_state mp_pool mp_queue] in *. rewrite Hst in *.
  destruct (State.get_or_insert _ _ _) as [stored st] eqn:Hgi.
  eapply wp_run_ok; [apply He|].
  - unfold mempool_inv; simpl. apply minv_pool_insert; try done.
  - pool_simpl. rewrite index_get_insert. pool_simpl. by rewrite decide_True.
  - cbn beta. intros u' m2 (Hm2&Hst2&Hp2&Hq2).
    split; cbn [add_tx_tx add_tx_account_state as_nonce]; rewrite ?Hgi; cbn [fst snd]; try done.
    + intros h tx'. rewrite Hp2. pool_simpl. rewrite lookup_insert_Some, Hpool. split.
      * intros [[<- <-]|[? ?]]; [by left|by right].
      * intros [[-> ->]|[Hh Hs]]; [by left|]. right. split; [|done]. intros <-.
        assert (tx_pool (mp_pool m1) !! AccountTransaction_tx_hash tx = Some tx') by (by apply Hpool).
        congruence.
    + intros a. rewrite Hq2. case_decide as Hn.
      * rewrite lookup_insert, Hqueue. repeat case_decide; try done; naive_solver.
      * rewrite Hqueue. repeat case_decide; try done; naive_solver.
Qed.

(** Whatever the outcome, the invariant and the staged nonces are kept. *)
Lemma add_tx_keeps m args :
  mempool_inv m → add_tx_pre args →
  wp (add_tx args) m (λ res m',
    res ≠ Panic ∧ mempool_inv m' ∧ m'.(mp_state).(staged) = m.(mp_state).(staged)).
Proof.
  intros Hm Hpre. eapply wp_mono; [by apply add_tx_spec|]. intros [u|e|] m'; [..|done].
  - intros Hacc. split_and!; [done|apply (acc_inv _ _ _ Hacc)|].
    rewrite (acc_state _ _ _ Hacc). apply get_or_insert_staged.
  - intros [(->&_)|[(->&_)|(_&Hes&_)]]; [done..|].
    split_and!; [done|apply (es_inv _ _ _ Hes)|by rewrite (es_state _ _ _ Hes)].
Qed.

(** ** [get_txs] *)

(** The effect of [stage] on the staged nonces: [None] when its assertion fails. *)
Definition stage_one (r : TransactionReference) (sg : gmap ContractAddress Nonce)
  : option (gmap ContractAddress Nonce) :=
  match sg !! r.(address) with
  | Some s => if decide (s = r.(nonce)) then Some (<[r.(address) := r.(nonce) + 1]> sg) else None
  | None => Some (<[r.(address) := r.(nonce) + 1]> sg)
  end.

Fixpoint stage_all (rs : list TransactionReference) (sg : gmap ContractAddress Nonce)
  : option (gmap ContractAddress Nonce) :=
  match rs with
  | [] => Some sg
  | r :: rs => sg' ← stage_one r sg; stage_all rs sg'
  end.

Lemma stage_all_app rs1 rs2 sg :
  stage_all (rs1 ++ rs2) sg = sg' ← stage_all rs1 sg; stage_all rs2 sg'.
Proof.
  revert sg. induction rs1 as [|r rs1 IH]; intros sg; simpl; [done|].
  destruct (stage_one r sg); simpl; [apply IH|done].
Qed.

Lemma stage_spec r (s : MempoolState) sg' :
  r.(nonce) < felt_prime - 1 → stage_one r s.(staged) = Some sg' →
  State.stage r s = (Ok tt, set_staged sg' s).
Proof.
  intros Hn. unfold stage_one, State.stage. rewrite try_increment_nonce_ok by done. mstep.
  destruct (staged s !! address r) as [e|]; [|by intros [= <-]].
  case_decide; [|done]. subst e. intros [= <-].
  rewrite try_increment_nonce_ok by done. mstep. by rewrite bool_decide_true.
Qed.

Lemma stage_for_spec rs m sg' :
  (∀ r, r ∈ rs → r.(nonce) < felt_prime - 1) → stage_all rs m.(mp_state).(staged) = Some sg' →
  mfor (λ r, on_state (State.stage r)) rs m = (Ok tt, set_state (set_staged sg' m.(mp_state)) m).
Proof.
  revert m. induction rs as [|r rs IH]; intros m Hn; cbn [mfor stage_all].
  { intros [= <-]. by destruct m as [? ? ? []]. }
  destruct (stage_one r (staged (mp_state m))) as [sg1|] eqn:H1; [|done]. simpl. intros Hall.
  erewrite bind_run; [|unfold on_state, zoom; by rewrite (stage_spec r _ sg1) by set_solver].
  rewrite IH; [by destruct m|set_solver|done].
Qed.

(** Staged nonces only grow, and pass the nonce of every staged transaction. *)
Lemma stage_one_mono r sg sg' a s :
  stage_one r sg = Some sg' → sg !! a = Some s → ∃ s', sg' !! a = Some s' ∧ s ≤ s'.
Proof.
  unfold stage_one. intros H1 Hs.
  destruct (sg !! address r) as [e|] eqn:He; [case_decide; [|done]|]; simplify_eq;
    rewrite lookup_insert; case_decide; subst; simplify_eq; eauto; eexists; split; eauto; lia.
Qed.

Lemma stage_one_at r sg sg' :
  stage_one r sg = Some sg' →
  sg' !! r.(address) = Some (r.(nonce) + 1) ∧ (∀ s, sg !! r.(address) = Some s → s = r.(nonce)).
Proof.
  unfold stage_one. intros H1.
  destruct (sg !! address r) as [e|] eqn:He; [case_decide; [|done]|]; simplify_eq;
    rewrite lookup_insert_eq; naive_solver.
Qed.

Lemma stage_all_mono rs sg sg' a s :
  stage_all rs sg = Some sg' → sg !! a = Some s → ∃ s', sg' !! a = Some s' ∧ s ≤ s'.
Proof.
  revert sg s. induction rs as [|r rs IH]; intros sg s; simpl; [naive_solver|].
  destruct (stage_one r sg) as [sg1|] eqn:H1; [|done]. simpl. intros Hall Hs.
  destruct (stage_one_mono _ _ _ _ _ H1 Hs) as (s1&Hs1&Hle).
  destruct (IH _ _ Hall Hs1) as (s'&?&?). exists s'. split; [done|lia].
Qed.

(** The slots [(account, nonce)] of transactions staged together are distinct, at or above
    the staged nonce before, and below it after. *)
Definition slot (r : TransactionReference) : ContractAddress * Nonce := (r.(address), r.(nonce)).

Lemma stage_all_slots rs sg sg' :
  stage_all rs sg = Some sg' →
  NoDup (slot <$> rs) ∧
  ∀ r, r ∈ rs → (∀ s, sg !! r.(address) = Some s → s ≤ r.(nonce)) ∧
    ∃ s', sg' !! r.(address) = Some s' ∧ r.(nonce) < s'.
Proof.
  revert sg. induction rs as [|r rs IH]; intros sg; simpl.
  { intros _. split; [constructor|set_solver]. }
  destruct (stage_one r sg) as [sg1|] eqn:H1; [|done]. simpl. intros Hall.
  destruct (IH _ Hall) as [Hnd Hin]. destruct (stage_one_at _ _ _ H1) as [Hr Hs].
  split.
  - constructor; [|done]. intros (r'&[= Ha Hn]&Hr')%list_elem_of_fmap.
    destruct (Hin r' Hr') as [Hle _]. rewrite <-Ha, <-Hn in Hle. specialize (Hle _ Hr). lia.
  - intros r' [->|Hr']%elem_of_cons.
    + split; [intros s Hsg; rewrite (Hs s Hsg); lia|].
      destruct (stage_all_mono _ _ _ _ _ Hall Hr) as (s'&?&?). exists s'. split; [done|lia].
    + destruct (Hin r' Hr') as [Hle Hlt]. split; [|done]. intros s Hsg.
      destruct (stage_one_mono _ _ _ _ _ H1 Hsg) as (s1&Hs1&?). specialize (Hle _ Hs1). lia.
Qed.

(** The fields of the mempool that popping and enqueueing leave alone. *)
Definition same_but_queue m m' : Prop :=
  m'.(mp_pool) = m.(mp_pool) ∧ m'.(mp_state) = m.(mp_state) ∧ m'.(config) = m.(config).

Lemma enqueue_one_spec m sg r :
  minv m.(mp_pool) m.(mp_queue) sg →
  Index.get m.(mp_pool).(txs_by_account) r.(address) r.(nonce) = Some r →
  m.(mp_queue).(address_to_tx) !! r.(address) = None →
  (∀ s, sg !! r.(address) = Some s → s = r.(nonce)) →
  wp_ok (enqueue_next_eligible_tx r) m (λ _ m',
    same_but_queue m m' ∧
    minv m.(mp_pool) m'.(mp_queue) (<[r.(address) := r.(nonce) + 1]> sg) ∧
    stage_one r sg = Some (<[r.(address) := r.(nonce) + 1]> sg) ∧
    ∀ a, a ≠ r.(address) →
      m'.(mp_queue).(address_to_tx) !! a = m.(mp_queue).(address_to_tx) !! a).
Proof.
  intros Hm Hr Hq Hs. pose proof (mi_nonce _ _ _ Hm _ _ _ Hr) as Hn.
  assert (stage_one r sg = Some (<[r.(address) := r.(nonce) + 1]> sg)) as Hstage.
  { unfold stage_one. destruct (sg !! address r) as [s|]; [|done].
    by rewrite decide_True by (by apply Hs). }
  assert (minv (mp_pool m) (mp_queue m) (<[address r := nonce r + 1]> sg)) as Hm'.
  { destruct Hm as [Hp Hqi Hqd Hb Hsq Hsp]. split; try done.
    - intros a s r'. rewrite lookup_insert. case_decide; [subst|eauto]. by rewrite Hq.
    - intros a s. rewrite lookup_insert. case_decide; [|eauto]. subst. intros [= <-].
      exists (nonce r), r. split; [lia|done]. }
  unfold enqueue_next_eligible_tx, Pool.get_next_eligible_tx, Pool.get_by_address_and_nonce.
  cbn [as_address as_nonce]. unfold wp_ok. apply wp_get_st. rewrite try_increment_nonce_ok by done.
  apply wp_lift_Ok.
  destruct (Index.get _ (address r) (nonce r + 1)) as [r'|] eqn:Hr'; [|done].
  destruct (pool_backed _ (mi_pool _ _ _ Hm) _ _ _ Hr') as (Ha'&Hn'&_).
  fold (wp_ok (on_queue (Queue.insert r')) m (λ _ m',
    same_but_queue m m' ∧
    minv m.(mp_pool) m'.(mp_queue) (<[r.(address) := r.(nonce) + 1]> sg) ∧
    stage_one r sg = Some (<[r.(address) := r.(nonce) + 1]> sg) ∧
    ∀ a, a ≠ r.(address) →
      m'.(mp_queue).(address_to_tx) !! a = m.(mp_queue).(address_to_tx) !! a)).
  apply wp_ok_zoom. eapply wp_ok_mono; [apply minv_queue_insert; [exact Hm'|..]|].
  - by rewrite Ha', Hn'.
  - by rewrite Ha'.
  - rewrite Ha', Hn'. intros s. rewrite lookup_insert_eq. by intros [= <-].
  - intros _ q' (Hq'&Hmap&_). simpl. split_and!; [done..|]. intros a Hne.
    rewrite Hmap. by rewrite lookup_insert_ne by congruence.
Qed.

Lemma enqueue_chunk_spec chunk m sg :
  minv m.(mp_pool) m.(mp_queue) sg → NoDup (address <$> chunk) →
  (∀ r, r ∈ chunk →
    Index.get m.(mp_pool).(txs_by_account) r.(address) r.(nonce) = Some r ∧
    m.(mp_queue).(address_to_tx) !! r.(address) = None ∧
    (∀ s, sg !! r.(address) = Some s → s = r.(nonce))) →
  wp_ok (enqueue_next_eligible_txs chunk) m (λ _ m', ∃ sg',
    same_but_queue m m' ∧ stage_all chunk sg = Some sg' ∧ minv m.(mp_pool) m'.(mp_queue) sg' ∧
    ∀ a, a ∉ (address <$> chunk) →
      m'.(mp_queue).(address_to_tx) !! a = m.(mp_queue).(address_to_tx) !! a).
Proof.
  unfold enqueue_next_eligible_txs. revert m sg.
  induction chunk as [|r chunk IH]; intros m sg Hm Hnd Hall; cbn [mfor].
  { apply wp_ok_iff. eexists _, _. split; [done|]. by exists sg. }
  apply NoDup_cons in Hnd as [Hr Hnd]. destruct (Hall r) as (H1&H2&H3); [set_solver|].
  apply wp_ok_bind. eapply wp_ok_mono; [by apply enqueue_one_spec|].
  intros _ m1 ((Hp&Hst&Hc)&Hm1&Hstage&Hother). simpl in *.
  rewrite <-Hp in Hm1. eapply wp_ok_mono; [apply (IH m1 _ Hm1 Hnd)|].
  - intros r' Hr'. rewrite Hp. destruct (Hall r') as (?&?&?); [set_solver|].
    assert (address r' ≠ address r) by (intros Heq; apply Hr; set_solver).
    rewrite Hother by done. rewrite lookup_insert_ne by done. done.
  - intros _ m2 (sg'&(Hp2&Hst2&Hc2)&Hall2&Hm2&Hq2). exists sg'. split_and!.
    + split_and!; congruence.
    + by rewrite Hstage.
    + by rewrite <-Hp.
    + intros a Ha. apply not_elem_of_cons in Ha as [Hne Hni].
      by rewrite Hq2, Hother.
Qed.

Lemma pop_chunk_spec p q sg n :
  minv p q sg →
  wp_ok (Queue.pop_ready_chunk n) q (λ chunk q',
    minv p q' sg ∧ chunk = take n (Queue.iter_over_ready_txs q) ∧ NoDup (address <$> chunk) ∧
    (∀ r, r ∈ chunk →
      Index.get p.(txs_by_account) r.(address) r.(nonce) = Some r ∧
      q'.(address_to_tx) !! r.(address) = None ∧
      (∀ s, sg !! r.(address) = Some s → s = r.(nonce)) ∧ is_Some (q.(address_to_tx) !! r.(address))) ∧
    ∀ a, is_Some (q'.(address_to_tx) !! a) → is_Some (q.(address_to_tx) !! a)).
Proof.
  intros Hm. pose proof (mi_queue _ _ _ Hm) as Hq.
  eapply wp_ok_mono; [by apply queue_pop_spec|].
  intros chunk q' (Hq'&->&_&Hmap&_). set (chunk := take n (Queue.iter_over_ready_txs q)) in *.
  assert (∀ r, r ∈ chunk → address_to_tx q !! address r = Some r) as Hin.
  { intros r Hr%elem_of_take. destruct Hr as (i&Hr&_).
    apply (list_elem_of_lookup_2 _ i) in Hr. unfold Queue.iter_over_ready_txs in Hr.
    by apply elem_of_reverse, (queue_priority q Hq) in Hr as [? _]. }
  assert (NoDup chunk).
  { unfold chunk, Queue.iter_over_ready_txs. eapply sublist_NoDup; [|apply sublist_take].
    rewrite reverse_Permutation. apply (BTreeSet.sorted_NoDup priority_key), (queue_priority_sorted q Hq). }
  split_and!; [|done|..].
  - apply (minv_queue_shrink p q); [done..|]. intros a r. rewrite Hmap. by case_decide.
  - apply NoDup_fmap_2_strong; [|done]. intros r1 r2 H1%Hin H2%Hin Heq.
    rewrite Heq, H2 in H1. by simplify_eq.
  - intros r Hr. split_and!.
    + by apply (mi_queued _ _ _ Hm), Hin.
    + rewrite Hmap, decide_True; [done|]. by apply list_elem_of_fmap_2.
    + intros s Hs. symmetry. by apply (mi_staged_queue _ _ _ Hm _ _ _ Hs), Hin.
    + by rewrite Hin.
  - intros a. rewrite Hmap. by case_decide.
Qed.

Lemma has_ready_txs_spec q : Queue.has_ready_txs q = true ↔ q.(priority_queue) ≠ [].
Proof. unfold Queue.has_ready_txs. rewrite negb_true_iff, bool_decide_eq_false. done. Qed.

Lemma get_txs_loop_spec fuel n acc m sg :
  minv m.(mp_pool) m.(mp_queue) sg → (n ≤ fuel)%nat →
  wp_ok (get_txs_loop fuel n acc) m (λ res m', ∃ new sg',
    res = acc ++ new ∧ same_but_queue m m' ∧ minv m.(mp_pool) m'.(mp_queue) sg' ∧
    stage_all new sg = Some sg' ∧
    (∀ r, r ∈ new → Index.get m.(mp_pool).(txs_by_account) r.(address) r.(nonce) = Some r) ∧
    (length new ≤ n)%nat ∧
    (length new = n ∨ Queue.has_ready_txs m'.(mp_queue) = false) ∧
    take n (Queue.iter_over_ready_txs m.(mp_queue)) `prefix_of` new ∧
    (∀ r, r ∈ new → is_Some (m.(mp_queue).(address_to_tx) !! r.(address)))).
Proof.
  revert n acc m sg. induction fuel as [|fuel IH]; intros n acc m sg Hm Hle;
    cbn [get_txs_loop]; (apply wp_ok_bind, wp_ok_iff; eexists _, _; split; [done|]).
  { assert (n = 0%nat) as -> by lia. simpl. exists [], sg. rewrite app_nil_r.
    split_and!; try done; [set_solver|by left|set_solver]. }
  destruct n as [|n]; simpl.
  { exists [], sg. rewrite app_nil_r. split_and!; try done; [set_solver|by left|set_solver]. }
  destruct (Queue.has_ready_txs (mp_queue m)) eqn:Hready; simpl.
  2: { exists [], sg. rewrite app_nil_r.
       split_and!; try done; [set_solver|simpl; lia|by right| |set_solver].
       unfold Queue.has_ready_txs in Hready. apply negb_false_iff, bool_decide_eq_true in Hready.
       unfold Queue.iter_over_ready_txs. by rewrite Hready. }
  apply wp_ok_bind, wp_ok_zoom. eapply wp_ok_mono; [by apply pop_chunk_spec|].
  intros chunk q1 (Hm1&Hchunk&Hnd&Hall&Hq1). apply wp_ok_bind.
  eapply wp_ok_mono; [apply (enqueue_chunk_spec chunk (set_queue q1 m) sg); naive_solver|].
  intros _ m2 (sg2&(Hp2&Hst2&Hc2)&Hstage&Hm2&Hq2). simpl in *.
  assert (1 ≤ length chunk ≤ S n)%nat as Hlen.
  { rewrite Hchunk. rewrite length_take. unfold Queue.iter_over_ready_txs.
    rewrite length_reverse. apply has_ready_txs_spec in Hready.
    destruct (priority_queue (mp_queue m)); simpl; [done|lia]. }
  rewrite <-Hp2 in Hm2. eapply wp_ok_mono; [apply (IH _ _ _ _ Hm2); lia|].
  intros res m3 (new&sg3&->&(Hp3&Hst3&Hc3)&Hm3&Hstage3&Hin3&Hlen3&Hfull3&_&Hq3).
  exists (chunk ++ new), sg3. rewrite Hp2 in *. split_and!.
  - by rewrite app_assoc.
  - split_and!; congruence.
  - done.
  - rewrite stage_all_app, Hstage. done.
  - intros r [Hr|Hr]%elem_of_app; [by apply Hall|by apply Hin3].
  - rewrite length_app. lia.
  - rewrite length_app. destruct Hfull3; [left; lia|by right].
  - rewrite Hchunk. by exists new.
  - intros r [Hr|Hr]%elem_of_app; [by apply Hall|].
    destruct (decide (address r ∈ (address <$> chunk))) as [(r'&->&Hr')%list_elem_of_fmap|Hni];
      [by apply Hall|]. apply Hq1. rewrite <-Hq2 by done. by apply Hq3.
Qed.

Lemma collect_txs_spec p rs m :
  pool_inv p →
  (∀ r, r ∈ rs → Index.get p.(txs_by_account) r.(address) r.(nonce) = Some r) →
  wp_ok (mcollect (λ r : TransactionReference,
      match Pool.get_by_tx_hash p r.(tx_hash) with Ok tx => mret tx | _ => panic end) rs
      : MempoolM (list AccountTransaction)) m
    (λ txs m', m' = m ∧ TransactionReference_new <$> txs = rs ∧
      ∀ tx, tx ∈ txs → p.(tx_pool) !! AccountTransaction_tx_hash tx = Some tx).
Proof.
  intros Hp. induction rs as [|r rs IH]; intros Hall; cbn [mcollect].
  { apply wp_ok_iff. eexists [], _. split_and!; try done. set_solver. }
  destruct (pool_backed _ Hp _ _ _ (Hall r ltac:(set_solver))) as (_&_&tx&Htx&Hnew).
  apply wp_ok_bind, wp_ok_iff. eexists tx, m. split.
  { unfold Pool.get_by_tx_hash. by rewrite Htx. }
  apply wp_ok_bind. eapply wp_ok_mono; [apply IH; set_solver|].
  intros txs m' (->&Hrs&Hin). apply wp_ok_iff. eexists _, m. split; [done|].
  split_and!; [done|by rewrite fmap_cons, Hnew, Hrs|].
  intros tx' [->|Htx']%elem_of_cons; [|by apply Hin]. by subst r.
Qed.

Lemma get_txs_spec n m :
  mempool_inv m →
  wp_ok (get_txs n) m (λ txs m',
    let rs := TransactionReference_new <$> txs in
    mempool_inv m' ∧ m'.(mp_pool) = m.(mp_pool) ∧
    stage_all rs m.(mp_state).(staged) = Some m'.(mp_state).(staged) ∧
    (∀ tx, tx ∈ txs → m.(mp_pool).(tx_pool) !! AccountTransaction_tx_hash tx = Some tx) ∧
    (length txs ≤ n)%nat ∧
    (length txs = n ∨ Queue.has_ready_txs m'.(mp_queue) = false) ∧
    take n (Queue.iter_over_ready_txs m.(mp_queue)) `prefix_of` rs ∧
    (∀ tx, tx ∈ txs → is_Some (m.(mp_queue).(address_to_tx) !! contract_address tx))).
Proof.
  intros Hm. unfold get_txs. apply wp_ok_bind.
  eapply wp_ok_mono; [apply (get_txs_loop_spec n n [] m _ Hm); lia|].
  intros rs m1 (new&sg'&->&(Hp&Hst&Hc)&Hm1&Hstage&Hin&Hlen&Hfull&Hpre&Hqd). simpl in *.
  apply wp_ok_bind, wp_ok_iff. eexists tt, _. split.
  { apply stage_for_spec; [|by rewrite Hst].
    intros r Hr. by eapply (mi_nonce _ _ _ Hm), Hin. }
  apply wp_ok_bind, wp_ok_iff. eexists _, _. split; [done|]. cbn [set_state mp_pool].
  rewrite Hp. eapply wp_ok_mono; [by apply collect_txs_spec; [apply (mi_pool _ _ _ Hm)|]|].
  intros txs m' (->&Hrs&Htxs). cbn zeta. rewrite Hrs. simpl.
  assert (length txs = length new) as Hl by (rewrite <-Hrs; by rewrite length_fmap).
  rewrite Hl. split_and!; try done; [unfold mempool_inv; simpl; by rewrite Hp|].
  intros tx Htx. apply (Hqd (TransactionReference_new tx)). rewrite <-Hrs. by apply list_elem_of_fmap_2.
Qed.

(** ** [commit_block] *)

Lemma minv_unstage p q sg : minv p q sg → minv p q ∅.
Proof. intros []. split; try done. Qed.

Lemma minv_remove_up_to p q a n :
  minv p q ∅ → (∀ r, q.(address_to_tx) !! a = Some r → n ≤ r.(nonce)) →
  wp_ok (Pool.remove_up_to_nonce a n) p (λ _ p',
    minv p' q ∅ ∧
    (∀ a' n', Index.get p'.(txs_by_account) a' n' =
       if decide (a' = a ∧ n' < n) then None else Index.get p.(txs_by_account) a' n') ∧
    (∀ h tx, p'.(tx_pool) !! h = Some tx ↔
       p.(tx_pool) !! h = Some tx ∧
       ¬ (contract_address tx = a ∧ AccountTransaction_nonce tx < n))).
Proof.
  intros Hm Hq. eapply wp_ok_mono; [apply pool_remove_up_to, (mi_pool _ _ _ Hm)|].
  intros _ p' (Hp'&Hget&Hpool). split_and!; [|done..]. destruct Hm as [Hp Hqi Hqd Hb Hsq Hsp].
  split; try done.
  - intros a' r Hr. rewrite Hget, decide_False; [by apply Hqd|]. intros [-> Hlt].
    specialize (Hq r Hr). lia.
  - intros a' n' r. rewrite Hget. case_decide; [done|]. apply Hb.
Qed.

(** What aligning one account does. *)
Definition aligned (a : ContractAddress) (n : Nonce) m m' : Prop :=
  m'.(mp_state) = m.(mp_state) ∧
  (∀ a' n', Index.get m'.(mp_pool).(txs_by_account) a' n' =
     if decide (a' = a ∧ n' < n) then None else Index.get m.(mp_pool).(txs_by_account) a' n') ∧
  (∀ h tx, m'.(mp_pool).(tx_pool) !! h = Some tx ↔
     m.(mp_pool).(tx_pool) !! h = Some tx ∧
     ¬ (contract_address tx = a ∧ AccountTransaction_nonce tx < n)) ∧
  (∀ a', m'.(mp_queue).(address_to_tx) !! a' =
     if decide (a' = a) then Index.get m.(mp_pool).(txs_by_account) a n
     else m.(mp_queue).(address_to_tx) !! a').

(** Dropping the queued transaction of [a] unless its nonce is [n]. *)
Lemma drop_stale_spec m a n :
  minv m.(mp_pool) m.(mp_queue) ∅ →
  wp_ok (match Queue.get_nonce m.(mp_queue) a with
         | Some queued_nonce =>
             if decide (queued_nonce ≠ n)
             then removed ← on_queue (Queue.remove a); assert_ removed
             else mret tt
         | None => mret tt
         end : MempoolM unit) m
    (λ _ m', same_but_queue m m' ∧ minv m.(mp_pool) m'.(mp_queue) ∅ ∧
       (∀ r, m'.(mp_queue).(address_to_tx) !! a = Some r →
          m.(mp_queue).(address_to_tx) !! a = Some r ∧ r.(nonce) = n) ∧
       (∀ a', a' ≠ a →
          m'.(mp_queue).(address_to_tx) !! a' = m.(mp_queue).(address_to_tx) !! a')).
Proof.
  intros Hm. unfold Queue.get_nonce.
  destruct (address_to_tx (mp_queue m) !! a) as [r|] eqn:Hr; simpl.
  2: { apply wp_ok_iff. eexists _, _. split; [done|]. split_and!; try done. congruence. }
  case_decide as Hn.
  - apply wp_ok_bind, wp_ok_zoom. eapply wp_ok_mono; [by apply minv_queue_remove|].
    intros b q' (Hm'&->&Hmap&_). rewrite Hr, bool_decide_true by eauto.
    apply wp_ok_iff. eexists _, _. split; [done|]. simpl. split_and!; try done.
    + rewrite Hmap, lookup_delete_eq. done.
    + intros a' Hne. by rewrite Hmap, lookup_delete_ne.
  - apply wp_ok_iff. eexists _, _. split; [done|]. split_and!; try done.
    rewrite Hr. intros r' [= <-]. done.
Qed.

Lemma align_account_spec m a n :
  minv m.(mp_pool) m.(mp_queue) ∅ →
  (∀ c, m.(mp_state).(committed) !! a = Some c → c ≤ n) →
  wp_ok (align_account a n) m (λ _ m', minv m'.(mp_pool) m'.(mp_queue) ∅ ∧ aligned a n m m').
Proof.
  intros Hm Hc. unfold align_account. apply wp_ok_bind, wp_ok_iff. eexists _, _. split; [done|].
  apply wp_ok_bind, wp_ok_iff. exists tt, m. split.
  { unfold State.validate_commitment, lift_result. destruct (committed (mp_state m) !! a); [|done].
    by rewrite decide_True by auto. }
  apply wp_ok_bind. eapply wp_ok_mono; [by apply drop_stale_spec|].
  intros _ m1 ((Hp1&Hst1&_)&Hm1&Hkept&Hother). rewrite <-Hp1 in Hm1.
  apply wp_ok_bind, wp_ok_zoom. eapply wp_ok_mono; [apply minv_remove_up_to; [exact Hm1|]|].
  { intros r Hr. destruct (Hkept r Hr) as [_ ->]. lia. }
  intros _ p2 (Hm2&Hget2&Hpool2). rewrite Hp1 in *.
  apply wp_ok_bind, wp_ok_iff. eexists _, _. split; [done|]. cbn [set_pool mp_queue mp_pool].
  unfold Queue.get_nonce, Pool.get_by_address_and_nonce.
  assert (Index.get (txs_by_account p2) a n = Index.get (txs_by_account (mp_pool m)) a n) as Hslot.
  { rewrite Hget2, decide_False; [done|]. intros [_ ?]. lia. }
  destruct (address_to_tx (mp_queue m1) !! a) as [r|] eqn:Hr; simpl.
  { apply wp_ok_iff. eexists _, _. split; [done|]. simpl. split; [done|].
    split_and!; [done..|]. intros a'; simpl. case_decide as Ha; [|by apply Hother]. subst a'.
    rewrite Hr. destruct (Hkept r eq_refl) as [Hr0 <-]. symmetry. by apply (mi_queued _ _ _ Hm). }
  destruct (Index.get (txs_by_account p2) a n) as [r|] eqn:Hr2.
  - destruct (pool_backed _ (mi_pool _ _ _ Hm2) _ _ _ Hr2) as (Ha&Hn&_).
    apply wp_ok_zoom. cbn [set_pool mp_queue mp_pool].
    eapply wp_ok_mono; [apply minv_queue_insert; [exact Hm2|..]|]; simpl.
    + by rewrite Ha, Hn.
    + by rewrite Ha.
    + intros s. by rewrite lookup_empty.
    + intros _ q' (Hm'&Hmap&_). split; [done|]. split_and!; [done..|]. simpl. intros a'.
      rewrite Hmap, lookup_insert, Ha. repeat case_decide; try congruence. by apply Hother.
  - apply wp_ok_iff. eexists _, _. split; [done|]. simpl. split; [done|].
    split_and!; [done..|]. intros a'; simpl. case_decide as Ha; [|by apply Hother].
    subst. by rewrite Hr, <-Hslot.
Qed.

(** What aligning the accounts of [dm] does. *)
Definition aligned_all (dm : gmap ContractAddress Nonce) m m' : Prop :=
  m'.(mp_state) = m.(mp_state) ∧
  (∀ a n', Index.get m'.(mp_pool).(txs_by_account) a n' =
     match dm !! a with
     | Some n => if decide (n' < n) then None else Index.get m.(mp_pool).(txs_by_account) a n'
     | None => Index.get m.(mp_pool).(txs_by_account) a n'
     end) ∧
  (∀ h tx, m'.(mp_pool).(tx_pool) !! h = Some tx ↔
     m.(mp_pool).(tx_pool) !! h = Some tx ∧
     ∀ n, dm !! contract_address tx = Some n → n ≤ AccountTransaction_nonce tx) ∧
  (∀ a, m'.(mp_queue).(address_to_tx) !! a =
     match dm !! a with
     | Some n => Index.get m.(mp_pool).(txs_by_account) a n
     | None => m.(mp_queue).(address_to_tx) !! a
     end).

Lemma aligned_all_nil m : aligned_all ∅ m m.
Proof.
  split_and!; [done|..]; intros *; rewrite ?lookup_empty; try done.
  split; [|by intros [? _]]. intros ?. split; [done|]. by intros n Hn.
Qed.

Lemma aligned_all_cons dm a n m m1 m2 :
  dm !! a = None → aligned a n m m1 → aligned_all dm m1 m2 → aligned_all (<[a := n]> dm) m m2.
Proof.
  intros Ha (Hst1&Hget1&Hpool1&Hq1) (Hst2&Hget2&Hpool2&Hq2). split_and!.
  - congruence.
  - intros a' n'. rewrite Hget2, Hget1, lookup_insert. destruct (decide (a = a')) as [<-|Hne].
    + rewrite Ha. repeat case_decide; naive_solver.
    + rewrite decide_False by (intros [? _]; congruence). done.
  - intros h tx. rewrite Hpool2, Hpool1, lookup_insert.
    destruct (decide (a = contract_address tx)) as [Hd|Hd].
    + rewrite <-Hd, Ha. split.
      * intros [[? Hno] _]. split; [done|]. intros ? [= <-]. apply N.nlt_ge. by intros ?; apply Hno.
      * intros [? Hle]. split; [split; [done|]|done]. intros [_ Hlt]. specialize (Hle n eq_refl). lia.
    + split; [by intros [[? _] ?]|]. intros [? ?]. split; [|done]. split; [done|].
      by intros [<- _].
  - intros a'. rewrite Hq2, Hq1, lookup_insert. destruct (decide (a = a')) as [<-|Hne].
    + rewrite Ha. by rewrite decide_True.
    + destruct (dm !! a') eqn:E.
      * rewrite Hget1, decide_False by (intros [? _]; congruence). done.
      * by rewrite decide_False by congruence.
Qed.

Lemma align_all_spec entries m :
  minv m.(mp_pool) m.(mp_queue) ∅ → NoDup entries.*1 →
  (∀ a n c, (a, n) ∈ entries → m.(mp_state).(committed) !! a = Some c → c ≤ n) →
  wp_ok (mfor (λ '(a, next_nonce), align_account a next_nonce) entries) m (λ _ m',
    minv m'.(mp_pool) m'.(mp_queue) ∅ ∧ aligned_all (list_to_map entries) m m').
Proof.
  revert m. induction entries as [|[a n] entries IH]; intros m Hm Hnd Hc; cbn [mfor].
  { apply wp_ok_iff. eexists _, _. split; [done|]. split; [done|apply aligned_all_nil]. }
  apply NoDup_cons in Hnd as [Ha Hnd]. apply wp_ok_bind.
  eapply wp_ok_mono; [apply align_account_spec; [done|]|].
  { intros c Hcm. apply (Hc a n c); [set_solver|done]. }
  intros _ m1 (Hm1&Hal). eapply wp_ok_mono; [apply (IH m1 Hm1 Hnd)|].
  - intros a' n' c Hin Hcm. destruct Hal as (Hst&_). rewrite Hst in Hcm.
    apply (Hc a' n'); [set_solver|done].
  - intros _ m2 (Hm2&Hal2). split; [done|]. simpl.
    eapply aligned_all_cons; [|exact Hal|exact Hal2]. by apply not_elem_of_list_to_map_1.
Qed.

(** *** Rewinding *)

Definition lowest_tx p (a : ContractAddress) : option TransactionReference :=
  head (Pool.account_txs_sorted_by_nonce p a).

Lemma lowest_tx_Some p a r :
  pool_inv p → lowest_tx p a = Some r →
  Index.get p.(txs_by_account) a r.(nonce) = Some r ∧
  ∀ n r', Index.get p.(txs_by_account) a n = Some r' → r.(nonce) ≤ n.
Proof.
  unfold lowest_tx, Pool.account_txs_sorted_by_nonce, Index.account_txs_sorted_by_nonce.
  intros Hp. destruct (txs_by_account p !! a) as [mm|] eqn:Hmm; [|done].
  unfold BTreeMap.values. destruct (BTreeMap.iter mm) as [|[k v] l] eqn:Hi; [done|].
  simpl. intros [= ->]. apply BTreeMap.iter_head in Hi as [Hk Hmin].
  assert (Index.get (txs_by_account p) a k = Some r) as Hr.
  { unfold Index.get. by rewrite Hmm. }
  pose proof (pool_backed _ Hp _ _ _ Hr) as (_&Hn&_). rewrite Hn. split; [done|].
  intros n r' Hr'. unfold Index.get in Hr'. rewrite Hmm in Hr'. by eapply Hmin.
Qed.

Lemma lowest_tx_exists p a n r :
  Index.get p.(txs_by_account) a n = Some r → is_Some (lowest_tx p a).
Proof.
  unfold lowest_tx, Pool.account_txs_sorted_by_nonce, Index.account_txs_sorted_by_nonce, Index.get.
  destruct (txs_by_account p !! a) as [mm|]; [|done]. simpl. intros Hn.
  unfold BTreeMap.values. destruct (BTreeMap.iter mm) as [|[k v] l] eqn:Hi; [|by eexists].
  apply BTreeMap.iter_nil in Hi. subst. by rewrite lookup_empty in Hn.
Qed.

Lemma rewind_account_spec m a :
  minv m.(mp_pool) m.(mp_queue) ∅ → is_Some (lowest_tx m.(mp_pool) a) →
  wp_ok (rewind_account a) m (λ _ m',
    minv m'.(mp_pool) m'.(mp_queue) ∅ ∧ same_but_queue m m' ∧
    ∀ a', m'.(mp_queue).(address_to_tx) !! a' =
      if decide (a' = a) then lowest_tx m.(mp_pool) a else m.(mp_queue).(address_to_tx) !! a').
Proof.
  intros Hm [r Hr]. destruct (lowest_tx_Some _ _ _ (mi_pool _ _ _ Hm) Hr) as [Hslot _].
  destruct (pool_backed _ (mi_pool _ _ _ Hm) _ _ _ Hslot) as (Ha&_&_).
  unfold rewind_account. apply wp_ok_bind, wp_ok_iff. eexists _, _. split; [done|].
  apply wp_ok_bind, wp_ok_iff. exists r, m. split; [unfold lowest_tx in Hr; by rewrite Hr|].
  apply wp_ok_bind, wp_ok_zoom. eapply wp_ok_mono; [by apply minv_queue_remove|].
  intros b q (Hm1&_&Hmap&_). apply wp_ok_zoom. simpl.
  eapply wp_ok_mono; [apply minv_queue_insert; [exact Hm1|..]|].
  - by rewrite Ha.
  - rewrite Hmap, Ha. apply lookup_delete_eq.
  - intros s. by rewrite lookup_empty.
  - intros _ q' (Hm'&Hmap'&_). simpl. split_and!; [done..|]. intros a'.
    rewrite Hmap', Hmap, Hr, Ha, lookup_insert, lookup_delete. by repeat case_decide.
Qed.

Lemma rewind_all_spec rw m :
  minv m.(mp_pool) m.(mp_queue) ∅ → (∀ a, a ∈ rw → is_Some (lowest_tx m.(mp_pool) a)) →
  wp_ok (mfor rewind_account rw) m (λ _ m',
    minv m'.(mp_pool) m'.(mp_queue) ∅ ∧ same_but_queue m m' ∧
    ∀ a, m'.(mp_queue).(address_to_tx) !! a =
      if decide (a ∈ rw) then lowest_tx m.(mp_pool) a else m.(mp_queue).(address_to_tx) !! a).
Proof.
  revert m. induction rw as [|a rw IH]; intros m Hm Hall; cbn [mfor].
  { apply wp_ok_iff. eexists _, _. split; [done|]. split_and!; [done..|]. intros a.
    by rewrite decide_False by set_solver. }
  apply wp_ok_bind. eapply wp_ok_mono; [apply rewind_account_spec; [done|set_solver]|].
  intros _ m1 (Hm1&(Hp1&Hs1&Hc1)&Hq1). eapply wp_ok_mono; [apply (IH m1 Hm1)|].
  { rewrite Hp1. set_solver. }
  intros _ m2 (Hm2&(Hp2&Hs2&Hc2)&Hq2). split_and!; [done|split_and!; congruence|].
  intros a'. rewrite Hq2, Hq1, Hp1. repeat case_decide; subst; set_solver.
Qed.

(** *** The whole commit *)

(** What the caller of [commit_block] guarantees: committed nonces do not decrease (the
    source panics with [NOT SUPPORTED YET] otherwise), and the nonce of every known
    transaction of the block is below the committed nonce of its account. *)
Definition commit_pre m (args : CommitBlockArgs) : Prop :=
  (∀ a n c, args.(address_to_nonce) !! a = Some n → m.(mp_state).(committed) !! a = Some c →
     c ≤ n) ∧
  (∀ h tx, h ∈ args.(tx_hashes) → m.(mp_pool).(tx_pool) !! h = Some tx →
     ∃ n, args.(address_to_nonce) !! contract_address tx = Some n ∧
          AccountTransaction_nonce tx < n).

(** What [commit_block] does. *)
Record commit_effect m (args : CommitBlockArgs) m' : Prop := {
  ce_committed : m'.(mp_state).(committed) = args.(address_to_nonce) ∪ m.(mp_state).(committed);
  ce_staged : m'.(mp_state).(staged) = ∅;
  ce_tentative : m'.(mp_state).(tentative) =
    filter (λ kv, args.(address_to_nonce) !! kv.1 = None) m.(mp_state).(tentative);
  ce_pool : ∀ h tx, m'.(mp_pool).(tx_pool) !! h = Some tx ↔
    m.(mp_pool).(tx_pool) !! h = Some tx ∧
    ∀ n, args.(address_to_nonce) !! contract_address tx = Some n →
      n ≤ AccountTransaction_nonce tx;
  ce_queue : ∀ a, m'.(mp_queue).(address_to_tx) !! a =
    match args.(address_to_nonce) !! a with
    | Some n => Index.get m.(mp_pool).(txs_by_account) a n
    | None =>
        match m.(mp_state).(staged) !! a with
        | Some _ => lowest_tx m.(mp_pool) a
        | None => m.(mp_queue).(address_to_tx) !! a
        end
    end;
}.

(** Hashes unknown to the pool are skipped. *)
Lemma remove_unknown_spec hs m :
  (∀ h, h ∈ hs → m.(mp_pool).(tx_pool) !! h = None) →
  mfor remove_committed hs m = (Ok tt, m).
Proof.
  induction hs as [|h hs IH]; intros Hh; cbn [mfor]; [done|].
  erewrite bind_run; [apply IH; set_solver|].
  unfold remove_committed, on_pool, zoom, ignore_err.
  rewrite pool_remove_unknown by set_solver. by destruct m.
Qed.

Lemma lowest_tx_ext p p' a :
  pool_inv p → pool_inv p' →
  (∀ n, Index.get p.(txs_by_account) a n = Index.get p'.(txs_by_account) a n) →
  lowest_tx p a = lowest_tx p' a.
Proof.
  intros Hp Hp' Heq.
  destruct (lowest_tx p a) as [r|] eqn:Hr.
  - destruct (lowest_tx_Some _ _ _ Hp Hr) as [Hs Hmin].
    rewrite Heq in Hs. destruct (lowest_tx_exists _ _ _ _ Hs) as [r' Hr'].
    destruct (lowest_tx_Some _ _ _ Hp' Hr') as [Hs' Hmin'].
    assert (nonce r = nonce r') as Hn.
    { apply N.le_antisymm; [|by eapply Hmin']. eapply Hmin. by rewrite Heq. }
    rewrite Hr'. f_equal. rewrite Hn in Hs. congruence.
  - destruct (lowest_tx p' a) as [r'|] eqn:Hr'; [|done].
    destruct (lowest_tx_Some _ _ _ Hp' Hr') as [Hs _]. rewrite <-Heq in Hs.
    destruct (lowest_tx_exists _ _ _ _ Hs) as [? H]. congruence.
Qed.

Lemma commit_block_spec `{HashOrder} m args :
  mempool_inv m → commit_pre m args →
  wp_ok (commit_block args) m (λ _ m', mempool_inv m' ∧ commit_effect m args m').
Proof.
  intros Hm [Hmono Hhashes]. unfold commit_block. apply wp_ok_bind.
  assert (list_to_map (hash_iter (address_to_nonce args)) = address_to_nonce args) as Hdm.
  { rewrite <-(list_to_map_to_list (address_to_nonce args)) at 2.
    apply list_to_map_proper; [apply NoDup_hash_keys|apply hash_iter_perm]. }
  eapply wp_ok_mono; [apply align_all_spec; [by eapply minv_unstage|apply NoDup_hash_keys|]|].
  { intros a n c Hin%elem_of_hash_iter. by apply Hmono. }
  intros _ m1 (Hm1&Hst1&Hget1&Hpool1&Hq1). rewrite Hdm in *.
  apply wp_ok_bind, wp_ok_iff. eexists _, _. split; [done|]. unfold State.commit.
  apply wp_ok_bind, wp_ok_iff. eexists _, _. split; [done|].
  set (st := {| committed := _ |}). set (rw := filter _ _).
  assert (∀ a, a ∈ rw ↔ address_to_nonce args !! a = None ∧ is_Some (staged (mp_state m) !! a))
    as Hrw.
  { intros a. unfold rw. by rewrite list_elem_of_filter, elem_of_hash_keys, Hst1. }
  assert (∀ a, address_to_nonce args !! a = None →
    lowest_tx (mp_pool m1) a = lowest_tx (mp_pool m) a) as Hlow.
  { intros a Ha. apply lowest_tx_ext; [apply (mi_pool _ _ _ Hm1)|apply (mi_pool _ _ _ Hm)|].
    intros n. by rewrite Hget1, Ha. }
  apply wp_ok_bind. eapply wp_ok_mono; [apply (rewind_all_spec rw (set_state st m1))|]; [done|..].
  { intros a [Ha [s Hs]]%Hrw. simpl. rewrite Hlow by done.
    destruct (mi_staged_pool _ _ _ Hm a s Hs) as (n&r&_&Hr). by eapply lowest_tx_exists. }
  intros _ m2 (Hm2&(Hp2&Hs2&_)&Hq2). simpl in *.
  apply wp_ok_iff. exists tt, m2. split.
  { apply remove_unknown_spec. intros h Hh%elem_of_hash_keys. rewrite Hp2.
    destruct Hh as [? Hh%lookup_gset_to_gmap_Some].
    destruct Hh as [Hh _]. destruct (tx_pool (mp_pool m1) !! h) as [tx|] eqn:Htx; [|done].
    apply Hpool1 in Htx as [Htx Hle]. destruct (Hhashes h tx Hh Htx) as (n&Hn&Hlt).
    specialize (Hle n Hn). lia. }
  split; [unfold mempool_inv; by rewrite Hs2|]. split; rewrite ?Hs2; simpl; rewrite ?Hst1; try done.
  - intros h tx. rewrite Hp2. apply Hpool1.
  - intros a. rewrite Hq2, Hq1. destruct (address_to_nonce args !! a) as [n|] eqn:Ha.
    + rewrite decide_False; [done|]. rewrite Hrw. naive_solver.
    + destruct (staged (mp_state m) !! a) as [s|] eqn:Hs.
      * rewrite decide_True by (apply Hrw; eauto). by apply Hlow.
      * rewrite decide_False; [done|]. rewrite Hrw. intros [_ [??]]. congruence.
Qed.
