(* ===== verification/MempoolTheorems.v ===== *)
(** The theorems about the mempool: safety of every sequence of calls, uniqueness of the
    transactions it proposes, and the effect of each entry point. *)

From S2P Require Import Prelude StarknetApi Collections TransactionPool TransactionQueue Mempool MempoolProofs.

(** ** Sequences of calls *)

Inductive mempool_op :=
| OpAddTx (args : AddTransactionArgs)
| OpGetTxs (n : nat)
| OpCommitBlock (args : CommitBlockArgs)
| OpUpdateThreshold (t : GasPrice).

Definition run_op `{HashOrder} (op : mempool_op) : M Mempool MempoolError (list AccountTransaction) :=
  match op with
  | OpAddTx args => add_tx args;; mret []
  | OpGetTxs n => get_txs n
  | OpCommitBlock args => commit_block args;; mret []
  | OpUpdateThreshold t => update_gas_price_threshold t;; mret []
  end.

Definition op_pre (m : Mempool) (op : mempool_op) : Prop :=
  match op with
  | OpAddTx args => add_tx_pre args
  | OpGetTxs _ | OpUpdateThreshold _ => True
  | OpCommitBlock args => commit_pre m args
  end.

Definition mempool_new (c : MempoolConfig) : Mempool := {|
  config := c; mp_pool := TransactionPool_default; mp_queue := TransactionQueue_default;
  mp_state := MempoolState_default |}.

Inductive reachable `{HashOrder} : Mempool → Prop :=
| reachable_new c : reachable (mempool_new c)
| reachable_step m op : reachable m → op_pre m op → reachable (run_op op m).2.

Lemma mempool_new_inv c : mempool_inv (mempool_new c).
Proof. apply mempool_inv_default. Qed.

Lemma update_threshold_op m t :
  mempool_inv m →
  mempool_inv (update_gas_price_threshold t m).2 ∧
  (update_gas_price_threshold t m).2.(mp_state) = m.(mp_state).
Proof.
  intros Hm. split; [|done]. unfold mempool_inv; simpl.
  destruct (update_threshold_spec (mp_queue m) t (mi_queue _ _ _ Hm)) as (Hq&Hmap&_).
  apply (minv_queue_shrink _ (mp_queue m)); [done..|]. by rewrite Hmap.
Qed.

Lemma run_op_safe `{HashOrder} m op :
  mempool_inv m → op_pre m op →
  wp (run_op op) m (λ res m', res ≠ Panic ∧ mempool_inv m').
Proof.
  intros Hm Hpre. destruct op as [args|n|args|t]; simpl in *.
  - apply wp_bind. eapply wp_mono; [by apply add_tx_keeps|].
    intros [] m'; try naive_solver. intros (_&?&_). done.
  - eapply wp_run_ok; [by apply get_txs_spec|]. simpl. intros txs m' [? _]. done.
  - eapply wp_bind_ok; [by apply commit_block_spec|]. simpl. intros _ m' [? _]. done.
  - apply wp_modify. split; [done|]. by apply update_threshold_op.
Qed.

Lemma reachable_inv `{HashOrder} m : reachable m → mempool_inv m.
Proof.
  induction 1 as [c|m op Hr IH Hpre]; [apply mempool_new_inv|].
  apply (run_op_safe m op IH Hpre).
Qed.

(** The transactions handed out by a sequence of calls. *)
Fixpoint proposals `{HashOrder} (ops : list mempool_op) (m : Mempool) : list AccountTransaction :=
  match ops with
  | [] => []
  | op :: ops =>
      match run_op op m with
      | (Ok txs, m') => txs ++ proposals ops m'
      | (_, m') => proposals ops m'
      end
  end.

Fixpoint ops_pre `{HashOrder} (ops : list mempool_op) (m : Mempool) : Prop :=
  match ops with
  | [] => True
  | op :: ops => op_pre m op ∧ ops_pre ops (run_op op m).2
  end.

Definition is_commit (op : mempool_op) : bool :=
  match op with OpCommitBlock _ => true | _ => false end.

Lemma slots_of_refs (txs : list AccountTransaction) : slot <$> (TransactionReference_new <$> txs) = tx_slot <$> txs.
Proof. by rewrite <-list_fmap_compose. Qed.

(** Before the next commit, an operation hands out distinct slots between the staged nonces
    before and after it. *)
Lemma run_op_slots `{HashOrder} m op :
  mempool_inv m → op_pre m op → is_commit op = false →
  wp (run_op op) m (λ res m',
    mempool_inv m' ∧
    (∀ a s, m.(mp_state).(staged) !! a = Some s →
       ∃ s', m'.(mp_state).(staged) !! a = Some s' ∧ s ≤ s') ∧
    match res with
    | Ok txs => NoDup (tx_slot <$> txs) ∧
        ∀ tx, tx ∈ txs →
          (∀ s, m.(mp_state).(staged) !! contract_address tx = Some s →
             s ≤ AccountTransaction_nonce tx) ∧
          ∃ s', m'.(mp_state).(staged) !! contract_address tx = Some s' ∧
            AccountTransaction_nonce tx < s'
    | _ => True
    end).
Proof.
  assert (∀ sg : gmap N N, ∀ a s, sg !! a = Some s → ∃ s', sg !! a = Some s' ∧ s ≤ s') as Hrefl.
  { intros sg a s Hs. exists s. split; [done|lia]. }
  intros Hm Hpre Hnc. destruct op as [args|n|args|t]; simpl in *; [| |done|].
  - apply wp_bind. eapply wp_mono; [by apply add_tx_keeps|].
    intros res m' (_&Hm'&Hs). destruct res as [[]|e|]; [unfold wp; simpl|..];
      (split_and!; [done|rewrite Hs; apply Hrefl|..]); try done; [constructor|set_solver].
  - eapply wp_run_ok; [by apply get_txs_spec|]. simpl. intros txs m' (Hm'&_&Hstage&_).
    split_and!; [done|intros a s; by apply stage_all_mono with (1 := Hstage)|..];
      apply stage_all_slots in Hstage as [Hnd Hin]; [by rewrite slots_of_refs in Hnd|].
    intros tx Htx. apply (Hin (TransactionReference_new tx)). by apply list_elem_of_fmap_2.
  - apply wp_modify. destruct (update_threshold_op m t Hm) as [? _]. unfold wp; simpl.
    split_and!; [done|apply Hrefl|constructor|set_solver].
Qed.

Lemma proposals_above_staged `{HashOrder} ops m :
  mempool_inv m → ops_pre ops m → forallb (λ op, negb (is_commit op)) ops = true →
  NoDup (tx_slot <$> proposals ops m) ∧
  ∀ tx, tx ∈ proposals ops m →
    ∀ s, m.(mp_state).(staged) !! contract_address tx = Some s → s ≤ AccountTransaction_nonce tx.
Proof.
  revert m. induction ops as [|op ops IH]; intros m Hm; cbn [ops_pre proposals forallb].
  { intros _ _. split; [constructor|set_solver]. }
  intros [Hpre Hpres] [Hnc%negb_true_iff Hncs]%andb_true_iff.
  pose proof (run_op_slots m op Hm Hpre Hnc) as Hrun. unfold wp in Hrun.
  destruct (run_op op m) as [res m'] eqn:Hop. cbn [fst snd] in *.
  destruct Hrun as (Hm'&Hmono&Htxs). destruct (IH m' Hm' Hpres Hncs) as [Hnd Hin].
  assert (∀ tx, tx ∈ proposals ops m' → ∀ s,
    m.(mp_state).(staged) !! contract_address tx = Some s → s ≤ AccountTransaction_nonce tx) as Hlater.
  { intros tx Htx s Hs. destruct (Hmono _ _ Hs) as (s'&Hs'&Hle).
    specialize (Hin tx Htx s' Hs'). lia. }
  destruct res as [txs| |]; [|by split..]. destruct Htxs as [Hnd1 Hin1]. split.
  - rewrite fmap_app. apply NoDup_app. split_and!; [done| |done].
    intros sl (tx&->&Htx)%list_elem_of_fmap (tx'&Heq&Htx')%list_elem_of_fmap.
    destruct (Hin1 tx Htx) as [_ (s'&Hs'&Hlt)]. unfold tx_slot in Heq.
    injection Heq as Ha Hn. rewrite Ha in Hs'. specialize (Hin tx' Htx' s' Hs'). lia.
  - intros tx [Htx|Htx]%elem_of_app; [by apply Hin1|by apply Hlater].
Qed.

(** ** A concrete run *)

Module Scenario.
Definition bounds (price : GasPrice) : ValidResourceBounds := AllResources {|
  rb_l1_gas := ResourceBounds_default;
  rb_l2_gas := {| max_amount := 100; max_price_per_unit := price |};
  rb_l1_data_gas := ResourceBounds_default |}.

Definition invoke (a : ContractAddress) (n : Nonce) (h : TransactionHash) (t : Tip) (p : GasPrice)
  : AccountTransaction :=
  Invoke {| inv_resource_bounds := bounds p; inv_tip := t; inv_signature := []; inv_nonce := n;
            inv_sender_address := a; inv_calldata := [];
            inv_nonce_data_availability_mode := DA_L1;
            inv_fee_data_availability_mode := DA_L1;
            inv_paymaster_data := []; inv_account_deployment_data := [] |} h.

Definition add_args tx (account_nonce : Nonce) : AddTransactionArgs := {|
  add_tx_tx := tx;
  add_tx_account_state := {| as_address := contract_address tx; as_nonce := account_nonce |} |}.

Fixpoint run_ops (ops : list mempool_op) (m : Mempool) : Mempool :=
  match ops with
  | [] => m
  | op :: ops => run_ops ops (run_op (H := canonical_order) op m).2
  end.

Definition new := mempool_new MempoolConfig_default.

(** Two transactions of account 1 and one of account 2, then two handed out. *)
Definition adds : list mempool_op :=
  [OpAddTx (add_args (invoke 1 0 100 10 10) 0); OpAddTx (add_args (invoke 1 1 101 10 10) 0);
   OpAddTx (add_args (invoke 2 5 200 7 3) 5)].
Definition filled := run_ops adds new.
Definition proposed := run_ops [OpGetTxs 2] filled.

Lemma reachable_run_ops ops m :
  reachable (H := canonical_order) m → ops_pre (H := canonical_order) ops m →
  reachable (H := canonical_order) (run_ops ops m).
Proof.
  revert m. induction ops as [|op ops IH]; intros m Hm Hpre; [done|].
  destruct Hpre as [Hop Hops]. apply IH; [|done]. by apply reachable_step.
Qed.

Lemma adds_pre : ops_pre (H := canonical_order) adds new.
Proof. repeat split. Qed.

Lemma filled_reachable : reachable (H := canonical_order) filled.
Proof. apply reachable_run_ops; [apply reachable_new|apply adds_pre]. Qed.

Lemma filled_inv : mempool_inv filled.
Proof. eapply reachable_inv, filled_reachable. Qed.

Lemma proposed_reachable : reachable (H := canonical_order) proposed.
Proof. apply reachable_run_ops; [apply filled_reachable|repeat split]. Qed.

(** The block includes the first transaction of account 1. *)
Definition block : CommitBlockArgs :=
  {| address_to_nonce := {[1 := 1]}; tx_hashes := {[100]} |}.

Lemma block_pre : commit_pre proposed block.
Proof.
  split.
  - intros a n c _. assert (committed (mp_state proposed) = ∅) as -> by (by vm_compute).
    by rewrite lookup_empty.
  - cbn [tx_hashes address_to_nonce block]. intros h tx ->%elem_of_singleton Htx.
    assert (tx_pool (mp_pool proposed) !! 100 = Some (invoke 1 0 100 10 10)) as Heq
      by (by vm_compute).
    assert (tx = invoke 1 0 100 10 10) as -> by congruence.
    exists 1. split; [by vm_compute|done].
Qed.
End Scenario.

(** ** Stated properties *)

(** C5: along any sequence of calls that respect their contracts, no entry point of the mempool
    panics (no [expect], [assert!] or index fails), and the pool, its index, the queue and the
    staged nonces stay consistent with each other. *)
Theorem mempool_safe `{HashOrder} m op :
  reachable m → op_pre m op →
  (run_op op m).1 ≠ Panic ∧ mempool_inv (run_op op m).2.
Proof. intros Hm Hpre. apply run_op_safe; [by apply reachable_inv|done]. Qed.

Lemma mempool_safe_witness :
  (run_op (H := canonical_order) (OpCommitBlock Scenario.block) Scenario.proposed).1 ≠ Panic ∧
  mempool_inv (run_op (H := canonical_order) (OpCommitBlock Scenario.block) Scenario.proposed).2.
Proof.
  apply (mempool_safe (H := canonical_order) Scenario.proposed (OpCommitBlock Scenario.block)).
  - exact Scenario.proposed_reachable.
  - exact Scenario.block_pre.
Defined.

(** C19: until the next commit the mempool never hands out two transactions for the same account
    and nonce, however calls to add, get and the gas price threshold are interleaved. *)
Theorem proposals_unique `{HashOrder} m ops :
  reachable m → ops_pre ops m → forallb (λ op, negb (is_commit op)) ops = true →
  NoDup (tx_slot <$> proposals ops m).
Proof. intros Hm Hpre Hnc. apply proposals_above_staged; [by apply reachable_inv|done..]. Qed.

Lemma proposals_unique_witness :
  tx_slot <$> proposals (H := canonical_order) [OpGetTxs 1; OpGetTxs 5] Scenario.filled =
    [(1, 0); (1, 1); (2, 5)] ∧
  NoDup (tx_slot <$> proposals (H := canonical_order) [OpGetTxs 1; OpGetTxs 5] Scenario.filled).
Proof.
  split; [by vm_compute|].
  apply (proposals_unique (H := canonical_order)).
  - exact Scenario.filled_reachable.
  - repeat split.
  - reflexivity.
Defined.

(** C30: [get_txs] succeeds; it returns at most [n_txs] transactions, all from the pool, which it
    leaves unchanged; it starts with the ready transactions of the queue in priority order; it
    returns fewer only when nothing is ready any more; and the returned transactions of each
    account have consecutive nonces, from the staged nonce on, which it advances past them. *)
Theorem get_txs_correct n m :
  mempool_inv m →
  ∃ txs m', get_txs n m = (Ok txs, m') ∧
    m'.(mp_pool) = m.(mp_pool) ∧
    (∀ tx, tx ∈ txs → m.(mp_pool).(tx_pool) !! AccountTransaction_tx_hash tx = Some tx) ∧
    (length txs ≤ n)%nat ∧
    (length txs = n ∨ Queue.has_ready_txs m'.(mp_queue) = false) ∧
    take n (Queue.iter_over_ready_txs m.(mp_queue))
      `prefix_of` (TransactionReference_new <$> txs) ∧
    stage_all (TransactionReference_new <$> txs) m.(mp_state).(staged) =
      Some m'.(mp_state).(staged).
Proof.
  intros Hm. destruct (proj1 (wp_ok_iff _ _ _) (get_txs_spec n m Hm))
    as (txs&m'&Hrun&_&Hp&Hstage&Hin&Hlen&Hfull&Hpre&_).
  exists txs, m'. done.
Qed.

Lemma get_txs_correct_witness :
  (get_txs 2 Scenario.filled).1 =
    Ok [Scenario.invoke 1 0 100 10 10; Scenario.invoke 2 5 200 7 3] ∧
  ∃ txs m', get_txs 2 Scenario.filled = (Ok txs, m') ∧ (length txs ≤ 2)%nat.
Proof.
  split; [by vm_compute|].
  destruct (get_txs_correct 2 Scenario.filled Scenario.filled_inv)
    as (txs&m'&Hrun&_&_&Hlen&_).
  exists txs, m'. split; assumption.
Defined.

(** C31: [commit_block] succeeds. The committed nonces are updated; staged nonces are cleared;
    exactly the transactions below the committed nonce of their account leave the pool; and each
    account in the block has its transaction with the new nonce queued, if there is one, while an
    account that was proposed but not included goes back to its lowest nonce. *)
Theorem commit_block_correct `{HashOrder} m args :
  mempool_inv m → commit_pre m args →
  ∃ m', commit_block args m = (Ok tt, m') ∧ mempool_inv m' ∧ commit_effect m args m'.
Proof.
  intros Hm Hpre. destruct (proj1 (wp_ok_iff _ _ _) (commit_block_spec m args Hm Hpre))
    as ([]&m'&Hrun&Heff). by exists m'.
Qed.

Lemma commit_block_correct_witness :
  ∃ m', commit_block (H := canonical_order) Scenario.block Scenario.proposed = (Ok tt, m') ∧
    mempool_inv m' ∧ commit_effect Scenario.proposed Scenario.block m'.
Proof.
  apply (commit_block_correct (H := canonical_order)).
  - exact (reachable_inv _ Scenario.proposed_reachable).
  - exact Scenario.block_pre.
Defined.

(** C34: [add_tx] either accepts the transaction, which takes its (account, nonce) slot in the
    pool and is queued exactly when its nonce is the account's, leaving other slots and other
    accounts' queue entries alone; or it is rejected for one of three reasons: its nonce is below
    the account's; its slot is taken and replacing is disabled or it does not raise both the tip
    and the L2 gas price by the configured percentage; or its hash is that of a pooled
    transaction of another slot. *)
Theorem add_tx_correct m args :
  mempool_inv m → add_tx_pre args →
  match add_tx args m with
  | (Ok _, m') => accepted args m m'
  | (Err e, m') => rejected args m e m'
  | (Panic, _) => False
  end.
Proof.
  intros Hm Hpre. pose proof (add_tx_spec m args Hm Hpre) as Hwp. unfold wp in Hwp.
  by destruct (add_tx args m) as [[] m'].
Qed.

Lemma add_tx_correct_witness :
  (add_tx (Scenario.add_args (Scenario.invoke 1 1 102 11 11) 0) Scenario.filled).1 = Ok tt ∧
  match add_tx (Scenario.add_args (Scenario.invoke 1 1 102 11 11) 0) Scenario.filled with
  | (Ok _, m') => accepted (Scenario.add_args (Scenario.invoke 1 1 102 11 11) 0) Scenario.filled m'
  | (Err e, m') => rejected (Scenario.add_args (Scenario.invoke 1 1 102 11 11) 0) Scenario.filled e m'
  | (Panic, _) => False
  end.
Proof.
  split; [by vm_compute|].
  apply (add_tx_correct Scenario.filled); [exact Scenario.filled_inv|split; reflexivity].
Defined.

Lemma add_tx_losses m args h tx :
  mempool_inv m → add_tx_pre args →
  m.(mp_pool).(tx_pool) !! h = Some tx → (add_tx args m).2.(mp_pool).(tx_pool) !! h = None →
  let tx' := args.(add_tx_tx) in
  tx_slot tx = tx_slot tx' ∧
  outbids m.(config) (TransactionReference_new tx) (TransactionReference_new tx') ∧
  ((add_tx args m).2.(mp_pool).(tx_pool) !! AccountTransaction_tx_hash tx' = Some tx' ∨
   (add_tx args m).1 = Err (DuplicateTransaction (AccountTransaction_tx_hash tx')) ∧
   ∃ other, m.(mp_pool).(tx_pool) !! AccountTransaction_tx_hash tx' = Some other ∧
     tx_slot other ≠ tx_slot tx').
Proof.
  intros Hm Hpre Htx. pose proof (add_tx_spec m args Hm Hpre) as Hwp. unfold wp in Hwp.
  pose proof (pool_indexed _ (mi_pool _ _ _ Hm) _ _ Htx) as Hi.
  assert (∀ m', m'.(mp_pool).(tx_pool) !! h = None →
    (tx_slot tx ≠ tx_slot (add_tx_tx args) → m'.(mp_pool).(tx_pool) !! h = Some tx) →
    tx_slot tx = tx_slot (add_tx_tx args)) as Hslot.
  { intros m' Hn Hs. destruct (decide (tx_slot tx = tx_slot (add_tx_tx args))); [done|].
    rewrite Hs in Hn; done. }
  destruct (add_tx args m) as [[u|e|] m']; simpl in *; [| |done]; intros Hn.
  - assert (tx_slot tx = tx_slot (add_tx_tx args)) as Hs.
    { apply (Hslot m' Hn). intros ?. apply (acc_pool _ _ _ Hwp). by right. }
    split_and!; [done| |left; apply (acc_pool _ _ _ Hwp); by left].
    injection Hs as Ha Hnn. apply (acc_paid _ _ _ Hwp). by rewrite <-Ha, <-Hnn.
  - destruct Hwp as [(->&_)|[(->&_)|(->&Hes&Hdup)]]; [congruence..|].
    assert (tx_slot tx = tx_slot (add_tx_tx args)) as Hs.
    { apply (Hslot m' Hn). intros ?. by apply (es_pool _ _ _ Hes). }
    split_and!; [done| |by right].
    injection Hs as Ha Hnn. apply (es_paid _ _ _ Hes). by rewrite <-Ha, <-Hnn.
Qed.

(** C35: how a transaction leaves the pool. One that is in the pool before a call and not after it
    was below the nonce its account has in the block that the call committed; or the call added a
    transaction for the same account and nonce, with replacing enabled, that raises both the tip
    and the L2 gas price enough, and that is now in the pool in its place. The one exception is an
    added transaction whose hash is that of a pooled transaction of another account or nonce: the
    transaction in its slot is dropped, and the call then fails with the error for a known hash.
    [get_txs] and [update_gas_price_threshold] remove nothing. *)
Theorem no_tx_lost `{HashOrder} m op h tx :
  reachable m → op_pre m op →
  m.(mp_pool).(tx_pool) !! h = Some tx → (run_op op m).2.(mp_pool).(tx_pool) !! h = None →
  match op with
  | OpAddTx args =>
      let tx' := args.(add_tx_tx) in
      tx_slot tx = tx_slot tx' ∧
      outbids m.(config) (TransactionReference_new tx) (TransactionReference_new tx') ∧
      ((run_op op m).2.(mp_pool).(tx_pool) !! AccountTransaction_tx_hash tx' = Some tx' ∨
       (run_op op m).1 = Err (DuplicateTransaction (AccountTransaction_tx_hash tx')) ∧
       ∃ other, m.(mp_pool).(tx_pool) !! AccountTransaction_tx_hash tx' = Some other ∧
         tx_slot other ≠ tx_slot tx')
  | OpCommitBlock args =>
      ∃ n, args.(address_to_nonce) !! contract_address tx = Some n ∧ AccountTransaction_nonce tx < n
  | OpGetTxs _ | OpUpdateThreshold _ => False
  end.
Proof.
  intros Hm%reachable_inv Hpre Htx. destruct op as [args|n|args|t]; simpl in *.
  - pose proof (add_tx_losses m args h tx Hm Hpre Htx) as Hloss.
    pose proof (add_tx_keeps m args Hm Hpre) as Hkeep. unfold wp in Hkeep. revert Hloss Hkeep.
    unfold mbind, M_bind. destruct (add_tx args m) as [[[]|e|] m'] eqn:Hrun; simpl; intros Hloss Hkeep;
      [..|by destruct Hkeep].
    + intros Hn. destruct (Hloss Hn) as (?&?&[?|[? _]]); [by auto|done].
    + intros Hn. destruct (Hloss Hn) as (?&?&[?|[[= ->] ?]]); by auto.
  - destruct (proj1 (wp_ok_iff _ _ _) (get_txs_spec n m Hm)) as (txs&m'&->&_&Hp&_). simpl.
    rewrite Hp. congruence.
  - destruct (proj1 (wp_ok_iff _ _ _) (commit_block_spec m args Hm Hpre)) as (u&m'&Hrun&_&Heff).
    erewrite bind_run by done. simpl. intros Hn.
    destruct (address_to_nonce args !! contract_address tx) as [n|] eqn:Ha.
    + exists n. split; [done|]. destruct (decide (AccountTransaction_nonce tx < n)); [done|].
      assert (tx_pool (mp_pool m') !! h = Some tx); [|congruence].
      apply (ce_pool _ _ _ Heff). split; [done|]. intros n' Hn'. assert (n' = n) by congruence. lia.
    + assert (tx_pool (mp_pool m') !! h = Some tx); [|congruence].
      apply (ce_pool _ _ _ Heff). split; [done|]. intros n' Hn'. congruence.
  - congruence.
Qed.

Lemma no_tx_lost_witness :
  ∃ n, address_to_nonce Scenario.block !! 1 = Some n ∧ 0 < n.
Proof.
  apply (no_tx_lost (H := canonical_order) Scenario.proposed (OpCommitBlock Scenario.block) 100
    (Scenario.invoke 1 0 100 10 10)).
  - exact Scenario.proposed_reachable.
  - exact Scenario.block_pre.
  - vm_compute. reflexivity.
  - vm_compute. reflexivity.
Defined.

Lemma StronglySorted_reverse {A} (R : relation A) (l : list A) :
  StronglySorted R l → StronglySorted (flip R) (reverse l).
Proof.
  induction 1 as [|x l Hs IH Hx]; [constructor|]. rewrite reverse_cons.
  apply StronglySorted_app_2; [|done|repeat constructor].
  intros y z Hy ->%list_elem_of_singleton. rewrite elem_of_reverse in Hy. unfold flip.
  rewrite Forall_forall in Hx. by apply Hx.
Qed.

(** [r] is handed out before [r']: higher tip, ties broken by the larger hash. *)
Definition higher_priority (r r' : TransactionReference) : Prop :=
  r'.(tip) < r.(tip) ∨ (r'.(tip) = r.(tip) ∧ r'.(tx_hash) < r.(tx_hash)).

Lemma ready_spec q :
  queue_inv q →
  StronglySorted higher_priority (Queue.iter_over_ready_txs q) ∧
  ∀ r, r ∈ Queue.iter_over_ready_txs q ↔
    q.(address_to_tx) !! r.(address) = Some r ∧ q.(gas_price_threshold) ≤ r.(max_l2_gas_price).
Proof.
  intros Hq. unfold Queue.iter_over_ready_txs. split.
  - exact (StronglySorted_reverse _ _ (queue_priority_sorted q Hq)).
  - intros r. rewrite elem_of_reverse. apply (queue_priority q Hq).
Qed.

(** Raising or lowering the gas price threshold keeps every queued transaction, at most one
    per account; afterwards the ready transactions are exactly the queued ones whose L2 gas price
    reaches the new threshold, in strictly decreasing order of tip and hash. *)
Theorem threshold_update_correct `{HashOrder} m t :
  reachable m →
  let q := m.(mp_queue) in
  let q' := Queue.update_gas_price_threshold t q in
  q'.(address_to_tx) = q.(address_to_tx) ∧
  StronglySorted higher_priority (Queue.iter_over_ready_txs q') ∧
  ∀ r, r ∈ Queue.iter_over_ready_txs q' ↔
    q.(address_to_tx) !! r.(address) = Some r ∧ t ≤ r.(max_l2_gas_price).
Proof.
  intros Hm%reachable_inv q q'.
  destruct (update_threshold_spec q t (mi_queue _ _ _ Hm)) as (Hq&Hmap&Ht).
  destruct (ready_spec q' Hq) as [Hs Hin]. split_and!; [done..|].
  intros r. unfold q' in *. by rewrite Hin, Hmap, Ht.
Qed.

Lemma threshold_update_correct_witness :
  Queue.iter_over_ready_txs (mp_queue Scenario.filled) =
    [TransactionReference_new (Scenario.invoke 1 0 100 10 10);
     TransactionReference_new (Scenario.invoke 2 5 200 7 3)] ∧
  (TransactionReference_new (Scenario.invoke 1 0 100 10 10) ∈
     Queue.iter_over_ready_txs (Queue.update_gas_price_threshold 5 (mp_queue Scenario.filled)) ↔
   address_to_tx (mp_queue Scenario.filled) !! 1 =
     Some (TransactionReference_new (Scenario.invoke 1 0 100 10 10)) ∧ 5 ≤ 10).
Proof.
  split; [by vm_compute|].
  apply (threshold_update_correct (H := canonical_order) Scenario.filled 5 Scenario.filled_reachable).
Defined.

(** C36: a replacement of a later transaction of an account takes the account's eligible
    transaction out of the queue. Let the queued transaction of an account have the account's
    nonce, and let a transaction with a later nonce that is new to the pool outbid the pooled one
    with that nonce; the caller passes an account nonce that is not later than the one of the
    queued transaction. Adding it succeeds; afterwards the eligible transaction is still in the
    pool and its nonce is still the account's, but it is not queued any more, and [get_txs]
    returns no transaction of the account, however many are asked for. *)
Theorem escalation_drops_eligible_tx m args r existing :
  mempool_inv m → add_tx_pre args →
  let tx := args.(add_tx_tx) in
  m.(mp_queue).(address_to_tx) !! contract_address tx = Some r →
  State.get m.(mp_state) (contract_address tx) = Some r.(nonce) →
  args.(add_tx_account_state).(as_nonce) ≤ r.(nonce) → r.(nonce) < AccountTransaction_nonce tx →
  Index.get m.(mp_pool).(txs_by_account) (contract_address tx) (AccountTransaction_nonce tx) = Some existing →
  outbids m.(config) existing (TransactionReference_new tx) →
  m.(mp_pool).(tx_pool) !! AccountTransaction_tx_hash tx = None →
  ∃ m', add_tx args m = (Ok tt, m') ∧
    (∃ tx0, m'.(mp_pool).(tx_pool) !! r.(tx_hash) = Some tx0 ∧ TransactionReference_new tx0 = r) ∧
    State.get m'.(mp_state) (contract_address tx) = Some r.(nonce) ∧
    m'.(mp_queue).(address_to_tx) !! contract_address tx = None ∧
    ∀ n, ∃ txs m'', get_txs n m' = (Ok txs, m'') ∧
      ∀ tx', tx' ∈ txs → contract_address tx' ≠ contract_address tx.
Proof.
  intros Hm Hpre tx Hq Hst Hn Hlt Hex Hout Hh. subst tx. set (tx := args.(add_tx_tx)) in *.
  destruct (get_or_insert_get m.(mp_state) _ _ _ Hst Hn) as [Hgi Hst'].
  pose proof (add_tx_spec m args Hm Hpre) as Hwp. unfold wp in Hwp.
  destruct (add_tx args m) as [[[]|e|] m']; cbn [fst snd] in Hwp; [| |done].
  2: { exfalso. unfold rejected in Hwp. fold tx in Hwp. destruct Hwp as [(_&_&s&Hs&?)|[(_&_&r'&Hr'&Hno)|(_&_&other&Hother&_)]].
       - assert (s = r.(nonce)) by congruence. lia.
       - assert (r' = existing) by congruence. by subst.
       - congruence. }
  exists m'. pose proof (mi_queued _ _ _ Hm _ _ Hq) as Hr.
  destruct (pool_backed _ (mi_pool _ _ _ Hm) _ _ _ Hr) as (_&_&tx0&Htx0&Hnew).
  assert (m'.(mp_queue).(address_to_tx) !! contract_address tx = None) as Hnone.
  { rewrite (acc_queue _ _ _ Hwp), decide_True by done. fold tx. rewrite Hgi.
    rewrite decide_False by lia. rewrite decide_False; [done|]. unfold tx_slot_free. by rewrite Hex. }
  split_and!; [done| |rewrite (acc_state _ _ _ Hwp); exact Hst'|done|].
  - exists tx0. split; [|done]. apply (acc_pool _ _ _ Hwp). right. split; [done|].
    fold tx. intros [= _ Heq]. rewrite <-Hnew in Hlt. simpl in Hlt. lia.
  - intros n. destruct (proj1 (wp_ok_iff _ _ _) (get_txs_spec n m' (acc_inv _ _ _ Hwp)))
      as (txs&m''&Hrun&_&_&_&_&_&_&_&Hqd).
    exists txs, m''. split; [done|]. intros tx' Htx' Heq. specialize (Hqd _ Htx').
    rewrite Heq, Hnone in Hqd. by destruct Hqd.
Qed.

(** Account 1, with nonce 0, has transactions 100 with nonce 0 and 101 with nonce 5. *)
Lemma escalation_drops_eligible_tx_witness :
  let m := Scenario.run_ops [OpAddTx (Scenario.add_args (Scenario.invoke 1 0 100 10 10) 0);
                             OpAddTx (Scenario.add_args (Scenario.invoke 1 5 101 10 10) 0)]
             Scenario.new in
  ∃ m', add_tx (Scenario.add_args (Scenario.invoke 1 5 102 11 11) 0) m = (Ok tt, m') ∧
    ∀ n, ∃ txs m'', get_txs n m' = (Ok txs, m'') ∧ ∀ tx', tx' ∈ txs → contract_address tx' ≠ 1.
Proof.
  intros m. destruct (escalation_drops_eligible_tx m (Scenario.add_args (Scenario.invoke 1 5 102 11 11) 0)
    (TransactionReference_new (Scenario.invoke 1 0 100 10 10))
    (TransactionReference_new (Scenario.invoke 1 5 101 10 10))) as (m'&Hrun&_&_&_&Hget).
  - apply (reachable_inv (H := canonical_order)), Scenario.reachable_run_ops;
      [apply reachable_new|repeat split].
  - split; reflexivity.
  - vm_compute. reflexivity.
  - vm_compute. reflexivity.
  - vm_compute. discriminate.
  - vm_compute. reflexivity.
  - vm_compute. reflexivity.
  - split; [reflexivity|]. split; split; vm_compute; discriminate.
  - vm_compute. reflexivity.
  - exists m'. split; [exact Hrun|exact Hget].
Defined.
