(* ===== verification/StateMachine.v ===== *)
(** The Tendermint state machine of one height:
    [crates/sequencing/papyrus_consensus/src/state_machine.rs]. This file holds the model; its
    properties are in [StateMachineProofs]. *)

From S2P Require Import Prelude StarknetApi.

Abbreviation ValidatorId := N (only parsing).
Abbreviation Round := N (only parsing).
Abbreviation ProposalContentId := N (only parsing).

Definition u32_max : N := 2 ^ 32 - 1.

Inductive StateMachineEvent :=
| EvGetProposal (proposal_id : option ProposalContentId) (round : Round)
| EvProposal (proposal_id : option ProposalContentId) (round : Round) (valid_round : option Round)
| EvPrevote (proposal_id : option ProposalContentId) (round : Round)
| EvPrecommit (proposal_id : option ProposalContentId) (round : Round)
| EvDecision (proposal_id : ProposalContentId) (round : Round)
| EvTimeoutPropose (round : Round)
| EvTimeoutPrevote (round : Round)
| EvTimeoutPrecommit (round : Round).

#[global] Instance StateMachineEvent_eq_dec : EqDecision StateMachineEvent.
Proof. solve_decision. Defined.

Inductive Step := StepPropose | StepPrevote | StepPrecommit.

#[global] Instance Step_eq_dec : EqDecision Step.
Proof. solve_decision. Defined.

(** [{round: {proposal_id: vote_count}}] *)
Abbreviation Votes := (gmap Round (gmap (option ProposalContentId) N)) (only parsing).

Record StateMachine := {
  sm_id : ValidatorId;
  sm_round : Round;
  sm_step : Step;
  sm_quorum : N;
  sm_round_skip_threshold : N;
  sm_is_observer : bool;
  sm_proposals : gmap Round (option ProposalContentId * option Round);
  sm_prevotes : Votes;
  sm_precommits : Votes;
  sm_awaiting_get_proposal : bool;
  sm_events_queue : list StateMachineEvent;
  sm_locked_value_round : option (ProposalContentId * Round);
  sm_valid_value_round : option (ProposalContentId * Round);
  sm_prevote_quorum : gset Round;
  sm_mixed_prevote_quorum : gset Round;
  sm_mixed_precommit_quorum : gset Round;
}.

Definition set_round x (s : StateMachine) : StateMachine := {|
  sm_id := s.(sm_id); sm_round := x; sm_step := s.(sm_step); sm_quorum := s.(sm_quorum);
  sm_round_skip_threshold := s.(sm_round_skip_threshold); sm_is_observer := s.(sm_is_observer);
  sm_proposals := s.(sm_proposals); sm_prevotes := s.(sm_prevotes);
  sm_precommits := s.(sm_precommits); sm_awaiting_get_proposal := s.(sm_awaiting_get_proposal);
  sm_events_queue := s.(sm_events_queue); sm_locked_value_round := s.(sm_locked_value_round);
  sm_valid_value_round := s.(sm_valid_value_round); sm_prevote_quorum := s.(sm_prevote_quorum);
  sm_mixed_prevote_quorum := s.(sm_mixed_prevote_quorum);
  sm_mixed_precommit_quorum := s.(sm_mixed_precommit_quorum) |}.
Definition set_step x (s : StateMachine) : StateMachine := {|
  sm_id := s.(sm_id); sm_round := s.(sm_round); sm_step := x; sm_quorum := s.(sm_quorum);
  sm_round_skip_threshold := s.(sm_round_skip_threshold); sm_is_observer := s.(sm_is_observer);
  sm_proposals := s.(sm_proposals); sm_prevotes := s.(sm_prevotes);
  sm_precommits := s.(sm_precommits); sm_awaiting_get_proposal := s.(sm_awaiting_get_proposal);
  sm_events_queue := s.(sm_events_queue); sm_locked_value_round := s.(sm_locked_value_round);
  sm_valid_value_round := s.(sm_valid_value_round); sm_prevote_quorum := s.(sm_prevote_quorum);
  sm_mixed_prevote_quorum := s.(sm_mixed_prevote_quorum);
  sm_mixed_precommit_quorum := s.(sm_mixed_precommit_quorum) |}.
Definition set_proposals x (s : StateMachine) : StateMachine := {|
  sm_id := s.(sm_id); sm_round := s.(sm_round); sm_step := s.(sm_step);
  sm_quorum := s.(sm_quorum); sm_round_skip_threshold := s.(sm_round_skip_threshold);
  sm_is_observer := s.(sm_is_observer); sm_proposals := x; sm_prevotes := s.(sm_prevotes);
  sm_precommits := s.(sm_precommits); sm_awaiting_get_proposal := s.(sm_awaiting_get_proposal);
  sm_events_queue := s.(sm_events_queue); sm_locked_value_round := s.(sm_locked_value_round);
  sm_valid_value_round := s.(sm_valid_value_round); sm_prevote_quorum := s.(sm_prevote_quorum);
  sm_mixed_prevote_quorum := s.(sm_mixed_prevote_quorum);
  sm_mixed_precommit_quorum := s.(sm_mixed_precommit_quorum) |}.
Definition set_prevotes x (s : StateMachine) : StateMachine := {|
  sm_id := s.(sm_id); sm_round := s.(sm_round); sm_step := s.(sm_step);
  sm_quorum := s.(sm_quorum); sm_round_skip_threshold := s.(sm_round_skip_threshold);
  sm_is_observer := s.(sm_is_observer); sm_proposals := s.(sm_proposals); sm_prevotes := x;
  sm_precommits := s.(sm_precommits); sm_awaiting_get_proposal := s.(sm_awaiting_get_proposal);
  sm_events_queue := s.(sm_events_queue); sm_locked_value_round := s.(sm_locked_value_round);
  sm_valid_value_round := s.(sm_valid_value_round); sm_prevote_quorum := s.(sm_prevote_quorum);
  sm_mixed_prevote_quorum := s.(sm_mixed_prevote_quorum);
  sm_mixed_precommit_quorum := s.(sm_mixed_precommit_quorum) |}.
Definition set_precommits x (s : StateMachine) : StateMachine := {|
  sm_id := s.(sm_id); sm_round := s.(sm_round); sm_step := s.(sm_step);
  sm_quorum := s.(sm_quorum); sm_round_skip_threshold := s.(sm_round_skip_threshold);
  sm_is_observer := s.(sm_is_observer); sm_proposals := s.(sm_proposals);
  sm_prevotes := s.(sm_prevotes); sm_precommits := x;
  sm_awaiting_get_proposal := s.(sm_awaiting_get_proposal);
  sm_events_queue := s.(sm_events_queue); sm_locked_value_round := s.(sm_locked_value_round);
  sm_valid_value_round := s.(sm_valid_value_round); sm_prevote_quorum := s.(sm_prevote_quorum);
  sm_mixed_prevote_quorum := s.(sm_mixed_prevote_quorum);
  sm_mixed_precommit_quorum := s.(sm_mixed_precommit_quorum) |}.
Definition set_awaiting_get_proposal x (s : StateMachine) : StateMachine := {|
  sm_id := s.(sm_id); sm_round := s.(sm_round); sm_step := s.(sm_step);
  sm_quorum := s.(sm_quorum); sm_round_skip_threshold := s.(sm_round_skip_threshold);
  sm_is_observer := s.(sm_is_observer); sm_proposals := s.(sm_proposals);
  sm_prevotes := s.(sm_prevotes); sm_precommits := s.(sm_precommits);
  sm_awaiting_get_proposal := x; sm_events_queue := s.(sm_events_queue);
  sm_locked_value_round := s.(sm_locked_value_round);
  sm_valid_value_round := s.(sm_valid_value_round); sm_prevote_quorum := s.(sm_prevote_quorum);
  sm_mixed_prevote_quorum := s.(sm_mixed_prevote_quorum);
  sm_mixed_precommit_quorum := s.(sm_mixed_precommit_quorum) |}.
Definition set_events_queue x (s : StateMachine) : StateMachine := {|
  sm_id := s.(sm_id); sm_round := s.(sm_round); sm_step := s.(sm_step);
  sm_quorum := s.(sm_quorum); sm_round_skip_threshold := s.(sm_round_skip_threshold);
  sm_is_observer := s.(sm_is_observer); sm_proposals := s.(sm_proposals);
  sm_prevotes := s.(sm_prevotes); sm_precommits := s.(sm_precommits);
  sm_awaiting_get_proposal := s.(sm_awaiting_get_proposal); sm_events_queue := x;
  sm_locked_value_round := s.(sm_locked_value_round);
  sm_valid_value_round := s.(sm_valid_value_round); sm_prevote_quorum := s.(sm_prevote_quorum);
  sm_mixed_prevote_quorum := s.(sm_mixed_prevote_quorum);
  sm_mixed_precommit_quorum := s.(sm_mixed_precommit_quorum) |}.
Definition set_locked_value_round x (s : StateMachine) : StateMachine := {|
  sm_id := s.(sm_id); sm_round := s.(sm_round); sm_step := s.(sm_step);
  sm_quorum := s.(sm_quorum); sm_round_skip_threshold := s.(sm_round_skip_threshold);
  sm_is_observer := s.(sm_is_observer); sm_proposals := s.(sm_proposals);
  sm_prevotes := s.(sm_prevotes); sm_precommits := s.(sm_precommits);
  sm_awaiting_get_proposal := s.(sm_awaiting_get_proposal);
  sm_events_queue := s.(sm_events_queue); sm_locked_value_round := x;
  sm_valid_value_round := s.(sm_valid_value_round); sm_prevote_quorum := s.(sm_prevote_quorum);
  sm_mixed_prevote_quorum := s.(sm_mixed_prevote_quorum);
  sm_mixed_precommit_quorum := s.(sm_mixed_precommit_quorum) |}.
Definition set_valid_value_round x (s : StateMachine) : StateMachine := {|
  sm_id := s.(sm_id); sm_round := s.(sm_round); sm_step := s.(sm_step);
  sm_quorum := s.(sm_quorum); sm_round_skip_threshold := s.(sm_round_skip_threshold);
  sm_is_observer := s.(sm_is_observer); sm_proposals := s.(sm_proposals);
  sm_prevotes := s.(sm_prevotes); sm_precommits := s.(sm_precommits);
  sm_awaiting_get_proposal := s.(sm_awaiting_get_proposal);
  sm_events_queue := s.(sm_events_queue); sm_locked_value_round := s.(sm_locked_value_round);
  sm_valid_value_round := x; sm_prevote_quorum := s.(sm_prevote_quorum);
  sm_mixed_prevote_quorum := s.(sm_mixed_prevote_quorum);
  sm_mixed_precommit_quorum := s.(sm_mixed_precommit_quorum) |}.
Definition set_prevote_quorum x (s : StateMachine) : StateMachine := {|
  sm_id := s.(sm_id); sm_round := s.(sm_round); sm_step := s.(sm_step);
  sm_quorum := s.(sm_quorum); sm_round_skip_threshold := s.(sm_round_skip_threshold);
  sm_is_observer := s.(sm_is_observer); sm_proposals := s.(sm_proposals);
  sm_prevotes := s.(sm_prevotes); sm_precommits := s.(sm_precommits);
  sm_awaiting_get_proposal := s.(sm_awaiting_get_proposal);
  sm_events_queue := s.(sm_events_queue); sm_locked_value_round := s.(sm_locked_value_round);
  sm_valid_value_round := s.(sm_valid_value_round); sm_prevote_quorum := x;
  sm_mixed_prevote_quorum := s.(sm_mixed_prevote_quorum);
  sm_mixed_precommit_quorum := s.(sm_mixed_precommit_quorum) |}.
Definition set_mixed_prevote_quorum x (s : StateMachine) : StateMachine := {|
  sm_id := s.(sm_id); sm_round := s.(sm_round); sm_step := s.(sm_step);
  sm_quorum := s.(sm_quorum); sm_round_skip_threshold := s.(sm_round_skip_threshold);
  sm_is_observer := s.(sm_is_observer); sm_proposals := s.(sm_proposals);
  sm_prevotes := s.(sm_prevotes); sm_precommits := s.(sm_precommits);
  sm_awaiting_get_proposal := s.(sm_awaiting_get_proposal);
  sm_events_queue := s.(sm_events_queue); sm_locked_value_round := s.(sm_locked_value_round);
  sm_valid_value_round := s.(sm_valid_value_round); sm_prevote_quorum := s.(sm_prevote_quorum);
  sm_mixed_prevote_quorum := x; sm_mixed_precommit_quorum := s.(sm_mixed_precommit_quorum) |}.
Definition set_mixed_precommit_quorum x (s : StateMachine) : StateMachine := {|
  sm_id := s.(sm_id); sm_round := s.(sm_round); sm_step := s.(sm_step);
  sm_quorum := s.(sm_quorum); sm_round_skip_threshold := s.(sm_round_skip_threshold);
  sm_is_observer := s.(sm_is_observer); sm_proposals := s.(sm_proposals);
  sm_prevotes := s.(sm_prevotes); sm_precommits := s.(sm_precommits);
  sm_awaiting_get_proposal := s.(sm_awaiting_get_proposal);
  sm_events_queue := s.(sm_events_queue); sm_locked_value_round := s.(sm_locked_value_round);
  sm_valid_value_round := s.(sm_valid_value_round); sm_prevote_quorum := s.(sm_prevote_quorum);
  sm_mixed_prevote_quorum := s.(sm_mixed_prevote_quorum); sm_mixed_precommit_quorum := x |}.

(** [2 * total_weight / 3 + 1]; [None] is the panic when the product overflows [u32]. *)
Definition StateMachine_new (id : ValidatorId) (total_weight : N) (is_observer : bool)
  : option StateMachine :=
  twice ← checked_mul u32_max 2 total_weight;
  Some {| sm_id := id; sm_round := 0; sm_step := StepPropose;
          sm_quorum := twice / 3 + 1; sm_round_skip_threshold := total_weight / 3 + 1;
          sm_is_observer := is_observer;
          sm_proposals := ∅; sm_prevotes := ∅; sm_precommits := ∅;
          sm_awaiting_get_proposal := false; sm_events_queue := [];
          sm_locked_value_round := None; sm_valid_value_round := None;
          sm_prevote_quorum := ∅; sm_mixed_prevote_quorum := ∅; sm_mixed_precommit_quorum := ∅ |}.

(** The recursion of [current_round_upons] and the loop over the events are bounded by fuel;
    running out of it is an error of its own. *)
Inductive OutOfFuel := out_of_fuel.

Abbreviation SM := (M StateMachine OutOfFuel) (only parsing).
Abbreviation Events := (list StateMachineEvent) (only parsing).

(** ** Counting votes *)

Definition vote_count (votes : Votes) (round : Round) (value : option ProposalContentId) : N :=
  match votes !! round with Some v => default 0 (v !! value) | None => 0 end.

Definition round_votes (votes : Votes) (round : Round) : N :=
  match votes !! round with Some v => map_fold (λ _ n acc, n + acc) 0 v | None => 0 end.

(** The sum is computed in [u32]. *)
Definition round_has_enough_votes (votes : Votes) (round : Round) (threshold : N) : SM bool :=
  let sum := round_votes votes round in
  assert_ (bool_decide (sum ≤ u32_max));;
  mret (bool_decide (threshold ≤ sum)).

Definition value_has_enough_votes (votes : Votes) (round : Round)
    (value : option ProposalContentId) (threshold : N) : bool :=
  bool_decide (threshold ≤ vote_count votes round value).

(** [*votes.entry(round).or_default().entry(value).or_insert(0) += 1] *)
Definition count_vote (votes : Votes) (round : Round) (value : option ProposalContentId)
  : option Votes :=
  let v := default ∅ (votes !! round) in
  n ← checked_add u32_max (default 0 (v !! value)) 1;
  Some (<[round := <[value := n]> v]> votes).

(** ** The rules of the current round *)

Section upons.
(** The recursive call, made by [advance_to_step]. *)
Context (current_round_upons : SM Events).

Definition advance_to_step (step : Step) : SM Events :=
  assert_ (bool_decide (step ≠ StepPropose));;
  modify (set_step step);;
  current_round_upons.

Definition upon_new_proposal : SM Events :=
  s ← get_st;
  if decide (s.(sm_step) ≠ StepPropose) then mret [] else
  match s.(sm_proposals) !! s.(sm_round) with
  | None => mret []
  | Some (proposal_id, valid_round) =>
      match valid_round with
      | Some _ => mret []
      | None =>
          let vote :=
            match proposal_id with
            | Some v =>
                match s.(sm_locked_value_round) with
                | None => EvPrevote proposal_id s.(sm_round)
                | Some (locked_value, _) =>
                    if decide (v = locked_value) then EvPrevote proposal_id s.(sm_round)
                    else EvPrevote None s.(sm_round)
                end
            | None => EvPrevote None s.(sm_round)
            end in
          rest ← advance_to_step StepPrevote;
          mret (vote :: rest)
      end
  end.

Definition upon_reproposal : SM Events :=
  s ← get_st;
  if decide (s.(sm_step) ≠ StepPropose) then mret [] else
  match s.(sm_proposals) !! s.(sm_round) with
  | None => mret []
  | Some (proposal_id, valid_round) =>
      match valid_round with
      | None => mret []
      | Some valid_round =>
          if decide (s.(sm_round) ≤ valid_round) then mret [] else
          if negb (value_has_enough_votes s.(sm_prevotes) valid_round proposal_id s.(sm_quorum))
          then mret [] else
          let vote :=
            match proposal_id with
            | Some v =>
                match s.(sm_locked_value_round) with
                | None => EvPrevote proposal_id s.(sm_round)
                | Some (locked_value, locked_round) =>
                    if decide (locked_round ≤ valid_round ∨ locked_value = v)
                    then EvPrevote proposal_id s.(sm_round)
                    else EvPrevote None s.(sm_round)
                end
            | None => EvPrevote None s.(sm_round)
            end in
          rest ← advance_to_step StepPrevote;
          mret (vote :: rest)
      end
  end.

Definition maybe_initiate_timeout_prevote : SM Events :=
  s ← get_st;
  if decide (s.(sm_step) ≠ StepPrevote) then mret [] else
  enough ← round_has_enough_votes s.(sm_prevotes) s.(sm_round) s.(sm_quorum);
  if negb enough then mret [] else
  if decide (s.(sm_round) ∈ s.(sm_mixed_prevote_quorum)) then mret [] else
  modify (set_mixed_prevote_quorum ({[s.(sm_round)]} ∪ s.(sm_mixed_prevote_quorum)));;
  mret [EvTimeoutPrevote s.(sm_round)].

Definition upon_prevote_quorum : SM Events :=
  s ← get_st;
  if decide (s.(sm_step) = StepPropose) then mret [] else
  match s.(sm_proposals) !! s.(sm_round) with
  | Some (Some proposal_id, _) =>
      if negb (value_has_enough_votes s.(sm_prevotes) s.(sm_round) (Some proposal_id)
                 s.(sm_quorum))
      then mret [] else
      if decide (s.(sm_round) ∈ s.(sm_prevote_quorum)) then mret [] else
      modify (set_prevote_quorum ({[s.(sm_round)]} ∪ s.(sm_prevote_quorum)));;
      modify (set_valid_value_round (Some (proposal_id, s.(sm_round))));;
      if decide (s.(sm_step) ≠ StepPrevote) then mret [] else
      modify (set_locked_value_round (Some (proposal_id, s.(sm_round))));;
      rest ← advance_to_step StepPrecommit;
      mret (EvPrecommit (Some proposal_id) s.(sm_round) :: rest)
  | _ => mret []
  end.

Definition upon_nil_prevote_quorum : SM Events :=
  s ← get_st;
  if decide (s.(sm_step) ≠ StepPrevote) then mret [] else
  if negb (value_has_enough_votes s.(sm_prevotes) s.(sm_round) None s.(sm_quorum)) then mret []
  else
    rest ← advance_to_step StepPrecommit;
    mret (EvPrecommit None s.(sm_round) :: rest).

Definition maybe_initiate_timeout_precommit : SM Events :=
  s ← get_st;
  enough ← round_has_enough_votes s.(sm_precommits) s.(sm_round) s.(sm_quorum);
  if negb enough then mret [] else
  if decide (s.(sm_round) ∈ s.(sm_mixed_precommit_quorum)) then mret [] else
  modify (set_mixed_precommit_quorum ({[s.(sm_round)]} ∪ s.(sm_mixed_precommit_quorum)));;
  mret [EvTimeoutPrecommit s.(sm_round)].

Definition upon_decision (round : Round) : SM Events :=
  s ← get_st;
  match s.(sm_proposals) !! round with
  | Some (Some proposal_id, _) =>
      if negb (value_has_enough_votes s.(sm_precommits) round (Some proposal_id) s.(sm_quorum))
      then mret []
      else mret [EvDecision proposal_id round]
  | _ => mret []
  end.

(** [output.append(..)] for each rule in turn. *)
Fixpoint append_all (fs : list (SM Events)) : SM Events :=
  match fs with
  | [] => mret []
  | f :: fs => out ← f; rest ← append_all fs; mret (out ++ rest)
  end.
End upons.

(** Each level of recursion is at a later step of the round, so three levels suffice. *)
Fixpoint current_round_upons_fuel (fuel : nat) : SM Events :=
  match fuel with
  | O => throw out_of_fuel
  | S fuel =>
      let rec := current_round_upons_fuel fuel in
      append_all
        [upon_new_proposal rec; upon_reproposal rec; maybe_initiate_timeout_prevote;
         upon_prevote_quorum rec; upon_nil_prevote_quorum rec; maybe_initiate_timeout_precommit;
         s ← get_st; upon_decision s.(sm_round)]
  end.

Definition current_round_upons : SM Events := current_round_upons_fuel 3.

Definition past_round_upons (round : Round) : SM Events :=
  append_all [upon_reproposal current_round_upons; upon_decision round].

(** ** Handlers *)

Section handlers.
Context (leader_fn : Round → ValidatorId).

Definition advance_to_round (round : Round) : SM Events :=
  modify (set_round round);;
  modify (set_step StepPropose);;
  s ← get_st;
  if negb s.(sm_is_observer) && bool_decide (s.(sm_id) = leader_fn s.(sm_round)) then
    match s.(sm_valid_value_round) with
    | Some (proposal_id, valid_round) =>
        rest ← current_round_upons;
        mret (EvProposal (Some proposal_id) s.(sm_round) (Some valid_round) :: rest)
    | None =>
        modify (set_awaiting_get_proposal true);;
        mret [EvGetProposal None s.(sm_round)]
    end
  else
    rest ← current_round_upons;
    mret (EvTimeoutPropose s.(sm_round) :: rest).

Definition maybe_advance_to_round (round : Round) : SM Events :=
  s ← get_st;
  enough_prevotes ← round_has_enough_votes s.(sm_prevotes) round s.(sm_round_skip_threshold);
  if enough_prevotes : bool then advance_to_round round else
  enough_precommits ← round_has_enough_votes s.(sm_precommits) round s.(sm_round_skip_threshold);
  if enough_precommits : bool then advance_to_round round else mret [].

Definition map_round_to_upons (round : Round) : SM Events :=
  s ← get_st;
  match round ?= s.(sm_round) with
  | Lt => past_round_upons round
  | Eq => current_round_upons
  | Gt => maybe_advance_to_round round
  end.

Definition handle_get_proposal (proposal_id : option ProposalContentId) (round : Round)
  : SM Events :=
  s ← get_st;
  assert_ s.(sm_awaiting_get_proposal);;
  assert_ (bool_decide (round = s.(sm_round)));;
  modify (set_awaiting_get_proposal false);;
  mret [EvProposal proposal_id round None].

Definition handle_proposal (proposal_id : option ProposalContentId) (round : Round)
    (valid_round : option Round) : SM Events :=
  s ← get_st;
  modify (set_proposals (<[round := (proposal_id, valid_round)]> s.(sm_proposals)));;
  assert_ (bool_decide (s.(sm_proposals) !! round = None));;
  map_round_to_upons round.

Definition handle_timeout_propose (round : Round) : SM Events :=
  s ← get_st;
  if decide (s.(sm_step) ≠ StepPropose ∨ round ≠ s.(sm_round)) then mret [] else
  rest ← advance_to_step current_round_upons StepPrevote;
  mret (EvPrevote None round :: rest).

Definition handle_prevote (proposal_id : option ProposalContentId) (round : Round) : SM Events :=
  s ← get_st;
  votes ← expect (count_vote s.(sm_prevotes) round proposal_id);
  modify (set_prevotes votes);;
  map_round_to_upons round.

Definition handle_timeout_prevote (round : Round) : SM Events :=
  s ← get_st;
  if decide (s.(sm_step) ≠ StepPrevote ∨ round ≠ s.(sm_round)) then mret [] else
  rest ← advance_to_step current_round_upons StepPrecommit;
  mret (EvPrecommit None round :: rest).

Definition handle_precommit (proposal_id : option ProposalContentId) (round : Round)
  : SM Events :=
  s ← get_st;
  votes ← expect (count_vote s.(sm_precommits) round proposal_id);
  modify (set_precommits votes);;
  map_round_to_upons round.

Definition handle_timeout_precommit (round : Round) : SM Events :=
  s ← get_st;
  if decide (round ≠ s.(sm_round)) then mret [] else
  next ← expect (checked_add u32_max round 1);
  advance_to_round next.

Definition handle_event_internal (event : StateMachineEvent) : SM Events :=
  s ← get_st;
  assert_ (negb s.(sm_awaiting_get_proposal) ||
           match event with EvGetProposal _ _ => true | _ => false end);;
  match event with
  | EvGetProposal proposal_id round => handle_get_proposal proposal_id round
  | EvProposal proposal_id round valid_round => handle_proposal proposal_id round valid_round
  | EvPrevote proposal_id round => handle_prevote proposal_id round
  | EvPrecommit proposal_id round => handle_precommit proposal_id round
  | EvDecision _ _ => panic
  | EvTimeoutPropose round => handle_timeout_propose round
  | EvTimeoutPrevote round => handle_timeout_prevote round
  | EvTimeoutPrecommit round => handle_timeout_precommit round
  end.

(** ** The event loop *)

Definition push_back_event (e : StateMachineEvent) : SM unit :=
  modify (λ s, set_events_queue (s.(sm_events_queue) ++ [e]) s).

(** The inner loop over [resultant_events]; the flag tells that the caller returns. *)
Fixpoint handle_resultant_events (resultant_events output_events : Events)
  : SM (bool * Events) :=
  match resultant_events with
  | [] => mret (false, output_events)
  | e :: resultant_events =>
      match e with
      | EvProposal _ _ _ | EvPrevote _ _ | EvPrecommit _ _ =>
          s ← get_st;
          if s.(sm_is_observer) : bool then handle_resultant_events resultant_events output_events
          else
            push_back_event e;;
            handle_resultant_events resultant_events (output_events ++ [e])
      | EvDecision _ _ => mret (true, output_events ++ [e])
      | EvGetProposal _ _ =>
          s ← get_st;
          assert_ (bool_decide (resultant_events = []));;
          assert_ (negb s.(sm_is_observer));;
          mret (true, output_events ++ [e])
      | _ => handle_resultant_events resultant_events (output_events ++ [e])
      end
  end.

Fixpoint handle_enqueued_events_loop (fuel : nat) (output_events : Events) : SM Events :=
  s ← get_st;
  match s.(sm_events_queue) with
  | [] => mret output_events
  | event :: queue =>
      match fuel with
      | O => throw out_of_fuel
      | S fuel =>
          modify (set_events_queue queue);;
          resultant_events ← handle_event_internal event;
          '(return_now, output_events) ← handle_resultant_events resultant_events output_events;
          if return_now : bool then mret output_events
          else handle_enqueued_events_loop fuel output_events
      end
  end.

Definition handle_enqueued_events : SM Events :=
  s ← get_st;
  handle_enqueued_events_loop (6 * length s.(sm_events_queue) + 5) [].

Definition start : SM Events := advance_to_round 0.

Definition handle_event (event : StateMachineEvent) : SM Events :=
  s ← get_st;
  if s.(sm_awaiting_get_proposal) : bool then
    match event with
    | EvGetProposal _ round =>
        if decide (round = s.(sm_round)) then
          modify (λ s, set_events_queue (event :: s.(sm_events_queue)) s);;
          handle_enqueued_events
        else push_back_event event;; mret []
    | _ => push_back_event event;; mret []
    end
  else
    push_back_event event;;
    handle_enqueued_events.
End handlers.
