(* ===== verification/TendermintRules.v ===== *)
(** The rules of Algorithm 1 of the Tendermint paper as a transition relation on the state of
    [StateMachine], labelled with the event that is being handled, and the invariants that follow
    from the rules alone. The refinement of the rules by the code is in [StateMachineProofs]. *)

From S2P Require Import Prelude StarknetApi StateMachine.

Implicit Types (s : StateMachine) (r : Round) (v : ProposalContentId) (o E : Events).

(** ** The rules *)

(** The proposal of the round can be voted on: it is new, or it is proposed again and the
    prevotes of the round it refers to have been received (LOC 22 and 28). [vr] is the round that
    releases older locks. *)
Definition proposal_ready s (p : option ProposalContentId) (vr : option Round) : Prop :=
  s.(sm_proposals) !! s.(sm_round) = Some (p, vr) ∧
  ∀ r, vr = Some r → r < s.(sm_round) ∧ s.(sm_quorum) ≤ vote_count s.(sm_prevotes) r p.

(** The lock of the machine admits a vote for [v] (LOC 23 and 29). *)
Definition lock_admits s v (vr : option Round) : Prop :=
  ∀ lv lr, s.(sm_locked_value_round) = Some (lv, lr) →
    lv = v ∨ ∃ r, vr = Some r ∧ lr ≤ r.

(** The prevote of the round: for the proposal when the lock admits it and nil when it does not
    (LOC 22 to 33), nil when the time for proposing is over (LOC 57). *)
Definition prevote_allowed (e : StateMachineEvent) s (value : option ProposalContentId) : Prop :=
  match value with
  | Some v => ∃ vr, proposal_ready s (Some v) vr ∧ lock_admits s v vr
  | None =>
      e = EvTimeoutPropose s.(sm_round) ∨
      ∃ p vr, proposal_ready s p vr ∧ ∀ v, p = Some v → ¬ lock_admits s v vr
  end.

(** A first quorum of prevotes for the proposal of the round. *)
Definition new_prevote_quorum s v : Prop :=
  (∃ vr, s.(sm_proposals) !! s.(sm_round) = Some (Some v, vr)) ∧
  s.(sm_quorum) ≤ vote_count s.(sm_prevotes) s.(sm_round) (Some v) ∧
  s.(sm_round) ∉ s.(sm_prevote_quorum).

Definition set_valid v s : StateMachine :=
  set_valid_value_round (Some (v, s.(sm_round)))
    (set_prevote_quorum ({[s.(sm_round)]} ∪ s.(sm_prevote_quorum)) s).

Definition lock v s : StateMachine :=
  set_locked_value_round (Some (v, s.(sm_round))) (set_valid v s).

(** The rules that apply while the event [e] is handled. *)
Inductive rule (e : StateMachineEvent) : StateMachine → Events → StateMachine → Prop :=
| rule_prevote s value :
    s.(sm_step) = StepPropose → prevote_allowed e s value →
    rule e s [EvPrevote value s.(sm_round)] (set_step StepPrevote s)
(* LOC 36 to 43 *)
| rule_lock s v :
    s.(sm_step) = StepPrevote → new_prevote_quorum s v →
    rule e s [EvPrecommit (Some v) s.(sm_round)] (set_step StepPrecommit (lock v s))
| rule_valid s v :
    s.(sm_step) = StepPrecommit → new_prevote_quorum s v →
    rule e s [] (set_valid v s)
(* LOC 44 and 61 *)
| rule_precommit_nil s :
    s.(sm_step) = StepPrevote →
    s.(sm_quorum) ≤ vote_count s.(sm_prevotes) s.(sm_round) None ∨
      e = EvTimeoutPrevote s.(sm_round) →
    rule e s [EvPrecommit None s.(sm_round)] (set_step StepPrecommit s)
(* LOC 34 *)
| rule_timeout_prevote s :
    s.(sm_step) = StepPrevote → s.(sm_quorum) ≤ round_votes s.(sm_prevotes) s.(sm_round) →
    s.(sm_round) ∉ s.(sm_mixed_prevote_quorum) →
    rule e s [EvTimeoutPrevote s.(sm_round)]
      (set_mixed_prevote_quorum ({[s.(sm_round)]} ∪ s.(sm_mixed_prevote_quorum)) s)
(* LOC 47 *)
| rule_timeout_precommit s :
    s.(sm_quorum) ≤ round_votes s.(sm_precommits) s.(sm_round) →
    s.(sm_round) ∉ s.(sm_mixed_precommit_quorum) →
    rule e s [EvTimeoutPrecommit s.(sm_round)]
      (set_mixed_precommit_quorum ({[s.(sm_round)]} ∪ s.(sm_mixed_precommit_quorum)) s)
(* LOC 49 *)
| rule_decide s v r vr :
    s.(sm_proposals) !! r = Some (Some v, vr) →
    s.(sm_quorum) ≤ vote_count s.(sm_precommits) r (Some v) →
    rule e s [EvDecision v r] s.

(** Sequences of rules, with what they emit. *)
Inductive rules (e : StateMachineEvent) : StateMachine → Events → StateMachine → Prop :=
| rules_nil s : rules e s [] s
| rules_cons s o s1 o' s' : rule e s o s1 → rules e s1 o' s' → rules e s (o ++ o') s'.

Lemma rules_one e s o s' : rule e s o s' → rules e s o s'.
Proof. intros Hr. rewrite <-(app_nil_r o). by eapply rules_cons, rules_nil. Qed.

Lemma rules_trans e s o s1 o' s' : rules e s o s1 → rules e s1 o' s' → rules e s (o ++ o') s'.
Proof.
  induction 1 as [s|s o1 s1' o2 s2 Hr _ IH]; [done|]. intros H2.
  rewrite <-(assoc_L app). eapply rules_cons; [done|]. by apply IH.
Qed.

Lemma rules_cons1 ev s e s1 o s' : rule ev s [e] s1 → rules ev s1 o s' → rules ev s (e :: o) s'.
Proof. apply rules_cons. Qed.

(** ** What the rules leave alone *)

Record kept s s' : Prop := {
  kept_id : s'.(sm_id) = s.(sm_id);
  kept_round : s'.(sm_round) = s.(sm_round);
  kept_quorum : s'.(sm_quorum) = s.(sm_quorum);
  kept_skip : s'.(sm_round_skip_threshold) = s.(sm_round_skip_threshold);
  kept_observer : s'.(sm_is_observer) = s.(sm_is_observer);
  kept_proposals : s'.(sm_proposals) = s.(sm_proposals);
  kept_prevotes : s'.(sm_prevotes) = s.(sm_prevotes);
  kept_precommits : s'.(sm_precommits) = s.(sm_precommits);
  kept_awaiting : s'.(sm_awaiting_get_proposal) = s.(sm_awaiting_get_proposal);
  kept_queue : s'.(sm_events_queue) = s.(sm_events_queue);
}.

#[global] Instance kept_refl : Reflexive kept.
Proof. by split. Qed.

#[global] Instance kept_trans : Transitive kept.
Proof. intros ??? [] []. split; congruence. Qed.

Lemma rule_kept e s o s' : rule e s o s' → kept s s'.
Proof. by destruct 1; split. Qed.

Lemma rules_kept e s o s' : rules e s o s' → kept s s'.
Proof. induction 1; [done|]. etrans; [by eapply rule_kept|done]. Qed.

(** The steps of the round still to come, and the events that are handled again. *)
Definition steps_left (st : Step) : nat :=
  match st with StepPropose => 2 | StepPrevote => 1 | StepPrecommit => 0 end.

Definition requeued (e : StateMachineEvent) : bool :=
  match e with EvProposal _ _ _ | EvPrevote _ _ | EvPrecommit _ _ => true | _ => false end.

Definition n_requeued o : nat := length (filter (λ e, requeued e = true) o).

Lemma n_requeued_app o o' : n_requeued (o ++ o') = (n_requeued o + n_requeued o')%nat.
Proof. unfold n_requeued. by rewrite filter_app, length_app. Qed.

(** Each vote uses up a step of the round. *)
Lemma rules_measure e s o s' :
  rules e s o s' → (2 * steps_left s'.(sm_step) + n_requeued o ≤ 2 * steps_left s.(sm_step))%nat.
Proof.
  induction 1 as [|s o s1 o' s' Hr _ IH]; [unfold n_requeued; simpl; lia|]. rewrite n_requeued_app.
  enough (2 * steps_left s1.(sm_step) + n_requeued o ≤ 2 * steps_left s.(sm_step))%nat by lia.
  destruct Hr as [s v -> _|s v -> _|s v _ _|s -> _|s _ _ _|s _ _|]; unfold n_requeued; simpl; lia.
Qed.

Lemma rules_steps e s o s' :
  rules e s o s' → (steps_left s'.(sm_step) ≤ steps_left s.(sm_step))%nat.
Proof. intros Hr%rules_measure. lia. Qed.

(** What the rules emit belongs to the round, decisions apart. *)
Definition event_round (e : StateMachineEvent) : Round :=
  match e with
  | EvGetProposal _ r | EvProposal _ r _ | EvPrevote _ r | EvPrecommit _ r | EvDecision _ r
  | EvTimeoutPropose r | EvTimeoutPrevote r | EvTimeoutPrecommit r => r
  end.

Lemma rules_round ev s o s' e :
  rules ev s o s' → e ∈ o → requeued e = true → event_round e = s.(sm_round).
Proof.
  induction 1 as [|s o s1 o' s' Hr _ IH]; [set_solver|].
  intros [He|He]%elem_of_app Hq.
  - destruct Hr; try set_solver; apply list_elem_of_singleton in He; subst; done.
  - rewrite IH by done. apply (kept_round _ _ (rule_kept _ _ _ _ Hr)).
Qed.

(** ** Steps of the machine *)

Section steps.
Context (leader_fn : Round → ValidatorId).

Definition is_leader s r : Prop := s.(sm_is_observer) = false ∧ s.(sm_id) = leader_fn r.

(** Entering round [r]: the leader proposes its valid value or asks for a new one, the others
    wait for the proposal. *)
Inductive enter_round s r : Events → StateMachine → Prop :=
| enter_repropose v vr :
    is_leader s r → s.(sm_valid_value_round) = Some (v, vr) →
    enter_round s r [EvProposal (Some v) r (Some vr)] (set_step StepPropose (set_round r s))
| enter_propose :
    is_leader s r → s.(sm_valid_value_round) = None →
    enter_round s r [EvGetProposal None r]
      (set_awaiting_get_proposal true (set_step StepPropose (set_round r s)))
| enter_follow :
    ¬ is_leader s r →
    enter_round s r [EvTimeoutPropose r] (set_step StepPropose (set_round r s)).

(** The event is recorded (or, for a timeout, only acted upon). *)
Inductive input : StateMachineEvent → StateMachine → StateMachine → Prop :=
| input_proposal s p r vr :
    s.(sm_proposals) !! r = None →
    input (EvProposal p r vr) s (set_proposals (<[r := (p, vr)]> s.(sm_proposals)) s)
| input_prevote s p r votes :
    count_vote s.(sm_prevotes) r p = Some votes → input (EvPrevote p r) s (set_prevotes votes s)
| input_precommit s p r votes :
    count_vote s.(sm_precommits) r p = Some votes →
    input (EvPrecommit p r) s (set_precommits votes s)
| input_timeout_propose s r : input (EvTimeoutPropose r) s s
| input_timeout_prevote s r : input (EvTimeoutPrevote r) s s
| input_timeout_precommit s r : input (EvTimeoutPrecommit r) s s.

(** The rounds to which an event moves the machine: a later round from which messages of more
    than a third of the validators are known (LOC 55), or the next one when the time for
    precommitting is over (LOC 65). *)
Definition round_change (e : StateMachineEvent) s r : Prop :=
  match e with
  | EvProposal _ r' _ | EvPrevote _ r' | EvPrecommit _ r' =>
      r = r' ∧ s.(sm_round) < r ∧
      (s.(sm_round_skip_threshold) ≤ round_votes s.(sm_prevotes) r ∨
       s.(sm_round_skip_threshold) ≤ round_votes s.(sm_precommits) r)
  | EvTimeoutPrecommit r' => r' = s.(sm_round) ∧ r = r' + 1
  | _ => False
  end.

(** What the machine may do when it handles an event: answer its own request for a proposal;
    record the event and apply rules; or record it, enter another round and apply rules there,
    which has to wait when the machine asks for a proposal. *)
Inductive sm_handle : StateMachineEvent → StateMachine → Events → StateMachine → Prop :=
| handle_answer s p :
    s.(sm_awaiting_get_proposal) = true →
    sm_handle (EvGetProposal p s.(sm_round)) s [EvProposal p s.(sm_round) None]
      (set_awaiting_get_proposal false s)
| handle_rules e s s1 o s' :
    s.(sm_awaiting_get_proposal) = false → input e s s1 → rules e s1 o s' → sm_handle e s o s'
| handle_round e s s1 r o s2 o' s' :
    s.(sm_awaiting_get_proposal) = false → input e s s1 → round_change e s1 r →
    enter_round s1 r o s2 → rules e s2 o' s' → (s2.(sm_awaiting_get_proposal) = true → o' = []) →
    sm_handle e s (o ++ o') s'.

(** Runs of the machine: the events [L] are handled in turn. The queue of the events that wait
    is the business of the event loop. *)
Inductive sm_handles : Events → StateMachine → Events → StateMachine → Prop :=
| handles_nil s : sm_handles [] s [] s
| handles_queue s q L o s' :
    sm_handles L (set_events_queue q s) o s' → sm_handles L s o s'
| handles_cons e s o s1 L o' s' :
    sm_handle e s o s1 → sm_handles L s1 o' s' → sm_handles (e :: L) s (o ++ o') s'.

(** The single steps of these runs, for the invariants. *)
Inductive sm_move : StateMachine → Events → StateMachine → Prop :=
| step_rule e s o s' : rule e s o s' → sm_move s o s'
| step_round s r o s' :
    s.(sm_round) < r → s.(sm_awaiting_get_proposal) = false →
    enter_round s r o s' → sm_move s o s'
| step_input e s s' : input e s s' → sm_move s [] s'
| step_propose s p :
    s.(sm_awaiting_get_proposal) = true →
    sm_move s [EvProposal p s.(sm_round) None] (set_awaiting_get_proposal false s)
| step_queue s q : sm_move s [] (set_events_queue q s).

Inductive sm_moves : StateMachine → Events → StateMachine → Prop :=
| steps_nil s : sm_moves s [] s
| steps_cons s o s1 o' s' : sm_move s o s1 → sm_moves s1 o' s' → sm_moves s (o ++ o') s'.

Lemma steps_one s o s' : sm_move s o s' → sm_moves s o s'.
Proof. intros Hr. rewrite <-(app_nil_r o). by eapply steps_cons, steps_nil. Qed.

Lemma steps_trans s o s1 o' s' : sm_moves s o s1 → sm_moves s1 o' s' → sm_moves s (o ++ o') s'.
Proof.
  induction 1 as [s|s o1 s1' o2 s2 Hr _ IH]; [done|]. intros H2.
  rewrite <-(assoc_L app). eapply steps_cons; [done|]. by apply IH.
Qed.

Lemma rules_steps_of e s o s' : rules e s o s' → sm_moves s o s'.
Proof. induction 1; [constructor|]. eapply steps_cons; [by eapply step_rule|done]. Qed.

Lemma round_change_lt e s r : round_change e s r → s.(sm_round) < r.
Proof. destruct e; simpl; try done; lia. Qed.

Lemma input_kept e s s1 :
  input e s s1 →
  s1.(sm_round) = s.(sm_round) ∧ s1.(sm_step) = s.(sm_step) ∧
  s1.(sm_awaiting_get_proposal) = s.(sm_awaiting_get_proposal) ∧
  s1.(sm_events_queue) = s.(sm_events_queue) ∧ s1.(sm_is_observer) = s.(sm_is_observer) ∧
  s1.(sm_id) = s.(sm_id) ∧ s1.(sm_quorum) = s.(sm_quorum).
Proof. by destruct 1. Qed.

Lemma handle_moves e s o s' : sm_handle e s o s' → sm_moves s o s'.
Proof.
  destruct 1 as [s p Haw|e s s1 o s' Haw Hin Hr|e s s1 r o s2 o' s' Haw Hin Hrc Hen Hr _].
  - by apply steps_one, step_propose.
  - apply (steps_cons _ [] s1); [by eapply step_input|by eapply rules_steps_of].
  - apply (steps_cons _ [] s1); [by eapply step_input|].
    apply (steps_cons _ o s2); [|by eapply rules_steps_of].
    apply step_round with r; [by eapply round_change_lt| |done].
    by destruct (input_kept _ _ _ Hin) as (_&_&->&_).
Qed.

Lemma handles_moves L s o s' : sm_handles L s o s' → sm_moves s o s'.
Proof.
  induction 1 as [s|s q L o s' _ IH|e s o s1 L o' s' Hh _ IH].
  - apply steps_nil.
  - exact (steps_cons _ [] _ _ _ (step_queue _ q) IH).
  - eapply steps_trans; [by eapply handle_moves|done].
Qed.

(** ** Counting *)

Lemma vote_count_count votes r p votes' r' p' :
  count_vote votes r p = Some votes' →
  vote_count votes' r' p' = vote_count votes r' p' + (if decide (r' = r ∧ p' = p) then 1 else 0).
Proof.
  unfold count_vote, checked_add. case_decide; [|done]. intros [= <-].
  unfold vote_count at 1. rewrite lookup_insert. case_decide; subst.
  - rewrite lookup_insert. unfold vote_count. case_decide; subst.
    + rewrite decide_True by done. destruct (votes !! r'); simpl; [done|].
      by rewrite lookup_empty.
    + rewrite decide_False by (intros [_ ->]; done).
      destruct (votes !! r'); simpl; rewrite ?lookup_empty; simpl; lia.
  - rewrite decide_False by (intros [-> _]; done). unfold vote_count. lia.
Qed.

Lemma vote_count_mono votes r p votes' r' p' :
  count_vote votes r p = Some votes' → vote_count votes r' p' ≤ vote_count votes' r' p'.
Proof. intros ->%(vote_count_count _ _ _ _ r' p'). lia. Qed.

(** ** Votes: one per round, in order of the rounds *)

Definition prevote_round (e : StateMachineEvent) : option Round :=
  match e with EvPrevote _ r => Some r | _ => None end.
Definition precommit_round (e : StateMachineEvent) : option Round :=
  match e with EvPrecommit _ r => Some r | _ => None end.
Definition proposal_round (e : StateMachineEvent) : option Round :=
  match e with EvProposal _ r _ => Some r | _ => None end.

Lemma NoDup_omap_snoc (f : StateMachineEvent → option Round) E o (P : Round → Prop) :
  NoDup (omap f E) → (∀ e r, e ∈ E → f e = Some r → P r) →
  (o = [] ∨ ∃ e, o = [e] ∧ ∀ r, f e = Some r → ¬ P r) →
  NoDup (omap f (E ++ o)).
Proof.
  intros Hnd HP [->|(e&->&He)]; [by rewrite app_nil_r|]. rewrite omap_app. simpl.
  destruct (f e) as [r|] eqn:Hf; simpl; [|by rewrite app_nil_r].
  apply NoDup_app. split_and!; [done| |apply NoDup_singleton].
  intros x (e'&He'&Hx)%list_elem_of_omap ->%list_elem_of_singleton.
  by eapply He, HP.
Qed.

(** The rounds in which the machine can no longer prevote, precommit and propose. *)
Definition prevote_past s r : Prop :=
  r < s.(sm_round) ∨ (r = s.(sm_round) ∧ s.(sm_step) ≠ StepPropose).
Definition precommit_past s r : Prop :=
  r < s.(sm_round) ∨ (r = s.(sm_round) ∧ s.(sm_step) = StepPrecommit).
Definition proposal_past s r : Prop :=
  r < s.(sm_round) ∨ (r = s.(sm_round) ∧ s.(sm_awaiting_get_proposal) = false).

Record votes_inv s E : Prop := {
  vi_prevote : ∀ e r, e ∈ E → prevote_round e = Some r → prevote_past s r;
  vi_precommit : ∀ e r, e ∈ E → precommit_round e = Some r → precommit_past s r;
  vi_proposal : ∀ e r, e ∈ E → proposal_round e = Some r → proposal_past s r;
  vi_prevote_order : StronglySorted N.lt (omap prevote_round E);
  vi_precommit_order : StronglySorted N.lt (omap precommit_round E);
  vi_proposal_order : StronglySorted N.lt (omap proposal_round E);
}.

(** A step only adds to what is past, and emits what was not past before and is after. *)
Definition past_step (past : StateMachine → Round → Prop) (f : StateMachineEvent → option Round)
    s o s' : Prop :=
  (∀ r, past s r → past s' r) ∧
  (o = [] ∨ ∃ e, o = [e] ∧ ∀ r, f e = Some r → ¬ past s r ∧ past s' r).

Lemma sorted_omap_snoc (f : StateMachineEvent → option Round) E o :
  StronglySorted N.lt (omap f E) →
  (o = [] ∨ ∃ e, o = [e] ∧ ∀ r, f e = Some r → ∀ e' r', e' ∈ E → f e' = Some r' → r' < r) →
  StronglySorted N.lt (omap f (E ++ o)).
Proof.
  intros Hs [->|(e&->&He)]; [by rewrite app_nil_r|]. rewrite omap_app. simpl.
  destruct (f e) as [r|] eqn:Hf; simpl; [|by rewrite app_nil_r].
  apply StronglySorted_app_2; [|done|repeat constructor].
  intros r1 r2 (e'&He'&Hr1)%list_elem_of_omap ->%list_elem_of_singleton. eauto.
Qed.

Lemma sorted_lt_NoDup (l : list Round) : StronglySorted N.lt l → NoDup l.
Proof.
  induction 1 as [|r l _ IH Hr]; constructor; [|done]. intros Hin.
  rewrite Forall_forall in Hr. specialize (Hr r Hin). lia.
Qed.

(** What is past is before what is not. *)
Definition past_before (past : StateMachine → Round → Prop) : Prop :=
  ∀ s r r', past s r' → ¬ past s r → r' < r.

Lemma pasts_before :
  past_before prevote_past ∧ past_before precommit_past ∧ past_before proposal_past.
Proof.
  unfold past_before, prevote_past, precommit_past, proposal_past.
  split_and!; intros s r r' H1 H2; destruct (decide (r = s.(sm_round))); naive_solver lia.
Qed.

Lemma past_step_inv past f s o s' E :
  past_before past → past_step past f s o s' →
  (∀ e r, e ∈ E → f e = Some r → past s r) → StronglySorted N.lt (omap f E) →
  (∀ e r, e ∈ E ++ o → f e = Some r → past s' r) ∧ StronglySorted N.lt (omap f (E ++ o)).
Proof.
  intros Hb [Hmono Ho] HE Hs. split.
  - intros e r [He|He]%elem_of_app Hf; [by eauto|]. destruct Ho as [->|(e'&->&He')]; [set_solver|].
    apply list_elem_of_singleton in He as ->. by apply He'.
  - apply sorted_omap_snoc; [done|]. destruct Ho as [->|(e&->&He)]; [by left|].
    right. exists e. split; [done|]. intros r Hf e' r' He' Hf'.
    apply (Hb s); [by eapply HE|by apply He].
Qed.

Ltac past_case :=
  simpl in *; first [left; lia | right; split; congruence | left; congruence
    | exfalso; congruence].

Ltac past_solve :=
  split; [intros ? [?|[??]]; past_case|];
  first [by left | right; eexists; split; [reflexivity|]; intros ?; simpl; intros [=]; subst;
    (split; [intros [?|[??]]; first [lia | congruence]|past_case])].

Lemma step_past s o s' :
  sm_move s o s' →
  past_step prevote_past prevote_round s o s' ∧
  past_step precommit_past precommit_round s o s' ∧
  past_step proposal_past proposal_round s o s'.
Proof.
  unfold past_step, prevote_past, precommit_past, proposal_past.
  destruct 1 as [e s o s' Hr|s r o s' Hlt Haw Hen|e s s' Hin|s p Haw|s q];
    [destruct Hr|destruct Hen|destruct Hin|..]; (split; [|split]); past_solve.
Qed.
Lemma votes_inv_step s o s' E : votes_inv s E → sm_move s o s' → votes_inv s' (E ++ o).
Proof.
  intros [] (H1&H2&H3)%step_past. destruct pasts_before as (B1&B2&B3).
  edestruct (past_step_inv _ _ _ _ _ E B1 H1), (past_step_inv _ _ _ _ _ E B2 H2),
    (past_step_inv _ _ _ _ _ E B3 H3); [done..|]. by split.
Qed.

(** ** Locks *)

Definition has_quorum s r (p : option ProposalContentId) : Prop :=
  s.(sm_quorum) ≤ vote_count s.(sm_prevotes) r p.

Record lock_inv s E : Prop := {
  (** A precommit for a value has a quorum of prevotes behind it. *)
  ki_precommit : ∀ v r, EvPrecommit (Some v) r ∈ E → has_quorum s r (Some v);
  (** The lock is at least as recent as every such precommit. *)
  ki_locked : ∀ v r, EvPrecommit (Some v) r ∈ E →
    ∃ lv lr, s.(sm_locked_value_round) = Some (lv, lr) ∧ r ≤ lr;
  ki_lock : ∀ lv lr, s.(sm_locked_value_round) = Some (lv, lr) →
    precommit_past s lr ∧ has_quorum s lr (Some lv);
  (** A prevote for a value after a precommit follows a quorum for that value since. *)
  ki_prevote : ∀ v r v' r', EvPrevote (Some v) r ∈ E → EvPrecommit (Some v') r' ∈ E → r' < r →
    ∃ vr, r' ≤ vr ∧ vr < r ∧ has_quorum s vr (Some v);
}.

Lemma move_quorum s o s' r p : sm_move s o s' → has_quorum s r p → has_quorum s' r p.
Proof.
  unfold has_quorum. destruct 1 as [e s o s' Hr|s r' o s' _ _ Hen|e s s' Hin| |]; try done.
  - destruct (rule_kept _ _ _ _ Hr) as []. congruence.
  - by destruct Hen.
  - destruct Hin as [|s p' r' vs Hc| | | |]; try done.
    simpl. pose proof (vote_count_mono _ _ _ _ r p Hc). lia.
Qed.

(** A rule that changes neither the lock nor the votes keeps the lock invariant. *)
Lemma lock_inv_frame s s' E o :
  (∀ r p, has_quorum s r p → has_quorum s' r p) →
  (∀ r, precommit_past s r → precommit_past s' r) →
  s'.(sm_locked_value_round) = s.(sm_locked_value_round) →
  (∀ v r, EvPrecommit (Some v) r ∉ o) → (∀ v r, EvPrevote (Some v) r ∉ o) →
  lock_inv s E → lock_inv s' (E ++ o).
Proof.
  intros Hq Hp Hl Ho1 Ho2 [K1 K2 K3 K4].
  assert (∀ v r, EvPrecommit (Some v) r ∈ E ++ o → EvPrecommit (Some v) r ∈ E) as HE1.
  { intros v r [?|?]%elem_of_app; [done|]. by destruct (Ho1 v r). }
  assert (∀ v r, EvPrevote (Some v) r ∈ E ++ o → EvPrevote (Some v) r ∈ E) as HE2.
  { intros v r [?|?]%elem_of_app; [done|]. by destruct (Ho2 v r). }
  split; intros *; rewrite ?Hl.
  - intros ?%HE1. by apply Hq, K1.
  - intros ?%HE1. by eapply K2.
  - intros [??]%K3. auto.
  - intros ?%HE2 ?%HE1 Hlt. destruct (K4 v r v' r') as (vr&?&?&?); eauto.
Qed.

(** Prevoting for a value, given that it is allowed. *)
Lemma lock_inv_prevote e s E value :
  s.(sm_step) = StepPropose → prevote_allowed e s value → votes_inv s E → lock_inv s E →
  lock_inv (set_step StepPrevote s) (E ++ [EvPrevote value s.(sm_round)]).
Proof.
  intros Hst Hal HV [K1 K2 K3 K4]. split; intros *; unfold has_quorum in *; simpl.
  - intros [?|?%list_elem_of_singleton]%elem_of_app; [by apply K1|done].
  - intros [?|?%list_elem_of_singleton]%elem_of_app; [by eapply K2|done].
  - intros [Hp ?]%K3. split; [|done]. destruct Hp as [?|[??]]; [by left|congruence].
  - intros Hv [Hpc|?%list_elem_of_singleton]%elem_of_app Hlt; [|done].
    apply elem_of_app in Hv as [Hv|[= <- ->]%list_elem_of_singleton]; [by eapply K4|].
    destruct (K2 _ _ Hpc) as (lv&lr&Hl&Hle). destruct (K3 _ _ Hl) as [Hpast Hq].
    destruct Hpast as [Hlr|[_ ?]]; [|congruence].
    destruct Hal as (vr&[_ Hready]&Hlk).
    destruct (Hlk _ _ Hl) as [->|(r1&->&Hr1)]; [by exists lr|].
    destruct (Hready _ eq_refl). exists r1. split; [lia|done].
Qed.

Lemma lock_inv_lock s E v :
  s.(sm_step) = StepPrevote → new_prevote_quorum s v → votes_inv s E → lock_inv s E →
  lock_inv (set_step StepPrecommit (lock v s)) (E ++ [EvPrecommit (Some v) s.(sm_round)]).
Proof.
  intros Hst (_&Hq&_) HV [K1 K2 K3 K4].
  assert (∀ v r, EvPrecommit (Some v) r ∈ E → r < s.(sm_round)) as Hpast.
  { intros v' r Hin. destruct (vi_precommit _ _ HV _ r Hin) as [?|[_ ?]]; [done..|congruence]. }
  split; intros *; unfold has_quorum in *; simpl.
  - intros [?|[= -> ->]%list_elem_of_singleton]%elem_of_app; [by apply K1|done].
  - intros [Hin|[= -> ->]%list_elem_of_singleton]%elem_of_app; eexists _, _; (split; [done|]);
      [apply Hpast in Hin|]; lia.
  - intros [= <- <-]. split; [by right|done].
  - intros [Hv|?%list_elem_of_singleton]%elem_of_app; [|done].
    intros [Hpc|[= -> ->]%list_elem_of_singleton]%elem_of_app Hlt; [by eapply K4|].
    destruct (vi_prevote _ _ HV _ r Hv) as [?|[? _]]; [done|lia..].
Qed.

Lemma lock_inv_step s o s' E :
  votes_inv s E → lock_inv s E → sm_move s o s' → lock_inv s' (E ++ o).
Proof.
  intros HV HK Hm. pose proof (step_past _ _ _ Hm) as (_&[Hpast _]&_).
  assert (∀ r p, has_quorum s r p → has_quorum s' r p) as Hq by (intros; by eapply move_quorum).
  destruct Hm as [e s o s' Hr|s r o s' Hlt Haw Hen|e s s' Hin|s p Haw|s q];
    [destruct Hr as [s value Hst Hal|s v Hst Hnq| | | | |]|destruct Hen|destruct Hin|..];
    try (by eapply lock_inv_prevote); try (by apply lock_inv_lock);
    (apply (lock_inv_frame s); [done..| | |done]); intros *; simpl;
    rewrite ?list_elem_of_singleton; set_solver.
Qed.

(** ** Proposals and decisions *)

Record value_inv s E : Prop := {
  (** The valid value was proposed and got a quorum of prevotes. *)
  wi_valid : ∀ v r, s.(sm_valid_value_round) = Some (v, r) →
    r ≤ s.(sm_round) ∧ (∃ vr, s.(sm_proposals) !! r = Some (Some v, vr)) ∧ has_quorum s r (Some v);
  (** A value is proposed again only with such a quorum in an earlier round. *)
  wi_repropose : ∀ p r vr, EvProposal p r (Some vr) ∈ E →
    vr < r ∧ (∃ v vr', p = Some v ∧ s.(sm_proposals) !! vr = Some (Some v, vr')) ∧ has_quorum s vr p;
  (** A decision has a proposal and a quorum of precommits. *)
  wi_decision : ∀ v r, EvDecision v r ∈ E →
    (∃ vr, s.(sm_proposals) !! r = Some (Some v, vr)) ∧
    s.(sm_quorum) ≤ vote_count s.(sm_precommits) r (Some v);
}.

Lemma move_proposals s o s' r x :
  sm_move s o s' → s.(sm_proposals) !! r = Some x → s'.(sm_proposals) !! r = Some x.
Proof.
  destruct 1 as [e s o s' Hr|s r' o s' _ _ Hen|e s s' Hin| |]; try done.
  - by rewrite (kept_proposals _ _ (rule_kept _ _ _ _ Hr)).
  - by destruct Hen.
  - destruct Hin as [s p r' vr Hp| | | | |]; try done. simpl. intros Hx. rewrite lookup_insert_ne by congruence. done.
Qed.

Lemma move_precommits s o s' r p :
  sm_move s o s' → s.(sm_quorum) ≤ vote_count s.(sm_precommits) r p →
  s'.(sm_quorum) ≤ vote_count s'.(sm_precommits) r p.
Proof.
  destruct 1 as [e s o s' Hr|s r' o s' _ _ Hen|e s s' Hin| |]; try done.
  - by rewrite (kept_quorum _ _ (rule_kept _ _ _ _ Hr)), (kept_precommits _ _ (rule_kept _ _ _ _ Hr)).
  - by destruct Hen.
  - destruct Hin as [| |s p' r' vs Hc| | |]; try done. simpl. pose proof (vote_count_mono _ _ _ _ r p Hc). lia.
Qed.

Lemma move_round s o s' : sm_move s o s' → s.(sm_round) ≤ s'.(sm_round).
Proof.
  destruct 1 as [e s o s' Hr|s r' o s' Hlt _ Hen|e s s' Hin| |]; simpl; try lia.
  - rewrite (kept_round _ _ (rule_kept _ _ _ _ Hr)). lia.
  - destruct Hen; simpl; lia.
  - destruct (input_kept _ _ _ Hin) as [-> _]. lia.
Qed.

(** How a step sets the valid value, and what it emits. *)
Lemma move_valid s o s' v r :
  sm_move s o s' → s'.(sm_valid_value_round) = Some (v, r) →
  s.(sm_valid_value_round) = Some (v, r) ∨
  (r = s.(sm_round) ∧ (∃ vr, s.(sm_proposals) !! r = Some (Some v, vr)) ∧ has_quorum s r (Some v)).
Proof.
  destruct 1 as [e s o s' Hr|s r' o s' Hlt _ Hen|e s s' Hin| |]; try (by left).
  - destruct Hr as [| s v' _ (Hp&Hq&_)|s v' _ (Hp&Hq&_)| | | |]; try (by left);
      simpl; intros [= <- <-]; by right.
  - destruct Hen; by left.
  - destruct Hin; by left.
Qed.

Lemma move_repropose s o s' p r vr :
  sm_move s o s' → EvProposal p r (Some vr) ∈ o →
  ∃ v, p = Some v ∧ s.(sm_valid_value_round) = Some (v, vr) ∧ s.(sm_round) < r.
Proof.
  destruct 1 as [e s o s' Hr|s r' o s' Hlt _ Hen| | |]; try set_solver.
  - destruct Hr; set_solver.
  - destruct Hen as [v vr' _ Hv| |]; [|set_solver..].
    intros [= -> -> ->]%list_elem_of_singleton. by exists v.
Qed.

Lemma move_decision s o s' v r :
  sm_move s o s' → EvDecision v r ∈ o →
  (∃ vr, s.(sm_proposals) !! r = Some (Some v, vr)) ∧
  s.(sm_quorum) ≤ vote_count s.(sm_precommits) r (Some v).
Proof.
  destruct 1 as [e s o s' Hr|s r' o s' Hlt _ Hen| | |]; try set_solver.
  - destruct Hr; set_solver.
  - destruct Hen; set_solver.
Qed.

Lemma value_inv_step s o s' E : value_inv s E → sm_move s o s' → value_inv s' (E ++ o).
Proof.
  intros [W1 W2 W3] Hm. pose proof (move_round _ _ _ Hm) as Hround.
  assert (∀ v r, s.(sm_valid_value_round) = Some (v, r) ∨
    (r = s.(sm_round) ∧ (∃ vr, s.(sm_proposals) !! r = Some (Some v, vr)) ∧ has_quorum s r (Some v)) →
    r ≤ s.(sm_round) ∧ (∃ vr, s'.(sm_proposals) !! r = Some (Some v, vr)) ∧ has_quorum s' r (Some v))
    as Hval.
  { intros v r Hor. assert (r ≤ s.(sm_round) ∧ (∃ vr, s.(sm_proposals) !! r = Some (Some v, vr)) ∧
      has_quorum s r (Some v)) as (?&(vr&?)&?).
    { destruct Hor as [?%W1|(->&?&?)]; [done|]. split; [lia|done]. }
    split_and!; [done|exists vr; by eapply move_proposals|by eapply move_quorum]. }
  split; intros *.
  - intros Hv%(move_valid _ _ _ _ _ Hm)%Hval. split; [lia|]. apply Hv.
  - intros [Hin|Hin]%elem_of_app.
    + destruct (W2 _ _ _ Hin) as (?&(v&vr'&->&?)&?). split_and!; [done| |by eapply move_quorum].
      exists v, vr'. split; [done|]. by eapply move_proposals.
    + destruct (move_repropose _ _ _ _ _ _ Hm Hin) as (v&->&Hv&Hlt).
      destruct (Hval v vr) as (?&(vr'&?)&?); [by left|]. split_and!; [lia|eauto|done].
  - intros [Hin|Hin]%elem_of_app;
      [destruct (W3 _ _ Hin) as [(vr&?) ?]|destruct (move_decision _ _ _ _ _ Hm Hin) as [(vr&?) ?]];
      (split; [exists vr; by eapply move_proposals|by eapply move_precommits]).
Qed.

(** ** The invariant of a machine with its emitted events *)

Record sm_inv s E : Prop := {
  si_votes : votes_inv s E;
  si_lock : lock_inv s E;
  si_value : value_inv s E;
}.

Lemma sm_inv_step s o s' E : sm_inv s E → sm_move s o s' → sm_inv s' (E ++ o).
Proof.
  intros [] Hm. split; [by eapply votes_inv_step|by eapply lock_inv_step|by eapply value_inv_step].
Qed.

Lemma sm_inv_steps s o s' E : sm_inv s E → sm_moves s o s' → sm_inv s' (E ++ o).
Proof.
  intros HI Hm. revert E HI. induction Hm as [s|s o s1 o' s' Hm _ IH]; intros E HI.
  - by rewrite app_nil_r.
  - rewrite (assoc_L app). eapply IH, sm_inv_step; done.
Qed.
End steps.
