(* ===== verification/StateMachineProofs.v ===== *)
(** The consensus state machine refines the Tendermint rules: every handler of [StateMachine]
    performs a sequence of rules and emits what they emit, the recursion and the event loop
    always have enough fuel, and no vote is lost or counted twice. *)

From S2P Require Import Prelude StarknetApi StateMachine TendermintRules.

Implicit Types (s : StateMachine) (r : Round) (v : ProposalContentId) (o E : Events).

(** ** The rules of the current round *)

(** The sums of votes fit [u32]. *)
Definition votes_fit s : Prop :=
  ∀ r, round_votes s.(sm_prevotes) r ≤ u32_max ∧ round_votes s.(sm_precommits) r ≤ u32_max.

(** [f] performs rules, whatever event is handled, with fuel for the steps left when they are
    fewer than [n]. *)
Definition performs (n : nat) (f : M StateMachine OutOfFuel Events) : Prop :=
  ∀ ev s, (steps_left s.(sm_step) < n)%nat →
    wp f s (λ res s', match res with
                      | Ok o => rules ev s o s'
                      | Err _ => False
                      | Panic => ¬ votes_fit s
                      end).

Lemma votes_fit_kept s s' : kept s s' → votes_fit s' ↔ votes_fit s.
Proof.
  intros Hk. unfold votes_fit. by rewrite (kept_prevotes _ _ Hk), (kept_precommits _ _ Hk).
Qed.

Lemma performs_nil n : performs n (mret []).
Proof. intros ev s _. apply rules_nil. Qed.

(** A rule, then the rules of [f]. *)
Lemma performs_after n f ev s e s1 (Q : result OutOfFuel Events → StateMachine → Prop) :
  performs n f → (steps_left s1.(sm_step) < n)%nat → rule ev s [e] s1 →
  (∀ o s', rules ev s (e :: o) s' → Q (Ok (e :: o)) s') → (∀ s', ¬ votes_fit s → Q Panic s') →
  wp (rest ← f; mret (e :: rest)) s1 Q.
Proof.
  intros Hf Hn Hr HOk HPanic. apply wp_bind. eapply wp_mono; [by apply (Hf ev)|].
  intros [o|e'|] s'; [|done|].
  - intros Hrs. apply HOk. by eapply rules_cons1.
  - intros Hfit. apply HPanic. by rewrite <-(votes_fit_kept _ _ (rule_kept _ _ _ _ Hr)).
Qed.

Lemma performs_append_all n fs : Forall (performs n) fs → performs n (append_all fs).
Proof.
  induction 1 as [|f fs Hf _ IH]; intros ev s Hn; [apply rules_nil|]. simpl.
  apply wp_bind. eapply wp_mono; [by apply (Hf ev)|]. intros [o|e|] s1; [|done..]. intros Hr1.
  pose proof (rules_steps _ _ _ _ Hr1). pose proof (rules_kept _ _ _ _ Hr1) as Hk.
  apply wp_bind. eapply wp_mono; [apply (IH ev); lia|]. intros [o'|e|] s2; [|done|].
  - intros Hr2. unfold wp. simpl. by eapply rules_trans.
  - by rewrite (votes_fit_kept _ _ Hk).
Qed.

(** A vote, then the rules of the next step. *)
Lemma wp_advance rec step s e (Q : result OutOfFuel Events → StateMachine → Prop) :
  step ≠ StepPropose →
  wp (rest ← rec; mret (e :: rest)) (set_step step s) Q →
  wp (rest ← advance_to_step rec step; mret (e :: rest)) s Q.
Proof. by destruct step. Qed.

Lemma wp_round_has_enough_votes {B} votes r t (f : bool → M StateMachine OutOfFuel B) s Q :
  (round_votes votes r ≤ u32_max → wp (f (bool_decide (t ≤ round_votes votes r))) s Q) →
  (¬ round_votes votes r ≤ u32_max → Q Panic s) →
  wp (enough ← round_has_enough_votes votes r t; f enough) s Q.
Proof.
  intros HOk HPanic. unfold round_has_enough_votes, wp. mstep.
  destruct (decide (round_votes votes r ≤ u32_max)) as [Hb|Hb].
  - rewrite (bool_decide_true (round_votes votes r ≤ u32_max)) by done. mstep. by apply HOk.
  - rewrite (bool_decide_false (round_votes votes r ≤ u32_max)) by done. mstep. by apply HPanic.
Qed.

Lemma prevotes_overflow s r : ¬ round_votes s.(sm_prevotes) r ≤ u32_max → ¬ votes_fit s.
Proof. intros H Hfit. apply H, Hfit. Qed.

Lemma precommits_overflow s r : ¬ round_votes s.(sm_precommits) r ≤ u32_max → ¬ votes_fit s.
Proof. intros H Hfit. apply H, Hfit. Qed.

Section upons.
Context (n : nat) (rec : M StateMachine OutOfFuel Events) (Hrec : performs n rec).

Lemma upon_new_proposal_performs : performs (S n) (upon_new_proposal rec).
Proof.
  intros ev s Hn. unfold upon_new_proposal. apply wp_get_st.
  case_decide as Hst; [apply rules_nil|].
  destruct (s.(sm_proposals) !! s.(sm_round)) as [[p [vr|]]|] eqn:Hp; try apply rules_nil.
  apply wp_advance; [done|]. eapply (performs_after n rec ev s); [done| | |done..].
  - simpl. rewrite Hst in Hn. simpl in Hn. lia.
  - set (vote := match p with Some _ => _ | None => _ end).
    assert (∃ value, vote = EvPrevote value s.(sm_round) ∧ prevote_allowed ev s value) as (value&->&?).
    { assert (proposal_ready s p None) as Hready by done.
      unfold vote. destruct p as [v|]; [|exists None; split; [done|]; right; by exists None, None].
      destruct s.(sm_locked_value_round) as [[lv lr]|] eqn:Hl; [case_decide as Hlv|].
      - exists (Some v). split; [done|]. exists None. split; [done|]. intros ??. rewrite Hl. naive_solver.
      - exists None. split; [done|]. right. exists (Some v), None. split; [done|].
        intros ? [= <-] Had. destruct (Had _ _ Hl); naive_solver.
      - exists (Some v). split; [done|]. exists None. split; [done|]. intros ??. by rewrite Hl. }
    by apply rule_prevote.
Qed.

Lemma upon_reproposal_performs : performs (S n) (upon_reproposal rec).
Proof.
  intros ev s Hn. unfold upon_reproposal. apply wp_get_st.
  case_decide as Hst; [apply rules_nil|].
  destruct (s.(sm_proposals) !! s.(sm_round)) as [[p [vr|]]|] eqn:Hp; try apply rules_nil.
  case_decide as Hlt; [apply rules_nil|].
  destruct (value_has_enough_votes _ _ _ _) eqn:Hq; [|apply rules_nil].
  apply bool_decide_eq_true in Hq. cbn [negb].
  apply wp_advance; [done|]. eapply (performs_after n rec ev s); [done| | |done..].
  - simpl. rewrite Hst in Hn. simpl in Hn. lia.
  - set (vote := match p with Some _ => _ | None => _ end).
    assert (∃ value, vote = EvPrevote value s.(sm_round) ∧ prevote_allowed ev s value) as (value&->&?).
    { assert (proposal_ready s p (Some vr)) as Hready by (split; [done|]; intros ? [= <-]; split; [lia|done]).
      unfold vote. destruct p as [v|]; [|exists None; split; [done|]; right; by exists None, (Some vr)].
      destruct s.(sm_locked_value_round) as [[lv lr]|] eqn:Hl; [case_decide as Hlv|].
      - exists (Some v). split; [done|]. exists (Some vr). split; [done|]. intros ??. rewrite Hl. naive_solver.
      - exists None. split; [done|]. right. exists (Some v), (Some vr). split; [done|].
        intros ? [= <-] Had. destruct (Had _ _ Hl); naive_solver.
      - exists (Some v). split; [done|]. exists (Some vr). split; [done|]. intros ??. by rewrite Hl. }
    by apply rule_prevote.
Qed.

Lemma timeout_prevote_performs : performs (S n) maybe_initiate_timeout_prevote.
Proof.
  intros ev s Hn. unfold maybe_initiate_timeout_prevote. apply wp_get_st.
  case_decide as Hst; [apply rules_nil|].
  apply wp_round_has_enough_votes; [|by apply prevotes_overflow]. intros _.
  case_bool_decide; [|apply rules_nil]. cbn [negb]. case_decide; [apply rules_nil|].
  apply rules_one. by apply rule_timeout_prevote.
Qed.

Lemma upon_prevote_quorum_performs : performs (S n) (upon_prevote_quorum rec).
Proof.
  intros ev s Hn. unfold upon_prevote_quorum. apply wp_get_st.
  case_decide as Hst; [apply rules_nil|].
  destruct (s.(sm_proposals) !! s.(sm_round)) as [[[v|] vr]|] eqn:Hp; try apply rules_nil.
  destruct (value_has_enough_votes _ _ _ _) eqn:Hq; [|apply rules_nil].
  apply bool_decide_eq_true in Hq. cbn [negb]. case_decide as Hnew; [apply rules_nil|].
  assert (new_prevote_quorum s v) by (by split; [exists vr|]).
  apply wp_modify, wp_modify. case_decide as Hst'.
  { apply rules_one. apply rule_valid; [|done]. by destruct s.(sm_step). }
  apply wp_modify, wp_advance; [done|]. eapply (performs_after n rec ev s); [done| | |done..].
  - simpl. rewrite Hst' in Hn. simpl in Hn. lia.
  - by apply rule_lock.
Qed.

Lemma upon_nil_prevote_quorum_performs : performs (S n) (upon_nil_prevote_quorum rec).
Proof.
  intros ev s Hn. unfold upon_nil_prevote_quorum. apply wp_get_st.
  case_decide as Hst; [apply rules_nil|].
  destruct (value_has_enough_votes _ _ _ _) eqn:Hq; [|apply rules_nil]. cbn [negb].
  apply bool_decide_eq_true in Hq.
  apply wp_advance; [done|]. eapply (performs_after n rec ev s); [done| | |done..].
  - simpl. rewrite Hst in Hn. simpl in Hn. lia.
  - apply rule_precommit_nil; [done|by left].
Qed.

Lemma timeout_precommit_performs : performs (S n) maybe_initiate_timeout_precommit.
Proof.
  intros ev s Hn. unfold maybe_initiate_timeout_precommit. apply wp_get_st.
  apply wp_round_has_enough_votes; [|by apply precommits_overflow]. intros _.
  case_bool_decide; [|apply rules_nil]. cbn [negb]. case_decide; [apply rules_nil|].
  by apply rules_one, rule_timeout_precommit.
Qed.

Lemma upon_decision_performs r : performs (S n) (upon_decision r).
Proof.
  intros ev s Hn. unfold upon_decision. apply wp_get_st.
  destruct (s.(sm_proposals) !! r) as [[[v|] vr]|] eqn:Hp; try apply rules_nil.
  destruct (value_has_enough_votes _ _ _ _) eqn:Hq; [|apply rules_nil].
  apply bool_decide_eq_true in Hq. cbn [negb]. apply rules_one. by eapply rule_decide.
Qed.
End upons.

Lemma current_round_upons_fuel_performs n : performs n (current_round_upons_fuel n).
Proof.
  induction n as [|n IH]; [intros ev s Hn; lia|]. apply performs_append_all. repeat constructor.
  - by apply upon_new_proposal_performs.
  - by apply upon_reproposal_performs.
  - by apply timeout_prevote_performs.
  - by apply upon_prevote_quorum_performs.
  - by apply upon_nil_prevote_quorum_performs.
  - by apply timeout_precommit_performs.
  - intros ev s Hn. apply wp_get_st. by apply (upon_decision_performs n).
Qed.

Lemma current_round_upons_performs : performs 3 current_round_upons.
Proof. apply current_round_upons_fuel_performs. Qed.

Lemma past_round_upons_performs r : performs 3 (past_round_upons r).
Proof.
  apply performs_append_all. repeat constructor.
  - intros ev s Hn. eapply upon_reproposal_performs; [apply current_round_upons_performs|lia].
  - apply upon_decision_performs.
Qed.

Lemma steps_left_lt st : (steps_left st < 3)%nat.
Proof. destruct st; simpl; lia. Qed.

(** ** Handlers *)

Section handlers.
Context (leader_fn : Round → ValidatorId).

(** What [advance_to_round] does: enter the round and, unless a proposal is requested, apply the
    rules. *)
Inductive entered ev s r : Events → StateMachine → Prop :=
| entered_await s' :
    enter_round leader_fn s r [EvGetProposal None r] s' → entered ev s r [EvGetProposal None r] s'
| entered_rules e s1 o s' :
    enter_round leader_fn s r [e] s1 → s1.(sm_awaiting_get_proposal) = s.(sm_awaiting_get_proposal) →
    rules ev s1 o s' → (∀ p r', e ≠ EvGetProposal p r') → entered ev s r (e :: o) s'.

Lemma advance_to_round_spec ev r s :
  wp (advance_to_round leader_fn r) s (λ res s',
    match res with
    | Ok o => entered ev s r o s'
    | Err _ => False
    | Panic => ¬ votes_fit s
    end).
Proof.
  unfold advance_to_round. apply wp_modify, wp_modify, wp_get_st. simpl.
  assert (∀ e, enter_round leader_fn s r [e] (set_step StepPropose (set_round r s)) →
    (∀ p r', e ≠ EvGetProposal p r') →
    wp (rest ← current_round_upons; mret (e :: rest)) (set_step StepPropose (set_round r s))
      (λ res s', match res with
                 | Ok o => entered ev s r o s' | Err _ => False | Panic => ¬ votes_fit s end)) as Hrest.
  { intros e Hen Hne. apply wp_bind.
    eapply wp_mono; [apply (current_round_upons_performs ev), steps_left_lt|].
    intros [o| |] s'; [|done..]. intros Hr. by eapply entered_rules. }
  destruct (_ && _) eqn:Hl.
  - apply andb_true_iff in Hl as [Hob%negb_true_iff Hid%bool_decide_eq_true].
    destruct s.(sm_valid_value_round) as [[v vr]|] eqn:Hv.
    + apply Hrest; [|done]. by apply enter_repropose.
    + apply entered_await. by apply enter_propose.
  - apply Hrest; [|done]. apply enter_follow. intros [Hob Hid].
    apply andb_false_iff in Hl as [Hl|Hl]; [by rewrite Hob in Hl|].
    by apply bool_decide_eq_false in Hl.
Qed.

(** What [handle_event_internal] does with an event. *)
Inductive handled : StateMachineEvent → StateMachine → Events → StateMachine → Prop :=
| handled_get_proposal s p :
    s.(sm_awaiting_get_proposal) = true →
    handled (EvGetProposal p s.(sm_round)) s [EvProposal p s.(sm_round) None]
      (set_awaiting_get_proposal false s)
| handled_rules e s s1 o s' :
    s.(sm_awaiting_get_proposal) = false → input e s s1 → rules e s1 o s' → handled e s o s'
| handled_round e s s1 r o s' :
    s.(sm_awaiting_get_proposal) = false → input e s s1 → round_change e s1 r →
    entered e s1 r o s' → handled e s o s'.

(** The conditions under which the code does not panic on an event. *)
Definition event_ok s (e : StateMachineEvent) : Prop :=
  match e with
  | EvGetProposal _ r => s.(sm_awaiting_get_proposal) = true ∧ r = s.(sm_round)
  | EvProposal _ r _ =>
      s.(sm_awaiting_get_proposal) = false ∧ s.(sm_proposals) !! r = None ∧ votes_fit s
  | EvPrevote p r => s.(sm_awaiting_get_proposal) = false ∧
      ∃ votes, count_vote s.(sm_prevotes) r p = Some votes ∧ votes_fit (set_prevotes votes s)
  | EvPrecommit p r => s.(sm_awaiting_get_proposal) = false ∧
      ∃ votes, count_vote s.(sm_precommits) r p = Some votes ∧ votes_fit (set_precommits votes s)
  | EvDecision _ _ => False
  | EvTimeoutPropose _ | EvTimeoutPrevote _ => s.(sm_awaiting_get_proposal) = false ∧ votes_fit s
  | EvTimeoutPrecommit r => s.(sm_awaiting_get_proposal) = false ∧ votes_fit s ∧
      (r = s.(sm_round) → r < u32_max)
  end.

Definition handles e (f : M StateMachine OutOfFuel Events) s : Prop :=
  wp f s (λ res s', match res with
                    | Ok o => handled e s o s'
                    | Err _ => False
                    | Panic => ¬ event_ok s e
                    end).

(** After the input, the rules of the event's round. *)
Lemma map_round_to_upons_spec e s s1 :
  s.(sm_awaiting_get_proposal) = false → input e s s1 → (event_ok s e → votes_fit s1) →
  s1.(sm_round) = s.(sm_round) → requeued e = true →
  wp (map_round_to_upons leader_fn (event_round e)) s1 (λ res s',
    match res with
    | Ok o => handled e s o s'
    | Err _ => False
    | Panic => ¬ event_ok s e
    end).
Proof.
  intros Haw Hin Hok Hround Hrq. unfold map_round_to_upons. apply wp_get_st. rewrite Hround.
  assert (∀ f, performs 3 f → wp f s1 (λ res s', match res with
    | Ok o => handled e s o s' | Err _ => False | Panic => ¬ event_ok s e end)) as Hperf.
  { intros f Hf. eapply wp_mono; [apply (Hf e), steps_left_lt|]. intros [o| |] s'; [|done|naive_solver].
    intros Hr. by eapply handled_rules. }
  destruct (N.compare_spec (event_round e) s.(sm_round)) as [Heq|Hlt|Hgt].
  - apply Hperf, current_round_upons_performs.
  - apply Hperf, past_round_upons_performs.
  - unfold maybe_advance_to_round. apply wp_get_st.
    assert (s1.(sm_round_skip_threshold) ≤ round_votes s1.(sm_prevotes) (event_round e) ∨
      s1.(sm_round_skip_threshold) ≤ round_votes s1.(sm_precommits) (event_round e) →
      wp (advance_to_round leader_fn (event_round e)) s1 (λ res s', match res with
      | Ok o => handled e s o s' | Err _ => False | Panic => ¬ event_ok s e end)) as Hadv.
    { intros Hskip. eapply wp_mono; [apply (advance_to_round_spec e)|].
      intros [o| |] s'; [|done|naive_solver].
      intros Hen. eapply handled_round; [done..| |done]. rewrite <-Hround in Hgt. by destruct e. }
    apply wp_round_has_enough_votes; [|intros Ho%prevotes_overflow; naive_solver]. intros _.
    case_bool_decide; [by apply Hadv; left|].
    apply wp_round_has_enough_votes; [|intros Ho%precommits_overflow; naive_solver]. intros _.
    case_bool_decide; [by apply Hadv; right|]. eapply handled_rules; [done..|apply rules_nil].
Qed.
(** A timeout that votes in the current step. *)
Lemma timeout_vote_spec e step vote s :
  s.(sm_awaiting_get_proposal) = false → input e s s → (event_ok s e → votes_fit s) →
  step ≠ StepPropose → rule e s [vote] (set_step step s) →
  wp (rest ← advance_to_step current_round_upons step; mret (vote :: rest)) s (λ res s',
    match res with
    | Ok o => handled e s o s'
    | Err _ => False
    | Panic => ¬ event_ok s e
    end).
Proof.
  intros Haw Hin Hok Hst Hr. apply wp_advance; [done|].
  eapply (performs_after 3 _ e s);
    [apply current_round_upons_performs|apply steps_left_lt|done| |naive_solver].
  intros o s' Hrs. by eapply handled_rules.
Qed.

Lemma handle_event_internal_spec e s : handles e (handle_event_internal leader_fn e) s.
Proof.
  unfold handles, handle_event_internal. apply wp_get_st.
  destruct (s.(sm_awaiting_get_proposal)) eqn:Haw; cbn [negb orb].
  { destruct e as [p r| | | | | | |]; unfold wp; mstep; simpl; try (by rewrite Haw; naive_solver);
      [|naive_solver].
    unfold handle_get_proposal. mstep. rewrite Haw. mstep. case_bool_decide as Hr; mstep; simpl.
    - subst r. by apply handled_get_proposal.
    - naive_solver. }
  assert (∀ A (f : M StateMachine OutOfFuel A) Q, wp f s Q → wp (assert_ true;; f) s Q) as Hassert
    by done.
  apply Hassert. clear Hassert.
  destruct e as [p r|p r vr|p r|p r|v r|r|r|r].
  - unfold handle_get_proposal, wp. mstep. rewrite Haw. mstep. simpl. rewrite Haw. naive_solver.
  - unfold handle_proposal. apply wp_get_st, wp_modify.
    destruct (s.(sm_proposals) !! r) eqn:Hp; [simpl; intros (_&?&_); congruence|].
    apply (map_round_to_upons_spec (EvProposal p r vr) s); [done|by apply input_proposal| |done|done].
    by intros (_&_&?).
  - unfold handle_prevote. apply wp_get_st.
    destruct (count_vote _ _ _) as [votes|] eqn:Hc; [|unfold wp; simpl; intros (_&?&?&_); congruence].
    apply (map_round_to_upons_spec (EvPrevote p r) s); [done|by apply input_prevote| |done|done].
    intros (_&votes'&Hc'&Hfit). rewrite Hc in Hc'. injection Hc' as <-. exact Hfit.
  - unfold handle_precommit. apply wp_get_st.
    destruct (count_vote _ _ _) as [votes|] eqn:Hc; [|unfold wp; simpl; intros (_&?&?&_); congruence].
    apply (map_round_to_upons_spec (EvPrecommit p r) s); [done|by apply input_precommit| |done|done].
    intros (_&votes'&Hc'&Hfit). rewrite Hc in Hc'. injection Hc' as <-. exact Hfit.
  - unfold wp. simpl. tauto.
  - unfold handle_timeout_propose. apply wp_get_st.
    case_decide as Hd; [eapply handled_rules; [done|apply input_timeout_propose|apply rules_nil]|].
    apply timeout_vote_spec; [done|apply input_timeout_propose|by intros []|done|].
    assert (r = s.(sm_round)) as -> by (destruct (decide (r = s.(sm_round))); tauto).
    apply rule_prevote; [|by left]. destruct (decide (s.(sm_step) = StepPropose)); tauto.
  - unfold handle_timeout_prevote. apply wp_get_st.
    case_decide as Hd; [eapply handled_rules; [done|apply input_timeout_prevote|apply rules_nil]|].
    apply timeout_vote_spec; [done|apply input_timeout_prevote|by intros []|done|].
    assert (r = s.(sm_round)) as -> by (destruct (decide (r = s.(sm_round))); tauto).
    apply rule_precommit_nil; [|by right]. destruct (decide (s.(sm_step) = StepPrevote)); tauto.
  - unfold handle_timeout_precommit. apply wp_get_st.
    case_decide as Hd; [eapply handled_rules; [done|apply input_timeout_precommit|apply rules_nil]|].
    unfold checked_add. case_decide as Hm; [|unfold wp; simpl; intros (_&_&Hlt)].
    + eapply wp_mono; [apply (advance_to_round_spec (EvTimeoutPrecommit r))|].
      intros [o| |] s'; [|done|simpl; tauto].
      intros Hen. eapply handled_round; [done|apply input_timeout_precommit| |done]. simpl. lia.
    + unfold u32_max in *. lia.
Qed.
(** ** What handling an event changes *)

(** Handling an event is a step that the rules allow. *)
Lemma handled_sm_handle e s o s' : handled e s o s' → sm_handle leader_fn e s o s'.
Proof.
  destruct 1 as [s p Haw|e s s1 o s' Haw Hin Hr|e s s1 r o s' Haw Hin Hrc Hen].
  - by apply handle_answer.
  - by eapply handle_rules.
  - destruct (input_kept _ _ _ Hin) as (_&_&Haw1&_). destruct Hen as [s' Hen|e' s2 o s' Hen Haw2 Hr _].
    + rewrite <-(app_nil_r [_]). eapply handle_round; [done..|apply rules_nil|done].
    + change (e' :: o) with ([e'] ++ o). eapply handle_round; [done..|]. congruence.
Qed.

(** The parts of the state that only [input] changes. *)
Record untouched s s' : Prop := {
  ut_id : s'.(sm_id) = s.(sm_id);
  ut_quorum : s'.(sm_quorum) = s.(sm_quorum);
  ut_observer : s'.(sm_is_observer) = s.(sm_is_observer);
  ut_proposals : s'.(sm_proposals) = s.(sm_proposals);
  ut_prevotes : s'.(sm_prevotes) = s.(sm_prevotes);
  ut_precommits : s'.(sm_precommits) = s.(sm_precommits);
  ut_queue : s'.(sm_events_queue) = s.(sm_events_queue);
}.

Lemma kept_untouched s s' : kept s s' → untouched s s'.
Proof. by intros []; split. Qed.

Lemma entered_untouched ev s r o s' : entered ev s r o s' → untouched s s'.
Proof.
  destruct 1 as [s' Hen|e s1 o s' Hen _ Hr%rules_kept _].
  - by inversion Hen; split.
  - destruct Hr. inversion Hen; subst; split; simpl in *; congruence.
Qed.

Lemma handled_untouched e s o s' :
  handled e s o s' → ∃ s1, (input e s s1 ∨ s1 = s ∧ ∃ p r, e = EvGetProposal p r) ∧ untouched s1 s'.
Proof.
  destruct 1 as [s p Haw|e s s1 o s' Haw Hin Hr|e s s1 r o s' Haw Hin Hrc Hen].
  - exists s. split; [by eauto|by split].
  - exists s1. split; [by left|]. by apply kept_untouched, rules_kept with e o.
  - exists s1. split; [by left|]. by apply entered_untouched with e r o.
Qed.

(** *** Progress *)

Lemma entered_round ev s r o s' : entered ev s r o s' → s'.(sm_round) = r.
Proof.
  destruct 1 as [s' Hen|e s1 o s' Hen _ Hr%rules_kept _]; [by inversion Hen|].
  rewrite (kept_round _ _ Hr). by inversion Hen.
Qed.

Lemma entered_requeued ev s r o s' e :
  entered ev s r o s' → e ∈ o → requeued e = true → event_round e = r.
Proof.
  destruct 1 as [s' Hen|e' s1 o s' Hen _ Hr _]; [by intros ->%list_elem_of_singleton|].
  intros [->|He]%elem_of_cons Hq; [by inversion Hen; subst|].
  rewrite (rules_round _ _ _ _ _ Hr He Hq). by inversion Hen.
Qed.

Lemma entered_measure ev s r o s' :
  entered ev s r o s' → (2 * steps_left s'.(sm_step) + n_requeued o ≤ 5)%nat.
Proof.
  destruct 1 as [s' Hen|e s1 o s' Hen _ Hr%rules_measure _].
  - inversion Hen; subst. unfold n_requeued. simpl. lia.
  - pose proof (n_requeued_app [e] o) as Happ. simpl in Happ. rewrite Happ. assert (n_requeued [e] ≤ 1)%nat.
    { destruct e; unfold n_requeued; simpl; lia. }
    inversion Hen; subst; simpl in *; lia.
Qed.

(** The work that an event of the queue can cause when it is handled in round [r]. *)
Definition weight r (e : StateMachineEvent) : nat :=
  match e with
  | EvGetProposal _ _ => 2
  | EvTimeoutPrecommit _ => 6
  | _ => if decide (r < event_round e) then 6 else 1
  end.

Definition potential s : nat :=
  (sum_list_with (weight s.(sm_round)) s.(sm_events_queue) + 2 * steps_left s.(sm_step))%nat.

Lemma weight_mono r r' e : r ≤ r' → (weight r' e ≤ weight r e)%nat.
Proof. intros Hle. destruct e; simpl; repeat case_decide; lia. Qed.

Lemma sum_weight_mono r r' (q : Events) :
  r ≤ r' → (sum_list_with (weight r') q ≤ sum_list_with (weight r) q)%nat.
Proof. intros Hle. induction q as [|e q IH]; simpl; [lia|]. pose proof (weight_mono r r' e Hle). lia. Qed.

Lemma handled_round_le e s o s' : handled e s o s' → s.(sm_round) ≤ s'.(sm_round).
Proof.
  destruct 1 as [s p Haw|e s s1 o s' Haw Hin Hr|e s s1 r o s' Haw Hin Hrc Hen].
  - simpl. lia.
  - rewrite (kept_round _ _ (rules_kept _ _ _ _ Hr)).
    destruct (input_kept _ _ _ Hin) as [-> _]. lia.
  - rewrite (entered_round _ _ _ _ _ Hen). apply round_change_lt in Hrc.
    destruct (input_kept _ _ _ Hin) as [Hr _]. lia.
Qed.

Lemma handled_requeued e s o s' e' :
  handled e s o s' → e' ∈ o → requeued e' = true → event_round e' = s'.(sm_round).
Proof.
  destruct 1 as [s p Haw|e s s1 o s' Haw Hin Hr|e s s1 r o s' Haw Hin Hrc Hen].
  - by intros ->%list_elem_of_singleton.
  - intros He Hq. rewrite (kept_round _ _ (rules_kept _ _ _ _ Hr)). by eapply rules_round.
  - intros He Hq. rewrite (entered_round _ _ _ _ _ Hen). by eapply entered_requeued.
Qed.

(** Handling an event does less than its weight allows. *)
Lemma handled_measure e s o s' :
  handled e s o s' →
  (2 * steps_left s'.(sm_step) + n_requeued o + 1 ≤ 2 * steps_left s.(sm_step) + weight s.(sm_round) e)%nat.
Proof.
  destruct 1 as [s p Haw|e s s1 o s' Haw Hin Hr|e s s1 r o s' Haw Hin Hrc Hen].
  - unfold n_requeued; simpl. lia.
  - apply rules_measure in Hr. destruct (input_kept _ _ _ Hin) as (_&Hst&_). rewrite Hst in Hr.
    assert (1 ≤ weight s.(sm_round) e)%nat by (destruct e; simpl; try case_decide; lia). lia.
  - apply entered_measure in Hen.
    assert (weight s.(sm_round) e = 6%nat) as ->; [|lia].
    destruct (input_kept _ _ _ Hin) as [Hr _].
    destruct e; simpl in *; try done; destruct Hrc as (->&Hlt&_); rewrite decide_True by lia; done.
Qed.
(** ** The event loop *)

(** The events of [o] that are sent out, and whether the loop stops after them. *)
Fixpoint dispatch (observer : bool) o : Events * bool :=
  match o with
  | [] => ([], false)
  | e :: o =>
      match e with
      | EvDecision _ _ | EvGetProposal _ _ => ([e], true)
      | EvProposal _ _ _ | EvPrevote _ _ | EvPrecommit _ _ =>
          let '(sent, stop) := dispatch observer o in
          (if observer then sent else e :: sent, stop)
      | _ => let '(sent, stop) := dispatch observer o in (e :: sent, stop)
      end
  end.

Definition requeue (sent : Events) s : StateMachine :=
  set_events_queue (s.(sm_events_queue) ++ filter (λ e, requeued e = true) sent) s.

Lemma dispatch_sublist b o : (dispatch b o).1 `sublist_of` o.
Proof.
  induction o as [|e o IH]; [done|]. simpl. destruct (dispatch b o) as [sent stop]; simpl in *.
  destruct e, b; simpl; try (by constructor); constructor; apply sublist_nil_l.
Qed.

Lemma handled_get_proposal_alone e s o s' p r :
  handled e s o s' → EvGetProposal p r ∈ o →
  o = [EvGetProposal p r] ∧ s'.(sm_is_observer) = false ∧ s'.(sm_awaiting_get_proposal) = true ∧
  s'.(sm_round) = r.
Proof.
  assert (∀ ev s o s', rules ev s o s' → EvGetProposal p r ∉ o) as Hrules.
  { induction 1 as [|s2 o2 s2' o2' s2'' Hr _ IH]; [set_solver|].
    rewrite elem_of_app. intros [He|He]; [|done]. destruct Hr; set_solver. }
  destruct 1 as [s p' Haw|e s s1 o s' Haw Hin Hr|e s s1 r' o s' Haw Hin Hrc Hen].
  - by intros ?%list_elem_of_singleton.
  - intros He. by apply Hrules in Hr.
  - destruct Hen as [s' Hen|e' s2 o s' Hen _ Hr Hne].
    + intros [= -> ->]%list_elem_of_singleton. inversion Hen as [|[Hob _] _|]; subst; done.
    + intros [<-|He]%elem_of_cons; [by destruct (Hne p r)|]. by apply Hrules in Hr.
Qed.

Lemma handle_resultant_events_spec o out s :
  (∀ p r, EvGetProposal p r ∈ o → s.(sm_is_observer) = false ∧ o = [EvGetProposal p r]) →
  handle_resultant_events o out s =
    (Ok ((dispatch s.(sm_is_observer) o).2, out ++ (dispatch s.(sm_is_observer) o).1),
     requeue (dispatch s.(sm_is_observer) o).1 s).
Proof.
  revert out s. induction o as [|e o IH]; intros out s Hgp.
  { unfold requeue. simpl. rewrite !app_nil_r. by destruct s. }
  assert (∀ p r, EvGetProposal p r ∉ o) as Hno.
  { intros p r He. destruct (Hgp p r) as [_ Heq]; [by right|]. injection Heq as -> ->. set_solver. }
  assert (∀ out s, handle_resultant_events o out s =
    (Ok ((dispatch s.(sm_is_observer) o).2, out ++ (dispatch s.(sm_is_observer) o).1),
     requeue (dispatch s.(sm_is_observer) o).1 s)) as IH'.
  { intros out' s'. apply IH. intros p r He. by destruct (Hno p r). }
  cbn [handle_resultant_events dispatch]. destruct e; mstep;
    try (unfold requeue; simpl; rewrite app_nil_r; by destruct s);
    try (rewrite IH'; destruct (dispatch _ o) as [sent stop]; simpl;
         rewrite <-(assoc_L app); done).
  { destruct (Hgp proposal_id round) as [Hob Heq]; [by left|]. injection Heq as ->.
    rewrite Hob. unfold requeue. simpl. rewrite app_nil_r. by destruct s. }
  all: destruct (s.(sm_is_observer)) eqn:Hob;
    [rewrite IH', Hob; by destruct (dispatch true o)|].
  all: unfold push_back_event; mstep; rewrite IH'; simpl; rewrite Hob;
    destruct (dispatch false o) as [sent stop]; unfold requeue; simpl; by rewrite <-!(assoc_L app).
Qed.
(** Votes that are counted or wait in the queue. *)
Definition occurrences (e : StateMachineEvent) (l : Events) : N :=
  N.of_nat (length (filter (λ e', e' = e) l)).

Definition counted s (e : StateMachineEvent) : N :=
  match e with
  | EvPrevote p r => vote_count s.(sm_prevotes) r p
  | EvPrecommit p r => vote_count s.(sm_precommits) r p
  | _ => 0
  end.

Definition pending s (e : StateMachineEvent) : N := counted s e + occurrences e s.(sm_events_queue).

Definition is_vote (e : StateMachineEvent) : bool :=
  match e with EvPrevote _ _ | EvPrecommit _ _ => true | _ => false end.

Lemma occurrences_app e l l' : occurrences e (l ++ l') = occurrences e l + occurrences e l'.
Proof. unfold occurrences. rewrite filter_app, length_app. lia. Qed.

Lemma occurrences_cons e e' l :
  occurrences e (e' :: l) = (if decide (e' = e) then 1 else 0) + occurrences e l.
Proof. unfold occurrences. rewrite filter_cons. case_decide; simpl; lia. Qed.

Lemma occurrences_requeued e l :
  is_vote e = true → occurrences e (filter (λ e, requeued e = true) l) = occurrences e l.
Proof.
  intros He. induction l as [|e' l IH]; [done|]. rewrite filter_cons. case_decide as Hq.
  - by rewrite !occurrences_cons, IH.
  - rewrite occurrences_cons, IH, decide_False; [lia|]. intros ->. by destruct e.
Qed.

Lemma input_counted e s s1 e' :
  input e s s1 → is_vote e' = true →
  counted s1 e' = counted s e' + (if decide (e = e') then 1 else 0).
Proof.
  destruct 1 as [s p r vr|s p r vs Hc|s p r vs Hc| | |]; destruct e' as [| |p' r'|p' r'| | | |]; simpl;
    try done; intros _; rewrite ?(vote_count_count _ _ _ _ r' p' Hc);
    repeat case_decide; naive_solver lia.
Qed.

Lemma handled_counted e s o s' e' :
  handled e s o s' → is_vote e' = true →
  counted s' e' = counted s e' + (if decide (e = e') then 1 else 0).
Proof.
  intros (s1&Hin&Hut)%handled_untouched He'.
  assert (counted s' e' = counted s1 e') as ->.
  { destruct Hut, e'; simpl; try done; congruence. }
  destruct Hin as [Hin|(->&p&r&->)]; [by apply input_counted|].
  rewrite decide_False; [lia|]. by intros <-.
Qed.

(** One turn of the loop: an event is taken from the queue and handled, and the votes and
    proposals it causes are queued. *)
Inductive turn : StateMachine → Events → StateMachine → Prop :=
| turn_event s e q o s' :
    s.(sm_events_queue) = e :: q → handled e (set_events_queue q s) o s' →
    turn s o (requeue (dispatch s'.(sm_is_observer) o).1 s').

(** Votes are neither lost nor counted twice. *)
Lemma turn_pending s o s' e :
  turn s o s' → is_vote e = true →
  pending s' e = pending s e + occurrences e (dispatch s'.(sm_is_observer) o).1.
Proof.
  destruct 1 as [s e' q o s' Hq Hh]. intros He. unfold pending. rewrite Hq. simpl.
  rewrite occurrences_app, occurrences_requeued, occurrences_cons by done.
  destruct (handled_untouched _ _ _ _ Hh) as (s1&Hin&Hut). rewrite (ut_queue _ _ Hut).
  assert (s1.(sm_events_queue) = q) as ->.
  { destruct Hin as [Hin|[-> _]]; [|done]. by destruct (input_kept _ _ _ Hin) as (_&_&_&->&_). }
  assert (counted (requeue (dispatch s'.(sm_is_observer) o).1 s') e = counted s' e) as ->
    by (by destruct e).
  rewrite (handled_counted _ _ _ _ _ Hh He).
  assert (counted (set_events_queue q s) e = counted s e) as -> by (by destruct e). lia.
Qed.

Lemma handles_app L s o s1 L' o' s' :
  sm_handles leader_fn L s o s1 → sm_handles leader_fn L' s1 o' s' →
  sm_handles leader_fn (L ++ L') s (o ++ o') s'.
Proof.
  induction 1 as [s|s q L o s1 _ IH|e s o s2 L o2 s1 Hh _ IH]; intros H2; [done| |].
  - by eapply handles_queue, IH.
  - rewrite <-(assoc_L app). simpl. by eapply handles_cons, IH.
Qed.

(** A turn handles the first event of the queue; the events it sends to the machine itself are
    added at the end. *)
Lemma turn_handles s o s' :
  turn s o s' → ∃ e q, s.(sm_events_queue) = e :: q ∧ sm_handles leader_fn [e] s o s' ∧
    s'.(sm_events_queue) = q ++ filter (λ e, requeued e = true) (dispatch s'.(sm_is_observer) o).1.
Proof.
  destruct 1 as [s e q o s' Hq Hh]. exists e, q. split_and!; [done| |].
  - apply (handles_queue _ _ q). rewrite <-(app_nil_r o).
    eapply handles_cons; [by apply handled_sm_handle|].
    eapply (handles_queue _ _ (requeue _ s').(sm_events_queue)), handles_nil.
  - simpl. f_equal. destruct (handled_untouched _ _ _ _ Hh) as (s1&Hin&Hut).
    rewrite (ut_queue _ _ Hut). destruct Hin as [Hin|[-> _]]; [|done].
    by destruct (input_kept _ _ _ Hin) as (_&_&_&->&_).
Qed.

Lemma turn_moves s o s' : turn s o s' → sm_moves leader_fn s o s'.
Proof. intros (e&q&_&Hh&_)%turn_handles. by eapply handles_moves. Qed.

Lemma sublist_sum_weight r (l l' : Events) :
  l `sublist_of` l' → (∀ e, e ∈ l' → requeued e = true → weight r e = 1%nat) →
  (sum_list_with (weight r) (filter (λ e, requeued e = true) l) ≤ n_requeued l')%nat.
Proof.
  induction 1 as [|e l l' Hs IH|e l l' Hs IH]; intros Hw; [done| |];
    (assert (∀ e, e ∈ l' → requeued e = true → weight r e = 1%nat) as Hw'
       by (intros e' He'; apply Hw; by right));
    specialize (IH Hw'); unfold n_requeued in *; rewrite ?filter_cons; case_decide as Hq; simpl;
    try lia.
  rewrite (Hw e) by (done || by left). lia.
Qed.

Lemma turn_potential s o s' : turn s o s' → (potential s' < potential s)%nat.
Proof.
  destruct 1 as [s e q o s' Hq Hh]. unfold potential. rewrite Hq. simpl.
  rewrite sum_list_with_app. pose proof (handled_measure _ _ _ _ Hh) as Hm. simpl in Hm.
  destruct (handled_untouched _ _ _ _ Hh) as (s1&Hin&Hut). rewrite (ut_queue _ _ Hut).
  assert (s1.(sm_events_queue) = q) as ->.
  { destruct Hin as [Hin|[-> _]]; [|done]. by destruct (input_kept _ _ _ Hin) as (_&_&_&->&_). }
  pose proof (sum_weight_mono _ _ q (handled_round_le _ _ _ _ Hh)). simpl in *.
  assert (sum_list_with (weight s'.(sm_round))
    (filter (λ e, requeued e = true) (dispatch s'.(sm_is_observer) o).1) ≤ n_requeued o)%nat; [|lia].
  apply sublist_sum_weight; [apply dispatch_sublist|]. intros e' He' Hrq.
  pose proof (handled_requeued _ _ _ _ _ Hh He' Hrq) as Hr.
  destruct e'; simpl in *; try done; subst; by rewrite decide_False by lia.
Qed.
Definition stops s' o : bool := (dispatch s'.(sm_is_observer) o).2.
Definition sent s' o : Events := (dispatch s'.(sm_is_observer) o).1.

(** The loop from a state: it returns the events sent out when the queue is empty or an event
    stops it; all the events emitted are listed too. *)
Inductive finished : StateMachine → Events → Events → StateMachine → Prop :=
| fin_empty s : s.(sm_events_queue) = [] → finished s [] [] s
| fin_stop s o s' : turn s o s' → stops s' o = true → finished s (sent s' o) o s'
| fin_turn s o s1 out E s' :
    turn s o s1 → stops s1 o = false → finished s1 out E s' →
    finished s (sent s1 o ++ out) (o ++ E) s'.

(** The states from which the loop takes another turn. *)
Definition continues s s' : Prop := ∃ o, turn s o s' ∧ stops s' o = false.

Definition loop_panics s : Prop :=
  ∃ s1 e q, rtc continues s s1 ∧ s1.(sm_events_queue) = e :: q ∧
    ¬ event_ok (set_events_queue q s1) e.

Lemma loop_spec fuel out s :
  (potential s < fuel)%nat →
  wp (handle_enqueued_events_loop leader_fn fuel out) s (λ res s',
    match res with
    | Ok out' => ∃ o E, out' = out ++ o ∧ finished s o E s'
    | Err _ => False
    | Panic => loop_panics s
    end).
Proof.
  revert out s. induction fuel as [|fuel IH]; intros out s Hfuel; [lia|].
  cbn [handle_enqueued_events_loop]. apply wp_get_st.
  destruct s.(sm_events_queue) as [|e q] eqn:Hq.
  { exists [], []. rewrite app_nil_r. split; [done|by apply fin_empty]. }
  apply wp_modify, wp_bind. eapply wp_mono; [apply handle_event_internal_spec|].
  intros [o| |] s1; [|done|intros Hp; by exists s, e, q]. intros Hh.
  assert (turn s o (requeue (dispatch s1.(sm_is_observer) o).1 s1)) as Ht by (by eapply turn_event).
  apply wp_bind. unfold wp. rewrite handle_resultant_events_spec.
  2: { intros p r Hin. destruct (handled_get_proposal_alone _ _ _ _ _ _ Hh Hin) as (->&->&_). done. }
  cbn [fst snd]. destruct (dispatch s1.(sm_is_observer) o).2 eqn:Hstop.
  - exists (sent s1 o), o. split; [done|]. exact (fin_stop _ _ _ Ht Hstop).
  - fold (wp (handle_enqueued_events_loop leader_fn fuel (out ++ (dispatch s1.(sm_is_observer) o).1))
      (requeue (dispatch s1.(sm_is_observer) o).1 s1)).
    eapply wp_mono; [apply IH; apply turn_potential in Ht; lia|]. intros [out'| |] s'; [|done|].
    + intros (o'&E&->&Hfin). exists (sent s1 o ++ o'), (o ++ E).
      split; [by rewrite (assoc_L app)|].
      exact (fin_turn _ _ _ _ _ _ Ht Hstop Hfin).
    + intros (s2&e2&q2&Hrun&?). exists s2, e2, q2. split; [|done].
      eapply rtc_l; [|done]. by exists o.
Qed.

Lemma potential_bound s : (potential s ≤ 6 * length s.(sm_events_queue) + 4)%nat.
Proof.
  unfold potential. assert (steps_left s.(sm_step) ≤ 2)%nat by (destruct (s.(sm_step)); simpl; lia).
  enough (sum_list_with (weight s.(sm_round)) s.(sm_events_queue) ≤
    6 * length s.(sm_events_queue))%nat by lia.
  induction s.(sm_events_queue) as [|e q IH]; simpl; [lia|].
  assert (weight s.(sm_round) e ≤ 6)%nat by (destruct e; simpl; try case_decide; lia). lia.
Qed.

Lemma handle_enqueued_events_spec s :
  wp (handle_enqueued_events leader_fn) s (λ res s',
    match res with
    | Ok o => ∃ E, finished s o E s'
    | Err _ => False
    | Panic => loop_panics s
    end).
Proof.
  unfold handle_enqueued_events. apply wp_get_st. eapply wp_mono.
  { apply loop_spec. pose proof (potential_bound s). lia. }
  intros [out| |] s'; [|done..]. intros (o&E&->&?). by exists E.
Qed.

(** ** Facts about whole calls *)

(** The events of the queue are handled, and those sent to the machine itself, each once. *)
Lemma finished_handles s o E s' :
  finished s o E s' →
  ∃ L, sm_handles leader_fn L s E s' ∧ o `sublist_of` E ∧
    L ++ s'.(sm_events_queue) ≡ₚ s.(sm_events_queue) ++ filter (λ e, requeued e = true) o.
Proof.
  induction 1 as [s Hq|s o s' Ht Hs|s o s1 out E s' Ht Hs _ (L&IH1&IH2&IH3)].
  - exists []. split_and!; [constructor|done|by rewrite Hq].
  - destruct (turn_handles _ _ _ Ht) as (e&q&->&Hh&->). exists [e].
    split_and!; [done|apply dispatch_sublist|done].
  - destruct (turn_handles _ _ _ Ht) as (e&q&->&Hh&Hq). exists (e :: L). split_and!.
    + by apply (handles_app [e] s o s1).
    + apply sublist_app; [apply dispatch_sublist|done].
    + rewrite filter_app, (assoc_L app). simpl. rewrite IH3, Hq. unfold sent. done.
Qed.

Lemma finished_pending s o E s' e :
  finished s o E s' → is_vote e = true → pending s' e = pending s e + occurrences e o.
Proof.
  intros Hf He. induction Hf as [s Hq|s o s' Ht Hs|s o s1 out E s' Ht Hs _ IH].
  - unfold occurrences. simpl. lia.
  - by apply turn_pending.
  - rewrite IH, occurrences_app, (turn_pending _ _ _ _ Ht He). unfold sent. lia.
Qed.

Lemma dispatch_observer o e : e ∈ (dispatch true o).1 → requeued e = false.
Proof.
  induction o as [|e' o IH]; simpl; [set_solver|]. destruct (dispatch true o) as [l stop]; simpl in *.
  destruct e'; simpl; set_solver.
Qed.

Lemma moves_identity s o s' :
  sm_moves leader_fn s o s' →
  s'.(sm_id) = s.(sm_id) ∧ s'.(sm_is_observer) = s.(sm_is_observer) ∧ s'.(sm_quorum) = s.(sm_quorum).
Proof.
  induction 1 as [|s o s1 o' s' Hm _ (->&->&->)]; [done|].
  destruct Hm as [e s o s2 Hr|s r o s2 _ _ Hen|e s s2 Hin| |]; try done.
  - by destruct (rule_kept _ _ _ _ Hr).
  - by destruct Hen.
  - by destruct Hin.
Qed.

(** An observer does not vote. *)
Lemma finished_observer s o E s' e :
  finished s o E s' → s.(sm_is_observer) = true → e ∈ o → is_vote e = false.
Proof.
  assert (∀ s o s', turn s o s' → s.(sm_is_observer) = true →
    s'.(sm_is_observer) = true ∧ ∀ e, e ∈ sent s' o → is_vote e = false) as Hturn.
  { intros s1 o1 s1' Ht Hob. destruct (moves_identity _ _ _ (turn_moves _ _ _ Ht)) as (_&Hob'&_).
    rewrite Hob in Hob'. split; [done|]. unfold sent. rewrite Hob'.
    intros e' He'%dispatch_observer. by destruct e'. }
  induction 1 as [s Hq|s o s' Ht Hs|s o s1 out E s' Ht Hs _ IH]; intros Hob; [set_solver|..];
    destruct (Hturn _ _ _ Ht Hob) as [Hob1 Hsent]; [by apply Hsent|].
  intros [?|?]%elem_of_app; [by apply Hsent|by apply IH].
Qed.

(** What a call to [handle_event] does to the state and returns. *)
Record event_effect e s o s' : Prop := {
  ee_handled : ∃ L E, sm_handles leader_fn L s E s' ∧ o `sublist_of` E ∧
    L ++ s'.(sm_events_queue) ≡ₚ e :: s.(sm_events_queue) ++ filter (λ e, requeued e = true) o;
  ee_pending : ∀ e', is_vote e' = true →
    pending s' e' = pending s e' + (if decide (e = e') then 1 else 0) + occurrences e' o;
  ee_observer : s.(sm_is_observer) = true → ∀ e', e' ∈ o → is_vote e' = false;
}.

Lemma ee_emitted e s o s' :
  event_effect e s o s' → ∃ E, sm_moves leader_fn s E s' ∧ o `sublist_of` E.
Proof. intros [(L&E&?%handles_moves&?&_) _ _]. eauto. Qed.

(** The queue to which the event is added before the loop runs, if it does. *)
Definition enqueue e s : StateMachine :=
  match e with
  | EvGetProposal _ _ =>
      if s.(sm_awaiting_get_proposal) : bool
      then if decide (event_round e = s.(sm_round))
           then set_events_queue (e :: s.(sm_events_queue)) s
           else set_events_queue (s.(sm_events_queue) ++ [e]) s
      else set_events_queue (s.(sm_events_queue) ++ [e]) s
  | _ => set_events_queue (s.(sm_events_queue) ++ [e]) s
  end.

Lemma enqueue_pending e s e' :
  is_vote e' = true → pending (enqueue e s) e' = pending s e' + (if decide (e = e') then 1 else 0).
Proof.
  intros He'. assert (∀ q, occurrences e' q = occurrences e' s.(sm_events_queue) +
    (if decide (e = e') then 1 else 0) → pending (set_events_queue q s) e' =
    pending s e' + (if decide (e = e') then 1 else 0)) as Hq.
  { intros q Hq. unfold pending. simpl. rewrite Hq.
    assert (counted (set_events_queue q s) e' = counted s e') as -> by (by destruct e'). lia. }
  assert (occurrences e' (s.(sm_events_queue) ++ [e]) = occurrences e' s.(sm_events_queue) +
    (if decide (e = e') then 1 else 0)) as Hback.
  { rewrite occurrences_app, occurrences_cons. unfold occurrences. simpl. lia. }
  unfold enqueue. destruct e; try (by apply Hq). destruct (s.(sm_awaiting_get_proposal)); [|by apply Hq].
  destruct (decide (event_round _ = _)); [|by apply Hq]. apply Hq. rewrite occurrences_cons. lia.
Qed.

Lemma enqueue_set e s :
  ∃ q, enqueue e s = set_events_queue q s ∧ q ≡ₚ e :: s.(sm_events_queue).
Proof.
  assert (s.(sm_events_queue) ++ [e] ≡ₚ e :: s.(sm_events_queue)) as Hp
    by (symmetry; apply Permutation_cons_append).
  unfold enqueue. destruct e, (s.(sm_awaiting_get_proposal)); try case_decide;
    eexists; (split; [reflexivity|done]).
Qed.

Lemma handle_event_spec e s :
  wp (handle_event leader_fn e) s (λ res s',
    match res with
    | Ok o => event_effect e s o s'
    | Err _ => False
    | Panic => loop_panics (enqueue e s)
    end).
Proof.
  destruct (enqueue_set e s) as (q&Henq&Hperm).
  assert (wp (handle_enqueued_events leader_fn) (enqueue e s) (λ res s',
    match res with
    | Ok o => event_effect e s o s' | Err _ => False | Panic => loop_panics (enqueue e s) end)) as Hrun.
  { eapply wp_mono; [apply handle_enqueued_events_spec|]. intros [o| |] s'; [|done..].
    intros (E&Hf). destruct (finished_handles _ _ _ _ Hf) as (L&Hm&Hs&Hp). rewrite Henq in Hm, Hp.
    cbn [sm_events_queue set_events_queue] in Hp. rewrite Hperm in Hp. split.
    - exists L, E. split_and!; [by eapply handles_queue|done|done].
    - intros e' He'. rewrite (finished_pending _ _ _ _ _ Hf He'), enqueue_pending by done. done.
    - intros Hob e'. eapply finished_observer; [done|].
      by rewrite Henq. }
  assert (∀ s', s' = enqueue e s → event_effect e s [] s') as Hbuf.
  { intros s' ->. split; [|..|set_solver].
    { exists [], []. rewrite Henq. split_and!; [eapply handles_queue, handles_nil|done|].
      simpl. by rewrite app_nil_r. }
    intros e' He'. rewrite enqueue_pending by done. unfold occurrences. simpl. lia. }
  unfold handle_event. apply wp_get_st.
  destruct (s.(sm_awaiting_get_proposal)) eqn:Haw; unfold enqueue in *; destruct e; rewrite ?Haw in *;
    simpl in *; try case_decide; try (apply wp_modify; exact Hrun); try (apply Hbuf; done).
Qed.
(** ** The first round *)

Lemma append_all_idle s fs :
  Forall (λ f, f s = (Ok [], s)) fs → append_all fs s = (Ok [], s).
Proof.
  induction 1 as [|f fs Hf _ IH]; [done|]. simpl.
  erewrite bind_run by done. by erewrite bind_run by done.
Qed.

(** No rule applies before there are proposals and votes. *)
Lemma upons_idle s fuel :
  s.(sm_proposals) = ∅ → s.(sm_prevotes) = ∅ → s.(sm_precommits) = ∅ → 0 < s.(sm_quorum) →
  s.(sm_step) = StepPropose → current_round_upons_fuel (S fuel) s = (Ok [], s).
Proof.
  intros Hp Hpv Hpc Hq Hst. apply append_all_idle.
  assert (round_votes ∅ s.(sm_round) = 0) as Hz by done.
  repeat constructor;
    unfold upon_new_proposal, upon_reproposal, maybe_initiate_timeout_prevote, upon_prevote_quorum,
      upon_nil_prevote_quorum, maybe_initiate_timeout_precommit, upon_decision,
      round_has_enough_votes; mstep; rewrite ?Hst, ?Hp, ?Hpc, ?lookup_empty, ?Hz; try done.
  rewrite (bool_decide_true (0 ≤ u32_max)) by done. mstep. by rewrite bool_decide_false by lia.
Qed.

Definition start_event s : StateMachineEvent :=
  if decide (s.(sm_is_observer) = false ∧ s.(sm_id) = leader_fn 0)
  then EvGetProposal None 0 else EvTimeoutPropose 0.

Lemma StateMachine_new_fresh id n b s :
  StateMachine_new id n b = Some s →
  s.(sm_id) = id ∧ s.(sm_is_observer) = b ∧ s.(sm_quorum) = 2 * n / 3 + 1 ∧ 2 * n ≤ u32_max ∧
  s.(sm_round) = 0 ∧ s.(sm_step) = StepPropose ∧ s.(sm_awaiting_get_proposal) = false ∧
  s.(sm_proposals) = ∅ ∧ s.(sm_prevotes) = ∅ ∧ s.(sm_precommits) = ∅ ∧
  s.(sm_events_queue) = [] ∧ s.(sm_locked_value_round) = None ∧ s.(sm_valid_value_round) = None.
Proof.
  unfold StateMachine_new, checked_mul. case_decide; [|done]. by intros [= <-].
Qed.

Lemma start_run id n b s :
  StateMachine_new id n b = Some s →
  start leader_fn s = (Ok [start_event s],
    set_awaiting_get_proposal (bool_decide (s.(sm_is_observer) = false ∧ s.(sm_id) = leader_fn 0)) s).
Proof.
  intros (Hid&Hob&Hq&_&Hr&Hst&Haw&Hp&Hpv&Hpc&Hqu&Hl&Hv)%StateMachine_new_fresh.
  assert (0 < s.(sm_quorum)) as Hq0 by (rewrite Hq, N.add_1_r; apply N.lt_0_succ).
  unfold start, advance_to_round, start_event. mstep. simpl. rewrite Hv. destruct (s.(sm_is_observer)) eqn:Hob'; cbn [negb andb].
  - unfold current_round_upons. erewrite bind_run; [|by apply upons_idle].
    rewrite decide_False by (by intros []). rewrite bool_decide_false by (by intros []).
    destruct s; simpl in *; subst; done.
  - case_bool_decide as Hl0.
    + mstep. rewrite decide_True by done. rewrite bool_decide_true by done.
      destruct s; simpl in *; subst; done.
    + unfold current_round_upons. erewrite bind_run; [|by apply upons_idle].
      rewrite decide_False by (by intros []). rewrite bool_decide_false by (by intros []).
      destruct s; simpl in *; subst; done.
Qed.

(** The invariant holds after the start. *)
Lemma start_inv id n b s :
  StateMachine_new id n b = Some s →
  sm_inv (set_awaiting_get_proposal
    (bool_decide (s.(sm_is_observer) = false ∧ s.(sm_id) = leader_fn 0)) s) [start_event s].
Proof.
  intros (Hid&Hob&Hq&_&Hr&Hst&Haw&Hp&Hpv&Hpc&Hqu&Hl&Hv)%StateMachine_new_fresh.
  unfold start_event. split; split; intros *; case_decide; simpl; rewrite ?Hl, ?Hv; try done;
    try (intros ->%list_elem_of_singleton; done); try (intros ?%list_elem_of_singleton; done);
    constructor.
Qed.
End handlers.
