(* ===== verification/StateMachineSafety.v ===== *)
(** The consensus state machine does not panic when its caller keeps the contract: at most one
    proposal per round, none for the rounds this node leads, no more votes than [u32] can count,
    and a proposal only in answer to a request. *)

From S2P Require Import Prelude StarknetApi StateMachine TendermintRules StateMachineProofs.

Implicit Types (s : StateMachine) (r : Round) (v : ProposalContentId) (o E Q : Events).

(** ** Room for votes *)

Definition n_round (f : StateMachineEvent → option Round) r Q : N :=
  N.of_nat (length (filter (λ e, f e = Some r) Q)).

Lemma n_round_app f r Q Q' : n_round f r (Q ++ Q') = n_round f r Q + n_round f r Q'.
Proof. unfold n_round. rewrite filter_app, length_app. lia. Qed.

Lemma n_round_cons f r e Q :
  n_round f r (e :: Q) = (if decide (f e = Some r) then 1 else 0) + n_round f r Q.
Proof. unfold n_round. rewrite filter_cons. case_decide; simpl; lia. Qed.

Lemma n_round_sublist f r Q Q' : Q `sublist_of` Q' → n_round f r Q ≤ n_round f r Q'.
Proof.
  induction 1 as [|e Q Q' _ IH|e Q Q' _ IH]; rewrite ?n_round_cons; [done|lia..].
Qed.

#[global] Instance prevote_past_dec s r : Decision (prevote_past s r).
Proof. unfold prevote_past. apply _. Defined.
#[global] Instance precommit_past_dec s r : Decision (precommit_past s r).
Proof. unfold precommit_past. apply _. Defined.

(** The votes of a round that are counted, that wait in [Q], and that the node can still cast. *)
Definition room votes (past : StateMachine → Round → Prop) `{∀ s r, Decision (past s r)}
    (f : StateMachineEvent → option Round) s r Q : N :=
  round_votes votes r + n_round f r Q + (if decide (past s r) then 0 else 1).

Lemma room_step votes past `{∀ s r, Decision (past s r)} f s o s' r Q :
  past_step past f s o s' → room votes past f s' r (Q ++ o) ≤ room votes past f s r Q.
Proof.
  intros [Hmono Ho]. unfold room. rewrite n_round_app.
  assert (n_round f r o + (if decide (past s' r) then 0 else 1) ≤
    (if decide (past s r) then 0 else 1)); [|lia].
  destruct Ho as [->|(e&->&He)].
  - unfold n_round. simpl. repeat case_decide; try lia. exfalso; eauto.
  - rewrite n_round_cons. unfold n_round. simpl. destruct (decide (f e = Some r)) as [Hf|Hf].
    + destruct (He r Hf). repeat case_decide; tauto || lia.
    + repeat case_decide; try lia. exfalso; eauto.
Qed.

Lemma round_votes_count votes r p votes' r' :
  count_vote votes r p = Some votes' →
  round_votes votes' r' = round_votes votes r' + (if decide (r' = r) then 1 else 0).
Proof.
  unfold count_vote, checked_add. case_decide; [|done]. intros [= <-].
  unfold round_votes at 1. rewrite lookup_insert. destruct (decide (r = r')) as [<-|Hne].
  2: { rewrite (decide_False (P := r' = r)) by congruence. unfold round_votes. lia. }
  rewrite decide_True by done. set (v := default ∅ (votes !! r)).
  assert (round_votes votes r = map_fold (λ _ n acc, n + acc) 0 v) as ->.
  { unfold round_votes, v. by destruct (votes !! r). }
  assert (∀ (m : gmap (option ProposalContentId) N) n, m !! p = None →
    map_fold (λ _ n acc, n + acc) 0 (<[p := n]> m) = n + map_fold (λ _ n acc, n + acc) 0 m) as Hins.
  { intros m n Hm. rewrite map_fold_insert_L; [done| |done]. intros. lia. }
  rewrite <-insert_delete_eq, Hins by apply lookup_delete_eq.
  destruct (v !! p) as [n|] eqn:Hv; simpl.
  - rewrite <-(insert_id v p n Hv) at 2. rewrite <-insert_delete_eq, Hins by apply lookup_delete_eq. lia.
  - rewrite delete_id by done. lia.
Qed.

Lemma count_vote_some votes r p :
  round_votes votes r < u32_max → ∃ votes', count_vote votes r p = Some votes'.
Proof.
  intros Hlt. unfold count_vote, checked_add.
  assert (default 0 (default ∅ (votes !! r) !! p) ≤ round_votes votes r) as Hle.
  { unfold round_votes. destruct (votes !! r) as [v|]; simpl; [|by rewrite lookup_empty].
    destruct (v !! p) as [n|] eqn:Hv; simpl; [|lia].
    rewrite (map_fold_delete_L _ _ p n v); [simpl; lia| |done]. intros. lia. }
  rewrite decide_True by lia. eauto.
Qed.

Lemma omap_sublist {A B} (f : A → option B) (l l' : list A) :
  l `sublist_of` l' → omap f l `sublist_of` omap f l'.
Proof.
  induction 1 as [|x l l' _ IH|x l l' _ IH]; simpl; [done|..]; destruct (f x); by try constructor.
Qed.

(** ** Well-formed states *)

Section safety.
Context (leader_fn : Round → ValidatorId).

(** [Q] are the events still to be handled. *)
Record wf s Q : Prop := {
  wf_events : ∀ e, e ∈ Q →
    match e with
    | EvDecision _ _ | EvGetProposal _ _ => False
    | EvTimeoutPrecommit r => r < u32_max
    | _ => True
    end;
  wf_proposals : ∀ e r, e ∈ Q → proposal_round e = Some r → s.(sm_proposals) !! r = None;
  wf_proposals_once : NoDup (omap proposal_round Q);
  (** Nobody else proposes in the rounds this node leads. *)
  wf_leader : ∀ r, is_leader leader_fn s r → ¬ proposal_past s r →
    s.(sm_proposals) !! r = None ∧ ∀ e, e ∈ Q → proposal_round e ≠ Some r;
  wf_awaiting : s.(sm_awaiting_get_proposal) = true → is_leader leader_fn s s.(sm_round);
  wf_prevotes : ∀ r, room s.(sm_prevotes) prevote_past prevote_round s r Q ≤ u32_max;
  wf_precommits : ∀ r, room s.(sm_precommits) precommit_past precommit_round s r Q ≤ u32_max;
}.

Lemma wf_fit s Q : wf s Q → votes_fit s.
Proof.
  intros HW r. pose proof (wf_prevotes _ _ HW r). pose proof (wf_precommits _ _ HW r).
  unfold room in *. lia.
Qed.

Lemma wf_sublist s Q Q' : wf s Q' → Q `sublist_of` Q' → wf s Q.
Proof.
  intros [W1 W2 W3 W4 W5 W6 W7] Hs. assert (∀ e, e ∈ Q → e ∈ Q') as Hin.
  { intros e. by apply sublist_subseteq. }
  split; try done.
  - intros e He. by apply W1, Hin.
  - intros e r He. by eapply W2, Hin.
  - eapply sublist_NoDup; [done|]. by apply omap_sublist.
  - intros r Hl Hp. destruct (W4 r Hl Hp) as [? Hno]. split; [done|]. intros e He. by apply Hno, Hin.
  - intros r. specialize (W6 r). unfold room in *.
    pose proof (n_round_sublist prevote_round r _ _ Hs). lia.
  - intros r. specialize (W7 r). unfold room in *.
    pose proof (n_round_sublist precommit_round r _ _ Hs). lia.
Qed.

(** The steps that emit events do not change proposals and votes. *)
Definition emits s o s' : Prop :=
  sm_move leader_fn s o s' ∧ s'.(sm_proposals) = s.(sm_proposals) ∧
  s'.(sm_prevotes) = s.(sm_prevotes) ∧ s'.(sm_precommits) = s.(sm_precommits).

Lemma move_identity s o s' :
  sm_move leader_fn s o s' → s'.(sm_id) = s.(sm_id) ∧ s'.(sm_is_observer) = s.(sm_is_observer).
Proof.
  destruct 1 as [e s o s' Hr|s r o s' _ _ Hen|e s s' Hin| |]; try done.
  - by destruct (rule_kept _ _ _ _ Hr).
  - by destruct Hen.
  - by destruct Hin.
Qed.

Lemma move_leader s o s' r :
  sm_move leader_fn s o s' → is_leader leader_fn s' r ↔ is_leader leader_fn s r.
Proof. intros [Hid Hob]%move_identity. unfold is_leader. by rewrite Hid, Hob. Qed.

Lemma move_proposes s o s' e r :
  sm_move leader_fn s o s' → (s.(sm_awaiting_get_proposal) = true → is_leader leader_fn s s.(sm_round)) →
  e ∈ o → proposal_round e = Some r → is_leader leader_fn s r.
Proof.
  destruct 1 as [ev s o s' Hr|s r' o s' _ _ Hen| |s p Haw|]; intros Hlead; try set_solver.
  - destruct Hr; intros ->%list_elem_of_singleton || set_solver; done.
  - destruct Hen; intros ->%list_elem_of_singleton; simpl; congruence.
Qed.

Lemma move_awaiting s o s' :
  sm_move leader_fn s o s' →
  (s.(sm_awaiting_get_proposal) = true → is_leader leader_fn s s.(sm_round)) →
  s'.(sm_awaiting_get_proposal) = true → is_leader leader_fn s s'.(sm_round).
Proof.
  destruct 1 as [e s o s' Hr|s r' o s' _ Haw Hen|e s s' Hin| |]; intros Hlead; try done.
  - destruct (rule_kept _ _ _ _ Hr). intros ?. rewrite kept_round. apply Hlead. congruence.
  - destruct Hen; simpl; [congruence|done|congruence].
  - destruct (input_kept _ _ _ Hin) as (->&_&->&_). done.
Qed.

(** Events that the loop does not queue are forgotten. *)
Definition requeue_list o : Events := filter (λ e, requeued e = true) o.

Lemma requeue_list_sublist o : requeue_list o `sublist_of` o.
Proof. apply sublist_filter. Qed.

Lemma wf_emit s o s' Q : wf s Q → emits s o s' → wf s' (Q ++ requeue_list o).
Proof.
  intros [W1 W2 W3 W4 W5 W6 W7] (Hm&Hp&Hpv&Hpc).
  pose proof (step_past _ _ _ _ Hm) as (Hpast1&Hpast2&Hpast3).
  assert (∀ e r, e ∈ requeue_list o → proposal_round e = Some r →
    is_leader leader_fn s r ∧ ¬ proposal_past s r ∧ proposal_past s' r) as Hnew.
  { intros e r [_ He]%list_elem_of_filter Hr.
    split; [by eapply move_proposes|]. destruct Hpast3 as [_ [->|(e'&->&Hpp)]]; [set_solver|].
    apply list_elem_of_singleton in He as ->. by apply Hpp. }
  split.
  - intros e [He|[Hq _]%list_elem_of_filter]%elem_of_app; [by apply W1|by destruct e].
  - intros e r [He|He]%elem_of_app Hr; rewrite Hp; [by eapply W2|].
    destruct (Hnew e r He Hr) as (Hl&Hnp&_). by apply W4.
  - apply (NoDup_omap_snoc proposal_round Q (requeue_list o)
      (λ r, ∃ e, e ∈ Q ∧ proposal_round e = Some r)); [done|eauto|].
    destruct Hpast3 as [_ [->|(e&->&_)]]; [by left|]. unfold requeue_list in *.
    rewrite filter_cons in *. case_decide; [|by left]. right. exists e. split; [done|].
    intros r Hr (e'&He'&Hr'). destruct (Hnew e r) as (Hl&Hnp&_); [by left|done|].
    by destruct (W4 r Hl Hnp) as [_ Hno]; apply (Hno e').
  - intros r Hl Hnp. apply (move_leader _ _ _ _ Hm) in Hl.
    assert (¬ proposal_past s r) as Hnp' by (intros ?; by apply Hnp, Hpast3).
    destruct (W4 r Hl Hnp') as [Hno Hq]. rewrite Hp. split; [done|].
    intros e [He|He]%elem_of_app; [by apply Hq|]. intros Hr.
    by destruct (Hnew e r He Hr) as (_&_&?).
  - intros Haw. apply (move_leader _ _ _ _ Hm). by eapply move_awaiting.
  - intros r. rewrite Hpv. etrans; [|apply (W6 r)].
    etrans; [|by apply (room_step _ _ _ _ _ _ _ Q Hpast1)]. unfold room.
    pose proof (n_round_sublist prevote_round r _ _ (requeue_list_sublist o)).
    rewrite !n_round_app. lia.
  - intros r. rewrite Hpc. etrans; [|apply (W7 r)].
    etrans; [|by apply (room_step _ _ _ _ _ _ _ Q Hpast2)]. unfold room.
    pose proof (n_round_sublist precommit_round r _ _ (requeue_list_sublist o)).
    rewrite !n_round_app. lia.
Qed.
Lemma wf_rules ev s o s' Q : wf s Q → rules ev s o s' → wf s' (Q ++ requeue_list o).
Proof.
  intros HW Hr. revert Q HW. induction Hr as [s|s o s1 o' s' Hr _ IH]; intros Q HW.
  - by rewrite app_nil_r.
  - unfold requeue_list. rewrite filter_app, (assoc_L app). apply IH. apply (wf_emit s); [done|].
    destruct (rule_kept _ _ _ _ Hr). split; [by eapply step_rule|done].
Qed.

Lemma wf_enter s r o s' Q :
  s.(sm_round) < r → s.(sm_awaiting_get_proposal) = false → enter_round leader_fn s r o s' →
  wf s Q → wf s' (Q ++ requeue_list o).
Proof.
  intros Hlt Haw Hen HW. apply (wf_emit s); [done|]. split; [by eapply step_round|by destruct Hen].
Qed.

Lemma wf_entered ev s r o s' Q :
  s.(sm_round) < r → s.(sm_awaiting_get_proposal) = false → entered leader_fn ev s r o s' →
  wf s Q → wf s' (Q ++ requeue_list o).
Proof.
  intros Hlt Haw [s2 Hen|e s1 o' s2 Hen _ Hr _] HW; [by eapply wf_enter|].
  change (e :: o') with ([e] ++ o'). unfold requeue_list. rewrite filter_app, (assoc_L app).
  eapply wf_rules; [|done]. by eapply wf_enter.
Qed.

Lemma wf_input e s s1 Q : wf s (e :: Q) → input e s s1 → wf s1 Q.
Proof.
  intros HW Hin. assert (wf s Q) as [W1 W2 W3 W4 W5 W6 W7] by (eapply wf_sublist; [done|by constructor]).
  destruct Hin as [s p r vr Hp|s p r vs Hc|s p r vs Hc| | |]; [| | |done..].
  - assert (∀ e, e ∈ Q → proposal_round e ≠ Some r) as Hno.
    { intros e He Hr. pose proof (wf_proposals_once _ _ HW) as Hnd. simpl in Hnd.
      apply NoDup_cons in Hnd as [Hni _]. apply Hni, list_elem_of_omap. eauto. }
    split; try done; simpl.
    + intros e r' He Hr'. rewrite lookup_insert_ne; [by eapply W2|]. intros ->. by eapply Hno.
    + intros r' Hl Hnp. destruct (wf_leader _ _ HW r' Hl Hnp) as [? Hno'].
      rewrite lookup_insert_ne; [by apply W4|]. intros ->. by destruct (Hno' (EvProposal p r' vr)); [left|].
  - split; try done. intros r'. pose proof (wf_prevotes _ _ HW r') as Hle.
    change (room vs prevote_past prevote_round s r' Q ≤ u32_max). unfold room in *.
    rewrite (round_votes_count _ _ _ _ r' Hc). rewrite n_round_cons in Hle. simpl in Hle.
    destruct (decide (r' = r)) as [->|];
      [rewrite (decide_True (P := Some r = Some r)) in Hle by done|]; lia.
  - split; try done. intros r'. pose proof (wf_precommits _ _ HW r') as Hle.
    change (room vs precommit_past precommit_round s r' Q ≤ u32_max). unfold room in *.
    rewrite (round_votes_count _ _ _ _ r' Hc). rewrite n_round_cons in Hle. simpl in Hle.
    destruct (decide (r' = r)) as [->|];
      [rewrite (decide_True (P := Some r = Some r)) in Hle by done|]; lia.
Qed.

(** The next event can be handled. *)
Lemma wf_event_ok e s Q : wf s (e :: Q) → s.(sm_awaiting_get_proposal) = false → event_ok s e.
Proof.
  intros HW Haw. pose proof (wf_fit _ _ HW) as Hfit. pose proof (wf_events _ _ HW e) as He.
  destruct e as [p r|p r vr|p r|p r|v r|r|r|r]; simpl; try (by destruct He; left); try done.
  - split_and!; [done| |done]. eapply wf_proposals; [done|by left|done].
  - split; [done|]. destruct (count_vote_some s.(sm_prevotes) r p) as [vs Hc].
    { pose proof (wf_prevotes _ _ HW r) as Hle. unfold room in Hle. rewrite n_round_cons in Hle.
      simpl in Hle. rewrite (decide_True (P := Some r = Some r)) in Hle by done. lia. }
    exists vs. split; [done|]. eapply wf_fit, wf_input; [done|by apply input_prevote].
  - split; [done|]. destruct (count_vote_some s.(sm_precommits) r p) as [vs Hc].
    { pose proof (wf_precommits _ _ HW r) as Hle. unfold room in Hle. rewrite n_round_cons in Hle.
      simpl in Hle. rewrite (decide_True (P := Some r = Some r)) in Hle by done. lia. }
    exists vs. split; [done|]. eapply wf_fit, wf_input; [done|by apply input_precommit].
  - split_and!; [done..|]. intros _. apply He. by left.
Qed.

Lemma wf_handled e s o s' Q :
  wf s (e :: Q) → s.(sm_awaiting_get_proposal) = false → handled leader_fn e s o s' →
  wf s' (Q ++ requeue_list o).
Proof.
  intros HW Haw Hh. destruct Hh as [s p Haw'|e s s1 o s' _ Hin Hr|e s s1 r o s' _ Hin Hrc Hen].
  - congruence.
  - eapply wf_rules; [by eapply wf_input|done].
  - destruct (input_kept _ _ _ Hin) as (Hr1&_&Haw1&_).
    eapply wf_entered; [by eapply round_change_lt|by rewrite Haw1|done|by eapply wf_input].
Qed.

(** ** The event loop *)

(** The loop runs with ordinary events, or with the answer to a request first. *)
Definition loop_ok s : Prop :=
  (s.(sm_awaiting_get_proposal) = false ∧ wf s s.(sm_events_queue)) ∨
  (s.(sm_awaiting_get_proposal) = true ∧
   ∃ p q, s.(sm_events_queue) = EvGetProposal p s.(sm_round) :: q ∧ wf s q).

Lemma wf_queue q s Q : wf (set_events_queue q s) Q ↔ wf s Q.
Proof. split; intros []; by split. Qed.

Lemma loop_event_ok s e q :
  loop_ok s → s.(sm_events_queue) = e :: q → event_ok (set_events_queue q s) e.
Proof.
  intros [[Haw HW]|(Haw&p&q'&Hq&HW)] He.
  - rewrite He in HW. apply (wf_event_ok _ _ q); [by apply wf_queue|done].
  - rewrite Hq in He. injection He as <- <-. done.
Qed.

Lemma requeue_list_mono o o' : o `sublist_of` o' → requeue_list o `sublist_of` requeue_list o'.
Proof.
  unfold requeue_list. induction 1 as [|e o o' _ IH|e o o' _ IH]; rewrite ?filter_cons; [done|..];
    case_decide; by try constructor.
Qed.

Lemma handled_stops e s o s' :
  s.(sm_awaiting_get_proposal) = false → handled leader_fn e s o s' →
  s'.(sm_awaiting_get_proposal) = false ∨ stops s' o = true.
Proof.
  intros Haw Hh. destruct Hh as [s p Haw'|e s s1 o s' _ Hin Hr|e s s1 r o s' _ Hin Hrc Hen].
  - by left.
  - left. destruct (input_kept _ _ _ Hin) as (_&_&Haw1&_).
    rewrite (kept_awaiting _ _ (rules_kept _ _ _ _ Hr)). congruence.
  - destruct (input_kept _ _ _ Hin) as (_&_&Haw1&_).
    destruct Hen as [s' Hen|e' s2 o s' Hen Haw2 Hr _]; [by right|].
    left. rewrite (kept_awaiting _ _ (rules_kept _ _ _ _ Hr)). congruence.
Qed.

Lemma turn_ok s o s' :
  loop_ok s → turn leader_fn s o s' →
  wf s' s'.(sm_events_queue) ∧ (stops s' o = false → s'.(sm_awaiting_get_proposal) = false).
Proof.
  intros Hok Ht. destruct Ht as [s e q o s' Hq Hh].
  assert (wf s' (q ++ requeue_list o) ∧ s'.(sm_events_queue) = q ∧
    (stops s' o = false → s'.(sm_awaiting_get_proposal) = false)) as (HW&Hq'&Hst).
  { destruct (handled_untouched _ _ _ _ _ Hh) as (s1&Hin&Hut).
    assert (s'.(sm_events_queue) = q) as ->.
    { rewrite (ut_queue _ _ Hut). destruct Hin as [Hin|[-> _]]; [|done].
      by destruct (input_kept _ _ _ Hin) as (_&_&_&->&_). }
    destruct Hok as [[Haw HW]|(Haw&p&q'&Hq'&HW)]; rewrite Hq in *.
    - split_and!; [|done|].
      + eapply (wf_handled e (set_events_queue q s)); [by apply wf_queue|done..].
      + destruct (handled_stops _ (set_events_queue q s) _ _ Haw Hh) as [?| ->]; [done|by intros [=]].
    - injection Hq' as -> ->. inversion Hh; subst; [|simpl in *; congruence..].
      split_and!; [|done..]. apply (wf_emit (set_events_queue q' s)); [by apply wf_queue|].
      split; [by apply step_propose|done]. }
  split; [|done]. unfold requeue. apply wf_queue. simpl. rewrite Hq'.
  eapply wf_sublist; [done|]. apply sublist_app; [done|]. apply requeue_list_mono, dispatch_sublist.
Qed.

Lemma continues_ok s s' : loop_ok s → continues leader_fn s s' → loop_ok s'.
Proof.
  intros Hok (o&Ht&Hs). destruct (turn_ok _ _ _ Hok Ht) as [HW Haw]. left. auto.
Qed.

Lemma loop_no_panic s : loop_ok s → ¬ loop_panics leader_fn s.
Proof.
  intros Hok (s1&e&q&Hrun&Hq&Hbad). apply Hbad. apply loop_event_ok; [|done].
  clear -Hok Hrun. induction Hrun; [done|]. eauto using continues_ok.
Qed.

Lemma finished_ok s o E s' : finished leader_fn s o E s' → loop_ok s → wf s' s'.(sm_events_queue).
Proof.
  induction 1 as [s Hq|s o s' Ht Hs|s o s1 out E s' Ht Hs _ IH]; intros Hok.
  - destruct Hok as [[_ ?]|(_&p&q&?&_)]; [done|congruence].
  - by eapply turn_ok.
  - apply IH. eapply continues_ok; [done|]. by exists o.
Qed.
(** ** The contract of the caller *)

Definition input_ok s (e : StateMachineEvent) : Prop :=
  match e with
  | EvGetProposal _ r => s.(sm_awaiting_get_proposal) = true ∧ r = s.(sm_round)
  | EvProposal _ r _ => ¬ is_leader leader_fn s r ∧ s.(sm_proposals) !! r = None ∧
      ∀ e', e' ∈ s.(sm_events_queue) → proposal_round e' ≠ Some r
  | EvPrevote _ r =>
      room s.(sm_prevotes) prevote_past prevote_round s r s.(sm_events_queue) < u32_max
  | EvPrecommit _ r =>
      room s.(sm_precommits) precommit_past precommit_round s r s.(sm_events_queue) < u32_max
  | EvDecision _ _ => False
  | EvTimeoutPrecommit r => r < u32_max
  | EvTimeoutPropose _ | EvTimeoutPrevote _ => True
  end.

Definition answers_request (e : StateMachineEvent) : bool :=
  match e with EvGetProposal _ _ => true | _ => false end.

Lemma room_snoc votes past `{∀ s r, Decision (past s r)} f s r Q e :
  room votes past f s r (Q ++ [e]) = room votes past f s r Q + (if decide (f e = Some r) then 1 else 0).
Proof. unfold room. rewrite n_round_app, n_round_cons. unfold n_round at 2. simpl. lia. Qed.

Lemma wf_snoc s e :
  wf s s.(sm_events_queue) → input_ok s e → answers_request e = false →
  wf s (s.(sm_events_queue) ++ [e]).
Proof.
  intros [W1 W2 W3 W4 W5 W6 W7] He Hgp. split.
  - intros e' [?| ->%list_elem_of_singleton]%elem_of_app; [by apply W1|]. by destruct e.
  - intros e' r [?| ->%list_elem_of_singleton]%elem_of_app Hr; [by eapply W2|].
    destruct e; try done. simpl in *. injection Hr as <-. tauto.
  - apply (NoDup_omap_snoc _ _ _ (λ r, ∃ e', e' ∈ s.(sm_events_queue) ∧ proposal_round e' = Some r));
      [done|eauto|]. right. exists e. split; [done|]. intros r Hr (e'&He'&Hr').
    destruct e; try done. simpl in *. injection Hr as ->. destruct He as (_&_&Hno). by eapply Hno.
  - intros r Hl Hnp. destruct (W4 r Hl Hnp) as [? Hno]. split; [done|].
    intros e' [?| ->%list_elem_of_singleton]%elem_of_app; [by apply Hno|]. intros Hr.
    destruct e; try done. simpl in *. injection Hr as ->. tauto.
  - done.
  - intros r. rewrite room_snoc. specialize (W6 r). case_decide as Hr; [|lia].
    destruct e; try done. simpl in *. injection Hr as ->. lia.
  - intros r. rewrite room_snoc. specialize (W7 r). case_decide as Hr; [|lia].
    destruct e; try done. simpl in *. injection Hr as ->. lia.
Qed.

Lemma enqueue_ok e s :
  wf s s.(sm_events_queue) → input_ok s e →
  s.(sm_awaiting_get_proposal) = answers_request e → loop_ok (enqueue e s).
Proof.
  intros HW He Haw. destruct (answers_request e) eqn:Hgp.
  - destruct e as [p r| | | | | | |]; try done. destruct He as [_ ->]. unfold enqueue. rewrite Haw.
    simpl. rewrite decide_True by done. right. split; [done|]. exists p, s.(sm_events_queue).
    split; [done|]. by apply wf_queue.
  - left. assert (enqueue e s = set_events_queue (s.(sm_events_queue) ++ [e]) s) as ->
      by (by destruct e). split; [done|]. apply wf_queue. by apply wf_snoc.
Qed.

(** When a request is pending, other events are only buffered. *)
Lemma handle_event_buffers e s :
  s.(sm_awaiting_get_proposal) = true → answers_request e = false →
  handle_event leader_fn e s = (Ok [], set_events_queue (s.(sm_events_queue) ++ [e]) s).
Proof. intros Haw Hgp. unfold handle_event. mstep. rewrite Haw. by destruct e. Qed.

Lemma handle_event_runs e s :
  s.(sm_awaiting_get_proposal) = answers_request e → input_ok s e →
  handle_event leader_fn e s = handle_enqueued_events leader_fn (enqueue e s).
Proof.
  intros Haw He. unfold handle_event, enqueue. mstep. rewrite Haw.
  destruct e; try done. simpl in *. rewrite !decide_True by tauto. done.
Qed.

Lemma handle_event_ok e s :
  wf s s.(sm_events_queue) → input_ok s e →
  wp_ok (handle_event leader_fn e) s (λ _ s', wf s' s'.(sm_events_queue)).
Proof.
  intros HW He.
  destruct (decide (s.(sm_awaiting_get_proposal) = answers_request e)) as [Haw|Haw].
  - pose proof (enqueue_ok e s HW He Haw) as Hok. unfold wp_ok, wp.
    rewrite (handle_event_runs e s) by done.
    pose proof (handle_enqueued_events_spec leader_fn (enqueue e s)) as Hspec. unfold wp in Hspec.
    destruct (handle_enqueued_events leader_fn (enqueue e s)) as [[o| |] s']; [|done|].
    + destruct Hspec as [E Hf]. by eapply finished_ok.
    + by apply (loop_no_panic _ Hok).
  - destruct (answers_request e) eqn:Hgp.
    { destruct e; try done. destruct He as [He _]. congruence. }
    apply not_false_is_true in Haw. apply wp_ok_iff. eexists _, _.
    split; [by apply handle_event_buffers|]. simpl. apply wf_queue. by apply wf_snoc.
Qed.

Lemma start_wf id n b s :
  StateMachine_new id n b = Some s →
  wf (set_awaiting_get_proposal
    (bool_decide (s.(sm_is_observer) = false ∧ s.(sm_id) = leader_fn 0)) s) [].
Proof.
  intros (Hid&Hob&Hq&_&Hr&Hst&Haw&Hp&Hpv&Hpc&Hqu&Hl&Hv)%StateMachine_new_fresh.
  split; simpl; try (intros *; set_solver); [constructor|..].
  - intros r _ _. rewrite Hp, lookup_empty. split; [done|set_solver].
  - intros Hb%bool_decide_eq_true. by rewrite Hr.
  - intros r. rewrite Hpv. unfold room, n_round. simpl. case_decide; done.
  - intros r. rewrite Hpc. unfold room, n_round. simpl. case_decide; done.
Qed.
End safety.
