(* ===== verification/StateMachineLiveness.v ===== *)
(** The state machine decides: an event that completes a quorum of precommits for a proposal of
    a round that was reached makes [handle_event] return a decision. *)
From S2P Require Import Prelude.
From S2P Require Import StarknetApi.
From S2P Require Import StateMachine.
From S2P Require Import TendermintRules.
From S2P Require Import StateMachineProofs.
From S2P Require Import StateMachineSafety.

Implicit Types (s : StateMachine) (r : Round) (v : ProposalContentId) (o E : Events).

(** The proposal of the round is known and has a quorum of precommits. *)
Definition decidable_at s r v : Prop :=
  (∃ vr, s.(sm_proposals) !! r = Some (Some v, vr)) ∧
  s.(sm_quorum) ≤ vote_count s.(sm_precommits) r (Some v).

Lemma decidable_kept s s' r v : kept s s' → decidable_at s r v → decidable_at s' r v.
Proof. intros Hk. unfold decidable_at. by rewrite (kept_proposals _ _ Hk), (kept_precommits _ _ Hk), (kept_quorum _ _ Hk). Qed.

Lemma upon_decision_emits s r v : decidable_at s r v → upon_decision r s = (Ok [EvDecision v r], s).
Proof.
  intros [[vr Hp] Hq]. unfold upon_decision. mstep. rewrite Hp.
  assert (value_has_enough_votes s.(sm_precommits) r (Some v) s.(sm_quorum) = true) as ->; [|done].
  by apply bool_decide_eq_true.
Qed.

Lemma append_all_snoc fs f s o s' :
  append_all (fs ++ [f]) s = (Ok o, s') →
  ∃ o1 s1 o2, append_all fs s = (Ok o1, s1) ∧ f s1 = (Ok o2, s') ∧ o = o1 ++ o2.
Proof.
  revert s o. induction fs as [|g fs IH]; intros s o; cbn [append_all app]; unfold mbind, M_bind, mret, M_ret.
  - destruct (f s) as [[o2|e|] s2] eqn:Hf; try done. intros [= <- <-]. exists [], s, o2. by rewrite app_nil_r.
  - destruct (g s) as [[o0|e|] s0] eqn:Hg; try done.
    destruct (append_all (fs ++ [f]) s0) as [[o'|e|] s2] eqn:Hrest; try done.
    intros [= <- <-]. destruct (IH _ _ Hrest) as (o1&s1&o2&->&Hf&->).
    exists (o0 ++ o1), s1, o2. by rewrite (assoc_L app).
Qed.

(** Rules that are performed, then [upon_decision]. *)
Lemma performs_then_decides fs f s r v o s' :
  Forall (performs 3) fs → decidable_at s r v →
  (∀ s1, kept s s1 → f s1 = upon_decision r s1) →
  append_all (fs ++ [f]) s = (Ok o, s') → EvDecision v r ∈ o.
Proof.
  intros Hfs Hd Hf Hrun. destruct (append_all_snoc fs f s o s' Hrun) as (o1&s1&o2&H1&H2&->).
  pose proof (performs_append_all 3 fs Hfs (EvTimeoutPropose 0) s (steps_left_lt _)) as Hspec. unfold wp in Hspec. rewrite H1 in Hspec.
  pose proof (rules_kept _ _ _ _ Hspec) as Hk. rewrite Hf, (upon_decision_emits s1 r v) in H2 by (done || by eapply decidable_kept).
  injection H2 as <- _. apply elem_of_app. right. left.
Qed.

Lemma current_round_decides s v o s' :
  decidable_at s s.(sm_round) v → current_round_upons s = (Ok o, s') → EvDecision v s.(sm_round) ∈ o.
Proof.
  intros Hd Hrun. pose proof (current_round_upons_fuel_performs 2) as Hrec.
  eapply (performs_then_decides [upon_new_proposal _; upon_reproposal _; maybe_initiate_timeout_prevote;
    upon_prevote_quorum _; upon_nil_prevote_quorum _; maybe_initiate_timeout_precommit]); [|done| |exact Hrun].
  - repeat constructor.
    + by apply upon_new_proposal_performs.
    + by apply upon_reproposal_performs.
    + by apply timeout_prevote_performs.
    + by apply upon_prevote_quorum_performs.
    + by apply upon_nil_prevote_quorum_performs.
    + by apply timeout_precommit_performs.
  - intros s1 Hk. mstep. by rewrite (kept_round _ _ Hk).
Qed.

Lemma past_round_decides s r v o s' :
  decidable_at s r v → past_round_upons r s = (Ok o, s') → EvDecision v r ∈ o.
Proof.
  intros Hd Hrun. eapply (performs_then_decides [upon_reproposal current_round_upons]); [|done|by intros|exact Hrun].
  repeat constructor. intros ev s1 Hn. eapply upon_reproposal_performs; [apply current_round_upons_performs|lia].
Qed.

Section liveness.
Context (leader_fn : Round → ValidatorId).

Lemma map_round_decides s r v o s' :
  r ≤ s.(sm_round) → decidable_at s r v → map_round_to_upons leader_fn r s = (Ok o, s') → EvDecision v r ∈ o.
Proof.
  intros Hr Hd. unfold map_round_to_upons. mstep. destruct (N.compare_spec r s.(sm_round)) as [->|Hlt|Hgt]; [| |lia].
  - by apply current_round_decides.
  - by apply past_round_decides.
Qed.

(** The events that complete a decision: the last precommit, or the proposal. *)
Definition completes s (e : StateMachineEvent) r v : Prop :=
  (e = EvPrecommit (Some v) r ∧ (∃ vr, s.(sm_proposals) !! r = Some (Some v, vr)) ∧
   s.(sm_quorum) ≤ vote_count s.(sm_precommits) r (Some v) + 1) ∨
  (∃ vr, e = EvProposal (Some v) r vr ∧ s.(sm_quorum) ≤ vote_count s.(sm_precommits) r (Some v)).

Lemma internal_decides s e r v o s' :
  s.(sm_awaiting_get_proposal) = false → r ≤ s.(sm_round) → completes s e r v →
  handle_event_internal leader_fn e s = (Ok o, s') → EvDecision v r ∈ o.
Proof.
  intros Haw Hr Hc. unfold handle_event_internal. mstep. rewrite Haw. cbn [negb orb]. mstep.
  destruct Hc as [(->&Hp&Hq)|(vr&->&Hq)].
  - unfold handle_precommit. mstep. destruct (count_vote s.(sm_precommits) r (Some v)) as [votes|] eqn:Hcount; [|done].
    mstep. apply map_round_decides; [done|]. split; [done|]. cbn.
    rewrite (vote_count_count _ _ _ _ r (Some v) Hcount), decide_True by done. done.
  - unfold handle_proposal. mstep. destruct (bool_decide (s.(sm_proposals) !! r = None)) eqn:Hn; [|done].
    mstep. apply map_round_decides; [done|]. split; [|done]. cbn. rewrite lookup_insert_eq. eauto.
Qed.

Lemma dispatch_decides b o v r :
  EvDecision v r ∈ o → (∀ p r', EvGetProposal p r' ∉ o) → ∃ v' r', EvDecision v' r' ∈ (dispatch b o).1 ∧ (dispatch b o).2 = true.
Proof.
  induction o as [|e o IH]; intros Hin Hno; [by apply not_elem_of_nil in Hin|].
  destruct e as [p r'| | | |v' r'| | |]; cbn [dispatch]; [by destruct (Hno p r'); left| | | |exists v', r'; by split; [left|]| | |].
  all: destruct IH as (v1&r1&IH1&IH2); [by apply elem_of_cons in Hin as [?|?]|intros p0 r0 H0; destruct (Hno p0 r0); by right|].
  all: exists v1, r1; destruct (dispatch b o) as [sent stop]; cbn in *; destruct b; split; try done; try by right.
Qed.

Lemma loop_decides s e r v :
  wf leader_fn s s.(sm_events_queue) → input_ok leader_fn s e →
  s.(sm_awaiting_get_proposal) = false → s.(sm_events_queue) = [] → r ≤ s.(sm_round) → completes s e r v →
  ∃ o s', handle_event leader_fn e s = (Ok o, s') ∧ ∃ v' r', EvDecision v' r' ∈ o.
Proof.
  intros Hwf Hin Haw Hq Hr Hc.
  assert (Hans : answers_request e = false) by (by destruct Hc as [(->&_)|(?&->&_)]).
  assert (Hrun : handle_event leader_fn e s = handle_enqueued_events leader_fn (enqueue e s)).
  { apply handle_event_runs; [by rewrite Haw|done]. }
  pose proof (handle_event_ok leader_fn e s Hwf Hin) as Hok. apply wp_ok_iff in Hok as (o&s'&Hres&_).
  exists o, s'. split; [done|]. rewrite Hres in Hrun.
  assert (enqueue e s = set_events_queue [e] s) as Henq.
  { unfold enqueue. rewrite Hq. by destruct Hc as [(->&_)|(?&->&_)]. }
  rewrite Henq in Hrun. revert Hrun. unfold handle_enqueued_events. mstep. cbn [sm_events_queue set_events_queue].
  change (6 * length [e] + 5)%nat with 11%nat. cbn [handle_enqueued_events_loop]. mstep. cbn [sm_events_queue set_events_queue]. mstep.
  assert (set_events_queue [] (set_events_queue [e] s) = s) as -> by (rewrite <-Hq; by destruct s).
  pose proof (handle_event_internal_spec leader_fn e s) as Hspec. unfold handles, wp in Hspec.
  unfold mbind, M_bind. destruct (handle_event_internal leader_fn e s) as [[o1|err|] s2] eqn:Hint; [|done..].
  cbn [fst snd] in Hspec. pose proof (internal_decides s e r v o1 s2 Haw Hr Hc Hint) as Hdec.
  assert (Hno : ∀ p r', EvGetProposal p r' ∉ o1).
  { intros p r' Hgp. destruct (handled_get_proposal_alone _ _ _ _ _ _ _ Hspec Hgp) as (->&_).
    by apply list_elem_of_singleton in Hdec. }
  rewrite handle_resultant_events_spec by (intros p r' Hgp; by destruct (Hno p r')).
  destruct (dispatch_decides s2.(sm_is_observer) o1 v r Hdec Hno) as (v'&r'&Hd&->).
  intros [= -> _]. eauto.
Qed.
End liveness.
