(* ===== verification/SingleHeightConsensus.v ===== *)
(** One height of consensus: [crates/sequencing/papyrus_consensus/src/single_height_consensus.rs].

    The node that consensus runs in ([ConsensusContext]) is a parameter: [proposer] is its leader
    function and [broadcast_error] tells whether a broadcast fails, given the calls made before.
    The calls to it that have an effect are recorded in a log. Channel endpoints are opaque
    handles, durations are numbers. *)

From S2P Require Import Prelude StarknetApi StateMachine.

Abbreviation BlockNumber := N (only parsing).
Abbreviation Duration := N (only parsing).
Abbreviation Receiver := N (only parsing).

Inductive VoteType := VtPrevote | VtPrecommit.

#[global] Instance VoteType_eq_dec : EqDecision VoteType.
Proof. solve_decision. Defined.

Record Vote := {
  vote_type : VoteType;
  vote_height : N;
  vote_round : Round;
  block_hash : option ProposalContentId;
  voter : ValidatorId;
}.

#[global] Instance Vote_eq_dec : EqDecision Vote.
Proof. solve_decision. Defined.

Record ProposalInit := {
  pi_height : BlockNumber;
  pi_round : Round;
  pi_valid_round : option Round;
  pi_proposer : ValidatorId;
}.

#[global] Instance ProposalInit_eq_dec : EqDecision ProposalInit.
Proof. solve_decision. Defined.

Record ProposalFin := { proposal_content_id : ProposalContentId }.

Record TimeoutsConfig := {
  proposal_timeout : Duration;
  prevote_timeout : Duration;
  precommit_timeout : Duration;
}.

(** A decision of consensus: [types.rs]. *)
Record ConsensusDecision := { dec_precommits : list Vote; dec_block : ProposalContentId }.

(** The errors, without their messages. *)
Inductive ConsensusError :=
| InvalidEvent
| InvalidProposal (proposer : ValidatorId) (height : BlockNumber)
| Equivocation (height : BlockNumber) (old new : Vote)
| InternalNetworkError
| InternalInconsistency
| ProtobufConversionError
| SendError.

(** The events carry a [StateMachineEvent] of the matching kind. *)
Inductive ShcEvent :=
| ShcEvTimeoutPropose (event : StateMachineEvent)
| ShcEvTimeoutPrevote (event : StateMachineEvent)
| ShcEvTimeoutPrecommit (event : StateMachineEvent)
| ShcEvPrevote (event : StateMachineEvent)
| ShcEvPrecommit (event : StateMachineEvent)
| ShcEvBuildProposal (event : StateMachineEvent)
| ShcEvValidateProposal (event : StateMachineEvent) (fin : option ProposalFin).

Inductive ShcTask :=
| TaskTimeoutPropose (duration : Duration) (event : StateMachineEvent)
| TaskTimeoutPrevote (duration : Duration) (event : StateMachineEvent)
| TaskTimeoutPrecommit (duration : Duration) (event : StateMachineEvent)
| TaskPrevote (duration : Duration) (event : StateMachineEvent)
| TaskPrecommit (duration : Duration) (event : StateMachineEvent)
| TaskBuildProposal (round : Round)
| TaskValidateProposal (init : ProposalInit).

#[global] Instance ShcTask_eq_dec : EqDecision ShcTask.
Proof. solve_decision. Defined.

Inductive ShcReturn :=
| ShcTasks (tasks : list ShcTask)
| ShcDecision (decision : ConsensusDecision).

(** Running a task: [built] and [validated] are what arrives on the channel of a task that waits
    for the context, [None] when its sender is dropped. *)
Definition ShcTask_run (task : ShcTask) (built : option ProposalContentId)
    (validated : option (ProposalContentId * ProposalFin)) : ShcEvent :=
  match task with
  | TaskTimeoutPropose _ event => ShcEvTimeoutPropose event
  | TaskTimeoutPrevote _ event => ShcEvTimeoutPrevote event
  | TaskTimeoutPrecommit _ event => ShcEvTimeoutPrecommit event
  | TaskPrevote _ event => ShcEvPrevote event
  | TaskPrecommit _ event => ShcEvPrecommit event
  | TaskBuildProposal round => ShcEvBuildProposal (EvGetProposal built round)
  | TaskValidateProposal init =>
      let '(built_content_id, received_proposal_id) :=
        match validated with
        | Some (built_content_id, received_proposal_id) =>
            (Some built_content_id, Some received_proposal_id)
        | None => (None, None)
        end in
      ShcEvValidateProposal
        (EvProposal built_content_id init.(pi_round) init.(pi_valid_round)) received_proposal_id
  end.

(** The calls to the context. *)
Inductive ContextCall :=
| CtxSetHeightAndRound (height : BlockNumber) (round : Round)
| CtxBuildProposal (init : ProposalInit)
| CtxValidateProposal (init : ProposalInit) (content : Receiver)
| CtxRepropose (id : ProposalContentId) (init : ProposalInit)
| CtxBroadcast (vote : Vote).

#[global] Instance ContextCall_eq_dec : EqDecision ContextCall.
Proof. solve_decision. Defined.

Record SingleHeightConsensus := {
  shc_height : BlockNumber;
  shc_validators : list ValidatorId;
  shc_id : ValidatorId;
  shc_timeouts : TimeoutsConfig;
  shc_state_machine : StateMachine;
  shc_proposals : gmap Round (option ProposalContentId);
  shc_prevotes : gmap (Round * ValidatorId) Vote;
  shc_precommits : gmap (Round * ValidatorId) Vote;
  shc_last_prevote : option Vote;
  shc_last_precommit : option Vote;
}.

Definition set_shc_state_machine x (s : SingleHeightConsensus) : SingleHeightConsensus := {|
  shc_height := s.(shc_height); shc_validators := s.(shc_validators); shc_id := s.(shc_id);
  shc_timeouts := s.(shc_timeouts); shc_state_machine := x; shc_proposals := s.(shc_proposals);
  shc_prevotes := s.(shc_prevotes); shc_precommits := s.(shc_precommits);
  shc_last_prevote := s.(shc_last_prevote); shc_last_precommit := s.(shc_last_precommit) |}.
Definition set_shc_proposals x (s : SingleHeightConsensus) : SingleHeightConsensus := {|
  shc_height := s.(shc_height); shc_validators := s.(shc_validators); shc_id := s.(shc_id);
  shc_timeouts := s.(shc_timeouts); shc_state_machine := s.(shc_state_machine);
  shc_proposals := x; shc_prevotes := s.(shc_prevotes); shc_precommits := s.(shc_precommits);
  shc_last_prevote := s.(shc_last_prevote); shc_last_precommit := s.(shc_last_precommit) |}.
Definition set_shc_prevotes x (s : SingleHeightConsensus) : SingleHeightConsensus := {|
  shc_height := s.(shc_height); shc_validators := s.(shc_validators); shc_id := s.(shc_id);
  shc_timeouts := s.(shc_timeouts); shc_state_machine := s.(shc_state_machine);
  shc_proposals := s.(shc_proposals); shc_prevotes := x; shc_precommits := s.(shc_precommits);
  shc_last_prevote := s.(shc_last_prevote); shc_last_precommit := s.(shc_last_precommit) |}.
Definition set_shc_precommits x (s : SingleHeightConsensus) : SingleHeightConsensus := {|
  shc_height := s.(shc_height); shc_validators := s.(shc_validators); shc_id := s.(shc_id);
  shc_timeouts := s.(shc_timeouts); shc_state_machine := s.(shc_state_machine);
  shc_proposals := s.(shc_proposals); shc_prevotes := s.(shc_prevotes); shc_precommits := x;
  shc_last_prevote := s.(shc_last_prevote); shc_last_precommit := s.(shc_last_precommit) |}.
Definition set_shc_last_prevote x (s : SingleHeightConsensus) : SingleHeightConsensus := {|
  shc_height := s.(shc_height); shc_validators := s.(shc_validators); shc_id := s.(shc_id);
  shc_timeouts := s.(shc_timeouts); shc_state_machine := s.(shc_state_machine);
  shc_proposals := s.(shc_proposals); shc_prevotes := s.(shc_prevotes);
  shc_precommits := s.(shc_precommits); shc_last_prevote := x;
  shc_last_precommit := s.(shc_last_precommit) |}.
Definition set_shc_last_precommit x (s : SingleHeightConsensus) : SingleHeightConsensus := {|
  shc_height := s.(shc_height); shc_validators := s.(shc_validators); shc_id := s.(shc_id);
  shc_timeouts := s.(shc_timeouts); shc_state_machine := s.(shc_state_machine);
  shc_proposals := s.(shc_proposals); shc_prevotes := s.(shc_prevotes);
  shc_precommits := s.(shc_precommits); shc_last_prevote := s.(shc_last_prevote);
  shc_last_precommit := x |}.

Definition SingleHeightConsensus_new (height : BlockNumber) (is_observer : bool)
    (id : ValidatorId) (validators : list ValidatorId) (timeouts : TimeoutsConfig)
  : option SingleHeightConsensus :=
  let n_validators := N.of_nat (length validators) in
  if decide (n_validators ≤ u32_max) then
    state_machine ← StateMachine_new id n_validators is_observer;
    Some {| shc_height := height; shc_validators := validators; shc_id := id;
            shc_timeouts := timeouts; shc_state_machine := state_machine;
            shc_proposals := ∅; shc_prevotes := ∅; shc_precommits := ∅;
            shc_last_prevote := None; shc_last_precommit := None |}
  else None.

(** The state of a height with the log of its calls to the context. *)
Record ShcNode := { shc : SingleHeightConsensus; ctx_log : list ContextCall }.

Definition set_shc x (s : ShcNode) : ShcNode := {| shc := x; ctx_log := s.(ctx_log) |}.
Definition set_ctx_log x (s : ShcNode) : ShcNode := {| shc := s.(shc); ctx_log := x |}.

Abbreviation ShcM := (M ShcNode ConsensusError) (only parsing).

Definition on_shc (f : SingleHeightConsensus → SingleHeightConsensus) : ShcM unit :=
  modify (λ s, set_shc (f s.(shc)) s).

Definition get_shc : ShcM SingleHeightConsensus := gets shc.

(** A call to the state machine, whose fuel never runs out. *)
Definition on_state_machine {A} (m : M StateMachine OutOfFuel A) : ShcM A := λ s,
  match m s.(shc).(shc_state_machine) with
  | (Ok a, sm) => (Ok a, set_shc (set_shc_state_machine sm s.(shc)) s)
  | (_, sm) => (Panic, set_shc (set_shc_state_machine sm s.(shc)) s)
  end.

Definition log_call (c : ContextCall) : ShcM unit :=
  modify (λ s, set_ctx_log (s.(ctx_log) ++ [c]) s).

Definition set_height_and_round : ShcM unit :=
  s ← get_shc;
  log_call (CtxSetHeightAndRound s.(shc_height) s.(shc_state_machine).(sm_round)).

(** [let ret = m.await; context.set_height_and_round(..).await; ret] *)
Definition then_set_height_and_round {A} (m : ShcM A) : ShcM A := λ s,
  match m s with
  | (Panic, s') => (Panic, s')
  | (r, s') => match set_height_and_round s' with (_, s'') => (r, s'') end
  end.

(** The maps of the two kinds of votes. *)
Definition get_votes (t : VoteType) (s : SingleHeightConsensus) : gmap (Round * ValidatorId) Vote :=
  match t with VtPrevote => s.(shc_prevotes) | VtPrecommit => s.(shc_precommits) end.
Definition set_votes (t : VoteType) x (s : SingleHeightConsensus) : SingleHeightConsensus :=
  match t with VtPrevote => set_shc_prevotes x s | VtPrecommit => set_shc_precommits x s end.
Definition get_last_vote (t : VoteType) (s : SingleHeightConsensus) : option Vote :=
  match t with VtPrevote => s.(shc_last_prevote) | VtPrecommit => s.(shc_last_precommit) end.
Definition set_last_vote (t : VoteType) x (s : SingleHeightConsensus) : SingleHeightConsensus :=
  match t with VtPrevote => set_shc_last_prevote x s | VtPrecommit => set_shc_last_precommit x s end.
Definition sm_vote (t : VoteType) (proposal_id : option ProposalContentId) (round : Round)
  : StateMachineEvent :=
  match t with VtPrevote => EvPrevote proposal_id round | VtPrecommit => EvPrecommit proposal_id round end.
Definition vote_task (t : VoteType) (timeouts : TimeoutsConfig) (e : StateMachineEvent) : ShcTask :=
  match t with
  | VtPrevote => TaskPrevote timeouts.(prevote_timeout) e
  | VtPrecommit => TaskPrecommit timeouts.(precommit_timeout) e
  end.

Section shc.
Context (proposer : BlockNumber → Round → ValidatorId).
Context (broadcast_error : list ContextCall → Vote → option ConsensusError).

(** The call is logged whether it succeeds or not. *)
Definition broadcast (vote : Vote) : ShcM unit :=
  log ← gets ctx_log;
  log_call (CtxBroadcast vote);;
  match broadcast_error log vote with Some e => throw e | None => mret tt end.

Definition leader_fn (height : BlockNumber) : Round → ValidatorId := proposer height.

(** ** Events of the state machine *)

Definition handle_state_machine_get_proposal (proposal_id : option ProposalContentId)
    (round : Round) : ShcM (list ShcTask) :=
  assert_ (bool_decide (proposal_id = None));;
  s ← get_shc;
  log_call (CtxBuildProposal {| pi_height := s.(shc_height); pi_round := round;
                                pi_proposer := s.(shc_id); pi_valid_round := None |});;
  mret [TaskBuildProposal round].

Definition handle_state_machine_proposal (proposal_id : option ProposalContentId)
    (round : Round) (valid_round : option Round) : ShcM unit :=
  match valid_round with
  | None => mret tt
  | Some valid_round =>
      proposal_id ← expect proposal_id;
      s ← get_shc;
      id ← expect (s.(shc_proposals) !! valid_round);
      id ← expect id;
      assert_ (bool_decide (id = proposal_id));;
      log_call (CtxRepropose id {| pi_height := s.(shc_height); pi_round := round;
                                   pi_proposer := s.(shc_id);
                                   pi_valid_round := Some valid_round |});;
      on_shc (set_shc_proposals (<[round := Some proposal_id]> s.(shc_proposals)));;
      assert_ (bool_decide (s.(shc_proposals) !! round = None))
  end.

Definition handle_state_machine_vote (proposal_id : option ProposalContentId) (round : Round)
    (t : VoteType) : ShcM (list ShcTask) :=
  s ← get_shc;
  let task := vote_task t s.(shc_timeouts) (sm_vote t proposal_id round) in
  let vote := {| vote_type := t; vote_height := s.(shc_height); vote_round := round;
                 block_hash := proposal_id; voter := s.(shc_id) |} in
  on_shc (λ s, set_votes t (<[(round, s.(shc_id)) := vote]> (get_votes t s)) s);;
  match get_votes t s !! (round, s.(shc_id)) with
  | Some _ => throw InternalInconsistency
  | None =>
      match get_last_vote t s with
      | None => mret tt
      | Some last_vote =>
          if decide (last_vote.(vote_round) < round) then mret tt else throw InternalInconsistency
      end;;
      on_shc (set_last_vote t (Some vote));;
      broadcast vote;;
      mret [task]
  end.

Definition supporting_precommits (s : SingleHeightConsensus) (proposal_id : ProposalContentId)
    (round : Round) : list Vote :=
  omap (λ v, vote ← s.(shc_precommits) !! (round, v);
             if decide (vote.(block_hash) = Some proposal_id) then Some vote else None)
    s.(shc_validators).

Definition handle_state_machine_decision (proposal_id : ProposalContentId) (round : Round)
  : ShcM ShcReturn :=
  s ← get_shc;
  on_shc (set_shc_proposals (delete round s.(shc_proposals)));;
  match s.(shc_proposals) !! round with
  | None | Some None => throw InternalInconsistency
  | Some (Some block) =>
      if decide (block ≠ proposal_id) then throw InternalInconsistency else
      let precommits := supporting_precommits s proposal_id round in
      if decide (N.of_nat (length precommits) < s.(shc_state_machine).(sm_quorum))
      then throw InternalInconsistency
      else mret (ShcDecision {| dec_precommits := precommits; dec_block := block |})
  end.

Fixpoint handle_state_machine_events_loop (events : Events) (ret_val : list ShcTask)
  : ShcM ShcReturn :=
  match events with
  | [] => mret (ShcTasks ret_val)
  | event :: events =>
      match event with
      | EvGetProposal proposal_id round =>
          tasks ← handle_state_machine_get_proposal proposal_id round;
          handle_state_machine_events_loop events (ret_val ++ tasks)
      | EvProposal proposal_id round valid_round =>
          handle_state_machine_proposal proposal_id round valid_round;;
          handle_state_machine_events_loop events ret_val
      | EvDecision proposal_id round => handle_state_machine_decision proposal_id round
      | EvPrevote proposal_id round =>
          tasks ← handle_state_machine_vote proposal_id round VtPrevote;
          handle_state_machine_events_loop events (ret_val ++ tasks)
      | EvPrecommit proposal_id round =>
          tasks ← handle_state_machine_vote proposal_id round VtPrecommit;
          handle_state_machine_events_loop events (ret_val ++ tasks)
      | EvTimeoutPropose _ =>
          s ← get_shc;
          handle_state_machine_events_loop events
            (ret_val ++ [TaskTimeoutPropose s.(shc_timeouts).(proposal_timeout) event])
      | EvTimeoutPrevote _ =>
          s ← get_shc;
          handle_state_machine_events_loop events
            (ret_val ++ [TaskTimeoutPrevote s.(shc_timeouts).(prevote_timeout) event])
      | EvTimeoutPrecommit _ =>
          s ← get_shc;
          handle_state_machine_events_loop events
            (ret_val ++ [TaskTimeoutPrecommit s.(shc_timeouts).(precommit_timeout) event])
      end
  end.

Definition handle_state_machine_events (events : Events) : ShcM ShcReturn :=
  handle_state_machine_events_loop events [].

(** Passes an event to the state machine and handles what it returns. *)
Definition run_state_machine (event : StateMachineEvent) : ShcM ShcReturn :=
  s ← get_shc;
  sm_events ← on_state_machine (handle_event (leader_fn s.(shc_height)) event);
  handle_state_machine_events sm_events.

(** ** Entry points *)

Definition shc_start : ShcM ShcReturn :=
  set_height_and_round;;
  s ← get_shc;
  then_set_height_and_round
    (events ← on_state_machine (start (leader_fn s.(shc_height)));
     handle_state_machine_events events).

Definition shc_handle_proposal (init : ProposalInit) (p2p_messages_receiver : Receiver)
  : ShcM ShcReturn :=
  s ← get_shc;
  let proposer_id := proposer s.(shc_height) init.(pi_round) in
  if decide (init.(pi_height) ≠ s.(shc_height))
  then throw (InvalidProposal proposer_id s.(shc_height)) else
  if decide (init.(pi_proposer) ≠ proposer_id)
  then throw (InvalidProposal proposer_id s.(shc_height)) else
  match s.(shc_proposals) !! init.(pi_round) with
  | Some _ => mret (ShcTasks [])
  | None =>
      on_shc (set_shc_proposals (<[init.(pi_round) := None]> s.(shc_proposals)));;
      log_call (CtxValidateProposal init p2p_messages_receiver);;
      set_height_and_round;;
      mret (ShcTasks [TaskValidateProposal init])
  end.

(** The timed re-broadcast of the last vote; an early [return] skips the final
    [set_height_and_round]. *)
Definition rebroadcast (t : VoteType) (proposal_id : option ProposalContentId) (round : Round)
  : ShcM ShcReturn :=
  s ← get_shc;
  match get_last_vote t s with
  | None => throw InvalidEvent
  | Some last_vote =>
      if decide (round < last_vote.(vote_round)) then mret (ShcTasks []) else
      broadcast last_vote;;
      set_height_and_round;;
      mret (ShcTasks [vote_task t s.(shc_timeouts) (sm_vote t proposal_id round)])
  end.

Definition shc_handle_event (event : ShcEvent) : ShcM ShcReturn :=
  match event with
  | ShcEvTimeoutPropose event | ShcEvTimeoutPrevote event | ShcEvTimeoutPrecommit event =>
      then_set_height_and_round (run_state_machine event)
  | ShcEvPrevote (EvPrevote proposal_id round) => rebroadcast VtPrevote proposal_id round
  | ShcEvPrecommit (EvPrecommit proposal_id round) => rebroadcast VtPrecommit proposal_id round
  | ShcEvValidateProposal (EvProposal built_id round valid_round) received_fin =>
      if decide (built_id ≠ proposal_content_id <$> received_fin) then mret (ShcTasks []) else
      s ← get_shc;
      on_shc (set_shc_proposals (<[round := built_id]> s.(shc_proposals)));;
      old ← expect (s.(shc_proposals) !! round);
      assert_ (bool_decide (old = None));;
      then_set_height_and_round (run_state_machine (EvProposal built_id round valid_round))
  | ShcEvBuildProposal (EvGetProposal proposal_id round) =>
      s ← get_shc;
      on_shc (set_shc_proposals (<[round := proposal_id]> s.(shc_proposals)));;
      assert_ (bool_decide (s.(shc_proposals) !! round = None));;
      then_set_height_and_round (run_state_machine (EvGetProposal proposal_id round))
  | _ => panic
  end.

Definition shc_handle_vote (vote : Vote) : ShcM ShcReturn :=
  s ← get_shc;
  if decide (vote.(voter) ∉ s.(shc_validators)) then mret (ShcTasks []) else
  let t := vote.(vote_type) in
  match get_votes t s !! (vote.(vote_round), vote.(voter)) with
  | Some old =>
      if decide (old.(block_hash) ≠ vote.(block_hash))
      then throw (Equivocation s.(shc_height) old vote)
      else mret (ShcTasks [])
  | None =>
      on_shc (set_votes t (<[(vote.(vote_round), vote.(voter)) := vote]> (get_votes t s)));;
      then_set_height_and_round
        (run_state_machine (sm_vote t vote.(block_hash) vote.(vote_round)))
  end.
End shc.
