(* ===== verification/ShcProofs.v ===== *)
(** Invariants of one height of consensus: what it records, broadcasts and counts agrees with
    what its state machine emits, and it never votes twice. *)

From S2P Require Import Prelude StarknetApi StateMachine TendermintRules StateMachineProofs StateMachineSafety SingleHeightConsensus.

Implicit Types (n : ShcNode) (r : Round) (o E D : Events) (t : VoteType).

(** ** Voters *)

(** The validators whose recorded vote in round [r] is for [p]. *)
Definition voters (votes : gmap (Round * ValidatorId) Vote) r (p : option ProposalContentId)
  : gset ValidatorId :=
  list_to_set ((λ kv, kv.1.2) <$> filter (λ kv, kv.1.1 = r ∧ kv.2.(block_hash) = p) (map_to_list votes)).

Lemma elem_of_voters votes r p j :
  j ∈ voters votes r p ↔ ∃ vote, votes !! (r, j) = Some vote ∧ vote.(block_hash) = p.
Proof.
  unfold voters. rewrite elem_of_list_to_set, list_elem_of_fmap. split.
  - intros ([[r' j'] vote]&->&[[Hr Hp] Hin]%list_elem_of_filter). simpl in *. subst r'.
    apply elem_of_map_to_list in Hin. eauto.
  - intros (vote&Hv&Hp). exists ((r, j), vote). split; [done|].
    apply list_elem_of_filter. by rewrite elem_of_map_to_list.
Qed.

Lemma voters_mono votes votes' r p : votes ⊆ votes' → voters votes r p ⊆ voters votes' r p.
Proof.
  intros Hsub j. rewrite !elem_of_voters. intros (vote&Hv&Hp). exists vote.
  split; [|done]. by eapply lookup_weaken.
Qed.

Lemma voters_insert votes r j vote r' p :
  votes !! (r, j) = None →
  voters (<[(r, j) := vote]> votes) r' p =
    (if decide (r' = r ∧ vote.(block_hash) = p) then {[j]} else ∅) ∪ voters votes r' p.
Proof.
  intros Hn. apply leibniz_equiv. intros j'. rewrite elem_of_union, !elem_of_voters.
  setoid_rewrite lookup_insert_Some. split.
  - intros (vote'&[[[= -> ->] ->]|[Hne Hv]]&Hp); [|by right; eauto].
    left. rewrite decide_True by done. set_solver.
  - case_decide as Hd.
    + intros [->%elem_of_singleton|(vote'&Hv&Hp)].
      * destruct Hd as [-> Hp]. exists vote. split; [by left|done].
      * exists vote'. split; [|done]. right. split; [|done]. congruence.
    + intros [?|(vote'&Hv&Hp)]; [set_solver|]. exists vote'. split; [|done]. right. split; [|done].
      congruence.
Qed.

(** ** Rounds of the votes in a list of events *)

Definition kind_round t : StateMachineEvent → option Round :=
  match t with VtPrevote => prevote_round | VtPrecommit => precommit_round end.

Lemma kind_round_vote t p r : kind_round t (sm_vote t p r) = Some r.
Proof. by destruct t. Qed.

Lemma sorted_sublist (l l' : list Round) :
  l `sublist_of` l' → StronglySorted N.lt l' → StronglySorted N.lt l.
Proof.
  induction 1 as [|r l l' Hs IH|r l l' Hs IH]; intros H'; [done|..]; inversion H' as [|?? Hl Hr]; subst.
  - constructor; [by apply IH|]. apply Forall_forall. intros x Hx. rewrite Forall_forall in Hr.
    apply Hr. by eapply elem_of_sublist.
  - by apply IH.
Qed.

Lemma kind_round_sorted s E t : sm_inv s E → StronglySorted N.lt (omap (kind_round t) E).
Proof. intros [[] _ _]. by destruct t. Qed.

(** A vote that comes later in what the machine emits is for a later round. *)
Lemma later_vote s E D t p p' r r' (todo : Events) :
  sm_inv s E → D ++ sm_vote t p r :: todo `sublist_of` E → sm_vote t p' r' ∈ D → r' < r.
Proof.
  intros HI Hs Hin. pose proof (sorted_sublist _ _ (omap_sublist _ _ _ Hs) (kind_round_sorted s E t HI))
    as Hsort. rewrite omap_app in Hsort. simpl in Hsort. rewrite kind_round_vote in Hsort. simpl in Hsort.
  eapply StronglySorted_app_1_elem_of; [done| |by left].
  apply list_elem_of_omap. exists (sm_vote t p' r'). by rewrite kind_round_vote.
Qed.

Lemma occurrences_sublist e o E : o `sublist_of` E → occurrences e o ≤ occurrences e E.
Proof.
  induction 1 as [|e' o E _ IH|e' o E _ IH]; rewrite ?occurrences_cons; [done|lia..].
Qed.

(** Each vote is emitted at most once. *)
Lemma occurrences_once s E t p r :
  sm_inv s E →
  occurrences (sm_vote t p r) E = if decide (sm_vote t p r ∈ E) then 1 else 0.
Proof.
  intros HI. pose proof (sorted_lt_NoDup _ (kind_round_sorted s E t HI)) as Hnd. clear HI.
  assert (∀ e, e ∉ E → occurrences e E = 0) as Hz.
  { intros e He. unfold occurrences. rewrite filter_none; [done|]. by intros e' ? ->. }
  case_decide as Hin; [|by apply Hz].
  induction E as [|e E IH]; [set_solver|]. rewrite occurrences_cons. simpl in Hnd.
  destruct (decide (e = sm_vote t p r)) as [->|Hne].
  - rewrite kind_round_vote in Hnd. apply NoDup_cons in Hnd as [Hni _].
    assert (sm_vote t p r ∉ E) as Hno.
    { intros He. apply Hni, list_elem_of_omap. exists (sm_vote t p r). by rewrite kind_round_vote. }
    unfold occurrences. rewrite filter_none; [done|]. by intros e' ? ->.
  - rewrite IH; [done|by destruct (kind_round t e); [apply NoDup_cons in Hnd as [_ ?]|]| |set_solver].
    intros e' He'. unfold occurrences. rewrite filter_none; [done|]. by intros e'' ? ->.
Qed.

(** ** The invariant *)

(** [W] are the events the state machine has returned, among those it has emitted; [D] are
    those that have been handled. *)
Record shc_inv n W D : Prop := {
  ni_sm : ∃ E, sm_inv n.(shc).(shc_state_machine) E ∧ W `sublist_of` E;
  ni_observer : n.(shc).(shc_state_machine).(sm_is_observer) = true →
    ∀ e, e ∈ W → is_vote e = false;
  ni_done : D `sublist_of` W;
  ni_quorum : n.(shc).(shc_state_machine).(sm_quorum) =
    2 * N.of_nat (length n.(shc).(shc_validators)) / 3 + 1;
  (** Recorded votes. *)
  ni_key : ∀ t r j vote, get_votes t n.(shc) !! (r, j) = Some vote →
    vote.(vote_type) = t ∧ vote.(vote_round) = r ∧ vote.(voter) = j ∧
    (j ∈ n.(shc).(shc_validators) ∨ j = n.(shc).(shc_id));
  (** The node's own votes are those its state machine emitted. *)
  ni_own : ∀ t r vote, get_votes t n.(shc) !! (r, n.(shc).(shc_id)) = Some vote →
    sm_vote t vote.(block_hash) r ∈ D;
  ni_log : ∀ vote, CtxBroadcast vote ∈ n.(ctx_log) →
    vote.(voter) = n.(shc).(shc_id) ∧
    get_votes vote.(vote_type) n.(shc) !! (vote.(vote_round), n.(shc).(shc_id)) = Some vote;
  ni_last : ∀ t vote, get_last_vote t n.(shc) = Some vote →
    vote.(voter) = n.(shc).(shc_id) ∧ vote.(vote_type) = t ∧
    get_votes t n.(shc) !! (vote.(vote_round), n.(shc).(shc_id)) = Some vote;
}.

(** The state machine counts each peer once; [x] is a vote about to be passed to it. *)
Definition counts_ok n W (x : option StateMachineEvent) : Prop :=
  ∀ t p r, pending n.(shc).(shc_state_machine) (sm_vote t p r) +
      (if decide (x = Some (sm_vote t p r)) then 1 else 0) ≤
    N.of_nat (size (voters (get_votes t n.(shc)) r p ∖ {[n.(shc).(shc_id)]})) +
    occurrences (sm_vote t p r) W.

(** What every call keeps: votes and calls are only added. *)
Record grows n n' : Prop := {
  gr_validators : n'.(shc).(shc_validators) = n.(shc).(shc_validators);
  gr_id : n'.(shc).(shc_id) = n.(shc).(shc_id);
  gr_height : n'.(shc).(shc_height) = n.(shc).(shc_height);
  gr_quorum : n'.(shc).(shc_state_machine).(sm_quorum) = n.(shc).(shc_state_machine).(sm_quorum);
  gr_observer : n'.(shc).(shc_state_machine).(sm_is_observer) =
    n.(shc).(shc_state_machine).(sm_is_observer);
  gr_votes : ∀ t, get_votes t n.(shc) ⊆ get_votes t n'.(shc);
  gr_log : ∀ c, c ∈ n.(ctx_log) → c ∈ n'.(ctx_log);
  (** No votes of peers are added. *)
  gr_peers : ∀ t r j vote, j ≠ n.(shc).(shc_id) → get_votes t n'.(shc) !! (r, j) = Some vote →
    get_votes t n.(shc) !! (r, j) = Some vote;
}.

#[global] Instance grows_refl : Reflexive grows.
Proof. by split. Qed.

#[global] Instance grows_trans : Transitive grows.
Proof.
  intros ??? [] []. split; try congruence; eauto; [intros t; etrans; eauto|].
  intros t r j vote Hj Hv. eapply gr_peers0, gr_peers1; [done| |done]. congruence.
Qed.

(** A decision with a quorum of recorded precommits behind it. *)
Definition supported n (d : ConsensusDecision) : Prop :=
  ∃ r, d.(dec_precommits) = supporting_precommits n.(shc) d.(dec_block) r ∧
    n.(shc).(shc_state_machine).(sm_quorum) ≤ N.of_nat (length d.(dec_precommits)).

(** Calls that only add to the log something that is not a vote. *)
Definition is_broadcast (c : ContextCall) : bool :=
  match c with CtxBroadcast _ => true | _ => false end.

Lemma shc_inv_log n W D c :
  is_broadcast c = false → shc_inv n W D → shc_inv (set_ctx_log (n.(ctx_log) ++ [c]) n) W D.
Proof.
  intros Hc [I1 IO I2 I3 I4 I5 I6 I7]. split; try done. simpl.
  intros vote [Hin|<-%list_elem_of_singleton]%elem_of_app; [by apply I6|done].
Qed.

Lemma grows_log n c : grows n (set_ctx_log (n.(ctx_log) ++ [c]) n).
Proof. split; try done. simpl. set_solver. Qed.

Lemma shc_inv_proposals n W D x :
  shc_inv n W D → shc_inv (set_shc (set_shc_proposals x n.(shc)) n) W D.
Proof. intros []. split; try done; by intros []. Qed.

Lemma grows_proposals n x : grows n (set_shc (set_shc_proposals x n.(shc)) n).
Proof. by split. Qed.

(** *** Recording a vote *)

Lemma get_set_votes t t' x s :
  get_votes t' (set_votes t x s) = if decide (t' = t) then x else get_votes t' s.
Proof. by destruct t, t'. Qed.

Lemma set_votes_fields t x s :
  (set_votes t x s).(shc_state_machine) = s.(shc_state_machine) ∧
  (set_votes t x s).(shc_validators) = s.(shc_validators) ∧ (set_votes t x s).(shc_id) = s.(shc_id) ∧
  (set_votes t x s).(shc_height) = s.(shc_height) ∧
  (∀ t', get_last_vote t' (set_votes t x s) = get_last_vote t' s).
Proof. destruct t; split_and!; by try intros []. Qed.

Lemma set_last_vote_fields t x s :
  (set_last_vote t x s).(shc_state_machine) = s.(shc_state_machine) ∧
  (set_last_vote t x s).(shc_validators) = s.(shc_validators) ∧
  (set_last_vote t x s).(shc_id) = s.(shc_id) ∧ (set_last_vote t x s).(shc_height) = s.(shc_height) ∧
  (∀ t', get_votes t' (set_last_vote t x s) = get_votes t' s) ∧
  (∀ t', get_last_vote t' (set_last_vote t x s) = if decide (t' = t) then x else get_last_vote t' s).
Proof. destruct t; split_and!; by try intros []. Qed.

(** The node with one more vote recorded. *)
Definition record_vote (vote : Vote) n : ShcNode :=
  set_shc (set_votes vote.(vote_type)
    (<[(vote.(vote_round), vote.(voter)) := vote]> (get_votes vote.(vote_type) n.(shc))) n.(shc)) n.

Lemma record_vote_subseteq vote n t :
  get_votes vote.(vote_type) n.(shc) !! (vote.(vote_round), vote.(voter)) = None →
  get_votes t n.(shc) ⊆ get_votes t (record_vote vote n).(shc).
Proof.
  intros Hn. unfold record_vote. simpl. rewrite get_set_votes. case_decide; [subst t|done].
  by apply insert_subseteq.
Qed.

Lemma record_vote_keeps vote n :
  get_votes vote.(vote_type) n.(shc) !! (vote.(vote_round), vote.(voter)) = None →
  ∀ t r j v, get_votes t n.(shc) !! (r, j) = Some v →
    get_votes t (record_vote vote n).(shc) !! (r, j) = Some v.
Proof.
  intros Hn t r j v Hv. eapply lookup_weaken; [done|]. by apply record_vote_subseteq.
Qed.

Lemma record_vote_cases vote n t r j v :
  get_votes t (record_vote vote n).(shc) !! (r, j) = Some v →
  (t = vote.(vote_type) ∧ r = vote.(vote_round) ∧ j = vote.(voter) ∧ v = vote) ∨
  get_votes t n.(shc) !! (r, j) = Some v.
Proof.
  unfold record_vote. simpl. rewrite get_set_votes. case_decide; [subst t|by right].
  rewrite lookup_insert_Some. intros [[[= <- <-] <-]|[_ ?]]; [by left|by right].
Qed.

Lemma grows_record vote n :
  vote.(voter) = n.(shc).(shc_id) →
  get_votes vote.(vote_type) n.(shc) !! (vote.(vote_round), vote.(voter)) = None →
  grows n (record_vote vote n).
Proof.
  intros Hid Hn. split; try (unfold record_vote; simpl; by destruct (vote.(vote_type))).
  - intros t. by apply record_vote_subseteq.
  - intros t r j v Hj [(_&_&->&_)|Hv]%record_vote_cases; [congruence|done].
Qed.

(** A vote of the node itself, which its state machine has emitted. *)
Lemma shc_inv_own n W D t p r (todo : Events) :
  shc_inv n W D → D ++ sm_vote t p r :: todo `sublist_of` W →
  let vote := {| vote_type := t; vote_height := n.(shc).(shc_height); vote_round := r;
                 block_hash := p; voter := n.(shc).(shc_id) |} in
  get_votes t n.(shc) !! (r, n.(shc).(shc_id)) = None ∧
  shc_inv (record_vote vote n) W (D ++ [sm_vote t p r]).
Proof.
  intros [I1 IO I2 I3 I4 I5 I6 I7] Hs vote.
  assert (get_votes t n.(shc) !! (r, n.(shc).(shc_id)) = None) as Hn.
  { destruct (get_votes t n.(shc) !! (r, n.(shc).(shc_id))) as [vote'|] eqn:Hv; [|done].
    apply I5 in Hv. destruct I1 as (E&I1&HE). rewrite HE in Hs.
    pose proof (later_vote _ _ _ _ _ _ _ _ _ I1 Hs Hv). lia. }
  split; [done|].
  destruct (set_votes_fields t (<[(r, n.(shc).(shc_id)) := vote]> (get_votes t n.(shc))) n.(shc))
    as (Hsm&Hval&Hid&Hh&Hlast).
  pose proof (record_vote_keeps vote n Hn) as Hgrow.
  pose proof (record_vote_cases vote n) as Hcase.
  split; simpl; rewrite ?Hsm, ?Hval, ?Hid, ?Hh; try done.
  - etrans; [|done]. apply sublist_app; [done|]. apply sublist_skip, sublist_nil_l.
  - intros t' r' j v [(->&->&->&->)|Hv]%Hcase; [by split_and!; auto|]. by apply I4.
  - intros t' r' v [(->&->&_&->)|Hv]%Hcase; [set_solver|]. apply elem_of_app. left. by apply I5.
  - intros v [? Hv]%I6. split; [done|]. by apply Hgrow.
  - intros t' v. rewrite Hlast. intros (?&?&Hv)%I7. split_and!; [done..|]. by apply Hgrow.
Qed.

Lemma counts_own n W x vote :
  vote.(voter) = n.(shc).(shc_id) →
  get_votes vote.(vote_type) n.(shc) !! (vote.(vote_round), vote.(voter)) = None →
  counts_ok n W x → counts_ok (record_vote vote n) W x.
Proof.
  intros Hv Hn Hc t p r. specialize (Hc t p r). unfold record_vote. simpl.
  destruct (set_votes_fields vote.(vote_type)
    (<[(vote.(vote_round), vote.(voter)) := vote]> (get_votes vote.(vote_type) n.(shc))) n.(shc))
    as (->&_&->&_). rewrite get_set_votes.
  destruct (decide (t = vote.(vote_type))) as [->|]; [|done]. rewrite voters_insert by done.
  replace (_ ∖ {[n.(shc).(shc_id)]})
    with (voters (get_votes vote.(vote_type) n.(shc)) r p ∖ {[n.(shc).(shc_id)]}); [done|].
  rewrite Hv. destruct (decide (r = _ ∧ _)); set_solver.
Qed.

(** A vote of a peer. *)
Lemma shc_inv_peer n W D vote :
  shc_inv n W D → vote.(voter) ∈ n.(shc).(shc_validators) → vote.(voter) ≠ n.(shc).(shc_id) →
  get_votes vote.(vote_type) n.(shc) !! (vote.(vote_round), vote.(voter)) = None →
  shc_inv (record_vote vote n) W D.
Proof.
  intros [I1 IO I2 I3 I4 I5 I6 I7] Hval' Hne Hn.
  destruct (set_votes_fields vote.(vote_type) (<[(vote.(vote_round), vote.(voter)) := vote]>
    (get_votes vote.(vote_type) n.(shc))) n.(shc)) as (Hsm&Hval&Hid&Hh&Hlast).
  pose proof (record_vote_keeps vote n Hn) as Hgrow.
  pose proof (record_vote_cases vote n) as Hcase.
  split; simpl; rewrite ?Hsm, ?Hval, ?Hid, ?Hh; try done.
  - intros t' r' j v [(->&->&->&->)|Hv]%Hcase; [by split_and!; auto|]. by apply I4.
  - intros t' r' v [(->&->&?&->)|Hv]%Hcase; [congruence|]. by apply I5.
  - intros v [? Hv]%I6. split; [done|]. by apply Hgrow.
  - intros t' v. rewrite Hlast. intros (?&?&Hv)%I7. split_and!; [done..|]. by apply Hgrow.
Qed.

Lemma counts_peer n W vote :
  vote.(voter) ≠ n.(shc).(shc_id) →
  get_votes vote.(vote_type) n.(shc) !! (vote.(vote_round), vote.(voter)) = None →
  counts_ok n W None →
  counts_ok (record_vote vote n) W
    (Some (sm_vote vote.(vote_type) vote.(block_hash) vote.(vote_round))).
Proof.
  intros Hne Hn Hc t p r. specialize (Hc t p r). rewrite decide_False in Hc by done.
  unfold record_vote. simpl.
  destruct (set_votes_fields vote.(vote_type)
    (<[(vote.(vote_round), vote.(voter)) := vote]> (get_votes vote.(vote_type) n.(shc))) n.(shc))
    as (->&_&->&_). rewrite get_set_votes.
  destruct (decide (t = vote.(vote_type))) as [->|Hnt].
  2: { rewrite decide_False; [lia|]. intros [= Heq]. apply Hnt. by destruct t, vote.(vote_type). }
  rewrite voters_insert by done. destruct (decide (r = vote.(vote_round) ∧ vote.(block_hash) = p))
    as [[-> <-]|Hnp].
  - rewrite decide_True by done. rewrite difference_union_distr_l_L, size_union, size_difference_alt.
    2: { intros j [->%elem_of_singleton _]%elem_of_difference [(v&Hv&_)%elem_of_voters _]%elem_of_difference.
         congruence. }
    replace ({[vote.(voter)]} ∩ {[n.(shc).(shc_id)]}) with (∅ : gset ValidatorId) by set_solver.
    rewrite size_singleton, size_empty. lia.
  - rewrite decide_False; [by rewrite union_empty_l_L; lia|].
    intros [= Heq]. apply Hnp. destruct vote.(vote_type); injection Heq; auto.
Qed.

(** ** Handlers *)

Definition task_ok (task : ShcTask) : Prop :=
  match task with
  | TaskTimeoutPropose _ e => ∃ r, e = EvTimeoutPropose r
  | TaskTimeoutPrevote _ e => ∃ r, e = EvTimeoutPrevote r
  | TaskTimeoutPrecommit _ e => ∃ r, e = EvTimeoutPrecommit r
  | TaskPrevote _ e => ∃ p r, e = EvPrevote p r
  | TaskPrecommit _ e => ∃ p r, e = EvPrecommit p r
  | TaskBuildProposal _ | TaskValidateProposal _ => True
  end.

Definition return_ok n (ret : ShcReturn) : Prop :=
  match ret with
  | ShcTasks tasks => Forall task_ok tasks
  | ShcDecision d => supported n d
  end.

(** The invariant for some emitted and handled events. *)
Definition node_inv n : Prop := ∃ W D, shc_inv n W D ∧ counts_ok n W None.

(** A call keeps the invariant, whether it returns a value or an error. *)
Definition keeps_inv n (res : result ConsensusError ShcReturn) n' : Prop :=
  match res with
  | Ok ret => node_inv n' ∧ grows n n' ∧ return_ok n' ret
  | Err _ => node_inv n' ∧ grows n n'
  | Panic => True
  end.

Lemma supported_grows n n' d : shc_state_machine n'.(shc) = shc_state_machine n.(shc) →
  shc_precommits n'.(shc) = shc_precommits n.(shc) → shc_validators n'.(shc) = shc_validators n.(shc) →
  supported n d → supported n' d.
Proof.
  intros Hsm Hpc Hv (r&Hd&Hq). exists r. rewrite Hsm. split; [|done].
  rewrite Hd. unfold supporting_precommits. by rewrite Hpc, Hv.
Qed.

Lemma keeps_inv_set_height n m :
  wp m n (keeps_inv n) → wp (then_set_height_and_round m) n (keeps_inv n).
Proof.
  unfold wp, then_set_height_and_round. destruct (m n) as [[ret|e|] n']; simpl; [| |done].
  - intros ((W&D&HI&HC)&Hg&Hret). split_and!.
    + exists W, D. split; [by apply shc_inv_log|done].
    + etrans; [done|apply grows_log].
    + destruct ret; [done|]. by apply (supported_grows n').
  - intros ((W&D&HI&HC)&Hg). split.
    + exists W, D. split; [by apply shc_inv_log|done].
    + etrans; [done|apply grows_log].
Qed.

Section handlers.
Context (proposer : BlockNumber → Round → ValidatorId).
Context (broadcast_error : list ContextCall → Vote → option ConsensusError).

Lemma broadcast_run vote n :
  broadcast broadcast_error vote n =
    (match broadcast_error n.(ctx_log) vote with Some e => Err e | None => Ok tt end,
     set_ctx_log (n.(ctx_log) ++ [CtxBroadcast vote]) n).
Proof. unfold broadcast, log_call. mstep. by destruct (broadcast_error n.(ctx_log) vote). Qed.

(** Broadcasting a recorded vote. *)
Lemma shc_inv_broadcast n W D vote :
  shc_inv n W D → vote.(voter) = n.(shc).(shc_id) →
  get_votes vote.(vote_type) n.(shc) !! (vote.(vote_round), n.(shc).(shc_id)) = Some vote →
  shc_inv (set_ctx_log (n.(ctx_log) ++ [CtxBroadcast vote]) n) W D.
Proof.
  intros [I1 IO I2 I3 I4 I5 I6 I7] Hid Hv. split; try done. simpl.
  intros vote' [Hin|[= ->]%list_elem_of_singleton]%elem_of_app; [by apply I6|done].
Qed.

Lemma shc_inv_last n W D t vote :
  shc_inv n W D → vote.(voter) = n.(shc).(shc_id) → vote.(vote_type) = t →
  get_votes t n.(shc) !! (vote.(vote_round), n.(shc).(shc_id)) = Some vote →
  shc_inv (set_shc (set_last_vote t (Some vote) n.(shc)) n) W D.
Proof.
  intros [I1 IO I2 I3 I4 I5 I6 I7] Hid Ht Hv.
  destruct (set_last_vote_fields t (Some vote) n.(shc)) as (Hsm&Hval&Hid'&Hh&Hvotes&Hlast).
  split; simpl; rewrite ?Hsm, ?Hval, ?Hid'; try done.
  - intros t'. rewrite Hvotes. apply I4.
  - intros t'. rewrite Hvotes. apply I5.
  - intros v Hin. rewrite Hvotes. by apply I6.
  - intros t' v. rewrite Hlast, Hvotes. case_decide; [intros [= <-]; by subst t'|by apply I7].
Qed.

(** The state machine's votes are recorded and broadcast; the checks against repeated votes and
    votes for earlier rounds never fail. *)
Lemma handle_state_machine_vote_spec n W D t p r (todo : Events) :
  shc_inv n W D → counts_ok n W None → D ++ sm_vote t p r :: todo `sublist_of` W →
  wp (handle_state_machine_vote broadcast_error p r t) n (λ res n',
    res ≠ Panic ∧ shc_inv n' W (D ++ [sm_vote t p r]) ∧ counts_ok n' W None ∧ grows n n' ∧
    match res with
    | Ok tasks => Forall task_ok tasks
    | Err e => ∃ log vote, broadcast_error log vote = Some e
    | Panic => False
    end).
Proof.
  intros HI HC Hs. unfold handle_state_machine_vote, get_shc.
  set (vote := {| vote_type := t; vote_height := n.(shc).(shc_height); vote_round := r;
                  block_hash := p; voter := n.(shc).(shc_id) |}).
  destruct (shc_inv_own n W D t p r todo HI Hs) as [Hnone HI']. fold vote in HI'.
  unfold wp. mstep. unfold on_shc. mstep. rewrite Hnone.
  assert (match get_last_vote t n.(shc) with
    | Some last_vote => if decide (last_vote.(vote_round) < r) then mret tt else throw InternalInconsistency
    | None => mret tt end = (mret tt : M ShcNode ConsensusError unit)) as Hlast.
  { destruct (get_last_vote t n.(shc)) as [lv|] eqn:Hl; [|done].
    destruct (ni_last _ _ _ HI t lv Hl) as (_&_&Hlv). apply (ni_own _ _ _ HI) in Hlv.
    destruct (ni_sm _ _ _ HI) as (E&HE&HW). rewrite HW in Hs.
    pose proof (later_vote _ _ _ _ _ _ _ _ _ HE Hs Hlv). by rewrite decide_True. }
  rewrite Hlast. mstep. fold (record_vote vote n).
  change (set_shc _ n) with (record_vote vote n).
  assert (get_votes t (record_vote vote n).(shc) !! (r, n.(shc).(shc_id)) = Some vote) as Hrec.
  { unfold record_vote. simpl. rewrite get_set_votes, decide_True by done. apply lookup_insert_eq. }
  assert ((record_vote vote n).(shc).(shc_id) = n.(shc).(shc_id)) as Hid by (by destruct t).
  pose proof (shc_inv_last _ _ _ t vote HI') as HI2. rewrite Hid in HI2. specialize (HI2 eq_refl eq_refl Hrec).
  set (n2 := set_shc (set_last_vote t (Some vote) (record_vote vote n).(shc)) (record_vote vote n)) in *.
  assert (n2.(shc).(shc_id) = n.(shc).(shc_id)) as Hid2 by (unfold n2; by destruct t).
  assert (get_votes t n2.(shc) !! (r, n.(shc).(shc_id)) = Some vote) as Hrec2
    by (unfold n2; by destruct t).
  pose proof (shc_inv_broadcast _ _ _ vote HI2) as HI3. rewrite Hid2 in HI3. specialize (HI3 eq_refl Hrec2).
  assert (counts_ok n2 W None) as HC2.
  { assert (counts_ok (record_vote vote n) W None) as HC1 by (by apply counts_own).
    intros t' p' r'. specialize (HC1 t' p' r'). unfold n2. by destruct t, t'. }
  assert (grows n n2) as Hg.
  { etrans; [by apply (grows_record vote)|]. unfold n2. destruct t; split; by try intros []. }
  fold vote. fold n2. unfold mbind, M_bind. rewrite broadcast_run.
  destruct (broadcast_error n2.(ctx_log) vote) as [e|] eqn:Hb; simpl.
  - split_and!; [done..| |by eauto]. etrans; [done|exact (grows_log n2 _)].
  - split_and!; [done..| |]; [etrans; [done|exact (grows_log n2 _)]|]. repeat constructor.
    destruct t; simpl; eauto.
Qed.
(** Steps that keep the invariant for the same events. *)
Definition keeps n W D n' : Prop := shc_inv n' W D ∧ counts_ok n' W None ∧ grows n n'.

Lemma keeps_proposals n W D x :
  shc_inv n W D → counts_ok n W None → keeps n W D (set_shc (set_shc_proposals x n.(shc)) n).
Proof.
  intros HI HC. split_and!; [by apply shc_inv_proposals| |apply grows_proposals].
  intros t p r. specialize (HC t p r). by destruct t.
Qed.

Lemma keeps_log n W D c :
  is_broadcast c = false → shc_inv n W D → counts_ok n W None →
  keeps n W D (set_ctx_log (n.(ctx_log) ++ [c]) n).
Proof. intros Hc HI HC. split_and!; [by apply shc_inv_log|done|apply grows_log]. Qed.

Lemma keeps_trans n W D n1 n2 : keeps n W D n1 → keeps n1 W D n2 → keeps n W D n2.
Proof. intros (_&_&?) (?&?&?). split_and!; [done..|]. by etrans. Qed.

Lemma handle_state_machine_proposal_spec n W D p r vr :
  shc_inv n W D → counts_ok n W None →
  wp (handle_state_machine_proposal p r vr) n (λ res n',
    match res with Ok _ => keeps n W D n' | Err _ => False | Panic => True end).
Proof.
  intros HI HC. unfold handle_state_machine_proposal, get_shc, on_shc, log_call, wp.
  destruct vr as [vr|]; [|done]. destruct p as [p|]; mstep; [|done].
  destruct (n.(shc).(shc_proposals) !! vr) as [[id|]|]; mstep; [|done..].
  destruct (bool_decide (id = p)); mstep; [|done].
  destruct (bool_decide (_ !! r = None)); simpl; [|done].
  destruct (keeps_log n W D (CtxRepropose id {| pi_height := n.(shc).(shc_height); pi_round := r;
    pi_valid_round := Some vr; pi_proposer := n.(shc).(shc_id) |}) eq_refl HI HC) as (HI1&HC1&Hg1).
  eapply keeps_trans; [by split_and!|]. by apply (keeps_proposals (set_ctx_log _ n)).
Qed.

Lemma handle_state_machine_decision_spec n W D v r :
  shc_inv n W D → counts_ok n W None →
  wp (handle_state_machine_decision v r) n (λ res n', keeps_inv n res n').
Proof.
  intros HI HC. unfold handle_state_machine_decision, get_shc, on_shc, wp. mstep.
  destruct (keeps_proposals n W D (delete r n.(shc).(shc_proposals)) HI HC) as (HI1&HC1&Hg1).
  assert (node_inv (set_shc (set_shc_proposals (delete r n.(shc).(shc_proposals)) n.(shc)) n))
    by (by exists W, D).
  destruct (n.(shc).(shc_proposals) !! r) as [[block|]|]; simpl; [|done..].
  case_decide as Hb; [done|]. case_decide as Hq; [done|]. subst. simpl.
  split_and!; [done..|]. exists r. split; [done|]. simpl. lia.
Qed.

(** Handling the events returned by the state machine. *)
Lemma events_loop_spec evs ret n W D :
  shc_inv n W D → counts_ok n W None → D ++ evs `sublist_of` W → Forall task_ok ret →
  wp (handle_state_machine_events_loop broadcast_error evs ret) n (λ res n', keeps_inv n res n').
Proof.
  revert ret n D. induction evs as [|e evs IH]; intros ret n D HI HC Hs Hret.
  { split_and!; [by exists W, D|done..]. }
  assert (∀ n' D' ret', keeps n W D' n' → D' ++ evs `sublist_of` W → Forall task_ok ret' →
    wp (handle_state_machine_events_loop broadcast_error evs ret') n' (λ res n'', keeps_inv n res n''))
    as Hnext.
  { intros n' D' ret' (HI'&HC'&Hg) Hs' Hret'. eapply wp_mono; [by apply (IH _ _ D')|].
    intros [ret''| |] n''; [|intros [? ?]; split; [done|]; by etrans|done].
    intros (?&?&?). split_and!; [done| |done]. by etrans. }
  assert (D ++ evs `sublist_of` W) as Hskip.
  { etrans; [|done]. apply sublist_app; [done|]. by apply sublist_cons. }
  assert (keeps n W D n) as Hself by done.
  assert (∀ t p r, e = sm_vote t p r →
    wp (tasks ← handle_state_machine_vote broadcast_error p r t;
        handle_state_machine_events_loop broadcast_error evs (ret ++ tasks)) n
      (λ res n', keeps_inv n res n')) as Hvote.
  { intros t p r ->. apply wp_bind.
    eapply wp_mono; [by eapply handle_state_machine_vote_spec|].
    intros [tasks|err|] n' (?&HI'&HC'&Hg&Ht); [| |done].
    - apply (Hnext n' (D ++ [sm_vote t p r])); [done| |by apply Forall_app].
      by rewrite <-(assoc_L app).
    - split; [|done]. by exists W, (D ++ [sm_vote t p r]). }
  cbn [handle_state_machine_events_loop].
  destruct e as [p r|p r vr|p r|p r|v r|r|r|r].
  - unfold handle_state_machine_get_proposal, get_shc, log_call, wp. mstep.
    case_bool_decide; mstep; [|done]. eapply (Hnext (set_ctx_log _ n)).
    + by apply keeps_log.
    + done.
    + apply Forall_app. split; [done|]. by constructor.
  - apply wp_bind. eapply wp_mono; [by apply handle_state_machine_proposal_spec|].
    intros [u|err|] n'; [|done..]. intros Hk. by eapply Hnext.
  - by apply (Hvote VtPrevote).
  - by apply (Hvote VtPrecommit).
  - by eapply handle_state_machine_decision_spec.
  - eapply Hnext; [done..|]. apply Forall_app; split; [done|]. constructor; [|done]. by eexists.
  - eapply Hnext; [done..|]. apply Forall_app; split; [done|]. constructor; [|done]. by eexists.
  - eapply Hnext; [done..|]. apply Forall_app; split; [done|]. constructor; [|done]. by eexists.
Qed.
(** ** Running the state machine *)

Lemma shc_inv_run n W D e o sm :
  shc_inv n W D → counts_ok n W (Some e) →
  event_effect (proposer n.(shc).(shc_height)) e n.(shc).(shc_state_machine) o sm →
  ∃ W', shc_inv (set_shc (set_shc_state_machine sm n.(shc)) n) W' D ∧
    counts_ok (set_shc (set_shc_state_machine sm n.(shc)) n) W' None ∧ D ++ o `sublist_of` W' ∧
    grows n (set_shc (set_shc_state_machine sm n.(shc)) n).
Proof.
  intros [(E&I1&HE) IO I2 I3 I4 I5 I6 I7] HC [(L&E1&Hm%handles_moves&Hs&_) Hpend Hobs]. exists (W ++ o). split_and!.
  - split; simpl; try done.
    + exists (E ++ E1). split; [by eapply sm_inv_steps|by apply sublist_app].
    + destruct (moves_identity _ _ _ _ Hm) as (_&Hob&_). rewrite Hob.
      intros Hob' e' [?|?]%elem_of_app; [by apply IO|]. by apply Hobs.
    + etrans; [done|]. by apply sublist_inserts_r.
    + by destruct (moves_identity _ _ _ _ Hm) as (_&_&->).
  - intros t p r. specialize (HC t p r). simpl. rewrite Hpend by (by destruct t).
    rewrite occurrences_app.
    replace (get_votes t (set_shc_state_machine sm n.(shc))) with (get_votes t n.(shc)) by (by destruct t).
    rewrite (decide_ext (Some e = Some (sm_vote t p r)) (e = sm_vote t p r)) in HC
      by (split; congruence).
    lia.
  - by apply sublist_app.
  - destruct (moves_identity _ _ _ _ Hm) as (_&?&?). by split.
Qed.

Lemma keeps_inv_trans n n' res n'' : grows n n' → keeps_inv n' res n'' → keeps_inv n res n''.
Proof.
  intros Hg. destruct res as [ret| |]; [|intros [? ?]; split; [done|by etrans]|done].
  intros (?&?&?). split_and!; [done|by etrans|done].
Qed.

Lemma run_state_machine_spec n W D e :
  shc_inv n W D → counts_ok n W (Some e) →
  wp (run_state_machine proposer broadcast_error e) n (λ res n', keeps_inv n res n').
Proof.
  intros HI HC. unfold run_state_machine, get_shc, wp. mstep. unfold leader_fn.
  change (wp (sm_events ← on_state_machine (handle_event (proposer n.(shc).(shc_height)) e);
    handle_state_machine_events broadcast_error sm_events) n (λ res n', keeps_inv n res n')).
  apply wp_bind. unfold on_state_machine, wp at 1.
  pose proof (handle_event_spec (proposer n.(shc).(shc_height)) e n.(shc).(shc_state_machine)) as Hev.
  unfold wp in Hev. destruct (handle_event _ _ _) as [[o| |] sm]; simpl in *; [|done..].
  destruct (shc_inv_run _ _ _ _ _ _ HI HC Hev) as (W'&HI'&HC'&Hs&Hg).
  eapply wp_mono; [by apply (events_loop_spec _ [] _ W' D)|]. intros res n' Hk.
  by eapply keeps_inv_trans.
Qed.

Lemma counts_ok_other n W e :
  is_vote e = false → counts_ok n W None → counts_ok n W (Some e).
Proof.
  intros He HC t p r. specialize (HC t p r). rewrite decide_False; [done|].
  intros [= ->]. by destruct t.
Qed.

(** ** Entry points *)

Lemma keeps_inv_idle n : node_inv n → keeps_inv n (Ok (ShcTasks [])) n.
Proof. intros Hn. split_and!; [done..|constructor]. Qed.

Lemma keeps_inv_tasks n W D n' tasks :
  keeps n W D n' → Forall task_ok tasks → wp (mret (ShcTasks tasks)) n' (λ res n', keeps_inv n res n').
Proof. intros (?&?&?) Ht. split_and!; [by exists W, D|done|done]. Qed.

Lemma shc_handle_proposal_spec n init rcv :
  node_inv n → wp (shc_handle_proposal proposer init rcv) n (λ res n', keeps_inv n res n').
Proof.
  intros (W&D&HI&HC).
  unfold shc_handle_proposal, get_shc, on_shc, log_call, set_height_and_round, get_shc, log_call, wp.
  mstep. assert (node_inv n) by (by exists W, D).
  case_decide; [done|]. case_decide; [done|].
  destruct (n.(shc).(shc_proposals) !! init.(pi_round)); [by apply keeps_inv_idle|]. mstep.
  apply (keeps_inv_tasks n W D); [|repeat constructor].
  pose proof (keeps_proposals n W D (<[init.(pi_round) := None]> n.(shc).(shc_proposals)) HI HC) as K1.
  pose proof (keeps_log _ W D (CtxValidateProposal init rcv) eq_refl (proj1 K1) (proj1 (proj2 K1))) as K2.
  eapply keeps_trans; [exact (keeps_trans _ _ _ _ _ K1 K2)|]. by apply keeps_log, K2; [|apply K2].
Qed.

Lemma rebroadcast_spec n t p r :
  node_inv n → wp (rebroadcast broadcast_error t p r) n (λ res n', keeps_inv n res n').
Proof.
  intros (W&D&HI&HC). unfold rebroadcast, get_shc, wp. mstep.
  assert (node_inv n) by (by exists W, D).
  destruct (get_last_vote t n.(shc)) as [lv|] eqn:Hl; [|done].
  case_decide; [by apply keeps_inv_idle|].
  destruct (ni_last _ _ _ HI _ _ Hl) as (Hid&Ht&Hv).
  pose proof (shc_inv_broadcast n W D lv HI Hid) as HI'. rewrite Ht in HI'. specialize (HI' Hv).
  assert (node_inv (set_ctx_log (n.(ctx_log) ++ [CtxBroadcast lv]) n)) by (by exists W, D).
  unfold mbind at 1 3, M_bind at 1 3. rewrite broadcast_run.
  destruct (broadcast_error n.(ctx_log) lv); simpl; [split; [done|apply grows_log]|].
  destruct (keeps_log (set_ctx_log (n.(ctx_log) ++ [CtxBroadcast lv]) n) W D
    (CtxSetHeightAndRound n.(shc).(shc_height) n.(shc).(shc_state_machine).(sm_round)) eq_refl HI' HC)
    as (HI2&HC2&Hg2).
  split_and!; [by exists W, D|etrans; [apply grows_log|exact Hg2]|]. repeat constructor.
  destruct t; simpl; eauto.
Qed.

(** A vote is delivered; one that claims to be from this node was broadcast by it. If it is new
    it is recorded first. *)
Lemma shc_handle_vote_spec n vote :
  node_inv n → (vote.(voter) = n.(shc).(shc_id) → CtxBroadcast vote ∈ n.(ctx_log)) →
  wp (shc_handle_vote proposer broadcast_error vote) n (λ res n',
    keeps_inv n res n' ∨
    (get_votes vote.(vote_type) n.(shc) !! (vote.(vote_round), vote.(voter)) = None ∧
     keeps_inv (record_vote vote n) res n')).
Proof.
  intros (W&D&HI&HC) Hself. unfold shc_handle_vote, get_shc, wp. mstep.
  assert (node_inv n) by (by exists W, D).
  case_decide as Hval; [left; by apply keeps_inv_idle|].
  destruct (get_votes vote.(vote_type) n.(shc) !! _) as [old|] eqn:Hold.
  { left. case_decide; [done|by apply keeps_inv_idle]. }
  assert (vote.(voter) ≠ n.(shc).(shc_id)) as Hne.
  { intros Hid. destruct (ni_log _ _ _ HI vote (Hself Hid)) as [_ Hv]. congruence. }
  right. split; [done|]. unfold on_shc. mstep. fold (record_vote vote n).
  change (wp (then_set_height_and_round (run_state_machine proposer broadcast_error
    (sm_vote vote.(vote_type) vote.(block_hash) vote.(vote_round)))) (record_vote vote n)
    (λ res n', keeps_inv (record_vote vote n) res n')).
  apply keeps_inv_set_height. eapply run_state_machine_spec; [by apply shc_inv_peer|].
  by apply counts_peer.
Qed.

(** The result of a task is delivered. *)
Lemma shc_handle_task_spec n task built validated :
  node_inv n → task_ok task →
  wp (shc_handle_event proposer broadcast_error (ShcTask_run task built validated)) n
    (λ res n', keeps_inv n res n').
Proof.
  intros Hn Hok. pose proof Hn as (W&D&HI&HC).
  assert (∀ e, is_vote e = false → wp (then_set_height_and_round
    (run_state_machine proposer broadcast_error e)) n (λ res n', keeps_inv n res n')) as Hrun.
  { intros e He. apply keeps_inv_set_height. eapply run_state_machine_spec; [done|].
    by apply counts_ok_other. }
  assert (∀ e x, is_vote e = false → wp (then_set_height_and_round
    (run_state_machine proposer broadcast_error e)) (set_shc (set_shc_proposals x n.(shc)) n)
    (λ res n', keeps_inv n res n')) as Hrunp.
  { intros e x He. destruct (keeps_proposals n W D x HI HC) as (HI'&HC'&Hg').
    eapply wp_mono.
    - apply keeps_inv_set_height. eapply run_state_machine_spec; [done|]. by apply counts_ok_other.
    - intros res n'. by apply keeps_inv_trans. }
  destruct task as [d e|d e|d e|d e|d e|round|init]; simpl in Hok.
  - destruct Hok as [r ->]. by apply Hrun.
  - destruct Hok as [r ->]. by apply Hrun.
  - destruct Hok as [r ->]. by apply Hrun.
  - destruct Hok as (p&r&->). by apply rebroadcast_spec.
  - destruct Hok as (p&r&->). by apply rebroadcast_spec.
  - simpl. unfold get_shc, on_shc, wp. mstep.
    destruct (bool_decide _); mstep; [by apply Hrunp|done].
  - unfold ShcTask_run.
    destruct (match validated with Some _ => _ | None => _ end) as [built_id fin]. simpl.
    case_decide; [by apply keeps_inv_idle|]. unfold get_shc, on_shc, wp. mstep.
    destruct (n.(shc).(shc_proposals) !! init.(pi_round)) as [old|]; mstep; [|done].
    destruct (bool_decide _); mstep; [by apply Hrunp|done].
Qed.
Lemma shc_new_inv height b id validators timeouts s :
  SingleHeightConsensus_new height b id validators timeouts = Some s →
  s.(shc_height) = height ∧ s.(shc_validators) = validators ∧ s.(shc_id) = id ∧
  s.(shc_proposals) = ∅ ∧ (∀ t, get_votes t s = ∅) ∧ (∀ t, get_last_vote t s = None) ∧
  StateMachine_new id (N.of_nat (length validators)) b = Some s.(shc_state_machine).
Proof.
  unfold SingleHeightConsensus_new. case_decide; [|done].
  destruct (StateMachine_new _ _ _) as [sm|]; [|done]. intros [= <-]. simpl.
  split_and!; by try intros [].
Qed.

Lemma shc_start_spec height b id validators timeouts s :
  SingleHeightConsensus_new height b id validators timeouts = Some s →
  wp (shc_start proposer broadcast_error) {| shc := s; ctx_log := [] |} (λ res n',
    keeps_inv {| shc := s; ctx_log := [] |} res n').
Proof.
  intros (Hh&Hval&Hid&Hp&Hv&Hl&Hnew)%shc_new_inv.
  unfold shc_start, set_height_and_round, get_shc, log_call, wp. mstep. simpl.
  set (c := CtxSetHeightAndRound _ _). set (n := {| shc := s; ctx_log := [c] |}).
  change (wp (then_set_height_and_round (events ← on_state_machine (start (proposer s.(shc_height)));
    handle_state_machine_events broadcast_error events)) n
    (λ res n', keeps_inv {| shc := s; ctx_log := [] |} res n')).
  assert (grows {| shc := s; ctx_log := [] |} n) as Hg by (split; try done; set_solver).
  eapply wp_mono; [|intros res n'; by apply keeps_inv_trans].
  apply keeps_inv_set_height, wp_bind. unfold on_state_machine, wp at 1. simpl.
  rewrite (start_run _ _ _ _ _ Hnew). set (sm := set_awaiting_get_proposal _ _). simpl.
  set (n1 := set_shc (set_shc_state_machine sm s) n).
  assert (grows n n1) as Hg1 by (split; try done; by intros []).
  eapply wp_mono; [|intros res n'; by apply keeps_inv_trans].
  destruct (StateMachine_new_fresh _ _ _ _ Hnew) as (_&_&Hq&_&_&_&_&_&Hpv&Hpc&Hqu&_).
  apply (events_loop_spec _ [] n1 [start_event (proposer s.(shc_height)) s.(shc_state_machine)] []).
  - assert (∀ t, get_votes t n1.(shc) = ∅) as Hv1 by (intros []; [apply (Hv VtPrevote)|apply (Hv VtPrecommit)]).
    assert (∀ t, get_last_vote t n1.(shc) = None) as Hl1
      by (intros []; [apply (Hl VtPrevote)|apply (Hl VtPrecommit)]).
    split.
    + eexists. split; [by eapply start_inv|done].
    + intros _ e ->%list_elem_of_singleton. unfold start_event. by case_decide.
    + apply sublist_nil_l.
    + simpl. by rewrite Hq, Hval.
    + intros t r j vote. by rewrite Hv1, lookup_empty.
    + intros t r vote. by rewrite Hv1, lookup_empty.
    + simpl. intros vote ?%list_elem_of_singleton. done.
    + intros t vote. by rewrite Hl1.
  - intros t p r. simpl. unfold pending. simpl. rewrite Hqu.
    assert (counted sm (sm_vote t p r) = 0) as ->.
    { destruct t; simpl; rewrite ?Hpv, ?Hpc; unfold vote_count; by rewrite lookup_empty. }
    unfold occurrences at 1. simpl. lia.
  - done.
  - constructor.
Qed.
End handlers.
