(* ===== verification/Agreement.v ===== *)
(** Agreement of a height of consensus: honest nodes that run [SingleHeightConsensus] over an
    arbitrary network, with fewer than a third of the validators faulty, never decide on
    different blocks. *)

From S2P Require Import Prelude StarknetApi StateMachine TendermintRules StateMachineProofs StateMachineSafety SingleHeightConsensus ShcProofs.

Implicit Types (n : ShcNode) (r : Round) (t : VoteType) (i j : ValidatorId).

(** ** Quorums *)

Definition quorum_of (validators : list ValidatorId) : N :=
  2 * N.of_nat (length validators) / 3 + 1.

Definition validator_set (validators : list ValidatorId) : gset ValidatorId :=
  list_to_set validators.

(** Two quorums share an honest validator. *)
Lemma quorum_intersection validators (faulty Q1 Q2 : gset ValidatorId) :
  NoDup validators →
  (3 * size (faulty ∩ validator_set validators) < length validators)%nat →
  Q1 ⊆ validator_set validators → Q2 ⊆ validator_set validators →
  quorum_of validators ≤ N.of_nat (size Q1) → quorum_of validators ≤ N.of_nat (size Q2) →
  ∃ j, j ∈ Q1 ∧ j ∈ Q2 ∧ j ∉ faulty.
Proof.
  intros Hnd Hf H1 H2 Hq1 Hq2. set (V := validator_set validators) in *.
  assert (size V = length validators) as HV by (apply size_list_to_set; done).
  clearbody V.
  destruct (set_choose_or_empty ((Q1 ∩ Q2) ∖ faulty)) as [[j Hj]|He]; [exists j; set_solver|].
  exfalso. assert (size (Q1 ∩ Q2) ≤ size (faulty ∩ V))%nat as Hi.
  { apply subseteq_size. intros j Hj. clear -H1 He Hj. destruct (decide (j ∈ faulty)); set_solver. }
  assert (size (Q1 ∪ Q2) ≤ size V)%nat as Hu by (apply subseteq_size; clear -H1 H2; set_solver).
  pose proof (size_union_alt Q1 Q2) as Hs.
  pose proof (size_difference_alt Q2 Q1) as Hd.
  assert (size (Q2 ∩ Q1) = size (Q1 ∩ Q2)) as Hc by (f_equal; apply (comm_L (∩))).
  assert (size (Q2 ∩ Q1) ≤ size Q2)%nat by (apply subseteq_size, intersection_subseteq_l).
  unfold quorum_of in *. pose proof (N.div_mod (2 * N.of_nat (length validators)) 3 ltac:(done)) as Hdm.
  pose proof (N.mod_lt (2 * N.of_nat (length validators)) 3 ltac:(done)). lia.
Qed.

(** A state machine votes for one value per round. *)
Lemma vote_unique s E t p p' r :
  sm_inv s E → sm_vote t p r ∈ E → sm_vote t p' r ∈ E → p = p'.
Proof.
  intros HI. pose proof (sorted_lt_NoDup _ (kind_round_sorted s E t HI)) as Hnd. clear HI.
  enough (∀ e e', e ∈ E → e' ∈ E → kind_round t e = Some r → kind_round t e' = Some r → e = e') as Hu.
  { intros H1 H2. pose proof (Hu _ _ H1 H2 (kind_round_vote _ _ _) (kind_round_vote _ _ _)) as Heq.
    destruct t; by injection Heq. }
  induction E as [|x E IH]; [set_solver|]. simpl in Hnd.
  assert (NoDup (omap (kind_round t) E)) as Hnd'.
  { destruct (kind_round t x); [|done]. by apply NoDup_cons in Hnd as [_ ?]. }
  assert (∀ e, e ∈ E → kind_round t e = Some r → kind_round t x = Some r → False) as Hx.
  { intros e He Hr Hxr. rewrite Hxr in Hnd. apply NoDup_cons in Hnd as [Hni _].
    apply Hni, list_elem_of_omap. eauto. }
  intros e e' [->|He]%elem_of_cons [->|He']%elem_of_cons Hr Hr'; [done|..].
  - destruct (Hx e'); done.
  - destruct (Hx e); done.
  - by apply IH.
Qed.

(** ** The system *)

(** A node with the tasks it waits for and the decisions it has returned. *)
Record replica := {
  rp_node : ShcNode;
  rp_started : bool;
  rp_tasks : list ShcTask;
  rp_decisions : list ConsensusDecision;
}.

Inductive shc_call :=
| CallStart
| CallProposal (init : ProposalInit) (content : Receiver)
| CallVote (vote : Vote)
| CallTask (task : ShcTask) (built : option ProposalContentId)
    (validated : option (ProposalContentId * ProposalFin)).

Section system.
Context (proposer : BlockNumber → Round → ValidatorId).
Context (broadcast_error : ValidatorId → list ContextCall → Vote → option ConsensusError).
Context (height : BlockNumber) (validators : list ValidatorId) (timeouts : TimeoutsConfig).
Context (must_observe : ValidatorId → bool).
Context (faulty : gset ValidatorId).

Implicit Types g : ValidatorId → replica.

(** As in [run_height]: a node outside the validators observes. *)
Definition is_observer i : bool := must_observe i || bool_decide (i ∉ validators).

Definition run_call i (c : shc_call) : M ShcNode ConsensusError ShcReturn :=
  match c with
  | CallStart => shc_start proposer (broadcast_error i)
  | CallProposal init content => shc_handle_proposal proposer init content
  | CallVote vote => shc_handle_vote proposer (broadcast_error i) vote
  | CallTask task built validated =>
      shc_handle_event proposer (broadcast_error i) (ShcTask_run task built validated)
  end.

(** What the network and the manager guarantee: the node is started once, the result of a task
    it asked for is delivered, and a vote of an honest node was broadcast by that node. Proposals,
    and votes of faulty validators, are arbitrary. *)
Definition call_allowed g i (c : shc_call) : Prop :=
  match c with
  | CallStart => (g i).(rp_started) = false
  | CallProposal _ _ => (g i).(rp_started) = true
  | CallVote vote => (g i).(rp_started) = true ∧
      (vote.(voter) ∉ faulty → CtxBroadcast vote ∈ (g vote.(voter)).(rp_node).(ctx_log))
  | CallTask task _ _ => (g i).(rp_started) = true ∧ task ∈ (g i).(rp_tasks)
  end.

Definition after_call (rp : replica) (res : result ConsensusError ShcReturn) n' : replica := {|
  rp_node := n';
  rp_started := true;
  rp_tasks := match res with Ok (ShcTasks tasks) => rp.(rp_tasks) ++ tasks | _ => rp.(rp_tasks) end;
  rp_decisions := match res with
                  | Ok (ShcDecision d) => rp.(rp_decisions) ++ [d]
                  | _ => rp.(rp_decisions)
                  end;
|}.

Definition initial g : Prop :=
  ∀ i, i ∉ faulty → ∃ s,
    SingleHeightConsensus_new height (is_observer i) i validators timeouts = Some s ∧
    g i = {| rp_node := {| shc := s; ctx_log := [] |}; rp_started := false; rp_tasks := [];
             rp_decisions := [] |}.

(** An honest node makes a call that does not panic; the state of faulty nodes is irrelevant. *)
Inductive system_step g : (ValidatorId → replica) → Prop :=
| step_call i c res n' :
    i ∉ faulty → call_allowed g i c → run_call i c (g i).(rp_node) = (res, n') → res ≠ Panic →
    system_step g (λ j, if decide (j = i) then after_call (g i) res n' else g j).

Inductive system_reachable : (ValidatorId → replica) → Prop :=
| system_init g : initial g → system_reachable g
| system_next g g' : system_reachable g → system_step g g' → system_reachable g'.

(** ** The invariant of the system *)

(** The facts about a node, for the events [E] its state machine has emitted. *)
Definition node_facts n (E : Events) : Prop :=
  sm_inv n.(shc).(shc_state_machine) E ∧
  ∃ W D, W `sublist_of` E ∧ shc_inv n W D ∧ counts_ok n W None.

Lemma node_inv_facts n : node_inv n → ∃ E, node_facts n E.
Proof.
  intros (W&D&HI&HC). destruct (ni_sm _ _ _ HI) as (E&HE&Hs). exists E. split; [done|]. by exists W, D.
Qed.

Lemma node_facts_inv n E : node_facts n E → node_inv n.
Proof. intros (_&W&D&_&HI&HC). by exists W, D. Qed.

(** A block with a quorum of recorded precommits. *)
Definition backed n (block : ProposalContentId) : Prop :=
  ∃ r (Q : gset ValidatorId), Q ⊆ validator_set validators ∧ quorum_of validators ≤ N.of_nat (size Q) ∧
    ∀ j, j ∈ Q → ∃ vote, n.(shc).(shc_precommits) !! (r, j) = Some vote ∧
      vote.(block_hash) = Some block.

Lemma backed_grows n n' block : grows n n' → backed n block → backed n' block.
Proof.
  intros Hg (r&Q&HQ&Hq&Hv). exists r, Q. split_and!; [done..|]. intros j (vote&Hvote&?)%Hv.
  exists vote. split; [|done]. eapply lookup_weaken; [done|]. apply (gr_votes _ _ Hg VtPrecommit).
Qed.

Lemma supporting_length s block r l :
  NoDup l →
  N.of_nat (length (omap (λ v, vote ← s.(shc_precommits) !! (r, v);
    if decide (vote.(block_hash) = Some block) then Some vote else None) l)) =
  N.of_nat (size (list_to_set (filter (λ v,
    block_hash <$> s.(shc_precommits) !! (r, v) = Some (Some block)) l) : gset ValidatorId)).
Proof.
  intros Hnd. rewrite size_list_to_set by (by apply NoDup_filter). f_equal.
  clear Hnd. induction l as [|v l IH]; [done|]. simpl. rewrite filter_cons.
  destruct (s.(shc_precommits) !! (r, v)) as [vote|] eqn:Hv; simpl.
  - destruct (decide (vote.(block_hash) = Some block)); simpl.
    + rewrite decide_True by congruence. simpl. f_equal. exact IH.
    + rewrite decide_False; [exact IH|]. congruence.
  - exact IH.
Qed.

Lemma supported_backed n d :
  NoDup validators → n.(shc).(shc_validators) = validators →
  n.(shc).(shc_state_machine).(sm_quorum) = quorum_of validators →
  supported n d → backed n d.(dec_block).
Proof.
  intros Hnd Hval Hq (r&Hd&Hle). rewrite Hd, Hq in Hle. unfold supporting_precommits in Hle.
  rewrite Hval, supporting_length in Hle by done. exists r. eexists. split_and!; [|exact Hle|].
  - unfold validator_set. intros j. rewrite !elem_of_list_to_set, list_elem_of_filter. tauto.
  - intros j. rewrite elem_of_list_to_set, list_elem_of_filter.
    intros [(vote&?&?)%fmap_Some _]. by exists vote.
Qed.

(** Facts about the honest nodes, with what each state machine has emitted. *)
Record system_inv g (Es : ValidatorId → Events) : Prop := {
  gi_facts : ∀ i, i ∉ faulty → (g i).(rp_started) = true → node_facts (g i).(rp_node) (Es i);
  gi_fixed : ∀ i, i ∉ faulty → (g i).(rp_node).(shc).(shc_id) = i ∧
    (g i).(rp_node).(shc).(shc_validators) = validators ∧
    (g i).(rp_node).(shc).(shc_state_machine).(sm_is_observer) = is_observer i;
  gi_new : ∀ i, i ∉ faulty → (g i).(rp_started) = false →
    ∃ s, SingleHeightConsensus_new height (is_observer i) i validators timeouts = Some s ∧
      (g i).(rp_node) = {| shc := s; ctx_log := [] |} ∧ (g i).(rp_tasks) = [] ∧ (g i).(rp_decisions) = [];
  gi_idle : ∀ i, (g i).(rp_started) = false → Es i = [] ∨ i ∈ faulty;
  gi_tasks : ∀ i, i ∉ faulty → Forall task_ok (g i).(rp_tasks);
  (** Recorded votes of honest nodes were broadcast. *)
  gi_votes : ∀ i j t r vote, i ∉ faulty → j ∉ faulty → j ≠ i →
    get_votes t (g i).(rp_node).(shc) !! (r, j) = Some vote →
    CtxBroadcast vote ∈ (g j).(rp_node).(ctx_log);
  gi_decisions : ∀ i d, i ∉ faulty → d ∈ (g i).(rp_decisions) → backed (g i).(rp_node) d.(dec_block);
}.

(** What a call does to a node. *)
Record call_effect n (c : shc_call) (res : result ConsensusError ShcReturn) n' : Prop := {
  ce_inv : node_inv n';
  ce_id : n'.(shc).(shc_id) = n.(shc).(shc_id);
  ce_validators : n'.(shc).(shc_validators) = n.(shc).(shc_validators);
  ce_observer : n'.(shc).(shc_state_machine).(sm_is_observer) =
    n.(shc).(shc_state_machine).(sm_is_observer);
  ce_votes : ∀ t, get_votes t n.(shc) ⊆ get_votes t n'.(shc);
  ce_log : ∀ x, x ∈ n.(ctx_log) → x ∈ n'.(ctx_log);
  ce_peers : ∀ t r j vote, j ≠ n.(shc).(shc_id) → get_votes t n'.(shc) !! (r, j) = Some vote →
    get_votes t n.(shc) !! (r, j) = Some vote ∨ (c = CallVote vote ∧ vote.(voter) = j);
  ce_return : ∀ ret, res = Ok ret → return_ok n' ret;
}.

Lemma keeps_inv_effect n c res n' : res ≠ Panic → keeps_inv n res n' → call_effect n c res n'.
Proof.
  intros Hp Hk. assert (node_inv n' ∧ grows n n' ∧ ∀ ret, res = Ok ret → return_ok n' ret)
    as (HI&[]&Hret).
  { destruct res as [ret|e|]; [| |done]; destruct Hk as (?&?&?) || destruct Hk as (?&?);
      split_and!; try done. by intros ret' [= ->]. }
  split; try done. intros t r j vote Hj Hv. left. by eapply gr_peers.
Qed.

Lemma record_effect n vote res n' :
  res ≠ Panic → get_votes vote.(vote_type) n.(shc) !! (vote.(vote_round), vote.(voter)) = None →
  keeps_inv (record_vote vote n) res n' → call_effect n (CallVote vote) res n'.
Proof.
  intros Hp Hn Hk%(keeps_inv_effect _ CallStart); [|done]. destruct Hk.
  assert ((record_vote vote n).(shc).(shc_id) = n.(shc).(shc_id) ∧
    (record_vote vote n).(shc).(shc_validators) = n.(shc).(shc_validators) ∧
    (record_vote vote n).(shc).(shc_state_machine) = n.(shc).(shc_state_machine)) as (Hid&Hval&Hsm)
    by (unfold record_vote; simpl; by destruct vote.(vote_type)).
  split; try done; try congruence.
  - intros t. etrans; [by apply (record_vote_subseteq vote)|done].
  - intros t r j v Hj Hv. rewrite <-Hid in Hj. destruct (ce_peers0 t r j v Hj Hv) as [Hv'|[? _]]; [|done].
    apply record_vote_cases in Hv' as [(_&_&->&->)|?]; auto.
Qed.

Lemma call_spec g Es i c res n' :
  system_inv g Es → i ∉ faulty → call_allowed g i c →
  run_call i c (g i).(rp_node) = (res, n') → res ≠ Panic → call_effect (g i).(rp_node) c res n'.
Proof.
  intros HG Hi Hc Hrun Hp. destruct (gi_fixed _ _ HG i Hi) as (Hid&_&_).
  assert ((g i).(rp_started) = true → node_inv (g i).(rp_node)) as Hinv.
  { intros Hs. eapply node_facts_inv, (gi_facts _ _ HG); done. }
  assert (∀ Q : result ConsensusError ShcReturn → ShcNode → Prop,
    wp (run_call i c) (g i).(rp_node) Q → Q res n') as Hwp by (intros Q; unfold wp; by rewrite Hrun).
  destruct c as [|init content|vote|task built validated]; simpl in *.
  - destruct (gi_new _ _ HG i Hi Hc) as (s&Hnew&Hn&_). rewrite Hn in *.
    apply keeps_inv_effect; [done|]. by eapply Hwp, shc_start_spec.
  - apply keeps_inv_effect; [done|]. by apply Hwp, shc_handle_proposal_spec, Hinv.
  - destruct Hc as [Hs Hauth].
    assert (keeps_inv (g i).(rp_node) res n' ∨
      (get_votes vote.(vote_type) (g i).(rp_node).(shc) !! (vote.(vote_round), vote.(voter)) = None ∧
       keeps_inv (record_vote vote (g i).(rp_node)) res n')) as [Hk|[Hn Hk]].
    { apply (Hwp (λ res n', _ ∨ _)), shc_handle_vote_spec; [by apply Hinv|].
      rewrite Hid. intros Hv. rewrite Hv in Hauth. by apply Hauth. }
    + by apply keeps_inv_effect.
    + by apply record_effect.
  - destruct Hc as [Hs Htask]. apply keeps_inv_effect; [done|].
    apply Hwp, shc_handle_task_spec; [by apply Hinv|].
    pose proof (gi_tasks _ _ HG i Hi) as Hok. rewrite Forall_forall in Hok. by apply Hok.
Qed.

Lemma initial_inv g : initial g → system_inv g (λ _, []).
Proof.
  intros Hg. assert (∀ i, i ∉ faulty → ∃ s,
    SingleHeightConsensus_new height (is_observer i) i validators timeouts = Some s ∧
    g i = {| rp_node := {| shc := s; ctx_log := [] |}; rp_started := false; rp_tasks := [];
             rp_decisions := [] |}) as Hi by done.
  split.
  - intros i (s&_&->)%Hi. done.
  - intros i (s&Hs&->)%Hi. simpl. destruct (shc_new_inv _ _ _ _ _ _ Hs) as (_&->&->&_&_&_&Hnew).
    by destruct (StateMachine_new_fresh _ _ _ _ Hnew) as (_&->&_).
  - intros i (s&Hs&->)%Hi _. by exists s.
  - by left.
  - intros i (s&_&->)%Hi. constructor.
  - intros i j t r vote (s&Hs&->)%Hi _ _. simpl. destruct (shc_new_inv _ _ _ _ _ _ Hs) as (_&_&_&_&Hv&_).
    by rewrite Hv, lookup_empty.
  - intros i d (s&_&->)%Hi. simpl. set_solver.
Qed.

Lemma step_inv g Es g' :
  NoDup validators → system_inv g Es → system_step g g' → ∃ Es', system_inv g' Es'.
Proof.
  intros Hnd HG Hstep. destruct Hstep as [i c res n' Hi Hc Hrun Hp].
  pose proof (call_spec _ _ _ _ _ _ HG Hi Hc Hrun Hp) as HE.
  destruct (gi_fixed _ _ HG i Hi) as (Hid&Hval&Hob).
  destruct (node_inv_facts _ (ce_inv _ _ _ _ HE)) as [E' HF].
  exists (λ j, if decide (j = i) then E' else Es j). split.
  - intros j Hj. case_decide; [done|]. by apply (gi_facts _ _ HG).
  - intros j Hj. case_decide; [subst j|by apply (gi_fixed _ _ HG)]. simpl.
    by rewrite (ce_id _ _ _ _ HE), (ce_validators _ _ _ _ HE), (ce_observer _ _ _ _ HE).
  - intros j Hj. case_decide; [done|]. by apply (gi_new _ _ HG).
  - intros j. case_decide; [done|]. by apply (gi_idle _ _ HG).
  - intros j Hj. case_decide; [subst j|by apply (gi_tasks _ _ HG)]. simpl.
    pose proof (gi_tasks _ _ HG i Hi). pose proof (ce_return _ _ _ _ HE) as Hret.
    destruct res as [[tasks|d]|e|]; try done. apply Forall_app. split; [done|]. by apply (Hret (ShcTasks tasks)).
  - intros a b t r vote Ha Hb Hne Hv.
    assert (CtxBroadcast vote ∈ (g b).(rp_node).(ctx_log)) as Hlog.
    { destruct (decide (a = i)) as [->|]; [|by eapply (gi_votes _ _ HG a)]. simpl in Hv.
      destruct (ce_peers _ _ _ _ HE t r b vote) as [Hold|[-> Hb']]; [congruence|done| |].
      - by eapply (gi_votes _ _ HG i).
      - destruct Hc as [_ Hauth]. rewrite Hb' in Hauth. by apply Hauth. }
    destruct (decide (b = i)) as [->|]; [|done]. simpl. by apply (ce_log _ _ _ _ HE).
  - intros j d Hj. case_decide; [subst j|by apply (gi_decisions _ _ HG)]. simpl.
    assert (d ∈ (g i).(rp_decisions) → backed n' d.(dec_block)) as Hold.
    { intros Hd%(gi_decisions _ _ HG); [|done]. destruct Hd as (r&Q&HQ&Hq&Hv). exists r, Q.
      split_and!; [done..|]. intros j (vote&Hvote&?)%Hv. exists vote. split; [|done].
      eapply lookup_weaken; [done|]. apply (ce_votes _ _ _ _ HE VtPrecommit). }
    pose proof (ce_return _ _ _ _ HE) as Hret.
    destruct res as [[tasks|d']|e|]; try done.
    intros [?| ->%list_elem_of_singleton]%elem_of_app; [by apply Hold|].
    destruct HF as (_&W&D&_&HI&_).
    apply supported_backed; [done|by rewrite (ce_validators _ _ _ _ HE)| |by apply (Hret (ShcDecision d'))].
    by rewrite (ni_quorum _ _ _ HI), (ce_validators _ _ _ _ HE), Hval.
Qed.

Lemma reachable_system_inv g :
  NoDup validators → system_reachable g → ∃ Es, system_inv g Es.
Proof.
  intros Hnd. induction 1 as [g Hg|g g' _ [Es IH] Hstep]; [|by eapply step_inv].
  eexists. by apply initial_inv.
Qed.

(** ** Certificates *)

Section certificates.
Context g Es (HG : system_inv g Es).

Lemma not_started_log i : i ∉ faulty → (g i).(rp_node).(ctx_log) ≠ [] → (g i).(rp_started) = true.
Proof.
  intros Hi Hlog. destruct (g i).(rp_started) eqn:Hs; [done|].
  destruct (gi_new _ _ HG i Hi Hs) as (s&_&Hn&_). by rewrite Hn in Hlog.
Qed.

(** A vote of an honest node that is recorded anywhere was emitted by its state machine. *)
Lemma recorded_emitted i j t r vote :
  i ∉ faulty → (g i).(rp_started) = true → j ∉ faulty →
  get_votes t (g i).(rp_node).(shc) !! (r, j) = Some vote →
  sm_vote t vote.(block_hash) r ∈ Es j.
Proof.
  intros Hi Hs Hj Hv.
  assert (∀ k v, k ∉ faulty → (g k).(rp_started) = true →
    get_votes t (g k).(rp_node).(shc) !! (r, k) = Some v → sm_vote t v.(block_hash) r ∈ Es k) as Hown.
  { intros k v Hk Hsk Hvk. destruct (gi_facts _ _ HG k Hk Hsk) as (_&W&D&HW&HI&_).
    destruct (gi_fixed _ _ HG k Hk) as (Hid&_). eapply elem_of_sublist; [|done].
    eapply elem_of_sublist; [|apply (ni_done _ _ _ HI)]. apply (ni_own _ _ _ HI). by rewrite Hid. }
  destruct (decide (j = i)) as [->|Hne]; [by apply Hown|].
  pose proof (gi_votes _ _ HG i j t r vote Hi Hj Hne Hv) as Hlog.
  assert ((g j).(rp_started) = true) as Hsj.
  { apply not_started_log; [done|]. intros He. rewrite He in Hlog. set_solver. }
  apply Hown; [done..|]. destruct (gi_facts _ _ HG i Hi Hs) as (_&Wi&Di&_&HIi&_).
  destruct (ni_key _ _ _ HIi t r j vote Hv) as (Ht&Hr&_).
  destruct (gi_facts _ _ HG j Hj Hsj) as (_&W&D&_&HI&_).
  destruct (ni_log _ _ _ HI vote Hlog) as [_ Hrec]. destruct (gi_fixed _ _ HG j Hj) as (Hid&_).
  by rewrite Ht, Hr, Hid in Hrec.
Qed.

(** A quorum of validators whose honest members emitted the vote. *)
Definition certificate t (p : option ProposalContentId) r (Q : gset ValidatorId) : Prop :=
  Q ⊆ validator_set validators ∧ quorum_of validators ≤ N.of_nat (size Q) ∧
  ∀ j, j ∈ Q → j ∉ faulty → sm_vote t p r ∈ Es j.

Lemma backed_certificate i block :
  i ∉ faulty → (g i).(rp_started) = true → backed (g i).(rp_node) block →
  ∃ r Q, certificate VtPrecommit (Some block) r Q.
Proof.
  intros Hi Hs (r&Q&HQ&Hq&Hv). exists r, Q. split_and!; [done..|]. intros j Hj Hf.
  destruct (Hv j Hj) as (vote&Hvote&<-). by eapply (recorded_emitted i j VtPrecommit).
Qed.

Lemma quorum_certificate i p r :
  i ∉ faulty → (g i).(rp_started) = true →
  has_quorum (g i).(rp_node).(shc).(shc_state_machine) r p → ∃ Q, certificate VtPrevote p r Q.
Proof.
  intros Hi Hs Hq. destruct (gi_facts _ _ HG i Hi Hs) as (HE&W&D&HW&HI&HC).
  destruct (gi_fixed _ _ HG i Hi) as (Hid&Hval&Hob).
  specialize (HC VtPrevote p r). rewrite decide_False in HC by done. rewrite Hid in HC.
  set (V := voters (get_votes VtPrevote (g i).(rp_node).(shc)) r p) in *.
  assert (vote_count (g i).(rp_node).(shc).(shc_state_machine).(sm_prevotes) r p ≤
    pending (g i).(rp_node).(shc).(shc_state_machine) (sm_vote VtPrevote p r)) as Hpend
    by (unfold pending; simpl; lia).
  unfold has_quorum in Hq. rewrite (ni_quorum _ _ _ HI), Hval in Hq. fold (quorum_of validators) in Hq.
  assert (∀ j, j ∈ V ∖ {[i]} → j ∈ validators ∧ (j ∉ faulty → sm_vote VtPrevote p r ∈ Es j)) as HV.
  { intros j [(vote&Hvote&<-)%elem_of_voters Hne]%elem_of_difference. split.
    - destruct (ni_key _ _ _ HI VtPrevote r j vote Hvote) as (_&_&_&[Hj|Hj]); [by rewrite <-Hval|].
      rewrite Hid in Hj. set_solver.
    - intros Hj. by eapply (recorded_emitted i j VtPrevote). }
  destruct (decide (sm_vote VtPrevote p r ∈ W)) as [Hin|Hnin].
  - exists ({[i]} ∪ V ∖ {[i]}). split_and!.
    + intros j [->%elem_of_singleton|Hj]%elem_of_union; unfold validator_set; rewrite elem_of_list_to_set;
        [|by apply HV]. destruct (is_observer i) eqn:Hobs.
      * by pose proof (ni_observer _ _ _ HI Hob _ Hin).
      * unfold is_observer in Hobs. apply orb_false_iff in Hobs as [_ Hb].
        apply bool_decide_eq_false in Hb. by apply dec_stable.
    + rewrite size_union, size_singleton by set_solver.
      assert (occurrences (sm_vote VtPrevote p r) W ≤ 1).
      { etrans; [by apply occurrences_sublist|]. rewrite (occurrences_once _ _ _ _ _ HE).
        case_decide; lia. }
      lia.
    + intros j [->%elem_of_singleton|Hj]%elem_of_union Hf; [|by apply HV].
      by eapply elem_of_sublist.
  - exists (V ∖ {[i]}). split_and!.
    + intros j Hj. unfold validator_set. rewrite elem_of_list_to_set. by apply HV.
    + assert (occurrences (sm_vote VtPrevote p r) W = 0) as Ho.
      { unfold occurrences. rewrite filter_none; [done|]. by intros e ? ->. }
      lia.
    + intros j Hj. by apply HV.
Qed.

(** An honest node that emitted a vote has started. *)
Lemma emitted_started j t p r : j ∉ faulty → sm_vote t p r ∈ Es j → (g j).(rp_started) = true.
Proof.
  intros Hj Hin. destruct (g j).(rp_started) eqn:Hs; [done|].
  destruct (gi_idle _ _ HG j Hs) as [He|]; [|done]. rewrite He in Hin. set_solver.
Qed.

Context (Hnd : NoDup validators).
Context (Hfaulty : (3 * size (faulty ∩ validator_set validators) < length validators)%nat).

Lemma certificates_meet t1 p1 r1 Q1 t2 p2 r2 Q2 :
  certificate t1 p1 r1 Q1 → certificate t2 p2 r2 Q2 →
  ∃ j, j ∉ faulty ∧ (g j).(rp_started) = true ∧ sm_vote t1 p1 r1 ∈ Es j ∧ sm_vote t2 p2 r2 ∈ Es j.
Proof.
  intros (HQ1&Hq1&Hv1) (HQ2&Hq2&Hv2).
  destruct (quorum_intersection validators faulty Q1 Q2) as (j&Hj1&Hj2&Hj); [done..|].
  exists j. specialize (Hv1 j Hj1 Hj). split_and!; [done| |done|by apply Hv2]. by eapply emitted_started.
Qed.

(** Once a block has a quorum of precommits in a round, no other gets a quorum of prevotes in
    that round or a later one. *)
Lemma decided_value_locked v r Q k v' r' :
  certificate VtPrecommit (Some v) r Q → r ≤ r' → k ∉ faulty → (g k).(rp_started) = true →
  has_quorum (g k).(rp_node).(shc).(shc_state_machine) r' (Some v') → v' = v.
Proof.
  intros Hcert. revert k. induction r' as [r' IH] using (well_founded_induction N.lt_wf_0).
  intros k Hle Hk Hs Hq. destruct (quorum_certificate k _ _ Hk Hs Hq) as (Q'&Hcert').
  destruct (certificates_meet _ _ _ _ _ _ _ _ Hcert Hcert') as (j&Hj&Hsj&Hpc&Hpv).
  destruct (gi_facts _ _ HG j Hj Hsj) as ([_ HK _]&_). simpl in *.
  destruct (decide (r' = r)) as [->|Hne].
  - pose proof (ki_precommit _ _ HK _ _ Hpc) as Hqj.
    destruct (quorum_certificate j _ _ Hj Hsj Hqj) as (Q3&Hcert3).
    destruct (certificates_meet _ _ _ _ _ _ _ _ Hcert' Hcert3) as (m&Hm&Hsm&Hv1&Hv2).
    destruct (gi_facts _ _ HG m Hm Hsm) as (HI&_).
    pose proof (vote_unique _ _ VtPrevote _ _ _ HI Hv1 Hv2). congruence.
  - destruct (ki_prevote _ _ HK _ _ _ _ Hpv Hpc) as (vr&?&?&Hqj); [lia|]. by eapply (IH vr).
Qed.

Lemma decisions_agree i j d d' :
  i ∉ faulty → j ∉ faulty → d ∈ (g i).(rp_decisions) → d' ∈ (g j).(rp_decisions) →
  d.(dec_block) = d'.(dec_block).
Proof.
  assert (∀ k x, k ∉ faulty → x ∈ (g k).(rp_decisions) →
    ∃ r Q, certificate VtPrecommit (Some x.(dec_block)) r Q) as Hcert.
  { intros k x Hk Hx. destruct (g k).(rp_started) eqn:Hs.
    - apply (backed_certificate k); [done..|]. by apply (gi_decisions _ _ HG).
    - destruct (gi_new _ _ HG k Hk Hs) as (_&_&_&_&Hd). rewrite Hd in Hx. set_solver. }
  assert (∀ v r Q v' r' Q', certificate VtPrecommit (Some v) r Q →
    certificate VtPrecommit (Some v') r' Q' → r ≤ r' → v' = v) as Hsame.
  { intros v r Q v' r' Q' Hc Hc' Hle.
    destruct (certificates_meet _ _ _ _ _ _ _ _ Hc' Hc') as (m&Hm&Hsm&Hpc&_).
    destruct (gi_facts _ _ HG m Hm Hsm) as ([_ HK _]&_).
    by eapply decided_value_locked, (ki_precommit _ _ HK). }
  intros Hi Hj (r&Q&Hc)%Hcert (r'&Q'&Hc')%Hcert; [|done..].
  destruct (N.le_ge_cases r r'); [symmetry|]; by eapply Hsame.
Qed.
End certificates.
End system.
