(* ===== verification/ConsensusTheorems.v ===== *)
(** Runs of the state machine and of a system of nodes at one height, executable, and the
    properties of consensus stated for them. *)

From S2P Require Import Prelude StarknetApi StateMachine TendermintRules StateMachineProofs.
From S2P Require Import StateMachineSafety StateMachineLiveness SingleHeightConsensus ShcProofs Agreement.

Implicit Types (s : StateMachine) (r : Round) (v : ProposalContentId) (o E : Events).

(** ** Runs of a state machine *)

Section state_machine_runs.
Context (leader_fn : Round → ValidatorId).

(** The states of a machine that was created and started, with all it has returned since. *)
Inductive sm_reachable id n_validators is_observer : StateMachine → Events → Prop :=
| smr_start s o s' :
    StateMachine_new id n_validators is_observer = Some s → start leader_fn s = (Ok o, s') →
    sm_reachable id n_validators is_observer s' o
| smr_event s out e o s' :
    sm_reachable id n_validators is_observer s out → handle_event leader_fn e s = (Ok o, s') →
    sm_reachable id n_validators is_observer s' (out ++ o).

Fixpoint sm_events (es : list StateMachineEvent) (out : Events) s : option (Events * StateMachine) :=
  match es with
  | [] => Some (out, s)
  | e :: es => match handle_event leader_fn e s with
               | (Ok o, s') => sm_events es (out ++ o) s'
               | _ => None
               end
  end.

Definition sm_run id n_validators is_observer es : option (Events * StateMachine) :=
  s ← StateMachine_new id n_validators is_observer;
  match start leader_fn s with
  | (Ok o, s') => sm_events es o s'
  | _ => None
  end.

Lemma sm_run_reachable id n b es out s :
  sm_run id n b es = Some (out, s) → sm_reachable id n b s out.
Proof.
  unfold sm_run. destruct (StateMachine_new _ _ _) as [s0|] eqn:Hnew; [simpl|done].
  destruct (start leader_fn s0) as [[o| |] s1] eqn:Hstart; [|done..].
  assert (sm_reachable id n b s1 o) as Hr by (by eapply smr_start).
  clear Hstart. revert o s1 Hr. induction es as [|e es IH]; simpl; intros o s1 Hr.
  - by intros [= -> ->].
  - destruct (handle_event leader_fn e s1) as [[o'| |] s2] eqn:He; [|done..].
    by eapply IH, smr_event.
Qed.

Lemma sm_reachable_inv id n b s out :
  sm_reachable id n b s out → ∃ E, sm_inv s E ∧ out `sublist_of` E.
Proof.
  induction 1 as [s o s' Hnew Hstart|s out e o s' _ (E&HI&Hs) He].
  - rewrite (start_run leader_fn _ _ _ _ Hnew) in Hstart. injection Hstart as <- <-.
    eexists. split; [by eapply start_inv|done].
  - pose proof (handle_event_spec leader_fn e s) as Hspec. unfold wp in Hspec. rewrite He in Hspec.
    destruct (ee_emitted _ _ _ _ _ Hspec) as (E'&Hm&Hs'). exists (E ++ E'). split.
    + by eapply sm_inv_steps.
    + by apply sublist_app.
Qed.

(** Runs in which the caller keeps to the contract [input_ok]. *)
Inductive sm_contract id n_validators is_observer : StateMachine → Prop :=
| smc_start s o s' :
    StateMachine_new id n_validators is_observer = Some s → start leader_fn s = (Ok o, s') →
    sm_contract id n_validators is_observer s'
| smc_event s e o s' :
    sm_contract id n_validators is_observer s → input_ok leader_fn s e →
    handle_event leader_fn e s = (Ok o, s') → sm_contract id n_validators is_observer s'.

Lemma sm_contract_wf id n b s : sm_contract id n b s → wf leader_fn s s.(sm_events_queue).
Proof.
  induction 1 as [s o s' Hnew Hstart|s e o s' _ IH Hok He].
  - rewrite (start_run leader_fn _ _ _ _ Hnew) in Hstart. injection Hstart as _ <-.
    simpl. pose proof (StateMachine_new_fresh _ _ _ _ Hnew) as (_&_&_&_&_&_&_&_&_&_&->&_).
    by eapply start_wf.
  - pose proof (handle_event_ok leader_fn e s IH Hok) as Hspec. unfold wp_ok, wp in Hspec.
    by rewrite He in Hspec.
Qed.
End state_machine_runs.

(** ** Runs of a system *)

Section system_runs.
Context (proposer : BlockNumber → Round → ValidatorId).
Context (broadcast_error : ValidatorId → list ContextCall → Vote → option ConsensusError).
Context (height : BlockNumber) (validators : list ValidatorId) (timeouts : TimeoutsConfig).
Context (must_observe : ValidatorId → bool).
Context (faulty : gset ValidatorId).

Implicit Types g : ValidatorId → replica.

#[global] Instance call_allowed_dec g i c : Decision (call_allowed faulty g i c).
Proof. destruct c; simpl; apply _. Defined.

Fixpoint system_run (calls : list (ValidatorId * shc_call)) g : option (ValidatorId → replica) :=
  match calls with
  | [] => Some g
  | (i, c) :: calls =>
      if decide (i ∉ faulty ∧ call_allowed faulty g i c) then
        match run_call proposer broadcast_error i c (g i).(rp_node) with
        | (Panic, _) => None
        | (res, n') => system_run calls (λ j, if decide (j = i) then after_call (g i) res n' else g j)
        end
      else None
  end.

Lemma system_run_reachable calls g g' :
  system_reachable proposer broadcast_error height validators timeouts must_observe faulty g →
  system_run calls g = Some g' →
  system_reachable proposer broadcast_error height validators timeouts must_observe faulty g'.
Proof.
  revert g. induction calls as [|[i c] calls IH]; simpl; intros g Hg; [by intros [= ->]|].
  case_decide as Hc; [|done]. destruct Hc as [Hi Hc].
  destruct (run_call _ _ _ _ _) as [res n'] eqn:Hrun.
  destruct res; [| |done]; apply IH; (eapply system_next; [done|]; by eapply step_call).
Qed.

(** The initial state of all nodes. *)
Definition system_start (unused : SingleHeightConsensus) : ValidatorId → replica := λ i,
  {| rp_node := {| shc := default unused (SingleHeightConsensus_new height
                     (is_observer validators must_observe i) i validators timeouts);
                   ctx_log := [] |};
     rp_started := false; rp_tasks := []; rp_decisions := [] |}.

Lemma system_start_initial unused :
  2 * N.of_nat (length validators) ≤ u32_max →
  initial height validators timeouts must_observe faulty (system_start unused).
Proof.
  intros Hlen i _. unfold system_start, SingleHeightConsensus_new, StateMachine_new, checked_mul.
  rewrite !decide_True by lia. eexists. split; reflexivity.
Qed.
End system_runs.

(** The voters of the precommits that support a decision are distinct. *)
Lemma supporting_voters_NoDup (votes : gmap (Round * ValidatorId) Vote) r block l :
  NoDup l → (∀ j vote, votes !! (r, j) = Some vote →
    vote.(vote_type) = VtPrecommit ∧ vote.(vote_round) = r ∧ vote.(voter) = j) →
  NoDup (voter <$> omap (λ j, vote ← votes !! (r, j);
    if decide (vote.(block_hash) = Some block) then Some vote else None) l).
Proof.
  intros Hnd Hkey. induction Hnd as [|j l Hj _ IH]; [constructor|]. simpl.
  destruct (votes !! (r, j)) as [vote|] eqn:Hv; simpl; [|done]. case_decide; [|done].
  constructor; [|done]. rewrite (proj2 (proj2 (Hkey _ _ Hv))).
  intros (vote'&Heq&(k&Hk&Hv')%list_elem_of_omap)%list_elem_of_fmap.
  destruct (votes !! (r, k)) as [vote''|] eqn:Hlook; [|done]. simpl in Hv'. case_decide; [|done].
  injection Hv' as ->. destruct (Hkey _ _ Hlook) as (_&_&Hvk). congruence.
Qed.

(** Four validators, of which the last never does anything; node 0 leads, block 7 is decided in
    round 0. *)
Module HeightScenario.
Definition timeouts := {| proposal_timeout := 3; prevote_timeout := 1; precommit_timeout := 1 |}.
Definition proposer (_ : BlockNumber) (_ : Round) : ValidatorId := 0.
Definition broadcast_error (_ : ValidatorId) (_ : list ContextCall) (_ : Vote) : option ConsensusError := None.
Definition validators : list ValidatorId := [0; 1; 2; 3].
Definition must_observe (_ : ValidatorId) : bool := false.
Definition faulty : gset ValidatorId := {[3]}.
Definition init := {| pi_height := 5; pi_round := 0; pi_valid_round := None; pi_proposer := 0 |}.
Definition vote t i := {| vote_type := t; vote_height := 5; vote_round := 0; block_hash := Some 7; voter := i |}.

Definition node (i : ValidatorId) : SingleHeightConsensus :=
  default (Build_SingleHeightConsensus 0 [] 0 timeouts
      (Build_StateMachine 0 0 StepPropose 0 0 false ∅ ∅ ∅ false [] None None ∅ ∅ ∅) ∅ ∅ ∅ None None)
    (SingleHeightConsensus_new 5 false i validators timeouts).

Definition calls : list (ValidatorId * shc_call) :=
  [(0, CallStart); (1, CallStart); (2, CallStart);
   (0, CallTask (TaskBuildProposal 0) (Some 7) None);
   (1, CallProposal init 0); (2, CallProposal init 0);
   (1, CallTask (TaskValidateProposal init) None (Some (7, {| proposal_content_id := 7 |})));
   (2, CallTask (TaskValidateProposal init) None (Some (7, {| proposal_content_id := 7 |})));
   (0, CallVote (vote VtPrevote 1)); (0, CallVote (vote VtPrevote 2));
   (1, CallVote (vote VtPrevote 0)); (1, CallVote (vote VtPrevote 2));
   (2, CallVote (vote VtPrevote 0)); (2, CallVote (vote VtPrevote 1));
   (0, CallVote (vote VtPrecommit 1)); (0, CallVote (vote VtPrecommit 2));
   (1, CallVote (vote VtPrecommit 0)); (1, CallVote (vote VtPrecommit 2))].

(** The state before node 0 receives the last precommit it needs. *)
Definition before : ValidatorId → replica :=
  default (system_start 5 validators timeouts must_observe (node 0))
    (system_run proposer broadcast_error faulty (take 15 calls)
      (system_start 5 validators timeouts must_observe (node 0))).

Definition final : ValidatorId → replica :=
  default (system_start 5 validators timeouts must_observe (node 0))
    (system_run proposer broadcast_error faulty calls
      (system_start 5 validators timeouts must_observe (node 0))).

Lemma run_reachable calls :
  system_reachable proposer broadcast_error 5 validators timeouts must_observe faulty
    (default (system_start 5 validators timeouts must_observe (node 0))
      (system_run proposer broadcast_error faulty calls
        (system_start 5 validators timeouts must_observe (node 0)))).
Proof.
  assert (system_reachable proposer broadcast_error 5 validators timeouts must_observe faulty
    (system_start 5 validators timeouts must_observe (node 0))) as Hinit.
  { by apply system_init, system_start_initial. }
  destruct (system_run _ _ _ _ _) eqn:Hrun; [|done]. by eapply system_run_reachable.
Qed.

Definition decision : ConsensusDecision :=
  {| dec_precommits := [vote VtPrecommit 0; vote VtPrecommit 1; vote VtPrecommit 2]; dec_block := 7 |}.

Lemma final_decisions : (final 0).(rp_decisions) = [decision] ∧ (final 1).(rp_decisions) = [decision].
Proof. split; vm_compute; reflexivity. Qed.
End HeightScenario.

(** ** Stated properties *)

(** C1: Agreement. In a system of distinct validators of which less than a third are faulty,
    where messages may be lost, delayed, duplicated and reordered and a broadcast may fail, no
    two honest nodes ever decide different blocks at a height, whatever faulty validators send
    and whatever is proposed. Votes of honest nodes are authentic: one is delivered only if its
    voter broadcast it. *)
Theorem agreement proposer broadcast_error height validators timeouts must_observe faulty g i j d d' :
  NoDup validators → (3 * size (faulty ∩ validator_set validators) < length validators)%nat →
  system_reachable proposer broadcast_error height validators timeouts must_observe faulty g →
  i ∉ faulty → j ∉ faulty → d ∈ (g i).(rp_decisions) → d' ∈ (g j).(rp_decisions) →
  d.(dec_block) = d'.(dec_block).
Proof.
  intros Hnd Hf Hr. destruct (reachable_system_inv _ _ _ _ _ _ _ _ Hnd Hr) as [Es HG].
  by eapply decisions_agree.
Qed.

Lemma agreement_witness :
  ∃ d d', d ∈ (HeightScenario.final 0).(rp_decisions) ∧ d' ∈ (HeightScenario.final 1).(rp_decisions) ∧
    d.(dec_block) = d'.(dec_block).
Proof.
  exists HeightScenario.decision, HeightScenario.decision. destruct HeightScenario.final_decisions as [H0 H1].
  split_and!; [rewrite H0; left|rewrite H1; left|].
  apply (agreement HeightScenario.proposer HeightScenario.broadcast_error 5 HeightScenario.validators
    HeightScenario.timeouts HeightScenario.must_observe HeightScenario.faulty HeightScenario.final 0 1);
    [by apply (bool_decide_unpack _); vm_compute|vm_compute; lia|apply (HeightScenario.run_reachable HeightScenario.calls)
    |by apply (bool_decide_unpack _); vm_compute|by apply (bool_decide_unpack _); vm_compute
    |rewrite H0; left|rewrite H1; left].
Defined.

(** A node never contradicts itself. All votes an honest node has broadcast in a run of the
    system carry its own identifier, and no two of the same kind and round differ, even when
    calls return errors in between. *)
Theorem broadcasts_consistent proposer broadcast_error height validators timeouts must_observe faulty
    g i vote vote' :
  NoDup validators →
  system_reachable proposer broadcast_error height validators timeouts must_observe faulty g →
  i ∉ faulty → CtxBroadcast vote ∈ (g i).(rp_node).(ctx_log) →
  CtxBroadcast vote' ∈ (g i).(rp_node).(ctx_log) →
  vote.(voter) = i ∧
  (vote.(vote_type) = vote'.(vote_type) → vote.(vote_round) = vote'.(vote_round) → vote = vote').
Proof.
  intros Hnd Hr Hi Hv Hv'. destruct (reachable_system_inv _ _ _ _ _ _ _ _ Hnd Hr) as [Es HG].
  assert ((g i).(rp_started) = true) as Hs.
  { eapply not_started_log; [done..|]. intros He. rewrite He in Hv. set_solver. }
  destruct (gi_facts _ _ _ _ _ _ _ HG i Hi Hs) as (_&W&D&_&HI&_).
  destruct (gi_fixed _ _ _ _ _ _ _ HG i Hi) as (Hid&_).
  apply (ni_log _ _ _ HI) in Hv as [Hvoter Hv], Hv' as [_ Hv'].
  split; [congruence|]. intros Ht Hround. rewrite Ht, Hround in Hv. congruence.
Qed.

Lemma broadcasts_consistent_witness :
  CtxBroadcast (HeightScenario.vote VtPrevote 1) ∈ (HeightScenario.final 1).(rp_node).(ctx_log) ∧
  (HeightScenario.vote VtPrevote 1).(voter) = 1.
Proof.
  assert (CtxBroadcast (HeightScenario.vote VtPrevote 1) ∈ (HeightScenario.final 1).(rp_node).(ctx_log))
    as Hin by (apply (bool_decide_unpack _); vm_compute; exact I).
  split; [done|].
  apply (broadcasts_consistent HeightScenario.proposer HeightScenario.broadcast_error 5
    HeightScenario.validators HeightScenario.timeouts HeightScenario.must_observe HeightScenario.faulty
    HeightScenario.final 1 (HeightScenario.vote VtPrevote 1) (HeightScenario.vote VtPrevote 1));
    [by apply (bool_decide_unpack _); vm_compute|apply (HeightScenario.run_reachable HeightScenario.calls)
    |by apply (bool_decide_unpack _); vm_compute|done|done].
Defined.

(** A decision carries its proof. Whatever call makes an honest node decide, the decision
    comes with precommits of more than two thirds of the validators, all distinct, all of one
    round and all for the decided block. *)
Theorem decision_certified proposer broadcast_error height validators timeouts must_observe faulty
    g i c d n' :
  NoDup validators →
  system_reachable proposer broadcast_error height validators timeouts must_observe faulty g →
  i ∉ faulty → call_allowed faulty g i c →
  run_call proposer broadcast_error i c (g i).(rp_node) = (Ok (ShcDecision d), n') →
  2 * N.of_nat (length validators) < 3 * N.of_nat (length d.(dec_precommits)) ∧
  NoDup (voter <$> d.(dec_precommits)) ∧
  ∃ r, ∀ vote, vote ∈ d.(dec_precommits) →
    vote.(vote_type) = VtPrecommit ∧ vote.(vote_round) = r ∧
    vote.(block_hash) = Some d.(dec_block) ∧ vote.(voter) ∈ validators.
Proof.
  intros Hnd Hr Hi Hc Hrun. destruct (reachable_system_inv _ _ _ _ _ _ _ _ Hnd Hr) as [Es HG].
  pose proof (call_spec _ _ _ _ _ _ _ _ _ _ _ _ _ HG Hi Hc Hrun ltac:(done)) as HE.
  destruct (ce_inv _ _ _ _ HE) as (W&D&HI&_).
  destruct (ce_return _ _ _ _ HE _ eq_refl) as (r&Hd&Hq).
  assert (n'.(shc).(shc_validators) = validators) as Hval.
  { rewrite (ce_validators _ _ _ _ HE). by destruct (gi_fixed _ _ _ _ _ _ _ HG i Hi) as (_&?&_). }
  rewrite (ni_quorum _ _ _ HI), Hval in Hq.
  assert (∀ j vote, n'.(shc).(shc_precommits) !! (r, j) = Some vote →
    vote.(vote_type) = VtPrecommit ∧ vote.(vote_round) = r ∧ vote.(voter) = j) as Hkey.
  { intros j vote Hv. by destruct (ni_key _ _ _ HI VtPrecommit _ _ _ Hv) as (?&?&?&_). }
  split_and!.
  - set (n := N.of_nat (length validators)) in *. pose proof (N.div_mod (2 * n) 3).
    pose proof (N.mod_lt (2 * n) 3). lia.
  - rewrite Hd. unfold supporting_precommits. rewrite Hval. by apply supporting_voters_NoDup.
  - exists r. rewrite Hd. intros vote. unfold supporting_precommits. rewrite list_elem_of_omap, Hval.
    intros (j&Hj&Hv). destruct (n'.(shc).(shc_precommits) !! (r, j)) as [vote'|] eqn:Hlook; [|done].
    simpl in Hv. case_decide; [|done]. injection Hv as ->.
    destruct (Hkey _ _ Hlook) as (?&?&<-). done.
Qed.

Lemma decision_certified_witness :
  ∃ n', run_call HeightScenario.proposer HeightScenario.broadcast_error 0
      (CallVote (HeightScenario.vote VtPrecommit 2)) (HeightScenario.before 0).(rp_node) =
      (Ok (ShcDecision HeightScenario.decision), n') ∧
    2 * N.of_nat (length HeightScenario.validators) <
    3 * N.of_nat (length HeightScenario.decision.(dec_precommits)).
Proof.
  destruct (run_call HeightScenario.proposer HeightScenario.broadcast_error 0
    (CallVote (HeightScenario.vote VtPrecommit 2)) (HeightScenario.before 0).(rp_node))
    as [res n'] eqn:Hrun. exists n'.
  assert (res = Ok (ShcDecision HeightScenario.decision)) as ->.
  { change res with (res, n').1. rewrite <-Hrun. vm_compute. reflexivity. }
  split; [done|].
  apply (decision_certified HeightScenario.proposer HeightScenario.broadcast_error 5
    HeightScenario.validators HeightScenario.timeouts HeightScenario.must_observe HeightScenario.faulty
    HeightScenario.before 0 (CallVote (HeightScenario.vote VtPrecommit 2)) HeightScenario.decision n');
    [by apply (bool_decide_unpack _); vm_compute|apply HeightScenario.run_reachable
    |by apply (bool_decide_unpack _); vm_compute|by apply (bool_decide_unpack _); vm_compute|exact Hrun].
Defined.


(** C21: Handling an event refines the rules of Tendermint with their guards: the call handles a
    list of events in turn, each by recording it and applying rules that its state and the event
    itself allow (quorums of prevotes and precommits, the quorums that start timeouts, the timeout
    or quorum of nil prevotes behind a nil precommit, the lock, the threshold or timeout behind a
    change of round); what is returned is among what these rules emit, in order. The events that
    were handled and those left in the queue are together the given event, those that were in the
    queue and the node's own votes and proposals returned by the call, each once. An observer
    returns no votes, and each vote is counted or buffered as often as it was handed in or
    emitted. *)
Theorem handle_event_refines leader_fn e s o s' :
  handle_event leader_fn e s = (Ok o, s') →
  (∃ L E, sm_handles leader_fn L s E s' ∧ o `sublist_of` E ∧
    L ++ s'.(sm_events_queue) ≡ₚ e :: s.(sm_events_queue) ++ filter (λ e, requeued e = true) o) ∧
  (∀ e', is_vote e' = true →
    pending s' e' = pending s e' + (if decide (e = e') then 1 else 0) + occurrences e' o) ∧
  (s.(sm_is_observer) = true → ∀ e', e' ∈ o → is_vote e' = false).
Proof.
  intros He. pose proof (handle_event_spec leader_fn e s) as Hspec. unfold wp in Hspec.
  rewrite He in Hspec. by destruct Hspec.
Qed.

(** Node 1 of four, led by node 0; it prevotes and precommits block 7, moves to round 1 when
    precommits are split, and is offered block 7 again. *)
Module MachineScenario.
Definition leader_fn (_ : Round) : ValidatorId := 0.
Definition events : list StateMachineEvent :=
  [EvProposal (Some 7) 0 None; EvPrevote (Some 7) 0; EvPrevote (Some 7) 0;
   EvPrecommit None 0; EvPrecommit None 0; EvTimeoutPrecommit 0;
   EvProposal (Some 7) 1 (Some 0); EvPrevote (Some 7) 1; EvPrevote (Some 7) 1;
   EvPrecommit (Some 7) 1; EvPrecommit (Some 7) 1].
Definition out : Events :=
  [EvTimeoutPropose 0; EvPrevote (Some 7) 0; EvTimeoutPrevote 0; EvPrecommit (Some 7) 0; EvTimeoutPrecommit 0;
   EvTimeoutPropose 1; EvPrevote (Some 7) 1; EvTimeoutPrevote 1; EvPrecommit (Some 7) 1; EvTimeoutPrecommit 1;
   EvDecision 7 1].

Lemma machine_final : ∃ s, sm_run leader_fn 1 4 false events = Some (out, s).
Proof.
  destruct (sm_run leader_fn 1 4 false events) as [[o s]|] eqn:Hrun; [|by vm_compute in Hrun].
  exists s. do 2 f_equal. change o with (o, s).1.
  assert (fst <$> sm_run leader_fn 1 4 false events = Some out) as Hout by (vm_compute; reflexivity).
  rewrite Hrun in Hout. by injection Hout.
Qed.
End MachineScenario.

Lemma handle_event_refines_witness :
  ∃ o s', sm_run MachineScenario.leader_fn 1 4 false MachineScenario.events = Some (o, s') ∧
    ∃ o' s'', handle_event MachineScenario.leader_fn (EvPrevote None 3) s' = (Ok o', s'') ∧
    pending s'' (EvPrevote None 3) = pending s' (EvPrevote None 3) + 1 + occurrences (EvPrevote None 3) o'.
Proof.
  destruct (sm_run MachineScenario.leader_fn 1 4 false MachineScenario.events) as [[o s']|] eqn:Hrun; [|by vm_compute in Hrun].
  exists o, s'. split; [done|].
  destruct (handle_event MachineScenario.leader_fn (EvPrevote None 3) s') as [[o'| |] s''] eqn:He;
    [|exfalso; vm_compute in Hrun; injection Hrun as <- <-; by vm_compute in He..].
  exists o', s''. split; [done|].
  apply (handle_event_refines MachineScenario.leader_fn (EvPrevote None 3) s' o' s'' He). reflexivity.
Defined.

(** A node's own proposals, prevotes and precommits come in strictly increasing rounds: in
    a run of any events, the state machine proposes, prevotes and precommits at most once in a
    round and never goes back to an earlier one. *)
Theorem own_votes_ordered leader_fn id n_validators is_observer s out :
  sm_reachable leader_fn id n_validators is_observer s out →
  StronglySorted N.lt (omap proposal_round out) ∧
  StronglySorted N.lt (omap prevote_round out) ∧
  StronglySorted N.lt (omap precommit_round out).
Proof.
  intros (E&[HV _ _]&Hs)%sm_reachable_inv. destruct HV.
  split_and!; (eapply sorted_sublist; [by apply omap_sublist|done]).
Qed.

Lemma own_votes_ordered_witness :
  ∃ s, sm_run MachineScenario.leader_fn 1 4 false MachineScenario.events =
      Some (MachineScenario.out, s) ∧
    omap prevote_round MachineScenario.out = [0; 1] ∧
    StronglySorted N.lt (omap prevote_round MachineScenario.out).
Proof.
  destruct MachineScenario.machine_final as [s Hs]. exists s. split_and!; [done|reflexivity|].
  apply (own_votes_ordered MachineScenario.leader_fn 1 4 false s). by eapply sm_run_reachable.
Defined.

(** C16: Votes for values are justified. A precommit for a value has a quorum of prevotes for it
    in its round; a prevote for a value after such a precommit has a quorum of prevotes for the
    value it votes for in a round since the precommit; a value is proposed again only if it was
    proposed and got a quorum of prevotes before; and a decided value was proposed and has a
    quorum of precommits. *)
Theorem votes_justified leader_fn id n_validators is_observer s out :
  sm_reachable leader_fn id n_validators is_observer s out →
  (∀ v r, EvPrecommit (Some v) r ∈ out → has_quorum s r (Some v)) ∧
  (∀ v r v' r', EvPrecommit (Some v') r' ∈ out → EvPrevote (Some v) r ∈ out → r' < r →
    ∃ vr, r' ≤ vr ∧ vr < r ∧ has_quorum s vr (Some v)) ∧
  (∀ p r vr, EvProposal p r (Some vr) ∈ out →
    vr < r ∧ (∃ v vr', p = Some v ∧ s.(sm_proposals) !! vr = Some (Some v, vr')) ∧ has_quorum s vr p) ∧
  (∀ v r, EvDecision v r ∈ out →
    (∃ vr, s.(sm_proposals) !! r = Some (Some v, vr)) ∧
    s.(sm_quorum) ≤ vote_count s.(sm_precommits) r (Some v)).
Proof.
  intros (E&[_ HK HW]&Hs)%sm_reachable_inv.
  assert (∀ e, e ∈ out → e ∈ E) as Hin by (intros e He; by eapply elem_of_sublist).
  destruct HK, HW. split_and!; eauto 10.
Qed.

Lemma votes_justified_witness :
  ∃ s, sm_run MachineScenario.leader_fn 1 4 false MachineScenario.events =
      Some (MachineScenario.out, s) ∧
    ∃ vr, 0 ≤ vr ∧ vr < 1 ∧ has_quorum s vr (Some 7).
Proof.
  destruct MachineScenario.machine_final as [s Hs]. exists s. split; [done|].
  apply (votes_justified MachineScenario.leader_fn 1 4 false s MachineScenario.out
    (sm_run_reachable _ _ _ _ _ _ _ Hs)) with (v' := 7);
    [by apply (bool_decide_unpack _); vm_compute..|reflexivity].
Defined.

(** The state machine never panics when its caller keeps to its contract: a machine that was
    created and started, and that is given votes within the range of its counters, one proposal
    per round of another leader, the answer to its own request for a proposal and timeouts,
    handles the next such event and returns. *)
Theorem state_machine_never_panics leader_fn id n_validators is_observer s e :
  sm_contract leader_fn id n_validators is_observer s → input_ok leader_fn s e →
  ∃ o s', handle_event leader_fn e s = (Ok o, s').
Proof.
  intros Hs%sm_contract_wf He. pose proof (handle_event_ok leader_fn e s Hs He) as Hok.
  apply wp_ok_iff in Hok as (o&s'&Hrun&_). eauto.
Qed.

(** Node 0 of four leads and has been started. *)
Module LeaderScenario.
Definition new : StateMachine :=
  default (Build_StateMachine 0 0 StepPropose 0 0 false ∅ ∅ ∅ false [] None None ∅ ∅ ∅)
    (StateMachine_new 0 4 false).
Definition s : StateMachine := (start MachineScenario.leader_fn new).2.
End LeaderScenario.

Lemma state_machine_never_panics_witness :
  ∃ o s', handle_event MachineScenario.leader_fn (EvGetProposal (Some 7) 0) LeaderScenario.s = (Ok o, s').
Proof.
  apply (state_machine_never_panics MachineScenario.leader_fn 0 4 false LeaderScenario.s).
  - apply (smc_start _ _ _ _ LeaderScenario.new [EvGetProposal None 0]); vm_compute; reflexivity.
  - split; reflexivity.
Defined.

(** C32: The state machine decides once it can. Let a machine whose caller has kept to the
    contract be given an event that the contract allows and that completes a quorum of precommits
    for the proposal of a round that was reached (the last precommit, or the proposal itself when
    the precommits came first). If the machine is not waiting for its own block and no event is
    left in its queue, handling the event returns a decision. If it is waiting for its own block,
    the event is put at the end of the queue and nothing is returned. *)
Theorem quorum_decides leader_fn id n_validators is_observer s e r v :
  sm_contract leader_fn id n_validators is_observer s → input_ok leader_fn s e →
  r ≤ s.(sm_round) → completes s e r v →
  (s.(sm_awaiting_get_proposal) = false → s.(sm_events_queue) = [] →
    ∃ o s', handle_event leader_fn e s = (Ok o, s') ∧ ∃ v' r', EvDecision v' r' ∈ o) ∧
  (s.(sm_awaiting_get_proposal) = true →
    handle_event leader_fn e s = (Ok [], set_events_queue (s.(sm_events_queue) ++ [e]) s)).
Proof.
  intros Hs%sm_contract_wf Hin Hr Hc. split; [intros; by eapply loop_decides|].
  intros Haw. unfold handle_event. mstep. rewrite Haw.
  by destruct Hc as [(->&_)|(vr&->&_)].
Qed.

(** A follower that has the proposal of round 0 and two precommits for it, of four. *)
Module FollowerScenario.
Definition leader_fn (r : Round) : ValidatorId := 0.
Definition new : StateMachine :=
  default (Build_StateMachine 0 0 StepPropose 0 0 false ∅ ∅ ∅ false [] None None ∅ ∅ ∅)
    (StateMachine_new 1 4 false).
Definition s0 : StateMachine := (start leader_fn new).2.
Definition s1 : StateMachine := (handle_event leader_fn (EvProposal (Some 7) 0 None) s0).2.
Definition s2 : StateMachine := (handle_event leader_fn (EvPrecommit (Some 7) 0) s1).2.
Definition s3 : StateMachine := (handle_event leader_fn (EvPrecommit (Some 7) 0) s2).2.
End FollowerScenario.

Lemma quorum_decides_witness : ∃ o s',
  handle_event FollowerScenario.leader_fn (EvPrecommit (Some 7) 0) FollowerScenario.s3 = (Ok o, s') ∧
  ∃ v' r', EvDecision v' r' ∈ o.
Proof.
  apply (quorum_decides FollowerScenario.leader_fn 1 4 false FollowerScenario.s3 (EvPrecommit (Some 7) 0) 0 7).
  - apply (smc_event _ _ _ _ FollowerScenario.s2 (EvPrecommit (Some 7) 0) []); [|vm_compute; reflexivity..].
    apply (smc_event _ _ _ _ FollowerScenario.s1 (EvPrecommit (Some 7) 0) []); [|vm_compute; reflexivity..].
    apply (smc_event _ _ _ _ FollowerScenario.s0 (EvProposal (Some 7) 0 None) [EvPrevote (Some 7) 0]).
    + apply (smc_start _ _ _ _ FollowerScenario.new [EvTimeoutPropose 0]); vm_compute; reflexivity.
    + split; [vm_compute; intros [_ Hl]; discriminate Hl|]. split; [vm_compute; reflexivity|].
      vm_compute. intros e' He'. inversion He'.
    + vm_compute. reflexivity.
  - vm_compute. reflexivity.
  - vm_compute. discriminate.
  - left. split; [reflexivity|]. split; [exists None; vm_compute; reflexivity|vm_compute; discriminate].
  - vm_compute. reflexivity.
  - vm_compute. reflexivity.
Defined.

(** While the leader waits for the block it asked for, events are only buffered: after any
    sequence of other events nothing has been returned and the state is as before but for the
    queue, which holds them in order; the answer is then handled first and the buffered events
    after it, in the order they came. *)
Theorem awaiting_buffers leader_fn es p s :
  s.(sm_awaiting_get_proposal) = true → Forall (λ e, answers_request e = false) es →
  sm_events leader_fn es [] s = Some ([], set_events_queue (s.(sm_events_queue) ++ es) s) ∧
  handle_event leader_fn (EvGetProposal p s.(sm_round))
    (set_events_queue (s.(sm_events_queue) ++ es) s) =
  handle_enqueued_events leader_fn
    (set_events_queue (EvGetProposal p s.(sm_round) :: s.(sm_events_queue) ++ es) s).
Proof.
  intros Haw Hes. split.
  - revert s Haw. induction Hes as [|e es He _ IH]; intros s Haw; simpl.
    + rewrite app_nil_r. by destruct s.
    + rewrite handle_event_buffers by done. simpl. rewrite IH by done.
      simpl. by rewrite <-(assoc_L app).
  - unfold handle_event. mstep. simpl. rewrite Haw. simpl. rewrite decide_True by done. done.
Qed.

Lemma awaiting_buffers_witness :
  sm_events MachineScenario.leader_fn [EvPrevote None 0; EvTimeoutPropose 0] [] LeaderScenario.s =
    Some ([], set_events_queue [EvPrevote None 0; EvTimeoutPropose 0] LeaderScenario.s).
Proof.
  apply (awaiting_buffers MachineScenario.leader_fn [EvPrevote None 0; EvTimeoutPropose 0] (Some 7)
    LeaderScenario.s); [reflexivity|repeat constructor].
Defined.

(** C38: A forged proposal stops a leader. A proposal that names the node itself as proposer, for
    a round the node leads and has not proposed in, is accepted from any peer: the node
    validates it and records the round as taken. When the block it is building itself for that
    round is ready, the node panics. *)
Theorem forged_proposal_panics proposer broadcast_error n init content :
  init.(pi_height) = n.(shc).(shc_height) →
  init.(pi_proposer) = proposer n.(shc).(shc_height) init.(pi_round) →
  n.(shc).(shc_proposals) !! init.(pi_round) = None →
  ∃ n', shc_handle_proposal proposer init content n = (Ok (ShcTasks [TaskValidateProposal init]), n') ∧
    ∀ built, (shc_handle_event proposer broadcast_error
      (ShcTask_run (TaskBuildProposal init.(pi_round)) built None) n').1 = Panic.
Proof.
  intros Hh Hp Hr. eexists. split.
  - unfold shc_handle_proposal, get_shc, on_shc, log_call, set_height_and_round, get_shc, log_call.
    mstep. rewrite !decide_False by congruence. rewrite Hr. mstep. reflexivity.
  - intros built. simpl. unfold get_shc, on_shc. mstep. simpl.
    by rewrite lookup_insert_eq, bool_decide_false.
Qed.

Lemma forged_proposal_panics_witness :
  let n := (shc_start HeightScenario.proposer (HeightScenario.broadcast_error 0)
              {| shc := HeightScenario.node 0; ctx_log := [] |}).2 in
  ∃ n', shc_handle_proposal HeightScenario.proposer HeightScenario.init 0 n =
      (Ok (ShcTasks [TaskValidateProposal HeightScenario.init]), n') ∧
    ∀ built, (shc_handle_event HeightScenario.proposer (HeightScenario.broadcast_error 0)
      (ShcTask_run (TaskBuildProposal 0) built None) n').1 = Panic.
Proof.
  intros n. apply (forged_proposal_panics HeightScenario.proposer (HeightScenario.broadcast_error 0) n
    HeightScenario.init 0); vm_compute; reflexivity.
Defined.
