(* ===== verification/Manager.v ===== *)
(** Many heights of consensus: [crates/sequencing/papyrus_consensus/src/manager.rs].

    The branches of [tokio::select!] are an explicit sequence of inputs: which branch is ready,
    and what it yields, is up to the environment. A task whose future has completed is named by
    its position among the pending ones. Reports to the network layer are recorded in a log. *)

From S2P Require Import Prelude StarknetApi Collections StateMachine SingleHeightConsensus Agreement.

Abbreviation Metadata := N (only parsing).

Record MultiHeightManager := {
  mhm_validator_id : ValidatorId;
  mhm_future_votes : gmap N (list Vote);
  mhm_cached_proposals : gmap N (gmap Round (ProposalInit * Receiver));
  mhm_timeouts : TimeoutsConfig;
}.

Definition MultiHeightManager_new (validator_id : ValidatorId) (timeouts : TimeoutsConfig)
  : MultiHeightManager := {|
  mhm_validator_id := validator_id; mhm_future_votes := ∅; mhm_cached_proposals := ∅;
  mhm_timeouts := timeouts |}.

Definition set_future_votes x (m : MultiHeightManager) : MultiHeightManager := {|
  mhm_validator_id := m.(mhm_validator_id); mhm_future_votes := x;
  mhm_cached_proposals := m.(mhm_cached_proposals); mhm_timeouts := m.(mhm_timeouts) |}.
Definition set_cached_proposals x (m : MultiHeightManager) : MultiHeightManager := {|
  mhm_validator_id := m.(mhm_validator_id); mhm_future_votes := m.(mhm_future_votes);
  mhm_cached_proposals := x; mhm_timeouts := m.(mhm_timeouts) |}.

Inductive RunHeightRes :=
| RunDecision (decision : ConsensusDecision)
| RunSync (height : BlockNumber).

(** What is told to the network layer about the sender of a message. *)
Inductive NetworkCall :=
| NetContinuePropagation (metadata : Metadata)
| NetReportPeer (metadata : Metadata).

(** The manager while it runs a height. *)
Record ManagerNode := {
  mn_manager : MultiHeightManager;
  mn_net : list NetworkCall;
  mn_node : ShcNode;
}.

Definition set_mn_manager x (s : ManagerNode) : ManagerNode :=
  {| mn_manager := x; mn_net := s.(mn_net); mn_node := s.(mn_node) |}.
Definition set_mn_net x (s : ManagerNode) : ManagerNode :=
  {| mn_manager := s.(mn_manager); mn_net := x; mn_node := s.(mn_node) |}.
Definition set_mn_node x (s : ManagerNode) : ManagerNode :=
  {| mn_manager := s.(mn_manager); mn_net := s.(mn_net); mn_node := x |}.

Abbreviation MgrM := (M ManagerNode ConsensusError) (only parsing).

Definition on_node {A} (m : M ShcNode ConsensusError A) : MgrM A := zoom mn_node set_mn_node m.

Definition net_call (c : NetworkCall) : MgrM unit := modify (λ s, set_mn_net (s.(mn_net) ++ [c]) s).

(** ** The caches *)

(** The loop over [first_entry]: the entry of [height], with the earlier ones dropped. Each turn
    that does not return removes an entry. *)
Fixpoint current_height_loop {V} (fuel : nat) (height : N) (m : gmap N V) : option V * gmap N V :=
  match fuel with
  | O => (None, m)
  | S fuel =>
      match BTreeMap.iter m with
      | [] => (None, m)
      | (key, v) :: _ =>
          match key ?= height with
          | Gt => (None, m)
          | Eq => (Some v, delete key m)
          | Lt => current_height_loop fuel height (delete key m)
          end
      end
  end.

Definition get_current_height_proposals (height : BlockNumber) : MgrM (list (ProposalInit * Receiver)) := λ s,
  let m := s.(mn_manager).(mhm_cached_proposals) in
  let '(submap, m') := current_height_loop (S (size m)) height m in
  (Ok (match submap with Some submap => BTreeMap.values submap | None => [] end),
   set_mn_manager (set_cached_proposals m' s.(mn_manager)) s).

Definition get_current_height_votes (height : BlockNumber) : MgrM (list Vote) := λ s,
  let m := s.(mn_manager).(mhm_future_votes) in
  let '(votes, m') := current_height_loop (S (size m)) height m in
  (Ok (default [] votes), set_mn_manager (set_future_votes m' s.(mn_manager)) s).

Definition cache_vote (vote : Vote) (m : MultiHeightManager) : MultiHeightManager :=
  set_future_votes (<[vote.(vote_height) :=
    default [] (m.(mhm_future_votes) !! vote.(vote_height)) ++ [vote]]> m.(mhm_future_votes)) m.

(** [or_insert] keeps the proposal that came first. *)
Definition cache_proposal (init : ProposalInit) (content : Receiver) (m : MultiHeightManager)
  : MultiHeightManager :=
  let rounds := default ∅ (m.(mhm_cached_proposals) !! init.(pi_height)) in
  set_cached_proposals (<[init.(pi_height) :=
    match rounds !! init.(pi_round) with
    | Some _ => rounds
    | None => <[init.(pi_round) := (init, content)]> rounds
    end]> m.(mhm_cached_proposals)) m.

(** What reading the first part of a proposal yields: no message yet, a closed channel, or a part
    that is a [ProposalInit] or fails to convert to one. *)
Inductive FirstPart :=
| FpEmpty
| FpClosed
| FpPart (init : option ProposalInit).

(** The inputs of the select loop. *)
Inductive select :=
| SelMessage (message : option (option Vote * Metadata))
| SelProposal (first_part : FirstPart) (content : Receiver)
| SelTask (k : nat) (built : option ProposalContentId) (validated : option (ProposalContentId * ProposalFin))
| SelSync (learned : bool).

(** What a height comes to for a sequence of inputs: it ends, with inputs left for the next one,
    or it waits for more, with tasks pending. *)
Inductive height_outcome :=
| HeightDone (res : RunHeightRes) (rest : list select)
| HeightWaits (tasks : list ShcTask).

Section manager.
Context (proposer : BlockNumber → Round → ValidatorId).
Context (broadcast_error : BlockNumber → list ContextCall → Vote → option ConsensusError).
Context (validators : BlockNumber → list ValidatorId).
Context (decision_error : BlockNumber → ConsensusDecision → option ConsensusError).

(** [for x in xs { match f(x)? { decision => return Ok(decision), tasks => extend } }] *)
Fixpoint handle_cached {A} (f : A → M ShcNode ConsensusError ShcReturn) (xs : list A)
    (tasks : list ShcTask) : MgrM ShcReturn :=
  match xs with
  | [] => mret (ShcTasks tasks)
  | x :: xs =>
      ret ← on_node (f x);
      match ret with
      | ShcDecision _ => mret ret
      | ShcTasks new_tasks => handle_cached f xs (tasks ++ new_tasks)
      end
  end.

Definition start_height (height : BlockNumber) : MgrM ShcReturn :=
  ret ← on_node (shc_start proposer (broadcast_error height));
  match ret with
  | ShcDecision _ => mret ret
  | ShcTasks tasks =>
      cached_proposals ← get_current_height_proposals height;
      ret ← handle_cached (λ '(init, content), shc_handle_proposal proposer init content)
              cached_proposals tasks;
      match ret with
      | ShcDecision _ => mret ret
      | ShcTasks tasks =>
          cached_votes ← get_current_height_votes height;
          handle_cached (shc_handle_vote proposer (broadcast_error height)) cached_votes tasks
      end
  end.

Definition mgr_handle_proposal (height : BlockNumber) (first_part : FirstPart) (content : Receiver)
  : MgrM ShcReturn :=
  match first_part with
  | FpEmpty => throw InternalNetworkError
  | FpClosed => throw InternalNetworkError
  | FpPart None => throw ProtobufConversionError
  | FpPart (Some init) =>
      match init.(pi_height) ?= height with
      | Gt => modify (λ s, set_mn_manager (cache_proposal init content s.(mn_manager)) s);;
              mret (ShcTasks [])
      | Lt => mret (ShcTasks [])
      | Eq => on_node (shc_handle_proposal proposer init content)
      end
  end.

Definition mgr_handle_vote (height : BlockNumber) (message : option (option Vote * Metadata))
  : MgrM ShcReturn :=
  match message with
  | None => throw InternalNetworkError
  | Some (None, metadata) => net_call (NetReportPeer metadata);; throw ProtobufConversionError
  | Some (Some vote, metadata) =>
      net_call (NetContinuePropagation metadata);;
      match vote.(vote_height) ?= height with
      | Gt => modify (λ s, set_mn_manager (cache_vote vote s.(mn_manager)) s);;
              mret (ShcTasks [])
      | Lt => mret (ShcTasks [])
      | Eq => on_node (shc_handle_vote proposer (broadcast_error height) vote)
      end
  end.

(** One turn of the select loop, for a branch that yields a value to handle; [None] for the
    branch of a task that is not pending. *)
Definition select_branch (height : BlockNumber) (tasks : list ShcTask) (input : select)
  : option (MgrM ShcReturn * list ShcTask) :=
  match input with
  | SelMessage message => Some (mgr_handle_vote height message, tasks)
  | SelProposal first_part content => Some (mgr_handle_proposal height first_part content, tasks)
  | SelTask k built validated =>
      match tasks !! k with
      | Some task => Some (on_node (shc_handle_event proposer (broadcast_error height)
                             (ShcTask_run task built validated)), delete k tasks)
      | None => None
      end
  | SelSync _ => None
  end.

Fixpoint run_height_loop (height : BlockNumber) (tasks : list ShcTask) (inputs : list select)
  : MgrM height_outcome :=
  match inputs with
  | [] => mret (HeightWaits tasks)
  | SelSync true :: inputs => mret (HeightDone (RunSync height) inputs)
  | input :: inputs =>
      match select_branch height tasks input with
      | None => run_height_loop height tasks inputs
      | Some (handle, tasks) =>
          shc_return ← handle;
          match shc_return with
          | ShcDecision decision => mret (HeightDone (RunDecision decision) inputs)
          | ShcTasks new_tasks => run_height_loop height (tasks ++ new_tasks) inputs
          end
      end
  end.

Definition run_height_body (height : BlockNumber) (inputs : list select) : MgrM height_outcome :=
  ret ← start_height height;
  match ret with
  | ShcDecision decision => mret (HeightDone (RunDecision decision) inputs)
  | ShcTasks tasks => run_height_loop height tasks inputs
  end.

(** Consensus between heights: the manager, what the network was told, the calls to the context
    made at each height and the decisions it was told of. *)
Record Consensus := {
  cs_manager : MultiHeightManager;
  cs_net : list NetworkCall;
  cs_calls : list (BlockNumber * list ContextCall);
  cs_decisions : list (BlockNumber * ConsensusDecision);
}.

Definition run_height (height : BlockNumber) (must_observer : bool) (inputs : list select)
  : M Consensus ConsensusError height_outcome := λ s,
  let m := s.(cs_manager) in
  match SingleHeightConsensus_new height
          (is_observer (validators height) (λ _, must_observer) m.(mhm_validator_id))
          m.(mhm_validator_id) (validators height) m.(mhm_timeouts) with
  | None => (Panic, s)
  | Some shc =>
      let '(r, s') := run_height_body height inputs
        {| mn_manager := m; mn_net := s.(cs_net); mn_node := {| shc := shc; ctx_log := [] |} |} in
      (r, {| cs_manager := s'.(mn_manager); cs_net := s'.(mn_net);
             cs_calls := s.(cs_calls) ++ [(height, s'.(mn_node).(ctx_log))];
             cs_decisions := s.(cs_decisions) |})
  end.

Definition decision_reached (height : BlockNumber) (decision : ConsensusDecision)
  : M Consensus ConsensusError unit :=
  modify (λ s, {| cs_manager := s.(cs_manager); cs_net := s.(cs_net); cs_calls := s.(cs_calls);
                  cs_decisions := s.(cs_decisions) ++ [(height, decision)] |});;
  match decision_error height decision with Some e => throw e | None => mret tt end.

(** At most [n] heights of the infinite loop, on a finite sequence of inputs; returns the height
    reached and the inputs that are left. *)
Fixpoint run_consensus_loop (n : nat) (start_active_height current_height : BlockNumber)
    (inputs : list select) : M Consensus ConsensusError (BlockNumber * list select) :=
  match n with
  | O => mret (current_height, inputs)
  | S n =>
      outcome ← run_height current_height (bool_decide (current_height < start_active_height)) inputs;
      match outcome with
      | HeightWaits _ => mret (current_height, [])
      | HeightDone (RunDecision decision) inputs =>
          decision_reached current_height decision;;
          next ← expect (checked_add u64_max current_height 1);
          run_consensus_loop n start_active_height next inputs
      | HeightDone (RunSync sync_height) inputs =>
          next ← expect (checked_add u64_max sync_height 1);
          run_consensus_loop n start_active_height next inputs
      end
  end.

Definition run_consensus (n : nat) (start_active_height start_observe_height : BlockNumber)
    (inputs : list select) : M Consensus ConsensusError (BlockNumber * list select) :=
  assert_ (bool_decide (start_observe_height ≤ start_active_height));;
  run_consensus_loop n start_active_height start_observe_height inputs.
End manager.
