(* ===== verification/ManagerTheorems.v ===== *)
(** What the manager of many heights guarantees: the caches keep what arrives early, a height is
    driven only through calls that consensus allows, heights increase. *)

From S2P Require Import Prelude StarknetApi Collections StateMachine SingleHeightConsensus Agreement.
From S2P Require Import ConsensusTheorems Manager.

(** ** The loop over the caches *)

Lemma current_height_loop_spec {V} fuel height (m : gmap N V) :
  (size m < fuel)%nat →
  current_height_loop fuel height m = (m !! height, filter (λ kv, height < kv.1) m).
Proof.
  revert m. induction fuel as [|fuel IH]; intros m Hfuel; [lia|]. simpl.
  destruct (BTreeMap.iter m) as [|[k v] l] eqn:Hit.
  { apply BTreeMap.iter_nil in Hit as ->. by rewrite lookup_empty, map_filter_empty. }
  apply BTreeMap.iter_head in Hit as [Hk Hmin].
  destruct (N.compare_spec k height) as [->|Hlt|Hgt].
  - f_equal; [by rewrite Hk|]. apply map_eq. intros j. rewrite lookup_delete, map_lookup_filter.
    case_decide; subst; [rewrite Hk; simpl; rewrite option_guard_False; [done|simpl; lia]|].
    destruct (m !! j) as [w|] eqn:Hj; [|done]. simpl. specialize (Hmin _ _ Hj).
    by rewrite option_guard_True by (simpl; lia).
  - assert (size m ≠ 0%nat) by (intros Hm%map_size_empty_inv; by rewrite Hm in Hk).
    rewrite IH; [|rewrite map_size_delete_Some by eauto; lia].
    rewrite lookup_delete_ne by lia. f_equal. apply map_eq. intros j.
    rewrite !map_lookup_filter, lookup_delete. case_decide; [subst|done].
    rewrite Hk. simpl. rewrite option_guard_False; [done|simpl; lia].
  - destruct (m !! height) as [w|] eqn:Hh; [specialize (Hmin _ _ Hh); lia|]. f_equal.
    apply map_eq. intros j. rewrite map_lookup_filter.
    destruct (m !! j) as [w|] eqn:Hj; [|done]. specialize (Hmin _ _ Hj). simpl.
    rewrite option_guard_True; [done|simpl; lia].
Qed.

Lemma get_current_height_votes_run height s :
  get_current_height_votes height s =
    (Ok (default [] (s.(mn_manager).(mhm_future_votes) !! height)),
     set_mn_manager (set_future_votes
       (filter (λ kv, height < kv.1) s.(mn_manager).(mhm_future_votes)) s.(mn_manager)) s).
Proof. unfold get_current_height_votes. by rewrite current_height_loop_spec by lia. Qed.

Lemma get_current_height_proposals_run height s :
  get_current_height_proposals height s =
    (Ok (BTreeMap.values (default ∅ (s.(mn_manager).(mhm_cached_proposals) !! height))),
     set_mn_manager (set_cached_proposals
       (filter (λ kv, height < kv.1) s.(mn_manager).(mhm_cached_proposals)) s.(mn_manager)) s).
Proof.
  unfold get_current_height_proposals. rewrite current_height_loop_spec by lia.
  by destruct (_ !! height).
Qed.

(** ** What the caches hold *)

Definition cached_votes (m : MultiHeightManager) k : list Vote := default [] (m.(mhm_future_votes) !! k).
Definition cached_proposal (m : MultiHeightManager) k r : option (ProposalInit * Receiver) :=
  m.(mhm_cached_proposals) !! k ≫= lookup r.

(** What is cached is cached under its own height and round. *)
Record caches_ok (m : MultiHeightManager) : Prop := {
  co_votes : ∀ k vote, vote ∈ cached_votes m k → vote.(vote_height) = k;
  co_proposals : ∀ k r init content, cached_proposal m k r = Some (init, content) →
    init.(pi_height) = k ∧ init.(pi_round) = r;
}.

Lemma caches_ok_new id timeouts : caches_ok (MultiHeightManager_new id timeouts).
Proof.
  split; unfold cached_votes, cached_proposal, MultiHeightManager_new; simpl; intros *;
    rewrite lookup_empty; [|done]. by intros ?%elem_of_nil.
Qed.

(** The votes and proposals for a later height among the inputs. *)
Definition vote_for k (input : select) : option Vote :=
  match input with
  | SelMessage (Some (Some vote, _)) => if decide (vote.(vote_height) = k) then Some vote else None
  | _ => None
  end.
Definition proposal_for k r (input : select) : option (ProposalInit * Receiver) :=
  match input with
  | SelProposal (FpPart (Some init)) content =>
      if decide (init.(pi_height) = k ∧ init.(pi_round) = r) then Some (init, content) else None
  | _ => None
  end.

Lemma cached_votes_cache vote m k :
  cached_votes (cache_vote vote m) k =
    cached_votes m k ++ (if decide (vote.(vote_height) = k) then [vote] else []).
Proof.
  unfold cached_votes, cache_vote. simpl. rewrite lookup_insert. case_decide as Hk; [by subst|].
  by rewrite app_nil_r.
Qed.

Lemma cached_proposal_cache init content m k r :
  cached_proposal (cache_proposal init content m) k r =
    match cached_proposal m k r with
    | Some p => Some p
    | None => if decide (init.(pi_height) = k ∧ init.(pi_round) = r) then Some (init, content) else None
    end.
Proof.
  unfold cached_proposal, cache_proposal. simpl. rewrite lookup_insert. case_decide as Hk.
  - subst k. simpl. set (rounds := mhm_cached_proposals m !! init.(pi_height)).
    assert (rounds ≫= lookup r = default ∅ rounds !! r) as -> by (by destruct rounds).
    destruct (default ∅ rounds !! init.(pi_round)) as [p|] eqn:Hp.
    + destruct (default ∅ rounds !! r) eqn:Hr; [done|]. rewrite decide_False; [done|].
      intros [_ Hr']. congruence.
    + rewrite lookup_insert. case_decide as Hr.
      * subst r. rewrite Hp. by rewrite decide_True.
      * destruct (default ∅ rounds !! r); [done|]. rewrite decide_False by tauto. done.
  - destruct (mhm_cached_proposals m !! k ≫= lookup r); [done|]. rewrite decide_False by tauto. done.
Qed.

Lemma caches_ok_vote vote m : caches_ok m → caches_ok (cache_vote vote m).
Proof.
  intros [Hv Hp]. split; [|done]. intros k v. rewrite cached_votes_cache.
  intros [?|Hin]%elem_of_app; [by apply Hv|]. case_decide; set_solver.
Qed.

Lemma caches_ok_proposal init content m : caches_ok m → caches_ok (cache_proposal init content m).
Proof.
  intros [Hv Hp]. split; [done|]. intros k r i c. rewrite cached_proposal_cache.
  destruct (cached_proposal m k r) as [p|] eqn:Hc; [intros [= ->]; by eapply Hp|].
  case_decide; [|done]. by intros [= <- <-].
Qed.

(** [used] has been received between [m] and [m']: for the heights after [height], votes are
    added in order of arrival and the first proposal of a round stays. *)
Record caches_grow height (used : list select) (m m' : MultiHeightManager) : Prop := {
  cg_votes : ∀ k, height < k → cached_votes m' k = cached_votes m k ++ omap (vote_for k) used;
  cg_proposals : ∀ k r, height < k → cached_proposal m' k r =
    match cached_proposal m k r with Some p => Some p | None => head (omap (proposal_for k r) used) end;
  cg_ok : caches_ok m → caches_ok m';
  cg_id : m'.(mhm_validator_id) = m.(mhm_validator_id);
}.

Lemma caches_grow_refl height m : caches_grow height [] m m.
Proof.
  split; try done.
  - intros k _. simpl. by rewrite app_nil_r.
  - intros k r _. by destruct (cached_proposal m k r).
Qed.

Lemma caches_grow_trans height used m1 used' m2 m3 :
  caches_grow height used m1 m2 → caches_grow height used' m2 m3 →
  caches_grow height (used ++ used') m1 m3.
Proof.
  intros [V1 P1 O1 I1] [V2 P2 O2 I2]. split; [..|by auto|congruence].
  - intros k Hk. by rewrite V2, V1, omap_app, (assoc_L app) by done.
  - intros k r Hk. rewrite P2, P1, omap_app by done. destruct (cached_proposal m1 k r); [done|].
    by destruct (omap (proposal_for k r) used).
Qed.

(** Inputs that are not for later heights, and starting a height, leave the later ones alone. *)
Lemma caches_grow_none height input m :
  (∀ k, height < k → vote_for k input = None) →
  (∀ k r, height < k → proposal_for k r input = None) → caches_grow height [input] m m.
Proof.
  intros Hv Hp. split; try done.
  - intros k Hk. simpl. by rewrite Hv, app_nil_r by done.
  - intros k r Hk. simpl. rewrite Hp by done. by destruct (cached_proposal m k r).
Qed.

Lemma lookup_filter_later {V} (m : gmap N V) height k :
  filter (λ kv, height < kv.1) m !! k = if decide (height < k) then m !! k else None.
Proof.
  rewrite map_lookup_filter. destruct (m !! k) as [v|]; simpl; [|by case_decide].
  case_decide; [by rewrite option_guard_True|by rewrite option_guard_False].
Qed.

Lemma caches_grow_drop_votes height m :
  caches_grow height [] m (set_future_votes (filter (λ kv, height < kv.1) m.(mhm_future_votes)) m).
Proof.
  split; try done; unfold cached_votes; simpl.
  - intros k Hk. rewrite lookup_filter_later, decide_True, app_nil_r by done. done.
  - intros k r _. unfold cached_proposal. simpl. by destruct (_ ≫= _).
  - intros [Hv Hp]. split; [|done]. intros k vote. unfold cached_votes. simpl.
    rewrite lookup_filter_later. case_decide; [apply Hv|set_solver].
Qed.

Lemma caches_grow_drop_proposals height m :
  caches_grow height [] m
    (set_cached_proposals (filter (λ kv, height < kv.1) m.(mhm_cached_proposals)) m).
Proof.
  split; try done; unfold cached_votes, cached_proposal; simpl.
  - intros k Hk. by rewrite app_nil_r.
  - intros k r Hk. rewrite lookup_filter_later, decide_True by done. by destruct (_ ≫= _).
  - intros [Hv Hp]. split; [done|]. intros k r init content. unfold cached_proposal. simpl.
    rewrite lookup_filter_later. case_decide; [apply Hp|done].
Qed.

Lemma caches_grow_vote height vote metadata m :
  caches_grow height [SelMessage (Some (Some vote, metadata))] m (cache_vote vote m).
Proof.
  split; [..|apply caches_ok_vote|done].
  - intros k _. rewrite cached_votes_cache. simpl. by case_decide.
  - intros k r _. change (cached_proposal (cache_vote vote m) k r) with (cached_proposal m k r).
    by destruct (cached_proposal m k r).
Qed.

Lemma caches_grow_proposal height init content m :
  caches_grow height [SelProposal (FpPart (Some init)) content] m (cache_proposal init content m).
Proof.
  split; [..|apply caches_ok_proposal|done].
  - intros k _. simpl. by rewrite app_nil_r.
  - intros k r _. rewrite cached_proposal_cache. simpl. destruct (cached_proposal m k r); [done|].
    by case_decide.
Qed.

(** ** Driving a height *)

Section driving.
Context (proposer : BlockNumber → Round → ValidatorId).
Context (broadcast_error : BlockNumber → list ContextCall → Vote → option ConsensusError).
Context (height : BlockNumber).

Definition call (c : shc_call) : M ShcNode ConsensusError ShcReturn :=
  run_call proposer (λ _, broadcast_error height) 0 c.

(** The part of [call_allowed] that the node itself must see to. *)
Definition own_call_allowed (rp : replica) (c : shc_call) : Prop :=
  rp.(rp_started) = negb (match c with CallStart => true | _ => false end) ∧
  match c with CallTask task _ _ => task ∈ rp.(rp_tasks) | _ => True end.

(** The calls made to the consensus of the height, each with what it returned. *)
Abbreviation trace := (list (shc_call * result ConsensusError ShcReturn)) (only parsing).

Inductive driven : replica → trace → replica → Prop :=
| driven_nil rp : driven rp [] rp
| driven_call rp c res n' calls rp' :
    own_call_allowed rp c → call c rp.(rp_node) = (res, n') → res ≠ Panic →
    driven (after_call rp res n') calls rp' → driven rp ((c, res) :: calls) rp'.

Lemma driven_trans rp calls rp1 calls' rp' :
  driven rp calls rp1 → driven rp1 calls' rp' → driven rp (calls ++ calls') rp'.
Proof. induction 1; [done|]. intros ?. simpl. by eapply driven_call; eauto. Qed.

Lemma driven_one rp c res n' :
  own_call_allowed rp c → call c rp.(rp_node) = (res, n') → res ≠ Panic →
  driven rp [(c, res)] (after_call rp res n').
Proof. intros. by eapply driven_call, driven_nil. Qed.

Lemma driven_tasks rp calls rp' : driven rp calls rp' → rp.(rp_tasks) ⊆ rp'.(rp_tasks).
Proof.
  induction 1 as [|rp c res n' calls rp' _ _ _ _ IH]; [done|]. etrans; [|exact IH].
  destruct res as [[]| |]; simpl; set_solver.
Qed.

(** The votes among the calls. *)
Definition votes_of (calls : trace) : list Vote :=
  omap (λ c, match c.1 with CallVote vote => Some vote | _ => None end) calls.

Lemma votes_of_app calls calls' : votes_of (calls ++ calls') = votes_of calls ++ votes_of calls'.
Proof. apply omap_app. Qed.

(** The call returned tasks, so that the height goes on. *)
Definition goes_on (c : shc_call * result ConsensusError ShcReturn) : Prop :=
  ∃ tasks, c.2 = Ok (ShcTasks tasks).

(** [res] is what the last call returned, and the height went on until then; or it is the error
    [bad] that was found without a call. *)
Definition ended_by {A} (bad : option ConsensusError) (calls : trace)
    (ret : option ShcReturn) (res : result ConsensusError A) : Prop :=
  (∃ calls0 c res0, calls = calls0 ++ [(c, res0)] ∧ Forall goes_on calls0 ∧
    match res with
    | Ok _ => ∃ r, ret = Some r ∧ res0 = Ok r
    | Err e => res0 = Err e
    | Panic => False
    end) ∨
  (∃ e, res = Err e ∧ bad = Some e ∧ Forall goes_on calls).

(** How a part of the manager's work on the height acts. *)
Record acts (bad : option ConsensusError) (votes : list Vote) (rp : replica)
    (res : result ConsensusError ShcReturn) (n' : ShcNode) (calls : trace) (rp' : replica) : Prop := {
  ac_driven : driven rp calls rp';
  ac_votes : votes_of calls `sublist_of` votes;
  ac_all : ∀ tasks, res = Ok (ShcTasks tasks) → votes_of calls = votes ∧ Forall goes_on calls;
  ac_node : rp'.(rp_node) = n';
  ac_started : rp'.(rp_started) = true;
  ac_tasks : ∀ tasks, res = Ok (ShcTasks tasks) → tasks ⊆ rp'.(rp_tasks);
  ac_decision : ∀ d, res = Ok (ShcDecision d) → ended_by bad calls (Some (ShcDecision d)) res;
  ac_error : ∀ e, res = Err e → ended_by bad calls None res;
}.

Lemma acts_call bad rp c res n' :
  own_call_allowed rp c → call c rp.(rp_node) = (res, n') → res ≠ Panic →
  acts bad (votes_of [(c, res)]) rp res n' [(c, res)] (after_call rp res n').
Proof.
  intros Ha Hc Hp. split; try done.
  - by apply driven_one.
  - intros tasks ->. split; [done|]. repeat constructor. by eexists.
  - intros tasks ->. simpl. set_solver.
  - intros d ->. left. exists [], c, (Ok (ShcDecision d)). split_and!; [done|constructor|eauto].
  - intros e ->. left. exists [], c, (Err e). split_and!; [done|constructor|done].
Qed.

Lemma acts_idle bad rp votes res :
  rp.(rp_started) = true →
  match res with
  | Ok (ShcTasks tasks) => tasks = [] ∧ votes = []
  | Err e => bad = Some e
  | _ => False
  end → acts bad votes rp res rp.(rp_node) [] rp.
Proof.
  intros Hs Hr. split; try done.
  - constructor.
  - apply sublist_nil_l.
  - intros tasks ->. destruct Hr as [_ ->]. by split.
  - intros tasks ->. destruct Hr as [-> _]. set_solver.
  - by intros d ->.
  - intros e ->. right. by exists e.
Qed.

Lemma ended_by_app {A} bad calls calls' ret (res : result ConsensusError A) :
  Forall goes_on calls → ended_by bad calls' ret res → ended_by bad (calls ++ calls') ret res.
Proof.
  intros Hg [(c0&c&res0&->&Hc0&Hr)|(e&->&->&Hc)]; [left|right].
  - exists (calls ++ c0), c, res0. rewrite (assoc_L app). split_and!; [done|by apply Forall_app|done].
  - exists e. split_and!; [done..|by apply Forall_app].
Qed.

Lemma acts_trans bad votes rp tasks1 n1 calls rp1 bad' votes' res n' calls' rp' :
  acts bad votes rp (Ok (ShcTasks tasks1)) n1 calls rp1 → acts bad' votes' rp1 res n' calls' rp' →
  acts bad' (votes ++ votes') rp res n' (calls ++ calls') rp'.
Proof.
  intros [Hd _ Hv _ _ _ _ _] [Hd' Hv' He' ? ? ? Hdec Herr]. destruct (Hv _ eq_refl) as [Hvv Hg].
  split; try done; rewrite ?votes_of_app, ?Hvv.
  - by eapply driven_trans.
  - by apply sublist_app.
  - intros tasks Ht. destruct (He' _ Ht) as [-> ?]. split; [done|]. by apply Forall_app.
  - intros d Hr. by apply ended_by_app, Hdec.
  - intros e Hr. by apply ended_by_app, (Herr e).
Qed.

(** Keeping the tasks that were pending before. *)
Lemma acts_add_tasks bad votes rp tasks new n' calls rp' :
  tasks ⊆ rp.(rp_tasks) → acts bad votes rp (Ok (ShcTasks new)) n' calls rp' →
  tasks ++ new ⊆ rp'.(rp_tasks).
Proof.
  intros Ht [Hd _ _ _ _ Hn _ _]. specialize (Hn new eq_refl). apply driven_tasks in Hd. set_solver.
Qed.

Lemma on_node_spec {A} (m : M ShcNode ConsensusError A) s (Q : result ConsensusError A → ManagerNode → Prop) :
  (∀ res n', m s.(mn_node) = (res, n') → Q res (set_mn_node n' s)) → wp (on_node m) s Q.
Proof. intros HQ. apply wp_zoom. unfold wp. apply HQ. by destruct (m _). Qed.

Lemma acts_weaken bad votes votes' rp res n' calls rp' :
  votes `sublist_of` votes' → (∀ tasks, res ≠ Ok (ShcTasks tasks)) →
  acts bad votes rp res n' calls rp' → acts bad votes' rp res n' calls rp'.
Proof.
  intros Hs Ht []. split; try done; [by etrans|]. intros tasks ->. by destruct (Ht tasks).
Qed.

(** The calls for cached messages do not change the manager. *)
Lemma handle_cached_spec {A} (f : A → M ShcNode ConsensusError ShcReturn) (c : A → shc_call) votes xs tasks rp s :
  (∀ x, f x = call (c x) ∧ ∀ rp, rp.(rp_started) = true → own_call_allowed rp (c x)) →
  votes = omap (λ x, match c x with CallVote vote => Some vote | _ => None end) xs →
  rp.(rp_node) = s.(mn_node) → rp.(rp_started) = true → tasks ⊆ rp.(rp_tasks) →
  wp (handle_cached f xs tasks) s (λ res s', res ≠ Panic →
    s'.(mn_manager) = s.(mn_manager) ∧ s'.(mn_net) = s.(mn_net) ∧
    ∃ calls rp', acts None votes rp res s'.(mn_node) calls rp').
Proof.
  intros Hf. revert votes tasks rp s. induction xs as [|x xs IH]; intros votes tasks rp s -> Hn Hs Ht.
  - intros _. split_and!; [done..|]. exists [], rp. cbn. rewrite <-Hn.
    split; try done; [apply driven_nil|by intros ? [= <-]].
  - destruct (Hf x) as [Hx Hallow]. cbn [handle_cached]. apply wp_bind, on_node_spec. intros res n' Hrun.
    rewrite Hx, <-Hn in Hrun. destruct (result_panics res) as [->|Hp]; [by intros []|].
    pose proof (acts_call None rp (c x) res n' (Hallow rp Hs) Hrun Hp) as Ha.
    set (votes := omap _ xs) in IH.
    assert (omap (λ x, match c x with CallVote vote => Some vote | _ => None end) (x :: xs) =
      votes_of [(c x, res)] ++ votes) as -> by (unfold votes, votes_of; simpl; by destruct (c x)).
    destruct res as [[new|d]|e|]; [|intros _; (split_and!; [done..|]); eexists _, _;
      (eapply acts_weaken; [by apply sublist_inserts_r|done|exact Ha])..|done].
    eapply wp_mono; [apply (IH votes _ (after_call rp (Ok (ShcTasks new)) n')); [done..|]|].
    + eapply acts_add_tasks; [done|exact Ha].
    + intros res s' Hw Hres. destruct (Hw Hres) as (Hg&Hnet&calls&rp'&Hact).
      split_and!; [done..|]. eexists _, rp'. by eapply acts_trans.
Qed.

(** What the network is told about the sender of a message, and the error that ends the height
    without a call to the consensus. *)
Definition net_of (input : select) : option NetworkCall :=
  match input with
  | SelMessage (Some (Some _, metadata)) => Some (NetContinuePropagation metadata)
  | SelMessage (Some (None, metadata)) => Some (NetReportPeer metadata)
  | _ => None
  end.

Definition input_error (input : select) : option ConsensusError :=
  match input with
  | SelMessage None => Some InternalNetworkError
  | SelMessage (Some (None, _)) => Some ProtobufConversionError
  | SelProposal FpEmpty _ | SelProposal FpClosed _ => Some InternalNetworkError
  | SelProposal (FpPart None) _ => Some ProtobufConversionError
  | _ => None
  end.

(** What a piece of the manager's work comes to. *)
Definition works votes used rp (s : ManagerNode) (res : result ConsensusError ShcReturn) s' : Prop :=
  res ≠ Panic →
  caches_grow height used s.(mn_manager) s'.(mn_manager) ∧
  s'.(mn_net) = s.(mn_net) ++ omap net_of used ∧
  ∃ calls rp', acts (last used ≫= input_error) votes rp res s'.(mn_node) calls rp'.

Lemma handle_cached_votes_spec tasks rp s :
  rp.(rp_node) = s.(mn_node) → rp.(rp_started) = true → tasks ⊆ rp.(rp_tasks) →
  wp (cached_votes ← get_current_height_votes height;
      handle_cached (shc_handle_vote proposer (broadcast_error height)) cached_votes tasks) s
    (works (cached_votes s.(mn_manager) height) [] rp s).
Proof.
  intros Hn Hs Ht. unfold wp. erewrite bind_run by apply get_current_height_votes_run.
  set (s1 := set_mn_manager _ s).
  eapply (wp_mono _ s1); [apply (handle_cached_spec _ CallVote (cached_votes s.(mn_manager) height) _ _ rp);
    [intros vote; by repeat split| |done..]|].
  - symmetry. unfold cached_votes. generalize (default [] (mhm_future_votes (mn_manager s) !! height)).
    intros l. induction l as [|vote l IH]; [done|]. simpl. by f_equal.
  - intros res s2 Hw Hp. destruct (Hw Hp) as (Hm&Hnet&Hact). split_and!; [|by rewrite app_nil_r|done].
    rewrite Hm. apply caches_grow_drop_votes.
Qed.

Lemma handle_cached_proposals_spec tasks rp s :
  rp.(rp_node) = s.(mn_node) → rp.(rp_started) = true → tasks ⊆ rp.(rp_tasks) →
  wp (cached_proposals ← get_current_height_proposals height;
      handle_cached (λ '(init, content), shc_handle_proposal proposer init content) cached_proposals tasks) s
    (λ res s', works [] [] rp s res s' ∧
      (res ≠ Panic → s'.(mn_manager).(mhm_future_votes) = s.(mn_manager).(mhm_future_votes))).
Proof.
  intros Hn Hs Ht. unfold wp. erewrite bind_run by apply get_current_height_proposals_run.
  set (s1 := set_mn_manager _ s). set (l := BTreeMap.values _).
  eapply (wp_mono _ s1).
  { apply (handle_cached_spec _ (λ '(init, content), CallProposal init content) [] _ _ rp); [| |done..].
    - intros []. by repeat split.
    - clear. induction l as [|[] l IH]; [done|]. exact IH. }
  intros res s2 Hw. split; [|intros [-> _]%Hw; done].
  intros (Hm&Hnet&Hact)%Hw. split_and!; [|by rewrite app_nil_r|done].
  rewrite Hm. apply caches_grow_drop_proposals.
Qed.

Lemma works_trans bad votes used rp s tasks1 s1 calls rp1 votes' res s' :
  used = [] → caches_grow height used s.(mn_manager) s1.(mn_manager) → s1.(mn_net) = s.(mn_net) →
  acts bad votes rp (Ok (ShcTasks tasks1)) s1.(mn_node) calls rp1 →
  works votes' [] rp1 s1 res s' → works (votes ++ votes') [] rp s res s'.
Proof.
  intros -> Hg Hnet Hact Hw Hp. destruct (Hw Hp) as (Hg'&Hnet'&calls'&rp'&Hact'). split_and!.
  - apply (caches_grow_trans height [] _ [] _ _ Hg Hg').
  - congruence.
  - eexists _, rp'. by eapply acts_trans.
Qed.

Lemma start_height_spec rp s :
  rp.(rp_node) = s.(mn_node) → rp.(rp_started) = false →
  wp (start_height proposer broadcast_error height) s
    (works (cached_votes s.(mn_manager) height) [] rp s).
Proof.
  intros Hn Hs. unfold start_height. apply wp_bind, on_node_spec. intros res n' Hrun.
  rewrite <-Hn in Hrun. destruct (result_panics res) as [->|Hp]; [by intros []|].
  pose proof (acts_call None rp CallStart res n' ltac:(done) Hrun Hp) as Ha. unfold votes_of in Ha; simpl in Ha.
  destruct res as [[tasks|d]|e|]; [|intros _; (split_and!; [apply caches_grow_refl|by rewrite app_nil_r|]);
      eexists _, _; (eapply acts_weaken; [apply sublist_nil_l|done|exact Ha])..|done].
  eapply (wp_mono _ _ (works _ [] (after_call rp (Ok (ShcTasks tasks)) n') (set_mn_node n' s)));
    [|intros res s'; apply (works_trans None [] [] _ _ tasks (set_mn_node n' s) [(CallStart, Ok (ShcTasks tasks))]);
      [done|apply caches_grow_refl|done|exact Ha]].
  set (rp1 := after_call _ _ _). set (s1 := set_mn_node n' s). unfold wp.
  rewrite <-bind_assoc. apply wp_bind. eapply wp_mono.
  { apply (handle_cached_proposals_spec tasks rp1); [done..|]. by apply (ac_tasks _ _ _ _ _ _ _ Ha). }
  intros res s2 [Hw Hfv]. destruct (result_panics res) as [->|Hp2]; [by intros []|].
  specialize (Hfv Hp2). destruct (Hw Hp2) as (Hg&Hnet&calls2&rp2&Hact).
  destruct res as [[tasks2|d]|e|]; [|intros _; (split_and!; [done..|]); exists calls2, rp2;
      (eapply acts_weaken; [apply sublist_nil_l|done|exact Hact])..|done].
  eapply wp_mono; [apply (handle_cached_votes_spec tasks2 rp2)|].
  - by rewrite (ac_node _ _ _ _ _ _ _ Hact).
  - by apply (ac_started _ _ _ _ _ _ _ Hact).
  - by apply (ac_tasks _ _ _ _ _ _ _ Hact).
  - intros res s3. unfold cached_votes at 1. rewrite Hfv. eapply (works_trans _ [] []); [done..| |done].
    simpl in Hnet. by rewrite app_nil_r in Hnet.
Qed.

(** An input that is not for a later height. *)
Definition not_later (input : select) : Prop :=
  ∀ k, height < k → vote_for k input = None ∧ ∀ r, proposal_for k r input = None.

Lemma not_later_grow input m : not_later input → caches_grow height [input] m m.
Proof. intros Hl. apply caches_grow_none; intros k; intros; by apply Hl. Qed.

(** A branch that makes a call, and one that makes none. *)
Lemma call_works c input rp s :
  own_call_allowed rp c → (∀ res, votes_of [(c, res)] = omap (vote_for height) [input]) →
  not_later input → net_of input = None → rp.(rp_node) = s.(mn_node) →
  wp (on_node (call c)) s (works (omap (vote_for height) [input]) [input] rp s).
Proof.
  intros Hc Hv Hl Hnet Hn. apply on_node_spec. intros res n' Hrun Hp. rewrite <-Hn in Hrun.
  split_and!; [by apply not_later_grow|simpl; by rewrite Hnet, app_nil_r|].
  eexists _, _. rewrite <-(Hv res). by apply acts_call.
Qed.

Lemma idle_works input rp s res s' :
  rp.(rp_started) = true → rp.(rp_node) = s'.(mn_node) →
  match res with
  | Ok (ShcTasks tasks) => tasks = [] ∧ omap (vote_for height) [input] = []
  | Err e => input_error input = Some e
  | _ => False
  end →
  caches_grow height [input] s.(mn_manager) s'.(mn_manager) →
  s'.(mn_net) = s.(mn_net) ++ omap net_of [input] →
  works (omap (vote_for height) [input]) [input] rp s res s'.
Proof.
  intros Hs Hn Hr Hg Hnet _. split_and!; [done..|]. exists [], rp. rewrite <-Hn. by apply acts_idle.
Qed.

Lemma mgr_handle_vote_spec message rp s :
  rp.(rp_node) = s.(mn_node) → rp.(rp_started) = true →
  wp (mgr_handle_vote proposer broadcast_error height message) s
    (works (omap (vote_for height) [SelMessage message]) [SelMessage message] rp s).
Proof.
  intros Hn Hs. unfold mgr_handle_vote.
  destruct message as [[[vote|] metadata]|];
    [|by apply idle_works; try done; apply not_later_grow
     |by apply idle_works; try done; [apply not_later_grow|simpl; rewrite app_nil_r]].
  apply wp_modify.
  destruct (N.compare_spec vote.(vote_height) height) as [Heq|Hlt|Hgt].
  - apply on_node_spec. intros res n' Hrun Hp. cbn in Hrun. rewrite <-Hn in Hrun. split_and!; [|done|].
    + apply not_later_grow. intros k Hk. split; [|done]. simpl. rewrite decide_False; [done|lia].
    + eexists _, _. simpl. rewrite decide_True by done.
      exact (acts_call _ rp (CallVote vote) res n' ltac:(done) Hrun Hp).
  - apply idle_works; try done; [simpl; by rewrite decide_False by lia|].
    apply not_later_grow. intros k Hk. split; [|done]. simpl. rewrite decide_False; [done|lia].
  - apply idle_works; try done; [simpl; by rewrite decide_False by lia|]. apply caches_grow_vote.
Qed.

Lemma mgr_handle_proposal_spec first_part content rp s :
  rp.(rp_node) = s.(mn_node) → rp.(rp_started) = true →
  wp (mgr_handle_proposal proposer height first_part content) s
    (works (omap (vote_for height) [SelProposal first_part content]) [SelProposal first_part content] rp s).
Proof.
  intros Hn Hs. unfold mgr_handle_proposal.
  destruct first_part as [| |[init|]];
    try (by apply idle_works; try done; [apply not_later_grow|simpl; rewrite app_nil_r]).
  destruct (N.compare_spec init.(pi_height) height) as [Heq|Hlt|Hgt].
  - apply (call_works (CallProposal init content)); try done.
    intros k Hk. split; [done|]. intros r. simpl. rewrite decide_False; [done|lia].
  - apply idle_works; try done; [|simpl; by rewrite app_nil_r]. apply not_later_grow. intros k Hk.
    split; [done|]. intros r. simpl. rewrite decide_False; [done|lia].
  - apply idle_works; try done; [apply caches_grow_proposal|simpl; by rewrite app_nil_r].
Qed.

Lemma select_branch_spec tasks input handle tasks' rp s :
  select_branch proposer broadcast_error height tasks input = Some (handle, tasks') →
  rp.(rp_node) = s.(mn_node) → rp.(rp_started) = true → tasks ⊆ rp.(rp_tasks) →
  wp handle s (works (omap (vote_for height) [input]) [input] rp s) ∧ tasks' ⊆ rp.(rp_tasks).
Proof.
  intros Hb Hn Hs Ht. destruct input as [message|first_part content|k built validated|learned]; simpl in Hb.
  - injection Hb as <- <-. split; [by apply mgr_handle_vote_spec|done].
  - injection Hb as <- <-. split; [by apply mgr_handle_proposal_spec|done].
  - destruct (tasks !! k) as [task|] eqn:Htask; [|done]. injection Hb as <- <-. split.
    + apply (call_works (CallTask task built validated)); try done. split; [done|].
      apply Ht. by eapply list_elem_of_lookup_2.
    + etrans; [|done]. apply sublist_subseteq, sublist_delete.
  - done.
Qed.

(** What a height comes to: a decision that the last call to its consensus returned; sync, when
    that is the last input; waiting for more inputs with tasks that the calls returned; or an
    error, which the last call returned or which is that of the last input. *)
Definition outcome_ok (res : result ConsensusError height_outcome) (used rest : list select) (calls : trace)
    (rp' : replica) : Prop :=
  match res with
  | Ok (HeightDone (RunDecision d) rest') =>
      rest = rest' ∧ ended_by None calls (Some (ShcDecision d)) res
  | Ok (HeightDone (RunSync h) rest') =>
      h = height ∧ rest = rest' ∧ Forall goes_on calls ∧ last used = Some (SelSync true)
  | Ok (HeightWaits tasks) =>
      rest = [] ∧ Forall goes_on calls ∧ SelSync true ∉ used ∧ tasks ⊆ rp'.(rp_tasks)
  | Err e => ended_by (last used ≫= input_error) calls None res
  | Panic => False
  end.

(** The inputs [used] were received, [calls] were made, and they account for the new state. *)
Record height_ran votes rp (s : ManagerNode) inputs used calls rp'
    (res : result ConsensusError height_outcome) (s' : ManagerNode) : Prop := {
  hr_inputs : ∃ rest, inputs = used ++ rest ∧ outcome_ok res used rest calls rp';
  hr_caches : caches_grow height used s.(mn_manager) s'.(mn_manager);
  hr_net : s'.(mn_net) = s.(mn_net) ++ omap net_of used;
  hr_driven : driven rp calls rp';
  hr_votes : votes_of calls `sublist_of` votes ++ omap (vote_for height) used;
  hr_all : ∀ tasks, res = Ok (HeightWaits tasks) → votes_of calls = votes ++ omap (vote_for height) used;
  hr_node : rp'.(rp_node) = s'.(mn_node);
}.

Definition height_runs votes rp s inputs res s' : Prop :=
  res ≠ Panic → ∃ used calls rp', height_ran votes rp s inputs used calls rp' res s'.

(** A call that decides or fails ends the height. *)
Lemma works_end votes votes0 rp s inputs used rest res s' (out : result ConsensusError height_outcome) :
  works votes used rp s res s' → inputs = used ++ rest →
  match res, out with
  | Ok (ShcDecision d), Ok (HeightDone (RunDecision d') rest') => d = d' ∧ rest = rest'
  | Err e, Err e' => e = e'
  | _, _ => False
  end →
  votes = votes0 ++ omap (vote_for height) used → height_runs votes0 rp s inputs out s'.
Proof.
  intros Hw Hin Hout Hv _. assert (res ≠ Panic) as Hp by (by intros ->).
  destruct (Hw Hp) as (Hg&Hnet&calls&rp'&Hact). exists used, calls, rp'.
  pose proof Hact as [Hd Hcv _ Hn _ _ Hdec Herr]. split; try done.
  - exists rest. split; [done|]. destruct res as [[|d]|e|], out as [[[d'|]|]|e'|]; try done.
    + destruct Hout as [<- <-]. split; [done|].
      destruct (Hdec d eq_refl) as [Hl|(e&[=]&_)]. by left.
    + subst e'. destruct (Herr e eq_refl) as [Hl|(e'&[= <-]&He)]; [by left|]. right. by exists e.
  - by rewrite <-Hv.
  - by intros tasks ->; destruct res as [[]| |].
Qed.

Lemma works_then votes bad rp s used calls rp1 s1 tasks1 inputs' res s' votes0 :
  caches_grow height used s.(mn_manager) s1.(mn_manager) →
  s1.(mn_net) = s.(mn_net) ++ omap net_of used →
  acts bad votes rp (Ok (ShcTasks tasks1)) s1.(mn_node) calls rp1 →
  votes = votes0 ++ omap (vote_for height) used → SelSync true ∉ used →
  height_runs [] rp1 s1 inputs' res s' → height_runs votes0 rp s (used ++ inputs') res s'.
Proof.
  intros Hg Hnet [Hd _ Hcv Hn _ _ _ _] Hv Hsync Hrun Hp. destruct (Hcv _ eq_refl) as [Hcv' Hgo].
  destruct (Hrun Hp) as (used'&calls'&rp'&[(rest&->&Ho) Hg' Hnet' Hd' Hv' Hall' Hn']).
  exists (used ++ used'), (calls ++ calls'), rp'. split; try done.
  - exists rest. rewrite (assoc_L app). split; [done|]. destruct res as [[[d|h] rest'|tasks]|e|]; try done.
    + destruct Ho as (->&He). split; [done|]. by apply ended_by_app.
    + destruct Ho as (->&->&?&Hl). split_and!; [done|done|by apply Forall_app|].
      by rewrite last_app, Hl.
    + destruct Ho as (->&?&?&?). split_and!; [done|by apply Forall_app|set_solver|done].
    + simpl in *. rewrite last_app. apply ended_by_app; [done|].
      destruct Ho as [Hl|(e'&He&Hb&Hc)]; [by left|right]. exists e'. by destruct (last used').
  - by eapply caches_grow_trans.
  - by rewrite Hnet', Hnet, omap_app, (assoc_L app).
  - by eapply driven_trans.
  - rewrite votes_of_app, omap_app, (assoc_L app), Hcv', Hv. by apply sublist_app.
  - intros tasks Ht. by rewrite votes_of_app, omap_app, (assoc_L app), Hcv', Hv, (Hall' _ Ht).
Qed.

Definition loop_ok inputs : Prop := ∀ tasks rp s,
  rp.(rp_node) = s.(mn_node) → rp.(rp_started) = true → tasks ⊆ rp.(rp_tasks) →
  wp (run_height_loop proposer broadcast_error height tasks inputs) s (height_runs [] rp s inputs).

(** A turn that handles an input, and one that has nothing to handle. *)
Lemma handle_turn handle tasks input inputs rp s :
  loop_ok inputs → wp handle s (works (omap (vote_for height) [input]) [input] rp s) →
  tasks ⊆ rp.(rp_tasks) → SelSync true ≠ input →
  wp (shc_return ← handle;
      match shc_return with
      | ShcDecision decision => mret (HeightDone (RunDecision decision) inputs)
      | ShcTasks new_tasks =>
          run_height_loop proposer broadcast_error height (tasks ++ new_tasks) inputs
      end) s (height_runs [] rp s (input :: inputs)).
Proof.
  intros IH Hw Ht Hsync. apply wp_bind. eapply wp_mono; [exact Hw|]. clear Hw. intros res s1 Hw.
  destruct (result_panics res) as [->|Hp]; [by intros []|].
  destruct res as [[new|d]|e|]; [| | |done].
  - destruct (Hw Hp) as (Hg&Hnet&calls&rp1&Hact).
    eapply wp_mono; [apply (IH _ rp1)|].
    + apply (ac_node _ _ _ _ _ _ _ Hact).
    + apply (ac_started _ _ _ _ _ _ _ Hact).
    + by eapply acts_add_tasks.
    + intros res s'. eapply (works_then (omap (vote_for height) [input]) _ rp s [input] calls rp1 s1
        new inputs); [done..|]. set_solver.
  - by eapply (works_end _ [] _ _ _ [input] inputs); [exact Hw|..].
  - by eapply (works_end _ [] _ _ _ [input] inputs); [exact Hw|..].
Qed.

Lemma skip_turn tasks input inputs rp s :
  loop_ok inputs → not_later input → vote_for height input = None → net_of input = None →
  SelSync true ≠ input →
  rp.(rp_node) = s.(mn_node) → rp.(rp_started) = true → tasks ⊆ rp.(rp_tasks) →
  wp (run_height_loop proposer broadcast_error height tasks inputs) s (height_runs [] rp s (input :: inputs)).
Proof.
  intros IH Hl Hv Hnet Hsync Hn Hs Ht. eapply wp_mono; [by apply (IH tasks rp)|]. intros res s' Hr.
  change (input :: inputs) with ([input] ++ inputs).
  eapply (works_then [] None rp s [input] [] rp s []); [| | |by simpl; rewrite Hv|set_solver|done].
  - by apply not_later_grow.
  - simpl. by rewrite Hnet, app_nil_r.
  - rewrite <-Hn. by apply acts_idle.
Qed.

Lemma run_height_loop_spec inputs : loop_ok inputs.
Proof.
  induction inputs as [|input inputs IH]; intros tasks rp s Hn Hs Ht.
  { intros _. exists [], [], rp.
    split; try done; [|apply caches_grow_refl|by rewrite app_nil_r|apply driven_nil].
    exists []. split; [done|]. cbn. split_and!; [done|constructor|set_solver|done]. }
  pose proof (λ handle tasks' Hb, select_branch_spec tasks input handle tasks' rp s Hb Hn Hs Ht) as Hspec.
  cbn [run_height_loop].
  destruct input as [message|first_part content|k built validated|[]].
  - destruct (Hspec _ _ eq_refl). by apply handle_turn.
  - destruct (Hspec _ _ eq_refl). by apply handle_turn.
  - destruct (select_branch _ _ _ tasks _) as [[handle tasks']|] eqn:Hb.
    + destruct (Hspec _ _ eq_refl). by apply handle_turn.
    + by apply skip_turn.
  - intros _. exists [SelSync true], [], rp.
    split; try done; [by exists inputs|by apply not_later_grow|simpl; by rewrite app_nil_r|apply driven_nil].
  - by apply skip_turn.
Qed.

Lemma run_height_body_spec inputs rp s :
  rp.(rp_node) = s.(mn_node) → rp.(rp_started) = false →
  wp (run_height_body proposer broadcast_error height inputs) s
    (height_runs (cached_votes s.(mn_manager) height) rp s inputs).
Proof.
  intros Hn Hs. unfold run_height_body. apply wp_bind.
  eapply wp_mono; [by apply start_height_spec|]. intros res s1 Hw.
  destruct (result_panics res) as [->|Hp]; [by intros []|].
  assert (cached_votes s.(mn_manager) height =
    cached_votes s.(mn_manager) height ++ omap (vote_for height) []) as Hv by (simpl; by rewrite app_nil_r).
  destruct res as [[tasks|d]|e|]; [|by eapply (works_end _ _ _ _ _ [] inputs); [exact Hw|..]..|done].
  destruct (Hw Hp) as (Hg&Hnet&calls&rp1&Hact).
  eapply wp_mono; [apply (run_height_loop_spec inputs tasks rp1); by apply Hact|]. intros res s2.
  eapply (works_then _ _ rp s [] calls rp1 s1 tasks inputs); [done..|set_solver].
Qed.
End driving.

(** ** Heights *)

Section heights.
Context (proposer : BlockNumber → Round → ValidatorId).
Context (broadcast_error : BlockNumber → list ContextCall → Vote → option ConsensusError).
Context (validators : BlockNumber → list ValidatorId).
Context (decision_error : BlockNumber → ConsensusDecision → option ConsensusError).

(** A node before a height is started. *)
Definition fresh_replica (s : SingleHeightConsensus) : replica :=
  {| rp_node := {| shc := s; ctx_log := [] |}; rp_started := false; rp_tasks := []; rp_decisions := [] |}.

Lemma run_height_spec height must_observer inputs s res s' :
  run_height proposer broadcast_error validators height must_observer inputs s = (res, s') →
  res ≠ Panic →
  ∃ shc0 used rest calls rp',
    SingleHeightConsensus_new height
      (is_observer (validators height) (λ _, must_observer) s.(cs_manager).(mhm_validator_id))
      s.(cs_manager).(mhm_validator_id) (validators height) s.(cs_manager).(mhm_timeouts) = Some shc0 ∧
    inputs = used ++ rest ∧ outcome_ok height res used rest calls rp' ∧
    caches_grow height used s.(cs_manager) s'.(cs_manager) ∧
    s'.(cs_net) = s.(cs_net) ++ omap net_of used ∧
    driven proposer broadcast_error height (fresh_replica shc0) calls rp' ∧
    votes_of calls `sublist_of` cached_votes s.(cs_manager) height ++ omap (vote_for height) used ∧
    (∀ tasks, res = Ok (HeightWaits tasks) →
      votes_of calls = cached_votes s.(cs_manager) height ++ omap (vote_for height) used) ∧
    s'.(cs_calls) = s.(cs_calls) ++ [(height, rp'.(rp_node).(ctx_log))] ∧
    s'.(cs_decisions) = s.(cs_decisions).
Proof.
  unfold run_height. intros Hrun Hp. destruct (SingleHeightConsensus_new _ _ _ _ _) as [shc0|]; [|by simplify_eq].
  set (s0 := {| mn_manager := _ |}) in Hrun.
  pose proof (run_height_body_spec proposer broadcast_error height inputs (fresh_replica shc0) s0
    eq_refl eq_refl) as Hspec. unfold wp in Hspec.
  destruct (run_height_body _ _ _ _ s0) as [r s1]. injection Hrun as -> <-.
  destruct (Hspec Hp) as (used&calls&rp'&[(rest&Hin&Ho) Hg Hnet Hd Hv Hall Hn]).
  exists shc0, used, rest, calls, rp'. simpl. rewrite Hn. by split_and!.
Qed.

(** *** More inputs *)

(** A height that waits goes on with the inputs that come next, and one that is done leaves
    them. *)
Lemma run_height_loop_app height tasks pre more s :
  run_height_loop proposer broadcast_error height tasks (pre ++ more) s =
    match run_height_loop proposer broadcast_error height tasks pre s with
    | (Ok (HeightWaits tasks'), s') => run_height_loop proposer broadcast_error height tasks' more s'
    | (Ok (HeightDone res rest), s') => (Ok (HeightDone res (rest ++ more)), s')
    | r => r
    end.
Proof.
  revert tasks s. induction pre as [|input pre IH]; intros tasks s; [done|].
  assert (∀ handle tasks', (shc_return ← handle;
      match shc_return with
      | ShcDecision decision => mret (HeightDone (RunDecision decision) (pre ++ more))
      | ShcTasks new_tasks => run_height_loop proposer broadcast_error height (tasks' ++ new_tasks) (pre ++ more)
      end) s =
    match (shc_return ← handle;
      match shc_return with
      | ShcDecision decision => mret (HeightDone (RunDecision decision) pre)
      | ShcTasks new_tasks => run_height_loop proposer broadcast_error height (tasks' ++ new_tasks) pre
      end) s with
    | (Ok (HeightWaits tasks'), s') => run_height_loop proposer broadcast_error height tasks' more s'
    | (Ok (HeightDone res rest), s') => (Ok (HeightDone res (rest ++ more)), s')
    | r => r
    end) as Hturn.
  { intros handle tasks'. unfold mbind, M_bind. destruct (handle s) as [[[new|d]|e|] s1]; [apply IH|done..]. }
  cbn [run_height_loop app]. destruct input as [message|fp content|k built validated|[]]; [| |..|apply IH].
  - apply Hturn.
  - apply Hturn.
  - destruct (select_branch _ _ _ tasks _) as [[handle tasks']|]; [apply Hturn|apply IH].
  - done.
Qed.

Lemma run_height_body_app height pre more s :
  run_height_body proposer broadcast_error height (pre ++ more) s =
    match run_height_body proposer broadcast_error height pre s with
    | (Ok (HeightWaits tasks'), s') => run_height_loop proposer broadcast_error height tasks' more s'
    | (Ok (HeightDone res rest), s') => (Ok (HeightDone res (rest ++ more)), s')
    | r => r
    end.
Proof.
  unfold run_height_body, mbind, M_bind.
  destruct (start_height _ _ _ s) as [[[tasks|d]|e|] s1]; [apply run_height_loop_app|done..].
Qed.

(** Consensus, run for at most [n] heights on [inputs], waits for input at [height]: [tasks] are
    pending and [node] is the state of the height. *)
Inductive waits_at (start_active : BlockNumber) : nat → BlockNumber → list select → Consensus →
    BlockNumber → list ShcTask → ManagerNode → Prop :=
| waits_now n height inputs s shc0 tasks node :
    SingleHeightConsensus_new height
      (is_observer (validators height) (λ _, bool_decide (height < start_active)) s.(cs_manager).(mhm_validator_id))
      s.(cs_manager).(mhm_validator_id) (validators height) s.(cs_manager).(mhm_timeouts) = Some shc0 →
    run_height_body proposer broadcast_error height inputs
      {| mn_manager := s.(cs_manager); mn_net := s.(cs_net);
         mn_node := {| shc := shc0; ctx_log := [] |} |} = (Ok (HeightWaits tasks), node) →
    waits_at start_active (S n) height inputs s height tasks node
| waits_decided n current inputs s d rest s1 s2 height tasks node :
    run_height proposer broadcast_error validators current (bool_decide (current < start_active)) inputs s =
      (Ok (HeightDone (RunDecision d) rest), s1) →
    decision_reached decision_error current d s1 = (Ok tt, s2) → current + 1 ≤ u64_max →
    waits_at start_active n (current + 1) rest s2 height tasks node →
    waits_at start_active (S n) current inputs s height tasks node
| waits_synced n current inputs s rest s1 height tasks node :
    run_height proposer broadcast_error validators current (bool_decide (current < start_active)) inputs s =
      (Ok (HeightDone (RunSync current) rest), s1) → current + 1 ≤ u64_max →
    waits_at start_active n (current + 1) rest s1 height tasks node →
    waits_at start_active (S n) current inputs s height tasks node.

Lemma run_height_app current must_observer inputs more res rest s s1 :
  run_height proposer broadcast_error validators current must_observer inputs s =
    (Ok (HeightDone res rest), s1) →
  run_height proposer broadcast_error validators current must_observer (inputs ++ more) s =
    (Ok (HeightDone res (rest ++ more)), s1).
Proof.
  unfold run_height. destruct (SingleHeightConsensus_new _ _ _ _ _) as [shc0|]; [|done].
  rewrite run_height_body_app. destruct (run_height_body _ _ _ inputs _) as [[[]|e|] s2]; try done.
  intros [= -> -> <-]. done.
Qed.

Lemma checked_next_height current : current + 1 ≤ u64_max → checked_add u64_max current 1 = Some (current + 1).
Proof. intros Hle. unfold checked_add. by rewrite decide_True. Qed.

(** When the height that waits fails on the next input, the run of consensus fails. *)
Lemma waits_then_fails start_active n current pre s height tasks node input rest e node' :
  waits_at start_active n current pre s height tasks node →
  run_height_loop proposer broadcast_error height tasks (input :: rest) node = (Err e, node') →
  (run_consensus_loop proposer broadcast_error validators decision_error n start_active current
    (pre ++ input :: rest) s).1 = Err e.
Proof.
  intros Hw Hfail. induction Hw as [n height inputs s shc0 tasks node Hnew Hrun|
    n current inputs s d rest' s1 s2 height tasks node Hrun Hdec Hle Hw IH|
    n current inputs s rest' s1 height tasks node Hrun Hle Hw IH]; cbn [run_consensus_loop].
  - unfold mbind, M_bind, run_height. rewrite Hnew, run_height_body_app, Hrun, Hfail. done.
  - erewrite bind_run by (by apply run_height_app). cbn beta iota. erewrite bind_run by done.
    rewrite checked_next_height by done. mstep. by apply IH.
  - erewrite bind_run by (by apply run_height_app). cbn beta iota.
    rewrite checked_next_height by done. mstep. by apply IH.
Qed.

(** Messages that a node refuses: they do not parse, they are a proposal that does not come from
    the leader of its round, or a vote of a validator who has cast another one. *)
Inductive refused height (node : SingleHeightConsensus) : select → ConsensusError → Prop :=
| refused_vote metadata : refused height node (SelMessage (Some (None, metadata))) ProtobufConversionError
| refused_part content : refused height node (SelProposal (FpPart None) content) ProtobufConversionError
| refused_proposal init content :
    init.(pi_height) = height →
    init.(pi_proposer) ≠ proposer node.(shc_height) init.(pi_round) →
    refused height node (SelProposal (FpPart (Some init)) content)
      (InvalidProposal (proposer node.(shc_height) init.(pi_round)) node.(shc_height))
| refused_equivocation vote old metadata :
    vote.(vote_height) = height → vote.(voter) ∈ node.(shc_validators) →
    get_votes vote.(vote_type) node !! (vote.(vote_round), vote.(voter)) = Some old →
    old.(block_hash) ≠ vote.(block_hash) →
    refused height node (SelMessage (Some (Some vote, metadata))) (Equivocation node.(shc_height) old vote).

Lemma refused_fails height tasks rest input e s :
  refused height s.(mn_node).(shc) input e →
  ∃ s', run_height_loop proposer broadcast_error height tasks (input :: rest) s = (Err e, s').
Proof.
  clear validators decision_error. destruct 1 as [metadata|content|init content Hh Hp|vote old metadata Hh Hval Hold Hne];
    cbn [run_height_loop select_branch].
  - eexists. reflexivity.
  - eexists. reflexivity.
  - unfold mgr_handle_proposal. rewrite Hh, N.compare_refl.
    unfold mbind, M_bind, on_node, zoom, shc_handle_proposal, get_shc. mstep.
    case_decide; [|rewrite decide_True by done]; eexists; reflexivity.
  - unfold mgr_handle_vote, net_call. mstep. rewrite Hh, N.compare_refl.
    unfold mbind, M_bind, on_node, zoom, shc_handle_vote, get_shc. mstep. simpl.
    rewrite decide_False by tauto. rewrite Hold, decide_True by done. eexists; reflexivity.
Qed.

(** *** Many heights *)

(** The heights that were run from [current] on, and those decided among them. *)
Definition heights_from current (s s' : Consensus) : Prop :=
  ∃ decided run, s'.(cs_decisions) = s.(cs_decisions) ++ decided ∧ s'.(cs_calls) = s.(cs_calls) ++ run ∧
    StronglySorted N.lt decided.*1 ∧ StronglySorted N.lt run.*1 ∧ decided.*1 ⊆ run.*1 ∧
    Forall (λ h, current ≤ h) run.*1.

Lemma heights_refl current s : heights_from current s s.
Proof. exists [], []. rewrite !app_nil_r. split_and!; by try constructor. Qed.

Lemma sorted_after (l : list BlockNumber) current :
  StronglySorted N.lt l → Forall (λ h, current + 1 ≤ h) l → StronglySorted N.lt (current :: l).
Proof. intros Hs Hf. constructor; [done|]. eapply Forall_impl; [exact Hf|]. simpl. lia. Qed.

Lemma heights_cons current s s1 s' log decided :
  s1.(cs_calls) = s.(cs_calls) ++ [(current, log)] → decided = [] ∨ (∃ d, decided = [(current, d)]) →
  s1.(cs_decisions) = s.(cs_decisions) ++ decided → heights_from (current + 1) s1 s' →
  heights_from current s s'.
Proof.
  intros Hc Hdec Hd (decided'&run'&Hd'&Hc'&Hs1&Hs2&Hsub&Hge).
  assert (Forall (λ h, current + 1 ≤ h) decided'.*1) as Hge'.
  { rewrite Forall_forall in *. intros h Hh. by apply Hge, Hsub. }
  exists (decided ++ decided'), ((current, log) :: run').
  rewrite Hd', Hd, Hc', Hc, <-!(assoc_L app). split_and!; [done|done|..].
  - destruct Hdec as [->|[d ->]]; [done|]. by apply sorted_after.
  - by apply sorted_after.
  - destruct Hdec as [->|[d ->]]; simpl; set_solver.
  - constructor; [simpl; lia|]. eapply Forall_impl; [exact Hge|]. simpl. lia.
Qed.

Lemma checked_next current next : checked_add u64_max current 1 = Some next → next = current + 1.
Proof. unfold checked_add. case_decide; [|done]. by intros [= <-]. Qed.

Lemma run_consensus_loop_spec n start_active current inputs s :
  wp (run_consensus_loop proposer broadcast_error validators decision_error n start_active current inputs) s
    (λ res s', res ≠ Panic → heights_from current s s').
Proof.
  revert current inputs s. induction n as [|n IH]; intros current inputs s.
  { intros _. apply heights_refl. }
  cbn [run_consensus_loop]. apply wp_bind. unfold wp at 1.
  destruct (run_height _ _ _ _ _ _ s) as [out s1] eqn:Hrun. cbn [fst snd].
  destruct (result_panics out) as [->|Hout]; [by intros []|].
  destruct (run_height_spec _ _ _ _ _ _ Hrun Hout) as (?&?&rest&?&rp'&_&_&Ho&_&_&_&_&_&Hcalls&Hdec).
  assert (∀ s', heights_from (current + 1) s1 s' → heights_from current s s') as Hnext.
  { intros s'. apply (heights_cons _ _ _ _ _ [] Hcalls); [by left|by rewrite app_nil_r]. }
  destruct out as [[[d|h] rest'|tasks]|e|]; [..|intros _; apply Hnext, heights_refl|done].
  - set (s2 := {| cs_manager := s1.(cs_manager); cs_net := s1.(cs_net); cs_calls := s1.(cs_calls);
      cs_decisions := s1.(cs_decisions) ++ [(current, d)] |}).
    assert (∀ s', heights_from (current + 1) s2 s' → heights_from current s s') as Hnext2.
    { intros s'. apply (heights_cons _ _ s2 _ _ [(current, d)] Hcalls); [eauto|by simpl; rewrite Hdec]. }
    unfold decision_reached, wp. mstep. fold s2.
    destruct (decision_error current d); [intros _; apply Hnext2, heights_refl|].
    cbn beta iota. destruct (checked_add u64_max current 1) as [next|] eqn:Hn; mstep; [|by intros []].
    apply checked_next in Hn as ->. intros Hp. by apply Hnext2, (IH (current + 1) rest' s2).
  - destruct Ho as [-> _]. unfold wp.
    destruct (checked_add u64_max current 1) as [next|] eqn:Hn; mstep; [|by intros []].
    apply checked_next in Hn as ->. intros Hp. by apply Hnext, (IH (current + 1) rest' s1).
  - intros _. apply Hnext, heights_refl.
Qed.
End heights.

(** ** Stated properties *)

(** A node that is the only validator: it is the leader of every round and decides alone. *)
Module ManagerScenario.
Definition proposer (_ : BlockNumber) (_ : Round) : ValidatorId := 0.
Definition broadcast_error (_ : BlockNumber) (_ : list ContextCall) (_ : Vote) : option ConsensusError := None.
Definition validators (_ : BlockNumber) : list ValidatorId := [0].
Definition decision_error (_ : BlockNumber) (_ : ConsensusDecision) : option ConsensusError := None.
Definition later_vote := {| vote_type := VtPrevote; vote_height := 6; vote_round := 0;
  block_hash := Some 8; voter := 0 |}.
Definition later_init := {| pi_height := 6; pi_round := 2; pi_valid_round := None; pi_proposer := 0 |}.
(** A vote and two proposals for height 6 arrive before height 5 is decided. *)
Definition inputs : list select :=
  [SelMessage (Some (Some later_vote, 1)); SelProposal (FpPart (Some later_init)) 3;
   SelProposal (FpPart (Some later_init)) 4; SelTask 0 (Some 7) None;
   SelSync true; SelTask 0 (Some 9) None].
Definition start : Consensus := {|
  cs_manager := MultiHeightManager_new 0 {| proposal_timeout := 3; prevote_timeout := 1; precommit_timeout := 1 |};
  cs_net := []; cs_calls := []; cs_decisions := [] |}.
Definition decision : ConsensusDecision := {|
  dec_precommits := [{| vote_type := VtPrecommit; vote_height := 5; vote_round := 0;
                        block_hash := Some 7; voter := 0 |}];
  dec_block := 7 |}.

Definition ran := run_height proposer broadcast_error validators 5 false inputs start.

Lemma ran_result : ran.1 = Ok (HeightDone (RunDecision decision) [SelSync true; SelTask 0 (Some 9) None]).
Proof. vm_compute. reflexivity. Qed.

Lemma ran_votes : cached_votes ran.2.(cs_manager) 6 = [later_vote] ∧
  cached_proposal ran.2.(cs_manager) 6 2 = Some (later_init, 3).
Proof. split; vm_compute; reflexivity. Qed.

(** After height 5 is decided and height 6 is synced, the node waits at height 7. *)
Definition ran5 := run_height proposer broadcast_error validators 5 false (take 5 inputs) start.
Definition decided5 := decision_reached decision_error 5 decision ran5.2.
Definition ran6 := run_height proposer broadcast_error validators 6 false [SelSync true] decided5.2.
Definition start7 : option ManagerNode :=
  shc ← SingleHeightConsensus_new 7 (is_observer [0] (λ _, false) 0) 0 [0] ran6.2.(cs_manager).(mhm_timeouts);
  Some {| mn_manager := ran6.2.(cs_manager); mn_net := ran6.2.(cs_net); mn_node := {| shc := shc; ctx_log := [] |} |}.
Definition waiting_node : ManagerNode :=
  match start7 with
  | Some node => (run_height_body proposer broadcast_error 7 [] node).2
  | None => {| mn_manager := ran6.2.(cs_manager); mn_net := [];
               mn_node := {| shc := HeightScenario.node 0; ctx_log := [] |} |}
  end.

Lemma waiting :
  waits_at proposer broadcast_error validators decision_error 5 10 5 (take 5 inputs) start 7
    [TaskBuildProposal 0] waiting_node.
Proof.
  apply (waits_decided _ _ _ _ _ _ _ _ _ decision [SelSync true] ran5.2 decided5.2);
    [vm_compute; reflexivity..|vm_compute; discriminate|].
  apply (waits_synced _ _ _ _ _ _ _ _ _ [] ran6.2); [vm_compute; reflexivity|vm_compute; discriminate|].
  eapply (waits_now _ _ _ _ _ _ _ _ _ (default (HeightScenario.node 0)
    (shc <$> (mn_node <$> start7)))); vm_compute; reflexivity.
Qed.
End ManagerScenario.



(** Messages for later heights are neither lost nor mixed up while a height runs. At the end,
    for every later height, the cached votes are those cached before followed by those received,
    in order of arrival, and the cached proposal of a round is the first that arrived; what is
    cached is cached under its own height and round. *)
Theorem later_messages_kept proposer broadcast_error validators height must_observer inputs s res s' :
  caches_ok s.(cs_manager) →
  run_height proposer broadcast_error validators height must_observer inputs s = (res, s') →
  res ≠ Panic →
  ∃ used rest, inputs = used ++ rest ∧
    (∀ out, res = Ok out → rest = match out with HeightDone _ rest => rest | HeightWaits _ => [] end) ∧
    caches_ok s'.(cs_manager) ∧
    ∀ k, height < k →
      cached_votes s'.(cs_manager) k = cached_votes s.(cs_manager) k ++ omap (vote_for k) used ∧
      ∀ r, cached_proposal s'.(cs_manager) k r =
        match cached_proposal s.(cs_manager) k r with
        | Some p => Some p
        | None => head (omap (proposal_for k r) used)
        end.
Proof.
  intros Hok Hrun Hp.
  destruct (run_height_spec _ _ _ _ _ _ _ _ _ Hrun Hp) as (shc0&used&rest&calls&rp'&_&?&Ho&[Hv Hpr Hc _]&_).
  exists used, rest. split_and!; [done| |by apply Hc|].
  - intros out ->. destruct out as [[]|]; naive_solver.
  - intros k Hk. split; [by apply Hv|]. intros r. by apply Hpr.
Qed.

Lemma later_messages_kept_witness :
  ∃ used, used ++ [SelSync true; SelTask 0 (Some 9) None] = ManagerScenario.inputs ∧
    [ManagerScenario.later_vote] = omap (vote_for 6) used.
Proof.
  destruct ManagerScenario.ran as [res s'] eqn:Hrun.
  pose proof ManagerScenario.ran_result as Hres. pose proof ManagerScenario.ran_votes as [Hvotes _].
  rewrite Hrun in Hres, Hvotes. simpl in Hres, Hvotes. subst res.
  destruct (later_messages_kept ManagerScenario.proposer ManagerScenario.broadcast_error
    ManagerScenario.validators 5 false ManagerScenario.inputs ManagerScenario.start
    (Ok (HeightDone (RunDecision ManagerScenario.decision) [SelSync true; SelTask 0 (Some 9) None])) s')
    as (used&rest&Hin&Hrest&_&Hk).
  - apply caches_ok_new.
  - exact Hrun.
  - done.
  - exists used. rewrite (Hrest _ eq_refl) in Hin. split; [done|].
    destruct (Hk 6) as [Hk6 _]; [reflexivity|]. by rewrite Hvotes in Hk6.
Defined.

(** Heights only go up. In a run of consensus the context is told of decisions of strictly
    increasing heights, none below the height observation starts at, each after that height
    was run and each height run once. *)
Theorem decided_heights_increase proposer broadcast_error validators decision_error n start_active
    start_observe inputs s res s' :
  run_consensus proposer broadcast_error validators decision_error n start_active start_observe inputs s =
    (res, s') → res ≠ Panic →
  ∃ decided run, s'.(cs_decisions) = s.(cs_decisions) ++ decided ∧ s'.(cs_calls) = s.(cs_calls) ++ run ∧
    StronglySorted N.lt decided.*1 ∧ StronglySorted N.lt run.*1 ∧ decided.*1 ⊆ run.*1 ∧
    Forall (λ h, start_observe ≤ h) run.*1.
Proof.
  unfold run_consensus. intros Hrun Hp. case_bool_decide; [|by injection Hrun as <-].
  pose proof (run_consensus_loop_spec proposer broadcast_error validators decision_error n start_active
    start_observe inputs s) as Hspec. unfold wp in Hspec.
  autorewrite with mstep in Hrun. rewrite Hrun in Hspec. by apply Hspec.
Qed.

Lemma decided_heights_increase_witness :
  ∃ s', run_consensus ManagerScenario.proposer ManagerScenario.broadcast_error ManagerScenario.validators
      ManagerScenario.decision_error 10 5 5 ManagerScenario.inputs ManagerScenario.start = (Ok (8, []), s') ∧
    s'.(cs_decisions).*1 = [5; 7] ∧ StronglySorted N.lt s'.(cs_decisions).*1.
Proof.
  destruct (run_consensus ManagerScenario.proposer ManagerScenario.broadcast_error ManagerScenario.validators
    ManagerScenario.decision_error 10 5 5 ManagerScenario.inputs ManagerScenario.start) as [res s'] eqn:Hrun.
  assert (res = Ok (8, []) ∧ s'.(cs_decisions).*1 = [5; 7]) as [-> Hd].
  { change res with (res, s').1. change (s'.(cs_decisions)) with (res, s').2.(cs_decisions).
    rewrite <-Hrun. split; vm_compute; reflexivity. }
  exists s'. split_and!; [done|done|].
  destruct (decided_heights_increase ManagerScenario.proposer ManagerScenario.broadcast_error
    ManagerScenario.validators ManagerScenario.decision_error 10 5 5 ManagerScenario.inputs
    ManagerScenario.start (Ok (8, [])) s' Hrun) as (decided&run&->&_&?&_); [done|]. done.
Defined.

(** C39: A peer can stop consensus. Whenever a run of consensus waits for input, at whatever
    height it has reached, a vote that does not parse, a proposal that does not parse, a proposal
    for the height that does not come from the leader of its round, or a vote for the height that
    differs from the one its validator cast before, ends the whole run with an error, whatever
    inputs would follow, instead of being dropped. *)
Theorem bad_message_stops_consensus proposer broadcast_error validators decision_error n start_active
    start_observe pre s height tasks node input e rest :
  start_observe ≤ start_active →
  waits_at proposer broadcast_error validators decision_error start_active n start_observe pre s height tasks node →
  refused proposer height node.(mn_node).(shc) input e →
  (run_consensus proposer broadcast_error validators decision_error n start_active start_observe
    (pre ++ input :: rest) s).1 = Err e.
Proof.
  intros Hle Hw Href. unfold run_consensus. rewrite bool_decide_true by done. mstep.
  destruct (refused_fails proposer broadcast_error height tasks rest input e node Href) as [s' Hrun].
  by eapply waits_then_fails.
Qed.

(** The only validator decides height 5, learns height 6 by sync and is sent a vote that does not
    parse, or a proposal of another node, at height 7. *)
Lemma bad_message_stops_consensus_witness :
  (run_consensus ManagerScenario.proposer ManagerScenario.broadcast_error ManagerScenario.validators
    ManagerScenario.decision_error 10 5 5
    (take 5 ManagerScenario.inputs ++ [SelMessage (Some (None, 3)); SelTask 0 (Some 9) None])
    ManagerScenario.start).1 = Err ProtobufConversionError ∧
  (run_consensus ManagerScenario.proposer ManagerScenario.broadcast_error ManagerScenario.validators
    ManagerScenario.decision_error 10 5 5
    (take 5 ManagerScenario.inputs ++ [SelProposal (FpPart (Some
      {| pi_height := 7; pi_round := 0; pi_valid_round := None; pi_proposer := 1 |})) 5])
    ManagerScenario.start).1 = Err (InvalidProposal 0 7).
Proof.
  split; apply (bad_message_stops_consensus ManagerScenario.proposer ManagerScenario.broadcast_error
    ManagerScenario.validators ManagerScenario.decision_error 10 5 5 (take 5 ManagerScenario.inputs)
    ManagerScenario.start 7 [TaskBuildProposal 0] ManagerScenario.waiting_node);
    [done|exact ManagerScenario.waiting| |done|exact ManagerScenario.waiting|].
  - apply refused_vote.
  - apply (refused_proposal ManagerScenario.proposer 7 ManagerScenario.waiting_node.(mn_node).(shc)
      {| pi_height := 7; pi_round := 0; pi_valid_round := None; pi_proposer := 1 |} 5);
      [reflexivity|vm_compute; discriminate].
Defined.
