(* ===== verification/StreamHandler.v ===== *)
(** Streams of messages between nodes:
    [crates/sequencing/papyrus_consensus/src/stream_handler.rs].

    A channel to the application is the list of what was sent on it; the handler numbers the
    channels it creates. Whether a channel accepts a message depends on the application and is a
    parameter. The peer that a message comes from and its content are opaque. *)

From S2P Require Import Prelude StarknetApi.

Abbreviation PeerId := N (only parsing).
Abbreviation StreamId := N (only parsing).
Abbreviation MessageId := N (only parsing).

Inductive StreamMessageBody (T : Type) :=
| Content (content : T)
| Fin.
Arguments Content {T} content.
Arguments Fin {T}.

Record StreamMessage (T : Type) := {
  message : StreamMessageBody T;
  stream_id : StreamId;
  message_id : MessageId;
}.
Arguments Build_StreamMessage {T} message stream_id message_id.
Arguments message {T} _.
Arguments stream_id {T} _.
Arguments message_id {T} _.

Record StreamData (T : Type) := {
  next_message_id : MessageId;
  fin_message_id : option MessageId;
  max_message_id_received : MessageId;
  receiver : option nat;
  sender : nat;
  message_buffer : gmap MessageId (StreamMessage T);
}.
Arguments Build_StreamData {T} next_message_id fin_message_id max_message_id_received receiver sender
  message_buffer.
Arguments next_message_id {T} _.
Arguments fin_message_id {T} _.
Arguments max_message_id_received {T} _.
Arguments receiver {T} _.
Arguments sender {T} _.
Arguments message_buffer {T} _.

(** A channel to the application. *)
Record Channel (T : Type) := { ch_sent : list T; ch_closed : bool }.
Arguments Build_Channel {T} ch_sent ch_closed.
Arguments ch_sent {T} _.
Arguments ch_closed {T} _.

(** The outcome of [try_send]. *)
Inductive TrySend := Sent | Disconnected | Full | SendFailed.

Record StreamHandler (T : Type) := {
  channels : list (Channel T);
  (** The receivers passed to the application. *)
  inbound_channel : list nat;
  inbound_stream_data : gmap (PeerId * StreamId) (StreamData T);
  outbound_stream_receivers : gset StreamId;
  outbound_stream_number : gmap StreamId MessageId;
  (** What was broadcast to the network. *)
  outbound : list (StreamMessage T);
}.
Arguments Build_StreamHandler {T} channels inbound_channel inbound_stream_data
  outbound_stream_receivers outbound_stream_number outbound.
Arguments channels {T} _.
Arguments inbound_channel {T} _.
Arguments inbound_stream_data {T} _.
Arguments outbound_stream_receivers {T} _.
Arguments outbound_stream_number {T} _.
Arguments outbound {T} _.

Section stream_handler.
Context {T : Type}.
Context (try_send : nat → list T → TrySend) (try_send_receiver : list nat → bool).
Context (broadcast_ok : list (StreamMessage T) → bool).

Implicit Types (data : StreamData T) (s : StreamHandler T) (m : StreamMessage T).

Definition set_next_message_id x data : StreamData T :=
  Build_StreamData x data.(fin_message_id) data.(max_message_id_received) data.(receiver) data.(sender)
    data.(message_buffer).
Definition set_fin_message_id x data : StreamData T :=
  Build_StreamData data.(next_message_id) x data.(max_message_id_received) data.(receiver) data.(sender)
    data.(message_buffer).
Definition set_max_message_id_received x data : StreamData T :=
  Build_StreamData data.(next_message_id) data.(fin_message_id) x data.(receiver) data.(sender)
    data.(message_buffer).
Definition set_receiver x data : StreamData T :=
  Build_StreamData data.(next_message_id) data.(fin_message_id) data.(max_message_id_received) x
    data.(sender) data.(message_buffer).
Definition set_message_buffer x data : StreamData T :=
  Build_StreamData data.(next_message_id) data.(fin_message_id) data.(max_message_id_received)
    data.(receiver) data.(sender) x.

Definition set_channels x s : StreamHandler T :=
  Build_StreamHandler x s.(inbound_channel) s.(inbound_stream_data) s.(outbound_stream_receivers)
    s.(outbound_stream_number) s.(outbound).
Definition set_inbound_channel x s : StreamHandler T :=
  Build_StreamHandler s.(channels) x s.(inbound_stream_data) s.(outbound_stream_receivers)
    s.(outbound_stream_number) s.(outbound).
Definition set_inbound_stream_data x s : StreamHandler T :=
  Build_StreamHandler s.(channels) s.(inbound_channel) x s.(outbound_stream_receivers)
    s.(outbound_stream_number) s.(outbound).
Definition set_outbound_stream_receivers x s : StreamHandler T :=
  Build_StreamHandler s.(channels) s.(inbound_channel) s.(inbound_stream_data) x
    s.(outbound_stream_number) s.(outbound).
Definition set_outbound_stream_number x s : StreamHandler T :=
  Build_StreamHandler s.(channels) s.(inbound_channel) s.(inbound_stream_data)
    s.(outbound_stream_receivers) x s.(outbound).
Definition set_outbound x s : StreamHandler T :=
  Build_StreamHandler s.(channels) s.(inbound_channel) s.(inbound_stream_data)
    s.(outbound_stream_receivers) s.(outbound_stream_number) x.

Definition StreamHandler_new : StreamHandler T := Build_StreamHandler [] [] ∅ ∅ ∅ [].

(** The handler reports no errors; it panics or goes on. *)
Abbreviation ShM := (M (StreamHandler T) Empty_set) (only parsing).

(** A new stream with its channel. *)
Definition StreamData_new : ShM (StreamData T) :=
  s ← get_st;
  let ch := length s.(channels) in
  modify (set_channels (s.(channels) ++ [Build_Channel [] false]));;
  mret (Build_StreamData 0 None 0 (Some ch) ch ∅).

Definition channel_sent s ch : list T := match s.(channels) !! ch with Some c => c.(ch_sent) | None => [] end.

(** ** Inbound *)

(** Returns whether the receiver is dropped, and the data after the call. *)
Definition inbound_send data m : ShM (bool * StreamData T) :=
  match m.(message) with
  | Content content =>
      s ← get_st;
      match try_send data.(sender) (channel_sent s data.(sender)) with
      | Disconnected => mret (true, data)
      | Full | SendFailed => panic
      | Sent =>
          modify (λ s, set_channels
            (alter (λ c, Build_Channel (c.(ch_sent) ++ [content]) c.(ch_closed)) data.(sender)
              s.(channels)) s);;
          data ← (if decide (m.(message_id) = 0) then
                    r ← expect data.(receiver);
                    s ← get_st;
                    assert_ (try_send_receiver s.(inbound_channel));;
                    modify (set_inbound_channel (s.(inbound_channel) ++ [r]));;
                    mret (set_receiver None data)
                  else mret data);
          next ← expect (checked_add u64_max data.(next_message_id) 1);
          mret (false, set_next_message_id next data)
      end
  | Fin => mret (true, data)
  end.

(** Each turn takes a message out of the buffer. *)
Fixpoint process_buffer_loop (fuel : nat) data : ShM (bool * StreamData T) :=
  match fuel with
  | O => mret (false, data)
  | S fuel =>
      match data.(message_buffer) !! data.(next_message_id) with
      | None => mret (false, data)
      | Some m =>
          '(dropped, data) ← inbound_send
            (set_message_buffer (delete data.(next_message_id) data.(message_buffer)) data) m;
          if dropped : bool then mret (true, data) else process_buffer_loop fuel data
      end
  end.

Definition process_buffer data : ShM (bool * StreamData T) :=
  process_buffer_loop (S (size data.(message_buffer))) data.

Definition store data m : StreamData T :=
  match data.(message_buffer) !! m.(message_id) with
  | None => set_message_buffer (<[m.(message_id) := m]> data.(message_buffer)) data
  | Some _ => data
  end.

(** The sender of a stream that is dropped closes the channel. *)
Definition close_channel (ch : nat) : ShM unit :=
  modify (λ s, set_channels (alter (λ c, Build_Channel c.(ch_sent) true) ch s.(channels)) s).

Definition drop_data data : ShM (option (StreamData T)) :=
  close_channel data.(sender);; mret None.

Definition is_fin m : bool := match m.(message) with Fin => true | Content _ => false end.

(** The largest number seen and the number of the end. *)
Definition note_message m data : StreamData T :=
  let id := m.(message_id) in
  let data := if decide (data.(max_message_id_received) < id)
              then set_max_message_id_received id data else data in
  match m.(message) with Content _ => data | Fin => set_fin_message_id (Some id) data end.

Definition handle_message_inner m data : ShM (option (StreamData T)) :=
  let id := m.(message_id) in
  let data := note_message m data in
  if decide (is_fin m = true ∧ id < data.(max_message_id_received)) then drop_data data else
  if decide (default u64_max data.(fin_message_id) < id) then drop_data data else
  match id ?= data.(next_message_id) with
  | Eq =>
      '(receiver_dropped, data) ← inbound_send data m;
      '(receiver_dropped, data) ←
        (if receiver_dropped : bool then mret (true, data) else process_buffer data);
      if (bool_decide (size data.(message_buffer) = 0%nat) && bool_decide (is_Some data.(fin_message_id)))
         || (receiver_dropped : bool)
      then drop_data data
      else mret (Some data)
  | Gt => mret (Some (store data m))
  | Lt => drop_data data
  end.

(** [None] is a message that fails to convert. *)
Definition handle_message (originator : PeerId) (received : option (StreamMessage T)) : ShM unit :=
  match received with
  | None => mret tt
  | Some m =>
      let key := (originator, m.(stream_id)) in
      s ← get_st;
      data ← match s.(inbound_stream_data) !! key with
             | Some data =>
                 modify (set_inbound_stream_data (delete key s.(inbound_stream_data)));; mret data
             | None => StreamData_new
             end;
      data ← handle_message_inner m data;
      match data with
      | Some data => modify (λ s, set_inbound_stream_data (<[key := data]> s.(inbound_stream_data)) s)
      | None => mret tt
      end
  end.

(** ** Outbound *)

Definition outbound_number s (id : StreamId) : MessageId := default 0 (s.(outbound_stream_number) !! id).

Definition broadcast_message m : ShM unit :=
  s ← get_st;
  assert_ (broadcast_ok s.(outbound));;
  modify (set_outbound (s.(outbound) ++ [m])).

Definition stream_broadcast (id : StreamId) (content : T) : ShM unit :=
  s ← get_st;
  broadcast_message (Build_StreamMessage (Content content) id (outbound_number s id));;
  next ← expect (checked_add u64_max (outbound_number s id) 1);
  modify (λ s, set_outbound_stream_number (<[id := next]> s.(outbound_stream_number)) s).

Definition broadcast_fin (id : StreamId) : ShM unit :=
  s ← get_st;
  broadcast_message (Build_StreamMessage Fin id (outbound_number s id));;
  modify (λ s, set_outbound_stream_number (delete id s.(outbound_stream_number)) s).

(** ** The loop *)

(** The branches of [select!]: a new outbound stream, what an outbound stream yields (a message,
    or its end, after which it is no longer polled), an inbound message. *)
Inductive StreamInput :=
| InNewStream (id : StreamId)
| InOutput (id : StreamId) (output : option T)
| InMessage (originator : PeerId) (received : option (StreamMessage T)).

Definition stream_step (input : StreamInput) : ShM unit :=
  match input with
  | InNewStream id =>
      modify (λ s, set_outbound_stream_receivers ({[id]} ∪ s.(outbound_stream_receivers)) s)
  | InOutput id output =>
      s ← get_st;
      if decide (id ∈ s.(outbound_stream_receivers)) then
        match output with
        | Some content => stream_broadcast id content
        | None =>
            modify (set_outbound_stream_receivers (s.(outbound_stream_receivers) ∖ {[id]}));;
            broadcast_fin id
        end
      else mret tt
  | InMessage originator received => handle_message originator received
  end.

Definition stream_run (inputs : list StreamInput) : ShM unit := mfor stream_step inputs.
End stream_handler.
Arguments StreamInput T : clear implicits.
