(* ===== verification/StreamTheorems.v ===== *)
(** Streams arrive in order: whatever the order in which the messages of a stream arrive, and
    whatever else is handled in between, the application reads the contents in the order in
    which they were sent. *)

From S2P Require Import Prelude StarknetApi StreamHandler.

Section streams.
Context {T : Type}.
Context (try_send : nat → list T → TrySend) (try_send_receiver : list nat → bool).
Context (broadcast_ok : list (StreamMessage T) → bool).

Implicit Types (data : StreamData T) (s : StreamHandler T) (m : StreamMessage T).

(** ** Streams do not interfere *)

(** The receiver, while it is kept, is that of the sender's channel. *)
Definition data_ok s data : Prop :=
  (data.(sender) < length s.(channels))%nat ∧
  ∀ r, data.(receiver) = Some r → r = data.(sender).

(** The streams have channels of their own. *)
Record handler_ok s : Prop := {
  ho_data : ∀ k data, s.(inbound_stream_data) !! k = Some data → data_ok s data;
  ho_inj : ∀ k k' data data', s.(inbound_stream_data) !! k = Some data →
    s.(inbound_stream_data) !! k' = Some data' → data.(sender) = data'.(sender) → k = k';
  ho_delivered : Forall (λ r, r < length s.(channels))%nat s.(inbound_channel);
}.

Definition out_state s := (s.(outbound_stream_receivers), s.(outbound_stream_number), s.(outbound)).

(** What a call may change when it works on channel [ch]. *)
Record touches (ch : nat) s s' : Prop := {
  to_channels : ∀ ch', ch' ≠ ch → s'.(channels) !! ch' = s.(channels) !! ch';
  to_length : length s'.(channels) = length s.(channels);
  to_data : s'.(inbound_stream_data) = s.(inbound_stream_data);
  to_delivered : ∃ l, s'.(inbound_channel) = s.(inbound_channel) ++ l ∧ Forall (λ r, r = ch) l;
  to_out : out_state s' = out_state s;
}.

#[local] Instance touches_refl ch : Reflexive (touches ch).
Proof. intros s. split; try done. exists []. by rewrite app_nil_r. Qed.

#[local] Instance touches_trans ch : Transitive (touches ch).
Proof.
  intros s1 s2 s3 [C1 L1 D1 (l1&E1&F1) O1] [C2 L2 D2 (l2&E2&F2) O2]. split; [|congruence..| |congruence].
  - intros ch' Hne. by rewrite C2, C1.
  - exists (l1 ++ l2). rewrite E2, E1, (assoc_L app). split; [done|]. by apply Forall_app.
Qed.

Lemma touches_alter ch f s : touches ch s (set_channels (alter f ch s.(channels)) s).
Proof.
  split; simpl; try done.
  - intros ch' Hne. by apply list_lookup_alter_ne.
  - apply length_alter.
  - exists []. by rewrite app_nil_r.
Qed.

Lemma touches_deliver ch s : touches ch s (set_inbound_channel (s.(inbound_channel) ++ [ch]) s).
Proof. split; simpl; try done. exists [ch]. by repeat constructor. Qed.

(** The calls below work on the channel of [data], and keep it. *)
Definition local_call {A} (get : A → option (StreamData T)) data (run : M (StreamHandler T) Empty_set A) : Prop :=
  ∀ s, data_ok s data → wp run s (λ res s',
    match res with
    | Ok a => touches data.(sender) s s' ∧
        ∀ data', get a = Some data' → data'.(sender) = data.(sender) ∧ data_ok s' data'
    | _ => True
    end).

Lemma data_ok_touches ch s s' data : touches ch s s' → data_ok s data → data_ok s' data.
Proof. intros Ht [Hs Hr]. split; [by rewrite (to_length _ _ _ Ht)|done]. Qed.

Lemma inbound_send_local data m : local_call (λ a, Some a.2) data (inbound_send try_send try_send_receiver data m).
Proof.
  intros s Hok. unfold inbound_send. destruct (m.(message)) as [content|].
  2: { split; [done|]. by intros ? [= <-]. }
  unfold wp. mstep. destruct (try_send _ _); [|split; [done|by intros ? [= <-]]|done|done].
  mstep. set (s1 := set_channels _ s).
  pose proof (touches_alter data.(sender) _ s : touches _ s s1) as Ht1.
  destruct (decide (m.(message_id) = 0)).
  - destruct data.(receiver) as [r|] eqn:Hr; mstep; [|done].
    destruct (try_send_receiver _); mstep; [|done].
    destruct (checked_add _ _ _); mstep; [|done].
    destruct Hok as [Hlen Hrec]. rewrite (Hrec _ Hr).
    assert (touches data.(sender) s (set_inbound_channel (s1.(inbound_channel) ++ [data.(sender)]) s1)) as Ht2.
    { etrans; [exact Ht1|]. apply touches_deliver. }
    split; [done|]. intros ? [= <-]. split; [done|]. eapply data_ok_touches; [exact Ht2|].
    by split.
  - mstep. destruct (checked_add _ _ _); mstep; [|done]. split; [done|]. intros ? [= <-].
    split; [done|]. eapply data_ok_touches; [exact Ht1|exact Hok].
Qed.

Lemma process_buffer_loop_local fuel data :
  local_call (λ a, Some a.2) data (process_buffer_loop try_send try_send_receiver fuel data).
Proof.
  revert data. induction fuel as [|fuel IH]; intros data s Hok.
  { split; [done|]. by intros ? [= <-]. }
  simpl. destruct (_ !! _) as [m|]; [|split; [done|by intros ? [= <-]]].
  set (data1 := set_message_buffer _ data). apply wp_bind.
  eapply wp_mono; [by apply (inbound_send_local data1)|].
  intros [[dropped data2]| |] s1; [|done..]. intros [Ht Hd]. destruct (Hd _ eq_refl) as [Hs Hok2]. cbn [snd] in *.
  destruct dropped.
  { split; [done|]. by intros ? [= <-]. }
  eapply wp_mono; [by apply IH|]. intros [[dropped data3]| |] s2; [|done..].
  rewrite Hs. change data1.(sender) with data.(sender) in *. intros [Ht2 Hd2].
  split; [by etrans|done].
Qed.

Lemma drop_data_local data data0 :
  data.(sender) = data0.(sender) → local_call id data0 (drop_data data).
Proof. intros Hs s _. rewrite <-Hs. split; [apply touches_alter|done]. Qed.

Lemma local_ret data data' : data'.(sender) = data.(sender) → data'.(receiver) = data.(receiver) →
  local_call id data (mret (Some data')).
Proof.
  intros Hs Hr s [Hlen Hrec]. split; [done|]. intros ? [= <-]. split; [done|].
  split; rewrite Hs; [done|]. rewrite Hr. apply Hrec.
Qed.

Lemma store_same data m :
  (store data m).(sender) = data.(sender) ∧ (store data m).(receiver) = data.(receiver).
Proof. unfold store. by destruct (_ !! _). Qed.

Lemma note_message_same m data :
  (note_message m data).(sender) = data.(sender) ∧ (note_message m data).(receiver) = data.(receiver) ∧
  (note_message m data).(next_message_id) = data.(next_message_id) ∧
  (note_message m data).(message_buffer) = data.(message_buffer).
Proof. unfold note_message. destruct (m.(message)); by case_decide. Qed.

Lemma note_message_max m data :
  (note_message m data).(max_message_id_received) = N.max data.(max_message_id_received) m.(message_id).
Proof. unfold note_message. destruct (m.(message)); case_decide; simpl; lia. Qed.

Lemma note_message_fin m data :
  (note_message m data).(fin_message_id) =
    if is_fin m then Some m.(message_id) else data.(fin_message_id).
Proof. unfold note_message, is_fin. destruct (m.(message)); by case_decide. Qed.

Lemma handle_message_inner_local m data :
  local_call id data (handle_message_inner try_send try_send_receiver m data).
Proof.
  unfold handle_message_inner. destruct (note_message_same m data) as (Hs&Hr&_).
  set (data2 := note_message m data) in *. clearbody data2.
  case_decide; [by apply drop_data_local|]. case_decide; [by apply drop_data_local|].
  destruct (_ ?= _).
  - intros s Hok. assert (data_ok s data2) as Hok2 by (unfold data_ok; by rewrite Hs, Hr).
    apply wp_bind. eapply wp_mono; [by apply (inbound_send_local data2)|].
    intros [[dropped data3]| |] s1; [|done..]. intros [Ht Hd]. destruct (Hd _ eq_refl) as [Hs3 Hok3]. cbn [snd] in *.
    apply wp_bind. eapply (wp_mono _ _ (λ res s', match res with
      | Ok a => touches data3.(sender) s1 s' ∧
          ∀ data', Some a.2 = Some data' → data'.(sender) = data3.(sender) ∧ data_ok s' data'
      | _ => True end)).
    { destruct dropped; [split; [done|by intros ? [= <-]]|]. by apply process_buffer_loop_local. }
    intros [[dropped' data4]| |] s2; [|done..]. intros [Ht2 Hd2]. destruct (Hd2 _ eq_refl) as [Hs4 Hok4]. cbn [snd] in *.
    rewrite Hs3, Hs in *. destruct (_ || _).
    + unfold drop_data, close_channel, wp. mstep. split; [|done].
      etrans; [exact Ht|]. etrans; [exact Ht2|]. rewrite <-Hs4. apply touches_alter.
    + split; [by etrans|]. by intros ? [= <-].
  - by apply drop_data_local.
  - destruct (store_same data2 m). apply local_ret; congruence.
Qed.

(** ** Handling a message *)

Definition key_of (originator : PeerId) m : PeerId * StreamId := (originator, m.(stream_id)).

(** A message leaves the other streams alone. *)
Record other_stream (k : PeerId * StreamId) s s' : Prop := {
  os_data : ∀ k', k' ≠ k → s'.(inbound_stream_data) !! k' = s.(inbound_stream_data) !! k';
  os_channels : ∀ ch, (ch < length s.(channels))%nat →
    (∀ data, s.(inbound_stream_data) !! k = Some data → data.(sender) ≠ ch) →
    s'.(channels) !! ch = s.(channels) !! ch ∧
    filter (λ r, r = ch) s'.(inbound_channel) = filter (λ r, r = ch) s.(inbound_channel);
  os_length : (length s.(channels) ≤ length s'.(channels))%nat;
  os_sender : ∀ data', s'.(inbound_stream_data) !! k = Some data' →
    (∃ data, s.(inbound_stream_data) !! k = Some data ∧ data'.(sender) = data.(sender)) ∨
    (length s.(channels) ≤ data'.(sender))%nat;
  os_out : out_state s' = out_state s;
}.

Lemma filter_delivered ch ch' (l l' : list nat) :
  ch' ≠ ch → Forall (λ r, r = ch) l' → filter (λ r, r = ch') (l ++ l') = filter (λ r, r = ch') l.
Proof.
  intros Hne Hl. rewrite filter_app, (filter_none _ l'), app_nil_r; [done|].
  rewrite Forall_forall in Hl. intros r ->%Hl. congruence.
Qed.

(** The state and the stream's data when the message is looked at. *)
Lemma handle_message_start originator m s :
  handler_ok s → ∃ data s1, data_ok s1 data ∧
    handle_message try_send try_send_receiver originator (Some m) s =
      (data ← handle_message_inner try_send try_send_receiver m data;
       match data with
       | Some data => modify (λ s, set_inbound_stream_data
           (<[key_of originator m := data]> s.(inbound_stream_data)) s)
       | None => mret tt
       end) s1 ∧
    s1.(inbound_stream_data) = delete (key_of originator m) s.(inbound_stream_data) ∧
    s1.(inbound_channel) = s.(inbound_channel) ∧ out_state s1 = out_state s ∧
    ((s.(inbound_stream_data) !! key_of originator m = Some data ∧ s1.(channels) = s.(channels)) ∨
     (s.(inbound_stream_data) !! key_of originator m = None ∧
      data = Build_StreamData 0 None 0 (Some (length s.(channels))) (length s.(channels)) ∅ ∧
      s1.(channels) = s.(channels) ++ [Build_Channel [] false])).
Proof.
  intros [Hok _ _]. unfold handle_message. fold (key_of originator m). mstep.
  destruct (s.(inbound_stream_data) !! key_of originator m) as [data|] eqn:Hk; mstep.
  - eexists data, _. split_and!; [|reflexivity|done|done|done|by left]. by apply (Hok _ _ Hk).
  - unfold StreamData_new. mstep. eexists _, _. split_and!; [|reflexivity| |done|done|right; by split_and!].
    + split; simpl; [rewrite length_app; simpl; lia|]. by intros r [= <-].
    + simpl. by rewrite delete_id.
Qed.

Definition put_back k (o : option (StreamData T)) s : StreamHandler T :=
  match o with
  | Some data => set_inbound_stream_data (<[k := data]> s.(inbound_stream_data)) s
  | None => s
  end.

(** Putting the data back, for a stream that was taken out and worked on. *)
Lemma handler_ok_put_back k data o s s1 s2 :
  handler_ok s → s1.(inbound_stream_data) = delete k s.(inbound_stream_data) →
  s1.(inbound_channel) = s.(inbound_channel) → (data.(sender) < length s1.(channels))%nat →
  (length s.(channels) ≤ length s1.(channels))%nat →
  (∀ k' data', k' ≠ k → s.(inbound_stream_data) !! k' = Some data' → data'.(sender) ≠ data.(sender)) →
  touches data.(sender) s1 s2 →
  (∀ data', o = Some data' → data'.(sender) = data.(sender) ∧ data_ok s2 data') →
  handler_ok (put_back k o s2).
Proof.
  intros [Hok Hinj Hdl] Hdel Hin Hs1 Hlen Hdis Ht Ho.
  assert (∀ k' data', (put_back k o s2).(inbound_stream_data) !! k' = Some data' →
    (k' = k ∧ o = Some data') ∨ (k' ≠ k ∧ s.(inbound_stream_data) !! k' = Some data')) as Hcase.
  { intros k' data'. destruct o as [d|]; simpl; rewrite (to_data _ _ _ Ht), Hdel.
    - rewrite lookup_insert. case_decide; [intros [= <-]; auto|]. rewrite lookup_delete_ne by done. auto.
    - rewrite lookup_delete. case_decide; [done|auto]. }
  assert ((put_back k o s2).(channels) = s2.(channels)) as Hch by (by destruct o).
  assert ((put_back k o s2).(inbound_channel) = s2.(inbound_channel)) as Hib by (by destruct o).
  split.
  - intros k' data' [[_ Hd]|[_ Hd]]%Hcase; unfold data_ok; rewrite Hch.
    + by apply Ho.
    + destruct (Hok _ _ Hd) as [Hs Hr]. split; [|done]. rewrite (to_length _ _ _ Ht). lia.
  - intros k1 k2 d1 d2 [[-> H1]|[Hk1 H1]]%Hcase [[-> H2]|[Hk2 H2]]%Hcase Heq; [done|..].
    + destruct (Ho _ H1) as [Hs _]. destruct (Hdis _ _ Hk2 H2). congruence.
    + destruct (Ho _ H2) as [Hs _]. destruct (Hdis _ _ Hk1 H1). congruence.
    + by eapply Hinj.
  - destruct (to_delivered _ _ _ Ht) as (l&Hl&Hf). rewrite Hib, Hch, Hl, Hin, (to_length _ _ _ Ht).
    apply Forall_app. split; eapply Forall_impl; [exact Hdl| |exact Hf|]; simpl; [lia|]. by intros r ->.
Qed.

Lemma handle_message_frame originator m s :
  handler_ok s →
  wp (handle_message try_send try_send_receiver originator (Some m)) s (λ res s',
    match res with Ok _ => handler_ok s' ∧ other_stream (key_of originator m) s s' | _ => True end).
Proof.
  intros Hok. destruct (handle_message_start originator m s Hok) as (data&s1&Hd1&Hrun&Hdel&Hin&Hout&Hcases).
  set (k := key_of originator m) in *. unfold wp. rewrite Hrun. apply wp_bind.
  eapply wp_mono; [by apply handle_message_inner_local|]. intros [o| |] s2; [|done..]. intros [Ht Ho].
  assert ((length s.(channels) ≤ length s1.(channels))%nat ∧
    (∀ ch, (ch < length s.(channels))%nat → s1.(channels) !! ch = s.(channels) !! ch) ∧
    (∀ ch, (ch < length s.(channels))%nat → data.(sender) = ch →
      s.(inbound_stream_data) !! k = Some data) ∧
    (∀ k' data', k' ≠ k → s.(inbound_stream_data) !! k' = Some data' → data'.(sender) ≠ data.(sender)))
    as (Hlen&Hch&Hold&Hdis).
  { destruct Hok as [Hok Hinj _]. destruct Hcases as [[Hk Hc]|(Hk&->&Hc)]; rewrite Hc.
    - split_and!; [done|done|done|]. intros k' d' Hne Hk' Heq. by eapply Hne, Hinj.
    - rewrite length_app. simpl. split_and!; [lia|..].
      + intros ch Hlt. by apply lookup_app_l.
      + intros ch Hlt Heq. lia.
      + intros k' d' _ Hk' Heq. destruct (Hok _ _ Hk') as [Hs _]. lia. }
  assert (handler_ok (put_back k o s2) ∧ other_stream k s (put_back k o s2)) as Hfin.
  { split; [eapply handler_ok_put_back; try done; apply Hd1|]. split.
    - intros k' Hne. destruct o; simpl; rewrite ?lookup_insert_ne by done;
        by rewrite (to_data _ _ _ Ht), Hdel, lookup_delete_ne.
    - intros ch Hlt Hnot. assert (ch ≠ data.(sender)) as Hne.
      { intros ->. by eapply (Hnot data); [by eapply Hold|]. }
      destruct (to_delivered _ _ _ Ht) as (l&Hl&Hf).
      assert ((put_back k o s2).(channels) = s2.(channels) ∧
        (put_back k o s2).(inbound_channel) = s2.(inbound_channel)) as [-> ->] by (by destruct o).
      rewrite (to_channels _ _ _ Ht), Hch, Hl, Hin by done.
      split; [done|]. by eapply filter_delivered.
    - assert ((put_back k o s2).(channels) = s2.(channels)) as -> by (by destruct o).
      by rewrite (to_length _ _ _ Ht).
    - intros data' Hd'. assert (o = Some data') as ->.
      { destruct o as [d|]; simpl in Hd'; [by rewrite lookup_insert_eq in Hd'|].
        by rewrite (to_data _ _ _ Ht), Hdel, lookup_delete_eq in Hd'. }
      destruct (Ho _ eq_refl) as [-> _].
      destruct Hcases as [[Hk _]|(_&->&_)]; [left; eauto|right; simpl; lia].
    - rewrite <-Hout, <-(to_out _ _ _ Ht). by destruct o. }
  by destruct o.
Qed.

(** ** One stream *)

Section one_stream.
Context (Hsend : ∀ ch sent, try_send ch sent = Sent) (Happ : ∀ l, try_send_receiver l = true).
Context (peer : PeerId) (sid : StreamId) (cs : list T).

Abbreviation len := (N.of_nat (length cs)).
Context (Hlen : len ≤ u64_max).

(** The message with a given number: the contents, then the end. *)
Definition msg (k : MessageId) : StreamMessage T :=
  Build_StreamMessage (match cs !! N.to_nat k with Some c => Content c | None => Fin end) sid k.

(** The messages [A] have arrived, those before [n] were passed on, those from [lo] on wait. *)
Record receiving (A : gset N) (n lo : N) (ch : nat) data s : Prop := {
  rc_next : data.(next_message_id) = n;
  rc_le : n ≤ len;
  rc_prefix : ∀ k, k < n → k ∈ A;
  rc_arrived : ∀ k, k ∈ A → k ≤ len;
  rc_buffer : ∀ k, data.(message_buffer) !! k = if decide (k ∈ A ∧ lo ≤ k) then Some (msg k) else None;
  rc_fin : data.(fin_message_id) = if decide (len ∈ A) then Some len else None;
  rc_max : data.(max_message_id_received) ≤ len;
  rc_receiver : data.(receiver) = if decide (n = 0) then Some ch else None;
  rc_sender : data.(sender) = ch;
  rc_channel : s.(channels) !! ch = Some (Build_Channel (take (N.to_nat n) cs) false);
  rc_delivered : filter (λ r, r = ch) s.(inbound_channel) = if decide (n = 0) then [] else [ch];
}.

Lemma msg_content k : k < len → ∃ c, cs !! N.to_nat k = Some c ∧ (msg k).(message) = Content c.
Proof.
  intros Hk. destruct (lookup_lt_is_Some_2 cs (N.to_nat k)) as [c Hc]; [lia|].
  exists c. unfold msg. simpl. by rewrite Hc.
Qed.

Lemma msg_fin : (msg len).(message) = Fin.
Proof. unfold msg. simpl. by rewrite Nat2N.id, lookup_ge_None_2 by lia. Qed.

(** Passing on the next message. *)
Lemma send_next A n ch data s :
  receiving A n (n + 1) ch data s → n ∈ A → n < len →
  ∃ data' s', inbound_send try_send try_send_receiver data (msg n) s = (Ok (false, data'), s') ∧
    receiving A (n + 1) (n + 1) ch data' s' ∧ s'.(inbound_stream_data) = s.(inbound_stream_data) ∧
    data'.(message_buffer) = data.(message_buffer).
Proof.
  intros HR HA Hn. destruct (msg_content n Hn) as (c&Hc&Hm). destruct HR.
  unfold inbound_send. rewrite Hm. mstep. rewrite Hsend. mstep. simpl.
  assert (checked_add u64_max n 1 = Some (n + 1)) as Hadd.
  { unfold checked_add. rewrite decide_True; [done|]. lia. }
  assert (∀ k, k < n + 1 → k ∈ A) as Hpre.
  { intros k Hk. destruct (decide (k = n)) as [->|]; [done|]. apply rc_prefix0. lia. }
  assert (take (N.to_nat (n + 1)) cs = take (N.to_nat n) cs ++ [c]) as Htake.
  { replace (N.to_nat (n + 1)) with (S (N.to_nat n)) by lia. by apply take_S_r. }
  destruct (decide (n = 0)) as [->|Hne].
  - rewrite rc_receiver0. mstep.
    rewrite Happ. mstep. simpl.
    rewrite rc_next0, Hadd. mstep. eexists _, _. split_and!; [reflexivity| |done|done].
    split; simpl; try done; try lia.
    + rewrite rc_sender0, list_lookup_alter, decide_True by done. rewrite rc_channel0. simpl. by rewrite Htake.
    + rewrite filter_app, rc_delivered0. simpl. rewrite filter_cons_True by done. done.
  - mstep. rewrite rc_next0, Hadd. mstep.
    eexists _, _. split_and!; [reflexivity| |done|done].
    split; simpl; try done; try lia.
    + rewrite rc_receiver0, decide_False by lia. done.
    + rewrite rc_sender0, list_lookup_alter, decide_True by done. rewrite rc_channel0. simpl. by rewrite Htake.
    + rewrite rc_delivered0, decide_False by lia. done.
Qed.

(** All messages have been passed on. *)
Definition complete (A : gset N) (ch : nat) (closed : bool) s : Prop :=
  (∀ k, k ≤ len → k ∈ A) ∧ s.(channels) !! ch = Some (Build_Channel cs closed) ∧
  filter (λ r, r = ch) s.(inbound_channel) = if decide (cs = []) then [] else [ch].

Lemma receiving_complete A lo ch data s : receiving A len lo ch data s → len ∈ A → complete A ch false s.
Proof.
  intros [] HA. split_and!.
  - intros k Hk. destruct (decide (k = len)) as [->|]; [done|]. apply rc_prefix0. lia.
  - rewrite rc_channel0, Nat2N.id, firstn_all. done.
  - rewrite rc_delivered0. by destruct cs.
Qed.

(** Taking the next message out of the buffer. *)
Lemma receiving_take A n ch data s :
  receiving A n n ch data s → n ∈ A →
  data.(message_buffer) !! n = Some (msg n) ∧
  receiving A n (n + 1) ch (set_message_buffer (delete n data.(message_buffer)) data) s.
Proof.
  intros [] HA. split; [by rewrite rc_buffer0, decide_True|]. split; try done. simpl. intros k.
  rewrite lookup_delete, rc_buffer0. destruct (decide (n = k)) as [->|Hne].
  - rewrite decide_False; [done|]. intros [_ ?]. lia.
  - destruct (decide (k ∈ A ∧ n ≤ k)) as [[? ?]|Hno].
    + rewrite decide_True; [done|]. split; [done|lia].
    + rewrite decide_False; [done|]. intros [? ?]. apply Hno. split; [done|lia].
Qed.

Lemma drain fuel A n ch data s :
  receiving A n n ch data s → (size data.(message_buffer) < fuel)%nat →
  ∃ dropped data' s',
    process_buffer_loop try_send try_send_receiver fuel data s = (Ok (dropped, data'), s') ∧
    s'.(inbound_stream_data) = s.(inbound_stream_data) ∧ data'.(sender) = ch ∧
    if dropped : bool then complete A ch false s'
    else ∃ n', receiving A n' n' ch data' s' ∧ n' ∉ A.
Proof.
  revert n data s. induction fuel as [|fuel IH]; intros n data s HR Hf; [lia|]. simpl.
  rewrite (rc_next _ _ _ _ _ _ HR). destruct (decide (n ∈ A)) as [HA|HA].
  - destruct (receiving_take _ _ _ _ _ HR HA) as [Hn HR1]. rewrite Hn.
    set (data1 := set_message_buffer _ data) in *.
    assert (size data1.(message_buffer) = pred (size data.(message_buffer))) as Hsize.
    { simpl. by rewrite map_size_delete_Some by eauto. }
    assert (size data.(message_buffer) ≠ 0%nat).
    { intros He%map_size_empty_inv. by rewrite He in Hn. }
    destruct (decide (n = len)) as [->|Hne].
    + rewrite (bind_run _ _ _ (true, data1) s).
      * eexists _, _, _. split_and!; [reflexivity|done| |].
        -- apply (rc_sender _ _ _ _ _ _ HR1).
        -- by eapply receiving_complete.
      * unfold inbound_send. by rewrite msg_fin.
    + assert (n < len) as Hlt by (pose proof (rc_le _ _ _ _ _ _ HR); lia).
      destruct (send_next _ _ _ _ _ HR1 HA Hlt) as (data2&s2&Hrun&HR2&Hisd&Hbuf).
      rewrite (bind_run _ _ _ _ _ Hrun). cbn beta iota.
      destruct (IH _ _ _ HR2) as (dropped&data3&s3&Hloop&Hisd3&Hres); [rewrite Hbuf; lia|].
      exists dropped, data3, s3. split_and!; [done|congruence|apply Hres..].
  - assert (data.(message_buffer) !! n = None) as ->.
    { rewrite (rc_buffer _ _ _ _ _ _ HR), decide_False; [done|tauto]. }
    eexists _, _, _. split_and!; [reflexivity|done|by apply (rc_sender _ _ _ _ _ _ HR)|]. simpl. by exists n.
Qed.

Lemma msg_is_fin k : k ≤ len → is_fin (msg k) = bool_decide (k = len).
Proof.
  intros Hk. unfold is_fin. case_bool_decide as He; [by rewrite He, msg_fin|].
  destruct (msg_content k) as (c&_&->); [lia|done].
Qed.

(** Taking note of a message that was not seen before; it is not in the buffer. *)
Lemma receiving_note A n ch data s i :
  receiving A n n ch data s → i ∉ A → i ≤ len →
  (note_message (msg i) data).(fin_message_id) = (if decide (len ∈ {[i]} ∪ A) then Some len else None) ∧
  (note_message (msg i) data).(max_message_id_received) ≤ len ∧
  i ≤ (note_message (msg i) data).(max_message_id_received) ∧
  (i = len → (note_message (msg i) data).(max_message_id_received) = len).
Proof.
  intros [] Hi Hle. rewrite note_message_fin, note_message_max, msg_is_fin by done. simpl.
  split_and!; [|lia..]. case_bool_decide as He; [rewrite decide_True; [congruence|set_solver]|].
  rewrite rc_fin0. destruct (decide (len ∈ A)).
  - rewrite decide_True; [done|set_solver].
  - rewrite decide_False; [done|set_solver].
Qed.

Lemma receiving_store A n ch data s i :
  receiving A n n ch data s → i ∉ A → i ≤ len → n < i →
  receiving ({[i]} ∪ A) n n ch (store (note_message (msg i) data) (msg i)) s.
Proof.
  intros HR Hi Hle Hn. destruct (receiving_note _ _ _ _ _ _ HR Hi Hle) as (Hfin&Hmax&_).
  destruct (note_message_same (msg i) data) as (Es&Er&En&Eb). destruct HR.
  unfold store. change (msg i).(message_id) with i. rewrite Eb, rc_buffer0, decide_False by tauto.
  split; simpl; try congruence; try done.
  - intros k Hk. set_solver.
  - intros k [->%elem_of_singleton|?]%elem_of_union; [done|auto].
  - intros k. rewrite lookup_insert, rc_buffer0. destruct (decide (i = k)) as [->|Hne].
    + rewrite decide_True; [done|]. split; [set_solver|lia].
    + destruct (decide (k ∈ A ∧ n ≤ k)) as [[? ?]|Hno].
      * rewrite decide_True; [done|]. split; [set_solver|lia].
      * rewrite decide_False; [done|]. set_solver.
Qed.

Lemma receiving_next A n ch data s :
  receiving A n n ch data s → n ∉ A →
  receiving ({[n]} ∪ A) n (n + 1) ch (note_message (msg n) data) s.
Proof.
  intros HR Hi. pose proof (rc_le _ _ _ _ _ _ HR) as Hle.
  destruct (receiving_note _ _ _ _ _ _ HR Hi Hle) as (Hfin&Hmax&_).
  destruct (note_message_same (msg n) data) as (Es&Er&En&Eb). destruct HR.
  split; simpl; try congruence; try done.
  - intros k Hk. set_solver.
  - intros k [->%elem_of_singleton|?]%elem_of_union; [done|auto].
  - intros k. rewrite Eb, rc_buffer0. destruct (decide (k ∈ A ∧ n ≤ k)) as [[? ?]|Hno].
    + rewrite decide_True; [done|]. split; [set_solver|]. assert (k ≠ n) by congruence. lia.
    + rewrite decide_False; [done|]. intros [[->%elem_of_singleton|?]%elem_of_union ?]; [lia|].
      apply Hno. split; [done|lia].
Qed.

Lemma close_complete A ch data s :
  complete A ch false s → data.(sender) = ch →
  ∃ s', drop_data data s = (Ok None, s') ∧ s'.(inbound_stream_data) = s.(inbound_stream_data) ∧
    complete A ch true s'.
Proof.
  intros (HA&Hch&Hd) <-. eexists. split_and!; [reflexivity|done|]. split_and!; [done| |done].
  simpl. by rewrite list_lookup_alter, decide_True, Hch by done.
Qed.

(** A stream that waits for a message has not ended. *)
Lemma receiving_waits A n ch data s :
  receiving A n n ch data s → n ∉ A →
  bool_decide (size data.(message_buffer) = 0%nat) && bool_decide (is_Some data.(fin_message_id)) = false.
Proof.
  intros [] HA. destruct (decide (len ∈ A)) as [Hl|Hl].
  - apply andb_false_intro1, bool_decide_eq_false. intros He%map_size_empty_inv.
    specialize (rc_buffer0 len). by rewrite He, lookup_empty, decide_True in rc_buffer0.
  - apply andb_false_intro2, bool_decide_eq_false. rewrite rc_fin0. by intros [? ?].
Qed.

Lemma receive A n ch data s i :
  receiving A n n ch data s → n ∉ A → i ∉ A → i ≤ len →
  ∃ o s', handle_message_inner try_send try_send_receiver (msg i) data s = (Ok o, s') ∧
    s'.(inbound_stream_data) = s.(inbound_stream_data) ∧
    match o with
    | Some data' => ∃ n', receiving ({[i]} ∪ A) n' n' ch data' s' ∧ n' ∉ {[i]} ∪ A
    | None => complete ({[i]} ∪ A) ch true s'
    end.
Proof.
  intros HR Hn Hi Hle. destruct (receiving_note _ _ _ _ _ _ HR Hi Hle) as (Hfin&Hmax&_&Hend).
  unfold handle_message_inner. change (msg i).(message_id) with i.
  rewrite decide_False.
  2: { intros [Hf Hlt]. rewrite msg_is_fin in Hf by done. apply bool_decide_eq_true in Hf. lia. }
  rewrite decide_False by (rewrite Hfin; case_decide; simpl; lia).
  destruct (note_message_same (msg i) data) as (_&_&Hnext&_).
  rewrite Hnext, (rc_next _ _ _ _ _ _ HR).
  destruct (N.compare_spec i n) as [->|Hlt|Hgt].
  - pose proof (receiving_next _ _ _ _ _ HR Hn) as HR1.
    set (A' := {[n]} ∪ A) in *. assert (n ∈ A') as HA' by set_solver.
    destruct (decide (n = len)) as [Heq|Hne].
    + rewrite (bind_run _ _ _ (true, note_message (msg n) data) s)
        by (unfold inbound_send; by rewrite Heq, msg_fin). mstep. rewrite orb_true_r.
      rewrite Heq in HR1, HA'. destruct (close_complete A' ch (note_message (msg n) data) s) as (s'&Hrun&?&?).
      * by eapply receiving_complete.
      * rewrite Heq. apply (rc_sender _ _ _ _ _ _ HR1).
      * exists None, s'. split_and!; done.
    + destruct (send_next _ _ _ _ _ HR1 HA') as (data1&s1&Hrun&HR2&Hisd&_); [lia|].
      rewrite (bind_run _ _ _ _ _ Hrun). cbn beta iota.
      destruct (drain (S (size data1.(message_buffer))) _ _ _ _ _ HR2) as (dropped&data2&s2&Hdrain&Hisd2&Hs2&Hres); [lia|].
      rewrite (bind_run _ _ _ _ _ Hdrain). cbn beta iota. destruct dropped.
      * rewrite orb_true_r. destruct (close_complete _ _ _ _ Hres Hs2) as (s'&?&?&?).
        exists None, s'. split_and!; [done|congruence|done].
      * destruct Hres as (n'&HR3&Hn'). rewrite (receiving_waits _ _ _ _ _ HR3 Hn').
        exists (Some data2), s2. split_and!; [done|congruence|eauto].
  - destruct Hi. by apply (rc_prefix _ _ _ _ _ _ HR).
  - eexists _, _. split_and!; [reflexivity|done|]. exists n. split; [by apply receiving_store|].
    assert (n ≠ i) by lia. set_solver.
Qed.

(** ** Arrival in any order, among other messages *)

Abbreviation key := (peer, sid).
Context (c0 : nat).

(** Where the stream stands when the messages [A] have arrived; its channel is one of those
    created since there were [c0]. *)
Inductive phase (A : gset N) s : Prop :=
| phase_none : A = ∅ → s.(inbound_stream_data) !! key = None → phase A s
| phase_open ch data n :
    s.(inbound_stream_data) !! key = Some data → receiving A n n ch data s → n ∉ A →
    (c0 ≤ ch)%nat → phase A s
| phase_done ch :
    s.(inbound_stream_data) !! key = None → complete A ch true s →
    (∀ k data, s.(inbound_stream_data) !! k = Some data → data.(sender) ≠ ch) →
    (c0 ≤ ch)%nat → phase A s.

Lemma receiving_new s :
  filter (λ r, r = length s.(channels)) s.(inbound_channel) = [] → ∀ s1,
  s1.(channels) = s.(channels) ++ [Build_Channel [] false] → s1.(inbound_channel) = s.(inbound_channel) →
  receiving ∅ 0 0 (length s.(channels))
    (Build_StreamData 0 None 0 (Some (length s.(channels))) (length s.(channels)) ∅) s1.
Proof.
  intros Hf s1 Hc Hin. split; simpl; try done; try lia.
  - by rewrite Hc, list_lookup_middle.
  - by rewrite Hin.
Qed.

Lemma own_message A s i :
  phase A s → handler_ok s → (c0 ≤ length s.(channels))%nat → i ∉ A → i ≤ len →
  ∃ s', handle_message try_send try_send_receiver peer (Some (msg i)) s = (Ok tt, s') ∧
    phase ({[i]} ∪ A) s'.
Proof.
  intros Hph Hok Hc0 Hi Hle. pose proof (ho_delivered _ Hok) as Hlt.
  destruct (handle_message_start peer (msg i) s Hok) as (data&s1&Hd1&Hrun&Hdel&Hin&_&Hcases).
  change (key_of peer (msg i)) with key in *.
  assert (∃ n ch, receiving A n n ch data s1 ∧ n ∉ A ∧ (c0 ≤ ch)%nat ∧
    ∀ k d, s1.(inbound_stream_data) !! k = Some d → d.(sender) ≠ ch) as (n&ch&HR&Hn&Hch&Hothers).
  { destruct Hph as [-> Hk|ch data' n Hk HR Hn Hc|ch Hk (HA&_) _]; [..|by destruct Hi; apply HA].
    - destruct Hcases as [[Hk' _]|(_&->&Hc)]; [congruence|].
      exists 0, (length s.(channels)). split_and!; [|set_solver|done|].
      + apply receiving_new; [|done..]. apply filter_none. rewrite Forall_forall in Hlt.
        intros r Hr. specialize (Hlt _ Hr). lia.
      + intros k d. rewrite Hdel, lookup_delete_Some. intros [_ Hd].
        destruct (ho_data _ Hok _ _ Hd). lia.
    - destruct Hcases as [[Hk' Hchans]|(Hk'&_)]; [|congruence]. assert (data' = data) as -> by congruence.
      exists n, ch. split_and!; [|done|done|].
      + destruct HR. split; congruence || done.
      + intros k d. rewrite Hdel, lookup_delete_Some. intros [Hne Hd] Heq. apply Hne.
        eapply (ho_inj _ Hok); [exact Hk|exact Hd|]. rewrite (rc_sender _ _ _ _ _ _ HR). done. }
  destruct (receive _ _ _ _ _ _ HR Hn Hi Hle) as (o&s2&Hinner&Hisd&Hres).
  rewrite Hrun, (bind_run _ _ _ _ _ Hinner). destruct o as [data'|].
  - destruct Hres as (n'&HR'&Hn'). eexists. split; [reflexivity|].
    eapply (phase_open _ _ ch data' n'); [simpl; by rewrite lookup_insert_eq| |done|done].
    destruct HR'. by split.
  - eexists. split; [reflexivity|]. apply (phase_done _ _ ch); [|done| |done]; rewrite Hisd.
    + by rewrite Hdel, lookup_delete_eq.
    + exact Hothers.
Qed.

(** The phase depends on the stream's data, its channel and what was delivered of it. *)
Lemma phase_change A s s' :
  phase A s → handler_ok s → s'.(inbound_stream_data) !! key = s.(inbound_stream_data) !! key →
  (∀ ch, (ch < length s.(channels))%nat →
    (∀ k data, k ≠ key → s.(inbound_stream_data) !! k = Some data → data.(sender) ≠ ch) →
    s'.(channels) !! ch = s.(channels) !! ch ∧
    filter (λ r, r = ch) s'.(inbound_channel) = filter (λ r, r = ch) s.(inbound_channel)) →
  (∀ ch, (ch < length s.(channels))%nat →
    (∀ k data, s.(inbound_stream_data) !! k = Some data → data.(sender) ≠ ch) →
    ∀ k data, s'.(inbound_stream_data) !! k = Some data → data.(sender) ≠ ch) →
  phase A s'.
Proof.
  intros Hph Hok Hk Hch Hsend'. destruct Hph as [-> Hn|ch data n Hd HR Hn Hc|ch Hn HC Hs Hc].
  - apply phase_none; congruence.
  - pose proof (lookup_lt_Some _ _ _ (rc_channel _ _ _ _ _ _ HR)) as Hlt.
    destruct (Hch ch Hlt) as [E1 E2].
    { intros k d Hne Hkd Heq. apply Hne. eapply (ho_inj _ Hok); [exact Hkd|exact Hd|].
      by rewrite (rc_sender _ _ _ _ _ _ HR). }
    apply (phase_open _ _ ch data n); [congruence| |done|done]. destruct HR. split; try done; congruence.
  - destruct HC as (HA&Hchan&Hdel). pose proof (lookup_lt_Some _ _ _ Hchan) as Hlt.
    destruct (Hch ch Hlt) as [E1 E2]; [by eauto|].
    apply (phase_done _ _ ch); [congruence|split_and!; [done|congruence..]| |done]. by apply Hsend'.
Qed.

Lemma other_phase A k s s' :
  k ≠ key → other_stream k s s' → handler_ok s → phase A s → phase A s'.
Proof.
  intros Hne [Hd Hch Hl Hsd _] Hok Hph. apply (phase_change A s); try done; [by apply Hd| |].
  - intros ch Hlt Hno. apply Hch; [done|]. intros data Hdata. by eapply Hno.
  - intros ch Hlt Hno k' data Hk'. destruct (decide (k' = k)) as [->|Hkk].
    + destruct (Hsd _ Hk') as [(d&Hd'&->)|?]; [by eapply Hno|lia].
    + rewrite Hd in Hk' by done. by eapply Hno.
Qed.

Definition inbound_same s s' : Prop :=
  s'.(channels) = s.(channels) ∧ s'.(inbound_channel) = s.(inbound_channel) ∧
  s'.(inbound_stream_data) = s.(inbound_stream_data).

Lemma same_ok s s' : inbound_same s s' → handler_ok s → handler_ok s'.
Proof.
  intros (E1&E2&E3) []. split; rewrite ?E1, ?E2, ?E3; try done.
  intros k data Hk. unfold data_ok. rewrite E1. by apply (ho_data0 k).
Qed.

Lemma same_phase A s s' : inbound_same s s' → handler_ok s → phase A s → phase A s'.
Proof.
  intros (E1&E2&E3) Hok Hph. apply (phase_change A s); try done; rewrite ?E3; try done.
  intros ch _ _. by rewrite E1, E2.
Qed.

(** The messages of the stream among the inputs. *)
Definition own_input (input : StreamInput T) : option (StreamMessage T) :=
  match input with
  | InMessage originator (Some m) => if decide ((originator, m.(stream_id)) = key) then Some m else None
  | _ => None
  end.

Lemma outbound_same input s :
  match input with InMessage _ (Some _) => False | _ => True end →
  wp (stream_step try_send try_send_receiver broadcast_ok input) s (λ res s',
    match res with Ok _ => inbound_same s s' | _ => True end).
Proof.
  intros Hin. unfold wp. destruct input as [id|id [content|]|o [m|]]; simpl; try done; mstep.
  - case_decide; [|done]. unfold stream_broadcast, broadcast_message. mstep.
    destruct (broadcast_ok _); mstep; [|done]. by destruct (checked_add _ _ _).
  - case_decide; [|done]. mstep. unfold broadcast_fin, broadcast_message. mstep.
    by destruct (broadcast_ok _).
Qed.

Lemma step_phase A s input s' :
  phase A s → handler_ok s → own_input input = None →
  stream_step try_send try_send_receiver broadcast_ok input s = (Ok tt, s') →
  phase A s' ∧ handler_ok s' ∧ (length s.(channels) ≤ length s'.(channels))%nat.
Proof.
  intros Hph Hok Hown Hrun.
  assert (match input with InMessage _ (Some _) => False | _ => True end →
    phase A s' ∧ handler_ok s' ∧ (length s.(channels) ≤ length s'.(channels))%nat) as Hout.
  { intros Hin. pose proof (outbound_same input s Hin) as Hs. unfold wp in Hs. rewrite Hrun in Hs.
    simpl in Hs. split_and!; [by eapply same_phase|by eapply same_ok|]. destruct Hs as (->&_). done. }
  destruct input as [id|id o|o [m|]]; try exact (Hout I).
  cbn [own_input stream_step] in Hown, Hrun. case_decide as Hkey; [done|].
  pose proof (handle_message_frame o m s Hok) as Hf. unfold wp in Hf. rewrite Hrun in Hf.
  destruct Hf as [Hok' Hos]. split_and!; [|done|apply (os_length _ _ _ Hos)].
  by apply (other_phase A (key_of o m) s s').
Qed.

Lemma run_phase inputs A R s s' :
  phase A s → handler_ok s → (c0 ≤ length s.(channels))%nat →
  omap own_input inputs ≡ₚ msg <$> R → NoDup R → (∀ i, i ∈ R → i ∉ A ∧ i ≤ len) →
  stream_run try_send try_send_receiver broadcast_ok inputs s = (Ok tt, s') →
  phase (A ∪ list_to_set R) s'.
Proof.
  revert A R s. induction inputs as [|input inputs IH]; intros A R s Hph Hok Hc Hperm Hnd HR Hrun.
  { simpl in *. apply Permutation_nil_l, eq_sym, fmap_nil_inv in Hperm as ->. injection Hrun as <-.
    by rewrite list_to_set_nil, (right_id_L ∅ (∪)). }
  unfold stream_run in Hrun. simpl in Hrun. unfold mbind, M_bind in Hrun.
  destruct (stream_step _ _ _ input s) as [[[]| |] s1] eqn:Hstep; [|by simplify_eq..].
  fold (stream_run try_send try_send_receiver broadcast_ok inputs) in Hrun.
  simpl in Hperm. destruct (own_input input) as [m|] eqn:Hown.
  - assert (∃ i, m = msg i ∧ i ∈ R) as (i&->&Hi).
    { apply (list_elem_of_fmap_1 msg). rewrite <-Hperm. left. }
    apply elem_of_Permutation in Hi as [R' HR']. rewrite HR' in Hperm, Hnd.
    apply Permutation_cons_inv in Hperm. apply NoDup_cons in Hnd as [HiR' Hnd].
    destruct (HR i) as [HiA Hile]; [rewrite HR'; left|].
    destruct input as [| |o [m'|]]; try done. cbn [own_input stream_step] in Hown, Hstep. case_decide as Hk; [|done].
    injection Hown as ->. injection Hk as ->.
    destruct (own_message A s i Hph Hok Hc HiA Hile) as (s1'&Hrun1&Hph1).
    rewrite Hrun1 in Hstep. injection Hstep as ->.
    pose proof (handle_message_frame peer (msg i) s Hok) as Hf. unfold wp in Hf. rewrite Hrun1 in Hf.
    cbn [fst snd] in Hf. destruct Hf as [Hok1 Hos]. pose proof (os_length _ _ _ Hos).
    assert (A ∪ list_to_set R = {[i]} ∪ A ∪ list_to_set R' :> gset N) as -> by (rewrite HR'; set_solver).
    eapply IH; try done; [lia|]. intros j Hj. destruct (HR j) as [HjA Hj']; [rewrite HR'; by right|].
    split; [|done]. set_solver.
  - destruct (step_phase A s input s1 Hph Hok Hown Hstep) as (?&?&?). eapply IH; try done; lia.
Qed.
End one_stream.

(** ** Sending *)

(** The messages of a stream: its contents, numbered from zero, then its end. *)
Definition stream_messages (sid : StreamId) (cs : list T) : list (StreamMessage T) :=
  imap (λ i c, Build_StreamMessage (Content c) sid (N.of_nat i)) cs ++
  [Build_StreamMessage Fin sid (N.of_nat (length cs))].

Lemma stream_messages_msg sid cs :
  stream_messages sid cs = msg sid cs <$> (N.of_nat <$> seq 0 (S (length cs))).
Proof.
  unfold stream_messages. rewrite seq_S, !fmap_app. simpl. f_equal.
  - apply list_eq. intros i. rewrite list_lookup_imap, !list_lookup_fmap.
    destruct (cs !! i) as [c|] eqn:Hc.
    + rewrite lookup_seq_lt by (by eapply lookup_lt_Some). simpl. unfold msg. by rewrite Nat2N.id, Hc.
    + rewrite lookup_seq_ge by (by apply lookup_ge_None). done.
  - unfold msg. rewrite Nat2N.id, lookup_ge_None_2 by lia. done.
Qed.

Section sending.
Context (sid : StreamId).

Definition sent_by s : list (StreamMessage T) := filter (λ m, m.(stream_id) = sid) s.(outbound).

Definition output_of (input : StreamInput T) : option (option T) :=
  match input with InOutput id output => if decide (id = sid) then Some output else None | _ => None end.

(** What the other inputs leave as it is. *)
Definition sending_kept s s' : Prop :=
  sent_by s' = sent_by s ∧ outbound_number s' sid = outbound_number s sid ∧
  (sid ∈ s.(outbound_stream_receivers) → sid ∈ s'.(outbound_stream_receivers)).

Lemma other_output input s :
  handler_ok s → output_of input = None →
  wp (stream_step try_send try_send_receiver broadcast_ok input) s (λ res s', match res with
    | Ok _ => sending_kept s s' ∧ handler_ok s' | _ => True end).
Proof.
  intros Hok Hin. unfold wp. destruct input as [id|id output|o [m|]]; cbn [stream_step]; mstep.
  - split; [|by apply (same_ok s)]. split_and!; [done|done|]. simpl. set_solver.
  - simpl in Hin. case_decide as Hne; [done|]. case_decide; [|done]. destruct output as [content|].
    + unfold stream_broadcast, broadcast_message. mstep. destruct (broadcast_ok _); mstep; [|done].
      destruct (checked_add _ _ _); mstep; [|done]. split; [|by apply (same_ok s)]. split_and!; [..|done].
      * unfold sent_by. simpl. rewrite filter_app, filter_cons_False, app_nil_r by done. done.
      * unfold outbound_number. simpl. by rewrite lookup_insert_ne.
    + mstep. unfold broadcast_fin, broadcast_message. mstep. destruct (broadcast_ok _); mstep; [|done].
      split; [|by apply (same_ok s)]. split_and!; simpl; [..|set_solver].
      * unfold sent_by. simpl. rewrite filter_app, filter_cons_False, app_nil_r by done. done.
      * unfold outbound_number. simpl. by rewrite lookup_delete_ne.
  - pose proof (handle_message_frame o m s Hok) as Hf. unfold wp in Hf.
    destruct (handle_message _ _ _ _ s) as [[]]; try done. destruct Hf as [Hok' Hos]. split; [|done].
    pose proof (os_out _ _ _ Hos) as Ho. injection Ho as E1 E2 E3.
    unfold sending_kept, sent_by, outbound_number. simpl in *. by rewrite E1, E2, E3.
  - done.
Qed.

(** The messages of a stream that has reached number [k]. *)
Fixpoint numbered (k : MessageId) (cs : list T) : list (StreamMessage T) :=
  match cs with
  | [] => [Build_StreamMessage Fin sid k]
  | c :: cs => Build_StreamMessage (Content c) sid k :: numbered (k + 1) cs
  end.

Lemma numbered_messages cs : numbered 0 cs = stream_messages sid cs.
Proof.
  unfold stream_messages. enough (∀ j, numbered (N.of_nat j) cs =
    imap (λ i c, Build_StreamMessage (Content c) sid (N.of_nat (j + i))) cs ++
    [Build_StreamMessage Fin sid (N.of_nat (j + length cs))]) as H by apply (H 0%nat).
  induction cs as [|c cs IH]; intros j; simpl; [by rewrite Nat.add_0_r|].
  rewrite Nat.add_0_r. f_equal. replace (N.of_nat j + 1) with (N.of_nat (S j)) by lia. rewrite IH.
  f_equal; [|do 2 f_equal; lia]. apply imap_ext. intros i x _. simpl. do 2 f_equal. lia.
Qed.

(** One more content, and the end. *)
Lemma own_output output s s' :
  sid ∈ s.(outbound_stream_receivers) → handler_ok s →
  stream_step try_send try_send_receiver broadcast_ok (InOutput sid output) s = (Ok tt, s') →
  handler_ok s' ∧
  match output with
  | Some c => sent_by s' = sent_by s ++ [Build_StreamMessage (Content c) sid (outbound_number s sid)] ∧
      outbound_number s' sid = outbound_number s sid + 1 ∧ sid ∈ s'.(outbound_stream_receivers)
  | None => sent_by s' = sent_by s ++ [Build_StreamMessage Fin sid (outbound_number s sid)]
  end.
Proof.
  intros Hin Hok. cbn [stream_step]. mstep. rewrite decide_True by done. destruct output as [content|].
  - unfold stream_broadcast, broadcast_message. mstep. destruct (broadcast_ok _); mstep; [|done].
    unfold checked_add. case_decide; mstep; [|done]. intros [= <-]. split; [by apply (same_ok s)|].
    split_and!; [..|done].
    + unfold sent_by. simpl. by rewrite filter_app, filter_cons_True.
    + unfold outbound_number at 1. simpl. by rewrite lookup_insert_eq.
  - mstep. unfold broadcast_fin, broadcast_message. mstep. destruct (broadcast_ok _); mstep; [|done].
    intros [= <-]. split; [by apply (same_ok s)|]. unfold sent_by. simpl. by rewrite filter_app, filter_cons_True.
Qed.

Lemma run_sent inputs s s' :
  handler_ok s → stream_run try_send try_send_receiver broadcast_ok inputs s = (Ok tt, s') →
  (omap output_of inputs = [] → sent_by s' = sent_by s) ∧
  ∀ cs, omap output_of inputs = (Some <$> cs) ++ [None] → sid ∈ s.(outbound_stream_receivers) →
    sent_by s' = sent_by s ++ numbered (outbound_number s sid) cs.
Proof.
  revert s. induction inputs as [|input inputs IH]; intros s Hok Hrun.
  { injection Hrun as <-. split; [done|]. intros [|] Hcs; by simpl in Hcs. }
  unfold stream_run in Hrun. simpl in Hrun. unfold mbind, M_bind in Hrun.
  destruct (stream_step _ _ _ input s) as [[[]| |] s1] eqn:Hstep; [|by simplify_eq..].
  fold (stream_run try_send try_send_receiver broadcast_ok inputs) in Hrun.
  simpl. destruct (output_of input) as [output|] eqn:Ho.
  - split; [done|]. destruct input as [|id output'|]; try done. simpl in Ho. case_decide; [subst id|done].
    injection Ho as ->. intros cs Hcs Hin. destruct (own_output output s s1 Hin Hok Hstep) as [Hok1 Hsent].
    destruct (IH s1 Hok1 Hrun) as [IHnil IHcs]. destruct cs as [|c cs]; injection Hcs as -> Hcs.
    + by rewrite IHnil, Hsent.
    + destruct Hsent as (Hs&Hn&Hin'). rewrite (IHcs cs Hcs Hin'), Hs, Hn, <-(assoc_L app). done.
  - pose proof (other_output input s Hok Ho) as Hk. unfold wp in Hk. rewrite Hstep in Hk.
    simpl in Hk. destruct Hk as [(Hs&Hn&Hr) Hok1]. destruct (IH s1 Hok1 Hrun) as [IHnil IHcs].
    rewrite <-Hs, <-Hn. split; [done|]. intros cs Hcs Hin. apply IHcs; auto.
Qed.
End sending.
End streams.

(** What the application finds of a stream: its own channel, with all contents, closed, and
    passed to the application once unless the stream is empty. *)
Definition delivered {T} (s0 s : StreamHandler T) (key : PeerId * StreamId) (cs : list T) : Prop :=
  s.(inbound_stream_data) !! key = None ∧
  ∃ ch, (length s0.(channels) ≤ ch)%nat ∧ s.(channels) !! ch = Some (Build_Channel cs true) ∧
    filter (λ r, r = ch) s.(inbound_channel) = if decide (cs = []) then [] else [ch].

Lemma run_delivers {T} try_send try_send_receiver broadcast_ok peer sid (cs : list T) inputs s s' :
  (∀ ch sent, try_send ch sent = Sent) → (∀ l, try_send_receiver l = true) →
  N.of_nat (length cs) ≤ u64_max →
  handler_ok s → s.(inbound_stream_data) !! (peer, sid) = None →
  omap (own_input peer sid) inputs ≡ₚ stream_messages sid cs →
  stream_run try_send try_send_receiver broadcast_ok inputs s = (Ok tt, s') →
  delivered s s' (peer, sid) cs.
Proof.
  intros Hsend Happ Hlen Hok Hk Hperm Hrun. rewrite stream_messages_msg in Hperm.
  assert (∀ i, i ∈ N.of_nat <$> seq 0 (S (length cs)) ↔ i ≤ N.of_nat (length cs)) as Hin.
  { intros i. rewrite list_elem_of_fmap. setoid_rewrite elem_of_seq. split.
    - intros (j&->&?). lia.
    - intros Hi. exists (N.to_nat i). lia. }
  pose proof (run_phase try_send try_send_receiver broadcast_ok Hsend Happ peer sid cs Hlen
    (length s.(channels)) inputs ∅ _ s s' (phase_none _ _ _ _ _ _ eq_refl Hk) Hok ltac:(done) Hperm) as Hph.
  destruct Hph as [He Hn|ch data n _ HR Hn|ch Hn (_&Hch&Hd) _ Hc].
  - apply (NoDup_fmap_2 _), NoDup_seq.
  - intros i Hi%Hin. split; [set_solver|done].
  - done.
  - exfalso. apply (not_elem_of_empty (C := gset N) 0). rewrite <-He, elem_of_union, elem_of_list_to_set, Hin. right. lia.
  - exfalso. apply Hn. rewrite elem_of_union, elem_of_list_to_set, Hin. right. by apply (rc_le _ _ _ _ _ _ _ _ HR).
  - split; [done|]. by exists ch.
Qed.

(** Two contents of a stream arrive after its end, in the wrong order, with a message of another
    stream in between. *)
Module StreamScenario.
Definition all_sent (_ : nat) (_ : list N) : TrySend := Sent.
Definition accept (_ : list nat) : bool := true.
Definition broadcast_ok (_ : list (StreamMessage N)) : bool := true.
Definition inputs : list (StreamInput N) :=
  [InMessage 1 (Some (Build_StreamMessage Fin 5 2));
   InMessage 1 (Some (Build_StreamMessage (Content 8) 5 1));
   InMessage 2 (Some (Build_StreamMessage (Content 9) 5 0));
   InMessage 1 (Some (Build_StreamMessage (Content 7) 5 0))].
Definition outputs : list (StreamInput N) :=
  [InNewStream 4; InOutput 5 (Some 7); InOutput 4 (Some 1); InOutput 5 (Some 8); InOutput 5 None].
Definition sending : StreamHandler N := Build_StreamHandler [] [] ∅ {[5]} ∅ [].
Definition received : StreamHandler N :=
  (stream_run all_sent accept broadcast_ok inputs StreamHandler_new).2.
Definition sent : StreamHandler N := (stream_run all_sent accept broadcast_ok outputs sending).2.

Lemma inputs_perm : omap (own_input 1 5) inputs ≡ₚ stream_messages 5 [7; 8].
Proof.
  change (omap (own_input 1 5) inputs) with (rev (stream_messages 5 [7; 8])).
  symmetry. apply Permutation_rev.
Qed.

Lemma handler_ok_start r : handler_ok (Build_StreamHandler [] [] ∅ r ∅ [] : StreamHandler N).
Proof. split; [..|by constructor]; intros *; simpl; by rewrite lookup_empty. Qed.
End StreamScenario.

(** C40: Streams arrive in order. If the messages of a stream arrive in any order, once each,
    among any messages of other streams and peers, the application gets one channel for the
    stream with exactly its contents in the order of their numbers, and the channel is closed
    at the end; the handler keeps nothing of the stream. The application keeps reading (no
    channel is full or dropped). *)
Theorem streams_arrive_in_order {T} try_send try_send_receiver broadcast_ok peer sid (cs : list T) inputs s s' :
  (∀ ch sent, try_send ch sent = Sent) → (∀ l, try_send_receiver l = true) →
  N.of_nat (length cs) ≤ u64_max →
  handler_ok s → s.(inbound_stream_data) !! (peer, sid) = None →
  omap (own_input peer sid) inputs ≡ₚ stream_messages sid cs →
  stream_run try_send try_send_receiver broadcast_ok inputs s = (Ok tt, s') →
  delivered s s' (peer, sid) cs.
Proof. apply run_delivers. Qed.

Lemma streams_arrive_in_order_witness :
  delivered StreamHandler_new StreamScenario.received (1, 5) [7; 8].
Proof.
  apply (streams_arrive_in_order StreamScenario.all_sent StreamScenario.accept StreamScenario.broadcast_ok
    1 5 [7; 8] StreamScenario.inputs).
  - done.
  - done.
  - vm_compute. discriminate.
  - apply StreamScenario.handler_ok_start.
  - vm_compute. reflexivity.
  - apply StreamScenario.inputs_perm.
  - vm_compute. reflexivity.
Defined.

(** What one node sends another receives. The contents that the application of the sender
    puts on a stream and the end of the stream are broadcast with numbers from zero on, whatever
    other streams do; the receiver's application reads the same contents in the same order,
    however the network reorders the messages. *)
Theorem stream_roundtrip {T} try_send try_send_receiver broadcast_ok peer sid (cs : list T)
    outputs s1 s1' inputs s2 s2' :
  (∀ ch sent, try_send ch sent = Sent) → (∀ l, try_send_receiver l = true) →
  N.of_nat (length cs) ≤ u64_max →
  handler_ok s1 → sid ∈ s1.(outbound_stream_receivers) → outbound_number s1 sid = 0 → sent_by sid s1 = [] →
  omap (output_of sid) outputs = (Some <$> cs) ++ [None] →
  stream_run try_send try_send_receiver broadcast_ok outputs s1 = (Ok tt, s1') →
  handler_ok s2 → s2.(inbound_stream_data) !! (peer, sid) = None →
  omap (own_input peer sid) inputs ≡ₚ sent_by sid s1' →
  stream_run try_send try_send_receiver broadcast_ok inputs s2 = (Ok tt, s2') →
  delivered s2 s2' (peer, sid) cs.
Proof.
  intros Hsend Happ Hlen Hok1 Hin Hnum Hsent Hout Hrun1 Hok2 Hk Hperm Hrun2.
  destruct (run_sent try_send try_send_receiver broadcast_ok sid outputs s1 s1' Hok1 Hrun1) as [_ Hs].
  rewrite (Hs cs Hout Hin), Hsent, Hnum, numbered_messages in Hperm. by eapply run_delivers.
Qed.

Lemma stream_roundtrip_witness :
  delivered StreamHandler_new StreamScenario.received (1, 5) [7; 8].
Proof.
  apply (stream_roundtrip StreamScenario.all_sent StreamScenario.accept StreamScenario.broadcast_ok
    1 5 [7; 8] StreamScenario.outputs StreamScenario.sending StreamScenario.sent StreamScenario.inputs).
  - done.
  - done.
  - vm_compute. discriminate.
  - apply StreamScenario.handler_ok_start.
  - by apply (bool_decide_unpack _); vm_compute.
  - vm_compute. reflexivity.
  - vm_compute. reflexivity.
  - reflexivity.
  - vm_compute. reflexivity.
  - apply StreamScenario.handler_ok_start.
  - vm_compute. reflexivity.
  - assert (sent_by 5 StreamScenario.sent = stream_messages 5 [7; 8]) as -> by (vm_compute; reflexivity).
    apply StreamScenario.inputs_perm.
  - vm_compute. reflexivity.
Defined.
