(* ===== verification/PatriciaTypes.v ===== *)
(** Indices, paths and leaf index slices of the Patricia-Merkle tree
    (crates/starknet_patricia/src/patricia_merkle_tree: types.rs,
    node_data/inner_node.rs, original_skeleton_tree/utils.rs).

    The tree has height 251. The root has index 1 and the children of node [i] have
    indices [2 * i] and [2 * i + 1], so that the leaves are the indices of 252 bits. A
    [NodeIndex] wraps a 256-bit integer and its operations assert that the result fits
    252 bits; here it is an [N] and an operation whose assertion fails panics. The second
    half of the file gives the meaning of the operations on the ancestor order [below]. *)
From S2P Require Import Prelude.
From S2P Require Import StarknetApi.

(** ** Results without a state *)

#[global] Instance result_ret {E} : MRet (result E) := λ A a, Ok a.
#[global] Instance result_bind {E} : MBind (result E) := λ A B f m,
  match m with Ok a => f a | Err e => Err e | Panic => Panic end.

(** [r.expect(..)] and [r.map_err(f)]. *)
Definition unwrap_result {E E' A} (r : result E A) : result E' A :=
  match r with Ok a => Ok a | _ => Panic end.
Definition map_err {E E' A} (f : E → E') (r : result E A) : result E' A :=
  match r with Ok a => Ok a | Err e => Err (f e) | Panic => Panic end.
Definition ok_or_panic {E A} (o : option A) : result E A :=
  match o with Some a => Ok a | None => Panic end.
Definition check {E} (b : bool) : result E unit := if b then Ok tt else Panic.

(** ** Machine integers *)

Definition u8_max : N := 2 ^ 8 - 1.
Definition u8_add {E} (a b : N) : result E N := if decide (a + b ≤ u8_max) then Ok (a + b) else Panic.
Definition u8_sub {E} (a b : N) : result E N := if decide (b ≤ a) then Ok (a - b) else Panic.

Definition U256_BITS : N := 256.
Definition U256_leading_zeros (a : N) : N := U256_BITS - N.size a.
Definition U256_shl (a k : N) : N := N.shiftl a k mod 2 ^ U256_BITS.
Definition U256_sub {E} (a b : N) : result E N := if decide (b ≤ a) then Ok (a - b) else Panic.

(** ** Paths (inner_node.rs) *)

Definition ACTUAL_HEIGHT : N := 251.

Definition SubTreeHeight_new {E} (height : N) : result E N :=
  if decide (ACTUAL_HEIGHT < height) then Panic else Ok height.

Inductive PathToBottomError := RemoveEdgesError (length n_edges : N) | MismatchedLengthError (path length : N).
Inductive EdgePathError := IllegalLength (length : N).

Definition EdgePath_MAX : N := 2 ^ 251 - 1.
Definition EdgePath_from {E} (value : N) : result E N :=
  if decide (value ≤ EdgePath_MAX) then Ok value else Panic.

Definition EdgePathLength_ONE : N := 1.
Definition EdgePathLength_MAX : N := ACTUAL_HEIGHT.
Definition EdgePathLength_new (length : N) : result EdgePathError N :=
  if decide (EdgePathLength_MAX < length) then Err (IllegalLength length) else Ok length.

Record PathToBottom := { path : N; path_length : N }.

#[global] Instance PathToBottom_eq_dec : EqDecision PathToBottom.
Proof. solve_decision. Defined.

Definition PathToBottom_new (path length : N) : result PathToBottomError PathToBottom :=
  let bit_length := U256_BITS - U256_leading_zeros path in
  if decide (length < bit_length) then Err (MismatchedLengthError path length)
  else Ok {| path := path; path_length := length |}.

Definition LEFT_CHILD : PathToBottom := {| path := 0; path_length := 1 |}.
Definition RIGHT_CHILD : PathToBottom := {| path := 1; path_length := 1 |}.

Definition is_left_descendant {E} (self : PathToBottom) : result E bool :=
  k ← u8_sub (path_length self) 1;
  mret (bool_decide (N.shiftr (path self) k = 0)).

Definition concat_paths {E} (self other : PathToBottom) : result E PathToBottom :=
  p ← EdgePath_from (U256_shl (path self) (path_length other) + path other);
  l ← u8_add (path_length self) (path_length other);
  unwrap_result (PathToBottom_new p l).

Definition remove_first_edges (self : PathToBottom) (n_edges : N) : result PathToBottomError PathToBottom :=
  if decide (path_length self < n_edges) then Err (RemoveEdgesError (path_length self) n_edges)
  else
    k ← u8_sub (path_length self) n_edges;
    mask ← U256_sub (U256_shl 1 k) 1;
    PathToBottom_new (N.land (path self) mask) k.

(** ** Node indices (types.rs) *)

Definition NodeIndex_BITS : N := ACTUAL_HEIGHT + 1.
Definition ROOT : N := 1.
Definition FIRST_LEAF : N := 2 ^ 251.
Definition NodeIndex_MAX : N := 2 ^ 252 - 1.

Definition NodeIndex_new {E} (index : N) : result E N :=
  if decide (index ≤ NodeIndex_MAX) then Ok index else Panic.

Definition is_leaf (self : N) : bool := bool_decide (FIRST_LEAF ≤ self ∧ self ≤ NodeIndex_MAX).

Definition NodeIndex_add {E} (self rhs : N) : result E N := NodeIndex_new (self + rhs).
Definition NodeIndex_mul {E} (self rhs : N) : result E N := NodeIndex_new (self * rhs).
Definition NodeIndex_sub {E} (self rhs : N) : result E N := U256_sub self rhs.
Definition NodeIndex_shl {E} (self rhs : N) : result E N := NodeIndex_new (U256_shl self rhs).
Definition NodeIndex_shr {E} (self rhs : N) : result E N := NodeIndex_new (N.shiftr self rhs).

Definition compute_bottom_index {E} (index : N) (path_to_bottom : PathToBottom) : result E N :=
  i ← NodeIndex_shl index (path_length path_to_bottom);
  p ← NodeIndex_new (path path_to_bottom);
  NodeIndex_add i p.

Definition bottom_index {E} (self : PathToBottom) (root_index : N) : result E N :=
  compute_bottom_index root_index self.

Definition get_children_indices {E} (self : N) : result E (N * N) :=
  left_child ← NodeIndex_shl self 1;
  right_child ← NodeIndex_add left_child 1;
  mret (left_child, right_child).

Definition leading_zeros {E} (self : N) : result E N :=
  u8_sub (U256_leading_zeros self) (U256_BITS - NodeIndex_BITS).

Definition bit_length {E} (self : N) : result E N :=
  z ← leading_zeros self; u8_sub NodeIndex_BITS z.

(** Brings the two indices to a common (low) height. *)
Definition adapt_to_common_height {E} (self other bl other_bl : N) : result E (N * N) :=
  if decide (self < other) then
    k ← u8_sub other_bl bl; adapted_other ← NodeIndex_shr other k; mret (self, adapted_other)
  else
    k ← u8_sub bl other_bl; adapted_self ← NodeIndex_shr self k; mret (adapted_self, other).

Definition get_lca {E} (self other : N) : result E N :=
  if decide (self = other) then Ok self
  else
    bl ← bit_length self;
    other_bl ← bit_length other;
    adapted ← adapt_to_common_height self other bl other_bl;
    xor ← NodeIndex_new (N.lxor adapted.1 adapted.2);
    post_common_prefix_len ← bit_length xor;
    NodeIndex_new (N.shiftr adapted.1 post_common_prefix_len).

Definition get_path_to_descendant {E} (self descendant : N) : result E PathToBottom :=
  descendant_bl ← bit_length descendant;
  bl ← bit_length self;
  if decide (descendant_bl < bl) then Panic
  else
    distance ← u8_sub descendant_bl bl;
    top ← NodeIndex_shl self distance;
    delta ← NodeIndex_sub descendant top;
    anc ← NodeIndex_shr descendant distance;
    if decide (anc ≠ self) then Panic
    else
      p ← EdgePath_from delta;
      l ← unwrap_result (EdgePathLength_new distance);
      unwrap_result (PathToBottom_new p l).

Definition from_leaf_felt {E} (felt : N) : result E N := NodeIndex_add FIRST_LEAF felt.

(** [TryFrom<NodeIndex> for Felt]; [None] is the conversion error. *)
Definition Felt_try_from (value : N) : option N :=
  if decide (felt_prime - 1 < value) then None else Some (value mod felt_prime).

(** ** Sorted leaf indices (types.rs) *)

Definition SortedLeafIndices_new (indices : list N) : list N := merge_sort N.le indices.

(** [slice::binary_search] on a sorted slice without duplicates: the position of the
    value, or the position where it can be inserted. *)
Fixpoint lower_bound (l : list N) (value : N) : nat :=
  match l with
  | [] => 0
  | x :: l => if decide (x < value) then S (lower_bound l value) else 0
  end.

Definition binary_search (l : list N) (value : N) : nat + nat :=
  let pos := lower_bound l value in
  if decide (l !! pos = Some value) then inl pos else inr pos.

Definition bisect_left (self : list N) (leftmost_value : N) : nat :=
  match binary_search self leftmost_value with inl pos | inr pos => pos end.

Definition bisect_right (self : list N) (rightmost_value : N) : nat :=
  match binary_search self rightmost_value with inr pos => pos | inl pos => S pos end.

(** [&self.0[a..b]]. *)
Definition subslice {E} (self : list N) (leftmost_idx rightmost_idx : nat) : result E (list N) :=
  if decide (leftmost_idx ≤ rightmost_idx ∧ rightmost_idx ≤ List.length self)%nat
  then Ok (drop leftmost_idx (take rightmost_idx self)) else Panic.

Definition divide_at_index {E} (self : list N) (idx : nat) : result E (list N * list N) :=
  if decide (idx ≤ List.length self)%nat then Ok (take idx self, drop idx self) else Panic.

(** ** Splitting the leaves of a subtree (utils.rs) *)

Definition get_node_height {E} (index : N) : result E N :=
  bl ← bit_length index;
  h ← u8_sub (ACTUAL_HEIGHT + 1) bl;
  SubTreeHeight_new h.

Definition assert_descendant {E} (root_index root_height leaf_index : N) : result E unit :=
  anc ← NodeIndex_shr leaf_index root_height;
  check (bool_decide (anc = root_index)).

Definition split_leaves {E} (root_index : N) (leaf_indices : list N) : result E (list N * list N) :=
  match leaf_indices with
  | [] => Ok ([], [])
  | first_leaf :: _ =>
      root_height ← get_node_height root_index;
      _ ← assert_descendant root_index root_height first_leaf;
      _ ← (if decide (1 < List.length leaf_indices)%nat then
             last_leaf ← ok_or_panic (last leaf_indices);
             assert_descendant root_index root_height last_leaf
           else Ok tt);
      left_child_index ← NodeIndex_shl root_index 1;
      right_child_index ← NodeIndex_add left_child_index 1;
      k ← u8_sub root_height 1;
      leftmost_index_in_right_subtree ← NodeIndex_shl right_child_index k;
      divide_at_index leaf_indices (bisect_left leaf_indices leftmost_index_in_right_subtree)
  end.

(** ** The ancestor order

    [below i j]: node [j] is in the subtree of node [i]. *)

Definition below (i j : N) : Prop := 0 < i ∧ ∃ k, N.shiftr j k = i.
Definition strictly_below (i j : N) : Prop := below i j ∧ j ≠ i.

(** Node [i] is at height [h]: its subtree has height [h]. *)
Definition at_height (h : nat) (i : N) : Prop :=
  (h ≤ 251)%nat ∧ 0 < i ∧ N.log2 i + N.of_nat h = 251.

Definition bottom (i : N) (p : PathToBottom) : N := i * 2 ^ path_length p + path p.
Definition path_ok (p : PathToBottom) : Prop := path p < 2 ^ path_length p ∧ path_length p ≤ 251.

Lemma pow2_pos k : 0 < 2 ^ k.
Proof. apply N.neq_0_lt_0, N.pow_nonzero. lia. Qed.

Lemma shiftr_log2 j k : 0 < N.shiftr j k → N.log2 j = N.log2 (N.shiftr j k) + k ∧ 0 < j.
Proof.
  intros Hpos. destruct (N.eq_0_gt_0_cases j) as [->|Hj]; [by rewrite N.shiftr_0_l in Hpos|].
  split; [|done]. rewrite N.log2_shiftr.
  destruct (N.le_gt_cases k (N.log2 j)) as [|Hk]; [lia|].
  rewrite N.shiftr_eq_0 in Hpos by done. lia.
Qed.

Lemma below_pos i j : below i j → 0 < i ∧ 0 < j.
Proof. intros [? [k <-]]. split; [done|]. by apply (shiftr_log2 j k). Qed.

Lemma below_shiftr i j : below i j ↔ 0 < i ∧ N.log2 i ≤ N.log2 j ∧ N.shiftr j (N.log2 j - N.log2 i) = i.
Proof.
  split.
  - intros [Hi [k <-]]. destruct (shiftr_log2 j k Hi) as [Hl _]. split_and!; [done|lia|].
    f_equal. lia.
  - intros (?&_&?). split; [done|]. eauto.
Qed.

#[global] Instance below_dec i j : Decision (below i j).
Proof.
  refine (cast_if (decide (0 < i ∧ N.log2 i ≤ N.log2 j ∧ N.shiftr j (N.log2 j - N.log2 i) = i)));
    by rewrite below_shiftr.
Defined.

Lemma below_le i j : below i j → i ≤ j.
Proof. intros [_ [k <-]]. rewrite N.shiftr_div_pow2. apply N.Div0.div_le_upper_bound. pose proof (N.pow_nonzero 2 k). nia. Qed.

Lemma below_log2 i j : below i j → N.log2 i ≤ N.log2 j.
Proof. rewrite below_shiftr. tauto. Qed.

Lemma below_refl i : 0 < i → below i i.
Proof. intros. split; [done|]. exists 0. apply N.shiftr_0_r. Qed.

Lemma below_trans i j k : below i j → below j k → below i k.
Proof.
  intros [? [a <-]] [_ [b <-]]. split; [done|]. exists (b + a). by rewrite N.shiftr_shiftr.
Qed.

Lemma below_same_depth a b j : below a j → below b j → N.log2 a = N.log2 b → a = b.
Proof.
  rewrite !below_shiftr. intros (_&_&Ha) (_&_&Hb) Heq. rewrite Heq in Ha. congruence.
Qed.

Lemma below_chain a b j : below a j → below b j → N.log2 a ≤ N.log2 b → below a b.
Proof.
  rewrite !below_shiftr. intros (?&?&Ha) (?&?&Hb) Hle. split_and!; [done..|].
  transitivity (N.shiftr j (N.log2 j - N.log2 a)); [|done].
  rewrite <-Hb at 1. rewrite N.shiftr_shiftr. f_equal. lia.
Qed.

Lemma below_antisym i j : below i j → below j i → i = j.
Proof.
  intros Hij Hji. pose proof (below_log2 _ _ Hij). pose proof (below_log2 _ _ Hji).
  apply (below_same_depth i j j); [done| |lia]. apply below_refl. by destruct (below_pos _ _ Hij).
Qed.

Lemma half_cases x : x = 2 * N.shiftr x 1 ∨ x = 2 * N.shiftr x 1 + 1.
Proof.
  rewrite N.shiftr_div_pow2. change (2 ^ 1) with 2.
  pose proof (N.Div0.div_mod x 2) as Hx. assert (x mod 2 < 2) by (apply N.mod_lt; lia).
  revert Hx H. generalize (x / 2), (x mod 2). lia.
Qed.

Lemma below_child i c : 0 < i → c = 2 * i ∨ c = 2 * i + 1 → below i c.
Proof.
  intros Hi Hc. split; [done|]. exists 1. rewrite N.shiftr_div_pow2. change (2 ^ 1) with 2.
  destruct Hc as [->| ->]; [rewrite N.mul_comm; by apply N.div_mul|].
  symmetry. by apply (N.div_unique _ _ _ 1); lia.
Qed.

Lemma below_children i j : 0 < i → below i j ↔ j = i ∨ below (2 * i) j ∨ below (2 * i + 1) j.
Proof.
  intros Hi. split.
  - intros [_ [k Hk]]. destruct (N.eq_0_gt_0_cases k) as [->|Hpos].
    { left. by rewrite N.shiftr_0_r in Hk. }
    right. replace k with (k - 1 + 1) in Hk by lia. rewrite <-N.shiftr_shiftr in Hk.
    destruct (half_cases (N.shiftr j (k - 1))) as [H|H]; rewrite Hk in H;
      [left|right]; (split; [lia|]); eauto.
  - intros [->|[H|H]]; [by apply below_refl|..];
      (eapply below_trans; [|exact H]); apply below_child; auto.
Qed.

Lemma log2_child i : 0 < i → N.log2 (2 * i) = N.log2 i + 1 ∧ N.log2 (2 * i + 1) = N.log2 i + 1.
Proof. intros. rewrite N.log2_double, N.log2_succ_double by done. lia. Qed.

Lemma children_disjoint i j : 0 < i → below (2 * i) j → below (2 * i + 1) j → False.
Proof.
  intros Hi Hl Hr. destruct (log2_child i Hi).
  pose proof (below_same_depth _ _ _ Hl Hr ltac:(lia)). lia.
Qed.

Lemma strictly_below_children i j :
  0 < i → strictly_below i j ↔ below (2 * i) j ∨ below (2 * i + 1) j.
Proof.
  intros Hi. unfold strictly_below. rewrite (below_children i j Hi). split; [naive_solver|].
  destruct (log2_child i Hi). intros Hb. split; [tauto|]. intros ->.
  destruct Hb as [Hb%below_log2|Hb%below_log2]; lia.
Qed.

Lemma at_height_pos h i : at_height h i → 0 < i.
Proof. by intros (_&?&_). Qed.

Lemma at_height_child h i c : at_height (S h) i → c = 2 * i ∨ c = 2 * i + 1 → at_height h c.
Proof.
  intros (?&Hi&?) Hc. destruct (log2_child i Hi). split_and!; [lia|lia|].
  destruct Hc as [->| ->]; lia.
Qed.

Lemma at_height_root : at_height 251 ROOT.
Proof. done. Qed.

(** ** Panic-free operations

    On the indices and paths of a tree the assertions of the operations hold. *)

Lemma log2_index i : 0 < i → i ≤ NodeIndex_MAX ↔ N.log2 i ≤ 251.
Proof.
  intros Hi. unfold NodeIndex_MAX. split; intros H.
  - apply N.lt_succ_r. apply N.log2_lt_pow2; [done|]. change (N.succ 251) with 252. lia.
  - assert (i < 2 ^ 252); [|lia]. apply N.log2_lt_pow2; lia.
Qed.

Lemma NodeIndex_new_ok {E} i : i ≤ NodeIndex_MAX → NodeIndex_new (E:=E) i = Ok i.
Proof. intros. unfold NodeIndex_new. by rewrite decide_True. Qed.

Lemma bit_length_ok {E} i : i ≤ NodeIndex_MAX → bit_length (E:=E) i = Ok (N.size i).
Proof.
  intros Hi. assert (N.size i ≤ 252).
  { destruct (N.eq_0_gt_0_cases i) as [->|Hpos]; [done|].
    rewrite N.size_log2 by lia. apply log2_index in Hi; lia. }
  unfold bit_length, leading_zeros, U256_leading_zeros, u8_sub, NodeIndex_BITS, ACTUAL_HEIGHT, U256_BITS.
  rewrite decide_True by lia. unfold mbind; cbn [result_bind]. rewrite decide_True by lia.
  f_equal. lia.
Qed.

Lemma size_pos i : 0 < i → N.size i = N.log2 i + 1.
Proof. intros. rewrite N.size_log2 by lia. lia. Qed.

Lemma shiftl_small i k : 0 < i → N.log2 i + k ≤ 251 → U256_shl i k = i * 2 ^ k ∧ i * 2 ^ k ≤ NodeIndex_MAX.
Proof.
  intros Hi Hk. unfold U256_shl. rewrite N.shiftl_mul_pow2.
  assert (Hmax : i * 2 ^ k ≤ NodeIndex_MAX).
  { apply log2_index; [pose proof (pow2_pos k); nia|]. rewrite N.log2_mul_pow2; lia. }
  split; [|done]. apply N.mod_small. eapply N.le_lt_trans; [exact Hmax|]. done.
Qed.

Lemma NodeIndex_shl_ok {E} i k :
  0 < i → N.log2 i + k ≤ 251 → NodeIndex_shl (E:=E) i k = Ok (i * 2 ^ k).
Proof.
  intros Hi Hk. destruct (shiftl_small i k Hi Hk) as [Heq Hmax].
  unfold NodeIndex_shl. rewrite Heq. by apply NodeIndex_new_ok.
Qed.

Lemma shiftr_le i k : N.shiftr i k ≤ i.
Proof. rewrite N.shiftr_div_pow2. apply N.Div0.div_le_upper_bound. pose proof (pow2_pos k). nia. Qed.

Lemma NodeIndex_shr_ok {E} i k :
  i ≤ NodeIndex_MAX → NodeIndex_shr (E:=E) i k = Ok (N.shiftr i k).
Proof. intros Hi. apply NodeIndex_new_ok. pose proof (shiftr_le i k). lia. Qed.

(** *** Paths *)

Lemma bottom_shiftr i p : path_ok p → N.shiftr (bottom i p) (path_length p) = i.
Proof.
  intros [Hp _]. rewrite N.shiftr_div_pow2. unfold bottom. symmetry.
  apply (N.div_unique _ _ _ (path p)); [done|]. lia.
Qed.

Lemma below_bottom i p : 0 < i → path_ok p → below i (bottom i p).
Proof. intros Hi Hp. split; [done|]. exists (path_length p). by apply bottom_shiftr. Qed.

Lemma bottom_log2 i p : 0 < i → path_ok p → N.log2 (bottom i p) = N.log2 i + path_length p.
Proof.
  intros Hi Hp. destruct (shiftr_log2 (bottom i p) (path_length p)) as [Hl _];
    rewrite (bottom_shiftr i p Hp) in *; done.
Qed.

Lemma bottom_pos i p : 0 < i → 0 < bottom i p.
Proof. unfold bottom. pose proof (pow2_pos (path_length p)). nia. Qed.

Lemma bottom_inj i p q : 0 < i → path_ok p → path_ok q → bottom i p = bottom i q → p = q.
Proof.
  intros Hi Hp Hq Heq. pose proof (bottom_log2 i p Hi Hp). pose proof (bottom_log2 i q Hi Hq).
  destruct p as [pp pl], q as [qp ql]; unfold bottom in *; cbn [path path_length] in *.
  assert (pl = ql) as -> by (rewrite Heq in *; lia). f_equal. lia.
Qed.

Lemma below_path i j :
  below i j → N.log2 j ≤ 251 → ∃ p, path_ok p ∧ bottom i p = j ∧ N.log2 j = N.log2 i + path_length p.
Proof.
  rewrite below_shiftr. intros (Hi&Hl&Hs) Hj. set (k := N.log2 j - N.log2 i) in *.
  rewrite N.shiftr_div_pow2 in Hs. exists {| path := j mod 2 ^ k; path_length := k |}.
  unfold path_ok, bottom; cbn [path path_length]. split_and!.
  - apply N.mod_lt, N.pow_nonzero. lia.
  - lia.
  - pose proof (N.Div0.div_mod j (2 ^ k)). rewrite Hs in *. lia.
  - lia.
Qed.

Lemma size_le x k : x < 2 ^ k → N.size x ≤ k.
Proof.
  intros Hx. destruct (N.eq_0_gt_0_cases x) as [->|Hpos]; [simpl; lia|].
  rewrite size_pos by done. apply N.log2_lt_pow2 in Hx; lia.
Qed.

Lemma PathToBottom_new_ok p l :
  p < 2 ^ l → PathToBottom_new p l = Ok {| path := p; path_length := l |}.
Proof.
  intros Hp%size_le. unfold PathToBottom_new, U256_leading_zeros. by rewrite decide_False by lia.
Qed.

Lemma pow2_le a b : a ≤ b → 2 ^ a ≤ 2 ^ b.
Proof. intros. apply N.pow_le_mono_r; lia. Qed.

Lemma EdgePath_from_ok {E} p : path_ok p → EdgePath_from (E:=E) (path p) = Ok (path p).
Proof.
  intros [Hp Hl]. unfold EdgePath_from. apply pow2_le in Hl.
  rewrite decide_True; [done|]. unfold EdgePath_MAX. lia.
Qed.

Lemma bottom_index_ok {E} i p :
  0 < i → path_ok p → N.log2 i + path_length p ≤ 251 →
  bottom_index (E:=E) p i = Ok (bottom i p).
Proof.
  intros Hi Hp Hl. unfold bottom_index, compute_bottom_index.
  rewrite NodeIndex_shl_ok by done. unfold mbind; cbn [result_bind].
  rewrite NodeIndex_new_ok.
  - unfold NodeIndex_add. apply NodeIndex_new_ok. apply log2_index; [by apply bottom_pos|].
    by rewrite bottom_log2.
  - destruct Hp as [Hp1 Hp2]. apply pow2_le in Hp2. unfold NodeIndex_MAX.
    change (2 ^ 252) with (2 * 2 ^ 251). lia.
Qed.

Lemma get_children_indices_ok {E} i :
  0 < i → N.log2 i < 251 → get_children_indices (E:=E) i = Ok (2 * i, 2 * i + 1).
Proof.
  intros Hi Hl. unfold get_children_indices. rewrite NodeIndex_shl_ok by lia.
  change (2 ^ 1) with 2. rewrite (N.mul_comm i). unfold mbind; cbn [result_bind].
  unfold NodeIndex_add. rewrite NodeIndex_new_ok; [done|].
  destruct (log2_child i Hi). apply log2_index; lia.
Qed.

(** *** Concatenation of paths *)

Definition path_concat (p q : PathToBottom) : PathToBottom :=
  {| path := path p * 2 ^ path_length q + path q; path_length := path_length p + path_length q |}.

Lemma bottom_concat i p q : bottom i (path_concat p q) = bottom (bottom i p) q.
Proof. unfold bottom, path_concat; cbn [path path_length]. rewrite N.pow_add_r. nia. Qed.

Lemma path_concat_ok p q :
  path_ok p → path_ok q → path_length p + path_length q ≤ 251 → path_ok (path_concat p q).
Proof.
  intros [Hp _] [Hq _] Hl. split; [|done]. unfold path_concat; cbn [path path_length].
  rewrite N.pow_add_r. nia.
Qed.

Lemma path_concat_assoc p q r : path_concat p (path_concat q r) = path_concat (path_concat p q) r.
Proof. unfold path_concat; cbn [path path_length]. f_equal; [rewrite N.pow_add_r; nia|lia]. Qed.

Lemma path_nil p : path_ok p → path_length p = 0 → p = {| path := 0; path_length := 0 |}.
Proof. intros [Hp _] H0. destruct p as [pp pl]; simpl in *. subst. simpl in Hp. f_equal. lia. Qed.

Lemma path_concat_nil_l p q : path_ok p → path_length p = 0 → path_concat p q = q.
Proof. intros Hp H0. rewrite (path_nil p Hp H0). by destruct q. Qed.

Lemma path_concat_nil_r p q : path_ok q → path_length q = 0 → path_concat p q = p.
Proof.
  intros Hq H0. rewrite (path_nil q Hq H0). destruct p as [pp pl].
  unfold path_concat; cbn [path path_length]. f_equal; lia.
Qed.

Lemma path_concat_inj p q q' : path_concat p q = path_concat p q' → q = q'.
Proof.
  destruct q as [qp ql], q' as [qp' ql']. unfold path_concat; cbn [path path_length].
  intros [= Hp Hl]. assert (ql = ql') as -> by lia. f_equal. lia.
Qed.

Lemma concat_paths_ok {E} p q :
  path_ok p → path_ok q → path_length p + path_length q ≤ 251 →
  concat_paths (E:=E) p q = Ok (path_concat p q).
Proof.
  intros Hp Hq Hl. pose proof (path_concat_ok p q Hp Hq Hl) as Hpq.
  pose proof (EdgePath_from_ok (E:=E) _ Hpq) as Hfrom. destruct Hpq as [Hlt _].
  unfold concat_paths, U256_shl. rewrite N.shiftl_mul_pow2, N.mod_small.
  - cbn [path path_concat] in Hfrom. rewrite Hfrom. unfold mbind; cbn [result_bind].
    unfold u8_add, u8_max. rewrite decide_True by (change (2 ^ 8) with 256; lia).
    cbn [result_bind path path_length path_concat] in *. by rewrite PathToBottom_new_ok.
  - cbn [path path_length path_concat] in Hlt.
    assert (2 ^ (path_length p + path_length q) ≤ 2 ^ U256_BITS) by (apply pow2_le; unfold U256_BITS; lia).
    lia.
Qed.

Lemma remove_first_edges_ok p q :
  path_ok q → path_length p + path_length q ≤ 251 →
  remove_first_edges (path_concat p q) (path_length p) = Ok q.
Proof.
  intros [Hq _] Hl. unfold remove_first_edges; cbn [path path_length path_concat].
  rewrite decide_False by lia. unfold u8_sub. rewrite decide_True by lia.
  unfold mbind; cbn [result_bind]. replace (_ + _ - _) with (path_length q) by lia.
  assert (2 ^ path_length q ≤ 2 ^ 251) by (apply pow2_le; lia).
  unfold U256_shl, U256_sub. rewrite N.shiftl_1_l, N.mod_small.
  - pose proof (pow2_pos (path_length q)). rewrite decide_True by lia. cbn [result_bind].
    replace (2 ^ path_length q - 1) with (N.ones (path_length q)) by (rewrite N.ones_equiv; lia).
    rewrite N.land_ones, N.add_comm, N.Div0.mod_add, N.mod_small by done.
    rewrite PathToBottom_new_ok by done. by destruct q.
  - eapply N.le_lt_trans; [done|]. by vm_compute.
Qed.

Lemma path_split i m p :
  path_ok p → below i m → below m (bottom i p) → N.log2 i + path_length p ≤ 251 →
  ∃ p1 p2, p = path_concat p1 p2 ∧ path_ok p1 ∧ path_ok p2 ∧ m = bottom i p1.
Proof.
  intros Hp Him Hmb Hl. destruct (below_pos _ _ Him) as [Hi Hm].
  pose proof (bottom_log2 i p Hi Hp). pose proof (below_log2 _ _ Hmb).
  destruct (below_path i m Him) as (p1&Hp1&<-&?); [lia|].
  destruct (below_path _ _ Hmb) as (p2&Hp2&Hb&?); [lia|].
  exists p1, p2. split_and!; [|done..]. apply (bottom_inj i); [done|done| |].
  - apply path_concat_ok; [done..|]. lia.
  - by rewrite bottom_concat.
Qed.

(** The first step of a path: it leads to the left or to the right child. *)
Definition first_child (i : N) (left : bool) : N := if left then 2 * i else 2 * i + 1.

Lemma is_left_descendant_ok {E} i p :
  0 < i → path_ok p → 1 ≤ path_length p →
  ∃ b, is_left_descendant (E:=E) p = Ok b ∧ below (first_child i b) (bottom i p).
Proof.
  intros Hi [Hp Hl] H1. unfold is_left_descendant, u8_sub. rewrite decide_True by done.
  unfold mbind; cbn [result_bind]. eexists; split; [done|].
  assert (Hs : N.shiftr (bottom i p) (path_length p - 1)
             = 2 * i + N.shiftr (path p) (path_length p - 1)).
  { rewrite !N.shiftr_div_pow2. unfold bottom.
    replace (2 ^ path_length p) with (2 * 2 ^ (path_length p - 1))
      by (rewrite <-N.pow_succ_r by lia; f_equal; lia).
    rewrite N.mul_assoc, (N.mul_comm i), N.div_add_l; [done|]. pose proof (pow2_pos (path_length p - 1)). lia. }
  assert (N.shiftr (path p) (path_length p - 1) < 2).
  { rewrite N.shiftr_div_pow2. apply N.Div0.div_lt_upper_bound.
    rewrite N.mul_comm, <-N.pow_succ_r by lia. by replace (N.succ (path_length p - 1)) with (path_length p) by lia. }
  case_bool_decide as H0; unfold first_child; split; [lia| |lia|];
    exists (path_length p - 1); rewrite Hs; lia.
Qed.

(** ** Lowest common ancestors *)

Lemma shiftr_eq_lxor a b k : N.shiftr a k = N.shiftr b k ↔ N.shiftr (N.lxor a b) k = 0.
Proof. by rewrite N.shiftr_lxor, N.lxor_eq_0_iff. Qed.

Lemma shiftr_0_size a k : N.shiftr a k = 0 ↔ N.size a ≤ k.
Proof.
  destruct (N.eq_0_gt_0_cases a) as [->|Ha].
  { rewrite N.shiftr_0_l. simpl. split; [lia|done]. }
  rewrite size_pos by done. rewrite N.shiftr_eq_0_iff. lia.
Qed.

(** The common prefix of two indices of the same length. *)
Lemma common_prefix a b :
  0 < a → 0 < b → N.log2 a = N.log2 b →
  let c := N.shiftr a (N.size (N.lxor a b)) in
  below c a ∧ below c b ∧ ∀ d, below d a → below d b → below d c.
Proof.
  intros Ha Hb Hl c. set (n := N.size (N.lxor a b)) in *.
  assert (Hc : c = N.shiftr b n) by (apply shiftr_eq_lxor, shiftr_0_size; done).
  assert (Hn : n ≤ N.log2 a).
  { subst n. apply shiftr_0_size. apply shiftr_eq_lxor. rewrite Hl at 2.
    rewrite !N.shiftr_div_pow2.
    assert (Hlog : ∀ x, 0 < x → x / 2 ^ N.log2 x = 1).
    { intros x Hx. destruct (N.log2_spec x Hx) as [H1 H2]. symmetry.
      apply (N.div_unique _ _ _ (x - 2 ^ N.log2 x)); rewrite N.pow_succ_r in H2; lia. }
    by rewrite !Hlog. }
  assert (Hpos : 0 < c).
  { apply N.neq_0_lt_0. intros H0%N.shiftr_eq_0_iff. lia. }
  split_and!; [split; eauto..|].
  intros d [Hd [k <-]] [_ [k' Hk']]. destruct (shiftr_log2 a k Hd). 
  destruct (shiftr_log2 b k') as [? _]; [by rewrite Hk'|]. rewrite Hk' in *.
  assert (k' = k) as -> by lia. symmetry in Hk'. apply shiftr_eq_lxor, shiftr_0_size in Hk'.
  split; [done|]. exists (k - n). unfold c. rewrite N.shiftr_shiftr. f_equal. lia.
Qed.

Definition is_lca (a b c : N) : Prop :=
  below c a ∧ below c b ∧ ∀ d, below d a → below d b → below d c.

(** An index cut to the length of a shorter one. *)
Lemma cut_ok {E} a b :
  0 < a → a ≤ b → b ≤ NodeIndex_MAX →
  ∃ k b', u8_sub (E:=E) (N.size b) (N.size a) = Ok k ∧ NodeIndex_shr (E:=E) b k = Ok b' ∧
    below b' b ∧ N.log2 b' = N.log2 a ∧ b' ≤ b.
Proof.
  intros Ha Hab Hb. pose proof (N.log2_le_mono _ _ Hab).
  exists (N.size b - N.size a), (N.shiftr b (N.size b - N.size a)).
  rewrite !size_pos by lia. unfold u8_sub. rewrite decide_True by lia.
  split_and!; [done|by apply NodeIndex_shr_ok| | |apply shiftr_le].
  - split; [|by eauto]. apply N.neq_0_lt_0. intros H0%N.shiftr_eq_0_iff. lia.
  - rewrite N.log2_shiftr. lia.
Qed.

Lemma adapt_ok {E} a b :
  0 < a → 0 < b → a ≤ NodeIndex_MAX → b ≤ NodeIndex_MAX →
  ∃ a' b', adapt_to_common_height (E:=E) a b (N.size a) (N.size b) = Ok (a', b') ∧
    below a' a ∧ below b' b ∧ N.log2 a' = N.log2 b' ∧ (a' = a ∨ b' = b) ∧ a' ≤ a ∧ b' ≤ b.
Proof.
  intros Ha Hb Hma Hmb. unfold adapt_to_common_height. case_decide as Hlt.
  - destruct (cut_ok (E:=E) a b) as (k&b'&->&Hs&?&?&?); [lia..|].
    exists a, b'. unfold mbind; cbn [result_bind]. rewrite Hs.
    split_and!; auto using below_refl; lia.
  - destruct (cut_ok (E:=E) b a) as (k&a'&->&Hs&?&?&?); [lia..|].
    exists a', b. unfold mbind; cbn [result_bind]. rewrite Hs.
    split_and!; auto using below_refl; lia.
Qed.

Lemma lxor_index a b : 0 < a → 0 < b → N.log2 a = N.log2 b → a ≤ NodeIndex_MAX → N.lxor a b ≤ NodeIndex_MAX.
Proof.
  intros Ha Hb Hl Hma. destruct (N.eq_0_gt_0_cases (N.lxor a b)) as [->|Hx]; [done|].
  apply log2_index; [done|]. apply log2_index in Hma; [|done].
  pose proof (N.log2_lxor a b). lia.
Qed.

Lemma get_lca_ok {E} a b :
  0 < a → 0 < b → a ≤ NodeIndex_MAX → b ≤ NodeIndex_MAX →
  ∃ c, get_lca (E:=E) a b = Ok c ∧ is_lca a b c.
Proof.
  intros Ha Hb Hma Hmb. unfold get_lca, is_lca. case_decide as Heq.
  { subst. eexists; split; [done|]. split_and!; [by apply below_refl..|done]. }
  rewrite !bit_length_ok by done. unfold mbind; cbn [result_bind].
  destruct (adapt_ok (E:=E) a b Ha Hb Hma Hmb) as (a'&b'&->&Ha'&Hb'&Hl&Hor&Hle&Hle').
  cbn [result_bind fst snd].
  destruct (below_pos _ _ Ha') as [Hpa _], (below_pos _ _ Hb') as [Hpb _].
  destruct (common_prefix a' b' Hpa Hpb Hl) as (Hca&Hcb&Hlow).
  assert (N.lxor a' b' ≤ NodeIndex_MAX) by (apply lxor_index; [done..|lia]).
  rewrite NodeIndex_new_ok by done. cbn [result_bind]. rewrite bit_length_ok by done.
  cbn [result_bind]. rewrite NodeIndex_new_ok by (etrans; [apply shiftr_le|lia]).
  eexists; split; [done|]. split_and!; [by eauto using below_trans..|].
  intros d Hda Hdb. pose proof (below_log2 _ _ Hda). pose proof (below_log2 _ _ Hdb).
  assert (N.log2 d ≤ N.log2 a') by (destruct Hor as [->| ->]; lia).
  apply Hlow; [by apply (below_chain d a' a)|apply (below_chain d b' b); [done..|lia]].
Qed.

Lemma get_path_to_descendant_ok {E} i j :
  below i j → j ≤ NodeIndex_MAX →
  ∃ p, get_path_to_descendant (E:=E) i j = Ok p ∧ path_ok p ∧ bottom i p = j ∧
    N.log2 j = N.log2 i + path_length p.
Proof.
  intros Hij Hmax. destruct (below_pos _ _ Hij) as [Hi Hj].
  pose proof Hmax as Hl. apply log2_index in Hl; [|done].
  destruct (below_path i j Hij Hl) as (p&Hp&Hb&Hlog). exists p. split; [|done].
  assert (i ≤ j).
  { rewrite <-Hb. unfold bottom. pose proof (pow2_pos (path_length p)). nia. }
  unfold get_path_to_descendant. rewrite !bit_length_ok by lia.
  unfold mbind; cbn [result_bind]. rewrite !size_pos by done. rewrite decide_False by lia.
  unfold u8_sub. rewrite decide_True by lia. cbn [result_bind].
  replace (_ + 1 - _) with (path_length p) by lia.
  rewrite NodeIndex_shl_ok by lia. cbn [result_bind]. unfold NodeIndex_sub, U256_sub.
  assert (j - i * 2 ^ path_length p = path p) as -> by (rewrite <-Hb; unfold bottom; lia).
  rewrite decide_True by (rewrite <-Hb; unfold bottom; lia). cbn [result_bind].
  rewrite NodeIndex_shr_ok by done. cbn [result_bind].
  assert (N.shiftr j (path_length p) = i) as -> by (rewrite <-Hb; by apply bottom_shiftr).
  rewrite decide_False by tauto.
  rewrite EdgePath_from_ok by done. cbn [result_bind]. unfold EdgePathLength_new.
  destruct Hp as [Hp1 Hp2]. unfold EdgePathLength_MAX, ACTUAL_HEIGHT. rewrite decide_False by lia.
  cbn [unwrap_result result_bind]. rewrite PathToBottom_new_ok by done. by destruct p.
Qed.

(** ** Leaf index slices *)

Lemma is_leaf_height h i : at_height h i → is_leaf i = bool_decide (h = 0%nat).
Proof.
  intros (Hh&Hi&Hl). unfold is_leaf, FIRST_LEAF. apply bool_decide_ext. split.
  - intros [H _]. apply N.log2_le_mono in H. rewrite N.log2_pow2 in H; lia.
  - intros ->. split; [|apply log2_index; lia].
    destruct (N.log2_spec i Hi) as [H _]. replace (N.log2 i) with 251 in H by lia. done.
Qed.

Lemma at_height_index h i : at_height h i → i ≤ NodeIndex_MAX.
Proof. intros (?&?&?). apply log2_index; lia. Qed.

Lemma at_height_bottom h i p :
  at_height h i → path_ok p → path_length p ≤ N.of_nat h →
  at_height (h - N.to_nat (path_length p)) (bottom i p).
Proof.
  intros (?&Hi&?) Hp Hl. split_and!; [lia|by apply bottom_pos|].
  rewrite bottom_log2 by done. lia.
Qed.

Lemma get_node_height_ok {E} h i : at_height h i → get_node_height (E:=E) i = Ok (N.of_nat h).
Proof.
  intros Hi. pose proof (at_height_index h i Hi). destruct Hi as (?&?&?).
  unfold get_node_height. rewrite bit_length_ok by done. unfold mbind; cbn [result_bind].
  rewrite size_pos by done. unfold u8_sub, SubTreeHeight_new, ACTUAL_HEIGHT.
  rewrite decide_True by lia. cbn [result_bind]. rewrite decide_False by lia. f_equal. lia.
Qed.

Lemma below_leaf h i x :
  at_height h i → at_height 0 x → below i x ↔ N.shiftr x (N.of_nat h) = i.
Proof.
  intros (_&Hi&Hl) (_&Hx&Hlx). rewrite below_shiftr.
  replace (N.log2 x - N.log2 i) with (N.of_nat h) by lia. split; [tauto|].
  intros. split_and!; [done|lia|done].
Qed.

(** The leaves of a subtree are an interval of indices. *)
Lemma below_interval h i x :
  at_height h i → at_height 0 x →
  below i x ↔ i * 2 ^ N.of_nat h ≤ x ∧ x < (i + 1) * 2 ^ N.of_nat h.
Proof.
  intros Hi Hx. rewrite (below_leaf h i x Hi Hx), N.shiftr_div_pow2.
  pose proof (pow2_pos (N.of_nat h)). split.
  - intros <-. pose proof (N.Div0.div_mod x (2 ^ N.of_nat h)) as Hdm.
    assert (Hm : x mod 2 ^ N.of_nat h < 2 ^ N.of_nat h) by (apply N.mod_lt; lia).
    revert Hdm Hm. generalize (x / 2 ^ N.of_nat h). generalize (x mod 2 ^ N.of_nat h).
    generalize (2 ^ N.of_nat h). clear. intros p r q -> Hr. lia.
  - intros [H1 H2]. symmetry. apply (N.div_unique _ _ _ (x - i * 2 ^ N.of_nat h)); lia.
Qed.

Lemma filter_ext_in {A} (P Q : A → Prop) `{∀ x, Decision (P x), ∀ x, Decision (Q x)} (l : list A) :
  (∀ x, x ∈ l → P x ↔ Q x) → filter P l = filter Q l.
Proof.
  induction l as [|x l IH]; intros Hl; [done|].
  destruct (decide (P x)) as [HP|HP].
  - rewrite !filter_cons_True by (done || by apply Hl; [left|]). f_equal. set_solver.
  - rewrite !filter_cons_False by (done || by rewrite <-Hl; [|left]). set_solver.
Qed.

Definition leaf_slice (l : list N) : Prop :=
  StronglySorted N.lt l ∧ ∀ x, x ∈ l → at_height 0 x.

Lemma leaf_slice_filter (P : N → Prop) `{∀ x, Decision (P x)} l : leaf_slice l → leaf_slice (filter P l).
Proof.
  intros [Hs Hl]. split; [|intros x [_ Hx]%list_elem_of_filter; auto]. clear Hl. induction Hs as [|x l Hs IH Hall]; [constructor|].
  destruct (decide (P x)); [rewrite filter_cons_True by done|by rewrite filter_cons_False by done].
  constructor; [done|]. apply Forall_forall. intros y Hy%list_elem_of_filter.
  rewrite Forall_forall in Hall. apply Hall, Hy.
Qed.

Lemma lower_bound_split l v :
  StronglySorted N.lt l →
  take (lower_bound l v) l = filter (λ x, x < v) l ∧ drop (lower_bound l v) l = filter (N.le v) l.
Proof.
  induction 1 as [|x l Hs [IHt IHd] Hall]; [done|]. rewrite Forall_forall in Hall.
  cbn [lower_bound]. case_decide as Hx; cbn [take drop].
  - rewrite filter_cons_True, filter_cons_False by (done || lia). by rewrite IHt, IHd.
  - rewrite filter_none, filter_all; [done|..]; intros y [->|Hy]%elem_of_cons; try lia;
      specialize (Hall y Hy); lia.
Qed.

Lemma lower_bound_le l v : (lower_bound l v ≤ List.length l)%nat.
Proof. induction l as [|x l IH]; cbn [lower_bound]; [done|]. case_decide; simpl; lia. Qed.

Lemma bisect_left_eq l v : bisect_left l v = lower_bound l v.
Proof. unfold bisect_left, binary_search. by case_decide. Qed.

Lemma bisect_right_eq l v : StronglySorted N.lt l → bisect_right l v = lower_bound l (N.succ v).
Proof.
  intros Hs. unfold bisect_right, binary_search.
  induction Hs as [|x l Hs IH Hall]; [done|]. rewrite Forall_forall in Hall. cbn [lower_bound].
  destruct (decide (x < v)) as [Hx|Hx]; cbn [lookup list_lookup].
  - rewrite (decide_True (P := x < N.succ v)) by lia. rewrite <-IH.
    repeat case_decide; done.
  - destruct (decide (x = v)) as [->|Hne].
    + rewrite !decide_True by (done || lia). f_equal. destruct l as [|y l]; [done|].
      cbn [lower_bound]. rewrite decide_False; [done|]. specialize (Hall y ltac:(left)). lia.
    + rewrite decide_False by naive_solver. rewrite decide_False by lia. done.
Qed.

(** The first leaf of the right subtree separates the leaves of the two children. *)
Lemma below_left_child h i x :
  at_height (S h) i → at_height 0 x →
  below (2 * i) x ↔ below i x ∧ x < (2 * i + 1) * 2 ^ N.of_nat h.
Proof.
  intros Hi Hx. rewrite (below_interval (S h) i), (below_interval h (2 * i)) by
    (done || (eapply at_height_child; [done|auto])).
  rewrite Nat2N.inj_succ, N.pow_succ_r by lia. nia.
Qed.

Lemma below_right_child h i x :
  at_height (S h) i → at_height 0 x →
  below (2 * i + 1) x ↔ below i x ∧ (2 * i + 1) * 2 ^ N.of_nat h ≤ x.
Proof.
  intros Hi Hx. rewrite (below_interval (S h) i), (below_interval h (2 * i + 1)) by
    (done || (eapply at_height_child; [done|auto])).
  rewrite Nat2N.inj_succ, N.pow_succ_r by lia. nia.
Qed.

(** The position before the first leaf of the right subtree splits the leaves. *)
Lemma split_leaves_ok {E} h i L :
  leaf_slice L → at_height (S h) i →
  split_leaves (E:=E) i (filter (below i) L)
  = Ok (filter (below (2 * i)) L, filter (below (2 * i + 1)) L).
Proof.
  intros HL Hi. pose proof (at_height_pos _ _ Hi) as Hpos.
  assert (Hcl : ∀ c x, c = 2 * i ∨ c = 2 * i + 1 → below c x → below i x).
  { intros c x Hc Hb. apply (below_trans _ c); [by apply below_child|done]. }
  unfold split_leaves. destruct (filter (below i) L) as [|f r] eqn:Hf.
  { rewrite !filter_none; [done|..]; intros x Hx Hb; apply (not_elem_of_nil x);
      rewrite <-Hf; apply list_elem_of_filter; eauto. }
  assert (Hin : ∀ x, x ∈ f :: r → below i x ∧ at_height 0 x).
  { intros x. rewrite <-Hf. intros [? Hx]%list_elem_of_filter. split; [done|by apply HL]. }
  assert (Hassert : ∀ x, x ∈ f :: r → assert_descendant (E:=E) i (N.of_nat (S h)) x = Ok tt).
  { intros x [Hb H0]%Hin. unfold assert_descendant.
    rewrite NodeIndex_shr_ok by (by eapply at_height_index). unfold mbind; cbn [result_bind].
    apply (below_leaf (S h)) in Hb; [|done..]. by rewrite bool_decide_true. }
  rewrite (get_node_height_ok (S h)) by done. unfold mbind; cbn [result_bind].
  rewrite Hassert by left. cbn [result_bind].
  replace (if decide _ then _ else _) with (Ok (E:=E) tt).
  2:{ case_decide; [|done]. destruct (last (f :: r)) as [x|] eqn:Hlast.
      - cbn [ok_or_panic result_bind]. symmetry. apply Hassert. by apply last_Some_elem_of.
      - by apply last_None in Hlast. }
  pose proof Hi as (Hh&_&Hlog). destruct (log2_child i Hpos) as [_ Hlr]. cbn [result_bind].
  rewrite NodeIndex_shl_ok by lia. change (2 ^ 1) with 2. rewrite (N.mul_comm i). cbn [result_bind].
  unfold NodeIndex_add. rewrite NodeIndex_new_ok by (apply log2_index; lia). cbn [result_bind].
  unfold u8_sub. rewrite decide_True by lia. cbn [result_bind].
  replace (N.of_nat (S h) - 1) with (N.of_nat h) by lia.
  rewrite NodeIndex_shl_ok by lia. cbn [result_bind]. rewrite bisect_left_eq.
  unfold divide_at_index. rewrite decide_True by apply lower_bound_le.
  rewrite <-Hf. destruct (lower_bound_split (filter (below i) L) ((2 * i + 1) * 2 ^ N.of_nat h)) as [-> ->].
  { by apply leaf_slice_filter. }
  f_equal; f_equal; rewrite list_filter_filter; apply filter_ext_in; intros x Hx%HL.
  - rewrite (below_left_child h) by done. tauto.
  - rewrite (below_right_child h) by done. tauto.
Qed.
