(* ===== verification/PatriciaTree.v ===== *)
(** The reference Patricia-Merkle tree of a set of leaves.

    [canonical h i m] is the tree of height [h] rooted at index [i] that holds the leaves
    of [m]: a node with two non-empty children is binary, and a chain of nodes with one
    non-empty child is collapsed to an edge. It is defined by recursion on the height,
    without the skeletons of the code, and is the specification the skeleton and filled
    tree computations are proved against. *)
From S2P Require Import Prelude.
From S2P Require Import PatriciaTypes.

Section tree.
Context {L : Type}.
Implicit Types (m : gmap N L) (i j x : N) (p q : PathToBottom).

Inductive tree :=
| TLeaf (l : L)
| TBinary (l r : tree)
| TEdge (p : PathToBottom) (b : tree).

Definition is_edge (t : tree) : bool := match t with TEdge _ _ => true | _ => false end.

(** The node whose only non-empty descendant is the given one, [p] below it. *)
Definition edge_to p (t : option tree) : option tree :=
  match t with
  | None => None
  | Some (TEdge q b) => Some (TEdge (path_concat p q) b)
  | Some t => Some (TEdge p t)
  end.

Definition join (l r : option tree) : option tree :=
  match l, r with
  | Some l, Some r => Some (TBinary l r)
  | l, None => edge_to LEFT_CHILD l
  | None, r => edge_to RIGHT_CHILD r
  end.

Fixpoint canonical (h : nat) (i : N) (m : gmap N L) : option tree :=
  if decide (m = ∅) then None
  else match h with
       | O => TLeaf <$> m !! i
       | S h => join (canonical h (2 * i) (filter (λ kv, below (2 * i) kv.1) m))
                     (canonical h (2 * i + 1) (filter (λ kv, below (2 * i + 1) kv.1) m))
       end.

(** ** Locality: a subtree depends on its own leaves *)

Lemma canonical_nil h i : canonical h i ∅ = None.
Proof. destruct h; simpl; by rewrite decide_True. Qed.

Lemma canonical_0 i m : canonical 0 i m = TLeaf <$> m !! i.
Proof. cbn [canonical]. case_decide; [subst|done]. by rewrite lookup_empty. Qed.

Lemma canonical_S_filter h i m :
  canonical (S h) i m = join (canonical h (2 * i) (filter (λ kv, below (2 * i) kv.1) m))
                     (canonical h (2 * i + 1) (filter (λ kv, below (2 * i + 1) kv.1) m)).
Proof.
  cbn [canonical]. case_decide; [subst|done].
  by rewrite !map_filter_empty, !canonical_nil.
Qed.

Definition agree_below i m m' : Prop := ∀ x, at_height 0 x → below i x → m !! x = m' !! x.

Lemma agree_filter i m : agree_below i (filter (λ kv, below i kv.1) m) m.
Proof.
  intros x _ Hx. apply option_eq. intros l. rewrite map_lookup_filter_Some. simpl. naive_solver.
Qed.

Lemma canonical_ext h i m m' : at_height h i → agree_below i m m' → canonical h i m = canonical h i m'.
Proof.
  revert i m m'. induction h as [|h IH]; intros i m m' Hi Hag.
  { rewrite !canonical_0. f_equal. apply Hag; [done|]. by eapply below_refl, at_height_pos. }
  rewrite !canonical_S_filter.
  assert (Hc : ∀ c, c = 2 * i ∨ c = 2 * i + 1 →
    canonical h c (filter (λ kv, below c kv.1) m) = canonical h c (filter (λ kv, below c kv.1) m')).
  { intros c Hc. apply IH; [by eapply at_height_child|]. intros x Hx Hb.
    rewrite !agree_filter by done. apply Hag; [done|].
    eapply below_trans; [|done]. apply below_child; [by eapply at_height_pos|done]. }
  by rewrite !Hc by auto.
Qed.

Lemma canonical_S h i m :
  at_height (S h) i → canonical (S h) i m = join (canonical h (2 * i) m) (canonical h (2 * i + 1) m).
Proof.
  intros Hi. rewrite canonical_S_filter.
  f_equal; (apply canonical_ext; [eapply at_height_child; eauto|apply agree_filter]).
Qed.

Lemma edge_to_None p t : edge_to p t = None ↔ t = None.
Proof. destruct t as [[]|]; done. Qed.

Lemma join_None l r : join l r = None ↔ l = None ∧ r = None.
Proof. destruct l, r; unfold join; rewrite ?edge_to_None; intuition congruence. Qed.

Lemma canonical_None h i m :
  at_height h i → canonical h i m = None ↔ ∀ x, at_height 0 x → below i x → m !! x = None.
Proof.
  revert i m. induction h as [|h IH]; intros i m Hi.
  - rewrite canonical_0, fmap_None. split.
    + intros Hm x Hx Hb. by rewrite <-(below_same_depth i x x Hb (below_refl x (proj1 (proj2 Hx)))) by (destruct Hi, Hx; lia).
    + intros Hm. apply Hm; [done|]. by eapply below_refl, at_height_pos.
  - pose proof (at_height_pos _ _ Hi). rewrite canonical_S, join_None by done.
    rewrite !IH by (eapply at_height_child; eauto). split.
    + intros [Hl Hr] x Hx [->|[Hb|Hb]]%below_children; [|auto..|done].
      exfalso. destruct Hi as (_&_&?), Hx as (_&_&?). lia.
    + intros Hm. split; intros x Hx Hb; apply Hm; try done;
        (eapply below_trans; [|exact Hb]); apply below_child; auto.
Qed.

Lemma canonical_Some h i m x l :
  at_height h i → at_height 0 x → below i x → m !! x = Some l → is_Some (canonical h i m).
Proof.
  intros Hi Hx Hb Hl. destruct (canonical h i m) eqn:Hc; [done|].
  rewrite canonical_None in Hc by done. by rewrite (Hc x) in Hl.
Qed.

(** ** Well-formed trees *)

Fixpoint tree_ok (h : nat) (t : tree) : Prop :=
  match t with
  | TLeaf _ => h = 0%nat
  | TBinary l r => match h with O => False | S h => tree_ok h l ∧ tree_ok h r end
  | TEdge p b =>
      path_ok p ∧ 1 ≤ path_length p ∧ path_length p ≤ N.of_nat h ∧ is_edge b = false ∧
      tree_ok (h - N.to_nat (path_length p)) b
  end.

Definition child_path (left : bool) : PathToBottom := if left then LEFT_CHILD else RIGHT_CHILD.

Lemma child_path_ok left : path_ok (child_path left) ∧ path_length (child_path left) = 1.
Proof. by destruct left. Qed.

Lemma bottom_child i left : bottom i (child_path left) = first_child i left.
Proof. destruct left; unfold bottom, first_child; simpl; lia. Qed.

Lemma edge_to_ok h p t t' :
  path_ok p → 1 ≤ path_length p → path_length p + N.of_nat h ≤ 251 → tree_ok h t →
  edge_to p (Some t) = Some t' → tree_ok (h + N.to_nat (path_length p)) t'.
Proof.
  intros Hp H1 Hh Ht Heq. destruct t as [l|l r|q b]; simpl in Heq; simplify_eq.
  - cbn [tree_ok] in *. subst h. split_and!; auto; lia.
  - cbn [tree_ok is_edge]. split_and!; [done|done|lia|done|].
    replace (h + _ - _)%nat with h by lia. done.
  - destruct Ht as (Hq&?&?&?&Hb). cbn [tree_ok path_length path_concat].
    split_and!; [apply path_concat_ok; auto; lia|lia|lia|done|].
    by replace (h + _ - _)%nat with (h - N.to_nat (path_length q))%nat by lia.
Qed.

Lemma canonical_ok h i m t : at_height h i → canonical h i m = Some t → tree_ok h t.
Proof.
  revert i m t. induction h as [|h IH]; intros i m t Hi Ht.
  { rewrite canonical_0 in Ht. destruct (m !! i); by simplify_eq/=. }
  rewrite canonical_S in Ht by done.
  pose proof Hi as (?&?&?).
  assert (IHl : ∀ tl, canonical h (2 * i) m = Some tl → tree_ok h tl)
    by (intros; apply (IH (2 * i) m); [eapply at_height_child; eauto|done]).
  assert (IHr : ∀ tr, canonical h (2 * i + 1) m = Some tr → tree_ok h tr)
    by (intros; apply (IH (2 * i + 1) m); [eapply at_height_child; eauto|done]).
  replace (S h) with (h + 1)%nat by lia.
  destruct (canonical h (2 * i) m) as [tl|], (canonical h (2 * i + 1) m) as [tr|]; cbn [join] in Ht.
  - simplify_eq. replace (h + 1)%nat with (S h) by lia. cbn [tree_ok]. auto.
  - apply (edge_to_ok h LEFT_CHILD tl); [apply (child_path_ok true)|done| |auto|done].
    change (path_length LEFT_CHILD) with 1. lia.
  - apply (edge_to_ok h RIGHT_CHILD tr); [apply (child_path_ok false)|done| |auto|done].
    change (path_length RIGHT_CHILD) with 1. lia.
  - done.
Qed.

(** ** Edges and their leaves *)

Lemma edge_to_concat p q t :
  edge_to p (edge_to q t) = edge_to (path_concat p q) t.
Proof. destruct t as [[]|]; try done. cbn [edge_to]. by rewrite path_concat_assoc. Qed.

(** The node [p] above [t], where [p] may be empty. *)
Definition lift_to p (t : option tree) : option tree :=
  if decide (path_length p = 0) then t else edge_to p t.

Lemma join_child (left : bool) (t o : option tree) :
  o = None → join (if left then t else o) (if left then o else t) = edge_to (child_path left) t.
Proof. intros ->. destruct left, t; done. Qed.

Lemma canonical_child h i m left :
  at_height (S h) i → canonical h (first_child i (negb left)) m = None →
  canonical (S h) i m = edge_to (child_path left) (canonical h (first_child i left) m).
Proof.
  intros Hi Hn. rewrite canonical_S by done. rewrite <-(join_child left _ _ Hn).
  by destruct left.
Qed.

Lemma first_child_spec i left :
  first_child i left = 2 * i ∨ first_child i left = 2 * i + 1.
Proof. destruct left; auto. Qed.

Lemma path_first_step i p :
  0 < i → path_ok p → 1 ≤ path_length p → N.log2 i + path_length p ≤ 251 →
  ∃ left q, p = path_concat (child_path left) q ∧ path_ok q ∧
    is_left_descendant (E:=unit) p = Ok left.
Proof.
  intros Hi Hp H1 Hl. destruct (is_left_descendant_ok (E:=unit) i p) as (left&Hleft&Hb); [done..|].
  destruct (path_split i (first_child i left) p) as (p1&p2&->&?&?&Heq); [done| |done..|].
  { apply below_child; [done|]. apply first_child_spec. }
  rewrite <-bottom_child in Heq. apply bottom_inj in Heq as <-; [eauto|done| |done].
  apply child_path_ok.
Qed.

Lemma canonical_jump h i p m :
  at_height h i → path_ok p → path_length p ≤ N.of_nat h →
  (∀ x, at_height 0 x → below i x → is_Some (m !! x) → below (bottom i p) x) →
  canonical h i m = lift_to p (canonical (h - N.to_nat (path_length p)) (bottom i p) m).
Proof.
  remember (N.to_nat (path_length p)) as n eqn:Hn. revert h i p Hn.
  induction n as [|n IH]; intros h i p Hn Hi Hp Hl Hm; unfold lift_to.
  { rewrite decide_True by lia. replace (h - 0)%nat with h by lia. f_equal.
    destruct Hp as [Hp _]. unfold bottom. replace (path_length p) with 0 in * by lia. simpl in Hp. lia. }
  destruct h as [|h]; [lia|]. pose proof Hi as (?&Hpos&?). rewrite decide_False by lia.
  destruct (path_first_step i p) as (left&q&->&Hq&_); [done|done|lia|lia|].
  destruct (child_path_ok left) as [Hc Hc1]. rewrite bottom_concat, bottom_child in *.
  cbn [path_concat path_length] in *. rewrite Hc1 in *.
  assert (Hch : at_height h (first_child i left)) by (eapply at_height_child, first_child_spec; done).
  rewrite (canonical_child h i m left Hi).
  - rewrite (IH h (first_child i left) q); [|lia|done|done|lia|].
    + cbn [Nat.sub]. unfold lift_to. case_decide as Hq0; [|apply edge_to_concat].
      by rewrite path_concat_nil_r.
    + intros x Hx Hb Hs. apply Hm; [done| |done].
      eapply below_trans; [|exact Hb]. apply below_child, first_child_spec. done.
  - apply canonical_None; [eapply at_height_child, first_child_spec; done|]. intros x Hx Hb.
    destruct (m !! x) eqn:Hmx; [|done]. exfalso.
    assert (Hbx : below (first_child i left) x).
    { apply (below_trans _ (bottom (first_child i left) q)).
      - apply below_bottom; [by eapply at_height_pos|done].
      - apply Hm; [done| |by eauto]. eapply below_trans; [|exact Hb].
        apply below_child, first_child_spec. done. }
    destruct left; eapply (children_disjoint i x); done.
Qed.

Lemma canonical_edge_child h i p b m :
  at_height (S h) i → canonical (S h) i m = Some (TEdge p b) →
  ∃ left t, canonical h (first_child i left) m = Some t ∧
    canonical h (first_child i (negb left)) m = None ∧
    edge_to (child_path left) (Some t) = Some (TEdge p b).
Proof.
  intros Hi. rewrite canonical_S by done.
  destruct (canonical h (2 * i) m) as [tl|] eqn:Hl, (canonical h (2 * i + 1) m) as [tr|] eqn:Hr;
    cbn [join]; try done.
  - intros Heq. by exists true, tl.
  - intros Heq. by exists false, tr.
Qed.

Lemma leaf_not_inner h i x : at_height (S h) i → at_height 0 x → below i x →
  ∃ left, below (first_child i left) x.
Proof.
  intros Hi Hx [->|[Hb|Hb]]%below_children; [|by exists true|by exists false|by eapply at_height_pos].
  exfalso. destruct Hi as (_&_&?), Hx as (_&_&?). lia.
Qed.

Lemma edge_leaves h i p b m :
  at_height h i → canonical h i m = Some (TEdge p b) →
  ∀ x, at_height 0 x → below i x → is_Some (m !! x) → below (bottom i p) x.
Proof.
  revert i p b. induction h as [|h IH]; intros i p b Hi Hc x Hx Hb Hs.
  { rewrite canonical_0 in Hc. by destruct (m !! i). }
  destruct (canonical_edge_child h i p b m Hi Hc) as (left&t&Ht&Hn&Heq).
  assert (Hch : ∀ lr, at_height h (first_child i lr))
    by (intros; eapply at_height_child, first_child_spec; done).
  destruct (leaf_not_inner h i x Hi Hx Hb) as [left' Hb'].
  destruct (decide (left' = left)) as [->|Hne].
  - destruct t as [l|tl tr|q b']; cbn [edge_to] in Heq; simplify_eq; rewrite ?bottom_child; try done.
    rewrite bottom_concat, bottom_child. eauto.
  - assert (left' = negb left) as -> by (by destruct left, left').
    rewrite canonical_None in Hn by done. rewrite (Hn x) in Hs by done. by destruct Hs.
Qed.

Lemma TEdge_inj p q (b b' : tree) : Some (TEdge p b) = Some (TEdge q b') → p = q ∧ b = b'.
Proof. intros. split; congruence. Qed.

(** Following an edge from its top: the node at an inner point of the edge. *)
Lemma canonical_edge_down h i p1 p2 b m :
  at_height h i → path_ok p1 → path_ok p2 →
  canonical h i m = Some (TEdge (path_concat p1 p2) b) →
  canonical (h - N.to_nat (path_length p1)) (bottom i p1) m = lift_to p2 (Some b).
Proof.
  intros Hi Hp1 Hp2 Hc. pose proof (canonical_ok _ _ _ _ Hi Hc) as (Hp&H1&Hlen&Hb&_).
  cbn [path_concat path_length] in *. pose proof (at_height_pos _ _ Hi) as Hpos.
  rewrite (canonical_jump h i p1) in Hc; [|done|done|lia|].
  - unfold lift_to in *. destruct (decide (path_length p1 = 0)) as [H0|Hne].
    + rewrite Hc, path_concat_nil_l by done. rewrite decide_False by lia. by destruct b.
    + assert (Hlen0 : p1 = path_concat p1 p2 → path_length p2 = 0).
      { intros Heq. apply (f_equal path_length) in Heq. cbn [path_concat path_length] in Heq. lia. }
      destruct (canonical (h - N.to_nat (path_length p1)) (bottom i p1) m) as [[l|tl tr|q b']|] eqn:Hd;
        cbn [edge_to] in Hc; [apply TEdge_inj in Hc as [Heq <-]..|done].
      1-2: by rewrite decide_True by auto.
      apply path_concat_inj in Heq as ->. apply canonical_ok in Hd as (_&?&_);
        [|by apply at_height_bottom; [|done|lia]].
      rewrite decide_False by lia. by destruct b'.
  - intros x Hx Hbx Hs. apply (below_trans _ (bottom i (path_concat p1 p2))).
    + rewrite bottom_concat. apply below_bottom; [by apply bottom_pos|done].
    + by eapply edge_leaves.
Qed.

(** ** The leaves of a tree *)

Fixpoint tree_leaf (i : N) (t : tree) (j : N) (l : L) : Prop :=
  match t with
  | TLeaf l' => j = i ∧ l = l'
  | TBinary a b => tree_leaf (2 * i) a j l ∨ tree_leaf (2 * i + 1) b j l
  | TEdge p b => tree_leaf (bottom i p) b j l
  end.

Lemma join_binary (l r : option tree) tl tr :
  join l r = Some (TBinary tl tr) → l = Some tl ∧ r = Some tr.
Proof. destruct l as [[]|], r as [[]|]; simpl; intros; simplify_eq; done. Qed.

Lemma canonical_edge_bottom h i p b m :
  at_height h i → canonical h i m = Some (TEdge p b) →
  canonical (h - N.to_nat (path_length p)) (bottom i p) m = Some b.
Proof.
  intros Hi Hc. pose proof (canonical_ok _ _ _ _ Hi Hc) as (Hp&_).
  assert (Hnil : path_ok {| path := 0; path_length := 0 |}) by done.
  apply (canonical_edge_down h i p {| path := 0; path_length := 0 |} b m); [done..|].
  by rewrite path_concat_nil_r.
Qed.

Lemma tree_leaf_below h i t j l :
  at_height h i → tree_ok h t → tree_leaf i t j l → at_height 0 j ∧ below i j.
Proof.
  revert h i. induction t as [l'|a IHa b IHb|p b IH]; intros h i Hi Ht Hl;
    pose proof (at_height_pos _ _ Hi) as Hpos; cbn [tree_ok tree_leaf] in *.
  - subst h. destruct Hl as [-> _]. split; [done|by apply below_refl].
  - destruct h as [|h]; [done|]. destruct Ht as [Ha Hb]. destruct Hl as [Hl|Hl].
    + apply (IHa h) in Hl as [? Hl]; [|eapply at_height_child; eauto|done].
      split; [done|]. eapply below_trans; [|exact Hl]. apply below_child; auto.
    + apply (IHb h) in Hl as [? Hl]; [|eapply at_height_child; eauto|done].
      split; [done|]. eapply below_trans; [|exact Hl]. apply below_child; auto.
  - destruct Ht as (Hp&_&Hlen&_&Hb). eapply IH in Hl as [? Hl]; [|by apply at_height_bottom|done].
    split; [done|]. eapply below_trans; [by apply below_bottom|done].
Qed.

(** The leaves of the reference tree are those of the map. *)
Lemma canonical_leaves h i m t j l :
  at_height h i → canonical h i m = Some t →
  tree_leaf i t j l ↔ m !! j = Some l ∧ at_height 0 j ∧ below i j.
Proof.
  revert h i. induction t as [l'|a IHa b IHb|p b IH]; intros h i Hi Hc;
    pose proof (canonical_ok _ _ _ _ Hi Hc) as Ht; pose proof (at_height_pos _ _ Hi) as Hpos;
    cbn [tree_ok tree_leaf] in *.
  - subst h. rewrite canonical_0 in Hc. destruct (m !! i) as [l0|] eqn:Hm; [|done].
    injection Hc as ->. split; [intros [-> ->]; by auto using below_refl|].
    intros (Hl&Hj&Hb). assert (j = i) as ->; [|split; congruence].
    destruct Hi as (_&?&?), Hj as (_&?&?). symmetry.
    apply (below_same_depth _ _ j); [done|by apply below_refl|lia].
  - destruct h as [|h]; [done|]. rewrite canonical_S in Hc by done. apply join_binary in Hc as [Hca Hcb].
    rewrite (IHa h), (IHb h) by (done || (eapply at_height_child; eauto)). split.
    + intros [(?&?&Hb)|(?&?&Hb)]; (split_and!; [done|done|]); eapply below_trans; try exact Hb;
        apply below_child; auto.
    + intros (Hl&Hj&Hb). destruct (leaf_not_inner h i j Hi Hj Hb) as [[] Hb']; [left|right]; done.
  - rewrite (IH (h - N.to_nat (path_length p))%nat); [|by apply at_height_bottom; [|apply Ht..]|by apply canonical_edge_bottom].
    split; intros (Hl&Hj&Hb); (split_and!; [done|done|]).
    + eapply below_trans; [by apply below_bottom; [|apply Ht]|done].
    + by eapply (edge_leaves h i p b m).
Qed.
End tree.

Arguments canonical : simpl never.
