(* ===== verification/PatriciaNode.v ===== *)
(** The nodes of a Patricia-Merkle tree, their hashes and their storage format
    (crates/starknet_patricia/src/patricia_merkle_tree: node_data/inner_node.rs,
    node_data/leaf.rs, updated_skeleton_tree/hash_function.rs, filled_tree/node.rs,
    filled_tree/node_serde.rs; storage/{storage_trait,map_storage,db_object}.rs) and the
    storage leaf of crates/starknet_committer/src/patricia_merkle_tree/leaf.

    The traits [Leaf] and [TreeHashFunction] are type classes; what the tree computations
    rely on of an implementation is stated in [LeafLaws] and [TreeHashLaws]. *)
From S2P Require Import Prelude.
From S2P Require Import StarknetApi.
From S2P Require Import PatriciaTypes.
From S2P Require Import PatriciaTree.

(** ** Big-endian bytes *)

Fixpoint to_be_bytes (n : nat) (x : N) : list N :=
  match n with O => [] | S n => to_be_bytes n (x / 256) ++ [x mod 256] end.

Definition from_be_bytes (bytes : list N) : N := fold_left (λ acc b, acc * 256 + b) bytes 0.

Definition felt_to_bytes_be (felt : N) : list N := to_be_bytes 32 felt.
Definition felt_from_bytes_be_slice (bytes : list N) : N := from_be_bytes bytes mod felt_prime.

Lemma to_be_bytes_length n x : List.length (to_be_bytes n x) = n.
Proof.
  revert x. induction n as [|n IH]; intros x; cbn [to_be_bytes]; [done|].
  rewrite length_app, IH. simpl. lia.
Qed.

Lemma from_to_be_bytes n x : x < 256 ^ N.of_nat n → from_be_bytes (to_be_bytes n x) = x.
Proof.
  revert x. induction n as [|n IH]; intros x Hx; cbn [to_be_bytes].
  { simpl in Hx. unfold from_be_bytes; simpl. lia. }
  unfold from_be_bytes in *. rewrite fold_left_app. cbn [fold_left]. rewrite IH.
  - pose proof (N.Div0.div_mod x 256). lia.
  - apply N.Div0.div_lt_upper_bound. by rewrite <-N.pow_succ_r', <-Nat2N.inj_succ.
Qed.

Lemma felt_bytes_roundtrip x : x < felt_prime → felt_from_bytes_be_slice (felt_to_bytes_be x) = x.
Proof.
  intros Hx. unfold felt_from_bytes_be_slice, felt_to_bytes_be. rewrite from_to_be_bytes.
  - by apply N.mod_small.
  - eapply N.lt_trans; [exact Hx|]. done.
Qed.

(** ** Storage *)

Abbreviation Bytes := (list N) (only parsing).

Inductive StarknetPrefix := InnerNode | StorageLeaf | StateTreeLeaf | CompiledClassLeaf.

(** ASCII codes of [patricia_node], [starknet_storage_leaf], [contract_state] and
    [contract_class_leaf]. *)
Definition to_storage_prefix (self : StarknetPrefix) : Bytes :=
  match self with
  | InnerNode => [112;97;116;114;105;99;105;97;95;110;111;100;101]
  | StorageLeaf => [115;116;97;114;107;110;101;116;95;115;116;111;114;97;103;101;95;108;101;97;102]
  | StateTreeLeaf => [99;111;110;116;114;97;99;116;95;115;116;97;116;101]
  | CompiledClassLeaf => [99;111;110;116;114;97;99;116;95;99;108;97;115;115;95;108;101;97;102]
  end.

(** [[prefix, b":".to_vec(), suffix.to_vec()].concat()]. *)
Definition create_db_key (prefix suffix : Bytes) : Bytes := prefix ++ [58] ++ suffix.

Abbreviation MapStorage := (gmap (list N) (list N)) (only parsing).

Definition storage_get (self : MapStorage) (key : Bytes) : option Bytes := self !! key.
Definition storage_mget (self : MapStorage) (keys : list Bytes) : list (option Bytes) :=
  (λ key, storage_get self key) <$> keys.
Definition storage_mset (self : MapStorage) (key_to_value : gmap (list N) (list N)) : MapStorage :=
  key_to_value ∪ self.

(** ** Errors *)

Inductive DeserializationError :=
| KeyDuplicate | NonExistingKey | ParsingError
| DeserializationEdgePathError (e : EdgePathError)
| DeserializationPathToBottomError (e : PathToBottomError)
| LeafPrefixError | StringConversionError | FeltParsingError | LeafTypeError.

Inductive LeafError := LeafComputationError | MissingLeafModificationData (index : N).

(** ** The traits *)

Record BinaryData := { left_hash : N; right_hash : N }.
Record EdgeData := { bottom_hash : N; path_to_bottom : PathToBottom }.

Inductive NodeData (L : Type) :=
| Data_Binary (d : BinaryData)
| Data_Edge (d : EdgeData)
| Data_Leaf (l : L).
Arguments Data_Binary {L} d.
Arguments Data_Edge {L} d.
Arguments Data_Leaf {L} l.

(** [trait Leaf: DBObject + Deserializable + Default + Eq]. *)
Class Leaf (L : Type) := {
  leaf_eq_dec :: EqDecision L;
  LeafInput : Type;
  LeafOutput : Type;
  is_empty : L → bool;
  leaf_create : LeafInput → result LeafError (L * LeafOutput);
  leaf_default : L;
  leaf_serialize : L → Bytes;
  leaf_get_prefix : L → Bytes;
  leaf_deserialize : Bytes → result DeserializationError L;
  leaf_prefix : Bytes;
}.

(** A leaf is read back as it was written, under the same prefix; the default leaf is the
    empty one. *)
Class LeafLaws (L : Type) `{Leaf L} := {
  leaf_ok : L → Prop;
  leaf_roundtrip : ∀ l, leaf_ok l → leaf_deserialize (leaf_serialize l) = Ok l;
  leaf_prefix_eq : ∀ l, leaf_get_prefix l = leaf_prefix;
  leaf_default_empty : is_empty leaf_default = true;
}.

Class TreeHashFunction (L : Type) := {
  compute_leaf_hash : L → N;
  compute_node_hash : NodeData L → N;
}.

(** A hash is a felt. *)
Class TreeHashLaws (L : Type) `{LeafLaws L} `{!TreeHashFunction L} := {
  compute_node_hash_felt : ∀ d, match d with Data_Leaf l => leaf_ok l | _ => True end →
    compute_node_hash d < felt_prime;
}.

(** [Leaf::from_modifications]. *)
Definition from_modifications {L} (index : N) (leaf_modifications : gmap N L) : result LeafError L :=
  match leaf_modifications !! index with
  | Some l => Ok l
  | None => Err (MissingLeafModificationData index)
  end.

Inductive SkeletonLeaf := Zero | NonZero.

#[global] Instance SkeletonLeaf_eq_dec : EqDecision SkeletonLeaf.
Proof. solve_decision. Defined.

Definition SkeletonLeaf_is_zero (self : SkeletonLeaf) : bool := bool_decide (self = Zero).
Definition SkeletonLeaf_from (value : N) : SkeletonLeaf := if decide (value = 0) then Zero else NonZero.

(** ** Hashes *)

Definition ROOT_OF_EMPTY_TREE : N := 0.

(** [TreeHashFunction::compute_node_hash_with_inner_hash_function]: a felt addition. *)
Definition compute_node_hash_with_inner_hash_function {L} (hash : N → N → N) (leaf_hash : L → N)
    (node_data : NodeData L) : N :=
  match node_data with
  | Data_Binary d => hash (left_hash d) (right_hash d)
  | Data_Edge d =>
      felt_add (hash (bottom_hash d) (path (path_to_bottom d) mod felt_prime))
               (path_length (path_to_bottom d))
  | Data_Leaf l => leaf_hash l
  end.

(** ** Filled nodes *)

Record FilledNode (L : Type) := { hash : N; data : NodeData L }.
Arguments Build_FilledNode {L} hash data.
Arguments hash {L} _.
Arguments data {L} _.

Definition SERIALIZE_HASH_BYTES : nat := 32.
Definition BINARY_BYTES : nat := 2 * SERIALIZE_HASH_BYTES.
Definition EDGE_LENGTH_BYTES : nat := 1.
Definition EDGE_PATH_BYTES : nat := 32.
Definition EDGE_BYTES : nat := SERIALIZE_HASH_BYTES + EDGE_PATH_BYTES + EDGE_LENGTH_BYTES.

Section filled_node.
Context {L : Type} `{!Leaf L}.

Definition suffix (self : FilledNode L) : Bytes := felt_to_bytes_be (hash self).

Definition FilledNode_serialize (self : FilledNode L) : Bytes :=
  match data self with
  | Data_Binary d => felt_to_bytes_be (left_hash d) ++ felt_to_bytes_be (right_hash d)
  | Data_Edge d =>
      felt_to_bytes_be (bottom_hash d) ++ to_be_bytes 32 (path (path_to_bottom d))
        ++ to_be_bytes 1 (path_length (path_to_bottom d))
  | Data_Leaf l => leaf_serialize l
  end.

Definition FilledNode_get_prefix (self : FilledNode L) : Bytes :=
  match data self with
  | Data_Binary _ | Data_Edge _ => to_storage_prefix InnerNode
  | Data_Leaf l => leaf_get_prefix l
  end.

Definition db_key (self : FilledNode L) : Bytes := create_db_key (FilledNode_get_prefix self) (suffix self).

Definition FilledNode_deserialize (node_hash : N) (value : Bytes) (leaf : bool)
    : result DeserializationError (FilledNode L) :=
  if leaf then
    l ← leaf_deserialize value;
    mret {| hash := node_hash; data := Data_Leaf l |}
  else if decide (List.length value = BINARY_BYTES) then
    mret {| hash := node_hash;
            data := Data_Binary {|
              left_hash := felt_from_bytes_be_slice (take SERIALIZE_HASH_BYTES value);
              right_hash := felt_from_bytes_be_slice (drop SERIALIZE_HASH_BYTES value) |} |}
  else if decide (List.length value = EDGE_BYTES) then
    p ← EdgePath_from (from_be_bytes (take EDGE_PATH_BYTES (drop SERIALIZE_HASH_BYTES value)));
    b ← ok_or_panic (value !! (EDGE_BYTES - 1)%nat);
    l ← map_err DeserializationEdgePathError (EdgePathLength_new b);
    ptb ← map_err DeserializationPathToBottomError (PathToBottom_new p l);
    mret {| hash := node_hash;
            data := Data_Edge {|
              bottom_hash := felt_from_bytes_be_slice (take SERIALIZE_HASH_BYTES value);
              path_to_bottom := ptb |} |}
  else Panic.
End filled_node.

(** ** Reading back a stored node *)

Section serde.
Context {L : Type} `{LeafLaws L}.

Definition data_ok (d : NodeData L) : Prop :=
  match d with
  | Data_Binary d => left_hash d < felt_prime ∧ right_hash d < felt_prime
  | Data_Edge d => bottom_hash d < felt_prime ∧ path_ok (path_to_bottom d)
  | Data_Leaf l => leaf_ok l
  end.

Definition data_is_leaf (d : NodeData L) : bool := match d with Data_Leaf _ => true | _ => false end.

Lemma take_bytes n x (l : list N) : take n (to_be_bytes n x ++ l) = to_be_bytes n x.
Proof. apply take_app_length', eq_sym, to_be_bytes_length. Qed.

Lemma drop_bytes n x (l : list N) : drop n (to_be_bytes n x ++ l) = l.
Proof. apply drop_app_length', eq_sym, to_be_bytes_length. Qed.

Lemma deserialize_serialize (n : FilledNode L) :
  data_ok (data n) →
  FilledNode_deserialize (hash n) (FilledNode_serialize n) (data_is_leaf (data n)) = Ok n.
Proof.
  destruct n as [h [[lh rh]|[bh ptb]|l]]; unfold FilledNode_deserialize, FilledNode_serialize;
    cbn [data hash data_ok data_is_leaf left_hash right_hash bottom_hash path_to_bottom].
  - intros [Hl Hr]. rewrite decide_True
      by (rewrite length_app; unfold felt_to_bytes_be; by rewrite !to_be_bytes_length).
    unfold SERIALIZE_HASH_BYTES, felt_to_bytes_be. rewrite take_bytes, drop_bytes.
    by rewrite !(felt_bytes_roundtrip _) by done.
  - intros [Hb Hp]. pose proof Hp as [Hp1 Hp2].
    assert (Hlen : List.length (felt_to_bytes_be bh ++ to_be_bytes 32 (path ptb) ++ to_be_bytes 1 (path_length ptb))
                   = EDGE_BYTES).
    { unfold felt_to_bytes_be. by rewrite !length_app, !to_be_bytes_length. }
    rewrite decide_False, decide_True by (rewrite Hlen; done).
    unfold SERIALIZE_HASH_BYTES, EDGE_PATH_BYTES, felt_to_bytes_be in *.
    rewrite take_bytes, drop_bytes, take_bytes. fold (felt_to_bytes_be bh).
    rewrite (felt_bytes_roundtrip bh Hb), from_to_be_bytes.
    2:{ eapply N.lt_le_trans; [exact Hp1|]. etrans; [apply pow2_le, Hp2|]. by vm_compute. }
    rewrite EdgePath_from_ok by done. unfold mbind; cbn [result_bind].
    replace ((felt_to_bytes_be bh ++ to_be_bytes 32 (path ptb) ++ to_be_bytes 1 (path_length ptb))
      !! (EDGE_BYTES - 1)%nat) with (Some (path_length ptb)).
    2:{ unfold felt_to_bytes_be. rewrite !lookup_app_r by (rewrite ?to_be_bytes_length; unfold EDGE_BYTES; simpl; lia).
        rewrite !to_be_bytes_length. cbn [to_be_bytes]. simpl. f_equal. symmetry. apply N.mod_small. lia. }
    cbn [ok_or_panic result_bind]. unfold EdgePathLength_new, EdgePathLength_MAX, ACTUAL_HEIGHT.
    rewrite decide_False by lia. cbn [map_err result_bind].
    rewrite PathToBottom_new_ok by done. cbn [map_err result_bind]. by destruct ptb.
  - intros Hl. by rewrite leaf_roundtrip.
Qed.
End serde.

(** ** Hashes of reference trees *)

Section tree_hash.
Context {L : Type} `{!TreeHashFunction L}.

Fixpoint tree_hash (t : tree (L:=L)) : N :=
  compute_node_hash
    match t with
    | TLeaf l => Data_Leaf l
    | TBinary l r => Data_Binary {| left_hash := tree_hash l; right_hash := tree_hash r |}
    | TEdge p b => Data_Edge {| bottom_hash := tree_hash b; path_to_bottom := p |}
    end.

Definition tree_data (t : tree (L:=L)) : NodeData L :=
  match t with
  | TLeaf l => Data_Leaf l
  | TBinary l r => Data_Binary {| left_hash := tree_hash l; right_hash := tree_hash r |}
  | TEdge p b => Data_Edge {| bottom_hash := tree_hash b; path_to_bottom := p |}
  end.

Definition tree_node (t : tree (L:=L)) : FilledNode L := {| hash := tree_hash t; data := tree_data t |}.

Definition root_hash_of (t : option (tree (L:=L))) : N :=
  match t with Some t => tree_hash t | None => ROOT_OF_EMPTY_TREE end.

Lemma tree_hash_data t : tree_hash t = compute_node_hash (tree_data t).
Proof. by destruct t. Qed.
End tree_hash.
