(* ===== verification/PatriciaSkeleton.v ===== *)
(** The original and the updated skeleton of a Patricia-Merkle tree
    (crates/starknet_patricia/src/patricia_merkle_tree: original_skeleton_tree/{node,tree}.rs,
    updated_skeleton_tree/{node,tree,create_tree_helper}.rs).

    An update starts from the part of the original tree that the modified leaves reach
    (the original skeleton) and computes, from the leaves up, the structure of the new
    tree. The methods change the updated skeleton and inject nodes into the original one:
    the state is the pair of node maps. A recursive method takes fuel; it goes down at
    least one level per call, so that the height of the tree plus one suffices. *)
From S2P Require Import Prelude.
From S2P Require Import PatriciaTypes.
From S2P Require Import PatriciaTree.
From S2P Require Import PatriciaNode.

Inductive OriginalSkeletonNode :=
| Original_Binary
| Original_Edge (path_to_bottom : PathToBottom)
| Original_UnmodifiedSubTree (hash : N).

Inductive UpdatedSkeletonNode :=
| Updated_Binary
| Updated_Edge (path_to_bottom : PathToBottom)
| Updated_UnmodifiedSubTree (hash : N)
| Updated_Leaf.

Inductive TempSkeletonNode :=
| Temp_Empty
| Temp_Leaf
| Temp_Original (node : OriginalSkeletonNode).

#[global] Instance OriginalSkeletonNode_eq_dec : EqDecision OriginalSkeletonNode.
Proof. solve_decision. Defined.
#[global] Instance UpdatedSkeletonNode_eq_dec : EqDecision UpdatedSkeletonNode.
Proof. solve_decision. Defined.
#[global] Instance TempSkeletonNode_eq_dec : EqDecision TempSkeletonNode.
Proof. solve_decision. Defined.

Definition temp_is_empty (self : TempSkeletonNode) : bool := bool_decide (self = Temp_Empty).

Abbreviation OriginalSkeletonNodeMap := (gmap N OriginalSkeletonNode) (only parsing).
Abbreviation UpdatedSkeletonNodeMap := (gmap N UpdatedSkeletonNode) (only parsing).

Record OriginalSkeletonTreeImpl := {
  nodes : OriginalSkeletonNodeMap;
  sorted_leaf_indices : list N;
}.

Inductive UpdatedSkeletonTreeError := MissingNode (index : N).

(** The updated skeleton ([self.skeleton_tree]) and the nodes of the original one. *)
Record UpdateState := {
  skeleton_tree : UpdatedSkeletonNodeMap;
  original_skeleton : OriginalSkeletonNodeMap;
}.

Abbreviation MU A := (M UpdateState UpdatedSkeletonTreeError A) (only parsing).

Definition skeleton_insert (index : N) (node : UpdatedSkeletonNode) : MU unit :=
  modify (λ s, {| skeleton_tree := <[index := node]> (skeleton_tree s);
                  original_skeleton := original_skeleton s |}).

Definition original_insert (index : N) (node : OriginalSkeletonNode) : MU unit :=
  modify (λ s, {| skeleton_tree := skeleton_tree s;
                  original_skeleton := <[index := node]> (original_skeleton s) |}).

Definition skeleton_contains (index : N) : MU bool :=
  gets (λ s, bool_decide (is_Some (skeleton_tree s !! index))).

(** ** Paths to the lowest common ancestor of a slice *)

Definition get_path_to_lca {E} (root_index : N) (subtree_indices : list N) : result E PathToBottom :=
  match subtree_indices with
  | [] => Panic
  | first_index :: _ =>
      lca ← (if decide (List.length subtree_indices = 1%nat) then Ok first_index
             else last_index ← ok_or_panic (last subtree_indices); get_lca first_index last_index);
      get_path_to_descendant root_index lca
  end.

Definition slice_is_empty (l : list N) : bool := match l with [] => true | _ => false end.

Definition has_leaves_on_both_sides {E} (root_index : N) (leaf_indices : list N) : result E bool :=
  if slice_is_empty leaf_indices then Ok false
  else
    sides ← split_leaves root_index leaf_indices;
    mret (negb (slice_is_empty sides.1) && negb (slice_is_empty sides.2)).

(** ** The bottom layer *)

(** The chained iterator is collected to a map: an unmodified node overrides a leaf. *)
Definition finalize_bottom_layer (original : OriginalSkeletonTreeImpl)
    (leaf_modifications : gmap N SkeletonLeaf) : UpdatedSkeletonNodeMap :=
  omap (λ node, match node with
                | Original_UnmodifiedSubTree hash => Some (Updated_UnmodifiedSubTree hash)
                | Original_Binary | Original_Edge _ => None
                end) (nodes original)
  ∪ omap (λ leaf, if SkeletonLeaf_is_zero leaf then None else Some Updated_Leaf) leaf_modifications.

(** ** Nodes from their updated descendants *)

Definition node_from_edge_data (path : PathToBottom) (bottom_index : N) (bottom : TempSkeletonNode)
    : MU TempSkeletonNode :=
  match bottom with
  | Temp_Empty => mret Temp_Empty
  | Temp_Leaf =>
      found ← skeleton_contains bottom_index;
      assert_ found;;
      mret (Temp_Original (Original_Edge path))
  | Temp_Original (Original_Edge path_to_bottom) =>
      p ← lift_result (concat_paths path path_to_bottom);
      mret (Temp_Original (Original_Edge p))
  | Temp_Original Original_Binary =>
      skeleton_insert bottom_index Updated_Binary;;
      mret (Temp_Original (Original_Edge path))
  | Temp_Original (Original_UnmodifiedSubTree _) => mret (Temp_Original (Original_Edge path))
  end.

(** The body of the loop over the two children of a binary node. *)
Definition finalize_child (child : N * TempSkeletonNode) : MU unit :=
  let '(index, node) := child in
  match node with
  | Temp_Leaf => found ← skeleton_contains index; assert_ found
  | Temp_Empty => panic
  | Temp_Original Original_Binary => skeleton_insert index Updated_Binary
  | Temp_Original (Original_Edge path_to_bottom) => skeleton_insert index (Updated_Edge path_to_bottom)
  | Temp_Original (Original_UnmodifiedSubTree _) => mret tt
  end.

Definition node_from_binary_data (root_index : N) (left right : TempSkeletonNode) : MU TempSkeletonNode :=
  children ← lift_result (get_children_indices root_index);
  let '(left_index, right_index) := children in
  if negb (temp_is_empty left) && negb (temp_is_empty right) then
    mfor finalize_child [(left_index, left); (right_index, right)];;
    mret (Temp_Original Original_Binary)
  else if temp_is_empty right then node_from_edge_data LEFT_CHILD left_index left
  else node_from_edge_data RIGHT_CHILD right_index right.

(** ** Updating a subtree *)

Fixpoint update_node_in_empty_tree (fuel : nat) (root_index : N) (leaf_indices : list N)
    : MU TempSkeletonNode :=
  match fuel with
  | O => panic
  | S fuel =>
      if is_leaf root_index then
        assert_ (bool_decide (leaf_indices = [root_index]));;
        found ← skeleton_contains root_index;
        mret (if found : bool then Temp_Leaf else Temp_Empty)
      else
        both ← lift_result (has_leaves_on_both_sides root_index leaf_indices);
        if both : bool then
          sides ← lift_result (split_leaves root_index leaf_indices);
          children ← lift_result (get_children_indices root_index);
          left_child ← update_node_in_empty_tree fuel children.1 sides.1;
          right_child ← update_node_in_empty_tree fuel children.2 sides.2;
          node_from_binary_data root_index left_child right_child
        else
          path_to_lca ← lift_result (get_path_to_lca root_index leaf_indices);
          bottom_idx ← lift_result (bottom_index path_to_lca root_index);
          bottom ← update_node_in_empty_tree fuel bottom_idx leaf_indices;
          node_from_edge_data path_to_lca bottom_idx bottom
  end.

(** [update_edge_node] calls [update_node_in_nonempty_tree] back ([update]). *)
Definition update_edge_node (update : N → list N → MU TempSkeletonNode) (fuel : nat)
    (root_index : N) (path_to_bottom : PathToBottom) (leaf_indices : list N) : MU TempSkeletonNode :=
  children ← lift_result (get_children_indices root_index);
  sides ← lift_result (split_leaves root_index leaf_indices);
  was_left_nonempty ← lift_result (is_left_descendant path_to_bottom);
  if (negb (slice_is_empty sides.2) && was_left_nonempty)
     || (negb (slice_is_empty sides.1) && negb was_left_nonempty)
  then
    let '(nonempty_index, nonempty_leaves, empty_index, empty_leaves) :=
      if was_left_nonempty : bool then (children.1, sides.1, children.2, sides.2)
      else (children.2, sides.2, children.1, sides.1) in
    (if decide (1 < path_length path_to_bottom) then
       p ← lift_result (unwrap_result (remove_first_edges path_to_bottom EdgePathLength_ONE));
       original_insert nonempty_index (Original_Edge p)
     else mret tt);;
    orig_nonempty_subtree_child ← update nonempty_index nonempty_leaves;
    orig_empty_subtree_child ← update_node_in_empty_tree fuel empty_index empty_leaves;
    if was_left_nonempty
    then node_from_binary_data root_index orig_nonempty_subtree_child orig_empty_subtree_child
    else node_from_binary_data root_index orig_empty_subtree_child orig_nonempty_subtree_child
  else
    path_to_leaves_lca ← lift_result (get_path_to_lca root_index leaf_indices);
    leaves_lca_index ← lift_result (bottom_index path_to_leaves_lca root_index);
    bottom_idx ← lift_result (bottom_index path_to_bottom root_index);
    path_to_new_bottom ← lift_result
      (get_path_to_lca root_index (SortedLeafIndices_new [leaves_lca_index; bottom_idx]));
    new_bottom_index ← lift_result (bottom_index path_to_new_bottom root_index);
    (if decide (new_bottom_index = bottom_idx) then
       assert_ (bool_decide (path_to_new_bottom = path_to_bottom))
     else
       p ← lift_result (unwrap_result (remove_first_edges path_to_bottom (path_length path_to_new_bottom)));
       original_insert new_bottom_index (Original_Edge p));;
    bottom ← update new_bottom_index leaf_indices;
    node_from_edge_data path_to_new_bottom new_bottom_index bottom.

Fixpoint update_node_in_nonempty_tree (fuel : nat) (root_index : N) (leaf_indices : list N)
    : MU TempSkeletonNode :=
  match fuel with
  | O => panic
  | S fuel =>
      if is_leaf root_index && bool_decide (root_index ∈ leaf_indices) then
        found ← skeleton_contains root_index;
        mret (if found : bool then Temp_Leaf else Temp_Empty)
      else
        s ← get_st;
        original_node ← expect (original_skeleton s !! root_index);
        if slice_is_empty leaf_indices then
          match original_node with
          | Original_Binary => panic
          | Original_Edge _ | Original_UnmodifiedSubTree _ => mret (Temp_Original original_node)
          end
        else
          match original_node with
          | Original_UnmodifiedSubTree _ => panic
          | Original_Binary =>
              sides ← lift_result (split_leaves root_index leaf_indices);
              children ← lift_result (get_children_indices root_index);
              left ← update_node_in_nonempty_tree fuel children.1 sides.1;
              right ← update_node_in_nonempty_tree fuel children.2 sides.2;
              node_from_binary_data root_index left right
          | Original_Edge path_to_bottom =>
              update_edge_node (update_node_in_nonempty_tree fuel) fuel root_index path_to_bottom leaf_indices
          end
  end.

(** Enough fuel for a tree of height [ACTUAL_HEIGHT]. *)
Definition tree_fuel : nat := 252.

Definition finalize_middle_layers (leaf_indices : list N) : MU TempSkeletonNode :=
  s ← get_st;
  if decide (original_skeleton s = ∅) then update_node_in_empty_tree tree_fuel ROOT leaf_indices
  else update_node_in_nonempty_tree tree_fuel ROOT leaf_indices.

(** ** The updated skeleton *)

Definition UpdatedSkeleton_create_unmodified (original : OriginalSkeletonTreeImpl)
    : result UpdatedSkeletonTreeError UpdatedSkeletonNodeMap :=
  match nodes original !! ROOT with
  | None => Err (MissingNode ROOT)
  | Some (Original_UnmodifiedSubTree root_hash) => Ok {[ROOT := Updated_UnmodifiedSubTree root_hash]}
  | Some _ => Panic
  end.

(** [UpdatedSkeletonTree::create]. *)
Definition UpdatedSkeleton_create (original : OriginalSkeletonTreeImpl)
    (leaf_modifications : gmap N SkeletonLeaf) : result UpdatedSkeletonTreeError UpdatedSkeletonNodeMap :=
  if decide (leaf_modifications = ∅) then UpdatedSkeleton_create_unmodified original
  else
    let s0 := {| skeleton_tree := finalize_bottom_layer original leaf_modifications;
                 original_skeleton := nodes original |} in
    let '(r, s) := finalize_middle_layers (sorted_leaf_indices original) s0 in
    temp_root_node ← r;
    match temp_root_node with
    | Temp_Empty => if decide (skeleton_tree s = ∅) then Ok (skeleton_tree s) else Panic
    | Temp_Leaf => Panic
    | Temp_Original node =>
        new_node ← match node with
                   | Original_Binary => Ok Updated_Binary
                   | Original_Edge path_to_bottom => Ok (Updated_Edge path_to_bottom)
                   | Original_UnmodifiedSubTree _ => Panic
                   end;
        match skeleton_tree s !! ROOT with
        | Some _ => Panic
        | None => Ok (<[ROOT := new_node]> (skeleton_tree s))
        end
    end.

Definition UpdatedSkeleton_is_empty {E} (self : UpdatedSkeletonNodeMap) : result E bool :=
  match self !! ROOT with
  | Some (Updated_UnmodifiedSubTree root_hash) => Ok (bool_decide (root_hash = ROOT_OF_EMPTY_TREE))
  | Some _ => Ok false
  | None => _ ← check (bool_decide (self = ∅)); Ok true
  end.

Definition get_node (self : UpdatedSkeletonNodeMap) (index : N)
    : result UpdatedSkeletonTreeError UpdatedSkeletonNode :=
  match self !! index with Some node => Ok node | None => Err (MissingNode index) end.
