(* ===== verification/PatriciaUpdate.v ===== *)
(** Correctness of the skeleton update: the updated skeleton is the skeleton of the
    reference tree of the updated leaves.

    [in_skel Ls i t j n] describes the skeleton of the tree [t] rooted at [i] when the
    leaves [Ls] are modified: node [j] appears in it as [n]. A subtree without modified
    leaves appears as one unmodified node (below an edge, if its root is one). *)
From S2P Require Import Prelude.
From S2P Require Import PatriciaTypes.
From S2P Require Import PatriciaTree.
From S2P Require Import PatriciaNode.
From S2P Require Import PatriciaSkeleton.

Definition has_mods (Ls : list N) (i : N) : bool := negb (slice_is_empty (filter (below i) Ls)).

Definition is_bottom (n : UpdatedSkeletonNode) : bool :=
  match n with Updated_Leaf | Updated_UnmodifiedSubTree _ => true | _ => false end.

Definition to_updated (n : OriginalSkeletonNode) : UpdatedSkeletonNode :=
  match n with
  | Original_Binary => Updated_Binary
  | Original_Edge p => Updated_Edge p
  | Original_UnmodifiedSubTree h => Updated_UnmodifiedSubTree h
  end.

(** Only nodes strictly below [i] change. *)
Definition frame {A} (i : N) (sk sk' : gmap N A) : Prop :=
  ∀ j, ¬ strictly_below i j → sk' !! j = sk !! j.

Section skeletons.
Context {L : Type} `{!TreeHashFunction L}.
Variable Ls : list N.
Implicit Types (t : tree (L:=L)) (sk : gmap N UpdatedSkeletonNode) (i j : N).

Fixpoint in_skel (i : N) t (j : N) (n : UpdatedSkeletonNode) : Prop :=
  match t with
  | TLeaf _ => j = i ∧ n = if has_mods Ls i then Updated_Leaf else Updated_UnmodifiedSubTree (tree_hash t)
  | TBinary l r =>
      if has_mods Ls i
      then (j = i ∧ n = Updated_Binary) ∨ in_skel (2 * i) l j n ∨ in_skel (2 * i + 1) r j n
      else j = i ∧ n = Updated_UnmodifiedSubTree (tree_hash t)
  | TEdge p b => (j = i ∧ n = Updated_Edge p) ∨ in_skel (bottom i p) b j n
  end.

(** The temporary node that stands for the root of a subtree. *)
Definition temp_of (i : N) (t : option (tree (L:=L))) : TempSkeletonNode :=
  match t with
  | None => Temp_Empty
  | Some (TEdge p _) => Temp_Original (Original_Edge p)
  | Some (TLeaf l) =>
      if has_mods Ls i then Temp_Leaf else Temp_Original (Original_UnmodifiedSubTree (tree_hash (TLeaf l)))
  | Some (TBinary l r) =>
      Temp_Original (if has_mods Ls i then Original_Binary
                     else Original_UnmodifiedSubTree (tree_hash (TBinary l r)))
  end.

(** The skeleton of a subtree is complete, except for its root unless that is final from
    the start (a modified leaf or an unmodified node). *)
Definition sk_done sk i (t : option (tree (L:=L))) : Prop :=
  ∀ j n, below i j →
    sk !! j = Some n ↔ ∃ t0, t = Some t0 ∧ in_skel i t0 j n ∧ (j = i → is_bottom n = true).

(** The skeleton of a subtree is complete. *)
Definition sk_full sk i t : Prop := ∀ j n, below i j → sk !! j = Some n ↔ in_skel i t j n.

Lemma has_mods_true i : has_mods Ls i = true ↔ ∃ x, x ∈ Ls ∧ below i x.
Proof.
  unfold has_mods. destruct (filter (below i) Ls) as [|x l] eqn:Hf; simpl; split; try done.
  - intros (x&Hx&Hb). exfalso. apply (not_elem_of_nil x). rewrite <-Hf. by apply list_elem_of_filter.
  - intros _. exists x. assert (Hx : x ∈ filter (below i) Ls) by (rewrite Hf; left).
    apply list_elem_of_filter in Hx. tauto.
Qed.

Lemma has_mods_false i : has_mods Ls i = false ↔ filter (below i) Ls = [].
Proof. unfold has_mods. by destruct (filter (below i) Ls). Qed.

Lemma has_mods_below i j : below i j → has_mods Ls j = true → has_mods Ls i = true.
Proof. rewrite !has_mods_true. intros Hij (x&?&?). exists x. split; [done|by eapply below_trans]. Qed.

Lemma in_skel_below h i t j n : at_height h i → tree_ok h t → in_skel i t j n → below i j.
Proof.
  revert h i. induction t as [l|l IHl r IHr|p b IH]; intros h i Hi Ht Hin;
    pose proof (at_height_pos _ _ Hi); cbn [in_skel tree_ok] in *.
  - destruct Hin as [-> _]. by apply below_refl.
  - destruct h as [|h]; [done|]. destruct Ht as [Hl Hr].
    destruct (has_mods Ls i); [|destruct Hin as [-> _]; by apply below_refl].
    destruct Hin as [[-> _]|[Hin|Hin]]; [by apply below_refl|..].
    + apply (below_trans _ (2 * i)); [apply below_child; auto|].
      apply (IHl h); [eapply at_height_child; eauto|done..].
    + apply (below_trans _ (2 * i + 1)); [apply below_child; auto|].
      apply (IHr h); [eapply at_height_child; eauto|done..].
  - destruct Ht as (Hp&?&?&_&Hb). destruct Hin as [[-> _]|Hin]; [by apply below_refl|].
    eapply below_trans; [by apply below_bottom|]. eapply IH; [by apply at_height_bottom|done|done].
Qed.

Lemma bottom_strict i p : 0 < i → path_ok p → 1 ≤ path_length p → ¬ below (bottom i p) i.
Proof. intros Hi Hp H1 Hb%below_log2. rewrite bottom_log2 in Hb by done. lia. Qed.

Lemma child_strict i c : 0 < i → c = 2 * i ∨ c = 2 * i + 1 → ¬ below c i.
Proof. intros Hi Hc Hb%below_log2. destruct (log2_child i Hi). destruct Hc as [->| ->]; lia. Qed.

(** The root of a skeleton. *)
Lemma in_skel_root h i t n :
  at_height h i → tree_ok h t →
  in_skel i t i n ↔ n = match temp_of i (Some t) with
                        | Temp_Original o => to_updated o | _ => Updated_Leaf end.
Proof.
  intros Hi Ht. pose proof (at_height_pos _ _ Hi). destruct t as [l|l r|p b]; cbn [in_skel temp_of].
  - destruct (has_mods Ls i); naive_solver.
  - destruct h as [|h]; [done|]. destruct Ht as [Hl Hr]. destruct (has_mods Ls i); [|naive_solver].
    cbn [to_updated]. split; [|auto]. intros [[_ ->]|[Hin|Hin]]; [done|..]; exfalso.
    + apply (in_skel_below h) in Hin; [|eapply at_height_child; eauto|done].
      eapply (child_strict i (2 * i)); auto.
    + apply (in_skel_below h) in Hin; [|eapply at_height_child; eauto|done].
      eapply (child_strict i (2 * i + 1)); auto.
  - destruct Ht as (Hp&?&?&_&Hb). cbn [to_updated]. split; [|auto]. intros [[_ ->]|Hin]; [done|].
    exfalso. eapply in_skel_below in Hin; [|by apply at_height_bottom|done].
    by eapply bottom_strict.
Qed.

Lemma child_height h i left : at_height (S h) i → at_height h (first_child i left).
Proof. intros Hi. eapply at_height_child; [done|]. apply first_child_spec. Qed.

Lemma below_first_child i left : 0 < i → below i (first_child i left).
Proof. intros Hi. apply below_child; [done|]. apply first_child_spec. Qed.

Lemma first_child_disjoint i left j :
  0 < i → below (first_child i left) j → below (first_child i (negb left)) j → False.
Proof. intros Hi. destruct left; simpl; intros H1 H2; by eapply (children_disjoint i j). Qed.

(** The skeleton below a child, and below the bottom of an edge. *)
Lemma in_skel_child h i l r (left : bool) j n :
  at_height (S h) i → tree_ok h l → tree_ok h r → has_mods Ls i = true →
  below (first_child i left) j →
  in_skel i (TBinary l r) j n ↔ in_skel (first_child i left) (if left then l else r) j n.
Proof.
  intros Hi Hl Hr Hm Hj. pose proof (at_height_pos _ _ Hi) as Hpos.
  cbn [in_skel]. rewrite Hm. split.
  - intros [[-> _]|Hin].
    + exfalso. eapply (child_strict i (first_child i left)); [done|apply first_child_spec|done].
    + destruct left, Hin as [Hin|Hin]; try done; exfalso.
      * apply (in_skel_below h) in Hin; [|by apply (child_height h i false)|done].
        by eapply (children_disjoint i j).
      * apply (in_skel_below h) in Hin; [|by apply (child_height h i true)|done].
        by eapply (children_disjoint i j).
  - intros Hin. right. destruct left; [by left|by right].
Qed.

Lemma in_skel_edge i p b j n :
  0 < i → path_ok p → 1 ≤ path_length p → below (bottom i p) j →
  in_skel i (TEdge p b) j n ↔ in_skel (bottom i p) b j n.
Proof.
  intros Hi Hp H1 Hj. cbn [in_skel]. split; [|auto]. intros [[-> _]|?]; [|done].
  exfalso. by eapply (bottom_strict i p).
Qed.

(** ** Completing a subtree *)

Lemma finalize_child_ok h c t s :
  at_height h c → tree_ok h t → sk_done (skeleton_tree s) c (Some t) →
  ∃ sk', finalize_child (c, temp_of c (Some t)) s
         = (Ok tt, {| skeleton_tree := sk'; original_skeleton := original_skeleton s |}) ∧
    sk_full sk' c t ∧ ∀ j, j ≠ c → sk' !! j = skeleton_tree s !! j.
Proof.
  intros Hc Ht Hd. pose proof (at_height_pos _ _ Hc) as Hpos.
  assert (Hself : ∀ sk', (∀ j, j ≠ c → sk' !! j = skeleton_tree s !! j) →
    (∃ n, in_skel c t c n ∧ sk' !! c = Some n) → sk_full sk' c t).
  { intros sk' Hfr (n0&Hn0&Hs0) j n Hj. destruct (decide (j = c)) as [->|Hne].
    - rewrite Hs0. rewrite (in_skel_root h) in Hn0 by done. rewrite (in_skel_root h) by done. naive_solver.
    - rewrite Hfr by done. rewrite (Hd j n Hj). naive_solver. }
  assert (Hbot : ∀ n, in_skel c t c n → is_bottom n = true → skeleton_tree s !! c = Some n).
  { intros n Hn Hb. apply Hd; [by apply below_refl|]. eauto. }
  unfold finalize_child. destruct s as [sk orig]; cbn [skeleton_tree original_skeleton] in *.
  assert (Hroot : ∀ n, n = match temp_of c (Some t) with
                        | Temp_Original o => to_updated o | _ => Updated_Leaf end → in_skel c t c n)
    by (intros n; by apply (in_skel_root h)).
  destruct (temp_of c (Some t)) as [| |[|p|hv]] eqn:Htemp.
  - exfalso. destruct t; cbn [temp_of] in Htemp; destruct (has_mods Ls c); done.
  - exists sk. split_and!; [|apply Hself; [done|]; exists Updated_Leaf; auto|done].
    unfold skeleton_contains, gets, mbind, M_bind; cbn [skeleton_tree].
    by rewrite (Hbot Updated_Leaf) by auto.
  - eexists. split; [done|]. split; [|intros; by rewrite lookup_insert_ne].
    apply Hself; [intros; by rewrite lookup_insert_ne|]. exists Updated_Binary.
    rewrite lookup_insert_eq. auto.
  - eexists. split; [done|]. split; [|intros; by rewrite lookup_insert_ne].
    apply Hself; [intros; by rewrite lookup_insert_ne|]. exists (Updated_Edge p).
    rewrite lookup_insert_eq. auto.
  - exists sk. split_and!; [done| |done]. apply Hself; [done|].
    exists (Updated_UnmodifiedSubTree hv). split; auto.
Qed.

Lemma edge_done h i p b sk :
  at_height h i → tree_ok h (TEdge p b) → sk_full sk (bottom i p) b →
  (∀ j, below i j → ¬ below (bottom i p) j → sk !! j = None) →
  sk_done sk i (Some (TEdge p b)).
Proof.
  intros Hi (Hp&H1&Hl&_&Hb) Hf Hn j n Hj. pose proof (at_height_pos _ _ Hi) as Hpos.
  pose proof (at_height_bottom h i p Hi Hp Hl) as Hbi.
  assert (Hbelow : ∀ n, in_skel (bottom i p) b j n → below (bottom i p) j)
    by (intros; by eapply in_skel_below).
  split.
  - intros Hs. assert (Hbj : below (bottom i p) j).
    { destruct (decide (below (bottom i p) j)); [done|]. by rewrite Hn in Hs. }
    eexists. split; [done|]. split; [right; by apply Hf|].
    intros ->. by apply bottom_strict in Hbj.
  - intros (t0&[= <-]&[[-> ->]|Hin]&Hroot); [by specialize (Hroot eq_refl)|].
    apply Hf; [by eapply Hbelow|done].
Qed.

Lemma edge_concat_done h i p q b sk :
  at_height h i → path_ok p → 1 ≤ path_length p → path_length p ≤ N.of_nat h →
  tree_ok (h - N.to_nat (path_length p)) (TEdge q b) →
  sk_done sk (bottom i p) (Some (TEdge q b)) →
  (∀ j, below i j → ¬ below (bottom i p) j → sk !! j = None) →
  sk_done sk i (Some (TEdge (path_concat p q) b)).
Proof.
  intros Hi Hp H1 Hl Ht Hd Hn j n Hj. pose proof (at_height_pos _ _ Hi) as Hpos.
  pose proof (at_height_bottom h i p Hi Hp Hl) as Hbi.
  pose proof Ht as (Hq&Hq1&Hql&_&Hb). pose proof (at_height_bottom _ _ q Hbi Hq Hql) as Hbq.
  assert (Hbelow : ∀ n, in_skel (bottom (bottom i p) q) b j n → below (bottom (bottom i p) q) j)
    by (intros; by eapply in_skel_below).
  assert (Hpq : below (bottom i p) (bottom (bottom i p) q)) by (apply below_bottom; [by apply bottom_pos|done]).
  split.
  - intros Hs. assert (Hbj : below (bottom i p) j).
    { destruct (decide (below (bottom i p) j)); [done|]. by rewrite Hn in Hs. }
    eexists. split; [done|]. cbn [in_skel]. rewrite bottom_concat.
    apply (Hd j n Hbj) in Hs as (t0&[= <-]&[[-> ->]|Hin]&Hroot); [by specialize (Hroot eq_refl)|].
    split; [by right|]. intros ->. by apply bottom_strict in Hbj.
  - cbn [in_skel]. intros (t0&[= <-]&Hin&Hroot). cbn [in_skel] in Hin. rewrite bottom_concat in Hin.
    destruct Hin as [[-> ->]|Hin]; [by specialize (Hroot eq_refl)|].
    pose proof (Hbelow n Hin) as Hbj. apply Hd; [by eapply below_trans|].
    eexists. split; [done|]. split; [by right|]. intros ->. apply bottom_strict in Hbj; [done| |done|done].
    by apply bottom_pos.
Qed.

Lemma binary_done h i l r sk :
  at_height (S h) i → tree_ok h l → tree_ok h r → has_mods Ls i = true →
  sk !! i = None → sk_full sk (2 * i) l → sk_full sk (2 * i + 1) r →
  sk_done sk i (Some (TBinary l r)).
Proof.
  intros Hi Hl Hr Hm Hsi Hfl Hfr j n Hj. pose proof (at_height_pos _ _ Hi) as Hpos.
  assert (Hli : at_height h (2 * i)) by (eapply at_height_child; eauto).
  assert (Hri : at_height h (2 * i + 1)) by (eapply at_height_child; eauto).
  split.
  - intros Hs. eexists. split; [done|]. cbn [in_skel]. rewrite Hm.
    apply below_children in Hj as [->|[Hj|Hj]]; [congruence|..|done].
    + split; [right; left; by apply Hfl|]. intros ->. exfalso. eapply (child_strict i (2 * i)); auto.
    + split; [right; right; by apply Hfr|]. intros ->. exfalso. eapply (child_strict i (2 * i + 1)); auto.
  - intros (t0&[= <-]&Hin&Hroot). cbn [in_skel] in Hin. rewrite Hm in Hin.
    destruct Hin as [[-> ->]|[Hin|Hin]]; [by specialize (Hroot eq_refl)|..].
    + apply Hfl; [by apply (in_skel_below h _ l _ n)|done].
    + apply Hfr; [by apply (in_skel_below h _ r _ n)|done].
Qed.

(** ** Building a node from its descendants *)

Lemma temp_of_None i (t : option (tree (L:=L))) : temp_is_empty (temp_of i t) = bool_decide (t = None).
Proof. destruct t as [[| |]|]; cbn [temp_of]; try destruct (has_mods Ls i); done. Qed.

Definition opt_ok h (t : option (tree (L:=L))) : Prop := ∀ t0, t = Some t0 → tree_ok h t0.

Lemma node_from_edge_data_ok h i p tb s :
  at_height h i → path_ok p → 1 ≤ path_length p → path_length p ≤ N.of_nat h →
  opt_ok (h - N.to_nat (path_length p)) tb →
  sk_done (skeleton_tree s) (bottom i p) tb →
  (∀ j, below i j → ¬ below (bottom i p) j → skeleton_tree s !! j = None) →
  ∃ sk', node_from_edge_data p (bottom i p) (temp_of (bottom i p) tb) s
         = (Ok (temp_of i (edge_to p tb)),
            {| skeleton_tree := sk'; original_skeleton := original_skeleton s |}) ∧
    sk_done sk' i (edge_to p tb) ∧ frame i (skeleton_tree s) sk'.
Proof.
  intros Hi Hp H1 Hl Hok Hd Hn. pose proof (at_height_pos _ _ Hi) as Hpos.
  pose proof (at_height_bottom h i p Hi Hp Hl) as Hbi. pose proof Hi as (_&_&Hlog).
  assert (Hsb : strictly_below i (bottom i p)).
  { split; [by apply below_bottom|]. intros Heq. apply (bottom_strict i p); [done..|].
    rewrite Heq. by apply below_refl. }
  (* a bottom that is not an edge is completed as a child of a binary node is *)
  assert (Hfin : ∀ b, tb = Some b → is_edge b = false →
    node_from_edge_data p (bottom i p) (temp_of (bottom i p) tb) s =
      (finalize_child (bottom i p, temp_of (bottom i p) tb);; mret (Temp_Original (Original_Edge p))) s).
  { intros b -> He. destruct b as [l|l r|]; [| |done]; cbn [temp_of]; destruct (has_mods Ls (bottom i p)); done. }
  destruct tb as [b|].
  - destruct (is_edge b) eqn:He.
    + destruct b as [| |q b]; [done..|]. cbn [temp_of edge_to node_from_edge_data].
      specialize (Hok _ eq_refl) as (Hq&?&?&?&?).
      rewrite concat_paths_ok by (done || lia). exists (skeleton_tree s).
      split; [by destruct s|]. split; [|done]. by eapply edge_concat_done; try apply Hok.
    + rewrite (Hfin b) by done. specialize (Hok b eq_refl).
      destruct (finalize_child_ok _ _ b s Hbi Hok Hd) as (sk'&Hrun&Hf&Hfr).
      rewrite (bind_run _ _ _ _ _ Hrun). exists sk'.
      assert (edge_to p (Some b) = Some (TEdge p b)) as -> by (by destruct b).
      split; [done|]. split.
      * apply (edge_done h); [done| |done|].
        { split_and!; auto. }
        intros j Hj Hnj. rewrite Hfr; [auto|]. intros ->. apply Hnj, below_refl. by apply bottom_pos.
      * intros j Hj. apply Hfr. intros ->. done.
  - exists (skeleton_tree s). cbn [temp_of edge_to node_from_edge_data]. split; [by destruct s|].
    split; [|done]. intros j n Hj. split; [|by intros (?&?&_)]. intros Hs. exfalso.
    destruct (decide (below (bottom i p) j)) as [Hb|Hb]; [|by rewrite Hn in Hs].
    apply (Hd j n Hb) in Hs as (?&?&_). done.
Qed.

Lemma sk_done_ext sk sk' i (t : option (tree (L:=L))) :
  (∀ j, below i j → sk' !! j = sk !! j) → sk_done sk i t → sk_done sk' i t.
Proof. intros Heq Hd j n Hj. rewrite Heq by done. by apply Hd. Qed.

Lemma sk_full_ext sk sk' i t :
  (∀ j, below i j → sk' !! j = sk !! j) → sk_full sk i t → sk_full sk' i t.
Proof. intros Heq Hd j n Hj. rewrite Heq by done. by apply Hd. Qed.

Lemma node_from_binary_data_ok h i l r s :
  at_height (S h) i → opt_ok h l → opt_ok h r → has_mods Ls i = true →
  skeleton_tree s !! i = None →
  sk_done (skeleton_tree s) (2 * i) l → sk_done (skeleton_tree s) (2 * i + 1) r →
  ∃ sk', node_from_binary_data i (temp_of (2 * i) l) (temp_of (2 * i + 1) r) s
         = (Ok (temp_of i (join l r)),
            {| skeleton_tree := sk'; original_skeleton := original_skeleton s |}) ∧
    sk_done sk' i (join l r) ∧ frame i (skeleton_tree s) sk'.
Proof.
  intros Hi Hlok Hrok Hm Hsi Hl Hr. pose proof Hi as (?&Hpos&Hlog).
  assert (Hli : at_height h (2 * i)) by (eapply at_height_child; eauto).
  assert (Hri : at_height h (2 * i + 1)) by (eapply at_height_child; eauto).
  assert (Hdisj : ∀ j, below (2 * i) j → below (2 * i + 1) j → False)
    by (intros j; by apply children_disjoint).
  assert (Hsub : ∀ j, below (2 * i) j ∨ below (2 * i + 1) j → strictly_below i j)
    by (intros j; by rewrite strictly_below_children).
  unfold node_from_binary_data. rewrite get_children_indices_ok by (done || lia). mstep.
  rewrite !temp_of_None.
  assert (Hedge : ∀ (left : bool) (t : option (tree (L:=L))), (if left then r else l) = None → (if left then l else r) = t →
    ∃ sk', node_from_edge_data (child_path left) (first_child i left) (temp_of (first_child i left) t) s
         = (Ok (temp_of i (join l r)),
            {| skeleton_tree := sk'; original_skeleton := original_skeleton s |}) ∧
    sk_done sk' i (join l r) ∧ frame i (skeleton_tree s) sk').
  { intros left t Hnone Ht. destruct (child_path_ok left) as [Hc Hc1].
    assert (join l r = edge_to (child_path left) t) as ->.
    { rewrite <-(join_child left t _ Hnone). by destruct left; subst. }
    rewrite <-bottom_child. apply (node_from_edge_data_ok (S h)); [done|done|lia|lia|..].
    - rewrite Hc1. replace (S h - N.to_nat 1)%nat with h by lia. by destruct left; subst.
    - rewrite bottom_child. by destruct left; subst.
    - rewrite bottom_child. intros j Hj Hnj. apply below_children in Hj as [->|Hj]; [done| |done].
      apply eq_None_not_Some. intros [n Hn]. destruct left; unfold first_child in Hnj;
        (destruct Hj as [Hj|Hj]; [try done|try done]); subst.
      + apply (Hr j n Hj) in Hn as (?&?&_). done.
      + apply (Hl j n Hj) in Hn as (?&?&_). done. }
  destruct l as [tl|], r as [tr|].
  - rewrite !bool_decide_false by done. cbn [negb andb mfor].
    destruct (finalize_child_ok h (2 * i) tl s) as (sk1&Hrun1&Hf1&Hfr1); [done|by apply Hlok|done|].
    set (s1 := {| skeleton_tree := sk1; original_skeleton := original_skeleton s |}) in *.
    destruct (finalize_child_ok h (2 * i + 1) tr s1) as (sk2&Hrun2&Hf2&Hfr2); [done|by apply Hrok| |].
    { eapply sk_done_ext; [|exact Hr]. intros j Hj. apply Hfr1. intros ->.
      eapply Hdisj; [by apply below_refl; lia|done]. }
    exists sk2. mstep. rewrite (bind_run _ _ _ _ _ Hrun1). mstep. rewrite (bind_run _ _ _ _ _ Hrun2).
    cbn [join temp_of]. rewrite Hm. split; [done|]. split.
    + apply (binary_done h); [done|by apply Hlok|by apply Hrok|done| | |done].
      * rewrite Hfr2, Hfr1 by lia. done.
      * eapply sk_full_ext; [|exact Hf1]. intros j Hj. apply Hfr2. intros ->.
        eapply Hdisj; [done|apply below_refl; lia].
    + intros j Hj. rewrite Hfr2, Hfr1; [done|..]; intros ->; apply Hj, Hsub;
        [left|right]; apply below_refl; lia.
  - rewrite bool_decide_false, bool_decide_true by done. cbn [negb andb]. by apply (Hedge true).
  - rewrite (bool_decide_true (None = None)), bool_decide_false by done. cbn [negb andb].
    by apply (Hedge false).
  - rewrite !bool_decide_true by done. cbn [negb andb]. by apply (Hedge true).
Qed.
End skeletons.

(** ** The lowest common ancestor of a slice *)

Lemma is_lca_height a b c :
  a ≤ NodeIndex_MAX → is_lca a b c → at_height (N.to_nat (251 - N.log2 c)) c.
Proof.
  intros Ha (Hca&_). destruct (below_pos _ _ Hca). pose proof (below_log2 _ _ Hca).
  apply log2_index in Ha; [|done]. split_and!; [lia|done|lia].
Qed.

(** A common ancestor of two leaves is one of the leaves between them. *)
Lemma below_between h c a b x :
  at_height h c → at_height 0 a → at_height 0 b → at_height 0 x →
  below c a → below c b → a ≤ x → x ≤ b → below c x.
Proof.
  intros Hc Ha Hb Hx. rewrite !(below_interval h) by done. lia.
Qed.

Lemma slice_bounds l f r x : StronglySorted N.lt l → l = f :: r → x ∈ l →
  ∃ y, last l = Some y ∧ f ≤ x ∧ x ≤ y.
Proof.
  intros Hs. revert f r x. induction Hs as [|z l Hs IH Hall]; intros f r x Heq Hx; [done|].
  injection Heq as -> ->. rewrite Forall_forall in Hall. destruct r as [|f' r].
  - exists f. apply list_elem_of_singleton in Hx as ->. split_and!; [done|lia..].
  - apply elem_of_cons in Hx as [->|Hx].
    + destruct (IH f' r f' eq_refl) as (y&Hy&_&?); [by left|]. exists y.
      specialize (Hall f' ltac:(by left)). rewrite last_cons, Hy. split_and!; [done|lia..].
    + destruct (IH f' r x eq_refl Hx) as (y&Hy&?&?). exists y.
      specialize (Hall f' ltac:(by left)). rewrite last_cons, Hy. split_and!; [done|lia..].
Qed.

Lemma get_path_to_lca_pair {E} h i a b :
  at_height h i → below i a → below i b → a ≤ NodeIndex_MAX → b ≤ NodeIndex_MAX →
  ∃ p, get_path_to_lca (E:=E) i [a; b] = Ok p ∧ path_ok p ∧ path_length p ≤ N.of_nat h ∧
    is_lca a b (bottom i p).
Proof.
  intros Hi Ha Hb Hma Hmb. destruct (below_pos _ _ Ha) as [Hpos Hpa], (below_pos _ _ Hb) as [_ Hpb].
  destruct (get_lca_ok (E:=E) a b) as (c&Hc&Hlca); [done..|].
  pose proof Hlca as (Hca&Hcb&Hlow). pose proof (Hlow i Ha Hb) as Hic.
  pose proof (below_log2 _ _ Hca). pose proof Hma as Hla. apply log2_index in Hla; [|done].
  destruct (get_path_to_descendant_ok (E:=E) i c Hic) as (p&Hp&Hpok&Hbot&Hlen).
  { apply log2_index; [by destruct (below_pos _ _ Hic)|lia]. }
  exists p. unfold get_path_to_lca. rewrite decide_False by done.
  cbn [last ok_or_panic]. unfold mbind; cbn [result_bind]. rewrite Hc. cbn [result_bind].
  rewrite Hbot. destruct Hi as (?&?&?). split_and!; [done|done|lia|done].
Qed.

Lemma get_path_to_lca_slice {E} h i l :
  at_height h i → leaf_slice l → l ≠ [] → (∀ x, x ∈ l → below i x) →
  ∃ p, get_path_to_lca (E:=E) i l = Ok p ∧ path_ok p ∧ path_length p ≤ N.of_nat h ∧
    (∀ x, x ∈ l → below (bottom i p) x) ∧ (∀ d, (∀ x, x ∈ l → below d x) → below d (bottom i p)).
Proof.
  intros Hi [Hs Hleaf] Hne Hb. destruct l as [|f r]; [done|].
  destruct (slice_bounds (f :: r) f r f Hs eq_refl) as (y&Hlast&_&Hfy); [by left|].
  assert (Hf : f ∈ f :: r) by left. assert (Hy : y ∈ f :: r) by (by apply last_Some_elem_of).
  pose proof (at_height_index _ _ (Hleaf f Hf)) as Hmf. pose proof (at_height_index _ _ (Hleaf y Hy)) as Hmy.
  destruct (get_path_to_lca_pair (E:=E) h i f y) as (p&Hp&Hpok&Hlen&Hlca); auto.
  exists p. split_and!; [|done|done| |].
  - rewrite <-Hp. unfold get_path_to_lca. rewrite (decide_False (P := List.length [f; y] = 1%nat)) by done.
    change (last [f; y]) with (Some y). case_decide as H1; [|by rewrite Hlast].
    destruct r; [|done]. simpl in Hlast. simplify_eq. cbn [ok_or_panic]. unfold mbind; cbn [result_bind].
    unfold get_lca. by rewrite decide_True.
  - intros x Hx. destruct (slice_bounds (f :: r) f r x Hs eq_refl Hx) as (y'&Hlast'&?&?).
    rewrite Hlast in Hlast'. simplify_eq. pose proof Hlca as (Hcf&Hcy&_).
    eapply (below_between _ _ f y'); [by apply (is_lca_height f y')|by auto..].
  - intros d Hd. apply Hlca; auto.
Qed.

(** ** Updating a subtree

    [m] and [m'] are the leaves before and after the update, [Ls] the indices of the
    modified leaves and [mods] their new emptiness. *)
Section update.
Context {L : Type} `{!TreeHashFunction L}.
Variables (m m' : gmap N L) (Ls : list N) (mods : gmap N SkeletonLeaf).
Hypothesis HLs : leaf_slice Ls.
Hypothesis Hsame : ∀ x, at_height 0 x → x ∉ Ls → m' !! x = m !! x.
Hypothesis Hmods : ∀ x, mods !! x = Some NonZero ↔ x ∈ Ls ∧ is_Some (m' !! x).
Implicit Types (sk : gmap N UpdatedSkeletonNode) (i j : N).

Lemma below_leaf_eq i x : at_height 0 i → at_height 0 x → below i x → x = i.
Proof.
  intros (_&Hi&?) (_&Hx&?) Hb. symmetry. eapply (below_same_depth _ _ x); [done|by apply below_refl|lia].
Qed.

Lemma filter_leaf i : at_height 0 i → filter (below i) Ls ≠ [] → filter (below i) Ls = [i].
Proof.
  intros Hi Hne. pose proof (leaf_slice_filter (below i) Ls HLs) as [Hs Hl].
  assert (Heq : ∀ x, x ∈ filter (below i) Ls → x = i).
  { intros x Hx. apply below_leaf_eq; [done|by apply Hl|]. by apply list_elem_of_filter in Hx as [? _]. }
  destruct (filter (below i) Ls) as [|x r]; [done|]. rewrite (Heq x) in * by left.
  destruct r as [|y r]; [done|]. apply StronglySorted_inv in Hs as [_ Hall].
  apply Forall_cons in Hall as [Hlt _]. rewrite (Heq y) in Hlt by (right; left). lia.
Qed.

Lemma has_leaves_on_both_sides_ok {E} h i :
  at_height (S h) i → filter (below i) Ls ≠ [] →
  has_leaves_on_both_sides (E:=E) i (filter (below i) Ls)
  = Ok (has_mods Ls (2 * i) && has_mods Ls (2 * i + 1)).
Proof.
  intros Hi Hne. unfold has_leaves_on_both_sides.
  destruct (slice_is_empty (filter (below i) Ls)) eqn:He; [by destruct (filter (below i) Ls)|].
  by rewrite (split_leaves_ok h).
Qed.

(** The modified leaves of a subtree, as the bottom layer holds them. *)
Definition leaves_only sk i : Prop :=
  ∀ j n, below i j → sk !! j = Some n ↔ n = Updated_Leaf ∧ mods !! j = Some NonZero.

Lemma leaf_case i s :
  at_height 0 i → has_mods Ls i = true → leaves_only (skeleton_tree s) i →
  (found ← skeleton_contains i; mret (if found : bool then Temp_Leaf else Temp_Empty)) s
    = (Ok (temp_of Ls i (canonical 0 i m')), s) ∧
  sk_done Ls (skeleton_tree s) i (canonical 0 i m').
Proof.
  intros Hi Hm Hs. pose proof (at_height_pos _ _ Hi) as Hpos.
  assert (HinLs : i ∈ Ls).
  { apply has_mods_true in Hm as (x&Hx&Hb). by rewrite <-(below_leaf_eq i x Hi (proj2 HLs x Hx) Hb). }
  rewrite canonical_0. split.
  - unfold skeleton_contains, gets, mbind, M_bind, mret, M_ret. do 2 f_equal.
    destruct (m' !! i) as [l|] eqn:Hl; cbn [fmap option_fmap option_map temp_of].
    + rewrite bool_decide_true, Hm; [done|]. exists Updated_Leaf. apply Hs; [by apply below_refl|].
      split; [done|]. apply Hmods. by rewrite Hl.
    + rewrite bool_decide_false; [done|]. intros [n [_ Hn]%Hs]; [|by apply below_refl].
      apply Hmods in Hn as [_ [? Hn]]. congruence.
  - intros j n Hj. rewrite (Hs j n Hj). split.
    + intros [-> Hn]. pose proof Hn as [Hin [l Hl]]%Hmods.
      assert (j = i) as -> by (apply below_leaf_eq; [done|by apply HLs|done]).
      rewrite Hl. cbn. eexists. split; [done|]. cbn [in_skel]. by rewrite Hm.
    + intros (t0&Ht&Hin&_). destruct (m' !! i) as [l|] eqn:Hl; [|done].
      cbn in Ht. simplify_eq. cbn [in_skel] in Hin. rewrite Hm in Hin. destruct Hin as [-> ->].
      split; [done|]. apply Hmods. by rewrite Hl.
Qed.

Lemma leaves_inner_None sk h i : at_height (S h) i → leaves_only sk i → sk !! i = None.
Proof.
  intros Hi Hs. apply eq_None_not_Some. intros [n [_ Hn]%Hs]; [|by eapply below_refl, at_height_pos].
  apply Hmods in Hn as [Hn _]. apply HLs in Hn. destruct Hi as (_&_&?), Hn as (_&_&?). lia.
Qed.

Lemma leaves_only_below sk i j : below i j → leaves_only sk i → leaves_only sk j.
Proof. intros Hij Hs k n Hk. apply Hs. by eapply below_trans. Qed.

Lemma leaves_only_ext sk sk' i :
  (∀ j, below i j → sk' !! j = sk !! j) → leaves_only sk i → leaves_only sk' i.
Proof. intros Heq Hs j n Hj. rewrite Heq by done. by apply Hs. Qed.

Lemma canonical_None_below (mm : gmap N L) h h' i j :
  at_height h i → at_height h' j → below i j → canonical h i mm = None → canonical h' j mm = None.
Proof.
  intros Hi Hj Hij. rewrite !canonical_None by done. intros Hn x Hx Hb.
  apply Hn; [done|]. by eapply below_trans.
Qed.

Lemma canonical_opt_ok (mm : gmap N L) h i : at_height h i → opt_ok h (canonical h i mm).
Proof. intros Hi t Ht. by eapply canonical_ok. Qed.

(** Frames of the two children compose. *)
Lemma frame_child {A} i c (sk sk' : gmap N A) :
  0 < i → c = 2 * i ∨ c = 2 * i + 1 → frame c sk sk' → frame i sk sk'.
Proof.
  intros Hi Hc Hf j Hj. apply Hf. intros [Hb Hne]. apply Hj. apply strictly_below_children; [done|].
  by destruct Hc as [->| ->]; [left|right].
Qed.

Lemma frame_bottom {A} i p (sk sk' : gmap N A) :
  0 < i → path_ok p → frame (bottom i p) sk sk' → frame i sk sk'.
Proof.
  intros Hi Hp Hf j Hj. apply Hf. intros [Hb Hne]. apply Hj. split.
  - eapply below_trans; [by apply below_bottom|done].
  - intros ->. apply Hne. apply below_antisym; [by apply below_bottom|done].
Qed.

Lemma frame_trans {A} i (sk1 sk2 sk3 : gmap N A) : frame i sk1 sk2 → frame i sk2 sk3 → frame i sk1 sk3.
Proof. intros H1 H2 j Hj. by rewrite H2, H1. Qed.

Lemma frame_other {A} c c' (sk sk' : gmap N A) j : frame c sk sk' → below c' j → (∀ k, below c k → below c' k → False) →
  sk' !! j = sk !! j.
Proof. intros Hf Hj Hd. apply Hf. intros [Hb _]. by eapply Hd. Qed.

Lemma has_mods_ne i : has_mods Ls i = true ↔ filter (below i) Ls ≠ [].
Proof. unfold has_mods. by destruct (filter (below i) Ls). Qed.

Lemma elem_filter_below i x : x ∈ filter (below i) Ls ↔ below i x ∧ x ∈ Ls.
Proof. apply list_elem_of_filter. Qed.

(** Modified leaves that are all below a descendant. *)
Lemma filter_below_eq i j :
  below i j → (∀ x, x ∈ filter (below i) Ls → below j x) → filter (below i) Ls = filter (below j) Ls.
Proof.
  intros Hij Hall. apply filter_ext_in. intros x Hx. split.
  - intros Hb. apply Hall. by apply elem_filter_below.
  - intros Hb. by eapply below_trans.
Qed.

Lemma one_side h i left :
  at_height (S h) i → has_mods Ls (first_child i (negb left)) = false →
  ∀ x, x ∈ filter (below i) Ls → below (first_child i left) x.
Proof.
  intros Hi Hn x [Hb Hx]%elem_filter_below.
  destruct (leaf_not_inner h i x Hi (proj2 HLs x Hx) Hb) as [left' Hb'].
  destruct (decide (left' = left)) as [->|Hne]; [done|].
  assert (left' = negb left) as -> by (by destruct left, left').
  apply not_true_iff_false in Hn. exfalso. apply Hn, has_mods_true. eauto.
Qed.

(** Leaves that all lie on the side of one child have a common ancestor below the root. *)
Lemma lca_below_child h i left p :
  at_height (S h) i → path_ok p → below (first_child i left) (bottom i p) → 1 ≤ path_length p.
Proof.
  intros Hi Hp Hb. pose proof (at_height_pos _ _ Hi) as Hpos. apply below_log2 in Hb.
  rewrite bottom_log2 in Hb by done. destruct (log2_child i Hpos).
  destruct left; unfold first_child in Hb; lia.
Qed.

Theorem update_empty_ok fuel h i s :
  at_height h i → (h < fuel)%nat → filter (below i) Ls ≠ [] → canonical h i m = None →
  leaves_only (skeleton_tree s) i →
  ∃ sk', update_node_in_empty_tree fuel i (filter (below i) Ls) s
         = (Ok (temp_of Ls i (canonical h i m')),
            {| skeleton_tree := sk'; original_skeleton := original_skeleton s |}) ∧
    sk_done Ls sk' i (canonical h i m') ∧ frame i (skeleton_tree s) sk'.
Proof.
  revert h i s. induction fuel as [|fuel IH]; intros h i s Hi Hfuel Hne Hempty Hs; [lia|].
  pose proof (at_height_pos _ _ Hi) as Hpos. cbn [update_node_in_empty_tree].
  pose proof Hne as Hm. rewrite <-has_mods_ne in Hm.
  rewrite (is_leaf_height h i Hi). destruct h as [|h].
  { rewrite bool_decide_true by done. rewrite (filter_leaf i Hi Hne), bool_decide_true by done. mstep.
    destruct (leaf_case i s Hi Hm Hs) as [Hrun Hd]. exists (skeleton_tree s).
    rewrite Hrun. split; [by destruct s|done]. }
  rewrite bool_decide_false by done. rewrite (has_leaves_on_both_sides_ok h) by done. mstep.
  destruct (has_mods Ls (2 * i) && has_mods Ls (2 * i + 1)) eqn:Hboth.
  - (* binary *)
    apply andb_true_iff in Hboth as [Hml Hmr].
    rewrite (split_leaves_ok h) by done. mstep.
    rewrite get_children_indices_ok by (destruct Hi as (?&?&?); lia). mstep. cbn [fst snd].
    pose proof (child_height h i true Hi) as Hli. pose proof (child_height h i false Hi) as Hri.
    cbn [first_child] in Hli, Hri.
    pose proof (below_first_child i true Hpos) as Hbl. pose proof (below_first_child i false Hpos) as Hbr.
    destruct (IH h (2 * i) s) as (sk1&Hrun1&Hd1&Hf1);
      [done|lia|by apply has_mods_ne|by apply (canonical_None_below m (S h) h i)|by eapply leaves_only_below|].
    rewrite (bind_run _ _ _ _ _ Hrun1). mstep.
    destruct (IH h (2 * i + 1) {| skeleton_tree := sk1; original_skeleton := original_skeleton s |})
      as (sk2&Hrun2&Hd2&Hf2);
      [done|lia|by apply has_mods_ne|by apply (canonical_None_below m (S h) h i)| |].
    { eapply leaves_only_ext; [|by eapply leaves_only_below]. intros j Hj.
      eapply frame_other; [done..|]. intros k. by apply children_disjoint. }
    rewrite (bind_run _ _ _ _ _ Hrun2). cbn [skeleton_tree original_skeleton] in *.
    assert (Hf : frame i (skeleton_tree s) sk2).
    { eapply frame_trans; (eapply frame_child; [| |done]; auto). }
    destruct (node_from_binary_data_ok Ls h i (canonical h (2 * i) m') (canonical h (2 * i + 1) m')
      {| skeleton_tree := sk2; original_skeleton := original_skeleton s |}) as (sk3&Hrun3&Hd3&Hf3);
      [done|by apply canonical_opt_ok|by apply canonical_opt_ok|done| | |done|].
    { cbn [skeleton_tree]. rewrite Hf by (intros [_ ?]; done). by eapply leaves_inner_None. }
    { eapply sk_done_ext; [|exact Hd1]. intros j Hj. eapply frame_other; [done..|].
      intros k ? ?. by eapply (children_disjoint i k). }
    exists sk3. rewrite canonical_S by done. split_and!; [done|done|by eapply frame_trans].
  - (* edge *)
    assert (∃ left, ∀ x, x ∈ filter (below i) Ls → below (first_child i left) x) as [left Hleft].
    { apply andb_false_iff in Hboth as [H0|H0];
        [exists false; by apply (one_side h i false)|exists true; by apply (one_side h i true)]. }
    destruct (get_path_to_lca_slice (E:=UpdatedSkeletonTreeError) (S h) i (filter (below i) Ls))
      as (p&Hp&Hpok&Hlen&Hall&Hlow); [done|by apply leaf_slice_filter|done| |].
    { intros x Hx. by apply elem_filter_below in Hx as [? _]. }
    rewrite Hp. mstep. pose proof Hi as (?&_&?).
    rewrite bottom_index_ok by (done || lia). mstep.
    pose proof (lca_below_child h i left p Hi Hpok (Hlow _ Hleft)) as H1.
    pose proof (at_height_bottom (S h) i p Hi Hpok Hlen) as Hbi.
    pose proof (below_bottom i p Hpos Hpok) as Hib.
    assert (Hfeq : filter (below i) Ls = filter (below (bottom i p)) Ls) by (by apply filter_below_eq).
    rewrite Hfeq in *.
    destruct (IH (S h - N.to_nat (path_length p))%nat (bottom i p) s) as (sk1&Hrun1&Hd1&Hf1);
      [done|lia|done|by apply (canonical_None_below m (S h) _ i)|by eapply leaves_only_below|].
    rewrite (bind_run _ _ _ _ _ Hrun1).
    destruct (node_from_edge_data_ok Ls (S h) i p
      (canonical (S h - N.to_nat (path_length p)) (bottom i p) m')
      {| skeleton_tree := sk1; original_skeleton := original_skeleton s |}) as (sk2&Hrun2&Hd2&Hf2);
      [done|done|done|done|by apply canonical_opt_ok|done| |].
    { intros j Hj Hnj. cbn [skeleton_tree]. rewrite Hf1 by (intros [? _]; done).
      apply eq_None_not_Some. intros [n [_ Hn]%Hs]; [|done]. apply Hnj, Hall.
      apply Hmods in Hn as [Hin _]. rewrite <-Hfeq. by apply elem_filter_below. }
    exists sk2. rewrite (canonical_jump (S h) i p m'); [|done|done|done|].
    { unfold lift_to. rewrite decide_False by lia. split_and!; [done|done|].
      eapply frame_trans; [by eapply frame_bottom|done]. }
    intros x Hx Hb [l Hl]. destruct (decide (x ∈ Ls)) as [Hin|Hnin].
    + apply Hall. rewrite <-Hfeq. by apply elem_filter_below.
    + rewrite Hsame in Hl by done. rewrite canonical_None in Hempty by done.
      by rewrite Hempty in Hl.
Qed.

(** *** Non-empty subtrees *)

(** The original skeleton holds the skeleton of the original subtree [t]. *)
Definition orig_at (orig : gmap N OriginalSkeletonNode) i (t : tree (L:=L)) : Prop :=
  ∀ j n, below i j → orig !! j = Some n ↔ in_skel Ls i t j (to_updated n).

(** The updated skeleton of a subtree holds its bottom layer. *)
Definition sk_bottom (s : UpdateState) i : Prop :=
  ∀ j n, below i j →
    skeleton_tree s !! j = Some n ↔
      (n = Updated_Leaf ∧ mods !! j = Some NonZero) ∨
      ∃ hv, n = Updated_UnmodifiedSubTree hv ∧
            original_skeleton s !! j = Some (Original_UnmodifiedSubTree hv).

Definition update_spec (update : N → list N → M UpdateState UpdatedSkeletonTreeError TempSkeletonNode)
    (h : nat) : Prop :=
  ∀ i t s, at_height h i → canonical h i m = Some t →
    orig_at (original_skeleton s) i t → sk_bottom s i →
    ∃ sk' orig', update i (filter (below i) Ls) s
      = (Ok (temp_of Ls i (canonical h i m')),
         {| skeleton_tree := sk'; original_skeleton := orig' |}) ∧
      sk_done Ls sk' i (canonical h i m') ∧
      frame i (skeleton_tree s) sk' ∧ frame i (original_skeleton s) orig'.

Lemma to_updated_inj n n' : to_updated n = to_updated n' → n = n'.
Proof. destruct n, n'; simpl; congruence. Qed.

Lemma orig_root h i t orig o :
  at_height h i → tree_ok h t → orig_at orig i t → temp_of Ls i (Some t) = Temp_Original o →
  orig !! i = Some o.
Proof.
  intros Hi Ht Ho Htemp. apply Ho; [by eapply below_refl, at_height_pos|].
  apply (in_skel_root Ls h); [done..|]. by rewrite Htemp.
Qed.

(** Without modified leaves the skeleton is one unmodified node, below its edge if any. *)
Lemma in_skel_unmod h i t j n :
  at_height h i → tree_ok h t → has_mods Ls i = false → in_skel Ls i t j n →
  (∃ hv, n = Updated_UnmodifiedSubTree hv) ∨ (j = i ∧ is_bottom n = false).
Proof.
  intros Hi Ht Hm. destruct t as [l|l r|p b]; cbn [in_skel].
  - rewrite Hm. intros [_ ->]. eauto.
  - rewrite Hm. intros [_ ->]. eauto.
  - intros [[-> ->]|Hin]; [by right|]. destruct Ht as (Hp&_&_&Hb&_).
    assert (Hmb : has_mods Ls (bottom i p) = false).
    { apply not_true_iff_false. intros Htrue. apply not_true_iff_false in Hm. apply Hm.
      eapply has_mods_below; [|done]. apply below_bottom; [by eapply at_height_pos|done]. }
    destruct b; [| |done]; cbn [in_skel] in Hin; rewrite Hmb in Hin; destruct Hin as [_ ->]; eauto.
Qed.

Lemma canonical_unmod h i : at_height h i → has_mods Ls i = false → canonical h i m' = canonical h i m.
Proof.
  intros Hi Hm. apply canonical_ext; [done|]. intros x Hx Hb. apply Hsame; [done|].
  intros Hin. apply not_true_iff_false in Hm. apply Hm, has_mods_true. eauto.
Qed.

Lemma unmod_done h i t s :
  at_height h i → tree_ok h t → has_mods Ls i = false →
  orig_at (original_skeleton s) i t → sk_bottom s i → sk_done Ls (skeleton_tree s) i (Some t).
Proof.
  intros Hi Ht Hm Ho Hs j n Hj. rewrite (Hs j n Hj). split.
  - intros [[_ Hn]|(hv&->&Hn)].
    + exfalso. apply Hmods in Hn as [Hin _]. apply not_true_iff_false in Hm.
      apply Hm, has_mods_true. eauto.
    + apply Ho in Hn; [|done]. eauto.
  - intros (t0&[= <-]&Hin&Hroot).
    destruct (in_skel_unmod h i t j n Hi Ht Hm Hin) as [[hv ->]|[-> Hb]].
    + right. exists hv. split; [done|]. by apply Ho.
    + rewrite Hroot in Hb; done.
Qed.

Lemma bottom_leaves_only i s :
  (∀ j hv, below i j → original_skeleton s !! j ≠ Some (Original_UnmodifiedSubTree hv)) →
  sk_bottom s i → leaves_only (skeleton_tree s) i.
Proof. intros Hno Hs j n Hj. rewrite (Hs j n Hj). naive_solver. Qed.

Lemma sk_bottom_below i j s : below i j → sk_bottom s i → sk_bottom s j.
Proof. intros Hij Hs k n Hk. apply Hs. by eapply below_trans. Qed.

Lemma sk_bottom_ext i s s' :
  (∀ j, below i j → skeleton_tree s' !! j = skeleton_tree s !! j) →
  (∀ j, below i j → original_skeleton s' !! j = original_skeleton s !! j) →
  sk_bottom s i → sk_bottom s' i.
Proof. intros H1 H2 Hs j n Hj. rewrite H1, H2 by done. by apply Hs. Qed.

Lemma orig_at_ext i t orig orig' :
  (∀ j, below i j → orig' !! j = orig !! j) → orig_at orig i t → orig_at orig' i t.
Proof. intros H1 Ho j n Hj. rewrite H1 by done. by apply Ho. Qed.

(** The children of a binary node. *)
Lemma orig_at_child h i l r orig (left : bool) :
  at_height (S h) i → tree_ok h l → tree_ok h r → has_mods Ls i = true →
  orig_at orig i (TBinary l r) → orig_at orig (first_child i left) (if left then l else r).
Proof.
  intros Hi Hl Hr Hm Ho j n Hj. pose proof (at_height_pos _ _ Hi) as Hpos.
  rewrite (Ho j n) by (eapply below_trans; [by apply (below_first_child i left)|done]).
  by apply (in_skel_child Ls h).
Qed.

Lemma sk_bottom_root_None h i t s o :
  at_height (S h) i → tree_ok (S h) t → orig_at (original_skeleton s) i t → sk_bottom s i →
  temp_of Ls i (Some t) = Temp_Original o → is_bottom (to_updated o) = false →
  skeleton_tree s !! i = None.
Proof.
  intros Hi Ht Ho Hs Htemp Hb. pose proof (orig_root _ _ _ _ _ Hi Ht Ho Htemp) as Hroot.
  apply eq_None_not_Some. intros [n [[_ Hn]|(hv&_&Hn)]%Hs]; [| |by eapply below_refl, at_height_pos].
  - apply Hmods in Hn as [Hn _]. apply HLs in Hn. destruct Hi as (_&_&?), Hn as (_&_&?). lia.
  - rewrite Hroot in Hn. by simplify_eq.
Qed.

(** An original binary node. *)
Lemma update_binary_ok update h i l r s :
  at_height (S h) i → canonical (S h) i m = Some (TBinary l r) → has_mods Ls i = true →
  orig_at (original_skeleton s) i (TBinary l r) → sk_bottom s i → update_spec update h →
  ∃ sk' orig',
    (left ← update (2 * i) (filter (below (2 * i)) Ls);
     right ← update (2 * i + 1) (filter (below (2 * i + 1)) Ls);
     node_from_binary_data i left right) s
      = (Ok (temp_of Ls i (canonical (S h) i m')),
         {| skeleton_tree := sk'; original_skeleton := orig' |}) ∧
    sk_done Ls sk' i (canonical (S h) i m') ∧
    frame i (skeleton_tree s) sk' ∧ frame i (original_skeleton s) orig'.
Proof.
  intros Hi Hc Hm Ho Hs Hupd. pose proof (at_height_pos _ _ Hi) as Hpos.
  pose proof (canonical_ok _ _ _ _ Hi Hc) as Htok. pose proof Htok as [Hlok Hrok].
  pose proof Hc as Hj. rewrite canonical_S in Hj by done. apply join_binary in Hj as [Hcl Hcr].
  pose proof (child_height h i true Hi) as Hli. pose proof (child_height h i false Hi) as Hri.
  pose proof (below_first_child i true Hpos) as Hbl. pose proof (below_first_child i false Hpos) as Hbr.
  pose proof (orig_at_child h i l r _ true Hi Hlok Hrok Hm Ho) as Hol.
  pose proof (orig_at_child h i l r _ false Hi Hlok Hrok Hm Ho) as Hor.
  cbn [first_child] in *.
  assert (Hother : ∀ A (a b : gmap N A) j, frame (2 * i) a b → below (2 * i + 1) j → b !! j = a !! j).
  { intros A a b j Hf Hj. eapply frame_other; [done..|]. intros k. by apply children_disjoint. }
  destruct (Hupd (2 * i) l s) as (sk1&orig1&Hrun1&Hd1&Hf1&Hg1); [done..|by eapply sk_bottom_below|].
  rewrite (bind_run _ _ _ _ _ Hrun1).
  destruct (Hupd (2 * i + 1) r {| skeleton_tree := sk1; original_skeleton := orig1 |})
    as (sk2&orig2&Hrun2&Hd2&Hf2&Hg2); [done|done| | |].
  { eapply orig_at_ext; [|exact Hor]. eauto. }
  { eapply sk_bottom_ext; [| |by eapply sk_bottom_below]; cbn; eauto. }
  rewrite (bind_run _ _ _ _ _ Hrun2). cbn [skeleton_tree original_skeleton] in *.
  assert (Hf : frame i (skeleton_tree s) sk2) by (eapply frame_trans; (eapply frame_child; [| |done]; auto)).
  assert (Hg : frame i (original_skeleton s) orig2) by (eapply frame_trans; (eapply frame_child; [| |done]; auto)).
  destruct (node_from_binary_data_ok Ls h i (canonical h (2 * i) m') (canonical h (2 * i + 1) m')
    {| skeleton_tree := sk2; original_skeleton := orig2 |}) as (sk3&Hrun3&Hd3&Hf3);
    [done|by apply canonical_opt_ok|by apply canonical_opt_ok|done| | |done|].
  { cbn [skeleton_tree]. rewrite Hf by (intros [_ ?]; done).
    eapply (sk_bottom_root_None h i _ s Original_Binary); try done. cbn [temp_of]. by rewrite Hm. }
  { eapply sk_done_ext; [|exact Hd1]. intros j Hj. eapply frame_other; [done..|].
    intros k ? ?. by eapply (children_disjoint i k). }
  exists sk3, orig2. rewrite canonical_S by done. split_and!; [done|done|by eapply frame_trans|done].
Qed.

(** *** Original edges

    [inject p2 c s] is the state with the part [p2] of an edge that is left below node [c]
    injected, unless [c] is the bottom of the edge. *)
Definition inject (p2 : PathToBottom) (c : N) (s : UpdateState) : UpdateState :=
  if decide (path_length p2 = 0) then s
  else {| skeleton_tree := skeleton_tree s;
          original_skeleton := <[c := Original_Edge p2]> (original_skeleton s) |}.

Lemma in_skel_edge_inner h i p1 p2 b j n :
  at_height h i → tree_ok h (TEdge (path_concat p1 p2) b) → path_ok p1 → path_ok p2 →
  1 ≤ path_length p1 → below (bottom i p1) j →
  in_skel Ls i (TEdge (path_concat p1 p2) b) j n ↔ in_skel Ls (bottom (bottom i p1) p2) b j n.
Proof.
  intros Hi Ht Hp1 Hp2 H1 Hj. pose proof (at_height_pos _ _ Hi) as Hpos.
  cbn [in_skel]. rewrite bottom_concat. split; [|auto]. intros [[-> _]|?]; [|done].
  exfalso. by eapply (bottom_strict i p1).
Qed.

Lemma lift_to_edge p (b : tree (L:=L)) : is_edge b = false →
  lift_to p (Some b) = Some (if decide (path_length p = 0) then b else TEdge p b).
Proof. intros Hb. unfold lift_to. case_decide; [done|]. by destruct b. Qed.

Lemma inject_ok h i p1 p2 b s :
  at_height h i → tree_ok h (TEdge (path_concat p1 p2) b) → path_ok p1 → path_ok p2 →
  1 ≤ path_length p1 →
  orig_at (original_skeleton s) i (TEdge (path_concat p1 p2) b) → sk_bottom s i →
  let c := bottom i p1 in
  orig_at (original_skeleton (inject p2 c s)) c (if decide (path_length p2 = 0) then b else TEdge p2 b) ∧
  sk_bottom (inject p2 c s) c ∧ frame i (original_skeleton s) (original_skeleton (inject p2 c s)) ∧
  skeleton_tree (inject p2 c s) = skeleton_tree s.
Proof.
  intros Hi Ht Hp1 Hp2 H1 Ho Hs c. pose proof (at_height_pos _ _ Hi) as Hpos.
  assert (Hic : below i c) by (by apply below_bottom).
  assert (Hcpos : 0 < c) by (by apply bottom_pos).
  assert (Hin : ∀ j n, below c j → original_skeleton s !! j = Some n ↔ in_skel Ls (bottom c p2) b j (to_updated n)).
  { intros j n Hj. rewrite (Ho j n) by (by eapply below_trans). by apply (in_skel_edge_inner h). }
  unfold inject. destruct (decide (path_length p2 = 0)) as [H0|H0].
  { split_and!; [|by eapply sk_bottom_below|done|done]. intros j n Hj. rewrite Hin by done.
    assert (bottom c p2 = c) as ->; [|done]. rewrite (path_nil p2 Hp2 H0). unfold bottom at 1; simpl. lia. }
  pose proof Ht as (_&_&Hlen&_&Hb). cbn [path_concat path_length] in Hlen, Hb.
  assert (Hstrict : ¬ below (bottom c p2) c) by (apply bottom_strict; [done|done|lia]).
  assert (Hbi : at_height (h - N.to_nat (path_length p1 + path_length p2)) (bottom c p2)).
  { unfold c. rewrite <-bottom_concat. apply (at_height_bottom h i (path_concat p1 p2)); [done|apply Ht|done]. }
  assert (Hnot : ∀ n, ¬ in_skel Ls (bottom c p2) b c n).
  { intros n Hn. apply Hstrict. by eapply in_skel_below. }
  split_and!; cbn [skeleton_tree original_skeleton].
  - intros j n Hj. cbn [in_skel]. destruct (decide (j = c)) as [->|Hne].
    + rewrite lookup_insert_eq. split; [intros [= <-]; by left|].
      intros [[_ Heq]|Hn]; [by apply (to_updated_inj n (Original_Edge p2)) in Heq as ->|by apply Hnot in Hn].
    + rewrite lookup_insert_ne by done. rewrite Hin by done. naive_solver.
  - intros j n Hj. cbn [skeleton_tree original_skeleton]. rewrite (Hs j n) by (by eapply below_trans).
    destruct (decide (j = c)) as [->|Hne]; [|by rewrite lookup_insert_ne].
    rewrite lookup_insert_eq. split; [|naive_solver]. intros [?|(hv&_&Hn)]; [by left|].
    apply Hin in Hn; [|done]. by apply Hnot in Hn.
  - intros j Hj. rewrite lookup_insert_ne; [done|]. intros <-. apply Hj. split; [done|].
    intros Heq. apply (bottom_strict i p1); [done..|]. fold c. rewrite Heq. by apply below_refl.
  - done.
Qed.

(** An original edge only has nodes on its root and below its bottom. *)
Lemma orig_edge_below h i p b orig j n :
  at_height h i → tree_ok h (TEdge p b) → orig_at orig i (TEdge p b) → below i j →
  orig !! j = Some n → j ≠ i → below (bottom i p) j.
Proof.
  intros Hi (Hp&H1&Hl&_&Hb) Ho Hj Hn Hne. apply Ho in Hn as [[-> _]|Hn]; [done| |done].
  eapply in_skel_below; [by apply at_height_bottom|done|done].
Qed.

Definition post i t (s : UpdateState) (run : result UpdatedSkeletonTreeError TempSkeletonNode * UpdateState) : Prop :=
  ∃ sk' orig', run = (Ok (temp_of Ls i t), {| skeleton_tree := sk'; original_skeleton := orig' |}) ∧
    sk_done Ls sk' i t ∧ frame i (skeleton_tree s) sk' ∧ frame i (original_skeleton s) orig'.

(** A new leaf on the empty side of an edge: the root becomes binary. *)
Lemma edge_split_ok update fuel h i left q b s :
  let p := path_concat (child_path left) q in
  let c := first_child i left in
  let c' := first_child i (negb left) in
  at_height (S h) i → (h < fuel)%nat → canonical (S h) i m = Some (TEdge p b) → path_ok q →
  has_mods Ls c' = true →
  orig_at (original_skeleton s) i (TEdge p b) → sk_bottom s i → update_spec update h →
  post i (canonical (S h) i m') s
    ((nonempty_child ← update c (filter (below c) Ls);
      empty_child ← update_node_in_empty_tree fuel c' (filter (below c') Ls);
      if left then node_from_binary_data i nonempty_child empty_child
      else node_from_binary_data i empty_child nonempty_child) (inject q c s)).
Proof.
  intros p c c' Hi Hfuel Hc Hq Hm' Ho Hs Hupd. pose proof (at_height_pos _ _ Hi) as Hpos.
  pose proof (canonical_ok _ _ _ _ Hi Hc) as Htok. destruct (child_path_ok left) as [Hcp Hcp1].
  pose proof (child_height h i left Hi) as Hch. pose proof (child_height h i (negb left) Hi) as Hch'.
  pose proof (below_first_child i left Hpos) as Hbc. pose proof (below_first_child i (negb left) Hpos) as Hbc'.
  fold c in Hch, Hbc. fold c' in Hch', Hbc'.
  assert (Hdisj : ∀ k, below c k → below c' k → False) by (intros k; by apply first_child_disjoint).
  assert (Hm : has_mods Ls i = true) by (by eapply has_mods_below).
  assert (Hbot : below c (bottom i p)).
  { unfold p. rewrite bottom_concat, bottom_child. apply below_bottom; [by eapply at_height_pos|done]. }
  (* the originally non-empty child *)
  assert (Hcc : canonical h c m = Some (if decide (path_length q = 0) then b else TEdge q b)).
  { pose proof Htok as (_&_&_&Hb&_). rewrite <-lift_to_edge by done. unfold c. rewrite <-bottom_child.
    rewrite <-(canonical_edge_down (S h) i (child_path left) q b m) by done.
    rewrite Hcp1. by replace (S h - N.to_nat 1)%nat with h by lia. }
  destruct (inject_ok (S h) i (child_path left) q b s) as (Ho1&Hs1&Hg1&Hsk1); [done..|lia|done|done|].
  rewrite bottom_child in Ho1, Hs1, Hg1, Hsk1. fold c in Ho1, Hs1, Hg1, Hsk1.
  destruct (Hupd c _ _ Hch Hcc Ho1 Hs1) as (sk2&orig2&Hrun2&Hd2&Hf2&Hg2). rewrite Hsk1 in Hf2.
  rewrite (bind_run _ _ _ _ _ Hrun2).
  (* the originally empty child *)
  destruct (update_empty_ok fuel h c' {| skeleton_tree := sk2; original_skeleton := orig2 |})
    as (sk3&Hrun3&Hd3&Hf3); [done|done|by apply has_mods_ne| | |].
  { apply canonical_None; [done|]. intros x Hx Hb. apply eq_None_not_Some. intros Hsome.
    apply (Hdisj x); [|done]. eapply below_trans; [exact Hbot|].
    eapply (edge_leaves (S h) i p b m); [done|done|done|by eapply below_trans|done]. }
  { cbn [skeleton_tree]. eapply leaves_only_ext.
    { intros j Hj. eapply (frame_other c c'); [exact Hf2|done|done]. }
    apply bottom_leaves_only; [|by eapply sk_bottom_below]. intros j hv Hj Hn.
    apply (Hdisj j); [|done]. eapply below_trans; [exact Hbot|].
    eapply (orig_edge_below (S h) i p b); [done..|by eapply below_trans|done|].
    intros ->. eapply (child_strict i c'); [done|apply first_child_spec|done]. }
  rewrite (bind_run _ _ _ _ _ Hrun3). cbn [skeleton_tree original_skeleton] in *.
  assert (Hf : frame i (skeleton_tree s) sk3).
  { eapply frame_trans; (eapply frame_child; [done|apply first_child_spec|done]). }
  assert (Hg : frame i (original_skeleton s) orig2).
  { eapply frame_trans; [exact Hg1|]. eapply frame_child; [done|apply first_child_spec|done]. }
  assert (Hd2' : sk_done Ls sk3 c (canonical h c m')).
  { eapply sk_done_ext; [|exact Hd2]. intros j Hj. eapply (frame_other c' c); [exact Hf3|done|]. eauto. }
  assert (Hnone : sk3 !! i = None).
  { rewrite Hf by (intros [_ ?]; done). by eapply (sk_bottom_root_None h i _ s (Original_Edge p)). }
  assert (Hnode : ∃ sk', (if left then node_from_binary_data i (temp_of Ls c (canonical h c m')) (temp_of Ls c' (canonical h c' m'))
      else node_from_binary_data i (temp_of Ls c' (canonical h c' m')) (temp_of Ls c (canonical h c m')))
        {| skeleton_tree := sk3; original_skeleton := orig2 |}
      = (Ok (temp_of Ls i (canonical (S h) i m')), {| skeleton_tree := sk'; original_skeleton := orig2 |}) ∧
      sk_done Ls sk' i (canonical (S h) i m') ∧ frame i sk3 sk').
  { rewrite canonical_S by done. unfold c, c' in *. destruct left; cbn [first_child negb] in *;
      apply (node_from_binary_data_ok Ls h i _ _ {| skeleton_tree := sk3; original_skeleton := orig2 |});
      auto using canonical_opt_ok. }
  destruct Hnode as (sk4&->&Hd4&Hf4). exists sk4, orig2. split_and!; [done|done|by eapply frame_trans|done].
Qed.

(** All new leaves on the side of the edge: the edge ends at its lowest common ancestor with them. *)
Lemma edge_down_ok update h i p1 p2 b s :
  let p := path_concat p1 p2 in
  let nb := bottom i p1 in
  at_height h i → canonical h i m = Some (TEdge p b) → path_ok p1 → path_ok p2 → 1 ≤ path_length p1 →
  (∀ x, x ∈ filter (below i) Ls → below nb x) →
  orig_at (original_skeleton s) i (TEdge p b) → sk_bottom s i →
  update_spec update (h - N.to_nat (path_length p1)) →
  post i (canonical h i m') s
    ((bottom ← update nb (filter (below i) Ls); node_from_edge_data p1 nb bottom) (inject p2 nb s)).
Proof.
  intros p nb Hi Hc Hp1 Hp2 H1 Hall Ho Hs Hupd. pose proof (at_height_pos _ _ Hi) as Hpos.
  pose proof (canonical_ok _ _ _ _ Hi Hc) as Htok. pose proof Htok as (Hp&Hp1'&Hlenp&Hb&Hbok).
  pose proof Hlenp as Hlen. unfold p in Hlen. cbn [path_concat path_length] in Hlen.
  assert (Hnb : at_height (h - N.to_nat (path_length p1)) nb) by (apply at_height_bottom; [done|done|lia]).
  assert (Hinb : below i nb) by (by apply below_bottom).
  assert (Hnbb : below nb (bottom i p)).
  { unfold p. rewrite bottom_concat. apply below_bottom; [by eapply at_height_pos|done]. }
  assert (Hcc : canonical (h - N.to_nat (path_length p1)) nb m
                = Some (if decide (path_length p2 = 0) then b else TEdge p2 b)).
  { rewrite <-lift_to_edge by done. by apply canonical_edge_down. }
  destruct (inject_ok h i p1 p2 b s) as (Ho1&Hs1&Hg1&Hsk1); [done..|].
  fold nb in Ho1, Hs1, Hg1, Hsk1.
  destruct (Hupd nb _ _ Hnb Hcc Ho1 Hs1) as (sk2&orig2&Hrun2&Hd2&Hf2&Hg2). rewrite Hsk1 in Hf2.
  rewrite (filter_below_eq i nb) by done. rewrite (bind_run _ _ _ _ _ Hrun2).
  destruct (node_from_edge_data_ok Ls h i p1 (canonical (h - N.to_nat (path_length p1)) nb m')
    {| skeleton_tree := sk2; original_skeleton := orig2 |}) as (sk3&Hrun3&Hd3&Hf3);
    [done|done|done|lia|by apply canonical_opt_ok|done| |].
  { intros j Hj Hnj. cbn [skeleton_tree]. fold nb in Hnj. rewrite Hf2 by (intros [? _]; done).
    apply eq_None_not_Some. intros [n [[_ Hn]|(hv&_&Hn)]%Hs]; [| |done]; apply Hnj.
    - apply Hmods in Hn as [Hin _]. apply Hall. by apply elem_filter_below.
    - eapply below_trans; [exact Hnbb|]. eapply (orig_edge_below h i p b); [done..|].
      intros ->. apply Ho in Hn as [[_ ?]|Hn]; [done| |done].
      eapply in_skel_below in Hn; [|exact (at_height_bottom h i p Hi Hp Hlenp)|done].
      by apply (bottom_strict i p). }
  exists sk3, orig2. rewrite (canonical_jump h i p1 m'); [|done|done|lia|].
  { unfold lift_to. rewrite decide_False by lia. split_and!; [exact Hrun3|exact Hd3|..].
    - eapply frame_trans; [apply (frame_bottom i p1); [done|done|exact Hf2]|exact Hf3].
    - eapply frame_trans; [exact Hg1|]. by apply (frame_bottom i p1). }
  intros x Hx Hbx [l Hl]. destruct (decide (x ∈ Ls)) as [Hin|Hnin].
  - apply Hall. by apply elem_filter_below.
  - rewrite Hsame in Hl by done. eapply below_trans; [exact Hnbb|]. eapply (edge_leaves h i p b m); eauto.
Qed.

Lemma get_path_to_lca_sorted {E} h i a b :
  at_height h i → below i a → below i b → a ≤ NodeIndex_MAX → b ≤ NodeIndex_MAX →
  ∃ p, get_path_to_lca (E:=E) i (SortedLeafIndices_new [a; b]) = Ok p ∧ path_ok p ∧
    path_length p ≤ N.of_nat h ∧ is_lca a b (bottom i p).
Proof.
  intros Hi Ha Hb Hma Hmb.
  assert (SortedLeafIndices_new [a; b] = [a; b] ∨ SortedLeafIndices_new [a; b] = [b; a]) as [-> | ->].
  { apply Permutation_length_2_inv. unfold SortedLeafIndices_new. symmetry. apply merge_sort_Permutation. }
  - by apply get_path_to_lca_pair.
  - destruct (get_path_to_lca_pair (E:=E) h i b a) as (p&?&?&?&(?&?&Hlow)); [done..|].
    exists p. split_and!; [done..|]. split_and!; [done..|]. auto.
Qed.

Lemma lift_unwrap {E E' S A} (r : result E A) a (f : A → M S E' unit) st :
  r = Ok a → (lift_result (unwrap_result r) ≫= f) st = f a st.
Proof. by intros ->. Qed.

(** What is left of an edge after its first step, or below its new bottom, is injected. *)
Lemma inject_first_step i left q p s :
  path_ok q → p = path_concat (child_path left) q → path_length p ≤ 251 →
  (if decide (1 < path_length p) then
     p' ← lift_result (unwrap_result (remove_first_edges p EdgePathLength_ONE));
     original_insert (first_child i left) (Original_Edge p')
   else mret tt) s = (Ok tt, inject q (first_child i left) s).
Proof.
  intros Hq Heq Hlen. destruct (child_path_ok left) as [Hcp Hcp1].
  pose proof (f_equal path_length Heq) as Hl. cbn [path_concat path_length] in Hl. rewrite Hcp1 in Hl.
  unfold inject. destruct (decide (1 < path_length p)) as [Hlt|Hlt].
  - rewrite (decide_False (P := path_length q = 0)) by lia.
    rewrite (lift_unwrap _ q); [done|]. rewrite Heq. unfold EdgePathLength_ONE. rewrite <-Hcp1.
    apply remove_first_edges_ok; [done|]. rewrite Hcp1. lia.
  - by rewrite decide_True by lia.
Qed.

Lemma inject_new_bottom i p1 p2 p s :
  0 < i → path_ok p1 → path_ok p2 → path_ok p → p = path_concat p1 p2 →
  (if decide (bottom i p1 = bottom i p) then assert_ (bool_decide (p1 = p))
   else p' ← lift_result (unwrap_result (remove_first_edges p (path_length p1)));
        original_insert (bottom i p1) (Original_Edge p')) s
  = (Ok tt, inject p2 (bottom i p1) s).
Proof.
  intros Hi Hp1 Hp2 Hp Hsplit. pose proof (f_equal path_length Hsplit) as Hl.
  cbn [path_concat path_length] in Hl. pose proof Hp as [_ Hlen].
  unfold inject. destruct (decide (bottom i p1 = bottom i p)) as [Hbe|Hbe].
  - apply bottom_inj in Hbe; [|done..]. rewrite decide_True by (subst p1; lia).
    by rewrite bool_decide_true.
  - rewrite decide_False.
    + rewrite (lift_unwrap _ p2); [done|]. rewrite Hsplit at 1. apply remove_first_edges_ok; [done|lia].
    + intros H0. apply Hbe. by rewrite Hsplit, path_concat_nil_r.
Qed.

(** The two branches of [update_edge_node] on a state where the edge is at the root. *)
Lemma update_edge_node_ok update fuel h i p b s :
  at_height h i → (h ≤ fuel)%nat → canonical h i m = Some (TEdge p b) → has_mods Ls i = true →
  orig_at (original_skeleton s) i (TEdge p b) → sk_bottom s i →
  (∀ h', (h' < h)%nat → update_spec update h') →
  post i (canonical h i m') s (update_edge_node update fuel i p (filter (below i) Ls) s).
Proof.
  intros Hi Hfuel Hc Hm Ho Hs Hupd. pose proof (at_height_pos _ _ Hi) as Hpos.
  pose proof (canonical_ok _ _ _ _ Hi Hc) as Htok. pose proof Htok as (Hp&H1&Hlen&_).
  pose proof Hi as (?&_&Hlog). destruct h as [|h]; [lia|]. unfold update_edge_node.
  assert (Hlen' : path_length p ≤ 251) by lia.
  rewrite get_children_indices_ok by lia. mstep. rewrite (split_leaves_ok h) by done. mstep.
  destruct (path_first_step i p) as (left&q&Heq&Hq&Hleft); [done..|lia|].
  assert (is_left_descendant (E:=UpdatedSkeletonTreeError) p = Ok left) as ->.
  { revert Hleft. unfold is_left_descendant, u8_sub. case_decide; [|done].
    unfold mbind, mret; cbn [result_bind]. unfold result_ret. by intros [= <-]. }
  mstep. cbn [fst snd].
  destruct (child_path_ok left) as [Hcp Hcp1].
  assert (Hcond : (negb (slice_is_empty (filter (below (2 * i + 1)) Ls)) && left)
     || (negb (slice_is_empty (filter (below (2 * i)) Ls)) && negb left)
     = has_mods Ls (first_child i (negb left))).
  { unfold has_mods, first_child. destruct left; cbn [negb];
      by rewrite ?andb_true_r, ?andb_false_r, ?orb_false_r. }
  rewrite Hcond. destruct (has_mods Ls (first_child i (negb left))) eqn:Hother.
  - (* a leaf on the empty side *)
    pose proof (edge_split_ok update fuel h i left q b s) as Hsplit. cbn zeta in Hsplit.
    rewrite <-Heq in Hsplit. specialize (Hsplit Hi ltac:(lia) Hc Hq Hother Ho Hs (Hupd h ltac:(lia))).
    destruct Hsplit as (sk'&orig'&Hrun&Hrest). exists sk', orig'. split; [|done]. rewrite <-Hrun.
    pose proof (inject_first_step i left q p s Hq Heq Hlen') as Hinj.
    destruct left; cbn [first_child negb] in *; by rewrite (bind_run _ _ _ _ _ Hinj).
  - (* all leaves on the side of the edge *)
    pose proof (one_side h i left Hi Hother) as Hside.
    destruct (get_path_to_lca_slice (E:=UpdatedSkeletonTreeError) (S h) i (filter (below i) Ls))
      as (pl&->&Hplok&Hpllen&Hall&Hlow); [done|by apply leaf_slice_filter|by apply has_mods_ne| |].
    { intros x Hx. by apply elem_filter_below in Hx as [? _]. }
    mstep. rewrite !bottom_index_ok by (done || lia). mstep.
    pose proof (at_height_index _ _ (at_height_bottom _ _ _ Hi Hplok Hpllen)) as Hml.
    pose proof (at_height_index _ _ (at_height_bottom _ _ _ Hi Hp Hlen)) as Hmb.
    destruct (get_path_to_lca_sorted (E:=UpdatedSkeletonTreeError) (S h) i (bottom i pl) (bottom i p))
      as (p1&->&Hp1ok&Hp1len&(Hnl&Hnb&Hlca)); [done|by apply below_bottom|by apply below_bottom|done|done|].
    mstep. rewrite bottom_index_ok by (done || lia). mstep.
    destruct (path_split i (bottom i p1) p) as (p1'&p2&Hsplit&Hp1'&Hp2&Hb1);
      [done|by apply below_bottom|done|lia|].
    apply bottom_inj in Hb1; [|done..]. subst p1'.
    assert (Hlen1 : 1 ≤ path_length p1).
    { eapply (lca_below_child h i left); [done|done|]. apply Hlca; [by apply Hlow|].
      rewrite Heq, bottom_concat, bottom_child. apply below_bottom; [|done].
      by eapply at_height_pos, child_height. }
    pose proof (edge_down_ok update (S h) i p1 p2 b s) as Hdown. cbn zeta in Hdown.
    rewrite <-Hsplit in Hdown.
    destruct Hdown as (sk'&orig'&Hrun&Hrest); [done|done|done|done|done| |done|done|apply Hupd; lia|].
    { intros x Hx. eapply below_trans; [exact Hnl|]. by apply Hall. }
    exists sk', orig'. split; [|done]. rewrite <-Hrun.
    pose proof (inject_new_bottom i p1 p2 p s Hpos Hp1ok Hp2 Hp Hsplit) as Hinj.
    by rewrite (bind_run _ _ _ _ _ Hinj).
Qed.

Theorem update_nonempty_ok fuel h : (h < fuel)%nat → update_spec (update_node_in_nonempty_tree fuel) h.
Proof.
  revert h. induction fuel as [|fuel IH]; intros h Hfuel i t s Hi Hc Ho Hs; [lia|].
  pose proof (at_height_pos _ _ Hi) as Hpos. pose proof (canonical_ok _ _ _ _ Hi Hc) as Htok.
  cbn [update_node_in_nonempty_tree].
  destruct (is_leaf i && bool_decide (i ∈ filter (below i) Ls)) eqn:Hleaf.
  { apply andb_true_iff in Hleaf as [Hleaf Hin%bool_decide_eq_true].
    rewrite (is_leaf_height h i Hi) in Hleaf. apply bool_decide_eq_true in Hleaf as ->.
    assert (Hm : has_mods Ls i = true) by (apply has_mods_ne; intros Hnil; rewrite Hnil in Hin; by apply not_elem_of_nil in Hin).
    destruct (leaf_case i s Hi Hm) as [Hrun Hd].
    - apply bottom_leaves_only; [|done]. intros j hv Hj Hn. apply Ho in Hn; [|done].
      destruct t; [|done|by destruct Htok as (?&?&?&_); lia]. cbn [in_skel] in Hn. rewrite Hm in Hn. by destruct Hn.
    - exists (skeleton_tree s), (original_skeleton s). rewrite Hrun. split_and!; [by destruct s|done..]. }
  assert (Htemp : ∃ o, temp_of Ls i (Some t) = Temp_Original o ∧ original_skeleton s !! i = Some o).
  { destruct (temp_of Ls i (Some t)) as [| |o] eqn:Htemp.
    - destruct t; cbn [temp_of] in Htemp; by destruct (has_mods Ls i).
    - exfalso. destruct t as [l| |]; cbn [temp_of] in Htemp; try done.
      destruct (has_mods Ls i) eqn:Hm; [|done]. cbn [tree_ok] in Htok. subst h.
      rewrite (is_leaf_height 0 i Hi) in Hleaf. rewrite bool_decide_true in Hleaf by done. simpl in Hleaf.
      apply bool_decide_eq_false in Hleaf. apply Hleaf. rewrite filter_leaf by (done || by apply has_mods_ne). by left.
    - exists o. split; [done|]. by eapply orig_root. }
  destruct Htemp as (o&Htemp&Hroot). mstep. rewrite Hroot. mstep.
  destruct (slice_is_empty (filter (below i) Ls)) eqn:Hem.
  - assert (Hm : has_mods Ls i = false) by (unfold has_mods; by rewrite Hem).
    rewrite (canonical_unmod h i Hi Hm), Hc, Htemp.
    exists (skeleton_tree s), (original_skeleton s). split_and!; [|by eapply unmod_done|done|done].
    destruct o; [|by destruct s..]. exfalso. destruct t; cbn [temp_of] in Htemp; by rewrite ?Hm in Htemp.
  - assert (Hm : has_mods Ls i = true) by (unfold has_mods; by rewrite Hem).
    destruct t as [l|l r|p b]; cbn [temp_of] in Htemp; rewrite ?Hm in Htemp; [done|..]; injection Htemp as <-.
    + destruct h as [|h]; [done|]. rewrite (split_leaves_ok h) by done. mstep.
      rewrite get_children_indices_ok by (destruct Hi as (?&?&?); lia). mstep. cbn [fst snd].
      eapply update_binary_ok; [done|exact Hc|done|done|done|]. apply IH. lia.
    + eapply update_edge_node_ok; [done|lia|exact Hc|done|done|done|]. intros h' Hh'. apply IH. lia.
Qed.

(** ** The whole tree *)

(** The node map of the original skeleton of the tree with leaves [m]. *)
Definition is_original_skeleton (orig : gmap N OriginalSkeletonNode) : Prop :=
  ∀ j n, orig !! j = Some n ↔ ∃ t, canonical 251 ROOT m = Some t ∧ in_skel Ls ROOT t j (to_updated n).

(** The node map of the updated skeleton of the tree with leaves [m']. *)
Definition is_updated_skeleton (sk : gmap N UpdatedSkeletonNode) : Prop :=
  ∀ j n, sk !! j = Some n ↔ ∃ t, canonical 251 ROOT m' = Some t ∧ in_skel Ls ROOT t j n.

Lemma below_root j : 0 < j → below ROOT j.
Proof.
  intros Hj. split; [done|]. exists (N.log2 j). rewrite N.shiftr_div_pow2.
  destruct (N.log2_spec j Hj) as [H1 H2]. symmetry.
  apply (N.div_unique _ _ _ (j - 2 ^ N.log2 j)); rewrite N.pow_succ_r in H2; unfold ROOT; lia.
Qed.

Lemma in_skel_unmodified i (t : tree (L:=L)) j hv :
  in_skel Ls i t j (Updated_UnmodifiedSubTree hv) → has_mods Ls j = false.
Proof.
  revert i. induction t as [l|l IHl r IHr|p b IH]; intros i; cbn [in_skel].
  - destruct (has_mods Ls i) eqn:Hm; intros [-> ?]; done.
  - destruct (has_mods Ls i) eqn:Hm; [|by intros [-> ?]]. intros [[_ ?]|[?|?]]; eauto. done.
  - intros [[_ ?]|?]; eauto. done.
Qed.

Lemma bottom_layer_ok original leaf_modifications :
  is_original_skeleton (nodes original) → leaf_modifications = mods →
  ∀ j n, finalize_bottom_layer original leaf_modifications !! j = Some n ↔
    (n = Updated_Leaf ∧ mods !! j = Some NonZero) ∨
    ∃ hv, n = Updated_UnmodifiedSubTree hv ∧ nodes original !! j = Some (Original_UnmodifiedSubTree hv).
Proof.
  intros Ho -> j n. unfold finalize_bottom_layer.
  assert (Hno : ∀ hv, nodes original !! j = Some (Original_UnmodifiedSubTree hv) → mods !! j ≠ Some NonZero).
  { intros hv (t&_&Hin)%Ho Hn. apply in_skel_unmodified in Hin. apply Hmods in Hn as [Hj _].
    apply not_true_iff_false in Hin. apply Hin, has_mods_true. exists j. split; [done|].
    apply HLs in Hj. by eapply below_refl, at_height_pos. }
  rewrite lookup_union_Some_raw, !lookup_omap.
  destruct (nodes original !! j) as [[|p|hv]|] eqn:Hj; cbn;
    (destruct (mods !! j) as [[|]|] eqn:Hm; cbn); try naive_solver.
Qed.

Lemma filter_root : filter (below ROOT) Ls = Ls.
Proof. apply filter_all. intros x Hx%HLs. by eapply below_root, at_height_pos. Qed.

Lemma original_skeleton_root original t :
  Ls ≠ [] → is_original_skeleton (nodes original) → canonical 251 ROOT m = Some t → nodes original ≠ ∅.
Proof.
  intros Hne Ho Hc Hemp. pose proof at_height_root as Hroot.
  pose proof (canonical_ok _ _ _ _ Hroot Hc) as Htok.
  assert (Hm : has_mods Ls ROOT = true) by (apply has_mods_ne; by rewrite filter_root).
  destruct (temp_of Ls ROOT (Some t)) as [| |o] eqn:Htemp.
  - destruct t; cbn [temp_of] in Htemp; by rewrite ?Hm in Htemp.
  - by destruct t.
  - assert (nodes original !! ROOT = Some o) as Hl; [|by rewrite Hemp in Hl].
    apply Ho. exists t. split; [done|]. apply (in_skel_root Ls 251); [done..|]. by rewrite Htemp.
Qed.

Lemma middle_layers_ok original :
  let s0 := {| skeleton_tree := finalize_bottom_layer original mods; original_skeleton := nodes original |} in
  Ls ≠ [] → is_original_skeleton (nodes original) →
  ∃ sk' orig', finalize_middle_layers Ls s0
    = (Ok (temp_of Ls ROOT (canonical 251 ROOT m')),
       {| skeleton_tree := sk'; original_skeleton := orig' |}) ∧
    sk_done Ls sk' ROOT (canonical 251 ROOT m') ∧ frame ROOT (skeleton_tree s0) sk'.
Proof.
  intros s0 Hne Ho. pose proof (bottom_layer_ok original mods Ho eq_refl) as Hbot.
  pose proof at_height_root as Hroot. unfold finalize_middle_layers. mstep.
  destruct (canonical 251 ROOT m) as [t|] eqn:Hc.
  - rewrite decide_False by (by apply (original_skeleton_root original t)).
    destruct (update_nonempty_ok tree_fuel 251 ltac:(unfold tree_fuel; lia) ROOT t s0)
      as (sk'&orig'&Hrun&Hd&Hf&_); [done|done| | |].
    + intros j n _. change (original_skeleton s0) with (nodes original). rewrite (Ho j n), Hc. split; [by intros (?&[= <-]&?)|by eauto].
    + intros j n _. apply Hbot.
    + rewrite filter_root in Hrun. by eauto.
  - assert (Hnil : nodes original = ∅).
    { apply map_empty. intros j. apply eq_None_not_Some. intros [n (t&?&_)%Ho]. congruence. }
    rewrite decide_True by done.
    destruct (update_empty_ok tree_fuel 251 ROOT s0) as (sk'&Hrun&Hd&Hf);
      [done|unfold tree_fuel; lia|by rewrite filter_root|done| |].
    + intros j n _. change (skeleton_tree s0) with (finalize_bottom_layer original mods).
      rewrite (Hbot j n), Hnil. split; [|by left].
      intros [?|(?&_&Hl)]; [done|]. by rewrite lookup_empty in Hl.
    + rewrite filter_root in Hrun. by eauto.
Qed.

Lemma bottom_layer_0 original :
  is_original_skeleton (nodes original) → finalize_bottom_layer original mods !! 0 = None.
Proof.
  intros Ho. apply eq_None_not_Some.
  intros [n [[_ Hn]|(hv&_&(t&Ht&Hn)%Ho)]%(bottom_layer_ok original mods Ho eq_refl)].
  - apply Hmods in Hn as [Hn%HLs _]. by apply at_height_pos in Hn.
  - apply (in_skel_below Ls 251) in Hn; [|apply at_height_root|by eapply canonical_ok, Ht; apply at_height_root].
    by apply below_pos in Hn as [_ ?].
Qed.

(** The updated skeleton is the skeleton of the reference tree of the updated leaves. *)
Lemma skeleton_create_ok original :
  sorted_leaf_indices original = Ls → Ls ≠ [] → mods ≠ ∅ →
  is_original_skeleton (nodes original) →
  ∃ sk, UpdatedSkeleton_create original mods = Ok sk ∧ is_updated_skeleton sk.
Proof.
  intros Hsort Hne Hmne Ho. unfold UpdatedSkeleton_create. rewrite decide_False by done.
  destruct (middle_layers_ok original Hne Ho) as (sk'&orig'&Hrun&Hd&Hf).
  rewrite Hsort, Hrun. cbn [skeleton_tree]. pose proof at_height_root as Hroot.
  assert (H0 : sk' !! 0 = None).
  { rewrite Hf; [by apply bottom_layer_0|]. intros [Hb _]. by apply below_pos in Hb as [_ ?]. }
  assert (Hm : has_mods Ls ROOT = true) by (apply has_mods_ne; by rewrite filter_root).
  unfold is_updated_skeleton. destruct (canonical 251 ROOT m') as [t|] eqn:Hc.
  - pose proof (canonical_ok _ _ _ _ Hroot Hc) as Htok.
    assert (∃ o, temp_of Ls ROOT (Some t) = Temp_Original o ∧ is_bottom (to_updated o) = false) as (o&Htemp&Hb).
    { destruct t; cbn [temp_of]; [done|rewrite Hm|]; by eauto. }
    assert (Hr : ∀ n, in_skel Ls ROOT t ROOT n ↔ n = to_updated o).
    { intros n. rewrite (in_skel_root Ls 251) by done. by rewrite Htemp. }
    assert (HrN : sk' !! ROOT = None).
    { apply eq_None_not_Some. intros [n (t0&[= <-]&Hin&Hbot)%Hd]; [|by apply below_refl].
      apply Hr in Hin as ->. by rewrite Hbot in Hb. }
    exists (<[ROOT := to_updated o]> sk'). rewrite Htemp. split.
    { unfold mbind; cbn [result_bind]. destruct o; [..|done]; cbn [result_bind to_updated]; by rewrite HrN. }
    intros j n. destruct (decide (j = ROOT)) as [->|Hj].
    + rewrite lookup_insert_eq. split.
      * intros [= <-]. exists t. split; [done|]. by apply Hr.
      * intros (t0&[= <-]&->%Hr). done.
    + rewrite lookup_insert_ne by done. destruct (N.eq_0_gt_0_cases j) as [->|Hpos].
      * rewrite H0. split; [done|]. intros (t0&[= <-]&Hin).
        apply (in_skel_below Ls 251) in Hin; [|done..]. by apply below_pos in Hin as [_ ?].
      * rewrite (Hd j n) by (by apply below_root). split.
        -- intros (t0&Ht0&Hin&_). eauto.
        -- intros (t0&Ht0&Hin). eexists. split_and!; [done|done|by intros ->].
  - exists ∅. assert (Hnil : sk' = ∅).
    { apply map_empty. intros j. destruct (N.eq_0_gt_0_cases j) as [->|Hpos]; [done|].
      apply eq_None_not_Some. intros [n (?&?&_)%Hd]; [done|by apply below_root]. }
    rewrite Hnil. cbn [temp_of]. unfold mbind; cbn [result_bind]. rewrite decide_True by done.
    split; [done|]. intros j n. rewrite lookup_empty. split; [done|]. by intros (?&?&_).
Qed.
End update.
