(* ===== verification/PatriciaFilled.v ===== *)
(** The filled tree (crates/starknet_patricia/src/patricia_merkle_tree/filled_tree/tree.rs):
    from an updated skeleton and the new leaves, the hash and the data of every modified
    node.

    The code computes the two subtrees of a binary node in two tasks and awaits the left one
    first; the tasks write to separate slots of the output map, so that they are modelled one
    after the other. A panic in a task is returned by the join as an error. *)
From S2P Require Import Prelude.
From S2P Require Import PatriciaTypes.
From S2P Require Import PatriciaTree.
From S2P Require Import PatriciaNode.
From S2P Require Import PatriciaSkeleton.
From S2P Require Import PatriciaUpdate.

Inductive FilledTreeError :=
| DeletedLeafInSkeleton (index : N)
| DoubleUpdate (index : N)
| FilledTree_Leaf (leaf_error : LeafError) (leaf_index : N)
| MissingNodePlaceholder (index : N)
| MissingLeafInput (index : N)
| MissingRoot
| UpdatedSkeletonError (e : UpdatedSkeletonTreeError)
| JoinError.

Record FilledTreeImpl (L : Type) := { tree_map : gmap N (FilledNode L); root_hash : N }.
Arguments Build_FilledTreeImpl {L} tree_map root_hash.
Arguments tree_map {L} _.
Arguments root_hash {L} _.

Section filled_tree.
Context {L : Type} `{!Leaf L} `{!TreeHashFunction L}.

(** The maps shared by the tasks: [HashMap<NodeIndex, Mutex<Option<_>>>]. *)
Record FillState := {
  filled_tree_output_map : gmap N (option (FilledNode L));
  leaf_index_to_leaf_input : gmap N (option LeafInput);
  leaf_index_to_leaf_output : gmap N (option LeafOutput);
}.

Abbreviation MF A := (M FillState FilledTreeError A) (only parsing).

Definition initialize_filled_tree_output_map_with_placeholders (updated_skeleton : gmap N UpdatedSkeletonNode)
    : gmap N (option (FilledNode L)) :=
  omap (λ node, match node with Updated_UnmodifiedSubTree _ => None | _ => Some None end) updated_skeleton.

Definition initialize_leaf_output_map_with_placeholders (inputs : gmap N LeafInput)
    : gmap N (option LeafOutput) := (λ _, None) <$> inputs.

Definition wrap_leaf_inputs_for_interior_mutability (inputs : gmap N LeafInput)
    : gmap N (option LeafInput) := Some <$> inputs.

(** A slot that was already written is emptied ([take]) and an error returned. *)
Definition write_to_output_map {T} (index : N) (output : T) : M (gmap N (option T)) FilledTreeError unit :=
  output_map ← get_st;
  match output_map !! index with
  | Some (Some _) => modify (insert index None);; throw (DoubleUpdate index)
  | Some None => modify (insert index (Some output))
  | None => throw (MissingNodePlaceholder index)
  end.

Definition write_node (index : N) (node : FilledNode L) : MF unit :=
  zoom filled_tree_output_map
    (λ out s, {| filled_tree_output_map := out;
                 leaf_index_to_leaf_input := leaf_index_to_leaf_input s;
                 leaf_index_to_leaf_output := leaf_index_to_leaf_output s |})
    (write_to_output_map index node).

Definition write_leaf_output (index : N) (output : LeafOutput) : MF unit :=
  zoom leaf_index_to_leaf_output
    (λ out s, {| filled_tree_output_map := filled_tree_output_map s;
                 leaf_index_to_leaf_input := leaf_index_to_leaf_input s;
                 leaf_index_to_leaf_output := out |})
    (write_to_output_map index output).

Definition remove_arc_mutex_and_option_from_output_map {V E} (output_map : gmap N (option V))
    (panic_if_empty_placeholder : bool) : result E (gmap N V) :=
  if panic_if_empty_placeholder && negb (bool_decide (map_Forall (λ _ v, is_Some v) output_map)) then Panic
  else Ok (omap id output_map).

Definition get_or_compute_leaf (leaf_modifications : option (gmap N L)) (index : N)
    : MF (L * option LeafOutput) :=
  match leaf_modifications with
  | Some leaf_modifications =>
      leaf_data ← lift_result (map_err (λ e, FilledTree_Leaf e index) (from_modifications index leaf_modifications));
      mret (leaf_data, None)
  | None =>
      s ← get_st;
      match leaf_index_to_leaf_input s !! index with
      | None => throw (MissingLeafInput index)
      | Some None => panic
      | Some (Some leaf_input) =>
          modify (λ s, {| filled_tree_output_map := filled_tree_output_map s;
                          leaf_index_to_leaf_input := <[index := None]> (leaf_index_to_leaf_input s);
                          leaf_index_to_leaf_output := leaf_index_to_leaf_output s |});;
          created ← lift_result (map_err (λ e, FilledTree_Leaf e index) (leaf_create leaf_input));
          mret (created.1, Some created.2)
      end
  end.

(** [tokio::spawn(m).await?]. *)
Definition join_task {A} (m : MF A) : MF A := λ s,
  match m s with (Panic, s') => (Err JoinError, s') | r => r end.

Fixpoint compute_filled_tree_rec (fuel : nat) (updated_skeleton : gmap N UpdatedSkeletonNode) (index : N)
    (leaf_modifications : option (gmap N L)) : MF N :=
  match fuel with
  | O => panic
  | S fuel =>
      node ← lift_result (map_err UpdatedSkeletonError (get_node updated_skeleton index));
      match node with
      | Updated_Binary =>
          left_index ← lift_result (NodeIndex_mul index 2);
          right_index ← lift_result (NodeIndex_add left_index ROOT);
          lh ← join_task (compute_filled_tree_rec fuel updated_skeleton left_index leaf_modifications);
          rh ← join_task (compute_filled_tree_rec fuel updated_skeleton right_index leaf_modifications);
          let data := Data_Binary {| left_hash := lh; right_hash := rh |} in
          let hash := compute_node_hash data in
          write_node index {| hash := hash; data := data |};;
          mret hash
      | Updated_Edge path_to_bottom =>
          bottom_node_index ← lift_result (compute_bottom_index index path_to_bottom);
          bh ← compute_filled_tree_rec fuel updated_skeleton bottom_node_index leaf_modifications;
          let data := Data_Edge {| bottom_hash := bh; path_to_bottom := path_to_bottom |} in
          let hash := compute_node_hash data in
          write_node index {| hash := hash; data := data |};;
          mret hash
      | Updated_UnmodifiedSubTree hash_result => mret hash_result
      | Updated_Leaf =>
          leaf ← get_or_compute_leaf leaf_modifications index;
          if is_empty leaf.1 then throw (DeletedLeafInSkeleton index)
          else
            let data := Data_Leaf leaf.1 in
            let hash := compute_node_hash data in
            write_node index {| hash := hash; data := data |};;
            match leaf.2 with
            | Some output => write_leaf_output index output;; mret hash
            | None => mret hash
            end
      end
  end.

Definition FilledTree_create_unmodified (updated_skeleton : gmap N UpdatedSkeletonNode)
    : result FilledTreeError (FilledTreeImpl L) :=
  root_node ← map_err UpdatedSkeletonError (get_node updated_skeleton ROOT);
  match root_node with
  | Updated_UnmodifiedSubTree root_hash => Ok {| tree_map := ∅; root_hash := root_hash |}
  | _ => Panic
  end.

Definition FilledTree_create_empty : FilledTreeImpl L :=
  {| tree_map := ∅; root_hash := ROOT_OF_EMPTY_TREE |}.

(** [FilledTree::create]. *)
Definition FilledTree_create (updated_skeleton : gmap N UpdatedSkeletonNode) (inputs : gmap N LeafInput)
    : result FilledTreeError (FilledTreeImpl L * gmap N LeafOutput) :=
  if decide (inputs = ∅) then
    unmodified ← FilledTree_create_unmodified updated_skeleton;
    mret (unmodified, ∅)
  else
    empty ← UpdatedSkeleton_is_empty updated_skeleton;
    if empty : bool then mret (FilledTree_create_empty, ∅)
    else
      let s0 := {| filled_tree_output_map := initialize_filled_tree_output_map_with_placeholders updated_skeleton;
                   leaf_index_to_leaf_input := wrap_leaf_inputs_for_interior_mutability inputs;
                   leaf_index_to_leaf_output := initialize_leaf_output_map_with_placeholders inputs |} in
      let '(r, s) := compute_filled_tree_rec tree_fuel updated_skeleton ROOT None s0 in
      root_hash ← r;
      tree_map ← remove_arc_mutex_and_option_from_output_map (filled_tree_output_map s) true;
      outputs ← remove_arc_mutex_and_option_from_output_map (leaf_index_to_leaf_output s) false;
      mret ({| tree_map := tree_map; root_hash := root_hash |}, outputs).

(** [FilledTree::create_with_existing_leaves]. *)
Definition create_with_existing_leaves (updated_skeleton : gmap N UpdatedSkeletonNode)
    (leaf_modifications : gmap N L) : result FilledTreeError (FilledTreeImpl L) :=
  if decide (leaf_modifications = ∅) then FilledTree_create_unmodified updated_skeleton
  else
    empty ← UpdatedSkeleton_is_empty updated_skeleton;
    if empty : bool then mret FilledTree_create_empty
    else
      let s0 := {| filled_tree_output_map := initialize_filled_tree_output_map_with_placeholders updated_skeleton;
                   leaf_index_to_leaf_input := ∅; leaf_index_to_leaf_output := ∅ |} in
      let '(r, s) := compute_filled_tree_rec tree_fuel updated_skeleton ROOT (Some leaf_modifications) s0 in
      root_hash ← r;
      tree_map ← remove_arc_mutex_and_option_from_output_map (filled_tree_output_map s) true;
      mret {| tree_map := tree_map; root_hash := root_hash |}.

(** The nodes are collected to a map in the order of the iteration: on equal keys the last one
    stays. *)
Definition FilledTree_serialize `{HashOrder} (self : FilledTreeImpl L) : gmap (list N) (list N) :=
  list_to_map (reverse ((λ kv, (db_key kv.2, FilledNode_serialize kv.2)) <$> hash_iter (tree_map self))).

Definition get_root_hash (self : FilledTreeImpl L) : N := root_hash self.
End filled_tree.

(** ** Filling the skeleton of a reference tree *)

Section fill.
Context {L : Type} `{!Leaf L} `{!TreeHashFunction L}.
Variable Ls : list N.
Implicit Types (t : tree (L:=L)) (i j : N) (fn : FilledNode L).

(** Node [j] of the tree [t] rooted at [i] is modified and is filled as [fn]. *)
Fixpoint in_filled (i : N) t (j : N) (fn : FilledNode L) : Prop :=
  match t with
  | TLeaf _ => has_mods Ls i = true ∧ j = i ∧ fn = tree_node t
  | TBinary l r =>
      has_mods Ls i = true ∧
      ((j = i ∧ fn = tree_node t) ∨ in_filled (2 * i) l j fn ∨ in_filled (2 * i + 1) r j fn)
  | TEdge p b => (j = i ∧ fn = tree_node t) ∨ in_filled (bottom i p) b j fn
  end.

Lemma in_filled_below h i t j fn : at_height h i → tree_ok h t → in_filled i t j fn → below i j.
Proof.
  revert h i. induction t as [l|l IHl r IHr|p b IH]; intros h i Hi Ht Hin;
    pose proof (at_height_pos _ _ Hi); cbn [in_filled tree_ok] in *.
  - destruct Hin as (_&->&_). by apply below_refl.
  - destruct h as [|h]; [done|]. destruct Ht as [Hl Hr].
    destruct Hin as [_ [[-> _]|[Hin|Hin]]]; [by apply below_refl|..].
    + apply (below_trans _ (2 * i)); [apply below_child; auto|].
      apply (IHl h); [eapply at_height_child; eauto|done..].
    + apply (below_trans _ (2 * i + 1)); [apply below_child; auto|].
      apply (IHr h); [eapply at_height_child; eauto|done..].
  - destruct Ht as (Hp&?&?&_&Hb). destruct Hin as [[-> _]|Hin]; [by apply below_refl|].
    eapply below_trans; [by apply below_bottom|]. eapply IH; [by apply at_height_bottom|done|done].
Qed.

(** A modified node of the skeleton is filled. *)
Lemma in_skel_filled i t j n :
  in_skel Ls i t j n → (∀ hv, n ≠ Updated_UnmodifiedSubTree hv) → ∃ fn, in_filled i t j fn.
Proof.
  intros Hin Hn. revert i Hin. induction t as [l|l IHl r IHr|p b IH]; intros i; cbn [in_skel in_filled].
  - destruct (has_mods Ls i); intros [-> ->]; [|by edestruct Hn]. eauto.
  - destruct (has_mods Ls i); [|intros [-> ->]; by edestruct Hn].
    intros [[-> ->]|[Hin|Hin]]; [eauto| |].
    + destruct (IHl _ Hin). eauto.
    + destruct (IHr _ Hin). eauto.
  - intros [[-> ->]|Hin]; [eauto|]. destruct (IH _ Hin). eauto.
Qed.

Lemma in_filled_skel i t j fn :
  in_filled i t j fn → ∃ n, in_skel Ls i t j n ∧ ∀ hv, n ≠ Updated_UnmodifiedSubTree hv.
Proof.
  revert i. induction t as [l|l IHl r IHr|p b IH]; intros i; cbn [in_skel in_filled].
  - intros (->&->&_). by exists Updated_Leaf.
  - intros [-> [[-> _]|[Hin|Hin]]]; [by exists Updated_Binary; auto| |].
    + destruct (IHl _ Hin) as (n&?&?). eauto.
    + destruct (IHr _ Hin) as (n&?&?). eauto.
  - intros [[-> _]|Hin]; [by exists (Updated_Edge p); auto|]. destruct (IH _ Hin) as (n&?&?). eauto.
Qed.

Variable lm : option (gmap N L).

(** The source of a modified leaf: the given modifications, or the leaf inputs. *)
Definition leaf_source (s : FillState (L:=L)) j (l : L) : Prop :=
  match lm with
  | Some g => g !! j = Some l
  | None => ∃ inp o, leaf_index_to_leaf_input s !! j = Some (Some inp) ∧ leaf_create inp = Ok (l, o) ∧
              leaf_index_to_leaf_output s !! j = Some None
  end.

Definition leaf_written (s s' : FillState (L:=L)) j (l : L) : Prop :=
  match lm with
  | Some _ => True
  | None => ∀ inp o, leaf_index_to_leaf_input s !! j = Some (Some inp) → leaf_create inp = Ok (l, o) →
              leaf_index_to_leaf_output s' !! j = Some (Some o)
  end.

Definition is_leaf_node i t j : Prop := ∃ l, in_filled i t j (tree_node (TLeaf l)).

Record fill_pre i t (s : FillState (L:=L)) : Prop := {
  pre_slot : ∀ j fn, in_filled i t j fn → filled_tree_output_map s !! j = Some None;
  pre_leaf : ∀ j l, in_filled i t j (tree_node (TLeaf l)) → is_empty l = false ∧ leaf_source s j l;
}.

Record fill_post i t (s s' : FillState (L:=L)) : Prop := {
  post_node : ∀ j fn, in_filled i t j fn → filled_tree_output_map s' !! j = Some (Some fn);
  post_other : ∀ j, (∀ fn, ¬ in_filled i t j fn) →
    filled_tree_output_map s' !! j = filled_tree_output_map s !! j;
  post_leaf : ∀ j l, in_filled i t j (tree_node (TLeaf l)) → leaf_written s s' j l;
  post_leaf_other : ∀ j, ¬ is_leaf_node i t j →
    leaf_index_to_leaf_input s' !! j = leaf_index_to_leaf_input s !! j ∧
    leaf_index_to_leaf_output s' !! j = leaf_index_to_leaf_output s !! j;
}.

Lemma write_node_ok i fn s :
  filled_tree_output_map s !! i = Some None →
  write_node i fn s = (Ok tt, {|
    filled_tree_output_map := <[i := Some fn]> (filled_tree_output_map s);
    leaf_index_to_leaf_input := leaf_index_to_leaf_input s;
    leaf_index_to_leaf_output := leaf_index_to_leaf_output s |}).
Proof. intros Hs. unfold write_node, zoom, write_to_output_map. mstep. by rewrite Hs. Qed.

Lemma join_task_ok {A} (task : M (FillState (L:=L)) FilledTreeError A) s a s' :
  task s = (Ok a, s') → join_task task s = (Ok a, s').
Proof. unfold join_task. by intros ->. Qed.

(** The output of a node over the outputs of its subtrees. *)
Definition write_out i fn (s : FillState (L:=L)) : FillState (L:=L) := {|
  filled_tree_output_map := <[i := Some fn]> (filled_tree_output_map s);
  leaf_index_to_leaf_input := leaf_index_to_leaf_input s;
  leaf_index_to_leaf_output := leaf_index_to_leaf_output s |}.

Lemma tree_node_leaf t l : tree_node t = tree_node (TLeaf l) → t = TLeaf l.
Proof. unfold tree_node. destruct t; cbn [tree_data]; naive_solver. Qed.

Lemma fill_edge_post h i p b s s1 :
  at_height h i → tree_ok h (TEdge p b) → fill_post (bottom i p) b s s1 →
  fill_post i (TEdge p b) s (write_out i (tree_node (TEdge p b)) s1).
Proof.
  intros Hi (Hp&H1&Hl&_&Hb) [Hn Ho Hlf Hlo]. pose proof (at_height_pos _ _ Hi) as Hpos.
  pose proof (at_height_bottom h i p Hi Hp Hl) as Hbi.
  assert (Hne : ∀ j fn, in_filled (bottom i p) b j fn → j ≠ i).
  { intros j fn Hin ->. apply (in_filled_below _ _ _ _ _ Hbi Hb) in Hin. by eapply bottom_strict. }
  split; cbn [write_out filled_tree_output_map leaf_index_to_leaf_input leaf_index_to_leaf_output].
  - intros j fn [[-> ->]|Hin]; [by rewrite lookup_insert_eq|].
    rewrite lookup_insert_ne by (symmetry; eauto). auto.
  - intros j Hnot. rewrite lookup_insert_ne.
    + apply Ho. intros fn Hin. eapply Hnot. by right.
    + intros <-. eapply Hnot. by left.
  - intros j l [[_ Heq]|Hin]; [|by apply Hlf]. by apply (eq_sym (x := tree_node (TLeaf l))), tree_node_leaf in Heq.
  - intros j Hnot. apply Hlo. intros [l Hin]. apply Hnot. exists l. by right.
Qed.

Lemma fill_binary_post h i l r s s1 s2 :
  at_height (S h) i → tree_ok h l → tree_ok h r → has_mods Ls i = true →
  fill_post (2 * i) l s s1 → fill_post (2 * i + 1) r s1 s2 →
  fill_post i (TBinary l r) s (write_out i (tree_node (TBinary l r)) s2).
Proof.
  intros Hi Hl Hr Hm [Hn1 Ho1 Hlf1 Hlo1] [Hn2 Ho2 Hlf2 Hlo2]. pose proof (at_height_pos _ _ Hi) as Hpos.
  assert (Hbl : ∀ j fn, in_filled (2 * i) l j fn → below (2 * i) j).
  { intros j fn. apply (in_filled_below h); [eapply at_height_child; eauto|done]. }
  assert (Hbr : ∀ j fn, in_filled (2 * i + 1) r j fn → below (2 * i + 1) j).
  { intros j fn. apply (in_filled_below h); [eapply at_height_child; eauto|done]. }
  assert (Hlr : ∀ j fn fn', in_filled (2 * i) l j fn → ¬ in_filled (2 * i + 1) r j fn').
  { intros j fn fn' H1 H2. eapply (children_disjoint i j); eauto. }
  assert (Hne : ∀ j, below (2 * i) j ∨ below (2 * i + 1) j → j ≠ i).
  { intros j Hj ->. destruct Hj as [Hj|Hj]; eapply (child_strict i); [done| |exact Hj|done| |exact Hj]; auto. }
  split; cbn [write_out filled_tree_output_map leaf_index_to_leaf_input leaf_index_to_leaf_output].
  - intros j fn [_ [[-> ->]|[Hin|Hin]]]; [by rewrite lookup_insert_eq|..];
      rewrite lookup_insert_ne by (symmetry; eauto); [|by auto].
    rewrite Ho2 by eauto. auto.
  - intros j Hnot. cbn [in_filled] in Hnot. rewrite lookup_insert_ne by (intros <-; eapply Hnot; eauto).
    rewrite Ho2, Ho1; [done|..]; intros fn Hin; eapply (Hnot fn); auto.
  - intros j lf [_ [[_ Heq]|[Hin|Hin]]].
    + by apply (eq_sym (x := tree_node (TLeaf lf))), tree_node_leaf in Heq.
    + pose proof (Hlf1 j lf Hin) as Hw. unfold leaf_written in *. destruct lm; [done|].
      intros inp o Hi' Hc. cbn [write_out leaf_index_to_leaf_output]. destruct (Hlo2 j) as [_ ->]; [|by eauto].
      intros [l' Hin']. by eapply Hlr.
    + pose proof (Hlf2 j lf Hin) as Hw. unfold leaf_written in *. destruct lm; [done|].
      destruct (Hlo1 j) as [Heq _]; [intros [l' Hin']; by eapply Hlr|].
      intros inp o Hi' Hc. cbn [write_out leaf_index_to_leaf_output]. eapply Hw; [|done]. by rewrite Heq.
  - intros j Hnot. unfold is_leaf_node in *. cbn [in_filled] in Hnot.
    destruct (Hlo2 j) as [-> ->]; [intros [l' Hin]; apply Hnot; eauto|].
    apply Hlo1. intros [l' Hin]. apply Hnot. eauto.
Qed.

Lemma fill_pre_sub i t i' t' s :
  (∀ j fn, in_filled i' t' j fn → in_filled i t j fn) → fill_pre i t s → fill_pre i' t' s.
Proof. intros Hsub [H1 H2]. split; eauto. Qed.

Lemma fill_pre_after i t i' t' s s' :
  (∀ j fn fn', in_filled i' t' j fn → ¬ in_filled i t j fn') → fill_post i' t' s s' → fill_pre i t s → fill_pre i t s'.
Proof.
  intros Hd [_ Ho _ Hlo] [H1 H2]. split.
  - intros j fn Hin. rewrite Ho; [eauto|]. intros fn' Hin'. by eapply Hd.
  - intros j l Hin. destruct (H2 j l Hin) as [? Hs]. split; [done|]. unfold leaf_source in *.
    destruct lm; [done|]. destruct (Hlo j) as [-> ->]; [|done]. intros [l' Hin']. by eapply Hd.
Qed.

Lemma fill_leaf_ok i l s :
  has_mods Ls i = true → fill_pre i (TLeaf l) s →
  ∃ s', (leaf ← get_or_compute_leaf lm i;
         if is_empty leaf.1 then throw (DeletedLeafInSkeleton i)
         else
           write_node i {| hash := compute_node_hash (Data_Leaf leaf.1); data := Data_Leaf leaf.1 |};;
           match leaf.2 with
           | Some output => write_leaf_output i output;; mret (compute_node_hash (Data_Leaf leaf.1))
           | None => mret (compute_node_hash (Data_Leaf leaf.1))
           end) s = (Ok (tree_hash (TLeaf l)), s') ∧ fill_post i (TLeaf l) s s'.
Proof.
  intros Hm [Hslot Hleaf]. assert (Hin : in_filled i (TLeaf l) i (tree_node (TLeaf l))) by done.
  pose proof (Hslot _ _ Hin) as Hs. destruct (Hleaf _ _ Hin) as [He Hsrc].
  assert (Hnode : ∀ (out : gmap N (option (FilledNode L))),
    out = <[i := Some (tree_node (TLeaf l))]> (filled_tree_output_map s) →
    (∀ j fn, in_filled i (TLeaf l) j fn → out !! j = Some (Some fn)) ∧
    (∀ j, (∀ fn, ¬ in_filled i (TLeaf l) j fn) → out !! j = filled_tree_output_map s !! j)).
  { intros out ->. split.
    - intros j fn (_&->&->). by rewrite lookup_insert_eq.
    - intros j Hnot. rewrite lookup_insert_ne; [done|]. intros <-. by eapply Hnot. }
  destruct (Hnode _ eq_refl) as [Hn1 Hn2].
  unfold get_or_compute_leaf, leaf_source in *. destruct lm as [g|] eqn:Hlm.
  - unfold from_modifications. rewrite Hsrc. cbn [map_err]. mstep. cbn [fst snd]. rewrite He.
    rewrite (bind_run _ _ _ _ _ (write_node_ok i _ s Hs)). eexists. split; [done|].
    split; [exact Hn1|exact Hn2| |done]. intros. unfold leaf_written. by rewrite Hlm.
  - destruct Hsrc as (inp&o&Hinp&Hcr&Hout). mstep. rewrite Hinp. mstep. rewrite Hcr. cbn [map_err]. mstep.
    cbn [fst snd]. rewrite He. erewrite bind_run; [|by apply write_node_ok].
    cbn [filled_tree_output_map leaf_index_to_leaf_input leaf_index_to_leaf_output].
    unfold write_leaf_output, write_to_output_map, zoom, mbind, M_bind, get_st.
    cbn [filled_tree_output_map leaf_index_to_leaf_input leaf_index_to_leaf_output]. rewrite Hout.
    eexists. split; [done|]. split; [exact Hn1|exact Hn2|..];
      cbn [filled_tree_output_map leaf_index_to_leaf_input leaf_index_to_leaf_output].
    + intros j l' (_&->&Heq). apply tree_node_leaf in Heq. unfold leaf_written. rewrite Hlm.
      intros inp' o' Hi' Hc'. cbn [leaf_index_to_leaf_output]. rewrite lookup_insert_eq. congruence.
    + intros j Hnot. assert (j ≠ i) by (intros ->; apply Hnot; by exists l).
      by rewrite !lookup_insert_ne by done.
Qed.

Theorem fill_ok fuel h i t sk s :
  at_height h i → (h < fuel)%nat → tree_ok h t → sk_full Ls sk i t → fill_pre i t s →
  ∃ s', compute_filled_tree_rec fuel sk i lm s = (Ok (tree_hash t), s') ∧ fill_post i t s s'.
Proof.
  revert h i t s. induction fuel as [|fuel IH]; intros h i t s Hi Hfuel Ht Hsk Hpre; [lia|].
  pose proof (at_height_pos _ _ Hi) as Hpos. cbn [compute_filled_tree_rec].
  assert (Hnode : ∀ n, in_skel Ls i t i n → get_node sk i = Ok n).
  { intros n Hn. apply Hsk in Hn; [|by apply below_refl]. unfold get_node. by rewrite Hn. }
  assert (Hfull : ∀ c t', below i c → (∀ j n, below c j → in_skel Ls i t j n ↔ in_skel Ls c t' j n) → sk_full Ls sk c t').
  { intros c t' Hc Heq j n Hj. rewrite <-Heq by done. apply Hsk. by eapply below_trans. }
  destruct t as [l|l r|p b].
  - destruct (has_mods Ls i) eqn:Hm.
    + rewrite (Hnode Updated_Leaf) by (cbn [in_skel]; by rewrite Hm). cbn [map_err]. mstep.
      by apply fill_leaf_ok.
    + rewrite (Hnode (Updated_UnmodifiedSubTree (tree_hash (TLeaf l)))) by (cbn [in_skel]; by rewrite Hm).
      cbn [map_err]. mstep. exists s. split; [done|].
      split; intros; try done; cbn [in_filled] in *; by destruct_and?; congruence.
  - destruct h as [|h]; [done|]. destruct Ht as [Hl Hr]. destruct (has_mods Ls i) eqn:Hm.
    2:{ rewrite (Hnode (Updated_UnmodifiedSubTree (tree_hash (TBinary l r)))) by (cbn [in_skel]; by rewrite Hm).
        cbn [map_err]. mstep. exists s. split; [done|].
        split; intros; try done; cbn [in_filled] in *; by destruct_and?; congruence. }
    rewrite (Hnode Updated_Binary) by (cbn [in_skel]; rewrite Hm; by left). cbn [map_err]. mstep.
    pose proof (child_height h i true Hi) as Hli. pose proof (child_height h i false Hi) as Hri.
    cbn [first_child] in Hli, Hri. unfold NodeIndex_mul, NodeIndex_add, ROOT.
    rewrite (N.mul_comm i), NodeIndex_new_ok by (by eapply at_height_index). mstep.
    rewrite NodeIndex_new_ok by (by eapply at_height_index). mstep.
    destruct (IH h (2 * i) l s) as (s1&Hrun1&Hp1); [done|lia|done| | |].
    { apply Hfull; [by apply (below_first_child i true)|]. intros j n. by apply (in_skel_child Ls h i l r true). }
    { eapply fill_pre_sub; [|done]. cbn [in_filled]. auto. }
    rewrite (bind_run _ _ _ _ _ (join_task_ok _ _ _ _ Hrun1)).
    destruct (IH h (2 * i + 1) r s1) as (s2&Hrun2&Hp2); [done|lia|done| | |].
    { apply Hfull; [by apply (below_first_child i false)|]. intros j n. by apply (in_skel_child Ls h i l r false). }
    { eapply (fill_pre_after _ _ (2 * i) l s); [|done|eapply fill_pre_sub; [|done]; cbn [in_filled]; auto].
      intros j fn fn' H1 H2. eapply (children_disjoint i j); [done|by eapply (in_filled_below h _ _ _ _ Hli Hl)|by eapply (in_filled_below h _ _ _ _ Hri Hr)]. }
    rewrite (bind_run _ _ _ _ _ (join_task_ok _ _ _ _ Hrun2)).
    exists (write_out i (tree_node (TBinary l r)) s2). split; [|by eapply fill_binary_post].
    erewrite bind_run; [done|]. apply write_node_ok.
    rewrite (post_other _ _ _ _ Hp2), (post_other _ _ _ _ Hp1).
    + apply (pre_slot _ _ _ Hpre i (tree_node (TBinary l r))). cbn [in_filled]. auto.
    + intros fn Hin. apply (in_filled_below h _ _ _ _ Hli Hl) in Hin. eapply (child_strict i (2 * i)); auto.
    + intros fn Hin. apply (in_filled_below h _ _ _ _ Hri Hr) in Hin. eapply (child_strict i (2 * i + 1)); auto.
  - pose proof Ht as (Hp&H1&Hlen&_&Hb). pose proof Hi as (?&_&?).
    rewrite (Hnode (Updated_Edge p)) by (cbn [in_skel]; by left). cbn [map_err]. mstep.
    pose proof (at_height_bottom h i p Hi Hp Hlen) as Hbi.
    assert (compute_bottom_index (E:=FilledTreeError) i p = Ok (bottom i p)) as ->
      by (apply bottom_index_ok; [done|done|lia]).
    mstep. destruct (IH (h - N.to_nat (path_length p))%nat (bottom i p) b s) as (s1&Hrun1&Hp1); [done|lia|done| | |].
    { apply Hfull; [by apply below_bottom|]. intros j n. by apply in_skel_edge. }
    { eapply fill_pre_sub; [|done]. cbn [in_filled]. auto. }
    rewrite (bind_run _ _ _ _ _ Hrun1).
    exists (write_out i (tree_node (TEdge p b)) s1). split; [|by eapply fill_edge_post].
    erewrite bind_run; [done|]. apply write_node_ok. rewrite (post_other _ _ _ _ Hp1).
    + apply (pre_slot _ _ _ Hpre i (tree_node (TEdge p b))). cbn [in_filled]. auto.
    + intros fn Hin. apply (in_filled_below _ _ _ _ _ Hbi Hb) in Hin. by eapply bottom_strict.
Qed.
End fill.

(** ** The filled tree of an updated skeleton *)

Section fill_tree.
Context {L : Type} `{!Leaf L} `{!TreeHashFunction L}.
Variables (m' : gmap N L) (Ls : list N).
Hypothesis HLs : leaf_slice Ls.
Implicit Types (i j : N) (fn : FilledNode L).

Lemma in_filled_leaf i t j l : in_filled Ls i t j (tree_node (TLeaf l)) → tree_leaf i t j l.
Proof.
  revert i. induction t as [l'|a IHa b IHb|p b IH]; intros i; cbn [in_filled tree_leaf].
  - intros (_&->&Heq). apply eq_sym, tree_node_leaf in Heq. naive_solver.
  - intros [_ [[_ Heq]|[?|?]]]; [|auto..]. by apply eq_sym, tree_node_leaf in Heq.
  - intros [[_ Heq]|?]; [|auto]. by apply eq_sym, tree_node_leaf in Heq.
Qed.

Lemma in_filled_mods h i t j l :
  at_height h i → tree_ok h t → in_filled Ls i t j (tree_node (TLeaf l)) → j ∈ Ls.
Proof.
  revert h i. induction t as [l'|a IHa b IHb|p b IH]; intros h i Hi Ht; cbn [in_filled tree_ok] in *.
  - subst h. intros (Hm&->&_). apply has_mods_true in Hm as (x&Hx&Hb).
    by rewrite <-(below_leaf_eq i x Hi (proj2 HLs x Hx) Hb).
  - destruct h as [|h]; [done|]. destruct Ht as [Ha Hb].
    intros [_ [[_ Heq]|[Hin|Hin]]]; [by apply eq_sym, tree_node_leaf in Heq|..].
    + apply (IHa h (2 * i)); [by apply (child_height h i true)|done|done].
    + apply (IHb h (2 * i + 1)); [by apply (child_height h i false)|done|done].
  - intros [[_ Heq]|Hin]; [by apply eq_sym, tree_node_leaf in Heq|]. destruct Ht as (?&?&?&_&?).
    eapply IH; [by apply at_height_bottom|done|done].
Qed.

(** The filled nodes of the reference tree of the updated leaves. *)
Lemma leaf_filled h i t j l :
  at_height h i → tree_ok h t → tree_leaf i t j l → j ∈ Ls → in_filled Ls i t j (tree_node (TLeaf l)).
Proof.
  revert h i. induction t as [l'|a IHa b IHb|p b IH]; intros h i Hi Ht Hl Hj;
    pose proof (tree_leaf_below h i _ j l Hi Ht Hl) as [_ Hb]; cbn [in_filled tree_ok tree_leaf] in *.
  - destruct Hl as [-> ->]. split; [|done]. apply has_mods_true. eauto.
  - destruct h as [|h]; [done|]. destruct Ht as [Ha Hr]. split; [apply has_mods_true; by eauto|]. right.
    destruct Hl as [Hl|Hl]; [left|right].
    + apply (IHa h); [by apply (child_height h i true)|done..].
    + apply (IHb h); [by apply (child_height h i false)|done..].
  - right. destruct Ht as (?&?&?&_&?). eapply IH; [by apply at_height_bottom|done..].
Qed.

(** The leaves that are filled are the modified leaves of the tree. *)
Lemma leaf_node_iff t j l :
  canonical 251 ROOT m' = Some t →
  in_filled Ls ROOT t j (tree_node (TLeaf l)) ↔ j ∈ Ls ∧ m' !! j = Some l.
Proof.
  intros Hc. pose proof at_height_root as Hroot. pose proof (canonical_ok _ _ _ _ Hroot Hc) as Htok. split.
  - intros Hin. split; [by eapply in_filled_mods|]. apply in_filled_leaf in Hin.
    by apply (canonical_leaves 251 ROOT m' t) in Hin as (?&_&_).
  - intros [Hj Hl]. apply (leaf_filled 251); [done|done| |done]. apply (canonical_leaves 251 ROOT m'); [done..|].
    split; [done|]. pose proof (proj2 HLs j Hj) as H0. split; [done|]. apply below_root. by eapply at_height_pos.
Qed.

Definition is_filled_tree (tm : gmap N (FilledNode L)) : Prop :=
  ∀ j fn, tm !! j = Some fn ↔ ∃ t, canonical 251 ROOT m' = Some t ∧ in_filled Ls ROOT t j fn.

Variable lm : option (gmap N L).

Lemma run_fill_ok sk t s0 :
  is_updated_skeleton m' Ls sk → canonical 251 ROOT m' = Some t →
  filled_tree_output_map s0 = initialize_filled_tree_output_map_with_placeholders sk →
  (∀ x l, x ∈ Ls → m' !! x = Some l → is_empty l = false ∧ leaf_source lm s0 x l) →
  ∃ s' tm, compute_filled_tree_rec tree_fuel sk ROOT lm s0 = (Ok (tree_hash t), s') ∧
    remove_arc_mutex_and_option_from_output_map (E:=FilledTreeError) (filled_tree_output_map s') true = Ok tm ∧
    is_filled_tree tm ∧ fill_post Ls lm ROOT t s0 s'.
Proof.
  intros Hsk Hc Hs0 Hleaf. pose proof at_height_root as Hroot.
  pose proof (canonical_ok _ _ _ _ Hroot Hc) as Htok.
  assert (Hskt : ∀ j n, sk !! j = Some n ↔ in_skel Ls ROOT t j n).
  { intros j n. rewrite (Hsk j n), Hc. split; [by intros (?&[= <-]&?)|by eauto]. }
  assert (Hout : ∀ j, filled_tree_output_map s0 !! j = Some None ↔ ∃ fn, in_filled Ls ROOT t j fn).
  { intros j. rewrite Hs0. unfold initialize_filled_tree_output_map_with_placeholders. rewrite lookup_omap. split.
    - destruct (sk !! j) as [n|] eqn:Hj; [|done]. cbn. intros Hn. apply Hskt in Hj.
      eapply in_skel_filled; [done|]. by intros hv ->.
    - intros (fn&Hin). apply in_filled_skel in Hin as (n&Hn&Hne). apply Hskt in Hn. rewrite Hn. cbn.
      destruct n; try done. by edestruct Hne. }
  assert (Hout2 : ∀ j v, filled_tree_output_map s0 !! j = Some v → v = None).
  { intros j v. rewrite Hs0. unfold initialize_filled_tree_output_map_with_placeholders. rewrite lookup_omap.
    destruct (sk !! j) as [[]|]; cbn; naive_solver. }
  destruct (fill_ok Ls lm tree_fuel 251 ROOT t sk s0) as (s'&Hrun&Hpost).
  { done. } { unfold tree_fuel. lia. } { done. } { intros j n _. apply Hskt. }
  { split.
    - intros j fn Hin. apply Hout. eauto.
    - intros j l [??]%(leaf_node_iff t j l Hc). auto. }
  assert (Hdom : ∀ j v, filled_tree_output_map s' !! j = Some v → ∃ fn, in_filled Ls ROOT t j fn ∧ v = Some fn).
  { intros j v Hv. destruct (filled_tree_output_map s0 !! j) as [v0|] eqn:H0.
    - pose proof (Hout2 j v0 H0). subst v0. apply Hout in H0 as [fn Hin].
      rewrite (post_node _ _ _ _ _ _ Hpost j fn Hin) in Hv. simplify_eq. eauto.
    - exfalso. rewrite (post_other _ _ _ _ _ _ Hpost), H0 in Hv; [done|].
      intros fn Hin. assert (filled_tree_output_map s0 !! j = Some None) by (apply Hout; eauto). congruence. }
  exists s', (omap id (filled_tree_output_map s')). split_and!; [done| |..|done].
  - unfold remove_arc_mutex_and_option_from_output_map. rewrite bool_decide_true; [done|].
    intros j v Hv. apply Hdom in Hv as (fn&_&->). done.
  - intros j fn. rewrite lookup_omap, Hc. split.
    + destruct (filled_tree_output_map s' !! j) as [v|] eqn:Hv; [|done]. cbn. intros ->.
      apply Hdom in Hv as (fn'&Hin&[= <-]). eauto.
    + intros (t0&[= <-]&Hin). by rewrite (post_node _ _ _ _ _ _ Hpost j fn Hin).
Qed.
End fill_tree.

Section create.
Context {L : Type} `{!Leaf L} `{!TreeHashFunction L}.
Variables (m' : gmap N L) (Ls : list N).
Hypothesis HLs : leaf_slice Ls.
Hypothesis HLs_ne : Ls ≠ [].

Lemma skeleton_root_mods sk t :
  is_updated_skeleton m' Ls sk → canonical 251 ROOT m' = Some t →
  UpdatedSkeleton_is_empty (E:=FilledTreeError) sk = Ok false.
Proof.
  intros Hsk Hc. pose proof at_height_root as Hroot. pose proof (canonical_ok _ _ _ _ Hroot Hc) as Htok.
  assert (Hm : has_mods Ls ROOT = true) by (apply has_mods_ne; by rewrite filter_root).
  assert (Hn : ∃ n, sk !! ROOT = Some n ∧ ∀ hv, n ≠ Updated_UnmodifiedSubTree hv).
  { destruct t as [l|l r|p b]; [done|..].
    - exists Updated_Binary. split; [|done]. apply Hsk. exists (TBinary l r). split; [done|].
      cbn [in_skel]. rewrite Hm. by left.
    - exists (Updated_Edge p). split; [|done]. apply Hsk. exists (TEdge p b). split; [done|]. by left. }
  destruct Hn as (n&Hn&Hne). unfold UpdatedSkeleton_is_empty. rewrite Hn. destruct n; try done. by edestruct Hne.
Qed.

Lemma skeleton_empty sk :
  is_updated_skeleton m' Ls sk → canonical 251 ROOT m' = None → sk = ∅.
Proof.
  intros Hsk Hc. apply map_empty. intros j. apply eq_None_not_Some. intros [n (t&?&_)%Hsk]. congruence.
Qed.

(** [create_with_existing_leaves]: the filled tree of the updated leaves. *)
Lemma create_with_existing_leaves_ok sk (lmods : gmap N L) :
  is_updated_skeleton m' Ls sk → lmods ≠ ∅ →
  (∀ x l, x ∈ Ls → m' !! x = Some l → lmods !! x = Some l ∧ is_empty l = false) →
  ∃ ft, create_with_existing_leaves sk lmods = Ok ft ∧
    root_hash ft = root_hash_of (canonical 251 ROOT m') ∧ is_filled_tree m' Ls (tree_map ft).
Proof.
  intros Hsk Hne Hl. unfold create_with_existing_leaves. rewrite decide_False by done.
  destruct (canonical 251 ROOT m') as [t|] eqn:Hc.
  - rewrite (skeleton_root_mods sk t Hsk Hc). unfold mbind; cbn [result_bind].
    set (s0 := {| filled_tree_output_map := _; leaf_index_to_leaf_input := _; leaf_index_to_leaf_output := _ |}).
    destruct (run_fill_ok m' Ls HLs (Some lmods) sk t s0) as (s'&tm&->&Htm&Hft&_); [done..| |].
    { intros x l Hx Hm. destruct (Hl x l Hx Hm). by split. }
    cbn [result_bind]. rewrite Htm. cbn [result_bind]. eexists. split; [done|]. done.
  - rewrite (skeleton_empty sk Hsk Hc). unfold UpdatedSkeleton_is_empty. rewrite lookup_empty.
    unfold check. rewrite bool_decide_true by done. eexists. split; [done|]. split; [done|].
    intros j fn. cbn. rewrite lookup_empty, Hc. split; [done|]. by intros (?&?&_).
Qed.

(** [create]: the leaves are computed from their inputs and the leaf outputs are returned. *)
Lemma create_ok sk (inputs : gmap N LeafInput) :
  is_updated_skeleton m' Ls sk → inputs ≠ ∅ →
  (∀ x l, x ∈ Ls → m' !! x = Some l →
     is_empty l = false ∧ ∃ inp o, inputs !! x = Some inp ∧ leaf_create inp = Ok (l, o)) →
  ∃ ft outputs, FilledTree_create sk inputs = Ok (ft, outputs) ∧
    root_hash ft = root_hash_of (canonical 251 ROOT m') ∧ is_filled_tree m' Ls (tree_map ft) ∧
    ∀ x o, outputs !! x = Some o ↔
      x ∈ Ls ∧ ∃ l inp, m' !! x = Some l ∧ inputs !! x = Some inp ∧ leaf_create inp = Ok (l, o).
Proof.
  intros Hsk Hne Hl. unfold FilledTree_create. rewrite decide_False by done.
  destruct (canonical 251 ROOT m') as [t|] eqn:Hc.
  - rewrite (skeleton_root_mods sk t Hsk Hc). unfold mbind; cbn [result_bind].
    set (s0 := {| filled_tree_output_map := _; leaf_index_to_leaf_input := _; leaf_index_to_leaf_output := _ |}).
    assert (Hin0 : ∀ x, leaf_index_to_leaf_input s0 !! x = Some <$> inputs !! x) by (intros x; apply lookup_fmap).
    assert (Hout0 : ∀ x, leaf_index_to_leaf_output s0 !! x = (λ _, None) <$> inputs !! x) by (intros x; apply lookup_fmap).
    destruct (run_fill_ok m' Ls HLs None sk t s0) as (s'&tm&->&Htm&Hft&Hpost); [done..| |].
    { intros x l Hx Hm. destruct (Hl x l Hx Hm) as (?&inp&o&Hi&Hcr). split; [done|]. exists inp, o.
      by rewrite Hin0, Hout0, Hi. }
    cbn [result_bind]. rewrite Htm. cbn [result_bind]. eexists _, _. split_and!; [done..|].
    intros x o. rewrite lookup_omap. split.
    + intros Ho. destruct (decide (x ∈ Ls ∧ is_Some (m' !! x))) as [[Hx [l Hm]]|Hno].
      * split; [done|]. destruct (Hl x l Hx Hm) as (_&inp&o'&Hi&Hcr). exists l, inp.
        rewrite (post_leaf _ _ _ _ _ _ Hpost x l) with (inp := inp) (o := o') in Ho;
          [|by apply (leaf_node_iff m' Ls HLs)|by rewrite Hin0, Hi|done].
        cbn in Ho. by injection Ho as ->.
      * exfalso. destruct (post_leaf_other _ _ _ _ _ _ Hpost x) as [_ Hsame].
        { intros [l [??]%(leaf_node_iff m' Ls HLs t x l Hc)]. by eauto. }
        rewrite Hsame, Hout0 in Ho. by destruct (inputs !! x).
    + intros (Hx&l&inp&Hm&Hi&Hcr).
      by rewrite (post_leaf _ _ _ _ _ _ Hpost x l) with (inp := inp) (o := o);
        [|apply (leaf_node_iff m' Ls HLs)|rewrite Hin0, Hi|].
  - rewrite (skeleton_empty sk Hsk Hc). unfold UpdatedSkeleton_is_empty. rewrite lookup_empty.
    unfold check. rewrite bool_decide_true by done. eexists _, _. split; [done|]. split; [done|].
    split; [intros j fn; cbn; rewrite lookup_empty, Hc; split; [done|by intros (?&?&_)]|].
    intros x o. rewrite lookup_empty. split; [done|]. intros (Hx&l&_&Hm&_). exfalso.
    pose proof (proj2 HLs x Hx) as H0. pose proof at_height_root as Hroot.
    assert (Hb : below ROOT x) by (apply below_root; by eapply at_height_pos).
    pose proof (canonical_None_below m' 251 0 ROOT x Hroot H0 Hb Hc) as Hn. rewrite canonical_0, Hm in Hn. done.
Qed.
End create.
