(* ===== verification/PatriciaOriginal.v ===== *)
(** The original skeleton read from storage
    (crates/starknet_patricia/src/patricia_merkle_tree/original_skeleton_tree/create_tree.rs).

    [fetch_nodes] reads the tree level by level: the roots of a list of subtrees are read
    from storage, and the subtrees they refer to that have to be read make up the next list.
    The state of a run is the node map of the skeleton and, where requested, the previous
    values of the modified leaves. *)
From S2P Require Import Prelude.
From S2P Require Import StarknetApi.
From S2P Require Import PatriciaTypes.
From S2P Require Import PatriciaTree.
From S2P Require Import PatriciaNode.
From S2P Require Import PatriciaSkeleton.
From S2P Require Import PatriciaUpdate.

Inductive OriginalSkeletonTreeError :=
| Deserialization (e : DeserializationError)
| StorageRead_MissingKey (key : list N)
| ReadModificationsError (index : N).

Record SubTree := {
  st_sorted_leaf_indices : list N;
  st_root_index : N;
  st_root_hash : N;
}.

Definition SubTree_get_height {E} (self : SubTree) : result E N :=
  bl ← bit_length (st_root_index self);
  d ← u8_sub bl 1;
  h ← u8_sub ACTUAL_HEIGHT d;
  SubTreeHeight_new h.

Definition is_unmodified (self : SubTree) : bool := slice_is_empty (st_sorted_leaf_indices self).

Definition SubTree_is_leaf (self : SubTree) : bool := is_leaf (st_root_index self).

(** The bottom subtree, and the modified indices that are not below it. *)
Definition get_bottom_subtree {E} (self : SubTree) (path_to_bottom : PathToBottom) (bottom_hash : N)
    : result E (SubTree * list N) :=
  bottom_idx ← bottom_index path_to_bottom (st_root_index self);
  height ← SubTree_get_height self;
  length ← SubTreeHeight_new (path_length path_to_bottom);
  bottom_height ← u8_sub height length;
  leftmost_in_subtree ← NodeIndex_shl bottom_idx bottom_height;
  before ← NodeIndex_sub leftmost_in_subtree ROOT;
  size ← NodeIndex_shl ROOT bottom_height;
  rightmost_in_subtree ← NodeIndex_add before size;
  let leftmost_index := bisect_left (st_sorted_leaf_indices self) leftmost_in_subtree in
  let rightmost_index := bisect_right (st_sorted_leaf_indices self) rightmost_in_subtree in
  bottom_leaves ← subslice (st_sorted_leaf_indices self) leftmost_index rightmost_index;
  mret ({| st_sorted_leaf_indices := bottom_leaves; st_root_index := bottom_idx;
           st_root_hash := bottom_hash |},
        take leftmost_index (st_sorted_leaf_indices self) ++ drop rightmost_index (st_sorted_leaf_indices self)).

Definition get_children_subtrees {E} (self : SubTree) (left_hash right_hash : N)
    : result E (SubTree * SubTree) :=
  leaves ← split_leaves (st_root_index self) (st_sorted_leaf_indices self);
  left_root_index ← NodeIndex_mul (st_root_index self) 2;
  right_root_index ← NodeIndex_add left_root_index ROOT;
  mret ({| st_sorted_leaf_indices := leaves.1; st_root_index := left_root_index; st_root_hash := left_hash |},
        {| st_sorted_leaf_indices := leaves.2; st_root_index := right_root_index; st_root_hash := right_hash |}).

Section original.
Context {L : Type} `{!Leaf L}.

Record FetchState := {
  fetched_nodes : gmap N OriginalSkeletonNode;
  previous_leaves : option (gmap N L);
}.

Abbreviation MO A := (M FetchState OriginalSkeletonTreeError A) (only parsing).

Definition insert_node (index : N) (node : OriginalSkeletonNode) : MO unit :=
  modify (λ s, {| fetched_nodes := <[index := node]> (fetched_nodes s); previous_leaves := previous_leaves s |}).

(** [if let Some(ref mut leaves) = previous_leaves { leaves.extend(..) }]. *)
Definition extend_previous_leaves (leaves : gmap N L) : MO unit :=
  modify (λ s, {| fetched_nodes := fetched_nodes s; previous_leaves := (λ m, leaves ∪ m) <$> previous_leaves s |}).

(** [Leaf::compare]. *)
Definition leaf_compare (leaf_modifications : gmap N L) (index : N) (previous_leaf : L)
    : result OriginalSkeletonTreeError bool :=
  match leaf_modifications !! index with
  | None => Err (ReadModificationsError index)
  | Some new_leaf => Ok (bool_decide (new_leaf = previous_leaf))
  end.

(** The warnings themselves are not modelled. *)
Definition log_warning_for_empty_leaves (leaf_indices : list N) (leaf_modifications : gmap N L)
    (compare_modified_leaves : bool) : MO unit :=
  if compare_modified_leaves then
    mfor (λ leaf_index, lift_result (leaf_compare leaf_modifications leaf_index leaf_default);; mret tt) leaf_indices
  else mret tt.

(** Returns the subtrees to append to [next_subtrees]. *)
Definition handle_subtree (subtree : SubTree) (should_fetch_modified_leaves : bool) : MO (list SubTree) :=
  if negb (SubTree_is_leaf subtree) || (should_fetch_modified_leaves && negb (is_unmodified subtree)) then
    mret [subtree]
  else if is_unmodified subtree then
    insert_node (st_root_index subtree) (Original_UnmodifiedSubTree (st_root_hash subtree));;
    mret []
  else mret [].

Definition subtree_key (subtree : SubTree) : list N :=
  create_db_key (if SubTree_is_leaf subtree then leaf_prefix else to_storage_prefix InnerNode)
    (felt_to_bytes_be (st_root_hash subtree)).

Fixpoint read_roots (l : list (SubTree * option (list N)))
    : result OriginalSkeletonTreeError (list (FilledNode L)) :=
  match l with
  | [] => Ok []
  | (subtree, optional_val) :: l =>
      val ← match optional_val with Some v => Ok v | None => Err (StorageRead_MissingKey (subtree_key subtree)) end;
      root ← map_err Deserialization (FilledNode_deserialize (st_root_hash subtree) val (SubTree_is_leaf subtree));
      roots ← read_roots l;
      mret (root :: roots)
  end.

Definition calculate_subtrees_roots (subtrees : list SubTree) (storage : gmap (list N) (list N))
    : result OriginalSkeletonTreeError (list (FilledNode L)) :=
  let db_keys := subtree_key <$> subtrees in
  read_roots (zip subtrees (storage_mget storage db_keys)).

(** The body of the loop over the subtrees. *)
Definition fetch_subtree (leaf_modifications : gmap N L) (compare_modified_leaves : bool)
    (should_fetch_modified_leaves : bool) (filled_root : FilledNode L) (subtree : SubTree) : MO (list SubTree) :=
  match data filled_root with
  | Data_Binary d =>
      if is_unmodified subtree then
        insert_node (st_root_index subtree) (Original_UnmodifiedSubTree (hash filled_root));; mret []
      else
        insert_node (st_root_index subtree) Original_Binary;;
        children ← lift_result (get_children_subtrees subtree (left_hash d) (right_hash d));
        next1 ← handle_subtree children.1 should_fetch_modified_leaves;
        next2 ← handle_subtree children.2 should_fetch_modified_leaves;
        mret (next1 ++ next2)
  | Data_Edge d =>
      insert_node (st_root_index subtree) (Original_Edge (path_to_bottom d));;
      if is_unmodified subtree then
        bottom_idx ← lift_result (bottom_index (path_to_bottom d) (st_root_index subtree));
        insert_node bottom_idx (Original_UnmodifiedSubTree (bottom_hash d));; mret []
      else
        bottom ← lift_result (get_bottom_subtree subtree (path_to_bottom d) (bottom_hash d));
        extend_previous_leaves (list_to_map ((λ idx, (idx, leaf_default)) <$> bottom.2));;
        log_warning_for_empty_leaves bottom.2 leaf_modifications compare_modified_leaves;;
        handle_subtree bottom.1 should_fetch_modified_leaves
  | Data_Leaf previous_leaf =>
      if is_unmodified subtree then mret []
      else
        (if compare_modified_leaves then
           lift_result (leaf_compare leaf_modifications (st_root_index subtree) previous_leaf);; mret tt
         else mret tt);;
        extend_previous_leaves {[st_root_index subtree := previous_leaf]};;
        mret []
  end.

Fixpoint fetch_level (leaf_modifications : gmap N L) (compare_modified_leaves : bool)
    (should_fetch_modified_leaves : bool) (roots : list (FilledNode L)) (subtrees : list SubTree) : MO (list SubTree) :=
  match roots, subtrees with
  | root :: roots, subtree :: subtrees =>
      next ← fetch_subtree leaf_modifications compare_modified_leaves should_fetch_modified_leaves root subtree;
      rest ← fetch_level leaf_modifications compare_modified_leaves should_fetch_modified_leaves roots subtrees;
      mret (next ++ rest)
  | _, _ => mret []
  end.

Fixpoint fetch_nodes (fuel : nat) (subtrees : list SubTree) (storage : gmap (list N) (list N))
    (leaf_modifications : gmap N L) (compare_modified_leaves : bool) : MO unit :=
  match subtrees with
  | [] => mret tt
  | _ =>
      match fuel with
      | O => panic
      | S fuel =>
          s ← get_st;
          let should_fetch_modified_leaves :=
            compare_modified_leaves || bool_decide (is_Some (previous_leaves s)) in
          filled_roots ← lift_result (calculate_subtrees_roots subtrees storage);
          next_subtrees ← fetch_level leaf_modifications compare_modified_leaves should_fetch_modified_leaves
                            filled_roots subtrees;
          fetch_nodes fuel next_subtrees storage leaf_modifications compare_modified_leaves
      end
  end.

Definition create_unmodified (root_hash : N) : OriginalSkeletonTreeImpl :=
  {| nodes := {[ROOT := Original_UnmodifiedSubTree root_hash]}; sorted_leaf_indices := [] |}.

Definition create_empty (sorted_leaf_indices : list N) : OriginalSkeletonTreeImpl :=
  {| nodes := ∅; sorted_leaf_indices := sorted_leaf_indices |}.

(** [OriginalSkeletonTree::create]. *)
Definition create_impl (storage : gmap (list N) (list N)) (root_hash : N) (sorted_leaf_indices : list N)
    (compare_modified_leaves : bool) (leaf_modifications : gmap N L)
    : result OriginalSkeletonTreeError OriginalSkeletonTreeImpl :=
  if slice_is_empty sorted_leaf_indices then Ok (create_unmodified root_hash)
  else if decide (root_hash = ROOT_OF_EMPTY_TREE) then
    let s0 := {| fetched_nodes := ∅; previous_leaves := None |} in
    _ ← (log_warning_for_empty_leaves sorted_leaf_indices leaf_modifications compare_modified_leaves s0).1;
    Ok (create_empty sorted_leaf_indices)
  else
    let main_subtree := {| st_sorted_leaf_indices := sorted_leaf_indices; st_root_index := ROOT;
                           st_root_hash := root_hash |} in
    let s0 := {| fetched_nodes := ∅; previous_leaves := None |} in
    let '(r, s) := fetch_nodes tree_fuel [main_subtree] storage leaf_modifications compare_modified_leaves s0 in
    _ ← r;
    Ok {| nodes := fetched_nodes s; sorted_leaf_indices := sorted_leaf_indices |}.

(** [OriginalSkeletonTree::create_and_get_previous_leaves]. *)
Definition create_and_get_previous_leaves_impl (storage : gmap (list N) (list N)) (root_hash : N)
    (sorted_leaf_indices : list N) (leaf_modifications : gmap N L) (compare_modified_leaves : bool)
    : result OriginalSkeletonTreeError (OriginalSkeletonTreeImpl * gmap N L) :=
  if slice_is_empty sorted_leaf_indices then Ok (create_unmodified root_hash, ∅)
  else if decide (root_hash = ROOT_OF_EMPTY_TREE) then
    Ok (create_empty sorted_leaf_indices, list_to_map ((λ idx, (idx, leaf_default)) <$> sorted_leaf_indices))
  else
    let main_subtree := {| st_sorted_leaf_indices := sorted_leaf_indices; st_root_index := ROOT;
                           st_root_hash := root_hash |} in
    let s0 := {| fetched_nodes := ∅; previous_leaves := Some ∅ |} in
    let '(r, s) := fetch_nodes tree_fuel [main_subtree] storage leaf_modifications compare_modified_leaves s0 in
    _ ← r;
    Ok ({| nodes := fetched_nodes s; sorted_leaf_indices := sorted_leaf_indices |},
        default ∅ (previous_leaves s)).
End original.

(** ** The leaves of the bottom subtree *)

Lemma lower_bound_add l a b :
  StronglySorted N.lt l → a ≤ b →
  lower_bound l b = (lower_bound l a + lower_bound (drop (lower_bound l a) l) b)%nat.
Proof.
  intros Hs Hab. induction Hs as [|x l Hs IH Hall]; [done|]. cbn [lower_bound].
  destruct (decide (x < a)) as [Ha|Ha]; [|done].
  rewrite decide_True by lia. cbn [drop]. rewrite IH at 1. lia.
Qed.

Lemma subslice_ok {E} l a b :
  StronglySorted N.lt l → a ≤ b →
  subslice (E:=E) l (lower_bound l a) (lower_bound l b) = Ok (filter (λ x, a ≤ x ∧ x < b) l).
Proof.
  intros Hs Hab. pose proof (lower_bound_add l a b Hs Hab) as Hadd.
  unfold subslice. rewrite decide_True by (split; [lia|apply lower_bound_le]). f_equal.
  rewrite skipn_firstn_comm, Hadd.
  replace (_ + _ - _)%nat with (lower_bound (drop (lower_bound l a) l) b) by lia.
  destruct (lower_bound_split l a Hs) as [_ Hd]. rewrite Hd.
  destruct (lower_bound_split (filter (N.le a) l) b) as [-> _].
  { clear -Hs. induction Hs as [|x l Hs IH Hall]; [constructor|].
    destruct (decide (a ≤ x)); [rewrite filter_cons_True by done|by rewrite filter_cons_False by done].
    constructor; [done|]. apply Forall_forall. intros y Hy%list_elem_of_filter.
    rewrite Forall_forall in Hall. apply Hall, Hy. }
  rewrite list_filter_filter. apply filter_ext_in. intros x _. tauto.
Qed.

Lemma SubTree_get_height_ok {E} h st :
  at_height h (st_root_index st) → SubTree_get_height (E:=E) st = Ok (N.of_nat h).
Proof.
  intros Hi. pose proof (at_height_index _ _ Hi). destruct Hi as (?&?&?).
  unfold SubTree_get_height. rewrite bit_length_ok by done. unfold mbind; cbn [result_bind].
  rewrite size_pos by done. unfold u8_sub, SubTreeHeight_new, ACTUAL_HEIGHT.
  rewrite decide_True by lia. cbn [result_bind]. rewrite decide_True by lia. cbn [result_bind].
  rewrite decide_False by lia. f_equal. lia.
Qed.

Lemma get_bottom_subtree_ok {E} h st p bh Ls :
  leaf_slice Ls → at_height h (st_root_index st) → path_ok p → path_length p ≤ N.of_nat h →
  st_sorted_leaf_indices st = filter (below (st_root_index st)) Ls →
  ∃ empties, get_bottom_subtree (E:=E) st p bh
    = Ok ({| st_sorted_leaf_indices := filter (below (bottom (st_root_index st) p)) Ls;
             st_root_index := bottom (st_root_index st) p; st_root_hash := bh |}, empties) ∧
    ∀ x, x ∈ empties ↔ x ∈ Ls ∧ below (st_root_index st) x ∧ ¬ below (bottom (st_root_index st) p) x.
Proof.
  intros HLs Hi Hp Hl Hst. pose proof (at_height_bottom h _ p Hi Hp Hl) as Hb.
  set (i := st_root_index st) in *. set (b := bottom i p) in *. pose proof Hi as (?&Hpos&?). pose proof Hb as (?&Hbpos&?).
  remember (h - N.to_nat (path_length p))%nat as k eqn:Hkdef. pose proof (pow2_pos (N.of_nat k)) as Hk.
  pose proof (leaf_slice_filter (below i) Ls HLs) as [Hs Hleaf].
  assert (Hib : below i b) by (by apply below_bottom).
  unfold get_bottom_subtree. fold i. rewrite bottom_index_ok by (done || lia).
  unfold mbind; cbn [result_bind]. rewrite (SubTree_get_height_ok h) by done. cbn [result_bind].
  unfold SubTreeHeight_new, ACTUAL_HEIGHT. rewrite decide_False by lia. cbn [result_bind].
  unfold u8_sub. rewrite decide_True by lia. cbn [result_bind].
  replace (N.of_nat h - path_length p) with (N.of_nat k) by lia. fold b.
  rewrite (NodeIndex_shl_ok b) by lia. cbn [result_bind].
  assert (Hb1 : 1 ≤ b * 2 ^ N.of_nat k) by nia.
  unfold NodeIndex_sub, U256_sub, ROOT. rewrite decide_True by done. cbn [result_bind].
  rewrite NodeIndex_shl_ok by (done || (change (N.log2 1) with 0; lia)). cbn [result_bind].
  assert (Hmax : (b + 1) * 2 ^ N.of_nat k ≤ 2 ^ 252).
  { assert (b < 2 ^ (252 - N.of_nat k)) by (apply N.log2_lt_pow2; lia).
    replace 252 with (252 - N.of_nat k + N.of_nat k) by lia. rewrite N.pow_add_r. nia. }
  unfold NodeIndex_add. rewrite NodeIndex_new_ok by (unfold NodeIndex_MAX; nia). cbn [result_bind].
  rewrite Hst. rewrite bisect_left_eq, bisect_right_eq by done.
  replace (N.succ (b * 2 ^ N.of_nat k - 1 + 1 * 2 ^ N.of_nat k)) with ((b + 1) * 2 ^ N.of_nat k) by nia.
  rewrite subslice_ok by (done || nia). cbn [result_bind]. eexists. split.
  - do 4 f_equal. rewrite list_filter_filter. apply filter_ext_in. intros x Hx%HLs.
    rewrite (below_interval k b) by done. split; [tauto|]. intros Hx'. split; [done|].
    eapply below_trans; [exact Hib|]. by apply (below_interval k b).
  - intros x. destruct (lower_bound_split (filter (below i) Ls) (b * 2 ^ N.of_nat k) Hs) as [-> _].
    destruct (lower_bound_split (filter (below i) Ls) ((b + 1) * 2 ^ N.of_nat k) Hs) as [_ ->].
    rewrite elem_of_app, !list_elem_of_filter. split.
    + intros Hx. assert (HxL : x ∈ Ls) by tauto. rewrite (below_interval k b) by (done || by apply HLs).
      split_and!; [done|tauto|]. destruct Hx as [[? _]|[? _]]; lia.
    + intros (HxL&Hbi&Hnb). rewrite (below_interval k b) in Hnb by (done || by apply HLs).
      destruct (N.lt_ge_cases x (b * 2 ^ N.of_nat k)); [left; tauto|right].
      split; [|done]. apply N.nlt_ge. intros Hlt. apply Hnb. done.
Qed.

Lemma get_children_subtrees_ok {E} h st lh rh Ls :
  leaf_slice Ls → at_height (S h) (st_root_index st) →
  st_sorted_leaf_indices st = filter (below (st_root_index st)) Ls →
  let i := st_root_index st in
  get_children_subtrees (E:=E) st lh rh
  = Ok ({| st_sorted_leaf_indices := filter (below (2 * i)) Ls; st_root_index := 2 * i; st_root_hash := lh |},
        {| st_sorted_leaf_indices := filter (below (2 * i + 1)) Ls; st_root_index := 2 * i + 1;
           st_root_hash := rh |}).
Proof.
  intros HLs Hi Hl i. pose proof (child_height h i true Hi) as Hli. pose proof (child_height h i false Hi) as Hri.
  cbn [first_child] in Hli, Hri. unfold get_children_subtrees. fold i. rewrite Hl, (split_leaves_ok h) by done.
  unfold mbind; cbn [result_bind]. unfold NodeIndex_mul, NodeIndex_add, ROOT.
  rewrite (N.mul_comm i), NodeIndex_new_ok by (by eapply at_height_index). cbn [result_bind].
  by rewrite NodeIndex_new_ok by (by eapply at_height_index).
Qed.

(** ** Reading the tree *)

Section fetch.
Context {L : Type} `{!Leaf L} `{!LeafLaws L} `{!TreeHashFunction L} `{!TreeHashLaws L}.
Variables (storage : gmap (list N) (list N)) (m : gmap N L) (Ls : list N).
Variables (leaf_modifications : gmap N L) (compare_modified_leaves : bool).
Hypothesis HLs : leaf_slice Ls.
Hypothesis Hcompare : compare_modified_leaves = true → ∀ x, x ∈ Ls → is_Some (leaf_modifications !! x).
Implicit Types (t : tree (L:=L)) (i j : N).

(** Every node of the tree is in the storage, under its hash. *)
Fixpoint stored t : Prop :=
  storage !! db_key (tree_node t) = Some (FilledNode_serialize (tree_node t)) ∧
  match t with
  | TLeaf l => leaf_ok l
  | TBinary l r => stored l ∧ stored r
  | TEdge _ b => stored b
  end.

Lemma stored_hash t : stored t → tree_hash t < felt_prime.
Proof. intros Hs. rewrite tree_hash_data. apply compute_node_hash_felt. destruct t; [apply Hs|done..]. Qed.

Lemma stored_data_ok h t : tree_ok h t → stored t → data_ok (tree_data t).
Proof.
  destruct t as [l|l r|p b]; cbn [stored tree_ok tree_data data_ok left_hash right_hash bottom_hash path_to_bottom].
  - intros _ [_ ?]. done.
  - intros _ (_&?&?). split; by apply stored_hash.
  - intros (?&_) (_&?). split; [by apply stored_hash|done].
Qed.

(** A subtree to read: its root is the node of the original tree at its index. *)
Record item_at (st : SubTree) (h : nat) t : Prop := {
  item_height : at_height h (st_root_index st);
  item_tree : canonical h (st_root_index st) m = Some t;
  item_hash : st_root_hash st = tree_hash t;
  item_leaves : st_sorted_leaf_indices st = filter (below (st_root_index st)) Ls;
  item_stored : stored t;
}.

Variable T : tree (L:=L).
Hypothesis HT : tree_ok 251 T.

(** Nodes of the skeleton of the subtree are nodes of the skeleton of the tree. *)
Definition visible i t : Prop := ∀ j n, in_skel Ls i t j n → in_skel Ls ROOT T j n.

Definition is_item (k : nat) (st : SubTree) : Prop :=
  ∃ h t, (h < k)%nat ∧ item_at st h t ∧ visible (st_root_index st) t ∧
    (h = 0%nat → has_mods Ls (st_root_index st) = true).

Definition item_covers (st : SubTree) j n : Prop :=
  ∃ h t, item_at st h t ∧ in_skel Ls (st_root_index st) t j n.

(** What is fetched so far is right. *)
Record sound (s : FetchState (L:=L)) : Prop := {
  sound_nodes : ∀ j n, fetched_nodes s !! j = Some n → in_skel Ls ROOT T j (to_updated n);
  sound_leaves : ∀ pl x l, previous_leaves s = Some pl → pl !! x = Some l → l = default leaf_default (m !! x);
}.

Record extends (s s' : FetchState (L:=L)) : Prop := {
  extends_nodes : ∀ j n, in_skel Ls ROOT T j (to_updated n) →
    fetched_nodes s !! j = Some n → fetched_nodes s' !! j = Some n;
  extends_Some : is_Some (previous_leaves s') ↔ is_Some (previous_leaves s);
  extends_leaves : ∀ pl pl' x, previous_leaves s = Some pl → previous_leaves s' = Some pl' →
    is_Some (pl !! x) → is_Some (pl' !! x);
}.

Definition nodes_covered (s : FetchState (L:=L)) (next : list SubTree) j n : Prop :=
  fetched_nodes s !! j = Some n ∨ ∃ st, st ∈ next ∧ item_covers st j (to_updated n).

Definition leaf_covered (s : FetchState (L:=L)) (next : list SubTree) x : Prop :=
  ∀ pl, previous_leaves s = Some pl → is_Some (pl !! x) ∨ ∃ st, st ∈ next ∧ below (st_root_index st) x.

(** The outcome of a step that reads the subtree at [i]. *)
Record step_ok (k : nat) i t (s s' : FetchState (L:=L)) (next : list SubTree) : Prop := {
  step_sound : sound s';
  step_extends : extends s s';
  step_next : Forall (is_item k) next;
  step_nodes : ∀ j n, in_skel Ls i t j (to_updated n) → nodes_covered s' next j n;
  step_leaves : ∀ x, x ∈ Ls → below i x → leaf_covered s' next x;
}.

Lemma in_skel_unique h i t j n n' :
  at_height h i → tree_ok h t → in_skel Ls i t j n → in_skel Ls i t j n' → n = n'.
Proof.
  revert h i. induction t as [l|l IHl r IHr|p b IH]; intros h i Hi Ht Hn Hn';
    pose proof (at_height_pos _ _ Hi) as Hpos.
  - cbn [in_skel] in *. naive_solver.
  - destruct h as [|h]; [done|]. destruct Ht as [Hl Hr].
    destruct (has_mods Ls i) eqn:Hm; [|cbn [in_skel] in *; rewrite Hm in *; naive_solver].
    pose proof (in_skel_below Ls (S h) i (TBinary l r) j n Hi (conj Hl Hr) Hn) as Hb.
    apply below_children in Hb as [->|[Hb|Hb]]; [..|done].
    + rewrite (in_skel_root Ls (S h)) in Hn, Hn' by done. congruence.
    + rewrite (in_skel_child Ls h i l r true) in Hn, Hn' by done.
      by eapply (IHl h), Hn'; [apply (child_height h i true)|..].
    + rewrite (in_skel_child Ls h i l r false) in Hn, Hn' by done.
      by eapply (IHr h), Hn'; [apply (child_height h i false)|..].
  - destruct (decide (j = i)) as [->|Hne].
    + rewrite (in_skel_root Ls h) in Hn, Hn' by done. congruence.
    + destruct Ht as (Hp&_&Hl&_&Hb). destruct Hn as [[-> _]|Hn]; [done|]. destruct Hn' as [[-> _]|Hn']; [done|].
      eapply IH; [by apply at_height_bottom|done|done|done].
Qed.

Lemma extends_refl s : extends s s.
Proof. split; [done|done|]. intros pl pl' x H1' H2'. congruence. Qed.

Lemma extends_trans s1 s2 s3 : extends s1 s2 → extends s2 s3 → extends s1 s3.
Proof.
  intros [Hn1 Hs1 Hl1] [Hn2 Hs2 Hl2]. split; [eauto|by rewrite Hs2|].
  intros pl pl' x Hp Hp' Hx. destruct (proj2 Hs1) as [pl2 Hpl2]; [by rewrite Hp|]. eauto.
Qed.

Lemma nodes_covered_extends s s' next next' j n :
  extends s s' → (∀ st, st ∈ next → st ∈ next') → in_skel Ls ROOT T j (to_updated n) →
  nodes_covered s next j n → nodes_covered s' next' j n.
Proof.
  intros He Hsub Hin [Hn|(st&Hst&Hc)]; [left; by eapply extends_nodes|right; eauto].
Qed.

Lemma leaf_covered_extends s s' next next' x :
  extends s s' → (∀ st, st ∈ next → st ∈ next') → leaf_covered s next x → leaf_covered s' next' x.
Proof.
  intros He Hsub Hc pl' Hpl'. destruct (proj1 (extends_Some _ _ He)) as [pl Hpl]; [by rewrite Hpl'|].
  destruct (Hc pl Hpl) as [Hx|(st&?&?)]; [left; by eapply extends_leaves|right; eauto].
Qed.

Lemma is_item_mono k k' st : (k ≤ k')%nat → is_item k st → is_item k' st.
Proof. intros Hk (h&t&?&?). exists h, t. split; [lia|done]. Qed.

(** Inserting a node of the skeleton, or previous values of leaves. *)
Lemma insert_node_ok j n s :
  sound s → in_skel Ls ROOT T j (to_updated n) →
  ∃ s', insert_node j n s = (Ok tt, s') ∧ sound s' ∧ extends s s' ∧ fetched_nodes s' !! j = Some n ∧
    previous_leaves s' = previous_leaves s.
Proof.
  intros [Hn Hl] Hin. eexists. split; [done|]. cbn [fetched_nodes previous_leaves].
  split_and!; [split|split|by rewrite lookup_insert_eq|done]; cbn [fetched_nodes previous_leaves].
  - intros j' n'. destruct (decide (j' = j)) as [->|Hne]; [rewrite lookup_insert_eq|rewrite lookup_insert_ne by done].
    + by intros [= <-].
    + apply Hn.
  - done.
  - intros j' n' Hin' Hs. destruct (decide (j' = j)) as [->|Hne]; [rewrite lookup_insert_eq|by rewrite lookup_insert_ne].
    f_equal. apply to_updated_inj. eapply (in_skel_unique 251); [apply at_height_root|done|done|done].
  - done.
  - intros pl pl' x H1' H2'. congruence.
Qed.

Lemma extend_previous_leaves_ok (leaves : gmap N L) s :
  sound s → (∀ x l, leaves !! x = Some l → l = default leaf_default (m !! x)) →
  ∃ s', extend_previous_leaves leaves s = (Ok tt, s') ∧ sound s' ∧ extends s s' ∧
    fetched_nodes s' = fetched_nodes s ∧
    ∀ pl x, previous_leaves s' = Some pl → is_Some (leaves !! x) → is_Some (pl !! x).
Proof.
  intros [Hn Hl] Hleaves. eexists. split; [done|]. cbn [fetched_nodes previous_leaves].
  split_and!; [split|split|done|]; cbn [fetched_nodes previous_leaves].
  - done.
  - intros pl x l Hpl Hx. destruct (previous_leaves s) as [pl0|] eqn:Hp; [|done]. cbn in Hpl.
    injection Hpl as <-. apply lookup_union_Some_raw in Hx as [Hx|[_ Hx]]; eauto.
  - done.
  - by rewrite fmap_is_Some.
  - intros pl pl' x Hp Hp' Hx. rewrite Hp in Hp'. cbn in Hp'. injection Hp' as <-.
    apply lookup_union_is_Some. by right.
  - intros pl x Hpl Hx. destruct (previous_leaves s); [|done]. cbn in Hpl. injection Hpl as <-.
    apply lookup_union_is_Some. by left.
Qed.

Lemma item_unmodified st h t :
  item_at st h t → is_unmodified st = negb (has_mods Ls (st_root_index st)).
Proof. intros [_ _ _ Hl _]. unfold is_unmodified, has_mods. rewrite Hl. by rewrite negb_involutive. Qed.

Lemma item_ok st h t : item_at st h t → tree_ok h t.
Proof. intros [Hh Ht _ _ _]. by eapply canonical_ok. Qed.

Lemma item_leaf st h t : item_at st h t → SubTree_is_leaf st = bool_decide (h = 0%nat).
Proof. intros [Hh _ _ _ _]. by apply is_leaf_height. Qed.

Lemma no_mods_below i x : has_mods Ls i = false → x ∈ Ls → below i x → False.
Proof. intros Hm Hx Hb. apply not_true_iff_false in Hm. apply Hm, has_mods_true. eauto. Qed.

(** A subtree that is kept for the next level. *)
Lemma step_push k st h t s :
  item_at st h t → visible (st_root_index st) t → (h < k)%nat →
  (h = 0%nat → has_mods Ls (st_root_index st) = true) → sound s →
  step_ok k (st_root_index st) t s s [st].
Proof.
  intros Hit Hvis Hk H0 Hs. split; [done|apply extends_refl|..].
  - apply Forall_singleton. exists h, t. done.
  - intros j n Hin. right. exists st. split; [by left|]. exists h, t. done.
  - intros x _ Hb pl _. right. exists st. split; [by left|done].
Qed.

Lemma handle_subtree_ok k sf st h t s :
  item_at st h t → visible (st_root_index st) t → (h < k)%nat → sound s →
  (is_Some (previous_leaves s) → sf = true) →
  ∃ next s', handle_subtree st sf s = (Ok next, s') ∧ step_ok k (st_root_index st) t s s' next.
Proof.
  intros Hit Hvis Hk Hs Hsf. unfold handle_subtree.
  rewrite (item_leaf st h t Hit), (item_unmodified st h t Hit), negb_involutive.
  destruct h as [|h].
  2:{ rewrite bool_decide_false by done. exists [st], s. split; [done|]. by eapply step_push. }
  rewrite bool_decide_true by done. cbn [negb orb].
  pose proof (item_ok _ _ _ Hit) as Htok. destruct t as [l| |]; [|done|by destruct Htok as (_&?&?&_); lia].
  destruct (has_mods Ls (st_root_index st)) eqn:Hm; rewrite ?andb_true_r, ?andb_false_r.
  - destruct sf.
    + exists [st], s. split; [done|]. by eapply step_push.
    + exists [], s. split; [done|]. split; [done|apply extends_refl|constructor|..].
      * intros j n. cbn [in_skel]. rewrite Hm. intros [_ Heq]. by destruct n.
      * intros x _ _ pl Hpl. specialize (Hsf ltac:(by rewrite Hpl)). done.
  - cbn [negb].
    destruct (insert_node_ok (st_root_index st) (Original_UnmodifiedSubTree (st_root_hash st)) s)
      as (s'&Hrun&Hs'&He&Hn&_); [done| |].
    { apply Hvis. cbn [in_skel to_updated]. rewrite Hm. by rewrite (item_hash _ _ _ Hit). }
    exists [], s'. rewrite (bind_run _ _ _ _ _ Hrun). split; [done|].
    split; [done|done|constructor|..].
    + intros j n. cbn [in_skel]. rewrite Hm. intros [-> Heq]. left. rewrite Hn. f_equal.
      apply to_updated_inj. rewrite Heq. cbn [to_updated]. by rewrite (item_hash _ _ _ Hit).
    + intros x Hx Hb. by destruct (no_mods_below _ _ Hm Hx Hb).
Qed.

(** Composition of the steps for the parts of a subtree. *)
Lemma step_seq k i t i1 t1 i2 t2 s s1 s2 next1 next2 :
  step_ok k i1 t1 s s1 next1 → step_ok k i2 t2 s1 s2 next2 → visible i t →
  (∀ j n, in_skel Ls i t j (to_updated n) → fetched_nodes s !! j = Some n ∨
     in_skel Ls i1 t1 j (to_updated n) ∨ in_skel Ls i2 t2 j (to_updated n)) →
  (∀ x, x ∈ Ls → below i x → below i1 x ∨ below i2 x) →
  step_ok k i t s s2 (next1 ++ next2).
Proof.
  intros [Hs1 He1 Hi1 Hn1 Hl1] [Hs2 He2 Hi2 Hn2 Hl2] Hvis Hcov Hleaf. split.
  - done.
  - by eapply extends_trans.
  - by apply Forall_app.
  - intros j n Hin. destruct (Hcov j n Hin) as [Hn|[Hn|Hn]].
    + left. apply (extends_nodes s s2 (extends_trans s s1 s2 He1 He2)); [by apply Hvis|done].
    + eapply nodes_covered_extends; [exact He2| |by apply Hvis|by apply Hn1]. set_solver.
    + eapply nodes_covered_extends; [apply extends_refl| |by apply Hvis|by apply Hn2]. set_solver.
  - intros x Hx Hb. destruct (Hleaf x Hx Hb) as [Hb'|Hb'].
    + eapply leaf_covered_extends; [exact He2| |by apply Hl1]. set_solver.
    + eapply leaf_covered_extends; [apply extends_refl| |by apply Hl2]. set_solver.
Qed.

Lemma step_before k i t s0 s s' next : extends s0 s → step_ok k i t s s' next → step_ok k i t s0 s' next.
Proof. intros He [Hs He' Hi Hn Hl]. split; try done. by eapply extends_trans. Qed.

Lemma log_warning_ok l s :
  (∀ x, x ∈ l → x ∈ Ls) →
  log_warning_for_empty_leaves l leaf_modifications compare_modified_leaves s = (Ok tt, s).
Proof.
  intros Hl. unfold log_warning_for_empty_leaves. destruct compare_modified_leaves; [|done].
  induction l as [|x l IH]; [done|]. cbn [mfor].
  destruct (Hcompare eq_refl x) as [v Hv]; [apply Hl; left|].
  assert (leaf_compare leaf_modifications x leaf_default = Ok (bool_decide (v = leaf_default))) as ->
    by (unfold leaf_compare; by rewrite Hv).
  mstep. apply IH. intros y Hy. apply Hl. by right.
Qed.

Lemma list_to_map_default (l : list N) x (v : L) :
  (list_to_map ((λ idx, (idx, leaf_default)) <$> l) : gmap N L) !! x = Some v ↔ x ∈ l ∧ v = leaf_default.
Proof.
  induction l as [|y l IH]; cbn [list_to_map fmap list_fmap foldr].
  - rewrite lookup_empty, elem_of_nil. naive_solver.
  - cbn. rewrite lookup_insert_Some, IH, elem_of_cons. destruct (decide (y = x)); naive_solver.
Qed.

Lemma fetch_binary_ok k sf st h a b s :
  item_at st (S h) (TBinary a b) → visible (st_root_index st) (TBinary a b) → (S h ≤ k)%nat →
  has_mods Ls (st_root_index st) = true → sound s → (is_Some (previous_leaves s) → sf = true) →
  ∃ next s',
    (insert_node (st_root_index st) Original_Binary;;
     children ← lift_result (get_children_subtrees st (tree_hash a) (tree_hash b));
     next1 ← handle_subtree children.1 sf;
     next2 ← handle_subtree children.2 sf;
     mret (next1 ++ next2)) s = (Ok next, s') ∧ step_ok k (st_root_index st) (TBinary a b) s s' next.
Proof.
  intros Hit Hvis Hk Hm Hs Hsf. pose proof (item_ok _ _ _ Hit) as [Ha Hb].
  destruct Hit as [Hi Hc _ Hl (_&Hsa&Hsb)]. set (i := st_root_index st) in *.
  rewrite canonical_S in Hc by done. apply join_binary in Hc as [Hca Hcb].
  pose proof (child_height h i true Hi) as Hli. pose proof (child_height h i false Hi) as Hri.
  cbn [first_child] in Hli, Hri.
  destruct (insert_node_ok i Original_Binary s) as (s1&Hrun1&Hs1&He1&Hn1&Hp1); [done| |].
  { apply Hvis. cbn [in_skel to_updated]. rewrite Hm. by left. }
  rewrite (bind_run _ _ _ _ _ Hrun1), (get_children_subtrees_ok h st _ _ Ls) by done. fold i. mstep. cbn [fst snd].
  set (st1 := {| st_root_index := 2 * i |}). set (st2 := {| st_root_index := 2 * i + 1 |}).
  destruct (handle_subtree_ok k sf st1 h a s1) as (next1&s2&Hrun2&Hstep1).
  { by split. } { intros j n Hin. apply Hvis. cbn [in_skel]. rewrite Hm. auto. } { lia. } { done. }
  { by rewrite Hp1. }
  rewrite (bind_run _ _ _ _ _ Hrun2).
  destruct (handle_subtree_ok k sf st2 h b s2) as (next2&s3&Hrun3&Hstep2).
  { by split. } { intros j n Hin. apply Hvis. cbn [in_skel]. rewrite Hm. auto. } { lia. }
  { apply Hstep1. } { intros Hsome. apply Hsf. rewrite <-Hp1. by apply (extends_Some _ _ (step_extends _ _ _ _ _ _ Hstep1)). }
  rewrite (bind_run _ _ _ _ _ Hrun3). exists (next1 ++ next2), s3. split; [done|].
  eapply step_before; [exact He1|]. eapply step_seq; [exact Hstep1|exact Hstep2|done|..].
  - intros j n. cbn [in_skel]. rewrite Hm. intros [[-> Heq]|Hin]; [|by right].
    left. by apply (to_updated_inj n Original_Binary) in Heq as ->.
  - intros x Hx Hb'. destruct (leaf_not_inner h i x Hi (proj2 HLs x Hx) Hb') as [[] ?]; auto.
Qed.

Lemma fetch_edge_ok k sf st h p b s :
  item_at st h (TEdge p b) → visible (st_root_index st) (TEdge p b) → (h ≤ k)%nat →
  sound s → (is_Some (previous_leaves s) → sf = true) →
  ∃ next s',
    (bottom ← lift_result (get_bottom_subtree st p (tree_hash b));
     extend_previous_leaves (list_to_map ((λ idx, (idx, leaf_default)) <$> bottom.2));;
     log_warning_for_empty_leaves bottom.2 leaf_modifications compare_modified_leaves;;
     handle_subtree bottom.1 sf) s = (Ok next, s') ∧ sound s' ∧ extends s s' ∧ Forall (is_item k) next ∧
    (∀ j n, in_skel Ls (bottom (st_root_index st) p) b j (to_updated n) → nodes_covered s' next j n) ∧
    (∀ x, x ∈ Ls → below (st_root_index st) x → leaf_covered s' next x).
Proof.
  intros Hit Hvis Hk Hs Hsf. pose proof (item_ok _ _ _ Hit) as Htok. pose proof Htok as (Hp&H1&Hlen&_&Hb).
  destruct Hit as [Hi Hc _ Hl (_&Hsb)]. set (i := st_root_index st) in *.
  destruct (get_bottom_subtree_ok (E:=OriginalSkeletonTreeError) h st p (tree_hash b) Ls)
    as (empties&->&Hemp); [done..|]. fold i in Hemp |- *. mstep. cbn [fst snd].
  set (leaves := list_to_map ((λ idx, (idx, leaf_default)) <$> empties) : gmap N L).
  assert (Hleaves : ∀ x l, leaves !! x = Some l ↔ x ∈ empties ∧ l = leaf_default).
  { intros x l. apply list_to_map_default. }
  destruct (extend_previous_leaves_ok leaves s) as (s1&Hrun1&Hs1&He1&_&Hp1); [done| |].
  { intros x l [(HxL&Hbx&Hnb)%Hemp ->]%Hleaves. destruct (m !! x) as [l'|] eqn:Hmx; [|done].
    exfalso. apply Hnb. eapply (edge_leaves h i p b m); [done|done|by apply HLs|done|by rewrite Hmx]. }
  rewrite (bind_run _ _ _ _ _ Hrun1).
  erewrite bind_run; [|apply log_warning_ok; intros x Hx; by apply Hemp in Hx as [? _]].
  destruct (handle_subtree_ok k sf {| st_sorted_leaf_indices := filter (below (bottom i p)) Ls;
    st_root_index := bottom i p; st_root_hash := tree_hash b |} (h - N.to_nat (path_length p)) b s1)
    as (next&s2&Hrun2&Hstep).
  { split; [by apply at_height_bottom|by apply canonical_edge_bottom|done|done|done]. }
  { intros j n Hin. apply Hvis. by right. } { lia. } { done. }
  { intros Hsome. apply Hsf. by apply (extends_Some _ _ He1). }
  exists next, s2. rewrite Hrun2. destruct Hstep as [Hs2 He2 Hit2 Hn2 Hl2].
  split_and!; [done|done|by eapply extends_trans|done|done|].
  intros x Hx Hbx. destruct (decide (below (bottom i p) x)) as [Hbb|Hbb]; [by apply Hl2|].
  eapply leaf_covered_extends; [exact He2| |].
  { intros st' Hst'. exact Hst'. }
  intros pl Hpl. left. apply (Hp1 pl x Hpl). exists leaf_default. apply Hleaves. split; [|done].
  by apply Hemp.
Qed.

Lemma fetch_subtree_ok k sf st h t s :
  item_at st h t → visible (st_root_index st) t → (h ≤ k)%nat →
  (h = 0%nat → has_mods Ls (st_root_index st) = true) → sound s → (is_Some (previous_leaves s) → sf = true) →
  ∃ next s', fetch_subtree leaf_modifications compare_modified_leaves sf (tree_node t) st s = (Ok next, s') ∧
    step_ok k (st_root_index st) t s s' next.
Proof.
  intros Hit Hvis Hk H0 Hs Hsf. pose proof (item_ok _ _ _ Hit) as Htok.
  pose proof (item_unmodified _ _ _ Hit) as Hum. pose proof (item_height _ _ _ Hit) as Hi.
  unfold fetch_subtree. rewrite Hum. set (i := st_root_index st) in *.
  destruct t as [l|a b|p b]; cbn [tree_node data tree_data left_hash right_hash bottom_hash path_to_bottom].
  - cbn [tree_ok] in Htok. subst h. rewrite (H0 eq_refl). cbn [negb].
    pose proof (item_tree _ _ _ Hit) as Hc. fold i in Hc. rewrite canonical_0 in Hc.
    destruct (m !! i) as [l'|] eqn:Hmi; [|done]. injection Hc as ->.
    assert (Hcmp : (if compare_modified_leaves then
        lift_result (leaf_compare leaf_modifications i l);; mret tt else mret tt) s = (Ok tt, s)).
    { destruct compare_modified_leaves eqn:Hcm; [|done].
      specialize (H0 eq_refl). apply has_mods_true in H0 as (x&Hx&Hb).
      pose proof (below_leaf_eq i x Hi (proj2 HLs x Hx) Hb). subst x.
      destruct (Hcompare eq_refl i Hx) as [v Hv]. unfold leaf_compare. by rewrite Hv. }
    rewrite (bind_run _ _ _ _ _ Hcmp).
    destruct (extend_previous_leaves_ok {[i := l]} s) as (s1&Hrun&Hs1&He1&_&Hp1); [done| |].
    { intros x l' [<- <-]%lookup_singleton_Some. by rewrite Hmi. }
    rewrite (bind_run _ _ _ _ _ Hrun). exists [], s1. split; [done|]. split; [done|done|constructor|..].
    + intros j n. cbn [in_skel]. rewrite (H0 eq_refl). intros [_ Heq]. by destruct n.
    + intros x Hx Hb pl Hpl. left. apply (Hp1 pl x Hpl).
      rewrite (below_leaf_eq i x Hi (proj2 HLs x Hx) Hb), lookup_singleton_eq. eauto.
  - destruct h as [|h]; [done|]. destruct (has_mods Ls i) eqn:Hm; cbn [negb].
    { by eapply fetch_binary_ok. }
    destruct (insert_node_ok i (Original_UnmodifiedSubTree (tree_hash (TBinary a b))) s)
      as (s1&Hrun&Hs1&He1&Hn1&_); [done| |].
    { apply Hvis. cbn [in_skel to_updated]. by rewrite Hm. }
    exists [], s1. rewrite (bind_run _ _ _ _ _ Hrun). split; [done|]. split; [done|done|constructor|..].
    + intros j n. cbn [in_skel]. rewrite Hm. intros [-> Heq]. left. rewrite Hn1. f_equal.
      by apply to_updated_inj.
    + intros x Hx Hb. by destruct (no_mods_below _ _ Hm Hx Hb).
  - destruct (insert_node_ok i (Original_Edge p) s) as (s1&Hrun1&Hs1&He1&Hn1&Hp1); [done| |].
    { apply Hvis. by left. }
    rewrite (bind_run _ _ _ _ _ Hrun1). pose proof Htok as (Hp&H1&Hlen&Hbe&Hbok).
    pose proof Hi as (?&?&?). destruct (has_mods Ls i) eqn:Hm; cbn [negb].
    + destruct (fetch_edge_ok k sf st h p b s1) as (next&s2&Hrun2&Hs2&He2&Hit2&Hn2&Hl2);
        [done|done|done|done|by rewrite Hp1|].
      exists next, s2. rewrite Hrun2. split; [done|].
      split; [done|by eapply extends_trans|done| |done].
      intros j n [[-> Heq]|Hin]; [|by apply Hn2]. left. apply (extends_nodes _ _ He2).
      * apply Hvis. left. done.
      * rewrite Hn1. f_equal. by apply to_updated_inj.
    + rewrite bottom_index_ok by (done || lia). mstep.
      assert (Hmb : has_mods Ls (bottom i p) = false).
      { apply not_true_iff_false. intros Htrue. apply not_true_iff_false in Hm. apply Hm.
        eapply has_mods_below; [|done]. by apply below_bottom. }
      assert (Hinb : ∀ j n, in_skel Ls (bottom i p) b j n ↔ j = bottom i p ∧ n = Updated_UnmodifiedSubTree (tree_hash b)).
      { intros j n. destruct b; [| |done]; cbn [in_skel]; by rewrite Hmb. }
      destruct (insert_node_ok (bottom i p) (Original_UnmodifiedSubTree (tree_hash b)) s1)
        as (s2&Hrun2&Hs2&He2&Hn2&_); [done| |].
      { apply Hvis. right. by apply Hinb. }
      rewrite (bind_run _ _ _ _ _ Hrun2). exists [], s2. split; [done|].
      split; [done|by eapply extends_trans|constructor|..].
      * intros j n [[-> Heq]|Hin]; left.
        -- apply (extends_nodes _ _ He2); [apply Hvis; by left|]. rewrite Hn1. f_equal. by apply to_updated_inj.
        -- apply Hinb in Hin as [-> Heq]. rewrite Hn2. f_equal. by apply to_updated_inj.
      * intros x Hx Hb. by destruct (no_mods_below _ _ Hm Hx Hb).
Qed.

Definition root_of (root : FilledNode L) (st : SubTree) : Prop :=
  ∃ h t, item_at st h t ∧ root = tree_node t.

Lemma item_at_unique st h t h' t' : item_at st h t → item_at st h' t' → h = h' ∧ t = t'.
Proof.
  intros Ha Hb. pose proof (item_height _ _ _ Ha) as (_&?&?). pose proof (item_height _ _ _ Hb) as (_&?&?).
  assert (h = h') as <- by lia. split; [done|].
  pose proof (item_tree _ _ _ Ha). pose proof (item_tree _ _ _ Hb). congruence.
Qed.

Lemma fetch_level_ok k sf roots sts s :
  Forall (is_item (S k)) sts → Forall2 root_of roots sts → sound s → (is_Some (previous_leaves s) → sf = true) →
  ∃ next s', fetch_level leaf_modifications compare_modified_leaves sf roots sts s = (Ok next, s') ∧
    sound s' ∧ extends s s' ∧ Forall (is_item k) next ∧
    (∀ st j n, st ∈ sts → item_covers st j (to_updated n) → nodes_covered s' next j n) ∧
    (∀ st x, st ∈ sts → x ∈ Ls → below (st_root_index st) x → leaf_covered s' next x).
Proof.
  intros Hitems Hroots. revert s. induction Hroots as [|root st roots sts Hroot Hroots IH]; intros s Hs Hsf.
  { exists [], s. cbn [fetch_level]. split_and!; [done|done|apply extends_refl|constructor|..]; intros; set_solver. }
  apply Forall_cons in Hitems as [(h&t&Hh&Hit&Hvis&H0) Hitems]. cbn [fetch_level].
  destruct Hroot as (h'&t'&Hit'&->). destruct (item_at_unique _ _ _ _ _ Hit Hit') as [<- <-].
  destruct (fetch_subtree_ok k sf st h t s) as (next1&s1&Hrun1&Hstep); [done|done|lia|done|done|done|].
  rewrite (bind_run _ _ _ _ _ Hrun1). destruct Hstep as [Hs1 He1 Hi1 Hn1 Hl1].
  destruct (IH Hitems s1) as (next2&s2&Hrun2&Hs2&He2&Hi2&Hn2&Hl2); [done| |].
  { intros Hsome. apply Hsf. by apply (extends_Some _ _ He1). }
  rewrite (bind_run _ _ _ _ _ Hrun2). exists (next1 ++ next2), s2.
  split_and!; [done|done|by eapply extends_trans|by apply Forall_app|..].
  - intros st' j n Hst' Hcov. apply elem_of_cons in Hst' as [->|Hst'].
    + destruct Hcov as (h2&t2&Hit2&Hin). destruct (item_at_unique _ _ _ _ _ Hit Hit2) as [<- <-].
      eapply nodes_covered_extends; [exact He2| |by apply Hvis|by apply Hn1]. set_solver.
    + destruct (Hn2 st' j n Hst' Hcov) as [?|(st2&?&?)]; [by left|right; exists st2; set_solver].
  - intros st' x Hst' Hx Hb. apply elem_of_cons in Hst' as [->|Hst'].
    + eapply leaf_covered_extends; [exact He2| |by apply Hl1]. set_solver.
    + eapply leaf_covered_extends; [apply extends_refl| |by eapply Hl2]. set_solver.
Qed.

Lemma read_roots_ok k sts :
  Forall (is_item k) sts →
  ∃ roots, calculate_subtrees_roots sts storage = Ok roots ∧ Forall2 root_of roots sts.
Proof.
  unfold calculate_subtrees_roots, storage_mget, storage_get. induction 1 as [|st sts (h&t&_&Hit&_) Hitems IH].
  { exists []. split; [done|constructor]. }
  destruct IH as (roots&Hrun&Hall). exists (tree_node t :: roots). split; [|constructor; [by exists h, t|done]].
  cbn [fmap list_fmap zip zip_with read_roots].
  pose proof (item_ok _ _ _ Hit) as Htok. pose proof (item_leaf _ _ _ Hit) as Hlf.
  assert (Hleaf : SubTree_is_leaf st = data_is_leaf (tree_data t)).
  { rewrite Hlf. destruct t; cbn [tree_data data_is_leaf tree_ok] in *.
    - by rewrite bool_decide_true.
    - destruct h; [done|]. by rewrite bool_decide_false.
    - destruct Htok as (_&?&?&_). rewrite bool_decide_false; [done|lia]. }
  assert (Hkey : subtree_key st = db_key (tree_node t)).
  { unfold subtree_key, db_key, suffix, FilledNode_get_prefix. rewrite Hleaf, (item_hash _ _ _ Hit).
    cbn [tree_node data hash]. destruct t; cbn [tree_data data_is_leaf]; [|done..]. by rewrite leaf_prefix_eq. }
  assert (Hst : storage !! subtree_key st = Some (FilledNode_serialize (tree_node t))).
  { rewrite Hkey. pose proof (item_stored _ _ _ Hit) as Hstored. destruct t; apply Hstored. }
  rewrite Hst. unfold mbind; cbn [result_bind]. rewrite Hleaf, (item_hash _ _ _ Hit).
  assert (FilledNode_deserialize (tree_hash t) (FilledNode_serialize (tree_node t)) (data_is_leaf (tree_data t))
          = Ok (tree_node t)) as ->.
  { apply (deserialize_serialize (tree_node t)). eapply stored_data_ok; [done|apply (item_stored _ _ _ Hit)]. }
  cbn [map_err result_bind]. by rewrite Hrun.
Qed.

Lemma fetch_nodes_ok fuel sts s :
  Forall (is_item fuel) sts → sound s →
  ∃ s', fetch_nodes fuel sts storage leaf_modifications compare_modified_leaves s = (Ok tt, s') ∧
    sound s' ∧ extends s s' ∧
    (∀ st j n, st ∈ sts → item_covers st j (to_updated n) → fetched_nodes s' !! j = Some n) ∧
    (∀ st x pl, st ∈ sts → x ∈ Ls → below (st_root_index st) x → previous_leaves s' = Some pl → is_Some (pl !! x)).
Proof.
  revert sts s. induction fuel as [|fuel IH]; intros sts s Hitems Hs.
  { destruct sts as [|st sts]; [|by apply Forall_cons in Hitems as [(?&?&?&_) _]; lia].
    exists s. split_and!; [done|done|apply extends_refl|..]; intros; set_solver. }
  destruct sts as [|st sts].
  { exists s. split_and!; [done|done|apply extends_refl|..]; intros; set_solver. }
  set (l := st :: sts) in *. change (fetch_nodes (S fuel) l storage leaf_modifications compare_modified_leaves s)
    with ((s ← get_st;
          let should_fetch_modified_leaves :=
            compare_modified_leaves || bool_decide (is_Some (previous_leaves s)) in
          filled_roots ← lift_result (calculate_subtrees_roots l storage);
          next_subtrees ← fetch_level leaf_modifications compare_modified_leaves should_fetch_modified_leaves
                            filled_roots l;
          fetch_nodes fuel next_subtrees storage leaf_modifications compare_modified_leaves) s).
  mstep. destruct (read_roots_ok (S fuel) l Hitems) as (roots&->&Hroots). mstep.
  destruct (fetch_level_ok fuel (compare_modified_leaves || bool_decide (is_Some (previous_leaves s))) roots l s)
    as (next&s1&Hrun1&Hs1&He1&Hi1&Hn1&Hl1); [done|done|done| |].
  { intros Hsome. rewrite bool_decide_true by done. by rewrite orb_true_r. }
  rewrite (bind_run _ _ _ _ _ Hrun1). destruct (IH next s1 Hi1 Hs1) as (s2&Hrun2&Hs2&He2&Hn2&Hl2).
  exists s2. rewrite Hrun2. split_and!; [done|done|by eapply extends_trans|..].
  - intros st' j n Hst' Hcov. destruct (Hn1 st' j n Hst' Hcov) as [Hn|(st2&Hst2&Hc2)]; [|by eapply Hn2].
    apply (extends_nodes _ _ He2); [|done]. by apply (sound_nodes _ Hs1).
  - intros st' x pl Hst' Hx Hb Hpl. destruct (proj1 (extends_Some _ _ He2)) as [pl1 Hpl1]; [by rewrite Hpl|].
    destruct (Hl1 st' x Hst' Hx Hb pl1 Hpl1) as [?|(st2&Hst2&Hb2)]; [by eapply extends_leaves|by eapply Hl2].
Qed.
End fetch.

(** ** The original skeleton *)

Section create.
Context {L : Type} `{!Leaf L} `{!LeafLaws L} `{!TreeHashFunction L} `{!TreeHashLaws L}.
Variables (storage : gmap (list N) (list N)) (m : gmap N L) (Ls : list N).
Variables (leaf_modifications : gmap N L) (compare_modified_leaves : bool).
Hypothesis HLs : leaf_slice Ls.
Hypothesis HLs_ne : Ls ≠ [].
Hypothesis Hcompare : compare_modified_leaves = true → ∀ x, x ∈ Ls → is_Some (leaf_modifications !! x).

(** The storage holds the reference tree of the leaves, whose hash is not that of the empty tree. *)
Definition tree_stored : Prop :=
  ∀ t, canonical 251 ROOT m = Some t → stored storage t ∧ tree_hash t ≠ ROOT_OF_EMPTY_TREE.

Lemma fetch_root_ok t pl0 :
  canonical 251 ROOT m = Some t → stored storage t → pl0 = None ∨ pl0 = Some ∅ →
  ∃ s', fetch_nodes tree_fuel
      [{| st_sorted_leaf_indices := Ls; st_root_index := ROOT; st_root_hash := tree_hash t |}]
      storage leaf_modifications compare_modified_leaves {| fetched_nodes := ∅; previous_leaves := pl0 |} = (Ok tt, s') ∧
    is_original_skeleton m Ls (fetched_nodes s') ∧
    (is_Some pl0 → ∃ pl, previous_leaves s' = Some pl ∧ ∀ x, x ∈ Ls → pl !! x = Some (default leaf_default (m !! x))).
Proof.
  intros Hc Hst Hpl0. pose proof at_height_root as Hroot. pose proof (canonical_ok _ _ _ _ Hroot Hc) as Htok.
  set (st := {| st_sorted_leaf_indices := Ls; st_root_index := ROOT; st_root_hash := tree_hash t |}).
  assert (Hitem : item_at storage m Ls st 251 t).
  { split; [done|done|done| |done]. cbn [st st_sorted_leaf_indices st_root_index]. by rewrite filter_root. }
  destruct (fetch_nodes_ok storage m Ls leaf_modifications compare_modified_leaves HLs Hcompare t Htok tree_fuel [st]
    {| fetched_nodes := ∅; previous_leaves := pl0 |}) as (s'&Hrun&Hs&He&Hn&Hl).
  { apply Forall_singleton. exists 251%nat, t. split_and!; [unfold tree_fuel; lia|done|by intros j n|done]. }
  { split; cbn [fetched_nodes previous_leaves].
    - intros j n. by rewrite lookup_empty.
    - intros pl x l Hpl Hx. destruct Hpl0 as [->| ->]; by simplify_eq. }
  exists s'. split_and!; [done|..].
  - intros j n. rewrite Hc. split.
    + intros Hj. exists t. split; [done|]. by apply (sound_nodes _ _ _ _ Hs).
    + intros (t0&[= <-]&Hin). apply (Hn st); [by left|]. by exists 251%nat, t.
  - intros Hsome. destruct (proj2 (extends_Some _ _ _ _ He) Hsome) as [pl Hpl]. exists pl. split; [done|].
    intros x Hx. destruct (Hl st x pl) as [l Hlx]; [by left|done| |done|].
    { apply below_root. apply HLs in Hx. by eapply at_height_pos. }
    rewrite Hlx. f_equal. by apply (sound_leaves _ _ _ _ Hs pl x l).
Qed.

Lemma create_impl_ok :
  tree_stored →
  ∃ original, create_impl storage (root_hash_of (canonical 251 ROOT m)) Ls compare_modified_leaves leaf_modifications
      = Ok original ∧
    sorted_leaf_indices original = Ls ∧ is_original_skeleton m Ls (nodes original).
Proof.
  intros Hst. unfold create_impl. destruct (slice_is_empty Ls) eqn:Hemp; [by destruct Ls|].
  destruct (canonical 251 ROOT m) as [t|] eqn:Hc; cbn [root_hash_of].
  - destruct (Hst t Hc) as [Hstored Hne]. rewrite decide_False by done.
    destruct (fetch_root_ok t None Hc Hstored) as (s'&->&Hn&_); [by left|].
    eexists. split; [done|]. done.
  - rewrite decide_True by done.
    rewrite (log_warning_ok Ls leaf_modifications compare_modified_leaves Hcompare) by done.
    eexists. split; [done|]. split; [done|]. intros j n. cbn. rewrite lookup_empty, Hc. split; [done|].
    by intros (?&?&_).
Qed.

Lemma create_and_get_previous_leaves_ok :
  tree_stored →
  ∃ original leaves,
    create_and_get_previous_leaves_impl storage (root_hash_of (canonical 251 ROOT m)) Ls leaf_modifications
      compare_modified_leaves = Ok (original, leaves) ∧
    sorted_leaf_indices original = Ls ∧ is_original_skeleton m Ls (nodes original) ∧
    ∀ x, x ∈ Ls → leaves !! x = Some (default leaf_default (m !! x)).
Proof.
  intros Hst. unfold create_and_get_previous_leaves_impl. destruct (slice_is_empty Ls) eqn:Hemp; [by destruct Ls|].
  destruct (canonical 251 ROOT m) as [t|] eqn:Hc; cbn [root_hash_of].
  - destruct (Hst t Hc) as [Hstored Hne]. rewrite decide_False by done.
    destruct (fetch_root_ok t (Some ∅) Hc Hstored) as (s'&->&Hn&Hl); [by right|].
    destruct Hl as (pl&->&Hpl); [done|]. eexists _, pl. split; [done|]. done.
  - rewrite decide_True by done. eexists _, _. split; [done|]. split_and!; [done|..].
    + intros j n. cbn. rewrite lookup_empty, Hc. split; [done|]. by intros (?&?&_).
    + intros x Hx. apply list_to_map_default. split; [done|].
      rewrite canonical_None in Hc by apply at_height_root. rewrite Hc; [done|by apply HLs|].
      apply below_root. apply HLs in Hx. by eapply at_height_pos.
Qed.
End create.
