(* ===== verification/PatriciaStorage.v ===== *)
(** Trees in storage while filled nodes are written to it.

    A node is stored under a key made of its hash, so that what the storage holds is
    determined by the nodes as long as no two of them with different data have the same key.
    The lemmas take this as a relation [good] between keys and values that holds of all the
    nodes involved and that gives a key one value at most. *)
From S2P Require Import Prelude.
From S2P Require Import PatriciaTypes.
From S2P Require Import PatriciaTree.
From S2P Require Import PatriciaNode.
From S2P Require Import PatriciaSkeleton.
From S2P Require Import PatriciaUpdate.
From S2P Require Import PatriciaFilled.
From S2P Require Import PatriciaOriginal.

Section nodes.
Context {L : Type} `{!Leaf L} `{!LeafLaws L} `{!TreeHashFunction L} `{!TreeHashLaws L}.
Implicit Types (m : gmap N L) (storage : gmap (list N) (list N)).

Fixpoint tree_nodes (t : tree (L:=L)) : list (FilledNode L) :=
  tree_node t ::
  match t with
  | TLeaf _ => []
  | TBinary l r => tree_nodes l ++ tree_nodes r
  | TEdge _ b => tree_nodes b
  end.

Definition opt_nodes (t : option (tree (L:=L))) : list (FilledNode L) :=
  match t with Some t => tree_nodes t | None => [] end.

Lemma in_filled_nodes Ls i t j fn : in_filled Ls i t j fn → fn ∈ tree_nodes t.
Proof.
  revert i. induction t as [l|l IHl r IHr|p b IH]; intros i; cbn [in_filled tree_nodes].
  - intros (_&_&->). left.
  - intros [_ [[_ ->]|[Hin|Hin]]]; [left|right..]; apply elem_of_app; eauto.
  - intros [[_ ->]|Hin]; [left|right]. eauto.
Qed.

Lemma serialize_pairs `{HashOrder} (ft : FilledTreeImpl L) k v :
  (k, v) ∈ reverse ((λ kv, (db_key kv.2, FilledNode_serialize kv.2)) <$> hash_iter (tree_map ft)) ↔
  ∃ j fn, tree_map ft !! j = Some fn ∧ k = db_key fn ∧ v = FilledNode_serialize fn.
Proof.
  rewrite elem_of_reverse, list_elem_of_fmap. split.
  - intros ([j fn]&[= -> ->]&Hin). apply elem_of_hash_iter in Hin. eauto.
  - intros (j&fn&Hj&->&->). exists (j, fn). split; [done|]. by apply elem_of_hash_iter.
Qed.

Lemma serialize_lookup_inv `{HashOrder} (ft : FilledTreeImpl L) k v :
  FilledTree_serialize ft !! k = Some v →
  ∃ j fn, tree_map ft !! j = Some fn ∧ k = db_key fn ∧ v = FilledNode_serialize fn.
Proof. intros Hk%elem_of_list_to_map_2. by apply serialize_pairs. Qed.

Lemma serialize_is_Some `{HashOrder} (ft : FilledTreeImpl L) j fn :
  tree_map ft !! j = Some fn → is_Some (FilledTree_serialize ft !! db_key fn).
Proof.
  intros Hj. apply not_eq_None_Some. intros Hnone%not_elem_of_list_to_map. apply Hnone.
  apply list_elem_of_fmap. exists (db_key fn, FilledNode_serialize fn). split; [done|].
  apply serialize_pairs. eauto.
Qed.

Lemma tree_has_leaf i (t : tree (L:=L)) : ∃ x l, tree_leaf i t x l.
Proof.
  revert i. induction t as [l|a IHa b IHb|p b IH]; intros i; cbn [tree_leaf].
  - by exists i, l.
  - destruct (IHa (2 * i)) as (x&l&?). eauto.
  - apply IH.
Qed.

Lemma at_height_unique h h' i : at_height h i → at_height h' i → h = h'.
Proof. intros (_&_&?) (_&_&?). lia. Qed.

(** A node that is not inside an edge is at the bottom of the edge or below it. *)
Lemma below_edge_bottom h i p b m h' j u :
  at_height h i → canonical h i m = Some (TEdge p b) →
  at_height h' j → below i j → j ≠ i → canonical h' j m = Some u → is_edge u = false → below (bottom i p) j.
Proof.
  intros Hi Hc Hj Hij Hne Hu He. pose proof (canonical_ok _ _ _ _ Hi Hc) as (Hp&H1&Hlen&Hbe&_).
  pose proof (at_height_pos _ _ Hi) as Hpos.
  destruct (tree_has_leaf j u) as (x&l&Hx). apply (canonical_leaves h' j m u) in Hx as (Hmx&Hx&Hjx); [|done..].
  assert (Hbx : below (bottom i p) x).
  { eapply (edge_leaves h i p b m); [done|done|done|by eapply below_trans|by rewrite Hmx]. }
  destruct (N.le_gt_cases (N.log2 (bottom i p)) (N.log2 j)) as [Hle|Hgt]; [by eapply below_chain|].
  exfalso. assert (Hjb : below j (bottom i p)) by (eapply below_chain; [done|done|lia]).
  pose proof Hi as (?&_&?).
  destruct (path_split i j p) as (p1&p2&->&Hp1&Hp2&->); [done|done|done|lia|].
  pose proof (canonical_edge_down h i p1 p2 b m Hi Hp1 Hp2 Hc) as Hd.
  cbn [path_concat path_length] in Hlen.
  rewrite (at_height_unique h' (h - N.to_nat (path_length p1)) (bottom i p1)) in Hu
    by (done || (apply at_height_bottom; [done|done|lia])).
  rewrite Hd, lift_to_edge in Hu by done. injection Hu as <-.
  destruct (decide (path_length p2 = 0)) as [Hp0|]; [|done].
  rewrite path_concat_nil_r in Hgt by done. lia.
Qed.

(** The subtrees of a stored tree are stored. *)
Lemma stored_sub storage m h i t h' j u :
  at_height h i → canonical h i m = Some t → stored storage t →
  at_height h' j → below i j → canonical h' j m = Some u → is_edge u = false →
  stored storage u ∧ tree_nodes u ⊆ tree_nodes t.
Proof.
  revert h i. induction t as [l|a IHa b IHb|p b IH]; intros h i Hi Hc Hst Hj Hij Hu He;
    pose proof (canonical_ok _ _ _ _ Hi Hc) as Htok; pose proof (at_height_pos _ _ Hi) as Hpos;
    (destruct (decide (j = i)) as [->|Hne];
     [rewrite (at_height_unique h' h i Hj Hi), Hc in Hu; by injection Hu as <-|]).
  - cbn [tree_ok] in Htok. subst h. exfalso. apply Hne. pose proof (below_log2 _ _ Hij).
    destruct Hi as (_&?&?), Hj as (_&?&?). symmetry.
    apply (below_same_depth _ _ j); [done|by apply below_refl|lia].
  - destruct h as [|h]; [done|]. rewrite canonical_S in Hc by done. apply join_binary in Hc as [Hca Hcb].
    destruct Hst as (_&Hsa&Hsb). apply below_children in Hij as [->|[Hij|Hij]]; [done|..|done].
    + destruct (IHa h (2 * i)) as [? Hsub]; [by apply (child_height h i true)|done..|].
      split; [done|]. cbn [tree_nodes]. set_solver.
    + destruct (IHb h (2 * i + 1)) as [? Hsub]; [by apply (child_height h i false)|done..|].
      split; [done|]. cbn [tree_nodes]. set_solver.
  - pose proof Htok as (Hp&_&Hlen&_&_). destruct Hst as (_&Hsb).
    pose proof (below_edge_bottom h i p b m h' j u Hi Hc Hj Hij Hne Hu He) as Hbj.
    destruct (IH (h - N.to_nat (path_length p))%nat (bottom i p)) as [? Hsub];
      [by apply at_height_bottom|by apply canonical_edge_bottom|done..|].
    split; [done|]. cbn [tree_nodes]. set_solver.
Qed.

(** The edges above it included, a subtree of a stored tree that is not an edge is stored. *)
Lemma stored_subtree storage m h j u :
  tree_stored storage m → at_height h j → canonical h j m = Some u → is_edge u = false →
  stored storage u ∧ tree_nodes u ⊆ opt_nodes (canonical 251 ROOT m).
Proof.
  intros Hst Hj Hu He. assert (Hb : below ROOT j) by (apply below_root; by eapply at_height_pos).
  destruct (canonical 251 ROOT m) as [t0|] eqn:Hc0.
  - destruct (Hst t0 Hc0) as [Hs0 _].
    destruct (stored_sub storage m 251 ROOT t0 h j u at_height_root Hc0 Hs0 Hj) as [? Hsub]; by eauto.
  - exfalso. by rewrite (canonical_None_below m 251 h ROOT j at_height_root Hj Hb Hc0) in Hu.
Qed.
End nodes.

Section write.
Context {L : Type} `{!Leaf L} `{!LeafLaws L} `{!TreeHashFunction L} `{!TreeHashLaws L}.
Implicit Types (m : gmap N L).
Variable good : list N → list N → Prop.
Hypothesis good_unique : ∀ k v v', good k v → good k v' → v = v'.
Variables (storage writes : gmap (list N) (list N)).
Hypothesis writes_good : ∀ k v, writes !! k = Some v → good k v.

Definition node_good (n : FilledNode L) : Prop := good (db_key n) (FilledNode_serialize n).

Lemma written_lookup n :
  node_good n → is_Some (writes !! db_key n) → storage_mset storage writes !! db_key n = Some (FilledNode_serialize n).
Proof.
  intros Hn [v Hv]. unfold storage_mset. apply lookup_union_Some_raw. left. rewrite Hv. f_equal.
  eapply good_unique; [by apply writes_good|done].
Qed.

Lemma kept_lookup n :
  node_good n → storage !! db_key n = Some (FilledNode_serialize n) →
  storage_mset storage writes !! db_key n = Some (FilledNode_serialize n).
Proof.
  intros Hn Hs. destruct (writes !! db_key n) as [v|] eqn:Hv; [apply written_lookup; by eauto|].
  unfold storage_mset. apply lookup_union_Some_raw. by right.
Qed.

(** A tree that was stored stays stored. *)
Lemma stored_write t :
  (∀ n, n ∈ tree_nodes t → node_good n) → stored storage t → stored (storage_mset storage writes) t.
Proof.
  induction t as [lf|a IHa b IHb|p b IH]; cbn [tree_nodes stored]; intros Hsub [Hroot Hrest];
    (split; [apply kept_lookup; [apply Hsub; left|done]|]).
  - done.
  - destruct Hrest. split; [apply IHa|apply IHb]; set_solver.
  - apply IH; set_solver.
Qed.

(** The nodes of the new tree are the filled ones, which are written, and those of the old
    tree. *)
Variables (m m' : gmap N L) (Ls : list N) (tm : gmap N (FilledNode L)).
Hypothesis HLs : leaf_slice Ls.
Hypothesis Hsame : ∀ x, at_height 0 x → x ∉ Ls → m' !! x = m !! x.
Hypothesis Hleaf : ∀ x l, x ∈ Ls → m' !! x = Some l → leaf_ok l.
Hypothesis Hold : tree_stored storage m.
Hypothesis old_good : ∀ n, n ∈ opt_nodes (canonical 251 ROOT m) → node_good n.
Hypothesis Hwritten : ∀ j fn, tm !! j = Some fn → is_Some (writes !! db_key fn).

Lemma unmodified_stored h i t :
  at_height h i → canonical h i m' = Some t → is_edge t = false → has_mods Ls i = false →
  stored (storage_mset storage writes) t.
Proof.
  intros Hi Hc He Hmods. rewrite (canonical_unmod m m' Ls Hsame h i Hi Hmods) in Hc.
  destruct (stored_subtree storage m h i t Hold Hi Hc He) as [Hst Hsub]. apply stored_write; [|done]. auto.
Qed.

Lemma new_leaf_ok i l : at_height 0 i → canonical 0 i m' = Some (TLeaf l) → has_mods Ls i = true → leaf_ok l.
Proof.
  intros Hi Hc (x&Hx&Hb)%has_mods_true. rewrite canonical_0 in Hc.
  destruct (m' !! i) as [l'|] eqn:Hl'; [|done]. injection Hc as ->.
  pose proof (below_leaf_eq i x Hi (proj2 HLs x Hx) Hb). subst x. by eapply Hleaf.
Qed.

Lemma stored_filled h i t :
  at_height h i → canonical h i m' = Some t → (∀ n, n ∈ tree_nodes t → node_good n) →
  (∀ j fn, in_filled Ls i t j fn → tm !! j = Some fn) →
  stored (storage_mset storage writes) t.
Proof.
  revert h i. induction t as [lf|a IHa b IHb|p b IH]; intros h i Hi Hc Hgood Hfill;
    pose proof (canonical_ok _ _ _ _ Hi Hc) as Htok; pose proof (at_height_pos _ _ Hi) as Hpos;
    (assert (Hroot : in_filled Ls i _ i (tree_node _) → storage_mset storage writes !! db_key (tree_node _) = _)
       by (intros Hin; apply written_lookup; [apply Hgood; left|by eapply Hwritten, Hfill])).
  - destruct (has_mods Ls i) eqn:Hmi; [|by eapply unmodified_stored]. split; [by apply Hroot|].
    cbn [tree_ok] in Htok. subst h. by apply (new_leaf_ok i).
  - destruct (has_mods Ls i) eqn:Hmi; [|by eapply unmodified_stored]. cbn [stored].
    split; [apply Hroot; cbn [in_filled]; by auto|].
    destruct h as [|h]; [done|]. rewrite canonical_S in Hc by done. apply join_binary in Hc as [Hca Hcb].
    cbn [tree_nodes] in Hgood. split.
    + apply (IHa h (2 * i)); [by apply (child_height h i true)|done|set_solver|]. intros j fn Hin. apply Hfill. cbn [in_filled]. auto.
    + apply (IHb h (2 * i + 1)); [by apply (child_height h i false)|done|set_solver|]. intros j fn Hin. apply Hfill. cbn [in_filled]. auto.
  - destruct Htok as (Hp&_&Hlen&_&_). cbn [stored]. split; [apply Hroot; cbn [in_filled]; by auto|].
    cbn [tree_nodes] in Hgood.
    apply (IH (h - N.to_nat (path_length p))%nat (bottom i p)); [by apply at_height_bottom|by apply canonical_edge_bottom|set_solver|].
    intros j fn Hin. apply Hfill. by right.
Qed.
End write.
