(* ===== verification/PatriciaFlow.v ===== *)
(** An update of a tree in storage, from end to end
    ([tree_computation_flow] of crates/starknet_patricia/src/patricia_merkle_tree/external_test_utils.rs).

    The flow reads the original skeleton, computes the updated one and fills it. Each step is
    proved for one tree with the leaves [m] and the modifications [lm], in the way the flow and
    the committer compose them: the new root hash is that of [canonical] for the updated
    leaves, and once the filled nodes are written the storage holds that tree. A step of a
    tree without modifications only passes its root hash on. *)
From S2P Require Import Prelude.
From S2P Require Import StarknetApi.
From S2P Require Import PatriciaTypes.
From S2P Require Import PatriciaTree.
From S2P Require Import PatriciaNode.
From S2P Require Import PatriciaSkeleton.
From S2P Require Import PatriciaUpdate.
From S2P Require Import PatriciaFilled.
From S2P Require Import PatriciaOriginal.
From S2P Require Import PatriciaStorage.

Section flow.
Context {L : Type} `{!Leaf L} `{!TreeHashFunction L}.

Definition skeleton_modifications (leaf_modifications : gmap N L) : gmap N SkeletonLeaf :=
  (λ data, if is_empty data then Zero else NonZero) <$> leaf_modifications.

(** Every error of a step is unwrapped ([expect]). *)
Definition tree_computation_flow `{HashOrder} (leaf_modifications : gmap N L)
    (storage : gmap (list N) (list N)) (root_hash : N) (compare_modified_leaves : bool)
    : result unit (FilledTreeImpl L) :=
  let sorted_leaf_indices := SortedLeafIndices_new (hash_keys leaf_modifications) in
  original_skeleton ← unwrap_result
    (create_impl storage root_hash sorted_leaf_indices compare_modified_leaves leaf_modifications);
  updated_skeleton ← unwrap_result
    (UpdatedSkeleton_create original_skeleton (skeleton_modifications leaf_modifications));
  unwrap_result (create_with_existing_leaves updated_skeleton leaf_modifications).

(** The leaves after the modifications: a leaf set to an empty value is deleted. *)
Definition apply_modifications (leaf_modifications m : gmap N L) : gmap N L :=
  filter (λ kv, is_empty kv.2 = false) (leaf_modifications ∪ m).

Lemma apply_modified leaf_modifications m x l :
  leaf_modifications !! x = Some l →
  apply_modifications leaf_modifications m !! x = if is_empty l then None else Some l.
Proof.
  intros Hl. unfold apply_modifications. apply option_eq. intros l'.
  rewrite map_lookup_filter_Some, lookup_union, Hl. cbn.
  destruct (m !! x), (is_empty l) eqn:He; cbn; (split; [intros [[= <-] Hf]; congruence|by intros [= <-]]).
Qed.

Lemma apply_unmodified leaf_modifications m x :
  leaf_modifications !! x = None → map_Forall (λ _ l, is_empty l = false) m →
  apply_modifications leaf_modifications m !! x = m !! x.
Proof.
  intros Hl Hm. unfold apply_modifications. apply option_eq. intros l'.
  rewrite map_lookup_filter_Some, lookup_union, Hl. cbn. rewrite (left_id_L None _). split; [by intros [??]|].
  intros Hx. split; [done|]. by eapply Hm.
Qed.

Lemma strictly_sorted (l : list N) : StronglySorted N.le l → NoDup l → StronglySorted N.lt l.
Proof.
  induction 1 as [|x l Hs IH Hall]; [constructor|]. intros [Hx Hnd]%NoDup_cons. constructor; [auto|].
  rewrite Forall_forall in *. intros y Hy. specialize (Hall y Hy).
  assert (x ≠ y) by (by intros ->). lia.
Qed.

Lemma sorted_indices (l : list N) (P : N → Prop) :
  NoDup l → (∀ x, x ∈ l ↔ P x) → (∀ x, P x → at_height 0 x) →
  leaf_slice (SortedLeafIndices_new l) ∧ ∀ x, x ∈ SortedLeafIndices_new l ↔ P x.
Proof.
  intros Hnd Hl HP. unfold SortedLeafIndices_new.
  assert (Hin : ∀ x, x ∈ merge_sort N.le l ↔ P x).
  { intros x. by rewrite (merge_sort_Permutation N.le). }
  split; [|done]. split; [|naive_solver]. apply strictly_sorted.
  - apply StronglySorted_merge_sort; [intros ???; apply N.le_trans|intros a b; lia].
  - by rewrite (merge_sort_Permutation N.le).
Qed.

Lemma sorted_keys `{HashOrder} (lm : gmap N L) :
  (∀ x, is_Some (lm !! x) → at_height 0 x) →
  leaf_slice (SortedLeafIndices_new (hash_keys lm)) ∧
  ∀ x, x ∈ SortedLeafIndices_new (hash_keys lm) ↔ is_Some (lm !! x).
Proof. apply sorted_indices; [apply NoDup_hash_keys|intros x; apply elem_of_hash_keys]. Qed.
End flow.

(** ** The steps of one tree *)

Section trie.
Context {L : Type} `{!Leaf L} `{!LeafLaws L} `{!TreeHashFunction L} `{!TreeHashLaws L}.

Definition no_empty_leaf (m : gmap N L) : Prop := map_Forall (λ _ l, is_empty l = false) m.
Definition on_leaves (lm : gmap N L) : Prop := ∀ x, is_Some (lm !! x) → at_height 0 x.

Lemma apply_empty m : no_empty_leaf m → apply_modifications ∅ m = m.
Proof. intros Hm. apply map_eq. intros x. apply apply_unmodified; [apply lookup_empty|done]. Qed.

Lemma skeleton_modifications_empty (lm : gmap N L) : skeleton_modifications lm = ∅ ↔ lm = ∅.
Proof. unfold skeleton_modifications. by rewrite fmap_empty_iff. Qed.

Variables (m lm : gmap N L) (Ls : list N).
Hypothesis HLs : leaf_slice Ls.
Hypothesis HLs_in : ∀ x, x ∈ Ls ↔ is_Some (lm !! x).
Hypothesis Hm : no_empty_leaf m.
#[local] Abbreviation m' := (apply_modifications lm m).

Lemma indices_nil : Ls = [] ↔ lm = ∅.
Proof.
  split.
  - intros Hnil. apply map_empty. intros x. apply eq_None_not_Some. intros Hx%HLs_in.
    rewrite Hnil in Hx. by apply not_elem_of_nil in Hx.
  - intros Hlm. destruct Ls as [|x l]; [done|]. assert (x ∈ x :: l) as [? Hx]%HLs_in by left. by rewrite Hlm in Hx.
Qed.

Lemma unmodified_leaves x : x ∉ Ls → m' !! x = m !! x.
Proof.
  intros Hx. apply apply_unmodified; [|done]. apply eq_None_not_Some. intros Hs. by apply Hx, HLs_in.
Qed.

Lemma skeleton_modifications_ok x :
  skeleton_modifications lm !! x = Some NonZero ↔ x ∈ Ls ∧ is_Some (m' !! x).
Proof.
  unfold skeleton_modifications. rewrite lookup_fmap, HLs_in.
  destruct (lm !! x) as [l|] eqn:Hl; cbn; [|split; [done|by intros [[??]?]]].
  rewrite (apply_modified lm m x l Hl). destruct (is_empty l); split; try done; by intros [_ [??]].
Qed.

Definition original_for (original : OriginalSkeletonTreeImpl) : Prop :=
  if decide (lm = ∅) then original = create_unmodified (root_hash_of (canonical 251 ROOT m))
  else sorted_leaf_indices original = Ls ∧ is_original_skeleton m Ls (nodes original).

Definition updated_for (sk : gmap N UpdatedSkeletonNode) : Prop :=
  if decide (lm = ∅) then sk = {[ROOT := Updated_UnmodifiedSubTree (root_hash_of (canonical 251 ROOT m))]}
  else is_updated_skeleton m' Ls sk.

Definition filled_for (ft : FilledTreeImpl L) : Prop :=
  root_hash ft = root_hash_of (canonical 251 ROOT m') ∧
  if decide (lm = ∅) then tree_map ft = ∅ else is_filled_tree m' Ls (tree_map ft).

Lemma trie_original storage cmp :
  tree_stored storage m →
  ∃ original, create_impl storage (root_hash_of (canonical 251 ROOT m)) Ls cmp lm = Ok original ∧
    original_for original.
Proof.
  intros Hst. unfold original_for. destruct (decide (lm = ∅)) as [Hlm|Hlm].
  - apply indices_nil in Hlm as ->. eexists. by split.
  - rewrite <-indices_nil in Hlm. apply create_impl_ok; [done|done| |done]. intros _ x. apply HLs_in.
Qed.

Lemma trie_original_with_leaves storage :
  tree_stored storage m →
  ∃ original leaves,
    create_and_get_previous_leaves_impl storage (root_hash_of (canonical 251 ROOT m)) Ls ∅ false = Ok (original, leaves) ∧
    original_for original ∧ ∀ x, x ∈ Ls → leaves !! x = Some (default leaf_default (m !! x)).
Proof.
  intros Hst. unfold original_for. destruct (decide (lm = ∅)) as [Hlm|Hlm].
  - apply indices_nil in Hlm as ->. eexists _, _. split_and!; [done..|]. intros x Hx. by apply not_elem_of_nil in Hx.
  - rewrite <-indices_nil in Hlm.
    destruct (create_and_get_previous_leaves_ok storage m Ls ∅ false HLs Hlm) as (original&leaves&?&?&?&?); [done..|].
    by exists original, leaves.
Qed.

Lemma trie_updated original :
  original_for original →
  ∃ sk, UpdatedSkeleton_create original (skeleton_modifications lm) = Ok sk ∧ updated_for sk.
Proof.
  unfold original_for, updated_for. destruct (decide (lm = ∅)) as [Hlm|Hlm].
  - intros ->. unfold UpdatedSkeleton_create. rewrite decide_True by by apply skeleton_modifications_empty.
    eexists. by split.
  - intros [Hsort Ho]. apply (skeleton_create_ok m m' Ls _ HLs (λ x _, unmodified_leaves x) skeleton_modifications_ok);
      [done|by rewrite indices_nil|by rewrite skeleton_modifications_empty|done].
Qed.

Lemma trie_filled sk :
  updated_for sk → ∃ ft, create_with_existing_leaves sk lm = Ok ft ∧ filled_for ft.
Proof.
  unfold updated_for, filled_for. destruct (decide (lm = ∅)) as [Hlm|Hlm].
  - intros ->. unfold create_with_existing_leaves. rewrite decide_True by done. eexists. split; [done|].
    by rewrite Hlm, apply_empty.
  - intros Hsk. apply (create_with_existing_leaves_ok m' Ls HLs); [by rewrite indices_nil|done..|].
    intros x l [l' Hl']%HLs_in Hl. rewrite (apply_modified lm m x l' Hl') in Hl.
    destruct (is_empty l') eqn:He; [done|]. by injection Hl as <-.
Qed.

Lemma trie_filled_inputs sk (inputs : gmap N LeafInput) :
  updated_for sk → (inputs = ∅ ↔ lm = ∅) →
  (∀ x l, lm !! x = Some l → ∃ inp o, inputs !! x = Some inp ∧ leaf_create inp = Ok (l, o)) →
  ∃ ft outputs, FilledTree_create sk inputs = Ok (ft, outputs) ∧ filled_for ft ∧
    ∀ x o, outputs !! x = Some o ↔
      ∃ l inp, lm !! x = Some l ∧ is_empty l = false ∧ inputs !! x = Some inp ∧ leaf_create inp = Ok (l, o).
Proof.
  unfold updated_for, filled_for. intros Hsk Hinp Hcreate. destruct (decide (lm = ∅)) as [Hlm|Hlm].
  - rewrite Hsk. unfold FilledTree_create. rewrite decide_True by by apply Hinp. eexists _, _.
    split; [done|]. split; [by rewrite Hlm, apply_empty|]. intros x o. rewrite Hlm, lookup_empty. split; [done|].
    by intros (?&?&?&_).
  - assert (Hmod : ∀ x l, x ∈ Ls ∧ m' !! x = Some l ↔ lm !! x = Some l ∧ is_empty l = false).
    { intros x l. rewrite HLs_in. destruct (lm !! x) as [l'|] eqn:Hl'; [|split; [by intros [[]]|by intros []]].
      rewrite (apply_modified lm m x l' Hl'). destruct (is_empty l') eqn:He;
        (split; [by intros [_ [= <-]]|intros [[= <-] ?]; split; [by eauto|congruence]]). }
    destruct (create_ok m' Ls HLs) with (sk := sk) (inputs := inputs) as (ft&outputs&Hrun&Hr&Hft&Hout);
      [by rewrite indices_nil|done|by rewrite Hinp| |].
    { intros x l Hx Hl. destruct (proj1 (Hmod x l) (conj Hx Hl)) as [Hlm' He]. eauto. }
    exists ft, outputs. split_and!; [done..|]. intros x o. rewrite Hout. split.
    + intros (Hx&l&inp&Hl&Hi&Hc). destruct (proj1 (Hmod x l) (conj Hx Hl)). by exists l, inp.
    + intros (l&inp&Hl&He&Hi&Hc). destruct (proj2 (Hmod x l) (conj Hl He)). split; [done|]. by exists l, inp.
Qed.

(** Whether the tree is empty can be told from its updated skeleton. *)
Lemma trie_is_empty {E} sk :
  updated_for sk → UpdatedSkeleton_is_empty (E:=E) sk =
    Ok (if decide (lm = ∅) then bool_decide (root_hash_of (canonical 251 ROOT m) = ROOT_OF_EMPTY_TREE)
        else bool_decide (canonical 251 ROOT m' = None)).
Proof.
  unfold updated_for. destruct (decide (lm = ∅)) as [Hlm|Hlm].
  - intros ->. unfold UpdatedSkeleton_is_empty. by rewrite lookup_singleton.
  - intros Hsk. rewrite <-indices_nil in Hlm. destruct (canonical 251 ROOT m') as [t|] eqn:Hc.
    + rewrite bool_decide_false by done.
      pose proof (skeleton_root_mods m' Ls HLs Hlm sk t Hsk Hc) as He. unfold UpdatedSkeleton_is_empty in *.
      destruct (sk !! ROOT) as [[]|]; cbn [mbind result_bind] in *; [congruence..|]. unfold check in *. by destruct (bool_decide _).
    + rewrite (skeleton_empty m' Ls sk Hsk Hc). unfold UpdatedSkeleton_is_empty. by rewrite lookup_empty.
Qed.

(** The storage holds the new tree once the filled nodes are written to it. *)
Lemma trie_stored good storage writes ft :
  (∀ k v v', good k v → good k v' → v = v') → (∀ k v, writes !! k = Some v → good k v) →
  (∀ x l, lm !! x = Some l → leaf_ok l) → tree_stored storage m → filled_for ft →
  (∀ n, n ∈ opt_nodes (canonical 251 ROOT m) → node_good good n) →
  (∀ n, n ∈ opt_nodes (canonical 251 ROOT m') → node_good good n) →
  (∀ j fn, tree_map ft !! j = Some fn → is_Some (writes !! db_key fn)) →
  (∀ t, canonical 251 ROOT m' = Some t → tree_hash t ≠ ROOT_OF_EMPTY_TREE) →
  tree_stored (storage_mset storage writes) m'.
Proof.
  intros Hu Hw Hlok Hst [_ Hft] Hold Hnew Hwr Hne t Ht. split; [|by apply Hne].
  rewrite Ht in Hnew. cbn [opt_nodes] in Hnew. destruct (decide (lm = ∅)) as [Hlm|Hlm].
  - rewrite Hlm, apply_empty in Ht by done. eapply stored_write; [done..|]. by apply Hst.
  - eapply (stored_filled good Hu storage writes Hw m m' Ls (tree_map ft) HLs); [by intros; apply unmodified_leaves
      | |done|done|done|apply at_height_root|done|done|].
    + intros x l [l' Hl']%HLs_in Hl. rewrite (apply_modified lm m x l' Hl') in Hl.
      destruct (is_empty l'); [done|]. injection Hl as <-. by eapply Hlok.
    + intros j fn Hin. apply Hft. eauto.
Qed.
End trie.

(** ** The flow of one tree *)

Section flow_ok.
Context {L : Type} `{!Leaf L} `{!LeafLaws L} `{!TreeHashFunction L} `{!TreeHashLaws L} `{HashOrder}.
Implicit Types (lm m : gmap N L) (storage : gmap (list N) (list N)).

Lemma flow_filled lm m storage cmp :
  on_leaves lm → no_empty_leaf m → tree_stored storage m →
  ∃ ft, tree_computation_flow lm storage (root_hash_of (canonical 251 ROOT m)) cmp = Ok ft ∧
    filled_for m lm (SortedLeafIndices_new (hash_keys lm)) ft.
Proof.
  intros Hleaf Hm Hst. destruct (sorted_keys lm Hleaf) as [HLs Hin]. unfold tree_computation_flow.
  destruct (trie_original m lm _ HLs Hin storage cmp Hst) as (original&->&Ho).
  unfold mbind; cbn [unwrap_result result_bind].
  destruct (trie_updated m lm _ HLs Hin Hm original Ho) as (sk&->&Hsk). cbn [unwrap_result result_bind].
  destruct (trie_filled m lm _ HLs Hin Hm sk Hsk) as (ft&->&Hft). by exists ft.
Qed.

(** No two different nodes of the two trees have the same key: the hash has no collision on
    them. *)
Definition collision_free (l : list (FilledNode L)) : Prop :=
  ∀ a b, a ∈ l → b ∈ l → db_key a = db_key b → FilledNode_serialize a = FilledNode_serialize b.

Lemma filled_nodes lm m Ls (ft : FilledTreeImpl L) j fn :
  filled_for m lm Ls ft → tree_map ft !! j = Some fn →
  fn ∈ opt_nodes (canonical 251 ROOT (apply_modifications lm m)).
Proof.
  intros [_ Hft]. destruct (decide (lm = ∅)).
  - by rewrite Hft, lookup_empty.
  - intros (t&->&Hin)%Hft. by eapply in_filled_nodes.
Qed.

(** The storage after the filled nodes are written holds the new tree. *)
Lemma flow_storage lm m storage cmp :
  let m' := apply_modifications lm m in
  on_leaves lm → no_empty_leaf m → map_Forall (λ _ l, leaf_ok l) lm → tree_stored storage m →
  collision_free (opt_nodes (canonical 251 ROOT m) ++ opt_nodes (canonical 251 ROOT m')) →
  (∀ t, canonical 251 ROOT m' = Some t → tree_hash t ≠ ROOT_OF_EMPTY_TREE) →
  ∃ ft, tree_computation_flow lm storage (root_hash_of (canonical 251 ROOT m)) cmp = Ok ft ∧
    tree_stored (storage_mset storage (FilledTree_serialize ft)) m'.
Proof.
  intros m' Hleaf Hm Hlok Hst Hcf Hne. destruct (flow_filled lm m storage cmp Hleaf Hm Hst) as (ft&Hrun&Hft).
  exists ft. split; [done|]. destruct (sorted_keys lm Hleaf) as [HLs Hin].
  set (good k v := ∃ n, n ∈ opt_nodes (canonical 251 ROOT m) ++ opt_nodes (canonical 251 ROOT m') ∧
    k = db_key n ∧ v = FilledNode_serialize n).
  eapply (trie_stored m lm _ HLs Hin Hm good); [| |done|done|done| | |by intros; eapply serialize_is_Some|done].
  - intros k v v' (a&?&->&->) (b&?&?&->). by apply Hcf.
  - intros k v (j&fn&Hj&->&->)%serialize_lookup_inv. exists fn. split; [|done]. apply elem_of_app. right.
    by eapply filled_nodes.
  - intros n Hn. exists n. split; [|done]. apply elem_of_app. by left.
  - intros n Hn. exists n. split; [|done]. apply elem_of_app. by right.
Qed.
End flow_ok.
