(* ===== verification/CommitterLeaf.v ===== *)
(** The leaves of the three kinds of tries and their hash functions
    (crates/starknet_committer/src: patricia_merkle_tree/leaf/{leaf_impl,leaf_serde}.rs,
    patricia_merkle_tree/types.rs, hash_function/hash.rs).

    Three libraries are parameters, as classes with the laws the code relies on: the hash
    functions and the hexadecimal form of a felt of [starknet_types_core], and the parser of
    [serde_json]. *)
From Stdlib Require Import Ascii String.
From stdpp Require Import strings.
From S2P Require Import Prelude.
From S2P Require Import StarknetApi.
From S2P Require Import PatriciaTypes.
From S2P Require Import PatriciaTree.
From S2P Require Import PatriciaNode.
From S2P Require Import PatriciaSkeleton.
From S2P Require Import PatriciaUpdate.
From S2P Require Import PatriciaFilled.
From S2P Require Import PatriciaOriginal.

(** ** Text

    A string is the list of its bytes. *)

Definition bytes (s : string) : list N := N_of_ascii <$> list_ascii_of_string s.

(** The validity check of [std::str::from_utf8]. *)
Definition utf8_tail (b : N) : bool := (0x80 <=? b) && (b <=? 0xBF).

Definition utf8_second (b0 b1 : N) : bool :=
  if b0 =? 0xE0 then (0xA0 <=? b1) && (b1 <=? 0xBF)
  else if b0 =? 0xED then (0x80 <=? b1) && (b1 <=? 0x9F)
  else if b0 =? 0xF0 then (0x90 <=? b1) && (b1 <=? 0xBF)
  else if b0 =? 0xF4 then (0x80 <=? b1) && (b1 <=? 0x8F)
  else utf8_tail b1.

Fixpoint utf8_valid (s : list N) : bool :=
  match s with
  | [] => true
  | b0 :: s1 =>
      if b0 <? 0x80 then utf8_valid s1
      else if (0xC2 <=? b0) && (b0 <=? 0xDF) then
        match s1 with b1 :: s2 => utf8_tail b1 && utf8_valid s2 | _ => false end
      else if (0xE0 <=? b0) && (b0 <=? 0xEF) then
        match s1 with b1 :: b2 :: s3 => utf8_second b0 b1 && utf8_tail b2 && utf8_valid s3 | _ => false end
      else if (0xF0 <=? b0) && (b0 <=? 0xF4) then
        match s1 with
        | b1 :: b2 :: b3 :: s4 => utf8_second b0 b1 && utf8_tail b2 && utf8_tail b3 && utf8_valid s4
        | _ => false
        end
      else false
  end.

Definition from_utf8 (value : list N) : result DeserializationError (list N) :=
  if utf8_valid value then Ok value else Err StringConversionError.

(** A printable ASCII character that a JSON string contains as it is. *)
Definition plain (b : N) : bool := (0x20 <=? b) && (b <? 0x7F) && negb (b =? 34) && negb (b =? 92).

(** ** JSON (serde_json)

    [serde_json::Value]; a number is the text of it. *)
#[local] Unset Elimination Schemes.
Inductive Value :=
| Value_Null
| Value_Bool (b : bool)
| Value_Number (digits : list N)
| Value_String (s : list N)
| Value_Array (l : list Value)
| Value_Object (members : list (list N * Value)).
#[local] Set Elimination Schemes.

Definition quoted (s : list N) : list N := [34] ++ s ++ [34].

(** The text of a value with a space after a colon and after a comma. *)
Fixpoint comma_separated (l : list (list N)) : list N :=
  match l with
  | [] => []
  | [x] => x
  | x :: l => x ++ bytes ", " ++ comma_separated l
  end.

Fixpoint json_text (v : Value) : list N :=
  match v with
  | Value_Null => bytes "null"
  | Value_Bool b => bytes (if b then "true" else "false")
  | Value_Number digits => digits
  | Value_String s => quoted s
  | Value_Array l => bytes "[" ++ comma_separated (map json_text l) ++ bytes "]"
  | Value_Object members =>
      bytes "{" ++
      comma_separated (map (λ kv, match kv with (k, v) => quoted k ++ bytes ": " ++ json_text v end) members) ++
      bytes "}"
  end.

(** Objects with distinct keys, of strings without escapes, natural numbers and objects. *)
Fixpoint json_plain (v : Value) : bool :=
  match v with
  | Value_Number digits =>
      forallb (λ b, (48 <=? b) && (b <=? 57)) digits &&
      match digits with [] => false | d :: rest => negb (d =? 48) || bool_decide (rest = []) end
  | Value_String s => forallb plain s
  | Value_Object members =>
      bool_decide (NoDup members.*1) &&
      forallb (λ kv, match kv with (k, v) => forallb plain k && json_plain v end) members
  | _ => false
  end.

Class SerdeJson := {
  json_from_str : list N → option Value;
  json_from_str_text : ∀ v, json_plain v = true → json_from_str (json_text v) = Some v;
}.

(** [Value::get] and [Value::as_str]. Of two members with the same key the last one counts. *)
Definition value_get (self : Value) (key : list N) : option Value :=
  match self with
  | Value_Object members => snd <$> last (filter (λ kv, kv.1 = key) members)
  | _ => None
  end.

Definition value_as_str (self : Value) : option (list N) :=
  match self with Value_String s => Some s | _ => None end.

(** [serde_json::from_str::<HashMap<String, String>>]. *)
Definition string_map_from_str `{SerdeJson} (s : list N) : option (gmap (list N) (list N)) :=
  match json_from_str s with
  | Some (Value_Object members) =>
      strings ← mapM (λ kv, value ← value_as_str kv.2; Some (kv.1, value)) members;
      Some (list_to_map (reverse strings))
  | _ => None
  end.

(** ** Felts as hexadecimal text (starknet_types_core) *)

Class FeltHex := {
  to_hex_string : N → list N;
  to_fixed_hex_string : N → list N;
  felt_from_hex : list N → option N;
  felt_from_hex_string : ∀ f, f < felt_prime → felt_from_hex (to_hex_string f) = Some f;
  to_hex_string_plain : ∀ f, forallb plain (to_hex_string f) = true;
  to_fixed_hex_string_ok : ∀ f, f < felt_prime →
    ∃ digits, to_fixed_hex_string f = bytes "0x" ++ digits ∧ felt_from_hex digits = Some f ∧
      forallb plain digits = true;
}.

(** [Felt::to_fixed_hex_string] of crates/starknet_patricia/src/felt.rs. *)
Definition strip_prefix (prefix s : list N) : option (list N) :=
  if decide (take (length prefix) s = prefix) then Some (drop (length prefix) s) else None.

Definition Felt_to_fixed_hex_string `{FeltHex} (self : N) : list N :=
  default (bytes "0") (strip_prefix (bytes "0x") (to_fixed_hex_string self)).

Definition from_hex `{FeltHex} (hex_string : list N) : result DeserializationError N :=
  match felt_from_hex hex_string with Some felt => Ok felt | None => Err FeltParsingError end.

Definition ok_or {E A} (o : option A) (e : E) : result E A :=
  match o with Some a => Ok a | None => Err e end.

(** ** Hash functions (starknet_types_core) *)

Class Pedersen := {
  pedersen : N → N → N;
  pedersen_felt : ∀ a b, pedersen a b < felt_prime;
}.

Class Poseidon := {
  poseidon : N → N → N;
  poseidon_felt : ∀ a b, poseidon a b < felt_prime;
}.

(** ** Storage leaves *)

Record StarknetStorageValue := { storage_value : N }.

#[global] Instance StarknetStorageValue_eq_dec : EqDecision StarknetStorageValue.
Proof. solve_decision. Defined.

#[global] Instance StarknetStorageValue_leaf : Leaf StarknetStorageValue := {|
  LeafInput := StarknetStorageValue;
  LeafOutput := unit;
  is_empty := λ self, bool_decide (storage_value self = 0);
  leaf_create := λ input, Ok (input, tt);
  leaf_default := {| storage_value := 0 |};
  leaf_serialize := λ self, felt_to_bytes_be (storage_value self);
  leaf_get_prefix := λ _, to_storage_prefix StorageLeaf;
  leaf_deserialize := λ value, Ok {| storage_value := felt_from_bytes_be_slice value |};
  leaf_prefix := to_storage_prefix StorageLeaf;
|}.

#[global] Instance StarknetStorageValue_hash `{Pedersen} : TreeHashFunction StarknetStorageValue := {|
  compute_leaf_hash := storage_value;
  compute_node_hash := compute_node_hash_with_inner_hash_function pedersen storage_value;
|}.

(** ** Class leaves *)

Record CompiledClassHash := { compiled_class_hash : N }.

#[global] Instance CompiledClassHash_eq_dec : EqDecision CompiledClassHash.
Proof. solve_decision. Defined.

Definition CompiledClassHash_serialize `{FeltHex} (self : CompiledClassHash) : list N :=
  bytes "{" ++ quoted (bytes "compiled_class_hash") ++ bytes ": " ++
  quoted (to_hex_string (compiled_class_hash self)) ++ bytes "}".

Definition CompiledClassHash_deserialize `{FeltHex} `{SerdeJson} (value : list N)
    : result DeserializationError CompiledClassHash :=
  json_str ← from_utf8 value;
  map ← ok_or (string_map_from_str json_str) ParsingError;
  hash_as_hex ← ok_or (map !! bytes "compiled_class_hash") NonExistingKey;
  hash ← from_hex hash_as_hex;
  Ok {| compiled_class_hash := hash |}.

#[global] Instance CompiledClassHash_leaf `{FeltHex} `{SerdeJson} : Leaf CompiledClassHash := {|
  LeafInput := CompiledClassHash;
  LeafOutput := unit;
  is_empty := λ self, bool_decide (compiled_class_hash self = 0);
  leaf_create := λ input, Ok (input, tt);
  leaf_default := {| compiled_class_hash := 0 |};
  leaf_serialize := CompiledClassHash_serialize;
  leaf_get_prefix := λ _, to_storage_prefix CompiledClassLeaf;
  leaf_deserialize := CompiledClassHash_deserialize;
  leaf_prefix := to_storage_prefix CompiledClassLeaf;
|}.

(** [b'CONTRACT_CLASS_LEAF_V0'] in big-endian. *)
Definition CONTRACT_CLASS_LEAF_V0 : N := 0x434f4e54524143545f434c4153535f4c4541465f5630.

Definition CompiledClassHash_leaf_hash `{Poseidon} (self : CompiledClassHash) : N :=
  poseidon CONTRACT_CLASS_LEAF_V0 (compiled_class_hash self).

#[global] Instance CompiledClassHash_hash `{Poseidon} : TreeHashFunction CompiledClassHash := {|
  compute_leaf_hash := CompiledClassHash_leaf_hash;
  compute_node_hash := compute_node_hash_with_inner_hash_function poseidon CompiledClassHash_leaf_hash;
|}.

(** ** Contract leaves *)

Record ContractState := {
  nonce : N;
  storage_root_hash : N;
  class_hash : N;
}.

#[global] Instance ContractState_eq_dec : EqDecision ContractState.
Proof. solve_decision. Defined.

Record ContractStateInput := {
  leaf_index : N;
  input_nonce : N;
  input_class_hash : N;
  input_updated_skeleton : gmap N UpdatedSkeletonNode;
  input_storage_updates : gmap N StarknetStorageValue;
}.

Definition ContractState_serialize `{FeltHex} (self : ContractState) : list N :=
  bytes "{" ++ quoted (bytes "contract_hash") ++ bytes ": " ++ quoted (Felt_to_fixed_hex_string (class_hash self)) ++
  bytes ", " ++ quoted (bytes "storage_commitment_tree") ++ bytes ": {" ++ quoted (bytes "root") ++ bytes ": " ++
  quoted (Felt_to_fixed_hex_string (storage_root_hash self)) ++ bytes ", " ++ quoted (bytes "height") ++
  bytes ": " ++ bytes "251" ++ bytes "}, " ++ quoted (bytes "nonce") ++ bytes ": " ++
  quoted (to_hex_string (nonce self)) ++ bytes "}".

Definition get_key_from_map (map : Value) (key : list N) : result DeserializationError Value :=
  ok_or (value_get map key) NonExistingKey.

Definition get_leaf_key (map : Value) (key : list N) : result DeserializationError (list N) :=
  value ← get_key_from_map map key;
  ok_or (value_as_str value) LeafTypeError.

Definition ContractState_deserialize `{FeltHex} `{SerdeJson} (value : list N)
    : result DeserializationError ContractState :=
  json_str ← from_utf8 value;
  deserialized_map ← ok_or (json_from_str json_str) ParsingError;
  class_hash_as_hex ← get_leaf_key deserialized_map (bytes "contract_hash");
  let nonce_as_hex :=
    match get_leaf_key deserialized_map (bytes "nonce") with Ok s => s | _ => bytes "0x0" end in
  storage_commitment_tree ← get_key_from_map deserialized_map (bytes "storage_commitment_tree");
  root_hash_as_hex ← get_leaf_key storage_commitment_tree (bytes "root");
  nonce ← from_hex nonce_as_hex;
  storage_root_hash ← from_hex root_hash_as_hex;
  class_hash ← from_hex class_hash_as_hex;
  Ok {| nonce := nonce; storage_root_hash := storage_root_hash; class_hash := class_hash |}.

Definition ContractState_create `{Pedersen} (input : ContractStateInput)
    : result LeafError (ContractState * FilledTreeImpl StarknetStorageValue) :=
  storage_trie ← map_err (λ _, LeafComputationError)
    (create_with_existing_leaves (input_updated_skeleton input) (input_storage_updates input));
  Ok ({| nonce := input_nonce input; storage_root_hash := get_root_hash storage_trie;
         class_hash := input_class_hash input |}, storage_trie).

#[global] Instance ContractState_leaf `{Pedersen} `{FeltHex} `{SerdeJson} : Leaf ContractState := {|
  LeafInput := ContractStateInput;
  LeafOutput := FilledTreeImpl StarknetStorageValue;
  is_empty := λ self, bool_decide (nonce self = 0) && bool_decide (class_hash self = 0) &&
                      bool_decide (storage_root_hash self = 0);
  leaf_create := ContractState_create;
  leaf_default := {| nonce := 0; storage_root_hash := 0; class_hash := 0 |};
  leaf_serialize := ContractState_serialize;
  leaf_get_prefix := λ _, to_storage_prefix StateTreeLeaf;
  leaf_deserialize := ContractState_deserialize;
  leaf_prefix := to_storage_prefix StateTreeLeaf;
|}.

Definition CONTRACT_STATE_HASH_VERSION : N := 0.

Definition ContractState_leaf_hash `{Pedersen} (contract_state : ContractState) : N :=
  pedersen
    (pedersen (pedersen (class_hash contract_state) (storage_root_hash contract_state)) (nonce contract_state))
    CONTRACT_STATE_HASH_VERSION.

#[global] Instance ContractState_hash `{Pedersen} : TreeHashFunction ContractState := {|
  compute_leaf_hash := ContractState_leaf_hash;
  compute_node_hash := compute_node_hash_with_inner_hash_function pedersen ContractState_leaf_hash;
|}.

(** ** Leaves are read back as they were written *)

Lemma plain_utf8 s : forallb (λ b, b <? 0x80) s = true → utf8_valid s = true.
Proof.
  induction s as [|b s IH]; [done|]. cbn [forallb utf8_valid]. intros [-> Hs]%andb_true_iff. auto.
Qed.

Lemma plain_ascii s : forallb plain s = true → forallb (λ b, b <? 0x80) s = true.
Proof.
  rewrite !forallb_forall. intros Hs b Hb. specialize (Hs b Hb). unfold plain in Hs.
  rewrite !andb_true_iff, N.ltb_lt in Hs. rewrite N.ltb_lt. lia.
Qed.

Lemma from_utf8_plain s : forallb (λ b, b <? 0x80) s = true → from_utf8 s = Ok s.
Proof. intros Hs. unfold from_utf8. by rewrite plain_utf8. Qed.

Section laws.
Context `{!FeltHex} `{!SerdeJson}.

Lemma fixed_hex_ok f :
  f < felt_prime →
  from_hex (Felt_to_fixed_hex_string f) = Ok f ∧ forallb plain (Felt_to_fixed_hex_string f) = true.
Proof.
  intros Hf. destruct (to_fixed_hex_string_ok f Hf) as (digits&Heq&Hfrom&Hplain).
  unfold Felt_to_fixed_hex_string, strip_prefix. rewrite Heq. change (length (bytes "0x")) with 2%nat.
  rewrite decide_True by done. change (drop 2 (bytes "0x" ++ digits)) with digits. cbn [default].
  unfold from_hex, id. by rewrite Hfrom.
Qed.

Lemma CompiledClassHash_text self :
  CompiledClassHash_serialize self =
  json_text (Value_Object [(bytes "compiled_class_hash", Value_String (to_hex_string (compiled_class_hash self)))]).
Proof. unfold CompiledClassHash_serialize. cbn [json_text map comma_separated]. by rewrite <-!app_assoc. Qed.

Lemma CompiledClassHash_roundtrip self :
  compiled_class_hash self < felt_prime →
  CompiledClassHash_deserialize (CompiledClassHash_serialize self) = Ok self.
Proof.
  intros Hf. unfold CompiledClassHash_deserialize. rewrite from_utf8_plain.
  2:{ unfold CompiledClassHash_serialize, quoted. rewrite !forallb_app.
      rewrite (plain_ascii _ (to_hex_string_plain _)). done. }
  unfold mbind; cbn [result_bind]. unfold string_map_from_str. rewrite CompiledClassHash_text, json_from_str_text.
  2:{ cbn [json_plain forallb]. by rewrite to_hex_string_plain. }
  unfold mbind, option_bind. cbn [mapM value_as_str fst snd mbind option_bind].
  unfold mret, option_ret, mbind, option_bind. unfold reverse. cbn [rev_append list_to_map foldr ok_or result_bind].
  rewrite lookup_insert, decide_True by done. cbn [ok_or result_bind snd]. unfold from_hex. rewrite felt_from_hex_string by done.
  by destruct self.
Qed.

Definition ContractState_json (self : ContractState) : Value :=
  Value_Object [
    (bytes "contract_hash", Value_String (Felt_to_fixed_hex_string (class_hash self)));
    (bytes "storage_commitment_tree", Value_Object [
       (bytes "root", Value_String (Felt_to_fixed_hex_string (storage_root_hash self)));
       (bytes "height", Value_Number (bytes "251"))]);
    (bytes "nonce", Value_String (to_hex_string (nonce self)))].

Lemma ContractState_text self : ContractState_serialize self = json_text (ContractState_json self).
Proof.
  unfold ContractState_serialize, ContractState_json. cbn [json_text map comma_separated].
  unfold quoted. rewrite <-!app_assoc. reflexivity.
Qed.

Definition ContractState_ok (self : ContractState) : Prop :=
  nonce self < felt_prime ∧ storage_root_hash self < felt_prime ∧ class_hash self < felt_prime.

Lemma ContractState_roundtrip self :
  ContractState_ok self → ContractState_deserialize (ContractState_serialize self) = Ok self.
Proof.
  intros (Hn&Hs&Hc). destruct (fixed_hex_ok _ Hs) as [Hs1 Hs2]. destruct (fixed_hex_ok _ Hc) as [Hc1 Hc2].
  unfold ContractState_deserialize. rewrite from_utf8_plain.
  2:{ unfold ContractState_serialize, quoted. rewrite !forallb_app.
      by rewrite (plain_ascii _ (to_hex_string_plain _)), (plain_ascii _ Hs2), (plain_ascii _ Hc2). }
  unfold mbind; cbn [result_bind]. rewrite ContractState_text, json_from_str_text.
  2:{ unfold ContractState_json. cbn [json_plain forallb]. by rewrite to_hex_string_plain, Hs2, Hc2. }
  cbn [ok_or result_bind].
  assert (get_leaf_key (ContractState_json self) (bytes "contract_hash")
    = Ok (Felt_to_fixed_hex_string (class_hash self))) as -> by reflexivity.
  assert (get_leaf_key (ContractState_json self) (bytes "nonce") = Ok (to_hex_string (nonce self))) as -> by reflexivity.
  assert (Hn1 : from_hex (to_hex_string (nonce self)) = Ok (nonce self))
    by (unfold from_hex; by rewrite felt_from_hex_string).
  cbn [result_bind].
  assert (get_key_from_map (ContractState_json self) (bytes "storage_commitment_tree") = Ok (Value_Object [
       (bytes "root", Value_String (Felt_to_fixed_hex_string (storage_root_hash self)));
       (bytes "height", Value_Number (bytes "251"))])) as -> by reflexivity.
  cbn [result_bind].
  assert (∀ v rest, get_leaf_key (Value_Object ((bytes "root", Value_String v) :: [(bytes "height", rest)])) (bytes "root")
    = Ok v) as -> by reflexivity.
  cbn [result_bind]. rewrite Hn1, Hs1, Hc1. cbn [result_bind]. by destruct self.
Qed.
End laws.

#[global, program] Instance StarknetStorageValue_laws : LeafLaws StarknetStorageValue := {|
  leaf_ok := λ self, storage_value self < felt_prime;
|}.
Next Obligation.
  intros [v] Hv.
  change (Ok {| storage_value := felt_from_bytes_be_slice (felt_to_bytes_be v) |} = Ok {| storage_value := v |}
    :> result DeserializationError _).
  by rewrite felt_bytes_roundtrip.
Qed.
Next Obligation. done. Qed.
Next Obligation. done. Qed.

#[global, program] Instance CompiledClassHash_laws `{!FeltHex} `{!SerdeJson} : LeafLaws CompiledClassHash := {|
  leaf_ok := λ self, compiled_class_hash self < felt_prime;
|}.
Next Obligation. intros ??. apply CompiledClassHash_roundtrip. Qed.
Next Obligation. done. Qed.
Next Obligation. done. Qed.

#[global, program] Instance ContractState_laws `{!Pedersen} `{!FeltHex} `{!SerdeJson} : LeafLaws ContractState := {|
  leaf_ok := ContractState_ok;
|}.
Next Obligation. intros ???. apply ContractState_roundtrip. Qed.
Next Obligation. done. Qed.
Next Obligation. done. Qed.

(** Node hashes are felts. *)
Lemma inner_hash_felt {L} (hash : N → N → N) (leaf_hash : L → N) d :
  (∀ a b, hash a b < felt_prime) → (∀ l, d = Data_Leaf l → leaf_hash l < felt_prime) →
  compute_node_hash_with_inner_hash_function hash leaf_hash d < felt_prime.
Proof.
  intros Hh Hl. destruct d as [d|d|l]; cbn; [apply Hh| |by apply Hl]. apply N.mod_lt. by vm_compute.
Qed.

#[global, program] Instance StarknetStorageValue_hash_laws `{!Pedersen} : TreeHashLaws StarknetStorageValue.
Next Obligation. intros ? d Hd. apply inner_hash_felt; [apply pedersen_felt|]. by intros l ->. Qed.

#[global, program] Instance CompiledClassHash_hash_laws `{!Poseidon} `{!FeltHex} `{!SerdeJson} : TreeHashLaws CompiledClassHash.
Next Obligation. intros ??? d Hd. apply inner_hash_felt; [apply poseidon_felt|]. intros l _. apply poseidon_felt. Qed.

#[global, program] Instance ContractState_hash_laws `{!Pedersen} `{!FeltHex} `{!SerdeJson} : TreeHashLaws ContractState.
Next Obligation. intros ??? d Hd. apply inner_hash_felt; [apply pedersen_felt|]. intros l _. apply pedersen_felt. Qed.
