(* ===== verification/CommitterInstances.v ===== *)
(** Instances of the libraries the committer uses, for the examples: hash functions on felts,
    hexadecimal digits, and a parser of the JSON texts of [json_plain] values. They show that
    the laws of the classes can hold. *)
From Stdlib Require Import String.
From S2P Require Import Prelude.
From S2P Require Import StarknetApi.
From S2P Require Import CommitterLeaf.

#[export, program] Instance pedersen_example : Pedersen := {| pedersen := λ a b, (3 * a + 5 * b + 1) mod felt_prime |}.
Next Obligation. intros a b. apply N.mod_lt. by vm_compute. Qed.

#[export, program] Instance poseidon_example : Poseidon := {| poseidon := λ a b, (7 * a + 11 * b + 2) mod felt_prime |}.
Next Obligation. intros a b. apply N.mod_lt. by vm_compute. Qed.

(** ** Hexadecimal digits *)

Definition hex_char (d : N) : N := if d <? 10 then 48 + d else 87 + d.
Definition hex_value (c : N) : N := if c <? 58 then c - 48 else c - 87.

Fixpoint hex_digits (n : nat) (x : N) : list N :=
  match n with
  | O => []
  | S n => hex_char ((x / 16 ^ N.of_nat n) mod 16) :: hex_digits n x
  end.

Definition hex_number (digits : list N) : N := fold_left (λ acc c, acc * 16 + hex_value c) digits 0.

Lemma hex_value_char d : d < 16 → hex_value (hex_char d) = d.
Proof.
  intros Hd. unfold hex_char, hex_value. destruct (d <? 10) eqn:H10.
  - apply N.ltb_lt in H10. rewrite (proj2 (N.ltb_lt _ _)) by lia. lia.
  - apply N.ltb_ge in H10. rewrite (proj2 (N.ltb_ge _ _)) by lia. lia.
Qed.

Lemma hex_char_plain d : d < 16 → plain (hex_char d) = true.
Proof.
  intros Hd. unfold plain, hex_char. destruct (d <? 10) eqn:H10; [apply N.ltb_lt in H10|apply N.ltb_ge in H10];
    rewrite !andb_true_iff, !negb_true_iff, !N.eqb_neq, N.leb_le, N.ltb_lt; lia.
Qed.

Lemma hex_digits_plain n x : forallb plain (hex_digits n x) = true.
Proof.
  induction n as [|n IH]; [done|]. cbn [hex_digits forallb]. rewrite IH, hex_char_plain; [done|].
  by apply N.mod_lt.
Qed.

Lemma hex_number_digits n x acc :
  fold_left (λ acc c, acc * 16 + hex_value c) (hex_digits n x) acc = acc * 16 ^ N.of_nat n + x mod 16 ^ N.of_nat n.
Proof.
  revert acc. induction n as [|n IH]; intros acc; [cbn; rewrite N.mod_1_r; lia|].
  cbn [hex_digits fold_left]. rewrite IH, hex_value_char by by apply N.mod_lt.
  rewrite Nat2N.inj_succ, N.pow_succ_r by lia. set (p := 16 ^ N.of_nat n).
  assert (Hp : p ≠ 0) by by apply N.pow_nonzero.
  rewrite (N.mul_comm 16 p), N.Div0.mod_mul_r. lia.
Qed.

Definition hex_string (f : N) : list N := bytes "0x" ++ hex_digits 64 f.

Definition number_of_hex (s : list N) : option N :=
  Some (hex_number (match s with _ :: 120 :: digits => digits | _ => s end)).

Lemma hex_char_not_x d : d < 16 → hex_char d ≠ 120.
Proof. intros Hd. unfold hex_char. destruct (d <? 10) eqn:H10; [apply N.ltb_lt in H10|]; lia. Qed.

Lemma hex_number_felt f : f < felt_prime → hex_number (hex_digits 64 f) = f.
Proof.
  intros Hf. unfold hex_number. rewrite hex_number_digits, N.mul_0_l, N.add_0_l. apply N.mod_small.
  eapply N.lt_trans; [exact Hf|]. by vm_compute.
Qed.

Lemma number_of_hex_string f : f < felt_prime → number_of_hex (hex_string f) = Some f.
Proof.
  intros Hf. change (number_of_hex (hex_string f)) with (Some (hex_number (hex_digits 64 f))).
  by rewrite hex_number_felt.
Qed.

Lemma number_of_hex_digits f : f < felt_prime → number_of_hex (hex_digits 64 f) = Some f.
Proof.
  intros Hf. rewrite <-(hex_number_felt f Hf) at 2. unfold number_of_hex.
  change 64%nat with (S (S 62)). cbn [hex_digits].
  pose proof (hex_char_not_x ((f / 16 ^ N.of_nat 62) mod 16)) as Hx.
  destruct (hex_char ((f / 16 ^ N.of_nat 62) mod 16)) as [|p] eqn:Hc; [done|].
  do 2 f_equal. do 7 (destruct p as [p|p|]; try done). exfalso. apply Hx; [by apply N.mod_lt|done].
Qed.

Lemma hex_string_plain f : forallb plain (hex_string f) = true.
Proof. unfold hex_string. by rewrite forallb_app, hex_digits_plain. Qed.

Lemma hex_string_fixed f : f < felt_prime →
  ∃ digits, hex_string f = bytes "0x" ++ digits ∧ number_of_hex digits = Some f ∧ forallb plain digits = true.
Proof. intros Hf. exists (hex_digits 64 f). by rewrite number_of_hex_digits, hex_digits_plain. Qed.

#[export] Instance felt_hex_example : FeltHex := {|
  to_hex_string := hex_string;
  to_fixed_hex_string := hex_string;
  felt_from_hex := number_of_hex;
  felt_from_hex_string := number_of_hex_string;
  to_hex_string_plain := hex_string_plain;
  to_fixed_hex_string_ok := hex_string_fixed;
|}.

(** ** A parser of plain JSON texts *)

Fixpoint span (p : N → bool) (s : list N) : list N * list N :=
  match s with
  | b :: rest => if p b then let '(x, r) := span p rest in (b :: x, r) else ([], s)
  | [] => ([], [])
  end.

Definition is_digit (b : N) : bool := (48 <=? b) && (b <=? 57).

(** A quoted string; the first quote has been read. *)
Definition parse_quoted (s : list N) : option (list N * list N) :=
  let '(x, r) := span plain s in
  match r with 34 :: r => Some (x, r) | _ => None end.

Fixpoint parse_value (fuel : nat) (s : list N) : option (Value * list N) :=
  match fuel, s with
  | S fuel, 34 :: s => '(x, r) ← parse_quoted s; Some (Value_String x, r)
  | S fuel, 123 :: 125 :: r => Some (Value_Object [], r)
  | S fuel, 123 :: 34 :: s => '(ms, r) ← parse_members fuel s; Some (Value_Object ms, r)
  | S fuel, b :: _ => if is_digit b then let '(x, r) := span is_digit s in Some (Value_Number x, r) else None
  | _, _ => None
  end
with parse_members (fuel : nat) (s : list N) : option (list (list N * Value) * list N) :=
  match fuel with
  | S fuel =>
      '(k, s) ← parse_quoted s;
      match s with
      | 58 :: 32 :: s =>
          '(v, s) ← parse_value fuel s;
          match s with
          | 125 :: r => Some ([(k, v)], r)
          | 44 :: 32 :: 34 :: s => '(ms, r) ← parse_members fuel s; Some ((k, v) :: ms, r)
          | _ => None
          end
      | _ => None
      end
  | O => None
  end.

Definition json_parse (s : list N) : option Value :=
  match parse_value (S (2 * length s)) s with Some (v, []) => Some v | _ => None end.

Lemma span_app p x r :
  forallb p x = true → match r with b :: _ => p b = false | [] => True end → span p (x ++ r) = (x, r).
Proof.
  intros Hx Hr. induction x as [|b x IH]; cbn [app forallb span] in *.
  - destruct r as [|b r]; [done|]. cbn [span]. by rewrite Hr.
  - apply andb_true_iff in Hx as [-> Hx]. by rewrite IH.
Qed.

Lemma parse_quoted_app x r : forallb plain x = true → parse_quoted (x ++ 34 :: r) = Some (x, r).
Proof. intros Hx. unfold parse_quoted. by rewrite span_app. Qed.

(** Induction on a value through the members of an object. *)
Lemma json_plain_ind (P : Value → Prop) :
  (∀ digits, json_plain (Value_Number digits) = true → P (Value_Number digits)) →
  (∀ s, forallb plain s = true → P (Value_String s)) →
  (∀ ms, Forall (λ kv, forallb plain kv.1 = true ∧ P kv.2) ms → P (Value_Object ms)) →
  ∀ v, json_plain v = true → P v.
Proof.
  intros Hn Hs Ho. fix IH 1. intros v. destruct v as [|b|digits|s|l|ms]; cbn [json_plain]; try done.
  - apply Hn.
  - apply Hs.
  - intros [_ Hms]%andb_true_iff. apply Ho. induction ms as [|[k v] ms IHms]; [done|]. cbn [forallb] in Hms.
    apply andb_true_iff in Hms as [[Hk Hv]%andb_true_iff Hms]. constructor; [|by apply IHms]. split; [done|]. by apply IH.
Qed.

Definition member_text (kv : list N * Value) : list N := match kv with (k, v) => quoted k ++ bytes ": " ++ json_text v end.

Definition members_text (ms : list (list N * Value)) : list N := comma_separated (map member_text ms).

Definition members_tail (ms : list (list N * Value)) : list N :=
  match ms with [] => [] | _ => 44 :: 32 :: members_text ms end.

(** The text of the members after the first quote. *)
Definition members_body (k : list N) (v : Value) (ms : list (list N * Value)) : list N :=
  k ++ 34 :: 58 :: 32 :: json_text v ++ members_tail ms.

Lemma members_text_cons k v ms : members_text ((k, v) :: ms) = 34 :: members_body k v ms.
Proof.
  unfold members_text, members_body. cbn [map]. unfold member_text at 1, quoted.
  destruct ms as [|kv ms]; cbn [map comma_separated members_tail].
  - rewrite app_nil_r, <-!app_assoc. done.
  - rewrite <-!app_assoc. done.
Qed.

(** What follows a value is not a digit. *)
Definition stops (r : list N) : Prop := match r with b :: _ => is_digit b = false | [] => True end.

Definition parses (v : Value) : Prop :=
  (1 ≤ length (json_text v))%nat ∧
  ∀ fuel r, (2 * length (json_text v) ≤ fuel)%nat → stops r → parse_value fuel (json_text v ++ r) = Some (v, r).

Lemma parse_members_text ms k v fuel r :
  Forall (λ kv, forallb plain kv.1 = true ∧ parses kv.2) ((k, v) :: ms) →
  (2 * length (members_body k v ms) ≤ fuel)%nat →
  parse_members fuel (members_body k v ms ++ 125 :: r) = Some ((k, v) :: ms, r).
Proof.
  revert k v fuel. induction ms as [|[k' v'] ms IH]; intros k v fuel [[Hk [_ Hv]] Hms]%Forall_cons;
    cbn [fst snd] in *; unfold members_body at 1 2; rewrite length_app; cbn [length]; rewrite length_app; cbn [length members_tail];
    (destruct fuel as [|fuel]; [lia|]); intros Hfuel;
    cbn [parse_members]; rewrite <-app_assoc; cbn [app]; rewrite parse_quoted_app by done; cbn [mbind option_bind].
  - rewrite app_nil_r, Hv by (done || lia). done.
  - rewrite <-app_assoc, Hv by (done || lia). cbn [mbind option_bind app].
    rewrite members_text_cons in *. cbn [app length] in *. rewrite IH; [done|done|lia].
Qed.

Lemma json_parses v : json_plain v = true → parses v.
Proof.
  revert v. apply json_plain_ind.
  - intros digits [Hd Hne]%andb_true_iff. unfold parses. cbn [json_text]. destruct digits as [|b digits]; [done|].
    split; [cbn; lia|]. intros fuel r Hfuel Hr. destruct fuel as [|fuel]; [cbn in Hfuel; lia|].
    pose proof (span_app is_digit (b :: digits) r Hd Hr) as Hspan.
    assert (Hb : is_digit b = true) by (cbn in Hd; by apply andb_true_iff in Hd as [? _]).
    cbn [json_text app] in *. assert (Hs : parse_value (S fuel) (b :: digits ++ r) =
      let '(x, r) := span is_digit (b :: digits ++ r) in Some (Value_Number x, r)).
    { unfold is_digit in Hb. apply andb_true_iff in Hb as [H1%N.leb_le H2%N.leb_le].
      assert (In b [48; 49; 50; 51; 52; 53; 54; 55; 56; 57]) as Hin.
      { assert (b = 48 ∨ b = 49 ∨ b = 50 ∨ b = 51 ∨ b = 52 ∨ b = 53 ∨ b = 54 ∨ b = 55 ∨ b = 56 ∨ b = 57) by lia. cbn. naive_solver. }
      cbn in Hin. by repeat destruct Hin as [<-|Hin]. }
    by rewrite Hs, Hspan.
  - intros x Hx. unfold parses. cbn [json_text]. unfold quoted. split; [cbn; lia|]. intros fuel r Hfuel _.
    destruct fuel as [|fuel]; [cbn in Hfuel; lia|].
    assert (([34] ++ x ++ [34]) ++ r = 34 :: x ++ 34 :: r) as -> by by rewrite <-!app_assoc.
    cbn [parse_value]. by rewrite parse_quoted_app.
  - intros ms Hms. unfold parses. change (json_text (Value_Object ms)) with (123 :: members_text ms ++ [125]).
    split; [cbn; lia|]. intros fuel r Hfuel _. destruct fuel as [|fuel]; [cbn in Hfuel; lia|].
    destruct ms as [|[k v] ms]; [done|].
    cbn [length] in Hfuel. rewrite length_app, members_text_cons in Hfuel. rewrite members_text_cons.
    assert ((123 :: (34 :: members_body k v ms) ++ [125]) ++ r = 123 :: 34 :: members_body k v ms ++ 125 :: r) as ->
      by (cbn [app]; by rewrite <-app_assoc).
    cbn [parse_value length] in *. rewrite (parse_members_text ms k v fuel r Hms); [done|lia].
Qed.

Lemma json_parse_text v : json_plain v = true → json_parse (json_text v) = Some v.
Proof.
  intros [_ Hv]%json_parses. unfold json_parse. specialize (Hv (S (2 * length (json_text v))) []).
  rewrite app_nil_r in Hv. by rewrite Hv by (done || lia).
Qed.

#[export] Instance serde_json_example : SerdeJson := {|
  json_from_str := json_parse;
  json_from_str_text := json_parse_text;
|}.
