(* ===== verification/PatriciaTheorems.v ===== *)
(** The properties of the Patricia-Merkle tree update, with their witnesses. *)
From S2P Require Import Prelude.
From S2P Require Import StarknetApi.
From S2P Require Import PatriciaTypes.
From S2P Require Import PatriciaTree.
From S2P Require Import PatriciaNode.
From S2P Require Import PatriciaSkeleton.
From S2P Require Import PatriciaUpdate.
From S2P Require Import PatriciaFilled.
From S2P Require Import PatriciaOriginal.
From S2P Require Import PatriciaStorage.
From S2P Require Import PatriciaFlow.
From S2P Require Import CommitterLeaf.
From S2P Require Import CommitterInstances.

(** ** A concrete tree

    Three storage leaves are written to an empty tree; then one of them is deleted, one
    changed and a new one added. *)
Module PatriciaScenario.

#[export] Instance order : HashOrder := canonical_order.

Definition value (v : N) : StarknetStorageValue := {| storage_value := v |}.

Definition leaves : gmap N StarknetStorageValue :=
  {[FIRST_LEAF + 1 := value 11; FIRST_LEAF + 2 := value 12; FIRST_LEAF + 7 := value 17]}.

Definition modifications : gmap N StarknetStorageValue :=
  {[FIRST_LEAF + 1 := value 0; FIRST_LEAF + 2 := value 22; FIRST_LEAF + 2 ^ 250 := value 5]}.

Definition storage : gmap (list N) (list N) := Eval vm_compute in
  match tree_computation_flow leaves ∅ 0 true with
  | Ok ft => storage_mset ∅ (FilledTree_serialize ft)
  | _ => ∅
  end.

Lemma leaf_indices_ok (m : gmap N StarknetStorageValue) :
  forallb (λ x, (N.log2 x =? 251) && (0 <? x)) (map_to_list m).*1 = true → on_leaves m.
Proof.
  rewrite forallb_forall. intros Hall x [l Hl].
  assert (Hin : In x (map_to_list m).*1).
  { apply list_elem_of_In. apply list_elem_of_fmap. exists (x, l). split; [done|]. by apply elem_of_map_to_list. }
  apply Hall, andb_true_iff in Hin as [H1%N.eqb_eq H2%N.ltb_lt]. split_and!; [lia|done|lia].
Qed.

Definition no_collision_among (l : list (list N * list N)) : bool :=
  forallb (λ a, forallb (λ b, bool_decide (a.1 ≠ b.1) || bool_decide (a.2 = b.2)) l) l.

Lemma collision_free_check (l : list (FilledNode StarknetStorageValue)) :
  no_collision_among ((λ n, (db_key n, FilledNode_serialize n)) <$> l) = true → collision_free l.
Proof.
  unfold no_collision_among. rewrite forallb_forall. intros Hall a b Ha Hb Hk.
  apply (list_elem_of_fmap_2 (λ n, (db_key n, FilledNode_serialize n))), list_elem_of_In in Ha, Hb.
  specialize (Hall _ Ha). rewrite forallb_forall in Hall.
  apply Hall, orb_true_iff in Hb as [Hne|Heq]; [by apply bool_decide_eq_true in Hne|by apply bool_decide_eq_true in Heq].
Qed.

Lemma leaves_values : no_empty_leaf leaves.
Proof. apply (bool_decide_unpack _). vm_compute. exact I. Qed.

Lemma leaves_stored : tree_stored storage leaves.
Proof.
  intros t Ht. vm_compute in Ht. injection Ht as <-.
  split; [repeat split; vm_compute; reflexivity|vm_compute; done].
Qed.

Lemma modified_leaves : on_leaves modifications.
Proof. apply leaf_indices_ok. vm_compute. reflexivity. Qed.

Lemma modified_ne : SortedLeafIndices_new (hash_keys modifications) ≠ [].
Proof. vm_compute. discriminate. Qed.

Lemma modifications_ok : map_Forall (λ _ l, leaf_ok l) modifications.
Proof.
  change (map_Forall (λ (_ : N) l, storage_value l < felt_prime) modifications).
  apply (bool_decide_unpack _). vm_compute. exact I.
Qed.

Lemma no_collision :
  collision_free (opt_nodes (canonical 251 ROOT leaves) ++
    opt_nodes (canonical 251 ROOT (apply_modifications modifications leaves))).
Proof. apply collision_free_check. vm_compute. reflexivity. Qed.

End PatriciaScenario.

(** ** The update of a tree *)

Section properties.
Context {L : Type} `{!Leaf L} `{!LeafLaws L} `{!TreeHashFunction L} `{!TreeHashLaws L} `{HashOrder}.

(** C10: let the storage hold the Patricia tree of the leaves [m]. For any set of leaf
    modifications (new, changed and deleted leaves, the last ones given by an empty value)
    the computation from the stored root returns, without an error or a panic, a filled
    tree whose root hash is the root hash of the tree defined by recursion on the height
    for the updated leaves. *)
Theorem tree_update_correct (leaf_modifications m : gmap N L) (storage : gmap (list N) (list N))
    (compare_modified_leaves : bool) :
  on_leaves leaf_modifications → no_empty_leaf m → tree_stored storage m →
  ∃ ft, tree_computation_flow leaf_modifications storage (root_hash_of (canonical 251 ROOT m))
          compare_modified_leaves = Ok ft ∧
    get_root_hash ft = root_hash_of (canonical 251 ROOT (apply_modifications leaf_modifications m)).
Proof.
  intros Hl Hm Hst. destruct (flow_filled leaf_modifications m storage compare_modified_leaves Hl Hm Hst)
    as (ft&?&?&_). by exists ft.
Qed.

(** After the nodes of the filled tree are written to the storage, the storage holds
    the whole tree of the updated leaves (the unmodified subtrees included), provided the
    hash does not collide on the nodes of the old and the new tree. The next update can
    start from it. *)
Theorem tree_storage_correct (leaf_modifications m : gmap N L) (storage : gmap (list N) (list N))
    (compare_modified_leaves : bool) :
  let m' := apply_modifications leaf_modifications m in
  on_leaves leaf_modifications → no_empty_leaf m → map_Forall (λ _ l, leaf_ok l) leaf_modifications →
  tree_stored storage m →
  collision_free (opt_nodes (canonical 251 ROOT m) ++ opt_nodes (canonical 251 ROOT m')) →
  (∀ t, canonical 251 ROOT m' = Some t → tree_hash t ≠ ROOT_OF_EMPTY_TREE) →
  ∃ ft, tree_computation_flow leaf_modifications storage (root_hash_of (canonical 251 ROOT m))
          compare_modified_leaves = Ok ft ∧
    tree_stored (storage_mset storage (FilledTree_serialize ft)) m'.
Proof. apply flow_storage. Qed.

(** The updated skeleton computed from an original skeleton and the modifications is
    exactly the skeleton of the reference tree of the updated leaves: the same nodes at the
    same indices, with every subtree without a modified leaf kept as one unmodified node.
    The computation neither panics nor leaves a node behind. *)
Theorem updated_skeleton_exact (m m' : gmap N L) (Ls : list N) (modifications : gmap N SkeletonLeaf)
    (original : OriginalSkeletonTreeImpl) :
  leaf_slice Ls → Ls ≠ [] →
  (∀ x, at_height 0 x → x ∉ Ls → m' !! x = m !! x) →
  (∀ x, modifications !! x = Some NonZero ↔ x ∈ Ls ∧ is_Some (m' !! x)) →
  modifications ≠ ∅ →
  sorted_leaf_indices original = Ls → is_original_skeleton m Ls (nodes original) →
  ∃ sk, UpdatedSkeleton_create original modifications = Ok sk ∧
    ∀ j n, sk !! j = Some n ↔ ∃ t, canonical 251 ROOT m' = Some t ∧ in_skel Ls ROOT t j n.
Proof.
  intros HLs Hne Hsame Hmods Hmne Hsort Ho.
  exact (skeleton_create_ok m m' Ls modifications HLs Hsame Hmods original Hsort Hne Hmne Ho).
Qed.

(** reading the original skeleton together with the previous leaves returns the skeleton
    of the stored tree for the modified indices and, for every modified index, the leaf the
    stored tree holds there, or the default leaf where it holds none. *)
Theorem original_skeleton_correct (m leaf_modifications : gmap N L) (storage : gmap (list N) (list N))
    (Ls : list N) (compare_modified_leaves : bool) :
  leaf_slice Ls → Ls ≠ [] →
  (compare_modified_leaves = true → ∀ x, x ∈ Ls → is_Some (leaf_modifications !! x)) →
  tree_stored storage m →
  ∃ original leaves,
    create_and_get_previous_leaves_impl storage (root_hash_of (canonical 251 ROOT m)) Ls leaf_modifications
      compare_modified_leaves = Ok (original, leaves) ∧
    sorted_leaf_indices original = Ls ∧
    (∀ j n, nodes original !! j = Some n ↔
       ∃ t, canonical 251 ROOT m = Some t ∧ in_skel Ls ROOT t j (to_updated n)) ∧
    (∀ x, x ∈ Ls → leaves !! x = Some (default leaf_default (m !! x))).
Proof. apply create_and_get_previous_leaves_ok. Qed.

(** filling the updated skeleton from leaf inputs computes every modified leaf from its
    input, and the root hash and the filled nodes are those of the reference tree of the
    computed leaves. The returned leaf outputs are those of the modified leaves of the tree. *)
Theorem filled_tree_from_inputs (m' : gmap N L) (Ls : list N) (sk : gmap N UpdatedSkeletonNode)
    (inputs : gmap N LeafInput) :
  leaf_slice Ls → Ls ≠ [] → is_updated_skeleton m' Ls sk → inputs ≠ ∅ →
  (∀ x l, x ∈ Ls → m' !! x = Some l →
     is_empty l = false ∧ ∃ inp o, inputs !! x = Some inp ∧ leaf_create inp = Ok (l, o)) →
  ∃ ft outputs, FilledTree_create sk inputs = Ok (ft, outputs) ∧
    get_root_hash ft = root_hash_of (canonical 251 ROOT m') ∧ is_filled_tree m' Ls (tree_map ft) ∧
    ∀ x o, outputs !! x = Some o ↔
      x ∈ Ls ∧ ∃ l inp, m' !! x = Some l ∧ inputs !! x = Some inp ∧ leaf_create inp = Ok (l, o).
Proof. intros HLs Hne. by apply create_ok. Qed.

(** A filled node is read back from its storage value as it was written: the two hashes
    of a binary node, the bottom hash, the path and the length of an edge, and the leaf. *)
Theorem node_serde_roundtrip (n : FilledNode L) :
  data_ok (data n) →
  FilledNode_deserialize (hash n) (FilledNode_serialize n) (data_is_leaf (data n)) = Ok n.
Proof. apply deserialize_serialize. Qed.
End properties.

(** ** Paths *)

(** [get_lca] of two node indices returns, without a panic, an ancestor of both that
    every other common ancestor is above. *)
Theorem lca_correct (a b : N) :
  0 < a ≤ NodeIndex_MAX → 0 < b ≤ NodeIndex_MAX →
  ∃ c, get_lca (E:=unit) a b = Ok c ∧ below c a ∧ below c b ∧ ∀ d, below d a → below d b → below d c.
Proof. intros [??] [??]. by apply get_lca_ok. Qed.

(** paths between nodes compose and decompose. For a node [j] below [i] and [k] below
    [j], the path from [i] to [k] is the concatenation of the two paths, following it from
    [i] leads to [k], and removing its first edges gives the path from [j] to [k]. *)
Theorem path_roundtrip (i j k : N) :
  below i j → below j k → k ≤ NodeIndex_MAX →
  ∃ p q r, get_path_to_descendant (E:=unit) i j = Ok p ∧ get_path_to_descendant (E:=unit) j k = Ok q ∧
    get_path_to_descendant (E:=unit) i k = Ok r ∧ concat_paths (E:=unit) p q = Ok r ∧
    bottom_index (E:=unit) r i = Ok k ∧ remove_first_edges r (path_length p) = Ok q.
Proof.
  intros Hij Hjk Hk. destruct (below_pos _ _ Hij) as [Hi Hj]. destruct (below_pos _ _ Hjk) as [_ Hk0].
  assert (Hk251 : N.log2 k ≤ 251) by (change 251 with (N.log2 NodeIndex_MAX); by apply N.log2_le_mono).
  assert (Hjm : j ≤ NodeIndex_MAX) by (pose proof (below_le _ _ Hjk); lia).
  destruct (get_path_to_descendant_ok (E:=unit) i j) as (p&Hp&Hpok&Hpb&Hpl); [done|done|].
  destruct (get_path_to_descendant_ok (E:=unit) j k) as (q&Hq&Hqok&Hqb&Hql); [done|done|].
  destruct (get_path_to_descendant_ok (E:=unit) i k) as (r&Hr&Hrok&Hrb&Hrl); [by apply (below_trans i j k)|done|].
  assert (r = path_concat p q) as ->.
  { apply (bottom_inj i); [done|done|apply path_concat_ok; [done..|lia]|]. by rewrite bottom_concat, Hpb, Hqb. }
  exists p, q, (path_concat p q). split_and!; [done..| | |].
  - apply concat_paths_ok; [done..|lia].
  - rewrite <-Hrb. apply bottom_index_ok; [done..|lia].
  - apply remove_first_edges_ok; [done|lia].
Qed.

(** ** Witnesses *)

Section witnesses.
Import PatriciaScenario.

(** The update that deletes, changes and adds a leaf. *)
Lemma tree_update_correct_witness : ∃ ft,
  tree_computation_flow modifications storage (root_hash_of (canonical 251 ROOT leaves)) true = Ok ft ∧
  get_root_hash ft = root_hash_of (canonical 251 ROOT (apply_modifications modifications leaves)).
Proof.
  apply (tree_update_correct modifications leaves storage true); [|exact leaves_values|exact leaves_stored].
  apply leaf_indices_ok. vm_compute. reflexivity.
Defined.

Lemma tree_storage_correct_witness : ∃ ft,
  tree_computation_flow modifications storage (root_hash_of (canonical 251 ROOT leaves)) true = Ok ft ∧
  tree_stored (storage_mset storage (FilledTree_serialize ft)) (apply_modifications modifications leaves).
Proof.
  apply (tree_storage_correct modifications leaves storage true).
  - apply leaf_indices_ok. vm_compute. reflexivity.
  - exact leaves_values.
  - exact modifications_ok.
  - exact leaves_stored.
  - exact no_collision.
  - intros t Ht. vm_compute in Ht. injection Ht as <-. vm_compute. discriminate.
Defined.

Lemma updated_skeleton_exact_witness : ∃ original sk,
  UpdatedSkeleton_create original (skeleton_modifications modifications) = Ok sk ∧
  (∀ j n, sk !! j = Some n ↔
     ∃ t, canonical 251 ROOT (apply_modifications modifications leaves) = Some t ∧
       in_skel (SortedLeafIndices_new (hash_keys modifications)) ROOT t j n).
Proof.
  destruct (create_impl_ok storage leaves _ modifications true (proj1 (sorted_keys _ modified_leaves)) modified_ne)
    as (original&_&Hsort&Ho); [|exact leaves_stored|].
  { intros _ x. apply (sorted_keys _ modified_leaves). }
  exists original. apply (updated_skeleton_exact leaves); [|exact modified_ne| | | |exact Hsort|exact Ho].
  - exact (proj1 (sorted_keys _ modified_leaves)).
  - intros x _. apply unmodified_leaves; [apply (sorted_keys _ modified_leaves)|exact leaves_values].
  - intros x. apply skeleton_modifications_ok, (sorted_keys _ modified_leaves).
  - rewrite skeleton_modifications_empty. discriminate.
Defined.

Lemma original_skeleton_correct_witness : ∃ original previous,
  create_and_get_previous_leaves_impl storage (root_hash_of (canonical 251 ROOT leaves))
    (SortedLeafIndices_new (hash_keys modifications)) modifications true = Ok (original, previous) ∧
  sorted_leaf_indices original = SortedLeafIndices_new (hash_keys modifications) ∧
  (∀ j n, nodes original !! j = Some n ↔ ∃ t, canonical 251 ROOT leaves = Some t ∧
     in_skel (SortedLeafIndices_new (hash_keys modifications)) ROOT t j (to_updated n)) ∧
  (∀ x, x ∈ SortedLeafIndices_new (hash_keys modifications) →
     previous !! x = Some (default leaf_default (leaves !! x))).
Proof.
  apply (original_skeleton_correct leaves); [|exact modified_ne| |exact leaves_stored].
  - exact (proj1 (sorted_keys _ modified_leaves)).
  - intros _ x. apply (sorted_keys _ modified_leaves).
Defined.

Lemma filled_tree_from_inputs_witness : ∃ sk ft outputs,
  FilledTree_create (L:=StarknetStorageValue) sk modifications = Ok (ft, outputs) ∧
  get_root_hash ft = root_hash_of (canonical 251 ROOT (apply_modifications modifications ∅)) ∧
  is_filled_tree (apply_modifications modifications ∅) (SortedLeafIndices_new (hash_keys modifications)) (tree_map ft) ∧
  ∀ x o, outputs !! x = Some o ↔ x ∈ SortedLeafIndices_new (hash_keys modifications) ∧
    ∃ l inp, apply_modifications modifications ∅ !! x = Some l ∧ modifications !! x = Some inp ∧
      leaf_create (L:=StarknetStorageValue) inp = Ok (l, o).
Proof.
  assert (Hst : tree_stored ∅ (∅ : gmap N StarknetStorageValue)) by (intros t Ht; vm_compute in Ht; discriminate).
  destruct (sorted_keys _ modified_leaves) as [HLs Hin].
  destruct (create_impl_ok ∅ ∅ _ modifications true HLs modified_ne) as (original&_&Hsort&Ho);
    [intros _ x; apply Hin|exact Hst|].
  destruct (skeleton_create_ok ∅ (apply_modifications modifications ∅) _ (skeleton_modifications modifications) HLs
    (λ x _, unmodified_leaves ∅ modifications _ Hin (map_Forall_empty _) x)
    (skeleton_modifications_ok ∅ modifications _ Hin) original) as (sk&_&Hsk);
    [exact Hsort|exact modified_ne|rewrite skeleton_modifications_empty; discriminate|exact Ho|].
  exists sk. apply (filled_tree_from_inputs (L:=StarknetStorageValue) (Leaf0:=StarknetStorageValue_leaf) (apply_modifications modifications ∅)
    (SortedLeafIndices_new (hash_keys modifications)) sk modifications);
    [exact HLs|exact modified_ne|exact Hsk|discriminate|].
  intros x l [l' Hl']%Hin Hl. rewrite (apply_modified _ _ _ _ Hl') in Hl.
  destruct (is_empty l') eqn:He; [discriminate|]. injection Hl as <-.
  split; [exact He|]. exists l', tt. split; [exact Hl'|reflexivity].
Defined.

Lemma node_serde_roundtrip_witness :
  let n := {| hash := 77; data := Data_Edge {| bottom_hash := 5; path_to_bottom := {| path := 6; path_length := 4 |} |} |} in
  FilledNode_deserialize (L:=StarknetStorageValue) 77 (FilledNode_serialize n) false = Ok n.
Proof.
  apply (node_serde_roundtrip (L:=StarknetStorageValue)
    {| hash := 77; data := Data_Edge {| bottom_hash := 5; path_to_bottom := {| path := 6; path_length := 4 |} |} |}).
  vm_compute. repeat split; discriminate.
Defined.
End witnesses.

Lemma path_roundtrip_witness : ∃ p q r,
  get_path_to_descendant (E:=unit) 5 21 = Ok p ∧ get_path_to_descendant (E:=unit) 21 171 = Ok q ∧
  get_path_to_descendant (E:=unit) 5 171 = Ok r ∧ concat_paths (E:=unit) p q = Ok r ∧
  bottom_index (E:=unit) r 5 = Ok 171 ∧ remove_first_edges r (path_length p) = Ok q.
Proof.
  apply (path_roundtrip 5 21 171).
  - split; [reflexivity|exists 2; reflexivity].
  - split; [reflexivity|exists 3; reflexivity].
  - vm_compute. discriminate.
Defined.
