(* ===== verification/Committer.v ===== *)
(** The commitment of a block (crates/starknet_committer/src): the state diff of a block is
    applied to the forest of the contracts trie, the classes trie and one storage trie for
    each contract.

    - block_committer/input.rs: [StateDiff] and the modifications it stands for.
    - block_committer/commit.rs: [commit_block].
    - forest/original_skeleton_forest.rs, updated_skeleton_forest.rs, filled_forest.rs: the
      steps over all the tries.

    Addresses, class hashes, storage keys and nonces are felts. A loop over a [HashMap] runs
    over its entries in the order [hash_iter], and collecting into a [HashMap] keeps the last
    entry of a key. Logging is left out. *)
From S2P Require Import Prelude.
From S2P Require Import StarknetApi.
From S2P Require Import PatriciaTypes.
From S2P Require Import PatriciaTree.
From S2P Require Import PatriciaNode.
From S2P Require Import PatriciaSkeleton.
From S2P Require Import PatriciaUpdate.
From S2P Require Import PatriciaFilled.
From S2P Require Import PatriciaOriginal.
From S2P Require Import CommitterLeaf.

Inductive ForestError :=
| ForestError_OriginalSkeleton (e : OriginalSkeletonTreeError)
| ForestError_UpdatedSkeleton (e : UpdatedSkeletonTreeError)
| ForestError_ClassesTrie (e : FilledTreeError)
| ForestError_ContractsTrie (e : FilledTreeError)
| MissingContractCurrentState (address : N)
| MissingOriginalSkeleton (address : N)
| MissingUpdatedSkeleton (address : N)
| MissingSortedLeafIndices (address : N)
| ForestError_JoinError
| ForestError_StorageTrie (e : FilledTreeError).

(** ** The input *)

Record StateDiff := {
  address_to_class_hash : gmap N N;
  address_to_nonce : gmap N N;
  class_hash_to_compiled_class_hash : gmap N CompiledClassHash;
  storage_updates : gmap N (gmap N StarknetStorageValue);
}.

Record Input := {
  input_storage : gmap (list N) (list N);
  state_diff : StateDiff;
  contracts_trie_root_hash : N;
  classes_trie_root_hash : N;
  warn_on_trivial_modifications : bool;
}.

(** [TryFrom<&NodeIndex> for ContractAddress]; [None] is the error. *)
Definition ContractAddress_try_from {E} (node_index : N) : result E (option N) :=
  if negb (is_leaf node_index) then Ok None
  else
    index ← NodeIndex_sub node_index FIRST_LEAF;
    Ok (Felt_try_from index).

Section committer.
Context `{HashOrder}.

(** [iter().map(f).collect::<HashMap<_, _>>()], where [f] can panic or the loop return. *)
Definition collect_map {E A K V} `{Countable K} (f : A → result E (K * V)) (l : list A) : result E (gmap K V) :=
  pairs ← mapM f l;
  Ok (list_to_map (reverse pairs)).

Definition hash_elements (s : gset N) : list N := hash_keys (gset_to_gmap tt s).

Definition accessed_addresses (self : StateDiff) : gset N :=
  list_to_set (hash_keys (address_to_class_hash self) ++ hash_keys (address_to_nonce self) ++
               hash_keys (storage_updates self)).

(** The modifications of a trie by leaf index. *)
Definition by_index {E V W} (f : V → W) (updates : gmap N V) : result E (gmap N W) :=
  collect_map (λ kv, index ← from_leaf_felt kv.1; Ok (index, f kv.2)) (hash_iter updates).

Definition skeleton_storage_updates {E} (self : StateDiff) : result E (gmap N (gmap N SkeletonLeaf)) :=
  collect_map (λ address,
    updates ← match storage_updates self !! address with
              | Some inner_updates => by_index (λ value, SkeletonLeaf_from (storage_value value)) inner_updates
              | None => Ok ∅
              end;
    Ok (address, updates)) (hash_elements (accessed_addresses self)).

Definition skeleton_classes_updates {E} (self : StateDiff) : result E (gmap N SkeletonLeaf) :=
  by_index (λ hash, SkeletonLeaf_from (compiled_class_hash hash)) (class_hash_to_compiled_class_hash self).

Definition actual_storage_updates {E} (self : StateDiff) : result E (gmap N (gmap N StarknetStorageValue)) :=
  collect_map (λ address,
    updates ← match storage_updates self !! address with
              | Some inner_updates => by_index id inner_updates
              | None => Ok ∅
              end;
    Ok (address, updates)) (hash_elements (accessed_addresses self)).

Definition actual_classes_updates {E} (self : StateDiff) : result E (gmap N CompiledClassHash) :=
  by_index id (class_hash_to_compiled_class_hash self).

(** ** Modified indices (commit.rs) *)

Definition get_all_modified_indices {E} (diff : StateDiff) : result E (gmap N (list N) * list N * list N) :=
  let accessed := accessed_addresses diff in
  contracts_trie_indices ← mapM from_leaf_felt (hash_elements accessed);
  classes_trie_indices ← mapM from_leaf_felt (hash_keys (class_hash_to_compiled_class_hash diff));
  storage_tries_indices ← collect_map (λ address,
    indices ← match storage_updates diff !! address with
              | Some updates => mapM from_leaf_felt (hash_keys updates)
              | None => Ok []
              end;
    Ok (address, indices)) (hash_elements accessed);
  Ok (storage_tries_indices, contracts_trie_indices, classes_trie_indices).

Record ForestSortedIndices := {
  storage_tries_sorted_indices : gmap N (list N);
  contracts_trie_sorted_indices : list N;
  classes_trie_sorted_indices : list N;
}.

Context `{!Pedersen} `{!Poseidon} `{!FeltHex} `{!SerdeJson}.

(** ** The original skeletons (original_skeleton_forest.rs) *)

Record OriginalSkeletonForest := {
  original_classes_trie : OriginalSkeletonTreeImpl;
  original_contracts_trie : OriginalSkeletonTreeImpl;
  original_storage_tries : gmap N OriginalSkeletonTreeImpl;
}.

(** The configuration of the contracts trie does not compare leaves. *)
Definition create_contracts_trie (contracts_trie_root_hash : N) (storage : gmap (list N) (list N))
    (contracts_trie_sorted_indices : list N)
    : result ForestError (OriginalSkeletonTreeImpl * gmap N ContractState) :=
  map_err ForestError_OriginalSkeleton
    (create_and_get_previous_leaves_impl storage contracts_trie_root_hash contracts_trie_sorted_indices ∅ false).

Definition create_storage_tries (actual_storage_updates : gmap N (gmap N StarknetStorageValue))
    (original_contracts_trie_leaves : gmap N ContractState) (storage : gmap (list N) (list N))
    (warn_on_trivial_modifications : bool) (storage_tries_sorted_indices : gmap N (list N))
    : result ForestError (gmap N OriginalSkeletonTreeImpl) :=
  collect_map (λ '(address, updates),
    sorted_leaf_indices ← ok_or (storage_tries_sorted_indices !! address) (MissingSortedLeafIndices address);
    index ← from_leaf_felt address;
    contract_state ← ok_or (original_contracts_trie_leaves !! index) (MissingContractCurrentState address);
    original_skeleton ← map_err ForestError_OriginalSkeleton
      (create_impl storage (storage_root_hash contract_state) sorted_leaf_indices warn_on_trivial_modifications updates);
    Ok (address, original_skeleton)) (hash_iter actual_storage_updates).

Definition create_classes_trie (actual_classes_updates : gmap N CompiledClassHash) (classes_trie_root_hash : N)
    (storage : gmap (list N) (list N)) (warn_on_trivial_modifications : bool)
    (classes_trie_sorted_indices : list N) : result ForestError OriginalSkeletonTreeImpl :=
  map_err ForestError_OriginalSkeleton
    (create_impl storage classes_trie_root_hash classes_trie_sorted_indices warn_on_trivial_modifications
       actual_classes_updates).

Definition OriginalSkeletonForest_create (storage : gmap (list N) (list N))
    (contracts_trie_root_hash classes_trie_root_hash : N)
    (storage_updates : gmap N (gmap N StarknetStorageValue)) (classes_updates : gmap N CompiledClassHash)
    (forest_sorted_indices : ForestSortedIndices) (warn_on_trivial_modifications : bool)
    : result ForestError (OriginalSkeletonForest * gmap N ContractState) :=
  contracts ← create_contracts_trie contracts_trie_root_hash storage
                (contracts_trie_sorted_indices forest_sorted_indices);
  storage_tries ← create_storage_tries storage_updates contracts.2 storage warn_on_trivial_modifications
                    (storage_tries_sorted_indices forest_sorted_indices);
  classes_trie ← create_classes_trie classes_updates classes_trie_root_hash storage warn_on_trivial_modifications
                   (classes_trie_sorted_indices forest_sorted_indices);
  Ok ({| original_classes_trie := classes_trie; original_contracts_trie := contracts.1;
         original_storage_tries := storage_tries |}, contracts.2).

(** ** The updated skeletons (updated_skeleton_forest.rs) *)

Record UpdatedSkeletonForest := {
  updated_classes_trie : gmap N UpdatedSkeletonNode;
  updated_contracts_trie : gmap N UpdatedSkeletonNode;
  updated_storage_tries : gmap N (gmap N UpdatedSkeletonNode);
}.

Definition updated_contract_skeleton_leaf (new_nonce new_class_hash : option N) (previous_state : ContractState)
    (storage_becomes_empty : bool) : SkeletonLeaf :=
  let actual_new_nonce := default (nonce previous_state) new_nonce in
  let actual_new_class_hash := default (class_hash previous_state) new_class_hash in
  if storage_becomes_empty && bool_decide (actual_new_nonce = 0) && bool_decide (actual_new_class_hash = 0)
  then Zero else NonZero.

(** One iteration of the loop over the storage tries: the entries of [storage_tries] and
    of [contracts_trie_leaves]. *)
Definition update_storage_trie (original_storage_tries : gmap N OriginalSkeletonTreeImpl)
    (original_contracts_trie_leaves : gmap N ContractState) (address_to_class_hash address_to_nonce : gmap N N)
    (entry : N * gmap N SkeletonLeaf)
    : result ForestError ((N * gmap N UpdatedSkeletonNode) * (N * SkeletonLeaf)) :=
  let '(address, updates) := entry in
  original_storage_trie ← ok_or (original_storage_tries !! address) (MissingOriginalSkeleton address);
  updated_storage_trie ← map_err ForestError_UpdatedSkeleton (UpdatedSkeleton_create original_storage_trie updates);
  storage_trie_becomes_empty ← UpdatedSkeleton_is_empty updated_storage_trie;
  index ← from_leaf_felt address;
  current_leaf ← ok_or (original_contracts_trie_leaves !! index) (MissingContractCurrentState address);
  let skeleton_leaf := updated_contract_skeleton_leaf (address_to_nonce !! address)
                         (address_to_class_hash !! address) current_leaf storage_trie_becomes_empty in
  Ok ((address, updated_storage_trie), (index, skeleton_leaf)).

Definition UpdatedSkeletonForest_create (original_skeleton_forest : OriginalSkeletonForest)
    (class_hash_leaf_modifications : gmap N SkeletonLeaf) (storage_updates : gmap N (gmap N SkeletonLeaf))
    (original_contracts_trie_leaves : gmap N ContractState) (address_to_class_hash address_to_nonce : gmap N N)
    : result ForestError UpdatedSkeletonForest :=
  classes_trie ← map_err ForestError_UpdatedSkeleton
    (UpdatedSkeleton_create (original_classes_trie original_skeleton_forest) class_hash_leaf_modifications);
  entries ← mapM (update_storage_trie (original_storage_tries original_skeleton_forest)
                    original_contracts_trie_leaves address_to_class_hash address_to_nonce)
              (hash_iter storage_updates);
  let storage_tries := list_to_map (reverse entries.*1) in
  let contracts_trie_leaves := list_to_map (reverse entries.*2) in
  contracts_trie ← map_err ForestError_UpdatedSkeleton
    (UpdatedSkeleton_create (original_contracts_trie original_skeleton_forest) contracts_trie_leaves);
  Ok {| updated_classes_trie := classes_trie; updated_contracts_trie := contracts_trie;
        updated_storage_tries := storage_tries |}.

(** ** The filled tries (filled_forest.rs) *)

Record FilledForest := {
  filled_storage_tries : gmap N (FilledTreeImpl StarknetStorageValue);
  filled_contracts_trie : FilledTreeImpl ContractState;
  filled_classes_trie : FilledTreeImpl CompiledClassHash;
}.

(** Each skeleton is removed from the map when it is used. *)
Fixpoint contract_inputs (original_contracts_trie_leaves : gmap N ContractState)
    (address_to_class_hash address_to_nonce : gmap N N)
    (updates : list (N * gmap N StarknetStorageValue))
    (contract_address_to_storage_skeleton : gmap N (gmap N UpdatedSkeletonNode))
    (leaf_index_to_leaf_input : gmap N ContractStateInput) : result ForestError (gmap N ContractStateInput) :=
  match updates with
  | [] => Ok leaf_index_to_leaf_input
  | (contract_address, storage_updates) :: updates =>
      node_index ← from_leaf_felt contract_address;
      original_contract_state ← ok_or (original_contracts_trie_leaves !! node_index)
                                  (MissingContractCurrentState contract_address);
      updated_skeleton ← ok_or (contract_address_to_storage_skeleton !! contract_address)
                           (MissingUpdatedSkeleton contract_address);
      let input := {|
        leaf_index := node_index;
        input_nonce := default (nonce original_contract_state) (address_to_nonce !! contract_address);
        input_class_hash := default (class_hash original_contract_state) (address_to_class_hash !! contract_address);
        input_updated_skeleton := updated_skeleton;
        input_storage_updates := storage_updates;
      |} in
      contract_inputs original_contracts_trie_leaves address_to_class_hash address_to_nonce updates
        (delete contract_address contract_address_to_storage_skeleton)
        (<[node_index := input]> leaf_index_to_leaf_input)
  end.

Definition get_contracts_trie_leaf_input (original_contracts_trie_leaves : gmap N ContractState)
    (contract_address_to_storage_updates : gmap N (gmap N StarknetStorageValue))
    (contract_address_to_storage_skeleton : gmap N (gmap N UpdatedSkeletonNode))
    (address_to_class_hash address_to_nonce : gmap N N) : result ForestError (gmap N ContractStateInput) :=
  _ ← check (bool_decide (size contract_address_to_storage_updates = size contract_address_to_storage_skeleton));
  contract_inputs original_contracts_trie_leaves address_to_class_hash address_to_nonce
    (hash_iter contract_address_to_storage_updates) contract_address_to_storage_skeleton ∅.

(** [task.await?.map_err(f)?]. *)
Definition await_trie {A} (f : FilledTreeError → ForestError) (task : result FilledTreeError A) : result ForestError A :=
  match task with Ok a => Ok a | Err e => Err (f e) | Panic => Err ForestError_JoinError end.

Definition FilledForest_create (updated_forest : UpdatedSkeletonForest)
    (storage_updates : gmap N (gmap N StarknetStorageValue)) (classes_updates : gmap N CompiledClassHash)
    (original_contracts_trie_leaves : gmap N ContractState) (address_to_class_hash address_to_nonce : gmap N N)
    : result ForestError FilledForest :=
  inputs ← get_contracts_trie_leaf_input original_contracts_trie_leaves storage_updates
             (updated_storage_tries updated_forest) address_to_class_hash address_to_nonce;
  classes_trie ← await_trie ForestError_ClassesTrie
                   (create_with_existing_leaves (updated_classes_trie updated_forest) classes_updates);
  contracts ← await_trie ForestError_ContractsTrie
                (FilledTree_create (Leaf0:=ContractState_leaf) (updated_contracts_trie updated_forest) inputs);
  storage_tries ← collect_map (λ kv,
    converted ← ContractAddress_try_from kv.1;
    address ← ok_or_panic converted;
    Ok (address, kv.2)) (hash_iter contracts.2);
  Ok {| filled_storage_tries := storage_tries; filled_contracts_trie := contracts.1;
        filled_classes_trie := classes_trie |}.

Definition get_contract_root_hash (self : FilledForest) : N := get_root_hash (filled_contracts_trie self).
Definition get_compiled_class_root_hash (self : FilledForest) : N := get_root_hash (filled_classes_trie self).

Definition new_db_objects (self : FilledForest) : gmap (list N) (list N) :=
  list_to_map (reverse (
    mjoin ((λ kv, hash_iter (FilledTree_serialize kv.2)) <$> hash_iter (filled_storage_tries self)) ++
    hash_iter (FilledTree_serialize (filled_contracts_trie self)) ++
    hash_iter (FilledTree_serialize (filled_classes_trie self)))).

Definition write_to_storage (self : FilledForest) (storage : gmap (list N) (list N)) : gmap (list N) (list N) :=
  storage_mset storage (new_db_objects self).

(** ** The commitment (commit.rs) *)

(** The addresses that are warned about: those whose update is trivial. *)
Definition trivial_updates {E} (original_contracts_trie_leaves : gmap N ContractState) (field : ContractState → N)
    (updates : gmap N N) : result E (list N) :=
  warned ← mapM (λ kv,
    index ← from_leaf_felt kv.1;
    Ok (match original_contracts_trie_leaves !! index with
        | Some previous => if decide (field previous = kv.2) then [kv.1] else []
        | None => []
        end)) (hash_iter updates);
  Ok (mjoin warned).

Definition check_trivial_nonce_and_class_hash_updates {E} (original_contracts_trie_leaves : gmap N ContractState)
    (address_to_class_hash address_to_nonce : gmap N N) : result E (list N * list N) :=
  nonces ← trivial_updates original_contracts_trie_leaves nonce address_to_nonce;
  class_hashes ← trivial_updates original_contracts_trie_leaves class_hash address_to_class_hash;
  Ok (nonces, class_hashes).

Definition commit_block (input : Input) : result ForestError FilledForest :=
  let diff := state_diff input in
  indices ← get_all_modified_indices diff;
  let '(storage_tries_indices, contracts_trie_indices, classes_trie_indices) := indices in
  let forest_sorted_indices := {|
    storage_tries_sorted_indices := SortedLeafIndices_new <$> storage_tries_indices;
    contracts_trie_sorted_indices := SortedLeafIndices_new contracts_trie_indices;
    classes_trie_sorted_indices := SortedLeafIndices_new classes_trie_indices;
  |} in
  actual_storage_updates ← actual_storage_updates diff;
  actual_classes_updates ← actual_classes_updates diff;
  original ← OriginalSkeletonForest_create (input_storage input) (contracts_trie_root_hash input)
               (classes_trie_root_hash input) actual_storage_updates actual_classes_updates
               forest_sorted_indices (warn_on_trivial_modifications input);
  _ ← (if warn_on_trivial_modifications input then
         check_trivial_nonce_and_class_hash_updates original.2 (address_to_class_hash diff) (address_to_nonce diff)
       else Ok ([], []));
  skeleton_classes ← skeleton_classes_updates diff;
  skeleton_storage ← skeleton_storage_updates diff;
  updated_forest ← UpdatedSkeletonForest_create original.1 skeleton_classes skeleton_storage original.2
                     (address_to_class_hash diff) (address_to_nonce diff);
  FilledForest_create updated_forest actual_storage_updates actual_classes_updates original.2
    (address_to_class_hash diff) (address_to_nonce diff).
End committer.
