(* ===== verification/CommitterSpec.v ===== *)
(** What a commitment means: the state of the chain as maps, the effect of a state diff on
    it, and the tries that represent it.

    A state gives each contract its nonce, class hash and storage, and each declared class
    its compiled class hash. A trie holds at the index [FIRST_LEAF + k] the leaf of key [k];
    the leaf of a contract holds the root hash of its storage trie. *)
From S2P Require Import Prelude.
From S2P Require Import StarknetApi.
From S2P Require Import PatriciaTypes.
From S2P Require Import PatriciaTree.
From S2P Require Import PatriciaNode.
From S2P Require Import PatriciaUpdate.
From S2P Require Import PatriciaOriginal.
From S2P Require Import PatriciaStorage.
From S2P Require Import PatriciaFlow.
From S2P Require Import CommitterLeaf.
From S2P Require Import Committer.

Record Contract := {
  contract_nonce : N;
  contract_class_hash : N;
  contract_storage : gmap N StarknetStorageValue;
}.

Record ChainState := {
  contracts : gmap N Contract;
  classes : gmap N CompiledClassHash;
}.

#[global] Instance Contract_eq_dec : EqDecision Contract.
Proof. solve_decision. Defined.

Definition empty_contract : Contract :=
  {| contract_nonce := 0; contract_class_hash := 0; contract_storage := ∅ |}.

Definition contract_of (σ : ChainState) (a : N) : Contract := default empty_contract (contracts σ !! a).

(** ** The effect of a state diff *)

Definition modified (d : StateDiff) : gset N :=
  dom (address_to_class_hash d) ∪ dom (address_to_nonce d) ∪ dom (storage_updates d).

Definition storage_changes (d : StateDiff) (a : N) : gmap N StarknetStorageValue :=
  default ∅ (storage_updates d !! a).

(** A value of zero deletes the key. *)
Definition update_storage (changes old : gmap N StarknetStorageValue) : gmap N StarknetStorageValue :=
  filter (λ kv, storage_value kv.2 ≠ 0) (changes ∪ old).

Definition update_contract (d : StateDiff) (a : N) (c : Contract) : Contract := {|
  contract_nonce := default (contract_nonce c) (address_to_nonce d !! a);
  contract_class_hash := default (contract_class_hash c) (address_to_class_hash d !! a);
  contract_storage := update_storage (storage_changes d a) (contract_storage c);
|}.

(** The table of a function on a finite set. *)
Definition tabulate {V} (f : N → V) (A : gset N) : gmap N V :=
  map_imap (λ a _, Some (f a)) (gset_to_gmap tt A).

(** A contract with nothing left in it is removed. *)
Definition apply_state_diff (d : StateDiff) (σ : ChainState) : ChainState := {|
  contracts := filter (λ kv, kv.2 ≠ empty_contract)
    (tabulate (λ a, update_contract d a (contract_of σ a)) (modified d) ∪ contracts σ);
  classes := filter (λ kv, compiled_class_hash kv.2 ≠ 0) (class_hash_to_compiled_class_hash d ∪ classes σ);
|}.

(** Keys fit the height of a trie, values are felts, and nothing empty is listed. *)
Definition key_ok (k : N) : Prop := k < 2 ^ 251.

Record contract_ok (c : Contract) : Prop := {
  nonce_ok : contract_nonce c < felt_prime;
  class_hash_ok : contract_class_hash c < felt_prime;
  storage_ok : ∀ k v, contract_storage c !! k = Some v → key_ok k ∧ 0 < storage_value v < felt_prime;
}.

Record state_ok (σ : ChainState) : Prop := {
  contracts_ok : ∀ a c, contracts σ !! a = Some c → key_ok a ∧ c ≠ empty_contract ∧ contract_ok c;
  classes_ok : ∀ h v, classes σ !! h = Some v → key_ok h ∧ 0 < compiled_class_hash v < felt_prime;
}.

Record diff_ok (d : StateDiff) : Prop := {
  diff_class_hashes : ∀ a v, address_to_class_hash d !! a = Some v → key_ok a ∧ v < felt_prime;
  diff_nonces : ∀ a v, address_to_nonce d !! a = Some v → key_ok a ∧ v < felt_prime;
  diff_classes : ∀ h v, class_hash_to_compiled_class_hash d !! h = Some v → key_ok h ∧ compiled_class_hash v < felt_prime;
  diff_storage : ∀ a u, storage_updates d !! a = Some u → key_ok a;
  diff_values : ∀ a u k v, storage_updates d !! a = Some u → u !! k = Some v → key_ok k ∧ storage_value v < felt_prime;
}.

(** ** The tries of a state *)

Definition leaf_at (k : N) : N := FIRST_LEAF + k.

Definition index_map {V} (m : gmap N V) : gmap N V := kmap leaf_at m.

Section tries.
Context `{!Pedersen} `{!Poseidon} `{!FeltHex} `{!SerdeJson}.

Definition trie_root {L} `{!TreeHashFunction L} (m : gmap N L) : N := root_hash_of (canonical 251 ROOT m).

Definition storage_leaves (c : Contract) : gmap N StarknetStorageValue := index_map (contract_storage c).

Definition contract_leaf (c : Contract) : ContractState := {|
  nonce := contract_nonce c;
  storage_root_hash := trie_root (storage_leaves c);
  class_hash := contract_class_hash c;
|}.

Definition contracts_leaves (σ : ChainState) : gmap N ContractState := index_map (contract_leaf <$> contracts σ).
Definition classes_leaves (σ : ChainState) : gmap N CompiledClassHash := index_map (classes σ).

(** The storage holds all the tries of the state. *)
Record forest_stored (storage : gmap (list N) (list N)) (σ : ChainState) : Prop := {
  contracts_stored : tree_stored storage (contracts_leaves σ);
  classes_stored : tree_stored storage (classes_leaves σ);
  storages_stored : ∀ a c, contracts σ !! a = Some c → tree_stored storage (storage_leaves c);
}.

(** The hash of no trie of the state is the one that stands for the empty trie. *)
Definition nonzero_root {L} `{!TreeHashFunction L} (m : gmap N L) : Prop :=
  ∀ t, canonical 251 ROOT m = Some t → tree_hash t ≠ ROOT_OF_EMPTY_TREE.

Record nonzero_roots (σ : ChainState) : Prop := {
  contracts_root : nonzero_root (contracts_leaves σ);
  classes_root : nonzero_root (classes_leaves σ);
  storages_root : ∀ a c, contracts σ !! a = Some c → nonzero_root (storage_leaves c);
}.

(** The storage objects of all the nodes of a state. *)
Definition trie_objects {L} `{!Leaf L} `{!TreeHashFunction L} (m : gmap N L) : list (list N * list N) :=
  (λ n, (db_key n, FilledNode_serialize n)) <$> opt_nodes (canonical 251 ROOT m).

Definition state_objects (σ : ChainState) : list (list N * list N) :=
  trie_objects (contracts_leaves σ) ++ trie_objects (classes_leaves σ) ++
  mjoin ((λ kv, trie_objects (storage_leaves kv.2)) <$> map_to_list (contracts σ)).

(** The hash functions do not collide on the nodes. *)
Definition no_collisions (l : list (list N * list N)) : Prop :=
  ∀ k v v', (k, v) ∈ l → (k, v') ∈ l → v = v'.
End tries.
