(* ===== verification/CommitterProofs.v ===== *)
(** The steps of a commitment, proved for each trie and put together for the forest. *)
From S2P Require Import Prelude.
From S2P Require Import StarknetApi.
From S2P Require Import PatriciaTypes.
From S2P Require Import PatriciaTree.
From S2P Require Import PatriciaNode.
From S2P Require Import PatriciaSkeleton.
From S2P Require Import PatriciaUpdate.
From S2P Require Import PatriciaFilled.
From S2P Require Import PatriciaOriginal.
From S2P Require Import PatriciaStorage.
From S2P Require Import PatriciaFlow.
From S2P Require Import CommitterLeaf.
From S2P Require Import Committer.
From S2P Require Import CommitterSpec.

(** ** Loops that collect a map *)

#[export] Instance Ok_inj {E A} : Inj (=) (=) (@Ok E A).
Proof. intros a b Hab. by injection Hab. Qed.

Lemma mapM_ok {E A B} (f : A → result E B) (P : A → B → Prop) (l : list A) :
  (∀ x, x ∈ l → ∃ y, f x = Ok y ∧ P x y) → ∃ ys, mapM f l = Ok ys ∧ Forall2 P l ys.
Proof.
  induction l as [|x l IH]; intros Hl; [by exists []|].
  destruct (Hl x) as (y&Hy&HP); [left|]. destruct IH as (ys&Hys&HPs); [by intros z Hz; apply Hl; right|].
  exists (y :: ys). split; [|by constructor]. cbn [mapM]. rewrite Hy. unfold mbind at 1. cbn [result_bind].
  rewrite Hys. done.
Qed.

Lemma Forall2_elem_l {A B} (P : A → B → Prop) l k x : Forall2 P l k → x ∈ l → ∃ y, y ∈ k ∧ P x y.
Proof.
  intros HP [i Hi]%list_elem_of_lookup. destruct (Forall2_lookup_l _ _ _ _ _ HP Hi) as (y&Hy&?).
  exists y. split; [by eapply list_elem_of_lookup_2|done].
Qed.

Lemma Forall2_elem_r {A B} (P : A → B → Prop) l k y : Forall2 P l k → y ∈ k → ∃ x, x ∈ l ∧ P x y.
Proof. intros HP%Forall2_flip Hy. by apply (Forall2_elem_l (flip P) k l y). Qed.

Lemma mapM_pure {E A B} (f : A → result E B) (g : A → B) (l : list A) :
  (∀ x, x ∈ l → f x = Ok (g x)) → mapM f l = Ok (g <$> l).
Proof.
  intros Hl. destruct (mapM_ok f (λ x y, y = g x) l) as (ys&->&Hys); [by eauto|]. f_equal.
  clear Hl. induction Hys as [|???? ->]; [done|]. cbn. by f_equal.
Qed.

Lemma collected_lookup {K V} `{Countable K} (l : list (K * V)) k v :
  NoDup l.*1 → (list_to_map (reverse l) : gmap K V) !! k = Some v ↔ (k, v) ∈ l.
Proof.
  intros Hnd. rewrite <-elem_of_list_to_map.
  - by rewrite elem_of_reverse.
  - by rewrite fmap_reverse, reverse_Permutation.
Qed.

(** The map that is collected, with the key of each element and what its value satisfies. *)
Lemma collect_map_ok {E A K V} `{Countable K} (f : A → result E (K * V)) (key : A → K)
    (P : A → V → Prop) (l : list A) :
  (∀ x, x ∈ l → ∃ v, f x = Ok (key x, v) ∧ P x v) → NoDup (key <$> l) →
  ∃ m, collect_map f l = Ok m ∧
    (∀ x, x ∈ l → ∃ v, m !! key x = Some v ∧ P x v) ∧
    (∀ k v, m !! k = Some v → ∃ x, x ∈ l ∧ k = key x ∧ P x v).
Proof.
  intros Hl Hnd. destruct (mapM_ok f (λ x kv, kv.1 = key x ∧ P x kv.2) l) as (ys&Hys&HP).
  { intros x Hx. destruct (Hl x Hx) as (v&Hv&?). by exists (key x, v). }
  unfold collect_map. rewrite Hys. unfold mbind; cbn [result_bind]. eexists. split; [done|].
  assert (Hkeys : ys.*1 = key <$> l).
  { clear -HP. induction HP as [|x [k v] l ys [??] ? IH]; [done|]. cbn in *. by f_equal. }
  assert (Hnd' : NoDup ys.*1) by by rewrite Hkeys. split.
  - intros x Hx. destruct (Forall2_elem_l _ _ _ _ HP Hx) as ([k v]&Hy&Hk&HPx). cbn in *. subst k.
    exists v. split; [|done]. by apply collected_lookup.
  - intros k v Hkv. apply collected_lookup in Hkv; [|done].
    destruct (Forall2_elem_r _ _ _ _ HP Hkv) as (x&Hx&Hk&HPx). by exists x.
Qed.

(** ** Keys and leaf indices *)

#[export] Instance leaf_at_inj : Inj (=) (=) leaf_at.
Proof. intros a b. unfold leaf_at. lia. Qed.

Lemma from_leaf_felt_ok {E} k : key_ok k → from_leaf_felt (E:=E) k = Ok (leaf_at k).
Proof.
  intros Hk. unfold from_leaf_felt, NodeIndex_add, NodeIndex_new, key_ok, leaf_at in *.
  rewrite decide_True; [done|]. unfold FIRST_LEAF, NodeIndex_MAX. lia.
Qed.

Lemma leaf_at_height k : key_ok k → at_height 0 (leaf_at k).
Proof.
  unfold key_ok, leaf_at, at_height, FIRST_LEAF. intros Hk. split_and!; [lia|lia|].
  rewrite (N.log2_unique _ 251); [done|lia|]. rewrite N.pow_succ_r by lia. lia.
Qed.

Lemma ContractAddress_try_from_ok {E} k : key_ok k → ContractAddress_try_from (E:=E) (leaf_at k) = Ok (Some k).
Proof.
  intros Hk. unfold ContractAddress_try_from, key_ok, leaf_at in *.
  assert (is_leaf (FIRST_LEAF + k) = true) as ->.
  { apply bool_decide_eq_true. unfold FIRST_LEAF, NodeIndex_MAX. lia. }
  cbn [negb]. unfold NodeIndex_sub, U256_sub. rewrite decide_True by lia. unfold mbind; cbn [result_bind].
  replace (FIRST_LEAF + k - FIRST_LEAF) with k by lia. unfold Felt_try_from.
  assert (2 ^ 251 < felt_prime) by by vm_compute.
  rewrite decide_False by lia. do 2 f_equal. apply N.mod_small. lia.
Qed.

Lemma lookup_index_map {V} (m : gmap N V) k : index_map m !! leaf_at k = m !! k.
Proof. apply (lookup_kmap leaf_at). Qed.

Lemma lookup_index_map_Some {V} (m : gmap N V) x v :
  index_map m !! x = Some v ↔ ∃ k, x = leaf_at k ∧ m !! k = Some v.
Proof. unfold index_map. rewrite (lookup_kmap_Some leaf_at). naive_solver. Qed.

Lemma index_map_fmap {V W} (f : V → W) (m : gmap N V) : index_map (f <$> m) = f <$> index_map m.
Proof. apply (kmap_fmap leaf_at). Qed.

Lemma index_map_empty_iff {V} (m : gmap N V) : index_map m = ∅ ↔ m = ∅.
Proof. apply (kmap_empty_iff leaf_at). Qed.

Lemma index_map_on_leaves {V} (m : gmap N V) :
  (∀ k, is_Some (m !! k) → key_ok k) → ∀ x, is_Some (index_map m !! x) → at_height 0 x.
Proof. intros Hm x [v (k&->&Hk)%lookup_index_map_Some]. apply leaf_at_height. eauto. Qed.

Lemma index_map_union {V} (m1 m2 : gmap N V) : index_map (m1 ∪ m2) = index_map m1 ∪ index_map m2.
Proof. apply (kmap_union leaf_at). Qed.

Lemma index_map_update {L} `{!Leaf L} (P : N * L → Prop) `{!∀ x, Decision (P x)} (u m : gmap N L) :
  (∀ k l, P (k, l) ↔ is_empty l = false) →
  index_map (filter P (u ∪ m)) = apply_modifications (index_map u) (index_map m).
Proof.
  intros HP. apply map_eq. intros x. apply option_eq. intros l. unfold apply_modifications.
  rewrite map_lookup_filter_Some, <-index_map_union, !lookup_index_map_Some. cbn. split.
  - intros (k&->&[Hl HPk]%map_lookup_filter_Some). split; [by eauto|]. by apply (HP k).
  - intros [(k&->&Hl) He]. exists k. split; [done|]. apply map_lookup_filter_Some.
    split; [done|]. by apply HP.
Qed.

Lemma lookup_tabulate {V} (f : N → V) A a : tabulate f A !! a = if decide (a ∈ A) then Some (f a) else None.
Proof.
  unfold tabulate. rewrite map_lookup_imap, lookup_gset_to_gmap. unfold guard. by destruct (decide (a ∈ A)).
Qed.

Lemma lookup_tabulate_Some {V} (f : N → V) A a v : tabulate f A !! a = Some v ↔ a ∈ A ∧ v = f a.
Proof. rewrite lookup_tabulate. case_decide; naive_solver. Qed.

(** ** The modifications of a diff *)

Section diff.
Context `{HashOrder}.

Lemma accessed_modified d : accessed_addresses d = modified d.
Proof.
  apply leibniz_equiv. intros a. unfold accessed_addresses, modified.
  rewrite elem_of_list_to_set, !elem_of_app, !elem_of_hash_keys, !elem_of_union, !elem_of_dom. tauto.
Qed.

Lemma elem_of_hash_elements (A : gset N) a : a ∈ hash_elements A ↔ a ∈ A.
Proof.
  unfold hash_elements. rewrite elem_of_hash_keys, lookup_gset_to_gmap. unfold guard.
  destruct (decide (a ∈ A)); cbn; split; try done; by intros [??].
Qed.

Lemma NoDup_hash_elements (A : gset N) : NoDup (hash_elements A).
Proof. apply NoDup_hash_keys. Qed.

Lemma NoDup_hash_iter_keys {V} (m : gmap N V) : NoDup (hash_iter m).*1.
Proof. apply NoDup_hash_keys. Qed.

Lemma collect_table {E V} (f : N → result E (N * V)) (g : N → V) (A : gset N) :
  (∀ a, a ∈ A → f a = Ok (a, g a)) → collect_map f (hash_elements A) = Ok (tabulate g A).
Proof.
  intros Hf. destruct (collect_map_ok f id (λ a v, v = g a) (hash_elements A)) as (m&->&H1&H2).
  { intros a Ha%elem_of_hash_elements. eauto. }
  { rewrite list_fmap_id. apply NoDup_hash_elements. }
  f_equal. apply map_eq. intros a. rewrite lookup_tabulate. destruct (decide (a ∈ A)) as [Ha|Ha].
  - apply elem_of_hash_elements in Ha. destruct (H1 a Ha) as (v&?&->). done.
  - apply eq_None_not_Some. intros [v Hv]. destruct (H2 a v Hv) as (x&Hx%elem_of_hash_elements&->&_). done.
Qed.

Lemma by_index_ok {E V W} (f : V → W) (u : gmap N V) :
  (∀ k, is_Some (u !! k) → key_ok k) → by_index (E:=E) f u = Ok (f <$> index_map u).
Proof.
  intros Hu. unfold by_index.
  destruct (collect_map_ok (E:=E) (λ kv, index ← from_leaf_felt kv.1; Ok (index, f kv.2)) (λ kv, leaf_at kv.1)
    (λ kv w, w = f kv.2) (hash_iter u)) as (m&->&H1&H2).
  { intros [k v] Hk%elem_of_hash_iter. cbn. rewrite from_leaf_felt_ok by eauto. by exists (f v). }
  { change (NoDup ((leaf_at ∘ fst) <$> hash_iter u)). rewrite list_fmap_compose.
    apply NoDup_fmap_2; [apply _|]. apply NoDup_hash_iter_keys. }
  f_equal. apply map_eq. intros x. apply option_eq. intros w.
  rewrite lookup_fmap_Some. setoid_rewrite lookup_index_map_Some. split.
  - intros Hw. destruct (H2 x w Hw) as ([k v]&Hk%elem_of_hash_iter&->&->). exists v. split; [done|]. by exists k.
  - intros (v&<-&k&->&Hk). destruct (H1 (k, v)) as (w&Hw&->); [by apply elem_of_hash_iter|done].
Qed.

Lemma indices_ok {E V} (u : gmap N V) :
  (∀ k, is_Some (u !! k) → key_ok k) → mapM (from_leaf_felt (E:=E)) (hash_keys u) = Ok (leaf_at <$> hash_keys u).
Proof. intros Hu. apply mapM_pure. intros k Hk%elem_of_hash_keys. by apply from_leaf_felt_ok, Hu. Qed.

Lemma hash_keys_empty {V} : hash_keys (∅ : gmap N V) = [].
Proof. apply Permutation_nil_r. unfold hash_keys. by rewrite hash_iter_perm, map_to_list_empty. Qed.

(** The sorted indices of the keys of a trie. *)
Lemma sorted_leaf_keys {V} (l : list N) (u : gmap N V) :
  NoDup l → (∀ k, k ∈ l ↔ is_Some (u !! k)) → (∀ k, is_Some (u !! k) → key_ok k) →
  leaf_slice (SortedLeafIndices_new (leaf_at <$> l)) ∧
  ∀ x, x ∈ SortedLeafIndices_new (leaf_at <$> l) ↔ is_Some (index_map u !! x).
Proof.
  intros Hnd Hl Hu. apply sorted_indices; [by apply NoDup_fmap_2; [apply _|]| |by apply index_map_on_leaves].
  intros x. rewrite list_elem_of_fmap. split.
  - intros (k&->&Hk). rewrite lookup_index_map. by apply Hl.
  - intros [v (k&->&Hk)%lookup_index_map_Some]. exists k. split; [done|]. apply Hl. eauto.
Qed.

Context (d : StateDiff) (Hd : diff_ok d).

Lemma modified_key a : a ∈ modified d → key_ok a.
Proof.
  unfold modified. rewrite !elem_of_union, !elem_of_dom. intros [[[v Hv]|[v Hv]]|[v Hv]].
  - by apply (diff_class_hashes d Hd) in Hv as [].
  - by apply (diff_nonces d Hd) in Hv as [].
  - by apply (diff_storage d Hd) in Hv.
Qed.

Lemma changes_ok a k v : storage_changes d a !! k = Some v → key_ok k ∧ storage_value v < felt_prime.
Proof.
  unfold storage_changes. destruct (storage_updates d !! a) as [u|] eqn:Hu; cbn; [|by rewrite lookup_empty].
  by apply (diff_values d Hd a).
Qed.

Lemma changes_key a k : is_Some (storage_changes d a !! k) → key_ok k.
Proof. intros [v Hv]. by apply changes_ok in Hv as []. Qed.

Lemma classes_key k : is_Some (class_hash_to_compiled_class_hash d !! k) → key_ok k.
Proof. intros [v Hv]. by apply (diff_classes d Hd) in Hv as []. Qed.

Definition changed_leaves a : gmap N StarknetStorageValue := index_map (storage_changes d a).
Definition changed_classes : gmap N CompiledClassHash := index_map (class_hash_to_compiled_class_hash d).

Lemma by_index_changes {E W} (f : StarknetStorageValue → W) a :
  match storage_updates d !! a with Some u => by_index (E:=E) f u | None => Ok ∅ end = Ok (f <$> changed_leaves a).
Proof.
  pose proof (changes_key a) as Hk. unfold changed_leaves, storage_changes in *.
  destruct (storage_updates d !! a) as [u|]; cbn [default] in *; [by apply by_index_ok|].
  unfold id, index_map. by rewrite (kmap_empty leaf_at), fmap_empty.
Qed.

Lemma actual_storage_updates_ok {E} :
  actual_storage_updates (E:=E) d = Ok (tabulate changed_leaves (modified d)).
Proof.
  unfold actual_storage_updates. rewrite accessed_modified. apply collect_table. intros a _.
  rewrite by_index_changes. unfold mbind; cbn [result_bind]. by rewrite map_fmap_id.
Qed.

Lemma skeleton_storage_updates_ok {E} :
  skeleton_storage_updates (E:=E) d = Ok (tabulate (λ a, skeleton_modifications (changed_leaves a)) (modified d)).
Proof.
  unfold skeleton_storage_updates. rewrite accessed_modified. apply collect_table. intros a _.
  rewrite by_index_changes. unfold mbind; cbn [result_bind]. do 2 f_equal. unfold skeleton_modifications.
  apply map_fmap_ext. intros x v _. cbn. unfold SkeletonLeaf_from. by destruct (decide _), (bool_decide_reflect (storage_value v = 0)).
Qed.

Lemma actual_classes_updates_ok {E} : actual_classes_updates (E:=E) d = Ok changed_classes.
Proof. unfold actual_classes_updates. rewrite by_index_ok by apply classes_key. by rewrite map_fmap_id. Qed.

Lemma skeleton_classes_updates_ok `{!FeltHex} `{!SerdeJson} {E} :
  skeleton_classes_updates (E:=E) d = Ok (skeleton_modifications changed_classes).
Proof.
  unfold skeleton_classes_updates. rewrite by_index_ok by apply classes_key. f_equal. unfold skeleton_modifications.
  apply map_fmap_ext. intros x v _. cbn. unfold SkeletonLeaf_from.
  by destruct (decide _), (bool_decide_reflect (compiled_class_hash v = 0)).
Qed.

Lemma get_all_modified_indices_ok {E} :
  get_all_modified_indices (E:=E) d = Ok
    (tabulate (λ a, leaf_at <$> hash_keys (storage_changes d a)) (modified d),
     leaf_at <$> hash_elements (modified d), leaf_at <$> hash_keys (class_hash_to_compiled_class_hash d)).
Proof.
  unfold get_all_modified_indices. rewrite accessed_modified.
  rewrite indices_ok by apply classes_key.
  rewrite (mapM_pure _ leaf_at) by (intros a Ha%elem_of_hash_elements; by apply from_leaf_felt_ok, modified_key).
  unfold mbind; cbn [result_bind].
  rewrite (collect_table _ (λ a, leaf_at <$> hash_keys (storage_changes d a))); [done|].
  intros a _. pose proof (changes_key a) as Hk. unfold storage_changes in *.
  destruct (storage_updates d !! a) as [u|]; cbn [default] in *; [by rewrite indices_ok|].
  unfold id. by rewrite hash_keys_empty.
Qed.
End diff.

(** ** The tries before and after a diff *)

Lemma leaf_index_cases x : x < FIRST_LEAF ∨ ∃ k, x = leaf_at k.
Proof. destruct (N.lt_ge_cases x FIRST_LEAF); [by left|right]. exists (x - FIRST_LEAF). unfold leaf_at. lia. Qed.

Lemma index_map_below {V} (m : gmap N V) x : x < FIRST_LEAF → index_map m !! x = None.
Proof.
  intros Hx. apply eq_None_not_Some. intros [v (k&->&_)%lookup_index_map_Some]. unfold leaf_at in Hx. lia.
Qed.

Lemma canonical_empty {L} `{!TreeHashFunction L} (m : gmap N L) : m = ∅ → canonical 251 ROOT m = None.
Proof. intros ->. apply canonical_None; [apply at_height_root|]. intros. apply lookup_empty. Qed.

Lemma canonical_nonempty {L} `{!TreeHashFunction L} (m : gmap N L) :
  (∀ k, is_Some (m !! k) → key_ok k) → canonical 251 ROOT (index_map m) = None → m = ∅.
Proof.
  intros Hm Hc. apply map_empty. intros k. apply eq_None_not_Some. intros Hk.
  rewrite canonical_None in Hc by apply at_height_root.
  pose proof (leaf_at_height k (Hm k Hk)) as Hl.
  specialize (Hc (leaf_at k) Hl). rewrite lookup_index_map in Hc. rewrite Hc in Hk; [by destruct Hk|].
  apply below_root. by eapply at_height_pos.
Qed.

Lemma trie_root_empty {L} `{!TreeHashFunction L} (m : gmap N L) :
  (∀ k, is_Some (m !! k) → key_ok k) → nonzero_root (index_map m) →
  trie_root (index_map m) = ROOT_OF_EMPTY_TREE ↔ m = ∅.
Proof.
  intros Hm Hr. split.
  - unfold trie_root. destruct (canonical 251 ROOT (index_map m)) as [t|] eqn:Hc; intros Heq; [by apply Hr in Hc|].
    by apply canonical_nonempty.
  - intros ->. unfold trie_root. rewrite canonical_empty; [done|]. by apply index_map_empty_iff.
Qed.

Lemma trie_root_felt {L} `{!Leaf L} `{!LeafLaws L} `{!TreeHashFunction L} `{!TreeHashLaws L} (m : gmap N L) :
  trie_root m < felt_prime.
Proof.
  unfold trie_root. destruct (canonical 251 ROOT m) as [t|] eqn:Hc; [|by vm_compute].
  pose proof (canonical_ok 251 ROOT m t at_height_root Hc) as Hok. cbn [root_hash_of]. rewrite tree_hash_data.
  apply compute_node_hash_felt. by destruct t.
Qed.

Lemma tree_stored_root {L} `{!Leaf L} `{!LeafLaws L} `{!TreeHashFunction L} `{!TreeHashLaws L} storage (m : gmap N L) :
  tree_stored storage m → nonzero_root m.
Proof. intros Hst t Ht. by apply Hst in Ht as []. Qed.

Section states.
Context `{HashOrder} `{!Pedersen} `{!Poseidon} `{!FeltHex} `{!SerdeJson}.
Implicit Types (c : Contract) (a : N).

Lemma contract_keys c : contract_ok c → ∀ k, is_Some (contract_storage c !! k) → key_ok k.
Proof. intros Hc k [v Hv]. by apply (storage_ok c Hc) in Hv as []. Qed.

Lemma storage_no_empty c : contract_ok c → no_empty_leaf (storage_leaves c).
Proof.
  intros Hc x v (k&->&Hv)%lookup_index_map_Some. apply (storage_ok c Hc) in Hv as [_ ?].
  apply bool_decide_eq_false. lia.
Qed.

Lemma contract_leaf_empty c :
  contract_ok c → nonzero_root (storage_leaves c) → is_empty (contract_leaf c) = bool_decide (c = empty_contract).
Proof.
  intros Hc Hr. pose proof (trie_root_empty (contract_storage c) (contract_keys c Hc) Hr) as Hroot.
  change (is_empty (contract_leaf c)) with (bool_decide (contract_nonce c = 0) && bool_decide (contract_class_hash c = 0) &&
    bool_decide (trie_root (storage_leaves c) = 0)).
  rewrite <-!bool_decide_and. apply bool_decide_ext. unfold storage_leaves.
  change (trie_root (index_map (contract_storage c)) = 0) with (trie_root (index_map (contract_storage c)) = ROOT_OF_EMPTY_TREE).
  rewrite Hroot. destruct c as [n h s]; cbn. unfold empty_contract. split; [by intros [[-> ->] ->]|naive_solver].
Qed.

Lemma update_storage_leaves d a c :
  storage_leaves (update_contract d a c) = apply_modifications (changed_leaves d a) (storage_leaves c).
Proof.
  apply (index_map_update (λ kv : N * StarknetStorageValue, storage_value kv.2 ≠ 0)). intros k l. cbn.
  by rewrite bool_decide_eq_false.
Qed.

Lemma update_contract_ok d a c : diff_ok d → contract_ok c → contract_ok (update_contract d a c).
Proof.
  intros Hd Hc. split; cbn [update_contract contract_nonce contract_class_hash contract_storage].
  - destruct (address_to_nonce d !! a) as [v|] eqn:Hv; cbn; [by apply (diff_nonces d Hd) in Hv as []|apply Hc].
  - destruct (address_to_class_hash d !! a) as [v|] eqn:Hv; cbn; [by apply (diff_class_hashes d Hd) in Hv as []|apply Hc].
  - intros k v [Hv Hz]%map_lookup_filter_Some. cbn in Hz. apply lookup_union_Some_raw in Hv as [Hv|[_ Hv]].
    + apply (changes_ok d Hd) in Hv as []. split; [done|lia].
    + by apply (storage_ok c Hc).
Qed.

Lemma empty_contract_ok : contract_ok empty_contract.
Proof. split; [by vm_compute..|]. cbn. intros k v Hv. by rewrite lookup_empty in Hv. Qed.

Context (d : StateDiff) (Hd : diff_ok d) (σ : ChainState) (Hσ : state_ok σ).
Context (storage : gmap (list N) (list N)) (Hst : forest_stored storage σ).
#[local] Abbreviation σ' := (apply_state_diff d σ).

Definition new_contract a : Contract := update_contract d a (contract_of σ a).

Lemma contract_of_ok a : contract_ok (contract_of σ a).
Proof.
  unfold contract_of. destruct (contracts σ !! a) as [c|] eqn:Hc; cbn; [|apply empty_contract_ok].
  by apply (contracts_ok σ Hσ) in Hc as (_&_&?).
Qed.

Lemma new_contract_ok a : contract_ok (new_contract a).
Proof. apply update_contract_ok; [done|apply contract_of_ok]. Qed.

Lemma contract_of_stored a : tree_stored storage (storage_leaves (contract_of σ a)).
Proof.
  unfold contract_of. destruct (contracts σ !! a) as [c|] eqn:Hc; cbn; [by eapply storages_stored|].
  intros t Ht. rewrite canonical_empty in Ht; [done|]. by apply index_map_empty_iff.
Qed.

Lemma contracts_after a :
  contracts σ' !! a =
  if decide (a ∈ modified d) then (if decide (new_contract a = empty_contract) then None else Some (new_contract a))
  else contracts σ !! a.
Proof.
  apply option_eq. intros c. cbn [apply_state_diff contracts].
  rewrite map_lookup_filter_Some, lookup_union_Some_raw, lookup_tabulate. cbn. fold (new_contract a).
  destruct (decide (a ∈ modified d)) as [Ha|Ha].
  - destruct (decide (new_contract a = empty_contract)); naive_solver.
  - split; [naive_solver|]. intros Hc. split; [by right|]. by apply (contracts_ok σ Hσ) in Hc as (_&?&_).
Qed.

Hypothesis Hroots : ∀ a c, contracts σ' !! a = Some c → nonzero_root (storage_leaves c).

Lemma new_contract_root a : a ∈ modified d → nonzero_root (storage_leaves (new_contract a)).
Proof.
  intros Ha. destruct (decide (new_contract a = empty_contract)) as [He|He].
  - intros t Ht. rewrite He, canonical_empty in Ht; [done|]. by apply index_map_empty_iff.
  - apply (Hroots a). by rewrite contracts_after, decide_True, decide_False.
Qed.

(** The new leaves of the contracts trie. *)
Definition changed_contracts : gmap N ContractState :=
  index_map (tabulate (λ a, contract_leaf (new_contract a)) (modified d)).

Lemma contracts_no_empty : no_empty_leaf (contracts_leaves σ).
Proof.
  intros x l (a&->&Hl)%lookup_index_map_Some. apply lookup_fmap_Some in Hl as (c&<-&Hc).
  destruct (contracts_ok σ Hσ a c Hc) as (_&Hne&Hok).
  rewrite contract_leaf_empty; [by apply bool_decide_eq_false|done|].
  by eapply tree_stored_root, storages_stored.
Qed.

Lemma contracts_leaves_after : contracts_leaves σ' = apply_modifications changed_contracts (contracts_leaves σ).
Proof.
  apply map_eq. intros x. destruct (leaf_index_cases x) as [Hx|[a ->]].
  { unfold contracts_leaves at 1. rewrite index_map_below by done.
    rewrite apply_unmodified; [|by apply index_map_below|apply contracts_no_empty]. symmetry. by apply index_map_below. }
  unfold contracts_leaves at 1. rewrite lookup_index_map, lookup_fmap, contracts_after.
  assert (Hch : changed_contracts !! leaf_at a =
    if decide (a ∈ modified d) then Some (contract_leaf (new_contract a)) else None).
  { unfold changed_contracts. by rewrite lookup_index_map, lookup_tabulate. }
  destruct (decide (a ∈ modified d)) as [Ha|Ha].
  - rewrite (apply_modified _ _ _ _ Hch), contract_leaf_empty by (apply new_contract_ok || by apply new_contract_root).
    by destruct (decide (new_contract a = empty_contract)), (bool_decide_reflect (new_contract a = empty_contract)).
  - rewrite apply_unmodified by (done || apply contracts_no_empty).
    unfold contracts_leaves. by rewrite lookup_index_map, lookup_fmap.
Qed.

Lemma classes_no_empty : no_empty_leaf (classes_leaves σ).
Proof.
  intros x v (k&->&Hv)%lookup_index_map_Some. apply (classes_ok σ Hσ) in Hv as [_ ?].
  apply bool_decide_eq_false. lia.
Qed.

Lemma classes_leaves_after : classes_leaves σ' = apply_modifications (changed_classes d) (classes_leaves σ).
Proof.
  apply (index_map_update (λ kv : N * CompiledClassHash, compiled_class_hash kv.2 ≠ 0)). intros k l. cbn.
  by rewrite bool_decide_eq_false.
Qed.

Lemma state_ok_after : state_ok σ'.
Proof.
  split.
  - intros a c. rewrite contracts_after. destruct (decide (a ∈ modified d)) as [Ha|Ha]; [|apply (contracts_ok σ Hσ)].
    destruct (decide (new_contract a = empty_contract)); [done|]. intros [= <-].
    split_and!; [by apply (modified_key d Hd)|done|apply new_contract_ok].
  - intros h v [Hv Hz]%map_lookup_filter_Some. cbn in Hz. apply lookup_union_Some_raw in Hv as [Hv|[_ Hv]].
    + apply (diff_classes d Hd) in Hv as []. split; [done|lia].
    + by apply (classes_ok σ Hσ).
Qed.
End states.

(** ** The steps of the forest *)

Section commit.
Context `{HashOrder} `{!Pedersen} `{!Poseidon} `{!FeltHex} `{!SerdeJson}.
Context (d : StateDiff) (Hd : diff_ok d) (σ : ChainState) (Hσ : state_ok σ).
Context (storage : gmap (list N) (list N)) (Hst : forest_stored storage σ).
#[local] Abbreviation σ' := (apply_state_diff d σ).
Hypothesis Hroots : ∀ a c, contracts σ' !! a = Some c → nonzero_root (storage_leaves c).
Implicit Types (a : N) (c : Contract).

Definition old_leaves a : gmap N StarknetStorageValue := storage_leaves (contract_of σ a).
Definition storage_indices a : list N := SortedLeafIndices_new (leaf_at <$> hash_keys (storage_changes d a)).
Definition contracts_indices : list N := SortedLeafIndices_new (leaf_at <$> hash_elements (modified d)).
Definition classes_indices : list N := SortedLeafIndices_new (leaf_at <$> hash_keys (class_hash_to_compiled_class_hash d)).

Lemma storage_indices_ok a :
  leaf_slice (storage_indices a) ∧ ∀ x, x ∈ storage_indices a ↔ is_Some (changed_leaves d a !! x).
Proof.
  apply sorted_leaf_keys; [apply NoDup_hash_keys|intros k; apply elem_of_hash_keys|by apply changes_key].
Qed.

Lemma contracts_indices_ok :
  leaf_slice contracts_indices ∧ ∀ x, x ∈ contracts_indices ↔ is_Some (changed_contracts d σ !! x).
Proof.
  apply sorted_leaf_keys; [apply NoDup_hash_elements| |].
  - intros a. rewrite elem_of_hash_elements, lookup_tabulate. destruct (decide (a ∈ modified d)); split; try done; by intros [].
  - intros a. rewrite lookup_tabulate. destruct (decide (a ∈ modified d)); [intros _; by apply (modified_key d Hd)|by intros []].
Qed.

Lemma classes_indices_ok :
  leaf_slice classes_indices ∧ ∀ x, x ∈ classes_indices ↔ is_Some (changed_classes d !! x).
Proof.
  apply sorted_leaf_keys; [apply NoDup_hash_keys|intros k; apply elem_of_hash_keys|by apply classes_key].
Qed.

#[local] Abbreviation storage_original a := (original_for (old_leaves a) (changed_leaves d a) (storage_indices a)).
#[local] Abbreviation storage_updated a := (updated_for (old_leaves a) (changed_leaves d a) (storage_indices a)).
#[local] Abbreviation storage_filled a := (filled_for (old_leaves a) (changed_leaves d a) (storage_indices a)).

(** The previous leaves that are read for the modified contracts. *)
Definition previous_ok (leaves : gmap N ContractState) : Prop :=
  ∀ a, a ∈ modified d → leaves !! leaf_at a = Some (contract_leaf (contract_of σ a)).

Lemma contracts_original :
  ∃ original leaves, create_contracts_trie (trie_root (contracts_leaves σ)) storage contracts_indices
      = Ok (original, leaves) ∧
    original_for (contracts_leaves σ) (changed_contracts d σ) contracts_indices original ∧ previous_ok leaves.
Proof.
  destruct contracts_indices_ok as [HLs Hin]. unfold create_contracts_trie, trie_root.
  destruct (trie_original_with_leaves (contracts_leaves σ) (changed_contracts d σ) contracts_indices HLs Hin storage
    (contracts_stored storage σ Hst)) as (original&leaves&->&Ho&Hl).
  exists original, leaves. split_and!; [done..|]. intros a Ha. rewrite Hl.
  - f_equal. unfold contracts_leaves, contract_of. rewrite lookup_index_map, lookup_fmap.
    destruct (contracts σ !! a); [done|]. cbn. unfold contract_leaf, trie_root. rewrite canonical_empty; [done|].
    by apply index_map_empty_iff.
  - apply Hin. unfold changed_contracts. rewrite lookup_index_map, lookup_tabulate, decide_True by done. by eauto.
Qed.

Lemma storage_originals leaves warn :
  previous_ok leaves →
  ∃ tries, create_storage_tries (tabulate (changed_leaves d) (modified d)) leaves storage warn
      (SortedLeafIndices_new <$> tabulate (λ a, leaf_at <$> hash_keys (storage_changes d a)) (modified d)) = Ok tries ∧
    ∀ a, a ∈ modified d → ∃ original, tries !! a = Some original ∧ storage_original a original.
Proof.
  intros Hprev. unfold create_storage_tries.
  match goal with |- ∃ _, collect_map ?f _ = _ ∧ _ =>
    destruct (collect_map_ok f fst (λ e original, storage_original e.1 original)
      (hash_iter (tabulate (changed_leaves d) (modified d)))) as (tries&->&Htries&_) end.
  - intros [a u] [Ha ->]%elem_of_hash_iter%lookup_tabulate_Some.
    rewrite lookup_fmap, lookup_tabulate, decide_True by done. cbn [fmap option_fmap option_map ok_or].
    unfold mbind; cbn [result_bind]. rewrite from_leaf_felt_ok by by apply (modified_key d Hd). cbn [result_bind].
    rewrite (Hprev a Ha). cbn [ok_or result_bind].
    destruct (storage_indices_ok a) as [HLs Hin].
    destruct (trie_original (old_leaves a) (changed_leaves d a) (storage_indices a) HLs Hin storage warn
      (contract_of_stored σ storage Hst a)) as (original&Hrun&Ho).
    unfold storage_indices, old_leaves in Hrun. cbn [storage_root_hash contract_leaf]. unfold trie_root. rewrite Hrun.
    by exists original.
  - apply NoDup_hash_iter_keys.
  - exists tries. split; [done|]. intros a Ha. apply (Htries (a, changed_leaves d a)).
    by apply elem_of_hash_iter, lookup_tabulate_Some.
Qed.

#[local] Abbreviation contracts_for P := (P (contracts_leaves σ) (changed_contracts d σ) contracts_indices).
#[local] Abbreviation classes_for P := (P (classes_leaves σ) (changed_classes d) classes_indices).

Record original_forest_ok (forest : OriginalSkeletonForest) : Prop := {
  original_classes_ok : classes_for original_for (original_classes_trie forest);
  original_contracts_ok : contracts_for original_for (original_contracts_trie forest);
  original_storage_ok : ∀ a, a ∈ modified d →
    ∃ original, original_storage_tries forest !! a = Some original ∧ storage_original a original;
}.

Definition sorted_indices_of : ForestSortedIndices := {|
  storage_tries_sorted_indices :=
    SortedLeafIndices_new <$> tabulate (λ a, leaf_at <$> hash_keys (storage_changes d a)) (modified d);
  contracts_trie_sorted_indices := contracts_indices;
  classes_trie_sorted_indices := classes_indices;
|}.

Lemma original_forest warn :
  ∃ forest leaves,
    OriginalSkeletonForest_create storage (trie_root (contracts_leaves σ)) (trie_root (classes_leaves σ))
      (tabulate (changed_leaves d) (modified d)) (changed_classes d) sorted_indices_of warn = Ok (forest, leaves) ∧
    original_forest_ok forest ∧ previous_ok leaves.
Proof.
  unfold OriginalSkeletonForest_create, sorted_indices_of.
  cbn [storage_tries_sorted_indices contracts_trie_sorted_indices classes_trie_sorted_indices].
  destruct contracts_original as (contracts_trie&leaves&->&Hc&Hprev). unfold mbind; cbn [result_bind fst snd].
  destruct (storage_originals leaves warn Hprev) as (tries&->&Htries). cbn [result_bind].
  destruct classes_indices_ok as [HLs Hin]. unfold create_classes_trie, trie_root.
  destruct (trie_original (classes_leaves σ) (changed_classes d) classes_indices HLs Hin storage warn
    (classes_stored storage σ Hst)) as (classes_trie&->&Hcl).
  cbn [map_err result_bind]. eexists _, _. split; [done|]. split; [by split|done].
Qed.

Record updated_forest_ok (forest : UpdatedSkeletonForest) : Prop := {
  updated_classes_ok : classes_for updated_for (updated_classes_trie forest);
  updated_contracts_ok : contracts_for updated_for (updated_contracts_trie forest);
  updated_storage_dom : ∀ a, is_Some (updated_storage_tries forest !! a) ↔ a ∈ modified d;
  updated_storage_ok : ∀ a sk, updated_storage_tries forest !! a = Some sk → storage_updated a sk;
}.

(** The skeleton leaf of a contract tells whether its new leaf is empty. *)
Lemma contract_skeleton_leaf a sk :
  a ∈ modified d → storage_updated a sk →
  ∃ empty, UpdatedSkeleton_is_empty (E:=ForestError) sk = Ok empty ∧
    updated_contract_skeleton_leaf (address_to_nonce d !! a) (address_to_class_hash d !! a)
      (contract_leaf (contract_of σ a)) empty =
    if is_empty (contract_leaf (new_contract d σ a)) then Zero else NonZero.
Proof.
  intros Ha Hsk. destruct (storage_indices_ok a) as [HLs Hin].
  pose proof (trie_is_empty (E:=ForestError) (old_leaves a) (changed_leaves d a) (storage_indices a) HLs Hin sk Hsk) as Hrun.
  pose proof (new_contract_root d σ Hσ Hroots a Ha) as Hroot.
  match type of Hrun with _ = Ok ?b =>
    assert (b = bool_decide (trie_root (storage_leaves (new_contract d σ a)) = 0)) as Hempty end.
  { unfold new_contract in *. rewrite update_storage_leaves in *. unfold trie_root.
    destruct (decide (changed_leaves d a = ∅)) as [He|_].
    - rewrite He, apply_empty; [done|]. by apply storage_no_empty, contract_of_ok.
    - apply bool_decide_ext. destruct (canonical 251 ROOT _) as [t|] eqn:Hc; [|done].
      split; [done|]. cbn. intros Hz. by apply Hroot in Hc. }
  rewrite Hempty in Hrun. eexists. split; [done|]. unfold updated_contract_skeleton_leaf.
  change (is_empty (contract_leaf (new_contract d σ a))) with
    (bool_decide (contract_nonce (new_contract d σ a) = 0) && bool_decide (contract_class_hash (new_contract d σ a) = 0) &&
     bool_decide (trie_root (storage_leaves (new_contract d σ a)) = 0)).
  change (default (nonce (contract_leaf (contract_of σ a))) (address_to_nonce d !! a)) with
    (contract_nonce (new_contract d σ a)).
  change (default (class_hash (contract_leaf (contract_of σ a))) (address_to_class_hash d !! a)) with
    (contract_class_hash (new_contract d σ a)).
  by destruct (bool_decide (contract_nonce _ = 0)), (bool_decide (contract_class_hash _ = 0)), (bool_decide (trie_root _ = 0)).
Qed.

Lemma storage_update original leaves e :
  original_forest_ok original → previous_ok leaves →
  e ∈ hash_iter (tabulate (λ a, skeleton_modifications (changed_leaves d a)) (modified d)) →
  ∃ r, update_storage_trie (original_storage_tries original) leaves (address_to_class_hash d) (address_to_nonce d) e
      = Ok r ∧
    ∃ sk, storage_updated e.1 sk ∧ r = ((e.1, sk),
      (leaf_at e.1, if is_empty (contract_leaf (new_contract d σ e.1)) then Zero else NonZero)).
Proof.
  intros Ho Hprev He. destruct e as [a u]. apply elem_of_hash_iter, lookup_tabulate_Some in He as [Ha ->].
  destruct (original_storage_ok original Ho a Ha) as (orig&Horig&Hof). destruct (storage_indices_ok a) as [HLs Hin].
  unfold update_storage_trie. rewrite Horig. cbn [ok_or]. unfold mbind; cbn [result_bind].
  destruct (trie_updated (old_leaves a) (changed_leaves d a) (storage_indices a) HLs Hin) with (original := orig)
    as (sk&->&Hsk); [by apply storage_no_empty, contract_of_ok|done|]. cbn [map_err result_bind].
  destruct (contract_skeleton_leaf a sk Ha Hsk) as (empty&->&Hleaf). cbn [result_bind].
  rewrite from_leaf_felt_ok by by apply (modified_key d Hd). cbn [result_bind].
  rewrite (Hprev a Ha). cbn [ok_or result_bind]. rewrite Hleaf. eexists. split; [done|]. by exists sk.
Qed.

(** What the loop over the storage tries collects. *)
Definition entry_of (e : N * gmap N SkeletonLeaf) (r : (N * gmap N UpdatedSkeletonNode) * (N * SkeletonLeaf)) : Prop :=
  ∃ sk, storage_updated e.1 sk ∧ r = ((e.1, sk),
    (leaf_at e.1, if is_empty (contract_leaf (new_contract d σ e.1)) then Zero else NonZero)).

Definition skeleton_table : gmap N (gmap N SkeletonLeaf) :=
  tabulate (λ a, skeleton_modifications (changed_leaves d a)) (modified d).

Lemma entry_keys entries :
  Forall2 entry_of (hash_iter skeleton_table) entries →
  entries.*1.*1 = hash_keys skeleton_table ∧ entries.*2.*1 = leaf_at <$> hash_keys skeleton_table.
Proof.
  unfold hash_keys. induction 1 as [|[a u] r l rs (sk&_&->) _ [IH1 IH2]]; [done|]. cbn in *. by rewrite IH1, IH2.
Qed.

Lemma entry_leaves entries :
  Forall2 entry_of (hash_iter skeleton_table) entries →
  (list_to_map (reverse entries.*2) : gmap N SkeletonLeaf) = skeleton_modifications (changed_contracts d σ).
Proof.
  intros Hentries. destruct (entry_keys entries Hentries) as [_ Hk].
  apply map_eq. intros x. apply option_eq. intros v.
  rewrite collected_lookup by (rewrite Hk; apply NoDup_fmap_2; [apply _|apply NoDup_hash_keys]).
  unfold skeleton_modifications. rewrite lookup_fmap_Some, list_elem_of_fmap. split.
  - intros (r&Heq&Hr). destruct (Forall2_elem_r _ _ _ _ Hentries Hr) as ([a u]&Hau&sk&_&->).
    cbn [fst snd] in Heq. apply (inj2 pair) in Heq as [-> ->]. apply elem_of_hash_iter, lookup_tabulate_Some in Hau as [Ha _].
    exists (contract_leaf (new_contract d σ a)). split; [reflexivity|].
    unfold changed_contracts. by rewrite lookup_index_map, lookup_tabulate, decide_True.
  - intros (l&<-&(a&->&[Ha ->]%lookup_tabulate_Some)%lookup_index_map_Some).
    destruct (Forall2_elem_l _ _ _ (a, skeleton_modifications (changed_leaves d a)) Hentries) as (r&Hr&sk&_&->);
      [by apply elem_of_hash_iter, lookup_tabulate_Some|]. eexists. split; [|exact Hr]. reflexivity.
Qed.

Lemma entry_tries entries :
  Forall2 entry_of (hash_iter skeleton_table) entries →
  let tries := list_to_map (reverse entries.*1) : gmap N (gmap N UpdatedSkeletonNode) in
  (∀ a, is_Some (tries !! a) ↔ a ∈ modified d) ∧ (∀ a sk, tries !! a = Some sk → storage_updated a sk).
Proof.
  intros Hentries tries. destruct (entry_keys entries Hentries) as [Hk _].
  assert (Hl : ∀ a sk, tries !! a = Some sk ↔ (a, sk) ∈ entries.*1).
  { intros a sk. apply collected_lookup. rewrite Hk. apply NoDup_hash_keys. }
  split.
  - intros a. split.
    + intros [sk (r&Heq&Hr)%Hl%list_elem_of_fmap]. destruct (Forall2_elem_r _ _ _ _ Hentries Hr) as ([a' u]&Hau&sk'&_&->).
      cbn [fst] in Heq. injection Heq as -> ->. by apply elem_of_hash_iter, lookup_tabulate_Some in Hau as [Ha _].
    + intros Ha. destruct (Forall2_elem_l _ _ _ (a, skeleton_modifications (changed_leaves d a)) Hentries) as (r&Hr&sk&_&->);
        [by apply elem_of_hash_iter, lookup_tabulate_Some|].
      exists sk. apply Hl, list_elem_of_fmap. eexists. split; [|exact Hr]. done.
  - intros a sk (r&Heq&Hr)%Hl%list_elem_of_fmap. destruct (Forall2_elem_r _ _ _ _ Hentries Hr) as ([a' u]&_&sk'&Hsk&->).
    cbn [fst] in *. by injection Heq as -> ->.
Qed.

Lemma updated_forest original leaves :
  original_forest_ok original → previous_ok leaves →
  ∃ forest, UpdatedSkeletonForest_create original (skeleton_modifications (changed_classes d))
      (tabulate (λ a, skeleton_modifications (changed_leaves d a)) (modified d)) leaves
      (address_to_class_hash d) (address_to_nonce d) = Ok forest ∧ updated_forest_ok forest.
Proof.
  intros Ho Hprev. unfold UpdatedSkeletonForest_create. destruct classes_indices_ok as [HLs Hin].
  destruct (trie_updated (classes_leaves σ) (changed_classes d) classes_indices HLs Hin (classes_no_empty σ Hσ)
    (original_classes_trie original) (original_classes_ok original Ho)) as (classes_sk&->&Hclasses).
  unfold mbind; cbn [map_err result_bind].
  destruct (mapM_ok _ entry_of _ (λ e, storage_update original leaves e Ho Hprev)) as (entries&->&Hentries).
  cbn [result_bind]. destruct (entry_tries entries Hentries) as [Hdom Htries].
  rewrite (entry_leaves entries Hentries). destruct contracts_indices_ok as [HcLs Hcin].
  destruct (trie_updated (contracts_leaves σ) (changed_contracts d σ) contracts_indices HcLs Hcin
    (contracts_no_empty σ Hσ storage Hst) (original_contracts_trie original) (original_contracts_ok original Ho))
    as (contracts_sk&->&Hcontracts).
  cbn [map_err result_bind]. eexists. split; [done|]. by split.
Qed.

(** ** The filled tries *)

Definition input_of a sk : ContractStateInput := {|
  leaf_index := leaf_at a;
  input_nonce := contract_nonce (new_contract d σ a);
  input_class_hash := contract_class_hash (new_contract d σ a);
  input_updated_skeleton := sk;
  input_storage_updates := changed_leaves d a;
|}.

Lemma contract_inputs_ok leaves l sks acc :
  previous_ok leaves → NoDup l.*1 →
  (∀ e, e ∈ l → e.1 ∈ modified d ∧ e.2 = changed_leaves d e.1 ∧ is_Some (sks !! e.1)) →
  ∃ r, contract_inputs leaves (address_to_class_hash d) (address_to_nonce d) l sks acc = Ok r ∧
    (∀ e, e ∈ l → ∃ sk, sks !! e.1 = Some sk ∧ r !! leaf_at e.1 = Some (input_of e.1 sk)) ∧
    (∀ x, (∀ e, e ∈ l → x ≠ leaf_at e.1) → r !! x = acc !! x).
Proof.
  intros Hprev. revert sks acc. induction l as [|[a u] l IH]; intros sks acc Hnd Hl.
  { exists acc. split; [done|]. split; [|done]. intros e He. by apply not_elem_of_nil in He. }
  cbn [fmap list_fmap] in Hnd. apply NoDup_cons in Hnd as [Hnin Hnd].
  destruct (Hl (a, u)) as (Ha&Hu&[sk Hsk]); [left|]. cbn [fst snd] in *. subst u.
  cbn [contract_inputs]. unfold mbind; cbn [result_bind]. rewrite from_leaf_felt_ok by by apply (modified_key d Hd).
  cbn [result_bind]. rewrite (Hprev a Ha), Hsk. cbn [ok_or result_bind].
  assert (Hne : ∀ e, e ∈ l → e.1 ≠ a).
  { intros e He Heq. apply Hnin. rewrite <-Heq. by apply list_elem_of_fmap_2. }
  match goal with |- context [contract_inputs _ _ _ l ?sks' ?acc'] =>
    destruct (IH sks' acc' Hnd) as (r&Hr&Hr1&Hr2) end.
  { intros e He. destruct (Hl e) as (?&?&?); [by right|]. by rewrite lookup_delete_ne by by apply not_eq_sym, Hne. }
  exists r. split; [exact Hr|]. split.
  - intros e [->|He]%elem_of_cons.
    + exists sk. split; [done|]. rewrite Hr2; [by rewrite lookup_insert_eq|].
      intros e He Heq%(inj leaf_at). by apply (Hne e He).
    + destruct (Hr1 e He) as (sk'&Hsk'&?). rewrite lookup_delete_ne in Hsk' by by apply not_eq_sym, Hne. eauto.
  - intros x Hx. rewrite Hr2 by (intros e He; apply Hx; by right). apply lookup_insert_ne.
    intros <-. by apply (Hx (a, changed_leaves d a)); [left|].
Qed.

Lemma contract_create a sk :
  storage_updated a sk →
  ∃ ft, ContractState_create (input_of a sk) = Ok (contract_leaf (new_contract d σ a), ft) ∧ storage_filled a ft.
Proof.
  intros Hsk. destruct (storage_indices_ok a) as [HLs Hin].
  assert (Hno : no_empty_leaf (old_leaves a)) by by apply storage_no_empty, contract_of_ok.
  unfold ContractState_create. cbn [input_of input_updated_skeleton input_storage_updates input_nonce input_class_hash].
  destruct (trie_filled (old_leaves a) (changed_leaves d a) (storage_indices a) HLs Hin Hno sk Hsk) as (ft&->&Hft).
  unfold mbind; cbn [map_err result_bind]. exists ft. split; [|done]. do 2 f_equal. unfold contract_leaf, get_root_hash.
  f_equal. destruct Hft as [-> _]. unfold trie_root, new_contract. by rewrite update_storage_leaves.
Qed.

Record filled_forest_ok (forest : FilledForest) : Prop := {
  filled_classes_ok : classes_for filled_for (filled_classes_trie forest);
  filled_contracts_ok : contracts_for filled_for (filled_contracts_trie forest);
  filled_storage_dom : ∀ a, a ∈ modified d → new_contract d σ a ≠ empty_contract →
    is_Some (filled_storage_tries forest !! a);
  filled_storage_ok : ∀ a ft, filled_storage_tries forest !! a = Some ft →
    a ∈ modified d ∧ new_contract d σ a ≠ empty_contract ∧ storage_filled a ft;
}.

Lemma contract_leaf_inputs leaves updated :
  previous_ok leaves → updated_forest_ok updated →
  ∃ inputs, get_contracts_trie_leaf_input leaves (tabulate (changed_leaves d) (modified d))
      (updated_storage_tries updated) (address_to_class_hash d) (address_to_nonce d) = Ok inputs ∧
    (∀ x, is_Some (inputs !! x) → ∃ a, a ∈ modified d ∧ x = leaf_at a) ∧
    ∀ a, a ∈ modified d → ∃ sk, storage_updated a sk ∧ inputs !! leaf_at a = Some (input_of a sk).
Proof.
  intros Hprev Hu. unfold get_contracts_trie_leaf_input.
  assert (Hsize : size (tabulate (changed_leaves d) (modified d)) = size (updated_storage_tries updated)).
  { rewrite <-!size_dom. f_equal. apply leibniz_equiv. intros a. rewrite !elem_of_dom, (updated_storage_dom updated Hu), lookup_tabulate.
    destruct (decide (a ∈ modified d)); split; try done; by intros []. }
  rewrite bool_decide_true by done. unfold mbind; cbn [check result_bind].
  destruct (contract_inputs_ok leaves (hash_iter (tabulate (changed_leaves d) (modified d)))
    (updated_storage_tries updated) ∅ Hprev (NoDup_hash_iter_keys _)) as (inputs&->&Hi1&Hi2).
  { intros [a u] [Ha ->]%elem_of_hash_iter%lookup_tabulate_Some. split_and!; [done..|]. by apply (updated_storage_dom updated Hu). }
  exists inputs. split; [done|]. split.
  - intros x [inp Hx]. destruct (decide (Exists (λ e, x = leaf_at e.1) (hash_iter (tabulate (changed_leaves d) (modified d)))))
      as [Hex|Hno].
    + apply Exists_exists in Hex as ([a u]&[Ha _]%elem_of_hash_iter%lookup_tabulate_Some&->). by exists a.
    + rewrite Hi2, lookup_empty in Hx; [done|]. intros e He ->. apply Hno, Exists_exists. by exists e.
  - intros a Ha. destruct (Hi1 (a, changed_leaves d a)) as (sk&Hsk&Hinp);
      [by apply elem_of_hash_iter, lookup_tabulate_Some|].
    exists sk. split; [|done]. by apply (updated_storage_ok updated Hu).
Qed.

Lemma lookup_changed_contracts x l :
  changed_contracts d σ !! x = Some l ↔ ∃ a, a ∈ modified d ∧ x = leaf_at a ∧ l = contract_leaf (new_contract d σ a).
Proof.
  unfold changed_contracts. rewrite lookup_index_map_Some. split.
  - intros (a&->&[Ha ->]%lookup_tabulate_Some). eauto.
  - intros (a&Ha&->&->). exists a. split; [done|]. by apply lookup_tabulate_Some.
Qed.

(** The storage tries that the contracts trie outputs, by address. *)
Lemma collect_storage_tries (outputs : gmap N (FilledTreeImpl StarknetStorageValue)) :
  (∀ x ft, outputs !! x = Some ft → ∃ a, a ∈ modified d ∧ x = leaf_at a) →
  ∃ tries, collect_map (E:=ForestError) (λ kv,
      converted ← ContractAddress_try_from kv.1; address ← ok_or_panic converted; Ok (address, kv.2))
      (hash_iter outputs) = Ok tries ∧
    ∀ a ft, tries !! a = Some ft ↔ outputs !! leaf_at a = Some ft.
Proof.
  intros Hout. set (key := λ kv : N * FilledTreeImpl StarknetStorageValue, kv.1 - FIRST_LEAF).
  assert (Hkey : ∀ x ft, (x, ft) ∈ hash_iter outputs → ∃ a, a ∈ modified d ∧ x = leaf_at a ∧ key (x, ft) = a).
  { intros x ft (a&Ha&->)%elem_of_hash_iter%Hout. exists a. unfold key, leaf_at; cbn. split_and!; [done..|lia]. }
  match goal with |- ∃ _, collect_map ?f _ = _ ∧ _ =>
    destruct (collect_map_ok f key (λ kv ft, ft = kv.2) (hash_iter outputs)) as (tries&->&Ht1&Ht2) end.
  - intros [x ft] Hin. destruct (Hkey x ft Hin) as (a&Ha&->&->). cbn [fst snd].
    rewrite ContractAddress_try_from_ok by by apply (modified_key d Hd). unfold mbind; cbn [result_bind ok_or_panic]. eauto.
  - apply NoDup_fmap_2_strong; [|apply (NoDup_fmap_1 fst), NoDup_hash_iter_keys].
    intros [x ft] [x' ft'] Hin Hin' Heq. destruct (Hkey x ft Hin) as (a&_&->&Hk), (Hkey x' ft' Hin') as (a'&_&->&Hk').
    assert (a = a') as -> by congruence. apply elem_of_hash_iter in Hin, Hin'. congruence.
  - exists tries. split; [done|]. intros a ft. split.
    + intros Hft. destruct (Ht2 a ft Hft) as ([x ft']&Hin&->&->). destruct (Hkey x ft' Hin) as (a&_&->&->).
      by apply elem_of_hash_iter.
    + intros Hft%elem_of_hash_iter. destruct (Ht1 _ Hft) as (ft'&Hft'&->).
      destruct (Hkey _ _ Hft) as (a'&_&->%(inj leaf_at)&Hk). by rewrite Hk in Hft'.
Qed.

(** The outputs of the modified contracts that are not removed. *)
Lemma contract_outputs (inputs : gmap N ContractStateInput) (outputs : gmap N (FilledTreeImpl StarknetStorageValue)) :
  (∀ a, a ∈ modified d → ∃ sk, storage_updated a sk ∧ inputs !! leaf_at a = Some (input_of a sk)) →
  (∀ x o, outputs !! x = Some o ↔ ∃ l inp, changed_contracts d σ !! x = Some l ∧ is_empty l = false ∧
     inputs !! x = Some inp ∧ ContractState_create inp = Ok (l, o)) →
  (∀ x ft, outputs !! x = Some ft → ∃ a, a ∈ modified d ∧ x = leaf_at a ∧
     new_contract d σ a ≠ empty_contract ∧ storage_filled a ft) ∧
  (∀ a, a ∈ modified d → new_contract d σ a ≠ empty_contract → is_Some (outputs !! leaf_at a)).
Proof.
  intros Hinp Hout.
  assert (Hempty : ∀ a, a ∈ modified d →
    is_empty (contract_leaf (new_contract d σ a)) = bool_decide (new_contract d σ a = empty_contract)).
  { intros a Ha. apply contract_leaf_empty; [by apply new_contract_ok|by apply (new_contract_root d σ Hσ)]. }
  split.
  - intros x ft (l&inp&(a&Ha&->&->)%lookup_changed_contracts&He&Hi&Hcr)%Hout. exists a.
    rewrite Hempty, bool_decide_eq_false in He by done. split_and!; [done..|].
    destruct (Hinp a Ha) as (sk&Hsk&Hi'). rewrite Hi' in Hi. injection Hi as <-.
    destruct (contract_create a sk Hsk) as (ft'&Hft'&Hfill). rewrite Hft' in Hcr.
    assert (ft = ft') as ->; [|done]. by apply (inj Ok), (inj2 pair) in Hcr as [_ ->].
  - intros a Ha Hne. destruct (Hinp a Ha) as (sk&Hsk&Hi). destruct (contract_create a sk Hsk) as (ft&Hft&_).
    exists ft. apply Hout. exists (contract_leaf (new_contract d σ a)), (input_of a sk).
    split_and!; [apply lookup_changed_contracts; by eauto| |done|done].
    rewrite Hempty by done. by apply bool_decide_eq_false.
Qed.

Lemma filled_forest leaves updated :
  previous_ok leaves → updated_forest_ok updated →
  ∃ forest, FilledForest_create updated (tabulate (changed_leaves d) (modified d)) (changed_classes d) leaves
      (address_to_class_hash d) (address_to_nonce d) = Ok forest ∧ filled_forest_ok forest.
Proof.
  intros Hprev Hu. unfold FilledForest_create.
  destruct (contract_leaf_inputs leaves updated Hprev Hu) as (inputs&->&Hdom&Hinp). unfold mbind; cbn [result_bind].
  destruct classes_indices_ok as [HLs Hin].
  destruct (trie_filled (classes_leaves σ) (changed_classes d) classes_indices HLs Hin (classes_no_empty σ Hσ)
    (updated_classes_trie updated) (updated_classes_ok updated Hu)) as (classes_trie&->&Hclasses).
  cbn [await_trie result_bind]. destruct contracts_indices_ok as [HcLs Hcin].
  destruct (trie_filled_inputs (Leaf0:=ContractState_leaf) (contracts_leaves σ) (changed_contracts d σ)
    contracts_indices HcLs Hcin (contracts_no_empty σ Hσ storage Hst) (updated_contracts_trie updated) inputs
    (updated_contracts_ok updated Hu)) as (contracts_trie&outputs&->&Hcontracts&Hout).
  { split; intros Hempty; apply map_empty; intros x; apply eq_None_not_Some; intros Hx.
    - destruct Hx as [l (a&Ha&_)%lookup_changed_contracts]. destruct (Hinp a Ha) as (sk&_&Hsk).
      by rewrite Hempty, lookup_empty in Hsk.
    - destruct (Hdom x Hx) as (a&Ha&->).
      assert (changed_contracts d σ !! leaf_at a = Some (contract_leaf (new_contract d σ a))) as Hch
        by (apply lookup_changed_contracts; by eauto). by rewrite Hempty, lookup_empty in Hch. }
  { intros x l (a&Ha&->&->)%lookup_changed_contracts. destruct (Hinp a Ha) as (sk&Hsk&Hi).
    destruct (contract_create a sk Hsk) as (ft&Hft&_). by exists (input_of a sk), ft. }
  cbn [await_trie result_bind snd].
  destruct (contract_outputs inputs outputs Hinp Hout) as [Hout1 Hout2].
  destruct (collect_storage_tries outputs) as (tries&Hcol&Htries).
  { intros x ft (a&?&?&_)%Hout1. eauto. }
  unfold mbind in Hcol. rewrite Hcol. cbn [result_bind]. eexists. split; [done|].
  split; cbn [filled_classes_trie filled_contracts_trie filled_storage_tries fst]; [done|done| |].
  - intros a Ha Hne. destruct (Hout2 a Ha Hne) as [ft Hft]. exists ft. by apply Htries.
  - intros a ft (a'&Ha&->%(inj leaf_at)&?&?)%Htries%Hout1. done.
Qed.

(** ** The commitment *)

Lemma trivial_updates_ok {E} leaves field (updates : gmap N N) :
  (∀ a, is_Some (updates !! a) → key_ok a) → ∃ warned, trivial_updates (E:=E) leaves field updates = Ok warned.
Proof.
  intros Hk. unfold trivial_updates.
  match goal with |- ∃ _, (mapM ?f ?l ≫= _) = _ =>
    destruct (mapM_ok f (λ _ _, True) l) as (ys&->&_) end; [|by eexists].
  intros [a v] Ha%elem_of_hash_iter. cbn [fst snd]. rewrite from_leaf_felt_ok by by eauto.
  unfold mbind; cbn [result_bind]. eauto.
Qed.

Lemma check_trivial_ok {E} leaves :
  ∃ warned, check_trivial_nonce_and_class_hash_updates (E:=E) leaves (address_to_class_hash d) (address_to_nonce d)
    = Ok warned.
Proof.
  unfold check_trivial_nonce_and_class_hash_updates.
  destruct (trivial_updates_ok (E:=E) leaves nonce (address_to_nonce d)) as (w1&->).
  { intros a [v Hv]. by apply (diff_nonces d Hd) in Hv as []. }
  destruct (trivial_updates_ok (E:=E) leaves class_hash (address_to_class_hash d)) as (w2&->).
  { intros a [v Hv]. by apply (diff_class_hashes d Hd) in Hv as []. }
  by eexists.
Qed.

Definition commit_input warn : Input := {|
  input_storage := storage;
  state_diff := d;
  contracts_trie_root_hash := trie_root (contracts_leaves σ);
  classes_trie_root_hash := trie_root (classes_leaves σ);
  warn_on_trivial_modifications := warn;
|}.

Lemma commit_block_ok warn :
  ∃ forest, commit_block (commit_input warn) = Ok forest ∧ filled_forest_ok forest.
Proof.
  unfold commit_block, commit_input.
  cbn [state_diff input_storage contracts_trie_root_hash classes_trie_root_hash warn_on_trivial_modifications].
  rewrite (get_all_modified_indices_ok d Hd). unfold mbind; cbn [result_bind].
  rewrite (actual_storage_updates_ok d Hd), (actual_classes_updates_ok d Hd). cbn [result_bind].
  destruct (original_forest warn) as (original&leaves&Horig&Ho&Hprev).
  unfold sorted_indices_of, contracts_indices, classes_indices in Horig. rewrite Horig. cbn [result_bind fst snd].
  assert (∃ w, (if warn then check_trivial_nonce_and_class_hash_updates (E:=ForestError) leaves (address_to_class_hash d)
      (address_to_nonce d) else Ok ([], [])) = Ok w) as [w ->].
  { destruct warn; [apply check_trivial_ok|by eexists]. }
  cbn [result_bind]. rewrite (skeleton_classes_updates_ok d Hd), (skeleton_storage_updates_ok d Hd). cbn [result_bind].
  destruct (updated_forest original leaves Ho Hprev) as (updated&->&Hu). cbn [result_bind].
  apply (filled_forest leaves updated Hprev Hu).
Qed.

Lemma filled_roots forest :
  filled_forest_ok forest →
  get_contract_root_hash forest = trie_root (contracts_leaves σ') ∧
  get_compiled_class_root_hash forest = trie_root (classes_leaves σ') ∧
  (∀ a ft, filled_storage_tries forest !! a = Some ft →
     ∃ c, contracts σ' !! a = Some c ∧ get_root_hash ft = trie_root (storage_leaves c)) ∧
  (∀ a, a ∈ modified d → is_Some (contracts σ' !! a) → is_Some (filled_storage_tries forest !! a)).
Proof.
  intros Hf. split_and!.
  - rewrite (contracts_leaves_after d Hd σ Hσ storage Hst Hroots). apply (filled_contracts_ok forest Hf).
  - rewrite (classes_leaves_after d σ). apply (filled_classes_ok forest Hf).
  - intros a ft (Ha&Hne&Hft)%(filled_storage_ok forest Hf). exists (new_contract d σ a). split.
    + by rewrite (contracts_after d σ Hσ), decide_True, decide_False.
    + unfold get_root_hash, trie_root, new_contract. rewrite update_storage_leaves. apply Hft.
  - intros a Ha [c Hc]. rewrite (contracts_after d σ Hσ), decide_True in Hc by done.
    apply (filled_storage_dom forest Hf a Ha). by destruct (decide (new_contract d σ a = empty_contract)).
Qed.

(** ** Writing the forest to the storage *)

Lemma elem_of_trie_objects {L} `{!Leaf L} `{!TreeHashFunction L} (m : gmap N L) n :
  n ∈ opt_nodes (canonical 251 ROOT m) → (db_key n, FilledNode_serialize n) ∈ trie_objects m.
Proof. intros Hn. by apply (list_elem_of_fmap_2 (λ n, (db_key n, FilledNode_serialize n))). Qed.

Lemma state_contracts_objects (τ : ChainState) n :
  n ∈ opt_nodes (canonical 251 ROOT (contracts_leaves τ)) → (db_key n, FilledNode_serialize n) ∈ state_objects τ.
Proof. intros Hn. unfold state_objects. rewrite !elem_of_app. left. by apply elem_of_trie_objects. Qed.

Lemma state_classes_objects (τ : ChainState) n :
  n ∈ opt_nodes (canonical 251 ROOT (classes_leaves τ)) → (db_key n, FilledNode_serialize n) ∈ state_objects τ.
Proof. intros Hn. unfold state_objects. rewrite !elem_of_app. right; left. by apply elem_of_trie_objects. Qed.

Lemma state_storage_objects (τ : ChainState) a c n :
  contracts τ !! a = Some c → n ∈ opt_nodes (canonical 251 ROOT (storage_leaves c)) →
  (db_key n, FilledNode_serialize n) ∈ state_objects τ.
Proof.
  intros Hc Hn. unfold state_objects. rewrite !elem_of_app. right; right. apply list_elem_of_join.
  exists (trie_objects (storage_leaves c)). split; [by apply elem_of_trie_objects|].
  apply list_elem_of_fmap. exists (a, c). split; [done|]. by apply elem_of_map_to_list.
Qed.

Hypothesis Hcoll : no_collisions (state_objects σ ++ state_objects σ').

Definition good (k v : list N) : Prop := (k, v) ∈ state_objects σ ++ state_objects σ'.

Lemma good_old k v : (k, v) ∈ state_objects σ → good k v.
Proof. intros. apply elem_of_app. by left. Qed.

Lemma good_new k v : (k, v) ∈ state_objects σ' → good k v.
Proof. intros. apply elem_of_app. by right. Qed.

Lemma old_storage_good a n : n ∈ opt_nodes (canonical 251 ROOT (old_leaves a)) → node_good good n.
Proof.
  unfold old_leaves, contract_of. destruct (contracts σ !! a) as [c|] eqn:Hc; cbn [default].
  - intros Hn. by eapply good_old, state_storage_objects.
  - rewrite canonical_empty by by apply index_map_empty_iff. intros Hn. by apply not_elem_of_nil in Hn.
Qed.

(** An object that is written belongs to the new state. *)
Lemma elem_of_db_objects (forest : FilledForest) k v :
  (k, v) ∈ mjoin ((λ kv, hash_iter (FilledTree_serialize kv.2)) <$> hash_iter (filled_storage_tries forest)) ++
    hash_iter (FilledTree_serialize (filled_contracts_trie forest)) ++
    hash_iter (FilledTree_serialize (filled_classes_trie forest)) ↔
  (∃ a ft, filled_storage_tries forest !! a = Some ft ∧ FilledTree_serialize ft !! k = Some v) ∨
  FilledTree_serialize (filled_contracts_trie forest) !! k = Some v ∨
  FilledTree_serialize (filled_classes_trie forest) !! k = Some v.
Proof.
  rewrite !elem_of_app, !elem_of_hash_iter, list_elem_of_join. f_equiv. split.
  - intros (l&Hkv&Hl). apply list_elem_of_fmap in Hl as ([a ft]&->&Ha%elem_of_hash_iter).
    exists a, ft. split; [done|]. by apply elem_of_hash_iter.
  - intros (a&ft&Ha&Hkv). exists (hash_iter (FilledTree_serialize ft)). split; [by apply elem_of_hash_iter|].
    apply list_elem_of_fmap. exists (a, ft). split; [done|]. by apply elem_of_hash_iter.
Qed.

Lemma db_objects_good forest k v :
  filled_forest_ok forest → new_db_objects forest !! k = Some v → good k v.
Proof.
  intros Hf Hkv%elem_of_list_to_map_2. rewrite elem_of_reverse in Hkv. apply good_new.
  apply elem_of_db_objects in Hkv as [(a&ft&Ha&Hkv)|[Hkv|Hkv]];
    apply serialize_lookup_inv in Hkv as (j&fn&Hj&->&->).
  - apply (filled_storage_ok forest Hf) in Ha as (Ha&Hne&Hft).
    apply (state_storage_objects _ a (new_contract d σ a)).
    + by rewrite (contracts_after d σ Hσ), decide_True, decide_False.
    + unfold new_contract. rewrite update_storage_leaves. by eapply filled_nodes.
  - apply state_contracts_objects. rewrite (contracts_leaves_after d Hd σ Hσ storage Hst Hroots).
    eapply filled_nodes; [apply (filled_contracts_ok forest Hf)|done].
  - apply state_classes_objects. rewrite (classes_leaves_after d σ).
    eapply filled_nodes; [apply (filled_classes_ok forest Hf)|done].
Qed.

Lemma db_objects_written (forest : FilledForest) k :
  (∃ a ft, filled_storage_tries forest !! a = Some ft ∧ is_Some (FilledTree_serialize ft !! k)) ∨
  is_Some (FilledTree_serialize (filled_contracts_trie forest) !! k) ∨
  is_Some (FilledTree_serialize (filled_classes_trie forest) !! k) →
  is_Some (new_db_objects forest !! k).
Proof.
  intros Hk. apply not_eq_None_Some. unfold new_db_objects. intros Hnone%not_elem_of_list_to_map. apply Hnone.
  rewrite fmap_reverse, elem_of_reverse.
  assert (∃ v, (k, v) ∈ mjoin ((λ kv, hash_iter (FilledTree_serialize kv.2)) <$> hash_iter (filled_storage_tries forest)) ++
    hash_iter (FilledTree_serialize (filled_contracts_trie forest)) ++
    hash_iter (FilledTree_serialize (filled_classes_trie forest))) as [v Hv].
  { setoid_rewrite elem_of_db_objects. destruct Hk as [(a&ft&?&[v ?])|[[v ?]|[v ?]]]; exists v; by eauto. }
  apply list_elem_of_fmap. by exists (k, v).
Qed.

Lemma good_unique k v v' : good k v → good k v' → v = v'.
Proof. apply Hcoll. Qed.

Lemma storage_trie_after forest a ft :
  filled_forest_ok forest → filled_storage_tries forest !! a = Some ft →
  tree_stored (write_to_storage forest storage) (storage_leaves (new_contract d σ a)).
Proof.
  intros Hf Hft. destruct (filled_storage_ok forest Hf a ft Hft) as (Ha&Hne&Hfill).
  assert (Hc : contracts σ' !! a = Some (new_contract d σ a))
    by by rewrite (contracts_after d σ Hσ), decide_True, decide_False.
  destruct (storage_indices_ok a) as [HLs Hin].
  assert (Hno : no_empty_leaf (old_leaves a)) by by apply storage_no_empty, contract_of_ok.
  pose proof (new_contract_root d σ Hσ Hroots a Ha) as Hroot.
  pose proof (λ n, state_storage_objects σ' a _ n Hc) as Hnew.
  unfold new_contract in *. rewrite update_storage_leaves in *.
  apply (trie_stored (old_leaves a) (changed_leaves d a) (storage_indices a) HLs Hin Hno good) with (ft := ft).
  - apply good_unique.
  - intros k v. by apply db_objects_good.
  - intros x l (k&->&Hl)%lookup_index_map_Some. by apply (changes_ok d Hd) in Hl as [].
  - by apply contract_of_stored.
  - done.
  - apply old_storage_good.
  - intros n Hn. by apply good_new, Hnew.
  - intros j fn Hj. apply db_objects_written. left. exists a, ft. split; [done|]. by eapply serialize_is_Some.
  - done.
Qed.

Lemma contracts_trie_after forest :
  filled_forest_ok forest → nonzero_root (contracts_leaves σ') →
  tree_stored (write_to_storage forest storage) (contracts_leaves σ').
Proof.
  intros Hf Hroot. destruct contracts_indices_ok as [HLs Hin]. pose proof (state_contracts_objects σ') as Hnew.
  rewrite (contracts_leaves_after d Hd σ Hσ storage Hst Hroots) in *.
  apply (trie_stored (contracts_leaves σ) (changed_contracts d σ) contracts_indices HLs Hin
    (contracts_no_empty σ Hσ storage Hst) good) with (ft := filled_contracts_trie forest).
  - apply good_unique.
  - intros k v. by apply db_objects_good.
  - intros x l (a&Ha&->&->)%lookup_changed_contracts. pose proof (new_contract_ok d Hd σ Hσ a) as Hok.
    split_and!; [apply Hok| |apply Hok]. apply trie_root_felt.
  - by apply (contracts_stored storage σ).
  - by apply filled_contracts_ok.
  - intros n Hn. by apply good_old, state_contracts_objects.
  - intros n Hn. by apply good_new, Hnew.
  - intros j fn Hj. apply db_objects_written. right; left. by eapply serialize_is_Some.
  - done.
Qed.

Lemma classes_trie_after forest :
  filled_forest_ok forest → nonzero_root (classes_leaves σ') →
  tree_stored (write_to_storage forest storage) (classes_leaves σ').
Proof.
  intros Hf Hroot. destruct classes_indices_ok as [HLs Hin]. pose proof (state_classes_objects σ') as Hnew.
  rewrite (classes_leaves_after d σ) in *.
  apply (trie_stored (classes_leaves σ) (changed_classes d) classes_indices HLs Hin
    (classes_no_empty σ Hσ) good) with (ft := filled_classes_trie forest).
  - apply good_unique.
  - intros k v. by apply db_objects_good.
  - intros x l (k&->&Hl)%lookup_index_map_Some. by apply (diff_classes d Hd) in Hl as [].
  - by apply (classes_stored storage σ).
  - by apply filled_classes_ok.
  - intros n Hn. by apply good_old, state_classes_objects.
  - intros n Hn. by apply good_new, Hnew.
  - intros j fn Hj. apply db_objects_written. right; right. by eapply serialize_is_Some.
  - done.
Qed.

(** The storage holds the new forest. *)
Lemma forest_after forest :
  filled_forest_ok forest → nonzero_roots σ' → forest_stored (write_to_storage forest storage) σ'.
Proof.
  intros Hf Hr. split.
  - by apply contracts_trie_after, contracts_root.
  - by apply classes_trie_after, classes_root.
  - intros a c Hc. pose proof Hc as Hc'. rewrite (contracts_after d σ Hσ) in Hc.
    destruct (decide (a ∈ modified d)) as [Ha|Ha].
    + destruct (decide (new_contract d σ a = empty_contract)) as [He|He]; [done|]. injection Hc as <-.
      destruct (filled_storage_dom forest Hf a Ha He) as [ft Hft]. by eapply storage_trie_after.
    + intros t Ht. destruct (storages_stored storage σ Hst a c Hc t Ht) as [Hs Hne]. split; [|done].
      apply (stored_write good good_unique); [intros k v; by apply db_objects_good| |done].
      intros n Hn. eapply good_old, state_storage_objects; [done|]. by rewrite Ht.
Qed.
End commit.
