(* ===== verification/CommitterTheorems.v ===== *)
(** The properties of the block commitment, with their witnesses. *)
From S2P Require Import Prelude.
From S2P Require Import StarknetApi.
From S2P Require Import PatriciaTypes.
From S2P Require Import PatriciaTree.
From S2P Require Import PatriciaNode.
From S2P Require Import PatriciaFilled.
From S2P Require Import PatriciaOriginal.
From S2P Require Import PatriciaStorage.
From S2P Require Import CommitterLeaf.
From S2P Require Import PatriciaTheorems.
From S2P Require Import Committer.
From S2P Require Import CommitterSpec.
From S2P Require Import CommitterProofs.
From S2P Require Import CommitterInstances.

(** ** A chain of blocks

    Each block is committed on the storage and the roots that the previous one left. *)
Section chain.
Context `{HashOrder} `{!Pedersen} `{!Poseidon} `{!FeltHex} `{!SerdeJson}.

Fixpoint commit_blocks (warn : bool) (storage : gmap (list N) (list N)) (contracts_root classes_root : N)
    (diffs : list StateDiff) : result ForestError (gmap (list N) (list N) * N * N) :=
  match diffs with
  | [] => Ok (storage, contracts_root, classes_root)
  | d :: diffs =>
      forest ← commit_block {| input_storage := storage; state_diff := d; contracts_trie_root_hash := contracts_root;
                               classes_trie_root_hash := classes_root; warn_on_trivial_modifications := warn |};
      commit_blocks warn (write_to_storage forest storage) (get_contract_root_hash forest)
        (get_compiled_class_root_hash forest) diffs
  end.

Definition genesis : ChainState := {| contracts := ∅; classes := ∅ |}.

(** The diffs are well formed, and the hashes are neither zero nor collide on the way. *)
Fixpoint blocks_ok (σ : ChainState) (diffs : list StateDiff) : Prop :=
  match diffs with
  | [] => True
  | d :: diffs =>
      diff_ok d ∧ nonzero_roots (apply_state_diff d σ) ∧
      no_collisions (state_objects σ ++ state_objects (apply_state_diff d σ)) ∧
      blocks_ok (apply_state_diff d σ) diffs
  end.

Lemma genesis_ok : state_ok genesis.
Proof. split; intros ??; cbn; by rewrite lookup_empty. Qed.

Lemma genesis_leaves : contracts_leaves genesis = ∅ ∧ classes_leaves genesis = ∅.
Proof.
  unfold contracts_leaves, classes_leaves, genesis, index_map; cbn. by rewrite fmap_empty, !(kmap_empty leaf_at).
Qed.

Lemma genesis_stored : forest_stored ∅ genesis.
Proof.
  destruct genesis_leaves as [Hc Hcl]. split.
  - rewrite Hc. intros t Ht. by rewrite canonical_empty in Ht.
  - rewrite Hcl. intros t Ht. by rewrite canonical_empty in Ht.
  - intros a c. cbn. by rewrite lookup_empty.
Qed.

Lemma genesis_roots : trie_root (contracts_leaves genesis) = 0 ∧ trie_root (classes_leaves genesis) = 0.
Proof. destruct genesis_leaves as [-> ->]. unfold trie_root. by rewrite !canonical_empty. Qed.

Lemma commit_blocks_from warn diffs σ storage :
  state_ok σ → forest_stored storage σ → blocks_ok σ diffs →
  ∃ storage', commit_blocks warn storage (trie_root (contracts_leaves σ)) (trie_root (classes_leaves σ)) diffs =
      Ok (storage', trie_root (contracts_leaves (foldl (λ σ d, apply_state_diff d σ) σ diffs)),
          trie_root (classes_leaves (foldl (λ σ d, apply_state_diff d σ) σ diffs))) ∧
    forest_stored storage' (foldl (λ σ d, apply_state_diff d σ) σ diffs).
Proof.
  revert σ storage. induction diffs as [|d diffs IH]; intros σ storage Hσ Hst Hok; [by exists storage|].
  destruct Hok as (Hd&Hr&Hcoll&Hok). cbn [commit_blocks foldl].
  destruct (commit_block_ok d Hd σ Hσ storage Hst (storages_root _ Hr) warn) as (forest&Hrun&Hf).
  unfold commit_input in Hrun. rewrite Hrun. unfold mbind; cbn [result_bind].
  destruct (filled_roots d Hd σ Hσ storage Hst (storages_root _ Hr) forest Hf) as (->&->&_&_).
  apply IH; [by apply (state_ok_after d Hd σ Hσ)| |done].
  exact (forest_after d Hd σ Hσ storage Hst (storages_root _ Hr) Hcoll forest Hf Hr).
Qed.

(** C9: committing a block refines the update of the state by its diff. When the storage
    holds the tries of the state, addresses, keys and values are in range ([state_ok],
    [diff_ok]) and no non-empty storage trie of the updated state hashes to the root of the empty
    trie, [commit_block] returns, without an error or a panic, a forest whose contracts root and
    classes root are the roots of the updated state, with the storage trie of every modified
    contract that is still there. Contracts that become empty are removed. *)
Theorem block_commitment_correct (σ : ChainState) (d : StateDiff) (storage : gmap (list N) (list N)) (warn : bool) :
  let σ' := apply_state_diff d σ in
  state_ok σ → diff_ok d → forest_stored storage σ →
  (∀ a c, contracts σ' !! a = Some c → nonzero_root (storage_leaves c)) →
  ∃ forest,
    commit_block {| input_storage := storage; state_diff := d;
                    contracts_trie_root_hash := trie_root (contracts_leaves σ);
                    classes_trie_root_hash := trie_root (classes_leaves σ);
                    warn_on_trivial_modifications := warn |} = Ok forest ∧
    get_contract_root_hash forest = trie_root (contracts_leaves σ') ∧
    get_compiled_class_root_hash forest = trie_root (classes_leaves σ') ∧
    (∀ a ft, filled_storage_tries forest !! a = Some ft →
       ∃ c, contracts σ' !! a = Some c ∧ get_root_hash ft = trie_root (storage_leaves c)) ∧
    (∀ a, a ∈ modified d → is_Some (contracts σ' !! a) → is_Some (filled_storage_tries forest !! a)).
Proof.
  intros σ' Hσ Hd Hst Hr. destruct (commit_block_ok d Hd σ Hσ storage Hst Hr warn) as (forest&?&Hf).
  exists forest. split; [done|]. by apply (filled_roots d Hd σ Hσ storage Hst Hr).
Qed.

(** C8: the commitments of a chain of blocks. Starting from the empty storage, each block
    is committed on what the previous block wrote. As long as the hashes do not collide, every
    block is committed, the roots are those of the state after all the diffs, and the storage
    holds all the tries of that state. *)
Theorem chain_commitment_correct (warn : bool) (diffs : list StateDiff) :
  let σ := foldl (λ σ d, apply_state_diff d σ) genesis diffs in
  blocks_ok genesis diffs →
  ∃ storage, commit_blocks warn ∅ 0 0 diffs = Ok (storage, trie_root (contracts_leaves σ), trie_root (classes_leaves σ)) ∧
    forest_stored storage σ.
Proof.
  intros σ Hok. pose proof (commit_blocks_from warn diffs genesis ∅ genesis_ok genesis_stored Hok) as Hrun.
  destruct genesis_roots as [Hc Hcl]. by rewrite Hc, Hcl in Hrun.
Qed.
End chain.

(** ** Two blocks

    The first one deploys a contract with a declared class and writes to the storage of two
    contracts; the second one changes the first contract and clears the second one. *)
Module CommitterScenario.

#[export] Instance order : HashOrder := canonical_order.

Definition value (v : N) : StarknetStorageValue := {| storage_value := v |}.

Definition block1 : StateDiff := {|
  address_to_class_hash := {[5 := 9]};
  address_to_nonce := {[5 := 1]};
  class_hash_to_compiled_class_hash := {[9 := {| compiled_class_hash := 77 |}]};
  storage_updates := {[5 := {[3 := value 7; 4 := value 1]}; 6 := {[1 := value 2]}]};
|}.

Definition block2 : StateDiff := {|
  address_to_class_hash := ∅;
  address_to_nonce := {[5 := 2]};
  class_hash_to_compiled_class_hash := ∅;
  storage_updates := {[5 := {[3 := value 0; 8 := value 4]}; 6 := {[1 := value 0]}]};
|}.

Definition state1 : ChainState := apply_state_diff block1 genesis.
Definition state2 : ChainState := apply_state_diff block2 state1.

Lemma diff_ok_check (d : StateDiff) :
  map_Forall (λ a v, a < 2 ^ 251 ∧ v < felt_prime) (address_to_class_hash d) ∧
  map_Forall (λ a v, a < 2 ^ 251 ∧ v < felt_prime) (address_to_nonce d) ∧
  map_Forall (λ h v, h < 2 ^ 251 ∧ compiled_class_hash v < felt_prime) (class_hash_to_compiled_class_hash d) ∧
  map_Forall (λ a u, a < 2 ^ 251 ∧ map_Forall (λ k v, k < 2 ^ 251 ∧ storage_value v < felt_prime) u) (storage_updates d) →
  diff_ok d.
Proof.
  intros (Hc&Hn&Hcl&Hs). split; [done..| |].
  - intros a u Hu. by apply Hs in Hu as [].
  - intros a u k v Hu Hv. apply Hs in Hu as [_ Hu]. by apply Hu.
Qed.

Definition root_nonzero {L} `{!TreeHashFunction L} (m : gmap N L) : bool :=
  match canonical 251 ROOT m with Some t => negb (tree_hash t =? ROOT_OF_EMPTY_TREE) | None => true end.

Lemma root_nonzero_ok {L} `{!TreeHashFunction L} (m : gmap N L) : root_nonzero m = true → nonzero_root m.
Proof. unfold root_nonzero. intros Hm t Ht. rewrite Ht in Hm. by apply negb_true_iff, N.eqb_neq in Hm. Qed.

Lemma nonzero_roots_check (σ : ChainState) :
  root_nonzero (contracts_leaves σ) = true ∧ root_nonzero (classes_leaves σ) = true ∧
  forallb (λ kv, root_nonzero (storage_leaves kv.2)) (map_to_list (contracts σ)) = true → nonzero_roots σ.
Proof.
  intros (Hc&Hcl&Hs). split; [by apply root_nonzero_ok..|]. intros a c Hac. apply root_nonzero_ok.
  rewrite forallb_forall in Hs. apply (Hs (a, c)). by apply list_elem_of_In, elem_of_map_to_list.
Qed.

Lemma no_collisions_check l : PatriciaScenario.no_collision_among l = true → no_collisions l.
Proof.
  unfold PatriciaScenario.no_collision_among. rewrite forallb_forall. intros Hall k v v' Hv Hv'.
  specialize (Hall (k, v)). rewrite forallb_forall in Hall. apply list_elem_of_In in Hv, Hv'.
  specialize (Hall Hv (k, v') Hv'). apply orb_true_iff in Hall as [Hne|Heq]; [by apply bool_decide_eq_true in Hne|].
  by apply bool_decide_eq_true in Heq.
Qed.

Lemma block1_ok : diff_ok block1.
Proof. apply diff_ok_check. split_and!; apply (bool_decide_unpack _); vm_compute; exact I. Qed.

Lemma block2_ok : diff_ok block2.
Proof. apply diff_ok_check. split_and!; apply (bool_decide_unpack _); vm_compute; exact I. Qed.

Lemma state1_roots : nonzero_roots state1.
Proof. apply nonzero_roots_check. vm_compute. done. Qed.

Lemma state2_roots : nonzero_roots state2.
Proof. apply nonzero_roots_check. vm_compute. done. Qed.

Lemma no_collisions1 : no_collisions (state_objects genesis ++ state_objects state1).
Proof. apply no_collisions_check. vm_compute. reflexivity. Qed.

Lemma no_collisions2 : no_collisions (state_objects state1 ++ state_objects state2).
Proof. apply no_collisions_check. vm_compute. reflexivity. Qed.

End CommitterScenario.

Section witnesses.
Import CommitterScenario.

Lemma chain_commitment_correct_witness : ∃ storage,
  commit_blocks true ∅ 0 0 [block1; block2] =
    Ok (storage, trie_root (contracts_leaves state2), trie_root (classes_leaves state2)) ∧
  forest_stored storage state2.
Proof.
  apply (chain_commitment_correct true [block1; block2]).
  split; [exact block1_ok|]. split; [exact state1_roots|]. split; [exact no_collisions1|].
  split; [exact block2_ok|]. split; [exact state2_roots|]. split; [exact no_collisions2|exact I].
Defined.

Lemma block_commitment_correct_witness : ∃ storage forest,
  commit_block {| input_storage := storage; state_diff := block2;
                  contracts_trie_root_hash := trie_root (contracts_leaves state1);
                  classes_trie_root_hash := trie_root (classes_leaves state1);
                  warn_on_trivial_modifications := true |} = Ok forest ∧
  get_contract_root_hash forest = trie_root (contracts_leaves state2) ∧
  get_compiled_class_root_hash forest = trie_root (classes_leaves state2).
Proof.
  destruct (commit_blocks_from true [block1] genesis ∅ genesis_ok genesis_stored) as (storage&_&Hst).
  { split; [exact block1_ok|]. split; [exact state1_roots|]. split; [exact no_collisions1|exact I]. }
  destruct (block_commitment_correct state1 block2 storage true) as (forest&Hrun&Hc&Hcl&_).
  - exact (state_ok_after block1 block1_ok genesis genesis_ok).
  - exact block2_ok.
  - exact Hst.
  - exact (storages_root _ state2_roots).
  - exists storage, forest. split; [exact Hrun|]. split; [exact Hc|exact Hcl].
Defined.
End witnesses.
