(* ===== verification/StateApi.v ===== *)
(** The interface of the Starknet state: [crates/blockifier/src/state/state_api.rs] and
    [errors.rs].

    Code that reads the state through a [StateReader] is a tree of queries ([Reads]): it asks,
    goes on with the answer, and ends with a value. The same code can then be run against a
    state that nobody else touches ([run_reads]), or one query at a time while other threads
    work on the state. Contract classes are opaque: the type [RunnableCompiledClass] is a
    parameter. Addresses, keys, hashes and nonces are numbers. *)
From Stdlib Require Eqdep_dec.
From S2P Require Import Prelude StarknetApi.

(** [StateError]; the payload of errors of other crates is left out. *)
Inductive StateError :=
| CasmAndSierraMismatch (class_hash : N)
| FromBigUint
| OldBlockHashNotProvided
| OutOfRangeContractAddress
| ProgramError
| UnavailableContractAddress (address : N)
| UndeclaredClassHash (class_hash : N)
| StarknetApiError
| StateReadError.

#[global] Instance StateError_eq_dec : EqDecision StateError.
Proof. solve_decision. Defined.

(** [Result<T, StateError>]. *)
Inductive StateResult (A : Type) : Type :=
| SOk (a : A)
| SErr (e : StateError).
Arguments SOk {A} a.
Arguments SErr {A} e.

Definition from_state_result {A} (r : StateResult A) : result StateError A :=
  match r with SOk a => Ok a | SErr e => Err e end.

(** ** Queries *)

(** The methods of [StateReader], with their arguments. *)
Inductive Query :=
| GetStorageAt (contract_address key : N)
| GetNonceAt (contract_address : N)
| GetClassHashAt (contract_address : N)
| GetCompiledClass (class_hash : N)
| GetCompiledClassHash (class_hash : N).

#[global] Instance Query_eq_dec : EqDecision Query.
Proof. solve_decision. Defined.

Section queries.
Context {RunnableCompiledClass : Type}.

Definition Answer (q : Query) : Type :=
  match q with GetCompiledClass _ => RunnableCompiledClass | _ => N end.

Inductive Reads (A : Type) : Type :=
| Return (a : A)
| Ask (q : Query) (k : StateResult (Answer q) → Reads A).
Arguments Return {A} a.
Arguments Ask {A} q k.

#[global] Instance Reads_ret : MRet Reads := λ A, Return.
#[global] Instance Reads_bind : MBind Reads := λ A B f,
  fix bind m := match m with Return a => f a | Ask q k => Ask q (λ r, bind (k r)) end.

Definition ask (q : Query) : Reads (StateResult (Answer q)) := Ask q Return.

(** A state that is only read: what it answers. *)
Definition View : Type := ∀ q, StateResult (Answer q).

Fixpoint run_reads {A} (m : Reads A) (σ : View) : A :=
  match m with Return a => a | Ask q k => run_reads (k (σ q)) σ end.

Lemma run_reads_bind {A B} (m : Reads A) (f : A → Reads B) σ :
  run_reads (m ≫= f) σ = run_reads (f (run_reads m σ)) σ.
Proof. induction m as [a|q k IH]; [done|]. apply IH. Qed.

Lemma run_reads_ext {A} (m : Reads A) σ σ' : (∀ q, σ q = σ' q) → run_reads m σ = run_reads m σ'.
Proof. intros Heq. induction m as [a|q k IH]; [done|]. cbn. by rewrite Heq, IH. Qed.

Lemma Reads_bind_assoc {A B C} (m : Reads A) (f : A → Reads B) (g : B → Reads C) σ :
  run_reads ((m ≫= f) ≫= g) σ = run_reads (m ≫= λ a, f a ≫= g) σ.
Proof. by rewrite !run_reads_bind. Qed.

(** [m] can end with [a] when its queries are answered by [tr], in order. *)
Inductive ends_with {A} : Reads A → list {q : Query & StateResult (Answer q)} → A → Prop :=
| ends_return a : ends_with (Return a) [] a
| ends_ask q k r tr a : ends_with (k r) tr a → ends_with (Ask q k) (existT q r :: tr) a.

Lemma ends_return_inv {A} (a b : A) tr : ends_with (Return a) tr b → tr = [] ∧ b = a.
Proof. by inversion 1. Qed.

Lemma ends_ask_inv {A} q (k : StateResult (Answer q) → Reads A) tr a :
  ends_with (Ask q k) tr a → ∃ r tr', tr = existT q r :: tr' ∧ ends_with (k r) tr' a.
Proof.
  inversion 1 as [|q' k' r tr' a' Hend Hq]. subst. exists r, tr'. split; [done|].
  match goal with Hk : existT q _ = existT q _ |- _ => apply (Eqdep_dec.inj_pair2_eq_dec _ Query_eq_dec) in Hk end.
  by subst.
Qed.

Lemma trace_snoc (P : ∀ q, StateResult (Answer q) → Prop) tr q a :
  (∀ q r, existT q r ∈ tr → P q r) → P q a → ∀ q' r', existT q' r' ∈ tr ++ [existT q a] → P q' r'.
Proof.
  intros Htr Hq q' r' [Hin|Hin]%elem_of_app; [by apply Htr|]. apply list_elem_of_singleton in Hin.
  pose proof (f_equal projT1 Hin) as Heq. cbn in Heq. subst q'.
  by apply (Eqdep_dec.inj_pair2_eq_dec _ Query_eq_dec) in Hin as ->.
Qed.

(** Only the answers matter: a run against any state that gives the same answers ends in the
    same way. *)
Lemma ends_with_run {A} (m : Reads A) tr a σ :
  ends_with m tr a → (∀ q r, existT q r ∈ tr → σ q = r) → run_reads m σ = a.
Proof.
  induction 1 as [a|q k r tr a _ IH]; intros Hσ; cbn [run_reads]; [done|].
  rewrite (Hσ q r) by left. apply IH. intros q' r' Hin. apply Hσ. by right.
Qed.

Lemma run_ends_with {A} (m : Reads A) σ :
  ∃ tr, ends_with m tr (run_reads m σ) ∧ ∀ q r, existT q r ∈ tr → σ q = r.
Proof.
  induction m as [a|q k IH].
  - exists []. split; [constructor|]. intros q r Hin. by apply elem_of_nil in Hin.
  - destruct (IH (σ q)) as (tr&Htr&Hσ). exists (existT q (σ q) :: tr). split; [by constructor|].
    intros q' r' [Heq|Hin]%elem_of_cons; [|by apply Hσ].
    pose proof (f_equal projT1 Heq) as Hq. cbn in Hq. subst q'.
    by apply (Eqdep_dec.inj_pair2_eq_dec _ Query_eq_dec) in Heq.
Qed.

(** Code that reads the state and may fail or panic, with the operator [?] as its bind. *)
Definition Tries (E A : Type) : Type := Reads (result E A).

#[global] Instance Tries_ret {E} : MRet (Tries E) := λ A a, Return (Ok a).
#[global] Instance Tries_bind {E} : MBind (Tries E) := λ A B f m,
  Reads_bind _ _ (λ r, match r with Ok a => f a | Err e => Return (Err e) | Panic => Return Panic end) m.

Definition tries {E A} (r : result E A) : Tries E A := Return r.

Lemma run_tries_bind {E A B} (m : Tries E A) (f : A → Tries E B) σ :
  run_reads (m ≫= f) σ = match run_reads m σ with Ok a => run_reads (f a) σ | Err e => Err e | Panic => Panic end.
Proof. etrans; [apply (run_reads_bind (A := result E A) (B := result E B))|]. by destruct (run_reads m σ). Qed.

Lemma run_tries_ok {E A B} (m : Tries E A) (f : A → Tries E B) σ a :
  run_reads m σ = Ok a → run_reads (m ≫= f) σ = run_reads (f a) σ.
Proof. intros Hm. by rewrite run_tries_bind, Hm. Qed.

(** ** [get_fee_token_balance] *)

(** The storage address of a balance is a hash outside the modelled code. *)
Class FeeTokenVar := get_fee_token_var_address : N → N.

Definition next_storage_key (key : N) : StateResult N :=
  let next := felt_add key 1 in
  if decide (next < 2 ^ 251) then SOk next else SErr StarknetApiError.

Definition get_fee_token_balance `{FeeTokenVar} (contract_address fee_token_address : N)
    : Reads (StateResult (N * N)) :=
  let low_key := get_fee_token_var_address contract_address in
  match next_storage_key low_key with
  | SErr e => Return (SErr e)
  | SOk high_key =>
      Ask (GetStorageAt fee_token_address low_key) (λ low,
      match low with
      | SErr e => Return (SErr e)
      | SOk low =>
          Ask (GetStorageAt fee_token_address high_key) (λ high,
          match high with
          | SErr e => Return (SErr e)
          | SOk high => Return (SOk (low, high))
          end)
      end)
  end.
End queries.
Arguments Answer : clear implicits.
Arguments Reads : clear implicits.
Arguments View : clear implicits.
Arguments Tries : clear implicits.
Arguments Return {_ A} a.
Arguments Ask {_ A} q k.
