(* ===== verification/CachedState.v ===== *)
(** The cached state: [crates/blockifier/src/state/cached_state.rs], with the map helpers of
    [crates/blockifier/src/utils.rs].

    A [CachedState] buffers the writes of transactions and remembers what it read from the
    state below it. Its methods are trees of queries to that state ([StateApi.Reads]), which is
    not part of the record; a [TransactionalState] is a [CachedState] whose queries are
    answered by another one. *)
From S2P Require Import Prelude StarknetApi StateApi.

(** ** Maps *)

Section mappings.
Context {K V : Type} `{Countable K} `{EqDecision V}.
Implicit Types source subtract : gmap K V.

Definition subtract_mappings source subtract : gmap K V :=
  filter (λ kv, subtract !! kv.1 ≠ Some kv.2) source.

(** [None] when a key of the source is missing: the source panics. *)
Definition strict_subtract_mappings source subtract : option (gmap K V) :=
  if decide (dom source ⊆ dom subtract) then Some (subtract_mappings source subtract) else None.

Lemma lookup_subtract source subtract k v :
  subtract_mappings source subtract !! k = Some v ↔ source !! k = Some v ∧ subtract !! k ≠ Some v.
Proof. apply map_lookup_filter_Some. Qed.
End mappings.

(** ** [StateMaps] *)

Record StateMaps := {
  nonces : gmap N N;
  class_hashes : gmap N N;
  storage : gmap (N * N) N;
  compiled_class_hashes : gmap N N;
  declared_contracts : gmap N bool;
}.

#[global] Instance StateMaps_eq_dec : EqDecision StateMaps.
Proof. solve_decision. Defined.

Definition StateMaps_default : StateMaps :=
  {| nonces := ∅; class_hashes := ∅; storage := ∅; compiled_class_hashes := ∅; declared_contracts := ∅ |}.

Definition set_nonces f m :=
  {| nonces := f m.(nonces); class_hashes := m.(class_hashes); storage := m.(storage);
     compiled_class_hashes := m.(compiled_class_hashes); declared_contracts := m.(declared_contracts) |}.
Definition set_class_hashes f m :=
  {| nonces := m.(nonces); class_hashes := f m.(class_hashes); storage := m.(storage);
     compiled_class_hashes := m.(compiled_class_hashes); declared_contracts := m.(declared_contracts) |}.
Definition set_storage f m :=
  {| nonces := m.(nonces); class_hashes := m.(class_hashes); storage := f m.(storage);
     compiled_class_hashes := m.(compiled_class_hashes); declared_contracts := m.(declared_contracts) |}.
Definition set_compiled_class_hashes f m :=
  {| nonces := m.(nonces); class_hashes := m.(class_hashes); storage := m.(storage);
     compiled_class_hashes := f m.(compiled_class_hashes); declared_contracts := m.(declared_contracts) |}.
Definition set_declared_contracts f m :=
  {| nonces := m.(nonces); class_hashes := m.(class_hashes); storage := m.(storage);
     compiled_class_hashes := m.(compiled_class_hashes); declared_contracts := f m.(declared_contracts) |}.

Definition StateMaps_extend (self other : StateMaps) : StateMaps := {|
  nonces := other.(nonces) ∪ self.(nonces);
  class_hashes := other.(class_hashes) ∪ self.(class_hashes);
  storage := other.(storage) ∪ self.(storage);
  compiled_class_hashes := other.(compiled_class_hashes) ∪ self.(compiled_class_hashes);
  declared_contracts := other.(declared_contracts) ∪ self.(declared_contracts);
|}.

Definition StateMaps_diff (self other : StateMaps) : option StateMaps :=
  n ← strict_subtract_mappings self.(nonces) other.(nonces);
  c ← strict_subtract_mappings self.(class_hashes) other.(class_hashes);
  s ← strict_subtract_mappings self.(storage) other.(storage);
  cc ← strict_subtract_mappings self.(compiled_class_hashes) other.(compiled_class_hashes);
  Some {| nonces := n; class_hashes := c; storage := s; compiled_class_hashes := cc;
          declared_contracts := subtract_mappings self.(declared_contracts) other.(declared_contracts) |}.

Definition get_contract_addresses (self : StateMaps) : gset N :=
  set_map fst (dom self.(storage)) ∪ dom self.(nonces) ∪ dom self.(class_hashes).

(** ** Keys and counts of changes *)

Record StateChangesKeys := {
  nonce_keys : gset N;
  class_hash_keys : gset N;
  storage_keys : gset (N * N);
  compiled_class_hash_keys : gset N;
  modified_contracts : gset N;
}.

Definition into_keys (self : StateMaps) : StateChangesKeys := {|
  modified_contracts := get_contract_addresses self;
  nonce_keys := dom self.(nonces);
  class_hash_keys := dom self.(class_hashes);
  storage_keys := dom self.(storage);
  compiled_class_hash_keys := dom self.(compiled_class_hashes);
|}.

Definition keys_difference (self other : StateChangesKeys) : StateChangesKeys := {|
  nonce_keys := self.(nonce_keys) ∖ other.(nonce_keys);
  class_hash_keys := self.(class_hash_keys) ∖ other.(class_hash_keys);
  storage_keys := self.(storage_keys) ∖ other.(storage_keys);
  compiled_class_hash_keys := self.(compiled_class_hash_keys) ∖ other.(compiled_class_hash_keys);
  modified_contracts := self.(modified_contracts) ∖ other.(modified_contracts);
|}.

Definition keys_extend (self other : StateChangesKeys) : StateChangesKeys := {|
  nonce_keys := self.(nonce_keys) ∪ other.(nonce_keys);
  class_hash_keys := self.(class_hash_keys) ∪ other.(class_hash_keys);
  storage_keys := self.(storage_keys) ∪ other.(storage_keys);
  compiled_class_hash_keys := self.(compiled_class_hash_keys) ∪ other.(compiled_class_hash_keys);
  modified_contracts := self.(modified_contracts) ∪ other.(modified_contracts);
|}.

Record StateChangesCount := {
  n_storage_updates : nat;
  n_class_hash_updates : nat;
  n_compiled_class_hash_updates : nat;
  n_modified_contracts : nat;
}.

Definition keys_count (self : StateChangesKeys) : StateChangesCount := {|
  n_storage_updates := size self.(storage_keys);
  n_class_hash_updates := size self.(class_hash_keys);
  n_compiled_class_hash_updates := size self.(compiled_class_hash_keys);
  n_modified_contracts := size self.(modified_contracts);
|}.

(** [AllocatedKeys]: the entries that turn from zero to nonzero. *)
Definition from_storage_diff (updated_storage base_storage : gmap (N * N) N) : gset (N * N) :=
  dom (filter (λ kv, kv.2 ≠ 0 ∧ default 0 (base_storage !! kv.1) = 0) updated_storage).

Record StateChanges := { state_maps : StateMaps; allocated_keys : gset (N * N) }.

Record StateChangesCountForFee := { state_changes_count : StateChangesCount; n_allocated_keys : nat }.

Definition count_for_fee_charge `{FeeTokenVar} (self : StateChanges) (sender_address : option N)
    (fee_token_address : N) : StateChangesCountForFee :=
  let maps := self.(state_maps) in
  let sender_updates :=
    match sender_address with
    | None => 0%nat
    | Some sender_address =>
        let sender_balance_key := get_fee_token_var_address sender_address in
        if decide (is_Some (maps.(storage) !! (fee_token_address, sender_balance_key))) then 0%nat else 1%nat
    end in
  {| state_changes_count := {|
       n_storage_updates := size maps.(storage) + sender_updates;
       n_class_hash_updates := size maps.(class_hashes);
       n_compiled_class_hash_updates := size maps.(compiled_class_hashes);
       n_modified_contracts := size (get_contract_addresses maps ∖ {[fee_token_address]}) |};
     n_allocated_keys := size self.(allocated_keys) |}.

(** ** [StateCache] *)

Record StateCache := { initial_reads : StateMaps; writes : StateMaps }.

Definition StateCache_default : StateCache :=
  {| initial_reads := StateMaps_default; writes := StateMaps_default |}.

Definition set_initial_reads f c := {| initial_reads := f c.(initial_reads); writes := c.(writes) |}.
Definition set_writes f c := {| initial_reads := c.(initial_reads); writes := f c.(writes) |}.

Definition cache_to_state_diff (self : StateCache) : option StateChanges :=
  state_maps ← StateMaps_diff self.(writes) self.(initial_reads);
  Some {| state_maps := state_maps;
          allocated_keys := from_storage_diff self.(writes).(storage) self.(initial_reads).(storage) |}.

Definition squash_state_caches (state_caches : list StateCache) : StateCache := {|
  initial_reads := foldl (λ squashed c, StateMaps_extend squashed c.(initial_reads))
                     StateMaps_default (reverse state_caches);
  writes := foldl (λ squashed c, StateMaps_extend squashed c.(writes)) StateMaps_default state_caches;
|}.

Fixpoint merge_state_diffs (merged : StateChanges) (state_caches : list StateCache) : option StateChanges :=
  match state_caches with
  | [] => Some merged
  | state_cache :: state_caches =>
      state_change ← cache_to_state_diff state_cache;
      merge_state_diffs
        {| state_maps := StateMaps_extend merged.(state_maps) state_change.(state_maps);
           allocated_keys := merged.(allocated_keys) ∪ state_change.(allocated_keys) |} state_caches
  end.

Definition squash_state_diff (state_caches : list StateCache) (comprehensive_state_diff : bool)
    : option StateChanges :=
  if comprehensive_state_diff then cache_to_state_diff (squash_state_caches state_caches)
  else merge_state_diffs {| state_maps := StateMaps_default; allocated_keys := ∅ |} state_caches.

Definition declare_contract (class_hash : N) : StateCache → StateCache :=
  set_writes (set_declared_contracts (insert class_hash true)).
Definition set_declared_contract_initial_value (class_hash : N) (is_declared : bool) : StateCache → StateCache :=
  set_initial_reads (set_declared_contracts (insert class_hash is_declared)).

(** A cell that was written, or else one that was read. *)
Definition cached {K V} `{Countable K} (field : StateMaps → gmap K V) (self : StateCache) (key : K) : option V :=
  match field self.(writes) !! key with
  | Some v => Some v
  | None => field self.(initial_reads) !! key
  end.

Definition cache_get_storage_at (contract_address key : N) (self : StateCache) : option N :=
  cached storage self (contract_address, key).
Definition cache_get_nonce_at (contract_address : N) (self : StateCache) : option N :=
  cached nonces self contract_address.
Definition cache_get_class_hash_at (contract_address : N) (self : StateCache) : option N :=
  cached class_hashes self contract_address.
Definition cache_get_compiled_class_hash (class_hash : N) (self : StateCache) : option N :=
  cached compiled_class_hashes self class_hash.

Definition set_storage_initial_value (contract_address key value : N) : StateCache → StateCache :=
  set_initial_reads (set_storage (insert (contract_address, key) value)).
Definition set_storage_value (contract_address key value : N) : StateCache → StateCache :=
  set_writes (set_storage (insert (contract_address, key) value)).
Definition set_nonce_initial_value (contract_address nonce : N) : StateCache → StateCache :=
  set_initial_reads (set_nonces (insert contract_address nonce)).
Definition set_nonce_value (contract_address nonce : N) : StateCache → StateCache :=
  set_writes (set_nonces (insert contract_address nonce)).
Definition set_class_hash_initial_value (contract_address class_hash : N) : StateCache → StateCache :=
  set_initial_reads (set_class_hashes (insert contract_address class_hash)).
Definition set_class_hash_write (contract_address class_hash : N) : StateCache → StateCache :=
  set_writes (set_class_hashes (insert contract_address class_hash)).
Definition set_compiled_class_hash_initial_value (class_hash compiled_class_hash : N) : StateCache → StateCache :=
  set_initial_reads (set_compiled_class_hashes (insert class_hash compiled_class_hash)).
Definition set_compiled_class_hash_write (class_hash compiled_class_hash : N) : StateCache → StateCache :=
  set_writes (set_compiled_class_hashes (insert class_hash compiled_class_hash)).

(** ** [CachedState] *)

Section cached_state.
Context `{HashOrder} {RunnableCompiledClass : Type}.
Abbreviation Reads := (Reads RunnableCompiledClass).
Abbreviation Answer := (Answer RunnableCompiledClass).

Record CachedState := {
  cache : StateCache;
  class_hash_to_class : gmap N RunnableCompiledClass;
  visited_pcs : gmap N (gset N);
}.

Definition CachedState_new : CachedState :=
  {| cache := StateCache_default; class_hash_to_class := ∅; visited_pcs := ∅ |}.

Definition set_cache f s :=
  {| cache := f s.(cache); class_hash_to_class := s.(class_hash_to_class); visited_pcs := s.(visited_pcs) |}.
Definition set_class_hash_to_class f s :=
  {| cache := s.(cache); class_hash_to_class := f s.(class_hash_to_class); visited_pcs := s.(visited_pcs) |}.
Definition set_visited_pcs f s :=
  {| cache := s.(cache); class_hash_to_class := s.(class_hash_to_class); visited_pcs := f s.(visited_pcs) |}.

(** Methods of the cached state: they may query the state below, and what they changed before
    an error persists. *)
Definition CS (A : Type) : Type := CachedState → Reads (result StateError A * CachedState).

#[global] Instance CS_ret : MRet CS := λ A a self, Return (Ok a, self).
#[global] Instance CS_bind : MBind CS := λ A B f m self,
  m self ≫= λ rs, match rs with
                  | (Ok a, self) => f a self
                  | (Err e, self) => Return (Err e, self)
                  | (Panic, self) => Return (Panic, self)
                  end.

Definition with_self {A} (f : CachedState → CS A) : CS A := λ self, f self self.
Definition cs_modify (f : CachedState → CachedState) : CS unit := λ self, Return (Ok tt, f self).
Definition on_cache (f : StateCache → StateCache) : CS unit := cs_modify (set_cache f).
Definition cs_throw {A} (e : StateError) : CS A := λ self, Return (Err e, self).
Definition cs_panic {A} : CS A := λ self, Return (Panic, self).
Definition cs_expect {A} (o : option A) : CS A :=
  match o with Some a => mret a | None => cs_panic end.

(** [self.state.method(..)?]. *)
Definition query (q : Query) : CS (Answer q) := λ self,
  Ask q (λ r, match r with SOk a => Return (Ok a, self) | SErr e => Return (Err e, self) end).

(** A getter: the cell is queried when it is not cached. *)
Definition read_cell (get : StateCache → option N) (fetch : CS N) (set_initial : N → StateCache → StateCache)
    : CS N :=
  with_self (λ self,
    match get self.(cache) with
    | Some _ => mret tt
    | None => value ← fetch; on_cache (set_initial value)
    end);;
  with_self (λ self, cs_expect (get self.(cache))).

Definition get_storage_at (contract_address key : N) : CS N :=
  read_cell (cache_get_storage_at contract_address key) (query (GetStorageAt contract_address key))
    (set_storage_initial_value contract_address key).

Definition get_nonce_at (contract_address : N) : CS N :=
  read_cell (cache_get_nonce_at contract_address) (query (GetNonceAt contract_address))
    (set_nonce_initial_value contract_address).

Definition get_class_hash_at (contract_address : N) : CS N :=
  read_cell (cache_get_class_hash_at contract_address) (query (GetClassHashAt contract_address))
    (set_class_hash_initial_value contract_address).

Definition get_compiled_class_hash (class_hash : N) : CS N :=
  read_cell (cache_get_compiled_class_hash class_hash) (query (GetCompiledClassHash class_hash))
    (set_compiled_class_hash_initial_value class_hash).

Definition get_compiled_class (class_hash : N) : CS RunnableCompiledClass :=
  with_self (λ self,
    match self.(class_hash_to_class) !! class_hash with
    | Some _ => mret tt
    | None => λ self, Ask (GetCompiledClass class_hash) (λ r,
        match r with
        | SErr (UndeclaredClassHash class_hash) =>
            (on_cache (set_declared_contract_initial_value class_hash false);;
             on_cache (set_compiled_class_hash_initial_value class_hash 0);;
             cs_throw (UndeclaredClassHash class_hash)) self
        | SErr error => cs_throw error self
        | SOk contract_class =>
            (on_cache (set_declared_contract_initial_value class_hash true);;
             cs_modify (set_class_hash_to_class (insert class_hash contract_class))) self
        end)
    end);;
  with_self (λ self, cs_expect (self.(class_hash_to_class) !! class_hash)).

(** The methods of [StateReader]. *)
Definition cached_query (q : Query) : CS (Answer q) :=
  match q with
  | GetStorageAt contract_address key => get_storage_at contract_address key
  | GetNonceAt contract_address => get_nonce_at contract_address
  | GetClassHashAt contract_address => get_class_hash_at contract_address
  | GetCompiledClass class_hash => get_compiled_class class_hash
  | GetCompiledClassHash class_hash => get_compiled_class_hash class_hash
  end.

(** The methods of [State]. *)
Definition set_storage_at (contract_address key value : N) : CS unit :=
  on_cache (set_storage_value contract_address key value).

Definition increment_nonce (contract_address : N) : CS unit :=
  current_nonce ← get_nonce_at contract_address;
  let next_nonce := felt_add current_nonce 1 in
  on_cache (set_nonce_value contract_address next_nonce).

Definition set_class_hash_at (contract_address class_hash : N) : CS unit :=
  if decide (contract_address = 0) then cs_throw OutOfRangeContractAddress
  else on_cache (set_class_hash_write contract_address class_hash).

Definition set_contract_class (class_hash : N) (contract_class : RunnableCompiledClass) : CS unit :=
  cs_modify (set_class_hash_to_class (insert class_hash contract_class));;
  on_cache (declare_contract class_hash).

Definition set_compiled_class_hash (class_hash compiled_class_hash : N) : CS unit :=
  on_cache (set_compiled_class_hash_write class_hash compiled_class_hash).

Definition add_visited_pcs (class_hash : N) (pcs : gset N) : CS unit :=
  cs_modify (set_visited_pcs (λ visited, <[class_hash := default ∅ (visited !! class_hash) ∪ pcs]> visited)).

(** [for x in xs { f(x)?; }]. *)
Fixpoint cs_for {A} (f : A → CS unit) (xs : list A) : CS unit :=
  match xs with
  | [] => mret tt
  | x :: xs => f x;; cs_for f xs
  end.

Definition update_initial_values_of_write_only_access : CS unit :=
  with_self (λ self,
    cs_for (λ contract_storage_key : N * N,
      with_self (λ self,
        match self.(cache).(initial_reads).(storage) !! contract_storage_key with
        | Some _ => mret tt
        | None =>
            value ← query (GetStorageAt contract_storage_key.1 contract_storage_key.2);
            on_cache (set_initial_reads (set_storage (insert contract_storage_key value)))
        end)) (hash_keys self.(cache).(writes).(storage))).

Definition to_state_diff : CS StateChanges :=
  update_initial_values_of_write_only_access;;
  with_self (λ self, cs_expect (cache_to_state_diff self.(cache))).

Definition update_cache (write_updates : StateMaps) (local_contract_cache_updates : gmap N RunnableCompiledClass)
    : CS unit :=
  if decide (map_Forall (λ key value, value = bool_decide (is_Some (local_contract_cache_updates !! key)))
               write_updates.(declared_contracts))
  then on_cache (set_writes (λ writes, StateMaps_extend writes write_updates));;
       cs_modify (set_class_hash_to_class (λ classes, local_contract_cache_updates ∪ classes))
  else cs_panic.

Definition update_visited_pcs_cache (visited_pcs : gmap N (gset N)) : CS unit :=
  cs_for (λ entry, add_visited_pcs entry.1 entry.2) (hash_iter visited_pcs).

(** [UpdatableState::apply_writes]. *)
Definition apply_writes (writes : StateMaps) (class_hash_to_class : gmap N RunnableCompiledClass)
    (visited_pcs : gmap N (gset N)) : CS unit :=
  update_cache writes class_hash_to_class;;
  update_visited_pcs_cache visited_pcs.

(** ** Code that runs on a state *)

(** The methods of [State] and [TransactionalState] that code calls, with their arguments. *)
Inductive Op :=
| Read (q : Query)
| SetStorageAt (contract_address key value : N)
| IncrementNonce (contract_address : N)
| SetClassHashAt (contract_address class_hash : N)
| SetContractClass (class_hash : N) (contract_class : RunnableCompiledClass)
| SetCompiledClassHash (class_hash compiled_class_hash : N)
| AddVisitedPcs (class_hash : N) (pcs : gset N)
| ToStateDiff.

Definition OpAnswer (op : Op) : Type :=
  match op with Read q => Answer q | ToStateDiff => StateChanges | _ => unit end.

Definition run_op (op : Op) : CS (OpAnswer op) :=
  match op with
  | Read q => cached_query q
  | SetStorageAt contract_address key value => set_storage_at contract_address key value
  | IncrementNonce contract_address => increment_nonce contract_address
  | SetClassHashAt contract_address class_hash => set_class_hash_at contract_address class_hash
  | SetContractClass class_hash contract_class => set_contract_class class_hash contract_class
  | SetCompiledClassHash class_hash compiled_class_hash => set_compiled_class_hash class_hash compiled_class_hash
  | AddVisitedPcs class_hash pcs => add_visited_pcs class_hash pcs
  | ToStateDiff => to_state_diff
  end.

(** Code generic in the state: it calls methods, goes on with what they return, and may run
    code in a transactional state that is committed or aborted depending on its outcome. *)
Inductive Program : Type → Type :=
| Finish {A} (a : A) : Program A
| Do {A} (op : Op) (k : StateResult (OpAnswer op) → Program A) : Program A
| Transactional {A B} (child : Program B) (commits : B → bool) (k : B → Program A) : Program A.

(** Runs of code; [None] for a panic. *)
Definition Run (A : Type) : Type := CachedState → Reads (option A * CachedState).

Definition run_method {A B} (m : CS A) (k : StateResult A → Run B) : Run B := λ self,
  m self ≫= λ rs, match rs with
                  | (Ok a, self) => k (SOk a) self
                  | (Err e, self) => k (SErr e) self
                  | (Panic, self) => Return (None, self)
                  end.

(** The queries of [m] are answered by the cached state ([MutRefState]). *)
Fixpoint answer_queries {A} (m : Reads A) : Run A :=
  match m with
  | Return a => λ self, Return (Some a, self)
  | Ask q k => run_method (cached_query q) (λ r, answer_queries (k r))
  end.

(** [TransactionalState::commit] to the state below it. *)
Definition commit (child : CachedState) : CS unit :=
  apply_writes child.(cache).(writes) child.(class_hash_to_class) child.(visited_pcs).

Fixpoint run_program {A} (p : Program A) : Run A :=
  match p with
  | Finish a => λ self, Return (Some a, self)
  | Do op k => run_method (run_op op) (λ r, run_program (k r))
  | Transactional child commits k => λ self,
      answer_queries (run_program child CachedState_new) self ≫= λ rs,
      match rs with
      | (Some (Some b, child), self) =>
          if commits b then run_method (commit child) (λ _, run_program (k b)) self
          else run_program (k b) self
      | (_, self) => Return (None, self)
      end
  end.
End cached_state.
Arguments CachedState : clear implicits.
Arguments CS : clear implicits.
Arguments Op : clear implicits.
Arguments Program : clear implicits.
Arguments Run : clear implicits.
