(* ===== verification/CachedStateProofs.v ===== *)
(** What a run on a cached state depends on: the queries it makes to the state below are
    recorded in [initial_reads], so that a run is determined by them. *)
From Stdlib Require Eqdep_dec.
From S2P Require Import Prelude StarknetApi StateApi CachedState.

Section recorded.
Context `{HashOrder} {RunnableCompiledClass : Type} (class_of : N → RunnableCompiledClass) (declares : Prop).
Abbreviation Reads := (Reads RunnableCompiledClass).
Abbreviation Answer := (Answer RunnableCompiledClass).
Abbreviation View := (View RunnableCompiledClass).
Abbreviation CachedState := (CachedState RunnableCompiledClass).
Abbreviation trace := (list {q : Query & StateResult (Answer q)}).
Implicit Types (self child : CachedState) (tr : trace) (R : StateMaps) (σ : View).

(** ** Answers *)

(** What a state answers: cells always have a value, a class hash stands for one class. *)
Definition valid_answer (q : Query) : StateResult (Answer q) → Prop :=
  match q with
  | GetCompiledClass h => λ r, r = SOk (class_of h) ∨ r = SErr (UndeclaredClassHash h)
  | _ => λ r, ∃ v, r = SOk v
  end.

(** The answer is found in the read set. *)
Definition recorded R (q : Query) : StateResult (Answer q) → Prop :=
  match q with
  | GetStorageAt a k => λ r, ∃ v, r = SOk v ∧ R.(storage) !! (a, k) = Some v
  | GetNonceAt a => λ r, ∃ v, r = SOk v ∧ R.(nonces) !! a = Some v
  | GetClassHashAt a => λ r, ∃ v, r = SOk v ∧ R.(class_hashes) !! a = Some v
  | GetCompiledClassHash h => λ r, ∃ v, r = SOk v ∧ R.(compiled_class_hashes) !! h = Some v
  | GetCompiledClass h => λ r,
      (r = SOk (class_of h) ∧ R.(declared_contracts) !! h = Some true) ∨
      (r = SErr (UndeclaredClassHash h) ∧ R.(declared_contracts) !! h = Some false)
  end.

Definition all_recorded tr R : Prop := ∀ q r, existT q r ∈ tr → recorded R q r.

(** The state answers as the read set says. *)
Record agree σ R : Prop := {
  agree_storage a k v : R.(storage) !! (a, k) = Some v → σ (GetStorageAt a k) = SOk v;
  agree_nonce a v : R.(nonces) !! a = Some v → σ (GetNonceAt a) = SOk v;
  agree_class_hash a v : R.(class_hashes) !! a = Some v → σ (GetClassHashAt a) = SOk v;
  agree_compiled h v : R.(compiled_class_hashes) !! h = Some v → σ (GetCompiledClassHash h) = SOk v;
  agree_declared h : R.(declared_contracts) !! h = Some true → σ (GetCompiledClass h) = SOk (class_of h);
  agree_undeclared h :
    R.(declared_contracts) !! h = Some false → σ (GetCompiledClass h) = SErr (UndeclaredClassHash h);
}.

Lemma agree_ext σ σ' R : (∀ q, σ' q = σ q) → agree σ R → agree σ' R.
Proof. intros Heq []. split; intros *; rewrite Heq; auto. Qed.

Lemma agree_recorded σ R q r : agree σ R → recorded R q r → σ q = r.
Proof.
  intros [? ? ? ? ? ?] Hr. destruct q; cbn in Hr; [destruct Hr as (v&->&?)..| |destruct Hr as (v&->&?)]; auto.
  destruct Hr as [[-> ?]|[-> ?]]; auto.
Qed.

(** ** Traces in which the read set keeps every answer

    A class query that fails overwrites what was recorded for the class hash. Its answer and
    the compiled class hash are kept unless they were asked for before. *)
Definition fresh_class (tr : trace) (q : Query) : Prop :=
  match q with
  | GetCompiledClass h => ∀ q' r, existT q' r ∈ tr → q' ≠ GetCompiledClass h ∧ q' ≠ GetCompiledClassHash h
  | _ => True
  end.

Definition fresh_trace (tr : trace) : Prop :=
  ∀ tr1 e tr2, tr = tr1 ++ e :: tr2 → fresh_class tr1 (projT1 e).

Lemma fresh_trace_snoc tr e : fresh_trace (tr ++ [e]) → fresh_trace tr ∧ fresh_class tr (projT1 e).
Proof.
  intros Hf. split; [|by apply (Hf tr e [])].
  intros tr1 e' tr2 ->. apply (Hf tr1 e' (tr2 ++ [e])). by rewrite <-(assoc_L app).
Qed.

(** [m] ends with [Q] when it gets valid answers, after the trace [tr]. *)
Fixpoint reads_wp {A} (m : Reads A) (tr : trace) (Q : trace → A → Prop) : Prop :=
  match m with
  | Return a => Q tr a
  | Ask q k => ∀ r, valid_answer q r → reads_wp (k r) (tr ++ [existT q r]) Q
  end.

Lemma reads_wp_mono {A} (m : Reads A) tr (Q Q' : trace → A → Prop) :
  reads_wp m tr Q → (∀ tr' a, Q tr' a → Q' tr' a) → reads_wp m tr Q'.
Proof. revert tr. induction m as [a|q k IH]; intros tr Hm HQ; cbn in *; [auto|]. intros r Hr. by eapply IH; eauto. Qed.

Lemma reads_wp_bind {A B} (m : Reads A) (f : A → Reads B) tr Q :
  reads_wp m tr (λ tr' a, reads_wp (f a) tr' Q) → reads_wp (m ≫= f) tr Q.
Proof. revert tr. induction m as [a|q k IH]; intros tr Hm; cbn in *; [done|]. intros r Hr. apply IH. by apply Hm. Qed.

Definition valid_trace tr : Prop := ∀ q r, existT q r ∈ tr → valid_answer q r.

Lemma reads_wp_ends {A} (m : Reads A) tr tr' a Q :
  reads_wp m tr Q → ends_with m tr' a → valid_trace tr' → Q (tr ++ tr') a.
Proof.
  intros Hm Hend. revert tr Hm. induction Hend as [a|q k r tr' a _ IH]; intros tr Hm Hv; cbn in Hm.
  - by rewrite app_nil_r.
  - rewrite cons_middle, (assoc_L app). apply IH; [apply Hm, Hv; left|]. intros q' r' Hin. apply Hv. by right.
Qed.

(** The queries of [m] are fresh whatever the answers. *)
Definition class_once {A} (m : Reads A) : Prop :=
  ∀ tr a, ends_with m tr a → valid_trace tr → fresh_trace tr.

(** ** The invariant of a run *)

(** What is declared comes with its class; [declares] tells whether the code may declare
    classes at all. *)
Record writes_ok self : Prop := {
  wo_declared h b : self.(cache).(writes).(declared_contracts) !! h = Some b →
    b = true ∧ is_Some (self.(class_hash_to_class) !! h) ∧ declares;
  wo_class h c : self.(class_hash_to_class) !! h = Some c → c = class_of h;
  wo_compiled h v : self.(cache).(writes).(compiled_class_hashes) !! h = Some v → declares;
}.

Definition asked tr q : Prop := ∃ r, existT q r ∈ tr.
Definition class_found tr h : Prop := existT (GetCompiledClass h) (SOk (class_of h)) ∈ tr.

(** What is in the read set was asked for. *)
Record reads_asked tr R : Prop := {
  ra_storage a k v : R.(storage) !! (a, k) = Some v → asked tr (GetStorageAt a k);
  ra_nonce a v : R.(nonces) !! a = Some v → asked tr (GetNonceAt a);
  ra_class_hash a v : R.(class_hashes) !! a = Some v → asked tr (GetClassHashAt a);
  ra_compiled h v : R.(compiled_class_hashes) !! h = Some v →
    asked tr (GetCompiledClassHash h) ∨ (v = 0 ∧ existT (GetCompiledClass h) (SErr (UndeclaredClassHash h)) ∈ tr);
  ra_declared h b : R.(declared_contracts) !! h = Some b → asked tr (GetCompiledClass h);
}.

Record run_inv tr self : Prop := {
  ri_recorded : fresh_trace tr → all_recorded tr self.(cache).(initial_reads);
  ri_writes : writes_ok self;
  ri_asked : reads_asked tr self.(cache).(initial_reads);
  ri_classes h : is_Some (self.(class_hash_to_class) !! h) →
    class_found tr h ∨ is_Some (self.(cache).(writes).(declared_contracts) !! h);
}.

Lemma run_inv_new : run_inv [] CachedState_new.
Proof.
  split; cbn.
  - intros _ q r Hin. by apply elem_of_nil in Hin.
  - by split; cbn; intros ?? Hin; rewrite lookup_empty in Hin.
  - by split; cbn; intros *; rewrite lookup_empty.
  - intros h. rewrite lookup_empty. by intros [? [=]].
Qed.

Lemma asked_app tr e q : asked tr q → asked (tr ++ [e]) q.
Proof. intros [r Hr]. exists r. set_solver. Qed.

Lemma asked_last tr q r : asked (tr ++ [existT q r]) q.
Proof. exists r. set_solver. Qed.

Lemma recorded_mono R R' q r :
  R.(storage) ⊆ R'.(storage) → R.(nonces) ⊆ R'.(nonces) → R.(class_hashes) ⊆ R'.(class_hashes) →
  R.(compiled_class_hashes) ⊆ R'.(compiled_class_hashes) → R.(declared_contracts) ⊆ R'.(declared_contracts) →
  recorded R q r → recorded R' q r.
Proof.
  intros ????? Hr. destruct q; cbn in *; [destruct Hr as (v&->&?)..| |destruct Hr as (v&->&?)];
    [eauto using lookup_weaken..| |eauto using lookup_weaken].
  destruct Hr as [[-> ?]|[-> ?]]; eauto 10 using lookup_weaken.
Qed.

Lemma all_recorded_snoc tr q r R : all_recorded tr R → recorded R q r → all_recorded (tr ++ [existT q r]) R.
Proof. exact (trace_snoc (recorded R) tr q r). Qed.

(** ** Methods *)

Abbreviation CS := (CS RunnableCompiledClass).

Definition cs_wp {A} (m : CS A) tr self (Q : trace → result StateError A → CachedState → Prop) : Prop :=
  reads_wp (m self) tr (λ tr' rs, Q tr' rs.1 rs.2).

Lemma cs_wp_bind {A B} (m : CS A) (f : A → CS B) tr self Q :
  cs_wp m tr self (λ tr' r self', match r with
    | Ok a => cs_wp (f a) tr' self' Q | Err e => Q tr' (Err e) self' | Panic => Q tr' Panic self' end) →
  cs_wp (m ≫= f) tr self Q.
Proof.
  intros Hm. apply reads_wp_bind. eapply reads_wp_mono; [exact Hm|]. intros tr' [[a|e|] self'] HQ; exact HQ.
Qed.

(** Classes are only added. *)
Definition grows self self' : Prop := ∀ h, is_Some (self.(class_hash_to_class) !! h) → is_Some (self'.(class_hash_to_class) !! h).

Lemma grows_same self self' : self'.(class_hash_to_class) = self.(class_hash_to_class) → grows self self'.
Proof. by intros Heq h; rewrite Heq. Qed.

#[local] Hint Resolve grows_same : core.

(** [m] keeps the invariant, and its result and final state satisfy [Q]. *)
Definition keeps {A} (m : CS A) (Q : result StateError A → CachedState → Prop) : Prop :=
  ∀ tr self, run_inv tr self → cs_wp m tr self (λ tr' r self', run_inv tr' self' ∧ grows self self' ∧ Q r self').

Abbreviation any_result := (λ _ _, True) (only parsing).

Lemma keeps_ret {A} (a : A) : keeps (mret a) any_result.
Proof. intros tr self Hinv. split; [done|]. by split; [apply grows_same|]. Qed.

Lemma keeps_bind {A B} (m : CS A) (f : A → CS B) P :
  keeps m P → (∀ a, keeps (f a) any_result) → keeps (m ≫= f) any_result.
Proof.
  intros Hm Hf tr self Hinv. apply cs_wp_bind. eapply reads_wp_mono; [by apply Hm|].
  intros tr' [[a|e|] self'] (Hinv'&Hg&_); cbn in *; [|done..].
  eapply reads_wp_mono; [by apply Hf|]. intros tr2 rs2 (?&?&_). split; [done|]. split; [|done]. intros h Hh. eauto.
Qed.

Lemma keeps_mono {A} (m : CS A) (Q Q' : result StateError A → CachedState → Prop) :
  keeps m Q → (∀ r self, Q r self → Q' r self) → keeps m Q'.
Proof. intros Hm HQ tr self Hinv. eapply reads_wp_mono; [by apply Hm|]. intros tr' rs (?&?&?). auto. Qed.

(** Writes other than declarations. *)
Lemma keeps_write f :
  (∀ c, (f c).(initial_reads) = c.(initial_reads) ∧
        (f c).(writes).(declared_contracts) = c.(writes).(declared_contracts) ∧
        ((f c).(writes).(compiled_class_hashes) = c.(writes).(compiled_class_hashes) ∨ declares)) →
  keeps (on_cache f) any_result.
Proof.
  intros Hf tr [c cl v] [Hr [H1 H2 H3] Ha Hc]. destruct (Hf c) as (Hi&Hd&Hcc). cbn in *.
  split; [|by auto]. split; cbn; rewrite ?Hi, ?Hd; try done.
  split; cbn; rewrite ?Hd; try done. destruct Hcc as [->|]; eauto.
Qed.

(** A successful query to a cell is recorded by an insertion at a key that was not there. *)
Lemma run_inv_cell tr self q r R' :
  run_inv tr self →
  let R := self.(cache).(initial_reads) in
  R.(storage) ⊆ R'.(storage) → R.(nonces) ⊆ R'.(nonces) → R.(class_hashes) ⊆ R'.(class_hashes) →
  R.(compiled_class_hashes) ⊆ R'.(compiled_class_hashes) → R'.(declared_contracts) = R.(declared_contracts) →
  recorded R' q r → reads_asked (tr ++ [existT q r]) R' →
  run_inv (tr ++ [existT q r]) (set_cache (set_initial_reads (λ _, R')) self).
Proof.
  intros [Hr [H1 H2 H3] Ha Hcl] R Hs Hn Hc Hcc Hd Hq Ha'. split; cbn.
  - intros [Hfr _]%fresh_trace_snoc. apply all_recorded_snoc; [|done]. intros q' r' Hin.
    apply (recorded_mono R); [done..|cbn; by rewrite Hd|by apply Hr].
  - by split.
  - done.
  - intros h [Hh|Hh]%Hcl; [left|by right]. unfold class_found. set_solver.
Qed.

Lemma cached_None {K V} `{Countable K} (field : StateMaps → gmap K V) c k :
  cached field c k = None → field c.(initial_reads) !! k = None.
Proof. unfold cached. by destruct (field (writes c) !! k). Qed.

Definition is_ok {A} (r : result StateError A) : Prop := ∃ a, r = Ok a.

(** The getters of cells: they succeed. *)
Lemma read_cell_keeps {K} `{Countable K} (field : StateMaps → gmap K N) (key : K) fetch set_initial event :
  (∀ tr self Q, (∀ v, Q (tr ++ [event v]) (Ok v) self) → cs_wp fetch tr self Q) →
  (∀ tr self v, run_inv tr self → field self.(cache).(initial_reads) !! key = None →
     run_inv (tr ++ [event v]) (set_cache (set_initial v) self)) →
  (∀ v c, field (set_initial v c).(initial_reads) !! key = Some v) →
  keeps (read_cell (λ c, cached field c key) fetch set_initial) (λ r _, is_ok r).
Proof.
  intros Hfetch Hinitial Hset tr self Hinv. apply cs_wp_bind. unfold with_self. unfold cs_wp at 1.
  destruct (cached field (cache self) key) as [v|] eqn:Hget.
  - cbn. unfold cs_wp. rewrite Hget. cbn. split; [done|]. split; [by apply grows_same|]. by eexists.
  - apply reads_wp_bind. eapply reads_wp_mono.
    { apply (Hfetch tr self (λ tr' r self', ∃ v, tr' = tr ++ [event v] ∧ r = Ok v ∧ self' = self)). eauto. }
    intros tr' [r self'] (v&->&Hr&Hself). cbn in Hr, Hself. subst r self'. cbn. unfold cs_wp.
    assert (is_Some (cached field (set_initial v (cache self)) key)) as [w ->].
    { unfold cached. rewrite Hset. destruct (_ !! _); eauto. }
    cbn. split; [by apply Hinitial, cached_None|]. split; [by apply grows_same|]. by eexists.
Qed.

(** The new entry was asked for last, the others before. *)
Lemma reads_asked_cell tr e R R' :
  reads_asked tr R →
  (∀ a k v, R'.(storage) !! (a, k) = Some v → R.(storage) !! (a, k) = Some v ∨ projT1 e = GetStorageAt a k) →
  (∀ a v, R'.(nonces) !! a = Some v → R.(nonces) !! a = Some v ∨ projT1 e = GetNonceAt a) →
  (∀ a v, R'.(class_hashes) !! a = Some v → R.(class_hashes) !! a = Some v ∨ projT1 e = GetClassHashAt a) →
  (∀ h v, R'.(compiled_class_hashes) !! h = Some v → R.(compiled_class_hashes) !! h = Some v ∨
     projT1 e = GetCompiledClassHash h ∨ v = 0 ∧ e = existT (GetCompiledClass h) (SErr (UndeclaredClassHash h))) →
  (∀ h v, R'.(declared_contracts) !! h = Some v → R.(declared_contracts) !! h = Some v ∨ projT1 e = GetCompiledClass h) →
  reads_asked (tr ++ [e]) R'.
Proof.
  intros [H1 H2 H3 H4 H5] Hs Hn Hc Hcc Hd. destruct e as [q r]. cbn in *. split.
  - intros a k v [Hv%H1| ->]%Hs; [by apply asked_app|apply asked_last].
  - intros a v [Hv%H2| ->]%Hn; [by apply asked_app|apply asked_last].
  - intros a v [Hv%H3| ->]%Hc; [by apply asked_app|apply asked_last].
  - intros h v [[Hv|[-> Hv]]%H4|[-> |[-> ->]]]%Hcc; [left; by apply asked_app|right; set_solver|left; apply asked_last|right; set_solver].
  - intros h v [Hv%H5| ->]%Hd; [by apply asked_app|apply asked_last].
Qed.

Lemma insert_or {K V} `{Countable K} (m : gmap K V) k v k' v' :
  <[k := v]> m !! k' = Some v' → m !! k' = Some v' ∨ k = k'.
Proof. rewrite lookup_insert_Some. naive_solver. Qed.

Ltac solve_asked Hinv :=
  apply (reads_asked_cell _ _ _ _ (ri_asked _ _ Hinv)); cbn; intros *;
  try (intros [?|?]%insert_or; [by left|]); try (by left); simplify_eq; by auto.

Ltac solve_read_cell event :=
  apply (read_cell_keeps _ _ _ _ event);
  [by intros ??? HQ ? [? ->]; apply HQ
  |let Hinv := fresh in intros ??? Hinv ?; refine (run_inv_cell _ _ _ _ _ _ _ _ _ _ _ _ _);
   [done|cbn; first [done|by apply insert_subseteq]..|cbn; eexists; by rewrite lookup_insert_eq|solve_asked Hinv]
  |intros ??; cbn; by rewrite lookup_insert_eq].

Lemma get_storage_at_keeps a k : keeps (get_storage_at a k) (λ r _, is_ok r).
Proof. solve_read_cell (λ v, existT (GetStorageAt a k) (SOk v) : {q : Query & StateResult (Answer q)}). Qed.

Lemma get_nonce_at_keeps a : keeps (get_nonce_at a) (λ r _, is_ok r).
Proof. solve_read_cell (λ v, existT (GetNonceAt a) (SOk v) : {q : Query & StateResult (Answer q)}). Qed.

Lemma get_class_hash_at_keeps a : keeps (get_class_hash_at a) (λ r _, is_ok r).
Proof. solve_read_cell (λ v, existT (GetClassHashAt a) (SOk v) : {q : Query & StateResult (Answer q)}). Qed.

Lemma get_compiled_class_hash_keeps h : keeps (get_compiled_class_hash h) (λ r _, is_ok r).
Proof. solve_read_cell (λ v, existT (GetCompiledClassHash h) (SOk v) : {q : Query & StateResult (Answer q)}). Qed.

(** The answer to a class query replaces nothing else that was recorded. *)
Lemma run_inv_class tr self h (b : bool) r R' cl :
  run_inv tr self →
  let R := self.(cache).(initial_reads) in
  let cache' := {| initial_reads := R'; writes := self.(cache).(writes) |} in
  R'.(storage) = R.(storage) → R'.(nonces) = R.(nonces) → R'.(class_hashes) = R.(class_hashes) →
  R'.(compiled_class_hashes) = (if b then R.(compiled_class_hashes) else <[h := 0]> R.(compiled_class_hashes)) →
  R'.(declared_contracts) = <[h := b]> R.(declared_contracts) →
  r = (if b then SOk (class_of h) else SErr (UndeclaredClassHash h)) →
  cl = (if b then <[h := class_of h]> self.(class_hash_to_class) else self.(class_hash_to_class)) →
  run_inv (tr ++ [existT (GetCompiledClass h) r])
    {| cache := cache'; class_hash_to_class := cl; visited_pcs := self.(visited_pcs) |}.
Proof.
  intros [Hr [H1 H2 H3] Ha Hcl] R cache' Hs Hn Hc Hcc Hd -> ->. split; cbn.
  - intros [Hfr Hfresh]%fresh_trace_snoc. apply all_recorded_snoc.
    2:{ cbn. rewrite Hd, lookup_insert_eq. destruct b; auto. }
    intros q r Hin. specialize (Hr Hfr q r Hin). destruct (Hfresh q r Hin) as [Hq1 Hq2]. cbn.
    destruct q; cbn in *; rewrite ?Hs, ?Hn, ?Hc; try done.
    + by rewrite Hd, lookup_insert_ne by congruence.
    + rewrite Hcc. destruct b; [done|]. by rewrite lookup_insert_ne by congruence.
  - split; cbn.
    + intros h' b' Hb. destruct (H1 h' b' Hb) as (->&Hsome&?). split_and!; [done| |done].
      destruct b; [|done]. apply lookup_insert_is_Some'. auto.
    + intros h' c. destruct b; [|by apply H2]. rewrite lookup_insert_Some.
      intros [[<- <-]|[_ Hc']]; [done|by apply H2].
    + apply H3.
  - apply (reads_asked_cell _ _ R); [done|rewrite ?Hs, ?Hn, ?Hc; auto..| |].
    + intros h' v. rewrite Hcc. destruct b; [by left|]. rewrite lookup_insert_Some. intros [[-> <-]|[_ Hv]]; auto.
    + intros h' v. rewrite Hd. intros [Hv| ->]%insert_or; auto.
  - intros h' Hh. assert (is_Some (class_hash_to_class self !! h') ∨ (b = true ∧ h = h')) as [Hh'|[-> ->]].
    { destruct b; [|by left]. apply lookup_insert_is_Some' in Hh as [->|Hh]; auto. }
    + destruct (Hcl h' Hh') as [Hf|Hf]; [left|by right]. unfold class_found. set_solver.
    + left. unfold class_found. set_solver.
Qed.

Definition class_result h (r : result StateError RunnableCompiledClass) self : Prop :=
  (r = Ok (class_of h) ∧ is_Some (self.(class_hash_to_class) !! h)) ∨ r = Err (UndeclaredClassHash h).

Lemma get_compiled_class_keeps h : keeps (get_compiled_class h) (class_result h).
Proof.
  intros tr self Hinv. apply cs_wp_bind. unfold with_self. unfold cs_wp at 1.
  destruct (class_hash_to_class self !! h) as [c|] eqn:Hget.
  - cbn. unfold cs_wp. rewrite Hget. cbn. split; [done|]. split; [by apply grows_same|]. left. rewrite Hget.
    split; [|by eexists]. f_equal. by eapply (wo_class _ (ri_writes _ _ Hinv)).
  - cbn. intros r [->| ->]; cbn.
    + unfold cs_wp, mbind, CS_bind, mbind, Reads_bind. cbn. rewrite lookup_insert_eq. cbn. split_and!.
      * by refine (run_inv_class tr self h true _ _ _ Hinv _ _ _ _ _ _ _).
      * intros h' Hh. cbn. apply lookup_insert_is_Some'. auto.
      * left. cbn. rewrite lookup_insert_eq. eauto.
    + split_and!; [|by apply grows_same|by right].
      by refine (run_inv_class tr self h false _ _ _ Hinv _ _ _ _ _ _ _).
Qed.

Definition valid_result (q : Query) (r : result StateError (Answer q)) : Prop :=
  match r with Ok a => valid_answer q (SOk a) | Err e => valid_answer q (SErr e) | Panic => False end.

(** A class that is found is then in the cache. *)
Definition class_cached (q : Query) (r : result StateError (Answer q)) self : Prop :=
  ∀ h, q = GetCompiledClass h → is_ok r → is_Some (self.(class_hash_to_class) !! h).

Lemma cached_query_keeps q : keeps (cached_query q) (λ r self, valid_result q r ∧ class_cached q r self).
Proof.
  destruct q; cbn [cached_query];
    [eapply keeps_mono; [apply get_storage_at_keeps|]|eapply keeps_mono; [apply get_nonce_at_keeps|]
    |eapply keeps_mono; [apply get_class_hash_at_keeps|]|eapply keeps_mono; [apply get_compiled_class_keeps|]
    |eapply keeps_mono; [apply get_compiled_class_hash_keeps|]];
    [by intros r self [a ->]; split; [eexists|intros h]..| |by intros r self [a ->]; split; [eexists|intros h]].
  intros r self [[-> Hc]| ->]; (split; [cbn; auto|]); intros h [= <-] [a Ha]; done.
Qed.

Lemma cs_for_keeps {A} (f : A → CS unit) xs :
  (∀ x, keeps (f x) any_result) → keeps (cs_for f xs) any_result.
Proof.
  intros Hf. induction xs as [|x xs IH]; [by apply keeps_ret|].
  by eapply keeps_bind; [apply Hf|].
Qed.

Lemma update_initial_values_keeps : keeps update_initial_values_of_write_only_access any_result.
Proof.
  intros tr self Hinv. apply cs_for_keeps; [|done]. clear. intros [a k] tr self Hinv. unfold with_self. cbn.
  destruct (storage (initial_reads (cache self)) !! (a, k)) eqn:Hget; [by split; [|split; [apply grows_same|]]|].
  intros r [v ->]. split; [|by split; [apply grows_same|]].
  refine (run_inv_cell tr self (GetStorageAt a k) (SOk v) _ Hinv _ _ _ _ _ _ _); cbn; try done;
    [by apply insert_subseteq|exists v; by rewrite lookup_insert_eq|]. solve_asked Hinv.
Qed.

Lemma to_state_diff_keeps : keeps to_state_diff any_result.
Proof.
  eapply keeps_bind; [apply update_initial_values_keeps|]. intros _ tr self Hinv. unfold cs_wp, with_self.
  destruct (cache_to_state_diff (cache self)); (split; [done|]); by split; [apply grows_same|].
Qed.

Lemma add_visited_pcs_keeps h pcs : keeps (add_visited_pcs h pcs) any_result.
Proof. intros tr self [Hr [H1 H2 H3] Ha Hc]. split; [|by split; [apply grows_same|]]. split; [done|by split|done..]. Qed.

(** The classes of a child state were found below it, or are declared by it. *)
Definition classes_below child self : Prop :=
  ∀ h, is_Some (child.(class_hash_to_class) !! h) →
    is_Some (self.(class_hash_to_class) !! h) ∨ is_Some (child.(cache).(writes).(declared_contracts) !! h).

Lemma update_cache_inv child tr self :
  writes_ok child → classes_below child self → run_inv tr self →
  cs_wp (update_cache child.(cache).(writes) child.(class_hash_to_class)) tr self
    (λ tr' _ self', run_inv tr' self').
Proof.
  intros [Hd Hc Hcc] Hbelow Hinv. pose proof Hinv as [Hr [H1 H2 H3] Ha Hcl]. unfold update_cache. destruct (decide _); [|done].
  split; cbn; [done| |done|].
  - split; cbn.
    + intros h b. rewrite lookup_union_Some_raw. intros [Hb|[_ Hb]].
      * destruct (Hd h b Hb) as (->&[c Hc']&?). split_and!; [done| |done]. exists c. by apply lookup_union_Some_l.
      * destruct (H1 h b Hb) as (->&Hsome&?). split_and!; [done| |done]. by apply lookup_union_is_Some; right.
    + intros h c. rewrite lookup_union_Some_raw. intros [Hc'|[_ Hc']]; [by apply Hc|by apply H2].
    + intros h v. rewrite lookup_union_Some_raw. intros [Hv|[_ Hv]]; eauto.
  - intros h. rewrite !lookup_union_is_Some. intros [Hh|Hh]; [destruct (Hbelow h Hh) as [Hs|Hs]; [|by auto]|];
      destruct (Hcl h) as [?|?]; auto.
Qed.

Lemma commit_inv child tr self :
  writes_ok child → classes_below child self → run_inv tr self →
  cs_wp (commit child) tr self (λ tr' _ self', run_inv tr' self').
Proof.
  intros Hchild Hbelow Hinv. apply cs_wp_bind. eapply reads_wp_mono; [by apply update_cache_inv|].
  intros tr' [[a|e|] self'] Hinv'; try done. cbn.
  assert (keeps (update_visited_pcs_cache (visited_pcs child)) any_result) as Hk.
  { apply cs_for_keeps. intros x. apply add_visited_pcs_keeps. }
  eapply reads_wp_mono; [by apply Hk|]. by intros tr2 rs (?&_).
Qed.

(** A class is declared under its own hash, and so is its compiled class hash. *)
Definition op_ok (op : Op RunnableCompiledClass) : Prop :=
  match op with
  | SetContractClass h c => c = class_of h ∧ declares
  | SetCompiledClassHash _ _ => declares
  | _ => True
  end.

Fixpoint declares_well {A} (p : Program RunnableCompiledClass A) : Prop :=
  match p with
  | Finish _ => True
  | Do op k => op_ok op ∧ ∀ r, declares_well (k r)
  | Transactional child _ k => declares_well child ∧ ∀ b, declares_well (k b)
  end.

Lemma run_op_keeps op : op_ok op → keeps (run_op op) any_result.
Proof.
  destruct op; cbn [run_op op_ok]; intros Hop.
  - eapply keeps_mono; [apply cached_query_keeps|done].
  - apply keeps_write. by auto.
  - eapply keeps_bind; [apply get_nonce_at_keeps|]. intros nonce. apply keeps_write. by auto.
  - unfold set_class_hash_at. destruct (decide _); [|apply keeps_write; by auto].
    intros tr self Hinv. split; [done|]. by split; [apply grows_same|].
  - intros tr self [Hr [H1 H2 H3] Ha Hcl]. split_and!; [|intros h Hh; cbn; apply lookup_insert_is_Some'; by auto|done].
    split; cbn; [done| |done|].
    + split; cbn.
      * intros h b. rewrite !lookup_insert_Some, lookup_insert_is_Some. intros [[<- <-]|[Hne Hb]]; [naive_solver|].
        destruct (H1 h b Hb) as (->&Hsome&?). auto.
      * intros h c. rewrite lookup_insert_Some. intros [[<- <-]|[_ Hc]]; [by destruct Hop|by apply H2].
      * apply H3.
    + intros h. rewrite !lookup_insert_is_Some'. intros [->|Hh]; [by auto|]. destruct (Hcl h Hh); auto.
  - apply keeps_write. by auto.
  - apply add_visited_pcs_keeps.
  - apply to_state_diff_keeps.
Qed.

(** ** Programs *)

Lemma run_method_inv {A B} (m : CS A) (k : StateResult A → Run RunnableCompiledClass B) tr self P Q :
  cs_wp m tr self P →
  (∀ tr' self' r, P tr' (from_state_result r) self' → reads_wp (k r self') tr' Q) →
  (∀ tr' self', P tr' Panic self' → Q tr' (None, self')) →
  reads_wp (run_method m k self) tr Q.
Proof.
  intros Hm Hk Hp. apply reads_wp_bind. eapply reads_wp_mono; [by apply Hm|].
  intros tr' [[a|e|] self'] HP; cbn in *; [by apply (Hk _ _ (SOk a))|by apply (Hk _ _ (SErr e))|by apply Hp].
Qed.

(** The classes found in a trace are cached. *)
Definition found_cached tr self : Prop := ∀ h c, existT (GetCompiledClass h) (SOk c) ∈ tr → is_Some (self.(class_hash_to_class) !! h).

(** Queries that a cached state answers: it keeps its invariant, the answers are valid, and the
    classes found are in its cache. *)
Lemma answer_queries_inv {A} (m : Reads A) tr0 (P : trace → A → Prop) tr self :
  reads_wp m tr0 P → run_inv tr self → found_cached tr0 self →
  reads_wp (answer_queries m self) tr (λ tr' os, run_inv tr' os.2 ∧
    ∀ a, os.1 = Some a → ∃ tr1, P tr1 a ∧ found_cached tr1 os.2).
Proof.
  revert tr0 tr self. induction m as [a|q k IH]; intros tr0 tr self Hm Hinv Hf; cbn [answer_queries].
  - split; [done|]. intros a' [= <-]. by exists tr0.
  - eapply run_method_inv; [by apply cached_query_keeps| |].
    + intros tr' self' r (Hinv'&Hg&Hr&Hc). eapply IH; [|done|]; [apply Hm; by destruct r|].
      intros h c [Hin|Hin]%elem_of_app; [by eapply Hg, Hf|]. apply list_elem_of_singleton in Hin.
      pose proof (f_equal projT1 Hin) as Hq. cbn in Hq. subst q. apply (Hc h eq_refl).
      apply (Eqdep_dec.inj_pair2_eq_dec _ Query_eq_dec) in Hin. subst r. by eexists.
    + intros tr' self' (Hinv'&_). split; [done|]. by intros a [=].
Qed.

Lemma run_program_inv {A} (p : Program RunnableCompiledClass A) tr self :
  declares_well p → run_inv tr self → reads_wp (run_program p self) tr (λ tr' os, run_inv tr' os.2).
Proof.
  revert tr self. induction p as [A a|A op k IH|A B child IHc commits k IHk]; intros tr self; cbn [run_program declares_well].
  - done.
  - intros [Hop Hk] Hinv. eapply run_method_inv; [by apply run_op_keeps| |by intros tr' self' (?&_)].
    intros tr' self' r (Hinv'&_). by apply IH.
  - intros [Hchild Hk] Hinv. apply reads_wp_bind. eapply reads_wp_mono.
    { apply (answer_queries_inv _ [] _ tr self (IHc [] CachedState_new Hchild run_inv_new) Hinv).
      intros h c Hin. by apply elem_of_nil in Hin. }
    intros tr' [[[[b|] child']|] self'] [Hinv' Hb]; cbn in *; try done.
    destruct (Hb _ eq_refl) as (tr1&[_ Hw _ Hcl]&Hf). destruct (commits b); [|by apply IHk].
    eapply run_method_inv; [apply commit_inv; [done| |done]|intros tr2 self2 r Hinv2; by apply IHk|done].
    intros h Hh. destruct (Hcl h Hh) as [?|?]; [left; by eapply Hf|by right].
Qed.

(** ** A run is determined by the read set it leaves *)

Lemma program_run_inv {A} (p : Program RunnableCompiledClass A) tr o self :
  declares_well p → ends_with (run_program p CachedState_new) tr (o, self) → valid_trace tr → run_inv tr self.
Proof.
  intros Hp Hend Hv. pose proof (run_program_inv p [] CachedState_new Hp run_inv_new) as Hinv.
  apply (reads_wp_ends _ _ _ _ _ Hinv Hend Hv).
Qed.

Theorem run_determined {A} (p : Program RunnableCompiledClass A) tr o self σ :
  declares_well p → class_once (run_program p CachedState_new) →
  ends_with (run_program p CachedState_new) tr (o, self) → valid_trace tr →
  agree σ self.(cache).(initial_reads) →
  run_reads (run_program p CachedState_new) σ = (o, self).
Proof.
  intros Hp Honce Hend Hv Hσ. apply (ends_with_run _ tr); [done|]. intros q r Hin.
  pose proof (program_run_inv p tr o self Hp Hend Hv) as Hinv.
  apply (agree_recorded σ _ q r Hσ), (ri_recorded _ _ Hinv); [by eapply Honce|done].
Qed.

(** The read set agrees with the state that answered the queries. *)
Lemma trace_agree tr self σ :
  run_inv tr self → fresh_trace tr → (∀ q r, existT q r ∈ tr → σ q = r) →
  (∀ h, σ (GetCompiledClass h) = SErr (UndeclaredClassHash h) → σ (GetCompiledClassHash h) = SOk 0) →
  agree σ self.(cache).(initial_reads).
Proof.
  intros [Hrec _ [A1 A2 A3 A4 A5] _] Hfresh Hσ Hun. specialize (Hrec Hfresh).
  assert (∀ q r, existT q r ∈ tr → σ q = r ∧ recorded self.(cache).(initial_reads) q r) as Ht by auto.
  split.
  - intros a k v Hv. destruct (A1 a k v Hv) as [r [-> (v'&->&?)]%Ht]. congruence.
  - intros a v Hv. destruct (A2 a v Hv) as [r [-> (v'&->&?)]%Ht]. congruence.
  - intros a v Hv. destruct (A3 a v Hv) as [r [-> (v'&->&?)]%Ht]. congruence.
  - intros h v Hv. destruct (A4 h v Hv) as [[r [-> (v'&->&?)]%Ht]|[-> [Hs _]%Ht]]; [congruence|by apply Hun].
  - intros h Hv. destruct (A5 h _ Hv) as [r [-> [[-> _]|[_ ?]]]%Ht]; [done|congruence].
  - intros h Hv. destruct (A5 h _ Hv) as [r [-> [[_ ?]|[-> _]]]%Ht]; [congruence|done].
Qed.
End recorded.

(** ** The changes of a state *)

Lemma strict_subtract_Some {K V} `{Countable K} `{EqDecision V} (m m' d : gmap K V) :
  strict_subtract_mappings m m' = Some d → dom d ⊆ dom m' ∧ ∀ k v, d !! k = Some v → m !! k = Some v.
Proof.
  unfold strict_subtract_mappings. case_decide as Hd; [|done]. intros [= <-].
  assert (∀ k v, subtract_mappings m m' !! k = Some v → m !! k = Some v) as Hs by (intros k v [Hk _]%lookup_subtract; done).
  split; [|done]. intros k [v Hv]%elem_of_dom. apply Hd, elem_of_dom. eauto.
Qed.

(** What changed was written, and its value before was read. *)
Record changes_ok (c : StateCache) (d : StateMaps) : Prop := {
  ch_storage : dom d.(storage) ⊆ dom c.(initial_reads).(storage);
  ch_nonces : dom d.(nonces) ⊆ dom c.(initial_reads).(nonces);
  ch_class_hashes : dom d.(class_hashes) ⊆ dom c.(initial_reads).(class_hashes);
  ch_compiled h v : d.(compiled_class_hashes) !! h = Some v → c.(writes).(compiled_class_hashes) !! h = Some v;
  ch_declared h b : d.(declared_contracts) !! h = Some b → c.(writes).(declared_contracts) !! h = Some b;
}.

Lemma cache_to_state_diff_ok c changes : cache_to_state_diff c = Some changes → changes_ok c changes.(state_maps).
Proof.
  unfold cache_to_state_diff, StateMaps_diff.
  destruct (strict_subtract_mappings (nonces _) _) eqn:H1; [|done].
  destruct (strict_subtract_mappings (class_hashes _) _) eqn:H2; [|done].
  destruct (strict_subtract_mappings (storage _) _) eqn:H3; [|done].
  destruct (strict_subtract_mappings (compiled_class_hashes _) _) eqn:H4; [|done].
  cbn. intros [= <-]. cbn. apply strict_subtract_Some in H1, H2, H3, H4. split; cbn; try tauto.
  by intros h b [Hb _]%lookup_subtract.
Qed.
