(* ===== verification/VersionedState.v ===== *)
(** The state that the workers of a chunk of transactions share:
    [crates/blockifier/src/concurrency/versioned_storage.rs] and [versioned_state.rs].

    A cell holds a value for each transaction that wrote it. The methods of
    [VersionedStateProxy] hold the lock of the shared state from start to end, so each of them
    is one function on it. Transaction indices are numbers. *)
From S2P Require Import Prelude StarknetApi Collections StateApi CachedState.

(** ** [VersionedStorage] *)

Record VersionedStorage (K V : Type) `{Countable K} := {
  cached_initial_values : gmap K V;
  versions : gmap K (gmap N V);
}.
Arguments cached_initial_values {_ _ _ _}.
Arguments versions {_ _ _ _}.

Section versioned_storage.
Context `{HashOrder} {K V : Type} `{Countable K}.
Implicit Types (self : VersionedStorage K V) (tx_index : N) (key : K) (value : V).

Definition VersionedStorage_default : VersionedStorage K V :=
  {| cached_initial_values := ∅; versions := ∅ |}.

Definition vs_read self tx_index key : option V :=
  match self.(versions) !! key ≫= BTreeMap.range_last tx_index with
  | Some (_, value) => Some value
  | None => self.(cached_initial_values) !! key
  end.

Definition vs_write tx_index key value self : VersionedStorage K V :=
  {| cached_initial_values := self.(cached_initial_values);
     versions := <[key := <[tx_index := value]> (default ∅ (self.(versions) !! key))]> self.(versions) |}.

(** [None] for a key that was never written: the source panics. *)
Definition delete_write key tx_index self : option (VersionedStorage K V) :=
  cell ← self.(versions) !! key;
  Some {| cached_initial_values := self.(cached_initial_values);
          versions := <[key := delete tx_index cell]> self.(versions) |}.

Definition set_initial_value key value self : VersionedStorage K V :=
  {| cached_initial_values := <[key := value]> self.(cached_initial_values); versions := self.(versions) |}.

Definition vs_get_writes_up_to_index self (index : N) : gmap K V :=
  omap (λ cell, snd <$> BTreeMap.range_last index cell) self.(versions).

(** [for (key, value) in writes { self.write(tx_index, key, value) }]. *)
Definition write_all tx_index (writes : gmap K V) self : VersionedStorage K V :=
  foldl (λ self kv, vs_write tx_index kv.1 kv.2 self) self (hash_iter writes).

(** [for key in keys { self.delete_write(key, tx_index) }]. *)
Fixpoint delete_keys tx_index (keys : list K) self : option (VersionedStorage K V) :=
  match keys with
  | [] => Some self
  | key :: keys => self ← delete_write key tx_index self; delete_keys tx_index keys self
  end.
End versioned_storage.
Arguments VersionedStorage_default {K V _ _}.

(** ** States that are read and updated *)

(** [StateReader] and [UpdatableState] for a state that one thread holds. *)
Class StateReader (RunnableCompiledClass S : Type) :=
  read_state : ∀ q : Query, M S StateError (Answer RunnableCompiledClass q).

(** [None] for a panic. *)
Class UpdatableState (RunnableCompiledClass S : Type) :=
  apply_writes_to : StateMaps → gmap N RunnableCompiledClass → gmap N (gset N) → S → option S.

(** What clients rely on: a state stands for what it answers, and goes on standing for it when
    it is read. *)
Class StateReaderLaws (RunnableCompiledClass S : Type) `{!StateReader RunnableCompiledClass S} := {
  stands_for : S → View RunnableCompiledClass → Prop;
  read_state_answer q s σ : stands_for s σ → (read_state q s).1 = from_state_result (σ q);
  read_state_stands q s σ : stands_for s σ → stands_for (read_state q s).2 σ;
  stands_for_ext s σ σ' : (∀ q, σ q = σ' q) → stands_for s σ → stands_for s σ';
}.

(** ** [VersionedState] *)

Section versioned_state.
Context `{HashOrder} {RunnableCompiledClass S : Type}.
Abbreviation Answer := (Answer RunnableCompiledClass).

Record VersionedState := {
  initial_state : S;
  v_storage : VersionedStorage (N * N) N;
  v_nonces : VersionedStorage N N;
  v_class_hashes : VersionedStorage N N;
  v_compiled_class_hashes : VersionedStorage N N;
  v_declared_contracts : VersionedStorage N bool;
  v_compiled_contract_classes : VersionedStorage N RunnableCompiledClass;
}.
Implicit Types self : VersionedState.

Definition VersionedState_new (initial_state : S) : VersionedState :=
  {| initial_state := initial_state; v_storage := VersionedStorage_default; v_nonces := VersionedStorage_default;
     v_class_hashes := VersionedStorage_default; v_compiled_class_hashes := VersionedStorage_default;
     v_declared_contracts := VersionedStorage_default;
     v_compiled_contract_classes := VersionedStorage_default |}.

Definition set_initial_state v self :=
  {| initial_state := v; v_storage := self.(v_storage); v_nonces := self.(v_nonces);
     v_class_hashes := self.(v_class_hashes); v_compiled_class_hashes := self.(v_compiled_class_hashes);
     v_declared_contracts := self.(v_declared_contracts);
     v_compiled_contract_classes := self.(v_compiled_contract_classes) |}.
Definition on_v_storage f self :=
  {| initial_state := self.(initial_state); v_storage := f self.(v_storage); v_nonces := self.(v_nonces);
     v_class_hashes := self.(v_class_hashes); v_compiled_class_hashes := self.(v_compiled_class_hashes);
     v_declared_contracts := self.(v_declared_contracts);
     v_compiled_contract_classes := self.(v_compiled_contract_classes) |}.
Definition on_v_nonces f self :=
  {| initial_state := self.(initial_state); v_storage := self.(v_storage); v_nonces := f self.(v_nonces);
     v_class_hashes := self.(v_class_hashes); v_compiled_class_hashes := self.(v_compiled_class_hashes);
     v_declared_contracts := self.(v_declared_contracts);
     v_compiled_contract_classes := self.(v_compiled_contract_classes) |}.
Definition on_v_class_hashes f self :=
  {| initial_state := self.(initial_state); v_storage := self.(v_storage); v_nonces := self.(v_nonces);
     v_class_hashes := f self.(v_class_hashes); v_compiled_class_hashes := self.(v_compiled_class_hashes);
     v_declared_contracts := self.(v_declared_contracts);
     v_compiled_contract_classes := self.(v_compiled_contract_classes) |}.
Definition on_v_compiled_class_hashes f self :=
  {| initial_state := self.(initial_state); v_storage := self.(v_storage); v_nonces := self.(v_nonces);
     v_class_hashes := self.(v_class_hashes); v_compiled_class_hashes := f self.(v_compiled_class_hashes);
     v_declared_contracts := self.(v_declared_contracts);
     v_compiled_contract_classes := self.(v_compiled_contract_classes) |}.
Definition on_v_declared_contracts f self :=
  {| initial_state := self.(initial_state); v_storage := self.(v_storage); v_nonces := self.(v_nonces);
     v_class_hashes := self.(v_class_hashes); v_compiled_class_hashes := self.(v_compiled_class_hashes);
     v_declared_contracts := f self.(v_declared_contracts);
     v_compiled_contract_classes := self.(v_compiled_contract_classes) |}.
Definition on_v_compiled_contract_classes f self :=
  {| initial_state := self.(initial_state); v_storage := self.(v_storage); v_nonces := self.(v_nonces);
     v_class_hashes := self.(v_class_hashes); v_compiled_class_hashes := self.(v_compiled_class_hashes);
     v_declared_contracts := self.(v_declared_contracts);
     v_compiled_contract_classes := f self.(v_compiled_contract_classes) |}.

Definition get_writes_up_to_index (tx_index : N) self : StateMaps := {|
  storage := vs_get_writes_up_to_index self.(v_storage) tx_index;
  nonces := vs_get_writes_up_to_index self.(v_nonces) tx_index;
  class_hashes := vs_get_writes_up_to_index self.(v_class_hashes) tx_index;
  compiled_class_hashes := vs_get_writes_up_to_index self.(v_compiled_class_hashes) tx_index;
  declared_contracts := vs_get_writes_up_to_index self.(v_declared_contracts) tx_index;
|}.

(** The loops of [validate_reads] over one map; [None] for a panic. *)
Fixpoint validate_cells {K V} `{EqDecision V} (read : K → option V) (entries : list (K * V)) : option bool :=
  match entries with
  | [] => Some true
  | (key, expected_value) :: entries =>
      value ← read key;
      if decide (value = expected_value) then validate_cells read entries else Some false
  end.

Fixpoint validate_declared (read : N → option bool) (has_class : N → bool) (entries : list (N * bool)) : option bool :=
  match entries with
  | [] => Some true
  | (class_hash, expected_value) :: entries =>
      is_declared ← read class_hash;
      if decide (is_declared = has_class class_hash) then
        if decide (is_declared = expected_value) then validate_declared read has_class entries else Some false
      else None
  end.

(** The next check, when those before it succeeded. *)
Definition and_then (valid next : option bool) : option bool :=
  match valid with Some true => next | _ => valid end.

Definition validate_reads (tx_index : N) (reads : StateMaps) self : option bool :=
  if decide (tx_index = 0) then Some true else
  let tx_index := tx_index - 1 in
  and_then (validate_cells (vs_read self.(v_storage) tx_index) (hash_iter reads.(storage)))
  (and_then (validate_cells (vs_read self.(v_nonces) tx_index) (hash_iter reads.(nonces)))
  (and_then (validate_cells (vs_read self.(v_class_hashes) tx_index) (hash_iter reads.(class_hashes)))
  (and_then (validate_cells (vs_read self.(v_compiled_class_hashes) tx_index) (hash_iter reads.(compiled_class_hashes)))
    (validate_declared (vs_read self.(v_declared_contracts) tx_index)
       (λ h, bool_decide (is_Some (vs_read self.(v_compiled_contract_classes) tx_index h)))
       (hash_iter reads.(declared_contracts)))))).

(** [None] when the assertion on a declared class fails. *)
Definition apply_writes_at (tx_index : N) (writes : StateMaps) (class_hash_to_class : gmap N RunnableCompiledClass)
    self : option VersionedState :=
  let self := on_v_storage (write_all tx_index writes.(storage)) self in
  let self := on_v_nonces (write_all tx_index writes.(nonces)) self in
  let self := on_v_class_hashes (write_all tx_index writes.(class_hashes)) self in
  let self := on_v_compiled_class_hashes (write_all tx_index writes.(compiled_class_hashes)) self in
  let self := on_v_compiled_contract_classes (write_all tx_index class_hash_to_class) self in
  if decide (map_Forall (λ h value, value = bool_decide (is_Some (vs_read self.(v_compiled_contract_classes) tx_index h)))
               writes.(declared_contracts))
  then Some (on_v_declared_contracts (write_all tx_index writes.(declared_contracts)) self)
  else None.

Definition delete_writes (tx_index : N) (writes : StateMaps) (class_hash_to_class : gmap N RunnableCompiledClass)
    self : option VersionedState :=
  s ← delete_keys tx_index (hash_keys writes.(storage)) self.(v_storage);
  n ← delete_keys tx_index (hash_keys writes.(nonces)) self.(v_nonces);
  c ← delete_keys tx_index (hash_keys writes.(class_hashes)) self.(v_class_hashes);
  cc ← delete_keys tx_index (hash_keys writes.(compiled_class_hashes)) self.(v_compiled_class_hashes);
  d ← delete_keys tx_index (hash_keys writes.(declared_contracts)) self.(v_declared_contracts);
  cl ← delete_keys tx_index (hash_keys class_hash_to_class) self.(v_compiled_contract_classes);
  Some {| initial_state := self.(initial_state); v_storage := s; v_nonces := n; v_class_hashes := c;
          v_compiled_class_hashes := cc; v_declared_contracts := d; v_compiled_contract_classes := cl |}.

Definition commit_chunk_and_recover_block_state `{!UpdatableState RunnableCompiledClass S} (n_committed_txs : N)
    (visited_pcs : gmap N (gset N)) self : option S :=
  if decide (n_committed_txs = 0) then Some self.(initial_state) else
  let commit_index := n_committed_txs - 1 in
  let writes := get_writes_up_to_index commit_index self in
  let class_hash_to_class := vs_get_writes_up_to_index self.(v_compiled_contract_classes) commit_index in
  apply_writes_to writes class_hash_to_class visited_pcs self.(initial_state).

(** ** [StateReader] for [VersionedStateProxy] *)

Context `{!StateReader RunnableCompiledClass S}.

Definition read_initial (q : Query) : M VersionedState StateError (Answer q) :=
  zoom initial_state set_initial_state (read_state q).

(** A cell is read from the versions, or else from the initial state, which is remembered. *)
Definition proxy_cell {K} `{Countable K} (field : VersionedState → VersionedStorage K N)
    (on_field : (VersionedStorage K N → VersionedStorage K N) → VersionedState → VersionedState)
    (read_initial_value : M VersionedState StateError N) (tx_index : N) (key : K) : M VersionedState StateError N :=
  state ← get_st;
  match vs_read (field state) tx_index key with
  | Some value => mret value
  | None =>
      initial_value ← read_initial_value;
      modify (on_field (set_initial_value key initial_value));;
      mret initial_value
  end.

Definition proxy_get_storage_at (tx_index contract_address key : N) : M VersionedState StateError N :=
  proxy_cell v_storage on_v_storage (read_initial (GetStorageAt contract_address key)) tx_index (contract_address, key).
Definition proxy_get_nonce_at (tx_index contract_address : N) : M VersionedState StateError N :=
  proxy_cell v_nonces on_v_nonces (read_initial (GetNonceAt contract_address)) tx_index contract_address.
Definition proxy_get_class_hash_at (tx_index contract_address : N) : M VersionedState StateError N :=
  proxy_cell v_class_hashes on_v_class_hashes (read_initial (GetClassHashAt contract_address)) tx_index contract_address.
Definition proxy_get_compiled_class_hash (tx_index class_hash : N) : M VersionedState StateError N :=
  proxy_cell v_compiled_class_hashes on_v_compiled_class_hashes
    (read_initial (GetCompiledClassHash class_hash)) tx_index class_hash.

Definition proxy_get_compiled_class (tx_index class_hash : N) : M VersionedState StateError RunnableCompiledClass :=
  state ← get_st;
  match vs_read state.(v_compiled_contract_classes) tx_index class_hash with
  | Some value => mret value
  | None => λ state,
      match read_initial (GetCompiledClass class_hash) state with
      | (Ok initial_value, state) =>
          (modify (on_v_declared_contracts (set_initial_value class_hash true));;
           modify (on_v_compiled_contract_classes (set_initial_value class_hash initial_value));;
           mret initial_value) state
      | (Err (UndeclaredClassHash class_hash), state) =>
          (modify (on_v_declared_contracts (set_initial_value class_hash false));;
           modify (on_v_compiled_class_hashes (set_initial_value class_hash 0));;
           throw (UndeclaredClassHash class_hash)) state
      | (Err error, state) => (Err error, state)
      | (Panic, state) => (Panic, state)
      end
  end.

Definition proxy_query (tx_index : N) (q : Query) : M VersionedState StateError (Answer q) :=
  match q with
  | GetStorageAt contract_address key => proxy_get_storage_at tx_index contract_address key
  | GetNonceAt contract_address => proxy_get_nonce_at tx_index contract_address
  | GetClassHashAt contract_address => proxy_get_class_hash_at tx_index contract_address
  | GetCompiledClass class_hash => proxy_get_compiled_class tx_index class_hash
  | GetCompiledClassHash class_hash => proxy_get_compiled_class_hash tx_index class_hash
  end.
End versioned_state.
Arguments VersionedState : clear implicits.
