(* ===== verification/VersionedProofs.v ===== *)
(** The versioned state as a sequence of layers of writes, one for each transaction.

    [layer] is what a transaction wrote, [below] what is written by the transactions before
    one. A query through a proxy is answered by what is below, or else by the initial state. *)
From S2P Require Import Prelude StarknetApi Collections StateApi CachedState CachedStateProofs VersionedState.

(** ** One storage *)

Section storage.
Context `{HashOrder} {K V : Type} `{Countable K}.
Implicit Types (vs : VersionedStorage K V) (i j n : N) (k : K) (m : gmap K V).

Definition vs_layer vs i : gmap K V := omap (.!! i) vs.(versions).
Definition vs_below vs n : gmap K V := if decide (n = 0) then ∅ else vs_get_writes_up_to_index vs (n - 1).

Lemma lookup_vs_layer vs i k : vs_layer vs i !! k = vs.(versions) !! k ≫= (.!! i).
Proof. apply lookup_omap. Qed.

Lemma range_last_0 (cell : gmap N V) : snd <$> BTreeMap.range_last 0 cell = cell !! 0.
Proof.
  destruct (BTreeMap.range_last 0 cell) as [[k' v]|] eqn:Hr.
  - apply BTreeMap.range_last_Some in Hr as (Hv&Hle&_). assert (k' = 0) as -> by lia. by rewrite Hv.
  - rewrite BTreeMap.range_last_None in Hr. destruct (cell !! 0) as [v|] eqn:Hv; [|done].
    specialize (Hr _ _ Hv). lia.
Qed.

Lemma range_last_succ (cell : gmap N V) i :
  snd <$> BTreeMap.range_last (i + 1) cell =
    match cell !! (i + 1) with Some v => Some v | None => snd <$> BTreeMap.range_last i cell end.
Proof.
  destruct (cell !! (i + 1)) as [v|] eqn:Hv.
  - assert (BTreeMap.range_last (i + 1) cell = Some (i + 1, v)) as ->; [|done].
    apply BTreeMap.range_last_Some. split; [done|]. split; [lia|]. intros; lia.
  - destruct (BTreeMap.range_last i cell) as [[k' v]|] eqn:Hr.
    + assert (BTreeMap.range_last (i + 1) cell = Some (k', v)) as ->; [|done].
      apply BTreeMap.range_last_Some in Hr as (Hk&Hle&Hmax). apply BTreeMap.range_last_Some.
      split; [done|]. split; [lia|]. intros j w Hj Hj1. apply (Hmax j w Hj).
      destruct (decide (j = i + 1)) as [->|]; [congruence|lia].
    + assert (BTreeMap.range_last (i + 1) cell = None) as ->; [|done].
      rewrite BTreeMap.range_last_None in *. intros j w Hj. specialize (Hr j w Hj).
      destruct (decide (j = i + 1)) as [->|]; [congruence|lia].
Qed.

Lemma vs_below_0 vs : vs_below vs 0 = ∅.
Proof. done. Qed.

Lemma vs_below_succ vs n : vs_below vs (n + 1) = vs_layer vs n ∪ vs_below vs n.
Proof.
  apply map_eq. intros k. rewrite lookup_union, lookup_vs_layer. unfold vs_below, vs_get_writes_up_to_index.
  rewrite (decide_False (P := n + 1 = 0)) by lia. rewrite lookup_omap. replace (n + 1 - 1) with n by lia.
  destruct (versions vs !! k) as [cell|] eqn:Hc; cbn [mbind option_bind].
  2:{ rewrite (left_id_L None _). case_decide; [by rewrite lookup_empty|]. by rewrite lookup_omap, Hc. }
  case_decide as Hn.
  - subst n. rewrite range_last_0, lookup_empty. by destruct (cell !! 0).
  - rewrite lookup_omap, Hc. cbn. replace n with (n - 1 + 1) at 1 2 by lia. rewrite range_last_succ.
    destruct (cell !! (n - 1 + 1)) as [v|]; [by destruct (_ <$> _)|by rewrite (left_id_L None _)].
Qed.

(** What is below depends on the layers below only. *)
Lemma vs_below_ext vs vs' n : (∀ i, i < n → vs_layer vs i = vs_layer vs' i) → vs_below vs n = vs_below vs' n.
Proof.
  induction n as [|n IH] using N.peano_ind; intros Hl; [done|].
  rewrite <-!N.add_1_r, !vs_below_succ, Hl by lia. by rewrite IH by (intros; apply Hl; lia).
Qed.

Lemma lookup_vs_below vs n k v : vs_below vs n !! k = Some v → ∃ i, i < n ∧ vs_layer vs i !! k = Some v.
Proof.
  induction n as [|n IH] using N.peano_ind; [by rewrite vs_below_0, lookup_empty|].
  rewrite <-N.add_1_r, vs_below_succ, lookup_union_Some_raw. intros [Hv|[_ Hv]].
  - exists n. split; [lia|done].
  - destruct (IH Hv) as (i&?&?). exists i. split; [lia|done].
Qed.

Lemma vs_read_below vs i k : vs_read vs i k = (vs_below vs (i + 1) ∪ vs.(cached_initial_values)) !! k.
Proof.
  unfold vs_read, vs_below, vs_get_writes_up_to_index. rewrite decide_False by lia.
  rewrite lookup_union, lookup_omap. replace (i + 1 - 1) with i by lia.
  destruct (versions vs !! k) as [cell|]; cbn; [|by rewrite (left_id_L None _)].
  destruct (BTreeMap.range_last i cell) as [[j v]|]; cbn; [by destruct (cached_initial_values vs !! k)|by rewrite (left_id_L None _)].
Qed.

Lemma vs_layer_default i : vs_layer VersionedStorage_default i = ∅.
Proof. apply omap_empty. Qed.

Lemma vs_layer_write i k v vs j :
  vs_layer (vs_write i k v vs) j = if decide (j = i) then <[k := v]> (vs_layer vs j) else vs_layer vs j.
Proof.
  apply map_eq. intros k'. rewrite lookup_vs_layer. unfold vs_write. cbn.
  destruct (decide (k = k')) as [->|Hk].
  - rewrite lookup_insert_eq. cbn. case_decide as Hj; [subst j; by rewrite !lookup_insert_eq|].
    rewrite lookup_insert_ne by done. rewrite lookup_vs_layer. by destruct (versions vs !! k').
  - rewrite lookup_insert_ne by done. case_decide; [rewrite lookup_insert_ne by done|]; by rewrite lookup_vs_layer.
Qed.

Lemma vs_layer_write_list i (l : list (K * V)) vs j :
  NoDup l.*1 →
  vs_layer (foldl (λ vs kv, vs_write i kv.1 kv.2 vs) vs l) j =
    if decide (j = i) then list_to_map l ∪ vs_layer vs j else vs_layer vs j.
Proof.
  revert vs. induction l as [|[k v] l IH]; intros vs Hnd; cbn.
  - case_decide; [|done]. by rewrite (left_id_L ∅ _).
  - apply NoDup_cons in Hnd as [Hk Hnd]. rewrite IH, vs_layer_write by done. case_decide; [|done].
    rewrite <-insert_union_l. rewrite insert_union_r; [done|]. by apply not_elem_of_list_to_map_1.
Qed.

Lemma list_to_map_hash_iter m : list_to_map (hash_iter m) = m.
Proof.
  rewrite <-(list_to_map_to_list m) at 2. apply list_to_map_proper; [apply NoDup_hash_keys|apply hash_iter_perm].
Qed.

Lemma vs_layer_write_all i m vs j :
  vs_layer (write_all i m vs) j = if decide (j = i) then m ∪ vs_layer vs j else vs_layer vs j.
Proof. unfold write_all. by rewrite vs_layer_write_list, list_to_map_hash_iter by apply NoDup_hash_keys. Qed.

Lemma cached_write_all i m vs : (write_all i m vs).(cached_initial_values) = vs.(cached_initial_values).
Proof. unfold write_all. generalize (hash_iter m). intros l. revert vs. induction l as [|x l IH]; intros vs; [done|]. cbn. by rewrite IH. Qed.

Lemma delete_keys_layer i (keys : list K) vs :
  (∀ k, k ∈ keys → is_Some (vs_layer vs i !! k)) → NoDup keys →
  ∃ vs', delete_keys i keys vs = Some vs' ∧ vs'.(cached_initial_values) = vs.(cached_initial_values) ∧
    ∀ j k, vs_layer vs' j !! k = if decide (j = i ∧ k ∈ keys) then None else vs_layer vs j !! k.
Proof.
  revert vs. induction keys as [|k keys IH]; intros vs Hk Hnd; cbn [delete_keys].
  { exists vs. split; [done|]. split; [done|]. intros j k. rewrite decide_False; [done|]. intros [_ Hin]. by apply elem_of_nil in Hin. }
  apply NoDup_cons in Hnd as [Hnin Hnd].
  destruct (Hk k) as [v Hv]; [left|]. rewrite lookup_vs_layer in Hv.
  unfold delete_write. destruct (versions vs !! k) as [cell|] eqn:Hc; [|done]. cbn.
  set (vs1 := {| cached_initial_values := _; versions := _ |}).
  assert (∀ j k', vs_layer vs1 j !! k' = if decide (j = i ∧ k' = k) then None else vs_layer vs j !! k') as Hvs1.
  { intros j k'. rewrite !lookup_vs_layer. cbn. destruct (decide (k = k')) as [<-|Hne].
    - rewrite lookup_insert_eq, Hc. cbn. destruct (decide (i = j)) as [<-|Hj].
      + by rewrite lookup_delete_eq, decide_True.
      + rewrite lookup_delete_ne by done. rewrite decide_False; [done|]. naive_solver.
    - rewrite lookup_insert_ne by done. rewrite decide_False; [done|]. naive_solver. }
  destruct (IH vs1) as (vs'&Hdel&Hcache&Hl); [|done|].
  { intros k' Hin. rewrite Hvs1. rewrite decide_False by naive_solver. apply Hk. by right. }
  exists vs'. split; [done|]. split; [done|]. intros j k'. rewrite Hl, Hvs1.
  destruct (decide (j = i ∧ k' ∈ keys)), (decide (j = i ∧ k' = k)), (decide (j = i ∧ k' ∈ k :: keys)); try done;
    exfalso; set_solver.
Qed.

Lemma vs_layer_initial k v vs i : vs_layer (set_initial_value k v vs) i = vs_layer vs i.
Proof. done. Qed.
End storage.

(** ** Views *)

Section views.
Context {RunnableCompiledClass : Type}.
Abbreviation View := (View RunnableCompiledClass).

(** Writes on top of a state. *)
Definition overlay (maps : StateMaps) (classes : gmap N RunnableCompiledClass) (σ : View) : View := λ q,
  match q with
  | GetStorageAt a k => from_option SOk (σ (GetStorageAt a k)) (maps.(storage) !! (a, k))
  | GetNonceAt a => from_option SOk (σ (GetNonceAt a)) (maps.(nonces) !! a)
  | GetClassHashAt a => from_option SOk (σ (GetClassHashAt a)) (maps.(class_hashes) !! a)
  | GetCompiledClass h => from_option SOk (σ (GetCompiledClass h)) (classes !! h)
  | GetCompiledClassHash h => from_option SOk (σ (GetCompiledClassHash h)) (maps.(compiled_class_hashes) !! h)
  end.

Lemma overlay_ext maps classes σ σ' q : (∀ q, σ q = σ' q) → overlay maps classes σ q = overlay maps classes σ' q.
Proof. intros Hσ. destruct q; cbn; by rewrite Hσ. Qed.
End views.

(** ** The layers of the state *)

Section layers.
Context `{HashOrder} {RunnableCompiledClass S : Type}.
Abbreviation VersionedState := (VersionedState RunnableCompiledClass S).
Implicit Types (V : VersionedState) (i j n : N) (h : N).

Definition layer V i : StateMaps := {|
  nonces := vs_layer V.(v_nonces) i;
  class_hashes := vs_layer V.(v_class_hashes) i;
  storage := vs_layer V.(v_storage) i;
  compiled_class_hashes := vs_layer V.(v_compiled_class_hashes) i;
  declared_contracts := vs_layer V.(v_declared_contracts) i;
|}.
Definition layer_classes V i : gmap N RunnableCompiledClass := vs_layer V.(v_compiled_contract_classes) i.

Definition below V n : StateMaps := {|
  nonces := vs_below V.(v_nonces) n;
  class_hashes := vs_below V.(v_class_hashes) n;
  storage := vs_below V.(v_storage) n;
  compiled_class_hashes := vs_below V.(v_compiled_class_hashes) n;
  declared_contracts := vs_below V.(v_declared_contracts) n;
|}.
Definition below_classes V n : gmap N RunnableCompiledClass := vs_below V.(v_compiled_contract_classes) n.

(** What is remembered of the initial state. *)
Definition initial_values V : StateMaps := {|
  nonces := V.(v_nonces).(cached_initial_values);
  class_hashes := V.(v_class_hashes).(cached_initial_values);
  storage := V.(v_storage).(cached_initial_values);
  compiled_class_hashes := V.(v_compiled_class_hashes).(cached_initial_values);
  declared_contracts := V.(v_declared_contracts).(cached_initial_values);
|}.
Definition initial_classes V : gmap N RunnableCompiledClass := V.(v_compiled_contract_classes).(cached_initial_values).

Lemma below_0 V : below V 0 = StateMaps_default.
Proof. done. Qed.

Lemma below_succ V n : below V (n + 1) = StateMaps_extend (below V n) (layer V n).
Proof. unfold below, StateMaps_extend, layer. cbn. by rewrite !vs_below_succ. Qed.

Lemma below_classes_succ V n : below_classes V (n + 1) = layer_classes V n ∪ below_classes V n.
Proof. apply vs_below_succ. Qed.

(** The same writes at a version. *)
Definition same_layer V V' i : Prop := layer V' i = layer V i ∧ layer_classes V' i = layer_classes V i.

Lemma below_ext V V' n :
  (∀ i, i < n → same_layer V V' i) → below V' n = below V n ∧ below_classes V' n = below_classes V n.
Proof.
  intros Hs. split.
  - unfold below. f_equal; apply vs_below_ext; intros i Hi; destruct (Hs i Hi) as [Hl _]; by injection Hl.
  - apply vs_below_ext. intros i Hi. apply (Hs i Hi).
Qed.

Lemma layer_new (s : S) i : layer (VersionedState_new s) i = StateMaps_default ∧ layer_classes (VersionedState_new s) i = ∅.
Proof. split; [|apply vs_layer_default]. unfold layer, StateMaps_default. f_equal; apply vs_layer_default. Qed.

(** ** Writes *)

Lemma apply_writes_layer i w cl V V' :
  apply_writes_at i w cl V = Some V' →
  V'.(initial_state) = V.(initial_state) ∧ initial_values V' = initial_values V ∧ initial_classes V' = initial_classes V ∧
  (∀ j, j ≠ i → same_layer V V' j) ∧
  layer V' i = StateMaps_extend (layer V i) w ∧ layer_classes V' i = cl ∪ layer_classes V i.
Proof.
  unfold apply_writes_at. destruct (decide _); [|done]. intros [= <-].
  unfold same_layer, initial_values, initial_classes, layer, layer_classes, StateMaps_extend. cbn.
  rewrite !cached_write_all. split_and!; try done.
  - intros j Hj. by rewrite !vs_layer_write_all, !decide_False.
  - by rewrite !vs_layer_write_all, !decide_True.
  - by rewrite vs_layer_write_all, decide_True.
Qed.

(** The assertion on declared classes holds when the classes are among those written. *)
Lemma apply_writes_ok i w cl V :
  (∀ h b, w.(declared_contracts) !! h = Some b → b = true ∧ is_Some (cl !! h)) →
  is_Some (apply_writes_at i w cl V).
Proof.
  intros Hd. unfold apply_writes_at. rewrite decide_True; [by eexists|]. intros h b Hb.
  destruct (Hd h b Hb) as [-> Hc]. symmetry. apply bool_decide_eq_true. cbn.
  rewrite vs_read_below, vs_below_succ, vs_layer_write_all, decide_True by done.
  by rewrite !lookup_union_is_Some; auto.
Qed.

Lemma delete_all_keys {K A} `{Countable K} i (vs : VersionedStorage K A) :
  ∃ vs', delete_keys i (hash_keys (vs_layer vs i)) vs = Some vs' ∧
    vs'.(cached_initial_values) = vs.(cached_initial_values) ∧
    (∀ j, j ≠ i → vs_layer vs' j = vs_layer vs j) ∧ vs_layer vs' i = ∅.
Proof.
  destruct (delete_keys_layer i (hash_keys (vs_layer vs i)) vs) as (vs'&Hdel&Hc&Hl).
  { intros k. by rewrite elem_of_hash_keys. }
  { apply NoDup_hash_keys. }
  exists vs'. split; [done|]. split; [done|]. split.
  - intros j Hj. apply map_eq. intros k. rewrite Hl, decide_False; [done|]. by intros [? _].
  - apply map_eq. intros k. rewrite Hl, lookup_empty. case_decide as Hk; [done|].
    apply eq_None_not_Some. intros Hs. apply Hk. split; [done|]. by apply elem_of_hash_keys.
Qed.

(** Deleting the writes of a version leaves an empty layer. *)
Lemma delete_writes_layer i V :
  ∃ V', delete_writes i (layer V i) (layer_classes V i) V = Some V' ∧
    V'.(initial_state) = V.(initial_state) ∧ initial_values V' = initial_values V ∧
    initial_classes V' = initial_classes V ∧ (∀ j, j ≠ i → same_layer V V' j) ∧
    layer V' i = StateMaps_default ∧ layer_classes V' i = ∅.
Proof.
  unfold delete_writes, layer_classes. cbn.
  destruct (delete_all_keys i V.(v_storage)) as (s&->&Hs1&Hs2&Hs3). cbn.
  destruct (delete_all_keys i V.(v_nonces)) as (n&->&Hn1&Hn2&Hn3). cbn.
  destruct (delete_all_keys i V.(v_class_hashes)) as (c&->&Hc1&Hc2&Hc3). cbn.
  destruct (delete_all_keys i V.(v_compiled_class_hashes)) as (cc&->&Hcc1&Hcc2&Hcc3). cbn.
  destruct (delete_all_keys i V.(v_declared_contracts)) as (d&->&Hd1&Hd2&Hd3). cbn.
  destruct (delete_all_keys i V.(v_compiled_contract_classes)) as (cl&->&Hcl1&Hcl2&Hcl3). cbn.
  eexists. split; [done|]. unfold initial_values, initial_classes, same_layer, layer, layer_classes. cbn.
  rewrite Hs1, Hn1, Hc1, Hcc1, Hd1, Hcl1, Hs3, Hn3, Hc3, Hcc3, Hd3, Hcl3.
  split_and!; try done. intros j Hj. by rewrite Hs2, Hn2, Hc2, Hcc2, Hd2, Hcl2.
Qed.

(** What is committed: everything below. *)
Lemma commit_chunk_below `{!UpdatableState RunnableCompiledClass S} n pcs V :
  n ≠ 0 →
  commit_chunk_and_recover_block_state n pcs V =
    apply_writes_to (below V n) (below_classes V n) pcs V.(initial_state).
Proof.
  intros Hn. unfold commit_chunk_and_recover_block_state. rewrite decide_False by done.
  unfold get_writes_up_to_index, below, below_classes, vs_below. by rewrite !decide_False.
Qed.
End layers.

(** ** Queries *)

Section queries.
Context `{HashOrder} {RunnableCompiledClass S : Type} (class_of : N → RunnableCompiledClass).
Context `{!StateReader RunnableCompiledClass S} `{!StateReaderLaws RunnableCompiledClass S}.
Abbreviation VersionedState := (VersionedState RunnableCompiledClass S).
Abbreviation View := (View RunnableCompiledClass).
Abbreviation Answer := (Answer RunnableCompiledClass).
Implicit Types (V : VersionedState) (i n h : N).

(** What the initial state answers: cells have values, a class hash stands for one class, and
    the compiled class hash of a class that is not declared is zero. *)
Context (σ0 : View).
Class InitialLaws : Prop := {
  initial_valid q : valid_answer class_of q (σ0 q);
  initial_undeclared h :
    σ0 (GetCompiledClass h) = SErr (UndeclaredClassHash h) → σ0 (GetCompiledClassHash h) = SOk 0;
}.
Context `{!InitialLaws}.

Definition view V n : View := overlay (below V n) (below_classes V n) σ0.

Lemma view_ext V V' n q : (∀ i, i < n → same_layer V V' i) → view V' n q = view V n q.
Proof. intros Hs. unfold view. by destruct (below_ext V V' n Hs) as [-> ->]. Qed.

(** What is remembered of the initial state is right. *)
Record initial_ok V : Prop := {
  io_stands : stands_for V.(initial_state) σ0;
  io_agree : agree class_of σ0 (initial_values V);
  io_classes h c : initial_classes V !! h = Some c → σ0 (GetCompiledClass h) = SOk c;
  io_coherent h : is_Some (initial_classes V !! h) ↔ (initial_values V).(declared_contracts) !! h = Some true;
}.

Lemma initial_ok_new s : stands_for s σ0 → initial_ok (VersionedState_new s).
Proof.
  intros Hs. split; [done|split; cbn; intros *; by rewrite lookup_empty|intros h c; cbn; by rewrite lookup_empty|].
  intros h. cbn. rewrite !lookup_empty. by split; [intros [? ?]|].
Qed.

(** A state that differs in what is remembered only. *)
Definition same_writes V V' : Prop := ∀ i, same_layer V V' i.

(** The answer stays available: the cell is remembered. *)
Definition remembered V (q : Query) : StateResult (Answer q) → Prop :=
  let R := initial_values V in
  match q with
  | GetStorageAt a k => λ _, is_Some (R.(storage) !! (a, k))
  | GetNonceAt a => λ _, is_Some (R.(nonces) !! a)
  | GetClassHashAt a => λ _, is_Some (R.(class_hashes) !! a)
  | GetCompiledClassHash h => λ _, is_Some (R.(compiled_class_hashes) !! h)
  | GetCompiledClass h => λ r,
      is_Some (R.(declared_contracts) !! h) ∧
      (r = SErr (UndeclaredClassHash h) → is_Some (R.(compiled_class_hashes) !! h)) ∧
      (r = SOk (class_of h) → is_Some (initial_classes V !! h))
  end.

(** More is remembered. *)
Record remembers_more V V' : Prop := {
  rm_storage : (initial_values V).(storage) ⊆ (initial_values V').(storage);
  rm_nonces : (initial_values V).(nonces) ⊆ (initial_values V').(nonces);
  rm_class_hashes : (initial_values V).(class_hashes) ⊆ (initial_values V').(class_hashes);
  rm_compiled : dom (initial_values V).(compiled_class_hashes) ⊆ dom (initial_values V').(compiled_class_hashes);
  rm_declared : dom (initial_values V).(declared_contracts) ⊆ dom (initial_values V').(declared_contracts);
  rm_classes : dom (initial_classes V) ⊆ dom (initial_classes V');
}.

(** Cells that some transaction wrote are remembered, and no class is declared. *)
Record all_remembered V : Prop := {
  ar_storage i : dom (layer V i).(storage) ⊆ dom (initial_values V).(storage);
  ar_nonces i : dom (layer V i).(nonces) ⊆ dom (initial_values V).(nonces);
  ar_class_hashes i : dom (layer V i).(class_hashes) ⊆ dom (initial_values V).(class_hashes);
  ar_uncompiled i : (layer V i).(compiled_class_hashes) = ∅;
  ar_declared i : (layer V i).(declared_contracts) = ∅;
  ar_classes i : dom (layer_classes V i) ⊆ dom (initial_classes V);
}.

Lemma ar_compiled V :
  all_remembered V → ∀ i, dom (layer V i).(compiled_class_hashes) ⊆ dom (initial_values V).(compiled_class_hashes).
Proof. intros Hr i. rewrite (ar_uncompiled _ Hr), dom_empty_L. set_solver. Qed.

Lemma remembers_more_refl V : remembers_more V V.
Proof. by split. Qed.

Lemma remembers_more_trans V V' V'' : remembers_more V V' → remembers_more V' V'' → remembers_more V V''.
Proof. intros [] []. split; by etrans. Qed.

Lemma remembered_more V V' q r : remembers_more V V' → remembered V q r → remembered V' q r.
Proof.
  intros [Hs Hn Hc Hcc Hd Hcl]. destruct q; cbn; rewrite <-?elem_of_dom;
    [by apply subseteq_dom..| |by apply Hcc].
  intros (H1&H2&H3). split; [by apply Hd|]. split; [intros Hr; apply Hcc; auto|intros Hr; apply Hcl; auto].
Qed.

(** ** What a query through a proxy returns and leaves *)

Record query_spec i V (q : Query) (r : result StateError (Answer q)) V' : Prop := {
  qs_answer : r = from_state_result (view V (i + 1) q);
  qs_writes : same_writes V V';
  qs_initial : initial_ok V';
  qs_more : remembers_more V V';
  qs_remembered : all_remembered V → remembered V' q (view V (i + 1) q);
}.

Lemma vs_read_view {K} `{Countable K} (vs : VersionedStorage K N) i k v (initial : StateResult N) :
  vs_read vs i k = Some v → (∀ w, vs.(cached_initial_values) !! k = Some w → initial = SOk w) →
  from_option SOk initial (vs_below vs (i + 1) !! k) = SOk v.
Proof.
  rewrite vs_read_below, lookup_union. intros Hr Hi.
  destruct (vs_below vs (i + 1) !! k) as [w|]; cbn.
  - destruct (_ !! k); by injection Hr as ->.
  - rewrite (left_id_L None _) in Hr. by apply Hi.
Qed.

Lemma vs_read_remembered {K A} `{Countable K} (vs : VersionedStorage K A) i k v :
  vs_read vs i k = Some v → (∀ j, dom (vs_layer vs j) ⊆ dom vs.(cached_initial_values)) →
  is_Some (vs.(cached_initial_values) !! k).
Proof.
  rewrite vs_read_below, lookup_union_Some_raw. intros [(j&_&Hv)%lookup_vs_below|[_ Hv]] Hd; [|by eexists].
  apply elem_of_dom, (Hd j), elem_of_dom. by eexists.
Qed.

Lemma vs_read_None {K A} `{Countable K} (vs : VersionedStorage K A) i k :
  vs_read vs i k = None → vs_below vs (i + 1) !! k = None ∧ vs.(cached_initial_values) !! k = None.
Proof. rewrite vs_read_below. by rewrite lookup_union_None. Qed.

(** A read of the initial state that succeeds or not, as it answers. *)
Lemma read_initial_spec q V :
  initial_ok V → ∃ s, read_initial q V = (from_state_result (σ0 q), set_initial_state s V) ∧ stands_for s σ0.
Proof.
  intros Hok. unfold read_initial, zoom. pose proof (read_state_answer q _ _ (io_stands _ Hok)) as Ha.
  pose proof (read_state_stands q _ _ (io_stands _ Hok)) as Hs.
  destruct (read_state q (initial_state V)) as [r s]. exists s. cbn in *. by subst r.
Qed.

(** [q] reads a cell; [agree_cell] and [ar_cell] are the fields for its map. *)
Ltac solve_cell V Hok q agree_cell ar_cell :=
  let Hr := fresh "Hr" in let Hb := fresh "Hb" in let Hn := fresh "Hn" in let Hv := fresh "Hv" in
  let Hrem := fresh "Hrem" in let v := fresh "v" in let s := fresh "s" in let Hs := fresh "Hs" in
  let Hpk := fresh "Hpk" in
  cbn [proxy_query]; unfold proxy_get_storage_at, proxy_get_nonce_at, proxy_get_class_hash_at,
    proxy_get_compiled_class_hash, proxy_cell; mstep;
  match goal with |- context [match ?r with Some _ => _ | None => _ end] => destruct r as [v|] eqn:Hr end;
  [split; [|done|done|apply remembers_more_refl|];
   [cbn; by rewrite (vs_read_view _ _ _ _ _ Hr) by apply (agree_cell _ _ _ _ (io_agree _ Hok))
   |intros Hrem; eapply vs_read_remembered; [exact Hr|apply (ar_cell _ Hrem)]]
  |destruct (read_initial_spec q V Hok) as (s&Hs&Hpk); apply vs_read_None in Hr as [Hb Hn];
   destruct (initial_valid q) as [v Hv]; cbn in Hv; rewrite Hv in Hs; rewrite (bind_run _ _ _ _ _ Hs);
   split; cbn;
   [rewrite Hb; cbn; by rewrite Hv
   |done
   |split; cbn; [done| |apply (io_classes _ Hok)|apply (io_coherent _ Hok)];
    destruct (io_agree _ Hok); split; cbn; intros *; rewrite ?lookup_insert_Some; try naive_solver
   |split; cbn; try done; first [by apply insert_subseteq|rewrite dom_insert; set_solver]
   |intros _; rewrite lookup_insert_eq; by eexists]].

Lemma proxy_get_storage_at_spec i a k V :
  initial_ok V → let '(r, V') := proxy_query i (GetStorageAt a k) V in query_spec i V (GetStorageAt a k) r V'.
Proof. intros Hok. solve_cell V Hok (GetStorageAt a k) (@agree_storage) ar_storage. Qed.

Lemma proxy_get_nonce_at_spec i a V :
  initial_ok V → let '(r, V') := proxy_query i (GetNonceAt a) V in query_spec i V (GetNonceAt a) r V'.
Proof. intros Hok. solve_cell V Hok (GetNonceAt a) (@agree_nonce) ar_nonces. Qed.

Lemma proxy_get_class_hash_at_spec i a V :
  initial_ok V → let '(r, V') := proxy_query i (GetClassHashAt a) V in query_spec i V (GetClassHashAt a) r V'.
Proof. intros Hok. solve_cell V Hok (GetClassHashAt a) (@agree_class_hash) ar_class_hashes. Qed.

Lemma proxy_get_compiled_class_hash_spec i h V :
  initial_ok V →
  let '(r, V') := proxy_query i (GetCompiledClassHash h) V in query_spec i V (GetCompiledClassHash h) r V'.
Proof. intros Hok. solve_cell V Hok (GetCompiledClassHash h) (@agree_compiled) ar_compiled. Qed.

Lemma proxy_get_compiled_class_spec i h V :
  initial_ok V → let '(r, V') := proxy_query i (GetCompiledClass h) V in query_spec i V (GetCompiledClass h) r V'.
Proof.
  intros Hok. cbn [proxy_query].
  unfold proxy_get_compiled_class, mbind, M_bind, get_st. cbn beta iota. pose proof Hok as [Hp Ha Hc Hco].
  destruct (vs_read (v_compiled_contract_classes V) i h) as [c|] eqn:Hr.
  - unfold mret, M_ret. split; [|done|done|apply remembers_more_refl|].
    + cbn. rewrite vs_read_below, lookup_union in Hr. unfold below_classes.
      destruct (vs_below (v_compiled_contract_classes V) (i + 1) !! h) as [c'|]; cbn.
      * destruct (cached_initial_values (v_compiled_contract_classes V) !! h); by injection Hr as ->.
      * rewrite (left_id_L None _) in Hr. by rewrite (Hc h c Hr).
    + intros Hrem. assert (is_Some (initial_classes V !! h)) as Hs.
      { eapply vs_read_remembered; [done|]. apply (ar_classes _ Hrem). }
      cbn. pose proof (proj1 (Hco h) Hs) as Hd. cbn in Hd. rewrite Hd. split; [by eexists|].
      split; [|done]. rewrite vs_read_below, lookup_union in Hr. unfold below_classes.
      destruct (vs_below (v_compiled_contract_classes V) (i + 1) !! h) as [c'|]; [done|]. rewrite (left_id_L None _) in Hr.
      by rewrite (Hc h c Hr).
  - destruct (read_initial_spec (GetCompiledClass h) V Hok) as (s&->&Hpk).
    apply vs_read_None in Hr as [Hb Hn].
    destruct (initial_valid (GetCompiledClass h)) as [Hv|Hv]; rewrite Hv; cbn; split; cbn.
    + unfold below_classes. by rewrite Hb, Hv.
    + done.
    + split; cbn; [done| | |].
      * destruct Ha as [H1 H2 H3 H4 H5 H6]. split; cbn; [exact H1|exact H2|exact H3|exact H4| |].
        -- intros h'. rewrite lookup_insert_Some. intros [[<- _]|[_ Hd]]; [done|by apply H5].
        -- intros h'. rewrite lookup_insert_Some. intros [[<- [=]]|[_ Hd]]. by apply H6.
      * intros h' c'. rewrite lookup_insert_Some. intros [[<- <-]|[_ Hc']]; [done|by apply Hc].
      * intros h'. specialize (Hco h'). cbn in Hco. destruct (decide (h = h')) as [<-|Hne].
        -- rewrite !lookup_insert_eq. by split; [|intros _; eexists].
        -- by rewrite !lookup_insert_ne by done.
    + split; cbn; try done; rewrite dom_insert; set_solver.
    + intros _. rewrite !lookup_insert_eq. split; [by eexists|]. split; [|by eexists].
      unfold below_classes. by rewrite Hb, Hv.
    + unfold below_classes. by rewrite Hb, Hv.
    + done.
    + split; cbn; [done| |done|].
      * destruct Ha as [H1 H2 H3 H4 H5 H6]. pose proof (initial_undeclared h Hv).
        split; cbn; [exact H1|exact H2|exact H3| | |].
        -- intros h' v. rewrite lookup_insert_Some. intros [[<- <-]|[_ Hd]]; [done|by apply H4].
        -- intros h'. rewrite lookup_insert_Some. intros [[<- [=]]|[_ Hd]]. by apply H5.
        -- intros h'. rewrite lookup_insert_Some. intros [[<- _]|[_ Hd]]; [done|by apply H6].
      * intros h'. specialize (Hco h'). rewrite lookup_insert_Some. cbn in Hco. split; [|naive_solver].
        intros Hs. right. split; [|by apply Hco]. intros <-. unfold initial_classes in Hs. cbn in Hs.
        rewrite Hn in Hs. by destruct Hs.
    + split; cbn; try done; rewrite dom_insert; set_solver.
    + intros _. rewrite !lookup_insert_eq. split; [by eexists|]. split; [by eexists|].
      unfold below_classes. by rewrite Hb; cbn; rewrite Hv.
Qed.

Lemma proxy_query_spec i q V :
  initial_ok V → let '(r, V') := proxy_query i q V in query_spec i V q r V'.
Proof.
  intros Hok. destruct q; [by apply proxy_get_storage_at_spec|by apply proxy_get_nonce_at_spec
    |by apply proxy_get_class_hash_at_spec|by apply proxy_get_compiled_class_spec
    |by apply proxy_get_compiled_class_hash_spec].
Qed.

(** ** Validation *)

(** Declarations come with the class of their hash. *)
Definition layer_ok V i : Prop :=
  (∀ h b, (layer V i).(declared_contracts) !! h = Some b → b = true) ∧
  (∀ h c, layer_classes V i !! h = Some c → c = class_of h).

Lemma validate_cells_true {K A} `{EqDecision A} (read : K → option A) l :
  validate_cells read l = Some true ↔ ∀ k v, (k, v) ∈ l → read k = Some v.
Proof.
  induction l as [|[k v] l IH]; cbn; [split; [intros _ k v Hin; by apply elem_of_nil in Hin|done]|].
  destruct (read k) as [v'|] eqn:Hr; cbn.
  - case_decide as Hv; [subst v'|].
    + rewrite IH. setoid_rewrite elem_of_cons. naive_solver.
    + split; [done|]. intros Hall. specialize (Hall k v ltac:(left)). congruence.
  - split; [done|]. intros Hall. specialize (Hall k v ltac:(left)). congruence.
Qed.

Lemma validate_cells_Some {K A} `{EqDecision A} (read : K → option A) l :
  (∀ k v, (k, v) ∈ l → is_Some (read k)) → is_Some (validate_cells read l).
Proof.
  induction l as [|[k v] l IH]; intros Hl; cbn; [by eexists|].
  destruct (Hl k v ltac:(left)) as [v' ->]. cbn. case_decide; [|by eexists]. apply IH. intros k' v'' Hin.
  apply (Hl k' v''). by right.
Qed.

Lemma validate_declared_true read has_class l :
  validate_declared read has_class l = Some true ↔ ∀ h b, (h, b) ∈ l → read h = Some b ∧ has_class h = b.
Proof.
  induction l as [|[h b] l IH]; cbn; [split; [intros _ h b Hin; by apply elem_of_nil in Hin|done]|].
  destruct (read h) as [b'|] eqn:Hr; cbn.
  - case_decide as Hc; [case_decide as Hb; [subst b'|]|].
    + rewrite IH. setoid_rewrite elem_of_cons. naive_solver.
    + split; [done|]. intros Hall. destruct (Hall h b ltac:(left)). congruence.
    + split; [done|]. intros Hall. destruct (Hall h b ltac:(left)). congruence.
  - split; [done|]. intros Hall. destruct (Hall h b ltac:(left)). congruence.
Qed.

Lemma validate_declared_Some read has_class l :
  (∀ h b, (h, b) ∈ l → read h = Some (has_class h)) → is_Some (validate_declared read has_class l).
Proof.
  induction l as [|[h b] l IH]; intros Hl; cbn; [by eexists|].
  rewrite (Hl h b ltac:(left)). cbn. rewrite decide_True by done. case_decide; [|by eexists].
  apply IH. intros h' b' Hin. apply (Hl h' b'). by right.
Qed.

Lemma and_then_true valid next : and_then valid next = Some true ↔ valid = Some true ∧ next = Some true.
Proof. destruct valid as [[]|]; cbn; naive_solver. Qed.

Lemma and_then_Some valid next : is_Some valid → is_Some next → is_Some (and_then valid next).
Proof. intros [[] ->]; cbn; [done|by eexists]. Qed.

(** What it means that a read set is valid for a transaction that is not the first. *)
Lemma validate_reads_true i R V :
  i ≠ 0 →
  validate_reads i R V = Some true ↔
    (∀ a k v, R.(storage) !! (a, k) = Some v → vs_read V.(v_storage) (i - 1) (a, k) = Some v) ∧
    (∀ a v, R.(nonces) !! a = Some v → vs_read V.(v_nonces) (i - 1) a = Some v) ∧
    (∀ a v, R.(class_hashes) !! a = Some v → vs_read V.(v_class_hashes) (i - 1) a = Some v) ∧
    (∀ h v, R.(compiled_class_hashes) !! h = Some v → vs_read V.(v_compiled_class_hashes) (i - 1) h = Some v) ∧
    (∀ h b, R.(declared_contracts) !! h = Some b → vs_read V.(v_declared_contracts) (i - 1) h = Some b ∧
       bool_decide (is_Some (vs_read V.(v_compiled_contract_classes) (i - 1) h)) = b).
Proof.
  intros Hi. unfold validate_reads. rewrite decide_False by done.
  rewrite !and_then_true, !validate_cells_true, validate_declared_true.
  repeat setoid_rewrite elem_of_hash_iter. split; [naive_solver|]. intros (H1&?&?&?&?).
  split_and!; try done. intros [a k]. apply H1.
Qed.

(** A valid read set agrees with the state below the transaction. *)
Lemma validate_agree i R V :
  i ≠ 0 → initial_ok V → (∀ j, j < i → layer_ok V j) →
  validate_reads i R V = Some true → agree class_of (view V i) R.
Proof.
  intros Hi [Hp Ha Hc Hco] Hlayers. rewrite validate_reads_true by done. intros (Hs&Hn&Hch&Hcc&Hd).
  assert (i - 1 + 1 = i) as Heq by lia.
  split; unfold view; cbn.
  - intros a k v Hv. rewrite <-Heq at 1. by rewrite (vs_read_view _ _ _ _ _ (Hs _ _ _ Hv)) by apply (agree_storage _ _ _ Ha).
  - intros a v Hv. rewrite <-Heq at 1. by rewrite (vs_read_view _ _ _ _ _ (Hn _ _ Hv)) by apply (agree_nonce _ _ _ Ha).
  - intros a v Hv. rewrite <-Heq at 1. by rewrite (vs_read_view _ _ _ _ _ (Hch _ _ Hv)) by apply (agree_class_hash _ _ _ Ha).
  - intros h v Hv. rewrite <-Heq at 1. by rewrite (vs_read_view _ _ _ _ _ (Hcc _ _ Hv)) by apply (agree_compiled _ _ _ Ha).
  - intros h Hv. destruct (Hd h true Hv) as [_ [c Hr]%bool_decide_eq_true].
    rewrite vs_read_below, Heq, lookup_union_Some_raw in Hr. unfold below_classes.
    destruct Hr as [Hr|[Hnone Hr]].
    + rewrite Hr. cbn. apply lookup_vs_below in Hr as (j&Hj&Hr). f_equal. by apply (Hlayers j Hj).
    + rewrite Hnone. cbn. rewrite (Hc h c Hr). f_equal.
      assert (σ0 (GetCompiledClass h) = SOk c) as Hσ by by apply Hc.
      destruct (initial_valid (GetCompiledClass h)) as [Hv'|Hv']; congruence.
  - intros h Hv. destruct (Hd h false Hv) as [Hr Hnone%bool_decide_eq_false].
    rewrite <-eq_None_not_Some, vs_read_below, Heq, lookup_union_None in Hnone. destruct Hnone as [Hb _].
    unfold below_classes. rewrite Hb. cbn. rewrite vs_read_below, Heq, lookup_union_Some_raw in Hr.
    destruct Hr as [Hr|[_ Hr]]; [|by apply (agree_undeclared _ _ _ Ha)].
    apply lookup_vs_below in Hr as (j&Hj&Hr). by specialize (proj1 (Hlayers j Hj) h false Hr).
Qed.

(** ** Validation does not panic when what was read is remembered *)

Record reads_remembered V (R : StateMaps) : Prop := {
  rr_storage a k v : R.(storage) !! (a, k) = Some v → is_Some ((initial_values V).(storage) !! (a, k));
  rr_nonces a v : R.(nonces) !! a = Some v → is_Some ((initial_values V).(nonces) !! a);
  rr_class_hashes a v : R.(class_hashes) !! a = Some v → is_Some ((initial_values V).(class_hashes) !! a);
  rr_compiled h v : R.(compiled_class_hashes) !! h = Some v → is_Some ((initial_values V).(compiled_class_hashes) !! h);
  rr_declared h b : R.(declared_contracts) !! h = Some b → is_Some ((initial_values V).(declared_contracts) !! h);
}.

(** Every answer of a view is of the kind that states give. *)
Lemma view_valid V n q : (∀ j, layer_ok V j) → valid_answer class_of q (view V n q).
Proof.
  intros Hl. pose proof (initial_valid q) as Hi. unfold view.
  destruct q; cbn in *; [destruct (_ !! _); cbn; eauto..| |destruct (_ !! _); cbn; eauto].
  destruct (below_classes V n !! class_hash) as [c|] eqn:Hc; cbn; [|done]. left. f_equal.
  apply lookup_vs_below in Hc as (j&_&Hj). by eapply Hl.
Qed.

Lemma vs_read_is_Some {K A} `{Countable K} (vs : VersionedStorage K A) i k :
  is_Some (vs.(cached_initial_values) !! k) → is_Some (vs_read vs i k).
Proof. intros Hk. rewrite vs_read_below, lookup_union_is_Some. by right. Qed.

Lemma vs_read_of_view {K} `{Countable K} (vs : VersionedStorage K N) i k v (initial : StateResult N) :
  from_option SOk initial (vs_below vs (i + 1) !! k) = SOk v →
  is_Some (vs.(cached_initial_values) !! k) →
  (∀ w, vs.(cached_initial_values) !! k = Some w → initial = SOk w) →
  vs_read vs i k = Some v.
Proof.
  intros Hv [w Hw] Hi. destruct (vs_read_is_Some vs i k) as [v' Hr]; [by eexists|].
  pose proof (vs_read_view vs i k v' initial Hr Hi) as Hv'. congruence.
Qed.

(** Without declarations, a class is available just when the initial state has it. *)
Lemma declared_read i V h :
  initial_ok V → all_remembered V → is_Some ((initial_values V).(declared_contracts) !! h) →
  vs_read V.(v_declared_contracts) i h =
    Some (bool_decide (is_Some (vs_read V.(v_compiled_contract_classes) i h))).
Proof.
  intros [_ _ _ Hco] Hrem [b Hb]. rewrite vs_read_below.
  assert (vs_below (v_declared_contracts V) (i + 1) = ∅) as ->.
  { apply map_empty. intros k. apply eq_None_not_Some. intros [b' (j&_&Hj)%lookup_vs_below].
    pose proof (ar_declared _ Hrem j) as He. cbn in He. by rewrite He, lookup_empty in Hj. }
  rewrite (left_id_L ∅ _). cbn in Hb. rewrite Hb. f_equal. specialize (Hco h). cbn in Hco. rewrite Hb in Hco.
  destruct b; symmetry.
  - apply bool_decide_eq_true, vs_read_is_Some. by apply Hco.
  - apply bool_decide_eq_false. intros Hs. assert (is_Some (initial_classes V !! h)) as Hi; [|by apply Hco in Hi].
    destruct Hs as [c Hc]. eapply vs_read_remembered; [done|]. apply (ar_classes _ Hrem).
Qed.

Lemma validate_reads_Some i R V :
  initial_ok V → all_remembered V → reads_remembered V R → is_Some (validate_reads i R V).
Proof.
  intros Hok Hrem [Hs Hn Hc Hcc Hd]. unfold validate_reads. case_decide; [by eexists|].
  repeat apply and_then_Some;
    [apply validate_cells_Some; intros k v Hin%elem_of_hash_iter; apply vs_read_is_Some..|].
  - destruct k. by eapply Hs.
  - by eapply Hn.
  - by eapply Hc.
  - by eapply Hcc.
  - apply validate_declared_Some. intros h b Hin%elem_of_hash_iter. apply declared_read; [done..|]. by eapply Hd.
Qed.

Lemma validate_reads_complete i R V :
  initial_ok V → all_remembered V → reads_remembered V R → (i ≠ 0 → agree class_of (view V i) R) →
  validate_reads i R V = Some true.
Proof.
  intros Hok Hrem [Hs Hn Hc Hcc Hd] Hagree. destruct (decide (i = 0)) as [->|Hi]; [done|].
  specialize (Hagree Hi). pose proof Hok as [_ Ha Hcl _].
  apply validate_reads_true; [done|]. assert (i - 1 + 1 = i) as Heq by lia. split_and!.
  - intros a k v Hv. eapply vs_read_of_view; [rewrite Heq; by apply (agree_storage _ _ _ Hagree)|by eapply Hs|].
    apply (agree_storage _ _ _ Ha).
  - intros a v Hv. eapply vs_read_of_view; [rewrite Heq; by apply (agree_nonce _ _ _ Hagree)|by eapply Hn|].
    apply (agree_nonce _ _ _ Ha).
  - intros a v Hv. eapply vs_read_of_view; [rewrite Heq; by apply (agree_class_hash _ _ _ Hagree)|by eapply Hc|].
    apply (agree_class_hash _ _ _ Ha).
  - intros h v Hv. eapply vs_read_of_view; [rewrite Heq; by apply (agree_compiled _ _ _ Hagree)|by eapply Hcc|].
    apply (agree_compiled _ _ _ Ha).
  - intros h b Hv. rewrite declared_read by (done || by eapply Hd).
    assert (bool_decide (is_Some (vs_read (v_compiled_contract_classes V) (i - 1) h)) = b) as ->; [|done].
    assert (∀ c, view V i (GetCompiledClass h) = SOk c ↔ vs_read (v_compiled_contract_classes V) (i - 1) h = Some c) as Hv'.
    { intros c. rewrite vs_read_below, Heq. cbn. unfold below_classes. rewrite lookup_union.
      destruct (vs_below (v_compiled_contract_classes V) i !! h) as [c'|]; cbn.
      - destruct (cached_initial_values (v_compiled_contract_classes V) !! h); cbn; naive_solver.
      - rewrite (left_id_L None _). split; [|apply Hcl]. intros Hσ.
        destruct (Hd h b Hv) as [b' Hb']. destruct b'.
        + destruct (proj2 (io_coherent _ Hok h) Hb') as [c' Hc'].
          pose proof (Hcl h c' Hc'). change (cached_initial_values (v_compiled_contract_classes V) !! h) with (initial_classes V !! h).
          rewrite Hc'. f_equal. congruence.
        + pose proof (agree_undeclared _ _ _ Ha h Hb'). congruence. }
    destruct b.
    + apply bool_decide_eq_true. exists (class_of h). apply Hv'. by apply (agree_declared _ _ _ Hagree).
    + apply bool_decide_eq_false. intros [c Hc'%Hv']. pose proof (agree_undeclared _ _ _ Hagree h Hv). congruence.
Qed.
End queries.
