(* ===== verification/CachedStateSpec.v ===== *)
(** What code on a state means, and the proof that cached and transactional states implement it.

    The specification has one state, which answers queries and is updated in place. Code in a
    transactional state runs on it directly; when it is aborted the state from before is back. *)
From S2P Require Import Prelude StarknetApi StateApi CachedState CachedStateProofs VersionedState VersionedProofs.

Section spec.
Context `{HashOrder} {RunnableCompiledClass : Type}.
Abbreviation View := (View RunnableCompiledClass).
Abbreviation Answer := (Answer RunnableCompiledClass).
Abbreviation CachedState := (CachedState RunnableCompiledClass).
Abbreviation Program := (Program RunnableCompiledClass).
Abbreviation Op := (Op RunnableCompiledClass).
Implicit Types (σ ρ : View) (self : CachedState) (h : N).

(** ** The specification *)

Definition write_cells (f : StateMaps → StateMaps) ρ : View := overlay (f StateMaps_default) ∅ ρ.

Definition is_declared ρ h : bool := match ρ (GetCompiledClass h) with SOk _ => true | SErr _ => false end.

(** The effect of an operation; [None] when it is outside the contract: a compiled class hash
    is set for a class that is there, and the changes so far are not asked for. *)
Definition spec_op (op : Op) ρ : option (StateResult (OpAnswer op) * View) :=
  match op with
  | Read q => Some (ρ q, ρ)
  | SetStorageAt a k v => Some (SOk tt, write_cells (set_storage (insert (a, k) v)) ρ)
  | IncrementNonce a =>
      Some match ρ (GetNonceAt a) with
           | SOk n => (SOk tt, write_cells (set_nonces (insert a (felt_add n 1))) ρ)
           | SErr e => (SErr e, ρ)
           end
  | SetClassHashAt a h =>
      Some (if decide (a = 0) then (SErr OutOfRangeContractAddress, ρ)
            else (SOk tt, write_cells (set_class_hashes (insert a h)) ρ))
  | SetContractClass h c => Some (SOk tt, overlay StateMaps_default {[h := c]} ρ)
  | SetCompiledClassHash h v =>
      if is_declared ρ h then Some (SOk tt, write_cells (set_compiled_class_hashes (insert h v)) ρ) else None
  | AddVisitedPcs _ _ => Some (SOk tt, ρ)
  | ToStateDiff => None
  end.

Fixpoint spec_program {A} (p : Program A) : View → option (A * View) :=
  match p with
  | Finish a => λ ρ, Some (a, ρ)
  | Do op k => λ ρ, '(r, ρ') ← spec_op op ρ; spec_program (k r) ρ'
  | Transactional child commits k => λ ρ,
      '(b, ρ') ← spec_program child ρ; spec_program (k b) (if commits b then ρ' else ρ)
  end.

(** ** What a cached state stands for *)

Definition cs_view σ self : View := overlay self.(cache).(writes) self.(class_hash_to_class) σ.

(** A class that is not there has no compiled class hash. *)
Definition coherent σ : Prop :=
  ∀ h h', σ (GetCompiledClass h) = SErr (UndeclaredClassHash h') → h' = h ∧ σ (GetCompiledClassHash h) = SOk 0.

(** What was read is what the state below answers; what is declared has its class. *)
Record cs_ok σ self : Prop := {
  ok_storage a k v : self.(cache).(initial_reads).(storage) !! (a, k) = Some v → σ (GetStorageAt a k) = SOk v;
  ok_nonces a v : self.(cache).(initial_reads).(nonces) !! a = Some v → σ (GetNonceAt a) = SOk v;
  ok_class_hashes a v : self.(cache).(initial_reads).(class_hashes) !! a = Some v → σ (GetClassHashAt a) = SOk v;
  ok_compiled h v : self.(cache).(initial_reads).(compiled_class_hashes) !! h = Some v → σ (GetCompiledClassHash h) = SOk v;
  ok_declared h b : self.(cache).(writes).(declared_contracts) !! h = Some b → b = true ∧ is_Some (self.(class_hash_to_class) !! h);
}.

Lemma cs_ok_new σ : cs_ok σ CachedState_new.
Proof. split; cbn; intros *; by rewrite lookup_empty. Qed.

Lemma cs_view_new σ q : cs_view σ CachedState_new q = σ q.
Proof. by destruct q. Qed.

(** The outcome of a method that does not change what the state stands for. *)
Definition reads_ok {A} σ self (r : StateResult A) (rs : result StateError A * CachedState) : Prop :=
  rs.1 = from_state_result r ∧ cs_ok σ rs.2 ∧ ∀ q, cs_view σ rs.2 q = cs_view σ self q.

(** ** The methods of the cached state *)

Lemma run_cs_bind {A B} (m : CS RunnableCompiledClass A) (f : A → CS RunnableCompiledClass B) σ self :
  run_reads ((m ≫= f) self) σ =
    match run_reads (m self) σ with
    | (Ok a, self) => run_reads (f a self) σ
    | (Err e, self) => (Err e, self)
    | (Panic, self) => (Panic, self)
    end.
Proof. unfold mbind, CS_bind. rewrite run_reads_bind. by destruct (run_reads (m self) σ) as [[]]. Qed.

Lemma run_query q σ self : run_reads (query q self) σ = (from_state_result (σ q), self).
Proof. cbn. by destruct (σ q). Qed.

(** The cell [key] is read with [fetch] when it is not cached. *)
Lemma run_read_cell {K} `{Countable K} (field : StateMaps → gmap K N) key fetch set_initial σ r self :
  (∀ self, run_reads (fetch self) σ = (from_state_result r, self)) →
  (∀ v c, field (set_initial v c).(writes) = field c.(writes)) →
  (∀ v c, field (set_initial v c).(initial_reads) !! key = Some v) →
  run_reads (read_cell (λ c, cached field c key) fetch set_initial self) σ =
    match cached field self.(cache) key with
    | Some v => (Ok v, self)
    | None => (from_state_result r, match r with SOk v => set_cache (set_initial v) self | SErr _ => self end)
    end.
Proof.
  intros Hf Hw Hr. unfold read_cell. rewrite run_cs_bind. unfold with_self.
  destruct (cached field (cache self) key) as [v|] eqn:Hget; [cbn; by rewrite Hget|].
  rewrite run_cs_bind, Hf. destruct r as [v|e]; [|done]. cbn. unfold cached in *. rewrite Hw.
  destruct (field (writes (cache self)) !! key); [done|]. by rewrite Hr.
Qed.

(** A cell that is not cached was not written. *)
Lemma cached_spec {K} `{Countable K} (field : StateMaps → gmap K N) key (r : StateResult N) c :
  (∀ v, field c.(initial_reads) !! key = Some v → r = SOk v) →
  match cached field c key with
  | Some v => from_option SOk r (field c.(writes) !! key) = SOk v
  | None => from_option SOk r (field c.(writes) !! key) = r
  end.
Proof.
  intros Hr. unfold cached. destruct (field (writes c) !! key); [done|].
  destruct (field (initial_reads c) !! key) as [v|]; [by apply Hr|done].
Qed.

(** [q] asks for the cell [key] of [field]; [ok] is what is known of it. *)
Ltac solve_getter σ self Hok field key q ok :=
  let Hc := fresh "Hc" in let v := fresh "v" in let e := fresh "e" in let Hq := fresh "Hq" in
  unfold get_storage_at, get_nonce_at, get_class_hash_at, get_compiled_class_hash,
    cache_get_storage_at, cache_get_nonce_at, cache_get_class_hash_at, cache_get_compiled_class_hash;
  rewrite (run_read_cell field key _ _ σ (σ q));
    [|intros ?; exact (run_query q σ _)|done|intros *; cbn; by rewrite lookup_insert_eq];
  pose proof (cached_spec field key (σ q) self.(cache) ok) as Hc;
  destruct (cached field (cache self) key) as [v|]; (split; [cbn; by rewrite Hc|]); [done|];
  destruct (σ q) as [v|e] eqn:Hq; [|done]; split; [|done];
  destruct Hok; split; cbn; try done; intros *; rewrite lookup_insert_Some; naive_solver.

Lemma get_storage_at_view σ a k self :
  cs_ok σ self → reads_ok σ self (cs_view σ self (GetStorageAt a k)) (run_reads (get_storage_at a k self) σ).
Proof. intros Hok. solve_getter σ self Hok storage (a, k) (GetStorageAt a k) (ok_storage _ _ Hok a k). Qed.

Lemma get_nonce_at_view σ a self :
  cs_ok σ self → reads_ok σ self (cs_view σ self (GetNonceAt a)) (run_reads (get_nonce_at a self) σ).
Proof. intros Hok. solve_getter σ self Hok nonces a (GetNonceAt a) (ok_nonces _ _ Hok a). Qed.

Lemma get_class_hash_at_view σ a self :
  cs_ok σ self → reads_ok σ self (cs_view σ self (GetClassHashAt a)) (run_reads (get_class_hash_at a self) σ).
Proof. intros Hok. solve_getter σ self Hok class_hashes a (GetClassHashAt a) (ok_class_hashes _ _ Hok a). Qed.

Lemma get_compiled_class_hash_view σ h self :
  cs_ok σ self → reads_ok σ self (cs_view σ self (GetCompiledClassHash h)) (run_reads (get_compiled_class_hash h self) σ).
Proof.
  intros Hok. solve_getter σ self Hok compiled_class_hashes h (GetCompiledClassHash h) (ok_compiled _ _ Hok h).
Qed.

Lemma get_compiled_class_view σ h self :
  coherent σ → cs_ok σ self →
  reads_ok σ self (cs_view σ self (GetCompiledClass h)) (run_reads (get_compiled_class h self) σ).
Proof.
  intros Hco Hok. unfold get_compiled_class. rewrite run_cs_bind. unfold with_self, reads_ok. unfold cs_view at 1. cbn [overlay].
  destruct (class_hash_to_class self !! h) as [c|] eqn:Hc; [cbn; by rewrite Hc|]. cbn [from_option run_reads].
  destruct (σ (GetCompiledClass h)) as [c|e] eqn:Hq.
  - rewrite run_cs_bind. cbn. rewrite lookup_insert_eq. cbn. split; [done|]. split.
    + destruct Hok. split; cbn; try done. intros h' b Hb. destruct (ok_declared0 h' b Hb). split; [done|].
      apply lookup_insert_is_Some'. auto.
    + intros []; try done. unfold cs_view. cbn. destruct (decide (class_hash = h)) as [->|Hne].
      * by rewrite lookup_insert_eq, Hc.
      * by rewrite lookup_insert_ne.
  - destruct e as [| | | | | |h'| |]; try done. do 2 (rewrite run_cs_bind; cbn). split; [done|]. split; [|done]. destruct (Hco h h' Hq) as [-> Hz].
    destruct Hok. split; cbn; try done. intros h2 v. rewrite lookup_insert_Some. naive_solver.
Qed.

Lemma cached_query_view σ q self :
  coherent σ → cs_ok σ self → reads_ok σ self (cs_view σ self q) (run_reads (cached_query q self) σ).
Proof.
  destruct q; cbn [cached_query]; auto using get_storage_at_view, get_nonce_at_view, get_class_hash_at_view,
    get_compiled_class_hash_view, get_compiled_class_view.
Qed.

(** ** Writes *)

Lemma overlay_overlay w w' cl cl' σ q :
  overlay w' cl' (overlay w cl σ) q = overlay (StateMaps_extend w w') (cl' ∪ cl) σ q.
Proof.
  destruct q; cbn; rewrite lookup_union; by repeat (destruct (_ !! _); cbn).
Qed.

Lemma insert_extend {K V} `{Countable K} k (v : V) (m : gmap K V) : <[k := v]> m = <[k := v]> ∅ ∪ m.
Proof. by rewrite insert_empty, insert_union_singleton_l. Qed.

(** A write to the cache is a write to what the state stands for. *)
Lemma write_view σ self w f :
  StateMaps_extend self.(cache).(writes) w = f self.(cache).(writes) →
  ∀ q, cs_view σ (set_cache (set_writes f) self) q = overlay w ∅ (cs_view σ self) q.
Proof. intros Hf q. unfold cs_view. rewrite overlay_overlay. cbn. by rewrite Hf, (left_id_L ∅ _). Qed.

Lemma cs_ok_write σ self f :
  (∀ w, (f w).(declared_contracts) = w.(declared_contracts)) → cs_ok σ self → cs_ok σ (set_cache (set_writes f) self).
Proof. intros Hf []. split; cbn; try done. by rewrite Hf. Qed.

(** The outcome of an operation. *)
Definition op_ok_after {A} σ (r : StateResult A) ρ' (rs : result StateError A * CachedState) : Prop :=
  rs.1 = from_state_result r ∧ cs_ok σ rs.2 ∧ ∀ q, cs_view σ rs.2 q = ρ' q.

Ltac solve_write :=
  split; [done|]; split; [by apply cs_ok_write|]; intros q;
  etrans; [apply write_view|by apply overlay_ext];
  unfold StateMaps_extend; cbn; by rewrite <-insert_extend, ?(left_id_L ∅ _).

Lemma run_op_spec σ self op ρ r ρ' :
  coherent σ → cs_ok σ self → (∀ q, cs_view σ self q = ρ q) → spec_op op ρ = Some (r, ρ') →
  op_ok_after σ r ρ' (run_reads (run_op op self) σ).
Proof.
  intros Hco Hok Hρ Hop. destruct op; cbn [spec_op] in Hop.
  - injection Hop as <- <-. destruct (cached_query_view σ q self Hco Hok) as (H1&H2&H3). rewrite Hρ in H1.
    split; [done|]. split; [done|]. intros q'. by rewrite H3.
  - injection Hop as <- <-. solve_write.
  - injection Hop as Hop. cbn [run_op]. unfold increment_nonce. rewrite run_cs_bind.
    destruct (get_nonce_at_view σ contract_address self Hok) as (H1&H2&H3). rewrite Hρ in H1.
    destruct (run_reads (get_nonce_at contract_address self) σ) as [r0 self']. cbn in H1, H2, H3. subst r0.
    assert (∀ q, cs_view σ self' q = ρ q) as Hρ' by (intros q; by rewrite H3).
    destruct (ρ (GetNonceAt contract_address)); injection Hop as <- <-; [solve_write|done].
  - injection Hop as Hop. cbn. unfold set_class_hash_at. destruct (decide _); injection Hop as <- <-; [done|]. solve_write.
  - injection Hop as <- <-. cbn [run_op]. unfold set_contract_class. rewrite run_cs_bind. cbn. split; [done|]. split.
    + destruct Hok. split; cbn; try done. intros h b. rewrite lookup_insert_Some, lookup_insert_is_Some'.
      intros [[<- <-]|[_ Hb]]; [by auto|]. destruct (ok_declared0 h b Hb). auto.
    + intros q. rewrite <-(overlay_ext _ _ _ _ _ Hρ). unfold cs_view. rewrite overlay_overlay, <-insert_union_singleton_l.
      destruct q; cbn; by rewrite ?(left_id_L ∅ _).
  - destruct (is_declared ρ class_hash); [|done]. injection Hop as <- <-. solve_write.
  - injection Hop as <- <-. split; [done|]. split; [by destruct Hok|done].
  - done.
Qed.

(** The operations keep the state coherent. *)
Lemma spec_op_coherent op ρ r ρ' : coherent ρ → spec_op op ρ = Some (r, ρ') → coherent ρ'.
Proof.
  intros Hco. destruct op; cbn [spec_op]; intros Hop; try (by injection Hop as <- <-).
  - injection Hop as Hop. destruct (ρ (GetNonceAt contract_address)); injection Hop as <- <-; [|done].
    intros h h'. cbn. rewrite lookup_empty. apply Hco.
  - injection Hop as Hop. destruct (decide _); injection Hop as <- <-; [done|]. intros h h'. cbn. rewrite lookup_empty. apply Hco.
  - injection Hop as <- <-. intros h h'. cbn. rewrite lookup_empty. cbn. destruct (_ !! h); [done|]. apply Hco.
  - unfold is_declared in Hop. destruct (ρ (GetCompiledClass class_hash)) as [c|] eqn:Hc; [|done]. injection Hop as <- <-.
    intros h h'. cbn. rewrite lookup_empty. cbn. intros Hh.
    assert (class_hash ≠ h) by (intros ->; rewrite Hc in Hh; discriminate Hh). rewrite lookup_insert_ne by done. by apply Hco.
  - done.
Qed.

Lemma spec_program_coherent {A} (p : Program A) ρ a ρ' : coherent ρ → spec_program p ρ = Some (a, ρ') → coherent ρ'.
Proof.
  revert ρ ρ' a. induction p as [A a|A op k IH|A B child IHc commits k IHk]; intros ρ ρ' x Hco; cbn.
  - by intros [= _ <-].
  - destruct (spec_op op ρ) as [[r ρ1]|] eqn:Hop; [|done]. cbn. apply IH. by eapply spec_op_coherent.
  - destruct (spec_program child ρ) as [[b ρ1]|] eqn:Hc; [|done]. cbn. apply IHk. destruct (commits b); [by eapply IHc|done].
Qed.

(** ** Programs *)

Lemma run_method_spec {A B} (m : CS RunnableCompiledClass A) (k : StateResult A → Run RunnableCompiledClass B) σ self r :
  (run_reads (m self) σ).1 = from_state_result r →
  run_reads (run_method m k self) σ = run_reads (k r (run_reads (m self) σ).2) σ.
Proof.
  unfold run_method. rewrite run_reads_bind. destruct (run_reads (m self) σ) as [r0 self']. cbn. intros ->. by destruct r.
Qed.

(** The queries of a child are answered as the state that it stands on. *)
Lemma answer_queries_spec {A} (m : Reads RunnableCompiledClass A) σ self ρ :
  coherent σ → cs_ok σ self → (∀ q, cs_view σ self q = ρ q) →
  ∃ self', run_reads (answer_queries m self) σ = (Some (run_reads m ρ), self') ∧ cs_ok σ self' ∧
    ∀ q, cs_view σ self' q = ρ q.
Proof.
  intros Hco. revert self. induction m as [a|q k IH]; intros self Hok Hρ; cbn [answer_queries]; [by exists self|].
  destruct (cached_query_view σ q self Hco Hok) as (H1&H2&H3).
  rewrite (run_method_spec _ _ _ _ _ H1). cbn [run_reads]. rewrite <-Hρ. apply IH; [done|]. intros q'. by rewrite H3.
Qed.

Lemma cs_for_visited σ self (entries : list (N * gset N)) :
  ∃ pcs, run_reads (cs_for (λ entry, add_visited_pcs entry.1 entry.2) entries self) σ =
    (Ok tt, {| cache := self.(cache); class_hash_to_class := self.(class_hash_to_class); visited_pcs := pcs |}).
Proof.
  revert self. induction entries as [|e entries IH]; intros self; [exists self.(visited_pcs); by destruct self|].
  cbn [cs_for]. rewrite run_cs_bind. cbn. apply (IH (set_visited_pcs _ self)).
Qed.

(** Writes that come with the classes they declare. *)
Lemma apply_writes_spec σ self w cl pcs :
  cs_ok σ self → (∀ h b, w.(declared_contracts) !! h = Some b → b = true ∧ is_Some (cl !! h)) →
  ∃ self', run_reads (apply_writes w cl pcs self) σ = (Ok tt, self') ∧ cs_ok σ self' ∧
    ∀ q, cs_view σ self' q = overlay w cl (cs_view σ self) q.
Proof.
  intros Hok Hd. unfold apply_writes. rewrite run_cs_bind. unfold update_cache. rewrite decide_True; cycle 1.
  { intros h b Hb. destruct (Hd h b Hb) as [-> Hs]. symmetry. by apply bool_decide_eq_true. }
  rewrite run_cs_bind. cbn -[cs_for]. unfold update_visited_pcs_cache.
  match goal with |- context [cs_for _ _ ?s] => destruct (cs_for_visited σ s (hash_iter pcs)) as [pcs' ->] end.
  eexists. split; [done|]. split.
  - destruct Hok. split; cbn; try done. intros h b. rewrite lookup_union_Some_raw, lookup_union_is_Some.
    intros [[-> ?]%Hd|[_ [-> ?]%ok_declared0]]; auto.
  - intros q. unfold cs_view. by rewrite overlay_overlay.
Qed.

(** Committing a child makes its writes those of the state below. *)
Lemma commit_spec σ self child :
  cs_ok σ self → cs_ok (cs_view σ self) child →
  ∃ self', run_reads (commit child self) σ = (Ok tt, self') ∧ cs_ok σ self' ∧
    ∀ q, cs_view σ self' q = cs_view (cs_view σ self) child q.
Proof. intros Hok [_ _ _ _ Hd]. by apply apply_writes_spec. Qed.

Lemma cs_ok_ext σ σ' self : (∀ q, σ q = σ' q) → cs_ok σ self → cs_ok σ' self.
Proof. intros Heq []. split; intros *; rewrite <-?Heq; eauto. Qed.

Lemma run_program_spec {A} (p : Program A) σ self ρ a ρ' :
  coherent σ → coherent ρ → cs_ok σ self → (∀ q, cs_view σ self q = ρ q) → spec_program p ρ = Some (a, ρ') →
  ∃ self', run_reads (run_program p self) σ = (Some a, self') ∧ cs_ok σ self' ∧ ∀ q, cs_view σ self' q = ρ' q.
Proof.
  revert σ self ρ ρ' a. induction p as [A x|A op k IH|A B child IHc commits k IHk]; intros σ self ρ ρ' a Hco Hcoρ Hok Hρ;
    cbn [spec_program run_program].
  - intros [= <- <-]. by exists self.
  - destruct (spec_op op ρ) as [[r ρ1]|] eqn:Hop; [|done]. cbn. intros Hk.
    destruct (run_op_spec σ self op ρ r ρ1 Hco Hok Hρ Hop) as (H1&H2&H3).
    rewrite (run_method_spec _ _ _ _ _ H1). eapply IH; [done|by eapply spec_op_coherent|done..].
  - destruct (spec_program child ρ) as [[b ρ1]|] eqn:Hchild; [|done]. cbn. intros Hk. rewrite run_reads_bind.
    destruct (IHc ρ CachedState_new ρ ρ1 b Hcoρ Hcoρ (cs_ok_new ρ) (cs_view_new ρ) Hchild) as (child'&Hrun&Hok1&Hv1).
    destruct (answer_queries_spec (run_program child CachedState_new) σ self ρ Hco Hok Hρ) as (self1&Hans&Hok2&Hv2).
    rewrite Hans, Hrun. destruct (commits b); [|by eapply IHk].
    destruct (commit_spec σ self1 child' Hok2) as (self2&Hcommit&Hok3&Hv3).
    { eapply cs_ok_ext; [|done]. intros q. by rewrite Hv2. }
    rewrite (run_method_spec _ _ _ _ (SOk tt)) by (by rewrite Hcommit). rewrite Hcommit. cbn.
    eapply IHk; [done|by eapply spec_program_coherent|done| |done].
    intros q. rewrite Hv3, <-Hv1. by apply overlay_ext.
Qed.

(** C12: a cached state, with transactional states on top of it however deep, behaves as one state
    that is read and written in place. Code that keeps to the contract ends with the value that
    it has on that state, it does not panic, and the cached state then answers every query as
    that state: what a committed child wrote is there, nothing of an aborted child is, and the
    values that were cached on the way never show. *)
Theorem cached_state_refines {A} (p : Program A) σ a ρ :
  coherent σ → spec_program p σ = Some (a, ρ) →
  ∃ self, run_reads (run_program p CachedState_new) σ = (Some a, self) ∧ ∀ q, cs_view σ self q = ρ q.
Proof.
  intros Hco Hp. destruct (run_program_spec p σ CachedState_new σ a ρ Hco Hco (cs_ok_new σ) (cs_view_new σ) Hp)
    as (self&Hrun&_&Hv). by exists self.
Qed.

(** ** The changes of a state *)

Section diff.
Context (σ : View).
Hypothesis Hcells : ∀ a k, ∃ v, σ (GetStorageAt a k) = SOk v.

(** The body of the loop: a cell that was not read is. *)
Definition fill_initial (key : N * N) : CS RunnableCompiledClass unit :=
  with_self (λ self,
    match self.(cache).(initial_reads).(storage) !! key with
    | Some _ => mret tt
    | None => value ← query (GetStorageAt key.1 key.2); on_cache (set_initial_reads (set_storage (insert key value)))
    end).

Definition with_storage_reads s self : CachedState := set_cache (set_initial_reads (set_storage (λ _, s))) self.

Lemma fill_initial_run key self :
  cs_ok σ self →
  ∃ s, run_reads (fill_initial key self) σ = (Ok tt, with_storage_reads s self) ∧ cs_ok σ (with_storage_reads s self) ∧
    self.(cache).(initial_reads).(storage) ⊆ s ∧ key ∈ dom s.
Proof.
  intros Hok. unfold fill_initial, with_self. destruct (storage (initial_reads (cache self)) !! key) as [v|] eqn:Hget.
  - exists self.(cache).(initial_reads).(storage).
    assert (with_storage_reads (storage (initial_reads (cache self))) self = self) as -> by (by destruct self as [[[]]]).
    split; [done|]. split; [done|]. split; [done|]. apply elem_of_dom. by exists v.
  - destruct key as [a k], (Hcells a k) as [v Hv]. exists (<[(a, k) := v]> self.(cache).(initial_reads).(storage)).
    rewrite run_cs_bind, run_query. cbn. rewrite Hv. cbn. split; [done|]. split; [|split; [by apply insert_subseteq|set_solver]].
    destruct Hok. split; cbn; try done. intros a' k' v'. rewrite lookup_insert_Some. naive_solver.
Qed.

(** The values that writes replaced are read as far as they were not. *)
Lemma update_initial_values_spec self :
  cs_ok σ self →
  ∃ s, run_reads (update_initial_values_of_write_only_access self) σ = (Ok tt, with_storage_reads s self) ∧
    cs_ok σ (with_storage_reads s self) ∧ dom self.(cache).(writes).(storage) ⊆ dom s.
Proof.
  intros Hok. change (update_initial_values_of_write_only_access self)
    with (cs_for fill_initial (hash_keys self.(cache).(writes).(storage)) self).
  assert (∀ keys self, cs_ok σ self → ∃ s, run_reads (cs_for fill_initial keys self) σ = (Ok tt, with_storage_reads s self) ∧
    cs_ok σ (with_storage_reads s self) ∧ self.(cache).(initial_reads).(storage) ⊆ s ∧ ∀ k, k ∈ keys → k ∈ dom s) as Hloop.
  { clear self Hok. induction keys as [|key keys IH]; intros self Hok; cbn [cs_for].
    - exists self.(cache).(initial_reads).(storage). destruct self as [[[]]]. split; [done|]. split; [done|]. split; [done|].
      intros k Hk. by apply elem_of_nil in Hk.
    - destruct (fill_initial_run key self Hok) as (s1&Hrun1&Hok1&Hsub1&Hk1). rewrite run_cs_bind, Hrun1.
      destruct (IH _ Hok1) as (s&Hrun&Hok'&Hsub&Hs). exists s. split; [exact Hrun|]. split; [exact Hok'|]. cbn in Hsub.
      split; [by etrans|]. intros k [->|Hk]%elem_of_cons; [|by apply Hs]. by eapply subseteq_dom. }
  destruct (Hloop (hash_keys self.(cache).(writes).(storage)) self Hok) as (s&Hrun&Hok'&_&Hs).
  exists s. split; [done|]. split; [done|]. intros k Hk. by apply Hs, elem_of_hash_keys, elem_of_dom.
Qed.

Lemma subtract_exact {K} `{Countable K} (w R : gmap K N) k v (r : StateResult N) :
  dom w ⊆ dom R → (∀ x, R !! k = Some x → r = SOk x) →
  subtract_mappings w R !! k = Some v ↔ from_option SOk r (w !! k) = SOk v ∧ r ≠ SOk v.
Proof.
  intros Hdom Hr. rewrite lookup_subtract. destruct (w !! k) as [x|] eqn:Hw; cbn.
  - assert (k ∈ dom R) as [y Hy]%elem_of_dom by (apply Hdom, elem_of_dom; eauto). rewrite Hy, (Hr y Hy). naive_solver.
  - naive_solver.
Qed.

Lemma strict_subtract_total {K} `{Countable K} (w R : gmap K N) :
  dom w ⊆ dom R → strict_subtract_mappings w R = Some (subtract_mappings w R).
Proof. intros Hd. unfold strict_subtract_mappings. by rewrite decide_True. Qed.

Lemma subtract_subseteq {K V} `{Countable K} `{EqDecision V} (m m' : gmap K V) : subtract_mappings m m' ⊆ m.
Proof. apply map_subseteq_spec. intros k v. rewrite lookup_subtract. naive_solver. Qed.

(** The diff does not fail when the nonces, class hashes and compiled class hashes that were
    written had been read. *)
Lemma to_state_diff_run self :
  let R := self.(cache).(initial_reads) in let W := self.(cache).(writes) in
  cs_ok σ self → dom W.(nonces) ⊆ dom R.(nonces) → dom W.(class_hashes) ⊆ dom R.(class_hashes) →
  dom W.(compiled_class_hashes) ⊆ dom R.(compiled_class_hashes) →
  ∃ s changes, run_reads (to_state_diff self) σ = (Ok changes, with_storage_reads s self) ∧
    cs_ok σ (with_storage_reads s self) ∧ dom W.(storage) ⊆ dom s ∧
    changes.(state_maps) =
      {| nonces := subtract_mappings W.(nonces) R.(nonces); class_hashes := subtract_mappings W.(class_hashes) R.(class_hashes);
         storage := subtract_mappings W.(storage) s;
         compiled_class_hashes := subtract_mappings W.(compiled_class_hashes) R.(compiled_class_hashes);
         declared_contracts := subtract_mappings W.(declared_contracts) R.(declared_contracts) |}.
Proof.
  intros R W Hok Hn Hc Hcc. destruct (update_initial_values_spec self Hok) as (s&Hrun&Hok'&Hs).
  unfold to_state_diff. rewrite run_cs_bind, Hrun. unfold with_self, cache_to_state_diff, StateMaps_diff. cbn -[cs_view].
  rewrite !strict_subtract_total by done. cbn -[cs_view]. by do 2 eexists.
Qed.

(** C23: the state diff is exact. It lists a cell with a value just when the state now answers with
    that value and the state below does not: cells written back to what they were are left out,
    those that were written without being read are looked up. It does not fail when the nonces,
    class hashes and compiled class hashes that were written had been read. *)
Theorem to_state_diff_exact self :
  let R := self.(cache).(initial_reads) in let W := self.(cache).(writes) in
  cs_ok σ self → dom W.(nonces) ⊆ dom R.(nonces) → dom W.(class_hashes) ⊆ dom R.(class_hashes) →
  dom W.(compiled_class_hashes) ⊆ dom R.(compiled_class_hashes) →
  ∃ changes self', run_reads (to_state_diff self) σ = (Ok changes, self') ∧ (∀ q, cs_view σ self' q = cs_view σ self q) ∧
    let d := changes.(state_maps) in
    (∀ a k v, d.(storage) !! (a, k) = Some v ↔
       cs_view σ self (GetStorageAt a k) = SOk v ∧ σ (GetStorageAt a k) ≠ SOk v) ∧
    (∀ a v, d.(nonces) !! a = Some v ↔ cs_view σ self (GetNonceAt a) = SOk v ∧ σ (GetNonceAt a) ≠ SOk v) ∧
    (∀ a v, d.(class_hashes) !! a = Some v ↔ cs_view σ self (GetClassHashAt a) = SOk v ∧ σ (GetClassHashAt a) ≠ SOk v) ∧
    (∀ h v, d.(compiled_class_hashes) !! h = Some v ↔
       cs_view σ self (GetCompiledClassHash h) = SOk v ∧ σ (GetCompiledClassHash h) ≠ SOk v).
Proof.
  intros R W Hok Hn Hc Hcc. destruct (to_state_diff_run self Hok Hn Hc Hcc) as (s&changes&Hrun&[K1 K2 K3 K4 _]&Hs&Hd).
  exists changes, (with_storage_reads s self). split; [done|]. split; [done|]. rewrite Hd. cbn. split_and!.
  - intros a k v. apply subtract_exact; [done|]. intros x. apply K1.
  - intros a v. apply subtract_exact; [done|]. intros x. apply K2.
  - intros a v. apply subtract_exact; [done|]. intros x. apply K3.
  - intros h v. apply subtract_exact; [done|]. intros x. apply K4.
Qed.
End diff.
End spec.

Lemma program_writes_ok `{HashOrder} {RunnableCompiledClass A : Type} (class_of : N → RunnableCompiledClass) (declares : Prop)
    (p : Program RunnableCompiledClass A) (σ : View RunnableCompiledClass) :
  declares_well class_of declares p → (∀ q, valid_answer class_of q (σ q)) →
  writes_ok class_of declares (run_reads (run_program p CachedState_new) σ).2.
Proof.
  intros Hp Hσ. destruct (run_ends_with (run_program p CachedState_new) σ) as (tr&Hend&Htr).
  destruct (run_reads (run_program p CachedState_new) σ) as [o self]. eapply ri_writes, program_run_inv; [done..|].
  intros q r Hin. rewrite <-(Htr q r Hin). apply Hσ.
Qed.

(** C24: whatever code runs on a cached state, with transactional states that are committed or
    aborted, the state stays well formed when the code declares classes under their own hashes:
    a class hash that is kept stands for its class, a contract that is marked as declared is
    marked with [true] and its class is kept, and compiled class hashes are written only by code
    that declares. *)
Theorem run_well_formed `{HashOrder} {RunnableCompiledClass A : Type} (class_of : N → RunnableCompiledClass) (declares : Prop)
    (p : Program RunnableCompiledClass A) (σ : View RunnableCompiledClass) :
  declares_well class_of declares p → (∀ q, valid_answer class_of q (σ q)) →
  writes_ok class_of declares (run_reads (run_program p CachedState_new) σ).2.
Proof. apply program_writes_ok. Qed.

(** ** An example *)

Module Example.
#[local] Existing Instance canonical_order.

(** A state where every cell is zero and no class is declared. *)
Definition zero : View N := λ q,
  match q with GetCompiledClass h => SErr (UndeclaredClassHash h) | GetStorageAt _ _ | GetNonceAt _ | GetClassHashAt _ | GetCompiledClassHash _ => SOk 0 end.

Lemma zero_coherent : coherent zero.
Proof. by intros h h' [= ->]. Qed.

(** A cell is written, overwritten in a child that is aborted, and read; a nonce is incremented
    in a child that is committed. *)
Definition code : Program N (option N) :=
  Do (SetStorageAt 1 2 7) (λ _,
  Transactional (Do (SetStorageAt 1 2 8) (λ _, Finish tt)) (λ _, false) (λ _,
  Transactional (Do (IncrementNonce 4) (λ _, Finish tt)) (λ _, true) (λ _,
  Do (Read (GetStorageAt 1 2)) (λ r, Finish (match r with SOk v => @Some N v | SErr _ => @None N end))))).

Lemma cached_state_refines_witness :
  ∃ self, run_reads (run_program code CachedState_new) zero = (Some (Some 7), self) ∧
    cs_view zero self (GetNonceAt 4) = SOk 1 ∧ cs_view zero self (GetStorageAt 1 2) = SOk 7.
Proof.
  destruct (cached_state_refines code zero (Some 7) _ zero_coherent eq_refl) as (self&Hrun&Hv).
  exists self. split; [exact Hrun|]. rewrite !Hv. done.
Defined.

(** A state that wrote a cell, wrote another one back to its value, and incremented a nonce. *)
Definition written : CachedState N :=
  {| cache := {| initial_reads := set_nonces (insert 4 0) StateMaps_default;
                 writes := set_nonces (insert 4 1) (set_storage (λ _, {[(1, 2) := 7; (1, 3) := 0]}) StateMaps_default) |};
     class_hash_to_class := ∅; visited_pcs := ∅ |}.

Lemma to_state_diff_exact_witness :
  ∃ changes self', run_reads (to_state_diff written) zero = (Ok changes, self') ∧
    changes.(state_maps).(storage) !! (1, 2) = Some 7 ∧ changes.(state_maps).(nonces) !! 4 = Some 1.
Proof.
  destruct (to_state_diff_exact zero (λ a k, ex_intro _ 0 eq_refl) written) as (changes&self'&Hrun&_&Hs&Hn&_).
  - split; cbn; intros *; try (by rewrite lookup_empty). intros [[<- <-]|[_ Hv]]%lookup_insert_Some; [done|].
    by rewrite lookup_empty in Hv.
  - done.
  - done.
  - done.
  - exists changes, self'. split; [exact Hrun|]. split; [by apply Hs|by apply Hn].
Defined.

(** Code that declares a class unless it is there, in a child that is committed. *)
Definition declaring_code : Program N unit :=
  Transactional
    (Do (Read (GetCompiledClass 9)) (λ r,
     match r with
     | SErr _ => Do (SetContractClass 9 9) (λ _, Do (SetCompiledClassHash 9 3) (λ _, Finish tt))
     | SOk _ => Finish tt
     end)) (λ _, true) Finish.

Lemma run_well_formed_witness :
  writes_ok (λ h, h) True (run_reads (run_program declaring_code CachedState_new) zero).2.
Proof.
  apply run_well_formed.
  - split; [|done]. split; [done|]. intros [c|e]; [done|]. by split_and!.
  - intros []; cbn; eauto.
Defined.
End Example.
