(* ===== verification/StatefulCompression.v ===== *)
(** Aliases for contract addresses and storage keys:
    [crates/blockifier/src/state/stateful_compression.rs].

    The state diff of a block is published with short aliases in place of long addresses and
    keys. The aliases are kept in the storage of a contract of their own, with a counter under
    the key zero. *)
From S2P Require Import Prelude StarknetApi StateApi CachedState CachedStateProofs VersionedState VersionedProofs.
From S2P Require Import CachedStateSpec.

(** ** Allocation of aliases *)

Definition INITIAL_AVAILABLE_ALIAS : N := 128.
Definition ALIAS_COUNTER_STORAGE_KEY : N := 0.
Definition MAX_NON_COMPRESSED_CONTRACT_ADDRESS : N := 15.
Definition MIN_VALUE_FOR_ALIAS_ALLOC : N := INITIAL_AVAILABLE_ALIAS.

Inductive CompressionError :=
| MissedAlias (key : N)
| CompressionStateError (e : StateError)
| CompressionStarknetApiError.

Record AliasUpdater := {
  new_aliases : gmap N N;
  next_free_alias : option N;
}.

Section compression.
Context `{HashOrder} {RunnableCompiledClass : Type}.
Abbreviation CS := (CS RunnableCompiledClass).
Abbreviation CachedState := (CachedState RunnableCompiledClass).
Context (alias_contract_address : N).

Definition AliasUpdater_new : CS AliasUpdater :=
  stored_counter ← get_storage_at alias_contract_address ALIAS_COUNTER_STORAGE_KEY;
  mret {| new_aliases := ∅; next_free_alias := if decide (stored_counter = 0) then None else Some stored_counter |}.

Definition allocate_alias (alias_key : N) (self : AliasUpdater) : AliasUpdater :=
  let alias_to_allocate := default INITIAL_AVAILABLE_ALIAS self.(next_free_alias) in
  {| new_aliases := <[alias_key := alias_to_allocate]> self.(new_aliases);
     next_free_alias := Some (felt_add alias_to_allocate 1) |}.

Definition insert_alias (alias_key : N) (self : AliasUpdater) : CS AliasUpdater :=
  if decide (MIN_VALUE_FOR_ALIAS_ALLOC ≤ alias_key) then
    stored ← get_storage_at alias_contract_address alias_key;
    mret (if decide (stored = 0 ∧ alias_key ∉ dom self.(new_aliases)) then allocate_alias alias_key self else self)
  else mret self.

Definition finalize_updates (self : AliasUpdater) : gmap (N * N) N :=
  let new_aliases :=
    match self.(next_free_alias) with
    | None => <[ALIAS_COUNTER_STORAGE_KEY := INITIAL_AVAILABLE_ALIAS]> self.(new_aliases)
    | Some alias =>
        if decide (self.(new_aliases) = ∅) then self.(new_aliases)
        else <[ALIAS_COUNTER_STORAGE_KEY := alias]> self.(new_aliases)
    end in
  kmap (pair alias_contract_address) new_aliases.

(** The storage keys of a contract that need aliases, in ascending order. *)
Definition sorted_storage_keys (state_diff : StateMaps) (contract_address : N) : list N :=
  if decide (MAX_NON_COMPRESSED_CONTRACT_ADDRESS < contract_address) then
    merge_sort N.le (snd <$> filter (λ key, key.1 = contract_address) (hash_keys state_diff.(storage)))
  else [].

Fixpoint insert_aliases (alias_keys : list N) (self : AliasUpdater) : CS AliasUpdater :=
  match alias_keys with
  | [] => mret self
  | key :: alias_keys => self ← insert_alias key self; insert_aliases alias_keys self
  end.

(** The loop over the addresses in ascending order, the body for each: its keys, then itself. *)
Fixpoint insert_contracts (state_diff : StateMaps) (contract_addresses : list N) (self : AliasUpdater)
    : CS AliasUpdater :=
  match contract_addresses with
  | [] => mret self
  | contract_address :: contract_addresses =>
      self ← insert_aliases (sorted_storage_keys state_diff contract_address) self;
      self ← insert_alias contract_address self;
      insert_contracts state_diff contract_addresses self
  end.

Definition state_diff_with_alias_allocation : CS StateMaps :=
  changes ← to_state_diff;
  let state_diff := changes.(state_maps) in
  let contract_addresses := merge_sort N.le (elements (get_contract_addresses state_diff)) in
  alias_updater ← AliasUpdater_new;
  alias_updater ← insert_contracts state_diff contract_addresses alias_updater;
  let alias_storage_updates := finalize_updates alias_updater in
  mret (set_storage (λ storage, alias_storage_updates ∪ storage) state_diff).

(** ** Compression *)

Abbreviation Tries := (Tries RunnableCompiledClass CompressionError).

Definition get_alias (alias_key : N) : Tries N :=
  Ask (GetStorageAt alias_contract_address alias_key) (λ alias,
    tries match alias with
          | SErr e => Err (CompressionStateError e)
          | SOk alias => if decide (alias = 0) then Err (MissedAlias alias_key) else Ok alias
          end).

(** [PatriciaKey::try_from] of a field element. *)
Definition PatriciaKey_try_from (value : N) : result CompressionError N :=
  if decide (value < 2 ^ 251) then Ok value else Err CompressionStarknetApiError.

Definition compress_address (contract_address : N) : Tries N :=
  if decide (MIN_VALUE_FOR_ALIAS_ALLOC ≤ contract_address)
  then alias ← get_alias contract_address; tries (PatriciaKey_try_from alias)
  else mret contract_address.

Definition compress_storage_key (storage_key contract_address : N) : Tries N :=
  if decide (MIN_VALUE_FOR_ALIAS_ALLOC ≤ storage_key ∧ MAX_NON_COMPRESSED_CONTRACT_ADDRESS < contract_address)
  then alias ← get_alias storage_key; tries (PatriciaKey_try_from alias)
  else mret storage_key.

Definition compress_entry (entry : N * N) : Tries (N * N) :=
  address ← compress_address entry.1;
  key ← compress_storage_key entry.2 entry.1;
  mret (address, key).

(** [iter().map(..).collect::<Result<HashMap<_, _>, _>>()] with [f] on the keys. *)
Fixpoint collect_keys {K} `{Countable K} (f : K → Tries K) (entries : list (K * N)) (collected : gmap K N)
    : Tries (gmap K N) :=
  match entries with
  | [] => mret collected
  | (key, value) :: entries => key ← f key; collect_keys f entries (<[key := value]> collected)
  end.

Definition compress (state_diff : StateMaps) : Tries StateMaps :=
  nonces ← collect_keys compress_address (hash_iter state_diff.(nonces)) ∅;
  class_hashes ← collect_keys compress_address (hash_iter state_diff.(class_hashes)) ∅;
  storage ← collect_keys compress_entry (hash_iter state_diff.(storage)) ∅;
  mret {| nonces := nonces; class_hashes := class_hashes; storage := storage;
          compiled_class_hashes := state_diff.(compiled_class_hashes);
          declared_contracts := state_diff.(declared_contracts) |}.

(** ** Aliases of a state *)

Abbreviation View := (View RunnableCompiledClass).
Implicit Types (σ ρ : View) (self : CachedState) (k a : N) (u : AliasUpdater) (d : StateMaps).

Definition stored_alias ρ k : N :=
  match ρ (GetStorageAt alias_contract_address k) with SOk a => a | SErr _ => 0 end.

(** The aliases that are in use are below the counter and distinct. *)
Record aliases_ok ρ (counter : N) : Prop := {
  al_counter : stored_alias ρ ALIAS_COUNTER_STORAGE_KEY = counter;
  al_start : counter = 0 ∨ INITIAL_AVAILABLE_ALIAS ≤ counter;
  al_bounds k : MIN_VALUE_FOR_ALIAS_ALLOC ≤ k → stored_alias ρ k ≠ 0 → INITIAL_AVAILABLE_ALIAS ≤ stored_alias ρ k < counter;
  al_distinct k k' : MIN_VALUE_FOR_ALIAS_ALLOC ≤ k → MIN_VALUE_FOR_ALIAS_ALLOC ≤ k' → stored_alias ρ k ≠ 0 →
    stored_alias ρ k = stored_alias ρ k' → k = k';
}.

Definition first_free (counter : N) : N := if decide (counter = 0) then INITIAL_AVAILABLE_ALIAS else counter.

(** What a key is replaced by. *)
Definition alias_of ρ k : N :=
  if decide (MIN_VALUE_FOR_ALIAS_ALLOC ≤ k) then stored_alias ρ k else k.

Definition entry_alias ρ (entry : N * N) : N * N :=
  (alias_of ρ entry.1,
   if decide (MAX_NON_COMPRESSED_CONTRACT_ADDRESS < entry.1) then alias_of ρ entry.2 else entry.2).

(** The keys of a state diff that need an alias. *)
Definition needs_alias d k : Prop :=
  k ∈ get_contract_addresses d ∨ ∃ a, MAX_NON_COMPRESSED_CONTRACT_ADDRESS < a ∧ (a, k) ∈ dom d.(storage).

(** ** The updater on a state that does not change *)

Definition insert_alias_in ρ u k : AliasUpdater :=
  if decide (MIN_VALUE_FOR_ALIAS_ALLOC ≤ k ∧ stored_alias ρ k = 0 ∧ k ∉ dom u.(new_aliases))
  then allocate_alias k u else u.

(** The keys in the order they are inserted. *)
Definition keys_of_contract d a : list N := sorted_storage_keys d a ++ [a].
Definition alias_keys d : list N :=
  merge_sort N.le (elements (get_contract_addresses d)) ≫= keys_of_contract d.

Section on_view.
Context (ρ : View) (counter : N).
Hypothesis Hok : aliases_ok ρ counter.

(** The new aliases are those from the first free one on. *)
Record updater_ok u : Prop := {
  uo_next : default (first_free counter) u.(next_free_alias) = first_free counter + N.of_nat (size u.(new_aliases));
  uo_none : u.(next_free_alias) = None ↔ counter = 0 ∧ u.(new_aliases) = ∅;
  uo_new k a : u.(new_aliases) !! k = Some a →
    MIN_VALUE_FOR_ALIAS_ALLOC ≤ k ∧ stored_alias ρ k = 0 ∧
    first_free counter ≤ a < first_free counter + N.of_nat (size u.(new_aliases));
  uo_distinct k k' a : u.(new_aliases) !! k = Some a → u.(new_aliases) !! k' = Some a → k = k';
}.

Definition updater_start : AliasUpdater :=
  {| new_aliases := ∅; next_free_alias := if decide (counter = 0) then None else Some counter |}.

Lemma updater_start_ok : updater_ok updater_start.
Proof.
  split; cbn.
  - rewrite map_size_empty. case_decide; cbn; [lia|]. unfold first_free. rewrite decide_False by done. lia.
  - case_decide; naive_solver.
  - intros k a. by rewrite lookup_empty.
  - intros k k' a. by rewrite lookup_empty.
Qed.

Lemma updater_next u : updater_ok u → default INITIAL_AVAILABLE_ALIAS u.(next_free_alias) = first_free counter + N.of_nat (size u.(new_aliases)).
Proof.
  intros Hu. rewrite <-(uo_next _ Hu). destruct (next_free_alias u) eqn:Hn; [done|]. cbn.
  apply (uo_none _ Hu) in Hn as [-> _]. done.
Qed.

Lemma insert_alias_in_ok u k :
  updater_ok u → first_free counter + N.of_nat (size u.(new_aliases)) < 2 ^ 251 → updater_ok (insert_alias_in ρ u k).
Proof.
  intros Hu Hroom. unfold insert_alias_in. case_decide as Hk; [|done]. destruct Hk as (Hmin&Hz&Hnew%not_elem_of_dom).
  pose proof (updater_next u Hu) as Hnext. assert (size (<[k := first_free counter]> (new_aliases u)) = Datatypes.S (size (new_aliases u))) as Hsize.
  { by apply map_size_insert_None. }
  rewrite map_size_insert, Hnew in Hsize. cbn in Hsize.
  unfold allocate_alias. rewrite Hnext. split; cbn; rewrite ?map_size_insert, ?Hnew; cbn.
  - unfold felt_add. rewrite N.mod_small; [lia|]. unfold felt_prime. lia.
  - split; [done|]. by intros [_ []%insert_non_empty].
  - intros k' a [[<- <-]|[_ Ha]]%lookup_insert_Some; [split_and!; [done..|lia|lia]|].
    destruct (uo_new _ Hu _ _ Ha) as (?&?&?). split_and!; [done..|lia|lia].
  - intros k1 k2 a [[<- <-]|[H1 Ha1]]%lookup_insert_Some [[<- Ha2]|[H2 Ha2]]%lookup_insert_Some; [done|..].
    + apply (uo_new _ Hu) in Ha2. lia.
    + subst a. apply (uo_new _ Hu) in Ha1. lia.
    + by eapply uo_distinct.
Qed.

Lemma insert_alias_in_dom u k : dom u.(new_aliases) ⊆ dom (insert_alias_in ρ u k).(new_aliases) ⊆ {[k]} ∪ dom u.(new_aliases).
Proof. unfold insert_alias_in. case_decide; cbn; set_solver. Qed.

Lemma insert_alias_in_covers u k :
  MIN_VALUE_FOR_ALIAS_ALLOC ≤ k → stored_alias ρ k = 0 → k ∈ dom (insert_alias_in ρ u k).(new_aliases).
Proof. intros Hk Hz. unfold insert_alias_in. case_decide as Hd; cbn; [set_solver|]. apply dec_stable. tauto. Qed.

Lemma insert_all_ok X ks u :
  updater_ok u → dom u.(new_aliases) ⊆ X → list_to_set ks ⊆ X → first_free counter + N.of_nat (size X) ≤ 2 ^ 251 →
  let u' := foldl (insert_alias_in ρ) u ks in
  updater_ok u' ∧ dom u.(new_aliases) ⊆ dom u'.(new_aliases) ⊆ X ∧
  ∀ k, k ∈ ks → MIN_VALUE_FOR_ALIAS_ALLOC ≤ k → stored_alias ρ k = 0 → k ∈ dom u'.(new_aliases).
Proof.
  intros Hu HX Hks Hroom. revert u Hu HX. induction ks as [|k ks IH]; intros u Hu HX; cbn -[N.add].
  - split; [done|]. split; [done|]. intros k Hk. by apply elem_of_nil in Hk.
  - assert (updater_ok (insert_alias_in ρ u k)) as Hu'.
    { destruct (decide (k ∈ dom (new_aliases u))) as [Hin|Hnew].
      - unfold insert_alias_in. rewrite decide_False; [done|tauto].
      - apply insert_alias_in_ok; [done|].
        assert ({[k]} ∪ dom (new_aliases u) ⊆ X) as Hsub%subseteq_size by set_solver.
        rewrite size_union, size_singleton, size_dom in Hsub by set_solver. lia. }
    pose proof (insert_alias_in_dom u k) as [Hd1 Hd2].
    destruct (IH ltac:(set_solver) (insert_alias_in ρ u k) Hu' ltac:(set_solver)) as (Hok'&[Hs1 Hs2]&Hcov).
    split; [done|]. split; [set_solver|]. intros k' [->|Hk']%elem_of_cons Hmin Hz; [|by apply Hcov].
    apply Hs1. by apply insert_alias_in_covers.
Qed.

Lemma finalize_alias u k : MIN_VALUE_FOR_ALIAS_ALLOC ≤ k → finalize_updates u !! (alias_contract_address, k) = u.(new_aliases) !! k.
Proof.
  unfold MIN_VALUE_FOR_ALIAS_ALLOC, INITIAL_AVAILABLE_ALIAS. intros Hk. unfold finalize_updates. rewrite lookup_kmap by apply _.
  destruct (next_free_alias u); [case_decide; [done|]|]; apply lookup_insert_ne; unfold ALIAS_COUNTER_STORAGE_KEY; lia.
Qed.

Lemma finalize_other u a k : a ≠ alias_contract_address → finalize_updates u !! (a, k) = None.
Proof. intros Ha. apply lookup_kmap_None; [apply _|]. intros k' [= -> _]. done. Qed.

Lemma finalize_counter u :
  updater_ok u → default counter (finalize_updates u !! (alias_contract_address, ALIAS_COUNTER_STORAGE_KEY)) =
    first_free counter + N.of_nat (size u.(new_aliases)).
Proof.
  intros Hu. rewrite <-(uo_next _ Hu). pose proof (uo_none _ Hu) as Hnone. unfold finalize_updates.
  rewrite lookup_kmap by apply _. destruct (next_free_alias u) as [n|] eqn:Hn; [case_decide as He|].
  - pose proof (uo_next _ Hu) as Hx. rewrite Hn, He, map_size_empty in Hx. rewrite He, lookup_empty. cbn in *.
    unfold first_free in Hx. case_decide as Hc; [|lia]. naive_solver.
  - by rewrite lookup_insert_eq.
  - rewrite lookup_insert_eq. destruct (proj1 Hnone eq_refl) as [-> _]. done.
Qed.

(** A state with the updates: its aliases are fine again, and every key that was inserted has one. *)
Context (ρ' : View) (u : AliasUpdater).
Hypothesis Hu : updater_ok u.
Hypothesis Hview : ∀ k, stored_alias ρ' k = default (stored_alias ρ k) (finalize_updates u !! (alias_contract_address, k)).

Lemma updated_alias k : MIN_VALUE_FOR_ALIAS_ALLOC ≤ k → stored_alias ρ' k = default (stored_alias ρ k) (u.(new_aliases) !! k).
Proof. intros Hk. by rewrite Hview, finalize_alias. Qed.

(** An alias of the updated state is an old one or a new one. *)
Lemma updated_alias_cases k :
  MIN_VALUE_FOR_ALIAS_ALLOC ≤ k → stored_alias ρ' k ≠ 0 →
  (stored_alias ρ' k = stored_alias ρ k ∧ INITIAL_AVAILABLE_ALIAS ≤ stored_alias ρ' k < first_free counter) ∨
  (u.(new_aliases) !! k = Some (stored_alias ρ' k) ∧ first_free counter ≤ stored_alias ρ' k).
Proof.
  intros Hk. rewrite updated_alias by done. destruct (new_aliases u !! k) as [a|] eqn:Ha; cbn; intros Hne.
  - right. split; [done|]. apply (uo_new _ Hu) in Ha. lia.
  - left. split; [done|]. pose proof (al_bounds _ _ Hok k Hk Hne). unfold first_free. case_decide; lia.
Qed.

Lemma first_free_initial : INITIAL_AVAILABLE_ALIAS ≤ first_free counter.
Proof. unfold first_free. case_decide; [done|]. by destruct (al_start _ _ Hok). Qed.

Lemma updated_aliases_ok : aliases_ok ρ' (first_free counter + N.of_nat (size u.(new_aliases))).
Proof.
  pose proof first_free_initial as Hinit. split.
  - rewrite Hview, (al_counter _ _ Hok). by apply finalize_counter.
  - right. lia.
  - intros k Hk Hne. destruct (updated_alias_cases k Hk Hne) as [[_ ?]|[Ha ?]]; [lia|]. apply (uo_new _ Hu) in Ha. lia.
  - intros k k' Hk Hk' Hne Heq. pose proof (updated_alias_cases k' Hk' ltac:(congruence)) as Hc'.
    destruct (updated_alias_cases k Hk Hne) as [[Ho ?]|[Ha ?]], Hc' as [[Ho' ?]|[Ha' ?]]; [|lia|lia|].
    + apply (al_distinct _ _ Hok); [done..| |]; congruence.
    + rewrite <-Heq in Ha'. by apply (uo_distinct _ Hu _ _ _ Ha Ha').
Qed.

(** A key that the updater covers has an alias. *)
Lemma updated_alias_covered k :
  MIN_VALUE_FOR_ALIAS_ALLOC ≤ k → (stored_alias ρ k = 0 → k ∈ dom u.(new_aliases)) → stored_alias ρ' k ≠ 0.
Proof.
  intros Hk Hcov. rewrite updated_alias by done. destruct (new_aliases u !! k) as [a|] eqn:Ha; cbn.
  - apply (uo_new _ Hu) in Ha. pose proof first_free_initial. unfold INITIAL_AVAILABLE_ALIAS in *. lia.
  - intros [v Hv]%Hcov%elem_of_dom. congruence.
Qed.
End on_view.

(** ** Compression of keys that have aliases *)

Section compressed.
Context (ρ : View) (counter : N).
Hypothesis Hok : aliases_ok ρ counter.
Hypothesis Hcounter : counter ≤ 2 ^ 251.
Hypothesis Hcells : ∀ k, ∃ a, ρ (GetStorageAt alias_contract_address k) = SOk a.

Definition has_alias k : Prop := MIN_VALUE_FOR_ALIAS_ALLOC ≤ k → stored_alias ρ k ≠ 0.

Lemma get_alias_run k : MIN_VALUE_FOR_ALIAS_ALLOC ≤ k → has_alias k → run_reads (get_alias k) ρ = Ok (stored_alias ρ k).
Proof.
  intros Hk Hhas%(λ h, h Hk). unfold stored_alias in *. cbn. destruct (Hcells k) as [a Ha]. rewrite Ha in *. by rewrite decide_False.
Qed.

Lemma to_patricia_key k : MIN_VALUE_FOR_ALIAS_ALLOC ≤ k → has_alias k → PatriciaKey_try_from (stored_alias ρ k) = Ok (stored_alias ρ k).
Proof.
  intros Hk Hhas%(λ h, h Hk). unfold PatriciaKey_try_from. rewrite decide_True; [done|].
  pose proof (al_bounds _ _ Hok k Hk Hhas). lia.
Qed.

Lemma compress_address_run k : has_alias k → run_reads (compress_address k) ρ = Ok (alias_of ρ k).
Proof.
  intros Hk. unfold compress_address, alias_of. case_decide; [|done].
  rewrite (run_tries_ok _ _ _ _ (get_alias_run k ltac:(done) Hk)). cbn. by apply to_patricia_key.
Qed.

Lemma compress_entry_run e :
  has_alias e.1 → (MAX_NON_COMPRESSED_CONTRACT_ADDRESS < e.1 → has_alias e.2) → run_reads (compress_entry e) ρ = Ok (entry_alias ρ e).
Proof.
  intros Ha Hk. unfold compress_entry, entry_alias. rewrite (run_tries_ok _ _ _ _ (compress_address_run _ Ha)).
  rewrite (run_tries_ok _ _ _ (if decide (MAX_NON_COMPRESSED_CONTRACT_ADDRESS < e.1) then alias_of ρ e.2 else e.2)); [done|].
  unfold compress_storage_key, alias_of. case_decide as Hc; [destruct Hc; rewrite !decide_True by done|].
  - rewrite (run_tries_ok _ _ _ _ (get_alias_run e.2 ltac:(done) ltac:(auto))). apply to_patricia_key; auto.
  - by repeat case_decide; try tauto.
Qed.

Lemma alias_of_inj k k' : has_alias k → has_alias k' → alias_of ρ k = alias_of ρ k' → k = k'.
Proof.
  unfold has_alias, alias_of. intros Hk Hk' Heq. pose proof (al_bounds _ _ Hok k) as Hb. pose proof (al_bounds _ _ Hok k') as Hb'.
  unfold MIN_VALUE_FOR_ALIAS_ALLOC in *. repeat case_decide.
  - apply (al_distinct _ _ Hok); auto.
  - specialize (Hb ltac:(done) (Hk ltac:(done))). lia.
  - specialize (Hb' ltac:(done) (Hk' ltac:(done))). lia.
  - done.
Qed.

(** Collecting a map under an injective function of its keys loses nothing. *)
Lemma collect_keys_run {K} `{Countable K} (f : K → Tries K) (g : K → K) entries (m0 : gmap K N) :
  (∀ x v, (x, v) ∈ entries → run_reads (f x) ρ = Ok (g x)) → NoDup (g <$> entries.*1) →
  (∀ x v, (x, v) ∈ entries → m0 !! g x = None) →
  ∃ m, run_reads (collect_keys f entries m0) ρ = Ok m ∧
    ∀ y v, m !! y = Some v ↔ m0 !! y = Some v ∨ ∃ x, y = g x ∧ (x, v) ∈ entries.
Proof.
  revert m0. induction entries as [|[x0 v0] entries IH]; intros m0 Hf Hnd Hm0; cbn.
  - exists m0. split; [done|]. intros y v. split; [auto|]. intros [?|(x&_&[]%elem_of_nil)]; done.
  - cbn in Hnd. apply NoDup_cons in Hnd as [Hx0 Hnd]. rewrite (run_tries_ok _ _ _ _ (Hf x0 v0 ltac:(left))).
    assert (∀ x v, (x, v) ∈ entries → g x ≠ g x0) as Hne.
    { intros x v Hin Heq. apply Hx0. rewrite <-Heq. apply list_elem_of_fmap_2, (list_elem_of_fmap_2 fst _ _ Hin). }
    destruct (IH (<[g x0 := v0]> m0)) as (m&Hrun&Hm); [by intros; eapply Hf; right|done| |].
    { intros x v Hin. rewrite lookup_insert_ne by (symmetry; eauto). eapply Hm0. by right. }
    exists m. split; [done|]. intros y v. rewrite Hm, lookup_insert_Some. setoid_rewrite elem_of_cons.
    split; [|intros [Hy|(x&->&[[= -> ->]|Hin])]]; [naive_solver|left; right|naive_solver..].
    split; [|done]. intros <-. rewrite (Hm0 x0 v0 ltac:(left)) in Hy. done.
Qed.

Lemma collect_map_run {K} `{Countable K} (f : K → Tries K) (g : K → K) (m : gmap K N) :
  (∀ x, x ∈ dom m → run_reads (f x) ρ = Ok (g x)) → (∀ x y, x ∈ dom m → y ∈ dom m → g x = g y → x = y) →
  ∃ m', run_reads (collect_keys f (hash_iter m) ∅) ρ = Ok m' ∧ ∀ y v, m' !! y = Some v ↔ ∃ x, y = g x ∧ m !! x = Some v.
Proof.
  intros Hf Hinj. destruct (collect_keys_run f g (hash_iter m) ∅) as (m'&Hrun&Hm').
  - intros x v Hin%elem_of_hash_iter. apply Hf, elem_of_dom. eauto.
  - assert (∀ x, x ∈ hash_keys m → x ∈ dom m) as Hdom by (intros x Hx%elem_of_hash_keys; by apply elem_of_dom).
    pose proof (NoDup_hash_keys m) as Hnd. unfold hash_keys in *. induction Hnd as [|x l Hx _ IH]; cbn; [constructor|].
    constructor; [|apply IH; intros; apply Hdom; by right]. intros (y&Heq&Hy)%list_elem_of_fmap.
    apply Hx. replace x with y; [done|]. apply Hinj; [apply Hdom; by right|apply Hdom; left|done].
  - intros. apply lookup_empty.
  - exists m'. split; [done|]. intros y v. rewrite Hm', lookup_empty. setoid_rewrite elem_of_hash_iter. naive_solver.
Qed.

(** [c] is [d] with every address and key replaced by its alias, and no two of them share one. *)
Record compressed_to d (c : StateMaps) : Prop := {
  ct_nonces b v : c.(nonces) !! b = Some v ↔ ∃ a, b = alias_of ρ a ∧ d.(nonces) !! a = Some v;
  ct_class_hashes b v : c.(class_hashes) !! b = Some v ↔ ∃ a, b = alias_of ρ a ∧ d.(class_hashes) !! a = Some v;
  ct_storage b v : c.(storage) !! b = Some v ↔ ∃ e, b = entry_alias ρ e ∧ d.(storage) !! e = Some v;
  ct_compiled : c.(compiled_class_hashes) = d.(compiled_class_hashes);
  ct_declared : c.(declared_contracts) = d.(declared_contracts);
  ct_addresses_inj a a' : a ∈ get_contract_addresses d → a' ∈ get_contract_addresses d →
    alias_of ρ a = alias_of ρ a' → a = a';
  ct_entries_inj e e' : e ∈ dom d.(storage) → e' ∈ dom d.(storage) → entry_alias ρ e = entry_alias ρ e' → e = e';
}.

Lemma compress_run d :
  (∀ k, needs_alias d k → has_alias k) → ∃ c, run_reads (compress d) ρ = Ok c ∧ compressed_to d c.
Proof.
  intros Hneeds. assert (∀ a, a ∈ get_contract_addresses d → has_alias a) as Haddr by (intros; apply Hneeds; by left).
  assert (dom d.(nonces) ⊆ get_contract_addresses d ∧ dom d.(class_hashes) ⊆ get_contract_addresses d) as [Hdn Hdc].
  { unfold get_contract_addresses. set_solver. }
  assert (∀ e, e ∈ dom d.(storage) → e.1 ∈ get_contract_addresses d) as Hde.
  { intros e He. unfold get_contract_addresses. apply elem_of_union_l, elem_of_union_l. by apply elem_of_map_2. }
  assert (∀ e, e ∈ dom d.(storage) → MAX_NON_COMPRESSED_CONTRACT_ADDRESS < e.1 → has_alias e.2) as Hkey.
  { intros [a k] He Ha. apply Hneeds. right. by exists a. }
  assert (∀ a a', a ∈ get_contract_addresses d → a' ∈ get_contract_addresses d → alias_of ρ a = alias_of ρ a' → a = a') as Hai.
  { intros. apply alias_of_inj; auto. }
  assert (∀ e e', e ∈ dom d.(storage) → e' ∈ dom d.(storage) → entry_alias ρ e = entry_alias ρ e' → e = e') as Hei.
  { intros [a k] [a' k'] He He' [= Ha Hk]. apply Hai in Ha as <-; [|by apply (Hde _ He)|by apply (Hde _ He')].
    case_decide; [|by subst]. f_equal. apply alias_of_inj; [by apply (Hkey _ He)|by apply (Hkey _ He')|done]. }
  destruct (collect_map_run compress_address (alias_of ρ) d.(nonces)) as (n&Hn&Hns); [by auto using compress_address_run|by auto|].
  destruct (collect_map_run compress_address (alias_of ρ) d.(class_hashes)) as (c&Hc&Hcs); [by auto using compress_address_run|by auto|].
  destruct (collect_map_run compress_entry (entry_alias ρ) d.(storage)) as (s&Hs&Hss); [by auto using compress_entry_run|done|].
  exists {| nonces := n; class_hashes := c; storage := s; compiled_class_hashes := d.(compiled_class_hashes);
            declared_contracts := d.(declared_contracts) |}. split; [|by split].
  unfold compress. by rewrite (run_tries_ok _ _ _ _ Hn), (run_tries_ok _ _ _ _ Hc), (run_tries_ok _ _ _ _ Hs).
Qed.
End compressed.

(** ** Allocation on a cached state *)

Section allocation.
Context (σ : View).

(** A method that only reads, and returns [x]. *)
Definition returns {A} self (m : CS A) (x : A) : Prop := reads_ok σ self (SOk x) (run_reads (m self) σ).

Lemma returns_bind {A B} (m : CS A) (f : A → CS B) self (x : A) (y : B) :
  returns self m x →
  (∀ self', cs_ok σ self' → (∀ q, cs_view σ self' q = cs_view σ self q) → returns self' (f x) y) → returns self (m ≫= f) y.
Proof.
  intros (Hm&Hok&Hv) Hf. unfold returns, reads_ok in *. rewrite run_cs_bind. destruct (run_reads (m self) σ) as [r self']. cbn in *. subst r.
  destruct (Hf self' Hok Hv) as (Hr&Hok'&Hv'). split; [done|]. split; [done|]. intros q. by rewrite Hv', Hv.
Qed.

Lemma returns_ret {A} self (x : A) : cs_ok σ self → returns self (mret x) x.
Proof. done. Qed.

Section on_state.
Context (ρ : View).
Hypothesis Hcells : ∀ k, ∃ a, ρ (GetStorageAt alias_contract_address k) = SOk a.

Lemma read_alias self k :
  cs_ok σ self → (∀ q, cs_view σ self q = ρ q) → returns self (get_storage_at alias_contract_address k) (stored_alias ρ k).
Proof.
  intros Hok Hv. pose proof (get_storage_at_view σ alias_contract_address k self Hok) as Hr. rewrite Hv in Hr.
  unfold returns, stored_alias. destruct (Hcells k) as [a Ha]. by rewrite Ha in *.
Qed.

Lemma insert_alias_run self u k :
  cs_ok σ self → (∀ q, cs_view σ self q = ρ q) → returns self (insert_alias k u) (insert_alias_in ρ u k).
Proof.
  intros Hok Hv. unfold insert_alias, insert_alias_in. case_decide as Hk.
  - eapply returns_bind; [by apply read_alias|]. intros self' Hok' Hv'. erewrite decide_ext; [by apply returns_ret|]. tauto.
  - rewrite decide_False by tauto. by apply returns_ret.
Qed.

Lemma insert_aliases_run self u ks :
  cs_ok σ self → (∀ q, cs_view σ self q = ρ q) → returns self (insert_aliases ks u) (foldl (insert_alias_in ρ) u ks).
Proof.
  revert self u. induction ks as [|k ks IH]; intros self u Hok Hv; cbn; [by apply returns_ret|].
  eapply returns_bind; [by apply insert_alias_run|]. intros self' Hok' Hv'. apply IH; [done|]. intros q. by rewrite Hv', Hv.
Qed.

Lemma insert_contracts_run d self u addresses :
  cs_ok σ self → (∀ q, cs_view σ self q = ρ q) →
  returns self (insert_contracts d addresses u) (foldl (insert_alias_in ρ) u (addresses ≫= keys_of_contract d)).
Proof.
  revert self u. induction addresses as [|a addresses IH]; intros self u Hok Hv; cbn; [by apply returns_ret|].
  unfold keys_of_contract at 1. rewrite !foldl_app. cbn.
  eapply returns_bind; [by apply insert_aliases_run|]. intros self1 Hok1 Hv1.
  eapply returns_bind; [apply insert_alias_run; [done|]; intros q; by rewrite Hv1|]. intros self2 Hok2 Hv2.
  apply IH; [done|]. intros q. by rewrite Hv2, Hv1.
Qed.

Lemma AliasUpdater_new_run self :
  cs_ok σ self → (∀ q, cs_view σ self q = ρ q) →
  returns self AliasUpdater_new (updater_start (stored_alias ρ ALIAS_COUNTER_STORAGE_KEY)).
Proof. intros Hok Hv. eapply returns_bind; [by apply read_alias|]. intros. by apply returns_ret. Qed.
End on_state.

(** ** Allocation and compression together *)

Lemma elem_of_alias_keys d k : k ∈ alias_keys d ↔ needs_alias d k.
Proof.
  unfold alias_keys, needs_alias. rewrite list_elem_of_bind. setoid_rewrite (merge_sort_Permutation N.le). setoid_rewrite elem_of_elements.
  unfold keys_of_contract, sorted_storage_keys. setoid_rewrite elem_of_app. setoid_rewrite list_elem_of_singleton. split.
  - intros (a&[Hk| ->]&Ha); [|by left]. right. exists a. case_decide; [|by apply elem_of_nil in Hk].
    rewrite (merge_sort_Permutation N.le) in Hk. apply list_elem_of_fmap in Hk as ([a' k']&->&[Heq Hin]%list_elem_of_filter).
    cbn in Heq. subst a'. split; [done|]. by apply elem_of_hash_keys, elem_of_dom in Hin.
  - intros [Ha|(a&Ha&Hin)]; [by exists k; auto|]. exists a. split.
    + left. rewrite decide_True, (merge_sort_Permutation N.le) by done. apply list_elem_of_fmap. exists (a, k). split; [done|].
      apply list_elem_of_filter. split; [done|]. by apply elem_of_hash_keys, elem_of_dom.
    + unfold get_contract_addresses. apply elem_of_union_l, elem_of_union_l, elem_of_map. by exists (a, k).
Qed.

Lemma size_list_to_set_le {K} `{Countable K} (l : list K) : (size (list_to_set l : gset K) ≤ length l)%nat.
Proof.
  induction l as [|x l IH]; cbn; [by rewrite size_empty|]. rewrite size_union_alt, size_singleton.
  assert ((list_to_set l : gset K) ∖ {[x]} ⊆ list_to_set l) as Hs%subseteq_size by set_solver. lia.
Qed.

(** All keys that a state diff within [W] may need aliases for. *)
Definition alias_room (W : StateMaps) : gset N := set_map snd (dom W.(storage)) ∪ get_contract_addresses W.

Lemma size_alias_room W : (size (alias_room W) ≤ size W.(storage) + size (get_contract_addresses W))%nat.
Proof.
  unfold alias_room. rewrite size_union_alt. pose proof (size_list_to_set_le (snd <$> elements (dom W.(storage)))) as Hs.
  rewrite length_fmap in Hs. change (length (elements (dom (storage W)))) with (size (dom (storage W))) in Hs. rewrite size_dom in Hs.
  assert (get_contract_addresses W ∖ set_map snd (dom (storage W)) ⊆ get_contract_addresses W) as Ha%subseteq_size by set_solver.
  unfold set_map at 1. lia.
Qed.

Lemma get_contract_addresses_mono d W :
  d.(storage) ⊆ W.(storage) → d.(nonces) ⊆ W.(nonces) → d.(class_hashes) ⊆ W.(class_hashes) →
  get_contract_addresses d ⊆ get_contract_addresses W.
Proof. intros Hs%subseteq_dom Hn%subseteq_dom Hc%subseteq_dom. unfold get_contract_addresses. set_solver. Qed.

Lemma needs_alias_room d W k :
  d.(storage) ⊆ W.(storage) → d.(nonces) ⊆ W.(nonces) → d.(class_hashes) ⊆ W.(class_hashes) →
  needs_alias d k → k ∈ alias_room W.
Proof.
  intros Hs Hn Hc [Ha|(a&_&Hk)]; apply elem_of_union; [right; by apply (get_contract_addresses_mono d)|left].
  apply elem_of_map. exists (a, k). split; [done|]. by apply subseteq_dom in Hs; apply Hs.
Qed.

(** The updates, as a state sees them. *)
Lemma stored_alias_updated ρ d updates k :
  (∀ a k v, d.(storage) !! (a, k) = Some v → ρ (GetStorageAt a k) = SOk v) →
  stored_alias (overlay (set_storage (λ s, updates ∪ s) d) ∅ ρ) k =
    default (stored_alias ρ k) (updates !! (alias_contract_address, k)).
Proof.
  intros Hd. unfold stored_alias. cbn. rewrite lookup_union. destruct (updates !! _) as [a|]; cbn; [by destruct (storage d !! _)|].
  rewrite (left_id_L None _). destruct (storage d !! _) as [v|] eqn:Hv; [|done]. by rewrite (Hd _ _ _ Hv).
Qed.

(** Only the alias contract gets entries that are not in the diff. *)
Lemma needs_alias_updated d updates k :
  alias_contract_address ≤ MAX_NON_COMPRESSED_CONTRACT_ADDRESS →
  (∀ a k, a ≠ alias_contract_address → updates !! (a, k) = None) →
  needs_alias (set_storage (λ s, updates ∪ s) d) k → k = alias_contract_address ∨ needs_alias d k.
Proof.
  intros Hlow Hup. assert (∀ a k, (a, k) ∈ dom (updates ∪ d.(storage)) → a = alias_contract_address ∨ (a, k) ∈ dom d.(storage)) as Hdom.
  { intros a k' [Hin|Hin]%elem_of_dom%lookup_union_is_Some; [|right; by apply elem_of_dom]. left. apply dec_stable. intros Hne.
    destruct Hin as [v Hv]. rewrite Hup in Hv; done. }
  intros [Ha|(a&Ha&Hin)]; cbn in *.
  - unfold get_contract_addresses in Ha. cbn in Ha. rewrite !elem_of_union, elem_of_map in Ha.
    destruct Ha as [[([a k']&->&[->|Hin]%Hdom)|?]|?]; [by left|right; left..]; unfold get_contract_addresses; [|set_solver..].
    rewrite !elem_of_union, elem_of_map. left. left. by exists (a, k').
  - apply Hdom in Hin as [->|Hin]; [lia|]. right. right. eauto.
Qed.

(** The updater after all keys of the diff. *)
Definition allocated ρ (counter : N) d : AliasUpdater := foldl (insert_alias_in ρ) (updater_start counter) (alias_keys d).

Lemma allocation_run self s changes counter :
  let ρ := cs_view σ self in let d := changes.(state_maps) in
  run_reads (to_state_diff self) σ = (Ok changes, with_storage_reads s self) → cs_ok σ (with_storage_reads s self) →
  (∀ k, ∃ a, ρ (GetStorageAt alias_contract_address k) = SOk a) → aliases_ok ρ counter →
  ∃ self', run_reads (state_diff_with_alias_allocation self) σ =
    (Ok (set_storage (λ s, finalize_updates (allocated ρ counter d) ∪ s) d), self').
Proof.
  intros ρ d Hrun Hok Hstored Hal.
  assert (returns (with_storage_reads s self)
    (AliasUpdater_new ≫= insert_contracts d (merge_sort N.le (elements (get_contract_addresses d)))) (allocated ρ counter d)) as (Hr&_&_).
  { eapply returns_bind; [by apply (AliasUpdater_new_run ρ)|]. intros self' Hok' Hv'. rewrite (al_counter _ _ Hal).
    apply (insert_contracts_run ρ Hstored); [done|]. intros q. by rewrite Hv'. }
  unfold state_diff_with_alias_allocation. rewrite run_cs_bind in Hr. rewrite run_cs_bind, Hrun, run_cs_bind. fold d.
  destruct (run_reads (AliasUpdater_new _) σ) as [[u0|e|] self1]; [|done..]. rewrite run_cs_bind.
  destruct (run_reads (insert_contracts _ _ _ _) σ) as [r self2]. cbn in Hr. subst r. by eexists.
Qed.

(** C15: compression of state diffs is lossless. The diff of a block, with the aliases that are
    allocated for it, can be compressed in the state it leads to: every contract address and storage
    key from 128 on has an alias, different addresses have different aliases, and so do different keys of
    a contract, so that every value of the diff is found in the compressed diff and nothing else
    is. The aliases in use stay distinct and below the counter. *)
Theorem compression_lossless self counter :
  let R := self.(cache).(initial_reads) in let W := self.(cache).(writes) in
  alias_contract_address ≤ MAX_NON_COMPRESSED_CONTRACT_ADDRESS →
  (∀ a k, ∃ v, σ (GetStorageAt a k) = SOk v) → cs_ok σ self →
  dom W.(nonces) ⊆ dom R.(nonces) → dom W.(class_hashes) ⊆ dom R.(class_hashes) →
  dom W.(compiled_class_hashes) ⊆ dom R.(compiled_class_hashes) →
  aliases_ok (cs_view σ self) counter →
  first_free counter + N.of_nat (size W.(storage) + size (get_contract_addresses W)) ≤ 2 ^ 251 →
  ∃ diff self' counter' compressed,
    run_reads (state_diff_with_alias_allocation self) σ = (Ok diff, self') ∧
    let ρ' := overlay diff ∅ (cs_view σ self) in
    aliases_ok ρ' counter' ∧ run_reads (compress diff) ρ' = Ok compressed ∧ compressed_to ρ' diff compressed.
Proof.
  intros R W Hlow Hcells Hok Hn Hc Hcc Hal Hroom. set (ρ := cs_view σ self) in *.
  destruct (to_state_diff_run σ Hcells self Hok Hn Hc Hcc) as (s&changes&Hrun&Hok1&_&Hd).
  set (d := changes.(state_maps)) in *.
  assert (d.(storage) ⊆ W.(storage) ∧ d.(nonces) ⊆ W.(nonces) ∧ d.(class_hashes) ⊆ W.(class_hashes)) as (Hds&Hdn&Hdc).
  { rewrite Hd. cbn. split_and!; apply subtract_subseteq. }
  assert (∀ a k v, d.(storage) !! (a, k) = Some v → ρ (GetStorageAt a k) = SOk v) as Hagree.
  { intros a k v Hv. assert (W.(storage) !! (a, k) = Some v) as Hw by (by eapply lookup_weaken). unfold ρ, cs_view. cbn [overlay]. fold W. by rewrite Hw. }
  assert (∀ k, ∃ a, ρ (GetStorageAt alias_contract_address k) = SOk a) as Hstored.
  { intros k. unfold ρ, cs_view. cbn. destruct (storage (writes (cache self)) !! _); [by eexists|]. apply Hcells. }
  destruct (allocation_run self s changes counter Hrun Hok1 Hstored Hal) as [self' Hfinal]. fold ρ d in Hfinal.
  set (u := allocated ρ counter d) in *. set (diff := set_storage _ d) in Hfinal.
  destruct (insert_all_ok ρ counter Hal (alias_room W) (alias_keys d) (updater_start counter)) as (Hu&[_ Hsub]&Hcov).
  { by apply updater_start_ok. } { set_solver. }
  { intros k Hk%elem_of_list_to_set%elem_of_alias_keys. by eapply needs_alias_room. }
  { pose proof (size_alias_room W). lia. }
  change (foldl _ _ _) with u in Hu, Hsub, Hcov.
  assert (∀ k, stored_alias (overlay diff ∅ ρ) k = default (stored_alias ρ k) (finalize_updates u !! (alias_contract_address, k))) as Hview.
  { intros k. by apply stored_alias_updated. }
  pose proof (updated_aliases_ok ρ counter Hal (overlay diff ∅ ρ) u Hu Hview) as Hal'.
  destruct (compress_run (overlay diff ∅ ρ) _ Hal') with (d := diff) as (c&Hcomp&Hct); [..|by exists diff, self', (first_free counter + N.of_nat (size (new_aliases u))), c].
  - apply subseteq_size in Hsub. rewrite size_dom in Hsub. pose proof (size_alias_room W). lia.
  - intros k. cbn. destruct ((_ ∪ _) !! _); [by eexists|]. apply Hstored.
  - intros k [->|Hk]%needs_alias_updated Hmin; [| |done|by intros; apply finalize_other].
    + exfalso. unfold MIN_VALUE_FOR_ALIAS_ALLOC, INITIAL_AVAILABLE_ALIAS, MAX_NON_COMPRESSED_CONTRACT_ADDRESS in *. lia.
    + apply (updated_alias_covered ρ counter Hal _ u Hu Hview); [done|]. apply Hcov; [by apply elem_of_alias_keys|done].
Qed.
End allocation.
End compression.

(** ** An example *)

Module CompressionExample.
#[local] Existing Instance canonical_order.

(** A block that writes two cells of a contract and one of a system contract, and increments the
    nonce of an account, over an alias contract where one of the addresses has an alias. *)
Definition stored : View N := λ q,
  match q with
  | GetCompiledClass h => SErr (UndeclaredClassHash h)
  | GetStorageAt a k =>
      SOk (if decide (a = 2) then if decide (k = 0) then 129 else if decide (k = 1000) then 128 else 0 else 0)
  | GetNonceAt _ | GetClassHashAt _ | GetCompiledClassHash _ => SOk 0
  end.

Definition block : CachedState N :=
  {| cache := {| initial_reads := set_nonces (insert 2000 0) StateMaps_default;
                 writes := set_nonces (insert 2000 1)
                   (set_storage (λ _, {[(1000, 500) := 7; (1000, 5) := 8; (1, 600) := 9]}) StateMaps_default) |};
     class_hash_to_class := ∅; visited_pcs := ∅ |}.

Lemma block_aliases : aliases_ok 2 (cs_view stored block) 129.
Proof.
  assert (∀ k, stored_alias 2 (cs_view stored block) k = if decide (k = 0) then 129 else if decide (k = 1000) then 128 else 0) as Hs.
  { intros k. unfold stored_alias, cs_view. cbn [overlay cache block writes set_nonces set_storage storage].
    by rewrite !lookup_insert_ne, lookup_singleton_ne by congruence. }
  split; intros *; rewrite ?Hs; unfold MIN_VALUE_FOR_ALIAS_ALLOC, INITIAL_AVAILABLE_ALIAS, ALIAS_COUNTER_STORAGE_KEY in *;
    repeat case_decide; try lia; auto.
Qed.

Lemma compression_lossless_witness :
  ∃ diff self' compressed, run_reads (state_diff_with_alias_allocation 2 block) stored = (Ok diff, self') ∧
    compressed.(storage) !! (128, 129) = Some 7 ∧ compressed.(storage) !! (128, 5) = Some 8.
Proof.
  destruct (compression_lossless 2 stored block 129) as (diff&self'&counter'&compressed&Hrun&_&_&Hct).
  - done.
  - intros a k. by eexists.
  - split; cbn; intros *; try (by rewrite lookup_empty). intros [[<- <-]|[_ Hv]]%lookup_insert_Some; [done|]. by rewrite lookup_empty in Hv.
  - done.
  - done.
  - done.
  - exact block_aliases.
  - by vm_compute.
  - exists diff, self', compressed. split; [exact Hrun|]. vm_compute in Hrun. injection Hrun as <- _.
    split; apply (ct_storage _ _ _ _ Hct); [exists (1000, 500)|exists (1000, 5)]; done.
Defined.
End CompressionExample.
