(* ===== verification/Scheduler.v ===== *)
(** Concurrent programs, and the scheduler of the workers of a chunk:
    [crates/blockifier/src/concurrency/scheduler.rs].

    A thread is a tree of atomic steps on the shared memory ([Proc]). A step is one access to an
    atomic variable, or a critical section that takes one lock and releases it; a step that
    waits for a lock that is taken is not enabled. The memory is sequentially consistent, the
    weaker orderings of the source are not modelled. *)
From S2P Require Import Prelude.

(** ** Threads *)

#[local] Unset Elimination Schemes.
Inductive Proc (Sh A : Type) : Type :=
| Done (a : A)
| Crash
| Atomic (f : Sh → option (Sh * Proc Sh A)).
#[local] Set Elimination Schemes.
Arguments Done {Sh A} a.
Arguments Crash {Sh A}.
Arguments Atomic {Sh A} f.

#[global] Instance Proc_ret {Sh} : MRet (Proc Sh) := λ A, Done.
#[global] Instance Proc_bind {Sh} : MBind (Proc Sh) := λ A B k,
  fix bind m :=
    match m with
    | Done a => k a
    | Crash => Crash
    | Atomic f => Atomic (λ sh, match f sh with None => None | Some (sh', m') => Some (sh', bind m') end)
    end.

Section atomic.
Context {Sh : Type}.

(** A step that reads and updates the memory. *)
Definition atomically {A} (f : Sh → A * Sh) : Proc Sh A :=
  Atomic (λ sh, let '(a, sh') := f sh in Some (sh', Done a)).

(** A step that panics unless it yields a value. *)
Definition atomically_or_crash {A} (f : Sh → option (A * Sh)) : Proc Sh A :=
  Atomic (λ sh, Some match f sh with Some (a, sh') => (sh', Done a) | None => (sh, Crash) end).

Definition load {A} (f : Sh → A) : Proc Sh A := atomically (λ sh, (f sh, sh)).
Definition store (f : Sh → Sh) : Proc Sh unit := atomically (λ sh, (tt, f sh)).

Definition proc_assert (b : bool) : Proc Sh unit := if b then Done tt else Crash.
Definition proc_expect {A} (o : option A) : Proc Sh A := match o with Some a => Done a | None => Crash end.
End atomic.

(** Steps on a part of the memory. *)
Fixpoint proc_zoom {Sh T A} (get : Sh → T) (set : T → Sh → Sh) (p : Proc T A) : Proc Sh A :=
  match p with
  | Done a => Done a
  | Crash => Crash
  | Atomic f => Atomic (λ sh, match f (get sh) with
                              | None => None
                              | Some (t, p') => Some (set t sh, proc_zoom get set p')
                              end)
  end.

(** ** The scheduler *)

Inductive TransactionStatus := ReadyToExecute | Executing | Executed | Aborting | Committed.

#[global] Instance TransactionStatus_eq_dec : EqDecision TransactionStatus.
Proof. solve_decision. Defined.

Inductive Task :=
| ExecutionTask (tx_index : N)
| ValidationTask (tx_index : N)
| AskForTask
| NoTaskAvailable
| TaskDone.

(** [commit_locked] tells whether the mutex of [commit_index] is held. *)
Record Scheduler := {
  execution_index : N;
  validation_index : N;
  commit_index : N;
  commit_locked : bool;
  chunk_size : N;
  tx_statuses : list TransactionStatus;
  done_marker : bool;
}.

Definition Scheduler_new (chunk_size : nat) : Scheduler :=
  {| execution_index := 0; validation_index := N.of_nat chunk_size; commit_index := 0; commit_locked := false;
     chunk_size := N.of_nat chunk_size; tx_statuses := replicate chunk_size ReadyToExecute; done_marker := false |}.

Definition set_execution_index v s :=
  {| execution_index := v; validation_index := s.(validation_index); commit_index := s.(commit_index);
     commit_locked := s.(commit_locked); chunk_size := s.(chunk_size); tx_statuses := s.(tx_statuses);
     done_marker := s.(done_marker) |}.
Definition set_validation_index v s :=
  {| execution_index := s.(execution_index); validation_index := v; commit_index := s.(commit_index);
     commit_locked := s.(commit_locked); chunk_size := s.(chunk_size); tx_statuses := s.(tx_statuses);
     done_marker := s.(done_marker) |}.
Definition set_commit_index v s :=
  {| execution_index := s.(execution_index); validation_index := s.(validation_index); commit_index := v;
     commit_locked := s.(commit_locked); chunk_size := s.(chunk_size); tx_statuses := s.(tx_statuses);
     done_marker := s.(done_marker) |}.
Definition set_commit_locked v s :=
  {| execution_index := s.(execution_index); validation_index := s.(validation_index);
     commit_index := s.(commit_index); commit_locked := v; chunk_size := s.(chunk_size);
     tx_statuses := s.(tx_statuses); done_marker := s.(done_marker) |}.
Definition set_tx_statuses v s :=
  {| execution_index := s.(execution_index); validation_index := s.(validation_index);
     commit_index := s.(commit_index); commit_locked := s.(commit_locked); chunk_size := s.(chunk_size);
     tx_statuses := v; done_marker := s.(done_marker) |}.
Definition set_done_marker v s :=
  {| execution_index := s.(execution_index); validation_index := s.(validation_index);
     commit_index := s.(commit_index); commit_locked := s.(commit_locked); chunk_size := s.(chunk_size);
     tx_statuses := s.(tx_statuses); done_marker := v |}.

Abbreviation Sched := (Proc Scheduler) (only parsing).

(** [fetch_add(1)] on [usize]. *)
Definition wrapping_succ (n : N) : N := (n + 1) mod 2 ^ 64.

Definition done : Sched bool := load done_marker.

Definition get_status (tx_index : N) (s : Scheduler) : option TransactionStatus :=
  s.(tx_statuses) !! N.to_nat tx_index.

Definition put_status (tx_index : N) (status : TransactionStatus) (s : Scheduler) : Scheduler :=
  set_tx_statuses (<[N.to_nat tx_index := status]> s.(tx_statuses)) s.

(** A critical section of [lock_tx_status(tx_index)]: an index out of range panics, and so does
    [f] when it yields nothing. *)
Definition with_status {A} (tx_index : N) (f : TransactionStatus → option (A * TransactionStatus)) : Sched A :=
  atomically_or_crash (λ s,
    status ← get_status tx_index s;
    '(a, status) ← f status;
    Some (a, put_status tx_index status s)).

Definition try_validation_abort (tx_index : N) : Sched bool :=
  with_status tx_index (λ status,
    Some (if decide (status = Executed) then (true, Aborting) else (false, status))).

Definition set_executed_status (tx_index : N) : Sched unit :=
  with_status tx_index (λ status, if decide (status = Executing) then Some (tt, Executed) else None).

Definition set_ready_status (tx_index : N) : Sched unit :=
  with_status tx_index (λ status, if decide (status = Aborting) then Some (tt, ReadyToExecute) else None).

Definition decrease_validation_index (target_index : N) : Sched unit :=
  store (λ s, set_validation_index (N.min s.(validation_index) target_index) s).

Definition try_incarnate (tx_index : N) : Sched bool :=
  chunk_size ← load chunk_size;
  if decide (tx_index < chunk_size) then
    with_status tx_index (λ status,
      Some (if decide (status = ReadyToExecute) then (true, Executing) else (false, status)))
  else mret false.

Definition next_version_to_validate : Sched (option N) :=
  index_to_validate ← load validation_index;
  chunk_size ← load chunk_size;
  if decide (chunk_size ≤ index_to_validate) then mret None else
  index_to_validate ← atomically (λ s, (s.(validation_index), set_validation_index (wrapping_succ s.(validation_index)) s));
  if decide (index_to_validate < chunk_size) then
    with_status index_to_validate (λ status,
      Some (if decide (status = Executed) then Some index_to_validate else None, status))
  else mret None.

Definition next_version_to_execute : Sched (option N) :=
  index_to_execute ← load execution_index;
  chunk_size ← load chunk_size;
  if decide (chunk_size ≤ index_to_execute) then mret None else
  index_to_execute ← atomically (λ s, (s.(execution_index), set_execution_index (wrapping_succ s.(execution_index)) s));
  incarnated ← try_incarnate index_to_execute;
  if incarnated : bool then mret (Some index_to_execute) else mret None.

Definition next_execution_task : Sched Task :=
  tx_index ← next_version_to_execute;
  match tx_index with
  | Some tx_index => mret (ExecutionTask tx_index)
  | None => mret AskForTask
  end.

Definition next_task : Sched Task :=
  is_done ← done;
  if is_done : bool then mret TaskDone else
  index_to_validate ← load validation_index;
  index_to_execute ← load execution_index;
  chunk_size ← load chunk_size;
  if decide (chunk_size ≤ N.min index_to_validate index_to_execute) then mret NoTaskAvailable else
  if decide (index_to_validate < index_to_execute) then
    tx_index ← next_version_to_validate;
    match tx_index with
    | Some tx_index => mret (ValidationTask tx_index)
    | None => next_execution_task
    end
  else next_execution_task.

Definition finish_execution (tx_index : N) : Sched unit :=
  set_executed_status tx_index;;
  decrease_validation_index tx_index.

Definition finish_abort (tx_index : N) : Sched Task :=
  set_ready_status tx_index;;
  execution_index ← load execution_index;
  if decide (tx_index < execution_index) then
    incarnated ← try_incarnate tx_index;
    mret (if incarnated : bool then ExecutionTask tx_index else AskForTask)
  else mret AskForTask.

Definition finish_execution_during_commit (tx_index : N) : Sched unit :=
  decrease_validation_index (tx_index + 1).

(** [try_lock] on the commit index: the committer exists when it returns [true]. *)
Definition try_enter_commit_phase : Sched bool :=
  atomically (λ s, if s.(commit_locked) : bool then (false, s) else (true, set_commit_locked true s)).

(** The end of the commit phase, where the guard is dropped. *)
Definition leave_commit_phase : Sched unit := store (set_commit_locked false).

(** [TransactionCommitter::try_commit]: the status is locked from the test to the end. *)
Definition try_commit : Sched (option N) :=
  is_done ← done;
  if is_done : bool then mret None else
  commit_index ← load commit_index;
  chunk_size ← load chunk_size;
  proc_assert (bool_decide (commit_index < chunk_size));;
  atomically_or_crash (λ s,
    status ← get_status commit_index s;
    if decide (status ≠ Executed) then Some (None, s) else
    let s := put_status commit_index Committed s in
    let s := set_commit_index (commit_index + 1) s in
    Some (Some commit_index,
          if decide (commit_index + 1 = chunk_size) then set_done_marker true s else s)).

Definition halt : Sched unit := store (set_done_marker true).

(** [TransactionCommitter::halt_scheduler]. *)
Definition halt_scheduler : Sched unit :=
  atomically_or_crash (λ s,
    if decide (0 < s.(commit_index)) then Some (tt, set_commit_index (s.(commit_index) - 1) s) else None);;
  halt.

Definition get_n_committed_txs (s : Scheduler) : N := s.(commit_index).
