(* ===== verification/WorkerLogic.v ===== *)
(** The workers that execute a chunk of transactions concurrently:
    [crates/blockifier/src/concurrency/worker_logic.rs] and [fee_utils.rs], and
    [TransactionExecutor::execute_chunk] of [crates/blockifier/src/blockifier/transaction_executor.rs].

    What a transaction does is a parameter: [execute_raw] is code on a state
    ([CachedState.Program]), since it runs contracts in the Cairo virtual machine. The bouncer
    is an interface ([BlockBouncer]). A run of the workers follows a schedule, the list of the
    threads that take a step. *)
From S2P Require Import Prelude StarknetApi StateApi CachedState VersionedState Scheduler.

(** ** Fee transfer *)

(** The parts of a [CallInfo] that the fee transfer changes. *)
#[local] Unset Elimination Schemes.
Inductive CallInfo := MkCallInfo {
  storage_read_values : list N;
  inner_calls : list CallInfo;
}.
#[local] Set Elimination Schemes.

(** [receipt.fee] is [actual_fee]; what the workers do not look at is [other_info]. *)
Record TransactionExecutionInfo (I : Type) := {
  fee_transfer_call_info : option CallInfo;
  actual_fee : N;
  other_info : I;
}.
Arguments fee_transfer_call_info {I}.
Arguments actual_fee {I}.
Arguments other_info {I}.

Record BlockContext := { sequencer_address : N }.
Record TransactionContext := { sender_address : N; fee_token_address : N; enforce_fee : bool }.

Definition is_sequencer_the_sender (block_context : BlockContext) (tx_context : TransactionContext) : bool :=
  bool_decide (tx_context.(sender_address) = block_context.(sequencer_address)).

Definition STORAGE_READ_SEQUENCER_BALANCE_INDICES : nat * nat := (2, 3)%nat.

(** [None] when an assertion fails. *)
Definition fill_values (storage_read_values : list N) (sequencer_balance : N * N) : option (list N) :=
  let '(low_index, high_index) := STORAGE_READ_SEQUENCER_BALANCE_INDICES in
  if decide (length storage_read_values = 4%nat ∧
             storage_read_values !! low_index = Some 0 ∧ storage_read_values !! high_index = Some 0)
  then Some (<[high_index := sequencer_balance.2]> (<[low_index := sequencer_balance.1]> storage_read_values))
  else None.

Definition fill_sequencer_balance_reads (fee_transfer_call_info : CallInfo) (sequencer_balance : N * N)
    : option CallInfo :=
  match fee_transfer_call_info.(inner_calls) with
  | [] =>
      values ← fill_values fee_transfer_call_info.(storage_read_values) sequencer_balance;
      Some {| storage_read_values := values; inner_calls := [] |}
  | [inner_call] =>
      values ← fill_values inner_call.(storage_read_values) sequencer_balance;
      Some {| storage_read_values := fee_transfer_call_info.(storage_read_values);
              inner_calls := [{| storage_read_values := values; inner_calls := inner_call.(inner_calls) |}] |}
  | _ => None
  end.

Section fee_transfer.
Context `{FeeTokenVar} {I : Type}.

Definition get_sequencer_balance_keys (block_context : BlockContext) : option (N * N) :=
  let balance_key_low := get_fee_token_var_address block_context.(sequencer_address) in
  match next_storage_key balance_key_low with
  | SOk balance_key_high => Some (balance_key_low, balance_key_high)
  | SErr _ => None
  end.

(** The writes of [add_fee_to_sequencer_balance]. *)
Definition sequencer_balance_writes (fee_token_address actual_fee : N) (block_context : BlockContext)
    (sequencer_balance : N * N) : option StateMaps :=
  let '(low, high) := sequencer_balance in
  if decide (u128_max < low ∨ u128_max < high) then None else
  let new_value_low := (low + actual_fee) mod 2 ^ 128 in
  let carry := if decide (u128_max < low + actual_fee) then 1 else 0 in
  let new_value_high := (high + carry) mod 2 ^ 128 in
  if decide (u128_max < high + carry) then None else
  '(sequencer_balance_key_low, sequencer_balance_key_high) ← get_sequencer_balance_keys block_context;
  Some (set_storage (λ _, {[(fee_token_address, sequencer_balance_key_low) := new_value_low;
                            (fee_token_address, sequencer_balance_key_high) := new_value_high]}) StateMaps_default).

(** It reads the balance of the sequencer and yields the fixed execution info with the writes
    to apply, if any; [None] for a panic. *)
Definition complete_fee_transfer_flow {C} (block_context : BlockContext) (tx_context : TransactionContext)
    (tx_execution_info : TransactionExecutionInfo I)
    : Reads C (option (TransactionExecutionInfo I * option StateMaps)) :=
  if is_sequencer_the_sender block_context tx_context then Return (Some (tx_execution_info, None)) else
  match tx_execution_info.(fee_transfer_call_info) with
  | Some call_info =>
      sequencer_balance ← get_fee_token_balance block_context.(sequencer_address) tx_context.(fee_token_address);
      Return match sequencer_balance with
             | SErr _ => None
             | SOk sequencer_balance =>
                 call_info ← fill_sequencer_balance_reads call_info sequencer_balance;
                 writes ← sequencer_balance_writes tx_context.(fee_token_address) tx_execution_info.(actual_fee)
                            block_context sequencer_balance;
                 Some ({| fee_transfer_call_info := Some call_info; actual_fee := tx_execution_info.(actual_fee);
                          other_info := tx_execution_info.(other_info) |}, Some writes)
             end
  | None => Return (if tx_context.(enforce_fee) then None else Some (tx_execution_info, None))
  end.
End fee_transfer.

(** [StateChangesKeys::update_sequencer_key_in_storage]. *)
Definition update_sequencer_key_in_storage `{FeeTokenVar} {I} (block_context : BlockContext)
    (tx_context : TransactionContext) (tx_result : TransactionExecutionInfo I) (concurrency_mode : bool)
    (self : StateChangesKeys) : StateChangesKeys :=
  if concurrency_mode && negb (is_sequencer_the_sender block_context tx_context)
     && bool_decide (0 < tx_result.(actual_fee))
  then {| nonce_keys := self.(nonce_keys); class_hash_keys := self.(class_hash_keys);
          storage_keys := {[(tx_context.(fee_token_address),
                             get_fee_token_var_address block_context.(sequencer_address))]} ∪ self.(storage_keys);
          compiled_class_hash_keys := self.(compiled_class_hash_keys);
          modified_contracts := self.(modified_contracts) |}
  else self.

(** ** Workers *)

(** [E] are the errors of executing a transaction. *)
Inductive TransactionExecutorError (E : Type) :=
| BlockFull
| ExecutorStateError (e : StateError)
| ExecutorTransactionExecutionError (e : E).
Arguments BlockFull {E}.
Arguments ExecutorStateError {E} e.
Arguments ExecutorTransactionExecutionError {E} e.

(** [Bouncer::try_update], which reads the state through a [StateReader]. *)
Class BlockBouncer (RunnableCompiledClass I E B : Type) :=
  try_update : B → StateChangesKeys → TransactionExecutionInfo I →
    Reads RunnableCompiledClass (result (TransactionExecutorError E) B).

Section workers.
Context `{HashOrder} `{FeeTokenVar} {RunnableCompiledClass S I E B : Type}.
Context `{!StateReader RunnableCompiledClass S} `{!BlockBouncer RunnableCompiledClass I E B}.
Abbreviation Info := (TransactionExecutionInfo I).
Abbreviation Reads := (Reads RunnableCompiledClass).
Abbreviation CachedState := (CachedState RunnableCompiledClass).
Abbreviation VersionedState := (VersionedState RunnableCompiledClass S).

(** A transaction: what it does in concurrency mode or not, and its context. *)
Record Transaction := {
  execute_raw : bool → Program RunnableCompiledClass (Info + E);
  tx_context : TransactionContext;
}.

Record ExecutionTaskOutput := {
  reads : StateMaps;
  out_writes : StateMaps;
  contract_classes : gmap N RunnableCompiledClass;
  out_visited_pcs : gmap N (gset N);
  tx_result : Info + E;
}.

Definition set_tx_result v o :=
  {| reads := o.(reads); out_writes := o.(out_writes); contract_classes := o.(contract_classes);
     out_visited_pcs := o.(out_visited_pcs); tx_result := v |}.

(** The memory that the workers share: [WorkerExecutor]. [output_locks] are the cells of
    [execution_outputs] whose mutex is held. *)
Record Shared := {
  scheduler : Scheduler;
  state : VersionedState;
  execution_outputs : list (option ExecutionTaskOutput);
  output_locks : gset N;
  bouncer : B;
}.

Definition set_scheduler v s :=
  {| scheduler := v; state := s.(state); execution_outputs := s.(execution_outputs);
     output_locks := s.(output_locks); bouncer := s.(bouncer) |}.
Definition set_state v s :=
  {| scheduler := s.(scheduler); state := v; execution_outputs := s.(execution_outputs);
     output_locks := s.(output_locks); bouncer := s.(bouncer) |}.
Definition set_execution_outputs v s :=
  {| scheduler := s.(scheduler); state := s.(state); execution_outputs := v;
     output_locks := s.(output_locks); bouncer := s.(bouncer) |}.
Definition set_output_locks v s :=
  {| scheduler := s.(scheduler); state := s.(state); execution_outputs := s.(execution_outputs);
     output_locks := v; bouncer := s.(bouncer) |}.
Definition set_bouncer v s :=
  {| scheduler := s.(scheduler); state := s.(state); execution_outputs := s.(execution_outputs);
     output_locks := s.(output_locks); bouncer := v |}.

Abbreviation Worker := (Proc Shared).

(** A method of the scheduler. *)
Definition sched {A} (p : Proc Scheduler A) : Worker A := proc_zoom scheduler set_scheduler p.

(** A method of the shared state that takes its lock; [None] for a panic. *)
Definition locked_state {A} (f : VersionedState → option (A * VersionedState)) : Worker A :=
  atomically_or_crash (λ sh, '(a, v) ← f sh.(state); Some (a, set_state v sh)).

Definition update_state (f : VersionedState → option VersionedState) : Worker unit :=
  locked_state (λ v, v ← f v; Some (tt, v)).

(** [lock_mutex_in_array(&self.execution_outputs, tx_index)], held until [unlock_output]. *)
Definition lock_output (tx_index : N) : Worker (option ExecutionTaskOutput) :=
  Atomic (λ sh,
    if decide (tx_index ∈ sh.(output_locks)) then None else
    Some match sh.(execution_outputs) !! N.to_nat tx_index with
         | None => (sh, Crash)
         | Some output => (set_output_locks ({[tx_index]} ∪ sh.(output_locks)) sh, Done output)
         end).

Definition unlock_output (tx_index : N) : Worker unit :=
  store (λ sh, set_output_locks (sh.(output_locks) ∖ {[tx_index]}) sh).

(** An assignment to the cell by the thread that holds its lock. *)
Definition put_output (tx_index : N) (output : ExecutionTaskOutput) : Worker unit :=
  store (λ sh, set_execution_outputs (<[N.to_nat tx_index := Some output]> sh.(execution_outputs)) sh).

(** Code that reads the state through [VersionedStateProxy]: each query takes the lock. *)
Fixpoint run_on_proxy {A} (tx_index : N) (m : Reads A) : Worker A :=
  match m with
  | Return a => Done a
  | Ask q k =>
      Atomic (λ sh,
        let '(r, v) := proxy_query tx_index q sh.(state) in
        Some (set_state v sh,
              match r with
              | Ok a => run_on_proxy tx_index (k (SOk a))
              | Err e => run_on_proxy tx_index (k (SErr e))
              | Panic => Crash
              end))
  end.

Context (chunk : list Transaction) (block_context : BlockContext).

(** The run of a transaction and what is kept of it; [None] for a panic. The writes are to be
    applied when it succeeded. *)
Definition transaction_run (tx : Transaction) : Reads (option (Info + E) * CachedState) :=
  let concurrency_mode := true in
  run_program (tx.(execute_raw) concurrency_mode) CachedState_new.

Definition task_output (run : option (Info + E) * CachedState) : option ExecutionTaskOutput :=
  let '(execution_result, transactional_state) := run in
  execution_result ← execution_result;
  match execution_result with
  | inl _ =>
      changes ← cache_to_state_diff transactional_state.(cache);
      Some {| reads := transactional_state.(cache).(initial_reads); out_writes := changes.(state_maps);
              contract_classes := transactional_state.(class_hash_to_class);
              out_visited_pcs := transactional_state.(visited_pcs); tx_result := execution_result |}
  | inr _ =>
      Some {| reads := transactional_state.(cache).(initial_reads); out_writes := StateMaps_default;
              contract_classes := ∅; out_visited_pcs := ∅; tx_result := execution_result |}
  end.

Definition execute_tx (tx_index : N) : Worker unit :=
  tx ← proc_expect (chunk !! N.to_nat tx_index);
  run ← run_on_proxy tx_index (transaction_run tx);
  execution_output ← proc_expect (task_output run);
  match execution_output.(tx_result) with
  | inl _ => update_state (apply_writes_at tx_index execution_output.(out_writes) execution_output.(contract_classes))
  | inr _ => mret tt
  end;;
  lock_output tx_index;;
  put_output tx_index execution_output;;
  unlock_output tx_index.

Definition execute (tx_index : N) : Worker unit :=
  execute_tx tx_index;;
  sched (finish_execution tx_index).

Definition worker_validate_reads (tx_index : N) (reads : StateMaps) : Worker bool :=
  locked_state (λ v, valid ← validate_reads tx_index reads v; Some (valid, v)).

Definition validate (tx_index : N) : Worker Task :=
  execution_output ← lock_output tx_index;
  execution_output ← proc_expect execution_output;
  reads_valid ← worker_validate_reads tx_index execution_output.(reads);
  aborted ← (if reads_valid : bool then mret false else sched (try_validation_abort tx_index));
  task ← (if aborted : bool then
            update_state (delete_writes tx_index execution_output.(out_writes) execution_output.(contract_classes));;
            sched (finish_abort tx_index)
          else mret AskForTask);
  unlock_output tx_index;;
  mret task.

(** The first part of [commit_tx]: the read set is valid when it ends. *)
Definition revalidate (tx_index : N) : Worker unit :=
  execution_output ← lock_output tx_index;
  execution_output ← proc_expect execution_output;
  reads_valid ← worker_validate_reads tx_index execution_output.(reads);
  if reads_valid : bool then unlock_output tx_index else
  update_state (delete_writes tx_index execution_output.(out_writes) execution_output.(contract_classes));;
  unlock_output tx_index;;
  execute_tx tx_index;;
  sched (finish_execution_during_commit tx_index);;
  execution_output ← lock_output tx_index;
  execution_output ← proc_expect execution_output;
  reads_valid ← worker_validate_reads tx_index execution_output.(reads);
  proc_assert reads_valid;;
  unlock_output tx_index.

(** The second part: the execution is final. *)
Definition commit_final (tx_index : N) : Worker bool :=
  execution_output ← lock_output tx_index;
  execution_output ← proc_expect execution_output;
  tx ← proc_expect (chunk !! N.to_nat tx_index);
  let tx_state_changes_keys := into_keys execution_output.(out_writes) in
  match execution_output.(tx_result) with
  | inr _ => unlock_output tx_index;; mret true
  | inl tx_execution_info =>
      let concurrency_mode := true in
      let tx_state_changes_keys :=
        update_sequencer_key_in_storage block_context tx.(tx_context) tx_execution_info concurrency_mode
          tx_state_changes_keys in
      current ← load bouncer;
      bouncer_result ← run_on_proxy tx_index (try_update current tx_state_changes_keys tx_execution_info);
      match bouncer_result with
      | Err BlockFull => unlock_output tx_index;; mret false
      | Err _ | Panic => Crash
      | Ok updated =>
          store (set_bouncer updated);;
          completed ← run_on_proxy tx_index (complete_fee_transfer_flow block_context tx.(tx_context) tx_execution_info);
          '(tx_execution_info, writes) ← proc_expect completed;
          match writes with
          | Some writes => update_state (apply_writes_at tx_index writes ∅)
          | None => mret tt
          end;;
          put_output tx_index (set_tx_result (inl tx_execution_info) execution_output);;
          unlock_output tx_index;;
          mret true
      end
  end.

Definition commit_tx (tx_index : N) : Worker bool :=
  revalidate tx_index;;
  commit_final tx_index.

(** The loop of [commit_while_possible]; each iteration commits a transaction, so that one more
    than the size of the chunk is never used up. *)
Fixpoint commit_loop (fuel : nat) : Worker unit :=
  match fuel with
  | O => Crash
  | Datatypes.S fuel =>
      tx_index ← sched try_commit;
      match tx_index with
      | None => mret tt
      | Some tx_index =>
          commit_succeeded ← commit_tx tx_index;
          (if commit_succeeded : bool then mret tt else sched halt_scheduler);;
          commit_loop fuel
      end
  end.

Definition commit_while_possible : Worker unit :=
  entered ← sched try_enter_commit_phase;
  if entered : bool then
    commit_loop (Datatypes.S (length chunk));;
    sched leave_commit_phase
  else mret tt.

(** An iteration of the loop of [run]: the next task, or [None] to leave the loop. *)
Definition iteration (task : Task) : Worker (option Task) :=
  commit_while_possible;;
  match task with
  | ExecutionTask tx_index => execute tx_index;; mret (Some AskForTask)
  | ValidationTask tx_index => task ← validate tx_index; mret (Some task)
  | NoTaskAvailable => mret (Some AskForTask)
  | AskForTask => task ← sched next_task; mret (Some task)
  | TaskDone => mret None
  end.

(** ** Runs *)

Definition System : Type := Shared * list (Worker (option Task)).

Definition WorkerExecutor_initialize (state : S) (bouncer : B) : Shared :=
  {| scheduler := Scheduler_new (length chunk); state := VersionedState_new state;
     execution_outputs := replicate (length chunk) None; output_locks := ∅; bouncer := bouncer |}.

Definition start_workers (n_workers : nat) (state : S) (bouncer : B) : System :=
  (WorkerExecutor_initialize state bouncer, replicate n_workers (iteration AskForTask)).

(** A step of a thread; [None] when it waits for a lock, has left its loop, or panicked. *)
Definition thread_step (sh : Shared) (worker : Worker (option Task)) : option (Shared * Worker (option Task)) :=
  match worker with
  | Done (Some task) => Some (sh, iteration task)
  | Done None => None
  | Crash => None
  | Atomic f => f sh
  end.

Definition system_step (sys : System) (t : nat) : System :=
  match sys.2 !! t ≫= thread_step sys.1 with
  | Some (sh, worker) => (sh, <[t := worker]> sys.2)
  | None => sys
  end.

Definition run_workers (schedule : list nat) (sys : System) : System := foldl system_step sys schedule.

Definition worker_finished (worker : Worker (option Task)) : bool :=
  match worker with Done None => true | _ => false end.
Definition worker_crashed (worker : Worker (option Task)) : bool :=
  match worker with Crash => true | _ => false end.

(** What [execute_chunk] does once the workers are joined; [None] for a panic. *)
Definition add_visited (visited_pcs : gmap N (gset N)) (output : ExecutionTaskOutput) : gmap N (gset N) :=
  foldl (λ visited entry, <[entry.1 := default ∅ (visited !! entry.1) ∪ entry.2]> visited)
    visited_pcs (hash_iter output.(out_visited_pcs)).

Definition collect_outputs (sh : Shared) : option (list ExecutionTaskOutput) :=
  mapM id (take (N.to_nat (get_n_committed_txs sh.(scheduler))) sh.(execution_outputs)).

Definition finish_chunk `{!UpdatableState RunnableCompiledClass S} (sh : Shared) : option (list (Info + E) * S) :=
  outputs ← collect_outputs sh;
  let visited_pcs := foldl add_visited ∅ outputs in
  block_state ← commit_chunk_and_recover_block_state (get_n_committed_txs sh.(scheduler)) visited_pcs sh.(state);
  Some (tx_result <$> outputs, block_state).
End workers.
Arguments Transaction : clear implicits.
Arguments ExecutionTaskOutput : clear implicits.
Arguments Shared : clear implicits.
