(* ===== verification/Bouncer.v ===== *)
(** The bouncer, which keeps a block within its capacity: [crates/blockifier/src/bouncer.rs], with
    the sizes and costs it uses from [fee/gas_usage.rs], [fee/resources.rs] and
    [transaction/objects.rs].

    [ExecutionResources] and the names of builtins belong to the Cairo virtual machine; their sum
    is a parameter. An arithmetic overflow of [usize] is a panic. *)
From S2P Require Import Prelude StarknetApi StateApi CachedState VersionedState Scheduler WorkerLogic.

(** ** Resources *)

(** The names that the bouncer uses; the others are [other_builtin]. *)
Inductive BuiltinName :=
| add_mod | bitwise | ecdsa | ec_op | keccak | mul_mod | pedersen | poseidon | range_check | range_check96
| segment_arena | other_builtin (id : N).

#[global] Instance BuiltinName_eq_dec : EqDecision BuiltinName.
Proof. solve_decision. Defined.

Definition builtin_code (name : BuiltinName) : N + N :=
  match name with
  | add_mod => inl 0 | bitwise => inl 1 | ecdsa => inl 2 | ec_op => inl 3 | keccak => inl 4 | mul_mod => inl 5
  | pedersen => inl 6 | poseidon => inl 7 | range_check => inl 8 | range_check96 => inl 9 | segment_arena => inl 10
  | other_builtin id => inr id
  end.

Definition builtin_decode (code : N + N) : option BuiltinName :=
  match code with
  | inl 0 => Some add_mod | inl 1 => Some bitwise | inl 2 => Some ecdsa | inl 3 => Some ec_op | inl 4 => Some keccak
  | inl 5 => Some mul_mod | inl 6 => Some pedersen | inl 7 => Some poseidon | inl 8 => Some range_check
  | inl 9 => Some range_check96 | inl 10 => Some segment_arena | inl _ => None
  | inr id => Some (other_builtin id)
  end.

#[global] Program Instance BuiltinName_countable : Countable BuiltinName :=
  inj_countable builtin_code builtin_decode _.
Next Obligation. by intros []. Qed.

Record ExecutionResources := {
  er_n_steps : N;
  er_n_memory_holes : N;
  builtin_instance_counter : gmap BuiltinName N;
}.

Definition ExecutionResources_default : ExecutionResources :=
  {| er_n_steps := 0; er_n_memory_holes := 0; builtin_instance_counter := ∅ |}.

(** The sum of resources, [None] when it overflows. *)
Class ResourcesSum := resources_add : ExecutionResources → ExecutionResources → option ExecutionResources.

(** What is relied on: the sum is taken field by field. *)
Class ResourcesSumLaws `{ResourcesSum} := {
  resources_add_steps a b c : resources_add a b = Some c → c.(er_n_steps) = a.(er_n_steps) + b.(er_n_steps);
  resources_add_holes a b c :
    resources_add a b = Some c → c.(er_n_memory_holes) = a.(er_n_memory_holes) + b.(er_n_memory_holes);
  resources_add_builtins a b c name :
    resources_add a b = Some c →
    default 0 (c.(builtin_instance_counter) !! name) =
      default 0 (a.(builtin_instance_counter) !! name) + default 0 (b.(builtin_instance_counter) !! name);
}.

(** Sums and products of [usize]. *)
Definition usize_add (a b : N) : option N := checked_add u64_max a b.
Definition usize_mul (a b : N) : option N := checked_mul u64_max a b.

Definition N_STEPS_PER_SEGMENT_ARENA_BUILTIN : N := 10.

Definition total_n_steps (self : ExecutionResources) : option N :=
  steps ← usize_add self.(er_n_steps) self.(er_n_memory_holes);
  arena ← usize_mul N_STEPS_PER_SEGMENT_ARENA_BUILTIN (default 0 (self.(builtin_instance_counter) !! segment_arena));
  usize_add steps arena.

Definition prover_builtins (self : ExecutionResources) : gmap BuiltinName N :=
  delete segment_arena self.(builtin_instance_counter).

(** ** Data availability and messages *)

Definition CLASS_UPDATE_SIZE : N := 1.

Definition get_onchain_data_segment_length (state_changes_count : StateChangesCount) : option N :=
  contracts ← usize_mul (N.of_nat state_changes_count.(n_modified_contracts)) 2;
  classes ← usize_mul (N.of_nat state_changes_count.(n_class_hash_updates)) CLASS_UPDATE_SIZE;
  length ← usize_add contracts classes;
  cells ← usize_mul (N.of_nat state_changes_count.(n_storage_updates)) 2;
  length ← usize_add length cells;
  declared ← usize_mul (N.of_nat state_changes_count.(n_compiled_class_hash_updates)) 2;
  usize_add length declared.

Record MessageResources := {
  l2_to_l1_payload_lengths : list N;
  message_segment_length : N;
  l1_handler_payload_size : option N;
}.

Definition GAS_PER_MEMORY_WORD : N := 16 * 32.
Definition GAS_PER_ZERO_TO_NONZERO_STORAGE_SET : N := 20000.
Definition GAS_PER_COUNTER_DECREASE : N := 2100 + 2900.
Definition GAS_PER_LOG : N := 375.
Definition GAS_PER_LOG_TOPIC : N := 375.
Definition GAS_PER_LOG_DATA_WORD : N := 8 * 32.
Definition N_DEFAULT_TOPICS : N := 1.
Definition LOG_MSG_TO_L1_N_TOPICS : N := 2.
Definition CONSUMED_MSG_TO_L2_N_TOPICS : N := 3.
Definition L1_TO_L2_MSG_HEADER_SIZE : N := 5.
Definition L2_TO_L1_MSG_HEADER_SIZE : N := 3.
Definition LOG_MSG_TO_L1_ENCODED_DATA_SIZE : N := L2_TO_L1_MSG_HEADER_SIZE + 1 - LOG_MSG_TO_L1_N_TOPICS.
Definition CONSUMED_MSG_TO_L2_ENCODED_DATA_SIZE : N := L1_TO_L2_MSG_HEADER_SIZE + 1 - CONSUMED_MSG_TO_L2_N_TOPICS.

Definition from_l1_gas (l1_gas : N) : GasVector := {| gv_l1_gas := l1_gas; gv_l1_data_gas := 0; gv_l2_gas := 0 |}.

Definition get_event_emission_cost (n_topics data_length : N) : option GasVector :=
  topics ← usize_add n_topics N_DEFAULT_TOPICS;
  topics ← usize_mul topics GAS_PER_LOG_TOPIC;
  gas ← usize_add GAS_PER_LOG topics;
  data ← usize_mul data_length GAS_PER_LOG_DATA_WORD;
  gas ← usize_add gas data;
  Some (from_l1_gas gas).

Definition get_consumed_message_to_l2_emissions_cost (l1_handler_payload_size : option N) : option GasVector :=
  match l1_handler_payload_size with
  | None => Some (from_l1_gas 0)
  | Some l1_handler_payload_size =>
      data_length ← usize_add CONSUMED_MSG_TO_L2_ENCODED_DATA_SIZE l1_handler_payload_size;
      get_event_emission_cost CONSUMED_MSG_TO_L2_N_TOPICS data_length
  end.

Definition add_gas (accumulator : option GasVector) (cost : option GasVector) : option GasVector :=
  accumulator ← accumulator; cost ← cost; GasVector_checked_add accumulator cost.

Definition get_log_message_to_l1_emissions_cost (l2_to_l1_payload_lengths : list N) : option GasVector :=
  foldl add_gas (Some (from_l1_gas 0))
    ((λ length, data_length ← usize_add LOG_MSG_TO_L1_ENCODED_DATA_SIZE length;
                get_event_emission_cost LOG_MSG_TO_L1_N_TOPICS data_length) <$> l2_to_l1_payload_lengths).

Definition get_starknet_gas_cost (self : MessageResources) : option GasVector :=
  let n_l2_to_l1_messages := N.of_nat (length self.(l2_to_l1_payload_lengths)) in
  let n_l1_to_l2_messages := if self.(l1_handler_payload_size) is Some _ then 1 else 0 in
  let update_cost :=
    segment ← usize_mul self.(message_segment_length) GAS_PER_MEMORY_WORD;
    sent ← usize_mul n_l2_to_l1_messages GAS_PER_ZERO_TO_NONZERO_STORAGE_SET;
    gas ← usize_add segment sent;
    consumed ← usize_mul n_l1_to_l2_messages GAS_PER_COUNTER_DECREASE;
    gas ← usize_add gas consumed;
    Some (from_l1_gas gas) in
  foldl add_gas (Some (from_l1_gas 0))
    [update_cost; get_consumed_message_to_l2_emissions_cost self.(l1_handler_payload_size);
     get_log_message_to_l1_emissions_cost self.(l2_to_l1_payload_lengths)].

(** What the bouncer looks at of [TransactionResources] and [ExecutionSummary]. *)
Record TransactionResources := {
  messages : MessageResources;
  tx_n_events : N;
  vm_resources : ExecutionResources;
  tx_sierra_gas : N;
}.

Record ExecutionSummary := {
  executed_class_hashes : gset N;
  visited_storage_entries : gset (N * N);
}.

(** ** Weights *)

Record BuiltinCount := {
  bc_add_mod : N;
  bc_bitwise : N;
  bc_ecdsa : N;
  bc_ec_op : N;
  bc_keccak : N;
  bc_mul_mod : N;
  bc_pedersen : N;
  bc_poseidon : N;
  bc_range_check : N;
  bc_range_check96 : N;
}.

(** The macro [impl_checked_ops] for the operation [f]. *)
Definition BuiltinCount_checked_op (f : N → N → option N) (self other : BuiltinCount) : option BuiltinCount :=
  add_mod ← f self.(bc_add_mod) other.(bc_add_mod);
  bitwise ← f self.(bc_bitwise) other.(bc_bitwise);
  ec_op ← f self.(bc_ec_op) other.(bc_ec_op);
  ecdsa ← f self.(bc_ecdsa) other.(bc_ecdsa);
  keccak ← f self.(bc_keccak) other.(bc_keccak);
  mul_mod ← f self.(bc_mul_mod) other.(bc_mul_mod);
  pedersen ← f self.(bc_pedersen) other.(bc_pedersen);
  poseidon ← f self.(bc_poseidon) other.(bc_poseidon);
  range_check ← f self.(bc_range_check) other.(bc_range_check);
  range_check96 ← f self.(bc_range_check96) other.(bc_range_check96);
  Some {| bc_add_mod := add_mod; bc_bitwise := bitwise; bc_ecdsa := ecdsa; bc_ec_op := ec_op; bc_keccak := keccak;
          bc_mul_mod := mul_mod; bc_pedersen := pedersen; bc_poseidon := poseidon; bc_range_check := range_check;
          bc_range_check96 := range_check96 |}.

Definition BuiltinCount_empty : BuiltinCount :=
  {| bc_add_mod := 0; bc_bitwise := 0; bc_ecdsa := 0; bc_ec_op := 0; bc_keccak := 0; bc_mul_mod := 0;
     bc_pedersen := 0; bc_poseidon := 0; bc_range_check := 0; bc_range_check96 := 0 |}.

(** [From<HashMapWrapper>]: a builtin that is not counted is a panic. *)
Definition counted_builtins : list BuiltinName :=
  [add_mod; bitwise; ecdsa; ec_op; keccak; mul_mod; pedersen; poseidon; range_check; range_check96].

Definition BuiltinCount_from (data : gmap BuiltinName N) : option BuiltinCount :=
  let take name := default 0 (data !! name) in
  if decide (foldr delete data counted_builtins = ∅) then
    Some {| bc_add_mod := take add_mod; bc_bitwise := take bitwise; bc_ecdsa := take ecdsa; bc_ec_op := take ec_op;
            bc_keccak := take keccak; bc_mul_mod := take mul_mod; bc_pedersen := take pedersen;
            bc_poseidon := take poseidon; bc_range_check := take range_check; bc_range_check96 := take range_check96 |}
  else None.

Record BouncerWeights := {
  builtin_count : BuiltinCount;
  l1_gas : N;
  bw_message_segment_length : N;
  n_events : N;
  n_steps : N;
  state_diff_size : N;
  sierra_gas : N;
}.

Definition BouncerWeights_checked_op (f : N → N → option N) (self other : BouncerWeights) : option BouncerWeights :=
  builtins ← BuiltinCount_checked_op f self.(builtin_count) other.(builtin_count);
  gas ← f self.(l1_gas) other.(l1_gas);
  segment ← f self.(bw_message_segment_length) other.(bw_message_segment_length);
  events ← f self.(n_events) other.(n_events);
  steps ← f self.(n_steps) other.(n_steps);
  diff ← f self.(state_diff_size) other.(state_diff_size);
  sierra ← f self.(sierra_gas) other.(sierra_gas);
  Some {| builtin_count := builtins; l1_gas := gas; bw_message_segment_length := segment; n_events := events;
          n_steps := steps; state_diff_size := diff; sierra_gas := sierra |}.

Definition BouncerWeights_checked_sub := BouncerWeights_checked_op checked_sub.
Definition BouncerWeights_checked_add := BouncerWeights_checked_op (checked_add u64_max).

Definition BouncerWeights_has_room (self other : BouncerWeights) : bool :=
  bool_decide (is_Some (BouncerWeights_checked_sub self other)).

Definition BouncerWeights_empty : BouncerWeights :=
  {| builtin_count := BuiltinCount_empty; l1_gas := 0; bw_message_segment_length := 0; n_events := 0; n_steps := 0;
     state_diff_size := 0; sierra_gas := 0 |}.

Record BouncerConfig := { block_max_capacity : BouncerWeights }.

Definition BouncerConfig_empty : BouncerConfig := {| block_max_capacity := BouncerWeights_empty |}.

Definition has_room (self : BouncerConfig) (weights : BouncerWeights) : bool :=
  BouncerWeights_has_room self.(block_max_capacity) weights.

(** The errors of executing a transaction that the bouncer may give; [X] are the others. *)
Inductive TransactionExecutionError (X : Type) :=
| TxStateError (e : StateError)
| TransactionTooLarge (max_capacity tx_size : BouncerWeights)
| OtherExecutionError (e : X).
Arguments TxStateError {X} e.
Arguments TransactionTooLarge {X} max_capacity tx_size.
Arguments OtherExecutionError {X} e.

Definition within_max_capacity_or_err {X} (self : BouncerConfig) (weights : BouncerWeights)
    : result (TransactionExecutionError X) unit :=
  if BouncerWeights_has_room self.(block_max_capacity) weights then Ok tt
  else Err (TransactionTooLarge self.(block_max_capacity) weights).

(** ** The bouncer *)

Record Bouncer := {
  b_executed_class_hashes : gset N;
  b_visited_storage_entries : gset (N * N);
  b_state_changes_keys : StateChangesKeys;
  bouncer_config : BouncerConfig;
  accumulated_weights : BouncerWeights;
}.

Definition StateChangesKeys_default : StateChangesKeys :=
  {| nonce_keys := ∅; class_hash_keys := ∅; storage_keys := ∅; compiled_class_hash_keys := ∅; modified_contracts := ∅ |}.

Definition Bouncer_new (config : BouncerConfig) : Bouncer :=
  {| b_executed_class_hashes := ∅; b_visited_storage_entries := ∅; b_state_changes_keys := StateChangesKeys_default;
     bouncer_config := config; accumulated_weights := BouncerWeights_empty |}.

Definition get_particia_update_resources (n_visited_storage_entries : N) : option ExecutionResources :=
  let TREE_HEIGHT_UPPER_BOUND := 24 in
  n_updates ← usize_mul n_visited_storage_entries TREE_HEIGHT_UPPER_BOUND;
  steps ← usize_mul 32 n_updates;
  hashes ← usize_mul 2 n_updates;
  Some {| er_n_steps := steps; er_n_memory_holes := 0; builtin_instance_counter := {[pedersen := hashes]} |}.

Section bouncer.
Context `{HashOrder} `{ResourcesSum} {RunnableCompiledClass X : Type}.
(** The estimate for the hash of a class, a method of the class. *)
Context (estimate_casm_hash_computation_resources : RunnableCompiledClass → ExecutionResources).
Abbreviation Tries := (Tries RunnableCompiledClass (TransactionExecutionError X)).

Definition tries_expect {E A} (o : option A) : StateApi.Tries RunnableCompiledClass E A :=
  tries (match o with Some a => Ok a | None => Panic end).

(** The loop over the classes. *)
Fixpoint add_casm_resources (class_hashes : list N) (resources : ExecutionResources) : Tries ExecutionResources :=
  match class_hashes with
  | [] => mret resources
  | class_hash :: class_hashes =>
      Ask (GetCompiledClass class_hash) (λ class,
        match class with
        | SErr e => tries (Err (TxStateError e))
        | SOk class =>
            resources ← tries_expect (resources_add resources (estimate_casm_hash_computation_resources class));
            add_casm_resources class_hashes resources
        end)
  end.

Definition get_casm_hash_calculation_resources (executed_class_hashes : gset N) : Tries ExecutionResources :=
  add_casm_resources (hash_keys (gset_to_gmap tt executed_class_hashes)) ExecutionResources_default.

Definition get_tx_weights (executed_class_hashes : gset N) (n_visited_storage_entries : N)
    (tx_resources : TransactionResources) (state_changes_keys : StateChangesKeys) : Tries BouncerWeights :=
  let message_resources := tx_resources.(messages) in
  message_starknet_gas ← tries_expect (get_starknet_gas_cost message_resources);
  additional_os_resources ← get_casm_hash_calculation_resources executed_class_hashes;
  patricia ← tries_expect (get_particia_update_resources n_visited_storage_entries);
  additional_os_resources ← tries_expect (resources_add additional_os_resources patricia);
  vm_resources ← tries_expect (resources_add additional_os_resources tx_resources.(vm_resources));
  steps ← tries_expect (total_n_steps vm_resources);
  builtins ← tries_expect (BuiltinCount_from (prover_builtins vm_resources));
  diff ← tries_expect (get_onchain_data_segment_length (keys_count state_changes_keys));
  mret {| l1_gas := message_starknet_gas.(gv_l1_gas);
          bw_message_segment_length := message_resources.(message_segment_length);
          n_events := tx_resources.(tx_n_events); n_steps := steps; builtin_count := builtins;
          state_diff_size := diff; sierra_gas := tx_resources.(tx_sierra_gas) |}.

Definition Bouncer_update (self : Bouncer) (tx_weights : BouncerWeights) (tx_execution_summary : ExecutionSummary)
    (state_changes_keys : StateChangesKeys) : option Bouncer :=
  weights ← BouncerWeights_checked_add self.(accumulated_weights) tx_weights;
  Some {| accumulated_weights := weights;
          b_visited_storage_entries :=
            self.(b_visited_storage_entries) ∪ tx_execution_summary.(visited_storage_entries);
          b_executed_class_hashes := self.(b_executed_class_hashes) ∪ tx_execution_summary.(executed_class_hashes);
          b_state_changes_keys := keys_extend self.(b_state_changes_keys) state_changes_keys;
          bouncer_config := self.(bouncer_config) |}.

(** [From<TransactionExecutionError>] in the operator [?]. *)
Definition from_execution_error {A} (m : Tries A)
    : StateApi.Tries RunnableCompiledClass (TransactionExecutorError (TransactionExecutionError X)) A :=
  Reads_bind _ _ (λ r, Return match r with
                              | Ok a => Ok a
                              | Err e => Err (ExecutorTransactionExecutionError e)
                              | Panic => Panic
                              end) m.

Definition Bouncer_try_update (self : Bouncer) (tx_state_changes_keys : StateChangesKeys)
    (tx_execution_summary : ExecutionSummary) (tx_resources : TransactionResources)
    : StateApi.Tries RunnableCompiledClass (TransactionExecutorError (TransactionExecutionError X)) Bouncer :=
  let marginal_state_changes_keys := keys_difference tx_state_changes_keys self.(b_state_changes_keys) in
  let marginal_executed_class_hashes :=
    tx_execution_summary.(executed_class_hashes) ∖ self.(b_executed_class_hashes) in
  let n_marginal_visited_storage_entries :=
    N.of_nat (size (tx_execution_summary.(visited_storage_entries) ∖ self.(b_visited_storage_entries))) in
  tx_weights ← from_execution_error
    (get_tx_weights marginal_executed_class_hashes n_marginal_visited_storage_entries tx_resources
       marginal_state_changes_keys);
  next_weights ← tries_expect (BouncerWeights_checked_add self.(accumulated_weights) tx_weights);
  if has_room self.(bouncer_config) next_weights then
    tries_expect (Bouncer_update self tx_weights tx_execution_summary marginal_state_changes_keys)
  else tries (Err BlockFull).

Definition verify_tx_weights_within_max_capacity (tx_execution_summary : ExecutionSummary)
    (tx_resources : TransactionResources) (tx_state_changes_keys : StateChangesKeys) (bouncer_config : BouncerConfig)
    : Tries unit :=
  tx_weights ← get_tx_weights tx_execution_summary.(executed_class_hashes)
    (N.of_nat (size tx_execution_summary.(visited_storage_entries))) tx_resources tx_state_changes_keys;
  tries (within_max_capacity_or_err bouncer_config tx_weights).

(** The bouncer of the block, for the workers: [summarize] is the summary of the execution info. *)
Definition bouncer_of_block {I} (summarize : TransactionExecutionInfo I → ExecutionSummary)
    (resources : TransactionExecutionInfo I → TransactionResources)
    : BlockBouncer RunnableCompiledClass I (TransactionExecutionError X) Bouncer :=
  λ self tx_state_changes_keys tx_execution_info,
    Bouncer_try_update self tx_state_changes_keys (summarize tx_execution_info) (resources tx_execution_info).
End bouncer.

(** ** What a block weighs *)

(** Sums over lists and sets. *)
Definition sum_of {A} (f : A → N) (l : list A) : N := foldr (λ x n, f x + n) 0 l.
Definition set_sum (f : N → N) (X : gset N) : N := sum_of f (elements X).

Lemma sum_of_app {A} (f : A → N) l l' : sum_of f (l ++ l') = sum_of f l + sum_of f l'.
Proof. induction l as [|x l IH]; cbn; [done|]. unfold sum_of in *. lia. Qed.

Lemma sum_of_snoc {A} (f : A → N) l x : sum_of f (l ++ [x]) = sum_of f l + f x.
Proof. rewrite sum_of_app. cbn. lia. Qed.

#[global] Instance sum_of_perm {A} (f : A → N) : Proper ((≡ₚ) ==> (=)) (sum_of f).
Proof. induction 1; cbn; unfold sum_of in *; lia. Qed.

Lemma union_difference_same {A} `{Countable A} (X Y : gset A) : X ∪ Y ∖ X = X ∪ Y.
Proof. apply set_eq. intros x. destruct (decide (x ∈ X)); set_solver. Qed.

Lemma set_sum_union f X Y : set_sum f (X ∪ Y) = set_sum f X + set_sum f (Y ∖ X).
Proof.
  unfold set_sum. rewrite <-sum_of_app, <-elements_disj_union by set_solver. by rewrite union_difference_same.
Qed.

(** A count of resources, such as the steps or the instances of a builtin. *)
Definition steps_of (r : ExecutionResources) : N :=
  r.(er_n_steps) + r.(er_n_memory_holes)
  + N_STEPS_PER_SEGMENT_ARENA_BUILTIN * default 0 (r.(builtin_instance_counter) !! segment_arena).

Definition instances_of (name : BuiltinName) (r : ExecutionResources) : N :=
  default 0 (r.(builtin_instance_counter) !! name).

(** The hashes of the Patricia trees for [n] storage entries. *)
Definition patricia_resources (n : N) : ExecutionResources :=
  {| er_n_steps := 32 * (n * 24); er_n_memory_holes := 0; builtin_instance_counter := {[pedersen := 2 * (n * 24)]} |}.

Record BouncerTx := {
  bt_keys : StateChangesKeys;
  bt_summary : ExecutionSummary;
  bt_resources : TransactionResources;
}.

Definition all_classes (txs : list BouncerTx) : gset N :=
  foldl (λ X tx, X ∪ tx.(bt_summary).(executed_class_hashes)) ∅ txs.
Definition all_entries (txs : list BouncerTx) : gset (N * N) :=
  foldl (λ X tx, X ∪ tx.(bt_summary).(visited_storage_entries)) ∅ txs.
Definition all_keys (txs : list BouncerTx) : StateChangesKeys :=
  foldl (λ k tx, keys_extend k tx.(bt_keys)) StateChangesKeys_default txs.

Definition diff_size (keys : StateChangesKeys) : N :=
  let count := keys_count keys in
  2 * N.of_nat count.(n_modified_contracts) + N.of_nat count.(n_class_hash_updates)
  + 2 * N.of_nat count.(n_storage_updates) + 2 * N.of_nat count.(n_compiled_class_hash_updates).

Definition weights_le (w w' : BouncerWeights) : Prop := is_Some (BouncerWeights_checked_sub w' w).

Section exact.
Context `{HashOrder} `{ResourcesSumLaws} {RunnableCompiledClass X : Type}.
Context (estimate : RunnableCompiledClass → ExecutionResources) (class_of : N → RunnableCompiledClass).
Abbreviation View := (View RunnableCompiledClass).
Implicit Types (σ : View) (txs : list BouncerTx) (tx : BouncerTx).

(** Each class is hashed once and each storage entry is updated once, however many transactions
    use it; what the transactions themselves spend adds up. *)
Definition usage (count : ExecutionResources → N) txs : N :=
  sum_of (λ tx, count tx.(bt_resources).(vm_resources)) txs
  + set_sum (λ h, count (estimate (class_of h))) (all_classes txs)
  + count (patricia_resources (N.of_nat (size (all_entries txs)))).

Definition gas_of tx : N := from_option gv_l1_gas 0 (get_starknet_gas_cost tx.(bt_resources).(messages)).

(** Weights from the counts of the resources. *)
Definition weights_from (counts : (ExecutionResources → N) → N) (gas segment events diff sierra : N) : BouncerWeights := {|
  builtin_count := {|
    bc_add_mod := counts (instances_of add_mod); bc_bitwise := counts (instances_of bitwise);
    bc_ecdsa := counts (instances_of ecdsa); bc_ec_op := counts (instances_of ec_op);
    bc_keccak := counts (instances_of keccak); bc_mul_mod := counts (instances_of mul_mod);
    bc_pedersen := counts (instances_of pedersen); bc_poseidon := counts (instances_of poseidon);
    bc_range_check := counts (instances_of range_check); bc_range_check96 := counts (instances_of range_check96) |};
  l1_gas := gas; bw_message_segment_length := segment; n_events := events; n_steps := counts steps_of;
  state_diff_size := diff; sierra_gas := sierra;
|}.

Definition block_weights txs : BouncerWeights :=
  weights_from (λ count, usage count txs) (sum_of gas_of txs)
    (sum_of (λ tx, tx.(bt_resources).(messages).(message_segment_length)) txs)
    (sum_of (λ tx, tx.(bt_resources).(tx_n_events)) txs) (diff_size (all_keys txs))
    (sum_of (λ tx, tx.(bt_resources).(tx_sierra_gas)) txs).

(** A sequence of transactions that the bouncer admits, each in a state where classes have
    their hashes. *)
Definition reads_classes σ : Prop := ∀ h c, σ (GetCompiledClass h) = SOk c → c = class_of h.

Definition accept_tx (b : Bouncer) tx σ : result (TransactionExecutorError (TransactionExecutionError X)) Bouncer :=
  run_reads (Bouncer_try_update estimate b tx.(bt_keys) tx.(bt_summary) tx.(bt_resources)) σ.

Inductive accepted (config : BouncerConfig) : list BouncerTx → Bouncer → Prop :=
| accepted_nil : accepted config [] (Bouncer_new config)
| accepted_snoc txs b tx σ b' :
    accepted config txs b → reads_classes σ → accept_tx b tx σ = Ok b' → accepted config (txs ++ [tx]) b'.

(** ** The weight of one transaction *)

Record linear (count : ExecutionResources → N) : Prop := {
  lin_default : count ExecutionResources_default = 0;
  lin_add a b c : resources_add a b = Some c → count c = count a + count b;
  lin_patricia n m : count (patricia_resources (n + m)) = count (patricia_resources n) + count (patricia_resources m);
}.

Lemma steps_linear : linear steps_of.
Proof.
  split.
  - by vm_compute.
  - intros a b c Hc. unfold steps_of. rewrite (resources_add_steps _ _ _ Hc), (resources_add_holes _ _ _ Hc),
      (resources_add_builtins _ _ _ segment_arena Hc). lia.
  - intros n m. unfold steps_of, patricia_resources. cbn. rewrite !lookup_singleton_ne by done. cbn. lia.
Qed.

Lemma instances_linear name : linear (instances_of name).
Proof.
  split.
  - unfold instances_of. cbn. by rewrite lookup_empty.
  - intros a b c Hc. apply (resources_add_builtins _ _ _ name Hc).
  - intros n m. unfold instances_of, patricia_resources. cbn. destruct (decide (name = pedersen)) as [->|Hne].
    + rewrite !lookup_singleton_eq. cbn. lia.
    + rewrite !lookup_singleton_ne by done. done.
Qed.

Lemma run_tries_inv {E A B} (m : Tries RunnableCompiledClass E A) (f : A → Tries RunnableCompiledClass E B) σ x :
  run_reads (m ≫= f) σ = Ok x → ∃ a, run_reads m σ = Ok a ∧ run_reads (f a) σ = Ok x.
Proof. rewrite run_tries_bind. destruct (run_reads m σ); naive_solver. Qed.

Lemma run_expect_inv {E A B} (o : option A) (f : A → Tries RunnableCompiledClass E B) σ x :
  run_reads (tries_expect o ≫= f) σ = Ok x → ∃ a, o = Some a ∧ run_reads (f a) σ = Ok x.
Proof. intros (a&Ho&Hf)%run_tries_inv. exists a. split; [|done]. by destruct o; cbn in Ho; simplify_eq. Qed.

Lemma casm_exact count hashes r0 r σ :
  linear count → reads_classes σ → run_reads (add_casm_resources (X := X) estimate hashes r0) σ = Ok r →
  count r = count r0 + sum_of (λ h, count (estimate (class_of h))) hashes.
Proof.
  intros Hlin Hσ. revert r0. induction hashes as [|h hashes IH]; intros r0; cbn [add_casm_resources run_reads].
  - intros [= ->]. cbn. lia.
  - destruct (σ (GetCompiledClass h)) as [c|e] eqn:Hc; [|done]. apply Hσ in Hc as ->.
    intros (r1&Hadd&Hrun)%run_expect_inv. rewrite (IH _ Hrun), (lin_add _ Hlin _ _ _ Hadd). cbn. unfold sum_of. lia.
Qed.

Lemma hash_keys_set (Y : gset N) : hash_keys (gset_to_gmap tt Y) ≡ₚ elements Y.
Proof.
  apply NoDup_Permutation; [apply NoDup_hash_keys|apply NoDup_elements|]. intros h.
  rewrite elem_of_hash_keys, elem_of_elements, lookup_gset_to_gmap. destruct (decide (h ∈ Y)) as [Hin|Hin].
  - rewrite option_guard_True by done. split; [done|by eexists].
  - rewrite option_guard_False by done. split; [by intros []|done].
Qed.

(** What a transaction adds. *)
Definition marginal (classes : gset N) (n : N) (resources : TransactionResources) (count : ExecutionResources → N) : N :=
  set_sum (λ h, count (estimate (class_of h))) classes + count (patricia_resources n) + count resources.(vm_resources).

(** The intermediate results of a checked computation that does not overflow. *)
Ltac no_overflow H :=
  repeat (apply bind_Some in H; let x := fresh "x" in let Hx := fresh "Hx" in destruct H as (x&Hx&H));
  unfold usize_add, usize_mul, checked_add, checked_mul in *; repeat case_decide; simplify_eq.

Lemma total_n_steps_exact r n : total_n_steps r = Some n → n = steps_of r.
Proof.
  unfold total_n_steps, steps_of. intros Hn. by no_overflow Hn.
Qed.

Lemma diff_size_exact keys n : get_onchain_data_segment_length (keys_count keys) = Some n → n = diff_size keys.
Proof.
  unfold get_onchain_data_segment_length, diff_size. intros Hn. no_overflow Hn. unfold CLASS_UPDATE_SIZE. lia.
Qed.

Lemma patricia_exact n r : get_particia_update_resources n = Some r → r = patricia_resources n.
Proof.
  unfold get_particia_update_resources. intros Hr. by no_overflow Hr.
Qed.

Lemma builtins_exact r counts :
  BuiltinCount_from (prover_builtins r) = Some counts →
  counts = (weights_from (λ count, count r) 0 0 0 0 0).(builtin_count).
Proof.
  unfold BuiltinCount_from, prover_builtins. case_decide; [|done]. intros [= <-]. cbn. unfold instances_of.
  by rewrite !lookup_delete_ne by done.
Qed.

Lemma get_tx_weights_exact classes n resources keys w σ :
  reads_classes σ → run_reads (get_tx_weights (X := X) estimate classes n resources keys) σ = Ok w →
  w = weights_from (marginal classes n resources) (from_option gv_l1_gas 0 (get_starknet_gas_cost resources.(messages)))
        resources.(messages).(message_segment_length) resources.(tx_n_events) (diff_size keys) resources.(tx_sierra_gas).
Proof.
  intros Hσ. unfold get_tx_weights. intros (gas&Hgas&(r&Hr&(p&Hp%patricia_exact&(r1&Hr1&(r2&Hr2&(s&Hs%total_n_steps_exact&
    (b&Hb%builtins_exact&(d&Hd%diff_size_exact&Hw)%run_expect_inv)%run_expect_inv)%run_expect_inv)%run_expect_inv)%run_expect_inv)%run_expect_inv)%run_tries_inv)%run_expect_inv.
  cbn in Hw. injection Hw as <-. subst.
  assert (∀ count, linear count → count r2 = marginal classes n resources count) as Hcount.
  { intros count Hlin. rewrite (lin_add _ Hlin _ _ _ Hr2), (lin_add _ Hlin _ _ _ Hr1), (casm_exact _ _ _ _ _ Hlin Hσ Hr), (lin_default _ Hlin).
    unfold marginal, set_sum. rewrite hash_keys_set. lia. }
  unfold weights_from. rewrite Hgas. cbn. rewrite (Hcount _ steps_linear), !(Hcount _ (instances_linear _)). done.
Qed.

(** ** The weight of a block *)

Lemma checked_add_exact m a b c : checked_add m a b = Some c → a + b = c.
Proof. unfold checked_add. case_decide; congruence. Qed.

(** The fields of checked sums. *)
Ltac sum_fields H :=
  repeat (apply bind_Some in H; let x := fresh "x" in let Hx := fresh "Hx" in
          destruct H as (x&Hx&H); apply checked_add_exact in Hx; subst x).

Lemma builtins_add_exact m a b c :
  BuiltinCount_checked_op (checked_add m) a b = Some c →
  c = {| bc_add_mod := a.(bc_add_mod) + b.(bc_add_mod); bc_bitwise := a.(bc_bitwise) + b.(bc_bitwise);
         bc_ecdsa := a.(bc_ecdsa) + b.(bc_ecdsa); bc_ec_op := a.(bc_ec_op) + b.(bc_ec_op);
         bc_keccak := a.(bc_keccak) + b.(bc_keccak); bc_mul_mod := a.(bc_mul_mod) + b.(bc_mul_mod);
         bc_pedersen := a.(bc_pedersen) + b.(bc_pedersen); bc_poseidon := a.(bc_poseidon) + b.(bc_poseidon);
         bc_range_check := a.(bc_range_check) + b.(bc_range_check);
         bc_range_check96 := a.(bc_range_check96) + b.(bc_range_check96) |}.
Proof. intros Hc. unfold BuiltinCount_checked_op in Hc. sum_fields Hc. by injection Hc as <-. Qed.

Lemma weights_add_exact f g s e d y f' g' s' e' d' y' w :
  BouncerWeights_checked_add (weights_from f g s e d y) (weights_from f' g' s' e' d' y') = Some w →
  w = weights_from (λ count, f count + f' count) (g + g') (s + s') (e + e') (d + d') (y + y').
Proof.
  unfold BouncerWeights_checked_add, BouncerWeights_checked_op. intros Hw.
  apply bind_Some in Hw as (b&->%builtins_add_exact&Hw). sum_fields Hw. by injection Hw as <-.
Qed.

Lemma usage_snoc count txs tx :
  linear count →
  usage count (txs ++ [tx]) = usage count txs +
    marginal (tx.(bt_summary).(executed_class_hashes) ∖ all_classes txs)
      (N.of_nat (size (tx.(bt_summary).(visited_storage_entries) ∖ all_entries txs))) tx.(bt_resources) count.
Proof.
  intros Hlin. unfold usage, marginal, all_classes, all_entries. rewrite !foldl_app, sum_of_snoc. cbn [foldl].
  rewrite set_sum_union, size_union_alt, Nat2N.inj_add, (lin_patricia _ Hlin). lia.
Qed.

Lemma diff_size_snoc txs tx :
  diff_size (all_keys (txs ++ [tx])) = diff_size (all_keys txs) + diff_size (keys_difference tx.(bt_keys) (all_keys txs)).
Proof.
  unfold all_keys. rewrite foldl_app. set (k := foldl _ _ txs). set (k' := tx.(bt_keys)).
  unfold diff_size. cbn [foldl keys_count keys_extend keys_difference n_modified_contracts n_class_hash_updates n_storage_updates
    n_compiled_class_hash_updates modified_contracts class_hash_keys storage_keys compiled_class_hash_keys]. fold k'.
  rewrite (size_union_alt k.(modified_contracts)), (size_union_alt k.(class_hash_keys)), (size_union_alt k.(storage_keys)),
    (size_union_alt k.(compiled_class_hash_keys)). lia.
Qed.

Lemma keys_extend_difference k k' : keys_extend k (keys_difference k' k) = keys_extend k k'.
Proof.
  unfold keys_extend, keys_difference. cbn [nonce_keys class_hash_keys storage_keys compiled_class_hash_keys modified_contracts].
  by rewrite !union_difference_same.
Qed.

(** The bouncer after the transactions. *)
Record tracks txs (b : Bouncer) : Prop := {
  tr_classes : b.(b_executed_class_hashes) = all_classes txs;
  tr_entries : b.(b_visited_storage_entries) = all_entries txs;
  tr_keys : b.(b_state_changes_keys) = all_keys txs;
  tr_weights : b.(accumulated_weights) = block_weights txs;
}.

Lemma next_weights_exact txs b tx w total σ :
  tracks txs b → reads_classes σ →
  run_reads (get_tx_weights (X := X) estimate (tx.(bt_summary).(executed_class_hashes) ∖ b.(b_executed_class_hashes))
    (N.of_nat (size (tx.(bt_summary).(visited_storage_entries) ∖ b.(b_visited_storage_entries)))) tx.(bt_resources)
    (keys_difference tx.(bt_keys) b.(b_state_changes_keys))) σ = Ok w →
  BouncerWeights_checked_add b.(accumulated_weights) w = Some total → total = block_weights (txs ++ [tx]).
Proof.
  intros [-> -> -> ->] Hσ ->%(get_tx_weights_exact _ _ _ _ _ _ Hσ) ->%weights_add_exact. unfold block_weights, weights_from.
  rewrite (usage_snoc _ _ _ steps_linear), !(usage_snoc _ _ _ (instances_linear _)), !sum_of_snoc, diff_size_snoc. done.
Qed.

Lemma run_from_execution_error {A} (m : Tries RunnableCompiledClass (TransactionExecutionError X) A) σ :
  run_reads (from_execution_error m) σ =
    match run_reads m σ with Ok a => Ok a | Err e => Err (ExecutorTransactionExecutionError e) | Panic => Panic end.
Proof.
  unfold from_execution_error. change (Reads_bind _ _) with (mbind (M := Reads RunnableCompiledClass) (A := result (TransactionExecutionError X) A) (B := result (TransactionExecutorError (TransactionExecutionError X)) A)).
  rewrite run_reads_bind. done.
Qed.

Lemma accept_exact txs b tx σ :
  tracks txs b → reads_classes σ →
  match accept_tx b tx σ with
  | Ok b' => tracks (txs ++ [tx]) b' ∧ b'.(bouncer_config) = b.(bouncer_config) ∧
             weights_le (block_weights (txs ++ [tx])) b.(bouncer_config).(block_max_capacity)
  | Err BlockFull => ¬ weights_le (block_weights (txs ++ [tx])) b.(bouncer_config).(block_max_capacity)
  | _ => True
  end.
Proof.
  intros Hb Hσ. unfold accept_tx, Bouncer_try_update. rewrite run_tries_bind. rewrite run_from_execution_error.
  destruct (run_reads (get_tx_weights _ _ _ _ _) σ) as [w|e|] eqn:Hw; [|done..]. rewrite run_tries_bind. cbn [tries_expect tries run_reads].
  destruct (BouncerWeights_checked_add _ w) as [total|] eqn:Htotal; [|done].
  pose proof (next_weights_exact _ _ _ _ _ _ Hb Hσ Hw Htotal) as ->.
  unfold has_room, BouncerWeights_has_room. case_bool_decide as Hfits; [|done]. unfold Bouncer_update. rewrite Htotal. cbn.
  split; [|done]. destruct Hb as [Hc He Hk Hacc]. split; [| | |done]; unfold all_classes, all_entries, all_keys in *;
    rewrite foldl_app; cbn [foldl b_executed_class_hashes b_visited_storage_entries b_state_changes_keys]; [congruence..|].
  by rewrite Hk, keys_extend_difference.
Qed.

Lemma weights_le_empty w : weights_le BouncerWeights_empty w.
Proof.
  unfold weights_le, BouncerWeights_checked_sub, BouncerWeights_checked_op, BuiltinCount_checked_op.
  assert (∀ n, checked_sub n 0 = Some n) as Hsub by (intros n; unfold checked_sub; rewrite decide_True by lia; f_equal; lia).
  cbn. by rewrite !Hsub.
Qed.

Lemma tracks_new config : tracks [] (Bouncer_new config) ∧ block_weights [] = BouncerWeights_empty.
Proof.
  assert (block_weights [] = BouncerWeights_empty) as Hw; [|by split; [split|]].
  assert (∀ count, count (patricia_resources 0) = 0 → usage count [] = 0) as Hu by (intros count Hz; exact Hz).
  unfold block_weights, weights_from. rewrite !Hu; done.
Qed.

(** C14: the bouncer keeps a block within its capacity, and weighs it exactly. After the
    transactions it has accepted, the accumulated weights are those of the block: what the transactions
    spent, with every class hashed once, every storage entry updated once and every change of the state
    counted once, whatever transactions share them. These weights are within the capacity, and a
    transaction is turned away as not fitting only when the block with it would exceed the capacity. *)
Theorem bouncer_exact config txs b :
  accepted config txs b →
  b.(accumulated_weights) = block_weights txs ∧ weights_le (block_weights txs) config.(block_max_capacity) ∧
  ∀ tx σ, reads_classes σ → accept_tx b tx σ = Err BlockFull →
    ¬ weights_le (block_weights (txs ++ [tx])) config.(block_max_capacity).
Proof.
  intros Ha. assert (tracks txs b ∧ b.(bouncer_config) = config ∧ weights_le (block_weights txs) config.(block_max_capacity)) as (Ht&Hc&Hle).
  { induction Ha as [|txs b tx σ b' _ (Ht&Hc&_) Hσ Hok].
    - destruct (tracks_new config) as [Ht ->]. split; [done|]. split; [done|]. apply weights_le_empty.
    - pose proof (accept_exact _ _ tx σ Ht Hσ) as Hx. rewrite Hok in Hx. destruct Hx as (Ht'&Hc'&Hle'). rewrite Hc', Hc in *. done. }
  split; [apply Ht|]. split; [done|]. intros tx σ Hσ Hfull. pose proof (accept_exact _ _ tx σ Ht Hσ) as Hx.
  by rewrite Hfull, Hc in Hx.
Qed.
End exact.

(** ** An example *)

Module BouncerExample.
#[local] Existing Instance canonical_order.

#[export] Instance sum_fields : ResourcesSum := λ a b,
  Some {| er_n_steps := a.(er_n_steps) + b.(er_n_steps); er_n_memory_holes := a.(er_n_memory_holes) + b.(er_n_memory_holes);
          builtin_instance_counter :=
            union_with (λ x y, Some (x + y)) a.(builtin_instance_counter) b.(builtin_instance_counter) |}.

#[export] Instance sum_fields_laws : ResourcesSumLaws.
Proof.
  split; intros a b c; [..|intros name]; intros [= <-]; cbn; [done..|]. rewrite lookup_union_with.
  destruct (builtin_instance_counter a !! name), (builtin_instance_counter b !! name); cbn; lia.
Qed.

(** Every class takes ten steps for its hash; transactions write one cell each. *)
Definition estimate (_ : N) : ExecutionResources :=
  {| er_n_steps := 10; er_n_memory_holes := 0; builtin_instance_counter := ∅ |}.

Definition write_cell (cell : N * N) (steps : N) : BouncerTx := {|
  bt_keys := {| nonce_keys := ∅; class_hash_keys := ∅; storage_keys := {[cell]}; compiled_class_hash_keys := ∅;
                modified_contracts := {[cell.1]} |};
  bt_summary := {| executed_class_hashes := {[9]}; visited_storage_entries := {[cell]} |};
  bt_resources := {| messages := {| l2_to_l1_payload_lengths := []; message_segment_length := 0; l1_handler_payload_size := None |};
                     tx_n_events := 1; tx_sierra_gas := 0;
                     vm_resources := {| er_n_steps := steps; er_n_memory_holes := 0;
                                        builtin_instance_counter := {[segment_arena := 1]} |} |};
|}.

Definition capacity : BouncerConfig := {| block_max_capacity :=
  {| builtin_count := {| bc_add_mod := 0; bc_bitwise := 0; bc_ecdsa := 0; bc_ec_op := 0; bc_keccak := 0; bc_mul_mod := 0;
                         bc_pedersen := 100; bc_poseidon := 0; bc_range_check := 0; bc_range_check96 := 0 |};
     l1_gas := 0; bw_message_segment_length := 0; n_events := 2; n_steps := 2000; state_diff_size := 6; sierra_gas := 0 |} |}.

Definition classes : View N := λ q,
  match q with GetCompiledClass h => SOk h | GetStorageAt _ _ | GetNonceAt _ | GetClassHashAt _ | GetCompiledClassHash _ => SOk 0 end.

(** Two transactions that write the same cell: it is counted once, and so is the class. *)
Definition tx1 : BouncerTx := write_cell (5, 6) 100.
Definition tx2 : BouncerTx := write_cell (5, 6) 200.

Definition accept (b : Bouncer) (tx : BouncerTx) : Bouncer :=
  match accept_tx (X := unit) estimate b tx classes with Ok b => b | _ => b end.

Definition after_one : Bouncer := accept (Bouncer_new capacity) tx1.
Definition after_two : Bouncer := accept after_one tx2.

Lemma bouncer_exact_witness :
  after_two.(accumulated_weights).(n_steps) = 100 + 10 + 768 + 10 + 200 + 10 ∧
  after_two.(accumulated_weights).(state_diff_size) = 4 ∧
  weights_le after_two.(accumulated_weights) capacity.(block_max_capacity).
Proof.
  assert (accepted (X := unit) estimate (λ h, h) capacity [tx1; tx2] after_two) as Ha.
  { assert (reads_classes (λ h, h) classes) as Hc by (intros h c Hhc; cbn in Hhc; congruence).
    apply (accepted_snoc _ _ _ [tx1] after_one tx2 classes after_two); [|done|vm_compute; reflexivity].
    apply (accepted_snoc _ _ _ [] (Bouncer_new capacity) tx1 classes after_one); [constructor|done|vm_compute; reflexivity]. }
  destruct (bouncer_exact (X := unit) estimate (λ h, h) capacity [tx1; tx2] after_two Ha) as (Hw&Hle&_).
  split; [vm_compute; reflexivity|]. split; [vm_compute; reflexivity|]. rewrite Hw. exact Hle.
Defined.
End BouncerExample.
