(* ===== verification/ConcurrencySpec.v ===== *)
(** What the concurrent execution of a chunk is proved against: its transactions executed one
    after the other, each on the state that the ones before it left, until the block is full. *)
From S2P Require Import Prelude StarknetApi StateApi CachedState CachedStateProofs VersionedState VersionedProofs.
From S2P Require Import Scheduler WorkerLogic.

Section spec.
Context `{HashOrder} `{FeeTokenVar} {RunnableCompiledClass I E B : Type} `{!BlockBouncer RunnableCompiledClass I E B}.
Abbreviation Transaction := (Transaction RunnableCompiledClass I E).
Abbreviation Output := (ExecutionTaskOutput RunnableCompiledClass I E).
Context (block_context : BlockContext) (σ0 : View RunnableCompiledClass).

(** The writes so far, the bouncer and the outputs of the transactions. *)
Record SeqState := {
  seq_maps : StateMaps;
  seq_classes : gmap N RunnableCompiledClass;
  seq_bouncer : B;
  seq_outputs : list Output;
}.

Definition seq_initial (bouncer : B) : SeqState :=
  {| seq_maps := StateMaps_default; seq_classes := ∅; seq_bouncer := bouncer; seq_outputs := [] |}.

Definition seq_view (st : SeqState) : View RunnableCompiledClass := overlay st.(seq_maps) st.(seq_classes) σ0.

(** The state with the writes of a transaction that succeeded. *)
Definition seq_write (st : SeqState) (output : Output) : SeqState :=
  {| seq_maps := StateMaps_extend st.(seq_maps) output.(out_writes);
     seq_classes := output.(contract_classes) ∪ st.(seq_classes);
     seq_bouncer := st.(seq_bouncer); seq_outputs := st.(seq_outputs) |}.

(** The keys that the bouncer is asked about. *)
Definition bouncer_keys (tx : Transaction) (output : Output) (info : TransactionExecutionInfo I) : StateChangesKeys :=
  update_sequencer_key_in_storage block_context tx.(tx_context) info true (into_keys output.(out_writes)).

Definition seq_bounce (tx : Transaction) (st : SeqState) (output : Output) (info : TransactionExecutionInfo I)
    : result (TransactionExecutorError E) B :=
  run_reads (try_update st.(seq_bouncer) (bouncer_keys tx output info) info) (seq_view (seq_write st output)).

(** The end of a transaction that the bouncer admits: the fee is transferred. *)
Definition seq_pay (tx : Transaction) (st : SeqState) (output : Output) (info : TransactionExecutionInfo I)
    (bouncer : B) : option SeqState :=
  '(info, writes) ← run_reads (complete_fee_transfer_flow block_context tx.(tx_context) info)
                       (seq_view (seq_write st output));
  Some {| seq_maps := StateMaps_extend (seq_write st output).(seq_maps) (default StateMaps_default writes);
          seq_classes := (seq_write st output).(seq_classes);
          seq_bouncer := bouncer;
          seq_outputs := st.(seq_outputs) ++ [set_tx_result (inl info) output] |}.

(** One transaction: [None] for a panic, [Some None] when the block is full. *)
Definition seq_step (tx : Transaction) (st : SeqState) : option (option SeqState) :=
  output ← task_output (run_reads (transaction_run tx) (seq_view st));
  match output.(tx_result) with
  | inr _ =>
      Some (Some {| seq_maps := st.(seq_maps); seq_classes := st.(seq_classes); seq_bouncer := st.(seq_bouncer);
                    seq_outputs := st.(seq_outputs) ++ [output] |})
  | inl info =>
      match seq_bounce tx st output info with
      | Err BlockFull => Some None
      | Err _ | Panic => None
      | Ok bouncer => st ← seq_pay tx st output info bouncer; Some (Some st)
      end
  end.

Fixpoint seq_run (txs : list Transaction) (st : SeqState) : option SeqState :=
  match txs with
  | [] => Some st
  | tx :: txs => r ← seq_step tx st; match r with None => Some st | Some st => seq_run txs st end
  end.

(** [st] is reached after [n] transactions of the chunk. *)
Inductive seq_steps (chunk : list Transaction) (st0 : SeqState) : N → SeqState → Prop :=
| seq_steps_0 : seq_steps chunk st0 0 st0
| seq_steps_succ n st tx st' :
    seq_steps chunk st0 n st → chunk !! N.to_nat n = Some tx → seq_step tx st = Some (Some st') →
    seq_steps chunk st0 (n + 1) st'.

(** The run ends after all transactions, or at one that does not fit. *)
Lemma seq_steps_run chunk st0 n st :
  seq_steps chunk st0 n st → seq_run chunk st0 = seq_run (drop (N.to_nat n) chunk) st.
Proof.
  induction 1 as [|n st tx st' _ IH Htx Hstep]; [done|]. rewrite IH.
  rewrite (drop_S _ tx) by done. cbn [seq_run]. rewrite Hstep. cbn. f_equal. f_equal. lia.
Qed.

Lemma seq_run_all chunk st0 st :
  seq_steps chunk st0 (N.of_nat (length chunk)) st → seq_run chunk st0 = Some st.
Proof. intros Hst. rewrite (seq_steps_run _ _ _ _ Hst), Nat2N.id, drop_all. done. Qed.

Lemma seq_run_full chunk st0 n st tx :
  seq_steps chunk st0 n st → chunk !! N.to_nat n = Some tx → seq_step tx st = Some None → seq_run chunk st0 = Some st.
Proof.
  intros Hst Htx Hstep. rewrite (seq_steps_run _ _ _ _ Hst), (drop_S _ tx) by done. cbn [seq_run]. by rewrite Hstep.
Qed.

Lemma seq_steps_le chunk st0 n st : seq_steps chunk st0 n st → n ≤ N.of_nat (length chunk).
Proof.
  induction 1 as [|n st tx st' _ IH Htx _]; [lia|]. apply lookup_lt_Some in Htx. lia.
Qed.

Lemma seq_steps_outputs chunk st0 n st :
  st0.(seq_outputs) = [] → seq_steps chunk st0 n st → N.of_nat (length st.(seq_outputs)) = n.
Proof.
  intros Hnil. induction 1 as [|n st tx st' _ IH Htx Hstep]; [by rewrite Hnil|].
  unfold seq_step in Hstep. destruct (task_output _) as [o|]; [|done]. cbn in Hstep.
  destruct (tx_result o) as [info|e].
  - destruct (seq_bounce tx st o info) as [b|[]|]; try done. unfold seq_pay in Hstep.
    destruct (run_reads _ _) as [[info' w]|]; [|done]. cbn in Hstep. injection Hstep as <-. cbn.
    rewrite length_app. cbn. lia.
  - injection Hstep as <-. cbn. rewrite length_app. cbn. lia.
Qed.
End spec.
Arguments SeqState : clear implicits.
