(* ===== verification/ConcurrencyInv.v ===== *)
(** The invariant of the workers, and a program logic for threads.

    Each thread has a role, which tells what it owns: the transaction it executes or aborts, the
    output it has locked, and how far it is with the commit when it holds the commit lock. The
    invariant ties the shared memory to the roles. A step of a thread may change its own role
    only, so that what a role says holds until the thread takes its next step. *)
From stdpp Require Import functions.
From S2P Require Import Prelude StarknetApi StateApi CachedState CachedStateProofs VersionedState VersionedProofs.
From S2P Require Import Scheduler WorkerLogic ConcurrencySpec.

Section inv.
Context `{HashOrder} `{FeeTokenVar} {RunnableCompiledClass S I E B : Type}.
Context `{!StateReader RunnableCompiledClass S} `{!StateReaderLaws RunnableCompiledClass S}.
Context `{!BlockBouncer RunnableCompiledClass I E B}.
Abbreviation Transaction := (Transaction RunnableCompiledClass I E).
Abbreviation Output := (ExecutionTaskOutput RunnableCompiledClass I E).
Abbreviation VersionedState := (VersionedState RunnableCompiledClass S).
Abbreviation Shared := (Shared RunnableCompiledClass S I E B).
Abbreviation SeqState := (SeqState RunnableCompiledClass I E B).
Abbreviation Answer := (Answer RunnableCompiledClass).
Abbreviation View := (View RunnableCompiledClass).
Abbreviation trace := (list {q : Query & StateResult (Answer q)}).
Context (class_of : N → RunnableCompiledClass) (declares : Prop) (σ0 : View) `{!InitialLaws class_of σ0}.
Context (chunk : list Transaction) (block_context : BlockContext) (bouncer0 : B).

Definition n_txs : N := N.of_nat (length chunk).
Abbreviation steps := (seq_steps block_context σ0 chunk (seq_initial bouncer0)).

(** The transactions declare classes under their hashes, and their read sets keep every answer. *)
Definition chunk_ok : Prop :=
  ∀ tx, tx ∈ chunk → declares_well class_of declares (tx.(execute_raw) true) ∧ class_once class_of (transaction_run tx).

(** When the workers do not panic: no transaction declares a class, no execution panics
    whatever it reads, and neither does the sequential run. *)
Record quiet : Prop := {
  quiet_nonempty : chunk ≠ [];
  quiet_declares : ¬ declares;
  quiet_run tx tr r : tx ∈ chunk → ends_with (transaction_run tx) tr r → valid_trace class_of tr →
    is_Some (task_output r);
  quiet_seq n st tx : steps n st → chunk !! N.to_nat n = Some tx → is_Some (seq_step block_context σ0 tx st);
}.

(** ** Outputs *)

(** The run so far of the transaction [i]. *)
Record trace_ok (V : VersionedState) (i : N) (tr : trace) : Prop := {
  to_valid : valid_trace class_of tr;
  to_first : i = 0 → ∀ q r, existT q r ∈ tr → σ0 q = r;
  to_remembered : quiet → ∀ q r, existT q r ∈ tr → remembered class_of V q r;
}.

(** An output of the transaction [i]: it is what a run on a state that agrees with its read set
    yields. *)
Record output_ok (V : VersionedState) (i : N) (o : Output) : Prop := {
  oo_declared h b : o.(out_writes).(declared_contracts) !! h = Some b → b = true ∧ is_Some (o.(contract_classes) !! h);
  oo_classes h c : o.(contract_classes) !! h = Some c → c = class_of h;
  oo_run σ tx : chunk !! N.to_nat i = Some tx → agree class_of σ o.(reads) →
    task_output (run_reads (transaction_run tx) σ) = Some o;
  oo_first : i = 0 → agree class_of σ0 o.(reads);
  oo_failed e : o.(tx_result) = inr e → o.(out_writes) = StateMaps_default ∧ o.(contract_classes) = ∅;
  oo_remembered : quiet → reads_remembered V o.(reads);
  oo_storage : quiet → dom o.(out_writes).(storage) ⊆ dom (initial_values V).(storage);
  oo_nonces : quiet → dom o.(out_writes).(nonces) ⊆ dom (initial_values V).(nonces);
  oo_class_hashes : quiet → dom o.(out_writes).(class_hashes) ⊆ dom (initial_values V).(class_hashes);
  oo_compiled : quiet → o.(out_writes).(compiled_class_hashes) = ∅;
  oo_undeclared : quiet → o.(out_writes).(declared_contracts) = ∅;
  oo_found : quiet → dom o.(contract_classes) ⊆ dom (initial_classes V);
}.

(** How far the execution of a transaction is: it runs and has written nothing, its writes are
    applied, its output is stored. *)
Inductive Stage :=
| Running (tr : trace)
| Applied (o : Output)
| Stored (o : Output).

Definition written (V : VersionedState) (i : N) (o : Output) : Prop :=
  layer V i = o.(out_writes) ∧ layer_classes V i = o.(contract_classes).

Definition stage_ok (V : VersionedState) (outputs : list (option Output)) (i : N) (stage : Stage) : Prop :=
  match stage with
  | Running tr => layer V i = StateMaps_default ∧ layer_classes V i = ∅ ∧ trace_ok V i tr
  | Applied o => written V i o ∧ output_ok V i o
  | Stored o => written V i o ∧ output_ok V i o ∧ outputs !! N.to_nat i = Some (Some o)
  end.

(** ** Roles *)

Inductive TaskRole :=
| NoTask
| Executes (i : N) (stage : Stage)
| Aborts (i : N) (stage : Stage)
| Validates (i : N).

Definition task_tx (r : TaskRole) : option N :=
  match r with NoTask | Validates _ => None | Executes i _ | Aborts i _ => Some i end.

(** The commit of the transaction [n] on the sequential state [st]. *)
Inductive CommitRole :=
| NotCommitting
| CIdle (n : N) (st : SeqState)
| CActive (n : N) (st : SeqState) (fresh : bool) (stage : Stage)
| CFinal (n : N) (st : SeqState) (o : Output)
| CBounced (n : N) (st : SeqState) (o : Output) (info : TransactionExecutionInfo I) (b : B) (tr : trace)
| CPaid (n : N) (st : SeqState) (o : Output) (st' : SeqState)
| CDone (n : N) (st : SeqState) (st' : SeqState)
| CFull (n : N) (st : SeqState)
| CHalting (n : N) (st : SeqState).

Record Role := {
  r_task : TaskRole;
  r_lock : option (N * option Output);
  r_commit : CommitRole;
  r_done : bool;
}.

Definition status (sh : Shared) (i : N) : option TransactionStatus := get_status i sh.(scheduler).

Definition task_ok (sh : Shared) (n : N) (r : TaskRole) : Prop :=
  match r with
  | NoTask => True
  | Executes i stage => n ≤ i < n_txs ∧ status sh i = Some Executing ∧ stage_ok sh.(state) sh.(execution_outputs) i stage
  | Aborts i stage => n ≤ i < n_txs ∧ status sh i = Some Aborting ∧ stage_ok sh.(state) sh.(execution_outputs) i stage
  | Validates i => ∃ o, sh.(execution_outputs) !! N.to_nat i = Some (Some o)
  end.

(** The transaction [n] that a commit works on. *)
Definition tx_at (n : N) (tx : Transaction) : Prop := chunk !! N.to_nat n = Some tx.

(** [o] is what the transaction [n] yields on the sequential state. *)
Definition right_output (n : N) (st : SeqState) (o : Output) : Prop :=
  ∀ tx, tx_at n tx → task_output (run_reads (transaction_run tx) (seq_view σ0 st)) = Some o.

(** A stage that started after the transactions before were final. *)
Definition stage_right (n : N) (st : SeqState) (stage : Stage) : Prop :=
  match stage with
  | Running tr => ∀ q r, existT q r ∈ tr → seq_view σ0 st q = r
  | Applied o | Stored o => right_output n st o
  end.

(** The next transaction does not fit. *)
Definition full_at (n : N) (st : SeqState) : Prop := ∃ tx, tx_at n tx ∧ seq_step block_context σ0 tx st = Some None.

(** No commit is in progress. *)
Record idle_ok (sh : Shared) (n : N) (st : SeqState) : Prop := {
  id_index : sh.(scheduler).(commit_index) = n;
  id_bouncer : sh.(bouncer) = st.(seq_bouncer);
  id_status : status sh n = Some Committed → sh.(scheduler).(done_marker) = true;
  id_done : sh.(scheduler).(done_marker) = true → n = n_txs ∨ full_at n st;
  id_more : sh.(scheduler).(done_marker) = false → chunk ≠ [] → n < n_txs;
}.

(** A commit is in progress: the transaction is marked and counted. *)
Record active_ok (sh : Shared) (n : N) (st : SeqState) : Prop := {
  ac_size : n < n_txs;
  ac_status : status sh n = Some Committed;
  ac_index : sh.(scheduler).(commit_index) = n + 1;
  ac_done : n + 1 = n_txs → sh.(scheduler).(done_marker) = true;
  ac_full : sh.(scheduler).(done_marker) = true → n + 1 = n_txs ∨ full_at n st;
}.

Definition commit_ok (sh : Shared) (n : N) (st : SeqState) (c : CommitRole) : Prop :=
  let V := sh.(state) in
  match c with
  | NotCommitting => idle_ok sh n st
  | CIdle n' st' => n' = n ∧ st' = st ∧ idle_ok sh n st
  | CActive n' st' fresh stage =>
      n' = n ∧ st' = st ∧ active_ok sh n st ∧ sh.(bouncer) = st.(seq_bouncer) ∧
      stage_ok V sh.(execution_outputs) n stage ∧ (fresh = true → stage_right n st stage)
  | CFinal n' st' o =>
      n' = n ∧ st' = st ∧ active_ok sh n st ∧ sh.(bouncer) = st.(seq_bouncer) ∧
      stage_ok V sh.(execution_outputs) n (Stored o) ∧ right_output n st o
  | CBounced n' st' o info b tr =>
      n' = n ∧ st' = st ∧ active_ok sh n st ∧ sh.(bouncer) = b ∧
      stage_ok V sh.(execution_outputs) n (Stored o) ∧ (quiet → ∀ q r, existT q r ∈ tr → remembered class_of V q r)
  | CPaid n' st' o st'' =>
      n' = n ∧ st' = st ∧ active_ok sh n st ∧ sh.(bouncer) = st''.(seq_bouncer) ∧
      below V (n + 1) = st''.(seq_maps) ∧ below_classes V (n + 1) = st''.(seq_classes) ∧
      sh.(execution_outputs) !! N.to_nat n = Some (Some o)
  | CDone n' st' st'' =>
      n' = n ∧ st' = st ∧ active_ok sh n st ∧ sh.(bouncer) = st''.(seq_bouncer) ∧
      below V (n + 1) = st''.(seq_maps) ∧ below_classes V (n + 1) = st''.(seq_classes) ∧
      sh.(execution_outputs) !! N.to_nat n = Some (st''.(seq_outputs) !! N.to_nat n)
  | CFull n' st' => n' = n ∧ st' = st ∧ active_ok sh n st ∧ sh.(bouncer) = st.(seq_bouncer) ∧ full_at n st
  | CHalting n' st' =>
      n' = n ∧ st' = st ∧ status sh n = Some Committed ∧ sh.(scheduler).(commit_index) = n ∧ sh.(bouncer) = st.(seq_bouncer) ∧ full_at n st
  end.

(** ** The invariant *)

Record core (sh : Shared) (roles : nat → Role) (n : N) (st : SeqState) (c : CommitRole) : Prop := {
  co_statuses : length sh.(scheduler).(tx_statuses) = length chunk;
  co_size : sh.(scheduler).(chunk_size) = n_txs;
  co_length : length sh.(execution_outputs) = length chunk;
  co_seq : steps n st;
  co_initial : initial_ok class_of σ0 sh.(state);
  co_remembered : quiet → all_remembered sh.(state);
  co_below : below sh.(state) n = st.(seq_maps) ∧ below_classes sh.(state) n = st.(seq_classes);
  co_layers i : layer_ok class_of sh.(state) i;
  co_outputs j : j < n → sh.(execution_outputs) !! N.to_nat j = Some (st.(seq_outputs) !! N.to_nat j);
  co_stored i o : quiet → sh.(execution_outputs) !! N.to_nat i = Some (Some o) → reads_remembered sh.(state) o.(reads);
  co_committed j : j < n → status sh j = Some Committed;
  co_uncommitted j : n < j → status sh j ≠ Some Committed;
  co_ready i : n ≤ i → status sh i = Some ReadyToExecute →
    stage_ok sh.(state) sh.(execution_outputs) i (Running []);
  co_executed i : n ≤ i → status sh i = Some Executed →
    ∃ o, stage_ok sh.(state) sh.(execution_outputs) i (Stored o);
  co_tasks t : task_ok sh n (roles t).(r_task);
  co_unique t t' i : task_tx (roles t).(r_task) = Some i → task_tx (roles t').(r_task) = Some i → t = t';
  co_locks t i o : (roles t).(r_lock) = Some (i, o) → i ∈ sh.(output_locks) ∧ sh.(execution_outputs) !! N.to_nat i = Some o;
  co_lock_unique t t' i o o' : (roles t).(r_lock) = Some (i, o) → (roles t').(r_lock) = Some (i, o') → t = t';
  co_lock_held i : i ∈ sh.(output_locks) → ∃ t o, (roles t).(r_lock) = Some (i, o);
  co_done t : (roles t).(r_done) = true → sh.(scheduler).(done_marker) = true;
  co_commit : commit_ok sh n st c;
  co_free : sh.(scheduler).(commit_locked) = false → c = NotCommitting;
  co_held : ∃ owner, ∀ t, (roles t).(r_commit) = if decide (t = owner) then c else NotCommitting;
}.

Definition Inv (sh : Shared) (roles : nat → Role) : Prop := ∃ n st c, core sh roles n st c.

(** ** Threads *)

(** Whatever the other threads do, the thread [t] in [role] can take the steps of [p]: they keep
    the invariant with a new role, it does not panic in a quiet chunk, it waits only for the lock
    of an output and only when it holds none itself, and it ends with [Q]. *)
Fixpoint wp_proc {T A} (get : Shared → T) (set : T → Shared → Shared) (t : nat) (p : Proc T A) (role : Role)
    (Q : A → Role → Prop) : Prop :=
  match p with
  | Done a => Q a role
  | Crash => ¬ quiet
  | Atomic f =>
      ∀ sh roles, Inv sh roles → roles t = role →
        match f (get sh) with
        | None => role.(r_lock) = None ∧ ∃ i, i ∈ sh.(output_locks)
        | Some (v, p') => ∃ role', Inv (set v sh) (<[t := role']> roles) ∧ wp_proc get set t p' role' Q
        end
  end.

Lemma proc_ind {T A} (P : Proc T A → Prop) :
  (∀ a, P (Done a)) → P Crash → (∀ f, (∀ v v' p', f v = Some (v', p') → P p') → P (Atomic f)) → ∀ p, P p.
Proof.
  intros Hd Hc Ha. fix IH 1. intros [a| |f]; [apply Hd|apply Hc|]. apply Ha.
  intros v v' p'. destruct (f v) as [[v1 p1]|]; [|discriminate]. intros [= _ <-]. apply IH.
Qed.

Section rules.
Context {T : Type} (get : Shared → T) (set : T → Shared → Shared).

Lemma wp_proc_mono {A} t (p : Proc T A) role Q Q' :
  wp_proc get set t p role Q → (∀ a role', Q a role' → Q' a role') → wp_proc get set t p role Q'.
Proof.
  revert role. induction p as [a| |f IH] using proc_ind; intros role Hp HQ; cbn in *; [auto|done|].
  intros sh roles Hinv Hrole. specialize (Hp sh roles Hinv Hrole).
  destruct (f (get sh)) as [[v p']|] eqn:Hf; [|done]. destruct Hp as (role'&Hinv'&Hp'). exists role'. split; [done|].
  by eapply IH.
Qed.

Lemma wp_proc_bind {A C} t (p : Proc T A) (k : A → Proc T C) role Q :
  wp_proc get set t p role (λ a role', wp_proc get set t (k a) role' Q) → wp_proc get set t (p ≫= k) role Q.
Proof.
  revert role. induction p as [a| |f IH] using proc_ind; intros role Hp; cbn in *; [done..|].
  intros sh roles Hinv Hrole. specialize (Hp sh roles Hinv Hrole).
  destruct (f (get sh)) as [[v p']|] eqn:Hf; [|done]. destruct Hp as (role'&Hinv'&Hp'). exists role'. split; [done|].
  by eapply IH.
Qed.
End rules.

Abbreviation wpw := (wp_proc (λ sh, sh) (λ sh _, sh)).
Abbreviation wps := (wp_proc scheduler set_scheduler).

Lemma wp_sched {A} t (p : Proc Scheduler A) role Q : wps t p role Q → wpw t (sched p) role Q.
Proof.
  revert role. induction p as [a| |f IH] using proc_ind; intros role Hp; cbn in *; [done..|].
  intros sh roles Hinv Hrole. specialize (Hp sh roles Hinv Hrole).
  destruct (f (scheduler sh)) as [[v p']|] eqn:Hf; [|done]. destruct Hp as (role'&Hinv'&Hp'). exists role'. split; [done|].
  by eapply IH.
Qed.
End inv.
Arguments Stage : clear implicits.
Arguments TaskRole : clear implicits.
Arguments CommitRole : clear implicits.
Arguments Role : clear implicits.
Arguments co_statuses {_ _ _ _ _ _ _ _ _ _ _ _ _ _ _ _ _ _ _ _ _}.
Arguments co_size {_ _ _ _ _ _ _ _ _ _ _ _ _ _ _ _ _ _ _ _ _}.
Arguments co_length {_ _ _ _ _ _ _ _ _ _ _ _ _ _ _ _ _ _ _ _ _}.
Arguments co_seq {_ _ _ _ _ _ _ _ _ _ _ _ _ _ _ _ _ _ _ _ _}.
Arguments co_initial {_ _ _ _ _ _ _ _ _ _ _ _ _ _ _ _ _ _ _ _ _}.
Arguments co_remembered {_ _ _ _ _ _ _ _ _ _ _ _ _ _ _ _ _ _ _ _ _}.
Arguments co_below {_ _ _ _ _ _ _ _ _ _ _ _ _ _ _ _ _ _ _ _ _}.
Arguments co_layers {_ _ _ _ _ _ _ _ _ _ _ _ _ _ _ _ _ _ _ _ _}.
Arguments co_outputs {_ _ _ _ _ _ _ _ _ _ _ _ _ _ _ _ _ _ _ _ _}.
Arguments co_stored {_ _ _ _ _ _ _ _ _ _ _ _ _ _ _ _ _ _ _ _ _}.
Arguments co_uncommitted {_ _ _ _ _ _ _ _ _ _ _ _ _ _ _ _ _ _ _ _ _}.
Arguments co_committed {_ _ _ _ _ _ _ _ _ _ _ _ _ _ _ _ _ _ _ _ _}.
Arguments co_ready {_ _ _ _ _ _ _ _ _ _ _ _ _ _ _ _ _ _ _ _ _}.
Arguments co_executed {_ _ _ _ _ _ _ _ _ _ _ _ _ _ _ _ _ _ _ _ _}.
Arguments co_tasks {_ _ _ _ _ _ _ _ _ _ _ _ _ _ _ _ _ _ _ _ _}.
Arguments co_unique {_ _ _ _ _ _ _ _ _ _ _ _ _ _ _ _ _ _ _ _ _}.
Arguments co_locks {_ _ _ _ _ _ _ _ _ _ _ _ _ _ _ _ _ _ _ _ _}.
Arguments co_lock_unique {_ _ _ _ _ _ _ _ _ _ _ _ _ _ _ _ _ _ _ _ _}.
Arguments co_lock_held {_ _ _ _ _ _ _ _ _ _ _ _ _ _ _ _ _ _ _ _ _}.
Arguments co_done {_ _ _ _ _ _ _ _ _ _ _ _ _ _ _ _ _ _ _ _ _}.
Arguments co_commit {_ _ _ _ _ _ _ _ _ _ _ _ _ _ _ _ _ _ _ _ _}.
Arguments co_free {_ _ _ _ _ _ _ _ _ _ _ _ _ _ _ _ _ _ _ _ _}.
Arguments co_held {_ _ _ _ _ _ _ _ _ _ _ _ _ _ _ _ _ _ _ _ _}.
