(* ===== verification/ConcurrencySteps.v ===== *)
(** Steps of a thread and the invariant: what one step may change, and what the others keep. *)
From stdpp Require Import functions.
From S2P Require Import Prelude StarknetApi StateApi CachedState CachedStateProofs VersionedState VersionedProofs.
From S2P Require Import Scheduler WorkerLogic ConcurrencySpec ConcurrencyInv.

Section steps.
Context `{HashOrder} `{FeeTokenVar} {RunnableCompiledClass S I E B : Type}.
Context `{!StateReader RunnableCompiledClass S} `{!StateReaderLaws RunnableCompiledClass S}.
Context `{!BlockBouncer RunnableCompiledClass I E B}.
Abbreviation Transaction := (Transaction RunnableCompiledClass I E).
Abbreviation Output := (ExecutionTaskOutput RunnableCompiledClass I E).
Abbreviation VersionedState := (VersionedState RunnableCompiledClass S).
Abbreviation Shared := (Shared RunnableCompiledClass S I E B).
Abbreviation SeqState := (SeqState RunnableCompiledClass I E B).
Abbreviation View := (View RunnableCompiledClass).
Context (class_of : N → RunnableCompiledClass) (declares : Prop) (σ0 : View) `{!InitialLaws class_of σ0}.
Context (chunk : list Transaction) (block_context : BlockContext) (bouncer0 : B).
Abbreviation quiet := (quiet class_of declares σ0 chunk block_context bouncer0).
Abbreviation output_ok := (output_ok class_of declares σ0 chunk block_context bouncer0).
Abbreviation stage_ok := (stage_ok class_of declares σ0 chunk block_context bouncer0).
Abbreviation task_ok := (task_ok class_of declares σ0 chunk block_context bouncer0).
Abbreviation commit_ok := (commit_ok class_of declares σ0 chunk block_context bouncer0).
Abbreviation core := (core class_of declares σ0 chunk block_context bouncer0).
Abbreviation Inv := (Inv class_of declares σ0 chunk block_context bouncer0).
Abbreviation n_txs := (n_txs chunk).
Implicit Types (sh : Shared) (V : VersionedState) (i j n : N) (t : nat).

(** ** More is remembered *)

Lemma reads_remembered_more V V' R :
  remembers_more V V' → reads_remembered V R → reads_remembered V' R.
Proof.
  intros [Hs Hn Hc Hcc Hd Hcl] [R1 R2 R3 R4 R5]. split; intros *; rewrite <-elem_of_dom.
  - intros Hv%R1%elem_of_dom. by apply (subseteq_dom _ _ Hs).
  - intros Hv%R2%elem_of_dom. by apply (subseteq_dom _ _ Hn).
  - intros Hv%R3%elem_of_dom. by apply (subseteq_dom _ _ Hc).
  - intros Hv%R4%elem_of_dom. by apply Hcc.
  - intros Hv%R5%elem_of_dom. by apply Hd.
Qed.

Lemma output_ok_more V V' i o : remembers_more V V' → output_ok V i o → output_ok V' i o.
Proof.
  intros Hm [? ? ? ? ? Hr O1 O2 O3 ? ? O4]. pose proof Hm as [Hs Hn Hc Hcc Hd Hcl].
  apply subseteq_dom in Hs, Hn, Hc.
  split; try done; intros Hq; [by eapply reads_remembered_more, Hr| | | |].
  - exact (transitivity (O1 Hq) Hs).
  - exact (transitivity (O2 Hq) Hn).
  - exact (transitivity (O3 Hq) Hc).
  - exact (transitivity (O4 Hq) Hcl).
Qed.

Lemma stage_ok_frame V V' outs outs' i stage :
  same_layer V V' i → remembers_more V V' → outs' !! N.to_nat i = outs !! N.to_nat i →
  stage_ok V outs i stage → stage_ok V' outs' i stage.
Proof.
  intros [Hl Hc] Hm Ho. destruct stage as [tr|o|o]; cbn; unfold written; rewrite Hl, Hc, ?Ho.
  - intros (?&?&[? ? Hr]). split_and!; [done..|]. split; [done..|].
    intros Hq q r Hin. eapply remembered_more; eauto.
  - intros [? ?]. eauto using output_ok_more.
  - intros (?&?&?). eauto using output_ok_more.
Qed.

(** ** A step on a transaction *)

(** The shared memory changes at the transaction [i] only. *)
Record tx_step i sh sh' : Prop := {
  ts_statuses : length sh'.(scheduler).(tx_statuses) = length sh.(scheduler).(tx_statuses);
  ts_size : sh'.(scheduler).(chunk_size) = sh.(scheduler).(chunk_size);
  ts_length : length sh'.(execution_outputs) = length sh.(execution_outputs);
  ts_initial : initial_ok class_of σ0 sh.(state) → initial_ok class_of σ0 sh'.(state);
  ts_remembered : quiet → all_remembered sh.(state) → all_remembered sh'.(state);
  ts_more : remembers_more sh.(state) sh'.(state);
  ts_layers j : j ≠ i → same_layer sh.(state) sh'.(state) j;
  ts_layer : layer_ok class_of sh.(state) i → layer_ok class_of sh'.(state) i;
  ts_status j : j ≠ i → status sh' j = status sh j;
  ts_outputs j : j ≠ i → sh'.(execution_outputs) !! N.to_nat j = sh.(execution_outputs) !! N.to_nat j;
  ts_some j (o : Output) : sh.(execution_outputs) !! N.to_nat j = Some (Some o) →
    ∃ o', sh'.(execution_outputs) !! N.to_nat j = Some (Some o');
  ts_stored (o : Output) : quiet → sh'.(execution_outputs) !! N.to_nat i = Some (Some o) →
    sh.(execution_outputs) !! N.to_nat i = Some (Some o) ∨ reads_remembered sh'.(state) o.(reads);
  ts_done : sh.(scheduler).(done_marker) = true → sh'.(scheduler).(done_marker) = true;
}.

Lemma layer_ok_same V V' i : same_layer V V' i → layer_ok class_of V i → layer_ok class_of V' i.
Proof. intros [Hl Hc]. unfold layer_ok. by rewrite Hl, Hc. Qed.

Lemma tx_step_stage i sh sh' j stage :
  tx_step i sh sh' → j ≠ i → stage_ok sh.(state) sh.(execution_outputs) j stage →
  stage_ok sh'.(state) sh'.(execution_outputs) j stage.
Proof.
  intros Hs Hj. apply stage_ok_frame; [by apply (ts_layers _ _ _ Hs)|apply (ts_more _ _ _ Hs)|by apply (ts_outputs _ _ _ Hs)].
Qed.

Lemma tx_step_task i sh sh' n r :
  tx_step i sh sh' → task_tx r ≠ Some i → task_ok sh n r → task_ok sh' n r.
Proof.
  intros Hs Hr. destruct r as [|j stage|j stage|j]; cbn in *; [done|intros (?&?&?)..|intros [o Ho]; by eapply ts_some];
    (split_and!; [lia|lia|rewrite (ts_status _ _ _ Hs) by congruence; done|]); eapply tx_step_stage; eauto; congruence.
Qed.

(** ** Locks *)

Definition lock_ok sh (role : Role RunnableCompiledClass I E B) : Prop :=
  ∀ i (o : option Output), role.(r_lock) = Some (i, o) → i ∈ sh.(output_locks) ∧ sh.(execution_outputs) !! N.to_nat i = Some o.

(** The locks after a step of the thread [t]. *)
Record locks_step t sh' (roles : nat → Role RunnableCompiledClass I E B) (role' : Role RunnableCompiledClass I E B) : Prop := {
  ls_others t' : t' ≠ t → lock_ok sh' (roles t');
  ls_own : lock_ok sh' role';
  ls_unique t' k (o o' : option Output) : t' ≠ t → role'.(r_lock) = Some (k, o) → (roles t').(r_lock) ≠ Some (k, o');
  ls_held k : k ∈ sh'.(output_locks) →
    (∃ o, role'.(r_lock) = Some (k, o)) ∨ ∃ t' o, t' ≠ t ∧ (roles t').(r_lock) = Some (k, o);
}.

Lemma locks_keep t sh sh' roles n st c role' :
  core sh roles n st c → sh'.(output_locks) = sh.(output_locks) → sh'.(execution_outputs) = sh.(execution_outputs) →
  role'.(r_lock) = (roles t).(r_lock) → locks_step t sh' roles role'.
Proof.
  intros Hc Hl Ho Hr. split; unfold lock_ok; rewrite ?Hl, ?Ho, ?Hr.
  - intros t' _. apply (co_locks Hc).
  - apply (co_locks Hc).
  - intros t' k o o' Ht H1 H2. by pose proof (co_lock_unique Hc _ _ _ _ _ H1 H2).
  - intros k [t' [o Hk]]%(co_lock_held Hc). destruct (decide (t' = t)) as [->|]; eauto.
Qed.

Lemma locks_acquire t sh sh' roles n st c role' i o :
  core sh roles n st c → (roles t).(r_lock) = None → i ∉ sh.(output_locks) → sh'.(output_locks) = {[i]} ∪ sh.(output_locks) →
  sh'.(execution_outputs) = sh.(execution_outputs) → sh.(execution_outputs) !! N.to_nat i = Some o →
  role'.(r_lock) = Some (i, o) → locks_step t sh' roles role'.
Proof.
  intros Hc Hnone Hi Hl Ho Hlk Hr. split; unfold lock_ok; rewrite ?Hl, ?Ho, ?Hr.
  - intros t' _ k o' Hk. destruct (co_locks Hc _ _ _ Hk). split; [set_solver|done].
  - intros k o' [= <- <-]. split; [set_solver|done].
  - intros t' k o1 o2 Ht [= <- <-] Hk. by destruct (co_locks Hc _ _ _ Hk).
  - intros k [->%elem_of_singleton|[t' [o' Hk]]%(co_lock_held Hc)]%elem_of_union; [by eauto|]. right. exists t', o'. split; [|done].
    intros ->. congruence.
Qed.

Lemma locks_release t sh sh' roles n st c role' i o :
  core sh roles n st c → (roles t).(r_lock) = Some (i, o) → sh'.(output_locks) = sh.(output_locks) ∖ {[i]} →
  sh'.(execution_outputs) = sh.(execution_outputs) → role'.(r_lock) = None → locks_step t sh' roles role'.
Proof.
  intros Hc Hi Hl Ho Hr. split; unfold lock_ok; rewrite ?Hl, ?Ho, ?Hr; [|done..|].
  - intros t' Ht k o' Hk. destruct (co_locks Hc _ _ _ Hk). split; [|done].
    assert (k ≠ i) by (intros ->; by pose proof (co_lock_unique Hc _ _ _ _ _ Hi Hk)). set_solver.
  - intros k [[t' [o' Hk]]%(co_lock_held Hc) Hne%not_elem_of_singleton]%elem_of_difference. right. exists t', o'. split; [|done].
    intros ->. congruence.
Qed.

Lemma locks_put t sh sh' roles n st c role' i o o' :
  core sh roles n st c → (roles t).(r_lock) = Some (i, o) → sh'.(output_locks) = sh.(output_locks) →
  sh'.(execution_outputs) = <[N.to_nat i := o']> sh.(execution_outputs) → role'.(r_lock) = Some (i, o') →
  locks_step t sh' roles role'.
Proof.
  intros Hc Hi Hl Ho Hr. destruct (co_locks Hc _ _ _ Hi) as [Hin Hout].
  split; unfold lock_ok; rewrite ?Hl, ?Ho, ?Hr.
  - intros t' Ht k o1 Hk. destruct (co_locks Hc _ _ _ Hk). split; [done|].
    rewrite list_lookup_insert_ne; [done|]. intros Heq%N2Nat.inj. subst k.
    by pose proof (co_lock_unique Hc _ _ _ _ _ Hi Hk).
  - intros k o1 [= <- <-]. split; [done|]. rewrite list_lookup_insert_eq; [done|]. by apply lookup_lt_Some in Hout.
  - intros t' k o1 o2 Ht [= <- <-] Hk. by pose proof (co_lock_unique Hc _ _ _ _ _ Hi Hk).
  - intros k [t' [o1 Hk]]%(co_lock_held Hc). destruct (decide (t' = t)) as [->|]; [left|by eauto]. exists o'. congruence.
Qed.

(** ** The general step *)

(** The general step of the thread [t]: it changes the transaction [i], which no other thread
    owns, and the commit from [c] to [c']. *)
Lemma core_step i t sh sh' roles n st c role' c' :
  core sh roles n st c → n ≤ i → tx_step i sh sh' →
  (n < i → status sh' i ≠ Some Committed) →
  (status sh' i = Some ReadyToExecute → stage_ok sh'.(state) sh'.(execution_outputs) i (Running [])) →
  (status sh' i = Some Executed → ∃ o, stage_ok sh'.(state) sh'.(execution_outputs) i (Stored o)) →
  (∀ t', t' ≠ t → task_tx (roles t').(r_task) ≠ Some i) →
  task_ok sh' n role'.(r_task) →
  (∀ k, task_tx role'.(r_task) = Some k → k = i ∨ task_tx (roles t).(r_task) = Some k) →
  locks_step t sh' roles role' →
  (role'.(r_done) = true → sh'.(scheduler).(done_marker) = true) →
  commit_ok sh' n st c' → (sh'.(scheduler).(commit_locked) = false → c' = NotCommitting) →
  (∃ owner, ∀ t', (<[t := role']> roles t').(r_commit) = if decide (t' = owner) then c' else NotCommitting) →
  core sh' (<[t := role']> roles) n st c'.
Proof.
  intros Hc Hi Hs Habove Hready Hexec Hown Htask Htx [Hlocks Hlock Huniq Hlheld] Hdone Hcommit Hfree Hheld.
  assert (∀ j, j < n → j ≠ i) as Hlt by lia.
  split; try done.
  - by rewrite (ts_statuses _ _ _ Hs), (co_statuses Hc).
  - by rewrite (ts_size _ _ _ Hs), (co_size Hc).
  - by rewrite (ts_length _ _ _ Hs), (co_length Hc).
  - apply Hc.
  - apply (ts_initial _ _ _ Hs), Hc.
  - intros Hq. apply (ts_remembered _ _ _ Hs), Hc; done.
  - destruct (below_ext sh.(state) sh'.(state) n) as [-> ->]; [|apply Hc].
    intros j Hj. apply (ts_layers _ _ _ Hs). lia.
  - intros j. destruct (decide (j = i)) as [->|Hj]; [apply (ts_layer _ _ _ Hs), Hc|].
    eapply layer_ok_same; [by apply (ts_layers _ _ _ Hs)|apply Hc].
  - intros j Hj. rewrite (ts_outputs _ _ _ Hs) by auto. by apply Hc.
  - intros j o Hq Ho. destruct (decide (j = i)) as [->|Hj].
    + destruct (ts_stored _ _ _ Hs o Hq Ho) as [Ho'|]; [|done].
      eapply reads_remembered_more; [apply (ts_more _ _ _ Hs)|by eapply co_stored].
    + rewrite (ts_outputs _ _ _ Hs) in Ho by done.
      eapply reads_remembered_more; [apply (ts_more _ _ _ Hs)|by eapply co_stored].
  - intros j Hj. rewrite (ts_status _ _ _ Hs) by auto. by eapply co_committed.
  - intros j Hj. destruct (decide (j = i)) as [->|Hne]; [by apply Habove|].
    rewrite (ts_status _ _ _ Hs) by done. by eapply co_uncommitted.
  - intros j Hj Hst. destruct (decide (j = i)) as [->|Hne]; [by apply Hready|].
    rewrite (ts_status _ _ _ Hs) in Hst by done. eapply tx_step_stage; [done..|]. by eapply co_ready.
  - intros j Hj Hst. destruct (decide (j = i)) as [->|Hne]; [by apply Hexec|].
    rewrite (ts_status _ _ _ Hs) in Hst by done. destruct (co_executed Hc j Hj Hst) as [o Ho].
    exists o. by eapply tx_step_stage.
  - intros t'. destruct (decide (t' = t)) as [->|Ht]; [by rewrite fn_lookup_insert|].
    rewrite fn_lookup_insert_ne by done. eapply tx_step_task; [done|by apply Hown|]. apply Hc.
  - assert (∀ t' k, task_tx (r_task (<[t:=role']> roles t')) = Some k → k = i ∧ t' = t ∨ task_tx (r_task (roles t')) = Some k) as Hk.
    { intros t' k. destruct (decide (t' = t)) as [->|Ht]; [rewrite fn_lookup_insert|rewrite fn_lookup_insert_ne by done; by right].
      intros [->|?]%Htx; auto. }
    intros t1 t2 k [[-> ->]|H1]%Hk [[? ->]|H2]%Hk; try done.
    + destruct (decide (t2 = t)); [done|]. by destruct (Hown t2).
    + subst k. destruct (decide (t1 = t)); [done|]. by destruct (Hown t1).
    + by eapply co_unique.
  - intros t' k o. destruct (decide (t' = t)) as [->|Ht]; [rewrite fn_lookup_insert; apply Hlock|].
    rewrite fn_lookup_insert_ne by done. by apply Hlocks.
  - intros t1 t2 k o1 o2. destruct (decide (t1 = t)) as [->|Ht1], (decide (t2 = t)) as [->|Ht2];
      rewrite ?fn_lookup_insert, ?fn_lookup_insert_ne by done.
    + done.
    + intros H1 H2. by destruct (Huniq t2 k o1 o2).
    + intros H1 H2. by destruct (Huniq t1 k o2 o1).
    + by eapply co_lock_unique.
  - intros k [[o Hk]|(t'&o&Ht&Hk)]%Hlheld; [exists t, o; by rewrite fn_lookup_insert|].
    exists t', o. by rewrite fn_lookup_insert_ne.
  - intros t'. destruct (decide (t' = t)) as [->|Ht]; [by rewrite fn_lookup_insert|].
    rewrite fn_lookup_insert_ne by done. intros Hd. apply (ts_done _ _ _ Hs). by eapply co_done.
Qed.

(** ** Steps that leave the commit alone *)

Definition active (c : CommitRole RunnableCompiledClass I E B) : Prop :=
  match c with NotCommitting | CIdle _ _ => False | _ => True end.

Lemma commit_active sh n st c : commit_ok sh n st c → active c → status sh n = Some Committed.
Proof. destruct c; cbn; intros Hc Ha; try done; destruct_and? Hc; first [done|by eapply ac_status]. Qed.

Lemma active_frame i sh sh' n st :
  tx_step i sh sh' → i ≠ n → sh'.(scheduler).(commit_index) = sh.(scheduler).(commit_index) →
  sh'.(scheduler).(done_marker) = sh.(scheduler).(done_marker) → active_ok σ0 chunk block_context sh n st → active_ok σ0 chunk block_context sh' n st.
Proof.
  intros Hs Hi Hx Hd [? ? ? ? ?]. split; rewrite ?Hd; try done; [|congruence]. by rewrite (ts_status _ _ _ Hs).
Qed.

Lemma commit_frame i sh sh' n st c :
  tx_step i sh sh' → n ≤ i → sh'.(scheduler).(commit_index) = sh.(scheduler).(commit_index) →
  sh'.(scheduler).(done_marker) = sh.(scheduler).(done_marker) → sh'.(bouncer) = sh.(bouncer) →
  (i = n → status sh n ≠ Some Committed ∧ status sh' n ≠ Some Committed) →
  commit_ok sh n st c → commit_ok sh' n st c.
Proof.
  intros Hs Hi Hx Hd Hb Hn Hc.
  assert (idle_ok σ0 chunk block_context sh n st → idle_ok σ0 chunk block_context sh' n st) as Hidle.
  { intros [? ? Hst ? ?]. split; try congruence; rewrite ?Hd; try done.
    destruct (decide (i = n)) as [Heq|Hne]; [by destruct (Hn Heq)|]. by rewrite (ts_status _ _ _ Hs) by done. }
  destruct (decide (i = n)) as [Heq|Hne].
  { destruct (Hn Heq) as [H1 _]. assert (¬ active c) as Ha by (intros Ha; by destruct H1; eapply commit_active).
    destruct c; cbn in *; try tauto. }
  assert (active_ok σ0 chunk block_context sh n st → active_ok σ0 chunk block_context sh' n st) as Hact by (by eapply active_frame).
  assert (∀ stage, stage_ok sh.(state) sh.(execution_outputs) n stage →
    stage_ok sh'.(state) sh'.(execution_outputs) n stage) as Hst by (intros stage; eapply tx_step_stage; [done|congruence]).
  destruct (below_ext sh.(state) sh'.(state) (n + 1)) as [Hb1 Hb2].
  { intros j Hj. apply (ts_layers _ _ _ Hs). lia. }
  destruct c; cbn [commit_ok] in *; rewrite ?Hb, ?Hx, ?Hb1, ?Hb2, ?(ts_status _ _ _ Hs n), ?(ts_outputs _ _ _ Hs n) by congruence;
    destruct_and? Hc; split_and?; auto.
  intros Hq q r Hin. eapply remembered_more; [apply (ts_more _ _ _ Hs)|by auto].
Qed.

(** What a step leaves alone when it is not a step of the commit. *)
Record commit_same sh sh' : Prop := {
  cs_index : sh'.(scheduler).(commit_index) = sh.(scheduler).(commit_index);
  cs_locked : sh'.(scheduler).(commit_locked) = sh.(scheduler).(commit_locked);
  cs_done : sh'.(scheduler).(done_marker) = sh.(scheduler).(done_marker);
  cs_bouncer : sh'.(bouncer) = sh.(bouncer);
}.

Lemma core_keep i t sh sh' roles n st c role' :
  core sh roles n st c → n ≤ i → tx_step i sh sh' → commit_same sh sh' →
  (i = n → status sh n ≠ Some Committed ∧ status sh' n ≠ Some Committed) →
  (n < i → status sh' i ≠ Some Committed) →
  (status sh' i = Some ReadyToExecute → stage_ok sh'.(state) sh'.(execution_outputs) i (Running [])) →
  (status sh' i = Some Executed → ∃ o, stage_ok sh'.(state) sh'.(execution_outputs) i (Stored o)) →
  (∀ t', t' ≠ t → task_tx (roles t').(r_task) ≠ Some i) →
  task_ok sh' n role'.(r_task) →
  (∀ k, task_tx role'.(r_task) = Some k → k = i ∨ task_tx (roles t).(r_task) = Some k) →
  locks_step t sh' roles role' →
  (role'.(r_done) = true → sh'.(scheduler).(done_marker) = true) →
  role'.(r_commit) = (roles t).(r_commit) →
  core sh' (<[t := role']> roles) n st c.
Proof.
  intros Hc Hi Hs [Hx Hl Hd Hb] Hn Habove Hready Hexec Hown Htask Htx Hlocks Hdone Hrole.
  eapply core_step; try done.
  - eapply commit_frame; try done. apply Hc.
  - rewrite Hl. apply Hc.
  - destruct (co_held Hc) as [owner Ho]. exists owner. intros t'.
    destruct (decide (t' = t)) as [->|Ht]; [by rewrite fn_lookup_insert, Hrole|by rewrite fn_lookup_insert_ne].
Qed.

(** The shared memory changes in what is remembered and in the locks of outputs only. *)
Record same_memory sh sh' : Prop := {
  sm_statuses : sh'.(scheduler).(tx_statuses) = sh.(scheduler).(tx_statuses);
  sm_size : sh'.(scheduler).(chunk_size) = sh.(scheduler).(chunk_size);
  sm_outputs : sh'.(execution_outputs) = sh.(execution_outputs);
  sm_initial : initial_ok class_of σ0 sh.(state) → initial_ok class_of σ0 sh'.(state);
  sm_writes : same_writes sh.(state) sh'.(state);
  sm_more : remembers_more sh.(state) sh'.(state);
  sm_done : sh.(scheduler).(done_marker) = true → sh'.(scheduler).(done_marker) = true;
}.

Lemma all_remembered_more V V' :
  same_writes V V' → remembers_more V V' → all_remembered V → all_remembered V'.
Proof.
  intros Hw [Hs Hn Hc Hcc Hd Hcl] [A1 A2 A3 A4 A5 A6]. apply subseteq_dom in Hs, Hn, Hc.
  split; intros i; destruct (Hw i) as [Hl1 Hl2]; rewrite ?Hl1, ?Hl2.
  - exact (transitivity (A1 i) Hs).
  - exact (transitivity (A2 i) Hn).
  - exact (transitivity (A3 i) Hc).
  - apply A4.
  - apply A5.
  - exact (transitivity (A6 i) Hcl).
Qed.

Lemma same_memory_step i sh sh' : same_memory sh sh' → tx_step i sh sh'.
Proof.
  intros [Hs Hz Ho Hi Hw Hm Hd]. split; rewrite ?Ho; try done.
  - by rewrite Hs.
  - intros _. by apply all_remembered_more.
  - intros Hl. by eapply layer_ok_same.
  - intros j _. unfold status, get_status. by rewrite Hs.
  - eauto.
  - auto.
Qed.

Lemma no_task_there sh roles n st c t : core sh roles n st c → task_tx (roles t).(r_task) ≠ Some n_txs.
Proof.
  intros Hc. pose proof (co_tasks Hc t) as Ht. destruct (r_task (roles t)); cbn in *; try done; intros [= ->]; lia.
Qed.

Lemma no_status_there sh roles n st c : core sh roles n st c → status sh n_txs = None.
Proof.
  intros Hc. unfold status, get_status. apply lookup_ge_None. rewrite (co_statuses Hc). unfold ConcurrencyInv.n_txs. lia.
Qed.

Lemma core_le sh roles n st c : core sh roles n st c → n ≤ n_txs.
Proof. intros Hc. eapply seq_steps_le, Hc. Qed.

(** A step that changes neither transactions nor the commit. *)
Lemma core_neutral t sh sh' roles n st c role' :
  core sh roles n st c → same_memory sh sh' → commit_same sh sh' →
  task_ok sh' n role'.(r_task) → (∀ k, task_tx role'.(r_task) = Some k → task_tx (roles t).(r_task) = Some k) →
  locks_step t sh' roles role' →
  (role'.(r_done) = true → sh.(scheduler).(done_marker) = true) →
  role'.(r_commit) = (roles t).(r_commit) →
  core sh' (<[t := role']> roles) n st c.
Proof.
  intros Hc Hm Hcs Htask Htx Hl Hd Hr. pose proof (same_memory_step n_txs _ _ Hm) as Hs.
  pose proof (no_status_there _ _ _ _ _ Hc) as Hno.
  assert (status sh' n_txs = None) as Hno' by (unfold status, get_status in *; by rewrite (sm_statuses _ _ Hm)).
  eapply (core_keep n_txs); try done.
  - by eapply core_le.
  - intros Hn. rewrite <-Hn, Hno, Hno'. done.
  - by rewrite Hno'.
  - by rewrite Hno'.
  - by rewrite Hno'.
  - intros t' _. by eapply no_task_there.
  - intros k Hk. right. auto.
  - rewrite (cs_done _ _ Hcs). done.
Qed.

(** ** Steps of the committer *)

Lemma committer sh roles n st c t :
  core sh roles n st c → (roles t).(r_commit) ≠ NotCommitting → (roles t).(r_commit) = c.
Proof. intros Hc Ht. destruct (co_held Hc) as [owner Ho]. rewrite Ho in *. by destruct (decide (t = owner)). Qed.

Lemma not_committer sh roles n st c t t' :
  core sh roles n st c → (roles t).(r_commit) = c → t' ≠ t → (roles t').(r_commit) = NotCommitting.
Proof.
  intros Hc Ht Hne. destruct (co_held Hc) as [owner Ho]. rewrite Ho in Ht |- *.
  destruct (decide (t' = owner)); [|done]. by destruct (decide (t = owner)); [congruence|].
Qed.

Lemma unowned sh roles n st c i s t :
  core sh roles n st c → status sh i = Some s → s ≠ Executing → s ≠ Aborting → task_tx (roles t).(r_task) ≠ Some i.
Proof.
  intros Hc Hs H1 H2. pose proof (co_tasks Hc t) as Ht.
  destruct (r_task (roles t)); cbn in *; try done; intros [= ->]; destruct Ht as (_&Ht&_); congruence.
Qed.

(** The thread [t] holds the commit, or takes it when it is free. *)
Lemma core_owner t sh sh' roles n st c role' :
  core sh roles n st c → (roles t).(r_commit) = c → tx_step n sh sh' →
  (∀ t', task_tx (roles t').(r_task) ≠ Some n) →
  (status sh' n = Some ReadyToExecute → stage_ok sh'.(state) sh'.(execution_outputs) n (Running [])) →
  (status sh' n = Some Executed → ∃ o, stage_ok sh'.(state) sh'.(execution_outputs) n (Stored o)) →
  role'.(r_task) = (roles t).(r_task) → locks_step t sh' roles role' →
  (role'.(r_done) = true → sh'.(scheduler).(done_marker) = true) →
  commit_ok sh' n st role'.(r_commit) →
  (sh'.(scheduler).(commit_locked) = false → role'.(r_commit) = NotCommitting) →
  core sh' (<[t := role']> roles) n st role'.(r_commit).
Proof.
  intros Hc Ht Hs Hown Hready Hexec Htask Hlocks Hdone Hcommit Hfree.
  eapply (core_step n); try done.
  - lia.
  - rewrite Htask. eapply tx_step_task; [done|apply Hown|apply Hc].
  - intros k Hk. right. by rewrite <-Htask.
  - exists t. intros t'. destruct (decide (t' = t)) as [->|Hne]; [by rewrite fn_lookup_insert|].
    rewrite fn_lookup_insert_ne by done. by eapply not_committer.
Qed.

(** A step in the course of a commit. *)
Lemma core_commit t sh sh' roles n st c role' :
  core sh roles n st c → (roles t).(r_commit) = c → active c → tx_step n sh sh' →
  status sh' n = Some Committed → sh'.(scheduler).(commit_locked) = sh.(scheduler).(commit_locked) →
  role'.(r_task) = (roles t).(r_task) → locks_step t sh' roles role' →
  (role'.(r_done) = true → sh'.(scheduler).(done_marker) = true) →
  commit_ok sh' n st role'.(r_commit) →
  core sh' (<[t := role']> roles) n st role'.(r_commit).
Proof.
  intros Hc Ht Ha Hs Hst Hl Htask Hlocks Hdone Hcommit.
  pose proof (commit_active _ _ _ _ (co_commit Hc) Ha) as Hst0.
  eapply core_owner; try done.
  - intros t'. by eapply unowned.
  - by rewrite Hst.
  - by rewrite Hst.
  - rewrite Hl. intros Hf. apply (co_free Hc) in Hf. by rewrite Hf in Ha.
Qed.

Lemma seq_step_outputs tx (st st' : SeqState) :
  seq_step block_context σ0 tx st = Some (Some st') → ∃ o, st'.(seq_outputs) = st.(seq_outputs) ++ [o].
Proof.
  unfold seq_step. intros Hs. destruct (task_output _) as [o|]; [|done]. cbn in Hs. destruct (tx_result o) as [info|e].
  - destruct (seq_bounce block_context σ0 tx st o info) as [b|[]|]; try done. unfold seq_pay in Hs.
    destruct (run_reads _ _) as [[info' w]|]; [|done]. injection Hs as <-. by eexists.
  - injection Hs as <-. by eexists.
Qed.

(** The end of a commit: the next transaction is the one to commit. *)
Lemma core_bump t sh roles n st st' tx role' :
  core sh roles n st (CDone n st st') → (roles t).(r_commit) = CDone n st st' →
  tx_at chunk n tx → seq_step block_context σ0 tx st = Some (Some st') →
  role'.(r_task) = (roles t).(r_task) → role'.(r_lock) = (roles t).(r_lock) → role'.(r_done) = (roles t).(r_done) →
  role'.(r_commit) = CIdle (n + 1) st' →
  core sh (<[t := role']> roles) (n + 1) st' (CIdle (n + 1) st').
Proof.
  intros Hc Ht Htx Hstep R1 R2 R3 R4. pose proof (co_commit Hc) as (_&_&Hact&Hb&Hm&Hcl&Hout).
  pose proof Hact as [Hlt Hst Hidx Hdone Hfull]. destruct (seq_step_outputs _ _ _ Hstep) as [o Ho].
  assert (N.of_nat (length st.(seq_outputs)) = n) as Hlen by (eapply seq_steps_outputs, Hc; done).
  assert (∀ t', (<[t:=role']> roles t').(r_task) = (roles t').(r_task) ∧ (<[t:=role']> roles t').(r_lock) = (roles t').(r_lock) ∧
    (<[t:=role']> roles t').(r_done) = (roles t').(r_done)) as Hsame.
  { intros t'. destruct (decide (t' = t)) as [->|Hne]; [by rewrite fn_lookup_insert|by rewrite fn_lookup_insert_ne]. }
  destruct Hc. split; try done.
  - by econstructor.
  - intros j Hj. destruct (decide (j = n)) as [->|Hne]; [done|]. rewrite Ho, lookup_app_l by lia. apply co_outputs. lia.
  - intros j Hj. destruct (decide (j = n)) as [->|Hne]; [done|]. apply co_committed. lia.
  - intros j Hj. apply co_uncommitted. lia.
  - intros j Hj. apply co_ready. lia.
  - intros j Hj. apply co_executed. lia.
  - intros t'. destruct (Hsame t') as (->&_). specialize (co_tasks t').
    assert (∀ i s, status sh i = Some s → s ≠ Committed → n ≤ i → n + 1 ≤ i) as Hn.
    { intros i s Hs ? ?. assert (i ≠ n); [congruence|lia]. }
    destruct (r_task (roles t')); cbn in *; try done; destruct co_tasks as (?&?&?); split_and!; try done; naive_solver.
  - intros t1 t2 k. destruct (Hsame t1) as (->&_), (Hsame t2) as (->&_). apply co_unique.
  - intros t1 k o1. destruct (Hsame t1) as (_&->&_). apply co_locks.
  - intros t1 t2 k o1 o2. destruct (Hsame t1) as (_&->&_), (Hsame t2) as (_&->&_). apply co_lock_unique.
  - intros k (t'&o1&Hk)%co_lock_held. exists t', o1. by destruct (Hsame t') as (_&->&_).
  - intros t'. destruct (Hsame t') as (_&_&->). apply co_done.
  - cbn. split_and!; [done..|]. split; [done|done| | |].
    + intros Hs. by destruct (co_uncommitted (n + 1)); [lia|].
    + intros Hd. left. destruct (Hfull Hd) as [|(tx'&Htx'&Hstep')]; [done|]. unfold tx_at in *. congruence.
    + intros Hd _. destruct (decide (n + 1 = n_txs)) as [Heq|]; [|lia]. apply Hdone in Heq. congruence.
  - by intros Hf%co_free.
  - exists t. intros t'. destruct (decide (t' = t)) as [->|Hne]; [by rewrite fn_lookup_insert|].
    rewrite fn_lookup_insert_ne by done. destruct co_held as [owner Hh]. rewrite Hh in Ht |- *.
    destruct (decide (t' = owner)); [|done]. destruct (decide (t = owner)); congruence.
Qed.

Lemma core_roles sh roles roles' n st c : (∀ t, roles t = roles' t) → core sh roles n st c → core sh roles' n st c.
Proof.
  intros Hr []. split; try done; try (intros *; rewrite <-!Hr; eauto).
  { intros k (t&o&Hk)%co_lock_held. exists t, o. by rewrite <-Hr. }
  destruct co_held as [owner Hh]. exists owner. intros t. by rewrite <-Hr.
Qed.
End steps.
