(* ===== verification/ConcurrencyScheduling.v ===== *)
(** What the methods of the scheduler do to the role of the thread that calls them. *)
From stdpp Require Import functions.
From S2P Require Import Prelude StarknetApi StateApi CachedState CachedStateProofs VersionedState VersionedProofs.
From S2P Require Import Scheduler WorkerLogic ConcurrencySpec ConcurrencyInv ConcurrencySteps.

Section roles.
Context {RunnableCompiledClass I E B : Type}.
Abbreviation Role := (Role RunnableCompiledClass I E B).

Definition with_task r (role : Role) : Role :=
  {| r_task := r; r_lock := role.(r_lock); r_commit := role.(r_commit); r_done := role.(r_done) |}.
Definition with_lock l (role : Role) : Role :=
  {| r_task := role.(r_task); r_lock := l; r_commit := role.(r_commit); r_done := role.(r_done) |}.
Definition with_commit c (role : Role) : Role :=
  {| r_task := role.(r_task); r_lock := role.(r_lock); r_commit := c; r_done := role.(r_done) |}.
Definition with_done d (role : Role) : Role :=
  {| r_task := role.(r_task); r_lock := role.(r_lock); r_commit := role.(r_commit); r_done := d |}.
End roles.

Section scheduling.
Context `{HashOrder} `{FeeTokenVar} {RunnableCompiledClass S I E B : Type}.
Context `{!StateReader RunnableCompiledClass S} `{!StateReaderLaws RunnableCompiledClass S}.
Context `{!BlockBouncer RunnableCompiledClass I E B}.
Abbreviation Transaction := (Transaction RunnableCompiledClass I E).
Abbreviation Output := (ExecutionTaskOutput RunnableCompiledClass I E).
Abbreviation VersionedState := (VersionedState RunnableCompiledClass S).
Abbreviation Shared := (Shared RunnableCompiledClass S I E B).
Abbreviation Role := (Role RunnableCompiledClass I E B).
Abbreviation SeqState := (SeqState RunnableCompiledClass I E B).
Abbreviation View := (View RunnableCompiledClass).
Context (class_of : N → RunnableCompiledClass) (declares : Prop) (σ0 : View) `{!InitialLaws class_of σ0}.
Context (chunk : list Transaction) (block_context : BlockContext) (bouncer0 : B).
Abbreviation quiet := (quiet class_of declares σ0 chunk block_context bouncer0).
Abbreviation stage_ok := (stage_ok class_of declares σ0 chunk block_context bouncer0).
Abbreviation task_ok := (task_ok class_of declares σ0 chunk block_context bouncer0).
Abbreviation commit_ok := (commit_ok class_of declares σ0 chunk block_context bouncer0).
Abbreviation core := (core class_of declares σ0 chunk block_context bouncer0).
Abbreviation Inv := (Inv class_of declares σ0 chunk block_context bouncer0).
Abbreviation n_txs := (n_txs chunk).
Abbreviation wp := (wp_proc class_of declares σ0 chunk block_context bouncer0).
Abbreviation wpw := (wp (λ sh, sh) (λ sh _, sh)).
Abbreviation wps := (wp scheduler set_scheduler).
Implicit Types (sh : Shared) (V : VersionedState) (i j n : N) (t : nat) (role : Role).

Lemma core_refresh sh roles n st c t role :
  core sh roles n st c → roles t = role → core sh (<[t := role]> roles) n st c.
Proof.
  intros Hc Hr. eapply core_roles; [|exact Hc]. intros t'.
  destruct (decide (t' = t)) as [->|Hne]; [by rewrite fn_lookup_insert|by rewrite fn_lookup_insert_ne].
Qed.

Lemma Inv_refresh sh roles t role : Inv sh roles → roles t = role → Inv sh (<[t := role]> roles).
Proof.
  intros (n&st&c&Hc) Hr. exists n, st, c. by apply core_refresh.
Qed.

Lemma set_scheduler_id sh : set_scheduler sh.(scheduler) sh = sh.
Proof. by destruct sh. Qed.

(** ** Loads and indices *)

Lemma wps_load {A} t (f : Scheduler → A) role Q :
  (∀ sh roles, Inv sh roles → roles t = role → Q (f sh.(scheduler)) role) → wps t (load f) role Q.
Proof.
  intros HQ sh roles Hinv Hrole. cbn. exists role. rewrite set_scheduler_id. split; [by apply Inv_refresh|by eapply HQ].
Qed.

(** Only the indices of the next tasks differ. *)
Record same_but_indices (s s' : Scheduler) : Prop := {
  sbi_commit : s'.(commit_index) = s.(commit_index);
  sbi_locked : s'.(commit_locked) = s.(commit_locked);
  sbi_size : s'.(chunk_size) = s.(chunk_size);
  sbi_statuses : s'.(tx_statuses) = s.(tx_statuses);
  sbi_done : s'.(done_marker) = s.(done_marker);
}.

Lemma same_layer_refl V i : same_layer V V i.
Proof. by split. Qed.

Lemma same_memory_scheduler sh s' :
  s'.(chunk_size) = sh.(scheduler).(chunk_size) → s'.(tx_statuses) = sh.(scheduler).(tx_statuses) →
  (sh.(scheduler).(done_marker) = true → s'.(done_marker) = true) →
  same_memory class_of σ0 sh (set_scheduler s' sh).
Proof. intros Hz Hs Hd. by split; cbn. Qed.

Lemma wps_indices {A} t (f : Scheduler → A * Scheduler) role Q :
  (∀ s, same_but_indices s (f s).2) → (∀ a, Q a role) → wps t (atomically f) role Q.
Proof.
  intros Hf HQ sh roles (n&st&c&Hc) Hrole. cbn. specialize (Hf sh.(scheduler)).
  destruct (f (scheduler sh)) as [a s'] eqn:Heq. cbn in Hf. destruct Hf as [H1 H2 H3 H4 H5].
  exists role. split; [|apply HQ]. exists n, st, c. subst role.
  assert (same_memory class_of σ0 sh (set_scheduler s' sh)) as Hm by (apply same_memory_scheduler; congruence).
  eapply core_neutral; try done.
  - eapply tx_step_task; [by apply (same_memory_step _ _ _ _ _ _ n_txs)|by eapply no_task_there|apply Hc].
  - by eapply locks_keep.
  - apply Hc.
Qed.

(** ** Statuses *)

Definition update_status i (s : TransactionStatus) sh : Shared := set_scheduler (put_status i s sh.(scheduler)) sh.

Lemma status_update i s sh j :
  status (update_status i s sh) j = if decide (j = i) then (λ _, s) <$> status sh i else status sh j.
Proof.
  unfold status, get_status, update_status, put_status. cbn. destruct (decide (j = i)) as [->|Hne].
  - rewrite list_lookup_insert. destruct (tx_statuses _ !! _) as [s0|] eqn:Hs; cbn.
    + apply lookup_lt_Some in Hs. by rewrite decide_True.
    + apply lookup_ge_None in Hs. rewrite decide_False; [done|lia].
  - rewrite list_lookup_insert_ne; [done|]. intros Heq%N2Nat.inj. congruence.
Qed.

Lemma update_status_same i s sh : status sh i = Some s → update_status i s sh = sh.
Proof.
  unfold status, get_status, update_status, put_status. intros Hs. rewrite list_insert_id by done.
  by destruct sh as [[]].
Qed.

Lemma update_status_step i s sh : tx_step class_of declares σ0 chunk block_context bouncer0 i sh (update_status i s sh).
Proof.
  split; cbn; try done; eauto.
  - by rewrite length_insert.
  - intros j Hj. rewrite status_update. by destruct (decide (j = i)).
Qed.

Lemma status_below sh roles n st c i s : core sh roles n st c → status sh i = Some s → s ≠ Committed → n ≤ i.
Proof. intros Hc Hs Hne. destruct (decide (n ≤ i)) as [|Hlt]; [done|]. rewrite (co_committed Hc) in Hs by lia. congruence. Qed.

Lemma status_range sh roles n st c i s : core sh roles n st c → status sh i = Some s → i < n_txs.
Proof. intros Hc Hs%lookup_lt_Some. rewrite (co_statuses Hc) in Hs. unfold ConcurrencyInv.n_txs. lia. Qed.

Lemma status_Some sh roles n st c i : core sh roles n st c → i < n_txs → is_Some (status sh i).
Proof. intros Hc Hi. apply lookup_lt_is_Some. rewrite (co_statuses Hc). unfold ConcurrencyInv.n_txs in Hi. lia. Qed.

(** The thread [t] changes the status of the transaction [i], which it owns or takes. *)
Lemma status_move t sh roles n st c i s s' r' :
  core sh roles n st c → status sh i = Some s → s ≠ Committed → s' ≠ Committed →
  task_tx (roles t).(r_task) = Some i ∨ (s ≠ Executing ∧ s ≠ Aborting) →
  (s' = ReadyToExecute → stage_ok sh.(state) sh.(execution_outputs) i (Running [])) →
  (s' = Executed → ∃ o, stage_ok sh.(state) sh.(execution_outputs) i (Stored o)) →
  (∀ k, task_tx r' = Some k → k = i) →
  (n ≤ i < n_txs → status (update_status i s' sh) i = Some s' → task_ok (update_status i s' sh) n r') →
  core (update_status i s' sh) (<[t := with_task r' (roles t)]> roles) n st c.
Proof.
  intros Hc Hs Hne Hne' Hown Hready Hexec Htx Htask.
  pose proof (status_below _ _ _ _ _ _ _ Hc Hs Hne). pose proof (status_range _ _ _ _ _ _ _ Hc Hs).
  assert (status (update_status i s' sh) i = Some s') as Hs' by (rewrite status_update, decide_True, Hs; done).
  eapply (core_keep _ _ _ _ _ _ i); try done.
  - apply update_status_step.
  - intros ->. rewrite Hs, Hs'. split; congruence.
  - rewrite Hs'. congruence.
  - rewrite Hs'. intros [= ->]. by apply Hready.
  - rewrite Hs'. intros [= ->]. by apply Hexec.
  - intros t' Ht. destruct Hown as [Hown|[??]]; [|by eapply unowned].
    intros Ht'. by pose proof (co_unique Hc _ _ _ Hown Ht').
  - by apply Htask.
  - intros k Hk. left. by apply Htx.
  - by eapply locks_keep.
  - cbn. apply Hc.
Qed.

Lemma wps_with_status {A} t i (f : TransactionStatus → option (A * TransactionStatus)) role Q :
  i < n_txs →
  (∀ sh roles n st c s, core sh roles n st c → roles t = role → status sh i = Some s →
     match f s with
     | Some (a, s') => ∃ role', core (update_status i s' sh) (<[t := role']> roles) n st c ∧ Q a role'
     | None => ¬ quiet
     end) → wps t (with_status i f) role Q.
Proof.
  intros Hi Hf sh roles (n&st&c&Hc) Hrole. cbn.
  destruct (status_Some _ _ _ _ _ _ Hc Hi) as [s Hs]. specialize (Hf sh roles n st c s Hc Hrole Hs).
  unfold status in Hs. rewrite Hs. cbn. destruct (f s) as [[a s']|]; cbn.
  - destruct Hf as (role'&Hc'&HQ). exists role'. split; [by exists n, st, c|done].
  - exists role. rewrite set_scheduler_id. split; [|done]. apply Inv_refresh; [by exists n, st, c|done].
Qed.

(** ** Tasks *)

(** The role of a thread that was given a task. *)
Definition role_for (task : Task) (role : Role) : Role :=
  match task with
  | ExecutionTask i => with_task (Executes i (Running [])) role
  | ValidationTask i => with_task (Validates i) role
  | TaskDone => with_done true role
  | AskForTask | NoTaskAvailable => role
  end.

Definition task_range (task : Task) : Prop := match task with ExecutionTask i => i < n_txs | _ => True end.

Lemma wps_try_incarnate t i role Q :
  task_tx role.(r_task) = None → (i < n_txs → Q true (with_task (Executes i (Running [])) role)) → Q false role →
  wps t (try_incarnate i) role Q.
Proof.
  intros Hr Htrue Hfalse. apply wp_proc_bind, wps_load. intros sh0 roles0 (n0&st0&c0&Hc0) _.
  rewrite (co_size Hc0). destruct (decide _) as [Hi|Hge]; [|done]. apply wps_with_status; [done|].
  intros sh roles n st c s Hc Ht Hs. destruct (decide _) as [->|Hne].
  - eexists. split; [|exact (Htrue Hi)]. rewrite <-Ht. eapply status_move; try done.
    + by right.
    + intros k [= ->]. done.
    + intros Hn Hs'. split; [done|]. split; [done|]. apply (co_ready Hc); [lia|done].
  - eexists. split; [|exact Hfalse]. rewrite update_status_same by done. by apply core_refresh.
Qed.

Lemma wps_next_version_to_execute t role Q :
  task_tx role.(r_task) = None → (∀ i, i < n_txs → Q (Some i) (with_task (Executes i (Running [])) role)) → Q None role →
  wps t next_version_to_execute role Q.
Proof.
  intros Hr HS HN. apply wp_proc_bind, wps_indices; [done|]. intros i0.
  apply wp_proc_bind, wps_load. intros sh0 roles0 _ _. destruct (decide _) as [|Hlt]; [done|].
  apply wp_proc_bind, wps_indices; [done|]. intros i. apply wp_proc_bind.
  apply wps_try_incarnate; [done|apply HS|done].
Qed.

Lemma wps_next_version_to_validate t role Q :
  role.(r_task) = NoTask → (∀ i, Q (Some i) (with_task (Validates i) role)) → Q None role →
  wps t next_version_to_validate role Q.
Proof.
  intros Hr HS HN. apply wp_proc_bind, wps_indices; [done|]. intros i0.
  apply wp_proc_bind, wps_load. intros sh0 roles0 (n0&st0&c0&Hc0) _. destruct (decide _) as [|Hlt]; [done|].
  apply wp_proc_bind, wps_indices; [done|]. intros i. rewrite (co_size Hc0).
  destruct (decide _) as [Hi|Hge]; [|done]. apply wps_with_status; [done|].
  intros sh roles n st c s Hc Ht Hs. rewrite update_status_same by done. destruct (decide _) as [->|].
  - eexists. split; [|apply HS].
    destruct (co_executed Hc i) as [o (_&_&Ho)]; [by eapply status_below|done|].
    eapply core_neutral; try done.
    + cbn. by exists o.
    + by eapply locks_keep; cbn; rewrite ?Ht.
    + cbn. rewrite <-Ht. apply Hc.
    + cbn. by rewrite Ht.
  - eexists. split; [by apply core_refresh|done].
Qed.

Lemma wps_next_execution_task t role Q :
  role.(r_task) = NoTask → (∀ task, task_range task → Q task (role_for task role)) → wps t next_execution_task role Q.
Proof.
  intros Hr HQ. apply wp_proc_bind, wps_next_version_to_execute; [by rewrite Hr|intros i; apply (HQ (ExecutionTask i))|].
  apply (HQ AskForTask Logic.I).
Qed.

Lemma wps_done t role Q :
  Q true (with_done true role) →
  (∀ sh roles, Inv sh roles → roles t = role → sh.(scheduler).(done_marker) = false → role.(r_done) = false → Q false role) →
  wps t done role Q.
Proof.
  intros Ht Hf sh roles (n&st&c&Hc) Hrole. cbn. rewrite set_scheduler_id.
  destruct (done_marker (scheduler sh)) eqn:Hd; cycle 1.
  { exists role. split; [apply Inv_refresh; [by exists n, st, c|done]|]. apply (Hf sh roles); [by exists n, st, c|done..|]. rewrite <-Hrole.
    destruct (r_done (roles t)) eqn:Hrd; [|done]. apply (co_done Hc) in Hrd. congruence. }
  eexists. split; [|exact Ht]. exists n, st, c. eapply core_neutral; try done.
  - cbn. rewrite <-Hrole. apply Hc.
  - cbn. rewrite <-Hrole. done.
  - eapply locks_keep; try done. by rewrite Hrole.
  - by rewrite Hrole.
Qed.

Lemma wps_next_task t role Q :
  role.(r_task) = NoTask → (∀ task, task_range task → Q task (role_for task role)) → wps t next_task role Q.
Proof.
  intros Hr HQ. apply wp_proc_bind, wps_done; [apply (HQ TaskDone Logic.I)|intros _ _ _ _ _ _].
  apply wp_proc_bind, wps_indices; [done|]. intros iv. apply wp_proc_bind, wps_indices; [done|]. intros ie.
  apply wp_proc_bind, wps_load. intros sh0 roles0 _ _. destruct (decide _); [apply (HQ NoTaskAvailable Logic.I)|].
  destruct (decide _); [|by apply wps_next_execution_task].
  apply wp_proc_bind, wps_next_version_to_validate; [done|intros i; apply (HQ (ValidationTask i) Logic.I)|].
  by apply wps_next_execution_task.
Qed.

(** ** The end of an execution or of a validation *)

Lemma wps_finish_execution t i o role Q :
  i < n_txs → role.(r_task) = Executes i (Stored o) → Q tt (with_task NoTask role) → wps t (finish_execution i) role Q.
Proof.
  intros Hi Hr HQ. apply wp_proc_bind, wps_with_status; [done|]. intros sh roles n st c s Hc Ht Hs.
  pose proof (co_tasks Hc t) as Htask. rewrite Ht, Hr in Htask. destruct Htask as (_&Hs'&Hst).
  assert (s = Executing) as -> by congruence. rewrite decide_True by done.
  exists (with_task NoTask role). split; [|apply wps_indices; [done|by intros []]]. rewrite <-Ht. eapply status_move; try done.
  - left. by rewrite Ht, Hr.
  - intros _. by exists o.
Qed.

Lemma wps_try_validation_abort t i o role Q :
  i < n_txs → role.(r_task) = Validates i → role.(r_lock) = Some (i, Some o) →
  Q true (with_task (Aborts i (Stored o)) role) → Q false role → wps t (try_validation_abort i) role Q.
Proof.
  intros Hi Hr Hl Htrue Hfalse. apply wps_with_status; [done|]. intros sh roles n st c s Hc Ht Hs.
  destruct (decide _) as [->|Hne]; cycle 1.
  { eexists. split; [|exact Hfalse]. rewrite update_status_same by done. by apply core_refresh. }
  eexists. split; [|exact Htrue]. rewrite <-Ht. eapply status_move; try done.
  - by right.
  - intros k [= ->]. done.
  - intros Hn Hs'. split; [done|]. split; [done|]. destruct (co_executed Hc i) as [o' Ho]; [lia|done|].
    destruct (co_locks Hc t i (Some o)) as [_ Hout]; [by rewrite Ht|].
    pose proof Ho as (_&_&Hout'). assert (o' = o) as <- by congruence. exact Ho.
Qed.

Lemma wps_finish_abort t i role Q :
  i < n_txs → role.(r_task) = Aborts i (Running []) → (∀ task, task_range task → Q task (role_for task (with_task NoTask role))) →
  wps t (finish_abort i) role Q.
Proof.
  intros Hi Hr HQ. apply wp_proc_bind, wps_with_status; [done|]. intros sh roles n st c s Hc Ht Hs.
  pose proof (co_tasks Hc t) as Htask. rewrite Ht, Hr in Htask. destruct Htask as (_&Hs'&Hst).
  assert (s = Aborting) as -> by congruence. rewrite decide_True by done.
  exists (with_task NoTask role). split.
  - rewrite <-Ht. eapply status_move; try done. left. by rewrite Ht, Hr.
  - apply wp_proc_bind, wps_indices; [done|]. intros ie. destruct (decide _) as [|Hge]; [|apply (HQ AskForTask Logic.I)].
    apply wp_proc_bind, wps_try_incarnate; [done|apply (HQ (ExecutionTask i))|apply (HQ AskForTask Logic.I)].
Qed.

(** ** The commit phase *)

Lemma tx_step_scheduler i s' sh :
  length s'.(tx_statuses) = length sh.(scheduler).(tx_statuses) → s'.(chunk_size) = sh.(scheduler).(chunk_size) →
  (∀ j, j ≠ i → get_status j s' = status sh j) → (sh.(scheduler).(done_marker) = true → s'.(done_marker) = true) →
  tx_step class_of declares σ0 chunk block_context bouncer0 i sh (set_scheduler s' sh).
Proof. intros Hl Hz Hs Hd. split; cbn; try done; eauto. Qed.

(** A step of the committer on the scheduler. *)
Lemma scheduler_commit t s' sh roles n st c role' :
  core sh roles n st c → (roles t).(r_commit) = c → active c →
  s'.(tx_statuses) = sh.(scheduler).(tx_statuses) → s'.(chunk_size) = sh.(scheduler).(chunk_size) →
  s'.(commit_locked) = sh.(scheduler).(commit_locked) → (sh.(scheduler).(done_marker) = true → s'.(done_marker) = true) →
  role'.(r_task) = (roles t).(r_task) → role'.(r_lock) = (roles t).(r_lock) →
  (role'.(r_done) = true → s'.(done_marker) = true) → commit_ok (set_scheduler s' sh) n st role'.(r_commit) →
  core (set_scheduler s' sh) (<[t := role']> roles) n st role'.(r_commit).
Proof.
  intros Hc Ht Ha Hs Hz Hl Hd R1 R2 R3 Hcommit.
  assert (∀ j, status (set_scheduler s' sh) j = status sh j) as Hst.
  { intros j. unfold status, get_status. cbn. by rewrite Hs. }
  eapply core_commit; try done.
  - apply tx_step_scheduler; [by rewrite Hs|done|intros j _; apply Hst|done].
  - rewrite Hst. by eapply commit_active; [apply Hc|].
  - by eapply locks_keep.
Qed.

Lemma committer_role t sh roles n st c role x :
  core sh roles n st c → roles t = role → role.(r_commit) = x → x ≠ NotCommitting → c = x.
Proof. intros Hc <- <- Hx. symmetry. by eapply committer. Qed.

Lemma wps_halt_scheduler t n st role Q :
  role.(r_commit) = CFull n st → Q tt (with_done true (with_commit (CIdle n st) role)) → wps t halt_scheduler role Q.
Proof.
  intros Hr HQ. apply wp_proc_bind. intros sh roles (n'&st'&c&Hc) Ht.
  assert (c = CFull n st) as -> by (by eapply committer_role).
  pose proof (co_commit Hc) as (<-&<-&[Hlt Hst Hidx Hd Hf]&Hb&Hfull). cbn [atomically_or_crash].
  rewrite Hidx. rewrite decide_True by lia. exists (with_commit (CHalting n st) role). split.
  { exists n, st, (CHalting n st). eapply (scheduler_commit t _ sh roles n st _ (with_commit (CHalting n st) role)); try done;
      try (by rewrite Ht).
    - cbn. rewrite <-Ht. apply (co_done Hc).
    - cbn. split_and!; try done. lia. }
  clear -Hr HQ. intros sh roles (n'&st'&c&Hc) Ht. cbn.
  assert (c = CHalting n st) as -> by (by eapply committer_role).
  pose proof (co_commit Hc) as (<-&<-&Hst&Hidx&Hb&Hfull). eexists. split; [|exact HQ].
  exists n, st, (CIdle n st).
  eapply (scheduler_commit t _ sh roles n st _ (with_done true (with_commit (CIdle n st) role))); try done; try (by rewrite Ht).
  cbn. split_and!; [done..|]. split; try done. by right.
Qed.

(** The lock of the commit is taken or released. *)
Lemma toggle_commit t b sh roles n st c c' :
  core sh roles n st c → (roles t).(r_commit) = c → idle_ok σ0 chunk block_context sh n st →
  c' = (if b : bool then CIdle n st else NotCommitting) →
  core (set_scheduler (set_commit_locked b sh.(scheduler)) sh) (<[t := with_commit c' (roles t)]> roles) n st c'.
Proof.
  intros Hc Ht Hidle Hc'. set (sh' := set_scheduler (set_commit_locked b (scheduler sh)) sh).
  assert (same_memory class_of σ0 sh sh') as Hm by (by apply same_memory_scheduler).
  assert (status sh' n_txs = None) as Hno by apply (no_status_there _ _ _ _ _ _ _ _ _ _ _ Hc).
  assert (idle_ok σ0 chunk block_context sh' n st) as Hidle' by (destruct Hidle; by split).
  eapply (core_step _ _ _ _ _ _ n_txs t sh sh' roles n st _ (with_commit c' (roles t))); rewrite ?Hno; try done.
  - by eapply core_le.
  - by apply same_memory_step.
  - intros t' _. by eapply no_task_there.
  - apply (co_tasks Hc).
  - auto.
  - by eapply locks_keep.
  - apply (co_done Hc).
  - subst c'. by destruct b.
  - subst c'. by destruct b.
  - exists t. intros t'. destruct (decide (t' = t)) as [->|Hne]; [by rewrite fn_lookup_insert|].
    rewrite fn_lookup_insert_ne by done. by eapply not_committer.
Qed.

Lemma wps_try_enter_commit_phase t role Q :
  role.(r_commit) = NotCommitting → Q false role → (∀ n st, n ≤ n_txs → Q true (with_commit (CIdle n st) role)) →
  wps t try_enter_commit_phase role Q.
Proof.
  intros Hr Hf Htrue sh roles (n&st&c&Hc) Ht. cbn. destruct (commit_locked (scheduler sh)) eqn:Hl.
  { exists role. rewrite set_scheduler_id. split; [|done]. apply Inv_refresh; [by exists n, st, c|done]. }
  assert (c = NotCommitting) as -> by (by apply (co_free Hc)).
  exists (with_commit (CIdle n st) role). split; [|by eapply Htrue, core_le].
  exists n, st, (CIdle n st). rewrite <-Ht. eapply toggle_commit; [done|by rewrite Ht| |done]. apply (co_commit Hc).
Qed.

Lemma wps_leave_commit_phase t n st role Q :
  role.(r_commit) = CIdle n st → Q tt (with_commit NotCommitting role) → wps t leave_commit_phase role Q.
Proof.
  intros Hr HQ sh roles (n'&st'&c&Hc) Ht. cbn.
  assert (c = CIdle n st) as -> by (by eapply committer_role). pose proof (co_commit Hc) as (<-&<-&Hidle).
  exists (with_commit NotCommitting role). split; [|done].
  exists n, st, NotCommitting. rewrite <-Ht. eapply toggle_commit; [done|by rewrite Ht|done|done].
Qed.

(** The status of the transaction to commit and the count change together. *)
Definition committing n (s : Scheduler) : Scheduler :=
  let s := set_commit_index (n + 1) (put_status n Committed s) in
  if decide (n + 1 = n_txs) then set_done_marker true s else s.

Lemma start_commit t sh roles n st o :
  core sh roles n st (CIdle n st) → (roles t).(r_commit) = CIdle n st → status sh n = Some Executed → n < n_txs →
  stage_ok sh.(state) sh.(execution_outputs) n (Stored o) →
  core (set_scheduler (committing n sh.(scheduler)) sh)
    (<[t := with_commit (CActive n st false (Stored o)) (roles t)]> roles) n st (CActive n st false (Stored o)).
Proof.
  intros Hc Ht Hs Hlt Ho. pose proof (co_commit Hc) as (_&_&[Hidx Hb Hst Hdone Hmore]).
  set (sh' := set_scheduler (committing n (scheduler sh)) sh).
  assert (∀ j, status sh' j = status (update_status n Committed sh) j) as Hst'.
  { intros j. unfold sh', committing. by destruct (decide _). }
  assert (status sh' n = Some Committed) as Hsn by (rewrite Hst', status_update, decide_True, Hs; done).
  assert (sh'.(scheduler).(commit_locked) = sh.(scheduler).(commit_locked)) as Hlk.
  { unfold sh', committing. by destruct (decide _). }
  eapply (core_owner _ _ _ _ _ _ t sh sh' roles n st _ (with_commit _ (roles t))); rewrite ?Hsn; try done.
  - apply tx_step_scheduler.
    + unfold committing. destruct (decide _); cbn; by rewrite length_insert.
    + unfold committing. by destruct (decide _).
    + intros j Hj. etrans; [apply Hst'|]. rewrite status_update. by rewrite decide_False.
    + unfold committing. by destruct (decide _).
  - intros t'. by eapply unowned.
  - by eapply locks_keep.
  - intros Hd. apply (co_done Hc) in Hd. unfold sh', committing. by destruct (decide _).
  - cbn [commit_ok with_commit r_commit]. split_and!; [done..| |done|exact Ho|done].
    split; [done|done| | |]; unfold sh', committing; destruct (decide _); try done; try lia.
    cbn. intros [->|?]%Hdone; [lia|by right].
  - cbn [with_commit r_commit]. rewrite Hlk. intros Hf. by apply (co_free Hc) in Hf.
Qed.

Lemma wps_try_commit t n st role Q :
  role.(r_commit) = CIdle n st → Q None (with_done true role) → Q None role →
  (role.(r_done) = false → n < n_txs → ∀ o, Q (Some n) (with_commit (CActive n st false (Stored o)) role)) →
  wps t try_commit role Q.
Proof.
  intros Hr HQd HQ HQS. apply wp_proc_bind, wps_done; [done|].
  intros sh0 roles0 (n0&st0&c0&Hc0) Ht0 Hd0 Hnd.
  assert (c0 = CIdle n st) as -> by (by eapply committer_role). pose proof (co_commit Hc0) as (<-&<-&[_ _ _ _ Hmore]).
  apply wp_proc_bind, wps_load. intros sh1 roles1 (n1&st1&c1&Hc1) Ht1.
  assert (c1 = CIdle n st) as -> by (by eapply committer_role). pose proof (co_commit Hc1) as (<-&<-&[-> _ _ _ _]).
  apply wp_proc_bind, wps_load. intros sh2 roles2 (n2&st2&c2&Hc2) _. rewrite (co_size Hc2). clear dependent sh2.
  destruct (decide (n < n_txs)) as [Hlt|Hge]; cycle 1.
  { rewrite bool_decide_eq_false_2 by done. intros Hq. apply Hge, Hmore; [done|apply Hq]. }
  rewrite bool_decide_eq_true_2 by done. intros sh roles (n'&st'&c&Hc) Ht.
  assert (c = CIdle n st) as -> by (by eapply committer_role). pose proof (co_commit Hc) as (<-&<-&Hidle).
  destruct (status_Some _ _ _ _ _ _ Hc Hlt) as [s Hs]. unfold status in Hs. cbn. rewrite Hs. cbn.
  destruct (decide (s = Executed)) as [->|Hne]; cycle 1.
  { rewrite decide_True by done. exists role. rewrite set_scheduler_id. split; [|done].
    apply Inv_refresh; [by exists n, st, (CIdle n st)|done]. }
  rewrite decide_False by tauto. destruct (co_executed Hc n) as [o Ho]; [lia|done|].
  exists (with_commit (CActive n st false (Stored o)) role). split; [|by apply HQS].
  exists n, st, (CActive n st false (Stored o)). rewrite <-Ht. apply start_commit; try done. by rewrite Ht.
Qed.
End scheduling.
