(* ===== verification/ConcurrencyExecution.v ===== *)
(** The execution of a transaction by a worker, and the validation of its read set. *)
From stdpp Require Import functions.
From S2P Require Import Prelude StarknetApi StateApi CachedState CachedStateProofs VersionedState VersionedProofs.
From S2P Require Import Scheduler WorkerLogic ConcurrencySpec ConcurrencyInv ConcurrencySteps ConcurrencyScheduling.

Section execution.
Context `{HashOrder} `{FeeTokenVar} {RunnableCompiledClass S I E B : Type}.
Context `{!StateReader RunnableCompiledClass S} `{!StateReaderLaws RunnableCompiledClass S}.
Context `{!BlockBouncer RunnableCompiledClass I E B}.
Abbreviation Transaction := (Transaction RunnableCompiledClass I E).
Abbreviation Output := (ExecutionTaskOutput RunnableCompiledClass I E).
Abbreviation VersionedState := (VersionedState RunnableCompiledClass S).
Abbreviation Shared := (Shared RunnableCompiledClass S I E B).
Abbreviation Role := (Role RunnableCompiledClass I E B).
Abbreviation SeqState := (SeqState RunnableCompiledClass I E B).
Abbreviation View := (View RunnableCompiledClass).
Context (class_of : N → RunnableCompiledClass) (declares : Prop) (σ0 : View) `{!InitialLaws class_of σ0}.
Context (chunk : list Transaction) (block_context : BlockContext) (bouncer0 : B).
Abbreviation quiet := (quiet class_of declares σ0 chunk block_context bouncer0).
Abbreviation stage_ok := (stage_ok class_of declares σ0 chunk block_context bouncer0).
Abbreviation task_ok := (task_ok class_of declares σ0 chunk block_context bouncer0).
Abbreviation commit_ok := (commit_ok class_of declares σ0 chunk block_context bouncer0).
Abbreviation core := (core class_of declares σ0 chunk block_context bouncer0).
Abbreviation Inv := (Inv class_of declares σ0 chunk block_context bouncer0).
Abbreviation n_txs := (n_txs chunk).
Abbreviation wp := (wp_proc class_of declares σ0 chunk block_context bouncer0).
Abbreviation wpw := (wp (λ sh, sh) (λ sh _, sh)).
Abbreviation wps := (wp scheduler set_scheduler).
Implicit Types (sh : Shared) (V : VersionedState) (i j n : N) (t : nat) (role : Role).

Abbreviation output_ok := (output_ok class_of declares σ0 chunk block_context bouncer0).
Abbreviation trace_ok := (trace_ok class_of declares σ0 chunk block_context bouncer0).
Abbreviation tx_step := (tx_step class_of declares σ0 chunk block_context bouncer0).
Abbreviation Stage := (Stage RunnableCompiledClass I E).
Context (Hchunk : chunk_ok class_of declares chunk).

(** ** What a run yields *)

Lemma trace_ok_nil V i : trace_ok V i [].
Proof.
  split; [intros q r Hin|intros _ q r Hin|intros _ q r Hin]; by apply elem_of_nil in Hin.
Qed.

Lemma asked_remembered V i tr q : trace_ok V i tr → quiet → asked tr q → ∃ r, existT q r ∈ tr ∧ remembered class_of V q r.
Proof. intros Htr Hq [r Hr]. exists r. split; [done|]. by apply (to_remembered _ _ _ _ _ _ _ _ _ Htr). Qed.

Lemma reads_asked_remembered V i tr R : trace_ok V i tr → quiet → reads_asked tr R → reads_remembered V R.
Proof.
  intros Htr Hq [A1 A2 A3 A4 A5]. pose proof (λ q, asked_remembered V i tr q Htr Hq) as Hr. split.
  - intros a k v [r [_ ?]]%A1%Hr. done.
  - intros a v [r [_ ?]]%A2%Hr. done.
  - intros a v [r [_ ?]]%A3%Hr. done.
  - intros h v [[r [_ ?]]%Hr|[_ Hin]]%A4; [done|].
    apply (to_remembered _ _ _ _ _ _ _ _ _ Htr Hq) in Hin as (_&Hc&_). by apply Hc.
  - intros h b [r [_ [? _]]]%A5%Hr. done.
Qed.

Lemma output_of_run V i tx tr run o :
  chunk !! N.to_nat i = Some tx → trace_ok V i tr → ends_with (transaction_run tx) tr run →
  task_output run = Some o → output_ok V i o.
Proof.
  intros Htx Htr Hend Ho. destruct (Hchunk tx) as [Hwell Honce]; [by eapply list_elem_of_lookup_2|].
  destruct run as [res self]. pose proof (to_valid _ _ _ _ _ _ _ _ _ Htr) as Hv.
  pose proof (program_run_inv _ _ _ _ _ _ Hwell Hend Hv) as Hinv.
  pose proof (λ Hq, reads_asked_remembered V i tr _ Htr Hq (ri_asked _ _ _ _ Hinv)) as Hrem.
  assert (∀ σ, agree class_of σ self.(cache).(initial_reads) → run_reads (transaction_run tx) σ = (res, self)) as Hrun.
  { intros σ. by apply (run_determined class_of declares) with tr. }
  assert (i = 0 → agree class_of σ0 self.(cache).(initial_reads)) as Hfirst.
  { intros Hi. eapply (trace_agree class_of declares); [done|by eapply Honce|by apply (to_first _ _ _ _ _ _ _ _ _ Htr)|].
    intros h. apply (initial_undeclared class_of σ0). }
  assert (∀ σ tx', chunk !! N.to_nat i = Some tx' → agree class_of σ self.(cache).(initial_reads) →
    task_output (run_reads (transaction_run tx') σ) = Some o) as Hdet.
  { intros σ tx' Htx' Hσ. assert (tx' = tx) as -> by congruence. by rewrite (Hrun σ Hσ). }
  destruct res as [[info|e]|]; [| |done]; cbn in Ho; cycle 1.
  { injection Ho as <-. by split; cbn; try done; try (intros *; rewrite lookup_empty; done);
      try (intros _; rewrite dom_empty_L; set_solver). }
  destruct (cache_to_state_diff (cache self)) as [changes|] eqn:Hd; [|done].
  apply cache_to_state_diff_ok in Hd as [D1 D2 D3 D4 D5]. cbn in Ho. injection Ho as <-.
  destruct Hinv as [_ [W1 W2 W3] _ Hcl]. split; cbn; try done.
  - intros h b Hb%D5. apply W1 in Hb. tauto.
  - intros Hq. etrans; [exact D1|]. intros [a k] [v Hs]%elem_of_dom. apply elem_of_dom. by eapply (Hrem Hq).
  - intros Hq. etrans; [exact D2|]. intros a [v Hs]%elem_of_dom. apply elem_of_dom. by eapply (Hrem Hq).
  - intros Hq. etrans; [exact D3|]. intros a [v Hs]%elem_of_dom. apply elem_of_dom. by eapply (Hrem Hq).
  - intros Hq. apply map_empty. intros h. apply eq_None_not_Some. intros [v Hh%D4%W3]. by apply (quiet_declares _ _ _ _ _ _ Hq).
  - intros Hq. apply map_empty. intros h. apply eq_None_not_Some. intros [b Hh%D5%W1]. destruct (quiet_declares _ _ _ _ _ _ Hq). tauto.
  - intros Hq h Hh%elem_of_dom. destruct (Hcl h Hh) as [Hf|[b Hb%W1]].
    + apply elem_of_dom. by apply (to_remembered _ _ _ _ _ _ _ _ _ Htr Hq) in Hf as (_&_&?); auto.
    + destruct (quiet_declares _ _ _ _ _ _ Hq). tauto.
Qed.

(** ** The stages of an execution *)

(** The thread executes [i] as its task, or to commit it on the sequential state. *)
Definition with_stage (own : option SeqState) i (s : Stage) role : Role :=
  match own with
  | None => with_task (Executes i s) role
  | Some st => with_commit (CActive i st true s) role
  end.

Definition stage_fits (own : option SeqState) i (s : Stage) : Prop :=
  match own with None => True | Some st => stage_right σ0 chunk i st s end.

Lemma with_stage_lock own i s role : (with_stage own i s role).(r_lock) = role.(r_lock).
Proof. by destruct own. Qed.

Lemma stage_here t sh roles n st c own i s role :
  core sh roles n st c → roles t = with_stage own i s role →
  n ≤ i < n_txs ∧ stage_ok sh.(state) sh.(execution_outputs) i s ∧ stage_fits own i s ∧
  (∀ st0, own = Some st0 → i = n ∧ st0 = st).
Proof.
  intros Hc Ht. destruct own as [st0|].
  - assert (c = CActive i st0 true s) as -> by (by eapply committer_role).
    destruct (co_commit Hc) as (->&->&Ha&_&Hs&Hf). split; [destruct Ha; lia|]. split; [done|]. split; [by apply Hf|].
    by intros st1 [= ->].
  - pose proof (co_tasks Hc t) as Htask. rewrite Ht in Htask. cbn [with_stage with_task r_task] in Htask.
    destruct Htask as (?&_&?). by do 2 (split; [done|]).
Qed.

Lemma stage_step t sh sh' roles n st c own i s s' role l :
  core sh roles n st c → roles t = with_stage own i s role → tx_step i sh sh' →
  sh'.(scheduler) = sh.(scheduler) → sh'.(bouncer) = sh.(bouncer) →
  stage_ok sh'.(state) sh'.(execution_outputs) i s' → stage_fits own i s' →
  locks_step t sh' roles (with_stage own i s' (with_lock l role)) →
  Inv sh' (<[t := with_stage own i s' (with_lock l role)]> roles).
Proof.
  intros Hc Ht Hs Hsched Hb Hst Hfits Hlocks. exists n, st.
  assert (∀ j, status sh' j = status sh j) as Hstatus by (intros j; unfold status; by rewrite Hsched).
  assert ((with_stage own i s' (with_lock l role)).(r_done) = (roles t).(r_done)) as Hdone by (rewrite Ht; by destruct own).
  destruct own as [st0|].
  - assert (c = CActive i st0 true s) as -> by (by eapply committer_role).
    destruct (co_commit Hc) as (->&->&Ha&Hb0&_&_).
    exists (with_stage (Some st) n s' (with_lock l role)).(r_commit). eapply core_commit; try done.
    + by rewrite Ht.
    + rewrite Hstatus. apply Ha.
    + by rewrite Hsched.
    + by rewrite Ht.
    + rewrite Hdone, Hsched. apply (co_done Hc).
    + do 2 (split; [done|]). split; [|split; [|by split]].
      * destruct Ha. split; rewrite ?Hstatus, ?Hsched; done.
      * by rewrite Hb.
  - pose proof (co_tasks Hc t) as Htask. rewrite Ht in Htask. destruct Htask as (?&Hexec&_).
    exists c. eapply (core_keep _ _ _ _ _ _ i t sh sh'); rewrite ?Hstatus, ?Hexec; try done.
    + lia.
    + by split; rewrite ?Hsched.
    + intros <-. rewrite Hexec. done.
    + intros t' Hne Ht'. destruct (Hne). symmetry. eapply (co_unique Hc); [|exact Ht']. by rewrite Ht.
    + cbn [with_stage with_task r_task]. split; [done|]. split; [by rewrite Hstatus|done].
    + intros k [= ->]. by left.
    + rewrite Hdone, Hsched. apply (co_done Hc).
    + by rewrite Ht.
Qed.

(** ** Queries *)

Lemma query_memory sh q i r V' :
  query_spec class_of σ0 i sh.(state) q r V' → same_memory class_of σ0 sh (set_state V' sh).
Proof. intros [_ Hw Hi Hm _]. by split. Qed.

Lemma wp_run_on_proxy {A} t i (m : Reads RunnableCompiledClass A) ctx (P : _ → Prop) tr Q :
  (∀ sh roles n st c tr q V', core sh roles n st c → roles t = ctx tr → P tr →
     let a := view σ0 sh.(state) (i + 1) q in
     query_spec class_of σ0 i sh.(state) q (from_state_result a) V' →
     P (tr ++ [existT q a]) ∧ Inv (set_state V' sh) (<[t := ctx (tr ++ [existT q a])]> roles)) →
  P tr → (∀ tr' a, ends_with m tr' a → P (tr ++ tr') → Q a (ctx (tr ++ tr'))) →
  wpw t (run_on_proxy i m) (ctx tr) Q.
Proof.
  intros Hstep. revert tr. induction m as [a|q k IH]; intros tr HP HQ; cbn.
  - rewrite <-(app_nil_r tr). apply HQ; [constructor|by rewrite app_nil_r].
  - intros sh roles (n&st&c&Hc) Ht.
    pose proof (proxy_query_spec class_of σ0 i q sh.(state) (co_initial Hc)) as Hq.
    destruct (proxy_query i q (state sh)) as [r V']. pose proof (qs_answer _ _ _ _ _ _ _ Hq) as ->.
    destruct (Hstep sh roles n st c tr q V' Hc Ht HP Hq) as [HP' Hinv'].
    eexists. split; [exact Hinv'|]. set (a := view σ0 (state sh) (i + 1) q) in *.
    assert (wpw t (run_on_proxy i (k a)) (ctx (tr ++ [existT q a])) Q) as Hwp; [|by destruct a].
    apply IH; [done|]. intros tr' b Hend. rewrite <-(assoc_L app). intros HP''. apply HQ; [by constructor|done].
Qed.

Lemma extend_default maps : StateMaps_extend maps StateMaps_default = maps.
Proof. destruct maps. unfold StateMaps_extend. cbn. by rewrite !(left_id_L ∅ _). Qed.

Lemma default_extend maps : StateMaps_extend StateMaps_default maps = maps.
Proof. destruct maps. unfold StateMaps_extend. cbn. by rewrite !(right_id_L ∅ _). Qed.

Lemma view_clean V i q : layer V i = StateMaps_default → layer_classes V i = ∅ → view σ0 V (i + 1) q = view σ0 V i q.
Proof.
  intros Hl Hc. unfold view. by rewrite below_succ, below_classes_succ, Hl, Hc, extend_default, (left_id_L ∅ _).
Qed.

Lemma view_0 V q : view σ0 V 0 q = σ0 q.
Proof. unfold view. rewrite below_0. by destruct q. Qed.

Lemma view_seq sh roles n st c q : core sh roles n st c → view σ0 sh.(state) n q = seq_view σ0 st q.
Proof. intros Hc. unfold view, seq_view. by destruct (co_below Hc) as [-> ->]. Qed.

Lemma with_lock_same role : with_lock role.(r_lock) role = role.
Proof. by destruct role. Qed.

Lemma stage_query t sh roles n st c own i tr q V' role :
  core sh roles n st c → roles t = with_stage own i (Running tr) role →
  let a := view σ0 sh.(state) (i + 1) q in
  query_spec class_of σ0 i sh.(state) q (from_state_result a) V' →
  (∀ st0, own = Some st0 → seq_view σ0 st0 q = a) ∧ valid_answer class_of q a ∧
  Inv (set_state V' sh) (<[t := with_stage own i (Running (tr ++ [existT q a])) role]> roles).
Proof.
  intros Hc Ht a Hq. destruct (stage_here _ _ _ _ _ _ _ _ _ _ Hc Ht) as (Hi&(Hl&Hlc&[Hv Hf Hr])&Hfits&Hown).
  assert (∀ st0, own = Some st0 → seq_view σ0 st0 q = a) as Hseq.
  { intros st0 Hst0. destruct (Hown st0 Hst0) as [-> ->]. subst a. by rewrite view_clean, (view_seq _ _ _ _ _ _ Hc) by done. }
  assert (valid_answer class_of q a) as Hva by (apply view_valid; [done|apply Hc]).
  split; [done|]. split; [done|]. pose proof Hq as [_ Hw _ Hm Hrem].
  rewrite <-(with_lock_same role). eapply stage_step; try done.
  - by eapply same_memory_step, query_memory.
  - destruct (Hw i) as [Hw1 Hw2]. cbn. rewrite Hw1, Hw2. split; [done|]. split; [done|]. split.
    + exact (trace_snoc (valid_answer class_of) tr q a Hv Hva).
    + intros ->. refine (trace_snoc (λ q r, σ0 q = r) tr q a _ _); [by apply Hf|]. subst a. by rewrite view_clean, view_0.
    + intros Hquiet. refine (trace_snoc (remembered class_of V') tr q a _ _); [|by apply Hrem, (co_remembered Hc)].
      intros q' r' Hin. eapply remembered_more; [done|by apply Hr].
  - destruct own as [st0|]; [|done]. cbn. refine (trace_snoc (λ q r, seq_view σ0 st0 q = r) tr q a _ _); [apply Hfits|by apply Hseq].
  - eapply locks_keep; try done. by rewrite Ht, !with_stage_lock.
Qed.

(** ** Outputs *)

Definition locking i sh : Shared := set_output_locks ({[i]} ∪ sh.(output_locks)) sh.
Definition unlocking i sh : Shared := set_output_locks (sh.(output_locks) ∖ {[i]}) sh.

Lemma locks_memory l sh : same_memory class_of σ0 sh (set_output_locks l sh).
Proof. by split. Qed.

Lemma output_Some sh roles n st c i : core sh roles n st c → i < n_txs → is_Some (sh.(execution_outputs) !! N.to_nat i).
Proof. intros Hc Hi. apply lookup_lt_is_Some. rewrite (co_length Hc). unfold ConcurrencyInv.n_txs in Hi. lia. Qed.

Lemma output_range sh roles n st c i o :
  core sh roles n st c → sh.(execution_outputs) !! N.to_nat i = Some o → i < n_txs.
Proof. intros Hc Ho%lookup_lt_Some. rewrite (co_length Hc) in Ho. unfold ConcurrencyInv.n_txs. lia. Qed.

(** A step on the locks that changes nothing else. *)
Lemma core_lock t sh roles n st c l ls :
  core sh roles n st c → locks_step t (set_output_locks ls sh) roles (with_lock l (roles t)) →
  core (set_output_locks ls sh) (<[t := with_lock l (roles t)]> roles) n st c.
Proof.
  intros Hc Hl. eapply core_neutral; try done.
  - apply (co_tasks Hc).
  - apply (co_done Hc).
Qed.

Lemma wp_lock_output t i role Q :
  role.(r_lock) = None →
  (∀ sh roles n st c, core sh roles n st c → roles t = role → i < n_txs) →
  (∀ sh roles n st c o, core sh roles n st c → roles t = role → i ∉ sh.(output_locks) →
     sh.(execution_outputs) !! N.to_nat i = Some o →
     ∃ role', Inv (locking i sh) (<[t := role']> roles) ∧ Q o role') →
  wpw t (lock_output i) role Q.
Proof.
  intros Hr Hin HQ sh roles (n&st&c&Hc) Ht. cbn. destruct (decide _) as [Hl|Hl]; [by eauto|].
  destruct (output_Some _ _ _ _ _ i Hc) as [o Ho]; [by eapply Hin|]. rewrite Ho. by eapply HQ.
Qed.

Lemma wp_lock t i role Q :
  role.(r_lock) = None → (∀ sh roles n st c, core sh roles n st c → roles t = role → i < n_txs) →
  (∀ sh roles n st c o, core sh roles n st c → roles t = role → sh.(execution_outputs) !! N.to_nat i = Some o →
     Q o (with_lock (Some (i, o)) role)) →
  wpw t (lock_output i) role Q.
Proof.
  intros Hr Hin HQ. apply wp_lock_output; [done..|]. intros sh roles n st c o Hc Ht Hl Ho. eexists. split; [|by eapply HQ].
  exists n, st, c. rewrite <-Ht. apply core_lock; [done|]. eapply locks_acquire; try done. by rewrite Ht.
Qed.

Lemma wp_unlock t i o role Q :
  role.(r_lock) = Some (i, o) → Q tt (with_lock None role) → wpw t (unlock_output i) role Q.
Proof.
  intros Hr HQ sh roles (n&st&c&Hc) Ht. cbn. eexists. split; [|exact HQ].
  exists n, st, c. rewrite <-Ht. apply core_lock; [done|]. eapply locks_release; try done. by rewrite Ht.
Qed.

(** The thread forgets the output that it validated. *)
Lemma wp_unlock_drop t i o role Q :
  role.(r_lock) = Some (i, o) → Q tt (with_task NoTask (with_lock None role)) → wpw t (unlock_output i) role Q.
Proof.
  intros Hr HQ sh roles (n&st&c&Hc) Ht. cbn. eexists. split; [|exact HQ].
  exists n, st, c. eapply core_neutral; try done.
  - eapply locks_release; try done. by rewrite Ht.
  - rewrite <-Ht. apply (co_done Hc).
  - by rewrite Ht.
Qed.

Lemma wp_put_output t i o role Q :
  (∀ sh roles n st c, core sh roles n st c → roles t = role →
     ∃ role', Inv (set_execution_outputs (<[N.to_nat i := Some o]> sh.(execution_outputs)) sh) (<[t := role']> roles) ∧
       Q tt role') →
  wpw t (put_output i o) role Q.
Proof. intros HQ sh roles (n&st&c&Hc) Ht. cbn. by eapply HQ. Qed.

(** A new output for the transaction [i]. *)
Lemma put_output_step sh i o :
  (quiet → reads_remembered sh.(state) o.(reads)) →
  tx_step i sh (set_execution_outputs (<[N.to_nat i := Some o]> sh.(execution_outputs)) sh).
Proof.
  intros Hr. split; cbn; try done.
  - by rewrite length_insert.
  - intros j Hj. rewrite list_lookup_insert_ne; [done|]. intros Heq%N2Nat.inj. congruence.
  - intros j o' Ho. rewrite list_lookup_insert. case_decide; eauto.
  - intros o' Hq. rewrite list_lookup_insert. case_decide; [|by left]. intros [= <-]. right. by apply Hr.
Qed.

(** ** Writes *)

Lemma wp_update_state t f role Q :
  (∀ sh roles n st c, core sh roles n st c → roles t = role →
     ∃ V' role', f sh.(state) = Some V' ∧ Inv (set_state V' sh) (<[t := role']> roles) ∧ Q tt role') →
  wpw t (update_state f) role Q.
Proof.
  intros HQ sh roles (n&st&c&Hc) Ht. destruct (HQ sh roles n st c Hc Ht) as (V'&role'&Hf&Hinv&HQ').
  cbn. rewrite Hf. cbn. eauto.
Qed.

(** Writes to remembered cells, without declarations. *)
Record maps_remembered V (w : StateMaps) (cl : gmap N RunnableCompiledClass) : Prop := {
  mr_storage : dom w.(storage) ⊆ dom (initial_values V).(storage);
  mr_nonces : dom w.(nonces) ⊆ dom (initial_values V).(nonces);
  mr_class_hashes : dom w.(class_hashes) ⊆ dom (initial_values V).(class_hashes);
  mr_compiled : w.(compiled_class_hashes) = ∅;
  mr_declared : w.(declared_contracts) = ∅;
  mr_classes : dom cl ⊆ dom (initial_classes V);
}.

Lemma output_remembered V i o : output_ok V i o → quiet → maps_remembered V o.(out_writes) o.(contract_classes).
Proof. intros [] Hq. split; auto. Qed.

Lemma default_remembered V : maps_remembered V StateMaps_default ∅.
Proof. split; cbn; rewrite ?dom_empty_L; set_solver. Qed.

Lemma extend_remembered V w w' cl cl' :
  maps_remembered V w cl → maps_remembered V w' cl' → maps_remembered V (StateMaps_extend w w') (cl' ∪ cl).
Proof.
  intros [? ? ? E1 E2 ?] [? ? ? E1' E2' ?].
  split; cbn; rewrite ?dom_union_L, ?E1, ?E2, ?E1', ?E2', ?(left_id_L ∅ _); set_solver.
Qed.

Lemma layer_remembered V i : all_remembered V → maps_remembered V (layer V i) (layer_classes V i).
Proof. intros []. by split. Qed.

Definition same_initial V V' : Prop :=
  V'.(initial_state) = V.(initial_state) ∧ initial_values V' = initial_values V ∧ initial_classes V' = initial_classes V.

(** The layer of the transaction [i] changes. *)
Lemma layer_step sh V' i :
  same_initial sh.(state) V' → (∀ j, j ≠ i → same_layer sh.(state) V' j) →
  (layer_ok class_of sh.(state) i → layer_ok class_of V' i) →
  (quiet → all_remembered sh.(state) → maps_remembered sh.(state) (layer V' i) (layer_classes V' i)) →
  tx_step i sh (set_state V' sh).
Proof.
  intros (H1&H2&H3) Hl Hok Hrem. split; cbn; try done; eauto.
  - intros []. split; rewrite ?H1, ?H2, ?H3; done.
  - intros Hq Hall. assert (∀ j, maps_remembered V' (layer V' j) (layer_classes V' j)) as Hj.
    { intros j. assert (maps_remembered (state sh) (layer V' j) (layer_classes V' j)) as [].
      { destruct (decide (j = i)) as [->|Hne]; [by apply Hrem|]. destruct (Hl j Hne) as [-> ->]. by apply layer_remembered. }
      split; rewrite ?H2, ?H3; done. }
    split; intros j; apply Hj.
  - split; rewrite ?H2, ?H3; done.
Qed.

Lemma apply_step sh i w cl V' :
  apply_writes_at i w cl sh.(state) = Some V' →
  (∀ h b, w.(declared_contracts) !! h = Some b → b = true) → (∀ h c, cl !! h = Some c → c = class_of h) →
  (quiet → maps_remembered sh.(state) w cl) → tx_step i sh (set_state V' sh).
Proof.
  intros Ha Hd Hcl Hrem. apply apply_writes_layer in Ha as (H1&H2&H3&H4&H5&H6). apply layer_step; [done|done|..].
  - intros [L1 L2]. unfold layer_ok. rewrite H5, H6. cbn. split; intros h x; rewrite lookup_union_Some_raw; naive_solver.
  - intros Hq Hall. rewrite H5, H6. apply extend_remembered; [by apply layer_remembered|by apply Hrem].
Qed.

Lemma delete_step sh i (o : Output) :
  written sh.(state) i o →
  ∃ V', delete_writes i o.(out_writes) o.(contract_classes) sh.(state) = Some V' ∧
    tx_step i sh (set_state V' sh) ∧ layer V' i = StateMaps_default ∧ layer_classes V' i = ∅.
Proof.
  intros [<- <-]. destruct (delete_writes_layer i sh.(state)) as (V'&Hd&H1&H2&H3&H4&H5&H6). exists V'.
  split; [done|]. split; [|done]. apply layer_step; [done|done|..].
  - intros _. unfold layer_ok. rewrite H5, H6. by split; cbn; intros *; rewrite lookup_empty.
  - intros _ _. rewrite H5, H6. apply default_remembered.
Qed.

(** ** [execute_tx] *)

(** What is known of the answers to an execution. *)
Definition answered (own : option SeqState) (tr : list {q : Query & StateResult (Answer RunnableCompiledClass q)}) : Prop :=
  valid_trace class_of tr ∧ ∀ st, own = Some st → ∀ q r, existT q r ∈ tr → seq_view σ0 st q = r.

Lemma wp_transaction_run t i own (tx : Transaction) role Q :
  (∀ tr run, ends_with (transaction_run tx) tr run → answered own tr → Q run (with_stage own i (Running tr) role)) →
  wpw t (run_on_proxy i (transaction_run tx)) (with_stage own i (Running []) role) Q.
Proof.
  intros HQ. apply (wp_run_on_proxy t i _ (λ tr, with_stage own i (Running tr) role) (answered own) []).
  - intros sh roles n st c tr q V' Hc Ht [Hv Hσ] a Hq.
    destruct (stage_query _ _ _ _ _ _ _ _ _ _ _ _ Hc Ht Hq) as (Hs&Hva&Hinv). split; [|done]. split.
    + exact (trace_snoc (valid_answer class_of) tr q a Hv Hva).
    + intros st0 Hst0. refine (trace_snoc (λ q r, seq_view σ0 st0 q = r) tr q a _ _); [by apply Hσ|by apply Hs].
  - split; [|intros st _]; intros q r Hin; by apply elem_of_nil in Hin.
  - auto.
Qed.

(** The run is the one of the output. *)
Definition yields (tx : Transaction) tr (o : Output) : Prop := ∃ run, ends_with (transaction_run tx) tr run ∧ task_output run = Some o.

Lemma yields_fits own i tx tr o :
  chunk !! N.to_nat i = Some tx → yields tx tr o → answered own tr → stage_fits own i (Applied o) ∧ stage_fits own i (Stored o).
Proof.
  intros Htx (run&Hend&Ho) [_ Hσ]. destruct own as [st|]; [|done].
  assert (right_output σ0 chunk i st o) as Hr; [|done].
  intros tx' Htx'. assert (tx' = tx) as -> by (unfold tx_at in *; congruence).
  by rewrite (ends_with_run _ _ _ _ Hend (Hσ st eq_refl)).
Qed.

(** The writes of a transaction that succeeded are applied. *)
Lemma wp_apply_output t i own tx tr o role Q :
  chunk !! N.to_nat i = Some tx → yields tx tr o → answered own tr →
  Q tt (with_stage own i (Applied o) role) →
  wpw t (update_state (apply_writes_at i o.(out_writes) o.(contract_classes))) (with_stage own i (Running tr) role) Q.
Proof.
  intros Htx Hy Ha HQ. apply wp_update_state. intros sh roles n st c Hc Ht.
  destruct (stage_here _ _ _ _ _ _ _ _ _ _ Hc Ht) as (Hi&(Hl&Hlc&Htr)&_&_).
  assert (output_ok sh.(state) i o) as Ho by (destruct Hy as (run&?&?); by eapply output_of_run).
  destruct (apply_writes_ok i o.(out_writes) o.(contract_classes) sh.(state) (oo_declared _ _ _ _ _ _ _ _ _ Ho)) as [V' HV'].
  exists V', (with_stage own i (Applied o) role). split; [done|]. split; [|done].
  pose proof (apply_writes_layer _ _ _ _ _ HV') as (_&E2&E3&_&E5&E6).
  assert (tx_step i sh (set_state V' sh)) as Hstep.
  { eapply apply_step; [done|by intros h b []%(oo_declared _ _ _ _ _ _ _ _ _ Ho)|apply (oo_classes _ _ _ _ _ _ _ _ _ Ho)|].
    intros Hq. by eapply output_remembered. }
  rewrite <-(with_lock_same role). eapply stage_step; try done.
  - split; [|by eapply output_ok_more; [apply (ts_more _ _ _ _ _ _ _ _ _ Hstep)|]].
    split; cbn; rewrite ?E5, ?E6, ?Hl, ?Hlc; [apply default_extend|apply (right_id_L ∅ _)].
  - by eapply yields_fits.
  - eapply locks_keep; try done. by rewrite Ht, !with_stage_lock.
Qed.

(** The output is stored: at the stage [s] the writes are applied, or there are none. *)
Lemma wp_store_output t i own s o role Q :
  role.(r_lock) = None → i < n_txs → stage_fits own i (Stored o) →
  (∀ V outs, stage_ok V outs i s → stage_ok V outs i (Applied o)) →
  Q tt (with_stage own i (Stored o) role) →
  wpw t (lock_output i;; put_output i o;; unlock_output i) (with_stage own i s role) Q.
Proof.
  intros Hr Hi Hfits Hs HQ. apply wp_proc_bind, wp_lock_output; [by rewrite with_stage_lock|done|].
  intros sh roles n st c old Hc Ht Hnl Hold.
  destruct (stage_here _ _ _ _ _ _ _ _ _ _ Hc Ht) as (_&Hst&_&_).
  exists (with_stage own i (Applied o) (with_lock (Some (i, old)) role)). split.
  { eapply stage_step; try done; [apply same_memory_step, locks_memory|by apply Hs|].
    eapply locks_acquire; try done; [by rewrite Ht, with_stage_lock|apply with_stage_lock]. }
  clear dependent sh roles n st c s. apply wp_proc_bind, wp_put_output. intros sh roles n st c Hc Ht.
  destruct (stage_here _ _ _ _ _ _ _ _ _ _ Hc Ht) as (_&[Hw Ho]&_&_).
  assert (with_lock None role = role) as Hrole by (rewrite <-Hr; apply with_lock_same).
  exists (with_stage own i (Stored o) (with_lock (Some (i, Some o)) role)). split.
  - eapply (stage_step t sh _ roles n st c own i (Applied o) (Stored o) (with_lock (Some (i, old)) role) (Some (i, Some o))); try done.
    + apply put_output_step. apply (oo_remembered _ _ _ _ _ _ _ _ _ Ho).
    + split; [done|]. split; [done|]. cbn. rewrite list_lookup_insert_eq; [done|]. by eapply lookup_lt_is_Some, output_Some.
    + eapply locks_put; try done; [by rewrite Ht, with_stage_lock|apply with_stage_lock].
  - eapply (wp_unlock _ _ (Some o)); [by rewrite with_stage_lock|].
    assert (with_lock None (with_stage own i (Stored o) (with_lock (Some (i, Some o)) role)) = with_stage own i (Stored o) role) as ->;
      [|done]. destruct own, role; cbn in *; by subst.
Qed.

Lemma wp_execute_tx t i own role Q :
  role.(r_lock) = None → i < n_txs → (∀ o, stage_fits own i (Stored o) → Q tt (with_stage own i (Stored o) role)) →
  wpw t (execute_tx chunk i) (with_stage own i (Running []) role) Q.
Proof.
  intros Hr Hi HQ. unfold execute_tx. destruct (lookup_lt_is_Some_2 chunk (N.to_nat i)) as [tx Htx].
  { unfold ConcurrencyInv.n_txs in Hi. lia. }
  rewrite Htx. cbn [proc_expect]. apply wp_proc_bind. cbn [wp_proc]. apply wp_proc_bind, wp_transaction_run.
  intros tr run Hend Ha. destruct (task_output run) as [o|] eqn:Ho; cycle 1.
  { apply wp_proc_bind. cbn. intros Hq. destruct (quiet_run _ _ _ _ _ _ Hq tx tr run) as [o Ho']; [|done|by apply Ha|congruence].
    by eapply list_elem_of_lookup_2. }
  apply wp_proc_bind. cbn [proc_expect wp_proc]. assert (yields tx tr o) as Hy by (by exists run).
  destruct (yields_fits own i tx tr o Htx Hy Ha) as [_ Hfits]. destruct (tx_result o) as [info|e] eqn:Hres.
  - apply wp_proc_bind. eapply wp_apply_output; [done..|]. eapply (wp_store_output _ _ _ (Applied o)); try done. by apply HQ.
  - apply wp_proc_bind. eapply (wp_store_output _ _ _ (Running tr) o); try done; [|by apply HQ].
    intros V outs (Hl&Hlc&Htr). assert (output_ok V i o) as Hok by (destruct Hy as (?&?&?); by eapply output_of_run).
    destruct (oo_failed _ _ _ _ _ _ _ _ _ Hok e Hres) as [Hw Hwc]. split; [|done]. split; congruence.
Qed.

Lemma wp_execute t i role Q :
  role.(r_lock) = None → i < n_txs → role.(r_task) = Executes i (Running []) → Q tt (with_task NoTask role) →
  wpw t (execute chunk i) role Q.
Proof.
  intros Hr Hi Ht HQ. apply wp_proc_bind.
  assert (role = with_stage None i (Running []) role) as -> by (destruct role; cbn in *; by subst).
  apply wp_execute_tx; [done..|]. intros o _. apply wp_sched. eapply wps_finish_execution; [done..|]. exact HQ.
Qed.

(** ** [validate] *)

(** The lock stays taken and the role is the same: only the answer is new. *)
Lemma wp_validate_reads t i R role Q :
  (∀ sh roles n st c, core sh roles n st c → roles t = role → quiet → reads_remembered sh.(state) R) →
  (∀ sh roles n st c b, core sh roles n st c → roles t = role → validate_reads i R sh.(state) = Some b → Q b role) →
  wpw t (worker_validate_reads i R) role Q.
Proof.
  intros Hrem HQ sh roles (n&st&c&Hc) Ht. cbn. destruct (validate_reads i R (state sh)) as [b|] eqn:Hv; cbn.
  - exists role. assert (set_state (state sh) sh = sh) as -> by (by destruct sh). split; [|by eapply HQ].
    apply Inv_refresh; [by exists n, st, c|done].
  - exists role. split; [apply Inv_refresh; [by exists n, st, c|done]|]. intros Hq.
    destruct (validate_reads_Some class_of σ0 i R sh.(state)) as [b Hb]; [apply Hc|by apply Hc|by eapply Hrem|congruence].
Qed.

(** The writes of an aborted transaction are deleted. *)
Lemma abort_step t sh roles n st c i s role V' :
  core sh roles n st c → roles t = with_task (Aborts i s) role → tx_step i sh (set_state V' sh) →
  layer V' i = StateMaps_default → layer_classes V' i = ∅ →
  core (set_state V' sh) (<[t := with_task (Aborts i (Running [])) role]> roles) n st c.
Proof.
  intros Hc Ht Hstep Hl Hlc. pose proof (co_tasks Hc t) as Htk. rewrite Ht in Htk. destruct Htk as (Hn&Hs&_).
  assert (status (set_state V' sh) i = Some Aborting) as Hs' by done.
  eapply (core_keep _ _ _ _ _ _ i t sh); rewrite ?Hs'; try done.
  - lia.
  - intros <-. split; congruence.
  - intros t' Hne Ht'. destruct Hne. symmetry. eapply (co_unique Hc); [|exact Ht']. by rewrite Ht.
  - split; [done|]. split; [done|]. split; [done|]. split; [done|]. apply trace_ok_nil.
  - intros k [= ->]. by left.
  - eapply locks_keep; try done. by rewrite Ht.
  - intros Hd. apply (co_done Hc t). by rewrite Ht.
  - by rewrite Ht.
Qed.

Lemma wp_validate t i role Q :
  role.(r_lock) = None → role.(r_task) = Validates i → (∀ task, task_range chunk task → Q task (role_for task (with_task NoTask role))) →
  wpw t (validate i) role Q.
Proof.
  intros Hr Htask HQ. apply wp_proc_bind, wp_lock; [done|..].
  { intros sh roles n st c Hc Ht. pose proof (co_tasks Hc t) as Hv. rewrite Ht, Htask in Hv. destruct Hv as [o Ho].
    by eapply output_range. }
  intros sh0 roles0 n0 st0 c0 out Hc0 Ht0 Hout. pose proof (output_range _ _ _ _ _ _ _ Hc0 Hout) as Hi.
  assert (∃ o, out = Some o) as [o ->].
  { pose proof (co_tasks Hc0 t) as Hv. rewrite Ht0, Htask in Hv. destruct Hv as [o Ho]. exists o. congruence. }
  clear dependent sh0 roles0 n0 st0 c0. set (locked := with_lock (Some (i, Some o)) role).
  apply wp_proc_bind. cbn [proc_expect wp_proc]. apply wp_proc_bind, wp_validate_reads.
  { intros sh roles n st c Hc Ht Hq. eapply (co_stored Hc); [done|]. eapply (co_locks Hc t). by rewrite Ht. }
  intros sh0 roles0 n0 st0 c0 b _ _ _. clear sh0 roles0 n0 st0 c0.
  assert (wpw t (unlock_output i;; mret AskForTask) locked Q) as Hno.
  { apply wp_proc_bind. eapply wp_unlock_drop; [done..|]. assert (with_task NoTask (with_lock None locked) = with_task NoTask role) as ->.
    { destruct role; cbn in *; by subst. } by apply (HQ AskForTask). }
  apply wp_proc_bind. destruct b; [by apply wp_proc_bind|]. apply wp_sched.
  eapply wps_try_validation_abort; [done..| |by apply wp_proc_bind]. apply wp_proc_bind, wp_proc_bind, wp_update_state.
  intros sh roles n st c Hc Ht. pose proof (co_tasks Hc t) as Htk. rewrite Ht in Htk. destruct Htk as (Hn&Hs&Hw&Ho&_).
  destruct (delete_step sh i o Hw) as (V'&HV'&Hstep&Hl&Hlc). exists V', (with_task (Aborts i (Running [])) locked).
  split; [done|]. split.
  - exists n, st, c. by apply (abort_step _ _ _ _ _ _ _ (Stored o)).
  - apply wp_sched, wps_finish_abort; [done..|]. intros task Htr. apply wp_proc_bind. eapply wp_unlock; [by destruct task|].
    assert (with_lock None (role_for task (with_task NoTask (with_task (Aborts i (Running [])) locked))) =
      role_for task (with_task NoTask role)) as ->; [|by apply HQ]. destruct role, task; cbn in *; by subst.
Qed.
End execution.
