(* ===== verification/ConcurrencyCommit.v ===== *)
(** The commit phase: each transaction is committed with the output of the sequential run. *)
From stdpp Require Import functions.
From S2P Require Import Prelude StarknetApi StateApi CachedState CachedStateProofs VersionedState VersionedProofs.
From S2P Require Import Scheduler WorkerLogic ConcurrencySpec ConcurrencyInv ConcurrencySteps ConcurrencyScheduling ConcurrencyExecution.

Section commit.
Context `{HashOrder} `{FeeTokenVar} {RunnableCompiledClass S I E B : Type}.
Context `{!StateReader RunnableCompiledClass S} `{!StateReaderLaws RunnableCompiledClass S}.
Context `{!BlockBouncer RunnableCompiledClass I E B}.
Abbreviation Transaction := (Transaction RunnableCompiledClass I E).
Abbreviation Output := (ExecutionTaskOutput RunnableCompiledClass I E).
Abbreviation VersionedState := (VersionedState RunnableCompiledClass S).
Abbreviation Shared := (Shared RunnableCompiledClass S I E B).
Abbreviation Role := (Role RunnableCompiledClass I E B).
Abbreviation SeqState := (SeqState RunnableCompiledClass I E B).
Abbreviation View := (View RunnableCompiledClass).
Context (class_of : N → RunnableCompiledClass) (declares : Prop) (σ0 : View) `{!InitialLaws class_of σ0}.
Context (chunk : list Transaction) (block_context : BlockContext) (bouncer0 : B).
Abbreviation quiet := (quiet class_of declares σ0 chunk block_context bouncer0).
Abbreviation stage_ok := (stage_ok class_of declares σ0 chunk block_context bouncer0).
Abbreviation task_ok := (task_ok class_of declares σ0 chunk block_context bouncer0).
Abbreviation commit_ok := (commit_ok class_of declares σ0 chunk block_context bouncer0).
Abbreviation core := (core class_of declares σ0 chunk block_context bouncer0).
Abbreviation Inv := (Inv class_of declares σ0 chunk block_context bouncer0).
Abbreviation n_txs := (n_txs chunk).
Abbreviation wp := (wp_proc class_of declares σ0 chunk block_context bouncer0).
Abbreviation wpw := (wp (λ sh, sh) (λ sh _, sh)).
Abbreviation wps := (wp scheduler set_scheduler).
Implicit Types (sh : Shared) (V : VersionedState) (i j n : N) (t : nat) (role : Role).

Abbreviation output_ok := (output_ok class_of declares σ0 chunk block_context bouncer0).
Abbreviation trace_ok := (trace_ok class_of declares σ0 chunk block_context bouncer0).
Abbreviation tx_step := (tx_step class_of declares σ0 chunk block_context bouncer0).
Abbreviation Stage := (Stage RunnableCompiledClass I E).
Context (Hchunk : chunk_ok class_of declares chunk).

(** ** Steps of a commit *)

Lemma commit_step t sh sh' roles n st c0 c1 l role :
  core sh roles n st c0 → roles t = role → role.(r_commit) = c0 → active c0 → tx_step n sh sh' →
  sh'.(scheduler) = sh.(scheduler) → commit_ok sh' n st c1 →
  locks_step t sh' roles (with_commit c1 (with_lock l role)) →
  core sh' (<[t := with_commit c1 (with_lock l role)]> roles) n st c1.
Proof.
  intros Hc Ht Hr Ha Hs Hsched Hc1 Hl.
  eapply (core_commit _ _ _ _ _ _ t sh sh' roles n st c0 (with_commit c1 (with_lock l role))); try done; rewrite ?Hsched, ?Ht; try done.
  - unfold status. rewrite Hsched. eapply commit_active; [apply Hc|done].
  - intros Hd. apply (co_done Hc t). by rewrite Ht.
Qed.

(** What is said of the commit holds for other locks too. *)
Lemma commit_locks sh roles n st c ls : core sh roles n st c → commit_ok (set_output_locks ls sh) n st c.
Proof.
  intros Hc. assert (status sh n_txs = None) as Hno by (by eapply no_status_there).
  eapply (commit_frame _ _ _ _ _ _ n_txs sh); try done.
  - apply same_memory_step, locks_memory.
  - by eapply core_le.
  - intros <-. by split; [rewrite Hno|change (status sh n_txs ≠ Some Committed); rewrite Hno].
  - apply Hc.
Qed.

(** The state of the commit changes with the lock of the output. *)
Lemma wp_unlock_commit t i o c0 c1 role Q :
  role.(r_lock) = Some (i, o) → role.(r_commit) = c0 → active c0 →
  (∀ sh n st, commit_ok sh n st c0 → commit_ok sh n st c1) →
  Q tt (with_commit c1 (with_lock None role)) → wpw t (unlock_output i) role Q.
Proof.
  intros Hl Hr Ha Hc01 HQ sh roles (n&st&c&Hc) Ht. cbn. eexists. split; [|exact HQ].
  assert (c = c0) as -> by (eapply committer_role; [done..|]; by intros ->).
  exists n, st, c1. eapply commit_step; try done.
  - apply same_memory_step, locks_memory.
  - apply Hc01. by eapply commit_locks.
  - eapply locks_release; try done. by rewrite Ht.
Qed.

(** ** The output of the sequential run *)

Lemma extend_assoc a b c : StateMaps_extend (StateMaps_extend a b) c = StateMaps_extend a (StateMaps_extend b c).
Proof. unfold StateMaps_extend. cbn. by rewrite !(assoc_L (∪)). Qed.

Lemma seq_undeclared sh roles n st c h :
  core sh roles n st c → quiet → seq_view σ0 st (GetCompiledClass h) = SErr (UndeclaredClassHash h) →
  seq_view σ0 st (GetCompiledClassHash h) = SOk 0.
Proof.
  intros Hc Hq. destruct (co_below Hc) as [Hb1 Hb2]. unfold seq_view. rewrite <-Hb1, <-Hb2. cbn.
  destruct (vs_below (v_compiled_class_hashes (state sh)) n !! h) as [v|] eqn:Hv.
  { apply lookup_vs_below in Hv as (j&_&Hj). pose proof (ar_uncompiled _ (co_remembered Hc Hq) j) as Hj'. cbn in Hj'.
    by rewrite Hj', lookup_empty in Hj. }
  destruct (below_classes (state sh) n !! h); [done|]. cbn. apply (initial_undeclared class_of σ0).
Qed.

(** The read set of the sequential run is valid. *)
Lemma right_agree sh roles n st c o tx :
  core sh roles n st c → quiet → tx_at chunk n tx → right_output σ0 chunk n st o → agree class_of (seq_view σ0 st) o.(reads).
Proof.
  intros Hc Hq Htx Ho. specialize (Ho tx Htx). destruct (run_ends_with (transaction_run tx) (seq_view σ0 st)) as (tr&Hend&Htr).
  assert (valid_trace class_of tr) as Hv.
  { intros q r Hin. rewrite <-(Htr q r Hin), <-(view_seq _ _ _ _ _ _ _ _ _ _ _ q Hc). apply view_valid; [done|apply Hc]. }
  destruct (Hchunk tx) as [Hwell Honce]; [by eapply list_elem_of_lookup_2|].
  destruct (run_reads (transaction_run tx) (seq_view σ0 st)) as [res self].
  pose proof (program_run_inv _ _ _ _ _ _ Hwell Hend Hv) as Hinv.
  assert (o.(reads) = self.(cache).(initial_reads)) as ->.
  { unfold task_output in Ho. destruct res as [[info|e]|]; [| |done]; cbn in Ho.
    - destruct (cache_to_state_diff _); [|done]. by injection Ho as <-.
    - by injection Ho as <-. }
  eapply (trace_agree class_of declares); [done|by eapply Honce|done|]. intros h. by eapply seq_undeclared.
Qed.

(** A valid read set makes an output the right one. *)
Lemma valid_right sh roles n st c o :
  core sh roles n st c → output_ok sh.(state) n o → validate_reads n o.(reads) sh.(state) = Some true →
  right_output σ0 chunk n st o.
Proof.
  intros Hc Ho Hv tx Htx. eapply oo_run; [done..|].
  apply agree_ext with (view σ0 sh.(state) n); [intros q; symmetry; by eapply view_seq|].
  destruct (decide (n = 0)) as [->|Hn].
  - apply agree_ext with σ0; [apply view_0|by eapply oo_first].
  - eapply validate_agree; try done; [apply Hc|intros j _; apply Hc].
Qed.

(** ** [revalidate] *)

(** The committer of [n] has the output [o] stored. *)
Definition commits (c : CommitRole RunnableCompiledClass I E B) n (st : SeqState) (o : Output) : Prop :=
  (∃ fresh, c = CActive n st fresh (Stored o)) ∨ c = CFinal n st o.

Lemma commits_here t sh roles n' st' c role n st o :
  core sh roles n' st' c → roles t = role → commits role.(r_commit) n st o →
  n' = n ∧ st' = st ∧ c = role.(r_commit) ∧ n < n_txs ∧ stage_ok sh.(state) sh.(execution_outputs) n (Stored o) ∧
  sh.(bouncer) = st.(seq_bouncer).
Proof.
  intros Hc Ht Hr. assert (c = role.(r_commit)) as -> by (eapply committer_role; [done..|]; by destruct Hr as [[? ->]| ->]).
  pose proof (co_commit Hc) as Hok.
  destruct Hr as [[fresh Hr]|Hr]; rewrite Hr in Hok; destruct Hok as (->&->&[]&?&?&_); by do 4 (split; [done|]).
Qed.

Lemma wp_lock_commit t n st o role Q :
  role.(r_lock) = None → commits role.(r_commit) n st o →
  (n < n_txs → Q (Some o) (with_lock (Some (n, Some o)) role)) → wpw t (lock_output n) role Q.
Proof.
  intros Hl Hr HQ. apply wp_lock; try done.
  - intros sh roles n' st' c Hc Ht. by eapply commits_here.
  - intros sh roles n' st' c out Hc Ht Hout.
    destruct (commits_here _ _ _ _ _ _ _ _ _ _ Hc Ht Hr) as (->&->&_&Hn&(_&_&Ho)&_). assert (out = Some o) as -> by congruence. auto.
Qed.

(** The read set is validated: a valid one belongs to the right output. *)
Lemma wp_validate_commit t n st o role Q :
  commits role.(r_commit) n st o →
  (∀ b, (b = true → right_output σ0 chunk n st o) → (quiet → right_output σ0 chunk n st o → b = true) → Q b role) →
  wpw t (worker_validate_reads n o.(reads)) role Q.
Proof.
  intros Hr HQ. apply wp_validate_reads.
  - intros sh roles n' st' c Hc Ht. destruct (commits_here _ _ _ _ _ _ _ _ _ _ Hc Ht Hr) as (_&_&_&_&(_&Ho&_)&_).
    apply (oo_remembered _ _ _ _ _ _ _ _ _ Ho).
  - intros sh roles n' st' c b Hc Ht Hv. destruct (commits_here _ _ _ _ _ _ _ _ _ _ Hc Ht Hr) as (->&->&_&Hn&(_&Ho&_)&_).
    apply HQ; [intros ->; by eapply valid_right|]. intros Hq Hright.
    destruct (lookup_lt_is_Some_2 chunk (N.to_nat n)) as [tx Htx]; [unfold ConcurrencyInv.n_txs in Hn; lia|].
    assert (validate_reads n o.(reads) sh.(state) = Some true); [|congruence].
    eapply (validate_reads_complete class_of σ0); [apply Hc|by apply Hc|by apply (oo_remembered _ _ _ _ _ _ _ _ _ Ho)|].
    intros _. eapply agree_ext; [intros q; by eapply view_seq|]. by eapply right_agree.
Qed.

(** The output is final once it is the right one. *)
Lemma wp_unlock_final t n st fresh o role Q :
  role.(r_lock) = Some (n, Some o) → role.(r_commit) = CActive n st fresh (Stored o) → right_output σ0 chunk n st o →
  Q tt (with_commit (CFinal n st o) (with_lock None role)) → wpw t (unlock_output n) role Q.
Proof.
  intros Hl Hr Hright HQ. eapply (wp_unlock_commit _ _ _ _ (CFinal n st o)); try done.
  intros sh n' st' (->&->&Ha&Hb&Hs&_). by do 5 (split; [done|]).
Qed.

Lemma relock_role c l role : role.(r_lock) = None → with_commit c (with_lock None (with_lock l role)) = with_commit c role.
Proof. destruct role; cbn. by intros ->. Qed.

Lemma recommit_role c c' l role :
  role.(r_lock) = None → with_commit c (with_lock None (with_lock l (with_commit c' role))) = with_commit c role.
Proof. destruct role; cbn. by intros ->. Qed.

(** The execution is repeated on the state that is final now. *)
Lemma wp_reexecute t n st role Q :
  role.(r_lock) = None → n < n_txs → (∀ o, Q tt (with_commit (CFinal n st o) role)) →
  wpw t (execute_tx chunk n;; sched (finish_execution_during_commit n);;
         execution_output ← lock_output n;
         execution_output ← proc_expect execution_output;
         reads_valid ← worker_validate_reads n execution_output.(reads);
         proc_assert reads_valid;; unlock_output n) (with_commit (CActive n st true (Running [])) role) Q.
Proof.
  intros Hl Hn HQ. apply wp_proc_bind. change (with_commit _ role) with (with_stage (Some st) n (Running []) role).
  apply wp_execute_tx; [done..|]. intros o Hright. cbn [with_stage]. apply wp_proc_bind, wp_sched, wps_indices; [done..|].
  intros _. apply wp_proc_bind. eapply (wp_lock_commit _ _ st o); [done|left; eauto|intros _].
  apply wp_proc_bind. cbn [proc_expect wp_proc]. apply wp_proc_bind. eapply (wp_validate_commit _ _ st); [left; eauto|].
  intros b _ Hvalid. apply wp_proc_bind. destruct b; cbn [proc_assert wp_proc]; cycle 1.
  { intros Hq. by specialize (Hvalid Hq Hright). }
  eapply wp_unlock_final; [done..|]. rewrite recommit_role by done. apply HQ.
Qed.

Lemma wp_revalidate t n st o role Q :
  role.(r_lock) = None → role.(r_commit) = CActive n st false (Stored o) →
  (n < n_txs → ∀ o, Q tt (with_commit (CFinal n st o) role)) → wpw t (revalidate chunk n) role Q.
Proof.
  intros Hl Hr HQ. apply wp_proc_bind. eapply (wp_lock_commit _ _ st o); [done|left; eauto|]. intros Hn. specialize (HQ Hn).
  apply wp_proc_bind. cbn [proc_expect wp_proc]. apply wp_proc_bind. eapply (wp_validate_commit _ _ st); [left; eauto|].
  intros b Hright _. destruct b.
  { eapply wp_unlock_final; [done|done|by apply Hright|]. rewrite relock_role by done. apply HQ. }
  clear Hright. apply wp_proc_bind, wp_update_state. intros sh roles n' st' c Hc Ht.
  destruct (commits_here t _ _ _ _ _ _ n st o Hc Ht) as (->&->&Hcr&_&(Hw&_&_)&_); [left; eauto|]. cbn in Hcr. rewrite Hr in Hcr. subst c.
  destruct (delete_step class_of declares σ0 chunk block_context bouncer0 Hchunk sh n o Hw) as (V'&HV'&Hstep&Hlay&Hlc).
  exists V', (with_commit (CActive n st true (Running [])) (with_lock (Some (n, Some o)) role)). split; [done|]. split.
  - exists n, st, (CActive n st true (Running [])).
    apply (commit_step _ sh _ _ n st _ (CActive n st true (Running [])) (Some (n, Some o)) _ Hc Ht); try done.
    + destruct (co_commit Hc) as (_&_&[]&Hb&_). do 2 (split; [done|]). split; [by split|]. split; [done|].
      assert (trace_ok V' n []) as Htr by apply trace_ok_nil. split; [done|]. intros _ q r Hin. by apply elem_of_nil in Hin.
    + eapply locks_keep; try done. by rewrite Ht.
  - apply wp_proc_bind. eapply wp_unlock; [done..|].
    refine (wp_reexecute t n st (with_lock None (with_lock (Some (n, Some o)) role)) Q _ Hn _); [done|].
    intros o'. rewrite relock_role by done. apply HQ.
Qed.

(** ** The steps of the sequential run *)

Section seq_step.
Context (tx : Transaction) (st : SeqState) (o : Output).
Hypothesis Ho : task_output (run_reads (transaction_run tx) (seq_view σ0 st)) = Some o.

Lemma seq_step_failed e :
  o.(tx_result) = inr e →
  seq_step block_context σ0 tx st =
    Some (Some {| seq_maps := st.(seq_maps); seq_classes := st.(seq_classes); seq_bouncer := st.(seq_bouncer);
                  seq_outputs := st.(seq_outputs) ++ [o] |}).
Proof. intros He. unfold seq_step. rewrite Ho. cbn. by rewrite He. Qed.

Lemma seq_step_succeeded info :
  o.(tx_result) = inl info →
  seq_step block_context σ0 tx st =
    match seq_bounce block_context σ0 tx st o info with
    | Err BlockFull => Some None
    | Err _ | Panic => None
    | Ok bouncer => st ← seq_pay block_context σ0 tx st o info bouncer; Some (Some st)
    end.
Proof. intros Hi. unfold seq_step. rewrite Ho. cbn. by rewrite Hi. Qed.
End seq_step.

(** ** Reads of the committer *)

Definition answered_by (σ : View) (tr : list {q : Query & StateResult (Answer RunnableCompiledClass q)}) : Prop :=
  ∀ q r, existT q r ∈ tr → σ q = r.

(** The state up to the transaction, once its output is final. *)
Lemma final_view sh roles n st c o q :
  core sh roles n st c → written sh.(state) n o → view σ0 sh.(state) (n + 1) q = seq_view σ0 (seq_write st o) q.
Proof.
  intros Hc [Hl Hlc]. unfold view, seq_view, seq_write. cbn. destruct (co_below Hc) as [<- <-].
  by rewrite below_succ, below_classes_succ, Hl, Hlc.
Qed.

(** Reads leave the roles alone. *)
Lemma core_read t sh roles n st c i q r V' :
  core sh roles n st c → query_spec class_of σ0 i sh.(state) q r V' → core (set_state V' sh) (<[t := roles t]> roles) n st c.
Proof.
  intros Hc Hq. assert (same_memory class_of σ0 sh (set_state V' sh)) as Hm by (by eapply query_memory).
  eapply core_neutral; try done.
  - eapply tx_step_task; [by apply (same_memory_step _ _ _ _ _ _ n_txs)|by eapply no_task_there|apply Hc].
  - by eapply locks_keep.
  - apply (co_done Hc).
Qed.

Lemma wp_final_reads {A} t n st o (m : Reads RunnableCompiledClass A) role Q :
  role.(r_commit) = CFinal n st o → Q (run_reads m (seq_view σ0 (seq_write st o))) role → wpw t (run_on_proxy n m) role Q.
Proof.
  intros Hr HQ. apply (wp_run_on_proxy _ _ _ _ _ _ t n m (λ _, role) (answered_by (seq_view σ0 (seq_write st o))) []).
  - intros sh roles n' st' c tr q V' Hc Ht Htr a Hq.
    destruct (commits_here t _ _ _ _ _ _ n st o Hc Ht) as (->&->&_&_&(Hw&_&_)&_); [by right|]. split.
    + refine (trace_snoc (λ q r, seq_view σ0 (seq_write st o) q = r) tr q a Htr _). symmetry. by eapply final_view.
    + exists n, st, c. rewrite <-Ht. by eapply core_read.
  - intros q r Hin. by apply elem_of_nil in Hin.
  - intros tr a Hend Htr. by rewrite <-(ends_with_run _ _ _ _ Hend Htr).
Qed.

Lemma wp_fee_reads {A} t n st o info b (m : Reads RunnableCompiledClass A) role Q :
  (∀ tr, ends_with m tr (run_reads m (seq_view σ0 (seq_write st o))) →
     Q (run_reads m (seq_view σ0 (seq_write st o))) (with_commit (CBounced n st o info b tr) role)) →
  wpw t (run_on_proxy n m) (with_commit (CBounced n st o info b []) role) Q.
Proof.
  intros HQ. apply (wp_run_on_proxy _ _ _ _ _ _ t n m (λ tr, with_commit (CBounced n st o info b tr) role)
    (answered_by (seq_view σ0 (seq_write st o))) []).
  - intros sh roles n' st' c tr q V' Hc Ht Htr a Hq.
    assert (c = CBounced n st o info b tr) as -> by (by eapply committer_role).
    pose proof (co_commit Hc) as (<-&<-&Ha&Hb&Hs&Hrem). split.
    + refine (trace_snoc (λ q r, seq_view σ0 (seq_write st o) q = r) tr q a Htr _). symmetry. eapply final_view; [done|apply Hs].
    + assert (same_memory class_of σ0 sh (set_state V' sh)) as Hm by (by eapply query_memory).
      exists n, st, (CBounced n st o info b (tr ++ [existT q a])).
      apply (commit_step t sh _ roles n st _ (CBounced n st o info b (tr ++ [existT q a])) role.(r_lock) _ Hc Ht); try done.
      * by apply same_memory_step.
      * do 2 (split; [done|]). split; [destruct Ha; by split|]. split; [done|]. split.
        -- eapply stage_ok_frame; [apply (sm_writes _ _ _ _ Hm)|apply (sm_more _ _ _ _ Hm)|done|done].
        -- intros Hquiet. refine (trace_snoc (remembered class_of V') tr q a _ _).
           ++ intros q' r' Hin. eapply remembered_more; [apply (sm_more _ _ _ _ Hm)|by apply Hrem].
           ++ apply (qs_remembered _ _ _ _ _ _ _ Hq), (co_remembered Hc Hquiet).
      * eapply locks_keep; try done. by rewrite Ht.
  - intros q r Hin. by apply elem_of_nil in Hin.
  - intros tr a Hend Htr. rewrite <-(ends_with_run _ _ _ _ Hend Htr). apply HQ. by rewrite (ends_with_run _ _ _ _ Hend Htr).
Qed.

(** ** The fee *)

(** The cells that the fee transfer writes were read before. *)
Lemma fee_writes_asked tx_context (info : TransactionExecutionInfo I) tr info' w :
  ends_with (complete_fee_transfer_flow (C := RunnableCompiledClass) block_context tx_context info) tr (Some (info', Some w)) →
  w = set_storage (λ _, w.(storage)) StateMaps_default ∧
  ∀ k, k ∈ dom w.(storage) → asked tr (GetStorageAt k.1 k.2).
Proof.
  unfold complete_fee_transfer_flow. destruct (is_sequencer_the_sender _ _); [intros [_ Heq]%ends_return_inv; discriminate Heq|].
  destruct (fee_transfer_call_info info) as [call|]; [|intros [_ Heq]%ends_return_inv; by destruct (enforce_fee _)].
  unfold get_fee_token_balance. destruct (next_storage_key _) as [high|e] eqn:Hnext; [|intros [_ Heq]%ends_return_inv; discriminate Heq].
  cbn. intros (low&tr1&->&Hend)%ends_ask_inv. destruct low as [low|e]; [|apply ends_return_inv in Hend as [_ Heq]; discriminate Heq].
  apply ends_ask_inv in Hend as (hi&tr2&->&Hend). destruct hi as [hi|e]; [|apply ends_return_inv in Hend as [_ Heq]; discriminate Heq].
  apply ends_return_inv in Hend as [-> Heq]. symmetry in Heq.
  apply bind_Some in Heq as (call'&_&(w'&Hw&[= _ <-])%bind_Some). unfold sequencer_balance_writes in Hw.
  unfold get_sequencer_balance_keys in Hw. rewrite Hnext in Hw. do 2 (case_decide; [done|]). injection Hw as <-.
  cbn. split; [done|]. intros k. rewrite dom_insert_L, dom_singleton_L.
  intros [Hk|Hk]%elem_of_union; apply elem_of_singleton in Hk as ->; [exists (SOk low); left|exists (SOk hi); right; left].
Qed.

Lemma fee_writes_remembered V tx_context (info : TransactionExecutionInfo I) tr info' w :
  ends_with (complete_fee_transfer_flow (C := RunnableCompiledClass) block_context tx_context info) tr (Some (info', Some w)) →
  (∀ q r, existT q r ∈ tr → remembered class_of V q r) → maps_remembered V w ∅.
Proof.
  intros [Hw Hasked]%fee_writes_asked Hrem. rewrite Hw. split; cbn; rewrite ?dom_empty_L; try set_solver.
  intros k Hk. destruct (Hasked k Hk) as [r Hr%Hrem]. destruct k. by apply elem_of_dom.
Qed.

(** ** The end of a commit *)

(** With its lock the committer gives the transaction up: it is committed. *)
Lemma wp_unlock_done t n st st' tx x c0 role Q :
  role.(r_lock) = Some (n, x) → role.(r_commit) = c0 → active c0 → tx_at chunk n tx →
  seq_step block_context σ0 tx st = Some (Some st') →
  (∀ sh roles n' st0, core sh roles n' st0 c0 → n' = n ∧ st0 = st ∧ commit_ok sh n st (CDone n st st')) →
  Q tt (with_commit (CIdle (n + 1) st') (with_lock None role)) → wpw t (unlock_output n) role Q.
Proof.
  intros Hl Hr Ha Htx Hstep Hdone HQ sh roles (n'&st0&c&Hc) Ht. cbn. eexists. split; [|exact HQ].
  assert (c = c0) as -> by (eapply committer_role; [done..|]; by intros ->).
  destruct (Hdone _ _ _ _ Hc) as (->&->&Hd).
  assert (core (unlocking n sh) (<[t := with_commit (CDone n st st') (with_lock None role)]> roles) n st (CDone n st st')) as Hc1.
  { eapply commit_step; try done.
    - apply same_memory_step, locks_memory.
    - destruct Hd as (_&_&[]&?&?&?&?). do 2 (split; [done|]). by split.
    - eapply locks_release; try done. by rewrite Ht. }
  exists (n + 1), st', (CIdle (n + 1) st').
  eapply core_roles; [|eapply (core_bump _ _ _ _ _ _ t _ _ _ _ _ _ (with_commit (CIdle (n + 1) st') (with_lock None role)) Hc1)].
  - intros t'. destruct (decide (t' = t)) as [->|Hne]; [by rewrite !fn_lookup_insert|by rewrite !fn_lookup_insert_ne].
  - by rewrite fn_lookup_insert.
  - done.
  - done.
  - by rewrite fn_lookup_insert.
  - by rewrite fn_lookup_insert.
  - by rewrite fn_lookup_insert.
  - done.
Qed.

(** The output with the fixed execution info replaces the one that was stored. *)
Lemma wp_put_done t n st st' o o' c0 role Q :
  role.(r_lock) = Some (n, Some o) → role.(r_commit) = c0 → active c0 →
  (∀ sh roles n' st0, core sh roles n' st0 c0 → n' = n ∧ st0 = st ∧ commit_ok sh n st (CPaid n st o st')) →
  o'.(reads) = o.(reads) → st'.(seq_outputs) = st.(seq_outputs) ++ [o'] →
  Q tt (with_commit (CDone n st st') (with_lock (Some (n, Some o')) role)) → wpw t (put_output n o') role Q.
Proof.
  intros Hl Hr Ha Hpaid Hreads Houts HQ. apply wp_put_output. intros sh roles n' st0 c Hc Ht.
  assert (c = c0) as -> by (eapply committer_role; [done..|]; by intros ->).
  destruct (Hpaid _ _ _ _ Hc) as (->&->&(_&_&Hact&Hb&Hm&Hcl&Hout)).
  eexists. split; [|exact HQ]. exists n, st, (CDone n st st').
  set (sh' := set_execution_outputs (<[N.to_nat n := Some o']> (execution_outputs sh)) sh).
  assert (N.of_nat (length st.(seq_outputs)) = n) as Hlen by (eapply seq_steps_outputs, Hc; done).
  assert (tx_step n sh sh') as Hstep.
  { apply put_output_step. rewrite Hreads. intros Hq. by eapply (co_stored Hc). }
  eapply commit_step; try done.
  - destruct Hact. do 2 (split; [done|]). split; [by split|]. do 3 (split; [done|]). cbn.
    rewrite list_lookup_insert_eq by (by apply lookup_lt_Some in Hout).
    rewrite Houts, lookup_app_r, <-Hlen, Nat2N.id, Nat.sub_diag by lia. done.
  - eapply locks_put; try done. by rewrite Ht.
Qed.

Lemma wp_finish_commit t n st st' tx o o' c0 role Q :
  role.(r_lock) = Some (n, Some o) → role.(r_commit) = c0 → active c0 → tx_at chunk n tx →
  seq_step block_context σ0 tx st = Some (Some st') →
  (∀ sh roles n' st0, core sh roles n' st0 c0 → n' = n ∧ st0 = st ∧ commit_ok sh n st (CPaid n st o st')) →
  o'.(reads) = o.(reads) → st'.(seq_outputs) = st.(seq_outputs) ++ [o'] →
  Q true (with_commit (CIdle (n + 1) st') (with_lock None role)) →
  wpw t (put_output n o';; unlock_output n;; mret true) role Q.
Proof.
  intros Hl Hr Ha Htx Hstep Hpaid Hreads Houts HQ. apply wp_proc_bind. eapply wp_put_done; [done..|].
  apply wp_proc_bind. eapply wp_unlock_done; [done..| |exact HQ].
  intros sh roles n' st0 Hc. pose proof (co_commit Hc) as (<-&<-&?). done.
Qed.

(** After the fee transfer, whether it wrote or not. *)
Lemma bounced_paid sh roles n st n' st0 o info b tr tx info' :
  core sh roles n' st0 (CBounced n st o info b tr) →
  n' = n ∧ st0 = st ∧
  (∀ st', seq_pay block_context σ0 tx st o info b = Some st' →
     run_reads (complete_fee_transfer_flow block_context tx.(tx_context) info) (seq_view σ0 (seq_write st o)) = Some (info', None) →
     commit_ok sh n st (CPaid n st o st')).
Proof.
  intros Hc. pose proof (co_commit Hc) as (<-&<-&Ha&Hb&([Hl Hlc]&_&Ho)&_). do 2 (split; [done|]).
  intros st' Hpay Hrun. unfold seq_pay in Hpay. rewrite Hrun in Hpay. injection Hpay as <-.
  do 4 (split; [done|]). cbn. destruct (co_below Hc) as [<- <-].
  by rewrite below_succ, below_classes_succ, Hl, Hlc, extend_default.
Qed.

Lemma wp_pay t n st st' o info b tr tx info' w role Q :
  role.(r_commit) = CBounced n st o info b tr →
  ends_with (complete_fee_transfer_flow block_context tx.(tx_context) info) tr (Some (info', Some w)) →
  run_reads (complete_fee_transfer_flow block_context tx.(tx_context) info) (seq_view σ0 (seq_write st o)) = Some (info', Some w) →
  seq_pay block_context σ0 tx st o info b = Some st' →
  Q tt (with_commit (CPaid n st o st') role) → wpw t (update_state (apply_writes_at n w ∅)) role Q.
Proof.
  intros Hr Hend Hrun Hpay HQ. apply wp_update_state. intros sh roles n' st0 c Hc Ht.
  assert (c = CBounced n st o info b tr) as -> by (by eapply committer_role).
  pose proof (co_commit Hc) as (<-&<-&Ha&Hb&([Hl Hlc]&_&Ho)&Hrem).
  destruct (fee_writes_asked _ _ _ _ _ Hend) as [Hw _].
  destruct (apply_writes_ok n w ∅ sh.(state)) as [V' HV']; [rewrite Hw; cbn; intros *; by rewrite lookup_empty|].
  exists V', (with_commit (CPaid n st o st') role). split; [done|]. split; [|done]. exists n, st, (CPaid n st o st').
  pose proof (apply_writes_layer _ _ _ _ _ HV') as (_&_&_&Hsame&E5&E6).
  assert (tx_step n sh (set_state V' sh)) as Hstep.
  { eapply apply_step; try done; [rewrite Hw; cbn; intros *; by rewrite lookup_empty|].
    intros Hq. eapply fee_writes_remembered; [done|by apply Hrem]. }
  apply (commit_step t sh _ roles n st _ (CPaid n st o st') role.(r_lock) _ Hc Ht); try done.
  - destruct Ha. do 2 (split; [done|]). split; [by split|]. unfold seq_pay in Hpay. rewrite Hrun in Hpay. injection Hpay as <-.
    split; [done|]. cbn. destruct (below_ext sh.(state) V' n) as [B1 B2]; [intros j Hj; apply Hsame; lia|].
    rewrite below_succ, below_classes_succ, E5, E6, B1, B2, Hl, Hlc. destruct (co_below Hc) as [-> ->].
    rewrite extend_assoc, (left_id_L ∅ _). done.
  - eapply locks_keep; try done. by rewrite Ht.
Qed.

(** ** [commit_final] *)

(** What is known for good when the output is final. *)
Record final n (st : SeqState) (o : Output) (tx : Transaction) : Prop := {
  fi_tx : tx_at chunk n tx;
  fi_output : task_output (run_reads (transaction_run tx) (seq_view σ0 st)) = Some o;
  fi_step : quiet → is_Some (seq_step block_context σ0 tx st);
}.

Lemma wp_lock_final t n st o role Q :
  role.(r_lock) = None → role.(r_commit) = CFinal n st o →
  (∀ tx, final n st o tx → Q (Some o) (with_lock (Some (n, Some o)) role)) → wpw t (lock_output n) role Q.
Proof.
  intros Hl Hr HQ. apply wp_lock; try done.
  - intros sh roles n' st' c Hc Ht. eapply (commits_here t _ _ _ _ _ _ n st o Hc Ht). by right.
  - intros sh roles n' st' c out Hc Ht Hout.
    destruct (commits_here t _ _ _ _ _ _ n st o Hc Ht) as (->&->&->&Hn&(_&_&Ho)&_); [by right|].
    assert (out = Some o) as -> by congruence.
    destruct (lookup_lt_is_Some_2 chunk (N.to_nat n)) as [tx Htx]; [unfold ConcurrencyInv.n_txs in Hn; lia|].
    pose proof (co_commit Hc) as Hok. rewrite Hr in Hok. destruct Hok as (_&_&_&_&_&Hright). apply (HQ tx). split; [done|by apply Hright|].
    intros Hq. by eapply quiet_seq; [done|apply Hc|].
Qed.

Lemma wp_load_bouncer t n st o role Q :
  role.(r_commit) = CFinal n st o → Q st.(seq_bouncer) role → wpw t (load bouncer) role Q.
Proof.
  intros Hr HQ sh roles (n'&st'&c&Hc) Ht. cbn.
  destruct (commits_here t _ _ _ _ _ _ n st o Hc Ht) as (->&->&_&_&_&->); [by right|]. exists role. split; [|done].
  apply Inv_refresh; [by exists n, st, c|done].
Qed.

Lemma wp_store_bouncer t n st o info b role Q :
  role.(r_commit) = CFinal n st o → Q tt (with_commit (CBounced n st o info b []) role) → wpw t (store (set_bouncer b)) role Q.
Proof.
  intros Hr HQ sh roles (n'&st'&c&Hc) Ht. cbn.
  destruct (commits_here t _ _ _ _ _ _ n st o Hc Ht) as (->&->&->&_&Hs&_); [by right|]. eexists. split; [|exact HQ].
  pose proof (co_commit Hc) as Hok. rewrite Hr in Hok, Hc. destruct Hok as (_&_&Ha&_).
  exists n, st, (CBounced n st o info b []).
  apply (commit_step t sh (set_bouncer b sh) roles n st _ (CBounced n st o info b []) role.(r_lock) _ Hc Ht); try done.
  - by apply same_memory_step; split.
  - destruct Ha. do 2 (split; [done|]). split; [by split|]. do 2 (split; [done|]). intros _ q r Hin. by apply elem_of_nil in Hin.
  - eapply locks_keep; try done. by rewrite Ht.
Qed.

(** A transaction that failed leaves nothing but its output. *)
Lemma failed_done sh roles n n' st st0 o tx e :
  core sh roles n' st0 (CFinal n st o) → final n st o tx → o.(tx_result) = inr e →
  n' = n ∧ st0 = st ∧ ∃ st', seq_step block_context σ0 tx st = Some (Some st') ∧ commit_ok sh n st (CDone n st st').
Proof.
  intros Hc [Htx Ho _] He. pose proof (co_commit Hc) as (<-&<-&Ha&Hb&([Hl Hlc]&Hok&Hout)&_). do 2 (split; [done|]).
  eexists. split; [by eapply seq_step_failed|]. do 4 (split; [done|]). cbn.
  destruct (oo_failed _ _ _ _ _ _ _ _ _ Hok e He) as [Hw Hwc].
  assert (N.of_nat (length st.(seq_outputs)) = n) as Hlen by (eapply seq_steps_outputs, Hc; done).
  rewrite below_succ, below_classes_succ, Hl, Hlc, Hw, Hwc, extend_default, (left_id_L ∅ _), Hout.
  split; [apply (co_below Hc)|]. split; [apply (co_below Hc)|].
  by rewrite lookup_app_r, <-Hlen, Nat2N.id, Nat.sub_diag by lia.
Qed.

Lemma wp_commit_failed t n st o tx e role Q :
  role.(r_lock) = Some (n, Some o) → role.(r_commit) = CFinal n st o → final n st o tx → o.(tx_result) = inr e →
  (∀ st', Q true (with_commit (CIdle (n + 1) st') (with_lock None role))) → wpw t (unlock_output n;; mret true) role Q.
Proof.
  intros Hl Hr Hf He HQ. apply wp_proc_bind. pose proof (seq_step_failed tx st o (fi_output _ _ _ _ Hf) e He) as Hstep.
  eapply (wp_unlock_done _ _ st); [done..|apply (fi_tx _ _ _ _ Hf)|exact Hstep| |by apply HQ].
  intros sh roles n' st0 Hc. destruct (failed_done _ _ _ _ _ _ _ _ _ Hc Hf He) as (->&->&st'&Hs&Hd).
  do 2 (split; [done|]). congruence.
Qed.

(** The bouncer admits the transaction: the fee is transferred. *)
Lemma wp_commit_paid t n st o tx info b role Q :
  role.(r_lock) = Some (n, Some o) → role.(r_commit) = CFinal n st o → final n st o tx → o.(tx_result) = inl info →
  seq_bounce block_context σ0 tx st o info = Ok b →
  (∀ st', Q true (with_commit (CIdle (n + 1) st') (with_lock None role))) →
  wpw t (store (set_bouncer b);;
         completed ← run_on_proxy n (complete_fee_transfer_flow block_context tx.(tx_context) info);
         '(tx_execution_info, writes) ← proc_expect completed;
         match writes with
         | Some writes => update_state (apply_writes_at n writes ∅)
         | None => mret tt
         end;;
         put_output n (set_tx_result (inl tx_execution_info) o);;
         unlock_output n;;
         mret true) role Q.
Proof.
  intros Hl Hr [Htx Ho Hq] Hi Hb HQ. pose proof (seq_step_succeeded tx st o Ho info Hi) as Hstep. rewrite Hb in Hstep.
  apply wp_proc_bind. eapply (wp_store_bouncer _ _ _ _ info); [done|]. apply wp_proc_bind, wp_fee_reads. intros tr Hend.
  destruct (run_reads (complete_fee_transfer_flow _ _ _) _) as [[info' w]|] eqn:Hrun; apply wp_proc_bind; cbn [proc_expect wp_proc]; cycle 1.
  { intros Hquiet. destruct (Hq Hquiet) as [r Hs]. rewrite Hs in Hstep. unfold seq_pay in Hstep. by rewrite Hrun in Hstep. }
  assert (∃ st', seq_pay block_context σ0 tx st o info b = Some st' ∧ st'.(seq_outputs) = st.(seq_outputs) ++ [set_tx_result (inl info') o])
    as (st'&Hpay&Houts) by (unfold seq_pay; rewrite Hrun; by eexists). rewrite Hpay in Hstep. cbn in Hstep.
  apply wp_proc_bind. destruct w as [w|]; cbn [wp_proc].
  - eapply wp_pay; [done..|]. eapply (wp_finish_commit _ _ st st' tx o); [done..| |done|done|apply HQ].
    intros sh roles n' st0 Hc. pose proof (co_commit Hc) as Hok. destruct Hok as (<-&<-&?). done.
  - eapply (wp_finish_commit _ _ st st' tx o); [done..| |done|done|apply HQ].
    intros sh roles n' st0 Hc. destruct (bounced_paid _ _ _ _ _ _ _ _ _ _ tx info' Hc) as (->&->&Hp). do 2 (split; [done|]).
    by apply Hp.
Qed.

Lemma wp_commit_final t n st o role Q :
  role.(r_lock) = None → role.(r_commit) = CFinal n st o →
  (∀ st', Q true (with_commit (CIdle (n + 1) st') role)) → Q false (with_commit (CFull n st) role) →
  wpw t (commit_final chunk block_context n) role Q.
Proof.
  intros Hl Hr HQ HQf. apply wp_proc_bind. eapply wp_lock_final; [done..|]. intros tx Hf.
  apply wp_proc_bind. cbn [proc_expect wp_proc]. apply wp_proc_bind. pose proof Hf as [Htx Ho Hq]. rewrite Htx. cbn [proc_expect wp_proc].
  set (locked := with_lock (Some (n, Some o)) role).
  assert (∀ st', Q true (with_commit (CIdle (n + 1) st') (with_lock None locked))) as HQ' by (intros st'; unfold locked; by rewrite relock_role).
  destruct (tx_result o) as [info|e] eqn:Hres; [|by eapply wp_commit_failed].
  pose proof (seq_step_succeeded tx st o Ho info Hres) as Hstep.
  apply wp_proc_bind. eapply wp_load_bouncer; [done|]. apply wp_proc_bind. eapply wp_final_reads; [done|].
  change (run_reads _ _) with (seq_bounce block_context σ0 tx st o info).
  destruct (seq_bounce block_context σ0 tx st o info) as [b|[]|] eqn:Hb; try (intros Hquiet; by destruct (Hq Hquiet); congruence).
  - by eapply wp_commit_paid.
  - apply wp_proc_bind. eapply (wp_unlock_commit _ _ _ _ (CFull n st)); [done..| |].
    + intros sh n' st' (<-&<-&Ha&Hb'&_). do 4 (split; [done|]). by exists tx.
    + unfold locked. by rewrite relock_role.
Qed.

Lemma wp_commit_tx t n st o role Q :
  role.(r_lock) = None → role.(r_commit) = CActive n st false (Stored o) →
  (∀ st', Q true (with_commit (CIdle (n + 1) st') role)) → Q false (with_commit (CFull n st) role) →
  wpw t (commit_tx chunk block_context n) role Q.
Proof.
  intros Hl Hr HQ HQf. apply wp_proc_bind. eapply wp_revalidate; [done..|]. intros _ o'.
  by eapply (wp_commit_final _ _ st o').
Qed.

(** ** The commit phase *)

(** Each iteration commits a transaction or halts: the fuel is enough. *)
Lemma wp_commit_loop t fuel n st role Q :
  role.(r_lock) = None → role.(r_commit) = CIdle n st → n ≤ n_txs →
  n_txs - n < N.of_nat fuel ∨ (role.(r_done) = true ∧ 0 < N.of_nat fuel) →
  (∀ n' st' d, (role.(r_done) = true → d = true) → Q tt (with_done d (with_commit (CIdle n' st') role))) →
  wpw t (commit_loop chunk block_context fuel) role Q.
Proof.
  revert n st role. induction fuel as [|fuel IH]; intros n st role Hl Hr Hn Hfuel HQ; [lia|]. cbn [commit_loop].
  apply wp_proc_bind, wp_sched. eapply wps_try_commit; [done|..].
  - specialize (HQ n st true (λ _, eq_refl)). destruct role; cbn in *; by subst.
  - specialize (HQ n st role.(r_done) id). destruct role; cbn in *; by subst.
  - intros Hd Hlt o. destruct Hfuel as [Hf|[Hf _]]; [|congruence]. apply wp_proc_bind. eapply (wp_commit_tx _ _ st o); [done..| |].
    + intros st'. apply wp_proc_bind. cbn [wp_proc]. eapply (IH (n + 1) st'); [done|done|lia|left; lia|].
      intros n' st2 d Hd'. apply (HQ n' st2 d Hd').
    + apply wp_proc_bind, wp_sched. eapply wps_halt_scheduler; [done|]. eapply (IH n st); [done|done|lia|right; cbn; split; [done|lia]|].
      intros n' st2 d Hd'. apply (HQ n' st2 d). auto.
Qed.

Lemma wp_commit_while_possible t role Q :
  role.(r_lock) = None → role.(r_commit) = NotCommitting →
  (∀ d, (role.(r_done) = true → d = true) → Q tt (with_done d role)) →
  wpw t (commit_while_possible chunk block_context) role Q.
Proof.
  intros Hl Hr HQ. apply wp_proc_bind, wp_sched, wps_try_enter_commit_phase; [done|..].
  - specialize (HQ role.(r_done) id). by destruct role.
  - intros n st Hn. apply wp_proc_bind. eapply (wp_commit_loop _ _ n st); [done..| |].
    + left. unfold ConcurrencyInv.n_txs in *. lia.
    + intros n' st' d Hd. apply wp_sched. eapply wps_leave_commit_phase; [done|]. specialize (HQ d Hd). destruct role; cbn in *; by subst.
Qed.
End commit.
