(* ===== verification/ConcurrencyTheorems.v ===== *)
(** Runs of the workers: every schedule yields the results of the sequential execution, no
    worker panics or waits forever for a lock in a quiet chunk. *)
From stdpp Require Import functions.
From S2P Require Import Prelude StarknetApi StateApi CachedState CachedStateProofs VersionedState VersionedProofs.
From S2P Require Import Scheduler WorkerLogic ConcurrencySpec ConcurrencyInv ConcurrencySteps ConcurrencyScheduling.
From S2P Require Import ConcurrencyExecution ConcurrencyCommit.

Section workers.
Context `{HashOrder} `{FeeTokenVar} {RunnableCompiledClass S I E B : Type}.
Context `{!StateReader RunnableCompiledClass S} `{!StateReaderLaws RunnableCompiledClass S}.
Context `{!BlockBouncer RunnableCompiledClass I E B}.
Abbreviation Transaction := (Transaction RunnableCompiledClass I E).
Abbreviation Output := (ExecutionTaskOutput RunnableCompiledClass I E).
Abbreviation VersionedState := (VersionedState RunnableCompiledClass S).
Abbreviation Shared := (Shared RunnableCompiledClass S I E B).
Abbreviation Role := (Role RunnableCompiledClass I E B).
Abbreviation SeqState := (SeqState RunnableCompiledClass I E B).
Abbreviation View := (View RunnableCompiledClass).
Context (class_of : N → RunnableCompiledClass) (declares : Prop) (σ0 : View) `{!InitialLaws class_of σ0}.
Context (chunk : list Transaction) (block_context : BlockContext) (bouncer0 : B).
Abbreviation quiet := (quiet class_of declares σ0 chunk block_context bouncer0).
Abbreviation stage_ok := (stage_ok class_of declares σ0 chunk block_context bouncer0).
Abbreviation task_ok := (task_ok class_of declares σ0 chunk block_context bouncer0).
Abbreviation commit_ok := (commit_ok class_of declares σ0 chunk block_context bouncer0).
Abbreviation core := (core class_of declares σ0 chunk block_context bouncer0).
Abbreviation Inv := (Inv class_of declares σ0 chunk block_context bouncer0).
Abbreviation n_txs := (n_txs chunk).
Abbreviation wp := (wp_proc class_of declares σ0 chunk block_context bouncer0).
Abbreviation wpw := (wp (λ sh, sh) (λ sh _, sh)).
Abbreviation wps := (wp scheduler set_scheduler).
Implicit Types (sh : Shared) (V : VersionedState) (i j n : N) (t : nat) (role : Role).

Abbreviation output_ok := (output_ok class_of declares σ0 chunk block_context bouncer0).
Abbreviation trace_ok := (trace_ok class_of declares σ0 chunk block_context bouncer0).
Abbreviation tx_step := (tx_step class_of declares σ0 chunk block_context bouncer0).
Abbreviation Stage := (Stage RunnableCompiledClass I E).
Context (Hchunk : chunk_ok class_of declares chunk).


(** ** Iterations *)

(** A thread between two iterations. *)
Definition ready_for (task : Task) (role : Role) : Prop :=
  role.(r_lock) = None ∧ role.(r_commit) = NotCommitting ∧ task_range chunk task ∧
  match task with
  | ExecutionTask i => role.(r_task) = Executes i (Running [])
  | ValidationTask i => role.(r_task) = Validates i
  | AskForTask | NoTaskAvailable => role.(r_task) = NoTask
  | TaskDone => role.(r_task) = NoTask ∧ role.(r_done) = true
  end.

Definition after_iteration (next : option Task) (role : Role) : Prop :=
  match next with
  | Some task => ready_for task role
  | None => role.(r_lock) = None ∧ role.(r_commit) = NotCommitting ∧ role.(r_done) = true
  end.

Lemma ready_role_for task role :
  role.(r_lock) = None → role.(r_commit) = NotCommitting → role.(r_task) = NoTask → task_range chunk task →
  ready_for task (role_for task role).
Proof. intros. by destruct task. Qed.

Lemma wp_iteration t task role : ready_for task role → wpw t (iteration chunk block_context task) role after_iteration.
Proof.
  intros (Hl&Hr&Hrange&Htask). apply wp_proc_bind, wp_commit_while_possible; [done..|]. intros d Hd.
  destruct task as [i|i| | |]; cbn [wp_proc].
  - apply wp_proc_bind, wp_execute; [done..|]. done.
  - apply wp_proc_bind, wp_validate; [done..|]. intros task Hrange'. by apply ready_role_for.
  - apply wp_proc_bind, wp_sched, wps_next_task; [done|]. intros task Hrange'. by apply ready_role_for.
  - done.
  - destruct Htask as [Ht Hdone]. split_and!; [done..|]. by apply Hd.
Qed.

(** ** Systems *)

Definition sys_ok (sys : System) : Prop :=
  ∃ roles, Inv sys.1 roles ∧
    (∀ t worker, sys.2 !! t = Some worker → wpw t worker (roles t) after_iteration) ∧
    (∀ t, sys.2 !! t = None → (roles t).(r_lock) = None ∧ (roles t).(r_commit) = NotCommitting).

Lemma system_step_ok sys t : sys_ok sys → sys_ok (system_step chunk block_context sys t).
Proof.
  intros (roles&Hinv&Hw&Hidle). destruct sys as [sh workers]. unfold system_step. cbn in *.
  destruct (workers !! t) as [w|] eqn:Ht; [|by exists roles]. specialize (Hw t w Ht) as Hwt. cbn.
  assert (∀ w' role', wpw t w' role' after_iteration → ∀ t' w0, <[t := w']> workers !! t' = Some w0 →
    wpw t' w0 (<[t := role']> roles t') after_iteration) as Hothers.
  { intros w' role' Hw' t' w0. destruct (decide (t' = t)) as [->|Hne].
    - rewrite list_lookup_insert_eq by (by eapply lookup_lt_Some). intros [= <-]. by rewrite fn_lookup_insert.
    - rewrite list_lookup_insert_ne by done. rewrite fn_lookup_insert_ne by done. by apply Hw. }
  assert (∀ w' role' t', <[t := w']> workers !! t' = None →
    (<[t := role']> roles t').(r_lock) = None ∧ (<[t := role']> roles t').(r_commit) = NotCommitting) as Hidle'.
  { intros w' role' t' Ht'. apply lookup_ge_None in Ht'. rewrite length_insert in Ht'. apply lookup_lt_Some in Ht.
    rewrite fn_lookup_insert_ne by lia. apply Hidle, lookup_ge_None. lia. }
  destruct w as [[task|]| |f]; cbn; [| | |cbn in Hwt; specialize (Hwt sh roles Hinv eq_refl)].
  - exists (<[t := roles t]> roles). split; [by apply Inv_refresh|]. split; [|by eapply Hidle'].
    apply Hothers. by apply wp_iteration.
  - by exists roles.
  - by exists roles.
  - destruct (f sh) as [[sh' w']|]; [|by exists roles]. destruct Hwt as (role'&Hinv'&Hw').
    exists (<[t := role']> roles). split; [done|]. split; [by apply Hothers|by eapply Hidle'].
Qed.

Lemma run_workers_ok schedule sys : sys_ok sys → sys_ok (run_workers chunk block_context schedule sys).
Proof.
  revert sys. induction schedule as [|t schedule IH]; intros sys Hsys; [done|]. by apply IH, system_step_ok.
Qed.

(** ** The start *)

Definition idle_role : Role := {| r_task := NoTask; r_lock := None; r_commit := NotCommitting; r_done := false |}.

Lemma status_initial (s : S) (b : B) i : status (WorkerExecutor_initialize chunk s b) i = Some ReadyToExecute ∨
  status (WorkerExecutor_initialize chunk s b) i = None.
Proof.
  unfold status, get_status. cbn. destruct (replicate (length chunk) ReadyToExecute !! N.to_nat i) as [x|] eqn:Hx; [|by right].
  apply lookup_replicate in Hx as [-> _]. by left.
Qed.

Lemma core_initial (s : S) :
  stands_for s σ0 →
  core (WorkerExecutor_initialize chunk s bouncer0) (λ _, idle_role) 0 (seq_initial bouncer0) NotCommitting.
Proof.
  intros Hs. set (sh := WorkerExecutor_initialize chunk s bouncer0).
  assert (∀ i x, status sh i = Some x → x = ReadyToExecute) as Hst.
  { intros i x Hx. destruct (status_initial s bouncer0 i) as [H1|H1]; unfold sh in *; congruence. }
  assert (∀ i, layer sh.(state) i = StateMaps_default ∧ layer_classes sh.(state) i = ∅) as Hl by (intros i; apply layer_new).
  split; cbn; try done.
  - by rewrite length_replicate.
  - by rewrite length_replicate.
  - constructor.
  - by apply initial_ok_new.
  - lia.
  - by intros i o _ [? _]%lookup_replicate.
  - lia.
  - intros j _ Hx%Hst. done.
  - intros i _ _. destruct (Hl i). by do 2 (split; [done|]); apply trace_ok_nil.
  - intros i _ Hx%Hst. done.
  - split; cbn; try done; [intros Hx%Hst; done|]. intros _ Hne. destruct chunk; [done|]. unfold ConcurrencyInv.n_txs. cbn. lia.
  - exists 0%nat. intros t. by destruct (decide _).
Qed.

Lemma start_ok n_workers (s : S) :
  stands_for s σ0 → sys_ok (start_workers chunk block_context n_workers s bouncer0).
Proof.
  intros Hs. exists (λ _, idle_role). split; [by eexists _, _, _; apply core_initial|]. split; [|done].
  intros t w [-> _]%lookup_replicate. by apply wp_iteration.
Qed.

Lemma run_ok n_workers (s : S) schedule :
  stands_for s σ0 →
  sys_ok (run_workers chunk block_context schedule (start_workers chunk block_context n_workers s bouncer0)).
Proof. intros Hs. by apply run_workers_ok, start_ok. Qed.

(** ** The end *)

(** What [execute_chunk] returns after the sequential execution of the chunk. *)
Definition seq_finish `{!UpdatableState RunnableCompiledClass S} (st : SeqState) (block_state : S)
    : option (list (TransactionExecutionInfo I + E) * S) :=
  let visited_pcs := foldl add_visited ∅ st.(seq_outputs) in
  block_state ← (if decide (st.(seq_outputs) = []) then Some block_state
                 else apply_writes_to st.(seq_maps) st.(seq_classes) visited_pcs block_state);
  Some (tx_result <$> st.(seq_outputs), block_state).

(** Once every worker has left its loop, no commit is in progress and all is committed that fits. *)
Lemma finished_core sys :
  sys_ok sys → sys.2 ≠ [] → Forall (λ w, worker_finished w = true) sys.2 →
  ∃ roles n st, core sys.1 roles n st NotCommitting ∧ sys.1.(scheduler).(done_marker) = true.
Proof.
  intros (roles&(n&st&c&Hc)&Hw&Hidle) Hne Hfin.
  assert (∀ t, (roles t).(r_commit) = NotCommitting ∧ (is_Some (sys.2 !! t) → (roles t).(r_done) = true)) as Hroles.
  { intros t. destruct (sys.2 !! t) as [w|] eqn:Ht; [|split; [by apply Hidle|by intros [? ?]]].
    specialize (Hw t w Ht). rewrite Forall_lookup in Hfin. specialize (Hfin t w Ht). destruct w as [[task|]| |f]; try done.
    by destruct Hw as (?&?&?). }
  exists roles, n, st. assert (c = NotCommitting) as ->.
  { destruct (co_held Hc) as [owner Ho]. specialize (Ho owner). rewrite decide_True in Ho by done. by destruct (Hroles owner) as [<- _]. }
  split; [done|]. apply (co_done Hc 0). apply Hroles. destruct sys.2; [done|]. by eexists.
Qed.

Lemma collect_committed sh roles n st :
  core sh roles n st NotCommitting → collect_outputs sh = Some st.(seq_outputs).
Proof.
  intros Hc. unfold collect_outputs, get_n_committed_txs. rewrite (id_index _ _ _ _ _ _ (co_commit Hc)).
  assert (N.of_nat (length st.(seq_outputs)) = n) as Hlen by (eapply seq_steps_outputs, Hc; done).
  apply mapM_Some, Forall2_same_length_lookup. pose proof (core_le _ _ _ _ _ _ _ _ _ _ _ Hc) as Hle.
  assert (length (take (N.to_nat n) (execution_outputs sh)) = length st.(seq_outputs)) as Hl.
  { rewrite length_take, (co_length Hc). unfold ConcurrencyInv.n_txs in Hle. lia. }
  split; [done|]. intros i x y Hx Hy. apply lookup_take_Some in Hx as [Hx Hi].
  pose proof (co_outputs Hc (N.of_nat i) ltac:(lia)) as Ho. rewrite Nat2N.id in Ho. unfold id. congruence.
Qed.

Lemma finished_run sh roles n st :
  core sh roles n st NotCommitting → sh.(scheduler).(done_marker) = true →
  seq_run block_context σ0 chunk (seq_initial bouncer0) = Some st.
Proof.
  intros Hc Hd. destruct (id_done _ _ _ _ _ _ (co_commit Hc) Hd) as [->|(tx&Htx&Hfull)].
  - by eapply seq_run_all, Hc.
  - by eapply seq_run_full; [apply Hc|..].
Qed.

Lemma finish_committed `{!UpdatableState RunnableCompiledClass S} sh roles n st :
  core sh roles n st NotCommitting → finish_chunk sh = seq_finish st sh.(state).(initial_state).
Proof.
  intros Hc. unfold finish_chunk, seq_finish. rewrite (collect_committed _ _ _ _ Hc). cbn.
  unfold get_n_committed_txs. rewrite (id_index _ _ _ _ _ _ (co_commit Hc)).
  assert (N.of_nat (length st.(seq_outputs)) = n) as Hlen by (eapply seq_steps_outputs, Hc; done).
  destruct (decide (seq_outputs st = [])) as [Hnil|Hne].
  - rewrite Hnil in *. cbn in Hlen. subst n. done.
  - rewrite commit_chunk_below by (destruct (seq_outputs st); [done|cbn in Hlen; lia]).
    by destruct (co_below Hc) as [-> ->].
Qed.

Lemma run_workers_length schedule sys : length (run_workers chunk block_context schedule sys).2 = length sys.2.
Proof.
  revert sys. induction schedule as [|t schedule IH]; intros sys; [done|]. etrans; [apply IH|]. unfold system_step.
  destruct (sys.2 !! t ≫= _) as [[sh w]|]; [|done]. cbn. by rewrite length_insert.
Qed.

(** The outcome of the workers. *)
Lemma workers_sequential `{!UpdatableState RunnableCompiledClass S} n_workers (s : S) schedule :
  stands_for s σ0 → n_workers ≠ 0%nat →
  let '(sh, workers) := run_workers chunk block_context schedule (start_workers chunk block_context n_workers s bouncer0) in
  Forall (λ worker, worker_finished worker = true) workers →
  ∃ st block_state, seq_run block_context σ0 chunk (seq_initial bouncer0) = Some st ∧
    stands_for block_state σ0 ∧ sh.(bouncer) = st.(seq_bouncer) ∧ finish_chunk sh = seq_finish st block_state.
Proof.
  intros Hs Hn. pose proof (run_ok n_workers s schedule Hs) as Hok.
  pose proof (run_workers_length schedule (start_workers chunk block_context n_workers s bouncer0)) as Hlen.
  destruct (run_workers _ _ _ _) as [sh workers]. cbn in Hlen. rewrite length_replicate in Hlen. intros Hfin.
  destruct (finished_core _ Hok) as (roles&n&st&Hc&Hd); [by destruct workers|done|]. cbn in Hc, Hd.
  exists st, sh.(state).(initial_state). split; [by eapply finished_run|].
  split; [apply (io_stands _ _ _ (co_initial Hc))|].
  split; [apply (id_bouncer _ _ _ _ _ _ (co_commit Hc))|by eapply finish_committed].
Qed.

(** C4: whatever the number of workers and the order of their steps, once they have all left
    their loops the chunk was executed as if its transactions had run one after the other: the
    bouncer is the one of the sequential run, and [execute_chunk] returns the same execution
    infos and errors, in order, and the block state with the same writes, up to the transaction
    that does not fit in the block. *)
Theorem concurrent_sequential `{!UpdatableState RunnableCompiledClass S} n_workers (s : S) schedule :
  stands_for s σ0 → n_workers ≠ 0%nat →
  let '(sh, workers) := run_workers chunk block_context schedule (start_workers chunk block_context n_workers s bouncer0) in
  Forall (λ worker, worker_finished worker = true) workers →
  ∃ st block_state, seq_run block_context σ0 chunk (seq_initial bouncer0) = Some st ∧
    stands_for block_state σ0 ∧ sh.(bouncer) = st.(seq_bouncer) ∧ finish_chunk sh = seq_finish st block_state.
Proof. apply workers_sequential. Qed.

Lemma workers_do_not_panic n_workers (s : S) schedule t worker :
  quiet → stands_for s σ0 →
  (run_workers chunk block_context schedule (start_workers chunk block_context n_workers s bouncer0)).2 !! t = Some worker →
  worker_crashed worker = false.
Proof.
  intros Hq Hs Hw. destruct (run_ok n_workers s schedule Hs) as (roles&_&Hwp&_). specialize (Hwp t worker Hw).
  by destruct worker.
Qed.

(** C11: no worker ever panics in a quiet chunk, one that is not empty, whose transactions declare
    no class and do not panic themselves, and whose sequential execution does not: neither a
    cell that a validation misses, nor a status that is not the expected one, nor an output that
    is not there, nor a read set that is invalid right after a re-execution. *)
Theorem workers_never_panic n_workers (s : S) schedule t worker :
  quiet → stands_for s σ0 →
  (run_workers chunk block_context schedule (start_workers chunk block_context n_workers s bouncer0)).2 !! t = Some worker →
  worker_crashed worker = false.
Proof. apply workers_do_not_panic. Qed.

(** C22: the workers of a quiet chunk never block each other: as long as one has not left its
    loop, some worker can take a step, whatever locks are held. *)
Theorem workers_progress n_workers (s : S) schedule :
  quiet → stands_for s σ0 →
  let '(sh, workers) := run_workers chunk block_context schedule (start_workers chunk block_context n_workers s bouncer0) in
  Forall (λ worker, worker_finished worker = true) workers ∨
  ∃ t worker, workers !! t = Some worker ∧ is_Some (thread_step chunk block_context sh worker).
Proof.
  intros Hq Hs. pose proof (run_ok n_workers s schedule Hs) as (roles&Hinv&Hwp&Hidle).
  destruct (run_workers _ _ _ _) as [sh workers]. cbn in *.
  assert (∀ t w, workers !! t = Some w → worker_finished w = true ∨ is_Some (thread_step chunk block_context sh w) ∨
    (roles t).(r_lock) = None ∧ ∃ i, i ∈ sh.(output_locks)) as Hstep.
  { intros t w Hw. specialize (Hwp t w Hw). destruct w as [[task|]| |f]; cbn in *; [right; left; by eexists|by left|done|].
    specialize (Hwp sh roles Hinv eq_refl). destruct (f sh); [right; left; by eexists|by auto]. }
  destruct (decide (Forall (λ worker, worker_finished worker = true) workers)) as [|Hnot]; [by left|]. right.
  apply not_Forall_Exists in Hnot; [|apply _]. apply Exists_exists in Hnot as (w&[t Hw]%list_elem_of_lookup&Hnf).
  destruct (Hstep t w Hw) as [|[|(_&i&Hi)]]; [done|by eauto|].
  destruct Hinv as (n&st&c&Hc). destruct (co_lock_held Hc i Hi) as (t'&o&Ht').
  destruct (workers !! t') as [w'|] eqn:Hw'; [|destruct (Hidle t' Hw'); congruence].
  destruct (Hstep t' w' Hw') as [Hf|[?|[? _]]]; [|by eauto|congruence].
  specialize (Hwp t' w' Hw'). destruct w' as [[]| |]; try done. destruct Hwp. congruence.
Qed.
End workers.

(** Validating a read set decides whether the transaction would read the same now. In a state
    where what was read is remembered and no class is declared the validation does not panic, and
    it succeeds just when the state below the transaction answers as the read set says: for each
    cell the last write of a transaction before it, or else the initial value. *)
Theorem validate_reads_exact `{HashOrder} {RunnableCompiledClass S : Type} (class_of : N → RunnableCompiledClass)
    `{!StateReader RunnableCompiledClass S} `{!StateReaderLaws RunnableCompiledClass S} (σ0 : View RunnableCompiledClass)
    `{!InitialLaws class_of σ0} i R (V : VersionedState RunnableCompiledClass S) :
  i ≠ 0 → initial_ok class_of σ0 V → all_remembered V → (∀ j, layer_ok class_of V j) → reads_remembered V R →
  ∃ valid, validate_reads i R V = Some valid ∧ (valid = true ↔ agree class_of (view σ0 V i) R).
Proof.
  intros Hi Hok Hall Hl Hr. destruct (validate_reads_Some class_of σ0 i R V Hok Hall Hr) as [valid Hv].
  exists valid. split; [done|]. split.
  - intros ->. by eapply validate_agree.
  - intros Ha. assert (validate_reads i R V = Some true); [by eapply validate_reads_complete|congruence].
Qed.

(** ** Declarations that are aborted *)

Section aborted_declarations.
Context `{HashOrder} `{FeeTokenVar} {RunnableCompiledClass S I E B : Type}.
Context `{!StateReader RunnableCompiledClass S} `{!BlockBouncer RunnableCompiledClass I E B}.
Implicit Types (V : VersionedState RunnableCompiledClass S) (i j k h : N).

Lemma vs_below_layer {K A} `{Countable K} (vs : VersionedStorage K A) n i (key : K) :
  i < n → is_Some (vs_layer vs i !! key) → is_Some (vs_below vs n !! key).
Proof.
  induction n as [|n IH] using N.peano_ind; [lia|]. intros Hi Hl.
  rewrite <-N.add_1_r, vs_below_succ, lookup_union_is_Some. destruct (decide (i = n)) as [->|]; [by left|].
  right. apply IH; [lia|done].
Qed.

(** Deleting the keys that were written at a version. *)
Lemma delete_keys_written {K A} `{Countable K} i (m : gmap K A) (vs vs' : VersionedStorage K A) :
  m ⊆ vs_layer vs i → delete_keys i (hash_keys m) vs = Some vs' →
  vs'.(cached_initial_values) = vs.(cached_initial_values) ∧
  ∀ j key, vs_layer vs' j !! key = if decide (j = i ∧ is_Some (m !! key)) then None else vs_layer vs j !! key.
Proof.
  intros Hm Hdel. destruct (delete_keys_layer i (hash_keys m) vs) as (vs1&Hdel1&Hc&Hl).
  - intros key [v Hv]%elem_of_hash_keys. exists v. by eapply lookup_weaken.
  - apply NoDup_hash_keys.
  - rewrite Hdel in Hdel1. injection Hdel1 as <-. split; [done|]. intros j key. rewrite Hl.
    repeat case_decide; try done; naive_solver (rewrite elem_of_hash_keys in *; naive_solver).
Qed.

(** A class that is found, but not as declared, makes a validation panic that gets to it. *)
Lemma validate_declared_stale read has_class h (m : gmap N bool) (b b' : bool) :
  read h = Some b → has_class h ≠ b → m !! h = Some b' →
  (∀ h' b', delete h m !! h' = Some b' → read h' = Some b' ∧ has_class h' = b') →
  validate_declared read has_class (hash_iter m) = None.
Proof.
  intros Hr Hc Hm Hrest.
  assert (∀ l, (h, b') ∈ l → (∀ h' b', (h', b') ∈ l → h' ≠ h → read h' = Some b' ∧ has_class h' = b') →
    validate_declared read has_class l = None) as Hlist.
  { intros l. induction l as [|[h' b1] l IH]; intros Hin Hl; [by apply elem_of_nil in Hin|]. cbn.
    destruct (decide (h' = h)) as [->|Hne].
    - rewrite Hr. cbn. by rewrite decide_False by congruence.
    - destruct (Hl h' b1 ltac:(left) Hne) as [-> ->]. cbn. rewrite !decide_True by done. apply IH.
      + apply elem_of_cons in Hin as [[= -> ->]|?]; done.
      + intros h2 b2 Hin2. apply Hl. by right. }
  apply Hlist; [by apply elem_of_hash_iter|]. intros h' b1 Hin%elem_of_hash_iter Hne. apply Hrest.
  by rewrite lookup_delete_ne.
Qed.

(** The class is left at the version of the user, its declaration is gone. *)
Lemma stale_class V V1 V2 V3 i j k h (wi wj : StateMaps) (ci cj : gmap N RunnableCompiledClass) :
  i < j → j < k →
  V.(v_declared_contracts).(versions) !! h = None →
  V.(v_declared_contracts).(cached_initial_values) !! h = Some false →
  apply_writes_at i wi ci V = Some V1 → wi.(declared_contracts) !! h = Some true →
  apply_writes_at j wj cj V1 = Some V2 → wj.(declared_contracts) !! h = None → is_Some (cj !! h) →
  delete_writes i wi ci V2 = Some V3 →
  vs_read V3.(v_declared_contracts) (k - 1) h = Some false ∧
  is_Some (vs_read V3.(v_compiled_contract_classes) (k - 1) h).
Proof.
  intros Hij Hjk Hno Hinit (_&Hi1&_&Hs1&Hl1&Hc1)%apply_writes_layer Hwi (_&Hi2&_&Hs2&Hl2&Hc2)%apply_writes_layer Hwj Hcj.
  unfold delete_writes. intros (s&_&(n&_&(c&_&(cc&_&(d&Hd&(cl&Hcl&[= <-])%bind_Some)%bind_Some)%bind_Some)%bind_Some)%bind_Some)%bind_Some.
  cbn. injection Hi1 as _ _ _ _ Hi1. injection Hi2 as _ _ _ _ Hi2.
  destruct (Hs2 i ltac:(lia)) as [Hl2i Hc2i]. rewrite Hl1 in Hl2i. rewrite Hc1 in Hc2i. injection Hl2i as _ _ _ _ Hl2i.
  unfold layer_classes in Hc2i. cbn in Hl2i.
  apply delete_keys_written in Hd as [Hdc Hdl]; [|rewrite Hl2i; apply map_union_subseteq_l].
  apply delete_keys_written in Hcl as [_ Hcll]; [|rewrite Hc2i; apply map_union_subseteq_l].
  rewrite !vs_read_below. assert (k - 1 + 1 = k) as -> by lia. split.
  - rewrite lookup_union. assert (vs_below d k !! h = None) as ->; [|by rewrite (left_id_L None _), Hdc, Hi2, Hi1].
    apply eq_None_not_Some. intros [b (l&Hl&Hb)%lookup_vs_below]. rewrite Hdl in Hb. case_decide as Hd; [done|].
    assert (∀ l, vs_layer (v_declared_contracts V) l !! h = None) as HV by (intros l'; by rewrite lookup_vs_layer, Hno).
    assert (l ≠ i) as Hli by (intros ->; apply Hd; by rewrite Hwi).
    destruct (Hs1 l Hli) as [Hs1l _]. injection Hs1l as _ _ _ _ Hs1l.
    destruct (decide (l = j)) as [->|Hlj].
    + injection Hl2 as _ _ _ _ Hl2. rewrite Hl2, lookup_union, Hwj, Hs1l, HV in Hb. done.
    + destruct (Hs2 l Hlj) as [Hs2l _]. injection Hs2l as _ _ _ _ Hs2l. rewrite Hs2l, Hs1l, HV in Hb. done.
  - apply lookup_union_is_Some. left. apply (vs_below_layer _ _ j); [done|]. rewrite Hcll, decide_False by lia.
    unfold layer_classes in Hc2. rewrite Hc2. apply lookup_union_is_Some. by left.
Qed.

(** C25: an aborted declaration makes later validations panic. Let a class not be declared before the
    chunk; let transaction [i] declare it and a later transaction [j] merely use it, which writes
    the class, but not its declaration, at the version of [j]; and let the declaration then be
    aborted, so that the writes of [i] are deleted. For every transaction [k] after [j] that has
    read the class as declared, and all of whose other reads are still valid, the validation does
    not find the read set invalid: it panics, since the class is found at the version of [j]
    while it does not count as declared. A worker that gets to this validation, whatever it was to
    do next, crashes. *)
Theorem aborted_declaration_panics V V1 V2 V3 i j k h (wi wj R : StateMaps) (ci cj : gmap N RunnableCompiledClass) :
  i < j → j < k →
  V.(v_declared_contracts).(versions) !! h = None →
  V.(v_declared_contracts).(cached_initial_values) !! h = Some false →
  apply_writes_at i wi ci V = Some V1 → wi.(declared_contracts) !! h = Some true →
  apply_writes_at j wj cj V1 = Some V2 → wj.(declared_contracts) !! h = None → is_Some (cj !! h) →
  delete_writes i wi ci V2 = Some V3 →
  R.(declared_contracts) !! h = Some true → validate_reads k (set_declared_contracts (delete h) R) V3 = Some true →
  validate_reads k R V3 = None ∧
  ∀ chunk block_context (sh : Shared RunnableCompiledClass S I E B) rest, sh.(state) = V3 →
    thread_step chunk block_context sh (valid ← worker_validate_reads k R; rest valid) = Some (sh, Crash).
Proof.
  intros Hij Hjk Hno Hinit H1 Hwi H2 Hwj Hcj H3 HR Hrest.
  destruct (stale_class V V1 V2 V3 i j k h wi wj ci cj) as [Hread Hclass]; [done..|].
  assert (validate_reads k R V3 = None) as Hpanic.
  { apply validate_reads_true in Hrest as (Hs&Hn&Hc&Hcc&Hd); [|lia]. cbn in *.
    unfold validate_reads. rewrite decide_False by lia.
    assert (∀ {K A} `{Countable K} `{EqDecision A} (read : K → option A) (m : gmap K A),
      (∀ key v, m !! key = Some v → read key = Some v) → validate_cells read (hash_iter m) = Some true) as Hcells.
    { intros. apply validate_cells_true. intros key v ?%elem_of_hash_iter. auto. }
    rewrite !Hcells by (done || (intros []; apply Hs)). cbn [and_then].
    eapply (validate_declared_stale _ _ h _ false true); [done|by rewrite bool_decide_eq_true_2|done|done]. }
  split; [done|]. intros chunk block_context sh rest Hst. cbn. rewrite Hst, Hpanic. done.
Qed.
End aborted_declarations.

(** ** Scenarios *)

Module Scenario.
#[local] Existing Instance canonical_order.

(** A block state of cells without classes. *)
Definition cells (s : StateMaps) : View N := λ q,
  match q with
  | GetStorageAt a k => SOk (default 0 (s.(storage) !! (a, k)))
  | GetNonceAt a => SOk (default 0 (s.(nonces) !! a))
  | GetClassHashAt a => SOk (default 0 (s.(class_hashes) !! a))
  | GetCompiledClass h => SErr (UndeclaredClassHash h)
  | GetCompiledClassHash h => SOk 0
  end.

#[export] Instance cells_reader : StateReader N StateMaps := λ q s, (from_state_result (cells s q), s).
#[export] Instance cells_updatable : UpdatableState N StateMaps := λ w _ _ s, Some (StateMaps_extend s w).
#[export, refine] Instance cells_laws : StateReaderLaws N StateMaps := {| stands_for := λ s σ, ∀ q, σ q = cells s q |}.
Proof.
  - intros q s σ Hs. cbn. by rewrite Hs.
  - done.
  - intros s σ σ' Heq Hs q. by rewrite <-Heq.
Defined.
#[export] Instance var : FeeTokenVar := λ a, a + 100.

(** Blocks of at most three transactions. *)
#[export] Instance three : BlockBouncer N unit unit N := λ b _ _,
  Return (if decide (b < 3) then Ok (b + 1) else Err BlockFull).

Definition block_context : BlockContext := {| sequencer_address := 7 |}.

(** A transaction that increments a cell of the contract [1] and pays a fee. *)
Definition increment (key fee : N) : Transaction N unit unit := {|
  execute_raw := λ _,
    Do (Read (GetStorageAt 1 key)) (λ v,
    match v with
    | SOk v =>
        Do (SetStorageAt 1 key (v + 1)) (λ _,
        Finish (inl {| fee_transfer_call_info := Some {| storage_read_values := [0; 0; 0; 0]; inner_calls := [] |};
                       actual_fee := fee; other_info := tt |}))
    | SErr _ => Finish (inr tt)
    end);
  tx_context := {| sender_address := 1; fee_token_address := 2; enforce_fee := true |};
|}.

Definition chunk : list (Transaction N unit unit) := [increment 5 10; increment 5 20].

Definition turns (n : nat) : list nat := mjoin (replicate n [0; 1; 1; 0; 1]%nat).

#[export] Instance cells_initial : InitialLaws (λ h, h) (cells StateMaps_default).
Proof. split; [|done]. intros []; cbn; eauto. Qed.

(** How a run of such a transaction ends. *)
Lemma increment_ends fee tr run :
  ends_with (transaction_run (increment 5 fee)) tr run →
  ∃ r, tr = [existT (GetStorageAt 1 5) r] ∧ ∀ v, r = SOk v → is_Some (task_output run).
Proof.
  intros (r&tr'&->&Hend)%ends_ask_inv. exists r. destruct r as [v|e]; vm_compute in Hend.
  - apply ends_return_inv in Hend as [-> ->]. split; [done|]. intros w _. vm_compute. by eexists.
  - apply ends_return_inv in Hend as [-> ->]. split; [done|]. done.
Qed.

Lemma in_chunk tx : tx ∈ chunk → ∃ fee, tx = increment 5 fee.
Proof. intros [->|[->|[]%elem_of_nil]%elem_of_cons]%elem_of_cons; eauto. Qed.

Lemma increment_ok fee :
  declares_well (λ h, h) False ((increment 5 fee).(execute_raw) true) ∧ class_once (λ h, h) (transaction_run (increment 5 fee)).
Proof.
  split.
  - split; [done|]. by intros [v|e].
  - intros tr run (r&->&_)%increment_ends _ tr1 e tr2 Heq.
    destruct tr1 as [|? [|]]; simplify_eq/=; done.
Qed.

Lemma scenario_ok : chunk_ok (λ h, h) False chunk.
Proof. intros tx [fee ->]%in_chunk. apply increment_ok. Qed.

Definition st0 : SeqState N unit unit N := seq_initial 0.
Definition st1 : SeqState N unit unit N :=
  default st0 (mjoin (seq_step block_context (cells StateMaps_default) (increment 5 10) st0)).

Lemma scenario_steps n st :
  seq_steps block_context (cells StateMaps_default) chunk st0 n st → (n = 0 ∧ st = st0) ∨ (n = 1 ∧ st = st1) ∨ n = 2.
Proof.
  induction 1 as [|n st tx st' _ IH Htx Hstep]; [by left|]. right.
  destruct IH as [[-> ->]|[[-> ->]| ->]]; [left|by right|done].
  injection Htx as <-. split; [done|]. unfold st1. by rewrite Hstep.
Qed.

Lemma scenario_quiet : quiet (λ h, h) False (cells StateMaps_default) chunk block_context 0.
Proof.
  split; [done|by intros []|..].
  - intros tx tr run [fee ->]%in_chunk (r&->&Hsome)%increment_ends Hv.
    destruct (Hv (GetStorageAt 1 5) r) as [v Hr]; [left|]. by eapply Hsome.
  - intros n st tx [[-> ->]|[[-> ->]| ->]]%scenario_steps Htx; [injection Htx as <-; vm_compute; by eexists..|done].
Qed.

Lemma concurrent_sequential_witness :
  ∃ st block_state, seq_run block_context (cells StateMaps_default) chunk (seq_initial 0) = Some st ∧
    stands_for block_state (cells StateMaps_default) ∧
    let '(sh, _) := run_workers chunk block_context (turns 80) (start_workers chunk block_context 2 StateMaps_default 0) in
    sh.(bouncer) = st.(seq_bouncer) ∧ finish_chunk sh = seq_finish st block_state.
Proof.
  pose proof (concurrent_sequential (λ h, h) False (cells StateMaps_default) chunk block_context 0 scenario_ok
    2 StateMaps_default (turns 80) (λ q, eq_refl) ltac:(done)) as Hseq.
  assert (Forall (λ worker, worker_finished worker = true)
    (run_workers chunk block_context (turns 80) (start_workers chunk block_context 2 StateMaps_default 0)).2) as Hfin.
  { apply (bool_decide_unpack _). vm_compute. done. }
  destruct (run_workers _ _ _ _) as [sh workers]. destruct (Hseq Hfin) as (st&s'&?&?&?&?). by exists st, s'.
Defined.

Lemma workers_never_panic_witness :
  (∃ worker, (run_workers chunk block_context (turns 12) (start_workers chunk block_context 2 StateMaps_default 0)).2 !! 1%nat = Some worker)
  ∧ ∀ worker, (run_workers chunk block_context (turns 12) (start_workers chunk block_context 2 StateMaps_default 0)).2 !! 1%nat = Some worker →
      worker_crashed worker = false.
Proof.
  split; [apply lookup_lt_is_Some_2; rewrite run_workers_length; vm_compute; lia|]. intros worker Hw.
  exact (workers_never_panic (λ h, h) False (cells StateMaps_default) chunk block_context 0 scenario_ok
    2 StateMaps_default (turns 12) 1 worker scenario_quiet (λ q, eq_refl) Hw).
Defined.

Lemma workers_progress_witness :
  let '(sh, workers) := run_workers chunk block_context (turns 12) (start_workers chunk block_context 2 StateMaps_default 0) in
  Forall (λ worker, worker_finished worker = true) workers ∨
  ∃ t worker, workers !! t = Some worker ∧ is_Some (thread_step chunk block_context sh worker).
Proof.
  exact (workers_progress (λ h, h) False (cells StateMaps_default) chunk block_context 0 scenario_ok
    2 StateMaps_default (turns 12) scenario_quiet (λ q, eq_refl)).
Defined.

(** Half-way, the second transaction is validated against a read set. *)
Definition half_way : VersionedState N StateMaps :=
  (run_workers chunk block_context (turns 20) (start_workers chunk block_context 2 StateMaps_default 0)).1.(state).

Lemma validate_reads_exact_witness :
  ∃ valid, validate_reads 1 (set_storage (λ _, {[(1, 5) := 1]}) StateMaps_default) half_way = Some valid ∧
    (valid = true ↔ agree (λ h, h) (view (cells StateMaps_default) half_way 1) (set_storage (λ _, {[(1, 5) := 1]}) StateMaps_default)).
Proof.
  assert (stands_for StateMaps_default (cells StateMaps_default)) as Hs by done.
  destruct (run_ok (λ h, h) False (cells StateMaps_default) chunk block_context 0 scenario_ok 2 StateMaps_default (turns 20) Hs)
    as (roles&(n&st&c&Hc)&_&_).
  apply (validate_reads_exact (λ h, h) (cells StateMaps_default)).
  - done.
  - apply (co_initial Hc).
  - apply (co_remembered Hc scenario_quiet).
  - apply (co_layers Hc).
  - split; cbn [set_storage storage nonces class_hashes compiled_class_hashes declared_contracts StateMaps_default];
      intros *; try (by rewrite lookup_empty).
    intros [[= <- <-] _]%lookup_singleton_Some. apply (bool_decide_unpack _). by vm_compute.
Defined.

(** ** A declaration that is aborted *)

(** [try_declare] of [transaction/transactions.rs], as code on a state. *)
Definition try_declare {A} (class_hash contract_class : N) (compiled_class_hash : option N)
    (k : unit + unit → Program N A) : Program N A :=
  Do (Read (GetCompiledClass class_hash)) (λ r,
  match r with
  | SErr (UndeclaredClassHash _) =>
      Do (SetContractClass class_hash contract_class) (λ _,
      match compiled_class_hash with
      | Some compiled_class_hash => Do (SetCompiledClassHash class_hash compiled_class_hash) (λ _, k (inl tt))
      | None => k (inl tt)
      end)
  | SErr _ | SOk _ => k (inr tt)
  end).

Definition transaction (p : Program N (TransactionExecutionInfo unit + unit)) : Transaction N unit unit := {|
  execute_raw := λ _, p;
  tx_context := {| sender_address := 1; fee_token_address := 2; enforce_fee := false |};
|}.

Definition succeeds : TransactionExecutionInfo unit + unit :=
  inl {| fee_transfer_call_info := None; actual_fee := 0; other_info := tt |}.

(** A transaction that writes a cell, one that reads it and declares the class [9], and two that
    use the class. *)
Definition declaring_chunk : list (Transaction N unit unit) :=
  let writer := Do (Read (GetStorageAt 1 5)) (λ _, Do (SetStorageAt 1 5 1) (λ _, Finish succeeds)) in
  let declarer := Do (Read (GetStorageAt 1 5)) (λ _, try_declare 9 9 (Some 3)
                    (λ r, Finish match r with inl _ => succeeds | inr e => inr e end)) in
  let user := Do (Read (GetCompiledClass 9)) (λ r, Finish match r with SOk _ => succeeds | SErr _ => inr tt end) in
  [transaction writer; transaction declarer; transaction user; transaction user].

(** The writer starts, the others are executed before it writes; the declaration is then found
    invalid by the committer, and the last transaction is validated before the third one. *)
Definition bad_schedule : list nat :=
  mjoin (zip_with replicate [15; 29; 28; 28; 14; 22; 34; 15] [0; 1; 2; 3; 0; 1; 2; 3])%nat.

(** The chunk can be executed in sequence, but under this schedule a worker crashes: its third
    transaction leaves the class behind when the declaration is aborted. *)
Lemma aborted_declaration_run :
  is_Some (seq_run block_context (cells StateMaps_default) declaring_chunk (seq_initial 0)) ∧
  existsb worker_crashed
    (run_workers declaring_chunk block_context bad_schedule
       (start_workers declaring_chunk block_context 4 StateMaps_default 0)).2 = true.
Proof. split; [vm_compute; by eexists|]. by vm_compute. Qed.

(** A state in which the class [9] was looked for and not found, and the writes of the second and
    third transactions of the chunk. *)
Definition not_declared : VersionedState N StateMaps :=
  on_v_declared_contracts (set_initial_value 9 false) (VersionedState_new StateMaps_default).
Definition declares_9 : StateMaps :=
  set_compiled_class_hashes (insert 9 3) (set_declared_contracts (insert 9 true) StateMaps_default).
Definition both_executed : option (VersionedState N StateMaps) :=
  apply_writes_at 1 declares_9 {[9 := 9]} not_declared ≫= apply_writes_at 2 StateMaps_default {[9 := 9]}.
Definition aborted : VersionedState N StateMaps :=
  default not_declared (both_executed ≫= delete_writes 1 declares_9 {[9 := 9]}).

Lemma aborted_declaration_panics_witness :
  validate_reads 3 (set_declared_contracts (insert 9 true) StateMaps_default) aborted = None ∧
  ∀ (sh : Shared N StateMaps unit unit N) rest, sh.(state) = aborted →
    thread_step declaring_chunk block_context sh
      (valid ← worker_validate_reads 3 (set_declared_contracts (insert 9 true) StateMaps_default); rest valid) =
    Some (sh, Crash).
Proof.
  destruct (aborted_declaration_panics (I := unit) (E := unit) (B := N) not_declared
    (default not_declared (apply_writes_at 1 declares_9 {[9 := 9]} not_declared)) (default not_declared both_executed)
    aborted 1 2 3 9 declares_9 StateMaps_default (set_declared_contracts (insert 9 true) StateMaps_default)
    {[9 := 9]} {[9 := 9]}) as [Hpanic Hcrash]; [first [by vm_compute|by eexists; vm_compute]..|].
  split; [exact Hpanic|]. intros sh rest. apply Hcrash.
Defined.
End Scenario.
