(* ===== verification/TransactionExecutor.v ===== *)
(** The executor that builds a block: [crates/blockifier/src/blockifier/transaction_executor.rs]
    and [block.rs].

    It executes transactions on the block state one by one, or a chunk at a time with workers
    ([WorkerLogic]); a run of the workers follows a schedule, which is an input. The block state
    is a [CachedState] over a reader; the executor relies on what [StateReader] and
    [UpdatableState] promise. *)
From S2P Require Import Prelude StarknetApi StateApi CachedState CachedStateProofs VersionedState VersionedProofs.
From S2P Require Import CachedStateSpec StatefulCompression Scheduler WorkerLogic.

(** [TransactionExecutorConfig], which holds a [ConcurrencyConfig]. *)
Record ConcurrencyConfig := {
  enabled : bool;
  n_workers : nat;
  config_chunk_size : nat;
}.

(** What comes of a call: a value, a panic, or a schedule that ends before the workers do. *)
Inductive outcome (A : Type) :=
| Returned (a : A)
| Panicked
| Unfinished.
Arguments Returned {A} a.
Arguments Panicked {A}.
Arguments Unfinished {A}.

#[global] Instance outcome_ret : MRet outcome := λ A, Returned.
#[global] Instance outcome_bind : MBind outcome := λ A B f m,
  match m with Returned a => f a | Panicked => Panicked | Unfinished => Unfinished end.

Definition or_panic {A} (o : option A) : outcome A :=
  match o with Some a => Returned a | None => Panicked end.

(** ** Code on a state, in sequence *)

Section programs.
Context {RunnableCompiledClass : Type}.
Abbreviation Program := (Program RunnableCompiledClass).

Fixpoint program_bind {A B} (p : Program A) : (A → Program B) → Program B :=
  match p with
  | Finish a => λ f, f a
  | Do op k => λ f, Do op (λ r, program_bind (k r) f)
  | Transactional child commits k => λ f, Transactional child commits (λ b, program_bind (k b) f)
  end.

(** Code that only reads. *)
Fixpoint program_reads {A B} (m : Reads RunnableCompiledClass A) (f : A → Program B) : Program B :=
  match m with
  | Return a => f a
  | Ask q k => Do (Read q) (λ r, program_reads (k r) f)
  end.
End programs.

(** ** The executor *)

Section executor.
Context `{HashOrder} `{FeeTokenVar} {RunnableCompiledClass S I E B : Type}.
Context `{!StateReader RunnableCompiledClass S} `{!UpdatableState RunnableCompiledClass S}.
Context `{!BlockBouncer RunnableCompiledClass I E B}.
Abbreviation Transaction := (Transaction RunnableCompiledClass I E).
Abbreviation Info := (TransactionExecutionInfo I).
Abbreviation Reads := (Reads RunnableCompiledClass).
Abbreviation Program := (Program RunnableCompiledClass).
Abbreviation Error := (TransactionExecutorError E).
Abbreviation Shared := (Shared RunnableCompiledClass S I E B).
Context (block_context : BlockContext).

Record TransactionExecutor := {
  executor_bouncer : B;
  executor_config : ConcurrencyConfig;
  block_state : option S;
}.

Definition TransactionExecutor_new (block_state : S) (bouncer : B) (config : ConcurrencyConfig) : TransactionExecutor :=
  {| executor_bouncer := bouncer; executor_config := config; block_state := Some block_state |}.

Definition set_bouncer_and_state bouncer block_state self : TransactionExecutor :=
  {| executor_bouncer := bouncer; executor_config := self.(executor_config); block_state := block_state |}.

(** Code that reads the block state, which remembers what is read. *)
Fixpoint run_on_state {A} (m : Reads A) (s : S) : outcome (A * S) :=
  match m with
  | Return a => Returned (a, s)
  | Ask q k =>
      match read_state q s with
      | (Ok a, s) => run_on_state (k (SOk a)) s
      | (Err e, s) => run_on_state (k (SErr e)) s
      | (Panic, _) => Panicked
      end
  end.

(** What [execute] does in the transactional state: [None] for a panic, else the error, or the info
    with the updated bouncer. *)
Definition execute_in_transactional (tx : Transaction) (bouncer : B) : Program (option (Error + Info * B)) :=
  let concurrency_mode := false in
  program_bind (tx.(execute_raw) concurrency_mode) (λ tx_execution_result,
  match tx_execution_result with
  | inr error => Finish (Some (inl (ExecutorTransactionExecutionError error)))
  | inl tx_execution_info =>
      Do ToStateDiff (λ changes,
      match changes with
      | SErr e => Finish (Some (inl (ExecutorStateError e)))
      | SOk changes =>
          let tx_state_changes_keys := into_keys changes.(state_maps) in
          program_reads (try_update bouncer tx_state_changes_keys tx_execution_info) (λ updated,
          Finish match updated with
                 | Ok bouncer => Some (inr (tx_execution_info, bouncer))
                 | Err e => Some (inl e)
                 | Panic => None
                 end)
      end)
  end).

Definition execute_one (self : TransactionExecutor) (tx : Transaction) : outcome ((Error + Info) * TransactionExecutor) :=
  s ← or_panic self.(block_state);
  '(run, s) ← run_on_state (run_program (execute_in_transactional tx self.(executor_bouncer)) CachedState_new) s;
  r ← or_panic (mjoin run.1);
  match r with
  | inl e => mret (inl e, set_bouncer_and_state self.(executor_bouncer) (Some s) self)
  | inr (tx_execution_info, bouncer) =>
      let transactional_state := run.2 in
      s ← or_panic (apply_writes_to transactional_state.(cache).(writes) transactional_state.(class_hash_to_class)
                      transactional_state.(visited_pcs) s);
      mret (inr tx_execution_info, set_bouncer_and_state bouncer (Some s) self)
  end.

Fixpoint execute_txs_sequentially (self : TransactionExecutor) (txs : list Transaction)
    : outcome (list (Error + Info) * TransactionExecutor) :=
  match txs with
  | [] => mret ([], self)
  | tx :: txs =>
      '(r, self) ← execute_one self tx;
      match r with
      | inl BlockFull => mret ([], self)
      | inl _ | inr _ => '(results, self) ← execute_txs_sequentially self txs; mret (r :: results, self)
      end
  end.

(** [result.map_err(TransactionExecutorError::from)]. *)
Definition executor_result (r : Info + E) : Error + Info :=
  match r with inl info => inr info | inr e => inl (ExecutorTransactionExecutionError e) end.

(** Once the workers have all left their loops the results are collected; a panic of one is
    propagated. *)
Definition join_workers (self : TransactionExecutor) (system : Shared * list (Proc Shared (option Task)))
    : outcome (list (Error + Info) * TransactionExecutor) :=
  if existsb (λ worker, worker_crashed worker) system.2 then Panicked else
  if forallb (λ worker, worker_finished worker) system.2 then
    match finish_chunk system.1 with
    | None => Panicked
    | Some (results, s) => Returned (executor_result <$> results, set_bouncer_and_state system.1.(bouncer) (Some s) self)
    end
  else Unfinished.

Definition execute_chunk (schedule : list nat) (self : TransactionExecutor) (chunk : list Transaction)
    : outcome (list (Error + Info) * TransactionExecutor) :=
  s ← or_panic self.(block_state);
  join_workers self
    (run_workers chunk block_context schedule
       (start_workers chunk block_context self.(executor_config).(n_workers) s self.(executor_bouncer))).

(** The loop over [txs.chunks(chunk_size)], with a schedule for each chunk. *)
Fixpoint execute_chunks (schedules : list (list nat)) (self : TransactionExecutor) (chunks : list (list Transaction))
    : outcome (list (Error + Info) * TransactionExecutor) :=
  match chunks, schedules with
  | [], _ => mret ([], self)
  | _, [] => Unfinished
  | chunk :: chunks, schedule :: schedules =>
      '(chunk_results, self) ← execute_chunk schedule self chunk;
      if decide (length chunk_results < length chunk)%nat then Returned (chunk_results, self) else
      '(results, self) ← execute_chunks schedules self chunks;
      mret (chunk_results ++ results, self)
  end.

(** [slice::chunks]; every chunk but the last has [n] elements. The list gets shorter with each
    chunk, so that its length is enough fuel. *)
Fixpoint chunks_of {A} (fuel n : nat) (l : list A) : list (list A) :=
  match fuel, l with
  | O, _ | _, [] => []
  | Datatypes.S fuel, _ => take n l :: chunks_of fuel n (drop n l)
  end.

Definition execute_txs (schedules : list (list nat)) (self : TransactionExecutor) (txs : list Transaction)
    : outcome (list (Error + Info) * TransactionExecutor) :=
  if negb self.(executor_config).(enabled) then execute_txs_sequentially self txs else
  let chunk_size := self.(executor_config).(config_chunk_size) in
  if decide (chunk_size = 0 ∨ self.(executor_config).(n_workers) = 0)%nat then Panicked else
  execute_chunks schedules self (chunks_of (length txs) chunk_size txs).
End executor.
Arguments TransactionExecutor : clear implicits.

(** ** The block state *)

Section block.
Context `{HashOrder} {RunnableCompiledClass : Type}.
Abbreviation View := (View RunnableCompiledClass).
Abbreviation CachedState := (CachedState RunnableCompiledClass).
Abbreviation CS := (CS RunnableCompiledClass).

(** A [CachedState] whose reader answers as [reader]. *)
Definition CachedState_reader (reader : View) : StateReader RunnableCompiledClass CachedState :=
  λ q self, run_reads (cached_query q self) reader.

Definition CachedState_updatable (reader : View) : UpdatableState RunnableCompiledClass CachedState :=
  λ writes class_hash_to_class visited_pcs self,
    match run_reads (apply_writes writes class_hash_to_class visited_pcs self) reader with
    | (Ok _, self) => Some self
    | _ => None
    end.

Definition STORED_BLOCK_HASH_BUFFER : N := 10.

(** [old_block_number_and_hash] is the number of a block and its hash. *)
Definition pre_process_block (block_hash_contract_address : N) (old_block_number_and_hash : option (N * N))
    (next_block_number : N) : CS unit :=
  let should_block_hash_be_provided := bool_decide (STORED_BLOCK_HASH_BUFFER ≤ next_block_number) in
  match old_block_number_and_hash with
  | Some (number, hash) => set_storage_at block_hash_contract_address number hash
  | None => if should_block_hash_be_provided then cs_throw OldBlockHashNotProvided else mret tt
  end.

Definition pre_process_and_create {B} (reader : View) (bouncer : B) (block_hash_contract_address : N)
    (old_block_number_and_hash : option (N * N)) (block_number : N) (config : ConcurrencyConfig)
    : result StateError (TransactionExecutor CachedState B) :=
  match run_reads (pre_process_block block_hash_contract_address old_block_number_and_hash block_number
                     CachedState_new) reader with
  | (Ok _, block_state) => Ok (TransactionExecutor_new block_state bouncer config)
  | (Err e, _) => Err e
  | (Panic, _) => Panic
  end.

(** The segments of a class that were visited, a method of the class; its error is taken as one of
    the state. *)
Context (get_visited_segments : RunnableCompiledClass → gset N → result StateError (list N)).

Definition cs_result {A} (r : result StateError A) : CS A := λ self, Return (r, self).

Fixpoint collect_segments (entries : list (N * gset N)) : CS (list (N * list N)) :=
  match entries with
  | [] => mret []
  | (class_hash, class_visited_pcs) :: entries =>
      contract_class ← get_compiled_class class_hash;
      segments ← cs_result (get_visited_segments contract_class class_visited_pcs);
      rest ← collect_segments entries;
      mret ((class_hash, segments) :: rest)
  end.

Definition block_state_diff (enable_stateful_compression : bool) (alias_contract_address : N) : CS StateMaps :=
  if enable_stateful_compression then state_diff_with_alias_allocation alias_contract_address
  else changes ← to_state_diff; mret changes.(state_maps).

(** The state diff, the visited segments and the bouncer, whose weights are returned; the block
    state is taken once the segments are known. *)
Definition finalize {B} (reader : View) (enable_stateful_compression : bool) (alias_contract_address : N)
    (self : TransactionExecutor CachedState B)
    : result StateError (StateMaps * list (N * list N) * B) * TransactionExecutor CachedState B :=
  match self.(block_state) with
  | None => (Panic, self)
  | Some s =>
      let with_state := λ block_state, set_bouncer_and_state self.(executor_bouncer) block_state self in
      match run_reads (collect_segments (hash_iter s.(visited_pcs)) s) reader with
      | (Ok visited_segments, s) =>
          (match (run_reads (block_state_diff enable_stateful_compression alias_contract_address s) reader).1 with
           | Ok state_diff => Ok (state_diff, visited_segments, self.(executor_bouncer))
           | Err e => Err e
           | Panic => Panic
           end, with_state None)
      | (Err e, s) => (Err e, with_state (Some s))
      | (Panic, s) => (Panic, with_state (Some s))
      end
  end.
End block.
