(* ===== verification/ExecutorTheorems.v ===== *)
(** What the transaction executor promises: the transactions of a block are executed as if one
    after the other, whatever the chunks, the workers and their schedules. *)
From S2P Require Import Prelude StarknetApi StateApi CachedState CachedStateProofs VersionedState VersionedProofs.
From S2P Require Import CachedStateSpec Scheduler WorkerLogic ConcurrencySpec ConcurrencyInv ConcurrencyTheorems.
From S2P Require Import TransactionExecutor.

(** ** States that are updated *)

(** What clients of [UpdatableState] rely on: writes that come with the classes that they declare
    are applied, and the state then answers with them. *)
Class UpdatableStateLaws (RunnableCompiledClass S : Type) `{!StateReader RunnableCompiledClass S}
    `{!StateReaderLaws RunnableCompiledClass S} `{!UpdatableState RunnableCompiledClass S} : Prop :=
  apply_writes_stands s σ w cl pcs :
    stands_for s σ → (∀ h b, w.(declared_contracts) !! h = Some b → b = true ∧ is_Some (cl !! h)) →
    ∃ s', apply_writes_to w cl pcs s = Some s' ∧ stands_for s' (overlay w cl σ).

(** A cached state over a coherent reader keeps these promises. *)
Section cached.
Context `{HashOrder} {RunnableCompiledClass : Type} (reader : View RunnableCompiledClass) (Hreader : coherent reader).
#[local] Existing Instance CachedState_reader.
#[local] Existing Instance CachedState_updatable.

#[refine] Definition CachedState_laws
    : @StateReaderLaws RunnableCompiledClass (CachedState RunnableCompiledClass) (CachedState_reader reader) :=
  {| stands_for := λ self σ, cs_ok reader self ∧ ∀ q, cs_view reader self q = σ q |}.
Proof.
  - intros q self σ [Hok Hσ]. rewrite <-Hσ. apply (cached_query_view reader q self Hreader Hok).
  - intros q self σ [Hok Hσ]. destruct (cached_query_view reader q self Hreader Hok) as (_&Hok'&Hv).
    split; [done|]. intros q'. by rewrite <-Hσ.
  - intros self σ σ' Heq [Hok Hσ]. split; [done|]. intros q. by rewrite <-Heq.
Defined.

Lemma CachedState_updatable_laws :
  @UpdatableStateLaws RunnableCompiledClass (CachedState RunnableCompiledClass) (CachedState_reader reader)
    CachedState_laws (CachedState_updatable reader).
Proof.
  intros self σ w cl pcs [Hok Hσ] Hd. destruct (apply_writes_spec reader self w cl pcs Hok Hd) as (self'&Hrun&Hok'&Hv).
  exists self'. unfold apply_writes_to, CachedState_updatable. rewrite Hrun. split; [done|]. split; [done|].
  intros q. rewrite Hv. by apply overlay_ext.
Qed.
End cached.

(** ** Sequential runs in pieces *)

Section pieces.
Context `{HashOrder} `{FeeTokenVar} {RunnableCompiledClass I E B : Type} `{!BlockBouncer RunnableCompiledClass I E B}.
Abbreviation Transaction := (Transaction RunnableCompiledClass I E).
Abbreviation SeqState := (SeqState RunnableCompiledClass I E B).
Abbreviation View := (View RunnableCompiledClass).
Context (block_context : BlockContext).
Implicit Types (σ : View) (st : SeqState) (tx : Transaction) (txs : list Transaction).

(** What [st'] did after [st]. *)
Definition seq_append st st' : SeqState := {|
  seq_maps := StateMaps_extend st.(seq_maps) st'.(seq_maps);
  seq_classes := st'.(seq_classes) ∪ st.(seq_classes);
  seq_bouncer := st'.(seq_bouncer);
  seq_outputs := st.(seq_outputs) ++ st'.(seq_outputs);
|}.

Lemma StateMaps_extend_assoc a b c : StateMaps_extend (StateMaps_extend a b) c = StateMaps_extend a (StateMaps_extend b c).
Proof. unfold StateMaps_extend. cbn. by rewrite !(assoc_L (∪)). Qed.

Lemma StateMaps_extend_default a : StateMaps_extend a StateMaps_default = a.
Proof. destruct a. unfold StateMaps_extend. cbn. by rewrite !(left_id_L ∅ (∪)). Qed.

Lemma seq_append_initial st : seq_append st (seq_initial st.(seq_bouncer)) = st.
Proof.
  destruct st. unfold seq_append. cbn. by rewrite StateMaps_extend_default, (left_id_L ∅ (∪)), app_nil_r.
Qed.

Lemma seq_view_append σ st st' q : seq_view (seq_view σ st) st' q = seq_view σ (seq_append st st') q.
Proof. apply overlay_overlay. Qed.

Lemma seq_write_append st st' o : seq_append st (seq_write st' o) = seq_write (seq_append st st') o.
Proof. unfold seq_append, seq_write. cbn. by rewrite StateMaps_extend_assoc, (assoc_L (∪)). Qed.

Lemma seq_step_append σ st tx st' :
  seq_step block_context σ tx (seq_append st st') =
    fmap (M := option) (fmap (seq_append st)) (seq_step block_context (seq_view σ st) tx st').
Proof.
  unfold seq_step. rewrite <-(run_reads_ext _ _ _ (seq_view_append σ st st')).
  destruct (task_output _) as [o|]; [|done]. cbn. destruct (tx_result o) as [info|e].
  - unfold seq_bounce. rewrite <-seq_write_append, <-(run_reads_ext _ _ _ (seq_view_append σ st _)). cbn [seq_bouncer seq_append].
    destruct (run_reads _ _) as [b|[]|]; try done. unfold seq_pay.
    rewrite <-seq_write_append, <-(run_reads_ext _ _ _ (seq_view_append σ st _)).
    destruct (run_reads _ _) as [[info' w]|]; [|done]. cbn. unfold seq_append. cbn.
    by rewrite !StateMaps_extend_assoc, (assoc_L app).
  - cbn. unfold seq_append. cbn. by rewrite (assoc_L app).
Qed.

Lemma seq_run_append σ st txs st' :
  seq_run block_context σ txs (seq_append st st') = seq_append st <$> seq_run block_context (seq_view σ st) txs st'.
Proof.
  revert st'. induction txs as [|tx txs IH]; intros st'; [done|]. cbn [seq_run]. rewrite seq_step_append.
  destruct (seq_step _ _ _ _) as [[st2|]|]; [|done..]. apply IH.
Qed.

(** A run goes on with the state that it has reached as the initial state. *)
Lemma seq_run_rest σ st txs :
  seq_run block_context σ txs st = seq_append st <$> seq_run block_context (seq_view σ st) txs (seq_initial st.(seq_bouncer)).
Proof. by rewrite <-seq_run_append, seq_append_initial. Qed.

Lemma seq_step_length σ tx st st' :
  seq_step block_context σ tx st = Some (Some st') → length st'.(seq_outputs) = Datatypes.S (length st.(seq_outputs)).
Proof.
  unfold seq_step. destruct (task_output _) as [o|]; [|done]. cbn. destruct (tx_result o) as [info|e].
  - destruct (seq_bounce _ _ _ _ _ _) as [b|[]|]; try done. unfold seq_pay.
    destruct (run_reads _ _) as [[info' w]|]; [|done]. cbn. intros [= <-]. cbn. rewrite length_app. cbn. lia.
  - intros [= <-]. cbn. rewrite length_app. cbn. lia.
Qed.

(** The block is full when there are less outputs than transactions. *)
Lemma seq_run_app σ txs rest st st' :
  seq_run block_context σ txs st = Some st' →
  seq_run block_context σ (txs ++ rest) st =
    if decide (length st'.(seq_outputs) < length st.(seq_outputs) + length txs)%nat then Some st'
    else seq_run block_context σ rest st'.
Proof.
  revert st. induction txs as [|tx txs IH]; intros st; cbn [seq_run app].
  - intros [= ->]. rewrite decide_False; [done|]. cbn. lia.
  - destruct (seq_step _ _ _ _) as [[st2|]|] eqn:Hstep; [|intros [= ->]; cbn; rewrite decide_True; [done|lia]|done].
    intros Hrun. cbn. rewrite (IH st2 Hrun), (seq_step_length _ _ _ _ Hstep). apply decide_ext. cbn. lia.
Qed.

Lemma seq_run_prefix σ txs rest st :
  is_Some (seq_run block_context σ (txs ++ rest) st) → is_Some (seq_run block_context σ txs st).
Proof.
  revert st. induction txs as [|tx txs IH]; intros st; cbn [seq_run app]; [by eexists|].
  destruct (seq_step _ _ _ _) as [[st2|]|]; [apply IH|by eexists|done].
Qed.

(** A run that does not panic has no step that does. *)
Lemma seq_run_step σ txs st n st' tx :
  is_Some (seq_run block_context σ txs st) → seq_steps block_context σ txs st n st' → txs !! N.to_nat n = Some tx →
  is_Some (seq_step block_context σ tx st').
Proof.
  intros Hrun Hsteps Htx. rewrite (seq_steps_run _ _ _ _ _ _ Hsteps), (drop_S _ tx) in Hrun by done.
  cbn [seq_run] in Hrun. destruct (seq_step _ _ _ _); [by eexists|by destruct Hrun].
Qed.

(** ** What the writes of a sequential run keep *)

Context (class_of : N → RunnableCompiledClass) (declares : Prop).

(** The transaction sets the compiled class hashes of classes that it declares, or uses, only. *)
Definition sets_declared tx : Prop :=
  ∀ σ o, (∀ q, valid_answer class_of q (σ q)) → task_output (run_reads (transaction_run tx) σ) = Some o →
    dom o.(out_writes).(compiled_class_hashes) ⊆ dom o.(contract_classes).

(** The transactions of a block. *)
Record block_ok txs : Prop := {
  bo_chunk : chunk_ok class_of declares txs;
  bo_sets tx : tx ∈ txs → sets_declared tx;
}.

Lemma block_ok_app txs rest : block_ok (txs ++ rest) → block_ok txs ∧ block_ok rest.
Proof. intros [H1 H2]. split; split; intros tx Hin; try apply H1; try apply H2; set_solver. Qed.

(** Writes with the classes that they declare. *)
Record maps_ok (w : StateMaps) (cl : gmap N RunnableCompiledClass) : Prop := {
  mo_declared h b : w.(declared_contracts) !! h = Some b → b = true ∧ is_Some (cl !! h);
  mo_classes h c : cl !! h = Some c → c = class_of h;
  mo_compiled : dom w.(compiled_class_hashes) ⊆ dom cl;
}.

Lemma maps_ok_default : maps_ok StateMaps_default ∅.
Proof. split; cbn; [intros ??; by rewrite lookup_empty..|set_solver]. Qed.

Lemma maps_ok_extend w cl w' cl' : maps_ok w cl → maps_ok w' cl' → maps_ok (StateMaps_extend w w') (cl' ∪ cl).
Proof.
  intros [D1 C1 K1] [D2 C2 K2]. split; cbn.
  - intros h b. rewrite lookup_union_Some_raw, lookup_union_is_Some. intros [[? ?]%D2|[_ [? ?]%D1]]; auto.
  - intros h c. rewrite lookup_union_Some_raw. intros [Hc|[_ Hc]]; eauto.
  - rewrite !dom_union_L. set_solver.
Qed.

Lemma InitialLaws_overlay w cl σ : InitialLaws class_of σ → maps_ok w cl → InitialLaws class_of (overlay w cl σ).
Proof.
  intros [Hv Hu] [_ Hc Hk]. split.
  - intros q. specialize (Hv q). destruct q; cbn [overlay]; destruct (_ !! _) eqn:Hl; cbn; eauto.
    left. f_equal. by apply Hc.
  - intros h. cbn. destruct (cl !! h) eqn:Hl; [done|]. cbn. rewrite (not_elem_of_dom_1 (compiled_class_hashes w) h); [apply Hu|].
    intros Hin%Hk. by apply elem_of_dom in Hin as [? ?]; congruence.
Qed.

Lemma task_output_maps_ok tx σ o :
  declares_well class_of declares (tx.(execute_raw) true) → sets_declared tx → (∀ q, valid_answer class_of q (σ q)) →
  task_output (run_reads (transaction_run tx) σ) = Some o → maps_ok o.(out_writes) o.(contract_classes).
Proof.
  intros Hd Hs Hσ Ho. pose proof (Hs σ o Hσ Ho) as Hk. pose proof (program_writes_ok class_of declares _ σ Hd Hσ) as [W1 W2 _].
  unfold transaction_run in Ho. destruct (run_reads _ σ) as [[[info|e]|] self]; cbn in *; [| |done].
  - destruct (cache_to_state_diff (cache self)) as [changes|] eqn:Hc; [|done]. injection Ho as <-.
    apply cache_to_state_diff_ok in Hc as [_ _ _ _ Hc]. split; cbn; [|done..]. intros h b Hb%Hc%W1. tauto.
  - injection Ho as <-. apply maps_ok_default.
Qed.

(** The fee transfer writes cells only. *)
Lemma fee_writes_ok tx_context (info info' : TransactionExecutionInfo I) σ w :
  run_reads (complete_fee_transfer_flow block_context tx_context info) σ = Some (info', w) →
  maps_ok (default StateMaps_default w) ∅.
Proof.
  unfold complete_fee_transfer_flow. destruct (is_sequencer_the_sender _ _); [intros [= _ <-]; apply maps_ok_default|].
  destruct (fee_transfer_call_info info); cycle 1.
  { cbn. destruct (enforce_fee tx_context); [done|]. intros [= _ <-]. apply maps_ok_default. }
  rewrite run_reads_bind. destruct (run_reads (get_fee_token_balance _ _) σ) as [balance|]; [|done]. cbn.
  destruct (fill_sequencer_balance_reads _ _); [|done]. cbn. unfold sequencer_balance_writes.
  destruct balance as [low high]. repeat (case_decide; [done|]).
  destruct (get_sequencer_balance_keys block_context) as [[k1 k2]|]; [|done]. intros [= _ <-].
  split; cbn; [intros ??; by rewrite lookup_empty..|set_solver].
Qed.

Definition seq_ok st : Prop := maps_ok st.(seq_maps) st.(seq_classes).

Lemma seq_step_ok σ tx st st' :
  InitialLaws class_of σ → declares_well class_of declares (tx.(execute_raw) true) → sets_declared tx → seq_ok st →
  seq_step block_context σ tx st = Some (Some st') → seq_ok st'.
Proof.
  intros Hσ Hd Hs Hok. unfold seq_step. destruct (task_output _) as [o|] eqn:Ho; [|done].
  assert (maps_ok o.(out_writes) o.(contract_classes)) as Hmo.
  { eapply task_output_maps_ok; [done..| |done]. by apply (InitialLaws_overlay _ _ _ Hσ Hok). }
  cbn. destruct (tx_result o) as [info|e]; [|by intros [= <-]].
  destruct (seq_bounce _ _ _ _ _ _) as [b|[]|]; try done. unfold seq_pay.
  destruct (run_reads (complete_fee_transfer_flow _ _ _) _) as [[info' w]|] eqn:Hw; [|done]. intros [= <-]. apply fee_writes_ok in Hw. unfold seq_ok. cbn.
  rewrite <-(left_id_L ∅ (∪) (_ ∪ _)). by apply maps_ok_extend; [apply maps_ok_extend|].
Qed.

Lemma seq_run_ok σ txs st st' :
  InitialLaws class_of σ → block_ok txs → seq_ok st → seq_run block_context σ txs st = Some st' → seq_ok st'.
Proof.
  intros Hσ. revert st. induction txs as [|tx txs IH]; intros st Hb Hok; cbn [seq_run]; [by intros [= <-]|].
  destruct (seq_step _ _ _ _) as [[st2|]|] eqn:Hstep; [|by intros [= <-]|done]. cbn.
  destruct (block_ok_app [tx] txs Hb) as [[H1 H2] Hb']. destruct (H1 tx) as [Hd _]; [set_solver|].
  apply IH; [done|]. eapply seq_step_ok; [done..| |done|done]. apply H2. set_solver.
Qed.

Lemma seq_run_initial_ok σ txs bouncer st :
  InitialLaws class_of σ → block_ok txs → seq_run block_context σ txs (seq_initial bouncer) = Some st → seq_ok st.
Proof. intros Hσ Hb. apply seq_run_ok; [done..|apply maps_ok_default]. Qed.

(** There is an output for each transaction that was executed. *)
Lemma seq_run_outputs σ txs st st' :
  seq_run block_context σ txs st = Some st' →
  (length st.(seq_outputs) ≤ length st'.(seq_outputs) ≤ length st.(seq_outputs) + length txs)%nat.
Proof.
  revert st. induction txs as [|tx txs IH]; intros st; cbn [seq_run]; [intros [= ->]; cbn; lia|].
  destruct (seq_step _ _ _ _) as [[st2|]|] eqn:Hstep; [|intros [= ->]; cbn; lia|done]. cbn.
  intros Hrun%IH. rewrite (seq_step_length _ _ _ _ Hstep) in Hrun. lia.
Qed.

Lemma seq_run_none σ txs st st' :
  seq_run block_context σ txs st = Some st' → st'.(seq_outputs) = [] → st' = st.
Proof.
  destruct txs as [|tx txs]; cbn [seq_run]; [by intros [= ->]|].
  destruct (seq_step _ _ _ _) as [[st2|]|] eqn:Hstep; [|by intros [= ->]|done]. cbn.
  intros Hrun%seq_run_outputs Hnil. rewrite (seq_step_length _ _ _ _ Hstep), Hnil in Hrun. cbn in Hrun. lia.
Qed.
End pieces.

(** ** Blocks in chunks *)

Section chunks.
Context `{HashOrder} `{FeeTokenVar} {RunnableCompiledClass S I E B : Type}.
Context `{!StateReader RunnableCompiledClass S} `{!StateReaderLaws RunnableCompiledClass S}.
Context `{!UpdatableState RunnableCompiledClass S} `{!UpdatableStateLaws RunnableCompiledClass S}.
Context `{!BlockBouncer RunnableCompiledClass I E B}.
Abbreviation Transaction := (Transaction RunnableCompiledClass I E).
Abbreviation View := (View RunnableCompiledClass).
Abbreviation Executor := (TransactionExecutor S B).
Abbreviation Results := (list (TransactionExecutorError E + TransactionExecutionInfo I)).
Context (block_context : BlockContext) (class_of : N → RunnableCompiledClass) (declares : Prop).
Abbreviation block_ok := (block_ok class_of declares).
Implicit Types (σ : View) (self : Executor) (txs chunk : list Transaction).

(** When the workers do not panic, as for a chunk ([ConcurrencyInv.quiet]). *)
Record quiet_block σ txs (bouncer : B) : Prop := {
  qb_declares : ¬ declares;
  qb_run tx tr r : tx ∈ txs → ends_with (transaction_run tx) tr r → valid_trace class_of tr → is_Some (task_output r);
  qb_seq : is_Some (seq_run block_context σ txs (seq_initial bouncer));
}.

Lemma quiet_block_chunk σ chunk bouncer :
  chunk ≠ [] → quiet_block σ chunk bouncer → quiet class_of declares σ chunk block_context bouncer.
Proof. intros Hne [Hd Hr Hs]. split; [done..|]. intros n st tx. by apply seq_run_step. Qed.

Lemma quiet_block_prefix σ chunk rest bouncer : quiet_block σ (chunk ++ rest) bouncer → quiet_block σ chunk bouncer.
Proof.
  intros [Hd Hr Hs]. split; [done| |by eapply seq_run_prefix]. intros tx tr r Hin. apply Hr. set_solver.
Qed.

Lemma quiet_block_rest σ chunk rest bouncer st :
  seq_run block_context σ chunk (seq_initial bouncer) = Some st → length st.(seq_outputs) = length chunk →
  quiet_block σ (chunk ++ rest) bouncer → quiet_block (seq_view σ st) rest st.(seq_bouncer).
Proof.
  intros Hrun Hlen [Hd Hr Hs]. split; [done| |].
  - intros tx tr r Hin. apply Hr. set_solver.
  - rewrite (seq_run_app _ _ _ _ _ _ Hrun), decide_False in Hs by (cbn; lia). rewrite seq_run_rest in Hs.
    by apply fmap_is_Some in Hs.
Qed.

(** What comes of executing [txs] on a state that stands for [σ]. *)
Definition executed σ txs self (r : outcome (Results * Executor)) : Prop :=
  match r with
  | Returned (results, self') =>
      ∃ st s, seq_run block_context σ txs (seq_initial self.(executor_bouncer)) = Some st ∧
        results = executor_result ∘ tx_result <$> st.(seq_outputs) ∧
        self' = set_bouncer_and_state st.(seq_bouncer) (Some s) self ∧ stands_for s (seq_view σ st)
  | Panicked => ¬ quiet_block σ txs self.(executor_bouncer)
  | Unfinished => True
  end.

Lemma seq_finish_ok σ txs st bouncer s :
  InitialLaws class_of σ → block_ok txs → stands_for s σ → seq_run block_context σ txs (seq_initial bouncer) = Some st →
  ∃ s', seq_finish st s = Some (tx_result <$> st.(seq_outputs), s') ∧ stands_for s' (seq_view σ st).
Proof.
  intros Hσ Hb Hs Hrun. unfold seq_finish. case_decide as Hnil.
  - exists s. split; [done|]. rewrite (seq_run_none _ _ _ _ _ Hrun Hnil). eapply stands_for_ext; [|done]. by intros [].
  - destruct (apply_writes_stands s σ st.(seq_maps) st.(seq_classes) (foldl add_visited ∅ st.(seq_outputs)) Hs) as (s'&->&Hs').
    { apply (mo_declared class_of). by eapply (seq_run_initial_ok _ class_of declares). }
    by exists s'.
Qed.

Lemma execute_chunk_spec schedule σ self s chunk :
  chunk ≠ [] → self.(executor_config).(n_workers) ≠ 0%nat → self.(block_state) = Some s →
  stands_for s σ → InitialLaws class_of σ → block_ok chunk →
  executed σ chunk self (execute_chunk block_context schedule self chunk).
Proof.
  intros Hne Hn Hbs Hs Hσ Hb. unfold execute_chunk. rewrite Hbs. cbn. unfold join_workers.
  pose proof (workers_sequential class_of declares σ chunk block_context self.(executor_bouncer) (bo_chunk _ _ _ Hb)
    self.(executor_config).(n_workers) s schedule Hs Hn) as Hseq.
  pose proof (λ t w Hq, workers_do_not_panic class_of declares σ chunk block_context self.(executor_bouncer) (bo_chunk _ _ _ Hb)
    self.(executor_config).(n_workers) s schedule t w (quiet_block_chunk _ _ _ Hne Hq) Hs) as Hpanic.
  destruct (run_workers _ _ _ _) as [sh workers]. cbn in *. destruct (existsb _ workers) eqn:Hcrash.
  { intros Hq. apply existsb_exists in Hcrash as (w&[t Hw]%list_elem_of_In%list_elem_of_lookup&Hc). by rewrite (Hpanic t w Hq Hw) in Hc. }
  destruct (forallb _ workers) eqn:Hfin; [|done].
  destruct Hseq as (st&s1&Hrun&Hs1&Hbo&->); [apply Forall_forall; intros w Hw; eapply forallb_forall; [exact Hfin|by apply list_elem_of_In]|].
  destruct (seq_finish_ok σ chunk st _ s1 Hσ Hb Hs1 Hrun) as (s'&->&Hs'). cbn. exists st, s'.
  split; [done|]. split; [by rewrite list_fmap_compose|]. by rewrite Hbo.
Qed.

Lemma execute_chunks_spec schedules σ self s chunks :
  Forall (λ chunk, chunk ≠ []) chunks → self.(executor_config).(n_workers) ≠ 0%nat → self.(block_state) = Some s →
  stands_for s σ → InitialLaws class_of σ → block_ok (concat chunks) →
  executed σ (concat chunks) self (execute_chunks block_context schedules self chunks).
Proof.
  intros Hne. revert schedules σ self s. induction Hne as [|chunk chunks Hc Hne IH]; intros schedules σ self s Hn Hbs Hs Hσ Hb.
  - assert (execute_chunks block_context schedules self [] = Returned ([], self)) as -> by (by destruct schedules).
    exists (seq_initial self.(executor_bouncer)), s. split_and!; [done..|by destruct self; cbn in *; subst|].
    eapply stands_for_ext; [|done]. by intros [].
  - destruct schedules as [|schedule schedules]; [done|]. cbn [concat execute_chunks].
    destruct (block_ok_app _ _ _ _ Hb) as [Hb1 Hb2].
    pose proof (execute_chunk_spec schedule σ self s chunk Hc Hn Hbs Hs Hσ Hb1) as Hchunk.
    destruct (execute_chunk _ _ _ _) as [[results self']| |]; cbn; [|by intros Hq%quiet_block_prefix|done].
    destruct Hchunk as (st&s'&Hrun&->&->&Hs'). pose proof (seq_run_app block_context _ _ (concat chunks) _ _ Hrun) as Happ.
    rewrite length_fmap. cbn in Happ. case_decide; [by exists st, s'|].
    assert (length (seq_outputs st) = length chunk) as Hlen by (apply seq_run_outputs in Hrun; cbn in Hrun; lia).
    assert (InitialLaws class_of (seq_view σ st)) as Hσ'.
    { apply InitialLaws_overlay; [done|]. eapply (seq_run_initial_ok _ class_of declares); [exact Hσ|exact Hb1|exact Hrun]. }
    specialize (IH schedules _ (set_bouncer_and_state st.(seq_bouncer) (Some s') self) s' Hn eq_refl Hs' Hσ' Hb2).
    destruct (execute_chunks _ _ _ _) as [[results2 self2]| |]; cbn in *; [|by intros Hq; eapply IH, quiet_block_rest|done].
    destruct IH as (st2&s2&Hrun2&->&->&Hs2). exists (seq_append st st2), s2. split_and!.
    + rewrite Happ, seq_run_rest, Hrun2. done.
    + cbn. by rewrite fmap_app.
    + done.
    + eapply stands_for_ext; [|done]. intros q. apply seq_view_append.
Qed.

Lemma chunks_of_spec {A} fuel n (l : list A) :
  (0 < n)%nat → (length l ≤ fuel)%nat →
  concat (chunks_of fuel n l) = l ∧ Forall (λ c, c ≠ [] ∧ length c ≤ n)%nat (chunks_of fuel n l).
Proof.
  intros Hn. revert l. induction fuel as [|fuel IH]; intros [|x l] Hl; cbn in *; [by auto|lia|by auto|].
  destruct (IH (drop n (x :: l))) as [Hc Hf]; [rewrite length_drop; cbn; lia|]. split.
  - rewrite Hc. apply take_drop.
  - constructor; [|done]. rewrite length_take. split; [by destruct n; [lia|]|lia].
Qed.

(** C3: a block that is executed concurrently does not depend on the size of the chunks, the number
    of the workers and the order of their steps. When [execute_txs] returns, the results are those
    of executing all the transactions one after the other until one does not fit in the block, as
    are the bouncer and the answers of the block state. It does not panic in a block that declares
    no class, and whose transactions and sequential execution do not panic. *)
Theorem execute_txs_sequential schedules σ self s txs :
  self.(executor_config).(enabled) = true → self.(executor_config).(config_chunk_size) ≠ 0%nat →
  self.(executor_config).(n_workers) ≠ 0%nat → self.(block_state) = Some s → stands_for s σ →
  InitialLaws class_of σ → block_ok txs →
  executed σ txs self (execute_txs block_context schedules self txs).
Proof.
  intros He Hc Hn Hbs Hs Hσ Hb. unfold execute_txs. rewrite He. cbn [negb]. rewrite decide_False by tauto.
  destruct (chunks_of_spec (length txs) self.(executor_config).(config_chunk_size) txs) as [Heq Hf]; [lia..|].
  rewrite <-Heq in Hb |- * at 1. eapply execute_chunks_spec; [|done..]. eapply Forall_impl; [exact Hf|]. by intros chunk [? _].
Qed.
End chunks.

(** ** One transaction after the other *)

Section sequential.
Context `{HashOrder} `{FeeTokenVar} {RunnableCompiledClass S I E B : Type}.
Context `{!StateReader RunnableCompiledClass S} `{!StateReaderLaws RunnableCompiledClass S}.
Context `{!UpdatableState RunnableCompiledClass S} `{!UpdatableStateLaws RunnableCompiledClass S}.
Context `{!BlockBouncer RunnableCompiledClass I E B}.
Abbreviation Transaction := (Transaction RunnableCompiledClass I E).
Abbreviation View := (View RunnableCompiledClass).
Abbreviation Executor := (TransactionExecutor S B).
Abbreviation Error := (TransactionExecutorError E).
Abbreviation Info := (TransactionExecutionInfo I).
Context (class_of : N → RunnableCompiledClass) (declares : Prop).
Implicit Types (σ : View) (self : Executor) (tx : Transaction) (bouncer : B).

(** The specification: a transaction runs in a state of its own over the block state, and changes
    the block state and the bouncer when it succeeds and fits; [None] for a panic. *)
Definition spec_execute tx σ bouncer : option ((Error + Info) * View * B) :=
  let '(result, state) := run_reads (run_program (execute_in_transactional tx bouncer) CachedState_new) σ in
  result ← mjoin result;
  Some match result with
       | inl e => (inl e, σ, bouncer)
       | inr (info, bouncer) => (inr info, cs_view σ state, bouncer)
       end.

Fixpoint spec_sequential (txs : list Transaction) σ bouncer : option (list (Error + Info) * View * B) :=
  match txs with
  | [] => Some ([], σ, bouncer)
  | tx :: txs =>
      '(r, σ, bouncer) ← spec_execute tx σ bouncer;
      match r with
      | inl BlockFull => Some ([], σ, bouncer)
      | _ => '(results, σ, bouncer) ← spec_sequential txs σ bouncer; Some (r :: results, σ, bouncer)
      end
  end.

Lemma program_bind_well {A A'} (p : Program RunnableCompiledClass A) (f : A → Program RunnableCompiledClass A') :
  declares_well class_of declares p → (∀ a, declares_well class_of declares (f a)) →
  declares_well class_of declares (program_bind p f).
Proof.
  revert f. induction p as [A a|A op k IH|A C child IHc commits k IHk]; intros f; cbn; [auto|..]; intros [? Hk] Hf; auto.
Qed.

Lemma program_reads_well {A A'} (m : Reads RunnableCompiledClass A) (f : A → Program RunnableCompiledClass A') :
  (∀ a, declares_well class_of declares (f a)) → declares_well class_of declares (program_reads m f).
Proof. intros Hf. induction m as [a|q k IH]; cbn; auto. Qed.

Lemma execute_in_transactional_well tx bouncer :
  declares_well class_of declares (tx.(execute_raw) false) →
  declares_well class_of declares (execute_in_transactional tx bouncer).
Proof.
  intros Hd. apply program_bind_well; [done|]. intros [info|e]; [|done]. split; [done|]. intros [changes|e]; [|done].
  by apply program_reads_well.
Qed.

(** The block state goes on standing for what it answers. *)
Lemma run_on_state_spec {A} (m : Reads RunnableCompiledClass A) s σ :
  stands_for s σ → ∃ s', run_on_state m s = Returned (run_reads m σ, s') ∧ stands_for s' σ.
Proof.
  revert s. induction m as [a|q k IH]; intros s Hs; cbn; [by exists s|].
  pose proof (read_state_answer q s σ Hs) as Ha. pose proof (read_state_stands q s σ Hs) as Hs'.
  destruct (read_state q s) as [r s']. cbn in *. subst r. destruct (σ q); cbn; by apply IH.
Qed.

Lemma execute_one_spec self s σ tx :
  self.(block_state) = Some s → stands_for s σ → (∀ q, valid_answer class_of q (σ q)) →
  declares_well class_of declares (tx.(execute_raw) false) →
  match spec_execute tx σ self.(executor_bouncer) with
  | None => execute_one self tx = Panicked
  | Some (r, σ', bouncer) => (∀ q, valid_answer class_of q (σ' q)) ∧ ∃ s', stands_for s' σ' ∧
      execute_one self tx = Returned (r, set_bouncer_and_state bouncer (Some s') self)
  end.
Proof.
  intros Hbs Hs Hσ Hd. unfold spec_execute, execute_one. rewrite Hbs. cbn.
  set (m := run_program (execute_in_transactional tx self.(executor_bouncer)) CachedState_new).
  pose proof (program_writes_ok class_of declares _ σ (execute_in_transactional_well tx self.(executor_bouncer) Hd) Hσ) as Hw.
  fold m in Hw. destruct (run_on_state_spec m s σ Hs) as (s'&->&Hs'). cbn.
  destruct (run_reads m σ) as [result state]. cbn in *. destruct (mjoin result) as [[e|[info bouncer]]|]; cbn; [by eauto| |done].
  destruct Hw as [Hwd Hwc _]. split.
  - intros q. specialize (Hσ q). unfold cs_view. destruct q; cbn [overlay]; destruct (_ !! _) eqn:Hl; cbn; eauto.
    left. f_equal. by apply Hwc.
  - destruct (apply_writes_stands s' σ state.(cache).(writes) state.(class_hash_to_class) state.(visited_pcs) Hs') as (s2&->&Hs2); [|by eauto].
    intros h b Hb. destruct (Hwd h b Hb) as (?&?&_). done.
Qed.

(** C13: executing transactions one after the other is atomic for each of them: the results, the
    bouncer and the block state are those of the specification, in which a transaction that fails
    or does not fit changes neither the state nor the bouncer, one that succeeds changes both, and
    the block ends at the first one that does not fit. What the block state caches on the way
    never shows, and the executor panics just when the specification does. *)
Theorem sequential_refines self s σ (txs : list Transaction) :
  self.(block_state) = Some s → stands_for s σ → (∀ q, valid_answer class_of q (σ q)) →
  Forall (λ tx, declares_well class_of declares (tx.(execute_raw) false)) txs →
  match spec_sequential txs σ self.(executor_bouncer) with
  | None => execute_txs_sequentially self txs = Panicked
  | Some (results, σ', bouncer) => ∃ s', stands_for s' σ' ∧
      execute_txs_sequentially self txs = Returned (results, set_bouncer_and_state bouncer (Some s') self)
  end.
Proof.
  intros Hbs Hs Hσ Htxs. revert self s σ Hbs Hs Hσ.
  induction Htxs as [|tx txs Hd Htxs IH]; intros self s σ Hbs Hs Hσ; cbn [spec_sequential execute_txs_sequentially].
  - exists s. split; [done|]. cbn. destruct self. cbn in *. by subst.
  - pose proof (execute_one_spec self s σ tx Hbs Hs Hσ Hd) as Hone.
    destruct (spec_execute tx σ _) as [[[r σ'] bouncer]|]; cbn; [|by rewrite Hone].
    destruct Hone as (Hσ'&s'&Hs'&->). cbn.
    specialize (IH (set_bouncer_and_state bouncer (Some s') self) s' σ' eq_refl Hs' Hσ'). cbn in IH.
    destruct r as [[| |]|info]; [by eauto|..];
      (destruct (spec_sequential txs σ' bouncer) as [[[results σ2] bouncer2]|]; cbn;
       [destruct IH as (s2&Hs2&->); by eauto|by rewrite IH]).
Qed.
End sequential.

(** ** A block *)

Module Block.
Import Scenario.
#[local] Existing Instance canonical_order.

Definition reader : View N := cells StateMaps_default.

Lemma reader_coherent : coherent reader.
Proof. by intros h h' [= ->]. Qed.

#[export] Instance block_reader : StateReader N (CachedState N) := CachedState_reader reader.
#[export] Instance block_updatable : UpdatableState N (CachedState N) := CachedState_updatable reader.
#[export] Instance block_laws : StateReaderLaws N (CachedState N) := CachedState_laws reader reader_coherent.
#[export] Instance block_updatable_laws : UpdatableStateLaws N (CachedState N) :=
  CachedState_updatable_laws reader reader_coherent.

(** Four transactions, of which three fit in the block, in chunks of two. *)
Definition txs : list (Transaction N unit unit) := [increment 5 10; increment 5 20; increment 5 30; increment 5 40].

Definition executor (concurrent : bool) : TransactionExecutor (CachedState N) N :=
  TransactionExecutor_new CachedState_new 0 {| enabled := concurrent; n_workers := 2; config_chunk_size := 2 |}.

Lemma stands_for_new : stands_for CachedState_new reader.
Proof. split; [apply cs_ok_new|apply cs_view_new]. Qed.

Lemma increment_block_ok tx : tx ∈ txs → ∃ fee, tx = increment 5 fee.
Proof. unfold txs. rewrite !elem_of_cons, elem_of_nil. naive_solver. Qed.

Lemma txs_ok : block_ok (λ h, h) False txs.
Proof.
  split.
  - intros tx [fee ->]%increment_block_ok. by apply increment_ok.
  - intros tx [fee ->]%increment_block_ok σ o Hσ.
    let run := eval vm_compute in (transaction_run (increment 5 fee)) in change (transaction_run (increment 5 fee)) with run.
    cbn [run_reads]. destruct (Hσ (GetStorageAt 1 5)) as [v ->]. intros [= <-]. vm_compute. by intros [].
Qed.

Lemma execute_txs_sequential_witness :
  ∃ results self, execute_txs block_context [turns 80; turns 80] (executor true) txs = Returned (results, self) ∧
    length results = 3%nat ∧
    executed block_context (λ h, h) False reader txs (executor true) (Returned (results, self)).
Proof.
  pose proof (execute_txs_sequential block_context (λ h, h) False [turns 80; turns 80] reader (executor true) CachedState_new txs
    eq_refl ltac:(done) ltac:(done) eq_refl stands_for_new cells_initial txs_ok) as Hex.
  assert (length (match execute_txs block_context [turns 80; turns 80] (executor true) txs with
                  | Returned r => r.1 | _ => [] end) = 3%nat) as Hlen by (by vm_compute).
  destruct (execute_txs _ _ _ _) as [[results self]| |]; [|done..]. by exists results, self.
Defined.

Lemma sequential_refines_witness :
  match spec_sequential txs reader 0 with
  | None => execute_txs_sequentially (executor false) txs = Panicked
  | Some (results, σ', bouncer) => ∃ s', stands_for s' σ' ∧
      execute_txs_sequentially (executor false) txs = Returned (results, set_bouncer_and_state bouncer (Some s') (executor false))
  end.
Proof.
  apply (sequential_refines (λ h, h) False (executor false) CachedState_new reader txs eq_refl stands_for_new).
  - apply (initial_valid (λ h, h) reader).
  - repeat (constructor; [by split; [|intros []]|]). constructor.
Defined.
End Block.
