(* ===== verification/FeeMarket.v ===== *)
(** The base gas price of the next block:
    [crates/sequencing/papyrus_consensus_orchestrator/src/fee_market/mod.rs]. [None] is a panic: an
    assertion that fails or an arithmetic overflow. *)
From S2P Require Import Prelude StarknetApi.

Definition GAS_PRICE_MAX_CHANGE_DENOMINATOR : N := 48.
Definition MIN_GAS_PRICE : N := 100000.
Definition MAX_BLOCK_SIZE : N := 4000000000.

Definition abs_diff (a b : N) : N := if decide (a ≤ b) then b - a else a - b.

(** [u64::try_from]. *)
Definition u64_try_from (x : N) : option N := if decide (x ≤ u64_max) then Some x else None.

Definition calculate_next_base_gas_price (price gas_used gas_target : N) : option N :=
  if decide (gas_target ≠ MAX_BLOCK_SIZE / 2) then None else
  if decide (price < MIN_GAS_PRICE) then None else
  let gas_delta := abs_diff gas_used gas_target in
  gas_delta_cost ← checked_mul u128_max price gas_delta;
  let price_change_u128 := gas_delta_cost / gas_target / GAS_PRICE_MAX_CHANGE_DENOMINATOR in
  price_change ← u64_try_from price_change_u128;
  adjusted_price ← (if decide (gas_target < gas_used) then checked_add u64_max price price_change
                    else checked_sub price price_change);
  if decide ((gas_target < gas_used ∧ price ≤ adjusted_price) ∨ (gas_used ≤ gas_target ∧ adjusted_price ≤ price))
  then Some (N.max adjusted_price MIN_GAS_PRICE) else None.

(** ** The change of the price *)

(** How much the price changes when [gas_used] is [delta] away from the target. *)
Definition price_change (price delta : N) : N := price * delta / (MAX_BLOCK_SIZE / 2) / GAS_PRICE_MAX_CHANGE_DENOMINATOR.

Lemma price_change_bound price delta :
  delta ≤ MAX_BLOCK_SIZE / 2 → GAS_PRICE_MAX_CHANGE_DENOMINATOR * price_change price delta ≤ price.
Proof.
  intros Hd. unfold price_change. etrans; [apply N.Div0.mul_div_le|].
  etrans; [apply N.Div0.div_le_mono, (N.mul_le_mono_l _ (MAX_BLOCK_SIZE / 2)), Hd|]. by rewrite N.div_mul.
Qed.

Lemma price_change_mono price delta delta' : delta ≤ delta' → price_change price delta ≤ price_change price delta'.
Proof. intros Hd. unfold price_change. by do 2 apply N.Div0.div_le_mono; apply N.mul_le_mono_l. Qed.

Lemma next_price_spec price gas_used :
  MIN_GAS_PRICE ≤ price → (GAS_PRICE_MAX_CHANGE_DENOMINATOR + 1) * price ≤ GAS_PRICE_MAX_CHANGE_DENOMINATOR * u64_max →
  gas_used ≤ MAX_BLOCK_SIZE →
  calculate_next_base_gas_price price gas_used (MAX_BLOCK_SIZE / 2) =
    Some (N.max (if decide (MAX_BLOCK_SIZE / 2 < gas_used) then price + price_change price (gas_used - MAX_BLOCK_SIZE / 2)
                 else price - price_change price (MAX_BLOCK_SIZE / 2 - gas_used)) MIN_GAS_PRICE).
Proof.
  intros Hmin Hmax Hused. unfold calculate_next_base_gas_price. rewrite decide_False, decide_False by (unfold MIN_GAS_PRICE in *; lia || tauto).
  assert (abs_diff gas_used (MAX_BLOCK_SIZE / 2) ≤ MAX_BLOCK_SIZE / 2) as Hd.
  { change (MAX_BLOCK_SIZE / 2) with 2000000000. unfold abs_diff, MAX_BLOCK_SIZE in *. case_decide; lia. }
  pose proof (price_change_bound price _ Hd) as Hc. unfold GAS_PRICE_MAX_CHANGE_DENOMINATOR in Hc, Hmax.
  assert (price ≤ u64_max) as Hp by lia.
  unfold checked_mul. rewrite decide_True; cycle 1.
  { etrans; [apply (N.mul_le_mono _ _ _ _ Hp Hd)|]. by vm_compute. }
  cbn [mbind option_bind]. fold (price_change price (abs_diff gas_used (MAX_BLOCK_SIZE / 2))).
  unfold u64_try_from. rewrite decide_True by lia. cbn [mbind option_bind]. unfold abs_diff in *.
  destruct (decide (MAX_BLOCK_SIZE / 2 < gas_used)) as [Hlt|Hge].
  - rewrite decide_False in * by lia. unfold checked_add. rewrite decide_True by lia. cbn [mbind option_bind].
    by rewrite decide_True by (left; lia).
  - rewrite decide_True in * by lia. unfold checked_sub. rewrite decide_True by lia. cbn [mbind option_bind].
    by rewrite decide_True by (right; lia).
Qed.

(** The base gas price of the next block is computed without overflow up to the largest price for
    which the sum fits, in blocks within the size limit. It is never below the minimum, it changes
    by at most one part in 48, up when the block used more than the target and down when it used
    less, and it grows with the gas that was used. *)
Theorem next_price_bounded price gas_used gas_used' :
  MIN_GAS_PRICE ≤ price → (GAS_PRICE_MAX_CHANGE_DENOMINATOR + 1) * price ≤ GAS_PRICE_MAX_CHANGE_DENOMINATOR * u64_max →
  gas_used ≤ gas_used' → gas_used' ≤ MAX_BLOCK_SIZE →
  ∃ next next', calculate_next_base_gas_price price gas_used (MAX_BLOCK_SIZE / 2) = Some next ∧
    calculate_next_base_gas_price price gas_used' (MAX_BLOCK_SIZE / 2) = Some next' ∧
    MIN_GAS_PRICE ≤ next ≤ u64_max ∧ next ≤ next' ∧
    GAS_PRICE_MAX_CHANGE_DENOMINATOR * abs_diff next price ≤ price ∧
    (MAX_BLOCK_SIZE / 2 ≤ gas_used → price ≤ next) ∧ (gas_used ≤ MAX_BLOCK_SIZE / 2 → next ≤ price).
Proof.
  intros Hmin Hmax Hle Hused. do 2 eexists. split; [apply next_price_spec; [done..|lia]|].
  split; [by apply next_price_spec|].
  assert (∀ g, g ≤ MAX_BLOCK_SIZE → MAX_BLOCK_SIZE / 2 < g → g - MAX_BLOCK_SIZE / 2 ≤ MAX_BLOCK_SIZE / 2) as Hd.
  { change (MAX_BLOCK_SIZE / 2) with 2000000000. unfold MAX_BLOCK_SIZE. lia. }
  pose proof (λ H1 H2, price_change_bound price _ (Hd gas_used H1 H2)) as Hup.
  pose proof (price_change_bound price (MAX_BLOCK_SIZE / 2 - gas_used) (N.le_sub_l _ _)) as Hdown.
  pose proof (price_change_mono price (gas_used - MAX_BLOCK_SIZE / 2) (gas_used' - MAX_BLOCK_SIZE / 2) (N.sub_le_mono_r _ _ _ Hle)) as Hm1.
  pose proof (price_change_mono price (MAX_BLOCK_SIZE / 2 - gas_used') (MAX_BLOCK_SIZE / 2 - gas_used) (N.sub_le_mono_l _ _ _ Hle)) as Hm2.
  assert (price_change price 0 = 0) as Hzero by (unfold price_change; by rewrite N.mul_0_r).
  assert (gas_used = MAX_BLOCK_SIZE / 2 → price_change price (MAX_BLOCK_SIZE / 2 - gas_used) = 0) as Heq.
  { intros ->. by rewrite N.sub_diag. }
  set (target := MAX_BLOCK_SIZE / 2) in *. set (size := MAX_BLOCK_SIZE) in *. clearbody target size.
  unfold GAS_PRICE_MAX_CHANGE_DENOMINATOR, abs_diff, MIN_GAS_PRICE, u64_max in *.
  destruct (decide (target < gas_used)) as [Hlt|Hge]; [specialize (Hup ltac:(lia) Hlt)|clear Hup].
  - clear Heq. repeat case_decide; lia.
  - destruct (decide (gas_used = target)) as [He|He]; [specialize (Heq He)|clear Heq]; repeat case_decide; lia.
Qed.

Lemma next_price_bounded_witness :
  ∃ next next', calculate_next_base_gas_price 1000000 1000000000 (MAX_BLOCK_SIZE / 2) = Some next ∧
    calculate_next_base_gas_price 1000000 3000000000 (MAX_BLOCK_SIZE / 2) = Some next' ∧
    MIN_GAS_PRICE ≤ next ≤ u64_max ∧ next ≤ next' ∧
    GAS_PRICE_MAX_CHANGE_DENOMINATOR * abs_diff next 1000000 ≤ 1000000 ∧
    (MAX_BLOCK_SIZE / 2 ≤ 1000000000 → 1000000 ≤ next) ∧ (1000000000 ≤ MAX_BLOCK_SIZE / 2 → next ≤ 1000000).
Proof. apply (next_price_bounded 1000000 1000000000 3000000000); by vm_compute. Defined.
