(* ===== verification/L1Provider.v ===== *)
(** The provider of messages from L1: [crates/starknet_l1_provider/src/lib.rs].

    The methods that are not implemented yet ([todo!]) are left out. An [IndexMap] is the list of
    its entries in the order of insertion, an [IndexSet] the list of its elements. *)
From S2P Require Import Prelude StarknetApi.

Record L1HandlerTransaction := {
  l1_version : N;
  l1_nonce : N;
  l1_contract_address : N;
  l1_entry_point_selector : N;
  l1_calldata : list N;
  l1_tx_hash : N;
  l1_paid_fee : N;
}.

Inductive ValidationStatus := Validated | AlreadyIncludedOnL2 | ConsumedOnL1OrUnknown.

#[global] Instance ValidationStatus_eq_dec : EqDecision ValidationStatus.
Proof. solve_decision. Defined.

Inductive ProviderState := Pending | Propose | Uninitialized | Validate.

Inductive L1ProviderError :=
| GetTransactionsInPendingState
| GetTransactionConsensusBug
| UnexpectedProviderStateTransition (from to : ProviderState)
| ValidateInPendingState
| ValidateTransactionConsensusBug.

Definition transition_to_propose (self : ProviderState) : result L1ProviderError ProviderState :=
  match self with
  | Pending => Ok Propose
  | _ => Err (UnexpectedProviderStateTransition self Propose)
  end.

Definition transition_to_validate (self : ProviderState) : result L1ProviderError ProviderState :=
  match self with
  | Pending => Ok Validate
  | _ => Err (UnexpectedProviderStateTransition self Validate)
  end.

(** [IndexSet::insert] and [extend]. *)
Definition index_set_insert (s : list N) (x : N) : list N := if decide (x ∈ s) then s else s ++ [x].
Definition index_set_extend (s xs : list N) : list N := foldl index_set_insert s xs.

Record TransactionManager := {
  l1_txs : list (N * L1HandlerTransaction);
  proposed_txs : list N;
  on_l2_awaiting_l1_consumption : list N;
}.

Definition manager_get_txs (n_txs : N) (self : TransactionManager) : list L1HandlerTransaction * TransactionManager :=
  let chosen := take (N.to_nat n_txs) (drop (length self.(proposed_txs)) self.(l1_txs)) in
  (chosen.*2,
   {| l1_txs := self.(l1_txs); proposed_txs := index_set_extend self.(proposed_txs) chosen.*1;
      on_l2_awaiting_l1_consumption := self.(on_l2_awaiting_l1_consumption) |}).

Definition tx_status (tx_hash : N) (self : TransactionManager) : ValidationStatus :=
  if decide (tx_hash ∈ self.(l1_txs).*1) then Validated else
  if decide (tx_hash ∈ self.(on_l2_awaiting_l1_consumption)) then AlreadyIncludedOnL2
  else ConsumedOnL1OrUnknown.

Record L1Provider := {
  tx_manager : TransactionManager;
  provider_state : ProviderState;
}.

Definition create_l1_provider : L1Provider :=
  {| tx_manager := {| l1_txs := []; proposed_txs := []; on_l2_awaiting_l1_consumption := [] |}; provider_state := Propose |}.

Abbreviation L1ProviderM := (M L1Provider L1ProviderError).

Definition l1_get_txs (n_txs : N) : L1ProviderM (list L1HandlerTransaction) := λ self,
  match self.(provider_state) with
  | Propose =>
      let '(txs, manager) := manager_get_txs n_txs self.(tx_manager) in
      (Ok txs, {| tx_manager := manager; provider_state := self.(provider_state) |})
  | Pending => (Err GetTransactionsInPendingState, self)
  | Validate => (Err GetTransactionConsensusBug, self)
  | Uninitialized => (Panic, self)
  end.

Definition l1_validate (tx_hash : N) : L1ProviderM ValidationStatus := λ self,
  (match self.(provider_state) with
   | Validate => Ok (tx_status tx_hash self.(tx_manager))
   | Propose => Err ValidateTransactionConsensusBug
   | Pending => Err ValidateInPendingState
   | Uninitialized => Panic
   end, self).

Definition set_provider_state (r : result L1ProviderError ProviderState) : L1ProviderM unit := λ self,
  match r with
  | Ok s => (Ok tt, {| tx_manager := self.(tx_manager); provider_state := s |})
  | Err e => (Err e, self)
  | Panic => (Panic, self)
  end.

Definition validation_start : L1ProviderM unit := λ self,
  set_provider_state (transition_to_validate self.(provider_state)) self.

Definition proposal_start : L1ProviderM unit := λ self,
  set_provider_state (transition_to_propose self.(provider_state)) self.

(** ** Transactions are proposed once, in their order *)

(** An [IndexMap] has distinct keys; what was proposed is a prefix of it. *)
Definition manager_ok (self : TransactionManager) : Prop :=
  NoDup self.(l1_txs).*1 ∧ self.(proposed_txs) = take (length self.(proposed_txs)) self.(l1_txs).*1.

Lemma index_set_extend_fresh s xs : NoDup (s ++ xs) → index_set_extend s xs = s ++ xs.
Proof.
  revert s. induction xs as [|x xs IH]; intros s Hd; cbn; [by rewrite app_nil_r|].
  unfold index_set_insert at 2. rewrite decide_False; cycle 1.
  { intros Hin. apply NoDup_app in Hd as (_&Hn&_). apply (Hn x Hin). left. }
  rewrite IH; by rewrite <-(assoc_L app).
Qed.

Lemma manager_get_txs_spec n self :
  manager_ok self →
  let '(txs, self') := manager_get_txs n self in
  txs = (take (N.to_nat n) (drop (length self.(proposed_txs)) self.(l1_txs))).*2 ∧ manager_ok self' ∧
  self'.(l1_txs) = self.(l1_txs) ∧ length self'.(proposed_txs) = (length self.(proposed_txs) + length txs)%nat.
Proof.
  intros [Hd Hp]. cbn. set (k := length self.(proposed_txs)) in *.
  assert (self.(proposed_txs) ++ (take (N.to_nat n) (drop k self.(l1_txs))).*1 = take (k + N.to_nat n) self.(l1_txs).*1) as Happ.
  { rewrite Hp. fold k. rewrite fmap_take, fmap_drop. apply take_take_drop. }
  rewrite index_set_extend_fresh; [|rewrite Happ; by eapply sublist_NoDup; [|apply sublist_take]].
  split; [done|]. split; [split; [done|]|split; [done|]]; cbn.
  - rewrite Happ, length_take. destruct (decide (k + N.to_nat n ≤ length (l1_txs self).*1)%nat).
    + by rewrite Nat.min_l by done.
    + by rewrite Nat.min_r, firstn_all, take_ge by lia.
  - by rewrite length_app, !length_fmap.
Qed.

(** The answers to a sequence of requests. *)
Fixpoint l1_get_all (requests : list N) : L1ProviderM (list L1HandlerTransaction) :=
  match requests with
  | [] => mret []
  | n :: requests => txs ← l1_get_txs n; rest ← l1_get_all requests; mret (txs ++ rest)
  end.

Definition sum_requests (requests : list N) : nat := foldr (λ n m, N.to_nat n + m)%nat 0%nat requests.

(** While the provider proposes, its requests are answered with the transactions in the order in
    which they arrived, starting after those that were proposed before: none is skipped and none
    is proposed twice, whatever the sizes of the requests. *)
Theorem l1_txs_proposed_once self requests :
  self.(provider_state) = Propose → manager_ok self.(tx_manager) →
  (l1_get_all requests self).1 =
    Ok (take (sum_requests requests) (drop (length self.(tx_manager).(proposed_txs)) self.(tx_manager).(l1_txs))).*2.
Proof.
  revert self. induction requests as [|n requests IH]; intros self Hp Hok; [done|]. cbn [l1_get_all].
  unfold mbind, M_bind, l1_get_txs. rewrite Hp. pose proof (manager_get_txs_spec n self.(tx_manager) Hok) as Hspec.
  destruct (manager_get_txs n (tx_manager self)) as [txs manager]. destruct Hspec as (->&Hok'&Htxs&Hlen).
  specialize (IH {| tx_manager := manager; provider_state := Propose |} eq_refl Hok'). cbn in IH.
  destruct (l1_get_all requests _) as [r self']. cbn in IH. subst r. cbn. f_equal.
  rewrite <-fmap_app. f_equal. rewrite Htxs, Hlen, length_fmap, <-drop_drop.
  set (l := drop _ (l1_txs (tx_manager self))). rewrite <-take_take_drop. f_equal.
  rewrite length_take. destruct (decide (N.to_nat n ≤ length l)%nat); [by rewrite Nat.min_l by lia|].
  rewrite !drop_ge by lia. by rewrite !take_nil.
Qed.

Module L1Example.
Definition message (hash : N) : L1HandlerTransaction :=
  {| l1_version := 0; l1_nonce := hash; l1_contract_address := 1; l1_entry_point_selector := 2; l1_calldata := [3];
     l1_tx_hash := hash; l1_paid_fee := 1 |}.

Definition provider : L1Provider := {|
  tx_manager := {| l1_txs := [(10, message 10); (11, message 11); (12, message 12); (13, message 13)];
                   proposed_txs := [10]; on_l2_awaiting_l1_consumption := [] |};
  provider_state := Propose;
|}.

Lemma l1_txs_proposed_once_witness : (l1_get_all [1; 0; 5] provider).1 = Ok [message 11; message 12; message 13].
Proof.
  apply (l1_txs_proposed_once provider [1; 0; 5]); [done|]. split; [|done]. apply (bool_decide_unpack _). by vm_compute.
Defined.
End L1Example.
