(* ===== verification/BlockBuilder.v ===== *)
(** How the batcher builds a block: [crates/starknet_batcher/src/block_builder.rs],
    [transaction_provider.rs] and [transaction_executor.rs].

    The clients of the mempool and of the L1 provider are an interface ([ProviderClients]), and so
    is the executor ([BlockExecutor]). The builder runs beside the rest of the system: what it
    sees at each iteration of its loop, the clock, the abort signal and what others did meanwhile,
    is an input ([Moment]). *)
From S2P Require Import Prelude StarknetApi L1Provider StateApi VersionedState WorkerLogic TransactionExecutor.

(** [starknet_api::executable_transaction::Transaction]. *)
Inductive ExecutableTransaction :=
| Account (tx : AccountTransaction)
| L1Handler (tx : L1HandlerTransaction).

Definition executable_tx_hash (self : ExecutableTransaction) : N :=
  match self with
  | Account tx => AccountTransaction_tx_hash tx
  | L1Handler tx => tx.(l1_tx_hash)
  end.

(** ** Transaction providers *)

Inductive NextTxs :=
| Txs (txs : list ExecutableTransaction)
| End_.

(** [ME] and [LE] are the errors of the clients. *)
Inductive TransactionProviderError (ME LE : Type) :=
| MempoolError (e : ME)
| L1HandlerTransactionValidationFailed (tx_hash : N)
| L1ProviderClientError (e : LE).
Arguments MempoolError {ME LE} e.
Arguments L1HandlerTransactionValidationFailed {ME LE} tx_hash.
Arguments L1ProviderClientError {ME LE} e.

(** The clients, on the state of the rest of the system. *)
Class ProviderClients (Env ME LE : Type) := {
  mempool_client_get_txs : N → M Env ME (list AccountTransaction);
  l1_client_get_txs : N → M Env LE (list L1HandlerTransaction);
  l1_client_validate : N → M Env LE ValidationStatus;
}.

(** What the provider relies on: no more transactions than were asked for. *)
Class ProviderClientsLaws (Env ME LE : Type) `{!ProviderClients Env ME LE} : Prop := {
  mempool_client_at_most n env txs env' :
    mempool_client_get_txs n env = (Ok txs, env') → N.of_nat (length txs) ≤ n;
  l1_client_at_most n env txs env' : l1_client_get_txs n env = (Ok txs, env') → N.of_nat (length txs) ≤ n;
}.

Inductive TxProviderPhase := L1Phase | MempoolPhase.

Record ProposeTransactionProvider := {
  max_l1_handler_txs_per_block : N;
  phase : TxProviderPhase;
  n_l1handler_txs_so_far : N;
}.

Definition ProposeTransactionProvider_new (max_l1_handler_txs_per_block : N) : ProposeTransactionProvider :=
  {| max_l1_handler_txs_per_block := max_l1_handler_txs_per_block; phase := L1Phase; n_l1handler_txs_so_far := 0 |}.

Section providers.
Context {Env ME LE : Type} `{!ProviderClients Env ME LE}.
Abbreviation ProviderError := (TransactionProviderError ME LE).
Abbreviation ProposeM := (M (ProposeTransactionProvider * Env) ProviderError).

(** A call to a client, whose error is wrapped. *)
Definition call {P X A} (wrap : X → ProviderError) (m : M Env X A) : M (P * Env) ProviderError A := λ '(self, env),
  match m env with
  | (Ok a, env) => (Ok a, (self, env))
  | (Err e, env) => (Err (wrap e), (self, env))
  | (Panic, env) => (Panic, (self, env))
  end.

Definition get_l1_handler_txs (n_txs : N) : ProposeM (list ExecutableTransaction) :=
  txs ← call L1ProviderClientError (l1_client_get_txs n_txs);
  mret (L1Handler <$> txs).

Definition get_mempool_txs (n_txs : N) : ProposeM (list ExecutableTransaction) :=
  txs ← call MempoolError (mempool_client_get_txs n_txs);
  mret (Account <$> txs).

(** The part of [get_txs] for messages from L1. *)
Definition get_txs_l1_phase (n_txs : N) : ProposeM (list ExecutableTransaction) :=
  self ← gets fst;
  room ← expect (checked_sub self.(max_l1_handler_txs_per_block) self.(n_l1handler_txs_so_far));
  let n_l1handler_txs_to_get := N.min room n_txs in
  l1handler_txs ← get_l1_handler_txs n_l1handler_txs_to_get;
  so_far ← expect (checked_add u64_max self.(n_l1handler_txs_so_far) (N.of_nat (length l1handler_txs)));
  let no_more_l1handler_in_provider := bool_decide (N.of_nat (length l1handler_txs) < n_l1handler_txs_to_get) in
  let reached_max_l1handler_txs_in_block := bool_decide (so_far = self.(max_l1_handler_txs_per_block)) in
  modify (λ s, ({| max_l1_handler_txs_per_block := self.(max_l1_handler_txs_per_block);
                   phase := if no_more_l1handler_in_provider || reached_max_l1handler_txs_in_block then MempoolPhase
                            else self.(phase);
                   n_l1handler_txs_so_far := so_far |}, s.2));;
  mret l1handler_txs.

Definition propose_get_txs (n_txs : N) : ProposeM NextTxs :=
  assert_ (bool_decide (0 < n_txs));;
  self ← gets fst;
  txs ← (match self.(phase) with L1Phase => get_txs_l1_phase n_txs | MempoolPhase => mret [] end);
  if decide (N.of_nat (length txs) = n_txs) then mret (Txs txs) else
  n_mempool ← expect (checked_sub n_txs (N.of_nat (length txs)));
  mempool_txs ← get_mempool_txs n_mempool;
  mret (Txs (txs ++ mempool_txs)).

(** A channel: the messages that were not received yet, and whether the sender was dropped. *)
Record Channel := { queued : list ExecutableTransaction; sender_dropped : bool }.

(** [recv_many]; [None] when it waits. *)
Definition recv_many (n : N) (ch : Channel) : option (list ExecutableTransaction * Channel) :=
  if decide (ch.(queued) = [] ∧ ch.(sender_dropped) = false) then None
  else Some (take (N.to_nat n) ch.(queued),
             {| queued := drop (N.to_nat n) ch.(queued); sender_dropped := ch.(sender_dropped) |}).

(** The messages from L1 among the transactions must be valid. *)
Definition validate_l1_handlers (buffer : list ExecutableTransaction) : M (Channel * Env) ProviderError unit :=
  mfor (λ tx, match tx with
              | Account _ => mret tt
              | L1Handler tx =>
                  status ← call L1ProviderClientError (l1_client_validate tx.(l1_tx_hash));
                  if decide (status = Validated) then mret tt
                  else throw (L1HandlerTransactionValidationFailed tx.(l1_tx_hash))
              end) buffer.

(** [None] when it waits for transactions. *)
Definition validate_get_txs (n_txs : N) (self : Channel * Env) : option (result ProviderError NextTxs * (Channel * Env)) :=
  if decide (n_txs = 0) then Some (Panic, self) else
  '(buffer, ch) ← recv_many n_txs self.1;
  if decide (buffer = []) then Some (Ok End_, (ch, self.2)) else
  Some ((validate_l1_handlers buffer;; mret (Txs buffer)) (ch, self.2)).
End providers.

(** A [TransactionProvider]; [None] when it waits. *)
Class TransactionProvider (P PE : Type) := provider_get_txs : N → P → option (result PE NextTxs * P).

#[global] Instance propose_provider {Env ME LE} `{!ProviderClients Env ME LE}
  : TransactionProvider (ProposeTransactionProvider * Env) (TransactionProviderError ME LE) :=
  λ n self, Some (propose_get_txs n self).

#[global] Instance validate_provider {Env ME LE} `{!ProviderClients Env ME LE}
  : TransactionProvider (Channel * Env) (TransactionProviderError ME LE) := validate_get_txs.

(** ** The builder *)

(** [TransactionExecutorTrait]: [D] is what closing the block yields. *)
Class BlockExecutor (X T I E D : Type) := {
  add_txs_to_block : list T → X → outcome (list (TransactionExecutorError E + TransactionExecutionInfo I) * X);
  close_block : X → result (TransactionExecutorError E) D * X;
}.

Inductive FailOnErrorCause (E : Type) :=
| FailBlockFull
| DeadlineReached
| TransactionFailed (e : TransactionExecutorError E).
Arguments FailBlockFull {E}.
Arguments DeadlineReached {E}.
Arguments TransactionFailed {E} e.

Inductive BlockBuilderError (E PE : Type) :=
| BlockifierStateError (e : StateError)
| ExecutorError (e : TransactionExecutorError E)
| GetTransactionError (e : PE)
| StreamTransactionsError (tx : ExecutableTransaction)
| FailOnError (cause : FailOnErrorCause E)
| Aborted.
Arguments BlockifierStateError {E PE} e.
Arguments ExecutorError {E PE} e.
Arguments GetTransactionError {E PE} e.
Arguments StreamTransactionsError {E PE} tx.
Arguments FailOnError {E PE} cause.
Arguments Aborted {E PE}.

Record BlockExecutionArtifacts (I D : Type) := {
  execution_infos : list (N * TransactionExecutionInfo I);
  block_result : D;
  l2_gas_used : N;
}.
Arguments execution_infos {I D}.
Arguments block_result {I D}.
Arguments l2_gas_used {I D}.

(** The executor of the blockifier, with the schedules of its runs to come. *)
Definition blockifier_executor `{HashOrder} `{FeeTokenVar} {RunnableCompiledClass S I E B D : Type}
    `{!StateReader RunnableCompiledClass S} `{!UpdatableState RunnableCompiledClass S}
    `{!BlockBouncer RunnableCompiledClass I E B} (block_context : BlockContext)
    (finalize : TransactionExecutor S B → result StateError D * TransactionExecutor S B)
    : BlockExecutor (TransactionExecutor S B * list (list (list nat))) (Transaction RunnableCompiledClass I E) I E D := {|
  add_txs_to_block := λ txs '(self, schedules),
    '(results, self) ← execute_txs block_context (hd [] schedules) self txs;
    Returned (results, (self, tail schedules));
  close_block := λ '(self, schedules),
    let '(r, self) := finalize self in
    (match r with Ok d => Ok d | Err e => Err (ExecutorStateError e) | Panic => Panic end, (self, schedules));
|}.

(** [IndexMap::insert]: the value of a key that is there is replaced. *)
Fixpoint index_map_insert {A} (key : N) (value : A) (m : list (N * A)) : list (N * A) :=
  match m with
  | [] => [(key, value)]
  | (k, v) :: m => if decide (k = key) then (k, value) :: m else (k, v) :: index_map_insert key value m
  end.

Section builder.
Context {X T I E D P PE : Type} `{!BlockExecutor X T I E D} `{!TransactionProvider P PE}.
Abbreviation Info := (TransactionExecutionInfo I).
Abbreviation BuilderError := (BlockBuilderError E PE).
Abbreviation Artifacts := (BlockExecutionArtifacts I D).
(** [BlockifierTransaction::new_for_sequencing], and [receipt.gas.l2_gas]. *)
Context (new_for_sequencing : ExecutableTransaction → T) (info_l2_gas : Info → N).

(** [output_content] are the transactions sent to the stream, if there is one. *)
Record BlockBuilder := {
  executor : X;
  tx_provider : P;
  output_content : option (list ExecutableTransaction);
  tx_chunk_size : N;
  fail_on_err : bool;
}.

(** What an iteration sees. *)
Record Moment := {
  deadline_reached : bool;
  abort_received : bool;
  receiver_dropped : bool;
  meanwhile : P → P;
}.

(** The variables that the results are collected in. *)
Record Collected := {
  c_l2_gas_used : N;
  c_execution_infos : list (N * Info);
  c_output_content : option (list ExecutableTransaction);
}.

Definition collect_result (fail_on_err receiver_dropped : bool) (input_tx : ExecutableTransaction)
    (r : TransactionExecutorError E + Info) : M Collected BuilderError bool :=
  match r with
  | inr tx_execution_info =>
      c ← get_st;
      gas ← expect (checked_add u64_max c.(c_l2_gas_used) (info_l2_gas tx_execution_info));
      modify (λ c, {| c_l2_gas_used := gas;
                      c_execution_infos :=
                        index_map_insert (executable_tx_hash input_tx) tx_execution_info c.(c_execution_infos);
                      c_output_content := c.(c_output_content) |});;
      match c.(c_output_content) with
      | None => mret false
      | Some sent =>
          if receiver_dropped then throw (StreamTransactionsError input_tx) else
          modify (λ c, {| c_l2_gas_used := c.(c_l2_gas_used); c_execution_infos := c.(c_execution_infos);
                          c_output_content := Some (sent ++ [input_tx]) |});;
          mret false
      end
  | inl BlockFull => if fail_on_err then throw (FailOnError FailBlockFull) else mret true
  | inl err => if fail_on_err then throw (FailOnError (TransactionFailed err)) else mret false
  end.

(** [true] when the block is full. *)
Fixpoint collect_execution_results_and_stream_txs (fail_on_err receiver_dropped : bool)
    (results : list (ExecutableTransaction * (TransactionExecutorError E + Info))) : M Collected BuilderError bool :=
  match results with
  | [] => mret false
  | (input_tx, r) :: results =>
      block_is_full ← collect_result fail_on_err receiver_dropped input_tx r;
      if block_is_full : bool then mret true
      else collect_execution_results_and_stream_txs fail_on_err receiver_dropped results
  end.

Definition set_executor x b :=
  {| executor := x; tx_provider := b.(tx_provider); output_content := b.(output_content);
     tx_chunk_size := b.(tx_chunk_size); fail_on_err := b.(fail_on_err) |}.
Definition set_tx_provider p b :=
  {| executor := b.(executor); tx_provider := p; output_content := b.(output_content);
     tx_chunk_size := b.(tx_chunk_size); fail_on_err := b.(fail_on_err) |}.
Definition set_output_content o b :=
  {| executor := b.(executor); tx_provider := b.(tx_provider); output_content := o;
     tx_chunk_size := b.(tx_chunk_size); fail_on_err := b.(fail_on_err) |}.

(** After the loop. *)
Definition close (infos : list (N * Info)) (gas : N) (self : BlockBuilder)
    : outcome (result BuilderError Artifacts * BlockBuilder) :=
  let '(r, x) := close_block self.(executor) in
  match r with
  | Ok d => Returned (Ok {| execution_infos := infos; block_result := d; l2_gas_used := gas |}, set_executor x self)
  | Err e => Returned (Err (ExecutorError e), set_executor x self)
  | Panic => Panicked
  end.

(** An iteration for the transactions that the provider gave: whether the block is full. *)
Definition add_chunk (moment : Moment) (next_tx_chunk : list ExecutableTransaction) (infos : list (N * Info)) (gas : N)
    (self : BlockBuilder) : outcome (result BuilderError bool * Collected * BlockBuilder) :=
  '(results, x) ← add_txs_to_block (new_for_sequencing <$> next_tx_chunk) self.(executor);
  let '(r, c) := collect_execution_results_and_stream_txs self.(fail_on_err) moment.(receiver_dropped)
                   (zip next_tx_chunk results)
                   {| c_l2_gas_used := gas; c_execution_infos := infos; c_output_content := self.(output_content) |} in
  match r with
  | Panic => Panicked
  | _ => Returned (r, c, set_output_content c.(c_output_content) (set_executor x self))
  end.

(** The loop, with the moments of its iterations; it is unfinished when they end before it does. *)
Fixpoint build_loop (moments : list Moment) (infos : list (N * Info)) (gas : N) (self : BlockBuilder)
    : outcome (result BuilderError Artifacts * BlockBuilder) :=
  match moments with
  | [] => Unfinished
  | moment :: moments =>
      if moment.(deadline_reached) then
        if self.(fail_on_err) then Returned (Err (FailOnError DeadlineReached), self) else close infos gas self
      else if moment.(abort_received) then Returned (Err Aborted, self) else
      match provider_get_txs self.(tx_chunk_size) (moment.(meanwhile) self.(tx_provider)) with
      | None => Unfinished
      | Some (next_txs, p) =>
          let self := set_tx_provider p self in
          match next_txs with
          | Panic => Panicked
          | Err e => Returned (Err (GetTransactionError e), self)
          | Ok End_ => close infos gas self
          | Ok (Txs []) => build_loop moments infos gas self
          | Ok (Txs next_tx_chunk) =>
              '(r, c, self) ← add_chunk moment next_tx_chunk infos gas self;
              match r with
              | Ok false => build_loop moments c.(c_execution_infos) c.(c_l2_gas_used) self
              | Ok true => close c.(c_execution_infos) c.(c_l2_gas_used) self
              | Err e => Returned (Err e, self)
              | Panic => Panicked
              end
          end
      end
  end.

Definition build_block (moments : list Moment) (self : BlockBuilder)
    : outcome (result BuilderError Artifacts * BlockBuilder) := build_loop moments [] 0 self.
End builder.
Arguments BlockBuilder : clear implicits.
Arguments Moment : clear implicits.
Arguments Collected : clear implicits.
