(* ===== verification/BuilderTheorems.v ===== *)
(** What the block builder of the batcher and its transaction providers promise. *)
From S2P Require Import Prelude StarknetApi L1Provider StateApi CachedState VersionedState WorkerLogic TransactionExecutor.
From S2P Require Import ConcurrencyTheorems ExecutorTheorems BlockBuilder.

(** ** Proposing transactions *)

Section propose.
Context {Env ME LE : Type} `{!ProviderClients Env ME LE} `{!ProviderClientsLaws Env ME LE}.
Abbreviation ProposeM := (M (ProposeTransactionProvider * Env) (TransactionProviderError ME LE)).
Hypothesis mempool_no_panic : ∀ n env, (mempool_client_get_txs n env).1 ≠ Panic.
Hypothesis l1_no_panic : ∀ n env, (l1_client_get_txs n env).1 ≠ Panic.
Implicit Types (self : ProposeTransactionProvider) (env : Env).

(** The requests of a block, with what others do before each of them. *)
Fixpoint propose_all (requests : list (N * (Env → Env))) : ProposeM (list (list ExecutableTransaction)) :=
  match requests with
  | [] => mret []
  | (n, meanwhile) :: requests =>
      modify (λ s, (s.1, meanwhile s.2));;
      next ← propose_get_txs n;
      rest ← propose_all requests;
      mret (match next with Txs txs => txs | End_ => [] end :: rest)
  end.

(** Messages from L1, then transactions of accounts. *)
Definition l1_then_mempool (txs : list ExecutableTransaction) l1 accounts : Prop :=
  txs = (L1Handler <$> l1) ++ (Account <$> accounts).

Definition provider_ok self : Prop :=
  self.(n_l1handler_txs_so_far) ≤ self.(max_l1_handler_txs_per_block) ≤ u64_max.

(** What a request changes: it yields [l1] messages, and transactions of accounts only when the
    phase of the messages is over. *)
Record request_ok (n : N) self (txs : list ExecutableTransaction) self' l1 accounts : Prop := {
  ro_txs : l1_then_mempool txs l1 accounts;
  ro_length : N.of_nat (length txs) ≤ n;
  ro_ok : provider_ok self';
  ro_max : self'.(max_l1_handler_txs_per_block) = self.(max_l1_handler_txs_per_block);
  ro_count : self'.(n_l1handler_txs_so_far) = self.(n_l1handler_txs_so_far) + N.of_nat (length l1);
  ro_phase : self.(phase) = MempoolPhase → l1 = [] ∧ self'.(phase) = MempoolPhase;
  ro_accounts : accounts ≠ [] → self'.(phase) = MempoolPhase;
}.

(** A first step that is computed. *)
Lemma wp_step {St E' A} (m m' : M St E' A) s s' Q : m s = m' s' → wp m' s' Q → wp m s Q.
Proof. unfold wp. by intros ->. Qed.

Lemma wp_call {P X A} (wrap : X → TransactionProviderError ME LE) (m : M Env X A) (self : P) env Q :
  (m env).1 ≠ Panic → (∀ a env', m env = (Ok a, env') → Q (Ok a) (self, env')) → (∀ e env', Q (Err e) (self, env')) →
  wp (call wrap m) (self, env) Q.
Proof. intros Hp Hok Herr. unfold wp, call. destruct (m env) as [[a|e|] env']; cbn in *; [by apply Hok|by apply Herr|done]. Qed.

Lemma get_txs_l1_phase_spec n self env :
  provider_ok self → self.(phase) = L1Phase →
  wp (get_txs_l1_phase n) (self, env) (λ r s, match r with
    | Ok txs => ∃ l1, request_ok n self txs s.1 l1 [] ∧ (N.of_nat (length txs) ≠ n → s.1.(phase) = MempoolPhase)
    | Err _ => True | Panic => False end).
Proof.
  intros [Hso Hmax] Hph. unfold get_txs_l1_phase, get_l1_handler_txs. eapply wp_step; [apply bind_gets|]. cbn [fst].
  unfold checked_sub at 1. rewrite decide_True by done. eapply wp_step; [apply bind_expect_Some|].
  apply wp_bind, wp_bind, wp_call; [apply l1_no_panic| |done]. intros l1 env' Hl1.
  pose proof (l1_client_at_most _ _ _ _ Hl1) as Hle. unfold wp at 1. cbn. rewrite length_fmap.
  unfold checked_add. rewrite decide_True by lia. eapply wp_step; [apply bind_expect_Some|]. apply wp_modify. unfold wp. cbn.
  exists l1. split.
  - split; cbn; [by unfold l1_then_mempool; rewrite app_nil_r|rewrite length_fmap; lia|split; cbn; lia|done|done|congruence|done].
  - rewrite length_fmap. intros Hn. destruct (bool_decide _) eqn:H1, (bool_decide (_ = _)) eqn:H2; try done.
    apply bool_decide_eq_false in H1, H2. lia.
Qed.

Lemma propose_get_txs_spec n self env :
  0 < n → provider_ok self →
  wp (propose_get_txs n) (self, env) (λ r s, match r with
    | Ok next => ∃ txs l1 accounts, next = Txs txs ∧ request_ok n self txs s.1 l1 accounts
    | Err _ => True | Panic => False end).
Proof.
  intros Hn Hok. unfold propose_get_txs. rewrite bool_decide_eq_true_2 by done.
  eapply wp_step; [apply bind_assert_true|]. eapply wp_step; [apply bind_gets|]. cbn [fst].
  apply wp_bind. eapply (wp_mono _ _ (λ r s, match r with
    | Ok txs => ∃ l1, request_ok n self txs s.1 l1 [] ∧ (N.of_nat (length txs) ≠ n → s.1.(phase) = MempoolPhase)
    | Err _ => True | Panic => False end)).
  { destruct (phase self) eqn:Hph; [by apply get_txs_l1_phase_spec|]. unfold wp. cbn. exists [].
    split; [|done]. split; cbn; try done; lia. }
  intros [txs|e|] [self' env'] Hr; [|done..]. destruct Hr as (l1&[Htxs Hlen Hok' Hm Hc Hp _]&Hph). cbn in *.
  case_decide as Heq; [by exists txs, l1, []|].
  unfold checked_sub. rewrite decide_True by done. eapply wp_step; [apply bind_expect_Some|].
  unfold get_mempool_txs. apply wp_bind, wp_bind, wp_call; [apply mempool_no_panic| |done]. intros accounts env2 Hacc.
  pose proof (mempool_client_at_most _ _ _ _ Hacc) as Hle. unfold wp. cbn. do 3 eexists. split; [done|].
  split; cbn; [|rewrite length_app, length_fmap; lia|done..|by intros _; apply Hph].
  unfold l1_then_mempool in *. rewrite Htxs. cbn. by rewrite app_nil_r.
Qed.

(** C18: a proposal takes messages from L1 first, at most as many as a block may have, and then only
    transactions of the mempool, and each request is answered with at most as many transactions
    as were asked for, whatever others do between the requests. It does not panic. *)
Theorem proposal_l1_bounded max requests env :
  max ≤ u64_max → Forall (λ request, 0 < request.1) requests →
  wp (propose_all requests) (ProposeTransactionProvider_new max, env) (λ r s, match r with
    | Ok answers => Forall2 (λ request txs, N.of_nat (length txs) ≤ request.1) requests answers ∧
        ∃ l1 accounts, l1_then_mempool (concat answers) l1 accounts ∧ N.of_nat (length l1) ≤ max
    | Err _ => True | Panic => False end).
Proof.
  intros Hmax Hreq.
  assert (∀ self env, provider_ok self →
    wp (propose_all requests) (self, env) (λ r s, match r with
      | Ok answers => Forall2 (λ request txs, N.of_nat (length txs) ≤ request.1) requests answers ∧
          ∃ l1 accounts, l1_then_mempool (concat answers) l1 accounts ∧ (self.(phase) = MempoolPhase → l1 = []) ∧
            self.(n_l1handler_txs_so_far) + N.of_nat (length l1) ≤ self.(max_l1_handler_txs_per_block)
      | Err _ => True | Panic => False end)) as Hall.
  { clear env. induction Hreq as [|[n meanwhile] requests Hn Hreq IH]; intros self env Hok; cbn [propose_all].
    - unfold wp. cbn. split; [done|]. exists [], []. split; [done|]. split; [done|]. destruct Hok. cbn. lia.
    - apply wp_modify. cbn [fst snd]. apply wp_bind. eapply wp_mono; [by apply propose_get_txs_spec|].
      intros [next|e|] [self' env'] Hr; [|done..]. destruct Hr as (txs&l1&accounts&->&[Htxs Hlen Hok' Hm Hc Hp Ha]).
      apply wp_bind. eapply wp_mono; [by apply IH|]. intros [answers|e|] s2 Hr2; [|done..].
      destruct Hr2 as (Hall&l1'&accounts'&Htxs'&Hp'&Hle). unfold wp. cbn. cbn in *. split; [by constructor|].
      unfold l1_then_mempool in *. destruct (decide (accounts = [])) as [->|Hne].
      + exists (l1 ++ l1'), accounts'. rewrite Htxs, Htxs', fmap_app, app_nil_r, <-(assoc_L app), length_app. split; [done|].
        split; [|lia]. intros Hph. destruct (Hp Hph) as [-> Hph']. by rewrite (Hp' Hph').
      + rewrite (Hp' (Ha Hne)) in *. exists l1, (accounts ++ accounts'). rewrite Htxs, Htxs', fmap_app, <-(assoc_L app).
        split; [done|]. split; [by intros [-> _]%Hp|]. cbn in Hle. lia. }
  eapply wp_mono; [apply Hall; split; cbn; lia|]. cbn. intros [answers|e|] s Hr; [|done..]. destruct Hr as (Hf&l1&accounts&?&_&?). eauto.
Qed.
End propose.

(** ** Building blocks *)

Section build.
Context {X T I E D P PE : Type} `{!BlockExecutor X T I E D} `{!TransactionProvider P PE}.
Abbreviation Info := (TransactionExecutionInfo I).
Abbreviation BuilderError := (BlockBuilderError E PE).
Abbreviation Builder := (BlockBuilder X P).
Context (new_for_sequencing : ExecutableTransaction → T) (info_l2_gas : Info → N).
Abbreviation build_loop := (build_loop new_for_sequencing info_l2_gas).
Abbreviation build_block := (build_block new_for_sequencing info_l2_gas).
Implicit Types (b : Builder) (c : Collected I) (infos : list (N * Info)) (gas : N).

(** An invariant of what is collected, as long as there is no error. *)
Lemma collect_ind (J : Collected I → Prop) fail dropped (results : list (ExecutableTransaction * (TransactionExecutorError E + Info))) c full c' :
  (∀ tx (r : TransactionExecutorError E + Info) c full c', J c → collect_result (PE := PE) info_l2_gas fail dropped tx r c = (Ok full, c') → J c') → J c →
  collect_execution_results_and_stream_txs (PE := PE) info_l2_gas fail dropped results c = (Ok full, c') → J c'.
Proof.
  intros HJ. revert c. induction results as [|[tx r] results IH]; intros c Hc; cbn; [by intros [= _ <-]|]. unfold mbind, M_bind.
  destruct (collect_result _ _ _ tx r c) as [[[]|e|] c1] eqn:Hr; [|by apply IH; eapply HJ|done..]. intros [= _ <-]. by eapply HJ.
Qed.

(** An invariant of the loop. *)
Lemma build_ind (J : list (N * Info) → N → Builder → Prop) (Q : result BuilderError (BlockExecutionArtifacts I D) → Builder → Prop) :
  (∀ infos gas b p, J infos gas b → J infos gas (set_tx_provider p b)) →
  (∀ infos gas b moment chunk r c b', J infos gas b →
     add_chunk (PE := PE) new_for_sequencing info_l2_gas moment chunk infos gas b = Returned (r, c, b') →
     match r with
     | Ok _ => J c.(c_execution_infos) c.(c_l2_gas_used) b'
     | Err e => Q (Err e) b'
     | Panic => True
     end) →
  (∀ infos gas b r b', J infos gas b → close (PE := PE) infos gas b = Returned (r, b') → Q r b') →
  (∀ infos gas b e, J infos gas b → e = FailOnError DeadlineReached ∨ e = Aborted ∨ (∃ pe, e = GetTransactionError pe) → Q (Err e) b) →
  ∀ moments infos gas b r b', J infos gas b → build_loop moments infos gas b = Returned (r, b') → Q r b'.
Proof.
  intros Hset Hadd Hclose Herr moments. induction moments as [|moment moments IH]; intros infos gas b r b' HJ; [done|]. cbn.
  destruct (deadline_reached moment); [destruct (fail_on_err b); [intros [= <- <-]; eapply Herr; by eauto|by apply Hclose]|].
  destruct (abort_received moment); [intros [= <- <-]; eapply Herr; by eauto|].
  destruct (provider_get_txs _ _) as [[[[txs|]|e|] p]|]; [|by apply Hclose, Hset|intros [= <- <-]; eapply Herr; [by apply Hset|by eauto]|done..].
  destruct txs as [|tx txs]; [by apply IH, Hset|].
  destruct (add_chunk _ _ _ _ _ _ _) as [[[r1 c] b1]| |] eqn:Hchunk; [|done..]. cbn.
  pose proof (Hadd _ _ _ _ _ _ _ _ (Hset _ _ _ p HJ) Hchunk) as Hr. destruct r1 as [[]|e|]; [by apply Hclose|by apply IH|by intros [= <- <-]|done].
Qed.

(** *** What is in the block *)

Definition hashes_of (txs : list ExecutableTransaction) : list N := executable_tx_hash <$> txs.
Definition total_l2_gas (infos : list (N * Info)) : N := foldr (λ info gas, info_l2_gas info.2 + gas) 0 infos.

Lemma index_map_insert_fresh {A} key (value : A) m : key ∉ m.*1 → index_map_insert key value m = m ++ [(key, value)].
Proof.
  induction m as [|[k v] m IH]; [done|]. cbn. intros Hk. rewrite decide_False by set_solver. f_equal. apply IH. set_solver.
Qed.

Lemma total_l2_gas_app infos infos' : total_l2_gas (infos ++ infos') = total_l2_gas infos + total_l2_gas infos'.
Proof. unfold total_l2_gas. induction infos as [|info infos IH]; cbn; [done|]. rewrite IH. lia. Qed.

(** The block has what was streamed. *)
Definition streamed infos gas (output : option (list ExecutableTransaction)) : Prop :=
  ∃ out, output = Some out ∧ (NoDup (hashes_of out) → infos.*1 = hashes_of out ∧ gas = total_l2_gas infos).

Lemma collect_result_streamed fail dropped tx (r : TransactionExecutorError E + Info) c full c' :
  streamed c.(c_execution_infos) c.(c_l2_gas_used) c.(c_output_content) →
  collect_result (PE := PE) info_l2_gas fail dropped tx r c = (Ok full, c') →
  streamed c'.(c_execution_infos) c'.(c_l2_gas_used) c'.(c_output_content).
Proof.
  intros (out&Hout&Hs). destruct r as [[| |]|info]; cbn; [by destruct fail; [|intros [= _ <-]; exists out]..|].
  unfold mbind, M_bind, get_st, checked_add, modify. case_decide; [|done]. cbn. rewrite Hout. destruct dropped; [done|].
  intros [= _ <-]. cbn. exists (out ++ [tx]). split; [done|]. unfold hashes_of. rewrite fmap_app.
  intros (Hd&Hnot&_)%NoDup_app. destruct (Hs Hd) as [Hk ->].
  rewrite index_map_insert_fresh by (rewrite Hk; intros Hin; apply (Hnot _ Hin); set_solver).
  by rewrite fmap_app, Hk, total_l2_gas_app; cbn; rewrite N.add_0_r.
Qed.

(** C17: the transactions that a proposer streams out are those of its block: when the builder
    returns a block and the streamed transactions are distinct, the execution infos of the block
    are those of the streamed transactions, in order, and the gas that the block used is the sum of
    theirs, whatever the provider, the executor and the clock do. *)
Theorem block_streamed moments b artifacts b' :
  b.(output_content) = Some [] → build_block moments b = Returned (Ok artifacts, b') →
  streamed artifacts.(execution_infos) artifacts.(l2_gas_used) b'.(output_content).
Proof.
  intros Hout. refine (build_ind (λ infos gas b, streamed infos gas b.(output_content)) (λ r b', match r with
    | Ok artifacts => streamed artifacts.(execution_infos) artifacts.(l2_gas_used) b'.(output_content)
    | _ => True end) _ _ _ _ moments [] 0 b (Ok artifacts) b' _); [done| | |done|by exists []].
  - intros infos gas b1 moment chunk r c b2 Hs. unfold add_chunk.
    destruct (add_txs_to_block _ _) as [[results x]| |]; [|done..]. cbn.
    destruct (collect_execution_results_and_stream_txs _ _ _ _ _) as [r1 c1] eqn:Hc.
    destruct r1 as [full|e|]; [intros [= <- <- <-]|by intros [= <- <- <-]|done]. cbn.
    by eapply (collect_ind (λ c, streamed c.(c_execution_infos) c.(c_l2_gas_used) c.(c_output_content)));
      [intros; by eapply collect_result_streamed| |exact Hc].
  - intros infos gas b1 r b2 Hs. unfold close. destruct (close_block _) as [[d|e|] x]; [|by intros [= <- <-]|done].
    by intros [= <- <-].
Qed.

(** Only [BlockFull], when it is not an error, ends the block. *)
Lemma collect_not_full fail dropped (results : list (ExecutableTransaction * (TransactionExecutorError E + Info))) c c' :
  fail = true ∨ Forall (λ result, result.2 ≠ inl BlockFull) results →
  collect_execution_results_and_stream_txs (PE := PE) info_l2_gas fail dropped results c ≠ (Ok true, c').
Proof.
  intros Hfull. revert c. induction results as [|[tx r] results IH]; intros c; [done|]. cbn. unfold mbind, M_bind.
  destruct (collect_result _ _ _ tx r c) as [[[]|e|] c1] eqn:Hr; [|apply IH; destruct Hfull as [|Hf%Forall_cons]; [by left|right; tauto]|done..].
  intros _. assert (r ≠ inl BlockFull ∨ fail = true) as Hne by (destruct Hfull as [|[? _]%Forall_cons]; auto).
  revert Hr. destruct r as [[| |]|info]; cbn; [by destruct fail, Hne|by destruct fail..|].
  unfold mbind, M_bind, get_st, checked_add, modify. case_decide; [|done]. cbn. destruct (c_output_content c); [|done]. by destruct dropped.
Qed.


(** A validator returns a block only after the end of the stream. *)
Lemma validated_at_end moments infos gas b artifacts b' :
  b.(fail_on_err) = true → build_loop moments infos gas b = Returned (Ok artifacts, b') →
  ∃ p, provider_get_txs b.(tx_chunk_size) p = Some (Ok End_, b'.(tx_provider)).
Proof.
  revert infos gas b. induction moments as [|moment moments IH]; intros infos gas b Hf; [done|]. cbn. rewrite Hf.
  destruct (deadline_reached moment); [done|]. destruct (abort_received moment); [done|].
  destruct (provider_get_txs _ _) as [[[[txs|]|e|] p]|] eqn:Hp; [|..|done|done|done].
  - destruct txs as [|tx txs]; [by apply (IH _ _ (set_tx_provider p b))|].
    unfold add_chunk. destruct (add_txs_to_block _ _) as [[results x]| |]; [|done..]. cbn -[zip].
    destruct (collect_execution_results_and_stream_txs _ _ _ _ _) as [r c] eqn:Hc.
    assert (r ≠ Ok true) as Hr; [|destruct r as [[]|e|]; [done| |done..]; by apply (IH _ _ (set_output_content _ (set_executor _ (set_tx_provider p b))))].
    intros ->. cbn [fail_on_err set_tx_provider] in Hc. rewrite Hf in Hc. exact (collect_not_full true _ _ _ _ (or_introl eq_refl) Hc).
  - unfold close. destruct (close_block _) as [[d|e|] x]; [|done..]. intros [= <- <-]. by eexists.
Qed.
End build.

(** ** Full blocks *)

Section full.
Context `{HashOrder} `{FeeTokenVar} {RunnableCompiledClass S I E B D P PE : Type}.
Context `{!StateReader RunnableCompiledClass S} `{!UpdatableState RunnableCompiledClass S}.
Context `{!BlockBouncer RunnableCompiledClass I E B} `{!TransactionProvider P PE}.
Context (block_context : BlockContext) (finalize : TransactionExecutor S B → result StateError D * TransactionExecutor S B).
#[local] Instance block_executor : BlockExecutor _ _ I E D := blockifier_executor block_context finalize.
Context (new_for_sequencing : ExecutableTransaction → Transaction RunnableCompiledClass I E).
Context (info_l2_gas : TransactionExecutionInfo I → N).


End full.

Module FullBlock.
Import Scenario.
#[local] Existing Instances canonical_order Block.block_reader Block.block_updatable.

(** No transactions in the mempool; every message from L1 is valid. *)
#[export] Instance clients : ProviderClients unit unit unit := {|
  mempool_client_get_txs := λ _ env, (Ok [], env);
  l1_client_get_txs := λ _ env, (Ok [], env);
  l1_client_validate := λ _ env, (Ok Validated, env);
|}.

#[export] Instance executor_of_block : BlockExecutor _ _ unit unit _ :=
  blockifier_executor block_context (finalize (λ _ _, Ok []) Block.reader false 2).

Definition sequencing (tx : ExecutableTransaction) : Transaction N unit unit := increment 5 (executable_tx_hash tx).

Definition validator : BlockBuilder (TransactionExecutor (CachedState N) N * list (list (list nat))) (Channel * unit) := {|
  executor := (Block.executor false, []);
  tx_provider := ({| queued := L1Handler ∘ L1Example.message <$> [10; 20; 30; 40]; sender_dropped := true |}, tt);
  output_content := None;
  tx_chunk_size := 10;
  fail_on_err := true;
|}.

Definition moment : Moment (Channel * unit) :=
  {| deadline_reached := false; abort_received := false; receiver_dropped := false; meanwhile := λ p, p |}.


(** A proposer. *)
Definition proposer : BlockBuilder (TransactionExecutor (CachedState N) N * list (list (list nat))) (Channel * unit) :=
  set_output_content (Some []) validator.

Lemma block_streamed_witness :
  ∃ artifacts b', build_block sequencing actual_fee [moment; moment] proposer = Returned (Ok artifacts, b') ∧
    streamed actual_fee artifacts.(execution_infos) artifacts.(l2_gas_used) b'.(output_content).
Proof.
  destruct (build_block sequencing actual_fee [moment; moment] proposer) as [[[artifacts|e|] b']| |] eqn:Hrun;
    [|vm_compute in Hrun; discriminate Hrun..].
  exists artifacts, b'. split; [done|]. exact (block_streamed sequencing actual_fee [moment; moment] proposer artifacts b' eq_refl Hrun).
Defined.

(** A mempool of one account transaction after another, and three messages from L1. *)
Definition counting : ProviderClients N unit unit := {|
  mempool_client_get_txs := λ n env, (Ok [], env);
  l1_client_get_txs := λ n env, (Ok (L1Example.message <$> take (N.to_nat (N.min n env)) [1; 2; 3]), env - N.min n env);
  l1_client_validate := λ _ env, (Ok Validated, env);
|}.

Lemma counting_laws : @ProviderClientsLaws N unit unit counting.
Proof.
  split; cbn; [by intros n env txs env' [= <- _]; cbn; lia|]. intros n env txs env' [= <- _].
  rewrite length_fmap, length_take. lia.
Qed.

Definition requests : list (N * (N → N)) := [(2, λ env, env); (5, λ env, env)].

Lemma proposal_l1_bounded_witness :
  wp (@propose_all N unit unit counting requests) (ProposeTransactionProvider_new 3, 3) (λ r s, match r with
    | Ok answers => Forall2 (λ request txs, N.of_nat (length txs) ≤ request.1) requests answers ∧
        ∃ l1 accounts, l1_then_mempool (concat answers) l1 accounts ∧ N.of_nat (length l1) ≤ 3
    | Err _ => True | Panic => False end).
Proof.
  apply (@proposal_l1_bounded N unit unit counting counting_laws); [done|done|by vm_compute|].
  repeat constructor.
Defined.
End FullBlock.
