(* ===== verification/Batcher.v ===== *)
(** The batcher, which builds and validates the proposals of a height and commits the one that is
    decided: [crates/starknet_batcher/src/batcher.rs] and [utils.rs].

    The tasks that build blocks run beside the batcher: a task sends transactions and finishes with
    a result at any time, also while the batcher waits for it. Which builders can be created, the
    deadline, and what a task does while a request waits are inputs. *)
From S2P Require Import Prelude StarknetApi TransactionPool Mempool StateApi CachedState WorkerLogic TransactionExecutor BlockBuilder.

Inductive BatcherError :=
| ExecutedProposalNotFound (proposal_id : N)
| HeightAlreadyPassed (storage_height requested_height : N)
| HeightInProgress
| InternalError
| InvalidBlockNumber (active_height block_number : N)
| MissingRetrospectiveBlockHash
| NoActiveHeight
| AnotherProposalInProgress (active_proposal_id new_proposal_id : N)
| ProposalAlreadyExists (proposal_id : N)
| ProposalAborted
| ProposalNotFound (proposal_id : N)
| StorageNotSynced (storage_height requested_height : N)
| TimeToDeadlineError.

Inductive ProposalStatus :=
| Processing
| Finished (commitment : N)
| AbortedStatus
| InvalidProposal.

Record ThinStateDiff := {
  deployed_contracts : gmap N N;
  storage_diffs : gmap (N * N) N;
  declared_classes : gmap N N;
  deprecated_declared_classes : list N;
  tsd_nonces : gmap N N;
  replaced_classes : gmap N N;
}.

(** The methods of [BlockExecutionArtifacts]; the state diff comes with what else closing the
    block yields. *)
Section artifacts.
Context {I W : Type}.
Implicit Types self : BlockExecutionArtifacts I (StateMaps * W).

Definition artifacts_address_to_nonce self : gmap N N := self.(block_result).1.(nonces).

Definition artifacts_tx_hashes self : gset N := list_to_set self.(execution_infos).*1.

Definition state_diff self : ThinStateDiff :=
  {| deployed_contracts := ∅; storage_diffs := self.(block_result).1.(storage); declared_classes := ∅;
     deprecated_declared_classes := []; tsd_nonces := self.(block_result).1.(nonces); replaced_classes := ∅ |}.
End artifacts.

(** The storage: the next height, and appending the state diff of a block; [None] for an error. *)
Class BatcherStorage (St : Type) := {
  storage_height : St → option N;
  storage_commit_proposal : N → ThinStateDiff → St → option St;
}.

(** What is relied on: a diff is appended at the next height, which it increments. *)
Class BatcherStorageLaws (St : Type) `{!BatcherStorage St} : Prop := {
  commit_at_height h d st st' : storage_commit_proposal h d st = Some st' → storage_height st = Some h;
  commit_next_height h d st st' : storage_commit_proposal h d st = Some st' → storage_height st' = Some (h + 1);
}.

Definition verify_non_empty_retrospective_block_hash {S} (height : N) (retrospective_block_hash : option (N * N))
    : M S BatcherError unit :=
  if decide (STORED_BLOCK_HASH_BUFFER ≤ height ∧ retrospective_block_hash = None)
  then throw MissingRetrospectiveBlockHash else mret tt.

Definition verify_block_number {S} (height block_number : N) : M S BatcherError unit :=
  if decide (block_number ≠ height) then throw (InvalidBlockNumber height block_number) else mret tt.

Definition verify_block_input {S} (height block_number : N) (retrospective_block_hash : option (N * N))
    : M S BatcherError unit :=
  verify_non_empty_retrospective_block_hash height retrospective_block_hash;;
  verify_block_number height block_number.

Definition proposal_status_from {E PE} (e : BlockBuilderError E PE) : result BatcherError ProposalStatus :=
  match e with
  | FailOnError _ => Ok InvalidProposal
  | Aborted => Err ProposalAborted
  | _ => Err InternalError
  end.

Section batcher.
Context {I E PE W St : Type} `{!BatcherStorage St}.
(** [calculate_state_diff_hash], which gives the commitment of a proposal. *)
Context (state_diff_hash : ThinStateDiff → N) (outstream_content_buffer_size : N).
Abbreviation Artifacts := (BlockExecutionArtifacts I (StateMaps * W)).
Abbreviation ProposalResult := (BlockBuilderError E PE + Artifacts)%type.

Definition commitment (self : Artifacts) : N := state_diff_hash (state_diff self).

(** A task: [task_result] once it is finished, [task_output] are the transactions that were not
    read from its stream yet, [task_input] those that were sent to it. *)
Record Task := {
  task_proposal : N;
  task_aborted : bool;
  task_input : list ExecutableTransaction;
  task_output : list ExecutableTransaction;
  task_result : option ProposalResult;
}.

(** The batcher, with the tasks, the storage and the calls to the mempool. Tasks are referred to by
    their position. *)
Record Batcher := {
  active_height : option N;
  active_proposal : option N;
  active_proposal_task : option nat;
  executed_proposals : gmap N ProposalResult;
  propose_tx_streams : gmap N nat;
  validate_tx_streams : gmap N nat;
  tasks : list Task;
  batcher_storage : St;
  mempool_commits : list CommitBlockArgs;
}.

Definition Batcher_new (storage : St) : Batcher :=
  {| active_height := None; active_proposal := None; active_proposal_task := None; executed_proposals := ∅;
     propose_tx_streams := ∅; validate_tx_streams := ∅; tasks := []; batcher_storage := storage; mempool_commits := [] |}.

Definition set_active_height v s :=
  {| active_height := v; active_proposal := s.(active_proposal); active_proposal_task := s.(active_proposal_task);
     executed_proposals := s.(executed_proposals); propose_tx_streams := s.(propose_tx_streams);
     validate_tx_streams := s.(validate_tx_streams); tasks := s.(tasks); batcher_storage := s.(batcher_storage);
     mempool_commits := s.(mempool_commits) |}.
Definition set_active v task s :=
  {| active_height := s.(active_height); active_proposal := v; active_proposal_task := task;
     executed_proposals := s.(executed_proposals); propose_tx_streams := s.(propose_tx_streams);
     validate_tx_streams := s.(validate_tx_streams); tasks := s.(tasks); batcher_storage := s.(batcher_storage);
     mempool_commits := s.(mempool_commits) |}.
Definition set_executed v s :=
  {| active_height := s.(active_height); active_proposal := s.(active_proposal);
     active_proposal_task := s.(active_proposal_task); executed_proposals := v;
     propose_tx_streams := s.(propose_tx_streams); validate_tx_streams := s.(validate_tx_streams); tasks := s.(tasks);
     batcher_storage := s.(batcher_storage); mempool_commits := s.(mempool_commits) |}.
Definition set_streams propose validate s :=
  {| active_height := s.(active_height); active_proposal := s.(active_proposal);
     active_proposal_task := s.(active_proposal_task); executed_proposals := s.(executed_proposals);
     propose_tx_streams := propose; validate_tx_streams := validate; tasks := s.(tasks);
     batcher_storage := s.(batcher_storage); mempool_commits := s.(mempool_commits) |}.
Definition set_tasks v s :=
  {| active_height := s.(active_height); active_proposal := s.(active_proposal);
     active_proposal_task := s.(active_proposal_task); executed_proposals := s.(executed_proposals);
     propose_tx_streams := s.(propose_tx_streams); validate_tx_streams := s.(validate_tx_streams); tasks := v;
     batcher_storage := s.(batcher_storage); mempool_commits := s.(mempool_commits) |}.
Definition set_committed storage commits s :=
  {| active_height := s.(active_height); active_proposal := s.(active_proposal);
     active_proposal_task := s.(active_proposal_task); executed_proposals := s.(executed_proposals);
     propose_tx_streams := s.(propose_tx_streams); validate_tx_streams := s.(validate_tx_streams); tasks := s.(tasks);
     batcher_storage := storage; mempool_commits := commits |}.

Abbreviation BatcherM := (M Batcher BatcherError).

(** ** The tasks *)

Definition set_task (t : nat) (f : Task → Task) : Batcher → Batcher := λ s, set_tasks (alter f t s.(tasks)) s.

Definition finish_with r task : Task :=
  {| task_proposal := task.(task_proposal); task_aborted := task.(task_aborted); task_input := task.(task_input);
     task_output := task.(task_output); task_result := Some r |}.
Definition abort_task task : Task :=
  {| task_proposal := task.(task_proposal); task_aborted := true; task_input := task.(task_input);
     task_output := task.(task_output); task_result := task.(task_result) |}.
Definition push_input tx task : Task :=
  {| task_proposal := task.(task_proposal); task_aborted := task.(task_aborted); task_input := task.(task_input) ++ [tx];
     task_output := task.(task_output); task_result := task.(task_result) |}.
Definition set_output v task : Task :=
  {| task_proposal := task.(task_proposal); task_aborted := task.(task_aborted); task_input := task.(task_input);
     task_output := v; task_result := task.(task_result) |}.

(** The end of the task [t], with the result of its builder: it is kept only when the proposal of
    the task is the active one. A task that has finished does nothing. *)
Definition task_finishes (t : nat) (r : ProposalResult) (s : Batcher) : Batcher :=
  match s.(tasks) !! t with
  | Some task =>
      match task.(task_result) with
      | Some _ => s
      | None =>
          let s := set_task t (finish_with r) s in
          if decide (s.(active_proposal) = Some task.(task_proposal)) then
            set_executed (<[task.(task_proposal) := r]> s.(executed_proposals)) (set_active None s.(active_proposal_task) s)
          else s
      end
  | None => s
  end.

(** The task [t] streams out a transaction. *)
Definition task_sends (t : nat) (tx : ExecutableTransaction) (s : Batcher) : Batcher :=
  match s.(tasks) !! t with
  | Some task =>
      match task.(task_result) with
      | Some _ => s
      | None => set_task t (λ task, set_output (task.(task_output) ++ [tx]) task) s
      end
  | None => s
  end.

(** ** Helpers *)

Definition is_active (proposal_id : N) : BatcherM bool :=
  gets (λ s, bool_decide (s.(active_proposal) = Some proposal_id)).

Definition set_active_proposal (proposal_id : N) : BatcherM unit :=
  s ← get_st;
  if decide (is_Some (s.(executed_proposals) !! proposal_id)) then throw (ProposalAlreadyExists proposal_id) else
  match s.(active_proposal) with
  | Some active_proposal_id => throw (AnotherProposalInProgress active_proposal_id proposal_id)
  | None => modify (λ s, set_active (Some proposal_id) s.(active_proposal_task) s)
  end.

(** The new task, by its position. *)
Definition spawn_proposal (proposal_id : N) : BatcherM nat :=
  s ← get_st;
  let t := length s.(tasks) in
  let task := {| task_proposal := proposal_id; task_aborted := false; task_input := []; task_output := [];
                 task_result := None |} in
  modify (λ s, set_active s.(active_proposal) (Some t) (set_tasks (s.(tasks) ++ [task]) s));;
  mret t.

Definition get_completed_proposal_result (proposal_id : N) : BatcherM (option (BlockBuilderError E PE + N)) :=
  s ← get_st;
  mret (match s.(executed_proposals) !! proposal_id with
        | Some (inr artifacts) => Some (inr (commitment artifacts))
        | Some (inl e) => Some (inl e)
        | None => None
        end).

Definition abort_active_proposal : BatcherM unit :=
  s ← get_st;
  modify (set_active None None);;
  match s.(active_proposal_task) with
  | Some t => modify (set_task t abort_task)
  | None => mret tt
  end.

(** It waits until the task is finished, with [completion] unless it is already. *)
Definition await_active_proposal (completion : ProposalResult) : BatcherM unit :=
  s ← get_st;
  match s.(active_proposal_task) with
  | Some t =>
      modify (λ s, set_active s.(active_proposal) None s);;
      modify (task_finishes t completion)
  | None => mret tt
  end.

Definition abort_active_height : BatcherM unit :=
  abort_active_proposal;;
  modify (λ s, set_streams ∅ ∅ (set_executed ∅ s)).

Definition get_height_from_storage : BatcherM N :=
  s ← get_st;
  match storage_height s.(batcher_storage) with Some height => mret height | None => throw InternalError end.

(** ** Requests *)

Definition start_height (height : N) : BatcherM unit :=
  s ← get_st;
  if decide (s.(active_height) = Some height) then throw HeightInProgress else
  stored ← get_height_from_storage;
  if decide (stored < height) then throw (StorageNotSynced stored height) else
  if decide (height < stored) then throw (HeightAlreadyPassed stored height) else
  abort_active_height;;
  modify (set_active_height (Some height)).

(** The input of [propose_block] and of [validate_block]: whether the deadline has passed, and
    whether the builder can be created, are up to the environment. *)
Record BlockInput := {
  proposal_id : N;
  block_number : N;
  retrospective_block_hash : option (N * N);
  deadline_passed : bool;
  builder_created : bool;
}.

(** What both do; the result is the new task. *)
Definition start_proposal (input : BlockInput) : BatcherM nat :=
  s ← get_st;
  height ← match s.(active_height) with Some height => mret height | None => throw NoActiveHeight end;
  verify_block_input height input.(block_number) input.(retrospective_block_hash);;
  set_active_proposal input.(proposal_id);;
  if input.(deadline_passed) then throw TimeToDeadlineError else
  if negb input.(builder_created) then throw InternalError else
  spawn_proposal input.(proposal_id).

Definition propose_block (input : BlockInput) : BatcherM unit :=
  t ← start_proposal input;
  modify (λ s, set_streams (<[input.(proposal_id) := t]> s.(propose_tx_streams)) s.(validate_tx_streams) s).

Definition validate_block (input : BlockInput) : BatcherM unit :=
  t ← start_proposal input;
  modify (λ s, set_streams s.(propose_tx_streams) (<[input.(proposal_id) := t]> s.(validate_tx_streams)) s).

(** The transactions are sent one by one; when [completion] is [Some (n, r)] the task finishes with
    [r] after [n] of them, and the next one cannot be sent. *)
Fixpoint send_txs (t : nat) (txs : list ExecutableTransaction) (completion : option (nat * ProposalResult)) : BatcherM unit :=
  match txs with
  | [] => mret tt
  | tx :: txs =>
      match completion with Some (O, r) => modify (task_finishes t r) | _ => mret tt end;;
      s ← get_st;
      match s.(tasks) !! t ≫= task_result with
      | Some _ => throw InternalError
      | None =>
          modify (set_task t (push_input tx));;
          send_txs t txs (match completion with Some (S n, r) => Some (n, r) | _ => None end)
      end
  end.

Definition handle_send_txs_request (id : N) (txs : list ExecutableTransaction)
    (completion : option (nat * ProposalResult)) : BatcherM ProposalStatus :=
  active ← is_active id;
  if active : bool then
    s ← get_st;
    t ← expect (s.(validate_tx_streams) !! id);
    send_txs t txs completion;;
    mret Processing
  else
    proposal_result ← get_completed_proposal_result id;
    proposal_result ← expect proposal_result;
    match proposal_result with
    | inr _ => panic
    | inl e => lift_result (proposal_status_from e)
    end.

Definition handle_finish_proposal_request (id : N) (completion : ProposalResult) : BatcherM ProposalStatus :=
  s ← get_st;
  expect (s.(validate_tx_streams) !! id);;
  modify (λ s, set_streams s.(propose_tx_streams) (delete id s.(validate_tx_streams)) s);;
  active ← is_active id;
  (if active : bool then await_active_proposal completion else mret tt);;
  proposal_result ← get_completed_proposal_result id;
  proposal_result ← expect proposal_result;
  match proposal_result with
  | inr commitment => mret (Finished commitment)
  | inl e => lift_result (proposal_status_from e)
  end.

Definition handle_abort_proposal_request (id : N) : BatcherM ProposalStatus :=
  active ← is_active id;
  (if active : bool then
     abort_active_proposal;;
     modify (λ s, set_executed (<[id := inl Aborted]> s.(executed_proposals)) s)
   else mret tt);;
  modify (λ s, set_streams s.(propose_tx_streams) (delete id s.(validate_tx_streams)) s);;
  mret AbortedStatus.

(** With what the task does while the request is handled. *)
Inductive SendProposalContent :=
| SendTxs (txs : list ExecutableTransaction) (completion : option (nat * ProposalResult))
| SendFinish (completion : ProposalResult)
| SendAbort.

Definition send_proposal_content (id : N) (content : SendProposalContent) : BatcherM ProposalStatus :=
  s ← get_st;
  if decide (s.(validate_tx_streams) !! id = None) then throw (ProposalNotFound id) else
  match content with
  | SendTxs txs completion => handle_send_txs_request id txs completion
  | SendFinish completion => handle_finish_proposal_request id completion
  | SendAbort => handle_abort_proposal_request id
  end.

Definition get_height : BatcherM N := get_height_from_storage.

Inductive GetProposalContent :=
| ContentTxs (txs : list ExecutableTransaction)
| ContentFinished (commitment : N).

(** [None] as long as it waits for transactions or the end of the task. *)
Definition get_proposal_content (id : N) : BatcherM (option GetProposalContent) :=
  s ← get_st;
  match s.(propose_tx_streams) !! id with
  | None => throw (ProposalNotFound id)
  | Some t =>
      task ← expect (s.(tasks) !! t);
      let txs := take (N.to_nat outstream_content_buffer_size) task.(task_output) in
      if decide (task.(task_output) = [] ∧ task.(task_result) = None ∧ outstream_content_buffer_size ≠ 0) then mret None else
      if decide (txs = []) then
        modify (λ s, set_streams (delete id s.(propose_tx_streams)) s.(validate_tx_streams) s);;
        proposal_result ← get_completed_proposal_result id;
        proposal_result ← expect proposal_result;
        match proposal_result with
        | inr commitment => mret (Some (ContentFinished commitment))
        | inl _ => throw InternalError
        end
      else
        modify (set_task t (set_output (drop (N.to_nat outstream_content_buffer_size) task.(task_output))));;
        mret (Some (ContentTxs txs))
  end.

Definition commit_proposal_and_block (height : N) (diff : ThinStateDiff) (address_to_nonce : gmap N N) (tx_hashes : gset N)
    : BatcherM unit :=
  s ← get_st;
  match storage_commit_proposal height diff s.(batcher_storage) with
  | None => throw InternalError
  | Some storage =>
      modify (λ s, set_committed storage
        (s.(mempool_commits) ++ [{| Mempool.address_to_nonce := address_to_nonce; Mempool.tx_hashes := tx_hashes |}]) s)
  end.

Record SyncBlock := {
  sync_state_diff : ThinStateDiff;
  sync_transaction_hashes : list N;
  sync_block_number : N;
}.

Definition add_sync_block (sync_block : SyncBlock) : BatcherM unit :=
  s ← get_st;
  match s.(active_height) with
  | Some _ => abort_active_height;; modify (set_active_height None)
  | None => mret tt
  end;;
  height ← get_height_from_storage;
  if decide (height ≠ sync_block.(sync_block_number)) then panic else
  commit_proposal_and_block height sync_block.(sync_state_diff) sync_block.(sync_state_diff).(tsd_nonces)
    (list_to_set sync_block.(sync_transaction_hashes)).

(** The state diff and the gas of the block. *)
Definition decision_reached (id : N) : BatcherM (ThinStateDiff * N) :=
  s ← get_st;
  height ← match s.(active_height) with Some height => mret height | None => throw NoActiveHeight end;
  modify (λ s, set_executed (delete id s.(executed_proposals)) s);;
  match s.(executed_proposals) !! id with
  | None => throw (ExecutedProposalNotFound id)
  | Some (inl _) => throw InternalError
  | Some (inr artifacts) =>
      commit_proposal_and_block height (state_diff artifacts) (artifacts_address_to_nonce artifacts)
        (artifacts_tx_hashes artifacts);;
      mret (state_diff artifacts, artifacts.(l2_gas_used))
  end.
End batcher.
Arguments Task : clear implicits.
Arguments Batcher : clear implicits.
Arguments SendProposalContent : clear implicits.
