(* ===== verification/BatcherTheorems.v ===== *)
(** What the batcher promises about its proposals, for every order of requests and of the steps of the
    tasks that build blocks. *)
From S2P Require Import Prelude StarknetApi Mempool StateApi CachedState WorkerLogic BlockBuilder Batcher.

Section batcher.
Context {I E PE W St : Type} `{!BatcherStorage St}.
Context (state_diff_hash : ThinStateDiff → N) (buffer_size : N).
Abbreviation Artifacts := (BlockExecutionArtifacts I (StateMaps * W)).
Abbreviation ProposalResult := (BlockBuilderError E PE + Artifacts)%type.
Abbreviation Task := (Task I E PE W).
Abbreviation Batcher := (Batcher I E PE W St).
Abbreviation BatcherM := (M Batcher BatcherError).
Implicit Types (s : Batcher) (task : Task) (r : ProposalResult) (id : N) (t : nat).

(** ** Events *)

Inductive Event :=
| EvStartHeight (height : N)
| EvPropose (input : BlockInput)
| EvValidate (input : BlockInput)
| EvSend (id : N) (content : SendProposalContent I E PE W)
| EvGetContent (id : N)
| EvDecision (id : N)
| EvSync (sync_block : SyncBlock)
| EvTaskSends (t : nat) (tx : ExecutableTransaction)
| EvTaskFinishes (t : nat) (r : ProposalResult).

Definition handle (ev : Event) : BatcherM unit :=
  match ev with
  | EvStartHeight height => start_height height
  | EvPropose input => propose_block input
  | EvValidate input => validate_block input
  | EvSend id content => send_proposal_content state_diff_hash id content;; mret tt
  | EvGetContent id => get_proposal_content state_diff_hash buffer_size id;; mret tt
  | EvDecision id => decision_reached id;; mret tt
  | EvSync sync_block => add_sync_block sync_block
  | EvTaskSends t tx => modify (task_sends t tx)
  | EvTaskFinishes t r => modify (task_finishes t r)
  end.

Definition new_proposal s id : Prop := ∀ t task, s.(tasks) !! t = Some task → task.(task_proposal) ≠ id.

(** What consensus and the tasks keep to: an identifier is used for one proposal, the decided
    proposal is not still streamed, and a validator returns a block only after the end of its
    stream ([BuilderTheorems.validated_at_end]). *)
Definition allowed (ev : Event) s : Prop :=
  match ev with
  | EvPropose input | EvValidate input => new_proposal s input.(proposal_id)
  | EvSend _ (SendTxs _ (Some (_, r))) => ∃ e, r = inl e
  | EvTaskFinishes t r => (∃ id, s.(validate_tx_streams) !! id = Some t) → ∃ e, r = inl e
  | EvDecision id => s.(propose_tx_streams) !! id = None ∧ s.(validate_tx_streams) !! id = None
  | EvSync sync_block => ∀ height, storage_height s.(batcher_storage) = Some height → height = sync_block.(sync_block_number)
  | _ => True
  end.

(** A run in which requests may fail; [None] for a panic. *)
Fixpoint run (events : list Event) s : option Batcher :=
  match events with
  | [] => Some s
  | ev :: events =>
      match handle ev s with
      | (Panic, _) => None
      | (_, s) => run events s
      end
  end.

Fixpoint all_allowed (events : list Event) s : Prop :=
  match events with
  | [] => True
  | ev :: events => allowed ev s ∧ all_allowed events (handle ev s).2
  end.

(** ** The invariant *)

(** The task of the active proposal. *)
Definition running s id t : Prop :=
  s.(active_proposal) = Some id ∧ s.(active_proposal_task) = Some t ∧
  ∃ task, s.(tasks) !! t = Some task ∧ task.(task_proposal) = id ∧ task.(task_result) = None.

Definition task_of s id t : Prop := ∃ task, s.(tasks) !! t = Some task ∧ task.(task_proposal) = id.

(** The result of a proposal is the one of its own task, or the task was aborted. *)
Definition own_result s id r : Prop :=
  ∃ t task, s.(tasks) !! t = Some task ∧ task.(task_proposal) = id ∧
    (task.(task_result) = Some r ∨ (r = inl Aborted ∧ task.(task_aborted) = true)).

Record Inv s : Prop := {
  inv_distinct t t' task task' :
    s.(tasks) !! t = Some task → s.(tasks) !! t' = Some task' → task.(task_proposal) = task'.(task_proposal) → t = t';
  inv_active id : s.(active_proposal) = Some id →
    s.(executed_proposals) !! id = None ∧ ((∃ t, running s id t) ∨ new_proposal s id);
  inv_propose id t : s.(propose_tx_streams) !! id = Some t →
    task_of s id t ∧ (running s id t ∨ is_Some (s.(executed_proposals) !! id));
  inv_validate id t : s.(validate_tx_streams) !! id = Some t →
    task_of s id t ∧ (running s id t ∨ ∃ e, s.(executed_proposals) !! id = Some (inl e));
  inv_executed id r : s.(executed_proposals) !! id = Some r → own_result s id r;
}.

Lemma Inv_new (storage : St) : Inv (Batcher_new storage).
Proof. split; cbn; intros *; rewrite ?lookup_nil, ?lookup_empty; done. Qed.

(** A change of a task that leaves its proposal and its result, and does not take back an abort. *)
Lemma Inv_set_task t f s :
  (∀ task, (f task).(task_proposal) = task.(task_proposal) ∧ (f task).(task_result) = task.(task_result) ∧
     (task.(task_aborted) = true → (f task).(task_aborted) = true)) →
  Inv s → Inv (set_task t f s).
Proof.
  intros Hf [H1 H2 H3 H4 H5].
  assert (∀ t' task', alter f t s.(tasks) !! t' = Some task' → ∃ task, s.(tasks) !! t' = Some task ∧
    task'.(task_proposal) = task.(task_proposal) ∧ task'.(task_result) = task.(task_result)) as Hback.
  { intros t' task'. destruct (decide (t' = t)) as [->|Hne]; [|rewrite list_lookup_alter_ne by done; by eauto].
    rewrite list_lookup_alter_eq. intros (task&Hl&->)%fmap_Some. exists task. destruct (Hf task) as (?&?&_). auto. }
  assert (∀ t' task, s.(tasks) !! t' = Some task → ∃ task', alter f t s.(tasks) !! t' = Some task' ∧
    task'.(task_proposal) = task.(task_proposal) ∧ task'.(task_result) = task.(task_result) ∧
    (task.(task_aborted) = true → task'.(task_aborted) = true)) as Hforth.
  { intros t' task Hl. destruct (decide (t' = t)) as [->|Hne]; [|rewrite list_lookup_alter_ne by done; by eauto].
    rewrite list_lookup_alter_eq, Hl. eexists. split; [done|]. apply Hf. }
  assert (∀ id t', running s id t' → running (set_task t f s) id t') as Hrun.
  { intros id t' (?&?&task&(task'&Hl'&?&?&_)%Hforth&?&?). split; [done|]. split; [done|]. exists task'. split; [done|]. split; congruence. }
  assert (∀ id t', task_of s id t' → task_of (set_task t f s) id t') as Htask.
  { intros id t' (task&(task'&Hl'&?&?&_)%Hforth&?). exists task'. split; [done|congruence]. }
  split; cbn.
  - intros t1 t2 task1 task2 (?&?&?&_)%Hback (?&?&?&_)%Hback ?. eapply H1; [done..|congruence].
  - intros id [Hex [[t' Hr]|Hnew]]%H2; (split; [done|]); [left; eauto|right]. intros t' task' (task&Hl&->&_)%Hback. by eapply Hnew.
  - intros id t' [? [?|?]]%H3; eauto.
  - intros id t' [? [?|?]]%H4; eauto.
  - intros id r (t'&task&(task'&Hl'&?&Hres&?)%Hforth&?&Hcase)%H5. exists t', task'. split; [done|]. split; [congruence|].
    rewrite Hres. destruct Hcase as [?|[? ?]]; auto.
Qed.
(** The tasks after [t] has finished. *)
Lemma finished_tasks t r task (l : list Task) :
  l !! t = Some task →
  alter (finish_with r) t l !! t = Some (finish_with r task) ∧ ∀ t', t' ≠ t → alter (finish_with r) t l !! t' = l !! t'.
Proof. intros Hl. rewrite list_lookup_alter_eq, Hl. split; [done|]. intros t' Hne. by rewrite list_lookup_alter_ne. Qed.

(** What is kept when a task that is not the active one finishes. *)
Lemma Inv_finish_inactive t r task s :
  s.(tasks) !! t = Some task → task.(task_result) = None → s.(active_proposal) ≠ Some task.(task_proposal) →
  Inv s → Inv (set_task t (finish_with r) s).
Proof.
  intros Hl Hres Hact [H1 H2 H3 H4 H5]. destruct (finished_tasks t r task _ Hl) as [Hsame Hother].
  assert (∀ t' task', alter (finish_with r) t s.(tasks) !! t' = Some task' → ∃ task0, s.(tasks) !! t' = Some task0 ∧
    task'.(task_proposal) = task0.(task_proposal)) as Hback.
  { intros t' task'. destruct (decide (t' = t)) as [->|Hne]; [rewrite Hsame; intros [= <-]; by eauto|rewrite Hother by done; by eauto]. }
  assert (∀ id t', running s id t' → running (set_task t (finish_with r) s) id t') as Hrun.
  { intros id t' (Ha&?&task'&Hl'&Hp&Hr). split; [done|]. split; [done|]. exists task'. cbn.
    rewrite Hother; [by auto|]. intros ->. congruence. }
  assert (∀ id t', task_of s id t' → task_of (set_task t (finish_with r) s) id t') as Htask.
  { intros id t' (task'&Hl'&Hp). destruct (decide (t' = t)) as [->|Hne].
    - exists (finish_with r task). split; [done|]. cbn. congruence.
    - exists task'. cbn. by rewrite Hother. }
  split; cbn.
  - intros t1 t2 task1 task2 (?&?&?)%Hback (?&?&?)%Hback ?. eapply H1; [done..|congruence].
  - intros id [Hex [[t' Hr]|Hnew]]%H2; (split; [done|]); [left; eauto|right]. intros t' task' (task0&Hl'&->)%Hback. by eapply Hnew.
  - intros id t' [? [?|?]]%H3; eauto.
  - intros id t' [? [?|?]]%H4; eauto.
  - intros id r' (t'&task'&Hl'&Hp&Hcase)%H5. destruct (decide (t' = t)) as [->|Hne].
    + exists t, (finish_with r task). split; [done|]. assert (task' = task) as -> by congruence. split; [done|].
      right. destruct Hcase as [|]; [congruence|done].
    + exists t', task'. cbn. by rewrite Hother.
Qed.

Lemma Inv_finishes t r s :
  ((∃ id, s.(validate_tx_streams) !! id = Some t) → ∃ e, r = inl e) → Inv s → Inv (task_finishes t r s).
Proof.
  intros Hr HI. unfold task_finishes. destruct (tasks s !! t) as [task|] eqn:Hl; [|done].
  destruct (task_result task) eqn:Hres; [done|]. cbn. case_decide as Hact; [|by eapply Inv_finish_inactive].
  destruct HI as [H1 H2 H3 H4 H5]. destruct (finished_tasks t r task _ Hl) as [Hsame Hother].
  assert (∀ t' task', alter (finish_with r) t s.(tasks) !! t' = Some task' → ∃ task0, s.(tasks) !! t' = Some task0 ∧
    task'.(task_proposal) = task0.(task_proposal)) as Hback.
  { intros t' task'. destruct (decide (t' = t)) as [->|Hne]; [rewrite Hsame; intros [= <-]; by eauto|rewrite Hother by done; by eauto]. }
  assert (∀ id t', task_of s id t' → ∃ task', alter (finish_with r) t s.(tasks) !! t' = Some task' ∧ task'.(task_proposal) = id) as Htask.
  { intros id t' (task'&Hl'&Hp). destruct (decide (t' = t)) as [->|Hne].
    - exists (finish_with r task). split; [done|]. cbn. congruence.
    - exists task'. cbn. by rewrite Hother. }
  assert (∀ id t', running s id t' → id = task.(task_proposal)) as Hrun by (intros id t' (?&_); congruence).
  split; cbn.
  - intros t1 t2 task1 task2 (?&?&?)%Hback (?&?&?)%Hback ?. eapply H1; [done..|congruence].
  - done.
  - intros id t' [Ht Hcase]%H3. split; [by apply Htask|]. right. rewrite lookup_insert_is_Some'. destruct Hcase as [->%Hrun|?]; auto.
  - intros id t' Hv. destruct (H4 id t' Hv) as [Ht Hcase]. split; [by apply Htask|]. right.
    destruct (decide (id = task.(task_proposal))) as [->|Hne].
    + rewrite lookup_insert_eq. destruct Ht as (task'&Hl'&Hp). assert (t' = t) as -> by (by eapply H1).
      destruct Hr as [e ->]; eauto.
    + rewrite lookup_insert_ne by done. destruct Hcase as [?%Hrun|?]; [done|done].
  - intros id r'. rewrite lookup_insert_Some. intros [[<- <-]|[Hne (t'&task'&Hl'&Hp&Hcase)%H5]].
    + exists t, (finish_with r task). by auto.
    + exists t', task'. cbn. rewrite Hother; [by auto|]. intros ->. congruence.
Qed.
(** The invariant is about the proposals only. *)
Lemma Inv_ext s s' :
  s'.(active_proposal) = s.(active_proposal) → s'.(active_proposal_task) = s.(active_proposal_task) →
  s'.(executed_proposals) = s.(executed_proposals) → s'.(propose_tx_streams) = s.(propose_tx_streams) →
  s'.(validate_tx_streams) = s.(validate_tx_streams) → s'.(tasks) = s.(tasks) → Inv s → Inv s'.
Proof.
  intros Ha Ht He Hp Hv Hl [H1 H2 H3 H4 H5].
  split; unfold running, task_of, own_result, new_proposal; rewrite ?Ha, ?Ht, ?He, ?Hp, ?Hv, ?Hl; done.
Qed.

Definition clear_height s : Batcher := set_streams ∅ ∅ (set_executed ∅ (set_active None None s)).

Lemma Inv_clear s : Inv s → Inv (clear_height s).
Proof. intros [H1 _ _ _ _]. split; cbn; [done|done|intros *; by rewrite lookup_empty..]. Qed.

Lemma abort_active_height_run s : Inv s → ∃ s', abort_active_height s = (Ok tt, s') ∧ Inv s' ∧ s'.(batcher_storage) = s.(batcher_storage).
Proof.
  intros HI. unfold abort_active_height, abort_active_proposal, mbind, M_bind, get_st, modify. cbn.
  destruct (active_proposal_task s) as [t|]; cbn; eexists; (split; [done|]); (split; [|done]).
  - apply (Inv_ext (set_task t abort_task (clear_height s))); [done..|]. apply Inv_set_task; [done|]. by apply Inv_clear.
  - by apply Inv_clear.
Qed.

Lemma Inv_activate id s :
  Inv s → s.(active_proposal) = None → s.(executed_proposals) !! id = None → new_proposal s id →
  Inv (set_active (Some id) s.(active_proposal_task) s).
Proof.
  intros [H1 H2 H3 H4 H5] Ha He Hn.
  assert (∀ id' t, ¬ running s id' t) as Hrun by (intros id' t (?&_); congruence).
  split; cbn; [done|by intros id' [= <-]; auto|..|done].
  - intros id' t [? [?%Hrun|?]]%H3; [done|by auto].
  - intros id' t [? [?%Hrun|?]]%H4; [done|by auto].
Qed.

Definition spawned id s : Batcher :=
  set_active s.(active_proposal) (Some (length s.(tasks)))
    (set_tasks (s.(tasks) ++ [{| task_proposal := id; task_aborted := false; task_input := []; task_output := [];
                                 task_result := None |}]) s).

Lemma Inv_spawn id s :
  Inv s → s.(active_proposal) = Some id → new_proposal s id →
  Inv (spawned id s) ∧ running (spawned id s) id (length s.(tasks)).
Proof.
  intros [H1 H2 H3 H4 H5] Ha Hn. assert (running (spawned id s) id (length s.(tasks))) as Hr.
  { split; [done|]. split; [done|]. eexists. cbn. by rewrite list_lookup_middle. }
  split; [|done]. assert (∀ id' t, ¬ running s id' t) as Hnot.
  { intros id' t (?&_&task&Hl&Hp&_). apply (Hn t task Hl). congruence. }
  assert (∀ t task, s.(tasks) !! t = Some task → (spawned id s).(tasks) !! t = Some task) as Hold by (intros; by apply lookup_app_l_Some).
  assert (∀ id' t, task_of s id' t → task_of (spawned id s) id' t) as Htask.
  { intros id' t (task&Hl&?). exists task. auto. }
  split.
  - intros t t' task task'. cbn. intros [Hl|[Hge Hl]]%lookup_app_Some [Hl'|[Hge' Hl']]%lookup_app_Some Heq; [by eapply H1|..].
    + apply list_lookup_singleton_Some in Hl' as [_ <-]. cbn in Heq. by destruct (Hn t task Hl).
    + apply list_lookup_singleton_Some in Hl as [_ <-]. cbn in Heq. by destruct (Hn t' task' Hl').
    + apply list_lookup_singleton_Some in Hl as [? _], Hl' as [? _]. lia.
  - cbn. intros id' Hid. assert (id' = id) as -> by congruence. split; [by apply H2|]. left. by exists (length s.(tasks)).
  - cbn. intros id' t [? [?%Hnot|?]]%H3; [done|by auto].
  - cbn. intros id' t [? [?%Hnot|?]]%H4; [done|by auto].
  - cbn. intros id' r (t&task&?&?&?)%H5. exists t, task. auto.
Qed.

Lemma Inv_stream id t s :
  Inv s → running s id t →
  Inv (set_streams (<[id := t]> s.(propose_tx_streams)) s.(validate_tx_streams) s) ∧
  Inv (set_streams s.(propose_tx_streams) (<[id := t]> s.(validate_tx_streams)) s).
Proof.
  intros [H1 H2 H3 H4 H5] Hr. assert (task_of s id t) as Ht by (destruct Hr as (_&_&task&?&?&_); by exists task).
  split; split; try done; cbn; intros id' t'; rewrite lookup_insert_Some; intros [[<- <-]|[_ ?]]; auto.
  - by apply H3.
  - by apply H4.
Qed.

(** The request does not panic and keeps the invariant. *)
Definition safe {A} (m : BatcherM A) s : Prop := wp m s (λ res s', res ≠ Panic ∧ Inv s').

Lemma start_proposal_spec input s :
  Inv s → new_proposal s input.(proposal_id) →
  wp (start_proposal input) s (λ res s', match res with
    | Ok t => Inv s' ∧ running s' input.(proposal_id) t
    | Err _ => Inv s'
    | Panic => False end).
Proof.
  intros HI Hn. unfold start_proposal, verify_block_input, verify_non_empty_retrospective_block_hash, verify_block_number,
    set_active_proposal, spawn_proposal, wp, mbind, M_bind, get_st, modify. cbn.
  destruct (active_height s); [|done]. cbn. case_decide; [done|]. cbn. case_decide; [done|]. cbn.
  case_decide as He; [done|]. apply eq_None_not_Some in He. destruct (active_proposal s) as [|] eqn:Ha; [done|]. cbn.
  pose proof (Inv_activate _ s HI Ha He Hn) as HI'.
  destruct (deadline_passed input); [done|]. destruct (builder_created input); [|done]. cbn.
  exact (Inv_spawn _ (set_active (Some input.(proposal_id)) s.(active_proposal_task) s) HI' eq_refl Hn).
Qed.

Lemma propose_safe input s : Inv s → new_proposal s input.(proposal_id) → safe (propose_block input) s ∧ safe (validate_block input) s.
Proof.
  intros HI Hn. split; apply wp_bind; (eapply wp_mono; [by apply start_proposal_spec|]); intros [t|e|] s' Hr; try done;
    destruct Hr as [HI' Hr]; (split; [done|]); by apply Inv_stream.
Qed.

Lemma start_height_safe height s : Inv s → safe (start_height height) s.
Proof.
  intros HI. unfold start_height, get_height_from_storage, safe, wp, mbind, M_bind, get_st. cbn.
  case_decide; [done|]. destruct (storage_height _); [|done]. cbn. case_decide; [done|]. case_decide; [done|].
  destruct (abort_active_height_run s HI) as (s'&->&HI'&_). cbn. split; [done|]. by apply (Inv_ext s').
Qed.

Lemma commit_safe height diff nonces hashes s : Inv s → safe (commit_proposal_and_block height diff nonces hashes) s.
Proof.
  intros HI. unfold commit_proposal_and_block, safe, wp, mbind, M_bind, get_st. cbn.
  destruct (storage_commit_proposal _ _ _); [|done]. cbn. split; [done|]. by apply (Inv_ext s).
Qed.

Lemma sync_safe sync_block s :
  Inv s → (∀ height, storage_height s.(batcher_storage) = Some height → height = sync_block.(sync_block_number)) →
  safe (add_sync_block sync_block) s.
Proof.
  intros HI Hh. unfold add_sync_block. apply wp_get_st, wp_bind.
  apply (wp_mono _ _ (λ res s', res = Ok tt ∧ Inv s' ∧ s'.(batcher_storage) = s.(batcher_storage))).
  - destruct (active_height s); [|done]. destruct (abort_active_height_run s HI) as (s'&Hrun&HI'&Hst).
    unfold wp, mbind, M_bind. rewrite Hrun. cbn. split; [done|]. split; [by apply (Inv_ext s')|done].
  - intros res s' (->&HI'&Hst). unfold get_height_from_storage. apply wp_bind, wp_get_st. rewrite Hst.
    destruct (storage_height _) as [height|] eqn:Hheight; [|done]. unfold wp at 1. cbn.
    rewrite decide_False; [by apply commit_safe|]. intros Hne. by apply Hne, Hh.
Qed.

Lemma decision_safe id s :
  Inv s → s.(propose_tx_streams) !! id = None → s.(validate_tx_streams) !! id = None → safe (decision_reached id) s.
Proof.
  intros HI Hp Hv. unfold decision_reached, safe. apply wp_get_st. destruct (active_height s) as [height|]; [|done].
  eapply wp_bind. unfold wp at 1. cbn. apply wp_modify.
  assert (Inv (set_executed (delete id s.(executed_proposals)) s)) as HI'.
  { destruct HI as [H1 H2 H3 H4 H5]. split; cbn; [done|..].
    - intros id' [He Hcase]%H2. split; [|done]. rewrite lookup_delete_None. auto.
    - intros id' t Ht. assert (id' ≠ id) by congruence. rewrite lookup_delete_ne by done. by apply H3.
    - intros id' t Ht. assert (id' ≠ id) by congruence. rewrite lookup_delete_ne by done. by apply H4.
    - intros id' r [_ ?]%lookup_delete_Some. by apply H5. }
  destruct (executed_proposals s !! id) as [[e|artifacts]|]; [done| |done].
  apply wp_bind. eapply wp_mono; [by apply commit_safe|]. intros [[]|e|] s' [? ?]; done.
Qed.

(** The result of a proposal that is not active. *)
Lemma stream_done id t s :
  Inv s → s.(validate_tx_streams) !! id = Some t → s.(active_proposal) ≠ Some id →
  ∃ e, s.(executed_proposals) !! id = Some (inl e).
Proof. intros HI Hv Ha. destruct (inv_validate _ HI id t Hv) as [_ [[? _]|?]]; [congruence|done]. Qed.

Lemma stream_running id t s :
  Inv s → s.(validate_tx_streams) !! id = Some t → s.(active_proposal) = Some id → running s id t.
Proof.
  intros HI Hv Ha. destruct (inv_validate _ HI id t Hv) as [_ [?|[e He]]]; [done|].
  destruct (inv_active _ HI id Ha). congruence.
Qed.

Lemma status_not_panic (e : BlockBuilderError E PE) : proposal_status_from e ≠ Panic.
Proof. by destruct e. Qed.

Lemma send_txs_safe t txs completion s :
  Inv s → (∀ n r, completion = Some (n, r) → ∃ e, r = inl e) → safe (send_txs t txs completion) s.
Proof.
  revert completion s. induction txs as [|tx txs IH]; intros completion s HI Hc; [done|]. cbn [send_txs]. apply wp_bind.
  apply (wp_mono _ _ (λ res s', res = Ok tt ∧ Inv s')).
  { destruct completion as [[[|n] r]|]; [|done..]. split; [done|]. apply Inv_finishes; [|done]. intros _. by eapply Hc. }
  intros res s' [-> HI']. apply wp_get_st. destruct (tasks s' !! t ≫= task_result); [done|]. apply wp_modify.
  apply IH; [by apply Inv_set_task|]. destruct completion as [[[|n] r]|]; [done| |done]. intros n' r' [= _ <-]. by eapply Hc.
Qed.

Lemma handle_send_txs_safe id t txs completion s :
  Inv s → s.(validate_tx_streams) !! id = Some t → (∀ n r, completion = Some (n, r) → ∃ e, r = inl e) →
  safe (handle_send_txs_request state_diff_hash id txs completion) s.
Proof.
  intros HI Hv Hc. unfold handle_send_txs_request, safe. apply wp_bind. unfold wp at 1. cbn.
  destruct (bool_decide _) eqn:Ha.
  - apply wp_get_st. rewrite Hv. apply wp_bind. unfold wp at 1. cbn. apply wp_bind.
    eapply wp_mono; [by apply send_txs_safe|]. intros [[]|e|] s' [? ?]; done.
  - apply bool_decide_eq_false in Ha. destruct (stream_done id t s HI Hv Ha) as [e He].
    unfold get_completed_proposal_result, wp, mbind, M_bind, get_st. cbn. rewrite He. cbn.
    split; [apply status_not_panic|done].
Qed.

Lemma Inv_forget x s : Inv s → s.(active_proposal) = None → Inv (set_active None x s).
Proof.
  intros [H1 H2 H3 H4 H5] Ha. assert (∀ id' t, ¬ running s id' t) as Hrun by (intros id' t (?&_); congruence).
  split; cbn; [done|done|..|done].
  - intros id' t [? [?%Hrun|?]]%H3; [done|by auto].
  - intros id' t [? [?%Hrun|?]]%H4; [done|by auto].
Qed.

Lemma Inv_close id s :
  Inv s → Inv (set_streams s.(propose_tx_streams) (delete id s.(validate_tx_streams)) s) ∧
    Inv (set_streams (delete id s.(propose_tx_streams)) s.(validate_tx_streams) s).
Proof.
  intros [H1 H2 H3 H4 H5]. split; split; try done; cbn; intros id' t [_ ?]%lookup_delete_Some; [by apply H4|by apply H3].
Qed.

Lemma handle_finish_safe id t r s :
  Inv s → s.(validate_tx_streams) !! id = Some t → safe (handle_finish_proposal_request state_diff_hash id r) s.
Proof.
  intros HI Hv. unfold handle_finish_proposal_request, safe. apply wp_get_st. rewrite Hv. apply wp_bind. unfold wp at 1. cbn.
  apply wp_modify. set (s1 := set_streams _ _ s). assert (Inv s1) as HI1 by (by apply Inv_close).
  apply wp_bind. unfold wp at 1. cbn. destruct (bool_decide _) eqn:Ha.
  - apply bool_decide_eq_true in Ha. destruct (stream_running id t s HI Hv Ha) as (_&Ht&task&Hl&Hp&Hres).
    unfold await_active_proposal, get_completed_proposal_result, wp, mbind, M_bind, get_st, modify. cbn. rewrite Ht. cbn.
    unfold task_finishes. cbn. rewrite Hl, Hres. cbn. rewrite decide_True by congruence. cbn. rewrite Hp, lookup_insert_eq.
    assert (Inv (task_finishes t r s1)) as HI2.
    { apply Inv_finishes; [|done]. cbn. intros [id' [Hne Hv']%lookup_delete_Some].
      destruct (inv_validate _ HI id' t Hv') as [(task'&?&?) _]. destruct Hne. congruence. }
    unfold task_finishes in HI2. cbn in HI2. rewrite Hl, Hres in HI2. cbn in HI2. rewrite decide_True in HI2 by congruence.
    rewrite Hp in HI2. apply (Inv_forget None) in HI2; [|done].
    destruct r as [e|artifacts]; cbn; (split; [by apply status_not_panic||done|]); by apply (Inv_ext _ _ eq_refl eq_refl eq_refl eq_refl eq_refl eq_refl HI2).
  - apply bool_decide_eq_false in Ha. destruct (stream_done id t s HI Hv Ha) as [e He].
    unfold get_completed_proposal_result, wp, mbind, M_bind, get_st. cbn. rewrite He. cbn. split; [apply status_not_panic|done].
Qed.

(** The active proposal is aborted by a request. *)
Definition aborted id t s : Batcher :=
  set_executed (<[id := inl Aborted]> s.(executed_proposals)) (set_task t abort_task (set_active None None s)).

Lemma Inv_abort id t s : Inv s → running s id t → Inv (aborted id t s).
Proof.
  intros HI (Ha&Ht&task&Hl&Hp&Hres).
  assert (Inv (set_task t abort_task s)) as [H1 H2 H3 H4 H5] by (by apply Inv_set_task).
  assert (∀ id' t', running (set_task t abort_task s) id' t' → id' = id) as Hrun by (intros id' t' (?&_); cbn in *; congruence).
  split.
  - done.
  - done.
  - intros id' t' [? Hcase]%H3. split; [done|]. right. cbn. rewrite lookup_insert_is_Some'. destruct Hcase as [->%Hrun|?]; auto.
  - intros id' t' [? Hcase]%H4. split; [done|]. right. cbn. destruct (decide (id' = id)) as [->|Hne].
    + rewrite lookup_insert_eq. by eexists.
    + rewrite lookup_insert_ne by done. by destruct Hcase as [?%Hrun|?].
  - intros id' r. cbn. rewrite lookup_insert_Some. intros [[<- <-]|[_ ?]]; [|by apply H5].
    exists t, (abort_task task). cbn. rewrite list_lookup_alter_eq, Hl. by auto.
Qed.

Lemma handle_abort_safe id t s :
  Inv s → s.(validate_tx_streams) !! id = Some t → safe (handle_abort_proposal_request id) s.
Proof.
  intros HI Hv. unfold handle_abort_proposal_request, safe. apply wp_bind. unfold wp at 1. cbn.
  destruct (bool_decide _) eqn:Ha.
  - apply bool_decide_eq_true in Ha. pose proof (stream_running id t s HI Hv Ha) as Hr. pose proof (Inv_abort id t s HI Hr) as HI'.
    destruct Hr as (_&Ht&_). unfold abort_active_proposal, wp, mbind, M_bind, get_st, modify. cbn. rewrite Ht. cbn.
    split; [done|]. by apply (Inv_close id (aborted id t s)).
  - unfold wp, mbind, M_bind, modify. cbn. split; [done|]. by apply Inv_close.
Qed.

Hypothesis buffer_size_pos : buffer_size ≠ 0.

Lemma get_content_safe id s : Inv s → safe (get_proposal_content state_diff_hash buffer_size id) s.
Proof.
  intros HI. unfold get_proposal_content, safe. apply wp_get_st. destruct (propose_tx_streams s !! id) as [t|] eqn:Hp; [|done].
  destruct (inv_propose _ HI id t Hp) as [(task&Hl&_) Hcase]. rewrite Hl. apply wp_bind. unfold wp at 1. cbn.
  case_decide as Hwait; [done|]. case_decide as Htxs; [|by split; [|apply Inv_set_task]].
  assert (task_output task = []) as Hout.
  { destruct (task_output task); [done|]. destruct (N.to_nat buffer_size) eqn:Hn; [lia|done]. }
  apply wp_modify. unfold get_completed_proposal_result, wp, mbind, M_bind, get_st. cbn.
  assert (is_Some (s.(executed_proposals) !! id)) as [r Hr].
  { destruct Hcase as [(_&_&task'&?&_&?)|?]; [|done]. destruct Hwait. split_and!; [done|congruence|done]. }
  rewrite Hr. destruct r as [e|artifacts]; cbn; (split; [done|]); by apply Inv_close.
Qed.

Lemma handle_safe ev s : Inv s → allowed ev s → safe (handle ev) s.
Proof.
  intros HI Hev. destruct ev as [height|input|input|id content|id|id|b|t tx|t r]; cbn [handle allowed] in *.
  - by apply start_height_safe.
  - by apply propose_safe.
  - by apply propose_safe.
  - apply wp_bind. apply (wp_mono _ _ (λ res s', res ≠ Panic ∧ Inv s')); [|by intros [] s' [? ?]].
    unfold send_proposal_content. apply wp_get_st. case_decide as Hv; [done|]. apply not_eq_None_Some in Hv as [t Hv].
    destruct content as [txs completion|r|]; [|by eapply handle_finish_safe|by eapply handle_abort_safe].
    eapply handle_send_txs_safe; [done..|]. intros n r ->. done.
  - apply wp_bind. eapply wp_mono; [by apply get_content_safe|]. by intros [] s' [? ?].
  - apply wp_bind. eapply wp_mono; [by apply decision_safe; tauto|]. by intros [] s' [? ?].
  - by apply sync_safe.
  - split; [done|]. cbn. unfold task_sends. destruct (tasks s !! t) as [task|]; [|done]. destruct (task_result task); [done|].
    by apply Inv_set_task.
  - split; [done|]. by apply Inv_finishes.
Qed.

(** C7: whatever the order of requests, of transactions that tasks stream out and of tasks that finish,
    in a run that keeps to the protocol of the batcher no request panics, and the result that is
    kept for a proposal is the one of the task that built this very proposal, or the proposal was
    aborted: never the result of another proposal, or of one of an earlier height. *)
Theorem batcher_results_own storage events :
  all_allowed events (Batcher_new storage) →
  ∃ s, run events (Batcher_new storage) = Some s ∧
    ∀ id r, s.(executed_proposals) !! id = Some r → own_result s id r.
Proof.
  intros Hall. assert (∀ s, Inv s → all_allowed events s → ∃ s', run events s = Some s' ∧ Inv s') as Hrun.
  { clear Hall. induction events as [|ev events IH]; intros s HI; cbn; [by eauto|]. intros [Hev Hall].
    destruct (handle_safe ev s HI Hev) as [Hp HI']. destruct (handle ev s) as [[|e|] s']; [by apply IH..|done]. }
  destruct (Hrun _ (Inv_new storage) Hall) as (s&Hr&HI). exists s. split; [done|]. apply HI.
Qed.

(** ** A proposal that cannot be started *)

(** The proposal is active, but nothing builds it. *)
Record blocked (height id : N) s : Prop := {
  bl_height : s.(active_height) = Some height;
  bl_active : s.(active_proposal) = Some id;
  bl_no_task : new_proposal s id;
  bl_no_stream : s.(validate_tx_streams) !! id = None;
}.

(** Events within a height. *)
Definition within (height : N) (ev : Event) : Prop :=
  match ev with
  | EvStartHeight h => h = height
  | EvSync _ => False
  | _ => True
  end.

Lemma blocked_refuses height id input s : blocked height id s → ∃ e, start_proposal input s = (Err e, s).
Proof.
  intros [Hh Ha _ _]. unfold start_proposal, verify_block_input, verify_non_empty_retrospective_block_hash, verify_block_number,
    set_active_proposal, mbind, M_bind, get_st. cbn. rewrite Hh. cbn. case_decide; [by eauto|]. cbn.
  case_decide; [by eauto|]. cbn. case_decide; [by eauto|]. rewrite Ha. by eauto.
Qed.

Lemma blocked_set_task height id t f s :
  (∀ task, (f task).(task_proposal) = task.(task_proposal)) → blocked height id s → blocked height id (set_task t f s).
Proof.
  intros Hf [? ? Hn ?]. split; try done. intros t' task'. cbn. destruct (decide (t' = t)) as [->|Hne].
  - rewrite list_lookup_alter_eq. intros (task&Hl&->)%fmap_Some. rewrite Hf. by eapply Hn.
  - rewrite list_lookup_alter_ne by done. apply Hn.
Qed.

Lemma blocked_streams height id p v s :
  (v = s.(validate_tx_streams) ∨ ∃ id', v = delete id' s.(validate_tx_streams)) → blocked height id s → blocked height id (set_streams p v s).
Proof. intros Hv [? ? ? ?]. split; try done. cbn. destruct Hv as [->|[id' ->]]; [done|]. rewrite lookup_delete_None. auto. Qed.

Lemma blocked_finishes height id t r s : blocked height id s → blocked height id (task_finishes t r s).
Proof.
  intros Hb. unfold task_finishes. destruct (tasks s !! t) as [task|] eqn:Hl; [|done]. destruct (task_result task); [done|].
  rewrite decide_False; [by apply blocked_set_task|]. cbn. rewrite (bl_active _ _ _ Hb). intros [= Heq].
  by apply (bl_no_task _ _ _ Hb t task Hl).
Qed.

Lemma blocked_send height id id' content s :
  blocked height id s → blocked height id (send_proposal_content state_diff_hash id' content s).2.
Proof.
  intros Hb. unfold send_proposal_content, mbind, M_bind, get_st. cbn. case_decide as Hv; [done|].
  assert (id' ≠ id) as Hne by (intros ->; by apply Hv, (bl_no_stream _ _ _ Hb)).
  assert (bool_decide (s.(active_proposal) = Some id') = false) as Ha.
  { apply bool_decide_eq_false. rewrite (bl_active _ _ _ Hb). congruence. }
  destruct content as [txs completion|r|].
  - unfold handle_send_txs_request, is_active, get_completed_proposal_result, mbind, M_bind, gets, get_st. cbn. rewrite Ha. cbn.
    destruct (executed_proposals s !! id') as [[e|artifacts]|]; done.
  - apply not_eq_None_Some in Hv as [t Hv].
    unfold handle_finish_proposal_request, is_active, get_completed_proposal_result, mbind, M_bind, gets, get_st. cbn.
    rewrite Hv. cbn. rewrite Ha. cbn.
    destruct (executed_proposals s !! id') as [[e|artifacts]|]; cbn; apply blocked_streams; eauto.
  - unfold handle_abort_proposal_request, is_active, mbind, M_bind, gets. cbn. rewrite Ha. cbn. apply blocked_streams; eauto.
Qed.

Lemma blocked_step height id ev s : blocked height id s → within height ev → blocked height id (handle ev s).2.
Proof.
  intros Hb Hev. destruct ev as [h|input|input|id' content|id'|id'|b|t tx|t r]; cbn [handle within] in *.
  - subst h. unfold start_height, mbind, M_bind, get_st. cbn. by rewrite decide_True by apply Hb.
  - unfold propose_block, mbind, M_bind. by destruct (blocked_refuses height id input s Hb) as [e ->].
  - unfold validate_block, mbind, M_bind. by destruct (blocked_refuses height id input s Hb) as [e ->].
  - pose proof (blocked_send height id id' content s Hb) as Hs. unfold mbind, M_bind.
    by destruct (send_proposal_content _ _ _ _) as [[] s'].
  - unfold get_proposal_content, get_completed_proposal_result, mbind, M_bind, get_st. cbn. destruct (propose_tx_streams s !! id') as [t|]; [|done].
    destruct (tasks s !! t) as [task|]; [|done]. cbn. case_decide; [done|]. case_decide; cbn; [|by apply blocked_set_task].
    destruct (executed_proposals s !! id') as [[e|artifacts]|]; cbn; apply blocked_streams; eauto.
  - unfold decision_reached, mbind, M_bind, get_st. cbn. rewrite (bl_height _ _ _ Hb). cbn.
    destruct Hb. destruct (executed_proposals s !! id') as [[e|artifacts]|]; [done| |done]. cbn.
    unfold commit_proposal_and_block, mbind, M_bind, get_st. cbn. by destruct (storage_commit_proposal _ _ _).
  - done.
  - cbn. unfold task_sends. destruct (tasks s !! t) as [task|]; [|done]. destruct (task_result task); [done|].
    by apply blocked_set_task.
  - by apply blocked_finishes.
Qed.

(** C29: a proposal that cannot be started, because its deadline has passed or the builder cannot be
    created, is refused but stays the active one, although nothing builds it. From then on every
    other proposal of the height is refused too, whatever happens within the height. *)
Theorem failed_start_blocks_height height input s events s' :
  s.(active_height) = Some height → s.(active_proposal) = None → input.(block_number) = height →
  is_Some input.(retrospective_block_hash) → input.(deadline_passed) || negb input.(builder_created) = true →
  s.(executed_proposals) !! input.(proposal_id) = None → new_proposal s input.(proposal_id) →
  s.(validate_tx_streams) !! input.(proposal_id) = None →
  Forall (within height) events → run (EvPropose input :: events) s = Some s' →
  ∀ input', ∃ e, propose_block input' s' = (Err e, s') ∧ validate_block input' s' = (Err e, s').
Proof.
  intros Hh Ha Hn [hash Hr] Hfail He Hnew Hv Hev Hrun.
  assert (∃ e s1, propose_block input s = (Err e, s1) ∧ blocked height input.(proposal_id) s1) as (e&s1&Hprop&Hb).
  { exists (if input.(deadline_passed) then TimeToDeadlineError else InternalError),
      (set_active (Some input.(proposal_id)) s.(active_proposal_task) s). split; [|by split].
    unfold propose_block, start_proposal, verify_block_input, verify_non_empty_retrospective_block_hash, verify_block_number,
      set_active_proposal, mbind, M_bind, get_st, modify. cbn. rewrite Hh. cbn. rewrite Hr, decide_False by (by intros [_ ?]).
    cbn. rewrite decide_False by auto. cbn. rewrite He, decide_False by (by intros [? ?]). rewrite Ha. cbn.
    destruct (deadline_passed input); [done|]. by destruct (builder_created input). }
  cbn [run handle] in Hrun. rewrite Hprop in Hrun. assert (blocked height input.(proposal_id) s') as Hb'.
  { clear -Hb Hev Hrun. revert s1 Hb Hrun. induction Hev as [|ev events Hev _ IH]; intros s1 Hb; cbn; [by intros [= <-]|].
    pose proof (blocked_step _ _ ev s1 Hb Hev) as Hb'. destruct (handle ev s1) as [[|e|] s2]; [by apply IH..|done]. }
  intros input'. destruct (blocked_refuses _ _ input' s' Hb') as [e' He']. exists e'.
  unfold propose_block, validate_block, mbind, M_bind. by rewrite He'.
Qed.
End batcher.

(** ** An example *)

Module BatcherExample.
(** A storage that has the diffs of the blocks. *)
#[export] Instance diffs : BatcherStorage (list ThinStateDiff) := {|
  storage_height := λ st, Some (N.of_nat (length st));
  storage_commit_proposal := λ h d st, if decide (h = N.of_nat (length st)) then Some (st ++ [d]) else None;
|}.

Lemma diffs_laws : BatcherStorageLaws (list ThinStateDiff).
Proof.
  split; cbn; intros h d st st'; case_decide; intros [= <-]; [by subst|]. rewrite length_app. cbn. f_equal. lia.
Qed.

Definition input (id height : N) (late : bool) : BlockInput :=
  {| proposal_id := id; block_number := height; retrospective_block_hash := Some (0, 0); deadline_passed := late;
     builder_created := true |}.

Definition artifacts : BlockExecutionArtifacts unit (StateMaps * unit) :=
  {| execution_infos := []; block_result := (StateMaps_default, tt); l2_gas_used := 0 |}.

Abbreviation Event := (Event (I := unit) (E := unit) (PE := unit) (W := unit)).
Abbreviation Batcher := (Batcher unit unit unit unit (list ThinStateDiff)).

(** A proposal is built and decided; in the next height one is aborted, and another is validated. *)
Definition events : list Event :=
  [EvStartHeight 0; EvPropose (input 1 0 false); EvTaskFinishes 0 (inr artifacts); EvGetContent 1; EvDecision 1;
   EvStartHeight 1; EvValidate (input 2 1 false); EvSend 2 SendAbort; EvTaskFinishes 1 (inr artifacts);
   EvValidate (input 3 1 false); EvSend 3 (SendTxs [] None); EvSend 3 (SendFinish (inr artifacts))].

Lemma batcher_results_own_witness :
  ∃ s, run (λ _, 7) 10 events (Batcher_new ([] : list ThinStateDiff)) = Some s ∧
    is_Some (s.(executed_proposals) !! 3) ∧ ∀ id r, s.(executed_proposals) !! id = Some r → own_result s id r.
Proof.
  assert (all_allowed (λ _, 7) 10 events (Batcher_new ([] : list ThinStateDiff))) as Hall.
  { cbn -[decide N.to_nat]. unfold new_proposal. cbn. split_and!; try done.
    - intros [id Hid]. vm_compute in Hid. by destruct id.
    - intros [|[|t]] task; vm_compute; by intros [= <-].
    - intros [id Hid]. vm_compute in Hid. by destruct id.
    - intros [|[|[|t]]] task; vm_compute; by intros [= <-]. }
  destruct (batcher_results_own (λ _, 7) 10 ltac:(done) ([] : list ThinStateDiff) events Hall) as (s&Hrun&Hown).
  exists s. split; [done|]. split; [|done].
  assert (is_Some (run (λ _, 7) 10 events (Batcher_new []) ≫= λ s, s.(executed_proposals) !! 3)) as Hsome by (vm_compute; by eexists).
  by rewrite Hrun in Hsome.
Defined.

Definition started : Batcher := set_active_height (Some 0) (Batcher_new []).

Lemma failed_start_blocks_height_witness :
  ∃ s', run (λ _, 7) 10 [EvPropose (input 1 0 true); EvStartHeight 0; EvPropose (input 2 0 false)] started = Some s' ∧
    ∀ input', ∃ e, propose_block input' s' = (Err e, s') ∧ validate_block input' s' = (Err e, s').
Proof.
  eexists. split; [by vm_compute|].
  eapply (failed_start_blocks_height (λ _, 7) 10 0 (input 1 0 true) started [EvStartHeight 0; EvPropose (input 2 0 false)]);
    try done; by repeat constructor.
Defined.
End BatcherExample.
