(* ===== verification/ConsensusContext.v ===== *)
(** The context through which consensus builds, validates and commits blocks:
    [crates/sequencing/papyrus_consensus_orchestrator/src/sequencer_consensus_context.rs], with the
    batcher that it calls.

    A proposal is built or validated by a task that runs beside the context. A task proceeds from
    one request to the batcher to the next ([Phase]); a task whose code panics is over, and the
    context panics when it waits for it. Time, what arrives from the network, and the archive of
    blobs are inputs of the steps. Of the block info only the number is kept. *)
From S2P Require Import Prelude StarknetApi Mempool StateApi CachedState StateMachine SingleHeightConsensus WorkerLogic FeeMarket BlockBuilder Batcher.

Inductive ProposalPart (Tx : Type) :=
| PartInit (init : ProposalInit)
| PartFin (fin : ProposalFin)
| PartTransactions (transactions : list Tx).
Arguments PartInit {Tx} init.
Arguments PartFin {Tx} fin.
Arguments PartTransactions {Tx} transactions.

Inductive HandledProposalPart :=
| HandledContinue
| HandledFinished (built_block : ProposalContentId) (received_fin : ProposalFin)
| HandledFailed.

Definition DEFAULT_VALIDATOR_ID : ValidatorId := 100.

(** In milliseconds. *)
Definition BUILD_PROPOSAL_MARGIN : N := 1000.

(** A [oneshot] channel to consensus: what was sent, for a validation with the [ProposalFin] that was
    received, or that the sender was dropped. *)
Inductive FinChannel :=
| FinOpen
| FinSent (id : ProposalContentId) (fin : option ProposalFin)
| FinDropped.

(** Where a task is. *)
Inductive Phase :=
| BuildStart (init : ProposalInit)
| BuildContent
| BuildStore (id : ProposalContentId)
| ValidateStart
| ValidateContent
| ValidateStore (built_block : ProposalContentId) (received_fin : ProposalFin)
| TaskReturned
| TaskPanicked.

Record ValidationParams := { vp_height : BlockNumber; vp_fin : nat }.

(** What a call waits for has not happened. *)
Inductive Waiting := StillWaiting.

Section context.
Context {I E PE W St Tx : Type} `{!BatcherStorage St}.
Context (state_diff_hash : ThinStateDiff → N) (outstream_content_buffer_size : N).
(** The conversions between the transactions of the network and executable ones; for the chain of the
    node the latter may fail. *)
Context (into_transaction : ExecutableTransaction → Tx) (try_into_executable : Tx → option ExecutableTransaction).
Abbreviation ProposalPart := (ProposalPart Tx).
Abbreviation Batcher := (Batcher I E PE W St).
Abbreviation BatcherM := (M Batcher BatcherError).
Abbreviation ProposalResult := (BlockBuilderError E PE + BlockExecutionArtifacts I (StateMaps * W))%type.

(** A task, with the parts that it sent to the network. *)
Record ContextTask := {
  ct_height : BlockNumber;
  ct_proposal_id : N;
  ct_fin : nat;
  ct_cancelled : bool;
  ct_phase : Phase;
  ct_content : list ExecutableTransaction;
  ct_sent : list ProposalPart;
}.

(** The context, with its tasks and channels, the streams it opened, the blocks it handed to state
    sync, and the batcher. *)
Record Node := {
  validators : list ValidatorId;
  valid_proposals : gmap BlockNumber (gmap ProposalContentId (list ExecutableTransaction * N));
  next_proposal_id : N;
  current_height : option BlockNumber;
  current_round : Round;
  current_proposal : option nat;
  queued_proposals : gmap Round ValidationParams;
  l2_gas_price : N;
  context_tasks : list ContextTask;
  fins : list FinChannel;
  outbound_streams : list (N * nat);
  added_blocks : list (BlockNumber * SyncBlock);
  node_batcher : Batcher;
}.

(** [SequencerConsensusContext::new], with a batcher. *)
Definition Node_new (num_validators : nat) (batcher : Batcher) : Node :=
  {| validators := (λ i, DEFAULT_VALIDATOR_ID + N.of_nat i) <$> seq 0 num_validators; valid_proposals := ∅; next_proposal_id := 0;
     current_height := None; current_round := 0; current_proposal := None; queued_proposals := ∅;
     l2_gas_price := MAX_BLOCK_SIZE / 2; context_tasks := []; fins := []; outbound_streams := []; added_blocks := [];
     node_batcher := batcher |}.

Definition set_valid_proposals v s : Node :=
  {| validators := s.(validators); valid_proposals := v; next_proposal_id := s.(next_proposal_id);
     current_height := s.(current_height); current_round := s.(current_round);
     current_proposal := s.(current_proposal); queued_proposals := s.(queued_proposals);
     l2_gas_price := s.(l2_gas_price); context_tasks := s.(context_tasks); fins := s.(fins);
     outbound_streams := s.(outbound_streams); added_blocks := s.(added_blocks); node_batcher := s.(node_batcher) |}.
Definition set_next_proposal_id v s : Node :=
  {| validators := s.(validators); valid_proposals := s.(valid_proposals); next_proposal_id := v;
     current_height := s.(current_height); current_round := s.(current_round);
     current_proposal := s.(current_proposal); queued_proposals := s.(queued_proposals);
     l2_gas_price := s.(l2_gas_price); context_tasks := s.(context_tasks); fins := s.(fins);
     outbound_streams := s.(outbound_streams); added_blocks := s.(added_blocks); node_batcher := s.(node_batcher) |}.
Definition set_position height round s : Node :=
  {| validators := s.(validators); valid_proposals := s.(valid_proposals); next_proposal_id := s.(next_proposal_id);
     current_height := height; current_round := round; current_proposal := s.(current_proposal);
     queued_proposals := s.(queued_proposals); l2_gas_price := s.(l2_gas_price); context_tasks := s.(context_tasks);
     fins := s.(fins); outbound_streams := s.(outbound_streams); added_blocks := s.(added_blocks);
     node_batcher := s.(node_batcher) |}.
Definition set_current_proposal v s : Node :=
  {| validators := s.(validators); valid_proposals := s.(valid_proposals); next_proposal_id := s.(next_proposal_id);
     current_height := s.(current_height); current_round := s.(current_round); current_proposal := v;
     queued_proposals := s.(queued_proposals); l2_gas_price := s.(l2_gas_price); context_tasks := s.(context_tasks);
     fins := s.(fins); outbound_streams := s.(outbound_streams); added_blocks := s.(added_blocks);
     node_batcher := s.(node_batcher) |}.
Definition set_queued v s : Node :=
  {| validators := s.(validators); valid_proposals := s.(valid_proposals); next_proposal_id := s.(next_proposal_id);
     current_height := s.(current_height); current_round := s.(current_round);
     current_proposal := s.(current_proposal); queued_proposals := v; l2_gas_price := s.(l2_gas_price);
     context_tasks := s.(context_tasks); fins := s.(fins); outbound_streams := s.(outbound_streams);
     added_blocks := s.(added_blocks); node_batcher := s.(node_batcher) |}.
Definition set_l2_gas_price v s : Node :=
  {| validators := s.(validators); valid_proposals := s.(valid_proposals); next_proposal_id := s.(next_proposal_id);
     current_height := s.(current_height); current_round := s.(current_round);
     current_proposal := s.(current_proposal); queued_proposals := s.(queued_proposals); l2_gas_price := v;
     context_tasks := s.(context_tasks); fins := s.(fins); outbound_streams := s.(outbound_streams);
     added_blocks := s.(added_blocks); node_batcher := s.(node_batcher) |}.
Definition set_context_tasks v s : Node :=
  {| validators := s.(validators); valid_proposals := s.(valid_proposals); next_proposal_id := s.(next_proposal_id);
     current_height := s.(current_height); current_round := s.(current_round);
     current_proposal := s.(current_proposal); queued_proposals := s.(queued_proposals);
     l2_gas_price := s.(l2_gas_price); context_tasks := v; fins := s.(fins);
     outbound_streams := s.(outbound_streams); added_blocks := s.(added_blocks); node_batcher := s.(node_batcher) |}.
Definition set_fins v s : Node :=
  {| validators := s.(validators); valid_proposals := s.(valid_proposals); next_proposal_id := s.(next_proposal_id);
     current_height := s.(current_height); current_round := s.(current_round);
     current_proposal := s.(current_proposal); queued_proposals := s.(queued_proposals);
     l2_gas_price := s.(l2_gas_price); context_tasks := s.(context_tasks); fins := v;
     outbound_streams := s.(outbound_streams); added_blocks := s.(added_blocks); node_batcher := s.(node_batcher) |}.
Definition set_outbound v s : Node :=
  {| validators := s.(validators); valid_proposals := s.(valid_proposals); next_proposal_id := s.(next_proposal_id);
     current_height := s.(current_height); current_round := s.(current_round);
     current_proposal := s.(current_proposal); queued_proposals := s.(queued_proposals);
     l2_gas_price := s.(l2_gas_price); context_tasks := s.(context_tasks); fins := s.(fins); outbound_streams := v;
     added_blocks := s.(added_blocks); node_batcher := s.(node_batcher) |}.
Definition set_added v s : Node :=
  {| validators := s.(validators); valid_proposals := s.(valid_proposals); next_proposal_id := s.(next_proposal_id);
     current_height := s.(current_height); current_round := s.(current_round);
     current_proposal := s.(current_proposal); queued_proposals := s.(queued_proposals);
     l2_gas_price := s.(l2_gas_price); context_tasks := s.(context_tasks); fins := s.(fins);
     outbound_streams := s.(outbound_streams); added_blocks := v; node_batcher := s.(node_batcher) |}.
Definition set_node_batcher v s : Node :=
  {| validators := s.(validators); valid_proposals := s.(valid_proposals); next_proposal_id := s.(next_proposal_id);
     current_height := s.(current_height); current_round := s.(current_round);
     current_proposal := s.(current_proposal); queued_proposals := s.(queued_proposals);
     l2_gas_price := s.(l2_gas_price); context_tasks := s.(context_tasks); fins := s.(fins);
     outbound_streams := s.(outbound_streams); added_blocks := s.(added_blocks); node_batcher := v |}.

Abbreviation NodeM := (M Node Waiting).

(** ** Tasks *)

(** A request to the batcher that is expected to succeed. *)
Definition expect_batcher {A} (m : BatcherM A) : NodeM A := λ s,
  match m s.(node_batcher) with
  | (Ok a, batcher) => (Ok a, set_node_batcher batcher s)
  | (_, batcher) => (Panic, set_node_batcher batcher s)
  end.

Definition set_phase (phase : Phase) task : ContextTask :=
  {| ct_height := task.(ct_height); ct_proposal_id := task.(ct_proposal_id); ct_fin := task.(ct_fin);
     ct_cancelled := task.(ct_cancelled); ct_phase := phase; ct_content := task.(ct_content); ct_sent := task.(ct_sent) |}.
Definition cancel task : ContextTask :=
  {| ct_height := task.(ct_height); ct_proposal_id := task.(ct_proposal_id); ct_fin := task.(ct_fin);
     ct_cancelled := true; ct_phase := task.(ct_phase); ct_content := task.(ct_content); ct_sent := task.(ct_sent) |}.
Definition extend_content txs task : ContextTask :=
  {| ct_height := task.(ct_height); ct_proposal_id := task.(ct_proposal_id); ct_fin := task.(ct_fin);
     ct_cancelled := task.(ct_cancelled); ct_phase := task.(ct_phase); ct_content := task.(ct_content) ++ txs;
     ct_sent := task.(ct_sent) |}.
Definition push_sent part task : ContextTask :=
  {| ct_height := task.(ct_height); ct_proposal_id := task.(ct_proposal_id); ct_fin := task.(ct_fin);
     ct_cancelled := task.(ct_cancelled); ct_phase := task.(ct_phase); ct_content := task.(ct_content);
     ct_sent := task.(ct_sent) ++ [part] |}.

Definition on_task (t : nat) (f : ContextTask → ContextTask) s : Node := set_context_tasks (alter f t s.(context_tasks)) s.

Definition drop_fin (fin : nat) s : Node :=
  set_fins (alter (λ ch, match ch with FinOpen => FinDropped | _ => ch end) fin s.(fins)) s.

(** The end of a task, which drops its sender. *)
Definition end_task (t : nat) (phase : Phase) s : Node :=
  match s.(context_tasks) !! t with
  | Some task => drop_fin task.(ct_fin) (on_task t (set_phase phase) s)
  | None => s
  end.

(** [proposal_sender.send(part).expect(..)]: the stream is [open] as long as the network reads it. *)
Definition send_part (t : nat) (open : bool) (part : ProposalPart) : NodeM unit :=
  if open then modify (on_task t (push_sent part)) else panic.

(** The valid proposal is stored, and then its identifier is sent to consensus. *)
Definition store_proposal (task : ContextTask) (id : ProposalContentId) (fin : option ProposalFin) : NodeM unit :=
  modify (λ s, set_valid_proposals
    (<[task.(ct_height) := <[id := (task.(ct_content), task.(ct_proposal_id))]>
         (default ∅ (s.(valid_proposals) !! task.(ct_height)))]> s.(valid_proposals)) s);;
  modify (λ s, set_fins (alter (λ ch, match ch with FinOpen => FinSent id fin | _ => ch end) task.(ct_fin) s.(fins)) s).

Definition block_input (proposal_id : N) (height : BlockNumber) (late created : bool) : BlockInput :=
  {| Batcher.proposal_id := proposal_id; block_number := height; retrospective_block_hash := Some (0, 0);
     deadline_passed := late; builder_created := created |}.

Definition initialize_build (proposal_id : N) (init : ProposalInit) (late created : bool) : NodeM unit :=
  expect_batcher (propose_block (block_input proposal_id init.(pi_height) late created)).

(** An iteration of the loop of [get_proposal_content]. [cende] is what the archive has answered
    about the previous blob, if anything. *)
Definition stream_proposal_content (t : nat) (task : ContextTask) (open : bool) (cende : option bool) : NodeM unit :=
  response ← expect_batcher (get_proposal_content state_diff_hash outstream_content_buffer_size task.(ct_proposal_id));
  match response with
  | None => throw StillWaiting
  | Some (ContentTxs txs) =>
      modify (on_task t (extend_content txs));;
      send_part t open (PartTransactions (into_transaction <$> txs))
  | Some (ContentFinished id) =>
      match cende with
      | Some true =>
          send_part t open (PartFin {| proposal_content_id := id |});;
          modify (on_task t (set_phase (BuildStore id)))
      | _ => modify (end_task t TaskReturned)
      end
  end.

Definition initiate_validation (proposal_id : N) (height : BlockNumber) (late created : bool) : NodeM unit :=
  expect_batcher (validate_block (block_input proposal_id height late created)).

Definition batcher_abort_proposal (proposal_id : N) : NodeM unit :=
  expect_batcher (send_proposal_content state_diff_hash proposal_id SendAbort);;
  mret tt.

(** [failure] is how the builder of the batcher fails while the transactions are sent, if it does, and
    [result] how it ends when it is waited for. *)
Definition handle_proposal_part (t : nat) (task : ContextTask) (proposal_part : option ProposalPart)
    (failure : option (nat * BlockBuilderError E PE)) (result : ProposalResult) : NodeM HandledProposalPart :=
  match proposal_part with
  | None => mret HandledFailed
  | Some (PartTransactions txs) =>
      exe_txs ← expect (mapM try_into_executable txs);
      modify (on_task t (extend_content exe_txs));;
      response ← expect_batcher (send_proposal_content state_diff_hash task.(ct_proposal_id)
        (SendTxs exe_txs (prod_map id inl <$> failure)));
      match response with
      | Processing => mret HandledContinue
      | InvalidProposal => mret HandledFailed
      | _ => panic
      end
  | Some (PartFin fin) =>
      response ← expect_batcher (send_proposal_content state_diff_hash task.(ct_proposal_id) (SendFinish result));
      match response with
      | Finished id => mret (HandledFinished id fin)
      | InvalidProposal => mret HandledFailed
      | _ => panic
      end
  | Some (PartInit _) => panic
  end.

(** The branches of [select!]. *)
Inductive Branch :=
| Cancelled
| TimedOut
| NextPart (proposal_part : option ProposalPart) (failure : option (nat * BlockBuilderError E PE)) (result : ProposalResult).

(** An iteration of the loop of [validate_proposal]. *)
Definition validate_select (t : nat) (task : ContextTask) (branch : Branch) : NodeM unit :=
  match branch with
  | Cancelled =>
      if task.(ct_cancelled) then batcher_abort_proposal task.(ct_proposal_id);; modify (end_task t TaskReturned)
      else throw StillWaiting
  | TimedOut => batcher_abort_proposal task.(ct_proposal_id);; modify (end_task t TaskReturned)
  | NextPart proposal_part failure result =>
      handled ← handle_proposal_part t task proposal_part failure result;
      match handled with
      | HandledFinished built_block received_fin => modify (on_task t (set_phase (ValidateStore built_block received_fin)))
      | HandledContinue => mret tt
      | HandledFailed => batcher_abort_proposal task.(ct_proposal_id);; modify (end_task t TaskReturned)
      end
  end.

(** What a step sees. *)
Record StepInput := {
  si_late : bool;
  si_created : bool;
  si_open : bool;
  si_cende : option bool;
  si_branch : Branch;
}.

(** A step of [build_proposal]. *)
Definition build_step (t : nat) (task : ContextTask) (input : StepInput) : NodeM unit :=
  match task.(ct_phase) with
  | BuildStart init =>
      initialize_build task.(ct_proposal_id) init input.(si_late) input.(si_created);;
      send_part t input.(si_open) (PartInit init);;
      modify (on_task t (set_phase BuildContent))
  | BuildContent => stream_proposal_content t task input.(si_open) input.(si_cende)
  | BuildStore id => store_proposal task id None;; modify (end_task t TaskReturned)
  | _ => mret tt
  end.

(** A step of [validate_proposal]. *)
Definition validate_step (t : nat) (task : ContextTask) (input : StepInput) : NodeM unit :=
  match task.(ct_phase) with
  | ValidateStart =>
      initiate_validation task.(ct_proposal_id) task.(ct_height) input.(si_late) input.(si_created);;
      modify (on_task t (set_phase ValidateContent))
  | ValidateContent => validate_select t task input.(si_branch)
  | ValidateStore built_block received_fin =>
      store_proposal task built_block (Some received_fin);;
      modify (end_task t TaskReturned)
  | _ => mret tt
  end.

Definition task_step (t : nat) (input : StepInput) : NodeM unit :=
  s ← get_st;
  match s.(context_tasks) !! t with
  | Some task => build_step t task input;; validate_step t task input
  | None => mret tt
  end.

(** ** What runs beside the context *)

Inductive EnvStep :=
| ContextTaskStep (t : nat) (input : StepInput)
| BuilderSends (t : nat) (tx : ExecutableTransaction)
| BuilderFinishes (t : nat) (r : ProposalResult).

(** A builder returns a block for validation only after the end of its stream
    ([BuilderTheorems.validated_at_end]); until then it can only fail. *)
Definition may_finish (t : nat) (r : ProposalResult) (batcher : Batcher) : bool :=
  match r with
  | inl _ => true
  | inr _ => bool_decide (t ∉ (map_to_list batcher.(validate_tx_streams)).*2)
  end.

Definition env_step (s : Node) (step : EnvStep) : Node :=
  match step with
  | ContextTaskStep t input =>
      match task_step t input s with
      | (Panic, s) => end_task t TaskPanicked s
      | (_, s) => s
      end
  | BuilderSends t tx => set_node_batcher (task_sends t tx s.(node_batcher)) s
  | BuilderFinishes t r =>
      if may_finish t r s.(node_batcher) then set_node_batcher (task_finishes t r s.(node_batcher)) s else s
  end.

(** ** The context *)

(** The active task is cancelled and waited for, while the steps [meanwhile] happen. *)
Definition interrupt_active_proposal (meanwhile : list EnvStep) : NodeM unit :=
  s ← get_st;
  match s.(current_proposal) with
  | None => mret tt
  | Some t =>
      modify (λ s, on_task t cancel (set_current_proposal None s));;
      modify (λ s, foldl env_step s meanwhile);;
      s ← get_st;
      task ← expect (s.(context_tasks) !! t);
      match task.(ct_phase) with
      | TaskReturned => mret tt
      | TaskPanicked => panic
      | _ => throw StillWaiting
      end
  end.

Definition new_fin : NodeM nat :=
  s ← get_st;
  modify (λ s, set_fins (s.(fins) ++ [FinOpen]) s);;
  mret (length s.(fins)).

Definition fresh_proposal_id : NodeM N :=
  s ← get_st;
  next ← expect (checked_add u64_max s.(next_proposal_id) 1);
  modify (set_next_proposal_id next);;
  mret s.(next_proposal_id).

(** [tokio::spawn]: the new task, by its position. *)
Definition spawn_task (height : BlockNumber) (proposal_id : N) (phase : Phase) (fin : nat) : NodeM nat :=
  s ← get_st;
  let task := {| ct_height := height; ct_proposal_id := proposal_id; ct_fin := fin; ct_cancelled := false;
                 ct_phase := phase; ct_content := []; ct_sent := [] |} in
  modify (λ s, set_context_tasks (s.(context_tasks) ++ [task]) s);;
  mret (length s.(context_tasks)).

Definition validate_current_round_proposal (params : ValidationParams) : NodeM unit :=
  proposal_id ← fresh_proposal_id;
  t ← spawn_task params.(vp_height) proposal_id ValidateStart params.(vp_fin);
  modify (set_current_proposal (Some t)).

(** A queued proposal is removed, and its sender dropped with it. *)
Definition drop_queued (round : Round) s : Node :=
  match s.(queued_proposals) !! round with
  | Some params => drop_fin params.(vp_fin) (set_queued (delete round s.(queued_proposals)) s)
  | None => s
  end.

(** The loop over the queued proposals, given their rounds in ascending order. *)
Fixpoint take_queued (rounds : list Round) : NodeM (option ValidationParams) :=
  match rounds with
  | [] => mret None
  | round :: rounds =>
      s ← get_st;
      match s.(current_round) ?= round with
      | Lt => modify (drop_queued round);; take_queued rounds
      | Eq =>
          params ← expect (s.(queued_proposals) !! round);
          modify (λ s, set_queued (delete round s.(queued_proposals)) s);;
          mret (Some params)
      | Gt => mret None
      end
  end.

Definition queued_rounds s : list Round := merge_sort N.le (elements (dom s.(queued_proposals))).

Definition set_height_and_round (height : BlockNumber) (round : Round) (meanwhile : list EnvStep) : NodeM unit :=
  s ← get_st;
  if match s.(current_height) with Some h => bool_decide (h < height) | None => true end then
    modify (λ s, set_position (Some height) s.(current_round) s);;
    assert_ (bool_decide (round = 0));;
    modify (λ s, set_position s.(current_height) round s);;
    interrupt_active_proposal meanwhile;;
    modify (λ s, foldr drop_queued s (queued_rounds s));;
    modify (set_current_proposal None);;
    expect_batcher (start_height height)
  else
    assert_ (bool_decide (Some height = s.(current_height)));;
    if decide (round = s.(current_round)) then mret tt else
    assert_ (bool_decide (s.(current_round) < round));;
    interrupt_active_proposal meanwhile;;
    modify (λ s, set_position s.(current_height) round s);;
    s ← get_st;
    to_process ← take_queued (queued_rounds s);
    match to_process with
    | None => mret tt
    | Some params => validate_current_round_proposal params
    end.

(** The receiver is the result; [open] tells whether the stream can be opened. *)
Definition build_proposal (init : ProposalInit) (timeout : N) (open : bool) (meanwhile : list EnvStep) : NodeM nat :=
  set_height_and_round init.(pi_height) init.(pi_round) meanwhile;;
  fin ← new_fin;
  proposal_id ← fresh_proposal_id;
  assert_ (bool_decide (BUILD_PROPOSAL_MARGIN < timeout));;
  assert_ open;;
  modify (λ s, set_outbound (s.(outbound_streams) ++ [(init.(pi_height), length s.(context_tasks))]) s);;
  t ← spawn_task init.(pi_height) proposal_id (BuildStart init) fin;
  s ← get_st;
  assert_ (bool_decide (s.(current_proposal) = None));;
  modify (set_current_proposal (Some t));;
  mret fin.

Definition validate_proposal (init : ProposalInit) : NodeM nat :=
  s ← get_st;
  assert_ (bool_decide (Some init.(pi_height) = s.(current_height)));;
  fin ← new_fin;
  match init.(pi_round) ?= s.(current_round) with
  | Lt => modify (drop_fin fin)
  | Gt =>
      modify (drop_queued init.(pi_round));;
      modify (λ s, set_queued
        (<[init.(pi_round) := {| vp_height := init.(pi_height); vp_fin := fin |}]> s.(queued_proposals)) s)
  | Eq => validate_current_round_proposal {| vp_height := init.(pi_height); vp_fin := fin |}
  end;;
  mret fin.

Definition repropose (id : ProposalContentId) (init : ProposalInit) : NodeM unit :=
  s ← get_st;
  proposals ← expect (s.(valid_proposals) !! init.(pi_height));
  expect (proposals !! id);;
  mret tt.

Definition proposer (height : BlockNumber) (round : Round) : NodeM ValidatorId :=
  s ← get_st;
  sum ← expect (checked_add u64_max height round);
  expect (s.(validators) !! N.to_nat (sum mod N.of_nat (length s.(validators)))).

(** [accepted] tells whether state sync takes the block. *)
Definition context_decision_reached (block : ProposalContentId) (precommits : list Vote) (accepted : bool) : NodeM unit :=
  vote ← expect (head precommits);
  let height := vote.(vote_height) in
  s ← get_st;
  proposals ← expect (s.(valid_proposals) !! height);
  '(transactions, proposal_id) ← expect (proposals !! block);
  modify (λ s, set_valid_proposals (filter (λ '(h, _), height < h) s.(valid_proposals)) s);;
  '(diff, l2_gas_used) ← expect_batcher (decision_reached proposal_id);
  let sync_block := {| sync_state_diff := diff; sync_transaction_hashes := executable_tx_hash <$> transactions;
                       sync_block_number := height |} in
  assert_ accepted;;
  modify (λ s, set_added (s.(added_blocks) ++ [(height, sync_block)]) s);;
  s ← get_st;
  price ← expect (calculate_next_base_gas_price s.(l2_gas_price) l2_gas_used (MAX_BLOCK_SIZE / 2));
  modify (set_l2_gas_price price).

(** [sync_block] is what state sync has for the height, if anything. *)
Definition try_sync (sync_block : option SyncBlock) : NodeM bool :=
  match sync_block with
  | Some sync_block => expect_batcher (add_sync_block sync_block);; mret true
  | None => mret false
  end.
End context.
Arguments ContextTask : clear implicits.
Arguments Node : clear implicits.
Arguments Branch : clear implicits.
Arguments StepInput : clear implicits.
Arguments EnvStep : clear implicits.
