(* ===== verification/ContextTheorems.v ===== *)
(** What the context of consensus promises: it keeps to the protocol of the batcher, and the block that
    is decided is the one that the batcher commits. *)
From S2P Require Import Prelude StarknetApi Mempool StateApi CachedState StateMachine SingleHeightConsensus WorkerLogic FeeMarket BlockBuilder Batcher BatcherTheorems ConsensusContext.

(** ** Lists and maps *)

Lemma list_alter_none {A} (f : A → A) (i : nat) (l : list A) : l !! i = None → alter f i l = l.
Proof.
  intros Hl. apply list_eq. intros j. destruct (decide (j = i)) as [->|Hne]; [by rewrite list_lookup_alter_eq, Hl|].
  by rewrite list_lookup_alter_ne.
Qed.

Lemma list_fmap_alter {A B} (g : A → B) (f : A → A) (h : B → B) (i : nat) (l : list A) :
  (∀ x, g (f x) = h (g x)) → g <$> alter f i l = alter h i (g <$> l).
Proof.
  intros Hg. apply list_eq. intros j. destruct (decide (j = i)) as [->|Hne].
  - rewrite list_lookup_alter_eq, !list_lookup_fmap, list_lookup_alter_eq. destruct (l !! i); cbn; [by rewrite Hg|done].
  - by rewrite list_lookup_alter_ne, !list_lookup_fmap, list_lookup_alter_ne.
Qed.

Lemma delete_all {A} (m : gmap N A) rounds : dom m ⊆ list_to_set rounds → foldl (λ m round, delete round m) m rounds = ∅.
Proof.
  revert m. induction rounds as [|round rounds IH]; intros m Hd; cbn in *; [apply dom_empty_inv_L; set_solver|].
  apply IH. rewrite dom_delete_L. set_solver.
Qed.

(** ** What requests to the batcher leave as it is *)

Section batcher.
Context {I E PE W St : Type} `{!BatcherStorage St}.
Context (state_diff_hash : ThinStateDiff → N) (buffer_size : N).
Abbreviation Batcher := (Batcher I E PE W St).
Abbreviation Inv := (Inv (I := I) (E := E) (PE := PE) (W := W) (St := St)).
Implicit Types (b : Batcher) (pid id : N).

(** The batcher has a block for the proposal, whose commitment is [id]. *)
Definition result_is b pid id : Prop :=
  ∃ artifacts, b.(executed_proposals) !! pid = Some (inr artifacts) ∧ commitment state_diff_hash artifacts = id.

(** The proposal is not being worked on, and if there is a block for it, its commitment is [id]. *)
Definition settled b pid id : Prop :=
  b.(active_proposal) ≠ Some pid ∧
  ∀ artifacts, b.(executed_proposals) !! pid = Some (inr artifacts) → commitment state_diff_hash artifacts = id.

Lemma result_settled b pid id : Inv b → result_is b pid id → settled b pid id.
Proof.
  intros HI (artifacts&He&Hc). split; [|by intros ? ?; simplify_eq]. intros [Hn _]%(inv_active _ HI). congruence.
Qed.

(** From [b] to [b'] only the proposals [np] and [nv] are started, to be built or validated. *)
Record steady (np nv : option N) b b' : Prop := {
  st_height : b'.(active_height) = b.(active_height);
  st_result pid id : result_is b pid id → result_is b' pid id;
  st_settled pid id : np ≠ Some pid → nv ≠ Some pid → settled b pid id → settled b' pid id;
  st_propose pid : is_Some (b'.(propose_tx_streams) !! pid) → np = Some pid ∨ is_Some (b.(propose_tx_streams) !! pid);
  st_validate pid : is_Some (b'.(validate_tx_streams) !! pid) → nv = Some pid ∨ is_Some (b.(validate_tx_streams) !! pid);
  st_tasks t task : b'.(tasks) !! t = Some task →
    np = Some task.(task_proposal) ∨ nv = Some task.(task_proposal) ∨
    ∃ t0 task0, b.(tasks) !! t0 = Some task0 ∧ task0.(task_proposal) = task.(task_proposal);
}.

Lemma steady_refl np nv b : steady np nv b b.
Proof. split; eauto 6. Qed.

Lemma steady_trans b b1 b2 : steady None None b b1 → steady None None b1 b2 → steady None None b b2.
Proof.
  intros [H1 H2 H2' H3 H4 H5] [K1 K2 K2' K3 K4 K5]. split.
  - congruence.
  - auto.
  - auto.
  - intros pid [?|?%H3]%K3; [done|auto].
  - intros pid [?|?%H4]%K4; [done|auto].
  - intros t task [?|[?|(t0&task0&Hl&<-)]]%K5; [done..|]. by apply H5 in Hl.
Qed.

Lemma steady_set_task np nv t f b :
  (∀ task, (f task).(task_proposal) = task.(task_proposal)) → steady np nv b (set_task t f b).
Proof.
  intros Hf. split; try done; cbn; [by auto..|]. intros t' task'. destruct (decide (t' = t)) as [->|Hne].
  - rewrite list_lookup_alter_eq. intros (task&Hl&->)%fmap_Some. rewrite Hf. eauto 6.
  - rewrite list_lookup_alter_ne by done. eauto 6.
Qed.

(** Streams that are closed. *)
Lemma steady_close b p v :
  p ⊆ b.(propose_tx_streams) → v ⊆ b.(validate_tx_streams) → steady None None b (set_streams p v b).
Proof.
  intros Hp Hv. split; cbn; eauto 6.
  - intros pid [t Ht]. right. exists t. by eapply lookup_weaken.
  - intros pid [t Ht]. right. exists t. by eapply lookup_weaken.
Qed.

Lemma steady_ext b b' :
  b'.(active_height) = b.(active_height) → b'.(executed_proposals) = b.(executed_proposals) →
  b'.(propose_tx_streams) = b.(propose_tx_streams) → b'.(validate_tx_streams) = b.(validate_tx_streams) →
  b'.(tasks) = b.(tasks) → b'.(active_proposal) = b.(active_proposal) → steady None None b b'.
Proof.
  intros H1 H2 H3 H4 H5 H6. split; unfold result_is, settled; rewrite ?H1, ?H2, ?H3, ?H4, ?H5, ?H6; eauto 6.
Qed.

(** A new result for the active proposal. *)
Lemma steady_executed b pid r x :
  Inv b → b.(active_proposal) = Some pid → steady None None b (set_executed (<[pid := r]> b.(executed_proposals)) (set_active None x b)).
Proof.
  intros HI Ha. destruct (inv_active _ HI pid Ha) as [Hn _]. split; cbn; eauto 6.
  - intros pid' id (artifacts&He&Hc). exists artifacts. cbn. rewrite lookup_insert_ne; [done|congruence].
  - intros pid' id _ _ [Hne Hs]. split; [done|]. cbn. intros artifacts. rewrite lookup_insert_ne by congruence. apply Hs.
Qed.

Lemma steady_finishes t r b : Inv b → steady None None b (task_finishes t r b).
Proof.
  intros HI. unfold task_finishes. destruct (tasks b !! t) as [task|]; [|apply steady_refl].
  destruct (task_result task); [apply steady_refl|]. cbn. case_decide as Ha; [|by apply steady_set_task].
  eapply steady_trans; [by apply (steady_executed b task.(task_proposal) r b.(active_proposal_task))|].
  by apply (steady_set_task _ _ t (finish_with r)).
Qed.

Lemma steady_sends t tx b : steady None None b (task_sends t tx b).
Proof.
  unfold task_sends. destruct (tasks b !! t) as [task|]; [|apply steady_refl].
  destruct (task_result task); [apply steady_refl|]. by apply steady_set_task.
Qed.

Lemma start_proposal_steady input b np nv :
  np = Some input.(proposal_id) ∨ nv = Some input.(proposal_id) → steady np nv b (start_proposal input b).2.
Proof.
  intros Hnew. unfold start_proposal, verify_block_input, verify_non_empty_retrospective_block_hash, verify_block_number,
    set_active_proposal, spawn_proposal, mbind, M_bind, get_st, modify. cbn.
  destruct (active_height b); [|apply steady_refl]. cbn. case_decide; [apply steady_refl|]. cbn. case_decide; [apply steady_refl|].
  cbn. case_decide; [apply steady_refl|]. destruct (active_proposal b); [apply steady_refl|]. cbn.
  assert (∀ pid id, np ≠ Some pid → nv ≠ Some pid → settled b pid id →
    Some input.(proposal_id) ≠ Some pid ∧
    ∀ artifacts, b.(executed_proposals) !! pid = Some (inr artifacts) → commitment state_diff_hash artifacts = id) as Hsettled.
  { intros pid id Hp Hv [_ Hs]. split; [|done]. intros [= <-]. by destruct Hnew. }
  destruct (deadline_passed input); [by split; cbn; eauto 6|]. destruct (builder_created input); [|by split; cbn; eauto 6].
  split; cbn; eauto 6. intros t task [Hl|[_ Hl]]%lookup_app_Some; [by eauto 6|].
  apply list_lookup_singleton_Some in Hl as [_ <-]. cbn. by destruct Hnew; auto.
Qed.

Lemma insert_stream_dom {A} (m : gmap N A) k x pid : is_Some (<[k := x]> m !! pid) → Some k = Some pid ∨ is_Some (m !! pid).
Proof. rewrite lookup_insert_is_Some'. intros [->|?]; auto. Qed.

Lemma propose_steady input b : steady (Some input.(proposal_id)) None b (propose_block input b).2.
Proof.
  pose proof (start_proposal_steady input b (Some input.(proposal_id)) None ltac:(auto)) as Hs.
  unfold propose_block, mbind, M_bind. destruct (start_proposal input b) as [[t|e|] b']; [|done..]. cbn in *.
  destruct Hs as [H1 H2 H2' H3 H4 H5]. split; cbn; try done. intros pid [?|?]%insert_stream_dom; auto.
Qed.

Lemma validate_steady input b : steady None (Some input.(proposal_id)) b (validate_block input b).2.
Proof.
  pose proof (start_proposal_steady input b None (Some input.(proposal_id)) ltac:(auto)) as Hs.
  unfold validate_block, mbind, M_bind. destruct (start_proposal input b) as [[t|e|] b']; [|done..]. cbn in *.
  destruct Hs as [H1 H2 H2' H3 H4 H5]. split; cbn; try done. intros pid [?|?]%insert_stream_dom; auto.
Qed.

Lemma send_txs_steady t txs completion b :
  Inv b → (∀ n r, completion = Some (n, r) → ∃ e, r = inl e) → steady None None b (send_txs t txs completion b).2.
Proof.
  revert completion b. induction txs as [|tx txs IH]; intros completion b HI Hc; [apply steady_refl|]. cbn [send_txs].
  assert (∀ c b1, Inv b1 → (∀ n r, c = Some (n, r) → ∃ e, r = inl e) → steady None None b b1 → steady None None b
    (match b1.(tasks) !! t ≫= task_result with
     | Some _ => throw InternalError
     | None => modify (set_task t (push_input tx));; send_txs t txs c
     end b1).2) as Hrest.
  { intros c b1 HI1 Hc1 Hs. destruct (tasks b1 !! t ≫= task_result); [done|]. unfold mbind, M_bind, modify.
    eapply steady_trans; [done|]. eapply steady_trans; [by apply (steady_set_task _ _ t (push_input tx))|].
    apply IH; [by apply Inv_set_task|done]. }
  destruct completion as [[[|n] r]|].
  - destruct (Hc O r eq_refl) as [e ->]. apply (Hrest None (task_finishes t (inl e) b)); [|done|by apply steady_finishes].
    apply Inv_finishes; [by eauto|done].
  - apply (Hrest (Some (n, r)) b); [done| |apply steady_refl]. intros n' r' [= _ <-]. by eapply Hc.
  - apply (Hrest None b); [done..|apply steady_refl].
Qed.

Lemma finish_steady id r b : Inv b → steady None None b (handle_finish_proposal_request state_diff_hash id r b).2.
Proof.
  intros HI. unfold handle_finish_proposal_request, await_active_proposal, get_completed_proposal_result, is_active, mbind, M_bind,
    gets, get_st, modify. cbn. destruct (validate_tx_streams b !! id) as [t|]; [|apply steady_refl]. cbn.
  set (b1 := set_streams _ _ b). assert (steady None None b b1) as Hs by (by apply steady_close; [|apply delete_subseteq]).
  assert (Inv b1) as HI1 by (by apply Inv_close). destruct (bool_decide _); cbn.
  - destruct (active_proposal_task b) as [t'|] eqn:Ht; cbn.
    + set (b2 := task_finishes _ _ _). assert (steady None None b b2) as Hs2.
      { eapply steady_trans; [done|]. eapply steady_trans; [by apply (steady_finishes t' r b1)|]. apply steady_ext; unfold b2, task_finishes; cbn;
          destruct (tasks b !! t') as [task|]; try done; destruct (task_result task); try done; cbn; by case_decide. }
      destruct (executed_proposals b2 !! id) as [[e|artifacts]|]; cbn; [by destruct (proposal_status_from e)|done..].
    + destruct (executed_proposals b !! id) as [[e|artifacts]|]; cbn; [by destruct (proposal_status_from e)|done..].
  - destruct (executed_proposals b !! id) as [[e|artifacts]|]; cbn; [by destruct (proposal_status_from e)|done..].
Qed.

Lemma abort_steady id b : Inv b → steady None None b (handle_abort_proposal_request id b).2.
Proof.
  intros HI. unfold handle_abort_proposal_request, abort_active_proposal, is_active, mbind, M_bind, gets, get_st, modify. cbn.
  assert (∀ b1, steady None None b b1 → steady None None b (set_streams b1.(propose_tx_streams) (delete id b1.(validate_tx_streams)) b1)) as Hclose.
  { intros b1 Hs. eapply steady_trans; [done|]. by apply steady_close; [|apply delete_subseteq]. }
  destruct (bool_decide _) eqn:Ha; cbn; [|by apply (Hclose b), steady_refl]. apply bool_decide_eq_true in Ha.
  destruct (active_proposal_task b) as [t|]; cbn.
  - apply (Hclose (set_executed (<[id := inl Aborted]> b.(executed_proposals)) (set_task t abort_task (set_active None None b)))).
    eapply steady_trans; [by apply (steady_executed b id (inl Aborted) None)|]. by apply (steady_set_task _ _ t abort_task).
  - apply (Hclose (set_executed (<[id := inl Aborted]> b.(executed_proposals)) (set_active None None b))). by apply steady_executed.
Qed.

(** What a request with content may carry ([BatcherTheorems.allowed]). *)
Definition content_ok (content : SendProposalContent I E PE W) : Prop :=
  match content with SendTxs _ (Some (_, r)) => ∃ e, r = inl e | _ => True end.

Lemma send_steady id content b :
  Inv b → content_ok content → steady None None b (send_proposal_content state_diff_hash id content b).2.
Proof.
  intros HI Hc. unfold send_proposal_content, mbind, M_bind, get_st. case_decide as Hv; [apply steady_refl|].
  destruct content as [txs completion|r|]; [|by apply finish_steady|by apply abort_steady].
  unfold handle_send_txs_request, is_active, get_completed_proposal_result, mbind, M_bind, gets, get_st. cbn.
  destruct (bool_decide _).
  - destruct (validate_tx_streams b !! id) as [t|]; [|done]. cbn.
    assert (steady None None b (send_txs t txs completion b).2) as Hs by (apply send_txs_steady; [done|]; by intros n r ->).
    by destruct (send_txs t txs completion b) as [[[]|e|] b'].
  - destruct (executed_proposals b !! id) as [[e|artifacts]|]; cbn; [|apply steady_refl..].
    destruct (proposal_status_from e); apply steady_refl.
Qed.

Lemma get_content_steady id b : steady None None b (get_proposal_content state_diff_hash buffer_size id b).2.
Proof.
  unfold get_proposal_content, get_completed_proposal_result, mbind, M_bind, get_st, modify. cbn.
  destruct (propose_tx_streams b !! id) as [t|]; [|apply steady_refl]. cbn. destruct (tasks b !! t) as [task|]; [|apply steady_refl].
  cbn. case_decide; [apply steady_refl|]. case_decide; cbn; [|by apply steady_set_task].
  destruct (executed_proposals b !! id) as [[e|artifacts]|]; cbn; by apply steady_close; [apply delete_subseteq|].
Qed.

(** The answers that end a proposal: the batcher has the block, and the stream is closed. *)
Lemma finish_result id r c b b' :
  send_proposal_content state_diff_hash id (SendFinish r) b = (Ok (Finished c), b') →
  result_is b' id c ∧ b'.(validate_tx_streams) !! id = None.
Proof.
  unfold send_proposal_content, handle_finish_proposal_request, is_active, mbind, M_bind, gets, get_st, modify.
  case_decide; [done|]. cbn. destruct (validate_tx_streams b !! id); [|done]. cbn.
  set (waited := if bool_decide _ then _ else _). set (b1 := set_streams _ _ b).
  assert (∃ b2, waited b1 = (Ok tt, b2) ∧ b2.(validate_tx_streams) = b1.(validate_tx_streams)) as (b2&->&Hb2).
  { subst waited. destruct (bool_decide _); [|by eauto]. unfold await_active_proposal, mbind, M_bind, get_st, modify. cbn.
    destruct (active_proposal_task b) as [t|]; [|by eauto]. eexists. split; [done|]. unfold task_finishes. cbn.
    destruct (tasks b !! t) as [task|]; [|done]. destruct (task_result task); [done|]. cbn. by case_decide. }
  unfold get_completed_proposal_result, mbind, M_bind, get_st. cbn.
  destruct (executed_proposals b2 !! id) as [[e|artifacts]|] eqn:He; cbn; [by destruct e| |done].
  intros [= <- <-]. split; [by exists artifacts|]. rewrite Hb2. apply lookup_delete_eq.
Qed.

Lemma get_content_result id c b b' :
  get_proposal_content state_diff_hash buffer_size id b = (Ok (Some (ContentFinished c)), b') →
  result_is b' id c ∧ b'.(propose_tx_streams) !! id = None.
Proof.
  unfold get_proposal_content, get_completed_proposal_result, mbind, M_bind, get_st, modify. cbn.
  destruct (propose_tx_streams b !! id) as [t|]; [|done]. destruct (tasks b !! t) as [task|]; [|done]. cbn.
  case_decide; [done|]. case_decide; cbn; [|done].
  destruct (executed_proposals b !! id) as [[e|artifacts]|] eqn:He; cbn; [done| |done].
  intros [= <- <-]. split; [by exists artifacts|]. apply lookup_delete_eq.
Qed.
End batcher.

Section node.
Context {I E PE W St Tx : Type} `{!BatcherStorage St}.
Context (state_diff_hash : ThinStateDiff → N) (buffer_size : N).
Context (into_transaction : ExecutableTransaction → Tx) (try_into_executable : Tx → option ExecutableTransaction).
Hypothesis buffer_size_pos : buffer_size ≠ 0.
Abbreviation Batcher := (Batcher I E PE W St).
Abbreviation Inv := (Inv (I := I) (E := E) (PE := PE) (W := W) (St := St)).
Abbreviation Node := (Node I E PE W St Tx).
Abbreviation NodeM := (M Node Waiting).
Abbreviation ContextTask := (ContextTask Tx).
Abbreviation EnvStep := (EnvStep I E PE W Tx).
Abbreviation StepInput := (StepInput I E PE W Tx).
Abbreviation result_is := (result_is state_diff_hash).
Abbreviation settled := (settled state_diff_hash).
Abbreviation steady := (steady state_diff_hash).
Abbreviation task_step := (task_step state_diff_hash buffer_size into_transaction try_into_executable).
Abbreviation env_step := (env_step state_diff_hash buffer_size into_transaction try_into_executable).
Implicit Types (s : Node) (b : Batcher) (task : ContextTask) (pid id : N) (t : nat).

(** ** The invariant *)

(** What the invariant says of a task: its height, its proposal and its phase. *)
Definition task_view task : BlockNumber * N * Phase := (task.(ct_height), task.(ct_proposal_id), task.(ct_phase)).

Definition view s : list (BlockNumber * N * Phase) := task_view <$> s.(context_tasks).

Definition over (ph : Phase) : Prop := ph = TaskReturned ∨ ph = TaskPanicked.

Definition has_started (ph : Phase) : Prop := match ph with BuildStart _ | ValidateStart => False | _ => True end.

Definition stores (ph : Phase) : option ProposalContentId :=
  match ph with BuildStore id | ValidateStore id _ => Some id | _ => None end.

(** The proposal is neither streamed in nor out. *)
Definition closed b pid : Prop := b.(propose_tx_streams) !! pid = None ∧ b.(validate_tx_streams) !! pid = None.

(** The batcher has the block with the commitment [id], unless it went on to another height. *)
Definition built b (height : BlockNumber) pid id : Prop :=
  closed b pid ∧ settled b pid id ∧ (b.(active_height) = Some height → result_is b pid id).

Abbreviation Views := (list (BlockNumber * N * Phase)).
Implicit Types (V : Views) (ph : Phase) (h : BlockNumber).
Abbreviation Valid := (gmap BlockNumber (gmap ProposalContentId (list ExecutableTransaction * N))).
Implicit Types vp : Valid.

Definition stored vp h id pid : Prop := ∃ m content, vp !! h = Some m ∧ m !! id = Some (content, pid).

Record SInv V vp (next : N) b : Prop := {
  si_batcher : Inv b;
  si_ids t h pid ph : V !! t = Some (h, pid, ph) → pid < next;
  si_distinct t t' h h' pid ph ph' : V !! t = Some (h, pid, ph) → V !! t' = Some (h', pid, ph') → t = t';
  si_tasks bt btask : b.(tasks) !! bt = Some btask →
    ∃ t h ph, V !! t = Some (h, btask.(task_proposal), ph) ∧ has_started ph;
  si_propose pid : is_Some (b.(propose_tx_streams) !! pid) →
    ∃ t h ph, V !! t = Some (h, pid, ph) ∧ (ph = BuildContent ∨ over ph);
  si_validate pid : is_Some (b.(validate_tx_streams) !! pid) →
    ∃ t h ph, V !! t = Some (h, pid, ph) ∧ (ph = ValidateContent ∨ over ph);
  si_store t h pid ph id : V !! t = Some (h, pid, ph) → stores ph = Some id → built b h pid id;
  si_valid h id pid : stored vp h id pid → built b h pid id ∧ ∃ t ph, V !! t = Some (h, pid, ph) ∧ over ph;
}.

Definition at_phase (ph : Phase) : BlockNumber * N * Phase → BlockNumber * N * Phase := λ '(h, pid, _), (h, pid, ph).

(** The invariant, as it is when the task [t] stops. *)
Definition Stopped t V vp next b : Prop := SInv (alter (at_phase TaskPanicked) t V) vp next b.

Lemma alter_view ph t V t' v :
  alter (at_phase ph) t V !! t' = Some v →
  (t' = t ∧ ∃ h pid ph', V !! t = Some (h, pid, ph') ∧ v = (h, pid, ph)) ∨ (t' ≠ t ∧ V !! t' = Some v).
Proof.
  destruct (decide (t' = t)) as [->|Hne].
  - rewrite list_lookup_alter_eq. intros ([[h pid] ph']&Hl&->)%fmap_Some. left. split; [done|]. by exists h, pid, ph'.
  - rewrite list_lookup_alter_ne by done. auto.
Qed.

Lemma alter_view_forth ph t V t' h pid ph' :
  V !! t' = Some (h, pid, ph') →
  ∃ ph'', alter (at_phase ph) t V !! t' = Some (h, pid, ph'') ∧ (ph'' = ph' ∧ t' ≠ t ∨ ph'' = ph ∧ t' = t).
Proof.
  intros Hl. destruct (decide (t' = t)) as [->|Hne].
  - rewrite list_lookup_alter_eq, Hl. exists ph. auto.
  - rewrite list_lookup_alter_ne by done. exists ph'. auto.
Qed.

Lemma alter_phase ph ph' t V : alter (at_phase ph) t (alter (at_phase ph') t V) = alter (at_phase ph) t V.
Proof. rewrite list_alter_alter_eq. apply list_alter_ext; [|done]. by intros [[h pid] ph0] _. Qed.

(** A task may change its phase: what the invariant asks for the new one. *)
Definition phase_ok b h pid ph : Prop :=
  has_started ph ∧ (is_Some (b.(propose_tx_streams) !! pid) → ph = BuildContent ∨ over ph) ∧
  (is_Some (b.(validate_tx_streams) !! pid) → ph = ValidateContent ∨ over ph) ∧
  ∀ id, stores ph = Some id → built b h pid id.

Lemma SInv_phase ph t h pid ph0 V vp next b :
  V !! t = Some (h, pid, ph0) → SInv V vp next b → phase_ok b h pid ph → (∀ h' id, stored vp h' id pid → over ph) →
  SInv (alter (at_phase ph) t V) vp next b.
Proof.
  intros Ht [H1 H2 H3 H4 H5 H6 H7 H8] (K1&K2&K3&K4) Hover.
  assert (∀ t' h' pid', ∀ ph', V !! t' = Some (h', pid', ph') → pid' = pid → t' = t) as Huniq.
  { intros t' h' pid' ph' Hl ->. by eapply H3. }
  split; [done|..].
  - intros t' h' pid' ph' [[-> (?&?&?&?&[= -> -> ->])]|[_ ?]]%alter_view; by eapply H2.
  - intros t1 t2 h1 h2 pid' ph1 ph2 [[-> (?&?&?&?&[= -> -> ->])]|[? ?]]%alter_view [[-> (?&?&?&?&[= -> ->])]|[? ?]]%alter_view;
      try done; by eapply H3.
  - intros bt btask (t'&h'&ph'&(ph''&Hl&Hph)%(alter_view_forth ph t)&Hs)%H4. exists t', h', ph''. split; [done|].
    by destruct Hph as [[-> _]|[-> _]].
  - intros pid' Hp. destruct (H5 pid' Hp) as (t'&h'&ph'&Hl0&Hs).
    destruct (alter_view_forth ph t V t' h' pid' ph' Hl0) as (ph''&Hl&Hph). exists t', h', ph''. split; [done|].
    destruct Hph as [[-> _]|[-> ->]]; [done|]. apply K2. by simplify_eq.
  - intros pid' Hp. destruct (H6 pid' Hp) as (t'&h'&ph'&Hl0&Hs).
    destruct (alter_view_forth ph t V t' h' pid' ph' Hl0) as (ph''&Hl&Hph). exists t', h', ph''. split; [done|].
    destruct Hph as [[-> _]|[-> ->]]; [done|]. apply K3. by simplify_eq.
  - intros t' h' pid' ph' id [[-> (?&?&?&?&[= -> -> ->])]|[_ ?]]%alter_view Hs; [|by eapply H7]. simplify_eq. by apply K4.
  - intros h' id pid' Hst. destruct (H8 _ _ _ Hst) as [Hb (t'&ph'&Hl0&Ho)]. split; [done|].
    destruct (alter_view_forth ph t V t' h' pid' ph' Hl0) as (ph''&Hl&Hph). exists t', ph''. split; [done|].
    destruct Hph as [[-> _]|[-> ->]]; [done|]. simplify_eq. by eapply Hover.
Qed.

Lemma over_started ph : over ph → has_started ph.
Proof. by intros [->| ->]. Qed.

Lemma over_stores ph id : over ph → stores ph = Some id → False.
Proof. by intros [->| ->]. Qed.

Lemma not_stored V vp next b t h pid ph h' id :
  SInv V vp next b → V !! t = Some (h, pid, ph) → stored vp h' id pid → over ph.
Proof.
  intros HI Ht Hs. destruct (si_valid _ _ _ _ HI _ _ _ Hs) as [_ (t'&ph'&Hl&Ho)].
  assert (t' = t) as -> by (by eapply (si_distinct _ _ _ _ HI)). by simplify_eq.
Qed.

(** A task that ends. *)
Lemma SInv_over ph t V vp next b : over ph → SInv V vp next b → SInv (alter (at_phase ph) t V) vp next b.
Proof.
  intros Ho HI. destruct (V !! t) as [[[h pid] ph0]|] eqn:Ht.
  - eapply SInv_phase; [done..| |by intros]. split_and!; [by apply over_started|by auto..|]. intros id ?. by destruct (over_stores ph id).
  - by rewrite list_alter_none.
Qed.

(** A request to the batcher that may start proposals of tasks that are over. *)
Lemma SInv_request np nv V vp next b b' :
  SInv V vp next b → Inv b' → steady np nv b b' →
  (∀ pid, np = Some pid ∨ nv = Some pid →
     (∃ t h ph, V !! t = Some (h, pid, ph) ∧ over ph) ∧ ∀ h id, ¬ stored vp h id pid) →
  SInv V vp next b'.
Proof.
  intros [H1 H2 H3 H4 H5 H6 H7 H8] HI' [K1 K2 K2' K3 K4 K5] Hnew.
  assert (∀ h pid id, (∀ t h ph, V !! t = Some (h, pid, ph) → ¬ over ph) ∨ (∃ h id, stored vp h id pid) →
    built b h pid id → built b' h pid id) as Hbuilt.
  { intros h pid id Hpid ([Hp Hv]&Hs&Hr). assert (¬ (np = Some pid ∨ nv = Some pid)) as Hno.
    { intros [(t&h'&ph&Hl&Ho) Hns]%Hnew. destruct Hpid as [Hpid|(h''&id'&Hst)]; [by eapply Hpid|by eapply Hns]. }
    split_and!; [split; apply eq_None_not_Some; [intros [?|[? ?]]%K3|intros [?|[? ?]]%K4]; solve [by auto|congruence]| |].
    - apply K2'; by auto.
    - rewrite K1. auto. }
  split; try done.
  - intros bt btask [?|[?|(bt0&btask0&Hl&<-)]]%K5; [..|by apply H4 in Hl].
    + destruct (Hnew btask.(task_proposal)) as [(t&h&ph&?&?%over_started) _]; eauto.
    + destruct (Hnew btask.(task_proposal)) as [(t&h&ph&?&?%over_started) _]; eauto.
  - intros pid [?|?]%K3; [|by apply H5]. destruct (Hnew pid) as [(t&h&ph&?&?) _]; eauto 8.
  - intros pid [?|?]%K4; [|by apply H6]. destruct (Hnew pid) as [(t&h&ph&?&?) _]; eauto 8.
  - intros t h pid ph id Hl Hs. apply Hbuilt; [|by eapply H7]. left. intros t' h' ph' Hl' Ho.
    assert (t' = t) as -> by (by eapply H3). simplify_eq. by eapply over_stores.
  - intros h id pid Hs. destruct (H8 h id pid Hs) as [Hb Ht]. split; [|done]. apply Hbuilt; [|done]. right. by exists h, id.
Qed.

(** The proposal of a task is stored, and the task returns. *)
Lemma SInv_store t h pid ph id content V vp next b :
  V !! t = Some (h, pid, ph) → stores ph = Some id → SInv V vp next b →
  SInv (alter (at_phase TaskReturned) t V) (<[h := <[id := (content, pid)]> (default ∅ (vp !! h))]> vp) next b.
Proof.
  intros Ht Hs HI. pose proof (si_store _ _ _ _ HI _ _ _ _ _ Ht Hs) as Hb.
  destruct (SInv_over TaskReturned t V vp next b ltac:(by left) HI) as [H1 H2 H3 H4 H5 H6 H7 H8].
  split; try done. intros h' id' pid' (m&content'&Hm&Hid).
  assert (h' = h ∧ id' = id ∧ pid' = pid ∨ stored vp h' id' pid') as [(->&->&->)|Hst]; [|split; [done|]|by apply H8].
  - destruct (decide (h' = h)) as [->|Hne]; [|rewrite lookup_insert_ne in Hm by done; right; by exists m, content'].
    rewrite lookup_insert_eq in Hm. simplify_eq. rewrite lookup_insert_Some in Hid. destruct Hid as [[-> [= <- <-]]|[_ Hid]]; [by auto|].
    right. destruct (vp !! h) as [m|] eqn:Hm; cbn in Hid; [|by rewrite lookup_empty in Hid]. by exists m, content'.
  - exists t, TaskReturned. rewrite list_lookup_alter_eq, Ht. split; [done|by left].
Qed.

(** ** Steps of the tasks *)

Lemma send_safe id content b : Inv b → content_ok content → safe (send_proposal_content state_diff_hash id content) b.
Proof.
  intros HI Hc. destruct (handle_safe state_diff_hash buffer_size buffer_size_pos (EvSend id content) b HI) as [Hp HI'].
  { by destruct content as [? [[? ?]|]| |]. }
  unfold handle, mbind, M_bind in *. unfold safe, wp. by destruct (send_proposal_content _ _ _ _) as [[] ?].
Qed.

(** What the steps of tasks leave as it is: heights are among those of [P], and the batcher and
    the context stay at their heights. *)
Record Frame (P : BlockNumber → Prop) (ah ch : option BlockNumber) s : Prop := {
  fr_tasks : Forall P (ct_height <$> s.(context_tasks));
  fr_valid h : is_Some (s.(valid_proposals) !! h) → P h;
  fr_queued r params : s.(queued_proposals) !! r = Some params → P params.(vp_height);
  fr_active : s.(node_batcher).(active_height) = ah;
  fr_current : s.(current_height) = ch;
}.

Record NInv P ah ch s : Prop := {
  ni_inv : SInv (view s) s.(valid_proposals) s.(next_proposal_id) s.(node_batcher);
  ni_frame : Frame P ah ch s;
}.

(** The invariant as it is when the task [t] stops. *)
Definition NStop t P ah ch s : Prop := NInv P ah ch (on_task t (set_phase TaskPanicked) s).

Lemma view_on_task t (f : ContextTask → ContextTask) g s :
  (∀ task, task_view (f task) = g (task_view task)) → view (on_task t f s) = alter g t (view s).
Proof. intros Hf. unfold view. cbn. by apply list_fmap_alter. Qed.

Lemma view_phase t ph s : view (on_task t (set_phase ph) s) = alter (at_phase ph) t (view s).
Proof. by apply view_on_task. Qed.

Lemma view_same t (f : ContextTask → ContextTask) s : (∀ task, task_view (f task) = task_view task) → view (on_task t f s) = view s.
Proof. intros Hf. rewrite (view_on_task t f (λ v, v)) by done. by apply list_alter_id. Qed.

Lemma heights_on_task t (f : ContextTask → ContextTask) s :
  (∀ task, (f task).(ct_height) = task.(ct_height)) → ct_height <$> (on_task t f s).(context_tasks) = ct_height <$> s.(context_tasks).
Proof.
  intros Hf. cbn. rewrite (list_fmap_alter ct_height f (λ h, h)) by done. by apply list_alter_id.
Qed.

Lemma Frame_on_task P ah ch t f s :
  (∀ task, (f task).(ct_height) = task.(ct_height)) → Frame P ah ch s → Frame P ah ch (on_task t f s).
Proof. intros Hf [H1 H2 H3 H4 H5]. split; try done. by rewrite heights_on_task. Qed.

Lemma NInv_on_task P ah ch t f s :
  (∀ task, task_view (f task) = task_view task) → NInv P ah ch s → NInv P ah ch (on_task t f s).
Proof.
  intros Hf [H1 H2]. split; [by rewrite view_same|]. apply Frame_on_task; [|done]. intros task. specialize (Hf task).
  unfold task_view in Hf. congruence.
Qed.

(** The invariant does not depend on channels, streams, blocks and the price. *)
Lemma NInv_ext P ah ch s s' :
  s'.(context_tasks) = s.(context_tasks) → s'.(valid_proposals) = s.(valid_proposals) →
  s'.(next_proposal_id) = s.(next_proposal_id) → s'.(node_batcher) = s.(node_batcher) →
  s'.(queued_proposals) = s.(queued_proposals) → s'.(current_height) = s.(current_height) →
  NInv P ah ch s → NInv P ah ch s'.
Proof.
  intros H1 H2 H3 H4 H5 H6 [HI [F1 F2 F3 F4 F5]]. split; [unfold view; by rewrite H1, H2, H3, H4|].
  split; by rewrite ?H1, ?H2, ?H4, ?H5, ?H6.
Qed.

Lemma NInv_end_task P ah ch t ph s : over ph → NStop t P ah ch s → NInv P ah ch (end_task t ph s).
Proof.
  intros Ho [HI HF]. unfold end_task. destruct (context_tasks s !! t) as [task|] eqn:Ht.
  - apply (NInv_ext _ _ _ (on_task t (set_phase ph) s)); [done..|]. split.
    + rewrite view_phase in *. apply (SInv_over ph t) in HI; [|done]. by rewrite alter_phase in HI.
    + destruct HF as [F1 F2 F3 F4 F5]. rewrite heights_on_task in F1 by done. split; try done. by rewrite heights_on_task.
  - apply (NInv_ext _ _ _ (on_task t (set_phase TaskPanicked) s)); try done. cbn. by rewrite list_alter_none.
Qed.

Lemma NInv_NStop P ah ch t s : NInv P ah ch s → NStop t P ah ch s.
Proof.
  intros [HI HF]. split; [|by apply Frame_on_task]. rewrite view_phase. apply SInv_over; [by right|done].
Qed.

(** After a step of the task [t]. *)
Definition Post t P ah ch (res : result Waiting unit) s : Prop :=
  match res with Panic => NStop t P ah ch s | _ => NInv P ah ch s end.

Lemma NInv_request P ah ch b' s :
  NInv P ah ch s → Inv b' → steady None None s.(node_batcher) b' → NInv P ah ch (set_node_batcher b' s).
Proof.
  intros [HI [F1 F2 F3 F4 F5]] HI' Hs. split.
  - eapply (SInv_request None None); [done..|]. by intros pid [|].
  - split; try done. cbn. by rewrite (st_height _ _ _ _ _ Hs).
Qed.

Lemma wp_request {A} (m : M Batcher BatcherError A) P ah ch s (Q : result Waiting A → Node → Prop) :
  safe m s.(node_batcher) → steady None None s.(node_batcher) (m s.(node_batcher)).2 → NInv P ah ch s →
  (∀ a b', m s.(node_batcher) = (Ok a, b') → NInv P ah ch (set_node_batcher b' s) → Q (Ok a) (set_node_batcher b' s)) →
  (∀ s', NInv P ah ch s' → Q Panic s') → wp (expect_batcher m) s Q.
Proof.
  intros [Hp HI'] Hs HI Hok Hpanic. unfold wp, expect_batcher. pose proof (NInv_request _ _ _ _ _ HI HI' Hs) as HN.
  destruct (m s.(node_batcher)) as [[a|e|] b']; cbn in *; auto.
Qed.

Lemma wp_send_part t open part P ah ch s (Q : result Waiting unit → Node → Prop) :
  NInv P ah ch s → (∀ s', NInv P ah ch s' → s'.(node_batcher) = s.(node_batcher) → view s' = view s → Q (Ok tt) s') → Q Panic s →
  wp (send_part t open part) s Q.
Proof.
  intros HI Hok Hp. destruct open; [|done]. apply Hok; [by apply NInv_on_task|done|by apply view_same].
Qed.

Lemma lookup_view t task s : s.(context_tasks) !! t = Some task → view s !! t = Some (task_view task).
Proof. intros Ht. unfold view. by rewrite list_lookup_fmap, Ht. Qed.

Lemma NInv_phase P ah ch t h pid ph0 ph s :
  NInv P ah ch s → view s !! t = Some (h, pid, ph0) → ¬ over ph0 → phase_ok s.(node_batcher) h pid ph →
  NInv P ah ch (on_task t (set_phase ph) s).
Proof.
  intros [HI HF] Ht Ho Hok. split; [|by apply Frame_on_task]. rewrite view_phase. eapply SInv_phase; [done..|].
  intros h' id Hs. destruct Ho. by eapply not_stored.
Qed.

(** The other kind of stream of a running proposal. *)
Lemma no_validate_stream V vp next b t h pid :
  SInv V vp next b → V !! t = Some (h, pid, BuildContent) → b.(validate_tx_streams) !! pid = None.
Proof.
  intros HI Ht. apply eq_None_not_Some. intros (t'&h'&ph&Hl&Hph)%(si_validate _ _ _ _ HI).
  assert (t' = t) as -> by (by eapply (si_distinct _ _ _ _ HI)). simplify_eq. by destruct Hph as [?|[?|?]].
Qed.

Lemma no_propose_stream V vp next b t h pid :
  SInv V vp next b → V !! t = Some (h, pid, ValidateContent) → b.(propose_tx_streams) !! pid = None.
Proof.
  intros HI Ht. apply eq_None_not_Some. intros (t'&h'&ph&Hl&Hph)%(si_propose _ _ _ _ HI).
  assert (t' = t) as -> by (by eapply (si_distinct _ _ _ _ HI)). simplify_eq. by destruct Hph as [?|[?|?]].
Qed.

Lemma store_phase_ok b h pid id ph :
  Inv b → b.(propose_tx_streams) !! pid = None → b.(validate_tx_streams) !! pid = None → result_is b pid id →
  stores ph = Some id → phase_ok b h pid ph.
Proof.
  intros HI Hp Hv Hr Hs. split_and!; [by destruct ph|rewrite Hp; by intros [? ?]|rewrite Hv; by intros [? ?]|].
  intros id' Hs'. assert (id' = id) as -> by congruence. split_and!; [done|by apply result_settled|done].
Qed.

Lemma stream_content_step t task open cende P ah ch s :
  NInv P ah ch s → s.(context_tasks) !! t = Some task → task.(ct_phase) = BuildContent →
  wp (stream_proposal_content state_diff_hash buffer_size into_transaction t task open cende) s (Post t P ah ch).
Proof.
  intros HN Ht Hph. pose proof (lookup_view _ _ _ Ht) as Hview. unfold task_view in Hview. rewrite Hph in Hview.
  apply wp_bind. apply (wp_request _ P ah ch); [|apply get_content_steady|done| |by intros s' HN'; apply NInv_NStop].
  { apply get_content_safe; [done|apply HN]. }
  intros response b' Hb HN'. destruct response as [[txs|id]|]; [..|done].
  - apply wp_modify. apply (wp_send_part _ _ _ P ah ch); [by apply NInv_on_task|by intros|]. by apply NInv_NStop, NInv_on_task.
  - destruct (get_content_result _ _ _ _ _ _ Hb) as [Hr Hp]. destruct cende as [[]|].
    + apply wp_bind, (wp_send_part _ _ _ P ah ch); [done| |by apply NInv_NStop]. intros s' HN2 Hb2 Hv2. cbn in Hb2.
      unfold wp. cbn. change (view s) with (view (set_node_batcher b' s)) in Hview. rewrite <-Hv2 in Hview. eapply NInv_phase; [done..|by intros [|]|]. rewrite Hb2.
      apply (store_phase_ok _ _ _ id); try done; rewrite <-Hb2; [apply HN2|]. by eapply no_validate_stream; [apply HN2|].
    + unfold wp. cbn. apply NInv_end_task; [by left|by apply NInv_NStop].
    + unfold wp. cbn. apply NInv_end_task; [by left|by apply NInv_NStop].
Qed.

Lemma NStop_phase P ah ch t h pid ph0 ph s :
  NStop t P ah ch s → view s !! t = Some (h, pid, ph0) → (∀ h' id, ¬ stored s.(valid_proposals) h' id pid) →
  phase_ok s.(node_batcher) h pid ph → NInv P ah ch (on_task t (set_phase ph) s).
Proof.
  intros [HI [F1 F2 F3 F4 F5]] Ht Hst Hok. rewrite heights_on_task in F1 by done. split; [|by split; rewrite ?heights_on_task].
  rewrite view_phase in *. rewrite <-(alter_phase ph TaskPanicked). eapply SInv_phase; [|done..|].
  - by rewrite list_lookup_alter_eq, Ht.
  - intros h' id ?. by destruct (Hst h' id).
Qed.

Lemma NStop_on_task P ah ch t f s :
  (∀ task, task_view (f task) = task_view task) → NStop t P ah ch s → NStop t P ah ch (on_task t f s).
Proof.
  intros Hf [HI [F1 F2 F3 F4 F5]]. assert (∀ task, (f task).(ct_height) = task.(ct_height)) as Hh.
  { intros task. specialize (Hf task). unfold task_view in Hf. congruence. }
  rewrite heights_on_task in F1 by done. split; [by rewrite view_phase, view_same, <-view_phase|].
  split; try done. by rewrite !heights_on_task.
Qed.

(** The request that starts the proposal of a task. *)
Lemma wp_start {A} (m : M Batcher BatcherError A) np nv t h pid ph0 P ah ch s (Q : result Waiting A → Node → Prop) :
  NInv P ah ch s → view s !! t = Some (h, pid, ph0) → ¬ has_started ph0 →
  (new_proposal s.(node_batcher) pid → safe m s.(node_batcher)) → steady np nv s.(node_batcher) (m s.(node_batcher)).2 →
  (∀ pid', np = Some pid' ∨ nv = Some pid' → pid' = pid) →
  (∀ a b', NStop t P ah ch (set_node_batcher b' s) → steady np nv s.(node_batcher) b' → Q (Ok a) (set_node_batcher b' s)) →
  (∀ s', NStop t P ah ch s' → Q Panic s') → wp (expect_batcher m) s Q.
Proof.
  intros HN Ht Hst Hsafe Hs Hnew Hok Hpanic. pose proof (ni_inv _ _ _ _ HN) as HI.
  destruct Hsafe as [Hp HI'].
  { intros bt btask Hl Heq. destruct (si_tasks _ _ _ _ HI bt btask Hl) as (t'&h'&ph&Hl'&Hph). rewrite Heq in Hl'.
    assert (t' = t) as -> by (by eapply (si_distinct _ _ _ _ HI)). by simplify_eq. }
  assert (NStop t P ah ch (set_node_batcher (m s.(node_batcher)).2 s)) as HS.
  { apply (NInv_NStop _ _ _ t) in HN as [HI2 HF]. rewrite view_phase in HI2. split.
    - rewrite view_phase. eapply SInv_request; [done..|]. cbn. intros pid' ->%Hnew. split.
      + exists t, h, TaskPanicked. split; [|by right]. rewrite list_lookup_alter_eq. by apply (f_equal (fmap (at_phase TaskPanicked))) in Ht.
      + intros h' id Hstored. destruct Hst. apply over_started. by eapply not_stored.
    - destruct HF as [F1 F2 F3 F4 F5]. split; try done. cbn in *. by rewrite (st_height _ _ _ _ _ Hs). }
  unfold wp, expect_batcher. destruct (m s.(node_batcher)) as [[a|e|] b']; cbn in *; auto.
Qed.

Lemma over_not_start V vp next b t h pid ph0 h' id :
  SInv V vp next b → V !! t = Some (h, pid, ph0) → ¬ has_started ph0 → ¬ stored vp h' id pid.
Proof. intros HI Ht Hn Hs. destruct Hn. apply over_started. by eapply not_stored. Qed.

Lemma start_no_streams V vp next b t h pid ph0 :
  SInv V vp next b → V !! t = Some (h, pid, ph0) → ¬ has_started ph0 → closed b pid.
Proof.
  intros HI Ht Hn. split; apply eq_None_not_Some.
  - intros (t'&h'&ph&Hl&Hph)%(si_propose _ _ _ _ HI). assert (t' = t) as -> by (by eapply (si_distinct _ _ _ _ HI)).
    simplify_eq. apply Hn. destruct Hph as [->|?]; [done|by apply over_started].
  - intros (t'&h'&ph&Hl&Hph)%(si_validate _ _ _ _ HI). assert (t' = t) as -> by (by eapply (si_distinct _ _ _ _ HI)).
    simplify_eq. apply Hn. destruct Hph as [->|?]; [done|by apply over_started].
Qed.

Lemma build_start_step t task init late created open P ah ch s :
  NInv P ah ch s → s.(context_tasks) !! t = Some task → task.(ct_phase) = BuildStart init →
  wp (initialize_build task.(ct_proposal_id) init late created;; send_part t open (PartInit init);;
      modify (on_task t (set_phase BuildContent))) s (Post t P ah ch).
Proof.
  intros HN Ht Hph. pose proof (lookup_view _ _ _ Ht) as Hview. unfold task_view in Hview. rewrite Hph in Hview.
  apply wp_bind, (wp_start _ (Some task.(ct_proposal_id)) None t _ _ _ P ah ch s _ HN Hview); [by intros []|..|by intros s' ?].
  - intros Hn. apply propose_safe; [apply HN|done].
  - apply (propose_steady _ (block_input task.(ct_proposal_id) init.(pi_height) late created)).
  - intros pid' [[= ->]|?]; done.
  - intros [] b' HS Hs. destruct open; [|done]. unfold wp. cbn.
    eapply (NStop_phase _ _ _ _ _ task.(ct_proposal_id) (BuildStart init)).
    + by apply NStop_on_task.
    + by rewrite view_same.
    + intros h' id. eapply over_not_start; [apply HN|done|by intros []].
    + split_and!; [done|by auto| |done]. intros [?|Hv]%(st_validate _ _ _ _ _ Hs); [done|].
      destruct (start_no_streams _ _ _ _ _ _ _ _ (ni_inv _ _ _ _ HN) Hview) as [_ Hc]; [by intros []|].
      rewrite Hc in Hv. by destruct Hv.
Qed.

Lemma validate_start_step t task late created P ah ch s :
  NInv P ah ch s → s.(context_tasks) !! t = Some task → task.(ct_phase) = ValidateStart →
  wp (initiate_validation task.(ct_proposal_id) task.(ct_height) late created;;
      modify (on_task t (set_phase ValidateContent))) s (Post t P ah ch).
Proof.
  intros HN Ht Hph. pose proof (lookup_view _ _ _ Ht) as Hview. unfold task_view in Hview. rewrite Hph in Hview.
  apply wp_bind, (wp_start _ None (Some task.(ct_proposal_id)) t _ _ _ P ah ch s _ HN Hview); [by intros []|..|by intros s' ?].
  - intros Hn. apply propose_safe; [apply HN|done].
  - apply (validate_steady _ (block_input task.(ct_proposal_id) task.(ct_height) late created)).
  - intros pid' [?|[= ->]]; done.
  - intros [] b' HS Hs. unfold wp. cbn. eapply (NStop_phase _ _ _ _ _ task.(ct_proposal_id) ValidateStart); [done..| |].
    + intros h' id. eapply over_not_start; [apply HN|done|by intros []].
    + split_and!; [done| |by auto|done]. intros [?|Hp]%(st_propose _ _ _ _ _ Hs); [done|].
      destruct (start_no_streams _ _ _ _ _ _ _ _ (ni_inv _ _ _ _ HN) Hview) as [Hc _]; [by intros []|].
      rewrite Hc in Hp. by destruct Hp.
Qed.

Lemma abort_proposal_step t task P ah ch s :
  NInv P ah ch s →
  wp (batcher_abort_proposal state_diff_hash task.(ct_proposal_id);; modify (end_task t TaskReturned)) s (Post t P ah ch).
Proof.
  intros HN. apply wp_bind, wp_bind. apply (wp_request _ P ah ch); [|by apply send_steady; [apply HN|]|done| |].
  - apply send_safe; [apply HN|done].
  - intros a b' _ HN'. unfold wp. cbn. apply NInv_end_task; [by left|by apply NInv_NStop].
  - intros s' HN'. by apply NInv_NStop.
Qed.

Lemma validate_select_step t task branch P ah ch s :
  NInv P ah ch s → s.(context_tasks) !! t = Some task → task.(ct_phase) = ValidateContent →
  wp (validate_select state_diff_hash try_into_executable t task branch) s (Post t P ah ch).
Proof.
  intros HN Ht Hph. pose proof (lookup_view _ _ _ Ht) as Hview. unfold task_view in Hview. rewrite Hph in Hview.
  destruct branch as [| |[[init|fin|txs]|] failure r]; cbn [validate_select handle_proposal_part].
  - destruct (ct_cancelled task); [by apply abort_proposal_step|done].
  - by apply abort_proposal_step.
  - apply wp_bind. by apply NInv_NStop.
  - apply wp_bind, wp_bind. apply (wp_request _ P ah ch); [|by apply send_steady; [apply HN|]|done| |].
    + apply send_safe; [apply HN|done].
    + intros status b' Hb HN'. destruct status; try (by apply NInv_NStop); [|by apply abort_proposal_step].
      destruct (finish_result _ _ _ _ _ _ Hb) as [Hr Hv]. unfold wp. cbn. eapply NInv_phase; [done..|by intros [|]|].
      eapply store_phase_ok; [apply HN'| |done..]. by eapply no_propose_stream; [apply HN'|].
    + intros s' HN'. by apply NInv_NStop.
  - apply wp_bind, wp_bind. destruct (mapM try_into_executable txs) as [exe_txs|]; [|by apply NInv_NStop].
    unfold wp at 1. cbn [expect mret]. apply wp_modify, wp_bind.
    assert (NInv P ah ch (on_task t (extend_content exe_txs) s)) as HN1 by (by apply NInv_on_task).
    assert (content_ok (SendTxs exe_txs (prod_map Datatypes.id (@inl _ (BlockExecutionArtifacts I (StateMaps * W))) <$> failure))) as Hc.
    { destruct failure as [[n e]|]; cbn; by eauto. }
    apply (wp_request _ P ah ch); [|by apply send_steady; [apply HN1|]|done| |].
    + apply send_safe; [apply HN1|done].
    + intros status b' Hb HN'. destruct status; try (by apply NInv_NStop); [done|by apply abort_proposal_step].
    + intros s' HN'. by apply NInv_NStop.
  - apply wp_bind. by apply abort_proposal_step.
Qed.

Lemma store_step t task id fin P ah ch s :
  NInv P ah ch s → s.(context_tasks) !! t = Some task → stores task.(ct_phase) = Some id →
  wp (store_proposal task id fin;; modify (end_task t TaskReturned)) s (Post t P ah ch).
Proof.
  intros [HI [F1 F2 F3 F4 F5]] Ht Hs. pose proof (lookup_view _ _ _ Ht) as Hview. 
  unfold wp, store_proposal, end_task, mbind, M_bind, modify. cbn. rewrite Ht. cbn.
  apply (NInv_ext _ _ _ (set_valid_proposals (<[task.(ct_height) := <[id := (task.(ct_content), task.(ct_proposal_id))]>
    (default ∅ (s.(valid_proposals) !! task.(ct_height)))]> s.(valid_proposals)) (on_task t (set_phase TaskReturned) s))); [done..|].
  split; [|split; try done].
  - change (view _) with (view (on_task t (set_phase TaskReturned) s)). rewrite view_phase. by eapply SInv_store.
  - change (context_tasks _) with (context_tasks (on_task t (set_phase TaskReturned) s)). by rewrite heights_on_task.
  - cbn. intros h [<-|?]%lookup_insert_is_Some'; [|by apply F2].
    rewrite Forall_fmap in F1. by apply (Forall_lookup_1 _ _ t task F1).
Qed.

Lemma task_step_ok t input P ah ch s : NInv P ah ch s → wp (task_step t input) s (Post t P ah ch).
Proof.
  intros HN. unfold ConsensusContext.task_step. apply wp_get_st. destruct (context_tasks s !! t) as [task|] eqn:Ht; [|done].
  unfold build_step, validate_step. destruct (ct_phase task) as [init| |id| | |built fin| |] eqn:Hph; try done.
  all: apply wp_bind.
  - eapply wp_mono; [by apply build_start_step|]. by intros [[]|e|] s'.
  - eapply wp_mono; [by apply stream_content_step|]. by intros [[]|e|] s'.
  - eapply wp_mono; [by apply store_step; rewrite ?Hph|]. by intros [[]|e|] s'.
  - unfold wp at 1. cbn [mret M_ret fst snd]. by apply validate_start_step.
  - unfold wp at 1. cbn [mret M_ret fst snd]. by apply validate_select_step.
  - unfold wp at 1. cbn [mret M_ret fst snd]. by apply store_step; rewrite ?Hph.
Qed.

Lemma env_step_ok step P ah ch s : NInv P ah ch s → NInv P ah ch (env_step s step).
Proof.
  intros HN. destruct step as [t input|t tx|t r]; cbn.
  - pose proof (task_step_ok t input P ah ch s HN) as Hw. unfold wp, Post in Hw.
    destruct (task_step t input s) as [[|e|] s']; [done..|]. apply NInv_end_task; [by right|done].
  - apply NInv_request; [done| |apply steady_sends]. unfold task_sends.
    destruct (tasks _ !! t) as [task|]; [|apply HN]. destruct (task_result task); [apply HN|].
    apply Inv_set_task; [done|apply HN].
  - destruct (may_finish t r s.(node_batcher)) eqn:Hm; [|done]. apply NInv_request; [done| |by apply steady_finishes, HN].
    apply Inv_finishes; [|apply HN]. intros [id Hid]. destruct r as [e|artifacts]; [by eauto|]. cbn in Hm.
    apply bool_decide_eq_true in Hm. destruct Hm. apply list_elem_of_fmap. exists (id, t). split; [done|]. by apply elem_of_map_to_list.
Qed.

Lemma env_steps_ok steps P ah ch s : NInv P ah ch s → NInv P ah ch (foldl env_step s steps).
Proof. revert s. induction steps as [|step steps IH]; intros s HN; [done|]. cbn. by apply IH, env_step_ok. Qed.

(** ** Calls of consensus *)

Definition below (ch : option BlockNumber) h : Prop := ∃ c, ch = Some c ∧ h ≤ c.

(** The invariant between calls: no task and no proposal is of a later height than the context. *)
Definition Top s : Prop := NInv (below s.(current_height)) s.(node_batcher).(active_height) s.(current_height) s.

Lemma NInv_weaken (P P' : BlockNumber → Prop) ah ch s : (∀ h, P h → P' h) → NInv P ah ch s → NInv P' ah ch s.
Proof. intros Hp [HI [F1 F2 F3 F4 F5]]. split; [done|]. split; eauto. by eapply Forall_impl. Qed.

Lemma NInv_Top P ah ch s : (∀ h, P h → below ch h) → NInv P ah ch s → Top s.
Proof. intros Hp HN. unfold Top. destruct (ni_frame _ _ _ _ HN) as [_ _ _ <- <-]. by eapply NInv_weaken. Qed.

Lemma interrupt_ok meanwhile P ah ch s :
  NInv P ah ch s →
  wp (interrupt_active_proposal state_diff_hash buffer_size into_transaction try_into_executable meanwhile) s (λ _, NInv P ah ch).
Proof.
  intros HN. unfold interrupt_active_proposal. apply wp_get_st. destruct (current_proposal s) as [t|]; [|done].
  apply wp_modify, wp_modify, wp_get_st. set (s' := foldl _ _ _).
  assert (NInv P ah ch s') as HN' by (by apply env_steps_ok, NInv_on_task; [|apply (NInv_ext _ _ _ s)]). clearbody s'.
  destruct (context_tasks s' !! t) as [task|]; [|done]. apply wp_bind. unfold wp at 1. cbn. by destruct (ct_phase task).
Qed.

Lemma SInv_next V vp next next' b : next ≤ next' → SInv V vp next b → SInv V vp next' b.
Proof. intros Hle [H1 H2 H3 H4 H5 H6 H7 H8]. split; try done. intros t h pid ph ?%H2. lia. Qed.

Lemma SInv_spawn h pid ph V vp next b :
  SInv V vp next b → pid < next → (∀ t h' ph', V !! t ≠ Some (h', pid, ph')) → ¬ has_started ph →
  SInv (V ++ [(h, pid, ph)]) vp next b.
Proof.
  intros [H1 H2 H3 H4 H5 H6 H7 H8] Hpid Hnew Hst.
  assert (∀ t v, V !! t = Some v → (V ++ [(h, pid, ph)]) !! t = Some v) as Hold by (intros; by apply lookup_app_l_Some).
  assert (∀ t v, (V ++ [(h, pid, ph)]) !! t = Some v → V !! t = Some v ∨ t = length V ∧ v = (h, pid, ph)) as Hcase.
  { intros t v [?|[? Hl]]%lookup_app_Some; [by left|]. apply list_lookup_singleton_Some in Hl as [? <-]. right. split; [lia|done]. }
  split; try done.
  - intros t h' pid' ph' [?|[_ [= -> -> ->]]]%Hcase; [by eapply H2|done].
  - intros t t' h1 h2 pid' ph1 ph2 [Hl|[-> [= -> -> ->]]]%Hcase [Hl'|[-> Heq]]%Hcase.
    + by eapply H3.
    + injection Heq as -> -> ->. by destruct (Hnew t h1 ph1).
    + by destruct (Hnew t' h2 ph2).
    + done.
  - intros bt btask (t&h'&ph'&?&?)%H4. exists t, h', ph'. auto.
  - intros pid' (t&h'&ph'&?&?)%H5. exists t, h', ph'. auto.
  - intros pid' (t&h'&ph'&?&?)%H6. exists t, h', ph'. auto.
  - intros t h' pid' ph' id [?|[_ [= -> -> ->]]]%Hcase Hs; [by eapply H7|]. by destruct ph.
  - intros h' id pid' (?&t&ph'&?&?)%H8. split; [done|]. exists t, ph'. auto.
Qed.

Lemma NInv_spawn h pid ph fin P ah ch s (Q : result Waiting nat → Node → Prop) :
  NInv P ah ch s → pid < s.(next_proposal_id) → (∀ t h' ph', view s !! t ≠ Some (h', pid, ph')) → ¬ has_started ph → P h →
  (∀ t s', NInv P ah ch s' → s'.(current_proposal) = s.(current_proposal) → Q (Ok t) s') →
  wp (spawn_task h pid ph fin) s Q.
Proof.
  intros [HI [F1 F2 F3 F4 F5]] Hpid Hnew Hst HP Hok.
  refine (Hok (length s.(context_tasks)) (set_context_tasks (s.(context_tasks) ++ [_]) s) _ eq_refl). split.
  - unfold view. cbn [context_tasks set_context_tasks]. rewrite fmap_app. by apply SInv_spawn.
  - split; try done. cbn [context_tasks set_context_tasks]. rewrite fmap_app, Forall_app. split; [done|]. by constructor.
Qed.

(** A fresh identifier. *)
Lemma wp_fresh P ah ch s (Q : result Waiting N → Node → Prop) :
  NInv P ah ch s →
  (∀ pid s', NInv P ah ch s' → pid < s'.(next_proposal_id) → (∀ t h ph, view s' !! t ≠ Some (h, pid, ph)) →
     s'.(current_proposal) = s.(current_proposal) → Q (Ok pid) s') →
  Q Panic s → wp fresh_proposal_id s Q.
Proof.
  intros HN Hok Hp. unfold fresh_proposal_id. apply wp_get_st. unfold checked_add. case_decide; [|done].
  refine (Hok s.(next_proposal_id) (set_next_proposal_id (s.(next_proposal_id) + 1) s) _ _ _ eq_refl).
  - destruct HN as [HI HF]. split; [|by destruct HF; split]. eapply SInv_next; [|exact HI]. cbn. lia.
  - cbn. lia.
  - intros t h ph Hl. apply (si_ids _ _ _ _ (ni_inv _ _ _ _ HN)) in Hl. lia.
Qed.

Lemma validate_current_ok params P ah ch s :
  NInv P ah ch s → P params.(vp_height) → wp (validate_current_round_proposal params) s (λ _, NInv P ah ch).
Proof.
  intros HN HP. unfold validate_current_round_proposal. apply wp_bind, (wp_fresh P ah ch); [done| |done].
  intros pid s' HN' Hpid Hnew _. apply wp_bind, (NInv_spawn _ _ _ _ P ah ch); [done..|by intros []|done|].
  intros t s2 HN2 _. unfold wp. cbn. by apply (NInv_ext _ _ _ s2).
Qed.

Lemma NInv_queue P ah ch s s' :
  s'.(context_tasks) = s.(context_tasks) → s'.(valid_proposals) = s.(valid_proposals) →
  s'.(next_proposal_id) = s.(next_proposal_id) → s'.(node_batcher) = s.(node_batcher) →
  s'.(queued_proposals) ⊆ s.(queued_proposals) → s'.(current_height) = s.(current_height) →
  NInv P ah ch s → NInv P ah ch s'.
Proof.
  intros H1 H2 H3 H4 H5 H6 [HI [F1 F2 F3 F4 F5]]. split; [unfold view; by rewrite H1, H2, H3, H4|].
  split; rewrite ?H1, ?H2, ?H4, ?H6; try done. intros r params Hl. eapply F3. by eapply lookup_weaken.
Qed.

Lemma drop_queued_ok P ah ch r s : NInv P ah ch s → NInv P ah ch (drop_queued r s).
Proof.
  intros HN. unfold drop_queued. destruct (queued_proposals s !! r); [|done].
  apply (NInv_queue _ _ _ s); try done. cbn. apply delete_subseteq.
Qed.

Lemma take_queued_ok rounds P ah ch s :
  NInv P ah ch s →
  wp (take_queued rounds) s (λ res s', NInv P ah ch s' ∧ ∀ params, res = Ok (Some params) → P params.(vp_height)).
Proof.
  revert s. induction rounds as [|round rounds IH]; intros s HN; [done|]. cbn [take_queued]. apply wp_get_st.
  destruct (_ ?= _); [|by apply wp_modify, IH, drop_queued_ok|done].
  destruct (queued_proposals s !! round) as [params|] eqn:Hq; [|done]. apply wp_bind. unfold wp at 1. cbn. unfold wp. cbn. split.
  - apply (NInv_queue _ _ _ s); try done. cbn. apply delete_subseteq.
  - intros params' [= <-]. by eapply (fr_queued _ _ _ _ (ni_frame _ _ _ _ HN)).
Qed.

(** The batcher went on to another height. *)
Lemma SInv_new_height V vp next b b' :
  SInv V vp next b → Inv b' → (∀ pid, closed b' pid) → (∀ pid id, settled b' pid id) →
  (∀ bt btask, b'.(tasks) !! bt = Some btask →
     ∃ btask0, b.(tasks) !! bt = Some btask0 ∧ btask0.(task_proposal) = btask.(task_proposal)) →
  (∀ t h pid ph, V !! t = Some (h, pid, ph) → b'.(active_height) ≠ Some h) → (∀ h, is_Some (vp !! h) → b'.(active_height) ≠ Some h) →
  SInv V vp next b'.
Proof.
  intros [H1 H2 H3 H4 H5 H6 H7 H8] HI' Hc Hse Htasks HV Hvp. split; try done.
  - intros bt btask (task0&Hl&<-)%Htasks. by eapply H4.
  - intros pid [t Ht]. destruct (Hc pid). congruence.
  - intros pid [t Ht]. destruct (Hc pid). congruence.
  - intros t h pid ph id Hl _. split_and!; [done..|]. intros Hh. by destruct (HV t h pid ph Hl).
  - intros h id pid Hs. split; [|by apply (H8 h id pid)]. split_and!; [done..|]. intros Hh. destruct Hs as (m&content&Hm&_).
    by destruct (Hvp h).
Qed.

(** What is left of a height that was aborted. *)
Record cleared b b' : Prop := {
  cl_inv : Inv b';
  cl_closed pid : closed b' pid;
  cl_settled pid id : settled b' pid id;
  cl_tasks bt btask : b'.(tasks) !! bt = Some btask →
    ∃ btask0, b.(tasks) !! bt = Some btask0 ∧ btask0.(task_proposal) = btask.(task_proposal);
}.

Lemma abort_height_cleared b : Inv b → ∃ b', abort_active_height b = (Ok tt, b') ∧ cleared b b' ∧ b'.(batcher_storage) = b.(batcher_storage).
Proof.
  intros HI. destruct (abort_active_height_run b HI) as (b'&Hrun&HI'&Hst). exists b'. split; [done|]. split; [|done].
  unfold abort_active_height, abort_active_proposal, mbind, M_bind, get_st, modify in Hrun. cbn in Hrun.
  destruct (active_proposal_task b) as [t|]; cbn in Hrun; injection Hrun as <-; split; try done; cbn; eauto.
  intros t' task'. destruct (decide (t' = t)) as [->|Hne].
  - rewrite list_lookup_alter_eq. intros (task&Hl&->)%fmap_Some. by eauto.
  - rewrite list_lookup_alter_ne by done. eauto.
Qed.

Lemma cleared_ext b b' b'' :
  b''.(active_proposal) = b'.(active_proposal) → b''.(active_proposal_task) = b'.(active_proposal_task) →
  b''.(executed_proposals) = b'.(executed_proposals) → b''.(propose_tx_streams) = b'.(propose_tx_streams) →
  b''.(validate_tx_streams) = b'.(validate_tx_streams) → b''.(tasks) = b'.(tasks) → cleared b b' → cleared b b''.
Proof.
  intros E1 E2 E3 E4 E5 E6 [C1 C2 C2' C3]. split.
  - by apply (Inv_ext b').
  - intros pid. unfold closed. rewrite E4, E5. apply C2.
  - intros pid id. unfold ContextTheorems.settled. rewrite E1, E3. apply C2'.
  - by rewrite E6.
Qed.

Lemma start_height_cases height b :
  Inv b →
  (∃ b', start_height height b = (Ok tt, b') ∧ cleared b b' ∧ b'.(active_height) = Some height) ∨
  ∃ e, start_height height b = (Err e, b).
Proof.
  intros HI. unfold start_height, get_height_from_storage, mbind, M_bind, get_st, throw, modify. cbn.
  case_decide; [by eauto|]. destruct (storage_height _); [|by eauto]. cbn. case_decide; [by eauto|]. case_decide; [by eauto|].
  destruct (abort_height_cleared b HI) as (b'&->&Hc&_). left. eexists. split; [done|]. split; [|done]. by apply (cleared_ext b b').
Qed.

Lemma drop_all_ok rounds P ah ch s : NInv P ah ch s → NInv P ah ch (foldr drop_queued s rounds).
Proof. intros HN. induction rounds as [|r rounds IH]; [done|]. cbn. by apply drop_queued_ok. Qed.

Lemma start_height_ok height s :
  NInv (λ h, h < height) s.(node_batcher).(active_height) (Some height) s →
  wp (expect_batcher (start_height height)) s (λ _ s', Top s' ∧ s'.(current_height) = Some height).
Proof.
  intros HN. assert (∀ ah s', NInv (λ h, h < height) ah (Some height) s' → Top s' ∧ s'.(current_height) = Some height) as Hend.
  { intros ah s' HN'. split; [|by apply HN']. eapply NInv_Top; [|done]. cbn. intros h Hlt. exists height. split; [done|lia]. }
  unfold wp, expect_batcher. destruct (start_height_cases height s.(node_batcher)) as [(b'&->&[C1 C2 C2' C3]&Hh)|[e ->]]; [apply HN| |]; cbn.
  2:{ apply (Hend s.(node_batcher).(active_height) (set_node_batcher s.(node_batcher) s)). by apply (NInv_ext _ _ _ s). }
  apply (Hend (Some height) (set_node_batcher b' s)). destruct HN as [HI [F1 F2 F3 F4 F5]]. split; [|by split].
  apply (SInv_new_height _ _ _ s.(node_batcher)); try done; cbn; rewrite Hh.
  - intros t h pid ph Hl [= ->]. unfold view in Hl. apply list_lookup_fmap_Some in Hl as (task&[= Hh' _ _]&Hl).
    rewrite Forall_fmap in F1. pose proof (Forall_lookup_1 _ _ _ _ F1 Hl) as Hlt. cbn in Hlt. lia.
  - intros h Hm [= ->]. specialize (F2 _ Hm). lia.
Qed.

Lemma set_height_and_round_ok height round meanwhile s :
  Top s →
  wp (set_height_and_round state_diff_hash buffer_size into_transaction try_into_executable height round meanwhile) s
    (λ res s', Top s' ∧ (res = Ok tt → s'.(current_height) = Some height)).
Proof.
  intros HN. unfold set_height_and_round. apply wp_get_st.
  destruct (match current_height s with Some h => bool_decide (h < height) | None => true end) eqn:Hnew.
  - apply wp_modify. set (s1 := set_position _ _ s). assert (NInv (λ h, h < height) s.(node_batcher).(active_height) (Some height) s1) as HN1.
    { destruct HN as [HI [F1 F2 F3 F4 F5]]. assert (∀ h, below s.(current_height) h → h < height) as Hb.
      { intros h (c&Hc&Hle). rewrite Hc in Hnew. apply bool_decide_eq_true in Hnew. lia. }
      split; [done|]. split; cbn; eauto. by eapply Forall_impl. }
    assert (∀ s', NInv (λ h, h < height) s.(node_batcher).(active_height) (Some height) s' → Top s') as Htop.
    { intros s' HN'. eapply NInv_Top; [|done]. cbn. intros h Hlt. exists height. split; [done|lia]. }
    destruct (bool_decide (round = 0)); [|by split; [apply Htop|]]. apply wp_bind. unfold wp at 1. cbn [assert_ mret M_ret fst snd].
    apply wp_modify, wp_bind. eapply wp_mono; [by apply interrupt_ok; apply (NInv_ext _ _ _ s1)|].
    intros [[]|e|] s2 HN2; [|by split; [apply Htop|]..]. apply wp_modify, wp_modify.
    eapply wp_mono; [apply start_height_ok|by intros res s' [? ?]].
    apply (drop_all_ok (queued_rounds s2)) in HN2. rewrite <-(fr_active _ _ _ _ (ni_frame _ _ _ _ HN2)) in HN2 at 1.
    by apply (NInv_ext _ _ _ (foldr drop_queued s2 (queued_rounds s2))).
  - destruct (bool_decide (Some height = _)) eqn:Hh; [|done]. apply bool_decide_eq_true in Hh. apply wp_bind. unfold wp at 1.
    cbn [assert_ mret M_ret fst snd]. case_decide; [by split|]. destruct (bool_decide (_ < round)); [|done]. apply wp_bind.
    unfold wp at 1. cbn [assert_ mret M_ret fst snd]. apply wp_bind.
    assert (∀ s' (res : result Waiting unit), NInv (below s.(current_height)) s.(node_batcher).(active_height) s.(current_height) s' →
      Top s' ∧ (res = Ok tt → s'.(current_height) = Some height)) as Htop.
    { intros s' res HN'. split; [by eapply NInv_Top|]. intros _. rewrite Hh. apply HN'. }
    eapply wp_mono; [by apply interrupt_ok|]. intros [[]|e|] s2 HN2; [|by apply Htop..]. apply wp_modify, wp_get_st, wp_bind.
    eapply wp_mono; [apply take_queued_ok|].
    { by apply (NInv_ext _ _ _ s2). }
    intros [[params|]|e|] s3 [HN3 HP]; [|by apply Htop..]. eapply wp_mono; [by apply validate_current_ok; [|apply HP]|].
    intros res s4 HN4. by apply Htop.
Qed.

Lemma build_proposal_ok init timeout open meanwhile s :
  Top s →
  wp (build_proposal state_diff_hash buffer_size into_transaction try_into_executable init timeout open meanwhile) s (λ _, Top).
Proof.
  intros HN. unfold build_proposal. apply wp_bind. eapply wp_mono; [by apply set_height_and_round_ok|].
  intros [[]|e|] s1 [HN1 Hh]; [|done..]. specialize (Hh eq_refl). unfold new_fin. apply wp_bind, wp_get_st, wp_modify. unfold wp at 1.
  cbn [mret M_ret fst snd]. set (ah := s1.(node_batcher).(active_height)). set (ch := s1.(current_height)). set (s2 := set_fins _ s1).
  assert (NInv (below ch) ah ch s2) as HN2 by (by apply (NInv_ext _ _ _ s1)).
  assert (∀ s', NInv (below ch) ah ch s' → Top s') as Htop by (intros s'; by apply NInv_Top).
  apply wp_bind, (wp_fresh (below ch) ah ch); [done| |by apply Htop]. intros pid s3 HN3 Hpid Hnew _.
  destruct (bool_decide (BUILD_PROPOSAL_MARGIN < timeout)); [|by apply Htop]. apply wp_bind. unfold wp at 1. cbn [assert_ mret M_ret fst snd].
  destruct open; [|by apply Htop]. apply wp_bind. unfold wp at 1. cbn [assert_ mret M_ret fst snd]. apply wp_modify, wp_bind.
  apply (NInv_spawn _ _ _ _ (below ch) ah ch); [by apply (NInv_ext _ _ _ s3)|done..|by intros []|exists init.(pi_height); split; [done|lia]|].
  intros t s4 HN4 _. apply wp_get_st. destruct (bool_decide (_ = None)); [|by apply Htop]. apply wp_bind. unfold wp at 1.
  cbn [assert_ mret M_ret fst snd]. unfold wp. cbn. by apply Htop, (NInv_ext _ _ _ s4).
Qed.

Lemma validate_proposal_ok init s : Top s → wp (validate_proposal init) s (λ _, Top).
Proof.
  intros HN. unfold validate_proposal, new_fin. apply wp_get_st. destruct (bool_decide _) eqn:Hh; [|done].
  apply bool_decide_eq_true in Hh. apply wp_bind. unfold wp at 1. cbn [assert_ mret M_ret fst snd]. apply wp_bind, wp_get_st, wp_modify.
  unfold wp at 1. cbn [mret M_ret fst snd]. set (ah := s.(node_batcher).(active_height)). set (ch := s.(current_height)).
  set (s1 := set_fins _ s). assert (NInv (below ch) ah ch s1) as HN1 by (by apply (NInv_ext _ _ _ s)).
  assert (below ch init.(pi_height)) as HP by (exists init.(pi_height); split; [done|lia]).
  assert (∀ s', NInv (below ch) ah ch s' → Top s') as Htop by (intros s'; by apply NInv_Top).
  apply wp_bind. apply (wp_mono _ _ (λ _, NInv (below ch) ah ch)); [|by intros [[]|e|] s' HN'; apply Htop].
  destruct (pi_round init ?= current_round s).
  - by apply validate_current_ok.
  - unfold wp. cbn. by apply (NInv_ext _ _ _ s1).
  - apply wp_modify. unfold wp. cbn. apply (drop_queued_ok _ _ _ init.(pi_round)) in HN1 as [HI [F1 F2 F3 F4 F5]].
    split; [done|]. split; try done. cbn. intros r params [[_ <-]|[_ ?]]%lookup_insert_Some; [done|by eapply F3].
Qed.

(** ** Decisions *)

Lemma decision_effect pid b :
  let b' := (decision_reached pid b).2 in
  b'.(active_height) = b.(active_height) ∧ b'.(propose_tx_streams) = b.(propose_tx_streams) ∧
  b'.(validate_tx_streams) = b.(validate_tx_streams) ∧ b'.(tasks) = b.(tasks) ∧ b'.(active_proposal) = b.(active_proposal) ∧
  ∀ pid', pid' ≠ pid → b'.(executed_proposals) !! pid' = b.(executed_proposals) !! pid'.
Proof.
  cbn. unfold decision_reached, commit_proposal_and_block, mbind, M_bind, get_st, modify. cbn.
  destruct (active_height b) eqn:Hh; cbn; [|by split_and!].
  destruct (executed_proposals b !! pid) as [[e|artifacts]|]; cbn; [|destruct (storage_commit_proposal _ _ _); cbn|];
    (split_and!; [done..|]); intros pid' Hne; by rewrite lookup_delete_ne.
Qed.

Lemma SInv_decision V vp next b height block pid b' :
  SInv V vp next b → stored vp height block pid → b' = (decision_reached pid b).2 → Inv b' →
  SInv V (filter (λ '(h, _), height < h) vp) next b'.
Proof.
  intros [H1 H2 H3 H4 H5 H6 H7 H8] Hst -> HI'. destruct (decision_effect pid b) as (E1&E2&E3&E4&E6&E5).
  destruct (H8 _ _ _ Hst) as [_ (t0&ph0&Ht0&Ho0)].
  assert (∀ h pid' id, pid' ≠ pid → built b h pid' id → built (decision_reached pid b).2 h pid' id) as Hbuilt.
  { intros h pid' id Hne ([Hp Hv]&Hse&Hr). split_and!; [split; by rewrite ?E2, ?E3| |].
    - unfold ContextTheorems.settled. by rewrite E6, E5.
    - rewrite E1. intros (artifacts&?&?)%Hr. exists artifacts. by rewrite E5. }
  split; rewrite ?E2, ?E3, ?E4; try done.
  - intros t h pid' ph id Hl Hs. apply Hbuilt; [|by eapply H7]. intros ->. assert (t = t0) as -> by (by eapply H3). simplify_eq.
    by eapply over_stores.
  - intros h id pid' (m&content&(Hm&Hlt)%map_lookup_filter_Some&Hid). destruct (H8 h id pid') as [Hb (t&ph&Hl&Ho)]; [by exists m, content|].
    split; [|by eauto]. apply Hbuilt; [|done]. intros ->. assert (t = t0) as -> by (by eapply H3). simplify_eq. lia.
Qed.

Lemma decision_ok block votes accepted s : Top s → wp (context_decision_reached block votes accepted) s (λ _, Top).
Proof.
  intros HN. unfold context_decision_reached. destruct (head votes) as [vote|]; [|done]. apply wp_bind. unfold wp at 1.
  cbn [expect mret M_ret fst snd]. apply wp_get_st. destruct (valid_proposals s !! vote_height vote) as [m|] eqn:Hm; [|done]. apply wp_bind.
  unfold wp at 1. cbn [expect mret M_ret fst snd]. destruct (m !! block) as [[content pid]|] eqn:Hid; [|done]. apply wp_bind. unfold wp at 1.
  cbn [expect mret M_ret fst snd]. apply wp_modify, wp_bind. set (s1 := set_valid_proposals _ s).
  assert (stored s.(valid_proposals) vote.(vote_height) block pid) as Hst by (by exists m, content).
  destruct HN as [HI [F1 F2 F3 F4 F5]]. destruct (si_valid _ _ _ _ HI _ _ _ Hst) as [([Hp Hv]&_) _].
  destruct (decision_safe pid s.(node_batcher) (si_batcher _ _ _ _ HI) Hp Hv) as [Hnp HI'].
  assert (∀ b', b' = (decision_reached pid s.(node_batcher)).2 → Top (set_node_batcher b' s1)) as Htop.
  { intros b' ->. destruct (decision_effect pid s.(node_batcher)) as (E1&_). split; [by eapply SInv_decision|].
    split; try done. cbn. intros h [x [Hx _]%map_lookup_filter_Some]. by apply F2. }
  unfold wp at 1, expect_batcher. cbn [node_batcher s1 set_valid_proposals].
  destruct (decision_reached pid (node_batcher s)) as [[[diff gas]|e|] b'] eqn:Hd; cbn [fst snd] in *; [|by apply Htop..].
  destruct accepted; [|by apply Htop]. apply wp_bind. unfold wp at 1. cbn [assert_ mret M_ret fst snd]. apply wp_modify, wp_get_st.
  assert (∀ s', s'.(context_tasks) = s1.(context_tasks) → s'.(valid_proposals) = s1.(valid_proposals) →
    s'.(next_proposal_id) = s1.(next_proposal_id) → s'.(node_batcher) = b' → s'.(queued_proposals) = s1.(queued_proposals) →
    s'.(current_height) = s1.(current_height) → Top s') as Hext.
  { intros s' X1 X2 X3 X4 X5 X6. specialize (Htop b' eq_refl). unfold Top in *. rewrite X4, X6. by apply (NInv_ext _ _ _ (set_node_batcher b' s1)). }
  destruct (calculate_next_base_gas_price _ _ _) as [price|]; [|by apply Hext]. apply wp_bind. unfold wp. cbn. by apply Hext.
Qed.

(** ** State sync *)

Lemma sync_effect sync_block b :
  Inv b → let b' := (add_sync_block sync_block b).2 in
  (cleared b b' ∧ b'.(active_height) = None) ∨ (steady None None b b' ∧ Inv b').
Proof.
  intros HI. cbn. unfold add_sync_block, get_height_from_storage, mbind, M_bind, get_st. cbn.
  set (abort := match active_height b with Some _ => _ | None => _ end).
  assert (∃ b1, abort b = (Ok tt, b1) ∧ (cleared b b1 ∧ b1.(active_height) = None ∨ b1 = b)) as (b1&->&Hb1).
  { subst abort. destruct (active_height b); [|by eauto]. destruct (abort_height_cleared b HI) as (b1&->&Hc&_). cbn.
    eexists. split; [done|]. left. split; [|done]. by apply (cleared_ext b b1). }
  assert (∀ b2, b2.(active_height) = b1.(active_height) → b2.(active_proposal) = b1.(active_proposal) →
    b2.(active_proposal_task) = b1.(active_proposal_task) → b2.(executed_proposals) = b1.(executed_proposals) →
    b2.(propose_tx_streams) = b1.(propose_tx_streams) → b2.(validate_tx_streams) = b1.(validate_tx_streams) → b2.(tasks) = b1.(tasks) →
    (cleared b b2 ∧ b2.(active_height) = None) ∨ (steady None None b b2 ∧ Inv b2)) as Hext.
  { intros b2 E0 E1 E2 E3 E4 E5 E6. destruct Hb1 as [[Hc Hh]|Heq].
    - left. split; [by apply (cleared_ext b b1)|congruence].
    - subst b1. right. split; [by apply steady_ext|by apply (Inv_ext b)]. }
  destruct (storage_height _); cbn; [|by apply Hext]. case_decide; cbn; [by apply Hext|].
  unfold commit_proposal_and_block, mbind, M_bind, get_st, modify. cbn. destruct (storage_commit_proposal _ _ _) as [st|]; [|by apply Hext].
  by apply (Hext (set_committed st (b1.(mempool_commits) ++ [_]) b1)).
Qed.

Lemma sync_ok sync_block s : Top s → wp (try_sync sync_block) s (λ _, Top).
Proof.
  intros HN. destruct sync_block as [sync_block|]; [|done]. unfold try_sync. apply wp_bind.
  apply (wp_mono _ _ (λ _, Top)); [|by intros [[]|e|] s']. unfold wp, expect_batcher.
  assert (∀ b', b' = (add_sync_block sync_block s.(node_batcher)).2 → Top (set_node_batcher b' s)) as Htop.
  { intros b' ->. destruct (sync_effect sync_block s.(node_batcher)) as [[[C1 C2 C2' C3] Hh]|[Hs HI']]; [apply HN|..].
    - destruct HN as [HI [F1 F2 F3 F4 F5]]. split; [|by split]. apply (SInv_new_height _ _ _ s.(node_batcher)); try done; cbn; by rewrite Hh.
    - pose proof (NInv_request _ _ _ _ _ HN HI' Hs) as HN'. by eapply NInv_Top. }
  destruct (add_sync_block sync_block (node_batcher s)) as [[[]|e|] b']; cbn; by apply Htop.
Qed.

(** ** Runs *)

Inductive Call :=
| CallSetHeightAndRound (height : BlockNumber) (round : Round) (meanwhile : list EnvStep)
| CallBuild (init : ProposalInit) (timeout : N) (open : bool) (meanwhile : list EnvStep)
| CallValidate (init : ProposalInit)
| CallRepropose (id : ProposalContentId) (init : ProposalInit)
| CallDecision (block : ProposalContentId) (precommits : list Vote) (accepted : bool)
| CallSync (sync_block : option SyncBlock)
| EnvCall (step : EnvStep).

Definition call (c : Call) : NodeM unit :=
  match c with
  | CallSetHeightAndRound height round meanwhile =>
      set_height_and_round state_diff_hash buffer_size into_transaction try_into_executable height round meanwhile
  | CallBuild init timeout open meanwhile =>
      build_proposal state_diff_hash buffer_size into_transaction try_into_executable init timeout open meanwhile;; mret tt
  | CallValidate init => validate_proposal init;; mret tt
  | CallRepropose id init => repropose id init
  | CallDecision block precommits accepted => context_decision_reached block precommits accepted
  | CallSync sync_block => try_sync sync_block;; mret tt
  | EnvCall step => modify (λ s, env_step s step)
  end.

(** The calls until one panics, or does not return. *)
Definition run_calls (calls : list Call) : NodeM unit := mfor call calls.

Lemma call_ok c s : Top s → wp (call c) s (λ _, Top).
Proof.
  intros HN. destruct c as [height round meanwhile|init timeout open meanwhile|init|id init|block votes accepted|sync_block|step]; cbn [call].
  - eapply wp_mono; [by apply set_height_and_round_ok|]. by intros res s' [? _].
  - apply wp_bind. eapply wp_mono; [by apply build_proposal_ok|]. by intros [] s'.
  - apply wp_bind. eapply wp_mono; [by apply validate_proposal_ok|]. by intros [] s'.
  - unfold repropose. apply wp_get_st. destruct (valid_proposals s !! pi_height init) as [m|]; [|done]. apply wp_bind. unfold wp at 1.
    cbn [expect mret M_ret fst snd]. by destruct (m !! id).
  - by apply decision_ok.
  - apply wp_bind. eapply wp_mono; [by apply sync_ok|]. by intros [] s'.
  - unfold wp. cbn [modify fst snd]. eapply NInv_Top; [|by apply env_step_ok]. done.
Qed.

Lemma run_calls_ok calls s : Top s → wp (run_calls calls) s (λ _, Top).
Proof.
  revert s. induction calls as [|c calls IH]; intros s HN; [done|].
  change (wp (call c;; run_calls calls) s (λ _, Top)). apply wp_bind. eapply wp_mono; [by apply call_ok|].
  intros [[]|e|] s' HN'; [|done..]. by apply IH.
Qed.

Lemma Top_new n (storage : St) : Top (Node_new n (Batcher_new storage)).
Proof.
  split; [split; cbn; try done; try apply Inv_new|split; cbn; try done].
  - by intros pid [? ?].
  - by intros pid [? ?].
  - intros h id pid (m&content&Hm&_). by rewrite lookup_empty in Hm.
  - by intros h [? ?].
Qed.

(** The batcher has the block [block] as [artifacts], and a decision on it commits them: the state
    diff is appended to storage, the mempool is told, the diff goes to state sync with the
    transactions [content], proposals up to the height are forgotten, and the gas price moves on. *)
Definition commits s height block (content : list ExecutableTransaction) votes (artifacts : BlockExecutionArtifacts I (StateMaps * W)) : Prop :=
  state_diff_hash (state_diff artifacts) = block ∧
  ∀ storage' price,
    storage_commit_proposal height (state_diff artifacts) s.(node_batcher).(batcher_storage) = Some storage' →
    calculate_next_base_gas_price s.(l2_gas_price) artifacts.(l2_gas_used) (MAX_BLOCK_SIZE / 2) = Some price →
    ∃ s', context_decision_reached block votes true s = (Ok tt, s') ∧
      s'.(node_batcher).(batcher_storage) = storage' ∧
      s'.(node_batcher).(mempool_commits) = s.(node_batcher).(mempool_commits) ++
        [{| address_to_nonce := artifacts_address_to_nonce artifacts; tx_hashes := artifacts_tx_hashes artifacts |}] ∧
      s'.(added_blocks) = s.(added_blocks) ++
        [(height, {| sync_state_diff := state_diff artifacts; sync_transaction_hashes := executable_tx_hash <$> content;
                     sync_block_number := height |})] ∧
      s'.(l2_gas_price) = price ∧ ∀ h, is_Some (s'.(valid_proposals) !! h) → height < h.

(** The context holds the block as valid for the height that the batcher works on. *)
Definition holds_valid s height block content pid : Prop :=
  s.(node_batcher).(active_height) = Some height ∧
  s.(valid_proposals) !! height ≫= (.!! block) = Some (content, pid).

Definition reachable s : Prop := ∃ n storage calls r, run_calls calls (Node_new n (Batcher_new storage)) = (r, s).

Lemma reachable_Top s : reachable s → Top s.
Proof.
  intros (n&storage&calls&r&Hrun). pose proof (run_calls_ok calls _ (Top_new n storage)) as HN. unfold wp in HN. by rewrite Hrun in HN.
Qed.

Lemma decision_commits s height block content pid vote votes :
  Top s → holds_valid s height block content pid → vote.(vote_height) = height →
  ∃ artifacts, s.(node_batcher).(executed_proposals) !! pid = Some (inr artifacts) ∧
    commits s height block content (vote :: votes) artifacts.
Proof.
  intros HN [Hh (proposals&Hm&Hid)%bind_Some] Hvote.
  assert (stored s.(valid_proposals) height block pid) as Hst by (by exists proposals, content).
  destruct (si_valid _ _ _ _ (ni_inv _ _ _ _ HN) _ _ _ Hst) as [(_&_&Hr) _]. destruct (Hr Hh) as (artifacts&He&Hc).
  exists artifacts. split; [done|]. split; [done|]. intros storage' price Hstore Hprice.
  unfold context_decision_reached, expect_batcher, decision_reached, commit_proposal_and_block, mbind, M_bind, get_st, modify. cbn.
  rewrite Hvote, Hm. cbn. rewrite Hid. cbn. rewrite Hh. cbn. rewrite He. cbn. rewrite Hstore. cbn. rewrite Hprice. cbn.
  eexists. split; [done|]. cbn. split_and!; [done..|]. intros h [x [_ Hlt]%map_lookup_filter_Some]. done.
Qed.

(** C6: the block that is decided is the block that is committed. In every state that the context and
    its tasks can reach, whatever consensus calls and whatever order the tasks, the network and the
    builders take their steps in: when consensus decides on a block that the context holds as
    valid for the height the batcher works on, then the batcher has for it a state diff whose hash is
    this very block. The diff is appended to storage, the mempool is told, the diff goes to
    state sync with the transactions of the proposal, proposals up to the height are forgotten,
    and the gas price moves on; that is, if storage and state sync take the block and the next gas
    price can be computed. *)
Theorem decided_block_committed s height block content pid vote votes :
  reachable s → holds_valid s height block content pid → vote.(vote_height) = height →
  ∃ artifacts, s.(node_batcher).(executed_proposals) !! pid = Some (inr artifacts) ∧
    commits s height block content (vote :: votes) artifacts.
Proof. intros Hr. apply decision_commits. by apply reachable_Top. Qed.

(** The context keeps to the protocol of the batcher: it is never the case that the batcher holds for a
    proposal the result of another one. *)
Theorem context_respects_batcher s :
  reachable s → ∀ pid res, s.(node_batcher).(executed_proposals) !! pid = Some res → own_result s.(node_batcher) pid res.
Proof.
  intros HN%reachable_Top.
  apply (si_batcher _ _ _ _ (ni_inv _ _ _ _ HN)).
Qed.

(** ** Queued proposals *)

Lemma take_queued_later rounds s :
  Forall (λ round, s.(current_round) < round) rounds →
  take_queued rounds s = (Ok None, foldl (λ s round, drop_queued round s) s rounds).
Proof.
  revert s. induction rounds as [|round rounds IH]; intros s Hall; [done|]. apply Forall_cons in Hall as [Hlt Hall].
  cbn [take_queued foldl]. unfold mbind, M_bind, get_st, modify. apply N.compare_lt_iff in Hlt. rewrite Hlt. apply IH.
  unfold drop_queued. by destruct (queued_proposals s !! round).
Qed.

(** The senders of the dropped proposals are gone. *)
Lemma drop_queued_fins rounds s q params :
  s.(queued_proposals) !! q = Some params → q ∈ rounds → s.(fins) !! params.(vp_fin) = Some FinOpen →
  (foldl (λ s round, drop_queued round s) s rounds).(fins) !! params.(vp_fin) = Some FinDropped.
Proof.
  assert (∀ rounds s fin, s.(fins) !! fin = Some FinDropped → (foldl (λ s round, drop_queued round s) s rounds).(fins) !! fin = Some FinDropped) as Hstay.
  { clear. intros rounds. induction rounds as [|round rounds IH]; intros s fin Hf; [done|]. cbn. apply IH. unfold drop_queued.
    destruct (queued_proposals s !! round) as [params|]; [|done]. cbn. destruct (decide (fin = params.(vp_fin))) as [->|Hne].
    - by rewrite list_lookup_alter_eq, Hf.
    - by rewrite list_lookup_alter_ne. }
  revert s. induction rounds as [|round rounds IH]; intros s Hq Hin Hf; [by apply not_elem_of_nil in Hin|]. cbn.
  assert (q ≠ round → q ∈ rounds) as Hrest by (apply elem_of_cons in Hin; naive_solver).
  unfold drop_queued at 2. destruct (queued_proposals s !! round) as [params'|] eqn:Hr.
  - destruct (decide (params'.(vp_fin) = params.(vp_fin))) as [Heq|Hne].
    + apply Hstay. cbn. by rewrite Heq, list_lookup_alter_eq, Hf.
    + assert (q ≠ round) as Hqr by congruence. apply IH; [|by auto|].
      * cbn. by rewrite lookup_delete_ne.
      * cbn. by rewrite list_lookup_alter_ne.
  - apply IH; [done| |done]. apply Hrest. congruence.
Qed.

Lemma drop_queued_all rounds s :
  (foldl (λ s round, drop_queued round s) s rounds).(queued_proposals) =
    foldl (λ m round, delete round m) s.(queued_proposals) rounds ∧
  (foldl (λ s round, drop_queued round s) s rounds).(current_proposal) = s.(current_proposal).
Proof.
  revert s. induction rounds as [|round rounds IH]; intros s; [done|]. cbn. destruct (IH (drop_queued round s)) as [-> ->].
  unfold drop_queued. destruct (queued_proposals s !! round) eqn:Hr; [done|]. by rewrite delete_id.
Qed.

Lemma queued_rounds_elem q s : q ∈ queued_rounds s ↔ is_Some (s.(queued_proposals) !! q).
Proof. unfold queued_rounds. by rewrite (merge_sort_Permutation N.le), elem_of_elements, elem_of_dom. Qed.

(** The queued rounds are looked at from the first on. *)
Lemma queued_rounds_first s first rounds q :
  queued_rounds s = first :: rounds → is_Some (s.(queued_proposals) !! q) → first ≤ q.
Proof.
  intros Hq Hin%queued_rounds_elem. pose proof (StronglySorted_merge_sort N.le (elements (dom s.(queued_proposals)))) as Hsort.
  fold (queued_rounds s) in Hsort. rewrite Hq in Hin, Hsort. apply elem_of_cons in Hin as [->|Hin]; [done|].
  apply StronglySorted_inv in Hsort as [_ Hall]. by apply (proj1 (Forall_forall _ _) Hall).
Qed.

(** Going on to a later round of the height, after the active proposal was interrupted. *)
Lemma next_round_run s s0 height round meanwhile :
  s.(current_height) = Some height → s.(current_round) < round →
  interrupt_active_proposal state_diff_hash buffer_size into_transaction try_into_executable meanwhile s = (Ok tt, s0) →
  set_height_and_round state_diff_hash buffer_size into_transaction try_into_executable height round meanwhile s =
    (to_process ← take_queued (queued_rounds s0);
     match to_process with
     | None => mret tt
     | Some params => validate_current_round_proposal params
     end) (set_position s0.(current_height) round s0).
Proof.
  clear buffer_size_pos. intros Hh Hr Hi. unfold set_height_and_round, mbind, M_bind, get_st, modify.
  rewrite Hh, bool_decide_eq_false_2 by lia. rewrite bool_decide_eq_true_2 by done. cbn [assert_ mret M_ret].
  rewrite decide_False by lia. rewrite bool_decide_eq_true_2 by done. cbn [assert_ mret M_ret]. by rewrite Hi.
Qed.

(** C27: the queue of proposals for later rounds works the wrong way round. Let consensus go on to a
    later round of the height, the active proposal, if any, having ended. If a proposal of a round
    before the one that is reached is still queued, the queue is not looked at any further: a
    proposal for the round that is reached stays in it and is not validated. Otherwise, if a
    proposal for the round that is reached is queued, it is validated and those of later rounds are
    kept. Otherwise all the queued proposals, which are for later rounds, are thrown away,
    although they are kept for exactly those rounds: their senders are dropped, so that consensus takes
    the proposals for invalid. *)
Theorem queued_proposals_lost s s0 height round meanwhile :
  s.(current_height) = Some height → s.(current_round) < round →
  interrupt_active_proposal state_diff_hash buffer_size into_transaction try_into_executable meanwhile s = (Ok tt, s0) →
  let go := set_height_and_round state_diff_hash buffer_size into_transaction try_into_executable height round meanwhile s in
  let s1 := set_position s0.(current_height) round s0 in
  ((∃ q, is_Some (s0.(queued_proposals) !! q) ∧ q < round) → go = (Ok tt, s1)) ∧
  (∀ params, (∀ q, is_Some (s0.(queued_proposals) !! q) → round ≤ q) → s0.(queued_proposals) !! round = Some params →
     go = validate_current_round_proposal params (set_queued (delete round s0.(queued_proposals)) s1)) ∧
  ((∀ q, is_Some (s0.(queued_proposals) !! q) → round < q) →
     ∃ s', go = (Ok tt, s') ∧ s'.(queued_proposals) = ∅ ∧
       ∀ q params, s0.(queued_proposals) !! q = Some params → s0.(fins) !! params.(vp_fin) = Some FinOpen →
         s'.(fins) !! params.(vp_fin) = Some FinDropped).
Proof.
  intros Hh Hr Hi. cbn zeta. rewrite (next_round_run s s0) by done. clear Hh Hr Hi buffer_size_pos. split_and!.
  - intros (q&Hq&Hlt). destruct (queued_rounds s0) as [|first rounds] eqn:Hqr; [by apply queued_rounds_elem in Hq; rewrite Hqr, elem_of_nil in Hq|].
    pose proof (queued_rounds_first _ _ _ _ Hqr Hq). unfold mbind, M_bind. cbn [take_queued]. unfold mbind, M_bind, get_st. cbn.
    assert ((round ?= first) = Gt) as -> by (apply N.compare_gt_iff; lia). done.
  - intros params Hle Hq. destruct (queued_rounds s0) as [|first rounds] eqn:Hqr.
    { assert (round ∈ queued_rounds s0) as Hin by (apply queued_rounds_elem; by eexists). by rewrite Hqr, elem_of_nil in Hin. }
    assert (first = round) as ->.
    { pose proof (queued_rounds_first _ _ _ round Hqr ltac:(by eexists)).
      assert (first ∈ queued_rounds s0) as Hin by (rewrite Hqr; left). apply queued_rounds_elem, Hle in Hin. lia. }
    unfold mbind at 1, M_bind at 1. cbn [take_queued]. unfold mbind at 1, M_bind at 1, get_st at 1. cbn [current_round set_position].
    rewrite N.compare_refl. cbn [queued_proposals set_position]. rewrite Hq. done.
  - intros Hlater. unfold mbind, M_bind. rewrite take_queued_later.
    2:{ apply Forall_forall. intros q Hq. apply queued_rounds_elem in Hq. by apply Hlater. }
    eexists. split; [done|]. split.
    + rewrite (proj1 (drop_queued_all _ _)). apply delete_all. intros q Hq%elem_of_dom. by apply elem_of_list_to_set, queued_rounds_elem.
    + intros q params Hq. apply (drop_queued_fins _ (set_position s0.(current_height) round s0) q); [done|]. apply queued_rounds_elem. by eexists.
Qed.

(** ** An invalid proposal *)

(** Code of the task [t'] changes no other task. *)
Definition local {A} (t' : nat) (m : NodeM A) : Prop :=
  ∀ s t, t ≠ t' → (m s).2.(context_tasks) !! t = s.(context_tasks) !! t.

Lemma local_bind {A B} t' (m : NodeM A) (f : A → NodeM B) : local t' m → (∀ a, local t' (f a)) → local t' (m ≫= f).
Proof.
  intros Hm Hf s t Hne. specialize (Hm s t Hne). unfold mbind, M_bind. destruct (m s) as [[a|e|] s']; cbn in *; [|done..].
  by rewrite Hf.
Qed.

Lemma local_lift {A} t' (r : result Waiting A) : local t' (lift_result r).
Proof. by intros s t Hne. Qed.

Lemma local_request {A} t' (m : M Batcher BatcherError A) : local t' (expect_batcher m).
Proof. intros s t Hne. unfold expect_batcher. by destruct (m (node_batcher s)) as [[] ?]. Qed.

Lemma local_on_task t' f : local t' (modify (on_task t' f)).
Proof. intros s t Hne. cbn. by rewrite list_lookup_alter_ne. Qed.

Lemma local_end_task t' ph : local t' (modify (end_task t' ph)).
Proof.
  intros s t Hne. cbn. unfold end_task. destruct (context_tasks s !! t'); [|done]. cbn. by rewrite list_lookup_alter_ne.
Qed.

Ltac local_step :=
  match goal with
  | |- local _ (mbind _ _) => apply local_bind; [|intros ?]
  | |- local _ (expect_batcher _) => apply local_request
  | |- local _ (modify (on_task _ _)) => apply local_on_task
  | |- local _ (modify (end_task _ _)) => apply local_end_task
  | |- local _ (match ?x with _ => _ end) => destruct x
  | |- local _ (if ?x then _ else _) => destruct x
  | |- local ?t (mret ?a) => apply (local_lift t (Ok a))
  | |- local ?t (throw ?e) => apply (local_lift t (Err e))
  | |- local ?t panic => apply (local_lift t Panic)
  end.

Lemma local_build t task input : local t (build_step state_diff_hash buffer_size into_transaction t task input).
Proof.
  unfold build_step, stream_proposal_content, send_part, initialize_build.
  repeat local_step; by intros s t' Hne.
Qed.

Lemma local_validate t task input : local t (validate_step state_diff_hash try_into_executable t task input).
Proof.
  unfold validate_step, validate_select, handle_proposal_part, batcher_abort_proposal, initiate_validation, expect.
  repeat local_step; by intros s t' Hne.
Qed.

Lemma local_task_step t input : local t (task_step t input).
Proof.
  apply local_bind; [by intros s t' Hne|]. intros s. destruct (context_tasks s !! t) as [task|]; [|by intros s' t' Hne].
  apply local_bind; [apply local_build|]. intros _. apply local_validate.
Qed.

(** A task that panicked stays so. *)
Lemma panicked_stays step t task s :
  s.(context_tasks) !! t = Some task → task.(ct_phase) = TaskPanicked → (env_step s step).(context_tasks) !! t = Some task.
Proof.
  intros Ht Hph. destruct step as [t' input|t' tx|t' r]; [|done|by cbn; destruct (may_finish _ _ _)]. cbn.
  destruct (decide (t = t')) as [<-|Hne].
  - unfold ConsensusContext.task_step, mbind, M_bind, get_st. rewrite Ht. unfold build_step, validate_step. by rewrite Hph.
  - pose proof (local_task_step t' input s t Hne) as Hl. destruct (task_step t' input s) as [[|e|] s']; cbn in Hl; [congruence..|].
    rewrite <-(local_end_task t' TaskPanicked s' t Hne) in Hl. cbn in Hl. congruence.
Qed.

Lemma panicked_stays_all steps t task s :
  s.(context_tasks) !! t = Some task → task.(ct_phase) = TaskPanicked → (foldl env_step s steps).(context_tasks) !! t = Some task.
Proof.
  revert s. induction steps as [|step steps IH]; intros s Ht Hph; [done|]. cbn. apply IH; [|done]. by apply panicked_stays.
Qed.

(** The end of the stream of a proposal that the batcher finds invalid. *)
Lemma invalid_fin_panics t task fin failure cause bt input s :
  s.(context_tasks) !! t = Some task → task.(ct_phase) = ValidateContent →
  running s.(node_batcher) task.(ct_proposal_id) bt → s.(node_batcher).(validate_tx_streams) !! task.(ct_proposal_id) = Some bt →
  input.(si_branch) = NextPart (Some (PartFin fin)) failure (inl (FailOnError cause)) →
  ∃ b', env_step s (ContextTaskStep t input) = end_task t TaskPanicked (set_node_batcher b' s).
Proof.
  intros Ht Hph (Ha&Hat&btask&Hl&Hp&Hres) Hv Hin. cbn. unfold ConsensusContext.task_step, mbind, M_bind, get_st. cbn. rewrite Ht.
  unfold build_step, validate_step. rewrite Hph. unfold mbind, M_bind. cbn. rewrite Hin. cbn.
  unfold mbind, M_bind, batcher_abort_proposal, expect_batcher, send_proposal_content, handle_finish_proposal_request, is_active,
    await_active_proposal, get_completed_proposal_result, mbind, M_bind, gets, get_st, modify. cbn.
  rewrite decide_False by (by rewrite Hv). rewrite Hv. cbn. rewrite bool_decide_eq_true_2 by done. cbn. rewrite Hat. cbn.
  unfold task_finishes. cbn. rewrite Hl, Hres. cbn. rewrite decide_True by congruence. cbn. rewrite Hp, lookup_insert_eq. cbn.
  rewrite decide_True by apply lookup_delete_eq. cbn. by eexists.
Qed.

(** C26: a proposal that the batcher finds invalid when its stream ends brings consensus down. The
    batcher closes the stream with this last request; the task that validates the proposal then
    asks the batcher to abort it, which fails, and the task panics. As soon as consensus
    goes on to another round or height, it panics as well. *)
Theorem invalid_proposal_stops_consensus t task fin failure cause bt input s height h round meanwhile :
  s.(current_proposal) = Some t → s.(context_tasks) !! t = Some task → task.(ct_phase) = ValidateContent →
  running s.(node_batcher) task.(ct_proposal_id) bt → s.(node_batcher).(validate_tx_streams) !! task.(ct_proposal_id) = Some bt →
  input.(si_branch) = NextPart (Some (PartFin fin)) failure (inl (FailOnError cause)) →
  s.(current_height) = Some h → h < height ∨ height = h ∧ s.(current_round) < round →
  (set_height_and_round state_diff_hash buffer_size into_transaction try_into_executable height round meanwhile
     (env_step s (ContextTaskStep t input))).1 = Panic.
Proof.
  clear buffer_size_pos. intros Hc Ht Hph Hrun Hv Hin Hh Hnew. destruct (invalid_fin_panics t task fin failure cause bt input s Ht Hph Hrun Hv Hin) as [b' ->].
  unfold end_task. cbn. rewrite Ht. set (s1 := drop_fin _ _).
  assert (∀ s2, s2.(context_tasks) = s1.(context_tasks) → s2.(current_proposal) = Some t →
    (interrupt_active_proposal state_diff_hash buffer_size into_transaction try_into_executable meanwhile s2).1 = Panic) as Hint.
  { intros s2 Htasks Hcur. unfold interrupt_active_proposal, mbind, M_bind, get_st, modify. cbn. rewrite Hcur.
    rewrite (panicked_stays_all meanwhile t (cancel (set_phase TaskPanicked task))); [done| |done]. cbn. rewrite Htasks. cbn.
    by rewrite list_lookup_alter_eq, list_lookup_alter_eq, Ht. }
  unfold set_height_and_round, mbind, M_bind, get_st, modify. cbn [current_height s1 drop_fin set_fins on_task set_context_tasks set_node_batcher].
  rewrite Hh. destruct (decide (h < height)) as [Hlt|Hge].
  - rewrite bool_decide_eq_true_2 by done. cbn. destruct (bool_decide (round = 0)); [|done]. cbn.
    set (s2 := set_position _ _ _). specialize (Hint s2 eq_refl Hc). by destruct (interrupt_active_proposal _ _ _ _ _ s2) as [[] ?].
  - destruct Hnew as [?|[-> Hr]]; [done|]. rewrite bool_decide_eq_false_2, bool_decide_eq_true_2 by (done || lia). cbn.
    rewrite decide_False by lia. rewrite bool_decide_eq_true_2 by done. cbn. specialize (Hint s1 eq_refl Hc).
    by destruct (interrupt_active_proposal _ _ _ _ _ s1) as [[] ?].
Qed.
End node.

(** ** Examples *)

Module ContextExample.
Export BatcherExample.

Abbreviation Tx := ExecutableTransaction.
Abbreviation Node := (Node unit unit unit unit (list ThinStateDiff) Tx).
Abbreviation run := (run_calls (λ _, 7) 10 (λ tx : Tx, tx) Some).
Abbreviation go_to := (set_height_and_round (λ _, 7) 10 (λ tx : Tx, tx) Some).

Definition proposal_init (height : BlockNumber) (round : Round) : ProposalInit :=
  {| pi_height := height; pi_round := round; pi_valid_round := None; pi_proposer := 100 |}.

Definition step_with branch : StepInput unit unit unit unit Tx :=
  {| si_late := false; si_created := true; si_open := true; si_cende := Some true; si_branch := branch |}.

(** The last part of a stream, when the builder ends with [r]. *)
Definition last_part r : StepInput unit unit unit unit Tx :=
  step_with (NextPart (Some (PartFin {| proposal_content_id := 7 |})) None r).

Definition new_node : Node := Node_new 4 (Batcher_new []).

(** A proposal is received and its validation starts. *)
Definition receive : list Call :=
  [CallSetHeightAndRound 0 0 []; CallValidate (proposal_init 0 0); EnvCall (ContextTaskStep 0 (step_with TimedOut))].

Definition validated : list Call :=
  receive ++ [EnvCall (ContextTaskStep 0 (last_part (inr artifacts))); EnvCall (ContextTaskStep 0 (step_with TimedOut))].

Definition precommit : Vote :=
  {| vote_type := VtPrecommit; vote_height := 0; vote_round := 0; block_hash := Some 7; voter := 100 |}.

Lemma decided_block_committed_witness :
  ∃ s', context_decision_reached 7 [precommit] true (run validated new_node).2 = (Ok tt, s') ∧
    s'.(node_batcher).(batcher_storage) = [state_diff artifacts].
Proof.
  destruct (decided_block_committed (λ _, 7) 10 (λ tx : Tx, tx) Some ltac:(done) (run validated new_node).2 0 7 [] 0 precommit [])
    as (a&He&_&Hgo); [exists 4%nat, [], validated; eexists; apply surjective_pairing|by vm_compute|done|].
  vm_compute in He. injection He as <-.
  destruct (Hgo [state_diff artifacts] 1958333334) as (s'&Hs'&Hstore&_); [by vm_compute..|]. by exists s'.
Defined.

Definition queued : Node := (run [CallSetHeightAndRound 0 0 []; CallValidate (proposal_init 0 3)] new_node).2.

Lemma queued_proposals_lost_witness :
  ∃ s', go_to 0 1 [] queued = (Ok tt, s') ∧ s'.(queued_proposals) = ∅ ∧ s'.(fins) !! 0%nat = Some FinDropped.
Proof.
  destruct (queued_proposals_lost (λ _, 7) 10 (λ tx : Tx, tx) Some queued queued 0 1 []) as (_&_&Hlost); [by vm_compute..|].
  destruct Hlost as (s'&Hs'&Hq&Hf).
  { intros q [params Hparams]. assert (queued_proposals queued = {[3 := {| vp_height := 0; vp_fin := 0 |}]}) as Hq by (by vm_compute).
    rewrite Hq in Hparams. by apply lookup_singleton_Some in Hparams as [<- _]. }
  exists s'. split; [done|]. split; [done|]. by apply (Hf 3 {| vp_height := 0; vp_fin := 0 |}).
Defined.

Lemma invalid_proposal_stops_consensus_witness :
  (go_to 0 1 [] (env_step (λ _, 7) 10 (λ tx : Tx, tx) Some (run receive new_node).2
     (ContextTaskStep 0 (last_part (inl (FailOnError FailBlockFull)))))).1 = Panic.
Proof.
  eapply (invalid_proposal_stops_consensus (λ _, 7) 10 (λ tx : Tx, tx) Some 0 _ _ None FailBlockFull 0 _ _ 0 0 1 []); try done.
  - split; [done|]. split; [done|]. eexists. by vm_compute.
  - right. by vm_compute.
Defined.
End ContextExample.
