(* ===== verification/EndToEnd.v ===== *)
(** From agreement to the committed blocks: consensus of all nodes and the context of each node, as one
    system. *)
From S2P Require Import Prelude StarknetApi Mempool StateApi CachedState StateMachine SingleHeightConsensus Agreement ConsensusTheorems WorkerLogic FeeMarket BlockBuilder Batcher BatcherTheorems ConsensusContext ContextTheorems.

Section end_to_end.
Context {I E PE W St Tx : Type} `{!BatcherStorage St}.
Context (state_diff_hash : ThinStateDiff → N) (buffer_size : N).
Context (into_transaction : ExecutableTransaction → Tx) (try_into_executable : Tx → option ExecutableTransaction).
Hypothesis buffer_size_pos : buffer_size ≠ 0.
Abbreviation Node := (Node I E PE W St Tx).
Abbreviation reachable := (reachable state_diff_hash buffer_size into_transaction try_into_executable).
Abbreviation Top := (Top state_diff_hash).
Abbreviation call := (call state_diff_hash buffer_size into_transaction try_into_executable).
Implicit Types s : Node.

(** ** The blocks that a context hands to state sync *)

(** The computation hands no block to state sync. *)
Definition keeps_added {A} (m : M Node Waiting A) : Prop := ∀ s, (m s).2.(added_blocks) = s.(added_blocks).

Lemma keeps_added_bind {A B} (m : M Node Waiting A) (f : A → M Node Waiting B) : keeps_added m → (∀ a, keeps_added (f a)) → keeps_added (m ≫= f).
Proof.
  intros Hm Hf s. unfold mbind, M_bind. specialize (Hm s). destruct (m s) as [[a|e|] s1]; [|done..]. by rewrite (Hf a s1).
Qed.

Lemma keeps_added_get {A} (f : Node → M Node Waiting A) : (∀ s, keeps_added (f s)) → keeps_added (s ← get_st; f s).
Proof. intros Hf s. apply (Hf s s). Qed.

Lemma keeps_added_modify f : (∀ s, (f s).(added_blocks) = s.(added_blocks)) → keeps_added (modify f).
Proof. done. Qed.

Lemma keeps_added_expect {A} (o : option A) : keeps_added (expect o).
Proof. by destruct o. Qed.

Lemma keeps_added_assert b : keeps_added (assert_ b).
Proof. by destruct b. Qed.

Lemma keeps_added_batcher {A} m : keeps_added (expect_batcher (A := A) m).
Proof. intros s. unfold expect_batcher. by destruct (m (node_batcher s)) as [[] ?]. Qed.

Lemma end_task_added t phase s : (end_task t phase s).(added_blocks) = s.(added_blocks).
Proof. unfold end_task. by destruct (context_tasks s !! t). Qed.

Lemma drop_queued_added round s : (drop_queued round s).(added_blocks) = s.(added_blocks).
Proof. unfold drop_queued. by destruct (queued_proposals s !! round). Qed.

Lemma send_part_keeps t open part : keeps_added (send_part t open part).
Proof. by destruct open. Qed.

Create HintDb added.
Local Hint Resolve send_part_keeps keeps_added_expect keeps_added_assert keeps_added_batcher end_task_added drop_queued_added : added.

Ltac keeps_step :=
  match goal with
  | |- keeps_added (get_st ≫= _) => apply keeps_added_get; intros ?
  | |- keeps_added (_ ≫= _) => apply keeps_added_bind; [|intros ?]
  | |- keeps_added (modify _) => apply keeps_added_modify; first [done|by auto with added]
  | |- keeps_added (match ?x with _ => _ end) => destruct x
  | |- keeps_added _ => first [done|by auto with added]
  end.

Lemma task_step_keeps t input : keeps_added (task_step state_diff_hash buffer_size into_transaction try_into_executable t input).
Proof.
  unfold task_step, build_step, validate_step, initialize_build, initiate_validation, stream_proposal_content, validate_select,
    handle_proposal_part, batcher_abort_proposal, store_proposal.
  repeat keeps_step.
Qed.

Lemma env_step_added step s :
  (env_step state_diff_hash buffer_size into_transaction try_into_executable s step).(added_blocks) = s.(added_blocks).
Proof.
  destruct step as [t input|t tx|t r]; cbn; [|done|by destruct (may_finish _ _ _)].
  pose proof (task_step_keeps t input s) as Hq. destruct (task_step _ _ _ _ t input s) as [[] s']; [done..|].
  by rewrite end_task_added.
Qed.

Lemma env_steps_added steps s :
  (foldl (env_step state_diff_hash buffer_size into_transaction try_into_executable) s steps).(added_blocks) = s.(added_blocks).
Proof. revert s. induction steps as [|step steps IH]; intros s; [done|]. cbn [foldl]. by rewrite IH, env_step_added. Qed.

Lemma drop_all_added rounds s : (foldr drop_queued s rounds).(added_blocks) = s.(added_blocks).
Proof. induction rounds as [|round rounds IH]; [done|]. cbn. by rewrite drop_queued_added. Qed.

Local Hint Resolve env_step_added env_steps_added drop_all_added : added.

Lemma take_queued_keeps rounds : keeps_added (take_queued rounds).
Proof. induction rounds as [|round rounds IH]; cbn [take_queued]; repeat keeps_step. Qed.

Local Hint Resolve take_queued_keeps : added.

Lemma set_height_and_round_keeps height round meanwhile :
  keeps_added (set_height_and_round state_diff_hash buffer_size into_transaction try_into_executable height round meanwhile).
Proof.
  unfold set_height_and_round, interrupt_active_proposal, validate_current_round_proposal, fresh_proposal_id, spawn_task. repeat keeps_step.
Qed.

Local Hint Resolve set_height_and_round_keeps : added.

Lemma call_keeps c : (∀ block precommits accepted, c ≠ CallDecision block precommits accepted) → keeps_added (call c).
Proof.
  intros Hc. destruct c as [height round meanwhile|init timeout open meanwhile|init|id init|block votes accepted|sync_block|step];
    [..|by destruct (Hc block votes accepted)| |];
    unfold ContextTheorems.call, build_proposal, validate_proposal, repropose, try_sync, new_fin, validate_current_round_proposal,
      fresh_proposal_id, spawn_task;
    repeat keeps_step.
Qed.

(** A block that a decision hands to state sync is of the height of the votes, and has the state diff of
    the decided block. *)
Lemma decision_added block votes accepted s height sync_block :
  Top s → (height, sync_block) ∈ (context_decision_reached block votes accepted s).2.(added_blocks) →
  (height, sync_block) ∈ s.(added_blocks) ∨
  (vote_height <$> head votes) = Some height ∧ state_diff_hash sync_block.(sync_state_diff) = block.
Proof.
  intros HN. unfold context_decision_reached, expect_batcher, mbind, M_bind, get_st, modify. destruct (head votes) as [vote|]; [|by left].
  cbn. destruct (valid_proposals s !! vote_height vote) as [m|] eqn:Hm; [|by left]. cbn. destruct (m !! block) as [[content pid]|] eqn:Hid; [|by left].
  cbn. assert (stored s.(valid_proposals) vote.(vote_height) block pid) as Hst by (by exists m, content).
  destruct (si_valid _ _ _ _ _ (ni_inv _ _ _ _ _ HN) _ _ _ Hst) as [(_&[_ Hs]&_) _].
  destruct (decision_reached pid (node_batcher s)) as [[[diff gas]|e|] b'] eqn:Hd; cbn; [|by left..].
  destruct accepted; cbn; [|by left]. assert (state_diff_hash diff = block) as Hdiff.
  { revert Hd. unfold decision_reached, commit_proposal_and_block, mbind, M_bind, get_st, modify. cbn.
    destruct (active_height (node_batcher s)); [|done]. cbn.
    destruct (executed_proposals (node_batcher s) !! pid) as [[e|artifacts]|] eqn:He; [done| |done]. cbn.
    destruct (storage_commit_proposal _ _ _); [|done]. cbn. intros [= <- _ _]. by apply Hs. }
  intros Hin. assert ((height, sync_block) ∈ added_blocks s ++ [(vote.(vote_height), {| sync_state_diff := diff;
    sync_transaction_hashes := executable_tx_hash <$> content; sync_block_number := vote.(vote_height) |})]) as Hin'.
  { revert Hin. by destruct (calculate_next_base_gas_price _ _ _). }
  apply elem_of_app in Hin' as [?|[= -> ->]%list_elem_of_singleton]; [by left|]. by right.
Qed.

Lemma call_added c s height sync_block :
  Top s → (height, sync_block) ∈ (call c s).2.(added_blocks) →
  (height, sync_block) ∈ s.(added_blocks) ∨
  ∃ block votes accepted, c = CallDecision block votes accepted ∧ (vote_height <$> head votes) = Some height ∧
    state_diff_hash sync_block.(sync_state_diff) = block.
Proof.
  intros HN. destruct c as [| | | |block votes accepted| |]; try (rewrite call_keeps by done; by left).
  intros [?|[? ?]]%decision_added; [by left| |done]. right. by exists block, votes, accepted.
Qed.

(** ** Consensus and the contexts, as one system *)

Section joint.
Context (proposer : BlockNumber → Round → ValidatorId).
Context (broadcast_error : ValidatorId → list ContextCall → Vote → option ConsensusError).
Context (height : BlockNumber) (validators : list ValidatorId) (timeouts : TimeoutsConfig).
Context (must_observe : ValidatorId → bool) (faulty : gset ValidatorId).
Implicit Types (g : ValidatorId → replica) (contexts : ValidatorId → Node).

(** What consensus of a node may call on the context of the node: for a decision at the height, it has
    decided so; everything else is arbitrary. *)
Definition context_call_allowed (rp : replica) (c : Call (I:=I) (E:=E) (PE:=PE) (W:=W) (Tx:=Tx)) : Prop :=
  match c with
  | CallDecision block precommits _ =>
      (vote_height <$> head precommits) = Some height →
      {| dec_precommits := precommits; dec_block := block |} ∈ rp.(rp_decisions)
  | _ => True
  end.

(** Before the height, the context of an honest node is in any state that it can reach without a block
    of the height. *)
Definition contexts_ready contexts : Prop :=
  ∀ i, i ∉ faulty → reachable (contexts i) ∧ ∀ sync_block, (height, sync_block) ∉ (contexts i).(added_blocks).

(** Consensus of an honest node makes a step, or its context is called; in any order. *)
Inductive joint_reachable : (ValidatorId → replica) → (ValidatorId → Node) → Prop :=
| joint_init g contexts :
    initial height validators timeouts must_observe faulty g → contexts_ready contexts → joint_reachable g contexts
| joint_consensus g g' contexts :
    joint_reachable g contexts → Agreement.system_step proposer broadcast_error faulty g g' → joint_reachable g' contexts
| joint_context g contexts i c :
    joint_reachable g contexts → i ∉ faulty → context_call_allowed (g i) c →
    joint_reachable g (λ j, if decide (j = i) then (call c (contexts i)).2 else contexts j).

Lemma joint_system_reachable g contexts :
  joint_reachable g contexts → system_reachable proposer broadcast_error height validators timeouts must_observe faulty g.
Proof. induction 1; [by apply system_init|by eapply system_next|done]. Qed.

Lemma decisions_stay g g' i d :
  Agreement.system_step proposer broadcast_error faulty g g' → d ∈ (g i).(rp_decisions) → d ∈ (g' i).(rp_decisions).
Proof.
  intros [k c res n' Hk Hc Hrun Hp] Hd. destruct (decide (i = k)) as [->|]; [|done]. cbn.
  destruct res as [[]| |]; rewrite ?elem_of_app; auto.
Qed.

(** Every block of the height that a context has handed to state sync was decided by its own node. *)
Lemma joint_inv g contexts :
  joint_reachable g contexts → ∀ i, i ∉ faulty →
  Top (contexts i) ∧
  ∀ sync_block, (height, sync_block) ∈ (contexts i).(added_blocks) →
    ∃ d, d ∈ (g i).(rp_decisions) ∧ state_diff_hash sync_block.(sync_state_diff) = d.(dec_block).
Proof.
  induction 1 as [g contexts Hg Hc|g g' contexts _ IH Hstep|g contexts k c _ IH Hk Hc]; intros i Hi.
  - destruct (Hc i Hi) as [Hr Hno]. split; [by eapply reachable_Top|]. intros sync_block Hin. by destruct (Hno sync_block).
  - destruct (IH i Hi) as [HN Hd]. split; [done|]. intros sync_block (d&Hin&?)%Hd. exists d. split; [|done]. by eapply decisions_stay.
  - destruct (IH i Hi) as [HN Hd]. destruct (decide (i = k)) as [->|]; [|done]. split.
    + pose proof (call_ok state_diff_hash buffer_size into_transaction try_into_executable buffer_size_pos c _ HN) as Hok.
      unfold wp in Hok. done.
    + intros sync_block [?|(block&votes&accepted&->&Hh&Hs)]%call_added; [by apply Hd| |done]. eexists. split; [by apply Hc|]. done.
Qed.

(** C2: honest nodes commit the same block. Take the consensus of all nodes at a height together with
    the context and the batcher of each node, less than a third of the validators faulty.
    Consensus, the contexts, their tasks and the batchers take their steps in any order, the
    network and the faulty nodes do what they like, and the context of an honest node is told of a
    decision at the height only when its own node has decided so. If two honest nodes have then
    committed a block for the height, handing it to state sync, the state diffs of the two blocks
    have the same hash, and this is the block that the node has decided on. *)
Theorem honest_nodes_commit_alike g contexts i j sync_block sync_block' :
  NoDup validators → (3 * size (faulty ∩ validator_set validators) < length validators)%nat →
  joint_reachable g contexts → i ∉ faulty → j ∉ faulty →
  (height, sync_block) ∈ (contexts i).(added_blocks) → (height, sync_block') ∈ (contexts j).(added_blocks) →
  state_diff_hash sync_block.(sync_state_diff) = state_diff_hash sync_block'.(sync_state_diff) ∧
  ∃ d, d ∈ (g i).(rp_decisions) ∧ d.(dec_block) = state_diff_hash sync_block.(sync_state_diff).
Proof.
  intros Hnd Hf Hj Hi Hi' Hin Hin'. destruct (joint_inv g contexts Hj i Hi) as [_ Hd]. destruct (joint_inv g contexts Hj j Hi') as [_ Hd'].
  destruct (Hd _ Hin) as (d&Hdi&->), (Hd' _ Hin') as (d'&Hdj&->). split; [|by exists d].
  apply joint_system_reachable in Hj as Hr. destruct (reachable_system_inv _ _ _ _ _ _ _ _ Hnd Hr) as [Es HG].
  revert Hi Hi' Hdi Hdj. by eapply decisions_agree.
Qed.
End joint.
End end_to_end.

Module EndToEndExample.
Export ContextExample.

(** A block that sets a nonce, and a hash that adds the nonces up. *)
Definition block_seven : BlockExecutionArtifacts unit (StateMaps * unit) :=
  {| execution_infos := [];
     block_result := ({| nonces := {[3 := 7]}; class_hashes := ∅; storage := ∅; compiled_class_hashes := ∅; declared_contracts := ∅ |}, tt);
     l2_gas_used := 0 |}.

Definition nonce_sum (diff : ThinStateDiff) : N := map_fold (λ _ nonce sum, nonce + sum) 0 diff.(tsd_nonces).

(** Nodes with five blocks in storage. *)
Definition five : list ThinStateDiff := replicate 5 (state_diff artifacts).

Definition start : ValidatorId → Node := λ _, Node_new 4 (Batcher_new five).

Abbreviation Call := (Call (I:=unit) (E:=unit) (PE:=unit) (W:=unit) (Tx:=Tx)).
Abbreviation call_on := (call nonce_sum 10 (λ tx : Tx, tx) Some).

Definition context_run (calls : list (ValidatorId * Call)) : ValidatorId → Node :=
  foldl (λ contexts '(i, c), λ j, if decide (j = i) then (call_on c (contexts i)).2 else contexts j) start calls.

(** Node 0 builds the block and node 1 validates it, as in [HeightScenario]; both are told of the
    decision. *)
Definition decide_seven : Call := CallDecision 7 HeightScenario.decision.(dec_precommits) true.

Definition calls : list (ValidatorId * Call) :=
  [(0, CallBuild (proposal_init 5 0) 3000 true []); (0, EnvCall (ContextTaskStep 0 (step_with TimedOut)));
   (1, CallSetHeightAndRound 5 0 []); (1, CallValidate (proposal_init 5 0)); (0, EnvCall (BuilderFinishes 0 (inr block_seven)));
   (1, EnvCall (ContextTaskStep 0 (step_with TimedOut))); (0, EnvCall (ContextTaskStep 0 (step_with TimedOut)));
   (1, EnvCall (ContextTaskStep 0 (last_part (inr block_seven)))); (1, EnvCall (ContextTaskStep 0 (step_with TimedOut)));
   (0, EnvCall (ContextTaskStep 0 (step_with TimedOut))); (1, decide_seven); (0, decide_seven)].

Definition committed : ValidatorId → Node := context_run calls.

Abbreviation joint := (joint_reachable nonce_sum 10 (λ tx : Tx, tx) Some HeightScenario.proposer HeightScenario.broadcast_error 5
  HeightScenario.validators HeightScenario.timeouts HeightScenario.must_observe HeightScenario.faulty).

Lemma start_ready : contexts_ready nonce_sum 10 (λ tx : Tx, tx) Some 5 HeightScenario.faulty start.
Proof. intros i _. split; [|by intros ? ?%not_elem_of_nil]. exists 4%nat, five, []. by eexists. Qed.

(** Consensus comes first, and then the contexts run. *)
Lemma consensus_joint g :
  system_reachable HeightScenario.proposer HeightScenario.broadcast_error 5 HeightScenario.validators HeightScenario.timeouts
    HeightScenario.must_observe HeightScenario.faulty g → joint g start.
Proof. induction 1; [by apply joint_init; [|apply start_ready]|by eapply joint_consensus]. Qed.

Lemma context_run_joint g calls :
  joint g start → Forall (λ '(i, c), i ∉ HeightScenario.faulty ∧ context_call_allowed 5 (g i) c) calls → joint g (context_run calls).
Proof.
  unfold context_run. generalize start. induction calls as [|[i c] calls IH]; intros contexts Hj Hall; [done|].
  apply Forall_cons in Hall as [[Hi Hc] Hall]. cbn [foldl]. apply IH; [|done]. by apply joint_context.
Qed.

Lemma calls_allowed (g : ValidatorId → replica) :
  (g 0).(rp_decisions) = [HeightScenario.decision] ∧ (g 1).(rp_decisions) = [HeightScenario.decision] →
  Forall (λ '(i, c), i ∉ HeightScenario.faulty ∧ context_call_allowed 5 (g i) c) calls.
Proof.
  intros [H0 H1]. assert (0 ∉ HeightScenario.faulty ∧ 1 ∉ HeightScenario.faulty) as [Hi Hj] by (split; by apply (bool_decide_unpack _); vm_compute).
  repeat apply Forall_cons_2; try apply Forall_nil_2; (split; [done|]); try exact Logic.I; intros _; rewrite ?H0, ?H1; by left.
Qed.

Lemma committed_joint : joint HeightScenario.final committed.
Proof.
  apply context_run_joint.
  - apply consensus_joint, (HeightScenario.run_reachable HeightScenario.calls).
  - apply calls_allowed, HeightScenario.final_decisions.
Qed.

Definition sync_seven : SyncBlock := {| sync_state_diff := state_diff block_seven; sync_transaction_hashes := []; sync_block_number := 5 |}.

Lemma committed_blocks : (committed 0).(added_blocks) = [(5, sync_seven)] ∧ (committed 1).(added_blocks) = [(5, sync_seven)].
Proof. split; vm_compute; reflexivity. Qed.

Lemma honest_nodes_commit_alike_witness :
  ∃ d, d ∈ (HeightScenario.final 0).(rp_decisions) ∧ d.(dec_block) = nonce_sum (state_diff block_seven).
Proof.
  destruct committed_blocks as [H0 H1].
  apply (honest_nodes_commit_alike nonce_sum 10 (λ tx : Tx, tx) Some ltac:(done) HeightScenario.proposer
    HeightScenario.broadcast_error 5 HeightScenario.validators HeightScenario.timeouts HeightScenario.must_observe
    HeightScenario.faulty HeightScenario.final committed 0 1 sync_seven sync_seven);
    [by apply (bool_decide_unpack _); vm_compute|vm_compute; lia|exact committed_joint
    |by apply (bool_decide_unpack _); vm_compute|by apply (bool_decide_unpack _); vm_compute
    |rewrite H0; left|rewrite H1; left].
Defined.
End EndToEndExample.
